(* ===== verification/_CoqProject ===== *)
-Q . S2P
Prelude.v
BTree.v
Float64.v
Float64Proofs.v
Encoding.v
Hash.v
Json.v
Merkle.v
AuditFormat.v
AuditVerifier.v
Instances.v
ChainProofs.v
AnchorProofs.v
CoverageProofs.v
VerdictProofs.v
Ledger.v
LedgerProofs.v
AnchorBatches.v
SweepProofs.v
LedgerInstances.v
SignedProofs.v
CircuitBreaker.v
BreakerProofs.v
BreakerTheorems.v
Network.v
Glob.v
KeyPolicy.v
KeyPolicyProofs.v
Budgets.v
BudgetProofs.v
BudgetInvariants.v
BudgetAlerts.v
Limits.v
LimitProofs.v
Controls.v
Admission.v
AdmissionProofs.v
SpendProofs.v
Catalog.v
CatalogProofs.v
Pricing.v
PricingProofs.v
Routing.v
RoutingProofs.v
RoutedAdmission.v
Ingest.v
IngestProofs.v
SpanWriter.v
SpanWriterProofs.v
PreAuth.v
PreAuthProofs.v
StrictJson.v
Attempt.v
KnownKeys.v
KnownKeysProofs.v
Authority.v
KeyCache.v
KeyCacheProofs.v
ResponseCache.v
ResponseCacheProofs.v
CacheKeyProofs.v
CacheServing.v
CacheServingProofs.v
Dispatch.v
DispatchProofs.v
Failover.v
FailoverProofs.v
FailoverTheorems.v
ProviderKeys.v
