(* ===== verification/Prelude.v ===== *)
(** * Tracelane: a verification development of the gateway, the audit ledger and ingest

    ** The program

    Tracelane is a gateway for calls to language-model providers, with an audit ledger
    that a customer can check and an ingest service that stores the traces.

    - A request.  The gateway authenticates the caller's API key ([db/api_keys.rs], behind
      the limiter of [preauth_limiter.rs]), reads the body ([strict_json.rs]) and runs
      admission ([admission.rs]): workspace controls, rate limits, key policies, limits,
      budgets, the audit record.  Routing ([routing/mod.rs]) picks the candidate models,
      the catalog ([providers/catalog.rs]) their providers, [routing/attempt.rs] checks
      each attempt again, the circuit breaker ([circuit_breaker.rs]) decides whether a
      provider is tried, [ssrf_guard.rs] where a call may go, and [pricing.rs] what it
      cost.  The response cache ([semantic_cache.rs]) may answer instead of a provider;
      otherwise the chat handler ([server/chat.rs], [server/dispatch.rs],
      [providers/failover.rs]) sends the request, retries it, and moves to other keys,
      targets and providers.
      All these files are under [crates/gateway/src], the shared policy types under
      [crates/shared/src].
    - The ledger.  Every audit event of a tenant becomes one row of a hash chain
      ([audit.rs], [audit_format], [db/audit_chain_state.rs], [db/ledger.rs]).  Runs of
      rows are hashed into a Merkle tree, signed with the workspace key and published to
      a transparency log.  An export is checked offline by a program that shares no code
      with the gateway ([packages/verifier-rust/src/lib.rs]); the command line tool turns
      its report into a verdict ([crates/tracelane-audit-cli/src/main.rs]).
    - Ingest.  The ingest service samples, bounds and stores spans
      ([crates/ingest/src/clickhouse_writer.rs] and the guards beside it), and meters them.

    ** The files

    Shared: [Prelude] (bytes, machine integers, [Result], tactics, lists, sums over maps),
    [BTree] (Rust's [BTreeMap]), [Float64] and [Float64Proofs] ([f64]), [Encoding]
    (big-endian integers, hex, uuids, base64, decimal text), [Hash] (SHA-256).

    The ledger:
    - [Json], [Merkle], [AuditFormat]: canonical text, tree hashes, the bytes that are
      hashed and signed;
    - [AuditVerifier]: the verifier; its state is the report and, in the chain pass, a map
      from tenants to their chain state.  [ChainProofs], [AnchorProofs], [CoverageProofs],
      [VerdictProofs]: its theorems.  [Instances]: the repository's conformance vectors;
    - [Ledger]: the producer; the Postgres tables are the record [Store], a statement is a
      function on it, a failing transaction leaves it as it was.  [LedgerProofs],
      [AnchorBatches], [SweepProofs], [SignedProofs]: its theorems; [LedgerInstances]:
      concrete ledgers.

    The gateway:
    - [CircuitBreaker], [BreakerProofs], [BreakerTheorems]: entries live in a store of
      their own, which the map and the credential handles share by address;
    - [Network], [Glob], [KeyPolicy], [KeyPolicyProofs]: outbound addresses, model
      patterns, policy documents and their evaluation;
    - [Budgets] with [BudgetProofs], [BudgetInvariants], [BudgetAlerts]; [Limits] with
      [LimitProofs]; [Controls] with [SpendProofs]: the tables of counters and buckets, one
      operation under the tenant's lock being one step;
    - [Admission] and [AdmissionProofs]: the steps of [run] in their order over the shared
      state; [Routing], [RoutingProofs]: documents and plans; [RoutedAdmission]: the two
      composed; [Attempt]: the checks of an attempt;
    - [Catalog], [CatalogProofs], [Pricing], [PricingProofs]: providers and prices;
    - [PreAuth], [PreAuthProofs], [StrictJson]: before authentication;
    - [KnownKeys], [KnownKeysProofs], [KeyCache], [KeyCacheProofs], [Authority]: the keys,
      their caches over every interleaving of requests, refreshes and writers, and what a
      caller may do;
    - [ResponseCache], [ResponseCacheProofs], [CacheKeyProofs], [CacheServing],
      [CacheServingProofs]: the response cache, from its settings to the chat route;
    - [Dispatch], [DispatchProofs]: what a failure says, the retry loop, the keys of a
      provider, the failover configuration, the kill switch; [ProviderKeys]: the cache of
      decrypted provider keys ([db/provider_keys.rs]) under interleaved requests, refreshes
      and writers; [Failover],
      [FailoverProofs], [FailoverTheorems]: the dispatch of a chat request, over a world of
      effects ([ChatWorld]) that holds the breaker.

    Ingest: [Ingest], [IngestProofs] (the guards), [SpanWriter], [SpanWriterProofs] (the
    loop that stores, acknowledges and meters).

    ** What the theorems show

    - Evidence.  A PASS means that every row was read, every tenant's rows chain from a
      trusted root, every anchor is attested by a given key and at least one is publicly
      included ([pass_is_evidence]); the chain flag is characterised exactly
      ([verify_chain_valid_iff]); two accepted ledgers with one tip are the same ledger
      ([chain_tamper_evidence]); preimages, canonical payloads and Merkle roots determine
      what they were computed from; the level loop is the RFC 6962 tree hash.
    - Production.  Every reachable store exports to a ledger that verifies
      ([exported_ledger_verifies]), whatever the copy holds and whatever statements fail, but
      for the one that leaves adopted rows without their head; redelivered events append
      nothing; the age sweep reaches every row old enough; a signed batch is accepted by the
      verifier.
    - Admission.  An admitted request passed every gate ([admission_sound]), a refused one
      charges nothing in the steps after the refusal ([refusal_charges_nothing_later]); a
      policy verdict is the conjunction of every rule of every layer
      ([policy_is_every_layer]); a budget verdict is the spend of its window
      ([budget_verdict_exact]) and an unreadable one refuses; limits charge all or nothing;
      what routing dispatches, and each attempt, is permitted ([dispatched_is_permitted],
      [attempt_is_permitted]).
    - Authentication.  A grant rests on a read of the row recent enough for its path
      ([grant_rests_on_read]); a key revoked in this process is refused from its
      invalidation on, and within the stale limit if that never comes
      ([revoked_here_is_refused]); a key refused without a lookup was read dead no longer
      than a reload ago ([absent_was_read_dead]); a source is bounded in its lookups in
      vain, and only those cost it ([junk_lookups_bounded]); a key holds no more than its
      minter may grant, a body that is accepted has one reading.
    - The response cache.  Without consent it is neither read nor written
      ([no_consent_no_cache]); a hit is an answer of the same tenant, namespace and epochs,
      young enough, and for the exact tier of the same messages ([hits_stay_in_scope]); an
      invalidation hides all that was stored before it ([invalidation_is_complete]); what
      is stored is served; texts go only to embedding models the policies allow.
    - Dispatch.  Every dispatch ends, a routed one within its limit of attempts
      ([chat_dispatch_is_bounded]); what is sent goes to the provider of its model, and
      after the first target only to hops that pass every check ([hops_are_permitted]);
      nothing is sent after an answer, keys rotate only on key failures, and a request that
      is denied at its first target stays denied ([answers_end_the_walk]); retries fit their budget and a
      configured retry is never lost ([retry_is_bounded], [configured_retries_all_run]);
      the operator's own key is never spent for a tenant ([environment_is_never_spent]); a
      deleted provider key is never served again ([deleted_key_is_never_served]).
    - Reference definitions.  The pattern walk decides the declarative patterns, the
      bucketed catalog answers the best prefix, the spend cap is the sum of the month.
    - Robustness.  The breaker keeps its memory bounded, never wedges, and no tenant can
      shut a provider off for others; calls go to public addresses only, the network
      0.0.0.0/8 aside; acknowledged
      spans are durable, metered once, and an outage is outlasted.
    - Defects, stated on concrete runs or as general equalities:
      [coverage_misses_hole_below_other_window], [empty_batch_blocks_anchor],
      [pinned_key_is_never_checked], [v1_formats_are_ambiguous], [backoff_restarts],
      [unread_spend_carries_over], [evicted_counters_leak], [end_user_bound_exceeded],
      [cap_forgets], [zero_network_not_blocked], [active_trace_is_swept],
      [repeated_key_overflows], [dropped_span_leaves_blobs], [late_extension_is_refused],
      [top_p_collides_with_system], [refresh_drops_forced_flags],
      [later_target_is_judged_by_name], [kms_refusal_reads_as_no_key],
      [keyless_target_is_skipped_later], [later_alias_is_not_replaced],
      [adopted_without_head_breaks_chain], [moved_request_keeps_key],
      [denied_hop_is_passed_over], [commit_alone_revokes_nothing].

    ** Parameters

    Code outside the repository is an argument, with the laws that the code relies on:
    [Sha256Fn] and [Blake3Fn] (32-byte digests; collision freedom is assumed only on the
    finite list of inputs that a statement names), [JsonNumber], [SerdeJson] and
    [WireTypes] ([serde_json] and the derived serializers), [Crypto] (no law; signing
    assumes that a signature verifies under its own key), [Uuid], [Base64], the calendar
    ([Datelike]), the keyed hash of end-user ids, URL parsing and name lookup, the digest
    and the verification of an API key (HMAC, Argon2id), the clock of the database, the
    sketch of the cardinality guard, redaction and blob digests of the span writer, the
    distance of ClickHouse.  Texts of embedded tables, the results of reads and the clocks
    are arguments.  Each parameter has a concrete instance, on which the witnesses run.

    ** Bounds and fuel

    Integers are [Z] with the source's casts, saturation and checks written out; floating
    point is IEEE 754 through [SpecFloat].  The loops with fuel: the Merkle levels (the
    number of leaves: each level is shorter), [collect_leaves] and [fill_from_copy] (one
    more than the number of rows: each step uses one up, [batch_leaves_exact] shows that
    the bound never bites), trimming (the length of the text), [glob_loop] (the product of
    the lengths, shown to be enough), [facing_names] (the length of the name), the eviction
    of stale answers (the size of the map), the retry loop (one more than the retries) and the
    walks of a key pool (one more than its labels), shown to be enough by
    [retry_is_bounded] and [chat_dispatch_is_bounded].

    ** Not modelled

    HTTP handlers and streaming, SQL text (a statement is what it selects or changes), the
    exchange with the transparency log, key storage and encryption, free text of errors,
    metrics and logging.  Of the ledger: the in-memory append path, the queue in front of
    the appends, the third rule of the boot reconcile (it writes only the copy), the paging
    of the export.  Of the gateway: the statistics behind the latency strategy (a
    function here), the relay of bodies, the adapters that translate requests for the providers and the
    check of what a wire supports, prices per unit, session tokens, the trace, dataset and evaluation routes, the guardrail engine with its
    detectors.  Of ingest: the receivers and the cache of tenant settings. *)

From Stdlib Require Import ZArith Lia.
From Stdlib Require Export Strings.Byte.
From stdpp Require Export base list option countable strings sets gmap.
From stdpp Require Import sorting.

(** ** Bytes and byte strings

    A Rust [u8] is a [byte]; [Vec<u8>], [&[u8]], [[u8; N]], [String] and
    [&str] are byte lists (a Rust string is its UTF-8 encoding). *)

Abbreviation bytes := (list byte).

(** Byte-string literals, [b"..."] in the source. *)
Definition lit (s : string) : bytes := String.list_byte_of_string s.

Arguments lit : simpl never.

(** [u8 as u32/u64]. *)
Definition byteZ (b : byte) : Z := Z.of_N (Byte.to_N b).

(** The truncating cast [x as u8]. *)
Definition Zbyte (z : Z) : byte := default x00 (Byte.of_N (Z.to_N (z mod 256))).

#[global] Instance byte_eq_dec : EqDecision byte := Byte.byte_eq_dec.

Lemma byteZ_bounds (b : byte) : (0 ≤ byteZ b < 256)%Z.
Proof. unfold byteZ. pose proof (Byte.to_N_bounded b). lia. Qed.

Lemma Zbyte_byteZ (b : byte) : Zbyte (byteZ b) = b.
Proof.
  unfold Zbyte, byteZ. pose proof (Byte.to_N_bounded b).
  rewrite Z.mod_small by lia. rewrite N2Z.id, Byte.of_to_N. done.
Qed.

Lemma byteZ_Zbyte (z : Z) : byteZ (Zbyte z) = (z mod 256)%Z.
Proof.
  unfold Zbyte, byteZ. pose proof (Z.mod_pos_bound z 256 ltac:(lia)).
  destruct (Byte.of_N (Z.to_N (z mod 256))) as [b|] eqn:E; simpl.
  - apply Byte.to_of_N in E. rewrite E. lia.
  - apply Byte.of_N_None_iff in E. lia.
Qed.

#[global] Instance byteZ_inj : Inj (=) (=) byteZ.
Proof. intros a b E. by rewrite <- (Zbyte_byteZ a), <- (Zbyte_byteZ b), E. Qed.

Lemma Zbyte_small_inj (a b : Z) :
  (0 ≤ a < 256)%Z → (0 ≤ b < 256)%Z → Zbyte a = Zbyte b → a = b.
Proof.
  intros Ha Hb E%(f_equal byteZ). rewrite !byteZ_Zbyte in E.
  by rewrite !Z.mod_small in E by lia.
Qed.

#[global] Program Instance byte_countable : Countable byte :=
  inj_countable Byte.to_N Byte.of_N _.
Next Obligation. intros b. apply Byte.of_to_N. Qed.

(** ** Machine integers

    Unsigned integers are [Z] kept in range by the predicates below; where
    the source wraps, saturates or checks, the definitions write it out. *)

Definition u32_max : Z := 2 ^ 32 - 1.
Definition u64_max : Z := 2 ^ 64 - 1.
Definition i64_max : Z := 2 ^ 63 - 1.

Definition is_u32 (z : Z) : Prop := (0 ≤ z ≤ u32_max)%Z.
Definition is_u64 (z : Z) : Prop := (0 ≤ z ≤ u64_max)%Z.

(** [usize as u64] of a length. *)
Definition lenZ {A} (l : list A) : Z := Z.of_nat (length l).

(** [a.saturating_sub(b)] on an unsigned type. *)
Definition sat_sub (a b : Z) : Z := Z.max 0 (a - b).

(** [a.saturating_add(b)] on [u64]. *)
Definition sat_add64 (a b : Z) : Z := Z.min u64_max (a + b).

Lemma lenZ_nonneg {A} (l : list A) : (0 ≤ lenZ l)%Z.
Proof. unfold lenZ. lia. Qed.

Lemma lenZ_app {A} (l k : list A) : lenZ (l ++ k) = (lenZ l + lenZ k)%Z.
Proof. unfold lenZ. rewrite length_app. lia. Qed.

(** Induction two elements at a time. *)
Lemma list_pair_ind {A} (P : list A → Prop) :
  P [] → (∀ x, P [x]) → (∀ x y l, P l → P (x :: y :: l)) → ∀ l, P l.
Proof.
  intros H0 H1 H2 l. enough (P l ∧ ∀ x, P (x :: l)) by tauto.
  induction l as [|y l [IH IHc]]; split; auto.
Qed.

Lemma list_triple_ind {A} (P : list A → Prop) :
  P [] → (∀ x, P [x]) → (∀ x y, P [x; y]) →
  (∀ x y z l, P l → P (x :: y :: z :: l)) → ∀ l, P l.
Proof.
  intros H0 H1 H2 H3 l. enough (P l ∧ (∀ x, P (x :: l)) ∧ ∀ x y, P (x :: y :: l)) by tauto.
  induction l as [|z l (IH & IH1 & IH2)]; repeat split; auto.
Qed.

(** ** Results

    [Result<A, E>] with the [?] operator as a bind. *)

Inductive result (A E : Type) : Type :=
  | Ok (a : A)
  | Err (e : E).
Arguments Ok {A E} a.
Arguments Err {A E} e.

Definition rbind {A B E} (r : result A E) (k : A → result B E) : result B E :=
  match r with Ok a => k a | Err e => Err e end.

Definition ok {A E} (r : result A E) : option A :=
  match r with Ok a => Some a | Err _ => None end.

Definition ok_or {A E} (o : option A) (e : E) : result A E :=
  match o with Some a => Ok a | None => Err e end.

Definition map_err {A E F} (f : E → F) (r : result A E) : result A F :=
  match r with Ok a => Ok a | Err e => Err (f e) end.

Declare Scope rust_scope.
Delimit Scope rust_scope with rust.

(** [let? x := e in k] is Rust's [let x = e?; k]. *)
Notation "'let?' x ':=' e 'in' k" := (rbind e (λ x, k))
  (at level 10, x name, e at level 100, k at level 200) : rust_scope.
Notation "'let?' ' p ':=' e 'in' k" := (rbind e (λ x, match x with p => k end))
  (at level 10, p pattern, e at level 100, k at level 200) : rust_scope.
Open Scope rust_scope.

Lemma rbind_Ok {A B E} (r : result A E) (k : A → result B E) (b : B) :
  rbind r k = Ok b ↔ ∃ a, r = Ok a ∧ k a = Ok b.
Proof. destruct r as [a|e]; simpl; split; [eauto | intros (a' & [= ->] & ?); done | done | intros (a' & ? & _); done]. Qed.

(** ** Tactics and hint databases *)

Create HintDb tlane.

(** Linear arithmetic with division and modulo by constants. *)
Ltac dlia := Z.div_mod_to_equations; lia.

(** Case on the scrutinee of the first [match] or [if] of the goal. *)
Ltac dmatch :=
  match goal with
  | |- context [match ?x with _ => _ end] =>
      lazymatch x with
      | context [match _ with _ => _ end] => fail
      | _ => destruct x eqn:?
      end
  end.

(** The same in a hypothesis. *)
Ltac dmatch_in H :=
  match type of H with
  | context [match ?x with _ => _ end] =>
      lazymatch x with
      | context [match _ with _ => _ end] => fail
      | _ => destruct x eqn:?
      end
  end.

(** Turn boolean comparisons among the hypotheses into propositions. *)
Ltac breflect :=
  repeat match goal with
  | H : (_ && _)%bool = true |- _ => apply andb_prop in H as [? ?]
  | H : (_ || _)%bool = false |- _ => apply orb_false_elim in H as [? ?]
  | H : negb _ = true |- _ => apply negb_true_iff in H
  | H : negb _ = false |- _ => apply negb_false_iff in H
  | H : (_ =? _)%Z = true |- _ => apply Z.eqb_eq in H
  | H : (_ =? _)%Z = false |- _ => apply Z.eqb_neq in H
  | H : (_ <=? _)%Z = true |- _ => apply Z.leb_le in H
  | H : (_ <=? _)%Z = false |- _ => apply Z.leb_gt in H
  | H : (_ <? _)%Z = true |- _ => apply Z.ltb_lt in H
  | H : (_ <? _)%Z = false |- _ => apply Z.ltb_ge in H
  | H : (_ =? _)%nat = true |- _ => apply Nat.eqb_eq in H
  | H : (_ =? _)%nat = false |- _ => apply Nat.eqb_neq in H
  | H : (_ <=? _)%nat = true |- _ => apply Nat.leb_le in H
  | H : (_ <=? _)%nat = false |- _ => apply Nat.leb_gt in H
  | H : (_ <? _)%nat = true |- _ => apply Nat.ltb_lt in H
  | H : (_ <? _)%nat = false |- _ => apply Nat.ltb_ge in H
  | H : bool_decide _ = true |- _ => apply bool_decide_eq_true in H
  | H : bool_decide _ = false |- _ => apply bool_decide_eq_false in H
  end.

(** ** Sorting and removing repetitions *)

(** [Vec::dedup]: consecutive repetitions removed. *)
Fixpoint dedup (l : list Z) : list Z :=
  match l with
  | x :: (y :: _) as l' => if (x =? y)%Z then dedup l' else x :: dedup l'
  | l => l
  end.

Lemma dedup_cons (x y : Z) (l : list Z) :
  dedup (x :: y :: l) = if (x =? y)%Z then dedup (y :: l) else x :: dedup (y :: l).
Proof. done. Qed.

Lemma elem_of_dedup (l : list Z) (x : Z) : x ∈ dedup l ↔ x ∈ l.
Proof.
  induction l as [|y l IH]; [done|]. destruct l as [|z l]; [done|]. rewrite dedup_cons.
  destruct (Z.eqb_spec y z) as [->|Hne].
  - rewrite IH, !elem_of_cons. tauto.
  - rewrite elem_of_cons, IH, !elem_of_cons. done.
Qed.

Lemma dedup_NoDup (l : list Z) : StronglySorted Z.le l → NoDup (dedup l).
Proof.
  induction l as [|y l IH]; intros Hs; [constructor|]. destruct l as [|z l]; [apply NoDup_singleton|].
  apply StronglySorted_inv in Hs as [Hs Hall]. rewrite dedup_cons.
  destruct (Z.eqb_spec y z) as [->|Hne]; [by apply IH|]. apply NoDup_cons. split; [|by apply IH].
  rewrite elem_of_dedup. intros Hin. apply Forall_cons in Hall as [Hyz _].
  apply StronglySorted_inv in Hs as [_ Hz].
  apply elem_of_cons in Hin as [->|Hin]; [done|]. eapply Forall_forall in Hz; [|exact Hin]. simpl in Hz. lia.
Qed.

Lemma sorted_seqs (l : list Z) :
  NoDup (dedup (merge_sort Z.le l)) ∧ ∀ x, x ∈ dedup (merge_sort Z.le l) ↔ x ∈ l.
Proof.
  split.
  - apply dedup_NoDup. apply (StronglySorted_merge_sort Z.le).
  - intros x. rewrite elem_of_dedup. by rewrite merge_sort_Permutation.
Qed.

Lemma filter_all {A} (P : A → Prop) `{∀ x, Decision (P x)} (l : list A) : Forall P l → filter P l = l.
Proof. induction 1 as [|x l Hx _ IH]; [done|]. rewrite filter_cons_True by done. by f_equal. Qed.

Lemma filter_none {A} (P : A → Prop) `{∀ x, Decision (P x)} (l : list A) : Forall (λ x, ¬ P x) l → filter P l = [].
Proof. induction 1 as [|x l Hx _ IH]; [done|]. by rewrite filter_cons_False. Qed.

Lemma filter_Forall_iff {A} (P Q : A → Prop) `{∀ x, Decision (P x), ∀ x, Decision (Q x)} (l : list A) :
  Forall (λ x, P x ↔ Q x) l → filter P l = filter Q l.
Proof.
  induction 1 as [|x l Hx _ IH]; [done|]. rewrite !filter_cons, IH. repeat case_decide; tauto.
Qed.

Lemma existsb_elem_of {A} (f : A → bool) (l : list A) : existsb f l = true ↔ ∃ x, x ∈ l ∧ f x = true.
Proof. rewrite existsb_exists. by setoid_rewrite list_elem_of_In. Qed.

Lemma forallb_elem_of {A} (f : A → bool) (l : list A) : forallb f l = true ↔ ∀ x, x ∈ l → f x = true.
Proof. rewrite forallb_forall. by setoid_rewrite list_elem_of_In. Qed.

(** ** Sums over maps *)

Definition map_sum `{Countable K} {A} (w : K → A → Z) (m : gmap K A) : Z :=
  map_fold (λ k v n, (w k v + n)%Z) 0%Z m.

Section map_sum.
Context `{Countable K} {A : Type}.
Implicit Types (w : K → A → Z) (m : gmap K A).

Lemma map_sum_empty w : map_sum w ∅ = 0%Z.
Proof. apply map_fold_empty. Qed.

Lemma map_sum_insert_new w m k v : m !! k = None → map_sum w (<[k := v]> m) = (w k v + map_sum w m)%Z.
Proof. intros Hm. unfold map_sum. rewrite map_fold_insert_L; [done| |done]. intros; lia. Qed.

Lemma map_sum_delete w m k : map_sum w (delete k m) = (map_sum w m - from_option (w k) 0 (m !! k))%Z.
Proof.
  destruct (m !! k) as [v|] eqn:E; simpl.
  - rewrite <- (insert_delete_id _ _ _ E) at 2. rewrite map_sum_insert_new by apply lookup_delete_eq. lia.
  - rewrite delete_id by done. lia.
Qed.

Lemma map_sum_insert w m k v :
  map_sum w (<[k := v]> m) = (w k v + map_sum w m - from_option (w k) 0 (m !! k))%Z.
Proof.
  rewrite <- insert_delete_eq, map_sum_insert_new, map_sum_delete by apply lookup_delete_eq. lia.
Qed.

Lemma map_sum_ext w w' m : (∀ k v, m !! k = Some v → w k v = w' k v) → map_sum w m = map_sum w' m.
Proof.
  induction m as [|k v m Hm IH] using map_ind; intros Hw; [done|]. rewrite !map_sum_insert_new by done.
  rewrite (Hw k v) by apply lookup_insert_eq. f_equal. apply IH. intros k' v' E. apply Hw.
  rewrite lookup_insert_ne; [done|]. by intros ->; rewrite Hm in E.
Qed.

Lemma map_sum_add w w' m : map_sum (λ k v, w k v + w' k v)%Z m = (map_sum w m + map_sum w' m)%Z.
Proof. induction m as [|k v m Hm IH] using map_ind; [done|]. rewrite !map_sum_insert_new, IH by done. lia. Qed.

Lemma map_sum_le w w' m : (∀ k v, m !! k = Some v → w k v ≤ w' k v)%Z → (map_sum w m ≤ map_sum w' m)%Z.
Proof.
  induction m as [|k v m Hm IH] using map_ind; intros Hw; [done|]. rewrite !map_sum_insert_new by done.
  specialize (Hw k v ltac:(by rewrite lookup_insert_eq)) as Hkv.
  assert (map_sum w m ≤ map_sum w' m)%Z; [|lia]. apply IH. intros k' v' E. apply Hw.
  rewrite lookup_insert_ne; [done|]. by intros ->; rewrite Hm in E.
Qed.

Lemma map_sum_filter w (P : K * A → Prop) `{∀ x, Decision (P x)} m :
  map_sum w (filter P m) = map_sum (λ k v, if decide (P (k, v)) then w k v else 0%Z) m.
Proof.
  induction m as [|k v m Hm IH] using map_ind; [done|]. rewrite map_sum_insert_new by done.
  case_decide as HP.
  - rewrite map_filter_insert_True by done. rewrite map_sum_insert_new; [by rewrite IH|].
    apply map_lookup_filter_None. by left.
  - rewrite map_filter_insert_False, delete_id, IH by done. lia.
Qed.

Lemma map_sum_size m : map_sum (λ _ _, 1%Z) m = Z.of_nat (size m).
Proof.
  induction m as [|k v m Hm IH] using map_ind; [by rewrite map_size_empty|].
  rewrite map_sum_insert_new, map_size_insert_None, IH by done. lia.
Qed.

Lemma map_sum_nonneg w m : (∀ k v, m !! k = Some v → 0 ≤ w k v)%Z → (0 ≤ map_sum w m)%Z.
Proof.
  intros Hw. transitivity (map_sum (λ _ _, 0%Z) m); [|by apply map_sum_le].
  clear Hw. induction m as [|k v m Hm IH] using map_ind; [done|]. by rewrite map_sum_insert_new.
Qed.
End map_sum.

Lemma map_sum_fmap `{Countable K} {A B : Type} (w : K → B → Z) (f : A → B) (m : gmap K A) :
  map_sum w (f <$> m) = map_sum (λ k v, w k (f v)) m.
Proof.
  induction m as [|k v m Hm IH] using map_ind; [by rewrite fmap_empty|].
  rewrite fmap_insert, !map_sum_insert_new, IH; [done|done|]. by rewrite lookup_fmap, Hm.
Qed.
