(* ===== verification/BTree.v ===== *)
(** * Ordered maps

    Rust's [BTreeMap<String, V>] as the code uses it: keyed by byte strings in
    byte-wise lexicographic order, read with [get], written with [insert] and
    the [entry] API, iterated in key order.  The representation is the
    association list in iteration order. *)

From Stdlib Require Import ZArith Lia.
From stdpp Require Import base list option sorting.
From S2P Require Import Prelude.

(** ** Byte-wise lexicographic order, the [Ord] instance of [String] *)

Fixpoint bytes_compare (a b : bytes) : comparison :=
  match a, b with
  | [], [] => Eq
  | [], _ :: _ => Lt
  | _ :: _, [] => Gt
  | x :: a', y :: b' =>
      match (byteZ x ?= byteZ y)%Z with
      | Eq => bytes_compare a' b'
      | c => c
      end
  end.

Definition bytes_lt (a b : bytes) : Prop := bytes_compare a b = Lt.

Lemma bytes_compare_eq (a b : bytes) : bytes_compare a b = Eq ↔ a = b.
Proof.
  split.
  - revert b. induction a as [|x a IH]; intros [|y b]; simpl; try done.
    destruct (Z.compare_spec (byteZ x) (byteZ y)) as [E| |]; try done.
    intros ->%IH. by apply (inj byteZ) in E as ->.
  - intros <-. induction a as [|x a IH]; simpl; [done|]. by rewrite Z.compare_refl.
Qed.

Lemma bytes_compare_antisym (a b : bytes) :
  bytes_compare b a = CompOpp (bytes_compare a b).
Proof.
  revert b. induction a as [|x a IH]; intros [|y b]; simpl; try done.
  rewrite (Z.compare_antisym (byteZ x)). destruct (byteZ x ?= byteZ y)%Z; simpl; auto.
Qed.

#[global] Instance bytes_lt_trans : Transitive bytes_lt.
Proof.
  unfold bytes_lt. intros a. induction a as [|x a IH]; intros [|y b] [|z c]; simpl; try done.
  destruct (Z.compare_spec (byteZ x) (byteZ y)), (Z.compare_spec (byteZ y) (byteZ z)); try done;
    destruct (Z.compare_spec (byteZ x) (byteZ z)); try done; try lia; eauto.
Qed.

#[global] Instance bytes_lt_irrefl : Irreflexive bytes_lt.
Proof.
  intros a H. unfold bytes_lt in H.
  by rewrite (proj2 (bytes_compare_eq a a) eq_refl) in H.
Qed.

Definition bytes_leb (a b : bytes) : bool :=
  match bytes_compare a b with Gt => false | _ => true end.

(** ** The map *)

Module BTreeMap.
Section map.
Context {V : Type}.

Definition t : Type := list (bytes * V).

Fixpoint get (k : bytes) (m : t) : option V :=
  match m with
  | [] => None
  | (k', v) :: m' => if decide (k = k') then Some v else get k m'
  end.

Fixpoint insert (k : bytes) (v : V) (m : t) : t :=
  match m with
  | [] => [(k, v)]
  | (k', v') :: m' =>
      match bytes_compare k k' with
      | Lt => (k, v) :: (k', v') :: m'
      | Eq => (k, v) :: m'
      | Gt => (k', v') :: insert k v m'
      end
  end.

(** [entry(k).and_modify(f).or_insert(v)]; with [f] the identity,
    [entry(k).or_insert(v)]. *)
Definition upsert (k : bytes) (f : V → V) (v : V) (m : t) : t :=
  insert k (match get k m with Some w => f w | None => v end) m.

Definition sorted (m : t) : Prop := StronglySorted bytes_lt m.*1.

Lemma get_insert (k j : bytes) (v : V) (m : t) :
  get j (insert k v m) = if decide (j = k) then Some v else get j m.
Proof.
  induction m as [|[k' v'] m IH]; simpl; [done|].
  destruct (bytes_compare k k') eqn:E; simpl.
  - apply bytes_compare_eq in E as ->. by case_decide.
  - done.
  - rewrite IH. repeat case_decide; subst; try done.
    by rewrite (proj2 (bytes_compare_eq _ _) eq_refl) in E.
Qed.

Lemma get_insert_eq (k : bytes) (v : V) (m : t) : get k (insert k v m) = Some v.
Proof. rewrite get_insert. by case_decide. Qed.

Lemma get_insert_ne (k j : bytes) (v : V) (m : t) :
  j ≠ k → get j (insert k v m) = get j m.
Proof. intros. rewrite get_insert. by case_decide. Qed.

Lemma get_upsert (k j : bytes) f (v : V) (m : t) :
  get j (upsert k f v m) =
  if decide (j = k) then Some (match get k m with Some w => f w | None => v end)
  else get j m.
Proof. apply get_insert. Qed.

Lemma elem_of_keys_insert (k j : bytes) (v : V) (m : t) :
  j ∈ (insert k v m).*1 ↔ j = k ∨ j ∈ m.*1.
Proof.
  induction m as [|[k' v'] m IH]; simpl; [set_solver|].
  destruct (bytes_compare k k') eqn:E; simpl; [|set_solver..].
  apply bytes_compare_eq in E as ->. set_solver.
Qed.

Lemma insert_sorted (k : bytes) (v : V) (m : t) : sorted m → sorted (insert k v m).
Proof.
  unfold sorted. induction m as [|[k' v'] m IH]; simpl.
  - intros _. repeat constructor.
  - intros [Hs Hall]%StronglySorted_inv.
    destruct (bytes_compare k k') eqn:E; simpl.
    + apply bytes_compare_eq in E as ->. by constructor.
    + constructor; [by constructor|]. constructor; [done|].
      eapply Forall_impl; [exact Hall|]. intros y ?. by trans k'.
    + constructor; [auto|]. apply Forall_forall. intros y.
      rewrite elem_of_keys_insert. intros [->|Hy].
      * unfold bytes_lt. by rewrite bytes_compare_antisym, E.
      * by eapply Forall_forall in Hall.
Qed.

Lemma upsert_sorted (k : bytes) f (v : V) (m : t) : sorted m → sorted (upsert k f v m).
Proof. apply insert_sorted. Qed.

(** In a sorted map, iteration yields exactly the bindings [get] finds. *)
Lemma elem_of_get (m : t) (k : bytes) (v : V) :
  sorted m → (k, v) ∈ m ↔ get k m = Some v.
Proof.
  unfold sorted. induction m as [|[k' v'] m IH]; simpl; [set_solver|].
  intros [Hs Hall]%StronglySorted_inv.
  rewrite elem_of_cons, (IH Hs). case_decide as E; subst.
  - split; [|intros [= ->]; auto]. intros [[= ->]|Hg]; [done|].
    apply (IH Hs) in Hg. exfalso.
    eapply Forall_forall in Hall; [|apply list_elem_of_fmap; by exists (k', v)].
    by apply bytes_lt_irrefl in Hall.
  - split; [|by right]. by intros [[= -> ->]|].
Qed.

Lemma get_elem_of (m : t) (k : bytes) (v : V) : get k m = Some v → (k, v) ∈ m.
Proof.
  induction m as [|[k' v'] m IH]; simpl; [done|]. case_decide; [|by right; apply IH]. intros [= ->]. subst. by left.
Qed.

Lemma get_None (m : t) (k : bytes) : get k m = None ↔ k ∉ m.*1.
Proof.
  induction m as [|[k' v'] m IH]; simpl; [set_solver|].
  rewrite not_elem_of_cons, <- IH. case_decide; split; [done|tauto|auto|tauto].
Qed.

Lemma sorted_NoDup (m : t) : sorted m → NoDup m.*1.
Proof.
  unfold sorted. induction m as [|[k v] m IH]; simpl; [constructor|].
  intros [Hs Hall]%StronglySorted_inv. constructor; [|auto].
  intros Hin. eapply Forall_forall in Hall; [|done]. by apply bytes_lt_irrefl in Hall.
Qed.
End map.
Arguments t : clear implicits.

(** Inserting a function of every binding of a map with distinct keys. *)
Lemma get_fold_insert {V W} (f : bytes → V → W) (m : t V) (acc : t W) (j : bytes) :
NoDup m.*1 →
get j (fold_left (λ acc kv, insert kv.1 (f kv.1 kv.2) acc) m acc) =
match get j m with Some v => Some (f j v) | None => get j acc end.
Proof.
revert acc. induction m as [|[k v] m IH]; intros acc; simpl; [done|].
intros [Hk Hnd]%NoDup_cons. rewrite IH by done. rewrite get_insert.
case_decide as E; subst; [|done]. by rewrite (proj2 (get_None m k) Hk).
Qed.

Lemma get_map {V W} (f : V → W) (m : t V) (j : bytes) :
get j ((λ kv, (kv.1, f kv.2)) <$> m) = f <$> get j m.
Proof. induction m as [|[k v] m IH]; simpl; [done|]. by case_decide. Qed.

Lemma fold_sorted {A V} (f : t V → A → t V) (l : list A) (m : t V) :
(∀ m x, sorted m → sorted (f m x)) → sorted m → sorted (fold_left f l m).
Proof. intros Hf. revert m. induction l; simpl; auto. Qed.
End BTreeMap.

#[export] Hint Resolve BTreeMap.insert_sorted BTreeMap.upsert_sorted : tlane.
