(* ===== verification/Float64.v ===== *)
(** * [f64]

    Rust's [f64] is IEEE 754 binary64; the operations are those of the Standard
    Library's [SpecFloat], which rounds to nearest, ties to even.  Comparisons with
    NaN are false, as in Rust. *)

From Stdlib Require Import ZArith Lia.
From Stdlib Require Export SpecFloat.
From stdpp Require Import base.
From S2P Require Import Prelude.
Local Open Scope Z_scope.

Definition f64 : Type := spec_float.

#[global] Instance f64_eq_dec : EqDecision f64.
Proof. solve_decision. Defined.

(** [n as f64]. *)
Definition f64_of (n : Z) : f64 := binary_normalize 53 1024 n 0 false.

Definition f64_add : f64 → f64 → f64 := SFadd 53 1024.
Definition f64_sub : f64 → f64 → f64 := SFsub 53 1024.
Definition f64_mul : f64 → f64 → f64 := SFmul 53 1024.
Definition f64_div : f64 → f64 → f64 := SFdiv 53 1024.

(** [a >= b], [a < b], [a <= b], [a > b]. *)
Definition f64_ge (a b : f64) : bool := SFleb b a.
Definition f64_lt (a b : f64) : bool := SFltb a b.
Definition f64_le (a b : f64) : bool := SFleb a b.
Definition f64_gt (a b : f64) : bool := SFltb b a.

Definition f64_is_nan (a : f64) : bool := match a with S754_nan => true | _ => false end.
Definition f64_is_finite (a : f64) : bool :=
  match a with S754_zero _ | S754_finite _ _ _ => true | _ => false end.
Definition f64_neg : f64 → f64 := SFopp.
Definition f64_abs : f64 → f64 := SFabs.

(** [a.min(b)], [a.max(b)]: a NaN yields the other operand. *)
Definition f64_min (a b : f64) : f64 :=
  if f64_is_nan a then b else if f64_is_nan b then a else if f64_le a b then a else b.
Definition f64_max (a b : f64) : f64 :=
  if f64_is_nan a then b else if f64_is_nan b then a else if f64_ge a b then a else b.

(** [x.clamp(lo, hi)] for [lo <= hi]. *)
Definition f64_clamp (x lo hi : f64) : f64 :=
  if f64_lt x lo then lo else if f64_gt x hi then hi else x.

(** [x.ceil()] and [x.round()] (halves away from zero): the integer nearest above,
    or nearest, of a finite value [± m 2^e]. *)
Definition f64_ceil (x : f64) : f64 :=
  match x with
  | S754_finite s m e =>
      if 0 <=? e then x else
      let q := Z.pos m / 2 ^ (- e) in
      let n := if s then q else if Z.pos m mod 2 ^ (- e) =? 0 then q else q + 1 in
      binary_normalize 53 1024 (if s then - n else n) 0 s
  | _ => x
  end.

Definition f64_round (x : f64) : f64 :=
  match x with
  | S754_finite s m e =>
      if 0 <=? e then x else
      let q := Z.pos m / 2 ^ (- e) in
      let n := if 2 ^ (- e) <=? 2 * (Z.pos m mod 2 ^ (- e)) then q + 1 else q in
      binary_normalize 53 1024 (if s then - n else n) 0 s
  | _ => x
  end.

(** [x as u64] and [x as u32]: truncation, saturating, NaN to zero. *)
Definition f64_as_unsigned (max : Z) (x : f64) : Z :=
  match x with
  | S754_finite false m e =>
      Z.min max (if 0 <=? e then Z.pos m * 2 ^ e else Z.pos m / 2 ^ (- e))
  | S754_infinity false => max
  | _ => 0
  end.
Definition f64_as_u64 : f64 → Z := f64_as_unsigned u64_max.
Definition f64_as_u32 : f64 → Z := f64_as_unsigned u32_max.

Lemma f64_as_unsigned_bound max x : 0 ≤ max → 0 ≤ f64_as_unsigned max x ≤ max.
Proof.
  intros Hm. destruct x as [s|[]| |[] m e]; simpl; try lia.
  assert (0 ≤ if 0 <=? e then Z.pos m * 2 ^ e else Z.pos m / 2 ^ (- e)); [|lia].
  destruct (Z.leb_spec 0 e).
  - apply Z.mul_nonneg_nonneg; [lia|apply Z.pow_nonneg; lia].
  - apply Z.div_pos; [lia|apply Z.pow_pos_nonneg; lia].
Qed.

(** The minimum with a bound that is a number is at most the bound. *)
Lemma f64_le_refl a : f64_is_nan a = false → f64_le a a = true.
Proof.
  unfold f64_le, SFleb. destruct a as [s|s| |s m e]; simpl; try done; try by destruct s.
  intros _. destruct s; rewrite Z.compare_refl, Pos.compare_cont_refl; done.
Qed.

Lemma f64_min_le a b : f64_is_nan b = false → f64_le (f64_min a b) b = true.
Proof.
  intros Hb. unfold f64_min. destruct (f64_is_nan a); [by apply f64_le_refl|]. rewrite Hb.
  destruct (f64_le a b) eqn:E; [done|by apply f64_le_refl].
Qed.

Example f64_examples :
  f64_as_u64 (f64_round (f64_mul (f64_div (f64_of 5) (f64_of 2)) (f64_of 1))) = 3
  ∧ f64_as_u64 (f64_ceil (f64_div (f64_of 5) (f64_of 2))) = 3
  ∧ f64_as_u64 (f64_neg (f64_of 5)) = 0
  ∧ f64_round (f64_of 7) = f64_of 7.
Proof. vm_compute. done. Qed.
