(* ===== verification/Float64Proofs.v ===== *)
(** * [f64]: integers are exact, and signs are kept

    Integers below [2^53] are represented exactly: conversion, addition and comparison
    of [f64] agree with the integers.  Sums, products and quotients of numbers that are
    not negative are not negative and never NaN. *)

From Stdlib Require Import ZArith Lia.
From stdpp Require Import base.
From S2P Require Import Prelude Float64.
Local Open Scope Z_scope.

(** ** Digits and shifts *)

Lemma digits_log2 n : 0 < n → Zdigits2 n = Z.log2 n + 1.
Proof.
  destruct n as [|p|]; [lia| |lia]. intros _. simpl. induction p as [p IH|p IH|]; simpl; [..|done].
  - rewrite Pos2Z.inj_succ, IH. destruct p; simpl; lia.
  - rewrite Pos2Z.inj_succ, IH. destruct p; simpl; lia.
Qed.

Lemma digits_pow n k : 0 < n → 0 ≤ k → Zdigits2 (n * 2 ^ k) = Zdigits2 n + k.
Proof.
  intros Hn Hk. rewrite !digits_log2 by nia. rewrite Z.log2_mul_pow2 by lia. lia.
Qed.

Lemma digits_bound n : 0 < n < 2 ^ 53 → 1 ≤ Zdigits2 n ≤ 53.
Proof.
  intros Hn. rewrite digits_log2 by lia. pose proof (Z.log2_nonneg n). assert (Z.log2 n < 53); [|lia].
  apply Z.log2_lt_pow2; lia.
Qed.

Lemma iter_xO p d : Zpos (Pos.iter xO p d) = Zpos p * 2 ^ Zpos d.
Proof.
  rewrite Pos2Nat.inj_iter. rewrite <- (positive_nat_Z d).
  induction (Pos.to_nat d) as [|k IH]; [simpl; lia|]. rewrite Nat2Z.inj_succ, Z.pow_succ_r by lia. simpl.
  rewrite Pos2Z.inj_xO. nia.
Qed.

Lemma iter_pos_nat {A} (f : A → A) p x : iter_pos f p x = Nat.iter (Pos.to_nat p) f x.
Proof.
  revert x. induction p as [p IH|p IH|]; intros x; cbn [iter_pos]; [..|done]; rewrite !IH.
  - rewrite Pos2Nat.inj_xI. replace (S (2 * Pos.to_nat p)) with (S (Pos.to_nat p + Pos.to_nat p)) by lia.
    rewrite Nat.iter_succ_r. by rewrite Nat.iter_add.
  - rewrite Pos2Nat.inj_xO. replace (2 * Pos.to_nat p)%nat with (Pos.to_nat p + Pos.to_nat p)%nat by lia.
    by rewrite Nat.iter_add.
Qed.

Lemma shr_exact m k : 0 < m →
  Nat.iter k shr_1 {| shr_m := m * 2 ^ Z.of_nat k; shr_r := false; shr_s := false |}
  = {| shr_m := m; shr_r := false; shr_s := false |}.
Proof.
  intros Hm. induction k as [|k IH]; [simpl; f_equal; lia|]. rewrite Nat.iter_succ_r, <- IH. f_equal.
  rewrite Nat2Z.inj_succ, Z.pow_succ_r by lia. assert (0 < m * 2 ^ Z.of_nat k) as Hp by nia.
  replace (m * (2 * 2 ^ Z.of_nat k)) with (2 * (m * 2 ^ Z.of_nat k)) by lia.
  by destruct (m * 2 ^ Z.of_nat k) as [|p|].
Qed.

Lemma shr_exact_Z m s e : 0 < m → 0 ≤ s →
  shr {| shr_m := m * 2 ^ s; shr_r := false; shr_s := false |} e s
  = ({| shr_m := m; shr_r := false; shr_s := false |}, e + s).
Proof.
  intros Hm Hs. destruct s as [|p|]; [simpl; f_equal; [f_equal; lia|lia]| |lia]. unfold shr.
  rewrite iter_pos_nat. f_equal. rewrite <- (positive_nat_Z p) at 1. by apply shr_exact.
Qed.

(** ** Exact integers *)

(** The representation of an integer: 53 digits. *)
Definition norm (n : Z) : f64 := S754_finite false (Z.to_pos (n * 2 ^ (53 - Zdigits2 n))) (Zdigits2 n - 53).

Lemma fexp_int d : 1 ≤ d → fexp 53 1024 d = d - 53.
Proof. unfold fexp, emin. lia. Qed.

Lemma round_aux_exact n e : 0 < n < 2 ^ 53 → e ≤ Zdigits2 n - 53 →
  binary_round_aux 53 1024 false (n * 2 ^ (- e)) e loc_Exact = norm n.
Proof.
  intros Hn He. pose proof (digits_bound n Hn) as Hd. unfold binary_round_aux, shr_fexp.
  rewrite digits_pow, fexp_int by lia. cbn [shr_record_of_loc].
  replace (Zdigits2 n + - e + e - 53 - e) with (Zdigits2 n - 53 - e) by lia.
  assert (n * 2 ^ (- e) = n * 2 ^ (53 - Zdigits2 n) * 2 ^ (Zdigits2 n - 53 - e)) as ->.
  { rewrite <- Z.mul_assoc, <- Z.pow_add_r by lia. do 2 f_equal. lia. }
  assert (0 < 2 ^ (53 - Zdigits2 n)) by (apply Z.pow_pos_nonneg; lia).
  rewrite shr_exact_Z by nia || lia. cbn [shr_m loc_of_shr_record round_nearest_even].
  rewrite digits_pow, fexp_int by lia.
  match goal with |- context [shr ?r ?e ?s] => replace s with 0 by lia end. cbn [shr shr_m].
  replace (e + (Zdigits2 n - 53 - e)) with (Zdigits2 n - 53) by lia. unfold norm.
  destruct (n * 2 ^ (53 - Zdigits2 n)) as [|p|] eqn:Ep; [nia| |nia].
  destruct (Z.leb_spec (Zdigits2 n - 53) (1024 - 53)); [done|lia].
Qed.

Lemma round_exact n p e : 0 < n < 2 ^ 53 → e ≤ 0 → Zpos p = n * 2 ^ (- e) → binary_round 53 1024 false p e = norm n.
Proof.
  intros Hn He Hp. pose proof (digits_bound n Hn) as Hd. unfold binary_round.
  change (Zpos (digits2_pos p)) with (Zdigits2 (Zpos p)). rewrite Hp, digits_pow, fexp_int by lia.
  replace (Zdigits2 n + - e + e - 53) with (Zdigits2 n - 53) by lia. unfold shl_align.
  destruct (Zdigits2 n - 53 - e) as [|q|q] eqn:Eq.
  - rewrite Hp. apply round_aux_exact; lia.
  - rewrite Hp. apply round_aux_exact; lia.
  - rewrite iter_xO, Hp. replace (n * 2 ^ (- e) * 2 ^ Zpos q) with (n * 2 ^ (- (Zdigits2 n - 53))).
    + apply round_aux_exact; lia.
    + rewrite <- Z.mul_assoc, <- Z.pow_add_r by lia. do 2 f_equal. lia.
Qed.

Lemma f64_of_norm n : 0 < n < 2 ^ 53 → f64_of n = norm n.
Proof.
  intros Hn. unfold f64_of, binary_normalize. destruct n as [|p|]; [lia| |lia].
  apply round_exact; [done|lia|]. simpl. lia.
Qed.

Lemma shl_align_norm n ez : 0 < n < 2 ^ 53 → ez ≤ Zdigits2 n - 53 →
  Zpos (fst (shl_align (Z.to_pos (n * 2 ^ (53 - Zdigits2 n))) (Zdigits2 n - 53) ez)) = n * 2 ^ (- ez).
Proof.
  intros Hn Hez. pose proof (digits_bound n Hn). assert (0 < 2 ^ (53 - Zdigits2 n)) by (apply Z.pow_pos_nonneg; lia).
  unfold shl_align. destruct (ez - (Zdigits2 n - 53)) as [|q|q] eqn:Eq; cbn [fst]; [|lia|].
  - rewrite Z2Pos.id by nia. do 2 f_equal. lia.
  - rewrite iter_xO, Z2Pos.id by nia. rewrite <- Z.mul_assoc, <- Z.pow_add_r by lia. do 2 f_equal. lia.
Qed.

(** Sums of integers are exact. *)
Lemma f64_add_of a b : 0 ≤ a → 0 ≤ b → a + b < 2 ^ 53 → f64_add (f64_of a) (f64_of b) = f64_of (a + b).
Proof.
  intros Ha Hb Hs. destruct (Z.eq_dec a 0) as [->|Ha0].
  { destruct (Z.eq_dec b 0) as [->|]; [done|]. by rewrite Z.add_0_l, (f64_of_norm b) by lia. }
  destruct (Z.eq_dec b 0) as [->|Hb0].
  { by rewrite Z.add_0_r, (f64_of_norm a) by lia. }
  rewrite !f64_of_norm by lia. unfold f64_add, norm at 1 2. cbn [SFadd].
  set (ez := Z.min (Zdigits2 a - 53) (Zdigits2 b - 53)). cbn [cond_Zopp].
  pose proof (digits_bound a ltac:(lia)). pose proof (digits_bound b ltac:(lia)).
  rewrite !shl_align_norm by lia. rewrite <- Z.mul_add_distr_r.
  assert (0 < 2 ^ (- ez)) by (apply Z.pow_pos_nonneg; lia).
  destruct ((a + b) * 2 ^ (- ez)) as [|p|] eqn:Ep; [nia| |nia]. unfold binary_normalize.
  apply round_exact; [lia|lia|done].
Qed.

(** Comparisons of integers are exact. *)
Lemma f64_compare_of a b : 0 ≤ a < 2 ^ 53 → 0 ≤ b < 2 ^ 53 → SFcompare (f64_of a) (f64_of b) = Some (a ?= b).
Proof.
  intros Ha Hb. destruct (Z.eq_dec a 0) as [->|Ha0].
  { destruct (Z.eq_dec b 0) as [->|]; [done|]. rewrite (f64_of_norm b) by lia. simpl. by destruct b; try lia. }
  destruct (Z.eq_dec b 0) as [->|Hb0].
  { rewrite (f64_of_norm a) by lia. simpl. by destruct a; try lia. }
  rewrite !f64_of_norm by lia. unfold norm. cbn [SFcompare]. f_equal.
  pose proof (digits_bound a ltac:(lia)). pose proof (digits_bound b ltac:(lia)).
  rewrite !digits_log2 in * by lia.
  destruct (Z.compare_spec (Z.log2 a + 1 - 53) (Z.log2 b + 1 - 53)) as [E|E|E].
  - replace (Z.log2 b) with (Z.log2 a) by lia. set (k := 53 - (Z.log2 a + 1)).
    assert (0 < 2 ^ k) by (apply Z.pow_pos_nonneg; lia).
    change (Pos.compare_cont Eq ?x ?y) with (Pos.compare x y). rewrite <- Z2Pos.inj_compare by nia.
    destruct (Z.compare_spec a b); [subst; apply Z.compare_refl|apply Z.compare_lt_iff; nia|apply Z.compare_gt_iff; nia].
  - symmetry. apply Z.compare_lt_iff. apply Z.log2_lt_cancel. lia.
  - symmetry. apply Z.compare_gt_iff. apply Z.log2_lt_cancel. lia.
Qed.

Lemma f64_gt_of a b : 0 ≤ a < 2 ^ 53 → 0 ≤ b < 2 ^ 53 → f64_gt (f64_of a) (f64_of b) = (b <? a).
Proof.
  intros Ha Hb. unfold f64_gt, SFltb. rewrite f64_compare_of by done. unfold Z.ltb. by destruct (b ?= a).
Qed.

(** ** Signs *)

Definition nonneg (x : f64) : Prop :=
  match x with S754_zero s | S754_infinity s | S754_finite s _ _ => s = false | S754_nan => False end.

(** A finite number above zero. *)
Definition positive (x : f64) : Prop := match x with S754_finite false _ _ => True | _ => False end.

Lemma shr_1_nonneg r : 0 ≤ shr_m r → 0 ≤ shr_m (shr_1 r).
Proof. destruct r as [[|[]|] ? ?]; simpl; lia. Qed.

Lemma shr_nonneg r e n : 0 ≤ shr_m r → 0 ≤ shr_m (shr r e n).1.
Proof.
  intros Hr. destruct n as [|p|]; [done| |done]. simpl. rewrite iter_pos_nat.
  induction (Pos.to_nat p) as [|k IH]; [done|]. simpl. by apply shr_1_nonneg.
Qed.

Lemma shr_record_m m l : shr_m (shr_record_of_loc m l) = m.
Proof. by destruct l as [|[]]. Qed.

Lemma round_aux_nonneg m e l : 0 ≤ m → nonneg (binary_round_aux 53 1024 false m e l).
Proof.
  intros Hm. unfold binary_round_aux, shr_fexp.
  destruct (shr (shr_record_of_loc m l) _ _) as [r1 e1] eqn:E1.
  assert (0 ≤ shr_m r1) as H1.
  { pose proof (shr_nonneg (shr_record_of_loc m l) e (fexp 53 1024 (Zdigits2 m + e) - e)) as H. rewrite E1, shr_record_m in H. auto. }
  assert (0 ≤ round_nearest_even (shr_m r1) (loc_of_shr_record r1)) as H2.
  { unfold round_nearest_even. destruct (loc_of_shr_record r1) as [|[]]; try done; try lia. destruct (Z.even _); lia. }
  set (m2 := round_nearest_even _ _) in *. destruct (shr (shr_record_of_loc m2 loc_Exact) _ _) as [r2 e2] eqn:E2.
  assert (0 ≤ shr_m r2) as H3.
  { pose proof (shr_nonneg (shr_record_of_loc m2 loc_Exact) e1 (fexp 53 1024 (Zdigits2 m2 + e1) - e1)) as H.
    rewrite E2, shr_record_m in H. auto. }
  destruct (shr_m r2); [done| |lia]. by destruct (_ <=? _).
Qed.

Lemma normalize_nonneg m e : 0 ≤ m → nonneg (binary_normalize 53 1024 m e false).
Proof.
  destruct m as [|p|]; [done| |lia]. intros _. simpl. unfold binary_round. destruct (shl_align _ _ _).
  by apply round_aux_nonneg.
Qed.

Lemma f64_of_nonneg n : 0 ≤ n → nonneg (f64_of n).
Proof. apply normalize_nonneg. Qed.

Lemma f64_add_nonneg a b : nonneg a → nonneg b → nonneg (f64_add a b).
Proof.
  destruct a as [sa|sa| |sa ma ea], b as [sb|sb| |sb mb eb]; simpl; intros; subst; try done.
  unfold f64_add. cbn [SFadd]. apply normalize_nonneg. simpl. lia.
Qed.

Lemma f64_mul_nonneg a b : nonneg a → nonneg b → f64_is_finite a = true → f64_is_finite b = true → nonneg (f64_mul a b).
Proof.
  destruct a as [sa|sa| |sa ma ea], b as [sb|sb| |sb mb eb]; simpl; intros; subst; try done.
  unfold f64_mul. cbn [SFmul]. by apply round_aux_nonneg.
Qed.

Lemma f64_mul_positive a b : nonneg a → positive b → nonneg (f64_mul a b).
Proof.
  destruct a as [sa|sa| |sa ma ea], b as [sb|sb| |[] mb eb]; simpl; intros; subst; try done.
  unfold f64_mul. cbn [SFmul]. by apply round_aux_nonneg.
Qed.

Lemma f64_div_positive a b : nonneg a → positive b → nonneg (f64_div a b).
Proof.
  destruct a as [sa|sa| |sa ma ea], b as [sb|sb| |[] mb eb]; simpl; intros; subst; try done.
  unfold f64_div. cbn [SFdiv]. unfold SFdiv_core_binary.
  match goal with |- context [Z.div_eucl ?m ?d] => set (n := m); pose proof (Z_div_mod n d ltac:(lia)) as Hd end.
  destruct (Z.div_eucl n (Zpos mb)) as [q r]. destruct Hd as [En Hr]. apply round_aux_nonneg.
  assert (0 ≤ n); [|nia]. unfold n. destruct (_ - _); try lia. apply Z.shiftl_nonneg. lia.
Qed.

Lemma nonneg_ge x : nonneg x → f64_is_nan x = false ∧ f64_ge x (f64_of 0) = true.
Proof. by destruct x as [[]|[]| |[] ? ?]. Qed.
