(* ===== verification/Encoding.v ===== *)
(** * Byte encodings

    Big-endian integers and length prefixes, lowercase hex, UUID text, base64,
    decimal text: the helpers of [packages/verifier-rust/src/lib.rs] and
    [crates/gateway/src/audit_format/mod.rs] that every hash preimage and every
    exported record is built from. *)

From Stdlib Require Import ZArith Lia.
From stdpp Require Import base list option strings.
From S2P Require Import Prelude.

(** ** Big-endian integers *)

(** [z.to_be_bytes()] of an [8 * n]-bit integer. *)
Fixpoint be_bytes (n : nat) (z : Z) : bytes :=
  match n with
  | O => []
  | S n' => be_bytes n' (z / 256) ++ [Zbyte z]
  end.

(** [u64::to_be_bytes]. *)
Definition u64_be (z : Z) : bytes := be_bytes 8 z.

(** [write_lp(buf, bytes)]: append [u64_be(len) || bytes]. *)
Definition write_lp (buf bs : bytes) : bytes := buf ++ u64_be (lenZ bs) ++ bs.

(** The length-prefixed field on its own. *)
Definition lp (bs : bytes) : bytes := u64_be (lenZ bs) ++ bs.

(** ** Hexadecimal *)

Definition hex_nibble (b : byte) : option Z :=
  let c := byteZ b in
  if ((48 <=? c) && (c <=? 57))%Z%bool then Some (c - 48)%Z
  else if ((97 <=? c) && (c <=? 102))%Z%bool then Some (c - 97 + 10)%Z
  else if ((65 <=? c) && (c <=? 70))%Z%bool then Some (c - 65 + 10)%Z
  else None.

Inductive HexError : Type := HexLength (got : nat) | HexChar.

(** The decoding loop: two characters per output byte, [(hi << 4) | lo]. *)
Fixpoint hex_pairs (s : bytes) : result bytes HexError :=
  match s with
  | hi :: lo :: s' =>
      let? h := ok_or (hex_nibble hi) HexChar in
      let? l := ok_or (hex_nibble lo) HexChar in
      let? rest := hex_pairs s' in
      Ok (Zbyte (Z.lor (Z.shiftl h 4) l) :: rest)
  | _ => Ok []
  end.

Definition hex_decode_32 (s : bytes) : result bytes HexError :=
  if (length s =? 64)%nat then hex_pairs s else Err (HexLength (length s)).

Definition hex_digit (z : Z) : byte :=
  if (z <? 10)%Z then Zbyte (48 + z) else Zbyte (97 + (z - 10)).

(** [write!(out, "{b:02x}")] for each byte. *)
Definition hex_encode (h : bytes) : bytes :=
  flat_map (λ b, [hex_digit (byteZ b / 16); hex_digit (byteZ b mod 16)]) h.

(** ** UUID text *)

Definition dash : byte := "-"%byte.

Definition uuid_str_to_bytes (s : bytes) : result bytes HexError :=
  let cleaned := filter (λ c, c ≠ dash) s in
  if (length cleaned =? 32)%nat then hex_pairs cleaned else Err (HexLength (length cleaned)).

(** ** Decimal text *)

(** [u64::to_string]. *)
Fixpoint dec_digits (n : nat) (z : Z) (acc : bytes) : bytes :=
  match n with
  | O => acc
  | S n' =>
      let acc' := Zbyte (48 + z mod 10) :: acc in
      if (z <? 10)%Z then acc' else dec_digits n' (z / 10) acc'
  end.

(** A [u64] has at most twenty digits. *)
Definition dec (z : Z) : bytes := dec_digits 20 z [].

Definition is_digit (b : byte) : bool := ((48 <=? byteZ b) && (byteZ b <=? 57))%Z.

(** The checked accumulation of [u64::from_str]: [None] on a non-digit or on
    overflow. *)
Fixpoint parse_digits (acc : Z) (s : bytes) : option Z :=
  match s with
  | [] => Some acc
  | b :: s' =>
      if is_digit b then
        let v := (acc * 10 + (byteZ b - 48))%Z in
        if (v <=? u64_max)%Z then parse_digits v s' else None
      else None
  end.

(** [s.parse::<u64>()]: a leading [+] is allowed when something follows it. *)
Definition parse_u64 (s : bytes) : option Z :=
  match s with
  | [] => None
  | [b] => parse_digits 0 [b]
  | b :: s' => if decide (b = "+"%byte) then parse_digits 0 s' else parse_digits 0 s
  end.

(** ** Text *)

Definition newline : byte := x0a.
Definition space : byte := x20.

(** [s.split(c)]. *)
Fixpoint split_on (c : byte) (s : bytes) : list bytes :=
  match s with
  | [] => [[]]
  | b :: s' =>
      if decide (b = c) then [] :: split_on c s'
      else match split_on c s' with
           | part :: parts => (b :: part) :: parts
           | [] => [[b]]
           end
  end.

(** [s.strip_suffix('\r')], or the line. *)
Definition strip_cr (line : bytes) : bytes :=
  match last line with
  | Some c => if decide (c = x0d) then take (length line - 1) line else line
  | None => line
  end.

(** [s.lines()]: a carriage return is stripped only before a newline; the
    empty rest after the last newline is not a line. *)
Fixpoint lines_of (parts : list bytes) : list bytes :=
  match parts with
  | [] => []
  | [lastp] => match lastp with [] => [] | _ => [lastp] end
  | part :: parts' => strip_cr part :: lines_of parts'
  end.
Definition str_lines (s : bytes) : list bytes := lines_of (split_on newline s).

Definition starts_with (p s : bytes) : bool := bool_decide (take (length p) s = p).

(** [s.starts_with(p)], by recursion. *)
Fixpoint is_prefix (p s : bytes) : bool :=
  match p, s with
  | [], _ => true
  | a :: p', b :: s' => bool_decide (a = b) && is_prefix p' s'
  | _ :: _, [] => false
  end.

(** [s.contains(needle)]. *)
Fixpoint contains_text (needle s : bytes) : bool :=
  is_prefix needle s || match s with [] => false | _ :: s' => contains_text needle s' end.

(** ** Whitespace *)

(** UTF-8 encodings of the code points with the [White_Space] property. *)
Definition ws_chars : list bytes :=
  [[x09]; [x0a]; [x0b]; [x0c]; [x0d]; [x20]; [xc2; x85]; [xc2; xa0]; [xe1; x9a; x80];
   [xe2; x80; x80]; [xe2; x80; x81]; [xe2; x80; x82]; [xe2; x80; x83]; [xe2; x80; x84];
   [xe2; x80; x85]; [xe2; x80; x86]; [xe2; x80; x87]; [xe2; x80; x88]; [xe2; x80; x89];
   [xe2; x80; x8a]; [xe2; x80; xa8]; [xe2; x80; xa9]; [xe2; x80; xaf]; [xe2; x81; x9f];
   [xe3; x80; x80]].

Fixpoint strip_prefix (p s : bytes) : option bytes :=
  match p, s with
  | [], _ => Some s
  | a :: p', b :: s' => if decide (a = b) then strip_prefix p' s' else None
  | _ :: _, [] => None
  end.

(** Drop one leading character of the list, if any. *)
Fixpoint strip_one (cs : list bytes) (s : bytes) : option bytes :=
  match cs with
  | [] => None
  | c :: cs' => match strip_prefix c s with Some r => Some r | None => strip_one cs' s end
  end.

Fixpoint trim_start_with (fuel : nat) (cs : list bytes) (s : bytes) : bytes :=
  match fuel with
  | O => s
  | S fuel' =>
      match strip_one cs s with
      | Some r => trim_start_with fuel' cs r
      | None => s
      end
  end.

(** [s.trim()]: each round drops at least one byte, so [length s] rounds do. *)
Definition trim_start (s : bytes) : bytes := trim_start_with (length s) ws_chars s.
Definition trim_end (s : bytes) : bytes :=
  reverse (trim_start_with (length s) (reverse <$> ws_chars) (reverse s)).
Definition trim (s : bytes) : bytes := trim_end (trim_start s).

(** [s.trim_end_matches(c)] for an ASCII character. *)
Definition trim_end_matches (c : byte) (s : bytes) : bytes :=
  reverse (trim_start_with (length s) [[c]] (reverse s)).

(** [u8::is_ascii_whitespace]. *)
Definition is_ascii_whitespace (b : byte) : bool :=
  bool_decide (b ∈ [x09; x0a; x0c; x0d; x20]).

(** ** Base64 *)

Definition b64_val (b : byte) : option Z :=
  let c := byteZ b in
  if ((65 <=? c) && (c <=? 90))%Z%bool then Some (c - 65)%Z
  else if ((97 <=? c) && (c <=? 122))%Z%bool then Some (c - 97 + 26)%Z
  else if ((48 <=? c) && (c <=? 57))%Z%bool then Some (c - 48 + 52)%Z
  else if (c =? 43)%Z then Some 62%Z
  else if (c =? 47)%Z then Some 63%Z
  else None.

(** The accumulator loop: [acc] is a [u32], [bits] the number of its pending
    bits. *)
Fixpoint b64_loop (s : bytes) (acc bits : Z) : option bytes :=
  match s with
  | [] => Some []
  | b :: s' =>
      if is_ascii_whitespace b then b64_loop s' acc bits
      else
        match b64_val b with
        | None => None
        | Some v =>
            let acc1 := Z.lor (Z.land (Z.shiftl acc 6) u32_max) v in
            let bits1 := (bits + 6)%Z in
            if (8 <=? bits1)%Z then
              let bits2 := (bits1 - 8)%Z in
              let out := Zbyte (Z.shiftr acc1 bits2) in
              match b64_loop s' (Z.land acc1 (Z.shiftl 1 bits2 - 1)) bits2 with
              | Some rest => Some (out :: rest)
              | None => None
              end
            else b64_loop s' acc1 bits1
        end
  end.

Definition base64_decode (input : bytes) : option bytes :=
  b64_loop (trim_end_matches "="%byte (trim input)) 0 0.

(** * Facts *)

Lemma length_be_bytes (n : nat) (z : Z) : length (be_bytes n z) = n.
Proof.
  revert z. induction n as [|n IH]; intros z; simpl; [done|].
  rewrite length_app, IH. simpl. lia.
Qed.

Lemma length_u64_be (z : Z) : length (u64_be z) = 8%nat.
Proof. apply length_be_bytes. Qed.

Lemma be_bytes_inj (n : nat) (a b : Z) :
  (0 ≤ a < 256 ^ Z.of_nat n)%Z → (0 ≤ b < 256 ^ Z.of_nat n)%Z →
  be_bytes n a = be_bytes n b → a = b.
Proof.
  revert a b. induction n as [|n IH]; intros a b Ha Hb; simpl.
  { intros _. change (256 ^ Z.of_nat 0)%Z with 1%Z in *. lia. }
  rewrite Nat2Z.inj_succ, Z.pow_succ_r in Ha, Hb by lia.
  intros [E1 E2]%app_inj_tail. apply (f_equal byteZ) in E2.
  rewrite !byteZ_Zbyte in E2.
  assert (a / 256 = b / 256)%Z as E3.
  { apply IH; [..|done]; split; try apply Z.div_pos; try lia;
      apply Z.div_lt_upper_bound; lia. }
  rewrite (Z.div_mod a 256), (Z.div_mod b 256) by lia. lia.
Qed.

Lemma u64_be_inj (a b : Z) : is_u64 a → is_u64 b → u64_be a = u64_be b → a = b.
Proof.
  unfold is_u64, u64_max. intros Ha Hb. apply be_bytes_inj;
    change (256 ^ Z.of_nat 8)%Z with (2 ^ 64)%Z; lia.
Qed.

(** A byte string whose length is representable as a [u64]; every Rust slice
    is one. *)
Definition fits (bs : bytes) : Prop := (lenZ bs ≤ u64_max)%Z.

Lemma fits_is_u64 (bs : bytes) : fits bs → is_u64 (lenZ bs).
Proof. unfold fits, is_u64. pose proof (lenZ_nonneg bs). lia. Qed.

(** Length prefixes are self-delimiting. *)
Lemma lp_app_inj (x y r s : bytes) :
  fits x → fits y → lp x ++ r = lp y ++ s → x = y ∧ r = s.
Proof.
  intros Hx Hy. unfold lp. rewrite <- !(assoc_L (++)). intros E.
  apply app_inj_1 in E as [El E]; [|by rewrite !length_u64_be].
  apply u64_be_inj in El; [|by apply fits_is_u64..].
  apply app_inj_1 in E; [done|]. unfold lenZ in El. lia.
Qed.

Lemma u64_be_app_inj (a b : Z) (r s : bytes) :
  is_u64 a → is_u64 b → u64_be a ++ r = u64_be b ++ s → a = b ∧ r = s.
Proof.
  intros Ha Hb E. apply app_inj_1 in E as [E ?]; [|by rewrite !length_u64_be].
  by apply u64_be_inj in E.
Qed.

(** ** Hex *)

Lemma hex_nibble_digit (z : Z) : (0 ≤ z < 16)%Z → hex_nibble (hex_digit z) = Some z.
Proof.
  intros Hz.
  assert (z ∈ seqZ 0 16) as Hin by (apply elem_of_seqZ; lia).
  repeat (apply elem_of_cons in Hin as [->|Hin]; [reflexivity|]).
  by apply elem_of_nil in Hin.
Qed.

Lemma nibbles_join (b : byte) :
  Zbyte (Z.lor (Z.shiftl (byteZ b / 16) 4) (byteZ b mod 16)) = b.
Proof. by destruct b. Qed.

Lemma hex_pairs_encode (h : bytes) : hex_pairs (hex_encode h) = Ok h.
Proof.
  induction h as [|b h IH]; [done|].
  pose proof (byteZ_bounds b).
  assert (0 ≤ byteZ b / 16 < 16)%Z.
  { split; [apply Z.div_pos; lia | apply Z.div_lt_upper_bound; lia]. }
  pose proof (Z.mod_pos_bound (byteZ b) 16 ltac:(lia)).
  change (hex_encode (b :: h)) with
    (hex_digit (byteZ b / 16) :: hex_digit (byteZ b mod 16) :: hex_encode h).
  cbn [hex_pairs]. rewrite !hex_nibble_digit by done. cbn [ok_or rbind].
  rewrite IH. cbn [rbind]. by rewrite nibbles_join.
Qed.

Lemma length_hex_encode (h : bytes) : length (hex_encode h) = (2 * length h)%nat.
Proof. induction h as [|b h IH]; simpl in *; lia. Qed.

#[global] Instance hex_encode_inj : Inj (=) (=) hex_encode.
Proof.
  intros a b E. pose proof (hex_pairs_encode a) as Ha.
  rewrite E, hex_pairs_encode in Ha. by injection Ha.
Qed.

Lemma hex_decode_encode (h : bytes) :
  length h = 32%nat → hex_decode_32 (hex_encode h) = Ok h.
Proof.
  intros Hh. unfold hex_decode_32. rewrite length_hex_encode, Hh. simpl.
  apply hex_pairs_encode.
Qed.

Lemma hex_pairs_length (s out : bytes) :
  hex_pairs s = Ok out → length out = Nat.div2 (length s).
Proof.
  revert out. induction s as [|b|hi lo s IH] using list_pair_ind; intros out.
  - by intros [= <-].
  - by intros [= <-].
  - cbn [hex_pairs]. rewrite !rbind_Ok. intros (h & _ & E).
    apply rbind_Ok in E as (l & _ & E). apply rbind_Ok in E as (rest & E & [= <-]).
    simpl. f_equal. by apply IH.
Qed.

Lemma hex_decode_32_length (s out : bytes) :
  hex_decode_32 s = Ok out → length out = 32%nat.
Proof.
  unfold hex_decode_32. destruct (Nat.eqb_spec (length s) 64) as [E|]; [|done].
  intros ->%hex_pairs_length. by rewrite E.
Qed.

(** ** UUIDs *)

Lemma uuid_str_to_bytes_length (s out : bytes) :
  uuid_str_to_bytes s = Ok out → length out = 16%nat.
Proof.
  unfold uuid_str_to_bytes. case_match eqn:E; [|done]. breflect.
  intros ->%hex_pairs_length. by rewrite E.
Qed.

(** Any text whose non-hyphen characters spell the UUID in hex decodes to it. *)
Lemma uuid_str_to_bytes_of_hex (s u : bytes) :
  length u = 16%nat → filter (λ c, c ≠ dash) s = hex_encode u →
  uuid_str_to_bytes s = Ok u.
Proof.
  intros Hu Hs. unfold uuid_str_to_bytes. rewrite Hs, length_hex_encode, Hu. simpl.
  apply hex_pairs_encode.
Qed.

(** ** Decimal text *)

Lemma lit_inj (a b : string) : lit a = lit b → a = b.
Proof.
  intros E%(f_equal String.string_of_list_byte).
  by rewrite !String.string_of_list_byte_of_string in E.
Qed.

Lemma digit_byteZ (d : Z) : (0 ≤ d < 10)%Z → byteZ (Zbyte (48 + d)) = (48 + d)%Z.
Proof. intros. rewrite byteZ_Zbyte. apply Z.mod_small. lia. Qed.

Lemma dec_digits_is_digit (n : nat) (z : Z) (acc : bytes) :
  Forall (λ b, is_digit b = true) acc → Forall (λ b, is_digit b = true) (dec_digits n z acc).
Proof.
  revert z acc. induction n as [|n IH]; intros z acc Hacc; [done|]. cbn [dec_digits].
  assert (is_digit (Zbyte (48 + z mod 10)) = true).
  { pose proof (Z.mod_pos_bound z 10 ltac:(lia)). unfold is_digit.
    rewrite digit_byteZ by done. apply andb_true_intro. split; apply Z.leb_le; lia. }
  case_match; [by constructor|]. apply IH. by constructor.
Qed.

Lemma dec_is_digit (z : Z) : Forall (λ b, is_digit b = true) (dec z).
Proof. by apply dec_digits_is_digit. Qed.

Lemma dec_digits_length (n : nat) (z : Z) (acc : bytes) :
  (length (dec_digits n z acc) ≤ n + length acc)%nat.
Proof.
  revert z acc. induction n as [|n IH]; intros z acc; cbn [dec_digits]; [lia|].
  case_match; [simpl; lia|]. etrans; [apply IH|]. simpl. lia.
Qed.

Lemma dec_length (z : Z) : (length (dec z) ≤ 20)%nat.
Proof. unfold dec. pose proof (dec_digits_length 20 z []) as Hl. simpl length in Hl at 2. lia. Qed.

Lemma parse_digits_digit (a d : Z) (s : bytes) :
  (0 ≤ d < 10)%Z → (a * 10 + d ≤ u64_max)%Z →
  parse_digits a (Zbyte (48 + d) :: s) = parse_digits (a * 10 + d) s.
Proof.
  intros Hd Ha. cbn [parse_digits]. unfold is_digit. rewrite digit_byteZ by done.
  destruct (Z.leb_spec 48 (48 + d)), (Z.leb_spec (48 + d) 57); try lia. simpl andb.
  replace (48 + d - 48)%Z with d by lia. by destruct (Z.leb_spec (a * 10 + d) u64_max); [|lia].
Qed.

Lemma parse_dec_digits (n : nat) (z : Z) (acc : bytes) :
  (0 ≤ z < 10 ^ Z.of_nat n)%Z → (z ≤ u64_max)%Z →
  parse_digits 0 (dec_digits n z acc) = parse_digits z acc.
Proof.
  revert z acc. induction n as [|n IH]; intros z acc Hz Hu.
  { change (10 ^ Z.of_nat 0)%Z with 1%Z in Hz. by replace z with 0%Z by lia. }
  rewrite Nat2Z.inj_succ, Z.pow_succ_r in Hz by lia. cbn [dec_digits].
  pose proof (Z.mod_pos_bound z 10 ltac:(lia)). pose proof (Z.div_mod z 10 ltac:(lia)).
  destruct (Z.ltb_spec z 10).
  - rewrite Z.mod_small in * by lia. rewrite parse_digits_digit by lia. f_equal.
  - rewrite IH; [rewrite parse_digits_digit by lia; f_equal; lia|..|dlia].
    split; [dlia|]. apply Z.div_lt_upper_bound; lia.
Qed.

Lemma dec_digits_grows (n : nat) (z : Z) (acc : bytes) :
  (length acc ≤ length (dec_digits n z acc))%nat.
Proof.
  revert z acc. induction n as [|n IH]; intros z acc; cbn [dec_digits]; [lia|].
  case_match; simpl; [lia|]. etrans; [|apply IH]. simpl. lia.
Qed.

Lemma dec_digits_nonempty (n : nat) (z : Z) (acc : bytes) : dec_digits (S n) z acc ≠ [].
Proof.
  cbn [dec_digits]. destruct (z <? 10)%Z; [done|]. intros E.
  pose proof (dec_digits_grows n (z / 10) (Zbyte (48 + z mod 10) :: acc)) as Hg.
  rewrite E in Hg. simpl in Hg. lia.
Qed.

Lemma dec_nonempty (z : Z) : dec z ≠ [].
Proof. apply (dec_digits_nonempty 19). Qed.

Lemma parse_digits_u64 (acc : Z) (s : bytes) (z : Z) :
  is_u64 acc → parse_digits acc s = Some z → is_u64 z.
Proof.
  revert acc. induction s as [|b s IH]; intros acc Ha; cbn [parse_digits]; [by intros [= <-]|].
  unfold is_digit. destruct (Z.leb_spec 48 (byteZ b)), (Z.leb_spec (byteZ b) 57); try done.
  simpl andb. cbv iota zeta. destruct (Z.leb_spec (acc * 10 + (byteZ b - 48)) u64_max); [|done].
  apply IH. unfold is_u64 in *. lia.
Qed.

Lemma parse_u64_bound (s : bytes) (z : Z) : parse_u64 s = Some z → is_u64 z.
Proof.
  assert (is_u64 0) by (split; [done|]; vm_compute; discriminate).
  unfold parse_u64. destruct s as [|b [|c s]]; [done| |case_decide]; by apply parse_digits_u64.
Qed.

(** Printing then parsing a [u64] gives it back. *)
Lemma parse_u64_dec (z : Z) : is_u64 z → parse_u64 (dec z) = Some z.
Proof.
  intros [Hz Hu]. assert (parse_digits 0 (dec z) = Some z) as Hp.
  { unfold dec. rewrite parse_dec_digits; [done| |done].
    unfold u64_max in Hu. simpl Z.of_nat. lia. }
  pose proof (dec_is_digit z) as Hd. destruct (dec z) as [|b [|c s]] eqn:E; simpl.
  - by apply dec_nonempty in E.
  - done.
  - destruct (decide (b = "+"%byte)) as [->|]; [|done].
    apply Forall_cons in Hd as [Hd _]. by vm_compute in Hd.
Qed.

Lemma dec_inj (a b : Z) : is_u64 a → is_u64 b → dec a = dec b → a = b.
Proof. intros Ha Hb E. apply (f_equal parse_u64) in E. rewrite !parse_u64_dec in E by done. congruence. Qed.

(** Splitting at the last non-digit byte is unique. *)
Lemma digit_suffix_inj (a b d e : bytes) (c : byte) :
  is_digit c = false →
  Forall (λ x, is_digit x = true) d → Forall (λ x, is_digit x = true) e →
  a ++ c :: d = b ++ c :: e → a = b ∧ d = e.
Proof.
  intros Hc. revert b. induction a as [|x a IH]; intros [|y b] Hd He E; simpl in *.
  - by injection E.
  - injection E as -> ->. apply Forall_app in Hd as [_ Hd].
    apply Forall_cons in Hd as [? _]. congruence.
  - injection E as -> <-. apply Forall_app in He as [_ He].
    apply Forall_cons in He as [? _]. congruence.
  - injection E as -> E. apply IH in E as [-> ->]; auto.
Qed.

(** ** Base64: the decoder inverts the RFC 4648 encoder *)

(** The standard alphabet. *)
Definition b64_char (v : Z) : byte :=
  if (v <? 26)%Z then Zbyte (65 + v)
  else if (v <? 52)%Z then Zbyte (97 + (v - 26))
  else if (v <? 62)%Z then Zbyte (48 + (v - 52))
  else if (v =? 62)%Z then "+"%byte
  else "/"%byte.

(** RFC 4648 section 4, without and with padding. *)
Fixpoint b64_body (bs : bytes) : bytes :=
  match bs with
  | a :: b :: c :: r =>
      let n := (byteZ a * 65536 + byteZ b * 256 + byteZ c)%Z in
      b64_char (n / 262144) :: b64_char (n / 4096 mod 64) ::
      b64_char (n / 64 mod 64) :: b64_char (n mod 64) :: b64_body r
  | [a; b] =>
      let n := (byteZ a * 256 + byteZ b)%Z in
      [b64_char (n / 1024); b64_char (n / 16 mod 64); b64_char (n mod 16 * 4)]
  | [a] => [b64_char (byteZ a / 4); b64_char (byteZ a mod 4 * 16)]
  | [] => []
  end.

Definition b64_pad (n : nat) : bytes :=
  match (n mod 3)%nat with 1%nat => ["="; "="]%byte | 2%nat => ["="]%byte | _ => [] end.

Definition b64_encode (bs : bytes) : bytes := b64_body bs ++ b64_pad (length bs).

(** Bytes of the alphabet: neither whitespace nor padding. *)
Definition b64_alpha (b : byte) : Prop := is_Some (b64_val b).

Lemma b64_val_char (v : Z) : (0 ≤ v < 64)%Z → b64_val (b64_char v) = Some v.
Proof.
  intros Hv. assert (v ∈ seqZ 0 64) as Hin by (apply elem_of_seqZ; lia).
  repeat (apply elem_of_cons in Hin as [->|Hin]; [reflexivity|]).
  by apply elem_of_nil in Hin.
Qed.

Lemma b64_alpha_char (v : Z) : (0 ≤ v < 64)%Z → b64_alpha (b64_char v).
Proof. intros Hv. eexists. by apply b64_val_char. Qed.

Lemma b64_alpha_not_ws (b : byte) : b64_alpha b → is_ascii_whitespace b = false.
Proof. by destruct b; intros [? H]; vm_compute in H |- *. Qed.

Lemma b64_alpha_not_pad (b : byte) : b64_alpha b → b ≠ "="%byte.
Proof. intros [? H] ->. by vm_compute in H. Qed.

Lemma lor_shiftl_add (x v k : Z) :
  (0 ≤ k)%Z → (0 ≤ v < 2 ^ k)%Z → Z.lor (Z.shiftl x k) v = (x * 2 ^ k + v)%Z.
Proof.
  intros Hk Hv. rewrite <- Z.shiftl_mul_pow2 by lia.
  assert (Z.land (Z.shiftl x k) v = 0)%Z as Hl.
  { apply Z.bits_inj'. intros i Hi. rewrite Z.land_spec, Z.bits_0.
    destruct (Z.lt_ge_cases i k); [by rewrite Z.shiftl_spec_low by lia|].
    destruct (Z.eq_dec v 0%Z) as [->|]; [by rewrite Z.bits_0, andb_false_r|].
    rewrite (Z.bits_above_log2 v), andb_false_r; [done|lia|].
    apply Z.log2_lt_pow2; [lia|]. eapply Z.lt_le_trans; [apply Hv|].
    apply Z.pow_le_mono_r; lia. }
  by rewrite Z.add_nocarry_lxor, Z.lxor_lor.
Qed.

(** One character, in arithmetic form. *)
Lemma b64_loop_char (v acc bits : Z) (s : bytes) :
  (0 ≤ v < 64)%Z → (0 ≤ bits ≤ 6)%Z → (0 ≤ acc < 2 ^ bits)%Z →
  b64_loop (b64_char v :: s) acc bits =
  let acc1 := (acc * 64 + v)%Z in
  if (2 <=? bits)%Z then
    cons (Zbyte (acc1 / 2 ^ (bits - 2))) <$> b64_loop s (acc1 mod 2 ^ (bits - 2)) (bits - 2)
  else b64_loop s acc1 (bits + 6).
Proof.
  intros Hv Hb Hacc.
  assert (2 ^ bits ≤ 2 ^ 6)%Z by (apply Z.pow_le_mono_r; lia).
  cbn [b64_loop]. rewrite b64_alpha_not_ws by by apply b64_alpha_char.
  rewrite b64_val_char by done.
  assert (Z.land (Z.shiftl acc 6) u32_max = acc * 64)%Z as ->.
  { unfold u32_max. change (2 ^ 32 - 1)%Z with (Z.ones 32).
    rewrite Z.land_ones, Z.shiftl_mul_pow2 by lia. apply Z.mod_small. lia. }
  replace (acc * 64)%Z with (Z.shiftl acc 6) by (rewrite Z.shiftl_mul_pow2; lia).
  rewrite lor_shiftl_add by lia. rewrite (Z.shiftl_mul_pow2 acc) by lia.
  change (2 ^ 6)%Z with 64%Z.
  destruct (Z.leb_spec 2 bits), (Z.leb_spec 8 (bits + 6)); try lia; simpl; [|done].
  replace (bits + 6 - 8)%Z with (bits - 2)%Z by lia.
  rewrite Z.shiftr_div_pow2 by lia.
  replace (Z.shiftl 1 (bits - 2) - 1)%Z with (Z.ones (bits - 2))
    by (unfold Z.ones; lia).
  rewrite Z.land_ones by lia. by destruct (b64_loop s _ _).
Qed.

(** Two characters decode to a byte and four pending bits, and so on: the
    three phases of the loop. *)
Lemma b64_loop_phase0 (v1 v2 : Z) (s : bytes) :
  (0 ≤ v1 < 64)%Z → (0 ≤ v2 < 64)%Z →
  b64_loop (b64_char v1 :: b64_char v2 :: s) 0 0 =
  cons (Zbyte (v1 * 4 + v2 / 16)) <$> b64_loop s (v2 mod 16) 4.
Proof.
  intros H1 H2. rewrite b64_loop_char by (simpl; lia). cbv zeta.
  change (if (2 <=? 0)%Z then _ else ?x) with x. change (0 + 6)%Z with 6%Z.
  rewrite b64_loop_char by (simpl; lia). cbv zeta.
  change (if (2 <=? 6)%Z then ?x else _) with x. change (6 - 2)%Z with 4%Z.
  change (2 ^ 4)%Z with 16%Z.
  replace (((0 * 64 + v1) * 64 + v2) / 16)%Z with (v1 * 4 + v2 / 16)%Z by dlia.
  by replace (((0 * 64 + v1) * 64 + v2) mod 16)%Z with (v2 mod 16)%Z by dlia.
Qed.

Lemma b64_loop_phase4 (acc v : Z) (s : bytes) :
  (0 ≤ acc < 16)%Z → (0 ≤ v < 64)%Z →
  b64_loop (b64_char v :: s) acc 4 =
  cons (Zbyte (acc * 16 + v / 4)) <$> b64_loop s (v mod 4) 2.
Proof.
  intros H1 H2. rewrite b64_loop_char by (simpl; lia). cbv zeta.
  change (if (2 <=? 4)%Z then ?x else _) with x. change (4 - 2)%Z with 2%Z.
  change (2 ^ 2)%Z with 4%Z.
  replace ((acc * 64 + v) / 4)%Z with (acc * 16 + v / 4)%Z by dlia.
  by replace ((acc * 64 + v) mod 4)%Z with (v mod 4)%Z by dlia.
Qed.

Lemma b64_loop_phase2 (acc v : Z) (s : bytes) :
  (0 ≤ acc < 4)%Z → (0 ≤ v < 64)%Z →
  b64_loop (b64_char v :: s) acc 2 = cons (Zbyte (acc * 64 + v)) <$> b64_loop s 0 0.
Proof.
  intros H1 H2. rewrite b64_loop_char by (simpl; lia). cbv zeta.
  change (if (2 <=? 2)%Z then ?x else _) with x. change (2 - 2)%Z with 0%Z.
  change (2 ^ 0)%Z with 1%Z. by rewrite Z.div_1_r, Z.mod_1_r.
Qed.

Lemma Zbyte_eq_of (z : Z) (b : byte) : z = byteZ b → Zbyte z = b.
Proof. intros ->. apply Zbyte_byteZ. Qed.

Lemma b64_loop_body (bs : bytes) : b64_loop (b64_body bs) 0 0 = Some bs.
Proof.
  induction bs as [|a|a b|a b c r IH] using list_triple_ind; [done|..]; cbn [b64_body];
    cbv zeta; repeat match goal with x : byte |- _ =>
      lazymatch goal with _ : (0 ≤ byteZ x < 256)%Z |- _ => fail
      | _ => pose proof (byteZ_bounds x) end end.
  - rewrite b64_loop_phase0 by dlia. simpl. repeat f_equal. apply Zbyte_eq_of. dlia.
  - rewrite b64_loop_phase0, b64_loop_phase4 by dlia. simpl.
    repeat f_equal; apply Zbyte_eq_of; dlia.
  - rewrite b64_loop_phase0, b64_loop_phase4, b64_loop_phase2 by dlia. rewrite IH. simpl.
    repeat f_equal; apply Zbyte_eq_of; dlia.
Qed.

Lemma b64_body_alpha (bs : bytes) : Forall b64_alpha (b64_body bs).
Proof.
  induction bs as [|a|a b|a b c r IH] using list_triple_ind; cbn [b64_body]; cbv zeta;
    repeat match goal with x : byte |- _ =>
      lazymatch goal with _ : (0 ≤ byteZ x < 256)%Z |- _ => fail
      | _ => pose proof (byteZ_bounds x) end end;
    repeat (constructor; [apply b64_alpha_char; dlia|]); done || constructor.
Qed.

Lemma b64_pad_replicate (n : nat) :
  ∃ k, (k ≤ 2)%nat ∧ b64_pad n = replicate k "="%byte ∧ (n = 0%nat → k = 0%nat).
Proof.
  unfold b64_pad. pose proof (Nat.mod_upper_bound n 3 ltac:(lia)).
  destruct (n mod 3)%nat as [|[|[|]]] eqn:E; [exists 0%nat|exists 2%nat|exists 1%nat|lia];
    (split; [lia|split; [done|]]); intros ->; done.
Qed.

Lemma trim_start_with_none (fuel : nat) (cs : list bytes) (s : bytes) :
  strip_one cs s = None → trim_start_with fuel cs s = s.
Proof. intros E. destruct fuel; simpl; [done|]. by rewrite E. Qed.

Lemma strip_one_ws_nil : strip_one ws_chars [] = None ∧ strip_one (reverse <$> ws_chars) [] = None.
Proof. done. Qed.

Lemma strip_one_not_ws (b : byte) (s : bytes) :
  b64_alpha b ∨ b = "="%byte →
  strip_one ws_chars (b :: s) = None ∧ strip_one (reverse <$> ws_chars) (b :: s) = None.
Proof.
  destruct b; intros [[v H]|H]; try done; try (by vm_compute in H); by split.
Qed.

Lemma trim_no_ws (s : bytes) :
  Forall (λ b, b64_alpha b ∨ b = "="%byte) s → trim s = s.
Proof.
  intros Hs. unfold trim, trim_start, trim_end.
  assert (trim_start_with (length s) ws_chars s = s) as ->.
  { apply trim_start_with_none. destruct s as [|b r]; [done|].
    apply Forall_cons in Hs as [Hb _]. exact (proj1 (strip_one_not_ws b r Hb)). }
  rewrite trim_start_with_none; [apply reverse_involutive|].
  apply Forall_reverse in Hs. destruct (reverse s) as [|b r]; [done|].
  apply Forall_cons in Hs as [Hb _]. exact (proj2 (strip_one_not_ws b r Hb)).
Qed.

Lemma trim_start_with_replicate (c : byte) (k fuel : nat) (s : bytes) :
  (k ≤ fuel)%nat → strip_one [[c]] s = None →
  trim_start_with fuel [[c]] (replicate k c ++ s) = s.
Proof.
  revert fuel. induction k as [|k IH]; intros fuel Hk Hs; simpl.
  - by apply trim_start_with_none.
  - destruct fuel as [|fuel]; [lia|]. simpl. rewrite decide_True by done.
    apply IH; [lia|done].
Qed.

(** The decoder accepts every RFC 4648 encoding and returns what was encoded. *)
Lemma base64_decode_encode (bs : bytes) : base64_decode (b64_encode bs) = Some bs.
Proof.
  unfold base64_decode, b64_encode.
  destruct (b64_pad_replicate (length bs)) as (k & Hk & -> & _).
  pose proof (b64_body_alpha bs) as Ha.
  rewrite trim_no_ws.
  - unfold trim_end_matches. rewrite reverse_app, reverse_replicate.
    rewrite trim_start_with_replicate, reverse_involutive; [apply b64_loop_body|..].
    + rewrite length_app, length_replicate. lia.
    + apply Forall_reverse in Ha. destruct (reverse (b64_body bs)) as [|b r]; [done|].
      apply Forall_cons in Ha as [Hb%b64_alpha_not_pad _].
      simpl. by rewrite decide_False by done.
  - apply Forall_app. split.
    + eapply Forall_impl; [exact Ha|]. auto.
    + apply Forall_replicate. by right.
Qed.
