(* ===== verification/Hash.v ===== *)
(** * SHA-256

    The digest is supplied by the [sha2] and [ring] crates, so the components
    take it as a parameter: the class [Sha256Fn] with the one fact the code
    relies on, the 32-byte output that the array type [[u8; 32]] enforces.
    Collision freedom is never assumed of the whole function (no function with
    a fixed output length has it), only on a named finite list of inputs.

    The module [Fips] defines SHA-256 (FIPS 180-4).  It is the instance on which
    the executable examples run, and reproduces the published test vectors. *)

From Stdlib Require Import ZArith Lia.
From stdpp Require Import base list option.
From S2P Require Import Prelude Encoding.

Class Sha256Fn := {
  sha256 : bytes → bytes;
  sha256_length : ∀ m, length (sha256 m) = 32%nat;
}.

(** No two different strings of [S] share a digest. *)
Definition collision_free `{Sha256Fn} (S : list bytes) : Prop :=
  ∀ x y, x ∈ S → y ∈ S → sha256 x = sha256 y → x = y.

(** A decision procedure, quadratic in [S]. *)
Definition collision_freeb `{Sha256Fn} (S : list bytes) : bool :=
  let T := (λ x, (x, sha256 x)) <$> S in
  forallb (λ p, forallb (λ q, implb (bool_decide (p.2 = q.2)) (bool_decide (p.1 = q.1))) T) T.

Lemma collision_freeb_sound `{Sha256Fn} (S : list bytes) :
  collision_freeb S = true → collision_free S.
Proof.
  unfold collision_freeb. intros HT x y Hx Hy E.
  rewrite forallb_forall in HT. specialize (HT (x, sha256 x)).
  rewrite forallb_forall in HT. specialize (λ Hin, HT Hin (y, sha256 y)). simpl in HT.
  rewrite (bool_decide_true _ E) in HT. simpl in HT.
  apply (proj1 (bool_decide_eq_true _)), HT; apply list_elem_of_In, list_elem_of_fmap; eauto.
Qed.

Lemma collision_free_mono `{Sha256Fn} (S T : list bytes) :
  S ⊆ T → collision_free T → collision_free S.
Proof. intros HST HT x y Hx Hy. apply HT; auto. Qed.

(** ** FIPS 180-4 *)

Module Fips.
Open Scope Z_scope.

Definition w32 (z : Z) : Z := Z.land z u32_max.
Definition rotr (n x : Z) : Z := Z.lor (Z.shiftr x n) (w32 (Z.shiftl x (32 - n))).
Definition ch (x y z : Z) : Z := Z.lxor (Z.land x y) (Z.land (Z.lxor x u32_max) z).
Definition maj (x y z : Z) : Z := Z.lxor (Z.lxor (Z.land x y) (Z.land x z)) (Z.land y z).
Definition bsig0 (x : Z) : Z := Z.lxor (Z.lxor (rotr 2 x) (rotr 13 x)) (rotr 22 x).
Definition bsig1 (x : Z) : Z := Z.lxor (Z.lxor (rotr 6 x) (rotr 11 x)) (rotr 25 x).
Definition ssig0 (x : Z) : Z := Z.lxor (Z.lxor (rotr 7 x) (rotr 18 x)) (Z.shiftr x 3).
Definition ssig1 (x : Z) : Z := Z.lxor (Z.lxor (rotr 17 x) (rotr 19 x)) (Z.shiftr x 10).

(** The round constants and the initial state are the leading 32 bits of the
    fractional parts of the cube roots of the first 64 primes, and of the square
    roots of the first eight. *)
Definition is_prime (n : nat) : bool :=
  forallb (λ d, negb (n mod d =? 0)%nat) (seq 2 (n - 2)).

Definition primes : list Z :=
  Eval vm_compute in Z.of_nat <$> filter (λ n, is_prime n = true) (seq 2 310).

(** The largest [r] below [2 ^ bits] with [r ^ 3 ≤ n]. *)
Fixpoint cube_root (bits : nat) (n r : Z) : Z :=
  match bits with
  | O => r
  | S bits' =>
      let r' := r + 2 ^ Z.of_nat bits' in
      cube_root bits' n (if r' ^ 3 <=? n then r' else r)
  end.

Definition K : list Z :=
  Eval vm_compute in (λ p, w32 (cube_root 40 (p * 2 ^ 96) 0)) <$> primes.

Definition H0 : list Z :=
  Eval vm_compute in (λ p, w32 (Z.sqrt (p * 2 ^ 64))) <$> take 8 primes.

(** Padding to a multiple of 64 bytes. *)
Definition pad (m : bytes) : bytes :=
  m ++ x80 :: replicate ((119 - length m mod 64) mod 64) x00 ++ u64_be (8 * lenZ m).

Fixpoint words (fuel : nat) (m : bytes) : list Z :=
  match fuel, m with
  | S f, a :: b :: c :: d :: r =>
      (byteZ a * 16777216 + byteZ b * 65536 + byteZ c * 256 + byteZ d) :: words f r
  | _, _ => []
  end.

(** The message schedule; [w] holds the last sixteen words, newest first. *)
Fixpoint schedule (n : nat) (w : list Z) : list Z :=
  match n with
  | O => []
  | S n' =>
      let t := w32 (ssig1 (nth 1 w 0) + nth 6 w 0 + ssig0 (nth 14 w 0) + nth 15 w 0) in
      t :: schedule n' (t :: take 15 w)
  end.

Definition round (s : list Z) (kw : Z * Z) : list Z :=
  match s with
  | [a; b; c; d; e; f; g; h] =>
      let t1 := h + bsig1 e + ch e f g + kw.1 + kw.2 in
      let t2 := bsig0 a + maj a b c in
      [w32 (t1 + t2); a; b; c; w32 (d + t1); e; f; g]
  | _ => s
  end.

Definition compress (h : list Z) (block : list Z) : list Z :=
  let w := block ++ schedule 48 (reverse block) in
  zip_with (λ x y, w32 (x + y)) h (fold_left round (zip K w) h).

Fixpoint blocks (fuel : nat) (h : list Z) (ws : list Z) : list Z :=
  match fuel, ws with
  | S f, _ :: _ => blocks f (compress h (take 16 ws)) (drop 16 ws)
  | _, _ => h
  end.

Definition digest_words (m : bytes) : list Z :=
  let p := pad m in
  let ws := words (length p) p in
  blocks (length ws) H0 ws.

(** The eight state words, big-endian; [default 0] never applies (there are
    always eight). *)
Definition digest (m : bytes) : bytes :=
  let h := digest_words m in
  flat_map (λ i, be_bytes 4 (nth i h 0)) (seq 0 8).

Lemma digest_length (m : bytes) : length (digest m) = 32%nat.
Proof. unfold digest. cbn [flat_map seq]. by rewrite !length_app, !length_be_bytes. Qed.
End Fips.

(** The instance used by the executable examples. *)
Definition fips_sha256 : Sha256Fn :=
  {| sha256 := Fips.digest; sha256_length := Fips.digest_length |}.

(** FIPS 180-4 test vectors: the empty message, "abc", and a two-block message. *)
Example fips_empty :
  hex_encode (Fips.digest []) =
  lit "e3b0c44298fc1c149afbf4c8996fb92427ae41e4649b934ca495991b7852b855".
Proof. vm_compute. reflexivity. Qed.

Example fips_abc :
  hex_encode (Fips.digest (lit "abc")) =
  lit "ba7816bf8f01cfea414140de5dae2223b00361a396177a9cb410ff61f20015ad".
Proof. vm_compute. reflexivity. Qed.

Example fips_two_blocks :
  hex_encode (Fips.digest (lit "abcdbcdecdefdefgefghfghighijhijkijkljklmklmnlmnomnopnopq")) =
  lit "248d6a61d20638b8e5c026930c3e6039a33ce45964ff2167f6ecedd419db06c1".
Proof. vm_compute. reflexivity. Qed.
