(* ===== verification/Json.v ===== *)
(** * JSON values and their canonical text

    [canon_into] ([packages/verifier-rust/src/lib.rs], and its twin
    [canonicalize_into] of [crates/gateway/src/audit_format/mod.rs]) writes the
    canonical text that enters a row hash; [cap_ledger_content]
    ([crates/gateway/src/audit.rs]) replaces long string values before that.

    [serde_json] supplies the number type and its printer: they are parameters
    (class [JsonNumber]).  Its map type is a [BTreeMap], so a well-formed object
    lists its fields in strictly increasing key order ([wf]). *)

From Stdlib Require Import ZArith Lia.
From stdpp Require Import base list option.
From S2P Require Import Prelude BTree Encoding Hash.

(** The bytes of JSON's number grammar. *)
Definition num_byte (b : byte) : bool :=
  is_digit b || bool_decide (b ∈ ["-"; "+"; "."; "e"; "E"]%byte).

(** [serde_json::Number] with [to_string] and [as_u64]: a number prints as a
    non-empty text of the number grammar, different numbers differently. *)
Class JsonNumber := {
  number : Type;
  num_to_string : number → bytes;
  num_as_u64 : number → option Z;
  num_to_string_inj : Inj (=) (=) num_to_string;
  num_to_string_bytes : ∀ n, Forall (λ b, num_byte b = true) (num_to_string n);
  num_to_string_ne : ∀ n, num_to_string n ≠ [];
}.

Section json.
Context `{JsonNumber}.

(** [serde_json::Value]. *)
Inductive Value : Type :=
  | Null
  | Bool (b : bool)
  | Number (n : number)
  | String (s : bytes)
  | Array (items : list Value)
  | Object (fields : list (bytes * Value)).

(** Induction through arrays and objects. *)
Lemma Value_nested_ind (P : Value → Prop) :
  P Null → (∀ b, P (Bool b)) → (∀ n, P (Number n)) → (∀ s, P (String s)) →
  (∀ items, Forall P items → P (Array items)) →
  (∀ fields, Forall (λ kv, P kv.2) fields → P (Object fields)) →
  ∀ v, P v.
Proof.
  intros Hn Hb Hm Hs Ha Ho. fix IH 1. intros [|b|n|s|items|fields].
  - exact Hn.
  - apply Hb.
  - apply Hm.
  - apply Hs.
  - apply Ha. induction items as [|v items IHi]; constructor; [apply IH|exact IHi].
  - apply Ho. induction fields as [|[k v] fields IHf]; constructor; [apply IH|exact IHf].
Qed.

(** ** Canonical text *)

Definition quote : byte := x22.
Definition backslash : byte := x5c.
Definition comma : byte := x2c.
Definition colon : byte := x3a.

(** The escape of one character; the multi-byte UTF-8 characters are copied,
    byte by byte. *)
Definition escape (c : byte) : bytes :=
  if decide (c = quote) then [backslash; quote]
  else if decide (c = backslash) then [backslash; backslash]
  else if decide (c = x0a) then [backslash; "n"%byte]
  else if decide (c = x0d) then [backslash; "r"%byte]
  else if decide (c = x09) then [backslash; "t"%byte]
  else if decide (c = x08) then [backslash; "b"%byte]
  else if decide (c = x0c) then [backslash; "f"%byte]
  else if (byteZ c <? 32)%Z then
    [backslash; "u"%byte; "0"%byte; "0"%byte; hex_digit (byteZ c / 16); hex_digit (byteZ c mod 16)]
  else [c].

Definition canon_string (s : bytes) : bytes := quote :: flat_map escape s ++ [quote].

(** The separator precedes every element but the first. *)
Fixpoint sep_concat (sep : byte) (texts : list bytes) : bytes :=
  match texts with
  | [] => []
  | [t] => t
  | t :: texts' => t ++ sep :: sep_concat sep texts'
  end.

(** [keys.sort()] and the lookups [map[k]]: the fields in key order. *)
Definition sort_fields {A} (fields : list (bytes * A)) : list (bytes * A) :=
  foldr (λ kv m, BTreeMap.insert kv.1 kv.2 m) [] fields.

Definition field_text (kt : bytes * bytes) : bytes := canon_string kt.1 ++ colon :: kt.2.

(** What [canon_into] appends for a value. *)
Fixpoint canon (v : Value) : bytes :=
  match v with
  | Null => lit "null"
  | Bool b => if b then lit "true" else lit "false"
  | Number n => num_to_string n
  | String s => canon_string s
  | Array items => "["%byte :: sep_concat comma (map canon items) ++ ["]"%byte]
  | Object fields =>
      "{"%byte ::
      sep_concat comma (field_text <$> sort_fields (map (λ kv, (kv.1, canon kv.2)) fields)) ++
      ["}"%byte]
  end.

Definition canon_into (v : Value) (out : bytes) : bytes := out ++ canon v.

Definition canonical_payload (v : Value) : bytes := canon_into v [].

(** ** Capping *)

(** [s.chars().count()]: the bytes that are not UTF-8 continuation bytes. *)
Definition char_count (s : bytes) : Z :=
  lenZ (filter (λ b, ¬ (128 ≤ byteZ b < 192)%Z) s).

Definition LEDGER_MAX_VALUE_CHARS : Z := 256.

Definition content_marker `{Sha256Fn} (s : bytes) : bytes :=
  lit "[content-redacted: len=" ++ dec (char_count s) ++ lit ", sha256=" ++
  take 8 (hex_encode (sha256 s)) ++ lit "]".

Fixpoint cap_ledger_content `{Sha256Fn} (v : Value) (max_chars : Z) : Value :=
  match v with
  | String s => if (max_chars <? char_count s)%Z then String (content_marker s) else String s
  | Array a => Array (map (λ x, cap_ledger_content x max_chars) a)
  | Object o => Object (map (λ kx, (kx.1, cap_ledger_content kx.2 max_chars)) o)
  | other => other
  end.

(** ** Well-formedness: object keys strictly increase, at every depth *)

Fixpoint keys_increasing (ks : list bytes) : bool :=
  match ks with
  | k1 :: (k2 :: _) as ks' =>
      match bytes_compare k1 k2 with Lt => keys_increasing ks' | _ => false end
  | _ => true
  end.

Fixpoint wf (v : Value) : bool :=
  match v with
  | Array items => forallb wf items
  | Object fields => keys_increasing (map fst fields) && forallb (λ kv, wf kv.2) fields
  | _ => true
  end.

(** ** Canonical text determines the value *)

(** Read one character of a string literal's body; [None] at the closing quote. *)
Definition unescape1 (s : bytes) : option (byte * bytes) :=
  match s with
  | [] => None
  | c :: r =>
      if decide (c = quote) then None
      else if decide (c = backslash) then
        match r with
        | [] => None
        | d :: r' =>
            if decide (d = "u"%byte) then
              match r' with
              | _ :: _ :: h :: l :: r'' =>
                  match hex_nibble h, hex_nibble l with
                  | Some h, Some l => Some (Zbyte (h * 16 + l), r'')
                  | _, _ => None
                  end
              | _ => None
              end
            else if decide (d = "n"%byte) then Some (x0a, r')
            else if decide (d = "r"%byte) then Some (x0d, r')
            else if decide (d = "t"%byte) then Some (x09, r')
            else if decide (d = "b"%byte) then Some (x08, r')
            else if decide (d = "f"%byte) then Some (x0c, r')
            else Some (d, r')
        end
      else Some (c, r)
  end.

Lemma unescape1_escape (b : byte) (r : bytes) : unescape1 (escape b ++ r) = Some (b, r).
Proof. destruct b; reflexivity. Qed.

Lemma string_body_inj (s t r r' : bytes) :
  flat_map escape s ++ quote :: r = flat_map escape t ++ quote :: r' → s = t ∧ r = r'.
Proof.
  revert t. induction s as [|a s IH]; intros [|b t] E; cbn [flat_map] in E;
    rewrite <- ?(assoc_L (++)) in E.
  - by injection E.
  - apply (f_equal unescape1) in E. by rewrite unescape1_escape in E.
  - apply (f_equal unescape1) in E. by rewrite unescape1_escape in E.
  - apply (f_equal unescape1) in E. rewrite !unescape1_escape in E.
    injection E as -> E. by apply IH in E as [-> ->].
Qed.

Lemma canon_string_inj (s t r r' : bytes) :
  canon_string s ++ r = canon_string t ++ r' → s = t ∧ r = r'.
Proof.
  unfold canon_string. simpl. rewrite <- !(assoc_L (++)). intros [= E].
  by apply string_body_inj.
Qed.

(** A text is delimited when it is empty or starts with a structural byte. *)
Definition delim (b : byte) : bool := bool_decide (b ∈ [comma; "]"; "}"]%byte).
Definition delimited (r : bytes) : Prop := match r with [] => True | b :: _ => delim b = true end.

Lemma num_byte_not_delim (b : byte) : num_byte b = true → delim b = false.
Proof. by destruct b. Qed.

Lemma num_text_inj (a b r s : bytes) :
  Forall (λ x, num_byte x = true) a → Forall (λ x, num_byte x = true) b →
  delimited r → delimited s → a ++ r = b ++ s → a = b ∧ r = s.
Proof.
  intros Ha Hb Hr Hs. revert b Hb. induction Ha as [|x a Hx Ha IH]; intros [|y b] Hb E; simpl in *.
  - done.
  - subst r. apply Forall_cons in Hb as [Hy%num_byte_not_delim _]. simpl in Hr. congruence.
  - subst s. apply num_byte_not_delim in Hx. simpl in Hs. congruence.
  - injection E as -> E. apply Forall_cons in Hb as [_ Hb].
    by destruct (IH b Hb E) as [-> ->].
Qed.

Definition headed (t : bytes) : Prop := ∃ h t', t = h :: t' ∧ delim h = false.

Lemma num_head (n : number) : ∃ h t, num_to_string n = h :: t ∧ num_byte h = true.
Proof.
  pose proof (num_to_string_bytes n) as Hb. pose proof (num_to_string_ne n).
  destruct (num_to_string n) as [|h t]; [done|]. apply Forall_cons in Hb as [? _]. eauto.
Qed.

Lemma canon_headed (v : Value) : headed (canon v).
Proof.
  destruct v as [|[]|n|s|items|fields]; cbn [canon]; try (by eexists _, _).
  destruct (num_head n) as (h & t & -> & Hh%num_byte_not_delim). by exists h, t.
Qed.

(** Sequences: if each element's text is decodable in front of a delimiter, so is
    the separated sequence. *)
Lemma sep_concat_inj {A} (f : A → bytes) (good : A → Prop) (close : byte)
    (xs ys : list A) (r s : bytes) :
  delim close = true → close ≠ comma → (∀ x, headed (f x)) →
  Forall (λ x, ∀ y r s, good y → delimited r → delimited s →
                 f x ++ r = f y ++ s → x = y ∧ r = s) xs →
  Forall good ys →
  sep_concat comma (map f xs) ++ close :: r = sep_concat comma (map f ys) ++ close :: s →
  xs = ys ∧ r = s.
Proof.
  intros Hc Hcc Hh Hxs. revert ys. induction Hxs as [|x xs Hx Hxs IH]; intros ys Hys E.
  - destruct ys as [|y ys]; [by injection E|]. exfalso.
    destruct (Hh y) as (h & t & Ey & Hd). cbn [map sep_concat] in E.
    rewrite Ey in E. destruct (map f ys); cbn in E; injection E as -> _; congruence.
  - destruct Hys as [|y ys Hy Hys].
    { exfalso. destruct (Hh x) as (h & t & Ex & Hd). cbn [map sep_concat] in E.
      rewrite Ex in E. destruct (map f xs); cbn in E; injection E as -> _; congruence. }
    cbn [map] in *. destruct xs as [|x2 xs], ys as [|y2 ys]; cbn [map sep_concat] in *;
      rewrite <- ?(assoc_L (++)) in E; cbn [app] in E;
      apply Hx in E as [-> E]; try done; try (by injection E).
    injection E as E. apply (IH (y2 :: ys)) in E as [-> ->]; done.
Qed.

Lemma sort_fields_id {A} (fields : list (bytes * A)) :
  keys_increasing (map fst fields) = true → sort_fields fields = fields.
Proof.
  induction fields as [|[k v] fields IH]; [done|]. intros Hk.
  unfold sort_fields in *. cbn [foldr fst snd]. rewrite IH.
  - destruct fields as [|[k' v'] fields]; [done|]. cbn [map fst] in Hk.
    cbn [BTreeMap.insert]. cbn [keys_increasing] in Hk. by destruct (bytes_compare k k').
  - destruct fields as [|[k' v'] fields]; [done|]. cbn [map fst keys_increasing] in Hk.
    by destruct (bytes_compare k k').
Qed.

Lemma canon_object (fields : list (bytes * Value)) :
  keys_increasing (map fst fields) = true →
  canon (Object fields) =
  "{"%byte :: sep_concat comma (map (λ kv, field_text (kv.1, canon kv.2)) fields) ++ ["}"%byte].
Proof.
  intros Hk. cbn [canon]. rewrite sort_fields_id; [by rewrite <- list_fmap_compose|].
  rewrite map_map. cbn [fst]. exact Hk.
Qed.

Lemma field_text_inj (k k' t t' r r' : bytes) :
  field_text (k, t) ++ r = field_text (k', t') ++ r' → k = k' ∧ t ++ r = t' ++ r'.
Proof.
  unfold field_text. cbn [fst snd]. rewrite <- !(assoc_L (++)). intros E.
  apply canon_string_inj in E as [-> E]. by injection E.
Qed.

(** The first byte of the text tells the kind of value. *)
Definition first_tag (h : byte) : nat :=
  if decide (h = "n"%byte) then 0 else if decide (h = "f"%byte) then 1
  else if decide (h = "t"%byte) then 2 else if decide (h = quote) then 4
  else if decide (h = "["%byte) then 5 else if decide (h = "{"%byte) then 6 else 3.

Definition value_tag (v : Value) : nat :=
  match v with
  | Null => 0 | Bool false => 1 | Bool true => 2 | Number _ => 3
  | String _ => 4 | Array _ => 5 | Object _ => 6
  end.

Lemma num_first_tag (h : byte) : num_byte h = true → first_tag h = 3%nat.
Proof. by destruct h. Qed.

Lemma canon_first (v : Value) : ∃ h t, canon v = h :: t ∧ first_tag h = value_tag v.
Proof.
  destruct v as [|[]|n|s|items|fields]; try (by eexists _, _).
  destruct (num_head n) as (h & t & E & Hh). exists h, t. split; [done|].
  by apply num_first_tag.
Qed.

Lemma canon_same_tag (v w : Value) (r s : bytes) :
  canon v ++ r = canon w ++ s → value_tag v = value_tag w.
Proof.
  destruct (canon_first v) as (h & t & Ev & <-), (canon_first w) as (h' & t' & Ew & <-).
  rewrite Ev, Ew. by intros [= ->].
Qed.

Lemma canon_inj_delim (v w : Value) (r s : bytes) :
  wf v = true → wf w = true → delimited r → delimited s →
  canon v ++ r = canon w ++ s → v = w ∧ r = s.
Proof.
  revert w r s. induction v as [|b|n|t|items IH|fields IH] using Value_nested_ind;
    intros w r s Hv Hw Hr Hs E; pose proof (canon_same_tag _ _ _ _ E) as Ht;
    destruct w as [|b'|n'|t'|items'|fields'];
    try (destruct b); try (destruct b'); try discriminate Ht;
    try (cbn in E; by simplify_eq).
  - cbn [canon] in E. apply num_text_inj in E as [E ->]; [|apply num_to_string_bytes..|done|done].
    by apply num_to_string_inj in E as ->.
  - cbn [canon] in E. by apply canon_string_inj in E as [-> ->].
  - cbn [canon wf] in *. cbn [app] in E. injection E as E. rewrite <- !(assoc_L (++)) in E.
    cbn [app] in E.
    apply (sep_concat_inj canon (λ v, wf v = true)) in E as [-> ->]; [done|done|done|apply canon_headed|..].
    + rewrite forallb_forall in Hv. apply Forall_forall. intros x Hx y r' s' Hy.
      eapply Forall_forall in IH; [|done]. apply IH; [|done]. by apply Hv, list_elem_of_In.
    + rewrite forallb_forall in Hw. apply Forall_forall. intros x Hx. by apply Hw, list_elem_of_In.
  - cbn [wf] in Hv, Hw. apply andb_prop in Hv as [Hk Hv], Hw as [Hk' Hw].
    rewrite !canon_object in E by done.
    cbn [app] in E. injection E as E. rewrite <- !(assoc_L (++)) in E. cbn [app] in E.
    apply (sep_concat_inj _ (λ kv, wf kv.2 = true)) in E as [-> ->]; [done|done|done|by intros; eexists _, _|..].
    + rewrite forallb_forall in Hv. apply Forall_forall. intros [k x] Hx [k' y] r' s' Hy Hr' Hs' Ef.
      apply field_text_inj in Ef as [Ek Ef]. cbn [fst snd] in *. subst k'.
      eapply Forall_forall in IH; [|done]. apply IH in Ef as [Ef ->]; [by cbn in *; subst|..]; try done.
      apply list_elem_of_In in Hx. by apply (Hv (k, x)).
    + rewrite forallb_forall in Hw. apply Forall_forall. intros x Hx. by apply Hw, list_elem_of_In.
Qed.

(** C38. The canonical text of a payload determines it: two well-formed values
    (an object of [serde_json] lists its keys in strictly increasing order) with
    the same [canonical_payload] are equal, so the row hash commits to the value
    and not only to a text. *)
Theorem canonical_payload_injective (v w : Value) :
  wf v = true → wf w = true → canonical_payload v = canonical_payload w → v = w.
Proof.
  intros Hv Hw E. apply (canon_inj_delim v w [] []); [done..|]. by rewrite !(right_id_L [] (++)).
Qed.

(** ** Capping bounds every string value *)

(** Every string value of [v] (object keys are not values) satisfies [p]. *)
Fixpoint all_strings (p : bytes → bool) (v : Value) : bool :=
  match v with
  | String s => p s
  | Array items => forallb (all_strings p) items
  | Object fields => forallb (λ kv, all_strings p kv.2) fields
  | _ => true
  end.

Definition within (max_chars : Z) (s : bytes) : bool := (char_count s <=? max_chars)%Z.

Section cap.
Context `{Sha256Fn}.

Lemma char_count_le_length (s : bytes) : (char_count s ≤ lenZ s)%Z.
Proof. unfold char_count, lenZ. apply Nat2Z.inj_le, length_filter. Qed.

Lemma content_marker_short (s : bytes) : (char_count (content_marker s) ≤ 61)%Z.
Proof.
  etrans; [apply char_count_le_length|]. unfold content_marker. rewrite !lenZ_app.
  pose proof (dec_length (char_count s)). unfold lenZ. rewrite length_take.
  change (length (lit "[content-redacted: len=")) with 23%nat.
  change (length (lit ", sha256=")) with 9%nat. change (length (lit "]")) with 1%nat. lia.
Qed.

Lemma cap_strings (v : Value) (max_chars : Z) :
  (61 ≤ max_chars)%Z → all_strings (within max_chars) (cap_ledger_content v max_chars) = true.
Proof.
  intros Hm. induction v as [|b|n|s|items IH|fields IH] using Value_nested_ind; try done.
  - cbn [cap_ledger_content]. destruct (Z.ltb_spec max_chars (char_count s)); cbn [all_strings];
      apply Z.leb_le; [pose proof (content_marker_short s)|]; lia.
  - cbn [cap_ledger_content all_strings]. apply forallb_forall. intros y.
    rewrite in_map_iff. intros (x & <- & Hx%list_elem_of_In). by eapply Forall_forall in IH.
  - cbn [cap_ledger_content all_strings]. apply forallb_forall. intros y.
    rewrite in_map_iff. intros (x & <- & Hx%list_elem_of_In). by eapply Forall_forall in IH.
Qed.

Lemma cap_unchanged (v : Value) (max_chars : Z) :
  all_strings (within max_chars) v = true → cap_ledger_content v max_chars = v.
Proof.
  induction v as [|b|n|s|items IH|fields IH] using Value_nested_ind; intros Hv; try done.
  - cbn [cap_ledger_content all_strings] in *. unfold within in Hv. apply Z.leb_le in Hv.
    destruct (Z.ltb_spec max_chars (char_count s)); [lia|done].
  - cbn [cap_ledger_content all_strings] in *. f_equal. rewrite forallb_forall in Hv.
    rewrite <- (map_id items) at 2. apply map_ext_in. intros x Hx.
    rewrite Forall_forall in IH. apply IH; [by apply list_elem_of_In|by apply Hv].
  - cbn [cap_ledger_content all_strings] in *. f_equal. rewrite forallb_forall in Hv.
    rewrite <- (map_id fields) at 2. apply map_ext_in. intros [k x] Hx. cbn [fst snd]. f_equal.
    rewrite Forall_forall in IH. apply (IH (k, x)); [by apply list_elem_of_In|by apply (Hv (k, x))].
Qed.

Lemma cap_wf (v : Value) (max_chars : Z) : wf (cap_ledger_content v max_chars) = wf v.
Proof.
  induction v as [|b|n|s|items IH|fields IH] using Value_nested_ind; try done.
  - cbn [cap_ledger_content]. by case_match.
  - cbn [cap_ledger_content wf]. induction IH as [|x items Hx _ IHl]; [done|]. simpl. by rewrite Hx, IHl.
  - cbn [cap_ledger_content wf]. rewrite map_map. cbn [fst]. f_equal.
    induction IH as [|x fields Hx _ IHl]; [done|]. simpl. by rewrite Hx, IHl.
Qed.

(** Capping: every string value of the capped payload has at most
    [LEDGER_MAX_VALUE_CHARS] characters, whatever the input; a payload already
    within the limit is unchanged, so capping twice is capping once; and capping
    keeps the payload well-formed. *)
Theorem cap_ledger_content_spec (v : Value) :
  let capped := cap_ledger_content v LEDGER_MAX_VALUE_CHARS in
  all_strings (within LEDGER_MAX_VALUE_CHARS) capped = true ∧
  (all_strings (within LEDGER_MAX_VALUE_CHARS) v = true → capped = v) ∧
  cap_ledger_content capped LEDGER_MAX_VALUE_CHARS = capped ∧
  wf capped = wf v.
Proof.
  cbv zeta. split_and!.
  - by apply cap_strings.
  - apply cap_unchanged.
  - by apply cap_unchanged, cap_strings.
  - apply cap_wf.
Qed.

End cap.

End json.

(** ** A concrete number type: a number as its text

    It stands for [serde_json::Number] in the examples and witnesses. *)

Definition num_text (t : bytes) : bool := negb (bool_decide (t = [])) && forallb num_byte t.

Definition text_as_u64 (t : bytes) : option Z :=
  if forallb is_digit t then parse_u64 t else None.

#[refine] Definition text_number : JsonNumber := {|
  number := { t : bytes | num_text t = true };
  num_to_string := proj1_sig;
  num_as_u64 := λ n, text_as_u64 (proj1_sig n);
|}.
Proof.
  - intros [t Ht]. cbn. unfold num_text in Ht. apply andb_prop in Ht as [_ Ht].
    apply Forall_forall. intros x Hx%list_elem_of_In. rewrite forallb_forall in Ht. by apply Ht.
  - intros [t Ht] E. cbn in E. subst t. discriminate Ht.
Defined.

(** A number literal. *)
Definition num (s : string) (p : num_text (lit s) = true) : @Value text_number :=
  @Number text_number (exist _ (lit s) p).

Definition ex_payload : @Value text_number :=
  Object [(lit "a", Array [num "1" eq_refl; Null; String (lit "x")]); (lit "b", Bool true)].

(** Building the same object from fields in another order gives the same text. *)
Lemma canonical_payload_injective_witness :
  let v : @Value text_number := Object (sort_fields
    [(lit "b", Bool true); (lit "a", Array [num "1" eq_refl; Null; String (lit "x")])]) in
  wf v = true ∧ wf ex_payload = true ∧ canonical_payload v = canonical_payload ex_payload ∧
  v = ex_payload.
Proof.
  split_and!; [reflexivity..|].
  apply (@canonical_payload_injective text_number _ ex_payload); reflexivity.
Defined.
