(* ===== verification/Merkle.v ===== *)
(** * The Merkle tree of an audit batch

    [merkle_root_v2] (both crates) builds the tree level by level, promoting a
    lone last node; [rfc6962_root] replays an inclusion proof bottom-up over a
    pair of shifting indices.  The specification is RFC 6962, section 2.1: the
    recursive tree hash [mth] that splits at the largest power of two, and its
    audit path [path].  The theorems: the level loop computes [mth]; the root
    binds the list of leaves; the replay accepts every RFC audit path, and
    accepts nothing else. *)

From Stdlib Require Import ZArith Lia.
From stdpp Require Import base list option.
From Equations Require Import Equations.
From S2P Require Import Prelude Encoding Hash.

Section merkle.
Context `{Sha256Fn}.

(** ** The code *)

Definition MERKLE_LEAF_PREFIX : byte := x00.
Definition MERKLE_NODE_PREFIX : byte := x01.

Definition leaf_preimage (leaf : bytes) : bytes := MERKLE_LEAF_PREFIX :: leaf.
Definition node_preimage (l r : bytes) : bytes := MERKLE_NODE_PREFIX :: l ++ r.

Definition leaf_hash (leaf : bytes) : bytes := sha256 (leaf_preimage leaf).
Definition node_hash (l r : bytes) : bytes := sha256 (node_preimage l r).

(** One pass of the [while] loop: [chunks_exact(2)], then the remainder. *)
Fixpoint pair_level (level : list bytes) : list bytes :=
  match level with
  | a :: b :: level' => node_hash a b :: pair_level level'
  | rest => rest
  end.

(** The [while level.len() > 1] loop, bounded by [fuel] passes. *)
Fixpoint merkle_loop (fuel : nat) (level : list bytes) : list bytes :=
  match fuel with
  | O => level
  | S fuel' => if (1 <? length level)%nat then merkle_loop fuel' (pair_level level) else level
  end.

(** [level[0]] after the loop; [length leaves] passes are enough
    ([merkle_loop_singleton]). *)
Definition merkle_root_v2 (leaves : list bytes) : bytes :=
  match leaves with
  | [] => sha256 []
  | _ => default [] (head (merkle_loop (length leaves) (leaf_hash <$> leaves)))
  end.

Inductive ProofError : Type := IndexOutOfRange | ProofTooLong | ProofTooShort.

(** [while fnv != 0 && (fnv & 1) == 0 { fnv >>= 1; sn >>= 1; }] *)
Fixpoint shift_even (fuel : nat) (fnv sn : Z) : Z * Z :=
  match fuel with
  | O => (fnv, sn)
  | S fuel' =>
      if (negb (fnv =? 0) && (Z.land fnv 1 =? 0))%Z
      then shift_even fuel' (Z.shiftr fnv 1) (Z.shiftr sn 1)
      else (fnv, sn)
  end.

(** The loop over the proof; 64 shifts exhaust a [u64]. *)
Fixpoint proof_loop (fnv sn : Z) (r : bytes) (proof : list bytes) : result bytes ProofError :=
  match proof with
  | [] => if (sn =? 0)%Z then Ok r else Err ProofTooShort
  | p :: proof' =>
      if (sn =? 0)%Z then Err ProofTooLong
      else
        let '(fnv1, sn1, r1) :=
          if ((Z.land fnv 1 =? 1) || (fnv =? sn))%Z then
            let '(f, s) := shift_even 64 fnv sn in (f, s, node_hash p r)
          else (fnv, sn, node_hash r p) in
        proof_loop (Z.shiftr fnv1 1) (Z.shiftr sn1 1) r1 proof'
  end.

Definition rfc6962_root (leaf : bytes) (index size : Z) (proof : list bytes)
    : result bytes ProofError :=
  if (size <=? index)%Z then Err IndexOutOfRange
  else proof_loop index (size - 1) leaf proof.

(** ** RFC 6962, section 2.1 *)

(** The largest power of two smaller than [n], for [n ≥ 2]. *)
Definition split_point (n : nat) : nat := 2 ^ Nat.log2 (n - 1).

Lemma split_point_bounds (n : nat) :
  (2 ≤ n)%nat → (1 ≤ split_point n < n ∧ n ≤ 2 * split_point n)%nat.
Proof.
  intros Hn. unfold split_point.
  destruct (Nat.log2_spec (n - 1)) as [H1 H2]; [lia|].
  rewrite Nat.pow_succ_r' in H2.
  pose proof (Nat.pow_nonzero 2 (Nat.log2 (n - 1))). lia.
Qed.

Lemma split_point_unique (n j : nat) :
  (2 ^ j < n ≤ 2 * 2 ^ j)%nat → split_point n = 2 ^ j.
Proof.
  intros Hj. unfold split_point. f_equal.
  apply Nat.log2_unique; [lia|]. rewrite Nat.pow_succ_r'. lia.
Qed.

(** The tree hash, generic in the hash [f] of a leaf. *)
Equations? tree (f : bytes → bytes) (l : list bytes) : bytes by wf (length l) lt :=
  tree f [] := sha256 [];
  tree f [x] := f x;
  tree f (x :: y :: r) :=
    let k := split_point (length (x :: y :: r)) in
    node_hash (tree f (take k (x :: y :: r))) (tree f (drop k (x :: y :: r))).
Proof.
  all: pose proof (split_point_bounds (length (x :: y :: r)) ltac:(simpl; lia)) as [? ?].
  - rewrite length_take. simpl in *. lia.
  - rewrite length_drop. simpl in *. lia.
Qed.

(** MTH of RFC 6962. *)
Definition mth (leaves : list bytes) : bytes := tree leaf_hash leaves.

(** PATH(m, D) of RFC 6962, section 2.1.1. *)
Equations? path (f : bytes → bytes) (m : nat) (l : list bytes) : list bytes
    by wf (length l) lt :=
  path f m [] := [];
  path f m [x] := [];
  path f m (x :: y :: r) with (m <? split_point (length (x :: y :: r)))%nat => {
    | true => path f m (take (split_point (length (x :: y :: r))) (x :: y :: r))
              ++ [tree f (drop (split_point (length (x :: y :: r))) (x :: y :: r))];
    | false => path f (m - split_point (length (x :: y :: r)))
                      (drop (split_point (length (x :: y :: r))) (x :: y :: r))
              ++ [tree f (take (split_point (length (x :: y :: r))) (x :: y :: r))] }.
Proof.
  all: pose proof (split_point_bounds (length (x :: y :: r)) ltac:(simpl; lia)) as [? ?].
  - rewrite length_take. simpl in *. lia.
  - rewrite length_drop. simpl in *. lia.
Qed.

(** The strings hashed while computing a tree hash; [g] lists those of a leaf. *)
Equations? tree_preimages (g : bytes → list bytes) (f : bytes → bytes) (l : list bytes) : list bytes
    by wf (length l) lt :=
  tree_preimages g f [] := [[]];
  tree_preimages g f [x] := g x;
  tree_preimages g f (x :: y :: r) :=
    let k := split_point (length (x :: y :: r)) in
    node_preimage (tree f (take k (x :: y :: r))) (tree f (drop k (x :: y :: r))) ::
    tree_preimages g f (take k (x :: y :: r)) ++ tree_preimages g f (drop k (x :: y :: r)).
Proof.
  all: pose proof (split_point_bounds (length (x :: y :: r)) ltac:(simpl; lia)) as [? ?].
  - rewrite length_take. simpl in *. lia.
  - rewrite length_drop. simpl in *. lia.
Qed.

Definition mth_preimages (leaves : list bytes) : list bytes :=
  tree_preimages (λ d, [leaf_preimage d]) leaf_hash leaves.

(** The strings hashed while replaying an inclusion proof. *)
Fixpoint proof_preimages (fnv sn : Z) (r : bytes) (proof : list bytes) : list bytes :=
  match proof with
  | [] => []
  | p :: proof' =>
      if (sn =? 0)%Z then []
      else if ((Z.land fnv 1 =? 1) || (fnv =? sn))%Z then
        let '(f, s) := shift_even 64 fnv sn in
        node_preimage p r ::
        proof_preimages (Z.shiftr f 1) (Z.shiftr s 1) (node_hash p r) proof'
      else
        node_preimage r p ::
        proof_preimages (Z.shiftr fnv 1) (Z.shiftr sn 1) (node_hash r p) proof'
  end.

(** ** Tree lemmas *)

Lemma tree_node (f : bytes → bytes) (l : list bytes) :
  (2 ≤ length l)%nat →
  tree f l = node_hash (tree f (take (split_point (length l)) l))
                       (tree f (drop (split_point (length l)) l)).
Proof. destruct l as [|x [|y r]]; simpl; [lia..|]. intros _. by simp tree. Qed.

Lemma tree_preimages_node (g : bytes → list bytes) (f : bytes → bytes) (l : list bytes) :
  (2 ≤ length l)%nat →
  tree_preimages g f l =
    node_preimage (tree f (take (split_point (length l)) l))
                  (tree f (drop (split_point (length l)) l)) ::
    tree_preimages g f (take (split_point (length l)) l) ++
    tree_preimages g f (drop (split_point (length l)) l).
Proof. destruct l as [|x [|y r]]; simpl; [lia..|]. intros _. by simp tree_preimages. Qed.

Lemma path_node (f : bytes → bytes) (m : nat) (l : list bytes) :
  (2 ≤ length l)%nat →
  path f m l =
    if (m <? split_point (length l))%nat
    then path f m (take (split_point (length l)) l) ++ [tree f (drop (split_point (length l)) l)]
    else path f (m - split_point (length l)) (drop (split_point (length l)) l)
         ++ [tree f (take (split_point (length l)) l)].
Proof.
  destruct l as [|x [|y r]]; simpl length; [lia..|]. intros _.
  simp path. destruct (m <? _)%nat; by simp path.
Qed.

(** Induction on lists by splitting at the RFC's split point. *)
Lemma split_ind (P : list bytes → Prop) :
  P [] → (∀ x, P [x]) →
  (∀ l, (2 ≤ length l)%nat →
    P (take (split_point (length l)) l) → P (drop (split_point (length l)) l) → P l) →
  ∀ l, P l.
Proof.
  intros P0 P1 Ps l. induction l as [l IH] using (induction_ltof1 _ length). unfold ltof in IH.
  destruct (decide (2 ≤ length l)%nat) as [Hl|Hl].
  - pose proof (split_point_bounds _ Hl). apply Ps; [done|..]; apply IH;
      rewrite ?length_take, ?length_drop; lia.
  - destruct l as [|x [|y r]]; simpl in *; [done|done|lia].
Qed.

Lemma tree_fmap (f : bytes → bytes) (l : list bytes) : tree f l = tree id (f <$> l).
Proof.
  induction l as [|x|l Hl IH1 IH2] using split_ind; [done| |].
  - simpl. by simp tree.
  - rewrite (tree_node f), (tree_node id) by (rewrite ?length_fmap; done).
    by rewrite length_fmap, <- fmap_take, <- fmap_drop, IH1, IH2.
Qed.

Lemma tree_length (f : bytes → bytes) (l : list bytes) :
  (∀ x, x ∈ l → length (f x) = 32%nat) → length (tree f l) = 32%nat.
Proof.
  destruct (decide (2 ≤ length l)%nat) as [Hl|Hl].
  - intros _. rewrite tree_node by done. apply sha256_length.
  - destruct l as [|x [|y r]]; simpl in *; [|intros Hf|lia]; simp tree.
    + intros _. apply sha256_length.
    + apply Hf. set_solver.
Qed.

(** ** The level loop computes the tree hash *)

Lemma length_pair_level (l : list bytes) : length (pair_level l) = Nat.div2 (S (length l)).
Proof.
  induction l as [|x|x y l IH] using list_pair_ind; [done|done|].
  cbn [pair_level length]. rewrite IH. done.
Qed.

Lemma pair_level_app (l k : list bytes) :
  Nat.even (length l) = true → pair_level (l ++ k) = pair_level l ++ pair_level k.
Proof.
  induction l as [|x|x y l IH] using list_pair_ind; simpl; [done|done|].
  intros He. by rewrite IH.
Qed.

Lemma pair_level_short (l : list bytes) : (length l ≤ 1)%nat → pair_level l = l.
Proof. destruct l as [|x [|y l]]; simpl; [done|done|lia]. Qed.

(** Facts on the split of a level of at least three nodes. *)
Lemma pair_level_split (l : list bytes) :
  (3 ≤ length l)%nat →
  ∃ h, split_point (length l) = (2 * h)%nat ∧ (1 ≤ h)%nat ∧
    (2 ≤ length (pair_level l))%nat ∧
    split_point (length (pair_level l)) = h ∧
    take h (pair_level l) = pair_level (take (2 * h) l) ∧
    drop h (pair_level l) = pair_level (drop (2 * h) l).
Proof.
  intros Hl. pose proof (split_point_bounds (length l) ltac:(lia)) as [Hb1 Hb2].
  assert (∃ j, split_point (length l) = 2 * 2 ^ j)%nat as [j Hj].
  { unfold split_point in *. destruct (Nat.log2 (length l - 1)) as [|j]; simpl in Hb2; [lia|].
    exists j. by rewrite Nat.pow_succ_r'. }
  exists (2 ^ j)%nat. pose proof (Nat.pow_nonzero 2 j ltac:(lia)).
  assert (length (take (2 * 2 ^ j) l) = 2 * 2 ^ j)%nat as Ht by (rewrite length_take; lia).
  assert (pair_level l = pair_level (take (2 * 2 ^ j) l) ++ pair_level (drop (2 * 2 ^ j) l)) as Hp.
  { rewrite <- pair_level_app, take_drop; [done|]. rewrite Ht. apply Nat.even_even. }
  assert (length (pair_level (take (2 * 2 ^ j) l)) = 2 ^ j)%nat as Hpt.
  { rewrite length_pair_level, Ht, Nat.div2_div. symmetry. apply Nat.div_unique with 1%nat; lia. }
  pose proof (length_pair_level l) as Hlp. rewrite Nat.div2_div in Hlp.
  assert (2 ^ j < length (pair_level l) ≤ 2 * 2 ^ j)%nat as Hs.
  { rewrite Hlp. split; [apply Nat.div_le_lower_bound | apply Nat.lt_succ_r, Nat.div_lt_upper_bound]; lia. }
  repeat split; [done|lia|lia|by apply split_point_unique|..]; rewrite Hp.
  - by rewrite take_app_length'.
  - by rewrite drop_app_length'.
Qed.

Lemma tree_pair_level (l : list bytes) : tree id (pair_level l) = tree id l.
Proof.
  induction l as [|x|l Hl IH1 IH2] using split_ind; [done|done|].
  destruct (decide (length l = 2)%nat) as [E|Hne].
  - by destruct l as [|x [|y [|]]].
  - destruct (pair_level_split l ltac:(lia)) as (h & Hk & Hh & Hl2 & Hsp & Et & Ed).
    rewrite Hk in IH1, IH2. rewrite (tree_node id (pair_level l)), (tree_node id l) by done.
    by rewrite Hsp, Hk, Et, Ed, IH1, IH2.
Qed.

(** Enough passes leave exactly one node, the tree hash. *)
Lemma merkle_loop_singleton (fuel : nat) (l : list bytes) :
  l ≠ [] → (length l ≤ fuel)%nat → merkle_loop fuel l = [tree id l].
Proof.
  revert l. induction fuel as [|fuel IH]; intros l Hne Hl; simpl.
  - by destruct l; simpl in *; [|lia].
  - destruct (Nat.ltb_spec 1 (length l)) as [H1|H1].
    + pose proof (length_pair_level l) as Hp. rewrite Nat.div2_div in Hp.
      assert (length (pair_level l) ≤ fuel)%nat.
      { rewrite Hp. apply Nat.lt_succ_r, Nat.div_lt_upper_bound; lia. }
      assert (1 ≤ length (pair_level l))%nat.
      { rewrite Hp. apply Nat.div_le_lower_bound; lia. }
      rewrite IH; [by rewrite tree_pair_level| |lia].
      by destruct (pair_level l); simpl in *; [lia|].
    + destruct l as [|x [|y l]]; simpl in *; [done|by simp tree|lia].
Qed.

Lemma merkle_root_v2_mth (leaves : list bytes) : merkle_root_v2 leaves = mth leaves.
Proof.
  unfold merkle_root_v2, mth. destruct leaves as [|x l]; [done|].
  rewrite merkle_loop_singleton; [by rewrite <- tree_fmap|done|by rewrite length_fmap].
Qed.

(** ** The root binds the leaves *)

Lemma node_preimage_inj (a b c d : bytes) :
  length a = length c → node_preimage a b = node_preimage c d → a = c ∧ b = d.
Proof. intros Hl [= E]. by apply app_inj_1 in E. Qed.

Lemma tree_preimages_root (l : list bytes) :
  ∃ x, x ∈ mth_preimages l ∧ mth l = sha256 x ∧
    (l = [] ∧ x = [] ∨ (∃ d, l = [d] ∧ x = leaf_preimage d) ∨
     ((2 ≤ length l)%nat ∧ x = node_preimage (mth (take (split_point (length l)) l))
                                             (mth (drop (split_point (length l)) l)))).
Proof.
  unfold mth_preimages, mth. destruct (decide (2 ≤ length l)%nat) as [Hl|Hl].
  - rewrite (tree_preimages_node _ _ l), (tree_node _ l) by done. eexists. split; [apply elem_of_cons; by left|]. eauto 7.
  - destruct l as [|d [|y r]]; simpl in Hl; [| |lia]; simp tree tree_preimages;
      eexists; (split; [apply elem_of_cons; by left|]); eauto 6.
Qed.

Lemma mth_length (l : list bytes) : length (mth l) = 32%nat.
Proof. apply tree_length. intros. apply sha256_length. Qed.

Lemma mth_inj (l1 l2 : list bytes) :
  collision_free (mth_preimages l1 ++ mth_preimages l2) → mth l1 = mth l2 → l1 = l2.
Proof.
  revert l2. induction l1 as [l1 IH] using (induction_ltof1 _ length). unfold ltof in IH.
  intros l2 Hcf E.
  destruct (tree_preimages_root l1) as (x & Hx & Ex & Cx).
  destruct (tree_preimages_root l2) as (y & Hy & Ey & Cy).
  assert (x = y) as <- by (apply Hcf; [apply elem_of_app; auto..|congruence]).
  destruct Cx as [[-> ->]|[(d & -> & ->)|[Hl1 ->]]];
    destruct Cy as [[-> Hy2]|[(e & -> & Hy2)|[Hl2 Hy2]]]; try (by simplify_eq).
  apply node_preimage_inj in Hy2 as [Ea Eb]; [|by rewrite !mth_length].
  unfold mth_preimages in Hcf.
  rewrite (tree_preimages_node _ _ l1), (tree_preimages_node _ _ l2) in Hcf by done.
  pose proof (split_point_bounds _ Hl1).
  apply IH in Ea; [..|rewrite length_take; lia|eapply collision_free_mono, Hcf; set_solver].
  apply IH in Eb; [..|rewrite length_drop; lia|eapply collision_free_mono, Hcf; set_solver].
  rewrite <- (take_drop (split_point (length l1)) l1), Ea, Eb. apply take_drop.
Qed.

(** ** The indices of the replay *)

Lemma land1_mod (z : Z) : Z.land z 1 = (z mod 2)%Z.
Proof. change 1%Z with (Z.ones 1). by rewrite Z.land_ones by lia. Qed.

Lemma shiftr1_div (z : Z) : Z.shiftr z 1 = (z / 2)%Z.
Proof. by rewrite Z.shiftr_div_pow2 by lia. Qed.

Lemma shift_even_odd (fuel : nat) (f s : Z) : (f mod 2 = 1)%Z → shift_even fuel f s = (f, s).
Proof.
  intros Ho. destruct fuel; simpl; [done|].
  rewrite land1_mod, Ho. by rewrite andb_false_r.
Qed.

Lemma shift_even_S (fuel : nat) (f s : Z) :
  shift_even (S fuel) f s =
  if (negb (f =? 0) && (f mod 2 =? 0))%Z then shift_even fuel (f / 2) (s / 2) else (f, s).
Proof. cbn [shift_even]. by rewrite land1_mod, !shiftr1_div. Qed.

(** Fuel beyond the bit length is never used. *)
Lemma shift_even_stable (fuel : nat) (f s : Z) :
  (0 < f < 2 ^ Z.of_nat fuel)%Z → shift_even (S fuel) f s = shift_even fuel f s.
Proof.
  revert f s. induction fuel as [|fuel IH]; intros f s Hf.
  - change (2 ^ Z.of_nat 0)%Z with 1%Z in Hf. lia.
  - rewrite Nat2Z.inj_succ, Z.pow_succ_r in Hf by lia.
    rewrite !(shift_even_S _ f).
    destruct (Z.eqb_spec f 0), (Z.eqb_spec (f mod 2) 0); simpl; try done.
    apply IH. split; [dlia|]. apply Z.div_lt_upper_bound; lia.
Qed.

Lemma shift_even_64_lone (f s : Z) :
  (0 < f < 2 ^ 64)%Z → (f mod 2 = 0)%Z → shift_even 64 f s = shift_even 64 (f / 2) (s / 2).
Proof.
  intros Hf He. rewrite (shift_even_stable 63 (f / 2)).
  - rewrite shift_even_S, He. by destruct (Z.eqb_spec f 0); [lia|].
  - split; [dlia|]. apply Z.div_lt_upper_bound; [lia|]. apply Hf.
Qed.

(** A lone last node climbs a level without consuming a proof element. *)
Lemma proof_loop_lone (f : Z) (r : bytes) (pf : list bytes) :
  (0 < f < 2 ^ 64)%Z → (f mod 2 = 0)%Z →
  proof_loop f f r pf = proof_loop (f / 2) (f / 2) r pf.
Proof.
  intros Hf He. assert (shift_even 64 f f = shift_even 64 (f / 2) (f / 2)) as Hs.
  { apply shift_even_64_lone; lia. }
  destruct pf as [|p pf]; cbn [proof_loop].
  - destruct (Z.eqb_spec f 0), (Z.eqb_spec (f / 2) 0); try done; dlia.
  - rewrite !Z.eqb_refl, !orb_true_r, Hs.
    destruct (Z.eqb_spec f 0), (Z.eqb_spec (f / 2) 0); try done; dlia.
Qed.

Lemma proof_preimages_lone (f : Z) (r : bytes) (pf : list bytes) :
  (0 < f < 2 ^ 64)%Z → (f mod 2 = 0)%Z →
  proof_preimages f f r pf = proof_preimages (f / 2) (f / 2) r pf.
Proof.
  intros Hf He. assert (shift_even 64 f f = shift_even 64 (f / 2) (f / 2)) as Hs.
  { apply shift_even_64_lone; lia. }
  destruct pf as [|p pf]; cbn [proof_preimages]; [done|].
  rewrite !Z.eqb_refl, !orb_true_r, Hs.
  destruct (Z.eqb_spec f 0), (Z.eqb_spec (f / 2) 0); try done; dlia.
Qed.

Lemma proof_loop_odd (f sn : Z) (r p : bytes) (pf : list bytes) :
  sn ≠ 0%Z → (f mod 2 = 1)%Z →
  proof_loop f sn r (p :: pf) = proof_loop (f / 2) (sn / 2) (node_hash p r) pf.
Proof.
  intros Hs Ho. cbn [proof_loop]. rewrite land1_mod, Ho, (shift_even_odd _ _ _ Ho).
  destruct (Z.eqb_spec sn 0); [done|]. cbn. by rewrite !shiftr1_div.
Qed.

Lemma proof_loop_even (f sn : Z) (r p : bytes) (pf : list bytes) :
  sn ≠ 0%Z → (f mod 2 = 0)%Z → f ≠ sn →
  proof_loop f sn r (p :: pf) = proof_loop (f / 2) (sn / 2) (node_hash r p) pf.
Proof.
  intros Hs He Hne. cbn [proof_loop]. rewrite land1_mod, He.
  destruct (Z.eqb_spec sn 0), (Z.eqb_spec f sn); [done..|]. cbn. by rewrite !shiftr1_div.
Qed.

Lemma proof_preimages_odd (f sn : Z) (r p : bytes) (pf : list bytes) :
  sn ≠ 0%Z → (f mod 2 = 1)%Z →
  proof_preimages f sn r (p :: pf) =
  node_preimage p r :: proof_preimages (f / 2) (sn / 2) (node_hash p r) pf.
Proof.
  intros Hs Ho. cbn [proof_preimages]. rewrite land1_mod, Ho, (shift_even_odd _ _ _ Ho).
  destruct (Z.eqb_spec sn 0); [done|]. cbn. by rewrite !shiftr1_div.
Qed.

Lemma proof_preimages_even (f sn : Z) (r p : bytes) (pf : list bytes) :
  sn ≠ 0%Z → (f mod 2 = 0)%Z → f ≠ sn →
  proof_preimages f sn r (p :: pf) =
  node_preimage r p :: proof_preimages (f / 2) (sn / 2) (node_hash r p) pf.
Proof.
  intros Hs He Hne. cbn [proof_preimages]. rewrite land1_mod, He.
  destruct (Z.eqb_spec sn 0), (Z.eqb_spec f sn); [done..|]. cbn. by rewrite !shiftr1_div.
Qed.

(** ** Levels and siblings *)

Lemma pair_lookup_node (l : list bytes) (j : nat) (a b : bytes) :
  l !! (2 * j)%nat = Some a → l !! (2 * j + 1)%nat = Some b →
  pair_level l !! j = Some (node_hash a b).
Proof.
  revert j. induction l as [|x|x y l IH] using list_pair_ind; intros j.
  - by rewrite lookup_nil.
  - intros _ Hb. apply lookup_lt_Some in Hb. simpl in Hb. lia.
  - destruct j as [|j]; simpl; [by intros [= ->] [= ->]|].
    replace (j + S (j + 0))%nat with (S (2 * j))%nat by lia.
    replace (j + S (j + 0) + 1)%nat with (S (2 * j + 1))%nat by lia. simpl. apply IH.
Qed.

Lemma pair_lookup_lone (l : list bytes) (j : nat) (a : bytes) :
  l !! (2 * j)%nat = Some a → length l = (2 * j + 1)%nat → pair_level l !! j = Some a.
Proof.
  revert j. induction l as [|x|x y l IH] using list_pair_ind; intros j.
  - by rewrite lookup_nil.
  - intros Ha Hl. simpl in Hl. by replace j with 0%nat in * by lia.
  - destruct j as [|j]; simpl; [lia|]. intros Ha Hl. apply IH; [|lia].
    by replace (j + S (j + 0))%nat with (S (2 * j))%nat in Ha by lia.
Qed.

Lemma length_pair_level_Z (l : list bytes) :
  l ≠ [] → Z.of_nat (length (pair_level l) - 1) = (Z.of_nat (length l - 1) / 2)%Z.
Proof.
  intros Hl. rewrite length_pair_level, Nat.div2_div.
  destruct l as [|x l]; [done|]. simpl length. rewrite !Nat2Z.inj_sub, Nat2Z.inj_div by
    (try apply Nat.div_le_lower_bound; lia). dlia.
Qed.

(** The proof element consumed at the bottom level, if any. *)
Definition sibling (l : list bytes) (m : nat) : list bytes :=
  option_list (l !! (if Nat.odd m then m - 1 else m + 1)%nat).

Lemma path_pair_level (l : list bytes) (m : nat) :
  (2 ≤ length l)%nat → (m < length l)%nat →
  path id m l = sibling l m ++ path id (m / 2) (pair_level l).
Proof.
  revert m. induction l as [|x|l Hl IH1 IH2] using split_ind; intros m Hl' Hm; simpl in Hl'; try lia.
  destruct (decide (length l = 2)%nat) as [E2|Hne].
  { destruct l as [|x [|y [|]]]; try done. rewrite path_node by done.
    change (split_point (length [x; y])) with 1%nat.
    destruct m as [|[|m]]; simpl in Hm; [by simp path tree..|lia]. }
  destruct (pair_level_split l ltac:(lia)) as (h & Hk & Hh & Hl2 & Hsp & Et & Ed).
  pose proof (split_point_bounds _ Hl) as [Hb1 Hb2].
  rewrite (path_node id m l), (path_node id (m / 2) (pair_level l)), Hsp by done.
  rewrite Hk in *. rewrite Et, Ed, !tree_pair_level.
  assert (length (take (2 * h) l) = 2 * h)%nat as Hlt by (rewrite length_take; lia).
  assert (length (drop (2 * h) l) = length l - 2 * h)%nat as Hld by (by rewrite length_drop).
  destruct (Nat.ltb_spec m (2 * h)) as [Hmk|Hmk].
  - destruct (Nat.ltb_spec (m / 2) h) as [_|Hc];
      [|pose proof (Nat.div_mod_eq m 2); pose proof (Nat.mod_upper_bound m 2); lia].
    rewrite IH1 by lia. rewrite (assoc_L (++)). f_equal. f_equal.
    unfold sibling. rewrite lookup_take_lt; [done|].
    destruct (Nat.odd m) eqn:Eo; [lia|].
    assert (m ≠ 2 * h - 1)%nat; [|lia]. intros ->.
    rewrite <- Nat.negb_even in Eo. replace (2 * h - 1)%nat with (S (2 * (h - 1))) in Eo by lia.
    rewrite Nat.even_succ, <- Nat.negb_even, Nat.even_even in Eo. done.
  - assert (m / 2 - h = (m - 2 * h) / 2 ∧ h ≤ m / 2)%nat as [Hdiv Hge].
    { pose proof (Nat.div_add (m - 2 * h) h 2 ltac:(lia)) as Hd.
      replace (m - 2 * h + h * 2)%nat with m in Hd by lia. lia. }
    destruct (Nat.ltb_spec (m / 2) h) as [Hc|_]; [lia|]. rewrite Hdiv.
    destruct (decide (length l = 2 * h + 1)%nat) as [E1|Hne1].
    + replace m with (2 * h)%nat in * by lia. unfold sibling.
      rewrite <- Nat.negb_even, Nat.even_even. cbn [negb].
      rewrite (lookup_ge_None_2 l) by lia. rewrite Nat.sub_diag, pair_level_short by lia. simpl.
      destruct (drop (2 * h) l) as [|x [|]]; simpl in Hld; try lia. by simp path.
    + rewrite IH2 by lia. rewrite (assoc_L (++)). f_equal. f_equal.
      unfold sibling. rewrite lookup_drop.
      assert (Nat.odd (m - 2 * h) = Nat.odd m) as ->.
      { replace m with ((m - 2 * h) + 2 * h)%nat at 2 by lia.
        by rewrite Nat.odd_add_mul_2. }
      destruct (Nat.odd m) eqn:Eo; do 2 f_equal; [|lia].
      destruct (decide (m = 2 * h)%nat) as [->|]; [|lia].
      by rewrite <- Nat.negb_even, Nat.even_even in Eo.
Qed.

(** ** Completeness and soundness of the replay *)

Lemma odd_cases (i : nat) :
  (∃ j, i = 2 * j + 1 ∧ Nat.odd i = true)%nat ∨ (∃ j, i = 2 * j ∧ Nat.odd i = false)%nat.
Proof.
  destruct (Nat.Even_or_Odd i) as [[j ->]|[j ->]]; [right|left]; exists j; (split; [lia|]).
  - by rewrite <- Nat.negb_even, Nat.even_even.
  - by rewrite Nat.odd_odd.
Qed.

Lemma proof_loop_path (level : list bytes) (i : nat) (x : bytes) :
  (lenZ level ≤ 2 ^ 64)%Z → level !! i = Some x →
  proof_loop (Z.of_nat i) (Z.of_nat (length level - 1)) x (path id i level) = Ok (tree id level).
Proof.
  revert i x. induction level as [l IH] using (induction_ltof1 _ length). unfold ltof in IH.
  intros i x Hn Hx. pose proof (lookup_lt_Some _ _ _ Hx) as Hi. unfold lenZ in Hn.
  destruct (decide (2 ≤ length l)%nat) as [Hl|Hl].
  2:{ destruct l as [|y [|]]; simpl in *; try lia. destruct i; [|lia]. injection Hx as ->.
      by simp path tree. }
  rewrite path_pair_level by done.
  assert (length (pair_level l) < length l)%nat as Hlt.
  { rewrite length_pair_level, Nat.div2_div. apply Nat.div_lt_upper_bound; lia. }
  assert (l ≠ []) as Hne by (by destruct l; simpl in *; [lia|]).
  pose proof (length_pair_level_Z l Hne) as HlZ. rewrite <- tree_pair_level.
  unfold sibling. destruct (odd_cases i) as [(j & -> & ->)|(j & -> & ->)].
  - destruct (lookup_lt_is_Some_2 l (2 * j) ltac:(lia)) as [y Hy].
    replace (2 * j + 1 - 1)%nat with (2 * j)%nat by lia. rewrite Hy. cbn [option_list option_rect app].
    rewrite proof_loop_odd by dlia.
    replace (Z.of_nat (2 * j + 1) / 2)%Z with (Z.of_nat j) by dlia.
    replace ((2 * j + 1) / 2)%nat with j by (apply Nat.div_unique with 1%nat; lia).
    rewrite <- HlZ. apply IH; [done|unfold lenZ; lia|]. by apply pair_lookup_node.
  - replace ((2 * j) / 2)%nat with j by (apply Nat.div_unique with 0%nat; lia).
    destruct (l !! (2 * j + 1)%nat) as [y|] eqn:Hy; cbn [option_list option_rect app].
    + pose proof (lookup_lt_Some _ _ _ Hy). rewrite proof_loop_even by dlia.
      replace (Z.of_nat (2 * j) / 2)%Z with (Z.of_nat j) by dlia.
      rewrite <- HlZ. apply IH; [done|unfold lenZ; lia|]. by apply pair_lookup_node.
    + apply lookup_ge_None in Hy.
      replace (Z.of_nat (length l - 1)) with (Z.of_nat (2 * j)) in * by lia.
      rewrite proof_loop_lone by dlia.
      replace (Z.of_nat (2 * j) / 2)%Z with (Z.of_nat j) in * by dlia.
      rewrite <- HlZ at 2. apply IH; [done|unfold lenZ; lia|].
      apply pair_lookup_lone; [done|lia].
Qed.

(** The node strings of a level: those of the levels above it, and those that
    hash two of its neighbours. *)
Definition level_preimages (l : list bytes) : list bytes := tree_preimages (λ _, []) id l.

Lemma level_preimages_fmap (g : bytes → list bytes) (f : bytes → bytes) (l : list bytes) :
  level_preimages (f <$> l) ⊆ tree_preimages g f l.
Proof.
  unfold level_preimages. induction l as [|x|l Hl IH1 IH2] using split_ind; [done|..].
  - simpl. simp tree_preimages. set_solver.
  - rewrite (tree_preimages_node _ _ (f <$> l)), (tree_preimages_node _ _ l)
      by (rewrite ?length_fmap; done).
    rewrite length_fmap, <- !fmap_take, <- !fmap_drop, <- !tree_fmap.
    set_solver.
Qed.

Lemma level_preimages_pair (l : list bytes) :
  level_preimages (pair_level l) ⊆ level_preimages l.
Proof.
  unfold level_preimages. induction l as [|x|l Hl IH1 IH2] using split_ind; [done|done|].
  destruct (decide (length l = 2)%nat) as [E2|Hne].
  { destruct l as [|x [|y [|]]]; try done. simpl. simp tree_preimages. set_solver. }
  destruct (pair_level_split l ltac:(lia)) as (h & Hk & Hh & Hl2 & Hsp & Et & Ed).
  rewrite (tree_preimages_node _ _ (pair_level l)), (tree_preimages_node _ _ l) by done.
  rewrite Hsp, Hk in *. rewrite Et, Ed, !tree_pair_level. set_solver.
Qed.

Lemma level_preimages_neighbours (l : list bytes) (j : nat) (a b : bytes) :
  l !! (2 * j)%nat = Some a → l !! (2 * j + 1)%nat = Some b →
  node_preimage a b ∈ level_preimages l.
Proof.
  unfold level_preimages. revert j. induction l as [|x|l Hl IH1 IH2] using split_ind; intros j Ha Hb.
  - by rewrite lookup_nil in Ha.
  - apply lookup_lt_Some in Hb. simpl in Hb. lia.
  - rewrite tree_preimages_node by done. destruct (decide (length l = 2)%nat) as [E2|Hne].
    { destruct l as [|x [|y [|]]]; try done. apply lookup_lt_Some in Hb as Hb'. simpl in Hb'.
      replace j with 0%nat in * by lia. simpl in *. simplify_eq. apply elem_of_cons. by left. }
    destruct (pair_level_split l ltac:(lia)) as (h & Hk & Hh & _). rewrite Hk in *.
    apply elem_of_cons. right. apply elem_of_app.
    destruct (decide (2 * j + 1 < 2 * h)%nat) as [Hj|Hj].
    + left. apply (IH1 j); rewrite lookup_take_lt by lia; done.
    + right. apply (IH2 (j - h)%nat); rewrite lookup_drop.
      * by replace (2 * h + 2 * (j - h))%nat with (2 * j)%nat by lia.
      * by replace (2 * h + (2 * (j - h) + 1))%nat with (2 * j + 1)%nat by lia.
Qed.

Lemma pair_level_Forall (P : bytes → Prop) (l : list bytes) :
  (∀ a b, P (node_hash a b)) → Forall P l → Forall P (pair_level l).
Proof.
  intros Hn. induction l as [|x|x y l IH] using list_pair_ind; intros Hf; [done|done|].
  simpl. constructor; [auto|]. apply IH. by inversion Hf as [|? ? ? Hf']; inversion Hf'.
Qed.

Lemma leaf_in_preimages (l : list bytes) (i : nat) (d : bytes) :
  l !! i = Some d → leaf_preimage d ∈ mth_preimages l.
Proof.
  unfold mth_preimages. revert i. induction l as [|x|l Hl IH1 IH2] using split_ind; intros i Hd.
  - by rewrite lookup_nil in Hd.
  - destruct i as [|i]; simpl in Hd; [|done]. injection Hd as ->.
    simp tree_preimages. set_solver.
  - rewrite tree_preimages_node by done. apply elem_of_cons; right. apply elem_of_app.
    rewrite <- (take_drop (split_point (length l)) l) in Hd.
    apply lookup_app_Some in Hd as [Hd|[_ Hd]]; eauto.
Qed.

(** Two neighbours are determined by the node above them. *)
Lemma pair_level_binding (l S : list bytes) (j : nat) (a b c d : bytes) :
  l !! (2 * j)%nat = Some a → l !! (2 * j + 1)%nat = Some b →
  pair_level l !! j = Some (node_hash c d) → node_preimage c d ∈ S →
  collision_free (level_preimages l ++ S) → a ++ b = c ++ d.
Proof.
  intros Ha Hb E Hin Hcf. rewrite (pair_lookup_node _ _ _ _ Ha Hb) in E. injection E as E.
  apply Hcf in E; [by injection E|..]; apply elem_of_app; [left|by right].
  by eapply level_preimages_neighbours.
Qed.

(** An accepted replay that reaches the root of a level started from the node
    at its index. *)
Lemma proof_loop_sound (level : list bytes) (i : nat) (r : bytes) (pf : list bytes) :
  (lenZ level ≤ 2 ^ 64)%Z → (i < length level)%nat →
  Forall (λ x, length x = 32%nat) level → length r = 32%nat →
  collision_free (level_preimages level ++
                  proof_preimages (Z.of_nat i) (Z.of_nat (length level - 1)) r pf) →
  proof_loop (Z.of_nat i) (Z.of_nat (length level - 1)) r pf = Ok (tree id level) →
  level !! i = Some r.
Proof.
  revert i r pf. induction level as [l IH] using (induction_ltof1 _ length). unfold ltof, lenZ in *.
  intros i r pf Hn Hi Hf Hr Hcf. destruct (decide (2 ≤ length l)%nat) as [Hl|Hl].
  2:{ destruct l as [|y [|]]; simpl in *; try lia. destruct i; [|lia].
      destruct pf; simpl; [|done]. simp tree. by intros [= ->]. }
  pose proof (length_pair_level l) as Hlp. rewrite Nat.div2_div in Hlp.
  assert (length (pair_level l) < length l)%nat as Hlt.
  { rewrite Hlp. apply Nat.div_lt_upper_bound; lia. }
  assert (l ≠ []) as Hne by (by destruct l; simpl in *; [lia|]).
  pose proof (length_pair_level_Z l Hne) as HlZ. pose proof (level_preimages_pair l) as Hsub.
  assert (Forall (λ x, length x = 32%nat) (pair_level l)) as Hfp
    by (apply pair_level_Forall; [intros; apply sha256_length|done]).
  assert (∀ j, 2 * j < length l → j < length (pair_level l))%nat as Hjlt.
  { intros j Hj. rewrite Hlp. apply Nat.div_le_lower_bound; lia. }
  rewrite <- tree_pair_level.
  destruct (odd_cases i) as [(j & -> & _)|(j & -> & _)];
    (destruct (lookup_lt_is_Some_2 l (2 * j) ltac:(lia)) as [a Ha]).
  - (* a right child: the proof element is its left sibling *)
    destruct pf as [|p pf]; [cbn; case_match eqn:E; breflect; [lia|done]|].
    destruct (lookup_lt_is_Some_2 l (2 * j + 1) ltac:(lia)) as [b Hb].
    rewrite proof_loop_odd by dlia. rewrite proof_preimages_odd in Hcf by dlia.
    replace (Z.of_nat (2 * j + 1) / 2)%Z with (Z.of_nat j) in * by dlia. rewrite <- HlZ in *.
    intros E. apply IH in E; [|try apply sha256_length; try apply Hjlt; auto; try lia..];
      [|eapply collision_free_mono, Hcf; set_solver].
    eapply pair_level_binding in E; [|done..| |exact Hcf]; [|set_solver].
    apply app_inj_2 in E as [_ ->]; [done|]. rewrite Hr. by eapply Forall_lookup_1 in Hf.
  - destruct (l !! (2 * j + 1)%nat) as [b|] eqn:Hb.
    + (* a left child: the proof element is its right sibling *)
      pose proof (lookup_lt_Some _ _ _ Hb).
      destruct pf as [|p pf]; [cbn; case_match eqn:E; breflect; [lia|done]|].
      rewrite proof_loop_even by dlia. rewrite proof_preimages_even in Hcf by dlia.
      replace (Z.of_nat (2 * j) / 2)%Z with (Z.of_nat j) in * by dlia. rewrite <- HlZ in *.
      intros E. apply IH in E; [|try apply sha256_length; try apply Hjlt; auto; try lia..];
        [|eapply collision_free_mono, Hcf; set_solver].
      eapply pair_level_binding in E; [|done..| |exact Hcf]; [|set_solver].
      apply app_inj_1 in E as [-> _]; [done|]. rewrite Hr. by eapply Forall_lookup_1 in Hf.
    + (* the lone last node is promoted *)
      apply lookup_ge_None in Hb.
      replace (Z.of_nat (length l - 1)) with (Z.of_nat (2 * j)) in * by lia.
      rewrite proof_loop_lone by dlia. rewrite proof_preimages_lone in Hcf by dlia.
      replace (Z.of_nat (2 * j) / 2)%Z with (Z.of_nat j) in * by dlia.
      rewrite <- HlZ in Hcf |- * at 2. intros E.
      apply IH in E; [|try apply Hjlt; auto; try lia..];
        [|eapply collision_free_mono, Hcf; set_solver].
      rewrite (pair_lookup_lone _ _ _ Ha ltac:(lia)) in E. congruence.
Qed.

Lemma path_fmap (f : bytes → bytes) (m : nat) (l : list bytes) :
  path f m l = path id m (f <$> l).
Proof.
  revert m. induction l as [|x|l Hl IH1 IH2] using split_ind; intros m; [done|done|].
  rewrite (path_node f m l), (path_node id m (f <$> l)) by (rewrite ?length_fmap; done).
  by rewrite length_fmap, IH1, IH2, fmap_take, fmap_drop, !(tree_fmap f), fmap_take, fmap_drop.
Qed.

Lemma rfc6962_root_sound (entries proof : list bytes) (i : nat) (e : bytes) :
  (lenZ entries ≤ 2 ^ 64)%Z →
  collision_free (mth_preimages entries ++ leaf_preimage e ::
                  proof_preimages (Z.of_nat i) (lenZ entries - 1) (leaf_hash e) proof) →
  rfc6962_root (leaf_hash e) (Z.of_nat i) (lenZ entries) proof = Ok (mth entries) →
  entries !! i = Some e.
Proof.
  unfold rfc6962_root, lenZ. intros Hn Hcf E.
  destruct (Z.leb_spec (Z.of_nat (length entries)) (Z.of_nat i)); [done|].
  replace (Z.of_nat (length entries) - 1)%Z
    with (Z.of_nat (length (leaf_hash <$> entries) - 1)) in * by (rewrite length_fmap; lia).
  unfold mth in E. rewrite tree_fmap in E.
  pose proof (level_preimages_fmap (λ d, [leaf_preimage d]) leaf_hash entries) as Hsub.
  apply proof_loop_sound in E; rewrite ?length_fmap.
  - rewrite list_lookup_fmap in E. destruct (entries !! i) as [d|] eqn:Ed; [|done].
    injection E as E. apply Hcf in E as [= ->]; [done|..]; apply elem_of_app.
    + left. by eapply leaf_in_preimages.
    + right. apply elem_of_cons. by left.
  - unfold lenZ. by rewrite length_fmap.
  - lia.
  - apply Forall_fmap, Forall_true. intros. apply sha256_length.
  - apply sha256_length.
  - eapply collision_free_mono, Hcf. intros x [Hx|Hx]%elem_of_app; apply elem_of_app.
    + left. by apply Hsub.
    + right. apply elem_of_cons. right. by rewrite length_fmap.
Qed.

(** ** Properties *)

(** The level-by-level loop with promotion of a lone last node computes the
    RFC 6962 Merkle tree hash, on every list of leaves. *)
Theorem merkle_root_is_rfc6962 (leaves : list bytes) :
  merkle_root_v2 leaves = mth leaves.
Proof. apply merkle_root_v2_mth. Qed.

(** The Merkle root of a batch determines its leaves: two batches of any
    lengths with the same root are the same list, unless two of the strings
    hashed for them collide. *)
Theorem merkle_root_binding (l1 l2 : list bytes) :
  collision_free (mth_preimages l1 ++ mth_preimages l2) →
  merkle_root_v2 l1 = merkle_root_v2 l2 → l1 = l2.
Proof. rewrite !merkle_root_v2_mth. apply mth_inj. Qed.

(** Completeness of the inclusion check: the RFC 6962 audit path of entry
    [i] replays to the tree hash, for every tree of at most 2^64 entries. *)
Theorem inclusion_proof_complete (entries : list bytes) (i : nat) (e : bytes) :
  (lenZ entries ≤ 2 ^ 64)%Z → entries !! i = Some e →
  rfc6962_root (leaf_hash e) (Z.of_nat i) (lenZ entries) (path leaf_hash i entries) =
  Ok (mth entries).
Proof.
  intros Hn He. pose proof (lookup_lt_Some _ _ _ He). unfold rfc6962_root, lenZ in *.
  destruct (Z.leb_spec (Z.of_nat (length entries)) (Z.of_nat i)); [lia|].
  replace (Z.of_nat (length entries) - 1)%Z
    with (Z.of_nat (length (leaf_hash <$> entries) - 1)) by (rewrite length_fmap; lia).
  unfold mth. rewrite path_fmap, tree_fmap. apply proof_loop_path.
  - unfold lenZ. by rewrite length_fmap.
  - by rewrite list_lookup_fmap, He.
Qed.

(** Soundness of the inclusion check: a replay that ends in the tree hash of
    [entries] started from the entry at the claimed index, unless two of the
    strings hashed for the tree and the replay collide. *)
Theorem inclusion_proof_sound (entries proof : list bytes) (i : nat) (e : bytes) :
  (lenZ entries ≤ 2 ^ 64)%Z →
  collision_free (mth_preimages entries ++ leaf_preimage e ::
                  proof_preimages (Z.of_nat i) (lenZ entries - 1) (leaf_hash e) proof) →
  rfc6962_root (leaf_hash e) (Z.of_nat i) (lenZ entries) proof = Ok (mth entries) →
  entries !! i = Some e.
Proof. apply rfc6962_root_sound. Qed.

End merkle.

(** ** Executable examples, on SHA-256 *)

Definition ex_leaves : list bytes := [lit "a"; lit "b"; lit "c"].

(** Witness of [merkle_root_binding]. *)
Lemma merkle_root_binding_witness :
  let _ := fips_sha256 in
  collision_free (mth_preimages ex_leaves ++ mth_preimages ex_leaves) ∧
  ex_leaves = ex_leaves.
Proof.
  assert (Hcf : @collision_free fips_sha256
    (@mth_preimages fips_sha256 ex_leaves ++ @mth_preimages fips_sha256 ex_leaves)).
  { apply collision_freeb_sound. vm_compute. reflexivity. }
  split; [exact Hcf|]. exact (@merkle_root_binding fips_sha256 ex_leaves ex_leaves Hcf eq_refl).
Defined.

Lemma inclusion_proof_complete_witness :
  @rfc6962_root fips_sha256 (@leaf_hash fips_sha256 (lit "c")) 2 3
    (@path fips_sha256 (@leaf_hash fips_sha256) 2 ex_leaves) = Ok (@mth fips_sha256 ex_leaves).
Proof.
  apply (@inclusion_proof_complete fips_sha256 ex_leaves 2 (lit "c")); [|reflexivity].
  vm_compute. discriminate.
Defined.

Lemma inclusion_proof_sound_witness : ex_leaves !! 1%nat = Some (lit "b").
Proof.
  apply (@inclusion_proof_sound fips_sha256 ex_leaves
           [@leaf_hash fips_sha256 (lit "a"); @leaf_hash fips_sha256 (lit "c")] 1 (lit "b")).
  - vm_compute. discriminate.
  - apply collision_freeb_sound. vm_compute. reflexivity.
  - vm_compute. reflexivity.
Defined.
