(* ===== verification/AuditFormat.v ===== *)
(** * The byte formats of the audit ledger

    What is hashed and what is signed: the v2 row hash and genesis seed
    ([row_hash_v2], [genesis_v2] of the verifier, [row_hash_v2],
    [genesis_prev_hash] of [crates/gateway/src/audit_format/mod.rs], which are
    the same functions), the legacy v1 row hash and tree, and the anchor formats
    ([anchor_artifact], [anchor_commitment], [local_attest_msg]).

    The theorems: a v2 row preimage determines every field; the attestation
    message determines the root and the anchor identity; the domains are
    disjoint; the v1 formats have neither property. *)

From Stdlib Require Import ZArith Lia.
From stdpp Require Import base list option.
From S2P Require Import Prelude Encoding Hash Merkle.

(** ** Domain tags *)

Definition DOMAIN_ROW_V2 : bytes := lit "tracelane-audit-row-v2" ++ [x00].
Definition DOMAIN_GENESIS_V2 : bytes := lit "tracelane-audit-v2-genesis" ++ [x00].
Definition DOMAIN_ANCHOR : bytes := lit "tracelane-anchor-ecdsa-v1" ++ [x00].
Definition DOMAIN_ATTEST : bytes := lit "tracelane-audit-ed25519-v1" ++ [x00].

(** ** Preimages *)

(** The buffer of [row_hash_v2]. *)
Definition row_preimage_v2 (prev_hash tenant_uuid : bytes) (seq : Z)
    (event_type actor canonical_payload_json : bytes) : bytes :=
  let buf := DOMAIN_ROW_V2 in
  let buf := write_lp buf tenant_uuid in
  let buf := buf ++ u64_be seq in
  let buf := write_lp buf event_type in
  let buf := write_lp buf actor in
  let buf := write_lp buf canonical_payload_json in
  write_lp buf prev_hash.

Definition genesis_preimage (tenant_uuid : bytes) : bytes := DOMAIN_GENESIS_V2 ++ tenant_uuid.

(** [format!("{tenant_id}|{seq}|{event_type}|{actor}|{payload_json}|{prev_hash}")] *)
Definition row_preimage_v1 (prev_hash_hex tenant_id : bytes) (seq : Z)
    (event_type actor payload_json : bytes) : bytes :=
  tenant_id ++ lit "|" ++ dec seq ++ lit "|" ++ event_type ++ lit "|" ++ actor ++ lit "|" ++
  payload_json ++ lit "|" ++ prev_hash_hex.

Definition anchor_artifact (root : bytes) : bytes := DOMAIN_ANCHOR ++ root.

Definition local_attest_msg (root commitment : bytes) : bytes :=
  DOMAIN_ATTEST ++ root ++ commitment.

(** P-256 SPKI (91 bytes) to the uncompressed point. *)
Definition spki_to_point (spki : bytes) : option bytes :=
  if negb (length spki =? 91)%nat || negb (bool_decide (spki !! 26%nat = Some x04)) then None
  else Some (drop 26 spki).

Section formats.
Context `{Sha256Fn}.

Definition row_hash_v2 (prev_hash tenant_uuid : bytes) (seq : Z)
    (event_type actor canonical_payload_json : bytes) : bytes :=
  sha256 (row_preimage_v2 prev_hash tenant_uuid seq event_type actor canonical_payload_json).

Definition genesis_v2 (tenant_uuid : bytes) : bytes := sha256 (genesis_preimage tenant_uuid).

Definition row_hash_v1 (prev_hash_hex tenant_id : bytes) (seq : Z)
    (event_type actor payload_json : bytes) : bytes :=
  hex_encode (sha256 (row_preimage_v1 prev_hash_hex tenant_id seq event_type actor payload_json)).

Definition anchor_commitment (anchored : option (bytes * bytes * Z)) : bytes :=
  match anchored with
  | None => [x00]
  | Some (spki, url, idx) => x01 :: sha256 spki ++ sha256 url ++ u64_be idx
  end.

(** The v1 tree ([compute_merkle_root] of [crates/gateway/src/audit.rs]): the last
    node of an odd level is doubled, and children are joined as hex text. *)
Fixpoint v1_pairs (level : list bytes) : list bytes :=
  match level with
  | a :: b :: level' => hex_encode (sha256 (a ++ b)) :: v1_pairs level'
  | _ => []
  end.

Definition v1_even (level : list bytes) : list bytes :=
  if Nat.odd (length level) then level ++ option_list (last level) else level.

Fixpoint v1_loop (fuel : nat) (level : list bytes) : list bytes :=
  match fuel with
  | O => level
  | S fuel' => if (1 <? length level)%nat then v1_loop fuel' (v1_pairs (v1_even level)) else level
  end.

Definition compute_merkle_root (hashes : list bytes) : bytes :=
  match hashes with
  | [] => hex_encode (sha256 (lit "empty"))
  | _ => hex_encode (sha256 (default [] (head (v1_loop (length hashes) hashes))))
  end.

End formats.

(** ** Facts *)

Lemma write_lp_lp (buf bs : bytes) : write_lp buf bs = buf ++ lp bs.
Proof. done. Qed.

Lemma row_preimage_v2_lp (prev tenant : bytes) (seq : Z) (et actor payload : bytes) :
  row_preimage_v2 prev tenant seq et actor payload =
  DOMAIN_ROW_V2 ++ lp tenant ++ u64_be seq ++ lp et ++ lp actor ++ lp payload ++ lp prev.
Proof. unfold row_preimage_v2. rewrite !write_lp_lp. by rewrite <- !(assoc_L (++)). Qed.

Lemma fits_length (bs : bytes) (n : nat) : length bs = n → (Z.of_nat n ≤ u64_max)%Z → fits bs.
Proof. unfold fits, lenZ. by intros ->. Qed.

Lemma fits_16 (bs : bytes) : length bs = 16%nat → fits bs.
Proof. intros E. by apply (fits_length _ 16). Qed.
Lemma fits_32 (bs : bytes) : length bs = 32%nat → fits bs.
Proof. intros E. by apply (fits_length _ 32). Qed.

Lemma row_preimage_v2_inj (p1 t1 : bytes) (s1 : Z) (e1 a1 j1 p2 t2 : bytes) (s2 : Z) (e2 a2 j2 : bytes) :
  Forall fits [t1; e1; a1; j1; p1] → Forall fits [t2; e2; a2; j2; p2] → is_u64 s1 → is_u64 s2 →
  row_preimage_v2 p1 t1 s1 e1 a1 j1 = row_preimage_v2 p2 t2 s2 e2 a2 j2 →
  (p1, t1, s1, e1, a1, j1) = (p2, t2, s2, e2, a2, j2).
Proof.
  rewrite !Forall_cons. intros (?&?&?&?&?&_) (?&?&?&?&?&_) Hs1 Hs2.
  rewrite !row_preimage_v2_lp. intros E%(inj (app DOMAIN_ROW_V2)).
  apply lp_app_inj in E as [-> E]; [|done..].
  apply u64_be_app_inj in E as [-> E]; [|done..].
  apply lp_app_inj in E as [-> E]; [|done..].
  apply lp_app_inj in E as [-> E]; [|done..].
  apply lp_app_inj in E as [-> E]; [|done..].
  rewrite <- (right_id_L [] (++) (lp p1)), <- (right_id_L [] (++) (lp p2)) in E.
  by apply lp_app_inj in E as [-> _].
Qed.

(** Two lists that differ in their first [n] elements are different. *)
Lemma take_ne {A} (n : nat) (l k : list A) : take n l ≠ take n k → l ≠ k.
Proof. by intros Hne ->. Qed.

Lemma row_preimage_not_genesis (p t : bytes) (s : Z) (e a j g : bytes) :
  row_preimage_v2 p t s e a j ≠ genesis_preimage g.
Proof. rewrite row_preimage_v2_lp. apply (take_ne 20). vm_compute. discriminate. Qed.

Section format_facts.
Context `{Sha256Fn}.

Lemma genesis_v2_length (t : bytes) : length (genesis_v2 t) = 32%nat.
Proof. apply sha256_length. Qed.

Lemma row_hash_v2_length (p t : bytes) (s : Z) (e a j : bytes) :
  length (row_hash_v2 p t s e a j) = 32%nat.
Proof. apply sha256_length. Qed.

(** The strings whose digests enter a commitment. *)
Definition commitment_inputs (c : option (bytes * bytes * Z)) : list bytes :=
  match c with None => [] | Some (spki, url, _) => [spki; url] end.

Definition commitment_ok (c : option (bytes * bytes * Z)) : Prop :=
  match c with None => True | Some (_, _, idx) => is_u64 idx end.

Lemma anchor_commitment_inj (c1 c2 : option (bytes * bytes * Z)) :
  collision_free (commitment_inputs c1 ++ commitment_inputs c2) →
  commitment_ok c1 → commitment_ok c2 →
  anchor_commitment c1 = anchor_commitment c2 → c1 = c2.
Proof.
  intros Hcf Hc1 Hc2 E. destruct c1 as [[[k1 u1] i1]|], c2 as [[[k2 u2] i2]|]; try done.
  cbn [anchor_commitment] in E. injection E as E.
  apply app_inj_1 in E as [Ek E]; [|by rewrite !sha256_length].
  apply app_inj_1 in E as [Eu E]; [|by rewrite !sha256_length].
  apply u64_be_inj in E; [|done..]. subst i2. cbn [commitment_inputs app] in Hcf.
  rewrite (Hcf k1 k2), (Hcf u1 u2); [done|..]; try done;
    rewrite !elem_of_cons; tauto.
Qed.

(** Facts about the v1 tree. *)

Lemma length_v1_pairs (l : list bytes) : length (v1_pairs l) = (length l / 2)%nat.
Proof.
  induction l as [|x|x y l IH] using list_pair_ind; [done|done|].
  cbn [v1_pairs length]. rewrite IH. replace (S (S (length l))) with (length l + 1 * 2)%nat by lia.
  rewrite Nat.div_add by lia. lia.
Qed.

Lemma length_v1_even (l : list bytes) : (length (v1_even l) ≤ 2 * ((length l + 1) / 2))%nat.
Proof.
  unfold v1_even. destruct (Nat.odd (length l)) eqn:Ho.
  - apply Nat.odd_spec in Ho as [k Hk]. rewrite length_app.
    replace (length l + 1)%nat with ((k + 1) * 2)%nat by lia. rewrite Nat.div_mul by lia.
    destruct (last l); simpl; lia.
  - rewrite <- Nat.negb_even, negb_false_iff in Ho. apply Nat.even_spec in Ho as [k Hk].
    rewrite Hk, (Nat.mul_comm 2 k), Nat.add_comm, Nat.div_add by lia. simpl. lia.
Qed.

Lemma v1_loop_step (n : nat) (l : list bytes) :
  (1 < length l)%nat → v1_loop (S n) l = v1_loop n (v1_pairs (v1_even l)).
Proof. intros Hl. cbn [v1_loop]. by destruct (Nat.ltb_spec 1 (length l)); [|lia]. Qed.

Lemma v1_loop_enough (n : nat) (l : list bytes) :
  (length l ≤ n)%nat → v1_loop (S n) l = v1_loop n l.
Proof.
  revert l. induction n as [|n IH]; intros l Hl.
  { destruct l; [done|]. simpl in Hl. lia. }
  destruct (decide (1 < length l)%nat).
  - rewrite (v1_loop_step (S n)), (v1_loop_step n l) by done. apply IH.
    rewrite length_v1_pairs. apply Nat.Div0.div_le_upper_bound. etrans; [apply length_v1_even|].
    apply Nat.mul_le_mono_l, Nat.lt_succ_r, Nat.Div0.div_lt_upper_bound. lia.
  - cbn [v1_loop]. by destruct (Nat.ltb_spec 1 (length l)); [lia|].
Qed.

Lemma v1_even_odd (a b : bytes) (l : list bytes) (x : bytes) :
  Nat.even (length l) = true → v1_even (a :: b :: l ++ [x]) = a :: b :: l ++ [x; x].
Proof.
  intros He. unfold v1_even. rewrite !length_cons, length_app, Nat.add_1_r.
  rewrite Nat.odd_succ_succ, Nat.odd_succ, He.
  change (a :: b :: l ++ [x]) with ((a :: b :: l) ++ [x]). rewrite last_snoc.
  cbn [option_list option_rect]. by rewrite <- (assoc_L (++)).
Qed.

Lemma v1_even_even (a b : bytes) (l : list bytes) (x : bytes) :
  Nat.even (length l) = true → v1_even (a :: b :: l ++ [x; x]) = a :: b :: l ++ [x; x].
Proof.
  intros He. unfold v1_even. rewrite !length_cons, length_app. cbn [length].
  rewrite (Nat.add_comm _ 2). cbn [Nat.add]. rewrite !Nat.odd_succ_succ. unfold Nat.odd. by rewrite He.
Qed.

(** A v2 row preimage determines every field: no choice of event type,
    actor, payload, sequence number, tenant or previous hash re-partitions
    another row's hash input. *)
Theorem row_preimage_v2_injective
    (p1 t1 : bytes) (s1 : Z) (e1 a1 j1 p2 t2 : bytes) (s2 : Z) (e2 a2 j2 : bytes) :
  Forall fits [t1; e1; a1; j1; p1] → Forall fits [t2; e2; a2; j2; p2] → is_u64 s1 → is_u64 s2 →
  row_preimage_v2 p1 t1 s1 e1 a1 j1 = row_preimage_v2 p2 t2 s2 e2 a2 j2 →
  (p1, t1, s1, e1, a1, j1) = (p2, t2, s2, e2, a2, j2).
Proof. apply row_preimage_v2_inj. Qed.

(** The attestation message binds the Merkle root and the anchor identity:
    one message cannot be read for two roots, for an anchored and an un-anchored
    batch, or for two keys, log URLs or log indices, unless two of the hashed
    strings collide. *)
Theorem local_attest_msg_binding (r1 r2 : bytes) (c1 c2 : option (bytes * bytes * Z)) :
  length r1 = 32%nat → length r2 = 32%nat →
  commitment_ok c1 → commitment_ok c2 →
  collision_free (commitment_inputs c1 ++ commitment_inputs c2) →
  local_attest_msg r1 (anchor_commitment c1) = local_attest_msg r2 (anchor_commitment c2) →
  r1 = r2 ∧ c1 = c2.
Proof.
  intros Hr1 Hr2 Hc1 Hc2 Hcf E. unfold local_attest_msg in E. apply (inj _) in E.
  apply app_inj_1 in E as [-> E]; [|congruence]. split; [done|].
  by apply anchor_commitment_inj.
Qed.

(** The hashed and the signed strings of the ledger come from disjoint
    domains: a row preimage, a genesis preimage, an anchor artifact, an
    attestation message, a Merkle leaf and a Merkle node preimage never
    coincide, whatever their arguments. *)
Theorem preimage_domains_disjoint
    (p t : bytes) (s : Z) (e a j g root root' c leaf l r : bytes) :
  NoDup [row_preimage_v2 p t s e a j; genesis_preimage g; anchor_artifact root;
         local_attest_msg root' c; leaf_preimage leaf; node_preimage l r].
Proof.
  rewrite row_preimage_v2_lp.
  repeat (apply NoDup_cons; split; [rewrite ?not_elem_of_cons; repeat split;
    try (apply (take_ne 20); vm_compute; discriminate); apply not_elem_of_nil|]).
  apply NoDup_nil_2.
Qed.

(** Why v1 was replaced: its row hash does not determine the row (a [|] in
    the event type or the actor moves the field boundary), and its tree does not
    determine the batch (appending a copy of the last row to an odd-length batch
    of three or more rows keeps the root). *)
Theorem v1_formats_are_ambiguous :
  (∀ (prev tenant : bytes) (seq : Z) (x y z payload : bytes),
     row_hash_v1 prev tenant seq (x ++ lit "|" ++ y) z payload =
     row_hash_v1 prev tenant seq x (y ++ lit "|" ++ z) payload) ∧
  (∀ (a b : bytes) (l : list bytes) (x : bytes), Nat.even (length l) = true →
     compute_merkle_root (a :: b :: l ++ [x]) = compute_merkle_root (a :: b :: l ++ [x; x])).
Proof.
  split.
  - intros. unfold row_hash_v1, row_preimage_v1. by rewrite <- !(assoc_L (++)).
  - intros a b l x He. unfold compute_merkle_root. do 4 f_equal.
    rewrite !length_cons, !length_app. cbn [length]. rewrite !(Nat.add_comm (length l)). cbn [Nat.add].
    rewrite (v1_loop_step _ (a :: b :: l ++ [x])), (v1_loop_step _ (a :: b :: l ++ [x; x]))
      by (rewrite ?length_cons; lia).
    rewrite v1_even_odd, v1_even_even by done.
    symmetry. apply v1_loop_enough. rewrite length_v1_pairs, !length_cons, length_app.
    cbn [length]. apply Nat.Div0.div_le_upper_bound. lia.
Qed.

End format_facts.

(** ** Witnesses *)

Lemma row_preimage_v2_injective_witness :
  let t := replicate 16 x07 in let p := replicate 32 x01 in
  (p, t, 3%Z, lit "request", lit "alice", lit "{}") =
  (p, t, 3%Z, lit "request", lit "alice", lit "{}").
Proof.
  intros t p.
  apply (row_preimage_v2_injective p t 3 (lit "request") (lit "alice") (lit "{}")
           p t 3 (lit "request") (lit "alice") (lit "{}"));
    [..|reflexivity]; repeat constructor; vm_compute; discriminate.
Defined.

Lemma local_attest_msg_binding_witness :
  let r := replicate 32 x05 in
  let c := Some (lit "spki", lit "https://log", 12%Z) in
  @collision_free fips_sha256 (commitment_inputs c ++ commitment_inputs c) ∧ r = r ∧ c = c.
Proof.
  intros r c.
  assert (@collision_free fips_sha256 (commitment_inputs c ++ commitment_inputs c)) as Hcf.
  { apply collision_freeb_sound. vm_compute. reflexivity. }
  split; [exact Hcf|].
  apply (@local_attest_msg_binding fips_sha256 r r c c); try reflexivity; try exact Hcf;
    split; vm_compute; discriminate.
Defined.
