(* ===== verification/AuditVerifier.v ===== *)
(** * The ledger verifier

    [packages/verifier-rust/src/lib.rs]: the row and anchor records, the report,
    the three passes of [verify_ledger_reader] ([verify_anchors_offline],
    [verify_chain], [count_anchor_coverage]), and the verdict that the command
    line tool ([crates/tracelane-audit-cli/src/main.rs]) draws from the report.
    This file holds the definitions; [ChainProofs], [AnchorProofs] and
    [CoverageProofs] hold the theorems.

    Parameters: SHA-256, the JSON number type, the signature schemes
    ([Crypto]: [ed25519_dalek] and [p256]) and the JSON library with the derived
    deserializers ([SerdeJson]).  The free-text [detail] of an error, which no code
    reads, is left out; its [seq] and [kind] are kept. *)

From Stdlib Require Import ZArith Lia.
From stdpp Require Import base list option strings sorting.
From S2P Require Import Prelude BTree Encoding Hash Merkle Json AuditFormat.

(** ** Signature schemes *)

Class Crypto := {
  ed25519_key : Type;
  ed25519_from_bytes : bytes → option ed25519_key;
  ed25519_verify : ed25519_key → bytes → bytes → bool;
  p256_key : Type;
  p256_from_sec1_bytes : bytes → option p256_key;
  p256_sig : Type;
  p256_sig_from_der : bytes → option p256_sig;
  p256_verify_prehash : p256_key → bytes → p256_sig → bool;
}.

Definition verify_ed25519_raw `{Crypto} (pubkey msg signature : bytes) : result unit string :=
  let? vk := ok_or (ed25519_from_bytes pubkey) "invalid Ed25519 pubkey"%string in
  if ed25519_verify vk msg signature then Ok () else Err "Ed25519 verification failed"%string.

Definition ecdsa_p256_verify `{Crypto} (point prehash sig_der : bytes) : bool :=
  match p256_from_sec1_bytes point with
  | None => false
  | Some vk =>
      match p256_sig_from_der sig_der with
      | None => false
      | Some sig => p256_verify_prehash vk prehash sig
      end
  end.

(** ** Options and records *)

Inductive FormatVersion : Type := V2_1 | V2 | V1.

Definition is_v2_family (f : FormatVersion) : bool :=
  match f with V2 | V2_1 => true | V1 => false end.

Record VerifyOptions := {
  format_version : FormatVersion;
  offline : bool;
  rekor_url : bytes;
  rekor_timeout_secs : Z;
  pinned_pubkey : option bytes;
  tenant_pubkey : option bytes;
  platform_pubkeys : list bytes;
  workspace_key_since_seq : option Z;
}.

(** [VerifyOptions::default()]. *)
Definition default_options : VerifyOptions := {|
  format_version := V2;
  offline := false;
  rekor_url := lit "https://rekor.sigstore.dev";
  rekor_timeout_secs := 10;
  pinned_pubkey := None;
  tenant_pubkey := None;
  platform_pubkeys := [];
  workspace_key_since_seq := None;
|}.

Record AuditRow `{JsonNumber} := {
  row_format : option bytes;
  row_tenant_id : bytes;
  row_seq : Z;
  row_event_time : bytes;
  row_event_type : bytes;
  row_actor : bytes;
  row_payload : Value;
  row_prev_hash : bytes;
  row_row_hash : bytes;
  row_rekor_entry_id : option bytes;
}.

Record Ed25519Block := { ed_signature : bytes; ed_pubkey : bytes }.

Record InclusionProof := { ip_log_index : bytes; ip_tree_size : bytes; ip_hashes : list bytes }.

Record RekorBlock := {
  rk_log_url : bytes;
  rk_log_index : bytes;
  rk_canonicalized_body : bytes;
  rk_inclusion_proof : InclusionProof;
  rk_checkpoint_envelope : bytes;
}.

Record AnchorRecord := {
  an_tenant_id : bytes;
  an_batch_start_seq : Z;
  an_batch_end_seq : Z;
  an_merkle_root : bytes;
  an_anchor_state : bytes;
  an_ed25519 : Ed25519Block;
  an_rekor : option RekorBlock;
}.

(** [serde_json] and the derived [Deserialize] implementations. *)
Class SerdeJson `{JsonNumber} := {
  from_slice : bytes → option Value;
  to_string : Value → bytes;
  value_get : Value → bytes → option Value;
  value_pointer : Value → bytes → option Value;
  row_from_value : Value → option AuditRow;
  anchor_from_value : Value → option AnchorRecord;
}.

Definition as_str `{JsonNumber} (v : Value) : option bytes :=
  match v with String s => Some s | _ => None end.

Definition resolve_format `{JsonNumber} (row : AuditRow) (default : FormatVersion) : FormatVersion :=
  match row_format row with
  | Some f =>
      if bool_decide (f = lit "v2.1") then V2_1
      else if bool_decide (f = lit "v2") then V2
      else if bool_decide (f = lit "v1") then V1
      else default
  | None => default
  end.

(** ** The report *)

Record VerifyError := { ve_seq : option Z; ve_kind : string }.

Record SeqRange := { start_seq : Z; end_seq : Z }.

Record VerifyReport := mkReport {
  ledger_path : bytes;
  rows_seen : Z;
  hash_chain_valid : bool;
  signatures_valid : bool;
  rekor_anchors_seen : Z;
  rekor_anchors_resolved : Z;
  anchors_included : Z;
  anchors_unverified : Z;
  strip_detected : bool;
  verified_from_seq : Z;
  trust_established : bool;
  rows_uncovered_by_anchors : Z;
  rows_unanchored_tail : Z;
  platform_signed_batches : Z;
  platform_signed_ranges : list SeqRange;
  errors : list VerifyError;
}.

Definition empty_labeled (label : bytes) : VerifyReport := {|
  ledger_path := label;
  rows_seen := 0;
  hash_chain_valid := true;
  signatures_valid := true;
  rekor_anchors_seen := 0;
  rekor_anchors_resolved := 0;
  anchors_included := 0;
  anchors_unverified := 0;
  strip_detected := false;
  verified_from_seq := 0;
  trust_established := true;
  rows_uncovered_by_anchors := 0;
  rows_unanchored_tail := 0;
  platform_signed_batches := 0;
  platform_signed_ranges := [];
  errors := [];
|}.

(** Field updates. *)
Definition set_rows_seen (x : Z) '(mkReport a b c d e f g h i j k l m n o p) : VerifyReport :=
  mkReport a x c d e f g h i j k l m n o p.
Definition chain_invalid '(mkReport a b c d e f g h i j k l m n o p) : VerifyReport :=
  mkReport a b false d e f g h i j k l m n o p.
Definition signatures_invalid '(mkReport a b c d e f g h i j k l m n o p) : VerifyReport :=
  mkReport a b c false e f g h i j k l m n o p.
Definition inc_seen '(mkReport a b c d e f g h i j k l m n o p) : VerifyReport :=
  mkReport a b c d (e + 1) f g h i j k l m n o p.
Definition inc_resolved '(mkReport a b c d e f g h i j k l m n o p) : VerifyReport :=
  mkReport a b c d e (f + 1) g h i j k l m n o p.
Definition inc_included '(mkReport a b c d e f g h i j k l m n o p) : VerifyReport :=
  mkReport a b c d e f (g + 1) h i j k l m n o p.
Definition inc_unverified '(mkReport a b c d e f g h i j k l m n o p) : VerifyReport :=
  mkReport a b c d e f g (h + 1) i j k l m n o p.
Definition set_stripped '(mkReport a b c d e f g h i j k l m n o p) : VerifyReport :=
  mkReport a b c d e f g h true j k l m n o p.
Definition set_verified_from (x : Z) '(mkReport a b c d e f g h i j k l m n o p) : VerifyReport :=
  mkReport a b c d e f g h i x k l m n o p.
Definition trust_lost '(mkReport a b c d e f g h i j k l m n o p) : VerifyReport :=
  mkReport a b c d e f g h i j false l m n o p.
Definition inc_uncovered '(mkReport a b c d e f g h i j k l m n o p) : VerifyReport :=
  mkReport a b c d e f g h i j k (l + 1) m n o p.
Definition inc_tail '(mkReport a b c d e f g h i j k l m n o p) : VerifyReport :=
  mkReport a b c d e f g h i j k l (m + 1) n o p.
Definition push_platform (r : SeqRange) '(mkReport a b c d e f g h i j k l m n o p) : VerifyReport :=
  mkReport a b c d e f g h i j k l m (n + 1) (o ++ [r]) p.
Definition set_ranges (x : list SeqRange) '(mkReport a b c d e f g h i j k l m n o p) : VerifyReport :=
  mkReport a b c d e f g h i j k l m n x p.
Definition push_error (seq : option Z) (kind : string)
    '(mkReport a b c d e f g h i j k l m n o p) : VerifyReport :=
  mkReport a b c d e f g h i j k l m n o (p ++ [{| ve_seq := seq; ve_kind := kind |}]).

(** An error that clears [hash_chain_valid]. *)
Definition fail_chain (seq : option Z) (kind : string) (report : VerifyReport) : VerifyReport :=
  chain_invalid (push_error seq kind report).

(** An error that clears [signatures_valid]. *)
Definition fail_signatures (kind : string) (report : VerifyReport) : VerifyReport :=
  signatures_invalid (push_error None kind report).

(** ** Pass 2: the hash chain *)

Section verifier.
Context `{Sha256Fn} `{JsonNumber} `{!SerdeJson} `{!Crypto}.

(** [row.seq + 1]: wrapping, as in the release profile. *)
Definition succ64 (seq : Z) : Z := (seq + 1) mod 2 ^ 64.

Definition min_seq_by_tenant (rows : list AuditRow) : BTreeMap.t Z :=
  fold_left (λ m row, BTreeMap.upsert (row_tenant_id row) (λ s, Z.min s (row_seq row)) (row_seq row) m)
    rows [].

(** Where a tenant's verified scope starts. *)
Definition tenant_start (included_starts : BTreeMap.t Z) (tenant : bytes) (min_seq : Z) : option Z :=
  if (min_seq =? 0)%Z then Some 0%Z else BTreeMap.get tenant included_starts.

(** The loop over [min_seq_by_tenant]: report, starts, aggregate start. *)
Definition root_tenant (included_starts : BTreeMap.t Z)
    (st : VerifyReport * BTreeMap.t (option Z) * option Z) (tm : bytes * Z)
    : VerifyReport * BTreeMap.t (option Z) * option Z :=
  let '(report, starts, agg_start) := st in
  let '(tenant, min_seq) := tm in
  let start := tenant_start included_starts tenant min_seq in
  let '(report, agg_start) :=
    match start with
    | Some s => (report, Some (match agg_start with None => s | Some e => Z.max e s end))
    | None => (push_error None "unrooted_window" (trust_lost report), agg_start)
    end in
  (report, BTreeMap.insert tenant start starts, agg_start).

Definition root_tenants (included_starts : BTreeMap.t Z) (rows : list AuditRow)
    (report : VerifyReport) : VerifyReport * BTreeMap.t (option Z) * option Z :=
  fold_left (root_tenant included_starts) (min_seq_by_tenant rows) (report, [], None).

(** The [or_insert_with] of the chain state. *)
Definition initial_entry (start : Z) (v2_family : bool) (tenant_uuid : bytes) (row : AuditRow)
    : Z * bytes :=
  if (start =? 0)%Z then
    (0%Z, if v2_family then genesis_v2 tenant_uuid else replicate 32 x00)
  else
    (start, default (replicate 32 x00) (ok (hex_decode_32 (row_prev_hash row)))).

Definition prev_hash_ok (v2_family : bool) (expected_prev_hash : bytes) (row : AuditRow) : bool :=
  if v2_family then
    if (row_seq row =? 0)%Z && bool_decide (row_prev_hash row = []) then true
    else match hex_decode_32 (row_prev_hash row) with
         | Ok bytes => bool_decide (bytes = expected_prev_hash)
         | Err _ => false
         end
  else
    let expected := if (row_seq row =? 0)%Z then [] else hex_encode expected_prev_hash in
    bool_decide (row_prev_hash row = expected).

Definition canonical_payload_v1 (v : Value) : bytes := to_string v.

(** The payload text that is hashed; [None] for a v2.1 payload that is not a
    string. *)
Definition row_canon (fmt : FormatVersion) (row : AuditRow) : option bytes :=
  match fmt with
  | V2_1 => as_str (row_payload row)
  | V2 => Some (canonical_payload (row_payload row))
  | V1 => Some (canonical_payload_v1 (row_payload row))
  end.

Definition recompute_row_hash (v2_family : bool) (expected_prev_hash tenant_uuid : bytes)
    (row : AuditRow) (canon : bytes) : bytes :=
  if v2_family then
    row_hash_v2 expected_prev_hash tenant_uuid (row_seq row) (row_event_type row) (row_actor row) canon
  else
    default (replicate 32 x00)
      (ok (hex_decode_32 (row_hash_v1 (row_prev_hash row) (row_tenant_id row) (row_seq row)
                            (row_event_type row) (row_actor row) canon))).

Definition when (b : bool) (f : VerifyReport → VerifyReport) (report : VerifyReport) : VerifyReport :=
  if b then f report else report.

(** The body of the loop over the rows, for a row in scope. *)
Definition chain_row_in_scope (opts : VerifyOptions) (start : Z)
    (st : VerifyReport * BTreeMap.t (Z * bytes)) (row : AuditRow)
    : VerifyReport * BTreeMap.t (Z * bytes) :=
  let '(report, tenant_state) := st in
  let fmt := resolve_format row (format_version opts) in
  let v2_family := is_v2_family fmt in
  match uuid_str_to_bytes (row_tenant_id row) with
  | Err _ => (fail_chain (Some (row_seq row)) "bad_tenant_id" report, tenant_state)
  | Ok tenant_uuid =>
      let '(expected_seq, expected_prev_hash, tenant_state) :=
        match BTreeMap.get (row_tenant_id row) tenant_state with
        | Some entry => (entry, tenant_state)
        | None =>
            let entry := initial_entry start v2_family tenant_uuid row in
            (entry, BTreeMap.insert (row_tenant_id row) entry tenant_state)
        end in
      let report := when (negb (row_seq row =? expected_seq)%Z)
        (fail_chain (Some (row_seq row)) "seq_out_of_order") report in
      let report := when (negb (prev_hash_ok v2_family expected_prev_hash row))
        (fail_chain (Some (row_seq row)) "prev_hash_mismatch") report in
      let canon := row_canon fmt row in
      let report := when (bool_decide (canon = None))
        (fail_chain (Some (row_seq row)) "v2_1_payload_not_string") report in
      match hex_decode_32 (row_row_hash row) with
      | Err _ => (fail_chain (Some (row_seq row)) "bad_row_hash_encoding" report, tenant_state)
      | Ok stored =>
          let report :=
            match canon with
            | Some canon =>
                let recomputed := recompute_row_hash v2_family expected_prev_hash tenant_uuid row canon in
                when (negb (bool_decide (recomputed = stored)))
                  (fail_chain (Some (row_seq row)) "row_hash_mismatch") report
            | None => report
            end in
          (report, BTreeMap.insert (row_tenant_id row) (succ64 (row_seq row), stored) tenant_state)
      end
  end.

(** Rows of an unrooted tenant and rows below the start are skipped. *)
Definition chain_row (opts : VerifyOptions) (starts : BTreeMap.t (option Z))
    (st : VerifyReport * BTreeMap.t (Z * bytes)) (row : AuditRow)
    : VerifyReport * BTreeMap.t (Z * bytes) :=
  match BTreeMap.get (row_tenant_id row) starts with
  | Some (Some start) =>
      if (start <=? row_seq row)%Z then chain_row_in_scope opts start st row else st
  | _ => st
  end.

Definition verify_chain (report : VerifyReport) (rows : list AuditRow) (opts : VerifyOptions)
    (included_starts : BTreeMap.t Z) : VerifyReport :=
  let '(report, starts, agg_start) := root_tenants included_starts rows report in
  let report := set_verified_from (default 0%Z agg_start) report in
  (fold_left (chain_row opts starts) rows (report, [])).1.

(** ** Pass 3: anchor coverage *)

Definition range_le (a b : Z * Z) : Prop := (a.1 < b.1)%Z ∨ (a.1 = b.1 ∧ (a.2 ≤ b.2)%Z).

#[global] Instance range_le_dec : RelDecision range_le.
Proof. intros [a1 a2] [b1 b2]. unfold range_le. solve_decision. Defined.

Definition push_coverage_gap (lo : Z) (report : VerifyReport) : VerifyReport :=
  push_error (Some lo) "anchor_coverage_gap" report.

Definition covered (ranges : list (Z * Z)) (seq : Z) : bool :=
  existsb (λ r, (r.1 <=? seq) && (seq <=? r.2))%Z ranges.

(** [iter().map(|(_, e)| *e).max()]. *)
Definition range_watermark (ranges : list (Z * Z)) : option Z :=
  match ranges with
  | [] => None
  | r :: rs => Some (fold_left (λ m x, Z.max m x.2) rs r.2)
  end.

(** The loop over one tenant's sequence numbers, with the open hole. *)
Definition coverage_seq (ranges : list (Z * Z)) (watermark : option Z)
    (st : VerifyReport * option (Z * Z)) (seq : Z) : VerifyReport * option (Z * Z) :=
  let '(report, hole) := st in
  if covered ranges seq then
    match hole with
    | Some (lo, hi) => (push_coverage_gap lo report, None)
    | None => (report, None)
    end
  else
    match watermark with
    | Some w =>
        if (seq <=? w)%Z then
          let report := inc_uncovered report in
          match hole with
          | Some (lo, hi) =>
              if (hi + 1 =? seq)%Z then (report, Some (lo, seq))
              else (push_coverage_gap lo report, Some (seq, seq))
          | None => (report, Some (seq, seq))
          end
        else (inc_tail report, hole)
    | None => (inc_tail report, hole)
    end.

Definition coverage_tenant (ranges : BTreeMap.t (list (Z * Z))) (report : VerifyReport)
    (ts : bytes * list Z) : VerifyReport :=
  let '(tenant, seqs) := ts in
  let anchor_ranges := default [] (BTreeMap.get tenant ranges) in
  let watermark := range_watermark anchor_ranges in
  let '(report, hole) :=
    fold_left (coverage_seq anchor_ranges watermark) (dedup (merge_sort Z.le seqs)) (report, None) in
  match hole with
  | Some (lo, hi) => push_coverage_gap lo report
  | None => report
  end.

(** [entry(k).or_default().push(x)]. *)
Definition group {A} (k : bytes) (x : A) (m : BTreeMap.t (list A)) : BTreeMap.t (list A) :=
  BTreeMap.upsert k (λ l, l ++ [x]) [x] m.

Definition ranges_by_tenant (anchors : list AnchorRecord) : BTreeMap.t (list (Z * Z)) :=
  (λ kv, (kv.1, merge_sort range_le kv.2)) <$>
  fold_left (λ m a, group (an_tenant_id a) (an_batch_start_seq a, an_batch_end_seq a) m) anchors [].

Definition seqs_by_tenant (from : Z) (rows : list AuditRow) : BTreeMap.t (list Z) :=
  fold_left (λ m row, if (from <=? row_seq row)%Z then group (row_tenant_id row) (row_seq row) m else m)
    rows [].

Definition count_anchor_coverage (report : VerifyReport) (rows : list AuditRow)
    (anchors : list AnchorRecord) : VerifyReport :=
  fold_left (coverage_tenant (ranges_by_tenant anchors))
    (seqs_by_tenant (verified_from_seq report) rows) report.

(** ** Checkpoints and inclusion *)

Definition LOG_HOST : bytes := lit "log2025-1.rekor.sigstore.dev".

(** [unreachable!] is the empty key; [log_key_length] shows it is not reached. *)
Definition log_ed25519_pubkey : bytes :=
  match base64_decode (lit "t8rlp1knGwjfbcXAYPYAkn0XiLz1x8O4t0YkEhie244=") with
  | Some bytes => if (length bytes =? 32)%nat then bytes else []
  | None => []
  end.

(** [s.find("\n\n")], as the text before and the text after. *)
Fixpoint split_blank_line (s : bytes) : option (bytes * bytes) :=
  match s with
  | a :: (b :: s'') as s' =>
      if decide (a = newline ∧ b = newline) then Some ([], s'')
      else match split_blank_line s' with
           | Some (pre, post) => Some (a :: pre, post)
           | None => None
           end
  | _ => None
  end.

(** U+2014 and a space. *)
Definition em_dash_space : bytes := [xe2; x80; x94; space].

Definition log_key_hint : bytes :=
  take 4 (sha256 (LOG_HOST ++ [x0a; x01] ++ log_ed25519_pubkey)).

Definition verify_checkpoint (envelope : bytes) : result (Z * bytes) string :=
  let? '(before, sig_block) :=
    ok_or (split_blank_line envelope) "checkpoint has no signature separator"%string in
  let body_text := before ++ [newline] in
  let lines := split_on newline body_text in
  let origin := default [] (lines !! 0%nat) in
  let? tree_size :=
    ok_or (parse_u64 (default [] (lines !! 1%nat))) "checkpoint tree size not a u64"%string in
  let root_b64 := default [] (lines !! 2%nat) in
  if negb (bool_decide (origin = LOG_HOST)) then Err "checkpoint origin != pinned"%string else
  let? sig_line :=
    ok_or (snd <$> list_find (λ l, starts_with em_dash_space l = true) (str_lines sig_block))
      "checkpoint has no signature line"%string in
  let? token := ok_or (split_on space sig_line !! 2%nat) "checkpoint signature line malformed"%string in
  let? sig_blob := ok_or (base64_decode token) "checkpoint sig base64"%string in
  if negb (length sig_blob =? 4 + 64)%nat then Err "checkpoint sig blob wrong length"%string else
  if negb (bool_decide (take 4 sig_blob = log_key_hint)) then
    Err "checkpoint key hint != pinned log key"%string else
  let? _ := verify_ed25519_raw log_ed25519_pubkey body_text (drop 4 sig_blob) in
  let? root := ok_or (base64_decode root_b64) "checkpoint root base64"%string in
  if negb (length root =? 32)%nat then Err "checkpoint root not 32 bytes"%string else
  Ok (tree_size, root).

(** The loop that decodes the proof hashes. *)
Fixpoint decode_hashes (hashes : list bytes) : result (list bytes) string :=
  match hashes with
  | [] => Ok []
  | h :: hashes' =>
      let? b := ok_or (base64_decode h) "proof hash base64"%string in
      if negb (length b =? 32)%nat then Err "proof hash not 32 bytes"%string else
      let? bs := decode_hashes hashes' in
      Ok (b :: bs)
  end.

Definition proof_error (e : ProofError) : string :=
  match e with
  | IndexOutOfRange => "leaf index >= tree size"
  | ProofTooLong => "inclusion proof too long"
  | ProofTooShort => "inclusion proof too short"
  end.

Definition verify_inclusion (rekor : RekorBlock) : result unit string :=
  let? body := ok_or (base64_decode (rk_canonicalized_body rekor)) "body base64"%string in
  let leaf := leaf_hash body in
  let? idx := ok_or (parse_u64 (ip_log_index (rk_inclusion_proof rekor)))
    "proof log_index not a u64"%string in
  let? tree_size := ok_or (parse_u64 (ip_tree_size (rk_inclusion_proof rekor)))
    "proof tree_size not a u64"%string in
  let? proof := decode_hashes (ip_hashes (rk_inclusion_proof rekor)) in
  let? computed := map_err proof_error (rfc6962_root leaf idx tree_size proof) in
  let? '(cp_size, cp_root) := verify_checkpoint (rk_checkpoint_envelope rekor) in
  if negb (cp_size =? tree_size)%Z then Err "checkpoint tree_size != proof"%string else
  if negb (bool_decide (cp_root = computed)) then
    Err "inclusion-proof root != verified checkpoint root"%string else
  Ok tt.

(** ** The anchored entry *)

Record AnchorEntry := {
  ae_spki : bytes;
  ae_digest : bytes;
  ae_sig : bytes;
  ae_point : bytes;
  ae_log_index : Z;
}.

Definition pointer_str (v : Value) (path : string) (err : string) : result bytes string :=
  ok_or (value_pointer v (lit path) ≫= as_str) err.

Definition extract_anchor_entry (root : bytes) (rekor : RekorBlock) : result AnchorEntry string :=
  let? body_bytes :=
    ok_or (base64_decode (rk_canonicalized_body rekor)) "canonicalized_body base64"%string in
  let? body := ok_or (from_slice body_bytes) "canonicalized_body JSON"%string in
  let? spec :=
    ok_or (value_pointer body (lit "/spec/hashedRekordV002")) "missing spec.hashedRekordV002"%string in
  let? key_details := pointer_str spec "/signature/verifier/keyDetails" "missing keyDetails" in
  if negb (bool_decide (key_details = lit "PKIX_ECDSA_P256_SHA_256")) then
    Err "unexpected keyDetails"%string else
  let? digest_b64 := pointer_str spec "/data/digest" "missing data.digest" in
  let? sig_b64 := pointer_str spec "/signature/content" "missing signature.content" in
  let? raw_bytes_b64 :=
    pointer_str spec "/signature/verifier/publicKey/rawBytes" "missing publicKey.rawBytes" in
  let? spki := ok_or (base64_decode raw_bytes_b64) "spki base64"%string in
  let? point := ok_or (spki_to_point spki) "not a P-256 SubjectPublicKeyInfo"%string in
  let digest := sha256 (anchor_artifact root) in
  let? claimed_digest := ok_or (base64_decode digest_b64) "digest base64"%string in
  if negb (bool_decide (claimed_digest = digest)) then
    Err "entry digest != SHA256(anchor artifact)"%string else
  let? sig := ok_or (base64_decode sig_b64) "sig base64"%string in
  let? log_index := ok_or (parse_u64 (rk_log_index rekor)) "log_index not a u64"%string in
  Ok {| ae_spki := spki; ae_digest := digest; ae_sig := sig; ae_point := point;
        ae_log_index := log_index |}.

(** ** Pass 1: the anchors *)

(** [format!("{}/{}", tenant_id, seq)]. *)
Definition row_key (tenant : bytes) (seq : Z) : bytes := tenant ++ lit "/" ++ dec seq.

Definition row_hash_by_key (rows : list AuditRow) : BTreeMap.t bytes :=
  fold_left
    (λ m row,
       match hex_decode_32 (row_row_hash row) with
       | Ok h => BTreeMap.insert (row_key (row_tenant_id row) (row_seq row)) h m
       | Err _ => m
       end)
    rows [].

(** The loop over [batch_start_seq..=batch_end_seq], which stops at the first
    missing row, so that one more step than there are keys is enough
    ([collect_leaves_complete]). *)
Fixpoint collect_leaves (fuel : nat) (keys : BTreeMap.t bytes) (tenant : bytes) (seq last : Z)
    : option (list bytes) :=
  if (last <? seq)%Z then Some []
  else
    match fuel with
    | O => None
    | S fuel' =>
        match BTreeMap.get (row_key tenant seq) keys with
        | Some h => cons h <$> collect_leaves fuel' keys tenant (seq + 1) last
        | None => None
        end
    end.

Definition batch_leaves (keys : BTreeMap.t bytes) (a : AnchorRecord) : option (list bytes) :=
  collect_leaves (S (length keys)) keys (an_tenant_id a) (an_batch_start_seq a) (an_batch_end_seq a).

(** Which trusted key the bundle names, and whether it is the platform's. *)
Definition select_key (opts : VerifyOptions) (workspace bundle : bytes) : option (bytes * bool) :=
  if bool_decide (bundle = workspace) then Some (workspace, false)
  else
    match list_find (λ p, bundle = p) (platform_pubkeys opts) with
    | Some (_, platform) => Some (platform, true)
    | None => None
    end.

Definition attestation (root : bytes) (rekor : option RekorBlock) (entry : option AnchorEntry) : bytes :=
  local_attest_msg root
    (anchor_commitment
       match entry, rekor with
       | Some e, Some r => Some (ae_spki e, rk_log_url r, ae_log_index e)
       | _, _ => None
       end).

(** Report, included starts, signers per tenant. *)
Record AnchorState := {
  as_report : VerifyReport;
  as_included : BTreeMap.t Z;
  as_signers : BTreeMap.t (Z * list SeqRange);
}.

Definition on_report (f : VerifyReport → VerifyReport) (st : AnchorState) : AnchorState :=
  {| as_report := f (as_report st); as_included := as_included st; as_signers := as_signers st |}.

(** AUD-29: record which key vouched for the batch. *)
Definition record_signer (a : AnchorRecord) (platform_signed : bool) (st : AnchorState) : AnchorState :=
  let range := {| start_seq := an_batch_start_seq a; end_seq := an_batch_end_seq a |} in
  let update '(ws, platform) :=
    if platform_signed then (ws, platform ++ [range])
    else if (an_batch_start_seq a <? ws)%Z then (an_batch_start_seq a, platform)
    else (ws, platform) in
  {| as_report := as_report st; as_included := as_included st;
     as_signers :=
       BTreeMap.upsert (an_tenant_id a) update (update (u64_max, [])) (as_signers st) |}.

Definition record_included (a : AnchorRecord) (st : AnchorState) : AnchorState :=
  {| as_report := as_report st;
     as_included :=
       BTreeMap.upsert (an_tenant_id a) (λ s, Z.min s (an_batch_start_seq a)) (an_batch_start_seq a)
         (as_included st);
     as_signers := as_signers st |}.

(** After the attestation: the Rekor entry, its signature and its inclusion. *)
Definition verify_entry (a : AnchorRecord) (platform_signed : bool) (entry : option AnchorEntry)
    (st : AnchorState) : AnchorState :=
  match an_rekor a, entry with
  | Some rekor, Some e =>
      let st := on_report inc_seen st in
      if negb (ecdsa_p256_verify (ae_point e) (ae_digest e) (ae_sig e)) then
        on_report (fail_signatures "entry_signature_invalid") st
      else
        let st := on_report inc_resolved st in
        match verify_inclusion rekor with
        | Ok _ =>
            let st := on_report inc_included st in
            if platform_signed then st else record_included a st
        | Err _ => on_report (fail_signatures "inclusion_proof_invalid") st
        end
  | _, _ => st
  end.

(** The body of the loop over the anchors. *)
Definition verify_anchor (opts : VerifyOptions) (keys : BTreeMap.t bytes) (st : AnchorState)
    (a : AnchorRecord) : AnchorState :=
  let fail kind := on_report (fail_signatures kind) st in
  let committed := bool_decide (an_anchor_state a = lit "anchored") in
  if committed && bool_decide (an_rekor a = None) then
    on_report (λ r, fail_signatures "anchor_stripped" (set_stripped r)) st
  else
  match batch_leaves keys a with
  | None => fail "anchor_rows_missing"%string
  | Some leaves =>
  let root := merkle_root_v2 leaves in
  match hex_decode_32 (an_merkle_root a) with
  | Err _ => fail "bad_merkle_root"%string
  | Ok claimed_root =>
  if negb (bool_decide (root = claimed_root)) then fail "merkle_root_mismatch"%string else
  match tenant_pubkey opts with
  | None => on_report inc_unverified st
  | Some workspace =>
  match base64_decode (ed_pubkey (an_ed25519 a)) with
  | None => fail "bad_tenant_pubkey"%string
  | Some bundle_pubkey =>
  if negb (length bundle_pubkey =? 32)%nat then fail "bad_tenant_pubkey"%string else
  match select_key opts workspace bundle_pubkey with
  | None => fail "untrusted_tenant_key"%string
  | Some (signing_key, platform_signed) =>
  match (match (if committed then an_rekor a else None) with
         | Some rekor =>
             match extract_anchor_entry root rekor with
             | Ok e => Some (Some e)
             | Err _ => None
             end
         | None => Some None
         end) with
  | None => fail "anchor_body_invalid"%string
  | Some entry =>
  match base64_decode (ed_signature (an_ed25519 a)) with
  | None => fail "bad_attestation_sig"%string
  | Some att_sig =>
  if negb (length att_sig =? 64)%nat then fail "bad_attestation_sig"%string else
  match verify_ed25519_raw signing_key (attestation root (an_rekor a) entry) att_sig with
  | Err _ => fail "attestation_invalid"%string
  | Ok _ => verify_entry a platform_signed entry (record_signer a platform_signed st)
  end end end end end end end end.

(** The downgrade rule for one platform-signed range. *)
Definition check_platform_range (boundary : Z) (report : VerifyReport) (r : SeqRange) : VerifyReport :=
  if ((boundary <=? start_seq r) || (boundary <=? end_seq r))%Z then
    fail_signatures "platform_key_after_workspace_key" report
  else push_platform r report.

Definition signer_boundary (opts : VerifyOptions) (workspace_min_start : Z) : Z :=
  match workspace_key_since_seq opts with
  | Some since => Z.min since workspace_min_start
  | None => workspace_min_start
  end.

Definition check_signers (opts : VerifyOptions) (report : VerifyReport)
    (s : bytes * (Z * list SeqRange)) : VerifyReport :=
  let '(_, (workspace_min_start, platform)) := s in
  fold_left (check_platform_range (signer_boundary opts workspace_min_start)) platform report.

Definition seq_range_le (a b : SeqRange) : Prop := (start_seq a ≤ start_seq b)%Z.
#[global] Instance seq_range_le_dec : RelDecision seq_range_le.
Proof. intros a b. unfold seq_range_le. solve_decision. Defined.

Definition verify_anchors_offline (report : VerifyReport) (rows : list AuditRow)
    (anchors : list AnchorRecord) (opts : VerifyOptions) : VerifyReport * BTreeMap.t Z :=
  match anchors with
  | [] => (report, [])
  | _ =>
      let keys := row_hash_by_key rows in
      let st := fold_left (verify_anchor opts keys) anchors
        {| as_report := report; as_included := []; as_signers := [] |} in
      let report := fold_left (check_signers opts) (as_signers st) (as_report st) in
      (set_ranges (merge_sort seq_range_le (platform_signed_ranges report)) report, as_included st)
  end.

(** ** The entry point *)


Definition read_line (st : VerifyReport * list AuditRow * list AnchorRecord) (line : bytes)
    : VerifyReport * list AuditRow * list AnchorRecord :=
  let '(report, rows, anchors) := st in
  if bool_decide (trim line = []) then st
  else
    match from_slice line with
    | None => (fail_chain None "parse_error" report, rows, anchors)
    | Some value =>
        if bool_decide (value_get value (lit "type") ≫= as_str = Some (lit "anchor")) then
          match anchor_from_value value with
          | Some a => (report, rows, anchors ++ [a])
          | None => (push_error None "anchor_parse_error" report, rows, anchors)
          end
        else
          match row_from_value value with
          | Some r => (report, rows ++ [r], anchors)
          | None => (fail_chain None "parse_error" report, rows, anchors)
          end
    end.

Fixpoint read_lines {IoError} (st : VerifyReport * list AuditRow * list AnchorRecord)
    (lines : list (result bytes IoError))
    : result (VerifyReport * list AuditRow * list AnchorRecord) IoError :=
  match lines with
  | [] => Ok st
  | Ok line :: lines' => read_lines (read_line st line) lines'
  | Err e :: _ => Err e
  end.

(** The three passes over parsed records. *)
Definition verify_records (report : VerifyReport) (rows : list AuditRow)
    (anchors : list AnchorRecord) (opts : VerifyOptions) : VerifyReport :=
  let report := set_rows_seen (lenZ rows) report in
  let '(report, included_starts) := verify_anchors_offline report rows anchors opts in
  let report := verify_chain report rows opts included_starts in
  count_anchor_coverage report rows anchors.

Definition verify_ledger_reader {IoError} (lines : list (result bytes IoError))
    (ledger_label : bytes) (opts : VerifyOptions) : result VerifyReport IoError :=
  let? '(report, rows, anchors) := read_lines (empty_labeled ledger_label, [], []) lines in
  Ok (verify_records report rows anchors opts).

(** ** The verdict of the command line tool *)

Inductive Verdict : Type := Pass | ChainOnly | Fail.

Definition verdict_clean (report : VerifyReport) : bool :=
  (anchors_unverified report =? 0)%Z && hash_chain_valid report && signatures_valid report &&
  negb (strip_detected report) && (rows_uncovered_by_anchors report =? 0)%Z &&
  match errors report with [] => true | _ => false end.

Definition verdict_of (report : VerifyReport) : Verdict :=
  if negb (verdict_clean report) then Fail
  else if (anchors_included report =? 0)%Z then ChainOnly
  else Pass.

Definition exit_code (v : Verdict) : Z :=
  match v with Pass => 0 | Fail => 1 | ChainOnly => 3 end.

End verifier.
