(* ===== verification/Instances.v ===== *)
(** * Concrete instances and conformance vectors

    Instances of the parameters of the verifier, on which the examples and the
    witnesses run: FIPS SHA-256 ([Hash.fips_sha256]), numbers as text
    ([Json.text_number]), a keyed-hash signature scheme ([demo_crypto]) and a
    JSON library whose parser is a table ([table_serde]).  The rows of the
    repository's conformance vectors ([evals/audit-ledger/*.ndjson]) verify, and
    their tampered variants do not. *)

From Stdlib Require Import ZArith Lia.
From stdpp Require Import base list option strings.
From S2P Require Import Prelude BTree Encoding Hash Merkle Json AuditFormat AuditVerifier.

(** ** Signatures: a 64-byte keyed hash *)

Definition demo_sign (key msg : bytes) : bytes :=
  Fips.digest (key ++ msg) ++ Fips.digest (msg ++ key).

Definition demo_crypto : Crypto := {|
  ed25519_key := bytes;
  ed25519_from_bytes := λ b, if (length b =? 32)%nat then Some b else None;
  ed25519_verify := λ k m s, bool_decide (s = demo_sign k m);
  p256_key := bytes;
  p256_from_sec1_bytes := λ b, if (length b =? 65)%nat then Some b else None;
  p256_sig := bytes;
  p256_sig_from_der := Some;
  p256_verify_prehash := λ k m s, bool_decide (s = demo_sign k m);
|}.

(** ** JSON: field access, and a table for the parser *)

Notation TValue := (@Value text_number).

Definition obj_get (v : TValue) (k : bytes) : option TValue :=
  match v with Object fields => BTreeMap.get k fields | _ => None end.

(** RFC 6901 for the keys the code uses (no escapes, no array indices). *)
Definition obj_pointer (v : TValue) (path : bytes) : option TValue :=
  match split_on "/"%byte path with
  | [] :: keys => fold_left (λ o k, o ≫= λ v, obj_get v k) keys (Some v)
  | _ => None
  end.

Definition get_str (v : TValue) (k : string) : option bytes :=
  match obj_get v (lit k) with Some (String s) => Some s | _ => None end.
Definition get_u64 (v : TValue) (k : string) : option Z :=
  match obj_get v (lit k) with Some (Number n) => @num_as_u64 text_number n | _ => None end.
Definition get_opt_str (v : TValue) (k : string) : option (option bytes) :=
  match obj_get v (lit k) with
  | None | Some Null => Some None
  | Some (String s) => Some (Some s)
  | _ => None
  end.

Definition demo_row_from_value (v : TValue) : option (@AuditRow text_number) :=
  f ← get_opt_str v "format"; t ← get_str v "tenant_id"; n ← get_u64 v "seq";
  et ← get_str v "event_time"; ty ← get_str v "event_type"; a ← get_str v "actor";
  p ← obj_get v (lit "payload"); ph ← get_str v "prev_hash"; rh ← get_str v "row_hash";
  re ← get_opt_str v "rekor_entry_id";
  Some (@Build_AuditRow text_number f t n et ty a p ph rh re).

Definition table_serde (parse : list (bytes * TValue)) : @SerdeJson text_number := {|
  from_slice := λ b, BTreeMap.get b parse;
  to_string := @canonical_payload text_number;
  value_get := obj_get;
  value_pointer := obj_pointer;
  row_from_value := demo_row_from_value;
  anchor_from_value := λ _, None;
|}.

(** ** Conformance vectors *)

(** A literal in which an apostrophe stands for the quotation mark. *)
Definition qlit (s : string) : bytes :=
  (λ b, if decide (b = "'"%byte) then x22 else b) <$> lit s.

Definition vector_row (format : option bytes) (tenant : string) (seq : Z) (et actor : string)
    (payload : TValue) (prev_hash row_hash : string) : @AuditRow text_number := {|
  row_format := format; row_tenant_id := lit tenant; row_seq := seq;
  row_event_time := lit "2026-05-14T00:00:00.000000Z"; row_event_type := lit et;
  row_actor := lit actor; row_payload := payload; row_prev_hash := lit prev_hash;
  row_row_hash := lit row_hash; row_rekor_entry_id := None;
|}.

(** [boundary-numbers.v2_1.ndjson]: verbatim payload strings. *)
Definition boundary_tenant : string := "00000000-0000-0000-0000-000000000009".

Definition boundary_rows : list (@AuditRow text_number) := [
  vector_row (Some (lit "v2.1")) boundary_tenant 0 "chat.completions.request" "user1"
    (String (qlit "{'big_int':9007199254740993,'exp':100.0,'temperature':1.0,'top_p':0.5}"))
    "48151affc57484ee3bf4d013132e354cab5deb6134599089144f1228da5d7fa5"
    "965997278c41ad63099b1179ff5a15031a412041f01cbc4f377cc8b7a852ae15";
  vector_row (Some (lit "v2.1")) boundary_tenant 1 "chat.completions.response" "assistant"
    (String (qlit "{'status':'ok','tokens':7}"))
    "965997278c41ad63099b1179ff5a15031a412041f01cbc4f377cc8b7a852ae15"
    "cb2db164e22bdf46e843706a5bd9136a6043af3feb6303ed0336db02ccc778fd"].

(** The first rows of [good.ndjson]: objects the verifier canonicalizes. *)
Definition good_tenant : string := "00000000-0000-0000-0000-000000000001".

Definition good_payload (action step tokens : string)
    (p : num_text (lit step) = true) (q : num_text (lit tokens) = true) : TValue :=
  Object [(lit "action", String (lit action)); (lit "step", num step p); (lit "tokens", num tokens q)].

Definition good_rows : list (@AuditRow text_number) := [
  vector_row None good_tenant 0 "request" "user1" (good_payload "call" "0" "0" eq_refl eq_refl)
    "2c2abf0d4019109926e3aced94b85e4fbfd4d2425e735bac9d449223d7dff83c"
    "af33aa450912b2f3fb124e9271237441af437a56b4e877edf29a6a072acb58e8";
  vector_row None good_tenant 1 "response" "system" (good_payload "reply" "1" "7" eq_refl eq_refl)
    "af33aa450912b2f3fb124e9271237441af437a56b4e877edf29a6a072acb58e8"
    "f5786738e35f343867ad2699fa8fc337ec9bab85bcae4484794e827849955665"].

(** The edit of [tampered.ndjson], on the second row. *)
Definition tampered_rows : list (@AuditRow text_number) :=
  take 1 good_rows ++
  [vector_row None good_tenant 1 "response" "system" (good_payload "tampered" "1" "9999" eq_refl eq_refl)
    "af33aa450912b2f3fb124e9271237441af437a56b4e877edf29a6a072acb58e8"
    "f5786738e35f343867ad2699fa8fc337ec9bab85bcae4484794e827849955665"].

(** The verifier on these instances. *)
Definition demo_verify (rows : list (@AuditRow text_number)) (anchors : list AnchorRecord)
    (opts : VerifyOptions) : VerifyReport :=
  @verify_records fips_sha256 text_number (table_serde []) demo_crypto
    (empty_labeled []) rows anchors opts.

Example boundary_vector_chains :
  let report := demo_verify boundary_rows [] default_options in
  hash_chain_valid report = true ∧ errors report = [] ∧ verdict_of report = ChainOnly.
Proof. vm_compute. auto. Qed.

(** Interleaved tenants verify independently. *)
Example good_vector_chains :
  let rows := match good_rows, boundary_rows with
              | [a; b], [c; d] => [a; c; d; b]
              | _, _ => []
              end in
  let report := demo_verify rows [] default_options in
  rows_seen report = 4%Z ∧ hash_chain_valid report = true ∧ errors report = [].
Proof. vm_compute. auto. Qed.

Example tampered_vector_fails :
  let report := demo_verify tampered_rows [] default_options in
  hash_chain_valid report = false ∧ verdict_of report = Fail ∧
  errors report = [{| ve_seq := Some 1%Z; ve_kind := "row_hash_mismatch" |}].
Proof. vm_compute. auto. Qed.

(** ** An anchored ledger

    The two rows of [boundary_rows] as one batch: attested by a workspace key,
    entered in a three-entry log, under a checkpoint of the pinned log key. *)

Definition ws_key : bytes := replicate 32 x11.
Definition platform_key : bytes := replicate 32 x22.

Definition demo_options : VerifyOptions := {|
  format_version := V2; offline := false; rekor_url := []; rekor_timeout_secs := 10;
  pinned_pubkey := None; tenant_pubkey := Some ws_key; platform_pubkeys := [platform_key];
  workspace_key_since_seq := None;
|}.

Definition demo_spki : bytes := replicate 26 x00 ++ x04 :: replicate 64 x02.
Definition demo_url : bytes := lit "https://log2025-1.rekor.sigstore.dev".

(** The entry body, as an opaque text that the table parses to the entry. *)
Definition demo_body : bytes := lit "canonicalized-entry".

Definition demo_entry (root : bytes) : TValue :=
  let digest := Fips.digest (anchor_artifact root) in
  let str b := (String b : TValue) in
  Object [(lit "spec", Object [(lit "hashedRekordV002", Object [
    (lit "data", Object [(lit "digest", str (b64_encode digest))]);
    (lit "signature", Object [
      (lit "content", str (b64_encode (demo_sign (drop 26 demo_spki) digest)));
      (lit "verifier", Object [
        (lit "keyDetails", str (lit "PKIX_ECDSA_P256_SHA_256"));
        (lit "publicKey", Object [(lit "rawBytes", str (b64_encode demo_spki))])])])])])].

Definition demo_log : list bytes := [lit "first"; demo_body; lit "third"].

Definition demo_checkpoint : bytes :=
  let body := LOG_HOST ++ [newline] ++ lit "3" ++ [newline] ++
              b64_encode (@mth fips_sha256 demo_log) ++ [newline] in
  let token := b64_encode (@log_key_hint fips_sha256 ++ demo_sign log_ed25519_pubkey body) in
  body ++ [newline] ++ em_dash_space ++ LOG_HOST ++ [space] ++ token ++ [newline].

Definition demo_rekor : RekorBlock := {|
  rk_log_url := demo_url; rk_log_index := lit "77"; rk_canonicalized_body := b64_encode demo_body;
  rk_inclusion_proof := {| ip_log_index := lit "1"; ip_tree_size := lit "3";
    ip_hashes := b64_encode <$> @path fips_sha256 (@leaf_hash fips_sha256) 1 demo_log |};
  rk_checkpoint_envelope := demo_checkpoint;
|}.

Definition demo_root (rows : list (@AuditRow text_number)) : bytes :=
  @merkle_root_v2 fips_sha256 ((λ r, default [] (ok (hex_decode_32 (row_row_hash r)))) <$> rows).

(** The anchor record of a batch of consecutive rows of one tenant. *)
Definition demo_anchor (tenant : string) (key : bytes) (start last : Z) (anchored : bool)
    (rows : list (@AuditRow text_number)) : AnchorRecord :=
  let root := demo_root rows in
  let commitment := @anchor_commitment fips_sha256
    (if anchored then Some (demo_spki, demo_url, 77%Z) else None) in
  {| an_tenant_id := lit tenant; an_batch_start_seq := start; an_batch_end_seq := last;
     an_merkle_root := hex_encode root;
     an_anchor_state := if anchored then lit "anchored" else lit "signed";
     an_ed25519 := {| ed_signature := b64_encode (demo_sign key (local_attest_msg root commitment));
                      ed_pubkey := b64_encode key |};
     an_rekor := if anchored then Some demo_rekor else None |}.

Definition demo_serde : @SerdeJson text_number :=
  table_serde [(demo_body, demo_entry (demo_root boundary_rows))].

Definition boundary_anchor : AnchorRecord := demo_anchor boundary_tenant ws_key 0 1 true boundary_rows.

Definition anchored_report (rows : list (@AuditRow text_number)) (anchors : list AnchorRecord)
    (opts : VerifyOptions) : VerifyReport :=
  @verify_records fips_sha256 text_number demo_serde demo_crypto (empty_labeled []) rows anchors opts.

(** It passes; without the key it does not; with the bundle stripped it does not. *)
Example anchored_ledger_passes :
  verdict_of (anchored_report boundary_rows [boundary_anchor] demo_options) = Pass.
Proof. vm_compute. reflexivity. Qed.

Example anchored_ledger_without_key :
  let report := anchored_report boundary_rows [boundary_anchor] default_options in
  verdict_of report = Fail ∧ anchors_unverified report = 1%Z.
Proof. vm_compute. auto. Qed.

Example stripped_ledger_fails :
  let stripped := {| an_tenant_id := lit boundary_tenant; an_batch_start_seq := 0; an_batch_end_seq := 1;
    an_merkle_root := an_merkle_root boundary_anchor; an_anchor_state := lit "anchored";
    an_ed25519 := an_ed25519 boundary_anchor; an_rekor := None |} in
  let report := anchored_report boundary_rows [stripped] demo_options in
  strip_detected report = true ∧ verdict_of report = Fail.
Proof. vm_compute. auto. Qed.
