(* ===== verification/ChainProofs.v ===== *)
(** * The hash-chain pass: what [hash_chain_valid] means

    The pass folds over interleaved rows of many tenants with one state map.  The
    specification is per tenant: the rows in scope, in order, form a chain
    ([chained]) that starts at the tenant's root.  The theorems: the flag is true
    exactly when every rooted tenant's rows chain; two accepted ledgers with the
    same tip are the same ledger; a window is trusted only when it is rooted. *)

From Stdlib Require Import ZArith Lia.
From stdpp Require Import base list option strings sorting.
From S2P Require Import Prelude BTree Encoding Hash Merkle Json AuditFormat AuditVerifier Instances.

Section chain.
Context `{Sha256Fn} `{JsonNumber} `{!SerdeJson} `{!Crypto}.

Implicit Types (rows : list AuditRow) (row : AuditRow) (opts : VerifyOptions).

(** ** Specification *)

(** The root of tenant [t]: genesis if its row 0 is present, else the earliest
    included anchor. *)
Definition scope_start (included : BTreeMap.t Z) rows (t : bytes) : option Z :=
  if bool_decide (Exists (λ r, row_tenant_id r = t ∧ row_seq r = 0%Z) rows) then Some 0%Z
  else BTreeMap.get t included.

Definition in_scope (t : bytes) (start : Z) rows : list AuditRow :=
  filter (λ r, row_tenant_id r = t ∧ (start ≤ row_seq r)%Z) rows.

Definition family opts row : bool := is_v2_family (resolve_format row (format_version opts)).

(** [rows] continue the chain that expects number [seq] and previous hash [prev]. *)
Inductive chained opts (uuid : bytes) : Z → bytes → list AuditRow → Prop :=
  | chained_nil seq prev : chained opts uuid seq prev []
  | chained_cons seq prev row rows canon stored :
      row_seq row = seq →
      prev_hash_ok (family opts row) prev row = true →
      row_canon (resolve_format row (format_version opts)) row = Some canon →
      hex_decode_32 (row_row_hash row) = Ok stored →
      recompute_row_hash (family opts row) prev uuid row canon = stored →
      chained opts uuid (succ64 seq) stored rows →
      chained opts uuid seq prev (row :: rows).

(** The rows of a tenant chain from the state reached so far, or from its root. *)
Definition valid_from opts (start : Z) (st : option (Z * bytes)) rows : Prop :=
  match rows with
  | [] => True
  | row :: _ =>
      ∃ uuid, uuid_str_to_bytes (row_tenant_id row) = Ok uuid ∧
        let '(seq, prev) := default (initial_entry start (family opts row) uuid row) st in
        chained opts uuid seq prev rows
  end.

(** ** The report's fields under updates *)

Lemma hcv_fail_chain s k (r : VerifyReport) : hash_chain_valid (fail_chain s k r) = false.
Proof. by destruct r. Qed.

Lemma hcv_when b s k (r : VerifyReport) :
  hash_chain_valid (when b (fail_chain s k) r) = negb b && hash_chain_valid r.
Proof. destruct b; simpl; [apply hcv_fail_chain|done]. Qed.

Lemma hcv_set_verified_from x (r : VerifyReport) :
  hash_chain_valid (set_verified_from x r) = hash_chain_valid r.
Proof. by destruct r. Qed.

(** ** One row *)

(** The chain state after a row that passes every check. *)
Definition row_next opts (start : Z) (st : option (Z * bytes)) row : option (Z * bytes) :=
  match uuid_str_to_bytes (row_tenant_id row) with
  | Err _ => None
  | Ok uuid =>
      let '(seq, prev) := default (initial_entry start (family opts row) uuid row) st in
      match row_canon (resolve_format row (format_version opts)) row, hex_decode_32 (row_row_hash row) with
      | Some canon, Ok stored =>
          if (row_seq row =? seq)%Z && prev_hash_ok (family opts row) prev row &&
             bool_decide (recompute_row_hash (family opts row) prev uuid row canon = stored)
          then Some (succ64 (row_seq row), stored) else None
      | _, _ => None
      end
  end.

Lemma chain_row_in_scope_other opts start report ts row t :
  t ≠ row_tenant_id row →
  BTreeMap.get t (chain_row_in_scope opts start (report, ts) row).2 = BTreeMap.get t ts.
Proof.
  intros Ht. unfold chain_row_in_scope.
  destruct (uuid_str_to_bytes _) as [uuid|]; [|done].
  destruct (BTreeMap.get (row_tenant_id row) ts) as [[es ep]|]; simpl.
  - destruct (hex_decode_32 _); simpl; [by rewrite BTreeMap.get_insert_ne|done].
  - destruct (initial_entry _ _ _ _) as [es ep]. simpl.
    destruct (hex_decode_32 _); simpl; by rewrite !BTreeMap.get_insert_ne.
Qed.

Lemma chain_row_in_scope_same opts start report ts row :
  let res := chain_row_in_scope opts start (report, ts) row in
  match row_next opts start (BTreeMap.get (row_tenant_id row) ts) row with
  | Some st =>
      hash_chain_valid res.1 = hash_chain_valid report ∧
      BTreeMap.get (row_tenant_id row) res.2 = Some st
  | None => hash_chain_valid res.1 = false
  end.
Proof.
  unfold chain_row_in_scope, row_next, family.
  destruct (uuid_str_to_bytes _) as [uuid|]; [|apply hcv_fail_chain].
  set (fmt := resolve_format row (format_version opts)).
  destruct (BTreeMap.get (row_tenant_id row) ts) as [[es ep]|] eqn:Eg; simpl;
    [|destruct (initial_entry _ _ _ _) as [es ep]; simpl].
  all: destruct (row_canon fmt row) as [canon|] eqn:Ec, (hex_decode_32 (row_row_hash row)) as [stored|] eqn:Eh;
    simpl; rewrite ?hcv_fail_chain, ?hcv_when; try done.
  all: destruct (row_seq row =? es)%Z, (prev_hash_ok (is_v2_family fmt) ep row); simpl;
    rewrite ?andb_false_r; try done.
  all: case_bool_decide; simpl; rewrite ?BTreeMap.get_insert_eq; auto.
Qed.

(** A row passes exactly when it extends the chain. *)
Lemma valid_from_cons opts start st row rows :
  Forall (λ r, row_tenant_id r = row_tenant_id row) rows →
  valid_from opts start st (row :: rows) ↔
  ∃ st', row_next opts start st row = Some st' ∧ valid_from opts start (Some st') rows.
Proof.
  intros Hall. unfold valid_from at 1, row_next. split.
  - intros (uuid & Eu & Hc). rewrite Eu. destruct (default _ st) as [seq prev].
    inversion Hc as [|? ? ? ? canon stored Es Ep Ec Eh Er Hrest]; subst seq.
    rewrite Ec, Eh, Ep, Z.eqb_refl, (bool_decide_true _ Er). simpl.
    eexists. split; [done|]. destruct Hall as [|row2 rows E2 _]; [done|].
    exists uuid. by rewrite E2.
  - intros (st' & En & Hv). destruct (uuid_str_to_bytes _) as [uuid|] eqn:Eu; [|done].
    exists uuid. split; [done|]. destruct (default _ st) as [seq prev].
    destruct (row_canon _ _) as [canon|] eqn:Ec; [|done].
    destruct (hex_decode_32 _) as [stored|] eqn:Eh; [|done].
    destruct (_ && _ && _) eqn:Eb; [|done]. simplify_eq. breflect.
    econstructor; try done. destruct Hall as [|row2 rows E2 _]; [constructor|].
    destruct Hv as (uuid' & Eu' & Hv). rewrite E2, Eu in Eu'. injection Eu' as <-. subst seq. exact Hv.
Qed.

(** ** All rows *)

Lemma chain_fold_false opts starts rows st :
  hash_chain_valid st.1 = false →
  hash_chain_valid (fold_left (chain_row opts starts) rows st).1 = false.
Proof.
  revert st. induction rows as [|row rows IH]; intros [report ts] Hst; [done|].
  cbn [fold_left]. apply IH. unfold chain_row. repeat case_match; try done.
  pose proof (chain_row_in_scope_same opts z report ts row) as Hs. simpl in *.
  destruct (row_next _ _ _ _); [|done]. destruct Hs as [-> _]. done.
Qed.

Lemma in_scope_cons t start row rows :
  in_scope t start (row :: rows) =
  if decide (row_tenant_id row = t ∧ (start ≤ row_seq row)%Z)
  then row :: in_scope t start rows else in_scope t start rows.
Proof. unfold in_scope. by rewrite filter_cons. Qed.

Lemma in_scope_tenant t start rows : Forall (λ r, row_tenant_id r = t) (in_scope t start rows).
Proof. apply Forall_forall. intros r. unfold in_scope. rewrite list_elem_of_filter. tauto. Qed.

(** Every rooted tenant chains from the states [ts]. *)
Definition all_valid opts (starts : BTreeMap.t (option Z)) (ts : BTreeMap.t (Z * bytes)) rows : Prop :=
  ∀ t start, BTreeMap.get t starts = Some (Some start) →
    valid_from opts start (BTreeMap.get t ts) (in_scope t start rows).

Lemma all_valid_skip opts starts ts row rows :
  (∀ start, BTreeMap.get (row_tenant_id row) starts = Some (Some start) → (row_seq row < start)%Z) →
  all_valid opts starts ts (row :: rows) ↔ all_valid opts starts ts rows.
Proof.
  intros Hskip. unfold all_valid. apply forall_proper. intros t. apply forall_proper. intros s.
  split; intros Ht Hs; specialize (Ht Hs); rewrite in_scope_cons in *;
    case_decide as Hd; try done; destruct Hd as [<- ?]; apply Hskip in Hs; lia.
Qed.

Lemma all_valid_step opts starts ts ts' start row rows st' :
  BTreeMap.get (row_tenant_id row) starts = Some (Some start) → (start ≤ row_seq row)%Z →
  row_next opts start (BTreeMap.get (row_tenant_id row) ts) row = Some st' →
  BTreeMap.get (row_tenant_id row) ts' = Some st' →
  (∀ t, t ≠ row_tenant_id row → BTreeMap.get t ts' = BTreeMap.get t ts) →
  all_valid opts starts ts (row :: rows) ↔ all_valid opts starts ts' rows.
Proof.
  intros Es Hle En Hg Hother. split; intros Ht t s Hs.
  - specialize (Ht _ _ Hs). rewrite in_scope_cons in Ht.
    destruct (decide (t = row_tenant_id row)) as [->|Hne].
    + simplify_eq. rewrite decide_True in Ht by done.
      apply valid_from_cons in Ht as (st2 & E2 & Ht); [|apply in_scope_tenant]. rewrite Hg. congruence.
    + rewrite decide_False in Ht by (intros [? _]; done). by rewrite Hother.
  - specialize (Ht _ _ Hs). rewrite in_scope_cons.
    destruct (decide (t = row_tenant_id row)) as [->|Hne].
    + simplify_eq. rewrite decide_True by done. apply valid_from_cons; [apply in_scope_tenant|].
      exists st'. split; [done|]. by rewrite <- Hg.
    + rewrite decide_False by (intros [? _]; done). by rewrite <- Hother.
Qed.

Lemma all_valid_stop opts starts ts start row rows :
  BTreeMap.get (row_tenant_id row) starts = Some (Some start) → (start ≤ row_seq row)%Z →
  row_next opts start (BTreeMap.get (row_tenant_id row) ts) row = None →
  ¬ all_valid opts starts ts (row :: rows).
Proof.
  intros Es Hle En Ht. specialize (Ht _ _ Es). rewrite in_scope_cons, decide_True in Ht by done.
  apply valid_from_cons in Ht as (st2 & E2 & _); [congruence|apply in_scope_tenant].
Qed.

Lemma chain_fold opts starts rows report ts :
  hash_chain_valid (fold_left (chain_row opts starts) rows (report, ts)).1 = true ↔
  hash_chain_valid report = true ∧ all_valid opts starts ts rows.
Proof.
  revert report ts. induction rows as [|row rows IH]; intros report ts.
  { simpl. unfold all_valid. naive_solver. }
  cbn [fold_left]. unfold chain_row at 2.
  destruct (BTreeMap.get (row_tenant_id row) starts) as [[start|]|] eqn:Es.
  2,3: rewrite IH, all_valid_skip; [done|by rewrite Es].
  destruct (Z.leb_spec start (row_seq row)) as [Hle|Hlt].
  2: { rewrite IH, all_valid_skip; [done|]. rewrite Es. by intros ? [= <-]. }
  pose proof (chain_row_in_scope_same opts start report ts row) as Hsame.
  pose proof (chain_row_in_scope_other opts start report ts row) as Hother.
  destruct (chain_row_in_scope opts start (report, ts) row) as [report' ts']. simpl in *.
  destruct (row_next _ _ _ _) as [st'|] eqn:En.
  - destruct Hsame as [Hv Hg]. rewrite IH, Hv. by rewrite (all_valid_step _ _ ts ts').
  - rewrite chain_fold_false by done. split; [done|]. intros [_ Ht].
    by eapply all_valid_stop in Ht.
Qed.

(** ** Roots *)

Lemma min_seq_sorted rows : BTreeMap.sorted (min_seq_by_tenant rows).
Proof.
  apply BTreeMap.fold_sorted; [|constructor]. intros m x. apply BTreeMap.upsert_sorted.
Qed.

Lemma min_seq_spec rows t :
  match BTreeMap.get t (min_seq_by_tenant rows) with
  | Some x => Exists (λ r, row_tenant_id r = t ∧ row_seq r = x) rows ∧
              Forall (λ r, row_tenant_id r = t → (x ≤ row_seq r)%Z) rows
  | None => Forall (λ r, row_tenant_id r ≠ t) rows
  end.
Proof.
  unfold min_seq_by_tenant. induction rows as [|row rows IH] using rev_ind; [simpl; constructor|].
  rewrite fold_left_app. cbn [fold_left]. rewrite BTreeMap.get_upsert.
  case_decide as Ht; [subst t|].
  - destruct (BTreeMap.get _ _) as [x|].
    + destruct IH as [He Hf]. rewrite Exists_app, Forall_app, Exists_cons, Forall_singleton. split.
      * destruct (Z.min_spec x (row_seq row)) as [[_ ->]|[_ ->]]; tauto.
      * split; [|intros; lia]. eapply Forall_impl; [exact Hf|]. intros r Hr Et. specialize (Hr Et). lia.
    + rewrite Exists_app, Forall_app, Exists_cons, Forall_singleton. split; [tauto|].
      split; [|lia]. eapply Forall_impl; [exact IH|]. by intros r Hr Et.
  - destruct (BTreeMap.get _ _) as [x|].
    + destruct IH as [He Hf]. rewrite Exists_app, Forall_app, Forall_singleton. naive_solver.
    + rewrite Forall_app, Forall_singleton. naive_solver.
Qed.

Lemma root_tenants_starts included rows report t :
  let '(_, starts, _) := root_tenants included rows report in
  BTreeMap.get t starts = tenant_start included t <$> BTreeMap.get t (min_seq_by_tenant rows).
Proof.
  unfold root_tenants. assert (∀ m r acc ag,
    (fold_left (root_tenant included) m (r, acc, ag)).1.2 =
    fold_left (λ acc kv, BTreeMap.insert kv.1 (tenant_start included kv.1 kv.2) acc) m acc) as E.
  { induction m as [|[k v] m IH]; intros r acc ag; [done|]. cbn [fold_left root_tenant].
    destruct (tenant_start included k v) eqn:Ek; rewrite IH; cbn [fst snd]; by rewrite Ek. }
  specialize (E (min_seq_by_tenant rows) report [] None).
  destruct (fold_left _ _ _) as [[r starts] ag]. simpl in E. subst starts.
  rewrite BTreeMap.get_fold_insert by apply BTreeMap.sorted_NoDup, min_seq_sorted.
  by destruct (BTreeMap.get t _).
Qed.

(** The fields [root_tenants] touches. *)
Lemma root_tenants_report included rows report :
  let '(report', _, agg) := root_tenants included rows report in
  hash_chain_valid report' = hash_chain_valid report ∧
  trust_established report' =
    trust_established report &&
    forallb (λ kv, bool_decide (is_Some (tenant_start included kv.1 kv.2))) (min_seq_by_tenant rows) ∧
  (∀ t m s, (t, m) ∈ min_seq_by_tenant rows → tenant_start included t m = Some s →
     ∃ a, agg = Some a ∧ (s ≤ a)%Z).
Proof.
  unfold root_tenants. assert (∀ m r acc ag,
    let '(r', _, ag') := fold_left (root_tenant included) m (r, acc, ag) in
    hash_chain_valid r' = hash_chain_valid r ∧
    trust_established r' = trust_established r &&
      forallb (λ kv, bool_decide (is_Some (tenant_start included kv.1 kv.2))) m ∧
    (∀ a, ag = Some a → ∃ a', ag' = Some a' ∧ (a ≤ a')%Z) ∧
    (∀ t x s, (t, x) ∈ m → tenant_start included t x = Some s → ∃ a, ag' = Some a ∧ (s ≤ a)%Z)) as Hgen.
  { induction m as [|[k v] m IH]; intros r acc ag.
    { cbn [fold_left]. rewrite andb_true_r. split_and!; [done|done|naive_solver|set_solver]. }
    cbn [fold_left root_tenant forallb fst snd]. destruct (tenant_start included k v) as [s|] eqn:Ek.
    - set (ag1 := Some match ag with None => s | Some e => Z.max e s end).
      set (acc1 := BTreeMap.insert _ _ _).
      specialize (IH r acc1 ag1). destruct (fold_left _ _ _) as [[r' acc'] ag'].
      destruct IH as (-> & -> & Hag & Hs). simpl. split_and!; [done|done| |].
      + intros a ->. destruct (Hag _ eq_refl) as (a' & -> & Ha). exists a'. split; [done|]. lia.
      + intros t x s' [[= -> ->]|Hin]%elem_of_cons Et; [|by eapply Hs].
        simplify_eq. destruct (Hag _ eq_refl) as (a' & -> & Ha). exists a'. split; [done|].
        destruct ag; lia.
    - set (acc1 := BTreeMap.insert _ _ _). set (r1 := push_error _ _ _).
      specialize (IH r1 acc1 ag). destruct (fold_left _ _ _) as [[r' acc'] ag'].
      destruct IH as (-> & -> & Hag & Hs). subst r1. split_and!; [by destruct r|by destruct r; cbn; rewrite andb_false_r|done|].
      intros t x s' [[= -> ->]|Hin]%elem_of_cons Et; [congruence|by eapply Hs]. }
  specialize (Hgen (min_seq_by_tenant rows) report [] None).
  destruct (fold_left _ _ _) as [[r starts] ag]. naive_solver.
Qed.

Definition rows_u64 rows : Prop := Forall (λ r, is_u64 (row_seq r)) rows.

Lemma scope_start_get included rows t start :
  rows_u64 rows → Exists (λ r, row_tenant_id r = t) rows →
  scope_start included rows t = Some start ↔
  tenant_start included t <$> BTreeMap.get t (min_seq_by_tenant rows) = Some (Some start).
Proof.
  intros Hu Ht. pose proof (min_seq_spec rows t) as Hm.
  destruct (BTreeMap.get t (min_seq_by_tenant rows)) as [x|].
  - destruct Hm as [He Hf]. simpl. unfold scope_start, tenant_start.
    case_bool_decide as Hz; destruct (Z.eqb_spec x 0) as [->|Hx].
    + naive_solver.
    + exfalso. apply Exists_exists in Hz as (r & Hr & Er & E0), He as (r' & Hr' & Er' & <-).
      rewrite Forall_forall in Hf. specialize (Hf r Hr Er).
      eapply Forall_forall in Hu; [|exact Hr']. unfold is_u64 in Hu. lia.
    + done.
    + split; intros E; congruence.
  - exfalso. apply Exists_exists in Ht as (r & Hr & Er). eapply Forall_forall in Hm; done.
Qed.

Lemma in_scope_absent t start rows :
  ¬ Exists (λ r, row_tenant_id r = t) rows → in_scope t start rows = [].
Proof.
  intros Hne. destruct (in_scope t start rows) as [|r l] eqn:E; [done|]. exfalso. apply Hne.
  assert (r ∈ in_scope t start rows) as Hr by (rewrite E; left).
  unfold in_scope in Hr. apply list_elem_of_filter in Hr as [[Hr _] Hin].
  apply Exists_exists. eauto.
Qed.

Lemma verify_chain_valid opts included rows report :
  rows_u64 rows →
  hash_chain_valid (verify_chain report rows opts included) = true ↔
  hash_chain_valid report = true ∧
  ∀ t start, scope_start included rows t = Some start →
    valid_from opts start None (in_scope t start rows).
Proof.
  intros Hu. unfold verify_chain.
  pose proof (root_tenants_starts included rows report) as Hst.
  pose proof (root_tenants_report included rows report) as Hrep.
  destruct (root_tenants included rows report) as [[report' starts] agg].
  destruct Hrep as (Hv & _). rewrite chain_fold, hcv_set_verified_from, Hv. f_equiv.
  unfold all_valid. apply forall_proper. intros t. apply forall_proper. intros start.
  rewrite Hst. cbn [BTreeMap.get].
  destruct (decide (Exists (λ r, row_tenant_id r = t) rows)) as [He|He].
  - by rewrite (scope_start_get included rows t start).
  - by rewrite in_scope_absent.
Qed.

(** ** Tamper evidence *)

(** What a row says, apart from what the hash does not cover ([event_time],
    [rekor_entry_id]). *)
Definition row_content opts row : Z * bytes * bytes * option bytes :=
  (row_seq row, row_event_type row, row_actor row,
   row_canon (resolve_format row (format_version opts)) row).

(** A v2-family row whose strings have machine lengths. *)
Definition row_wf opts row : Prop :=
  family opts row = true ∧ is_u64 (row_seq row) ∧ fits (row_event_type row) ∧ fits (row_actor row) ∧
  fits (default [] (row_canon (resolve_format row (format_version opts)) row)).

Definition stored_hash row : bytes := default [] (ok (hex_decode_32 (row_row_hash row))).

(** The hash the next row has to name. *)
Definition chain_tip (prev : bytes) rows : bytes := from_option stored_hash prev (last rows).

(** The strings hashed for [rows]. *)
Fixpoint chain_preimages opts (uuid prev : bytes) rows : list bytes :=
  match rows with
  | [] => []
  | row :: rows' =>
      row_preimage_v2 prev uuid (row_seq row) (row_event_type row) (row_actor row)
        (default [] (row_canon (resolve_format row (format_version opts)) row))
      :: chain_preimages opts uuid (stored_hash row) rows'
  end.

Lemma chain_tip_cons prev row rows : chain_tip prev (row :: rows) = chain_tip (stored_hash row) rows.
Proof. unfold chain_tip. rewrite last_cons. by destruct (last rows). Qed.

Lemma chain_tip_snoc prev rows row : chain_tip prev (rows ++ [row]) = stored_hash row.
Proof. unfold chain_tip. by rewrite last_snoc. Qed.

Lemma chained_snoc opts uuid seq prev rows row :
  chained opts uuid seq prev (rows ++ [row]) →
  chained opts uuid seq prev rows ∧ ∃ seq', chained opts uuid seq' (chain_tip prev rows) [row].
Proof.
  revert seq prev. induction rows as [|r rows IH]; intros seq prev Hc.
  - split; [constructor|]. by exists seq.
  - inversion Hc as [|? ? ? ? canon stored Es Ep Ec Eh Er Hrest]. clear Hc.
    apply IH in Hrest as [Hrest (seq' & Hlast)]. split; [by econstructor|].
    exists seq'. rewrite chain_tip_cons. unfold stored_hash. by rewrite Eh.
Qed.

Lemma chain_preimages_snoc opts uuid prev rows row :
  chain_preimages opts uuid prev (rows ++ [row]) =
  chain_preimages opts uuid prev rows ++ chain_preimages opts uuid (chain_tip prev rows) [row].
Proof.
  revert prev. induction rows as [|r rows IH]; intros prev; [done|].
  cbn [app chain_preimages]. by rewrite IH, chain_tip_cons.
Qed.

Lemma chained_last opts uuid seq prev row :
  row_wf opts row → chained opts uuid seq prev [row] →
  ∃ canon, row_canon (resolve_format row (format_version opts)) row = Some canon ∧
    stored_hash row =
    row_hash_v2 prev uuid (row_seq row) (row_event_type row) (row_actor row) canon.
Proof.
  intros (Hf & _) Hc. inversion Hc as [|? ? ? ? canon stored Es Ep Ec Eh Er _]. subst.
  exists canon. split; [done|]. unfold stored_hash. rewrite Eh. simpl.
  unfold recompute_row_hash. by rewrite Hf.
Qed.

Lemma chain_tip_length opts uuid seq prev rows :
  length prev = 32%nat → chained opts uuid seq prev rows → length (chain_tip prev rows) = 32%nat.
Proof.
  intros Hp Hc. revert Hp. induction Hc as [|? ? row rows canon stored Es Ep Ec Eh Er Hrest IH];
    intros Hp; [done|].
  rewrite chain_tip_cons. unfold stored_hash. rewrite Eh. apply IH.
  by apply hex_decode_32_length in Eh.
Qed.

(** A row's hash is not the genesis seed. *)
Lemma chained_not_genesis opts uuid seq prev row :
  row_wf opts row → chained opts uuid seq prev [row] →
  collision_free (genesis_preimage uuid :: chain_preimages opts uuid prev [row]) →
  stored_hash row ≠ genesis_v2 uuid.
Proof.
  intros Hw Hc Hcf E. destruct (chained_last _ _ _ _ _ Hw Hc) as (canon & Ec & Eh).
  rewrite Eh in E. cbn [chain_preimages] in Hcf. rewrite Ec in Hcf. simpl in Hcf.
  apply Hcf in E; [by apply row_preimage_not_genesis in E|rewrite !elem_of_cons; auto..].
Qed.

(** Two last rows with the same hash agree, and so do the tips before them. *)
Lemma chained_last_inj opts uuid s1 s2 p1 p2 row1 row2 :
  length uuid = 16%nat → length p1 = 32%nat → length p2 = 32%nat →
  row_wf opts row1 → row_wf opts row2 →
  chained opts uuid s1 p1 [row1] → chained opts uuid s2 p2 [row2] →
  collision_free (chain_preimages opts uuid p1 [row1] ++ chain_preimages opts uuid p2 [row2]) →
  stored_hash row1 = stored_hash row2 →
  p1 = p2 ∧ row_content opts row1 = row_content opts row2.
Proof.
  intros Hu Hp1 Hp2 Hw1 Hw2 Hc1 Hc2 Hcf E.
  destruct (chained_last _ _ _ _ _ Hw1 Hc1) as (canon1 & Ec1 & Eh1).
  destruct (chained_last _ _ _ _ _ Hw2 Hc2) as (canon2 & Ec2 & Eh2).
  rewrite Eh1, Eh2 in E. cbn [chain_preimages] in Hcf. rewrite Ec1, Ec2 in Hcf. simpl in Hcf.
  apply Hcf in E; [|rewrite !elem_of_cons; auto..].
  destruct Hw1 as (_ & ? & ? & ? & Hj1), Hw2 as (_ & ? & ? & ? & Hj2).
  rewrite Ec1 in Hj1. rewrite Ec2 in Hj2. simpl in Hj1, Hj2.
  apply row_preimage_v2_inj in E; [|repeat constructor; auto using fits_16, fits_32..|done|done].
  injection E as -> E1 E2 E3 E4. unfold row_content. rewrite Ec1, Ec2. by rewrite E1, E2, E3, E4.
Qed.

(** Chains from the same genesis with the same tip have the same content. *)
Lemma chained_tip_inj opts uuid rows1 rows2 s1 s2 :
  length uuid = 16%nat →
  Forall (row_wf opts) rows1 → Forall (row_wf opts) rows2 →
  collision_free (genesis_preimage uuid ::
    chain_preimages opts uuid (genesis_v2 uuid) rows1 ++ chain_preimages opts uuid (genesis_v2 uuid) rows2) →
  chained opts uuid s1 (genesis_v2 uuid) rows1 → chained opts uuid s2 (genesis_v2 uuid) rows2 →
  chain_tip (genesis_v2 uuid) rows1 = chain_tip (genesis_v2 uuid) rows2 →
  row_content opts <$> rows1 = row_content opts <$> rows2.
Proof.
  intros Hu. revert rows2. pose proof (genesis_v2_length uuid) as Hg.
  induction rows1 as [|row1 rows1 IH] using rev_ind; intros rows2;
    (destruct rows2 as [|row2 rows2 _] using rev_ind); intros Hw1 Hw2 Hcf Hc1 Hc2 Et.
  - done.
  - exfalso. rewrite chain_tip_snoc in Et. apply Forall_app in Hw2 as [_ Hw2%Forall_inv].
    apply chained_snoc in Hc2 as [_ (s' & Hc2)]. symmetry in Et. revert Et.
    apply (chained_not_genesis opts uuid s' _ row2 Hw2 Hc2). eapply collision_free_mono; [|done].
    rewrite chain_preimages_snoc. intros x. rewrite !elem_of_cons, !elem_of_app. tauto.
  - exfalso. rewrite chain_tip_snoc in Et. apply Forall_app in Hw1 as [_ Hw1%Forall_inv].
    apply chained_snoc in Hc1 as [_ (s' & Hc1)]. revert Et.
    apply (chained_not_genesis opts uuid s' _ row1 Hw1 Hc1). eapply collision_free_mono; [|done].
    rewrite chain_preimages_snoc. intros x. rewrite !elem_of_cons, !elem_of_app. tauto.
  - rewrite !chain_tip_snoc in Et. apply Forall_app in Hw1 as [Hw1 Hl1%Forall_inv].
    apply Forall_app in Hw2 as [Hw2 Hl2%Forall_inv].
    apply chained_snoc in Hc1 as [Hc1 (s1' & Hr1)], Hc2 as [Hc2 (s2' & Hr2)].
    rewrite !chain_preimages_snoc in Hcf.
    destruct (chained_last_inj opts uuid s1' s2' _ _ row1 row2 Hu
      (chain_tip_length _ _ _ _ _ Hg Hc1) (chain_tip_length _ _ _ _ _ Hg Hc2) Hl1 Hl2 Hr1 Hr2) as [Ep Ec];
      [|done|].
    { eapply collision_free_mono; [|done]. intros x. rewrite !elem_of_cons, !elem_of_app. tauto. }
    rewrite !fmap_app. simpl. rewrite Ec. f_equal. apply IH; try done.
    eapply collision_free_mono; [|done]. intros x. rewrite !elem_of_cons, !elem_of_app. tauto.
Qed.

(** ** The properties *)

(** C5. Exactly what the chain pass accepts: with several tenants' rows
    interleaved in any order, the flag stays true if and only if it was true and,
    for every tenant whose chain has a root (its row 0, or its earliest publicly
    included anchor), the rows from the root on carry consecutive numbers, name
    the previous row's hash, and hash to their own [row_hash].  One bad row of one
    tenant clears the flag for good. *)
Theorem verify_chain_valid_iff opts included rows report :
  rows_u64 rows →
  hash_chain_valid (verify_chain report rows opts included) = true ↔
  hash_chain_valid report = true ∧
  ∀ t start, scope_start included rows t = Some start →
    valid_from opts start None (in_scope t start rows).
Proof. apply verify_chain_valid. Qed.

(** The strings hashed to replay tenant [t] from genesis. *)
Definition ledger_preimages opts (t : bytes) rows : list bytes :=
  match uuid_str_to_bytes t with
  | Ok uuid => genesis_preimage uuid :: chain_preimages opts uuid (genesis_v2 uuid) (in_scope t 0 rows)
  | Err _ => []
  end.

Lemma valid_from_genesis opts t rows :
  Forall (row_wf opts) (in_scope t 0 rows) → in_scope t 0 rows ≠ [] →
  valid_from opts 0 None (in_scope t 0 rows) →
  ∃ uuid, uuid_str_to_bytes t = Ok uuid ∧ chained opts uuid 0 (genesis_v2 uuid) (in_scope t 0 rows).
Proof.
  intros Hw Hne Hv. pose proof (in_scope_tenant t 0 rows) as Ht.
  destruct (in_scope t 0 rows) as [|row l]; [done|]. destruct Hv as (uuid & Eu & Hc).
  apply Forall_cons in Hw as [[Hf _] _], Ht as [<- _]. exists uuid. split; [done|].
  cbn [default] in Hc. unfold initial_entry in Hc. rewrite Z.eqb_refl, Hf in Hc. exact Hc.
Qed.

Lemma scope_start_genesis included rows t :
  Exists (λ r, row_tenant_id r = t ∧ row_seq r = 0%Z) rows →
  scope_start included rows t = Some 0%Z ∧ in_scope t 0 rows ≠ [].
Proof.
  intros He. unfold scope_start. rewrite bool_decide_true by done. split; [done|].
  apply Exists_exists in He as (r & Hr & Er & E0). intros E.
  assert (r ∈ in_scope t 0 rows) as Hin.
  { unfold in_scope. apply list_elem_of_filter. split; [|done]. split; [done|]. lia. }
  rewrite E in Hin. by apply not_elem_of_nil in Hin.
Qed.

(** C2. Tamper evidence: two ledgers that both verify, both hold tenant [t] from
    its row 0 in the v2 formats, and end in the same row hash, have the same rows
    for [t]: the same number of them, and in each place the same sequence number,
    event type, actor and payload text, unless two of the strings hashed in the
    two replays collide.  So a published tip (or an anchor over it) fixes the
    whole history. *)
Theorem chain_tamper_evidence opts t included1 included2 report1 report2 rows1 rows2 :
  rows_u64 rows1 → rows_u64 rows2 →
  hash_chain_valid (verify_chain report1 rows1 opts included1) = true →
  hash_chain_valid (verify_chain report2 rows2 opts included2) = true →
  Exists (λ r, row_tenant_id r = t ∧ row_seq r = 0%Z) rows1 →
  Exists (λ r, row_tenant_id r = t ∧ row_seq r = 0%Z) rows2 →
  Forall (row_wf opts) (in_scope t 0 rows1) → Forall (row_wf opts) (in_scope t 0 rows2) →
  collision_free (ledger_preimages opts t rows1 ++ ledger_preimages opts t rows2) →
  chain_tip [] (in_scope t 0 rows1) = chain_tip [] (in_scope t 0 rows2) →
  row_content opts <$> in_scope t 0 rows1 = row_content opts <$> in_scope t 0 rows2.
Proof.
  intros Hu1 Hu2 Hv1 Hv2 He1 He2 Hw1 Hw2 Hcf Et.
  apply verify_chain_valid in Hv1 as [_ Hv1]; [|done]. apply verify_chain_valid in Hv2 as [_ Hv2]; [|done].
  apply (scope_start_genesis included1) in He1 as [Hs1 Hn1].
  apply (scope_start_genesis included2) in He2 as [Hs2 Hn2].
  destruct (valid_from_genesis opts t rows1) as (uuid & Eu & Hc1); auto.
  destruct (valid_from_genesis opts t rows2) as (uuid' & Eu' & Hc2); auto.
  rewrite Eu in Eu'. injection Eu' as <-. unfold ledger_preimages in Hcf. rewrite Eu in Hcf.
  eapply (chained_tip_inj opts uuid _ _ 0 0); try done.
  - by apply uuid_str_to_bytes_length in Eu.
  - eapply collision_free_mono; [|done]. intros x. rewrite !elem_of_cons, !elem_of_app, !elem_of_cons. tauto.
  - unfold chain_tip in *. destruct (in_scope t 0 rows1) using rev_ind; [done|].
    destruct (in_scope t 0 rows2) using rev_ind; [done|]. by rewrite !last_snoc in *.
Qed.

(** What the row loop leaves alone: everything but the flag and the errors. *)
Definition chain_frame '(mkReport a b c d e f g h i j k l m n o p) : VerifyReport :=
  mkReport a b true d e f g h i j k l m n o [].

Lemma chain_frame_fail s k (r : VerifyReport) : chain_frame (fail_chain s k r) = chain_frame r.
Proof. by destruct r. Qed.

Lemma chain_frame_when b s k (r : VerifyReport) : chain_frame (when b (fail_chain s k) r) = chain_frame r.
Proof. destruct b; [apply chain_frame_fail|done]. Qed.

Lemma chain_frame_row opts starts st row :
  chain_frame (chain_row opts starts st row).1 = chain_frame st.1.
Proof.
  destruct st as [report ts]. unfold chain_row, chain_row_in_scope.
  repeat case_match; simplify_eq; simpl; by rewrite ?chain_frame_fail, ?chain_frame_when.
Qed.

Lemma chain_frame_rows opts starts rows st :
  chain_frame (fold_left (chain_row opts starts) rows st).1 = chain_frame st.1.
Proof.
  revert st. induction rows as [|row rows IH]; intros st; [done|].
  cbn [fold_left]. by rewrite IH, chain_frame_row.
Qed.

Lemma trust_frame (r : VerifyReport) : trust_established (chain_frame r) = trust_established r.
Proof. by destruct r. Qed.
Lemma verified_from_frame (r : VerifyReport) : verified_from_seq (chain_frame r) = verified_from_seq r.
Proof. by destruct r. Qed.

Lemma verify_chain_trust opts included rows report :
  trust_established (verify_chain report rows opts included) =
  trust_established report &&
  forallb (λ kv, bool_decide (is_Some (tenant_start included kv.1 kv.2))) (min_seq_by_tenant rows).
Proof.
  unfold verify_chain. pose proof (root_tenants_report included rows report) as Hrep.
  destruct (root_tenants included rows report) as [[r starts] agg]. destruct Hrep as (_ & <- & _).
  rewrite <- trust_frame, chain_frame_rows, trust_frame. by destruct r.
Qed.

Lemma verify_chain_from opts included rows report t m s :
  (t, m) ∈ min_seq_by_tenant rows → tenant_start included t m = Some s →
  (s ≤ verified_from_seq (verify_chain report rows opts included))%Z.
Proof.
  unfold verify_chain. pose proof (root_tenants_report included rows report) as Hrep.
  destruct (root_tenants included rows report) as [[r starts] agg]. destruct Hrep as (_ & _ & Hag).
  intros Hin Es. destruct (Hag _ _ _ Hin Es) as (a & -> & Ha).
  rewrite <- verified_from_frame, chain_frame_rows, verified_from_frame. by destruct r.
Qed.

(** The map of minima and the declarative root agree on the tenants present. *)
Lemma min_seq_elem rows t m :
  (t, m) ∈ min_seq_by_tenant rows ↔ BTreeMap.get t (min_seq_by_tenant rows) = Some m.
Proof. apply BTreeMap.elem_of_get, min_seq_sorted. Qed.

Lemma min_seq_present rows row :
  row ∈ rows → ∃ m, BTreeMap.get (row_tenant_id row) (min_seq_by_tenant rows) = Some m.
Proof.
  intros Hin. pose proof (min_seq_spec rows (row_tenant_id row)) as Hm.
  destruct (BTreeMap.get _ _); [eauto|]. eapply Forall_forall in Hm; done.
Qed.

Lemma scope_start_present included rows row m :
  rows_u64 rows → row ∈ rows →
  BTreeMap.get (row_tenant_id row) (min_seq_by_tenant rows) = Some m →
  scope_start included rows (row_tenant_id row) = tenant_start included (row_tenant_id row) m.
Proof.
  intros Hu Hin Em. apply option_eq. intros s.
  rewrite (scope_start_get included rows _ s), Em; [|done|apply Exists_exists; eauto].
  simpl. split; congruence.
Qed.

Lemma verify_chain_rooted opts included rows report :
  rows_u64 rows →
  trust_established (verify_chain report rows opts included) = true ↔
  trust_established report = true ∧
  ∀ row, row ∈ rows → is_Some (scope_start included rows (row_tenant_id row)).
Proof.
  intros Hu. rewrite verify_chain_trust, andb_true_iff, forallb_forall. f_equiv. split.
  - intros Hall row Hin. destruct (min_seq_present rows row Hin) as [m Em].
    rewrite (scope_start_present included rows row m) by done.
    apply min_seq_elem, list_elem_of_In, Hall in Em. by apply bool_decide_eq_true in Em.
  - intros Hall [t m] Hin%list_elem_of_In. apply bool_decide_eq_true. apply min_seq_elem in Hin.
    pose proof (min_seq_spec rows t) as Hm. rewrite Hin in Hm. destruct Hm as [He _].
    apply Exists_exists in He as (row & Hrow & Et & _). subst t. cbn [fst snd].
    rewrite <- (scope_start_present included rows row m) by done. by apply Hall.
Qed.

(** Trust in a window: the chain pass keeps [trust_established] exactly when
    every row's tenant has a root, so a window that does not contain row 0 and has
    no publicly included anchor is never trusted; and the reported
    [verified_from_seq] is at or above every tenant's root, so it never claims
    more than was verified. *)
Theorem window_trust opts included rows report :
  rows_u64 rows →
  let report' := verify_chain report rows opts included in
  (trust_established report' = true ↔
   trust_established report = true ∧
   ∀ row, row ∈ rows → is_Some (scope_start included rows (row_tenant_id row))) ∧
  (∀ row s, row ∈ rows → scope_start included rows (row_tenant_id row) = Some s →
     (s ≤ verified_from_seq report')%Z).
Proof.
  intros Hu. cbv zeta. split; [by apply verify_chain_rooted|].
  intros row s Hin Es. destruct (min_seq_present rows row Hin) as [m Em].
  rewrite (scope_start_present included rows row m) in Es by done.
  eapply verify_chain_from; [by apply min_seq_elem|done].
Qed.

End chain.

(** ** Witnesses, on the conformance vectors *)

Definition demo_chain (rows : list (@AuditRow text_number)) : VerifyReport :=
  @verify_chain fips_sha256 text_number (table_serde []) (empty_labeled []) rows default_options [].

Lemma boundary_rows_u64 : rows_u64 boundary_rows.
Proof. repeat constructor; vm_compute; discriminate. Qed.

Lemma verify_chain_valid_iff_witness :
  rows_u64 boundary_rows ∧
  @valid_from fips_sha256 text_number (table_serde []) default_options 0 None
    (in_scope (lit boundary_tenant) 0 boundary_rows).
Proof.
  split; [exact boundary_rows_u64|].
  apply (proj1 (@verify_chain_valid_iff fips_sha256 text_number (table_serde [])
    default_options [] boundary_rows (empty_labeled []) boundary_rows_u64)); vm_compute; reflexivity.
Defined.

(** The second ledger interleaves another tenant. *)
Lemma chain_tamper_evidence_witness :
  let content rows := @row_content text_number (table_serde []) default_options <$>
                        in_scope (lit boundary_tenant) 0 rows in
  content boundary_rows = content (good_rows ++ boundary_rows).
Proof.
  apply (@chain_tamper_evidence fips_sha256 text_number (table_serde []) default_options
    (lit boundary_tenant) [] [] (empty_labeled []) (empty_labeled [])
    boundary_rows (good_rows ++ boundary_rows)).
  - exact boundary_rows_u64.
  - repeat constructor; vm_compute; discriminate.
  - vm_compute. reflexivity.
  - vm_compute. reflexivity.
  - apply Exists_cons; left; split; reflexivity.
  - apply Exists_app; right; apply Exists_cons; left; split; reflexivity.
  - repeat constructor; vm_compute; discriminate.
  - repeat constructor; vm_compute; discriminate.
  - apply collision_freeb_sound. vm_compute. reflexivity.
  - reflexivity.
Defined.

Lemma window_trust_witness :
  rows_u64 (drop 1 boundary_rows) ∧
  ¬ trust_established (demo_chain (drop 1 boundary_rows)) = true.
Proof.
  assert (rows_u64 (drop 1 boundary_rows)) as Hu by (repeat constructor; vm_compute; discriminate).
  split; [exact Hu|]. intros Ht.
  destruct (proj1 (@window_trust fips_sha256 text_number (table_serde []) default_options []
    (drop 1 boundary_rows) (empty_labeled []) Hu)) as [Hw _].
  destruct (Hw Ht) as [_ Hall]. specialize (Hall _ (list_elem_of_here _ _)).
  vm_compute in Hall. by destruct Hall.
Defined.
