(* ===== verification/AnchorProofs.v ===== *)
(** * The anchor pass: what a verified anchor means

    Every anchor record falls into one of three cases ([anchor_case]): it fails
    and clears [signatures_valid], it is counted as unverified because no trusted
    key was given, or it is attested by a trusted key over the recomputed root
    ([attested]) and its Rekor entry is then checked.  From this: with the flag
    true every record is attested and every anchored one publicly included; a
    window's root comes only from the workspace key; the platform key is accepted
    only as a prefix; without a key nothing is trusted. *)

From Stdlib Require Import ZArith Lia.
From stdpp Require Import base list option strings sorting.
From S2P Require Import Prelude BTree Encoding Hash Merkle Json AuditFormat AuditVerifier Instances ChainProofs.

Section anchors.
Context `{Sha256Fn} `{JsonNumber} `{!SerdeJson} `{!Crypto}.

Implicit Types (rows : list AuditRow) (a : AnchorRecord) (opts : VerifyOptions)
  (st : AnchorState) (keys : BTreeMap.t bytes).

(** ** Specification *)

(** The attestation of [a] verified over the recomputed [root], under the
    platform's key or the workspace's; [entry] is the Rekor entry it commits to. *)
Definition attested opts keys a (root : bytes) (platform : bool) (entry : option AnchorEntry) : Prop :=
  ∃ leaves workspace key sig,
    batch_leaves keys a = Some leaves ∧ root = merkle_root_v2 leaves ∧
    hex_decode_32 (an_merkle_root a) = Ok root ∧
    tenant_pubkey opts = Some workspace ∧ base64_decode (ed_pubkey (an_ed25519 a)) = Some key ∧
    (if platform then key ≠ workspace ∧ key ∈ platform_pubkeys opts else key = workspace) ∧
    base64_decode (ed_signature (an_ed25519 a)) = Some sig ∧
    verify_ed25519_raw key (attestation root (an_rekor a) entry) sig = Ok () ∧
    match entry with
    | Some e => an_anchor_state a = lit "anchored" ∧
                ∃ rekor, an_rekor a = Some rekor ∧ extract_anchor_entry root rekor = Ok e
    | None => an_anchor_state a ≠ lit "anchored"
    end.

(** The Rekor entry's own signature and its public inclusion verified. *)
Definition publicly_included a (entry : AnchorEntry) : Prop :=
  ecdsa_p256_verify (ae_point entry) (ae_digest entry) (ae_sig entry) = true ∧
  ∃ rekor, an_rekor a = Some rekor ∧ verify_inclusion rekor = Ok ().

Inductive anchor_case opts keys a st : AnchorState → Prop :=
  | case_failed kind (strip : bool) :
      anchor_case opts keys a st
        (on_report (λ r, fail_signatures kind (if strip then set_stripped r else r)) st)
  | case_unverified :
      tenant_pubkey opts = None → anchor_case opts keys a st (on_report inc_unverified st)
  | case_attested root platform entry :
      attested opts keys a root platform entry →
      anchor_case opts keys a st (verify_entry a platform entry (record_signer a platform st)).

(** ** One anchor *)

Lemma select_key_spec opts workspace bundle key platform :
  select_key opts workspace bundle = Some (key, platform) →
  key = bundle ∧
  if platform then bundle ≠ workspace ∧ bundle ∈ platform_pubkeys opts else bundle = workspace.
Proof.
  unfold select_key. case_bool_decide as E; [by intros [= <- <-]|].
  destruct (list_find _ _) as [[i p]|] eqn:Ef; [|done]. intros [= <- <-].
  apply list_find_Some in Ef as (Hi & -> & _). apply list_elem_of_lookup_2 in Hi. auto.
Qed.

(** The entry the code extracts, from the three conditions it depends on. *)
Lemma entry_spec a (root : bytes) (entry : option AnchorEntry) :
  let committed := bool_decide (an_anchor_state a = lit "anchored") in
  committed && bool_decide (an_rekor a = None) = false →
  match (if committed then an_rekor a else None) with
  | Some rekor => match extract_anchor_entry root rekor with Ok e => Some (Some e) | Err _ => None end
  | None => Some None
  end = Some entry →
  match entry with
  | Some e => an_anchor_state a = lit "anchored" ∧
              ∃ rekor, an_rekor a = Some rekor ∧ extract_anchor_entry root rekor = Ok e
  | None => an_anchor_state a ≠ lit "anchored"
  end.
Proof.
  cbv zeta. destruct (decide (an_anchor_state a = lit "anchored")) as [Ea|Ea].
  - rewrite (bool_decide_true _ Ea). simpl. destruct (an_rekor a) as [rekor|].
    + intros _. destruct (extract_anchor_entry root rekor) as [e|] eqn:Ee; [|done].
      intros [= <-]. eauto.
    + by rewrite bool_decide_true.
  - rewrite (bool_decide_false _ Ea). by intros _ [= <-].
Qed.

Lemma verify_anchor_case opts keys st a : anchor_case opts keys a st (verify_anchor opts keys st a).
Proof.
  unfold verify_anchor.
  assert (∀ kind, anchor_case opts keys a st (on_report (fail_signatures kind) st)) as Hfail.
  { intros kind. apply (case_failed _ _ _ _ kind false). }
  destruct (bool_decide (an_anchor_state a = lit "anchored") && bool_decide (an_rekor a = None)) eqn:Hstrip.
  { apply (case_failed _ _ _ _ "anchor_stripped" true). }
  destruct (batch_leaves keys a) as [leaves|] eqn:Hl; [|apply Hfail].
  destruct (hex_decode_32 (an_merkle_root a)) as [claimed|] eqn:Hroot; [|apply Hfail].
  destruct (bool_decide (merkle_root_v2 leaves = claimed)) eqn:Er; simpl; [|apply Hfail].
  destruct (tenant_pubkey opts) as [workspace|] eqn:Hw; [|by apply case_unverified].
  destruct (base64_decode (ed_pubkey (an_ed25519 a))) as [bundle|] eqn:Hb; [|apply Hfail].
  destruct (length bundle =? 32)%nat; simpl; [|apply Hfail].
  destruct (select_key opts workspace bundle) as [[key platform]|] eqn:Hk; [|apply Hfail].
  destruct (match (if bool_decide _ then _ else _) with Some _ => _ | None => _ end) as [entry|] eqn:He;
    [|apply Hfail].
  apply entry_spec in He; [|exact Hstrip].
  destruct (base64_decode (ed_signature (an_ed25519 a))) as [sig|] eqn:Hs; [|apply Hfail].
  destruct (length sig =? 64)%nat; simpl; [|apply Hfail].
  destruct (verify_ed25519_raw key _ sig) as [[]|] eqn:Hv; [|apply Hfail].
  apply select_key_spec in Hk as [-> Hk]. apply bool_decide_eq_true in Er as <-.
  eapply case_attested. exists leaves, workspace, bundle, sig. by split_and!.
Qed.

(** ** The flag [signatures_valid] *)

Definition sv st : bool := signatures_valid (as_report st).

Lemma sv_failed kind (strip : bool) st :
  sv (on_report (λ r, fail_signatures kind (if strip then set_stripped r else r)) st) = false.
Proof. unfold sv. simpl. by destruct (as_report st), strip. Qed.

Lemma sv_unverified st : sv (on_report inc_unverified st) = sv st.
Proof. unfold sv. simpl. by destruct (as_report st). Qed.

Lemma verify_entry_sv a platform entry st :
  sv (verify_entry a platform entry st) = true →
  sv st = true ∧ ∀ e, entry = Some e → is_Some (an_rekor a) → publicly_included a e.
Proof.
  unfold verify_entry, publicly_included, sv.
  destruct (an_rekor a) as [rekor|]; [|by intros; split; [|intros ? _ []]].
  destruct entry as [e|]; [|by intros; split; [|intros ? [=]]].
  destruct (ecdsa_p256_verify _ _ _) eqn:Ee; simpl.
  - destruct (verify_inclusion rekor) as [[]|] eqn:Ei.
    + destruct platform; simpl; destruct (as_report st); simpl; intros ->; split; try done;
        intros ? [= <-] _; eauto.
    + simpl. by destruct (as_report st).
  - by destruct (as_report st).
Qed.

(** An attested record whose Rekor entry, if it commits to one, is included. *)
Definition good_anchor opts keys a : Prop :=
  ∃ root platform entry, attested opts keys a root platform entry ∧
    ∀ e, entry = Some e → publicly_included a e.

Lemma verify_anchor_sv opts keys st a :
  sv (verify_anchor opts keys st a) = true →
  sv st = true ∧ (tenant_pubkey opts = None ∨ good_anchor opts keys a).
Proof.
  destruct (verify_anchor_case opts keys st a) as [kind strip|Hk|root platform entry Ha].
  - by rewrite sv_failed.
  - rewrite sv_unverified. auto.
  - intros [Hs He]%verify_entry_sv. split; [done|]. right. exists root, platform, entry.
    split; [done|]. intros e ->. apply He; [done|].
    destruct Ha as (?&?&?&?&_&_&_&_&_&_&_&_&_&(rekor & -> & _)). eauto.
Qed.

Lemma verify_anchors_sv opts keys anchors st :
  sv (fold_left (verify_anchor opts keys) anchors st) = true →
  sv st = true ∧ ∀ a, a ∈ anchors → tenant_pubkey opts = None ∨ good_anchor opts keys a.
Proof.
  revert st. induction anchors as [|a anchors IH]; intros st Hs; [by split; [|set_solver]|].
  apply IH in Hs as [Hs Hall]. apply verify_anchor_sv in Hs as [Hs Ha]. split; [done|].
  intros b [->|Hb]%elem_of_cons; auto.
Qed.

(** The downgrade rule. *)
Lemma check_range_sv boundary (report : VerifyReport) (ranges : list SeqRange) :
  signatures_valid (fold_left (check_platform_range boundary) ranges report) = true →
  signatures_valid report = true ∧
  ∀ r, r ∈ ranges → (start_seq r < boundary ∧ end_seq r < boundary)%Z.
Proof.
  revert report. induction ranges as [|r ranges IH]; intros report Hs; [by split; [|set_solver]|].
  apply IH in Hs as [Hs Hall]. unfold check_platform_range in Hs.
  destruct (Z.leb_spec boundary (start_seq r)), (Z.leb_spec boundary (end_seq r)); simpl in Hs;
    destruct report; simpl in Hs; try done.
  split; [done|]. intros r' [->|Hr]%elem_of_cons; auto.
Qed.

Lemma check_signers_sv opts (signers : BTreeMap.t (Z * list SeqRange)) (report : VerifyReport) :
  signatures_valid (fold_left (check_signers opts) signers report) = true →
  signatures_valid report = true ∧
  ∀ t ws ranges r, (t, (ws, ranges)) ∈ signers → r ∈ ranges →
    (start_seq r < signer_boundary opts ws ∧ end_seq r < signer_boundary opts ws)%Z.
Proof.
  revert report. induction signers as [|[t [ws ranges]] signers IH]; intros report Hs;
    [by split; [|set_solver]|].
  apply IH in Hs as [Hs Hall]. simpl in Hs. apply check_range_sv in Hs as [Hs Hr]. split; [done|].
  intros t' ws' ranges' r [[= -> -> ->]|Hin]%elem_of_cons; eauto.
Qed.

Lemma verify_anchors_offline_sv opts rows anchors report :
  signatures_valid (verify_anchors_offline report rows anchors opts).1 = true →
  signatures_valid report = true ∧
  let st := fold_left (verify_anchor opts (row_hash_by_key rows)) anchors
              {| as_report := report; as_included := []; as_signers := [] |} in
  sv st = true ∧
  ∀ t ws ranges r, (t, (ws, ranges)) ∈ as_signers st → r ∈ ranges →
    (start_seq r < signer_boundary opts ws ∧ end_seq r < signer_boundary opts ws)%Z.
Proof.
  unfold verify_anchors_offline. destruct anchors as [|a anchors].
  { simpl. unfold sv. simpl. intros ->. split_and!; [done|done|]. intros ???? Hin.
    by apply not_elem_of_nil in Hin. }
  set (st := fold_left (verify_anchor _ _) _ _). cbn [fst]. intros Hs.
  assert (signatures_valid (fold_left (check_signers opts) (as_signers st) (as_report st)) = true) as Hs'.
  { revert Hs. by destruct (fold_left (check_signers _) _ _). }
  apply check_signers_sv in Hs' as [Hv Hb]. subst st.
  pose proof (verify_anchors_sv _ _ _ _ Hv) as [Hr _]. auto.
Qed.

(** ** The maps of included starts and of signers *)

(** Where the included starts come from. *)
Definition rooting opts keys (seen : list AnchorRecord) (t : bytes) (s : Z) : Prop :=
  ∃ a root entry, a ∈ seen ∧ an_tenant_id a = t ∧ an_batch_start_seq a = s ∧
    attested opts keys a root false (Some entry) ∧ publicly_included a entry.

Lemma rooting_mono opts keys seen a t s :
  rooting opts keys seen t s → rooting opts keys (seen ++ [a]) t s.
Proof. intros (b & r & e & Hb & ?). exists b, r, e. rewrite elem_of_app. tauto. Qed.

Lemma verify_entry_included a platform entry st t s :
  BTreeMap.get t (as_included (verify_entry a platform entry st)) = Some s →
  BTreeMap.get t (as_included st) = Some s ∨
  (t = an_tenant_id a ∧ s = an_batch_start_seq a ∧ platform = false ∧
   ∃ e, entry = Some e ∧ publicly_included a e).
Proof.
  unfold verify_entry, publicly_included. destruct (an_rekor a) as [rekor|]; [|auto].
  destruct entry as [e|]; [|auto]. destruct (ecdsa_p256_verify _ _ _) eqn:Ee; simpl; [|auto].
  destruct (verify_inclusion rekor) as [[]|] eqn:Ei; simpl; [|auto]. destruct platform; simpl; [auto|].
  rewrite BTreeMap.get_upsert. case_decide as Et; [subst t|auto].
  intros [= <-]. destruct (BTreeMap.get _ _) as [s0|].
  - destruct (Z.min_spec s0 (an_batch_start_seq a)) as [[_ ->]|[_ ->]]; [auto|right].
    split_and!; try done. eauto 10.
  - right. split_and!; try done. eauto 10.
Qed.

Lemma verify_anchors_included opts keys anchors report t s :
  BTreeMap.get t (as_included (fold_left (verify_anchor opts keys) anchors
    {| as_report := report; as_included := []; as_signers := [] |})) = Some s →
  rooting opts keys anchors t s.
Proof.
  revert s. induction anchors as [|a anchors IH] using rev_ind; intros s; [done|].
  rewrite fold_left_app. cbn [fold_left]. set (st := fold_left _ _ _) in *.
  destruct (verify_anchor_case opts keys st a) as [kind strip|Hk|root platform entry Ha]; simpl.
  - intros Hg. by apply rooting_mono, IH.
  - intros Hg. by apply rooting_mono, IH.
  - intros [Hg|(-> & -> & -> & e & -> & Hp)]%verify_entry_included.
    + by apply rooting_mono, IH.
    + exists a, root, e. split_and!; try done. rewrite elem_of_app, elem_of_cons. auto.
Qed.

(** Not signed by the workspace's key. *)
Definition is_platform opts a : bool :=
  negb (bool_decide (base64_decode (ed_pubkey (an_ed25519 a)) = tenant_pubkey opts)).

Lemma attested_platform opts keys a root platform entry :
  attested opts keys a root platform entry → platform = is_platform opts a.
Proof.
  intros (?&w&key&?&_&_&_&Hw&Hk&Hp&_). unfold is_platform. rewrite Hw, Hk.
  destruct platform; [rewrite bool_decide_false|rewrite bool_decide_true]; naive_solver.
Qed.

Definition range_of a : SeqRange :=
  {| start_seq := an_batch_start_seq a; end_seq := an_batch_end_seq a |}.

(** The signer map accounts for [a]. *)
Definition recorded opts (signers : BTreeMap.t (Z * list SeqRange)) a : Prop :=
  ∃ ws ranges, BTreeMap.get (an_tenant_id a) signers = Some (ws, ranges) ∧
    if is_platform opts a then range_of a ∈ ranges else (ws ≤ an_batch_start_seq a)%Z.

Lemma record_signer_recorded opts a st :
  recorded opts (as_signers (record_signer a (is_platform opts a) st)) a.
Proof.
  unfold recorded, record_signer. simpl. rewrite BTreeMap.get_upsert, decide_True by done.
  destruct (BTreeMap.get _ _) as [[ws ranges]|]; destruct (is_platform opts a); simpl.
  - eexists _, _. split; [done|]. rewrite elem_of_app, elem_of_cons. auto.
  - destruct (Z.ltb_spec (an_batch_start_seq a) ws); eexists _, _; (split; [done|]); lia.
  - eexists _, _. split; [done|]. by left.
  - destruct (Z.ltb_spec (an_batch_start_seq a) u64_max); eexists _, _; (split; [done|]); lia.
Qed.

Lemma record_signer_keeps opts a platform st b :
  recorded opts (as_signers st) b → recorded opts (as_signers (record_signer a platform st)) b.
Proof.
  intros (ws & ranges & Hg & Hb). unfold recorded, record_signer. simpl.
  rewrite BTreeMap.get_upsert. case_decide as Et; [|eauto].
  rewrite <- Et, Hg. destruct platform.
  - eexists _, _. split; [done|]. destruct (is_platform opts b); [|done]. rewrite elem_of_app. auto.
  - destruct (Z.ltb_spec (an_batch_start_seq a) ws); eexists _, _; (split; [done|]);
      destruct (is_platform opts b); try done; lia.
Qed.

Lemma verify_entry_signers a platform entry st :
  as_signers (verify_entry a platform entry st) = as_signers st.
Proof. unfold verify_entry. repeat case_match; done. Qed.

Lemma verify_anchors_signers opts keys anchors report :
  is_Some (tenant_pubkey opts) →
  let st := fold_left (verify_anchor opts keys) anchors
              {| as_report := report; as_included := []; as_signers := [] |} in
  BTreeMap.sorted (as_signers st) ∧
  (sv st = true → ∀ a, a ∈ anchors → recorded opts (as_signers st) a).
Proof.
  intros Hkey. induction anchors as [|a anchors IH] using rev_ind.
  { cbv zeta. split; [constructor|]. intros _ a Ha. by apply not_elem_of_nil in Ha. }
  rewrite fold_left_app. cbn [fold_left]. set (st := fold_left _ _ _) in *. destruct IH as [Hsort IH].
  destruct (verify_anchor_case opts keys st a) as [kind strip|Hk|root platform entry Ha].
  - split; [exact Hsort|]. by rewrite sv_failed.
  - rewrite Hk in Hkey. by destruct Hkey.
  - apply attested_platform in Ha as ->. rewrite verify_entry_signers. split.
    + by apply BTreeMap.upsert_sorted.
    + intros [Hs _]%verify_entry_sv b [Hb|Hb]%elem_of_app.
      * by apply record_signer_keeps, IH.
      * apply list_elem_of_singleton in Hb as ->. apply record_signer_recorded.
Qed.

(** ** The leaves of a batch *)

Lemma row_key_inj (t1 t2 : bytes) (s1 s2 : Z) :
  is_u64 s1 → is_u64 s2 → row_key t1 s1 = row_key t2 s2 → t1 = t2 ∧ s1 = s2.
Proof.
  intros Hs1 Hs2. unfold row_key. change (lit "/" ++ dec s1) with ("/"%byte :: dec s1).
  change (lit "/" ++ dec s2) with ("/"%byte :: dec s2). intros E.
  apply digit_suffix_inj in E as [-> E]; [|done|apply dec_is_digit..].
  by apply dec_inj in E.
Qed.

(** Every binding of the key map is a row's decoded hash. *)
Lemma row_hash_by_key_sound rows k h :
  BTreeMap.get k (row_hash_by_key rows) = Some h →
  ∃ row, row ∈ rows ∧ k = row_key (row_tenant_id row) (row_seq row) ∧
    hex_decode_32 (row_row_hash row) = Ok h.
Proof.
  unfold row_hash_by_key. revert h. induction rows as [|row rows IH] using rev_ind; intros h; [done|].
  rewrite fold_left_app. cbn [fold_left]. destruct (hex_decode_32 (row_row_hash row)) as [h'|] eqn:Eh.
  - rewrite BTreeMap.get_insert. case_decide as Ek.
    + intros [= <-]. exists row. rewrite elem_of_app, elem_of_cons. auto.
    + intros (r & Hr & ?)%IH. exists r. rewrite elem_of_app. auto.
  - intros (r & Hr & ?)%IH. exists r. rewrite elem_of_app. auto.
Qed.

(** What the leaf loop returns, when it returns. *)
Lemma collect_leaves_sound fuel keys t seq last leaves :
  collect_leaves fuel keys t seq last = Some leaves →
  lenZ leaves = Z.max 0 (last - seq + 1) ∧
  ∀ i h, leaves !! i = Some h → BTreeMap.get (row_key t (seq + Z.of_nat i)) keys = Some h.
Proof.
  revert seq leaves. induction fuel as [|fuel IH]; intros seq leaves; cbn [collect_leaves];
    (destruct (Z.ltb_spec last seq); [intros [= <-]; split; [unfold lenZ; simpl; lia|done]|]); [done|].
  destruct (BTreeMap.get (row_key t seq) keys) as [h0|] eqn:Eg; [|done].
  destruct (collect_leaves fuel keys t (seq + 1) last) as [ls|] eqn:Ec; [|done].
  intros [= <-]. apply IH in Ec as [El Hl]. split.
  - unfold lenZ in *. simpl. lia.
  - intros [|i] h; simpl.
    + intros [= <-]. by rewrite Z.add_0_r.
    + intros Hi%Hl. rewrite <- Hi. do 2 f_equal. lia.
Qed.

(** The bound on its steps is enough: if every row of the range is present, the
    loop collects them all. *)
Lemma collect_leaves_run fuel keys t seq last :
  (last - seq < Z.of_nat fuel)%Z →
  (∀ s, (seq ≤ s ≤ last)%Z → is_Some (BTreeMap.get (row_key t s) keys)) →
  is_Some (collect_leaves fuel keys t seq last).
Proof.
  revert seq. induction fuel as [|fuel IH]; intros seq Hf Hall; cbn [collect_leaves];
    destruct (Z.ltb_spec last seq); try done; try lia.
  destruct (Hall seq ltac:(lia)) as [h ->].
  destruct (IH (seq + 1)%Z) as [ls ->]; [lia|intros s Hs; apply Hall; lia|done].
Qed.

Lemma collect_leaves_complete keys t seq last :
  (0 ≤ seq)%Z → (last ≤ u64_max)%Z →
  (∀ s, (seq ≤ s ≤ last)%Z → is_Some (BTreeMap.get (row_key t s) keys)) →
  is_Some (collect_leaves (S (length keys)) keys t seq last).
Proof.
  intros Hlo Hhi Hall. apply collect_leaves_run; [|done].
  assert (row_key t <$> seqZ seq (last - seq + 1) ⊆+ keys.*1) as Hsub.
  { apply NoDup_submseteq.
    - apply NoDup_fmap_2_strong; [|apply NoDup_seqZ]. intros x y Hx%elem_of_seqZ Hy%elem_of_seqZ E.
      apply row_key_inj in E as [_ E]; [done|unfold is_u64; lia..].
    - intros k (s & -> & Hs%elem_of_seqZ)%list_elem_of_fmap.
      destruct (Hall s ltac:(lia)) as [h Hg]. destruct (decide (row_key t s ∈ keys.*1)) as [|Hn]; [done|].
      apply BTreeMap.get_None in Hn. congruence. }
  apply submseteq_length in Hsub. rewrite !length_fmap, length_seqZ in Hsub. lia.
Qed.

(** A row that is present and has a decodable hash is found. *)
Lemma row_hash_by_key_complete rows row h :
  row ∈ rows → hex_decode_32 (row_row_hash row) = Ok h →
  is_Some (BTreeMap.get (row_key (row_tenant_id row) (row_seq row)) (row_hash_by_key rows)).
Proof.
  unfold row_hash_by_key. induction rows as [|r rows IH] using rev_ind; intros Hin Eh.
  { by apply not_elem_of_nil in Hin. }
  rewrite fold_left_app. cbn [fold_left]. apply elem_of_app in Hin as [Hin|Hin].
  - destruct (hex_decode_32 (row_row_hash r)); [|auto]. rewrite BTreeMap.get_insert. case_decide; eauto.
  - apply list_elem_of_singleton in Hin as <-. rewrite Eh, BTreeMap.get_insert_eq. eauto.
Qed.

Definition anchor_u64 a : Prop := is_u64 (an_batch_start_seq a) ∧ is_u64 (an_batch_end_seq a).

(** [leaves] are the hashes of the rows of the batch, in order. *)
Definition batch_of rows a (leaves : list bytes) : Prop :=
  lenZ leaves = Z.max 0 (an_batch_end_seq a - an_batch_start_seq a + 1) ∧
  ∀ i h, leaves !! i = Some h →
    ∃ row, row ∈ rows ∧ row_tenant_id row = an_tenant_id a ∧
      row_seq row = (an_batch_start_seq a + Z.of_nat i)%Z ∧ hex_decode_32 (row_row_hash row) = Ok h.

Lemma batch_leaves_sound rows a leaves :
  rows_u64 rows → anchor_u64 a →
  batch_leaves (row_hash_by_key rows) a = Some leaves → batch_of rows a leaves.
Proof.
  intros Hu [Hs He] Hl. apply collect_leaves_sound in Hl as [Hlen Hl]. split; [done|].
  intros i h Hi. pose proof (lookup_lt_Some _ _ _ Hi) as Hlt. apply Hl in Hi.
  apply row_hash_by_key_sound in Hi as (row & Hin & Ek & Eh). exists row.
  assert (is_u64 (row_seq row)) as Hr by (by eapply Forall_forall in Hu).
  unfold lenZ in Hlen. unfold is_u64 in *.
  apply row_key_inj in Ek as [Et Es]; [|unfold is_u64; lia..]. auto.
Qed.

Lemma batch_leaves_complete rows a :
  anchor_u64 a →
  (∀ s, (an_batch_start_seq a ≤ s ≤ an_batch_end_seq a)%Z →
    ∃ row h, row ∈ rows ∧ row_tenant_id row = an_tenant_id a ∧ row_seq row = s ∧
      hex_decode_32 (row_row_hash row) = Ok h) →
  is_Some (batch_leaves (row_hash_by_key rows) a).
Proof.
  intros [Hs He] Hall. apply collect_leaves_complete; [apply Hs|apply He|].
  intros s Hr. destruct (Hall s Hr) as (row & h & Hin & <- & <- & Eh). by eapply row_hash_by_key_complete.
Qed.

(** The record is attested over the root of the rows of its batch, and included
    if it says it is anchored. *)
Definition anchor_evidence opts rows a : Prop :=
  ∃ leaves platform entry,
    batch_of rows a leaves ∧
    attested opts (row_hash_by_key rows) a (merkle_root_v2 leaves) platform entry ∧
    ∀ e, entry = Some e → publicly_included a e.

Lemma good_anchor_evidence opts rows a :
  rows_u64 rows → anchor_u64 a → good_anchor opts (row_hash_by_key rows) a → anchor_evidence opts rows a.
Proof.
  intros Hu Ha (root & platform & entry & Hat & Hpub).
  pose proof Hat as (leaves & _ & _ & _ & Hl & -> & _).
  exists leaves, platform, entry. split; [|done]. by apply batch_leaves_sound.
Qed.

(** ** The properties *)

(** What [signatures_valid] means: when a trusted workspace key is given and
    the flag survives the anchor pass, every anchor record in the export is
    attested, by the workspace key or a platform key, over the Merkle root
    recomputed from the rows of its batch; and every record that says it is
    anchored carries a Rekor entry over that root whose own signature, inclusion
    proof and pinned-key checkpoint verified. *)
Theorem verified_anchors_attested opts rows anchors report :
  rows_u64 rows → Forall anchor_u64 anchors → is_Some (tenant_pubkey opts) →
  signatures_valid (verify_anchors_offline report rows anchors opts).1 = true →
  ∀ a, a ∈ anchors → anchor_evidence opts rows a.
Proof.
  intros Hu Ha [w Hw] Hs a Hin. apply verify_anchors_offline_sv in Hs as (_ & Hs & _).
  apply verify_anchors_sv in Hs as [_ Hall].
  destruct (Hall a Hin) as [?|Hg]; [congruence|]. apply good_anchor_evidence; [done| |done].
  by eapply Forall_forall in Ha.
Qed.

(** Where the trust of a window comes from: every start that the anchor pass
    hands to the chain pass is the start of a batch in the export that the
    workspace key (never a platform key) attested and whose Rekor entry is
    publicly included; without a trusted key there is none. *)
Theorem window_root_is_workspace_signed opts rows anchors report t s :
  BTreeMap.get t (verify_anchors_offline report rows anchors opts).2 = Some s →
  rooting opts (row_hash_by_key rows) anchors t s ∧ is_Some (tenant_pubkey opts).
Proof.
  unfold verify_anchors_offline. intros Hg. destruct anchors as [|a anchors]; [done|].
  cbn [snd] in Hg. apply verify_anchors_included in Hg. split; [done|].
  destruct Hg as (b & root & e & _ & _ & _ & Hat & _).
  destruct Hat as (?&w&?&?&_&_&_&->&_). eauto.
Qed.

(** The downgrade rule: with the flag true, a batch that the workspace key
    did not sign lies strictly below every batch of the same tenant that it did
    sign, and below the published take-over number when one is given. *)
Theorem platform_key_is_prefix opts rows anchors report :
  is_Some (tenant_pubkey opts) →
  signatures_valid (verify_anchors_offline report rows anchors opts).1 = true →
  ∀ a, a ∈ anchors → is_platform opts a = true →
    (∀ b, b ∈ anchors → is_platform opts b = false → an_tenant_id b = an_tenant_id a →
       (an_batch_start_seq a < an_batch_start_seq b ∧ an_batch_end_seq a < an_batch_start_seq b)%Z) ∧
    (∀ since, workspace_key_since_seq opts = Some since →
       (an_batch_start_seq a < since ∧ an_batch_end_seq a < since)%Z).
Proof.
  intros Hkey Hs a Ha Hp. apply verify_anchors_offline_sv in Hs as (_ & Hs & Hb).
  destruct (verify_anchors_signers opts (row_hash_by_key rows) anchors report Hkey) as [Hsort Hrec].
  set (st := fold_left _ _ _) in *. specialize (Hrec Hs).
  destruct (Hrec a Ha) as (ws & ranges & Hg & Hr). rewrite Hp in Hr.
  pose proof Hg as Hin. apply BTreeMap.elem_of_get in Hin; [|done].
  specialize (Hb _ _ _ _ Hin Hr). simpl in Hb. unfold signer_boundary in Hb. split.
  - intros b Hbin Hbp Ht. destruct (Hrec b Hbin) as (ws' & ranges' & Hg' & Hr').
    rewrite Ht, Hg in Hg'. simplify_eq. rewrite Hbp in Hr'.
    destruct (workspace_key_since_seq opts); lia.
  - intros since Es. rewrite Es in Hb. lia.
Qed.

(** The leaf loop is exact and stops: over an export whose sequence numbers
    are machine words, the leaves of a batch are found if and only if every row
    of the range is present with a decodable hash, however long the claimed
    range is (the loop's step bound never cuts it short). *)
Theorem batch_leaves_exact rows a :
  rows_u64 rows → anchor_u64 a →
  is_Some (batch_leaves (row_hash_by_key rows) a) ↔
  ∀ s, (an_batch_start_seq a ≤ s ≤ an_batch_end_seq a)%Z →
    ∃ row h, row ∈ rows ∧ row_tenant_id row = an_tenant_id a ∧ row_seq row = s ∧
      hex_decode_32 (row_row_hash row) = Ok h.
Proof.
  intros Hu Ha. split.
  - intros [leaves Hl] s Hs. apply batch_leaves_sound in Hl as [Hlen Hl]; [|done..].
    destruct (lookup_lt_is_Some_2 leaves (Z.to_nat (s - an_batch_start_seq a))) as [h Hi].
    { unfold lenZ in Hlen. lia. }
    destruct (Hl _ _ Hi) as (row & Hin & Et & Es & Eh). exists row, h. split_and!; try done. lia.
  - by apply batch_leaves_complete.
Qed.

(** A checkpoint is accepted only when the pinned log key signed it, and it says
    what is returned. *)
Lemma verify_checkpoint_sound envelope size root :
  verify_checkpoint envelope = Ok (size, root) →
  ∃ body_text sig,
    verify_ed25519_raw log_ed25519_pubkey body_text sig = Ok () ∧
    default [] (split_on newline body_text !! 0%nat) = LOG_HOST ∧
    parse_u64 (default [] (split_on newline body_text !! 1%nat)) = Some size ∧
    base64_decode (default [] (split_on newline body_text !! 2%nat)) = Some root ∧
    length root = 32%nat.
Proof.
  unfold verify_checkpoint. intros E.
  apply rbind_Ok in E as ([before sig_block] & _ & E). cbv zeta in E.
  set (body_text := before ++ [newline]) in *.
  apply rbind_Ok in E as (ts & Ets & E).
  case_bool_decide as Eo; simpl in E; [|done].
  apply rbind_Ok in E as (sig_line & _ & E). apply rbind_Ok in E as (token & _ & E).
  apply rbind_Ok in E as (blob & _ & E). repeat case_match; try done.
  apply rbind_Ok in E as ([] & Ev & E). apply rbind_Ok in E as (r & Er & E).
  repeat case_match; try done. simplify_eq. breflect.
  exists body_text, (drop 4 blob). split_and!; try done.
  - by destruct (parse_u64 _); simplify_eq/=.
  - by destruct (base64_decode _); simplify_eq/=.
Qed.

(** C37. What an inclusion check establishes: the pinned log key signed a
    checkpoint of this log for some tree size and root; and in every log with that
    size and that root, the anchored entry body is the entry at the claimed index,
    unless two of the strings hashed for the log and for the proof collide. *)
Theorem verify_inclusion_sound rekor :
  verify_inclusion rekor = Ok () →
  ∃ body idx proof size root body_text sig,
    base64_decode (rk_canonicalized_body rekor) = Some body ∧
    parse_u64 (ip_log_index (rk_inclusion_proof rekor)) = Some idx ∧
    decode_hashes (ip_hashes (rk_inclusion_proof rekor)) = Ok proof ∧
    verify_ed25519_raw log_ed25519_pubkey body_text sig = Ok () ∧
    default [] (split_on newline body_text !! 0%nat) = LOG_HOST ∧
    parse_u64 (default [] (split_on newline body_text !! 1%nat)) = Some size ∧
    base64_decode (default [] (split_on newline body_text !! 2%nat)) = Some root ∧
    ∀ entries, lenZ entries = size → mth entries = root →
      collision_free (mth_preimages entries ++ leaf_preimage body ::
                      proof_preimages idx (size - 1) (leaf_hash body) proof) →
      entries !! Z.to_nat idx = Some body.
Proof.
  unfold verify_inclusion. intros E.
  apply rbind_Ok in E as (body & Eb & E). cbv zeta in E.
  apply rbind_Ok in E as (idx & Ei & E). apply rbind_Ok in E as (size & Es & E).
  apply rbind_Ok in E as (proof & Ep & E). apply rbind_Ok in E as (computed & Ec & E).
  apply rbind_Ok in E as ([cp_size cp_root] & Ecp & E).
  destruct (Z.eqb_spec cp_size size) as [->|]; [|done]. case_bool_decide as Er; [|done]. clear E. subst cp_root.
  apply verify_checkpoint_sound in Ecp as (body_text & sig & Hv & Ho & Hs & Hr & _).
  destruct (base64_decode (rk_canonicalized_body rekor)); [|done].
  destruct (parse_u64 (ip_log_index _)) eqn:Ei'; [|done]. simplify_eq/=.
  exists body, idx, proof, size, computed, body_text, sig. split_and!; try done.
  intros entries Hlen Hroot Hcf. apply parse_u64_bound in Hs, Ei'. unfold is_u64 in *.
  replace idx with (Z.of_nat (Z.to_nat idx)) in Hcf by lia.
  apply (rfc6962_root_sound entries proof); [unfold u64_max in *; lia|by rewrite Hlen|].
  rewrite Hlen, Z2Nat.id, Hroot by lia.
  destruct (rfc6962_root _ _ _ _); simplify_eq/=. done.
Qed.

End anchors.

(** ** Witnesses, on the anchored ledger of [Instances] *)

Lemma boundary_anchor_u64 : Forall anchor_u64 [boundary_anchor].
Proof. repeat constructor; vm_compute; discriminate. Qed.

Lemma boundary_signatures_valid :
  signatures_valid (@verify_anchors_offline fips_sha256 text_number demo_serde demo_crypto
    (empty_labeled []) boundary_rows [boundary_anchor] demo_options).1 = true.
Proof. vm_compute. reflexivity. Qed.

Lemma verified_anchors_attested_witness :
  @anchor_evidence fips_sha256 text_number demo_serde demo_crypto demo_options boundary_rows boundary_anchor.
Proof.
  apply (@verified_anchors_attested fips_sha256 text_number demo_serde demo_crypto demo_options
    boundary_rows [boundary_anchor] (empty_labeled []) boundary_rows_u64 boundary_anchor_u64
    (mk_is_Some _ _ eq_refl) boundary_signatures_valid boundary_anchor (list_elem_of_here _ _)).
Defined.

Lemma window_root_is_workspace_signed_witness :
  @rooting fips_sha256 text_number demo_serde demo_crypto demo_options
    (row_hash_by_key boundary_rows) [boundary_anchor] (lit boundary_tenant) 0.
Proof.
  apply (@window_root_is_workspace_signed fips_sha256 text_number demo_serde demo_crypto demo_options
    boundary_rows [boundary_anchor] (empty_labeled []) (lit boundary_tenant) 0).
  vm_compute. reflexivity.
Defined.

(** A platform-signed batch of row 0, then a workspace-signed batch of row 1. *)
Definition prefix_anchors : list AnchorRecord :=
  [demo_anchor boundary_tenant platform_key 0 0 false (take 1 boundary_rows);
   demo_anchor boundary_tenant ws_key 1 1 false (drop 1 boundary_rows)].

Lemma platform_key_is_prefix_witness :
  match prefix_anchors with
  | [a; b] => (an_batch_start_seq a < an_batch_start_seq b ∧ an_batch_end_seq a < an_batch_start_seq b)%Z
  | _ => False
  end.
Proof.
  refine (proj1 (@platform_key_is_prefix fips_sha256 text_number demo_serde demo_crypto demo_options
    boundary_rows prefix_anchors (empty_labeled []) _ _ _ _ _) _ _ _ _).
  - exact (mk_is_Some _ _ eq_refl).
  - vm_compute. reflexivity.
  - apply list_elem_of_here.
  - vm_compute. reflexivity.
  - apply list_elem_of_further, list_elem_of_here.
  - vm_compute. reflexivity.
  - reflexivity.
Defined.

Lemma batch_leaves_exact_witness :
  is_Some (batch_leaves (row_hash_by_key boundary_rows) boundary_anchor) ∧
  ∃ row h, row ∈ boundary_rows ∧ row_tenant_id row = an_tenant_id boundary_anchor ∧
    row_seq row = 1%Z ∧ hex_decode_32 (row_row_hash row) = Ok h.
Proof.
  assert (is_Some (batch_leaves (row_hash_by_key boundary_rows) boundary_anchor)) as Hl
    by (vm_compute; eauto).
  split; [exact Hl|].
  apply (proj1 (@batch_leaves_exact text_number boundary_rows boundary_anchor boundary_rows_u64
    (Forall_inv boundary_anchor_u64)) Hl). vm_compute. split; discriminate.
Defined.

Lemma verify_inclusion_sound_witness :
  ∃ body, base64_decode (rk_canonicalized_body demo_rekor) = Some body.
Proof.
  destruct (@verify_inclusion_sound fips_sha256 demo_crypto demo_rekor) as (body & ? & ? & ? & ? & ? & ? & E & _).
  - vm_compute. reflexivity.
  - exact (ex_intro _ body E).
Defined.
