(* ===== verification/CoverageProofs.v ===== *)
(** * The coverage pass: every hole below the anchor watermark is counted

    [count_anchor_coverage] groups, sorts, removes repetitions and folds, per
    tenant.  The specification counts over the export as a whole: the distinct
    (tenant, sequence number) pairs in view that no anchor range contains,
    although a later anchor of that tenant exists ([holes]), and those past the
    last anchor ([tails]). *)

From Stdlib Require Import ZArith Lia.
From stdpp Require Import base list option strings sorting.
From S2P Require Import Prelude BTree Encoding Hash Merkle Json AuditFormat AuditVerifier Instances.

Section coverage.
Context `{JsonNumber}.

Implicit Types (rows : list AuditRow) (anchors : list AnchorRecord) (r : VerifyReport).

(** ** Specification *)

Definition in_anchor (t : bytes) (s : Z) (a : AnchorRecord) : bool :=
  bool_decide (an_tenant_id a = t) && (an_batch_start_seq a <=? s)%Z && (s <=? an_batch_end_seq a)%Z.

Definition before_end (t : bytes) (s : Z) (a : AnchorRecord) : bool :=
  bool_decide (an_tenant_id a = t) && (s <=? an_batch_end_seq a)%Z.

(** In no anchor, although an anchor of the tenant ends at or after it. *)
Definition is_hole anchors (ts : bytes * Z) : bool :=
  negb (existsb (in_anchor ts.1 ts.2) anchors) && existsb (before_end ts.1 ts.2) anchors.

(** Past the last anchor of the tenant. *)
Definition is_tail anchors (ts : bytes * Z) : bool := negb (existsb (before_end ts.1 ts.2) anchors).

(** The distinct pairs in view. *)
Definition in_view (from : Z) rows : list (bytes * Z) :=
  remove_dups (filter (λ ts, (from ≤ ts.2)%Z) ((λ row, (row_tenant_id row, row_seq row)) <$> rows)).

Definition holes (from : Z) rows anchors : list (bytes * Z) :=
  filter (λ ts, is_hole anchors ts = true) (in_view from rows).
Definition tails (from : Z) rows anchors : list (bytes * Z) :=
  filter (λ ts, is_tail anchors ts = true) (in_view from rows).

(** ** The ranges of a tenant *)

Lemma get_group {A} (k j : bytes) (x : A) (m : BTreeMap.t (list A)) :
  default [] (BTreeMap.get j (group k x m)) =
  default [] (BTreeMap.get j m) ++ (if decide (j = k) then [x] else []).
Proof.
  unfold group. rewrite BTreeMap.get_upsert. case_decide; [subst|by rewrite (right_id_L [] (++))].
  by destruct (BTreeMap.get k m).
Qed.

Lemma ranges_perm anchors t :
  default [] (BTreeMap.get t (ranges_by_tenant anchors)) ≡ₚ
  (λ a, (an_batch_start_seq a, an_batch_end_seq a)) <$> filter (λ a, an_tenant_id a = t) anchors.
Proof.
  unfold ranges_by_tenant. rewrite BTreeMap.get_map.
  set (m := fold_left _ _ _).
  assert (default [] (BTreeMap.get t m) =
    (λ a, (an_batch_start_seq a, an_batch_end_seq a)) <$> filter (λ a, an_tenant_id a = t) anchors) as <-.
  { subst m. induction anchors as [|a anchors IH] using rev_ind; [done|].
    rewrite fold_left_app. cbn [fold_left]. rewrite get_group, IH, filter_app, fmap_app. f_equal.
    rewrite filter_cons. repeat case_decide; by simplify_eq. }
  destruct (BTreeMap.get t m); simpl; [apply merge_sort_Permutation|done].
Qed.

Lemma covered_spec anchors t s :
  covered (default [] (BTreeMap.get t (ranges_by_tenant anchors))) s = existsb (in_anchor t s) anchors.
Proof.
  apply eq_true_iff_eq. unfold covered. rewrite !existsb_exists. split.
  - intros (r & Hr%list_elem_of_In & Hc). rewrite ranges_perm in Hr.
    apply list_elem_of_fmap in Hr as (a & -> & [Et Ha]%list_elem_of_filter). exists a.
    rewrite <- list_elem_of_In. split; [done|]. unfold in_anchor. by rewrite bool_decide_true.
  - intros (a & Ha%list_elem_of_In & Hc). unfold in_anchor in Hc. breflect. 
    exists (an_batch_start_seq a, an_batch_end_seq a). rewrite <- list_elem_of_In, ranges_perm. split.
    + apply list_elem_of_fmap. exists a. split; [done|]. by apply list_elem_of_filter.
    + apply andb_true_intro. split; by apply Z.leb_le.
Qed.

Lemma watermark_spec (ranges : list (Z * Z)) (s : Z) :
  match range_watermark ranges with Some w => (s <=? w)%Z | None => false end =
  existsb (λ x, s <=? x.2)%Z ranges.
Proof.
  destruct ranges as [|r0 ranges]; [done|]. cbn [range_watermark existsb].
  generalize (r0.2). induction ranges as [|r1 ranges IH]; intros m; simpl.
  - by rewrite orb_false_r.
  - rewrite IH. rewrite orb_assoc. f_equal. apply eq_true_iff_eq.
    rewrite orb_true_iff, !Z.leb_le. lia.
Qed.

Lemma below_spec anchors t s :
  match range_watermark (default [] (BTreeMap.get t (ranges_by_tenant anchors))) with
  | Some w => (s <=? w)%Z | None => false end = existsb (before_end t s) anchors.
Proof.
  rewrite watermark_spec. apply eq_true_iff_eq. rewrite !existsb_exists. split.
  - intros (r & Hr%list_elem_of_In & Hc). rewrite ranges_perm in Hr.
    apply list_elem_of_fmap in Hr as (a & -> & [Et Ha]%list_elem_of_filter). exists a.
    rewrite <- list_elem_of_In. split; [done|]. unfold before_end. by rewrite bool_decide_true.
  - intros (a & Ha%list_elem_of_In & Hc). unfold before_end in Hc. breflect.
    exists (an_batch_start_seq a, an_batch_end_seq a). rewrite <- list_elem_of_In, ranges_perm. split.
    + apply list_elem_of_fmap. exists a. split; [done|]. by apply list_elem_of_filter.
    + by apply Z.leb_le.
Qed.

(** ** One tenant *)

Lemma covered_below anchors (ts : bytes * Z) :
  existsb (in_anchor ts.1 ts.2) anchors = true → existsb (before_end ts.1 ts.2) anchors = true.
Proof.
  rewrite !existsb_exists. intros (a & Ha & Hc). exists a. split; [done|].
  unfold in_anchor, before_end in *. breflect. subst.
  rewrite bool_decide_true by done. by apply Z.leb_le.
Qed.

Definition countb {A} (p : A → bool) (l : list A) : Z := lenZ (filter (λ x, p x = true) l).

Lemma countb_cons {A} (p : A → bool) (x : A) (l : list A) :
  countb p (x :: l) = ((if p x then 1 else 0) + countb p l)%Z.
Proof. unfold countb, lenZ. rewrite filter_cons. destruct (p x); simpl; lia. Qed.

(** What one step does to the counters and to the error list. *)
Lemma coverage_seq_step anchors t r hole s :
  let ranges := default [] (BTreeMap.get t (ranges_by_tenant anchors)) in
  let '(r', hole') := coverage_seq ranges (range_watermark ranges) (r, hole) s in
  rows_uncovered_by_anchors r' =
    (rows_uncovered_by_anchors r + if is_hole anchors (t, s) then 1 else 0)%Z ∧
  rows_unanchored_tail r' = (rows_unanchored_tail r + if is_tail anchors (t, s) then 1 else 0)%Z ∧
  ((errors r ≠ [] ∨ hole ≠ None ∨ is_hole anchors (t, s) = true) ↔ errors r' ≠ [] ∨ hole' ≠ None).
Proof.
  cbv zeta. unfold coverage_seq, is_hole, is_tail. cbn [fst snd]. rewrite covered_spec.
  pose proof (below_spec anchors t s) as Hb. pose proof (covered_below anchors (t, s)) as Hcb. cbn [fst snd] in Hcb.
  destruct (existsb (in_anchor t s) anchors) eqn:Ec.
  - rewrite Hcb by done. destruct hole as [[lo hi]|], r; simpl; repeat split; try lia;
      rewrite ?app_nil; naive_solver.
  - destruct (range_watermark _) as [w|].
    + rewrite <- Hb. destruct (s <=? w)%Z eqn:Ew; simpl.
      * destruct hole as [[lo hi]|]; [destruct (hi + 1 =? s)%Z|]; destruct r; simpl;
          repeat split; try lia; rewrite ?app_nil; naive_solver.
      * destruct r; simpl; repeat split; try lia; naive_solver.
    + rewrite <- Hb. destruct r; simpl; repeat split; try lia; naive_solver.
Qed.

Lemma coverage_seqs anchors t seqs r hole :
  let ranges := default [] (BTreeMap.get t (ranges_by_tenant anchors)) in
  let '(r', hole') := fold_left (coverage_seq ranges (range_watermark ranges)) seqs (r, hole) in
  rows_uncovered_by_anchors r' =
    (rows_uncovered_by_anchors r + countb (is_hole anchors) (pair t <$> seqs))%Z ∧
  rows_unanchored_tail r' = (rows_unanchored_tail r + countb (is_tail anchors) (pair t <$> seqs))%Z ∧
  ((errors r ≠ [] ∨ hole ≠ None ∨ Exists (λ s, is_hole anchors (t, s) = true) seqs) ↔
   errors r' ≠ [] ∨ hole' ≠ None).
Proof.
  cbv zeta. revert r hole. induction seqs as [|s seqs IH]; intros r hole.
  { cbn [fold_left fmap list_fmap]. unfold countb, lenZ. simpl. rewrite Exists_nil.
    repeat split; try lia; tauto. }
  cbn [fold_left]. pose proof (coverage_seq_step anchors t r hole s) as Hstep. cbv zeta in Hstep.
  destruct (coverage_seq _ _ _ _) as [r1 hole1]. destruct Hstep as (E1 & E2 & E3).
  specialize (IH r1 hole1). destruct (fold_left _ _ _) as [r' hole']. destruct IH as (F1 & F2 & F3).
  rewrite fmap_cons, !countb_cons, Exists_cons. split; [lia|]. split; [lia|]. rewrite <- F3, <- (Logic.or_assoc (errors r1 ≠ [])), <- E3, !Logic.or_assoc. done.
Qed.

Lemma gap_error lo r : errors (push_coverage_gap lo r) ≠ [].
Proof. destruct r. simpl. by destruct errors. Qed.

Lemma coverage_tenant_spec anchors r t seqs :
  let r' := coverage_tenant (ranges_by_tenant anchors) r (t, seqs) in
  let view := pair t <$> dedup (merge_sort Z.le seqs) in
  rows_uncovered_by_anchors r' = (rows_uncovered_by_anchors r + countb (is_hole anchors) view)%Z ∧
  rows_unanchored_tail r' = (rows_unanchored_tail r + countb (is_tail anchors) view)%Z ∧
  (errors r ≠ [] ∨ Exists (λ ts, is_hole anchors ts = true) view ↔ errors r' ≠ []).
Proof.
  cbv zeta. unfold coverage_tenant.
  pose proof (coverage_seqs anchors t (dedup (merge_sort Z.le seqs)) r None) as Hf. cbv zeta in Hf.
  destruct (fold_left _ _ _) as [r' hole']. destruct Hf as (E1 & E2 & E3).
  rewrite Exists_fmap. destruct hole' as [[lo hi]|].
  - pose proof (gap_error lo r'). split_and!; [by destruct r'|by destruct r'|].
    split; [done|]. intros _. destruct E3 as [_ E3].
    destruct E3 as [?|[?|?]]; [by right|by left|done|by right].
  - split_and!; [done|done|]. split; intros Hx.
    + destruct E3 as [E3 _]. destruct E3 as [?|?]; [destruct Hx; auto|done|done].
    + destruct E3 as [_ E3]. destruct E3 as [?|[?|?]]; auto; done.
Qed.

(** ** All tenants *)

Lemma countb_app {A} (p : A → bool) (l k : list A) : countb p (l ++ k) = (countb p l + countb p k)%Z.
Proof. unfold countb. by rewrite filter_app, lenZ_app. Qed.

Definition view_of (m : BTreeMap.t (list Z)) : list (bytes * Z) :=
  flat_map (λ kv, pair kv.1 <$> dedup (merge_sort Z.le kv.2)) m.

Lemma coverage_fold anchors (m : BTreeMap.t (list Z)) r :
  let r' := fold_left (coverage_tenant (ranges_by_tenant anchors)) m r in
  rows_uncovered_by_anchors r' = (rows_uncovered_by_anchors r + countb (is_hole anchors) (view_of m))%Z ∧
  rows_unanchored_tail r' = (rows_unanchored_tail r + countb (is_tail anchors) (view_of m))%Z ∧
  (errors r ≠ [] ∨ Exists (λ ts, is_hole anchors ts = true) (view_of m) ↔ errors r' ≠ []).
Proof.
  cbv zeta. revert r. induction m as [|[t seqs] m IH]; intros r.
  { simpl. unfold countb, lenZ. simpl. rewrite Exists_nil. repeat split; try lia; tauto. }
  cbn [fold_left view_of flat_map fst snd]. rewrite !countb_app, Exists_app.
  destruct (coverage_tenant_spec anchors r t seqs) as (E1 & E2 & E3).
  destruct (IH (coverage_tenant (ranges_by_tenant anchors) r (t, seqs))) as (F1 & F2 & F3).
  unfold view_of in *. split; [lia|]. split; [lia|]. rewrite <- F3, <- E3, Logic.or_assoc. done.
Qed.

Lemma seqs_by_tenant_sorted from rows : BTreeMap.sorted (seqs_by_tenant from rows).
Proof.
  apply BTreeMap.fold_sorted; [|constructor]. intros m x Hm. case_match; [|done].
  by apply BTreeMap.upsert_sorted.
Qed.

Lemma seqs_by_tenant_elem from rows t s :
  s ∈ default [] (BTreeMap.get t (seqs_by_tenant from rows)) ↔
  (from ≤ s)%Z ∧ (t, s) ∈ (λ row, (row_tenant_id row, row_seq row)) <$> rows.
Proof.
  unfold seqs_by_tenant. induction rows as [|row rows IH] using rev_ind.
  { simpl. rewrite !elem_of_nil. tauto. }
  rewrite fold_left_app, fmap_app, elem_of_app. cbn [fold_left].
  change ((λ row, (row_tenant_id row, row_seq row)) <$> [row]) with [(row_tenant_id row, row_seq row)].
  rewrite list_elem_of_singleton. destruct (Z.leb_spec from (row_seq row)) as [Hf|Hf].
  - rewrite get_group, elem_of_app, IH. case_decide as Et.
    + rewrite list_elem_of_singleton. naive_solver.
    + rewrite elem_of_nil. naive_solver.
  - rewrite IH. split; [tauto|]. intros [Hs [Hin|[= -> ->]]]; [done|lia].
Qed.

Lemma view_perm from rows : view_of (seqs_by_tenant from rows) ≡ₚ in_view from rows.
Proof.
  pose proof (seqs_by_tenant_sorted from rows) as Hsort.
  assert (∀ t s, (t, s) ∈ view_of (seqs_by_tenant from rows) ↔
                 s ∈ default [] (BTreeMap.get t (seqs_by_tenant from rows))) as Helem.
  { intros t s. unfold view_of. rewrite list_elem_of_In, in_flat_map. split.
    - intros ([t' seqs] & Hin%list_elem_of_In & Hs%list_elem_of_In). cbn [fst snd] in Hs.
      apply list_elem_of_fmap in Hs as (s' & [= -> ->] & Hs). apply (proj1 (proj2 (sorted_seqs seqs) s')) in Hs.
      apply BTreeMap.elem_of_get in Hin; [|done]. by rewrite Hin.
    - intros Hs. destruct (BTreeMap.get t _) as [seqs|] eqn:Eg; [|by apply not_elem_of_nil in Hs].
      simpl in Hs. exists (t, seqs). split; [apply list_elem_of_In; by apply BTreeMap.elem_of_get|].
      apply list_elem_of_In, list_elem_of_fmap. exists s. split; [done|]. by apply sorted_seqs. }
  apply NoDup_Permutation.
  - clear Helem. apply BTreeMap.sorted_NoDup in Hsort. unfold view_of.
    induction (seqs_by_tenant from rows) as [|[t seqs] m IH]; [constructor|].
    cbn [fmap list_fmap fst] in Hsort. apply NoDup_cons in Hsort as [Ht Hsort].
    cbn [flat_map fst snd]. apply NoDup_app. split_and!.
    + apply NoDup_fmap; [intros ?? [=]; done|apply sorted_seqs].
    + intros [t' s] (s' & [= -> ->] & _)%list_elem_of_fmap Hin. apply Ht.
      apply list_elem_of_In, in_flat_map in Hin as ([t2 seqs2] & Hm%list_elem_of_In & Hs%list_elem_of_In).
      cbn [fst snd] in Hs. apply list_elem_of_fmap in Hs as (s2 & [= -> ->] & _).
      apply list_elem_of_fmap. by exists (t2, seqs2).
    + by apply IH.
  - apply NoDup_remove_dups.
  - intros [t s]. rewrite Helem, seqs_by_tenant_elem. unfold in_view.
    rewrite elem_of_remove_dups, list_elem_of_filter. done.
Qed.

Lemma countb_perm {A} (p : A → bool) (l k : list A) : l ≡ₚ k → countb p l = countb p k.
Proof. intros E. unfold countb, lenZ. by rewrite E. Qed.

Lemma count_anchor_coverage_spec r rows anchors :
  let from := verified_from_seq r in
  let r' := count_anchor_coverage r rows anchors in
  rows_uncovered_by_anchors r' = (rows_uncovered_by_anchors r + lenZ (holes from rows anchors))%Z ∧
  rows_unanchored_tail r' = (rows_unanchored_tail r + lenZ (tails from rows anchors))%Z ∧
  (errors r' ≠ [] ↔ errors r ≠ [] ∨ holes from rows anchors ≠ []).
Proof.
  cbv zeta. unfold count_anchor_coverage.
  destruct (coverage_fold anchors (seqs_by_tenant (verified_from_seq r) rows) r) as (E1 & E2 & E3).
  pose proof (view_perm (verified_from_seq r) rows) as Hp.
  rewrite (countb_perm _ _ _ Hp) in E1. rewrite (countb_perm _ _ _ Hp) in E2. split; [exact E1|]. split; [exact E2|].
  rewrite <- E3. apply or_iff_compat_l. rewrite Hp. unfold holes. rewrite Exists_exists. split.
  - intros (ts & Hin & Hh) E. eapply (not_elem_of_nil ts). rewrite <- E. by apply list_elem_of_filter.
  - intros Hne. destruct (filter _ _) as [|ts l] eqn:Ef; [done|].
    assert (ts ∈ filter (λ ts, is_hole anchors ts = true) (in_view (verified_from_seq r) rows)) as Hin
      by (rewrite Ef; left).
    apply list_elem_of_filter in Hin as [? ?]. eauto.
Qed.

(** ** Properties *)

(** The coverage pass is exact on the rows in view: it adds to
    [rows_uncovered_by_anchors] the number of distinct rows that lie in no anchor's
    range although a later anchor of their tenant exists, adds to
    [rows_unanchored_tail] the number past their tenant's last anchor, and reports
    an error exactly when there is a hole. *)
Theorem coverage_counts_holes r rows anchors :
  let from := verified_from_seq r in
  let r' := count_anchor_coverage r rows anchors in
  rows_uncovered_by_anchors r' = (rows_uncovered_by_anchors r + lenZ (holes from rows anchors))%Z ∧
  rows_unanchored_tail r' = (rows_unanchored_tail r + lenZ (tails from rows anchors))%Z ∧
  (errors r' ≠ [] ↔ errors r ≠ [] ∨ holes from rows anchors ≠ []).
Proof. apply count_anchor_coverage_spec. Qed.

End coverage.

(** ** A hole the pass does not see

    The view starts at the report's single [verified_from_seq], the maximum of the
    tenants' roots.  Tenant A (rows 0 and 1, row 0 in no anchor) fails on its own;
    beside a tenant B whose window is rooted at row 5 the same rows pass. *)

Definition window_rows : list (@AuditRow text_number) :=
  let prev := replicate 32 x33 in
  let uuid := replicate 15 x00 ++ [x01] in
  let hash := @row_hash_v2 fips_sha256 prev uuid 5 (lit "request") (lit "user1") (lit "{}") in
  [{| row_format := Some (lit "v2.1"); row_tenant_id := lit good_tenant; row_seq := 5;
      row_event_time := []; row_event_type := lit "request"; row_actor := lit "user1";
      row_payload := String (lit "{}"); row_prev_hash := hex_encode prev;
      row_row_hash := hex_encode hash; row_rekor_entry_id := None |}].

Definition window_serde : @SerdeJson text_number :=
  table_serde [(demo_body, demo_entry (demo_root window_rows))].

Definition hole_anchor : AnchorRecord :=
  demo_anchor boundary_tenant ws_key 1 1 false (drop 1 boundary_rows).
Definition window_anchor : AnchorRecord := demo_anchor good_tenant ws_key 5 5 true window_rows.

Definition window_verify (rows : list (@AuditRow text_number)) (anchors : list AnchorRecord) : VerifyReport :=
  @verify_records fips_sha256 text_number window_serde demo_crypto (empty_labeled []) rows anchors demo_options.

(** The counted holes are not summed over every tenant: a hole of one tenant
    below another tenant's window start is skipped, and the export passes. *)
Theorem coverage_misses_hole_below_other_window :
  let alone := window_verify boundary_rows [hole_anchor] in
  let together := window_verify (boundary_rows ++ window_rows) [hole_anchor; window_anchor] in
  holes 0 boundary_rows [hole_anchor] = [(lit boundary_tenant, 0%Z)] ∧
  (rows_uncovered_by_anchors alone = 1%Z ∧ verdict_of alone = Fail) ∧
  (rows_uncovered_by_anchors together = 0%Z ∧ verdict_of together = Pass).
Proof. vm_compute. auto. Qed.
