(* ===== verification/VerdictProofs.v ===== *)
(** * The verdict: what PASS means, and when it is withheld

    [verdict_of] reads the report that the three passes built.  Each pass only
    touches its own fields (the frame lemmas), so a PASS splits into the
    properties of the passes. *)

From Stdlib Require Import ZArith Lia.
From stdpp Require Import base list option strings sorting.
From S2P Require Import Prelude BTree Encoding Hash Merkle Json AuditFormat AuditVerifier.
From S2P Require Import Instances ChainProofs AnchorProofs CoverageProofs.

(** ** Frames *)

(** The fields the coverage pass leaves alone. *)
Definition coverage_frame '(mkReport a b c d e f g h i j k l m n o p) : VerifyReport :=
  mkReport a b c d e f g h i j k 0 0 n o [].

(** The fields the chain pass leaves alone. *)
Definition root_frame '(mkReport a b c d e f g h i j k l m n o p) : VerifyReport :=
  mkReport a b true d e f g h i 0 true l m n o [].

(** The fields the anchor pass leaves alone. *)
Definition anchor_frame '(mkReport a b c d e f g h i j k l m n o p) : VerifyReport :=
  mkReport a b c true 0 0 0 0 false j k l m 0 [] [].

(** A lost root is reported as an error. *)
Definition explained (r : VerifyReport) : Prop := trust_established r = false → errors r ≠ [].

Lemma errors_push seq kind (r : VerifyReport) : errors (push_error seq kind r) ≠ [].
Proof. destruct r. simpl. by destruct errors. Qed.

Section verdict.
Context `{Sha256Fn} `{JsonNumber} `{!SerdeJson} `{!Crypto}.

Implicit Types (rows : list AuditRow) (anchors : list AnchorRecord) (r : VerifyReport) (opts : VerifyOptions).

(** *** Coverage *)

Lemma coverage_seq_frame ranges w st s :
  coverage_frame (coverage_seq ranges w st s).1 = coverage_frame st.1.
Proof.
  destruct st as [r hole]. unfold coverage_seq.
  repeat case_match; simplify_eq; simpl; by destruct r.
Qed.

Lemma coverage_tenant_frame ranges r ts : coverage_frame (coverage_tenant ranges r ts) = coverage_frame r.
Proof.
  destruct ts as [t seqs]. unfold coverage_tenant.
  assert (∀ l st, coverage_frame (fold_left (coverage_seq (default [] (BTreeMap.get t ranges))
    (range_watermark (default [] (BTreeMap.get t ranges)))) l st).1 = coverage_frame st.1) as Hl.
  { induction l as [|s l IH]; intros st; [done|]. cbn [fold_left]. by rewrite IH, coverage_seq_frame. }
  specialize (Hl (dedup (merge_sort Z.le seqs)) (r, None)).
  destruct (fold_left _ _ _) as [r' [[lo hi]|]]; simpl in *; [|done]. rewrite <- Hl. by destruct r'.
Qed.

Lemma count_anchor_coverage_frame r rows anchors :
  coverage_frame (count_anchor_coverage r rows anchors) = coverage_frame r.
Proof.
  unfold count_anchor_coverage. generalize (seqs_by_tenant (verified_from_seq r) rows).
  intros m. generalize r. induction m as [|ts m IH]; intros r'; [done|].
  cbn [fold_left]. by rewrite IH, coverage_tenant_frame.
Qed.

(** *** Chain *)

Lemma root_frame_chain r : root_frame (chain_frame r) = root_frame r.
Proof. by destruct r. Qed.

Lemma root_tenants_frame included rows r : root_frame (root_tenants included rows r).1.1 = root_frame r.
Proof.
  unfold root_tenants. assert (∀ m st, root_frame (fold_left (root_tenant included) m st).1.1 = root_frame st.1.1) as Hm.
  { induction m as [|[t x] m IH]; intros [[r' starts] agg]; [done|]. cbn [fold_left]. rewrite IH.
    simpl. destruct (tenant_start included t x); [done|]. by destruct r'. }
  apply Hm.
Qed.

Lemma verify_chain_frame r rows opts included :
  root_frame (verify_chain r rows opts included) = root_frame r.
Proof.
  unfold verify_chain. pose proof (root_tenants_frame included rows r) as Hr.
  destruct (root_tenants included rows r) as [[r' starts] agg]. simpl in Hr.
  rewrite <- root_frame_chain, chain_frame_rows, root_frame_chain, <- Hr. by destruct r'.
Qed.

(** Errors are only added. *)
Lemma chain_row_errors opts starts st row :
  errors st.1 ≠ [] → errors (chain_row opts starts st row).1 ≠ [].
Proof.
  assert (∀ s k r, errors r ≠ [] → errors (fail_chain s k r) ≠ []) as Hf.
  { intros s k [] Hne. simpl in *. by destruct errors. }
  assert (∀ b s k r, errors r ≠ [] → errors (when b (fail_chain s k) r) ≠ []) as Hw.
  { intros [] s k r' Hne; [by apply Hf|done]. }
  destruct st as [r ts]. unfold chain_row, chain_row_in_scope. intros Hne.
  repeat case_match; simplify_eq; simpl in *; auto 10.
Qed.

Lemma chain_rows_errors opts starts rows st :
  errors st.1 ≠ [] → errors (fold_left (chain_row opts starts) rows st).1 ≠ [].
Proof.
  revert st. induction rows as [|row rows IH]; intros st Hne; [done|].
  cbn [fold_left]. by apply IH, chain_row_errors.
Qed.

Lemma root_tenants_explained included rows r :
  explained r → explained (root_tenants included rows r).1.1.
Proof.
  unfold root_tenants. assert (∀ m st, explained st.1.1 →
    explained (fold_left (root_tenant included) m st).1.1) as Hm.
  { induction m as [|[t x] m IH]; intros [[r' starts] agg] He; [done|]. cbn [fold_left]. apply IH.
    simpl. destruct (tenant_start included t x); [done|]. intros _. apply errors_push. }
  intros He. by apply (Hm _ (r, [], None)).
Qed.

Lemma verify_chain_explained r rows opts included :
  explained r → explained (verify_chain r rows opts included).
Proof.
  intros He. apply (root_tenants_explained included rows) in He. unfold verify_chain.
  destruct (root_tenants included rows r) as [[r' starts] agg]. simpl in He. intros Ht.
  apply chain_rows_errors. rewrite <- trust_frame, chain_frame_rows, trust_frame in Ht.
  revert He Ht. unfold explained. by destruct r'.
Qed.

(** *** Anchors *)

Lemma verify_entry_frame a platform entry st :
  anchor_frame (as_report (verify_entry a platform entry st)) = anchor_frame (as_report st).
Proof.
  unfold verify_entry. repeat case_match; try done; simpl; by destruct (as_report st).
Qed.

Lemma verify_anchor_frame opts keys st a :
  anchor_frame (as_report (verify_anchor opts keys st a)) = anchor_frame (as_report st).
Proof.
  destruct (verify_anchor_case opts keys st a) as [kind strip|Hk|root platform entry Ha]; simpl.
  - by destruct (as_report st), strip.
  - by destruct (as_report st).
  - by rewrite verify_entry_frame.
Qed.

Lemma check_signers_frame opts r s : anchor_frame (check_signers opts r s) = anchor_frame r.
Proof.
  destruct s as [t [ws ranges]]. simpl. revert r. induction ranges as [|x ranges IH]; intros r; [done|].
  cbn [fold_left]. rewrite IH. unfold check_platform_range. case_match; by destruct r.
Qed.

Lemma verify_anchors_offline_frame r rows anchors opts :
  anchor_frame (verify_anchors_offline r rows anchors opts).1 = anchor_frame r.
Proof.
  unfold verify_anchors_offline. destruct anchors as [|a anchors]; [done|]. cbn [fst].
  set (st := fold_left (verify_anchor _ _) _ _).
  assert (anchor_frame (as_report st) = anchor_frame r) as Hst.
  { subst st. generalize (a :: anchors).
    assert (∀ l st, anchor_frame (as_report (fold_left (verify_anchor opts (row_hash_by_key rows)) l st)) =
      anchor_frame (as_report st)) as Hl.
    { induction l as [|b l IH]; intros st; [done|]. cbn [fold_left]. by rewrite IH, verify_anchor_frame. }
    intros l. by rewrite Hl. }
  assert (anchor_frame (fold_left (check_signers opts) (as_signers st) (as_report st)) = anchor_frame r) as Hc.
  { rewrite <- Hst. generalize (as_report st). induction (as_signers st) as [|s l IH]; intros r'; [done|].
    cbn [fold_left]. by rewrite IH, check_signers_frame. }
  rewrite <- Hc. by destruct (fold_left (check_signers _) _ _).
Qed.

(** The counters of the anchor pass move only on attested, included batches. *)
Lemma verify_entry_included_count a platform entry (st : AnchorState) :
  anchors_included (as_report (verify_entry a platform entry st)) = anchors_included (as_report st) ∨
  ∃ e, entry = Some e ∧ publicly_included a e.
Proof.
  unfold verify_entry, publicly_included. destruct (an_rekor a) as [rekor|]; [|auto].
  destruct entry as [e|]; [|auto]. destruct (ecdsa_p256_verify _ _ _) eqn:Ee; simpl.
  - destruct (verify_inclusion rekor) as [[]|] eqn:Ei; [right; eauto 10|].
    left. simpl. by destruct (as_report st).
  - left. by destruct (as_report st).
Qed.

(** Some batch of the export is attested by a trusted key and publicly included. *)
Definition some_included opts keys anchors : Prop :=
  ∃ a root platform e, a ∈ anchors ∧ attested opts keys a root platform (Some e) ∧ publicly_included a e.

Lemma verify_anchors_included_count opts keys anchors (st : AnchorState) :
  anchors_included (as_report (fold_left (verify_anchor opts keys) anchors st)) =
    anchors_included (as_report st) ∨ some_included opts keys anchors.
Proof.
  induction anchors as [|a anchors IH] using rev_ind; [auto|].
  rewrite fold_left_app. cbn [fold_left]. set (st' := fold_left _ _ _) in *.
  destruct IH as [IH|(b & root & p & e & Hb & ?)].
  2: { right. exists b, root, p, e. rewrite elem_of_app. tauto. }
  rewrite <- IH. destruct (verify_anchor_case opts keys st' a) as [kind strip|Hk|root platform entry Ha].
  - left. simpl. by destruct (as_report st'), strip.
  - left. simpl. by destruct (as_report st').
  - destruct (verify_entry_included_count a platform entry (record_signer a platform st'))
      as [E|(e & -> & Hp)]; [auto|]. right. exists a, root, platform, e.
    split; [rewrite elem_of_app, elem_of_cons; auto|done].
Qed.

Lemma check_signers_included opts (signers : BTreeMap.t (Z * list SeqRange)) r :
  anchors_included (fold_left (check_signers opts) signers r) = anchors_included r.
Proof.
  revert r. induction signers as [|[t [ws ranges]] signers IH]; intros r; [done|].
  cbn [fold_left]. rewrite IH. simpl. clear IH. revert r.
  induction ranges as [|x ranges IH]; intros r; [done|]. cbn [fold_left]. rewrite IH.
  unfold check_platform_range. case_match; by destruct r.
Qed.

Lemma verify_anchors_offline_included opts rows anchors r :
  anchors_included (verify_anchors_offline r rows anchors opts).1 = anchors_included r ∨
  some_included opts (row_hash_by_key rows) anchors.
Proof.
  unfold verify_anchors_offline. destruct anchors as [|a anchors]; [auto|]. cbn [fst].
  set (st := fold_left (verify_anchor _ _) _ _).
  destruct (verify_anchors_included_count opts (row_hash_by_key rows) (a :: anchors)
    {| as_report := r; as_included := []; as_signers := [] |}) as [E|?]; [|auto].
  left. cbn [as_report] in E. rewrite <- E.
  change (fold_left (verify_anchor opts (row_hash_by_key rows)) _ _) with st.
  rewrite <- (check_signers_included opts (as_signers st) (as_report st)).
  by destruct (fold_left (check_signers _) _ _).
Qed.

Lemma verify_anchors_offline_rooting opts rows anchors r t s :
  BTreeMap.get t (verify_anchors_offline r rows anchors opts).2 = Some s →
  rooting opts (row_hash_by_key rows) anchors t s.
Proof.
  unfold verify_anchors_offline. destruct anchors as [|a anchors]; [done|]. cbn [snd].
  apply verify_anchors_included.
Qed.

(** ** PASS *)

Lemma verdict_pass r :
  verdict_of r = Pass ↔
  anchors_unverified r = 0%Z ∧ hash_chain_valid r = true ∧ signatures_valid r = true ∧
  strip_detected r = false ∧ rows_uncovered_by_anchors r = 0%Z ∧ errors r = [] ∧
  anchors_included r ≠ 0%Z.
Proof.
  unfold verdict_of, verdict_clean. split.
  - destruct (errors r); [|by rewrite andb_false_r].
    destruct (negb _) eqn:Hc; [done|]. destruct (anchors_included r =? 0)%Z eqn:Hi; [done|]. intros _.
    apply negb_false_iff in Hc. breflect. by split_and!.
  - intros (-> & -> & -> & -> & -> & -> & Hi). simpl. by rewrite (proj2 (Z.eqb_neq _ _) Hi).
Qed.

(** Fields read off the frames. *)
Lemma coverage_frame_fields r r' :
  coverage_frame r = coverage_frame r' →
  hash_chain_valid r = hash_chain_valid r' ∧ signatures_valid r = signatures_valid r' ∧
  anchors_included r = anchors_included r' ∧ trust_established r = trust_established r' ∧
  verified_from_seq r = verified_from_seq r'.
Proof. destruct r, r'. simpl. intros [=]. by subst. Qed.

Lemma root_frame_fields r r' :
  root_frame r = root_frame r' →
  signatures_valid r = signatures_valid r' ∧ anchors_included r = anchors_included r' ∧
  rows_uncovered_by_anchors r = rows_uncovered_by_anchors r'.
Proof. destruct r, r'. simpl. intros [=]. by subst. Qed.

Lemma anchor_frame_fields r r' :
  anchor_frame r = anchor_frame r' →
  hash_chain_valid r = hash_chain_valid r' ∧ trust_established r = trust_established r' ∧
  rows_uncovered_by_anchors r = rows_uncovered_by_anchors r'.
Proof. destruct r, r'. simpl. intros [=]. by subst. Qed.

(** C1. What a PASS of the tool means, end to end, over any export: a trusted
    workspace key was given; at least one batch is attested by a trusted key and
    publicly included; every anchor record is attested over the recomputed root of
    its rows and, if it says it is anchored, publicly included; every row's tenant
    has a root, and its rows from there on chain; and no row in view is a hole
    below its tenant's last anchor. *)
Theorem pass_is_evidence opts label rows anchors :
  rows_u64 rows → Forall anchor_u64 anchors →
  let report := verify_records (empty_labeled label) rows anchors opts in
  verdict_of report = Pass →
  ∃ included,
    is_Some (tenant_pubkey opts) ∧
    some_included opts (row_hash_by_key rows) anchors ∧
    (∀ a, a ∈ anchors → anchor_evidence opts rows a) ∧
    (∀ t s, BTreeMap.get t included = Some s → rooting opts (row_hash_by_key rows) anchors t s) ∧
    (∀ row, row ∈ rows → ∃ start,
       scope_start included rows (row_tenant_id row) = Some start ∧
       valid_from opts start None (in_scope (row_tenant_id row) start rows)) ∧
    holes (verified_from_seq report) rows anchors = [].
Proof.
  intros Hu Ha. cbv zeta. unfold verify_records.
  set (r0 := set_rows_seen _ _).
  pose proof (verify_anchors_offline_frame r0 rows anchors opts) as F1.
  pose proof (verify_anchors_offline_included opts rows anchors r0) as Hinc.
  pose proof (verify_anchors_offline_sv opts rows anchors r0) as Hsv.
  pose proof (verify_anchors_offline_rooting opts rows anchors r0) as Hroot.
  destruct (verify_anchors_offline r0 rows anchors opts) as [r1 included]. cbn [fst snd] in *.
  apply anchor_frame_fields in F1 as (Ec1 & Et1 & Eu1).
  pose proof (verify_chain_frame r1 rows opts included) as F2.
  apply root_frame_fields in F2 as (Es2 & Ei2 & Eu2).
  assert (explained (verify_chain r1 rows opts included)) as Hexp.
  { apply verify_chain_explained. unfold explained. by rewrite Et1. }
  pose proof (verify_chain_valid opts included rows r1 Hu) as Hchain.
  pose proof (verify_chain_rooted opts included rows r1 Hu) as Hrooted.
  set (r2 := verify_chain r1 rows opts included) in *.
  pose proof (count_anchor_coverage_frame r2 rows anchors) as F3.
  pose proof (count_anchor_coverage_spec r2 rows anchors) as (_ & _ & Herr). cbv zeta in Herr.
  apply coverage_frame_fields in F3 as (Ec3 & Es3 & Ei3 & Et3 & Ef3).
  intros (_ & Hcv & Hsig & _ & _ & He & Hni)%verdict_pass. exists included.
  assert (errors r2 = [] ∧ holes (verified_from_seq r2) rows anchors = []) as [He2 Hh].
  { destruct (decide (errors r2 = [])) as [?|Hn]; [|by destruct Herr as [_ Herr]; destruct Herr; auto].
    destruct (holes (verified_from_seq r2) rows anchors) eqn:Eh; [done|].
    destruct Herr as [_ Herr]. destruct Herr; [by right|done]. }
  destruct Hinc as [Hinc|Hinc].
  { exfalso. apply Hni. rewrite Ei3, Ei2, Hinc. done. }
  assert (is_Some (tenant_pubkey opts)) as [w Hw].
  { destruct Hinc as (?&?&?&?&_&(?&w&?&?&_&_&_&->&_)&_). eauto. }
  rewrite Es3, Es2 in Hsig. destruct (Hsv Hsig) as (_ & Hsv' & _).
  apply verify_anchors_sv in Hsv' as [_ Hgood].
  assert (trust_established r2 = true) as Htr.
  { destruct (trust_established r2) eqn:Et; [done|]. by destruct (Hexp Et). }
  apply Hrooted in Htr as [_ Htr]. rewrite Ec3 in Hcv. apply Hchain in Hcv as [_ Hcv].
  split_and!; try done.
  - intros a Hin. destruct (Hgood a Hin) as [?|Hg]; [congruence|].
    apply good_anchor_evidence; [done| |done]. by eapply Forall_forall in Ha.
  - intros row Hin. destruct (Htr row Hin) as [start Hs]. exists start. split; [done|]. by apply Hcv.
  - by rewrite Ef3.
Qed.

(** ** Reading *)

(** Errors are only added, by every pass. *)
Lemma errors_push_mono seq kind r : errors r ≠ [] → errors (push_error seq kind r) ≠ [].
Proof. intros _. apply errors_push. Qed.

Lemma root_tenants_errors included rows r :
  errors r ≠ [] → errors (root_tenants included rows r).1.1 ≠ [].
Proof.
  unfold root_tenants. assert (∀ m st, errors st.1.1 ≠ [] →
    errors (fold_left (root_tenant included) m st).1.1 ≠ []) as Hm.
  { induction m as [|[t x] m IH]; intros [[r' starts] agg] He; [done|]. cbn [fold_left]. apply IH.
    simpl. destruct (tenant_start included t x); [done|]. apply errors_push. }
  intros He. by apply (Hm _ (r, [], None)).
Qed.

Lemma verify_chain_errors r rows opts included :
  errors r ≠ [] → errors (verify_chain r rows opts included) ≠ [].
Proof.
  intros He. apply (root_tenants_errors included rows) in He. unfold verify_chain.
  destruct (root_tenants included rows r) as [[r' starts] agg]. simpl in He.
  apply chain_rows_errors. revert He. by destruct r'.
Qed.

Lemma verify_anchor_errors opts keys (st : AnchorState) a :
  errors (as_report st) ≠ [] → errors (as_report (verify_anchor opts keys st a)) ≠ [].
Proof.
  assert (∀ k r, errors (fail_signatures k r) ≠ []) as Hf.
  { intros k []. simpl. by destruct errors. }
  intros He. destruct (verify_anchor_case opts keys st a) as [kind strip|Hk|root platform entry _]; simpl.
  - apply Hf.
  - revert He. by destruct (as_report st).
  - unfold verify_entry. repeat case_match; simpl; try done; try apply Hf;
      revert He; by destruct (as_report st).
Qed.

Lemma verify_anchors_errors opts keys anchors (st : AnchorState) :
  errors (as_report st) ≠ [] → errors (as_report (fold_left (verify_anchor opts keys) anchors st)) ≠ [].
Proof.
  revert st. induction anchors as [|a anchors IH]; intros st He; [done|].
  cbn [fold_left]. by apply IH, verify_anchor_errors.
Qed.

Lemma check_signers_errors opts (signers : BTreeMap.t (Z * list SeqRange)) r :
  errors r ≠ [] → errors (fold_left (check_signers opts) signers r) ≠ [].
Proof.
  revert r. induction signers as [|[t [ws ranges]] signers IH]; intros r He; [done|].
  cbn [fold_left]. apply IH. simpl. clear IH. revert r He.
  induction ranges as [|x ranges IH]; intros r He; [done|]. cbn [fold_left]. apply IH.
  unfold check_platform_range. case_match; destruct r; simpl in *; [by destruct errors|done].
Qed.

Lemma verify_anchors_offline_errors r rows anchors opts :
  errors r ≠ [] → errors (verify_anchors_offline r rows anchors opts).1 ≠ [].
Proof.
  intros He. unfold verify_anchors_offline. destruct anchors as [|a anchors]; [done|]. cbn [fst].
  set (st := fold_left (verify_anchor _ _) _ _).
  assert (errors (fold_left (check_signers opts) (as_signers st) (as_report st)) ≠ []) as Hc
    by (by apply check_signers_errors, verify_anchors_errors).
  revert Hc. by destruct (fold_left (check_signers _) _ _).
Qed.

Lemma verify_records_errors r rows anchors opts :
  errors r ≠ [] → errors (verify_records r rows anchors opts) ≠ [].
Proof.
  intros He. unfold verify_records.
  assert (errors (set_rows_seen (lenZ rows) r) ≠ []) as He0 by (by destruct r).
  apply (verify_anchors_offline_errors _ rows anchors opts) in He0.
  destruct (verify_anchors_offline _ rows anchors opts) as [r1 included]. cbn [fst] in He0.
  apply count_anchor_coverage_spec. left. by apply verify_chain_errors.
Qed.

(** What a line holds: nothing, a row, an anchor, or something unreadable. *)
Inductive line_kind : Type :=
  | Blank
  | RowLine (row : AuditRow)
  | AnchorLine (a : AnchorRecord)
  | Unreadable.

Definition line_of (line : bytes) : line_kind :=
  if bool_decide (trim line = []) then Blank
  else
    match from_slice line with
    | None => Unreadable
    | Some value =>
        if bool_decide (value_get value (lit "type") ≫= as_str = Some (lit "anchor")) then
          match anchor_from_value value with Some a => AnchorLine a | None => Unreadable end
        else match row_from_value value with Some r => RowLine r | None => Unreadable end
    end.

Definition rows_in (lines : list bytes) : list AuditRow :=
  omap (λ l, match line_of l with RowLine r => Some r | _ => None end) lines.
Definition anchors_in (lines : list bytes) : list AnchorRecord :=
  omap (λ l, match line_of l with AnchorLine a => Some a | _ => None end) lines.

Lemma read_line_kind r rows anchors line :
  ∃ r', read_line (r, rows, anchors) line =
    match line_of line with
    | Blank => (r', rows, anchors)
    | RowLine row => (r', rows ++ [row], anchors)
    | AnchorLine a => (r', rows, anchors ++ [a])
    | Unreadable => (r', rows, anchors)
    end ∧
    match line_of line with Unreadable => errors r' ≠ [] | _ => r' = r end.
Proof.
  unfold read_line, line_of. assert (∀ s k, errors (fail_chain s k r) ≠ []) as Hf.
  { intros s k. destruct r. simpl. by destruct errors. }
  repeat case_match; eauto. eexists. split; [done|]. apply errors_push.
Qed.

Lemma read_lines_spec {IoError} (lines : list bytes) r rows anchors :
  ∃ r', read_lines (IoError:=IoError) (r, rows, anchors) (Ok <$> lines) =
          Ok (r', rows ++ rows_in lines, anchors ++ anchors_in lines) ∧
    (errors r' = [] → r' = r ∧ Forall (λ l, line_of l ≠ Unreadable) lines).
Proof.
  revert r rows anchors. induction lines as [|line lines IH]; intros r rows anchors.
  { exists r. cbn. rewrite !(right_id_L [] (++)). auto. }
  change (Ok <$> line :: lines) with (@Ok bytes IoError line :: (Ok <$> lines)). cbn [read_lines].
  destruct (read_line_kind r rows anchors line) as (r1 & E & Hr1). rewrite E.
  unfold rows_in, anchors_in in *. cbn [omap list_omap].
  destruct (line_of line) eqn:El; subst; edestruct IH as (r' & -> & Hr'); exists r'; split;
    rewrite <- ?(assoc_L (++)); try done; intros He; destruct (Hr' He) as [-> Hall];
    split; try done; constructor; try done; congruence.
Qed.

Lemma verdict_errors r : errors r ≠ [] → verdict_of r = Fail.
Proof.
  intros He. unfold verdict_of, verdict_clean. destruct (errors r) as [|e l]; [by destruct He|].
  by rewrite andb_false_r.
Qed.

(** Nothing in the export is skipped silently: reading stops at a read error;
    otherwise a verdict other than FAIL means that every non-blank line was read as
    a row or an anchor record and that all of them, in order, are what the passes
    verified. *)
Theorem reader_reads_everything {IoError} (lines : list bytes) (e : IoError) label opts :
  (∀ rest, verify_ledger_reader (IoError:=IoError) ((Ok <$> lines) ++ Err e :: rest) label opts = Err e) ∧
  ∃ report,
    verify_ledger_reader (IoError:=IoError) (Ok <$> lines) label opts = Ok report ∧
    (verdict_of report ≠ Fail →
     Forall (λ l, line_of l ≠ Unreadable) lines ∧
     report = verify_records (empty_labeled label) (rows_in lines) (anchors_in lines) opts).
Proof.
  split.
  - intros rest. unfold verify_ledger_reader. generalize (empty_labeled label, @nil AuditRow, @nil AnchorRecord).
    induction lines as [|l lines IH]; intros st; [done|]. apply IH.
  - unfold verify_ledger_reader.
    destruct (read_lines_spec (IoError:=IoError) lines (empty_labeled label) [] []) as (r' & -> & Hr').
    cbn [rbind]. eexists. split; [done|]. intros Hv. cbn [app] in *.
    destruct (decide (errors r' = [])) as [He|He].
    + destruct (Hr' He) as [-> Hall]. done.
    + exfalso. by apply Hv, verdict_errors, verify_records_errors.
Qed.

(** The options with the fields that name an online check replaced. *)
Definition with_online_options (offl : bool) (pinned : option bytes) (url : bytes) (timeout : Z)
    (opts : VerifyOptions) : VerifyOptions := {|
  format_version := format_version opts; offline := offl; rekor_url := url; rekor_timeout_secs := timeout;
  pinned_pubkey := pinned; tenant_pubkey := tenant_pubkey opts; platform_pubkeys := platform_pubkeys opts;
  workspace_key_since_seq := workspace_key_since_seq opts |}.

(** A pinned key and the offline switch have no effect: the report of any
    export is the same whatever [pinned_pubkey] and [offline] are (and the Rekor
    URL and timeout), so an anchor whose key differs from the pinned one is not
    refused for it, and [offline] skips no anchor check. *)
Theorem pinned_key_is_never_checked {IoError} (lines : list (result bytes IoError)) label opts offl pinned url timeout :
  verify_ledger_reader lines label (with_online_options offl pinned url timeout opts) =
  verify_ledger_reader lines label opts.
Proof. by destruct opts. Qed.

End verdict.

(** ** Witness *)

Lemma pass_is_evidence_witness :
  let report := @verify_records fips_sha256 text_number demo_serde demo_crypto (empty_labeled [])
    boundary_rows [boundary_anchor] demo_options in
  verdict_of report = Pass ∧
  holes (verified_from_seq report) boundary_rows [boundary_anchor] = [].
Proof.
  intros report.
  assert (verdict_of report = Pass) as Hp by (vm_compute; reflexivity).
  split; [exact Hp|].
  destruct (@pass_is_evidence fips_sha256 text_number demo_serde demo_crypto demo_options []
    boundary_rows [boundary_anchor] boundary_rows_u64 boundary_anchor_u64 Hp)
    as (included & _ & _ & _ & _ & _ & Hh).
  exact Hh.
Defined.
