(* ===== verification/Ledger.v ===== *)
(** * The ledger's producer: the canonical store and the appends

    [crates/gateway/src/db/audit_chain_state.rs] ([append_atomic_batch], [upsert]),
    [crates/gateway/src/db/ledger.rs] (rows, anchor records and the queries over
    them) and [crates/gateway/src/audit.rs] ([append_pg_batch], the anchor
    triggers, the age sweep, the copy reconcile, the export).

    The Postgres tables are a record ([Store]); a statement is a function on it,
    and a transaction that fails leaves it unchanged.  The [uuid] crate is a
    parameter ([Uuid]): a printed uuid is its hexadecimal digits with dashes, and
    parsing inverts printing.  Times are arguments. *)

From Stdlib Require Import ZArith Lia.
From stdpp Require Import base list option gmap strings sorting.
From S2P Require Import Prelude BTree Encoding Hash Merkle Json AuditFormat AuditVerifier.

(** ** Uuids *)

Class Uuid := {
  uuid_to_string : bytes → bytes;
  uuid_parse_str : bytes → option bytes;
  uuid_string_hex : ∀ u, length u = 16%nat →
    filter (λ c, c ≠ dash) (uuid_to_string u) = hex_encode u;
  uuid_parse_string : ∀ u, length u = 16%nat → uuid_parse_str (uuid_to_string u) = Some u;
}.

(** ** Rows and anchor records *)

Record AuditLogRow := {
  lr_tenant_id : bytes;
  lr_seq : Z;
  lr_event_time : Z;
  lr_event_type : bytes;
  lr_actor : bytes;
  lr_payload : bytes;
  lr_prev_hash : bytes;
  lr_row_hash : bytes;
  lr_rekor_entry_id : option bytes;
  lr_signature : bytes;
  lr_signing_pubkey : bytes;
}.

Record AuditAnchorRecordRow := {
  ar_tenant_id : bytes;
  ar_batch_start_seq : Z;
  ar_batch_end_seq : Z;
  ar_merkle_root : bytes;
  ar_anchor_state : bytes;
  ar_ed25519_sig : bytes;
  ar_ed25519_pubkey : bytes;
  ar_ecdsa_pubkey_spki : bytes;
  ar_rekor_log_url : bytes;
  ar_rekor_log_index : bytes;
  ar_canonicalized_body : bytes;
  ar_inclusion_proof : bytes;
  ar_checkpoint_envelope : bytes;
  ar_anchored_at : Z;
}.

Record PendingLedgerRow := {
  pl_event_type : bytes;
  pl_actor : bytes;
  pl_payload_json : bytes;
}.

(** The tables: [audit_log_rows], [audit_chain_state], [audit_appended],
    [audit_anchor_records]. *)
Record Store := {
  st_rows : list AuditLogRow;
  st_heads : gmap bytes (Z * bytes);
  st_appended : gset bytes;
  st_anchors : list AuditAnchorRecordRow;
}.

Definition empty_store : Store :=
  {| st_rows := []; st_heads := ∅; st_appended := ∅; st_anchors := [] |}.

(** Why an append was refused; the transaction is rolled back. *)
Inductive AppendError : Type :=
  | IdCountMismatch
  | MalformedHead
  | CorruptSeq
  | BuildRowsFailed
  | RowCountMismatch
  | BadRowHash
  | BadTenantId
  | SeqOverflow.

(** ** Queries *)

Definition with_rows (rows : list AuditLogRow) (s : Store) : Store :=
  {| st_rows := rows; st_heads := st_heads s; st_appended := st_appended s; st_anchors := st_anchors s |}.
Definition with_heads (heads : gmap bytes (Z * bytes)) (s : Store) : Store :=
  {| st_rows := st_rows s; st_heads := heads; st_appended := st_appended s; st_anchors := st_anchors s |}.
Definition with_appended (ids : gset bytes) (s : Store) : Store :=
  {| st_rows := st_rows s; st_heads := st_heads s; st_appended := ids; st_anchors := st_anchors s |}.
Definition with_anchors (anchors : list AuditAnchorRecordRow) (s : Store) : Store :=
  {| st_rows := st_rows s; st_heads := st_heads s; st_appended := st_appended s; st_anchors := anchors |}.

Definition decode_hash_hex (s : bytes) : option bytes := ok (hex_decode_32 s).

Definition seq_i64 (seq : Z) : option Z := if (seq <=? i64_max)%Z then Some seq else None.

(** [ON CONFLICT (tenant_id, seq) DO NOTHING]. *)
Definition insert_row (rows : list AuditLogRow) (r : AuditLogRow) : list AuditLogRow :=
  if existsb (λ x, bool_decide (lr_tenant_id x = lr_tenant_id r) && (lr_seq x =? lr_seq r)%Z) rows
  then rows else rows ++ [r].

Fixpoint insert_rows_tx `{Uuid} (rows : list AuditLogRow) (table : list AuditLogRow)
    : result (list AuditLogRow) AppendError :=
  match rows with
  | [] => Ok table
  | r :: rows' =>
      let? _ := ok_or (uuid_parse_str (lr_tenant_id r)) BadTenantId in
      let? _ := ok_or (seq_i64 (lr_seq r)) SeqOverflow in
      insert_rows_tx rows' (insert_row table r)
  end.

(** [ON CONFLICT (tenant_id, batch_start_seq) DO NOTHING]; a record that cannot be
    bound to the statement is an error, and leaves the table as it is. *)
Definition insert_anchor_record `{Uuid} (s : Store) (a : AuditAnchorRecordRow) : Store :=
  match uuid_parse_str (ar_tenant_id a), seq_i64 (ar_batch_start_seq a), seq_i64 (ar_batch_end_seq a) with
  | Some _, Some _, Some _ =>
      if existsb (λ x, bool_decide (ar_tenant_id x = ar_tenant_id a) &&
                       (ar_batch_start_seq x =? ar_batch_start_seq a)%Z) (st_anchors s)
      then s else with_anchors (st_anchors s ++ [a]) s
  | _, _, _ => s
  end.

(** [audit_chain_state::upsert]: the head only advances. *)
Definition upsert (s : Store) (tenant : bytes) (last_seq : Z) (last_row_hash : bytes) : Store :=
  match st_heads s !! tenant with
  | None => with_heads (<[tenant := (last_seq, last_row_hash)]> (st_heads s)) s
  | Some (seq0, hash0) =>
      with_heads (<[tenant := (Z.max seq0 last_seq,
                               if (seq0 <? last_seq)%Z then last_row_hash else hash0)]> (st_heads s)) s
  end.

(** ** [append_atomic_batch] *)

Record AtomicBatchAppend := {
  ab_first_seq : Z;
  ab_prev_hash : bytes;
  ab_row_hashes : list bytes;
  ab_kept : list nat;
  ab_rows : list AuditLogRow;
}.

(** The ids in order, later repetitions dropped. *)
Fixpoint unique_ids (seen : gset bytes) (ids : list bytes) : list bytes :=
  match ids with
  | [] => []
  | id :: ids' => if decide (id ∈ seen) then unique_ids seen ids' else id :: unique_ids ({[id]} ∪ seen) ids'
  end.

Definition first_index (ids : list bytes) (id : bytes) : nat :=
  from_option fst 0%nat (list_find (λ x, x = id) ids).

(** The indices of the events that are new, and the ids they add. *)
Definition dedup_ids (appended : gset bytes) (ids : list bytes) : list nat * gset bytes :=
  let inserted := filter (λ id, id ∉ appended) (unique_ids ∅ ids) in
  (merge_sort Nat.le (first_index ids <$> inserted), list_to_set inserted ∪ appended).

Definition GENESIS_LAST_SEQ : Z := -1.

Section append.
Context `{Sha256Fn} `{!Uuid}.

Definition append_atomic_batch (s : Store) (tenant genesis_prev_hash : bytes)
    (dedup : option (list bytes)) (count : nat)
    (build_rows : Z → bytes → list nat → option (list AuditLogRow))
    : result (option AtomicBatchAppend * Store) AppendError :=
  if (count =? 0)%nat then Ok (None, s) else
  if match dedup with Some ids => negb (length ids =? count)%nat | None => false end
  then Err IdCountMismatch else
  let '(kept, appended) :=
    match dedup with
    | Some ids => dedup_ids (st_appended s) ids
    | None => (seq 0 count, st_appended s)
    end in
  match kept with
  | [] => Ok (None, s)
  | _ =>
      let n := length kept in
      let heads :=
        match st_heads s !! tenant with
        | Some _ => st_heads s
        | None => <[tenant := (GENESIS_LAST_SEQ, genesis_prev_hash)]> (st_heads s)
        end in
      let '(last_seq, prev_hash) := default (GENESIS_LAST_SEQ, genesis_prev_hash) (heads !! tenant) in
      if negb (length prev_hash =? 32)%nat then Err MalformedHead else
      let first_seq := (last_seq + 1)%Z in
      if (first_seq <? 0)%Z then Err CorruptSeq else
      let? rows := ok_or (build_rows first_seq prev_hash kept) BuildRowsFailed in
      if negb (length rows =? n)%nat then Err RowCountMismatch else
      let? row_hashes := ok_or (mapM (λ r, decode_hash_hex (lr_row_hash r)) rows) BadRowHash in
      let? table := insert_rows_tx rows (st_rows s) in
      let last_seq_new := (first_seq + (Z.of_nat n - 1))%Z in
      let head := default [] (last row_hashes) in
      Ok (Some {| ab_first_seq := first_seq; ab_prev_hash := prev_hash; ab_row_hashes := row_hashes;
                  ab_kept := kept; ab_rows := rows |},
          with_heads (<[tenant := (last_seq_new, head)]> heads)
            (with_appended appended (with_rows table s)))
  end.

(** The closure of [append_pg_batch]: chain the kept items from the claimed head. *)
Fixpoint build_rows (tenant : bytes) (items : list PendingLedgerRow) (event_time : Z)
    (seq : Z) (prev : bytes) (kept : list nat) : option (list AuditLogRow) :=
  match kept with
  | [] => Some []
  | idx :: kept' =>
      item ← items !! idx;
      let row_hash :=
        row_hash_v2 prev tenant seq (pl_event_type item) (pl_actor item) (pl_payload_json item) in
      rows ← build_rows tenant items event_time (seq + 1) row_hash kept';
      Some ({| lr_tenant_id := uuid_to_string tenant; lr_seq := seq; lr_event_time := event_time;
               lr_event_type := pl_event_type item; lr_actor := pl_actor item;
               lr_payload := pl_payload_json item; lr_prev_hash := hex_encode prev;
               lr_row_hash := hex_encode row_hash; lr_rekor_entry_id := None;
               lr_signature := []; lr_signing_pubkey := [] |} :: rows)
  end.

(** ** Anchor triggers *)

Definition anchor_batch_start (last_anchored_end : option Z) (end_seq anchor_every : Z) : Z :=
  let by_threshold := sat_sub (end_seq + 1) anchor_every in
  match last_anchored_end with
  | Some prev_end => Z.max by_threshold (prev_end + 1)
  | None => by_threshold
  end.

Record TenantChainState := {
  cs_seq : Z;
  cs_prev_hash : bytes;
  cs_pending_hashes : list bytes;
  cs_batch_start_seq : Z;
  cs_last_anchored_end : option Z;
}.

Definition genesis_state (tenant : bytes) : TenantChainState :=
  {| cs_seq := 0; cs_prev_hash := genesis_v2 tenant; cs_pending_hashes := [];
     cs_batch_start_seq := 0; cs_last_anchored_end := None |}.

Definition last_anchored_end (states : gmap bytes TenantChainState) (tenant : bytes) : option Z :=
  states !! tenant ≫= cs_last_anchored_end.

Definition with_anchored_end (e : Z) (c : TenantChainState) : TenantChainState :=
  {| cs_seq := cs_seq c; cs_prev_hash := cs_prev_hash c; cs_pending_hashes := cs_pending_hashes c;
     cs_batch_start_seq := cs_batch_start_seq c; cs_last_anchored_end := Some e |}.

Definition set_last_anchored_end (states : gmap bytes TenantChainState) (tenant : bytes) (end_seq : Z)
    : gmap bytes TenantChainState :=
  let g := default (genesis_state tenant) (states !! tenant) in
  let g := if match cs_last_anchored_end g with None => true | Some prev => (prev <? end_seq)%Z end
           then with_anchored_end end_seq g else g in
  <[tenant := g]> states.

(** The loop over [first_seq..=last_seq]: the batches handed to the anchor task. *)
Fixpoint threshold_anchors (states : gmap bytes TenantChainState) (tenant : bytes) (n : Z)
    (seqs : list Z) : gmap bytes TenantChainState * list (Z * Z) :=
  match seqs with
  | [] => (states, [])
  | seq :: seqs' =>
      if negb ((seq + 1) mod n =? 0)%Z then threshold_anchors states tenant n seqs'
      else
        let batch_start := anchor_batch_start (last_anchored_end states tenant) seq n in
        let '(states', batches) :=
          threshold_anchors (set_last_anchored_end states tenant seq) tenant n seqs' in
        (states', (batch_start, seq) :: batches)
  end.

Record PgAppend := {
  pa_store : Store;
  pa_states : gmap bytes TenantChainState;
  pa_copied : list AuditLogRow;
  pa_batches : list (Z * Z);
}.

(** [append_pg_batch]: the rows to copy to ClickHouse and the anchor batches to
    start are results (both happen after the commit). *)
Definition append_pg_batch (s : Store) (states : gmap bytes TenantChainState) (anchor_every : Z)
    (tenant : bytes) (items : list PendingLedgerRow) (event_ids : option (list bytes)) (now : Z)
    : result PgAppend AppendError :=
  let? '(outcome, s') :=
    append_atomic_batch s tenant (genesis_v2 tenant) event_ids (length items)
      (build_rows tenant items now) in
  match outcome with
  | None => Ok {| pa_store := s'; pa_states := states; pa_copied := []; pa_batches := [] |}
  | Some o =>
      let last_seq := (ab_first_seq o + lenZ (ab_row_hashes o) - 1)%Z in
      let '(states', batches) :=
        if (0 <? anchor_every)%Z
        then threshold_anchors states tenant anchor_every
               (seqZ (ab_first_seq o) (last_seq - ab_first_seq o + 1))
        else (states, []) in
      Ok {| pa_store := s'; pa_states := states'; pa_copied := ab_rows o; pa_batches := batches |}
  end.

End append.

(** ** Anchoring a batch *)

(** Base64 of the [base64] crate's standard engine. *)
Class Base64 := {
  B64 : bytes → bytes;
  B64_decode : ∀ x, base64_decode (B64 x) = Some x;
}.

Record RekorV2Receipt := {
  rr_log_url : bytes;
  rr_log_index : bytes;
  rr_log_index_u64 : Z;
  rr_canonicalized_body_b64 : bytes;
  rr_inclusion_proof : bytes;
  rr_checkpoint_envelope : bytes;
}.

Record BatchAnchorOutcome := {
  bo_ed25519_sig_b64 : bytes;
  bo_ed25519_pubkey_b64 : bytes;
  bo_anchored : bool;
  bo_receipt : option RekorV2Receipt;
  bo_ecdsa_spki_b64 : bytes;
}.

Definition is_signed (o : BatchAnchorOutcome) : bool := negb (bool_decide (bo_ed25519_sig_b64 o = [])).

Definition rekor_entry_id (o : BatchAnchorOutcome) : bytes :=
  match bo_receipt o with
  | Some r => rr_log_index r
  | None => if is_signed o then lit "(no-rekor)" else lit "(no-key)"
  end.

(** A key pair: its signing function and its public key. *)
Record Signer := { sign : bytes → bytes; public_key : bytes }.

Definition row_seq_le (a b : AuditLogRow) : Prop := (lr_seq a ≤ lr_seq b)%Z.
#[global] Instance row_seq_le_dec : RelDecision row_seq_le.
Proof. intros a b. unfold row_seq_le. solve_decision. Defined.

Definition MAX_SWEEP_BATCH : Z := 10000.

(** Which of an anchor task's three statements the database executed. *)
Record StatementOutcomes := {
  insert_ok : bool;
  signature_ok : bool;
  entry_id_ok : bool;
}.

Definition all_ok : StatementOutcomes :=
  {| insert_ok := true; signature_ok := true; entry_id_ok := true |}.

Section anchoring.
Context `{Sha256Fn} `{!Uuid} `{!Base64}.

(** [anchor_batch], after the key look-ups and the submission to Rekor: the
    receipt with the anchor key's SPKI, and the tenant's or the global signer. *)
Definition anchor_batch (root : bytes) (anchored : option (RekorV2Receipt * bytes))
    (ed_keypair global : option Signer) : BatchAnchorOutcome :=
  let commitment :=
    match anchored with
    | Some (r, spki) => anchor_commitment (Some (spki, rr_log_url r, rr_log_index_u64 r))
    | None => anchor_commitment None
    end in
  let msg := local_attest_msg root commitment in
  let signed :=
    match ed_keypair with
    | Some kp => Some (sign kp msg, public_key kp)
    | None => (λ k, (sign k msg, public_key k)) <$> global
    end in
  let '(sig, pk) := match signed with Some (sig, pk) => (B64 sig, B64 pk) | None => ([], []) end in
  match anchored with
  | Some (r, spki) =>
      {| bo_ed25519_sig_b64 := sig; bo_ed25519_pubkey_b64 := pk; bo_anchored := true;
         bo_receipt := Some r; bo_ecdsa_spki_b64 := B64 spki |}
  | None =>
      {| bo_ed25519_sig_b64 := sig; bo_ed25519_pubkey_b64 := pk; bo_anchored := false;
         bo_receipt := None; bo_ecdsa_spki_b64 := [] |}
  end.

Definition build_anchor_record (tenant root : bytes) (start_seq end_seq : Z) (outcome : BatchAnchorOutcome)
    (now : Z) : AuditAnchorRecordRow :=
  let field f := from_option f [] (bo_receipt outcome) in
  {| ar_tenant_id := uuid_to_string tenant; ar_batch_start_seq := start_seq; ar_batch_end_seq := end_seq;
     ar_merkle_root := hex_encode root;
     ar_anchor_state := if bo_anchored outcome then lit "anchored" else lit "unanchored";
     ar_ed25519_sig := bo_ed25519_sig_b64 outcome; ar_ed25519_pubkey := bo_ed25519_pubkey_b64 outcome;
     ar_ecdsa_pubkey_spki := bo_ecdsa_spki_b64 outcome; ar_rekor_log_url := field rr_log_url;
     ar_rekor_log_index := field rr_log_index; ar_canonicalized_body := field rr_canonicalized_body_b64;
     ar_inclusion_proof := field rr_inclusion_proof; ar_checkpoint_envelope := field rr_checkpoint_envelope;
     ar_anchored_at := now |}.

(** [read_row_hashes]: [WHERE seq >= start AND seq <= end ORDER BY seq]. *)
Definition read_row_hashes (s : Store) (tenant : bytes) (start_seq end_seq : Z) : option (list bytes) :=
  _ ← seq_i64 start_seq; _ ← seq_i64 end_seq;
  mapM (λ r, decode_hash_hex (lr_row_hash r))
    (merge_sort row_seq_le
       (filter (λ r, lr_tenant_id r = uuid_to_string tenant ∧ (start_seq ≤ lr_seq r ≤ end_seq)%Z) (st_rows s))).

(** [end_seq - start_seq + 1], wrapping. *)
Definition expected_leaves (start_seq end_seq : Z) : Z := (end_seq - start_seq + 1) mod 2 ^ 64.

(** [anchor_batch_from_store]: the leaves handed to the anchor task, if any. *)
Definition anchor_batch_from_store (s : Store) (tenant : bytes) (start_seq end_seq : Z)
    : option (list bytes) :=
  hashes ← read_row_hashes s tenant start_seq end_seq;
  if (lenZ hashes =? expected_leaves start_seq end_seq)%Z then Some hashes else None.

(** The canonical half of [anchor_task]: the bundle and the two backfills. *)
Definition backfill (tenant : bytes) (start_seq end_seq : Z) (f : AuditLogRow → AuditLogRow) (s : Store)
    : Store :=
  match seq_i64 start_seq, seq_i64 end_seq with
  | Some _, Some _ =>
      with_rows
        ((λ r, if decide (lr_tenant_id r = uuid_to_string tenant ∧ (start_seq ≤ lr_seq r ≤ end_seq)%Z)
               then f r else r) <$> st_rows s) s
  | _, _ => s
  end.

Definition set_signature (sig pk : bytes) (r : AuditLogRow) : AuditLogRow :=
  {| lr_tenant_id := lr_tenant_id r; lr_seq := lr_seq r; lr_event_time := lr_event_time r;
     lr_event_type := lr_event_type r; lr_actor := lr_actor r; lr_payload := lr_payload r;
     lr_prev_hash := lr_prev_hash r; lr_row_hash := lr_row_hash r;
     lr_rekor_entry_id := lr_rekor_entry_id r; lr_signature := sig; lr_signing_pubkey := pk |}.

Definition set_entry_id (id : bytes) (r : AuditLogRow) : AuditLogRow :=
  {| lr_tenant_id := lr_tenant_id r; lr_seq := lr_seq r; lr_event_time := lr_event_time r;
     lr_event_type := lr_event_type r; lr_actor := lr_actor r; lr_payload := lr_payload r;
     lr_prev_hash := lr_prev_hash r; lr_row_hash := lr_row_hash r;
     lr_rekor_entry_id := Some id; lr_signature := lr_signature r; lr_signing_pubkey := lr_signing_pubkey r |}.

(** [is_real_rekor_entry]: not one of the sentinels. *)
Definition is_real_rekor_entry (id : bytes) : bool :=
  negb (bool_decide (id ∈ [lit "(no-key)"; lit "(no-rekor)"; lit "(unknown-uuid)"])).

(** [anchor_task] on the canonical store: the signed bundle, the signature and
    the log index; each statement is its own transaction, and one that fails is
    noted and skipped. *)
Definition anchor_task (db : StatementOutcomes) (s : Store) (tenant : bytes) (hashes : list bytes) (start_seq end_seq : Z)
    (anchored : option (RekorV2Receipt * bytes)) (ed_keypair global : option Signer) (now : Z) : Store :=
  let root := merkle_root_v2 hashes in
  let outcome := anchor_batch root anchored ed_keypair global in
  let entry_id := rekor_entry_id outcome in
  let s :=
    if is_signed outcome then
      let s :=
        if insert_ok db
        then insert_anchor_record s (build_anchor_record tenant root start_seq end_seq outcome now)
        else s in
      if signature_ok db
      then backfill tenant start_seq end_seq
             (set_signature (bo_ed25519_sig_b64 outcome) (bo_ed25519_pubkey_b64 outcome)) s
      else s
    else s in
  if is_real_rekor_entry entry_id && entry_id_ok db
  then backfill tenant start_seq end_seq (set_entry_id entry_id) s
  else s.

(** ** The age sweep *)

Record UncoveredProbe := {
  up_seq : Z;
  up_age_secs : Z;
  up_head : Z;
  up_watermark : option Z;
}.

Definition in_batch (tenant : bytes) (seq : Z) (a : AuditAnchorRecordRow) : bool :=
  bool_decide (ar_tenant_id a = uuid_to_string tenant) &&
  (ar_batch_start_seq a <=? seq)%Z && (seq <=? ar_batch_end_seq a)%Z.

Definition tenant_rows (s : Store) (tenant : bytes) : list AuditLogRow :=
  filter (λ r, lr_tenant_id r = uuid_to_string tenant) (st_rows s).

Definition tenant_anchors (s : Store) (tenant : bytes) : list AuditAnchorRecordRow :=
  filter (λ a, ar_tenant_id a = uuid_to_string tenant) (st_anchors s).

(** [max(..)] and [min(..)] of a column; [None] is SQL's NULL. *)
Definition max_of (l : list Z) : option Z :=
  match l with [] => None | x :: l' => Some (foldr Z.max x l') end.
Definition min_of (l : list Z) : option Z :=
  match l with [] => None | x :: l' => Some (foldr Z.min x l') end.

(** [oldest_uncovered]: the lowest row in no batch. *)
Definition oldest_uncovered (s : Store) (tenant : bytes) (now : Z) : option UncoveredProbe :=
  let uncovered :=
    filter (λ r, existsb (in_batch tenant (lr_seq r)) (st_anchors s) = false) (tenant_rows s tenant) in
  match merge_sort row_seq_le uncovered with
  | [] => None
  | u :: _ =>
      Some {| up_seq := lr_seq u;
              up_age_secs := Z.max 0 ((now - lr_event_time u) / 1000000);
              up_head := default 0%Z (max_of (lr_seq <$> tenant_rows s tenant));
              up_watermark := max_of (ar_batch_end_seq <$> tenant_anchors s tenant) |}
  end.

Definition next_anchor_start_after (s : Store) (tenant : bytes) (seq : Z) : option Z :=
  min_of (filter (λ x, (seq < x)%Z) (ar_batch_start_seq <$> tenant_anchors s tenant)).

(** The decision of one pass for one tenant: the batch it anchors, if any. *)
Definition sweep_batch (s : Store) (tenant : bytes) (now max_age_secs : Z) : option (Z * Z) :=
  match oldest_uncovered s tenant now with
  | None => None
  | Some u =>
      let is_hole := match up_watermark u with Some w => (up_seq u <=? w)%Z | None => false end in
      if negb is_hole && (up_age_secs u <? max_age_secs)%Z then None else
      let batch_start := up_seq u in
      if (up_head u <? batch_start)%Z then None else
      let batch_end := Z.min (up_head u) (sat_add64 batch_start (MAX_SWEEP_BATCH - 1)) in
      let batch_end :=
        match next_anchor_start_after s tenant batch_start with
        | Some next_start => Z.min batch_end (sat_sub next_start 1)
        | None => batch_end
        end in
      if (batch_end <? batch_start)%Z then None else Some (batch_start, batch_end)
  end.

(** One pass of [flush_aged_batches] for one tenant, its claim granted: the batch
    is read back and anchored, and the watermark cache follows. *)
Definition sweep_tenant (db : StatementOutcomes) (s : Store) (states : gmap bytes TenantChainState) (tenant : bytes)
    (now max_age_secs : Z) (anchored : option (RekorV2Receipt * bytes)) (ed_keypair global : option Signer)
    : Store * gmap bytes TenantChainState * bool :=
  match sweep_batch s tenant now max_age_secs with
  | None => (s, states, false)
  | Some (batch_start, batch_end) =>
      match anchor_batch_from_store s tenant batch_start batch_end with
      | None => (s, states, false)
      | Some hashes =>
          (anchor_task db s tenant hashes batch_start batch_end anchored ed_keypair global now,
           set_last_anchored_end states tenant batch_end, true)
      end
  end.

(** ** Reconciling with the ClickHouse copy *)

Definition copy_row_chains (row : AuditLogRow) (tenant running_prev : bytes) : option bytes :=
  match hex_decode_32 (lr_prev_hash row), hex_decode_32 (lr_row_hash row) with
  | Ok prev, Ok stored =>
      if negb (bool_decide (prev = running_prev)) then None
      else
        let recomputed :=
          row_hash_v2 prev tenant (lr_seq row) (lr_event_type row) (lr_actor row) (lr_payload row) in
        if negb (bool_decide (recomputed = stored)) then None else Some stored
  | _, _ => None
  end.

(** Rule 1, over one page: rows adopted, number and hash reached, and whether the
    walk stopped. *)
Fixpoint fill_page (tenant : bytes) (head_seq from_seq : Z) (running_prev : bytes)
    (recovered : list AuditLogRow) (page : list AuditLogRow)
    : Z * bytes * list AuditLogRow * bool :=
  match page with
  | [] => (from_seq, running_prev, recovered, false)
  | r :: page' =>
      if negb (lr_seq r =? from_seq + 1)%Z || (head_seq <? lr_seq r)%Z
      then (from_seq, running_prev, recovered, true)
      else
        match copy_row_chains r tenant running_prev with
        | None => (from_seq, running_prev, recovered, true)
        | Some rh =>
            if (lr_seq r =? head_seq)%Z then (lr_seq r, rh, recovered ++ [r], true)
            else fill_page tenant head_seq (lr_seq r) rh (recovered ++ [r]) page'
        end
  end.

Definition RECONCILE_LIMIT : nat := 10000.

(** [read_full_rows_from]/[_after]: the tenant's rows above [from_seq], by
    sequence number, one page of them. *)
Definition copy_page (copy : list AuditLogRow) (tenant : bytes) (from_seq : Z) : list AuditLogRow :=
  take RECONCILE_LIMIT
    (merge_sort row_seq_le
       (filter (λ r, lr_tenant_id r = uuid_to_string tenant ∧ (from_seq < lr_seq r)%Z) copy)).

(** The page loop; every page but the last adopts a row, so one step per row and
    one more is enough. *)
Fixpoint fill_from_copy (fuel : nat) (copy : list AuditLogRow) (tenant : bytes) (head_seq from_seq : Z)
    (running_prev : bytes) (recovered : list AuditLogRow) : Z * bytes * list AuditLogRow :=
  match fuel with
  | O => (from_seq, running_prev, recovered)
  | S fuel' =>
      match copy_page copy tenant from_seq with
      | [] => (from_seq, running_prev, recovered)
      | page =>
          let '(from_seq', running_prev', recovered', stop) :=
            fill_page tenant head_seq from_seq running_prev recovered page in
          if stop then (from_seq', running_prev', recovered')
          else fill_from_copy fuel' copy tenant head_seq from_seq' running_prev' recovered'
      end
  end.

(** Rule 2: adopt what chains past the head. *)
Fixpoint adopt_ahead (tenant : bytes) (adopted_seq : Z) (running_prev : bytes)
    (adopted rows : list AuditLogRow) : Z * bytes * list AuditLogRow :=
  match rows with
  | [] => (adopted_seq, running_prev, adopted)
  | r :: rows' =>
      if negb (lr_seq r =? adopted_seq + 1)%Z then (adopted_seq, running_prev, adopted)
      else
        match copy_row_chains r tenant running_prev with
        | None => (adopted_seq, running_prev, adopted)
        | Some rh => adopt_ahead tenant (lr_seq r) rh (adopted ++ [r]) rows'
        end
  end.

(** How a transaction or a statement of its own ended: done and reported, not done, or
    done with the answer lost. *)
Inductive TxEnd : Type := Committed | RolledBack | CommitLost.

Inductive ReconcileError : Type :=
  | ReadFailed
  | BadCanonicalHash
  | InsertFailed (e : AppendError)
  | StatementFailed.

(** What the two databases do during a pass: the reads of the canonical rows and of the
    copy that rule 1 makes, its insert, the look-up of the tenant, and for rule 2 the read
    of the copy, the insert and the head's upsert. *)
Record ReconcileDb := {
  rd_reads : bool;
  rd_fill : TxEnd;
  rd_tenant_exists : option bool;
  rd_read_ahead : bool;
  rd_adopt : TxEnd;
  rd_upsert : TxEnd;
}.

(** What a pass of [reconcile_ledger] came to: its answer, whether the head-ahead-of-rows
    degradation was noted, and the store it leaves, which on an error is what was committed
    before it. *)
Record Reconciled := {
  rc_outcome : result (option (Z * bytes)) ReconcileError;
  rc_head_ahead : bool;
  rc_store : Store;
}.

(** [ledger::insert_rows]: nothing for no rows, else one transaction. *)
Definition insert_rows (tx : TxEnd) (rows : list AuditLogRow) (s : Store) : option ReconcileError * Store :=
  match rows with
  | [] => (None, s)
  | _ =>
      match insert_rows_tx rows (st_rows s) with
      | Err e => (Some (InsertFailed e), s)
      | Ok table =>
          match tx with
          | Committed => (None, with_rows table s)
          | RolledBack => (Some StatementFailed, s)
          | CommitLost => (Some StatementFailed, with_rows table s)
          end
      end
  end.

(** The row rule 1 chains from: the last canonical one, or genesis. *)
Definition fill_start (s : Store) (tenant : bytes) : result (Z * bytes) ReconcileError :=
  match max_of (lr_seq <$> tenant_rows s tenant) with
  | None => Ok ((-1)%Z, genesis_v2 tenant)
  | Some m =>
      let? h := ok_or (r ← head (filter (λ r, lr_seq r = m) (tenant_rows s tenant));
                       ok (hex_decode_32 (lr_row_hash r))) BadCanonicalHash in
      Ok (m, h)
  end.

(** Rule 2: the copy's rows past the head and the head's advance are two transactions. *)
Definition adopt_rows (db : ReconcileDb) (s : Store) (copy : list AuditLogRow) (tenant : bytes) (head_seq : Z)
    (head_hash : bytes) : Reconciled :=
  let answer r s := {| rc_outcome := r; rc_head_ahead := false; rc_store := s |} in
  if negb (rd_read_ahead db) then answer (Err ReadFailed) s else
  let '(adopted_seq, running_prev, adopted) :=
    adopt_ahead tenant head_seq head_hash [] (copy_page copy tenant head_seq) in
  if (adopted_seq =? head_seq)%Z then answer (Ok None) s else
  match insert_rows (rd_adopt db) adopted s with
  | (Some e, s) => answer (Err e) s
  | (None, s) =>
      match rd_upsert db with
      | Committed => answer (Ok (Some (adopted_seq, running_prev))) (upsert s tenant adopted_seq running_prev)
      | RolledBack => answer (Err StatementFailed) s
      | CommitLost => answer (Err StatementFailed) (upsert s tenant adopted_seq running_prev)
      end
  end.

(** Rules 1 and 2, with a ClickHouse copy present. *)
Definition reconcile_ledger (db : ReconcileDb) (s : Store) (copy : list AuditLogRow) (tenant : bytes) (head_seq : Z)
    (head_hash : bytes) : Reconciled :=
  let answer r ahead s := {| rc_outcome := r; rc_head_ahead := ahead; rc_store := s |} in
  if negb (rd_reads db) then answer (Err ReadFailed) false s else
  let pg_max := max_of (lr_seq <$> tenant_rows s tenant) in
  let rows_behind_head := match pg_max with None => true | Some m => (m <? head_seq)%Z end in
  if rows_behind_head then
    match fill_start s tenant with
    | Err e => answer (Err e) false s
    | Ok (from_seq, running_prev) =>
        let '(from_seq', running_prev', recovered) :=
          fill_from_copy (S (length copy)) copy tenant head_seq from_seq running_prev [] in
        let filled := (0 <=? from_seq')%Z && (from_seq' =? head_seq)%Z &&
                      bool_decide (running_prev' = head_hash) in
        match insert_rows (rd_fill db) recovered s with
        | (Some e, s) => answer (Err e) false s
        | (None, s) =>
            if filled then adopt_rows db s copy tenant head_seq head_hash
            else match rd_tenant_exists db with
                 | None => answer (Err ReadFailed) false s
                 | Some exists_ => answer (Ok None) exists_ s
                 end
        end
    end
  else adopt_rows db s copy tenant head_seq head_hash.

(** [warm_from_postgres] on the canonical store: a pass for every persisted head; one that
    fails is logged, and the boot goes on with the store as the pass left it. *)
Definition warm_from_postgres (pass : bytes → ReconcileDb * list AuditLogRow) (heads : list (bytes * (Z * bytes))) (s : Store)
    : Store :=
  foldl (λ s '(tenant, (head_seq, head_hash)),
           rc_store (reconcile_ledger (pass tenant).1 s (pass tenant).2 tenant head_seq head_hash)) s heads.

End anchoring.

(** ** The export *)

Definition EXPORT_FORMAT : bytes := lit "v2.1".

Section export.
Context `{JsonNumber}.

(** [micros_to_iso8601] is [chrono]'s; the row is what the verifier reads back. *)
Definition export_row (micros_to_iso8601 : Z → bytes) (r : AuditLogRow) : AuditRow := {|
  row_format := Some EXPORT_FORMAT;
  row_tenant_id := lr_tenant_id r;
  row_seq := lr_seq r;
  row_event_time := micros_to_iso8601 (lr_event_time r);
  row_event_type := lr_event_type r;
  row_actor := lr_actor r;
  row_payload := String (lr_payload r);
  row_prev_hash := lr_prev_hash r;
  row_row_hash := lr_row_hash r;
  row_rekor_entry_id := lr_rekor_entry_id r;
|}.

(** [parse_proof] is the JSON of the inclusion proof read back by the verifier. *)
Definition anchor_record (parse_proof : bytes → InclusionProof) (r : AuditAnchorRecordRow)
    : AnchorRecord := {|
  an_tenant_id := ar_tenant_id r;
  an_batch_start_seq := ar_batch_start_seq r;
  an_batch_end_seq := ar_batch_end_seq r;
  an_merkle_root := ar_merkle_root r;
  an_anchor_state := ar_anchor_state r;
  an_ed25519 := {| ed_signature := ar_ed25519_sig r; ed_pubkey := ar_ed25519_pubkey r |};
  an_rekor :=
    if bool_decide (ar_anchor_state r = lit "anchored") && negb (bool_decide (ar_rekor_log_index r = []))
    then Some {| rk_log_url := ar_rekor_log_url r; rk_log_index := ar_rekor_log_index r;
                 rk_canonicalized_body := ar_canonicalized_body r;
                 rk_inclusion_proof := parse_proof (ar_inclusion_proof r);
                 rk_checkpoint_envelope := ar_checkpoint_envelope r |}
    else None;
|}.

End export.
