(* ===== verification/LedgerProofs.v ===== *)
(** * The producer keeps every tenant's ledger a verifiable chain

    The invariant [store_ok] says, for every tenant, that its rows in the table
    form one v2 chain from its genesis seed and that the persisted head names the
    last of them.  Appends, anchoring and the boot reconcile against an arbitrary
    ClickHouse copy preserve it, if the two transactions of an adoption both end or
    neither does, and an export of a store that satisfies it verifies.  [AnchorBatches] and [SweepProofs] build on it. *)

From Stdlib Require Import ZArith Lia.
From stdpp Require Import base list option gmap strings sorting.
From S2P Require Import Prelude BTree Encoding Hash Merkle Json AuditFormat AuditVerifier.
From S2P Require Import Instances ChainProofs Ledger.

Section ledger.
Context `{Sha256Fn} `{!Uuid}.

Implicit Types (s : Store) (r : AuditLogRow) (rows : list AuditLogRow) (t : bytes).

(** ** Chains of stored rows *)

(** [r] is the row numbered [seq] of tenant [t] after hash [prev], with hash [h]
    (hash fields are compared decoded, as every reader does). *)
Definition row_follows t (seq : Z) (prev : bytes) r (h : bytes) : Prop :=
  lr_tenant_id r = uuid_to_string t ∧ lr_seq r = seq ∧ hex_decode_32 (lr_prev_hash r) = Ok prev ∧
  hex_decode_32 (lr_row_hash r) = Ok h ∧
  h = row_hash_v2 prev t seq (lr_event_type r) (lr_actor r) (lr_payload r).

Inductive log_chained t : Z → bytes → list AuditLogRow → Z → bytes → Prop :=
  | log_nil seq prev : log_chained t seq prev [] seq prev
  | log_cons seq prev r h rows seq' tip :
      row_follows t seq prev r h → (seq ≤ i64_max)%Z →
      log_chained t (seq + 1) h rows seq' tip →
      log_chained t seq prev (r :: rows) seq' tip.

Lemma log_chained_app t seq prev rows1 rows2 seq1 tip1 seq2 tip2 :
  log_chained t seq prev rows1 seq1 tip1 → log_chained t seq1 tip1 rows2 seq2 tip2 →
  log_chained t seq prev (rows1 ++ rows2) seq2 tip2.
Proof. intros Hc. induction Hc; [done|]. intros. simpl. econstructor; eauto. Qed.

Lemma log_chained_seq t seq prev rows seq' tip :
  log_chained t seq prev rows seq' tip → seq' = (seq + lenZ rows)%Z.
Proof. induction 1; unfold lenZ in *; simpl; lia. Qed.

Lemma log_chained_rows t seq prev rows seq' tip :
  log_chained t seq prev rows seq' tip →
  Forall (λ r, lr_tenant_id r = uuid_to_string t ∧ (seq ≤ lr_seq r < seq')%Z ∧ (lr_seq r ≤ i64_max)%Z) rows.
Proof.
  induction 1 as [|? ? r h rows seq' tip (Et & Es & _) Hi Hc IH]; constructor.
  - pose proof (log_chained_seq _ _ _ _ _ _ Hc). pose proof (lenZ_nonneg rows). split; [done|]. lia.
  - eapply Forall_impl; [exact IH|]. intros x (? & ? & ?). split; [done|]. lia.
Qed.

Lemma log_chained_tip_length t seq prev rows seq' tip :
  length prev = 32%nat → log_chained t seq prev rows seq' tip → length tip = 32%nat.
Proof.
  intros Hp Hc. revert Hp. induction Hc as [|? ? r h rows seq' tip Hf Hi Hc IH]; [done|].
  intros _. apply IH. destruct Hf as (_ & _ & _ & _ & ->). apply row_hash_v2_length.
Qed.

(** The closure of the append builds a chain. *)
Lemma build_rows_chained t items now seq prev kept rows :
  length prev = 32%nat →
  build_rows t items now seq prev kept = Some rows →
  Forall (λ r, (lr_seq r ≤ i64_max)%Z) rows →
  ∃ tip, log_chained t seq prev rows (seq + lenZ kept) tip ∧ length rows = length kept ∧
    mapM (λ r, decode_hash_hex (lr_row_hash r)) rows ≠ None ∧
    tip = default prev (mapM (λ r, decode_hash_hex (lr_row_hash r)) rows ≫= last).
Proof.
  revert seq prev rows. induction kept as [|idx kept IH]; intros seq prev rows Hp E Hall; simpl in E.
  { injection E as <-. exists prev. unfold lenZ. simpl. rewrite Z.add_0_r. split_and!; try done. constructor. }
  destruct (items !! idx) as [item|]; [|done]. simpl in E.
  destruct (build_rows t items now (seq + 1) _ kept) as [rest|] eqn:Er; [|done]. injection E as <-.
  apply Forall_cons in Hall as [Hi Hall].
  apply IH in Er as (tip & Hc & El & Em & Et); [|apply row_hash_v2_length|done].
  set (h := row_hash_v2 _ _ _ _ _ _) in *. exists tip.
  assert (length h = 32%nat) as Hh by apply row_hash_v2_length.
  assert (decode_hash_hex (hex_encode h) = Some h) as Eh.
  { unfold decode_hash_hex. by rewrite hex_decode_encode. }
  split_and!.
  - replace (seq + lenZ (idx :: kept))%Z with (seq + 1 + lenZ kept)%Z by (unfold lenZ; simpl; lia).
    econstructor; [|done|done]. unfold row_follows. simpl. rewrite !hex_decode_encode by done. done.
  - simpl. lia.
  - simpl. rewrite Eh. simpl. by destruct (mapM _ rest).
  - simpl. rewrite Eh. simpl. destruct (mapM _ rest) as [hs|]; [|done]. simpl in *.
    rewrite last_cons. by destruct (last hs).
Qed.

(** ** Inserting rows *)

Lemma uuid_to_string_inj (t u : bytes) :
  length t = 16%nat → length u = 16%nat → uuid_to_string t = uuid_to_string u → t = u.
Proof.
  intros Ht Hu E. apply (f_equal uuid_parse_str) in E. rewrite !uuid_parse_string in E by done. congruence.
Qed.

Lemma insert_rows_tx_ok rows table table' :
  insert_rows_tx rows table = Ok table' →
  table' = fold_left insert_row rows table ∧ Forall (λ r, (lr_seq r ≤ i64_max)%Z) rows.
Proof.
  revert table. induction rows as [|r rows IH]; intros table E; simpl in E; [injection E as <-; auto|].
  apply rbind_Ok in E as (u & _ & E). apply rbind_Ok in E as (i & Ei & E).
  apply IH in E as [-> Hall]. split; [done|]. constructor; [|done].
  unfold seq_i64 in Ei. destruct (Z.leb_spec (lr_seq r) i64_max); [done|discriminate].
Qed.

Lemma insert_row_fresh table r :
  (∀ x, x ∈ table → lr_tenant_id x = lr_tenant_id r → lr_seq x ≠ lr_seq r) →
  insert_row table r = table ++ [r].
Proof.
  intros Hf. unfold insert_row. destruct (existsb _ table) eqn:E; [|done].
  apply existsb_exists in E as (x & Hx%list_elem_of_In & Hb). breflect. by destruct (Hf x Hx).
Qed.

Lemma insert_chain_fresh t seq prev rows seq' tip table :
  log_chained t seq prev rows seq' tip →
  (∀ x, x ∈ table → lr_tenant_id x = uuid_to_string t → (lr_seq x < seq)%Z) →
  fold_left insert_row rows table = table ++ rows.
Proof.
  intros Hc. revert table. induction Hc as [|? ? r h rows seq' tip (Et & Es & _) Hi Hc IH]; intros table Hf.
  { by rewrite (right_id_L [] (++)). }
  cbn [fold_left]. rewrite insert_row_fresh.
  - rewrite IH; [by rewrite <- (assoc_L (++))|]. intros x [Hx|Hx]%elem_of_app Ex.
    + specialize (Hf x Hx Ex). lia.
    + apply list_elem_of_singleton in Hx as ->. lia.
  - intros x Hx Ex E. rewrite Et in Ex. specialize (Hf x Hx Ex). lia.
Qed.

(** ** The invariant *)

Definition head_ok s t : Prop :=
  match st_heads s !! t with
  | None => tenant_rows s t = []
  | Some (last, hash) => log_chained t 0 (genesis_v2 t) (tenant_rows s t) (last + 1) hash
  end.

Definition store_ok s : Prop :=
  (∀ t, length t = 16%nat → head_ok s t) ∧
  (∀ r, r ∈ st_rows s → ∃ t, length t = 16%nat ∧ lr_tenant_id r = uuid_to_string t).

Lemma empty_store_ok : store_ok empty_store.
Proof. split; [done|]. intros r Hr. by apply not_elem_of_nil in Hr. Qed.

Lemma tenant_rows_app s t rows :
  Forall (λ r, lr_tenant_id r = uuid_to_string t) rows →
  filter (λ r, lr_tenant_id r = uuid_to_string t) (st_rows s ++ rows) = tenant_rows s t ++ rows.
Proof.
  intros Hall. rewrite filter_app. f_equal. induction Hall as [|r rows Hr _ IH]; [done|].
  rewrite filter_cons, decide_True by done. by rewrite IH.
Qed.

Lemma tenant_rows_other s t u rows :
  length t = 16%nat → length u = 16%nat → t ≠ u →
  Forall (λ r, lr_tenant_id r = uuid_to_string t) rows →
  filter (λ r, lr_tenant_id r = uuid_to_string u) (st_rows s ++ rows) = tenant_rows s u.
Proof.
  intros Ht Hu Hne Hall. rewrite filter_app.
  assert (filter (λ r, lr_tenant_id r = uuid_to_string u) rows = []) as ->;
    [|by rewrite (right_id_L [] (++))].
  induction Hall as [|r rows Hr _ IH]; [done|]. rewrite filter_cons, decide_False; [done|].
  rewrite Hr. intros E. by apply Hne, uuid_to_string_inj.
Qed.

(** Extending one tenant's chain at its head keeps the invariant. *)
Lemma store_ok_extend s t last hash rows seq' tip s' :
  length t = 16%nat → store_ok s →
  log_chained t 0 (genesis_v2 t) (tenant_rows s t) (last + 1) hash →
  log_chained t (last + 1) hash rows seq' tip →
  st_rows s' = st_rows s ++ rows →
  st_heads s' !! t = Some ((seq' - 1)%Z, tip) → (∀ u, u ≠ t → st_heads s' !! u = st_heads s !! u) →
  store_ok s'.
Proof.
  intros Ht [Hh Hr] Hold Hnew Erows Ehead Eother.
  assert (Forall (λ r, lr_tenant_id r = uuid_to_string t) rows) as Hall.
  { eapply Forall_impl; [by eapply log_chained_rows|]. by intros r (? & _). }
  split.
  - intros u Hu. unfold head_ok, tenant_rows. rewrite Erows. destruct (decide (u = t)) as [->|Hne].
    + rewrite Ehead, tenant_rows_app by done. replace (seq' - 1 + 1)%Z with seq' by lia.
      by eapply log_chained_app.
    + rewrite (tenant_rows_other s t u) by done. rewrite Eother by done. by apply Hh.
  - intros r. rewrite Erows. intros [?|Hin]%elem_of_app; [auto|]. exists t. split; [done|].
    by eapply Forall_forall in Hall.
Qed.

(** Rows of the tenant that are in the table lie below the head. *)
Lemma table_below s t last hash x :
  log_chained t 0 (genesis_v2 t) (tenant_rows s t) (last + 1) hash →
  x ∈ st_rows s → lr_tenant_id x = uuid_to_string t → (lr_seq x < last + 1)%Z.
Proof.
  intros Hc Hx Ex. apply log_chained_rows in Hc. rewrite Forall_forall in Hc.
  destruct (Hc x) as (_ & ? & _); [|lia]. unfold tenant_rows. by apply list_elem_of_filter.
Qed.

Lemma append_atomic_ok s t items ids now o s' :
  length t = 16%nat → store_ok s →
  append_atomic_batch s t (genesis_v2 t) ids (length items) (build_rows t items now) = Ok (o, s') →
  store_ok s' ∧
  match o with
  | None => s' = s
  | Some o =>
      st_rows s' = st_rows s ++ ab_rows o ∧ length (ab_rows o) = length (ab_row_hashes o) ∧
      (∃ last, st_heads s' !! t = Some (last, default [] (list.last (ab_row_hashes o))) ∧
               last = (ab_first_seq o + lenZ (ab_rows o) - 1)%Z) ∧
      ab_rows o ≠ []
  end.
Proof.
  intros Ht Hok. unfold append_atomic_batch.
  destruct (length items =? 0)%nat; [intros [= <- <-]; done|].
  destruct (match ids with Some _ => _ | None => _ end); [done|].
  destruct (match ids with Some ids => dedup_ids _ ids | None => _ end) as [kept appended].
  destruct kept as [|k0 kept]; [intros [= <- <-]; done|].
  set (heads := match st_heads s !! t with Some _ => _ | None => _ end).
  assert (∃ last hash, default (GENESIS_LAST_SEQ, genesis_v2 t) (heads !! t) = (last, hash) ∧
    log_chained t 0 (genesis_v2 t) (tenant_rows s t) (last + 1) hash) as (last & hash & Eh & Hold).
  { destruct Hok as [Hh _]. specialize (Hh t Ht). unfold head_ok in Hh. subst heads.
    destruct (st_heads s !! t) as [[last hash]|] eqn:Eg.
    - rewrite Eg. eauto.
    - rewrite lookup_insert, decide_True by done. rewrite Hh. exists (-1)%Z, (genesis_v2 t). split; [done|]. constructor. }
  rewrite Eh. destruct (negb (length hash =? 32)%nat) eqn:El32; [done|].
  apply negb_false_iff, Nat.eqb_eq in El32. destruct (last + 1 <? 0)%Z; [done|]. intros E.
  apply rbind_Ok in E as (rows & Er & E). destruct (negb _) eqn:En; [done|].
  apply negb_false_iff, Nat.eqb_eq in En.
  apply rbind_Ok in E as (hs & Ehs & E). apply rbind_Ok in E as (table & Et & E).
  injection E as <- <-. apply insert_rows_tx_ok in Et as [-> Hi].
  destruct (build_rows t items now (last + 1) hash (k0 :: kept)) as [rows'|] eqn:Eb; [|done].
  injection Er as ->. apply build_rows_chained in Eb as (tip & Hc & El & _ & Etip); [|done..].
  destruct (mapM (λ r, decode_hash_hex (lr_row_hash r)) rows) as [hs'|] eqn:Em; [|done].
  injection Ehs as ->. simpl in Etip.
  assert (length hs = length rows) as Elen by (symmetry; by apply length_mapM in Em).
  assert (fold_left insert_row rows (st_rows s) = st_rows s ++ rows) as Ef.
  { eapply insert_chain_fresh; [done|]. intros x Hx Ex. by eapply table_below. }
  assert (default [] (list.last hs) = tip) as Ehd.
  { rewrite Etip. destruct hs as [|h0 hs0] using rev_ind; [simpl in *; lia|]. by rewrite last_snoc. }
  cbn [ab_rows ab_row_hashes ab_first_seq]. split; [|split_and!].
  - eapply (store_ok_extend s t last hash rows); try done; simpl.
    + rewrite lookup_insert, decide_True by done. rewrite Ehd. do 2 f_equal. unfold lenZ. simpl. lia.
    + intros u Hu. rewrite lookup_insert_ne by done. subst heads.
      destruct (st_heads s !! t); [done|]. by rewrite lookup_insert_ne.
  - done.
  - by rewrite Elen.
  - exists (last + 1 + (Z.of_nat (length (k0 :: kept)) - 1))%Z. simpl st_heads.
    rewrite lookup_insert, decide_True by done. split; [done|]. unfold lenZ. lia.
  - intros ->. simpl in *. lia.
Qed.

(** ** Anchoring and reconciling keep the invariant *)

(** A rewrite of the fields the hash does not cover. *)
Definition keeps_chain (f : AuditLogRow → AuditLogRow) : Prop :=
  ∀ r, lr_tenant_id (f r) = lr_tenant_id r ∧ lr_seq (f r) = lr_seq r ∧
    lr_prev_hash (f r) = lr_prev_hash r ∧ lr_row_hash (f r) = lr_row_hash r ∧
    lr_event_type (f r) = lr_event_type r ∧ lr_actor (f r) = lr_actor r ∧ lr_payload (f r) = lr_payload r.

Lemma log_chained_map t f seq prev rows seq' tip :
  keeps_chain f → log_chained t seq prev rows seq' tip → log_chained t seq prev (f <$> rows) seq' tip.
Proof.
  intros Hf. induction 1 as [|? ? r h rows seq' tip Hr Hi Hc IH]; [constructor|].
  econstructor; [|done|exact IH]. unfold row_follows in *.
  destruct (Hf r) as (-> & -> & -> & -> & -> & -> & ->). done.
Qed.

Lemma tenant_rows_map s t f :
  keeps_chain f → filter (λ r, lr_tenant_id r = uuid_to_string t) (f <$> st_rows s) = f <$> tenant_rows s t.
Proof.
  intros Hf. unfold tenant_rows. induction (st_rows s) as [|r rows IH]; [done|].
  rewrite fmap_cons, !filter_cons. destruct (Hf r) as [-> _].
  case_decide; [by rewrite IH|done].
Qed.

Lemma store_ok_map s s' f :
  keeps_chain f → st_rows s' = f <$> st_rows s → st_heads s' = st_heads s → store_ok s → store_ok s'.
Proof.
  intros Hf Er Eh [Hh Hr]. split.
  - intros t Ht. specialize (Hh t Ht). unfold head_ok, tenant_rows in *. rewrite Er, Eh.
    rewrite tenant_rows_map by done. destruct (st_heads s !! t) as [[last hash]|].
    + by apply log_chained_map.
    + unfold tenant_rows. by rewrite Hh.
  - intros r. rewrite Er. intros (x & -> & Hx)%list_elem_of_fmap.
    destruct (Hf x) as [-> _]. auto.
Qed.

Lemma backfill_ok s t start_seq end_seq f :
  keeps_chain f → store_ok s → store_ok (backfill t start_seq end_seq f s).
Proof.
  intros Hf Hok. unfold backfill. destruct (seq_i64 start_seq), (seq_i64 end_seq); try done.
  eapply (store_ok_map s); [|done|done|done]. intros r. case_decide; [apply Hf|done].
Qed.

Lemma store_ok_same s s' :
  st_rows s' = st_rows s → st_heads s' = st_heads s → store_ok s → store_ok s'.
Proof.
  intros Er Eh Hok. eapply (store_ok_map s s' id); [by intros r|by rewrite list_fmap_id|done|done].
Qed.

Lemma anchor_task_ok `{!Base64} db s t hashes start_seq end_seq anchored kp global now :
  store_ok s → store_ok (anchor_task db s t hashes start_seq end_seq anchored kp global now).
Proof.
  intros Hok. unfold anchor_task. cbv zeta.
  assert (∀ a, store_ok (insert_anchor_record s a)) as Ha.
  { intros a. unfold insert_anchor_record. repeat case_match; done || by apply (store_ok_same s). }
  repeat case_match; repeat (apply backfill_ok; [done|]); auto.
Qed.

Lemma copy_row_follows r t prev h :
  copy_row_chains r t prev = Some h → lr_tenant_id r = uuid_to_string t → row_follows t (lr_seq r) prev r h.
Proof.
  unfold copy_row_chains, row_follows. intros E Et.
  destruct (hex_decode_32 (lr_prev_hash r)) as [p|]; [|done].
  destruct (hex_decode_32 (lr_row_hash r)) as [st|]; [|done].
  case_bool_decide as Ep; simpl in E; [|done]. case_bool_decide as Eh; simpl in E; [|done].
  injection E as <-. by subst.
Qed.

(** Rule 2 adopts a chain that continues the head, from any copy. *)
Lemma adopt_ahead_chained t seq prev adopted rows seq' prev' adopted' :
  adopt_ahead t seq prev adopted rows = (seq', prev', adopted') →
  Forall (λ r, lr_tenant_id r = uuid_to_string t) rows →
  ∃ new, adopted' = adopted ++ new ∧
    (Forall (λ r, (lr_seq r ≤ i64_max)%Z) new → log_chained t (seq + 1) prev new (seq' + 1) prev').
Proof.
  revert seq prev adopted. induction rows as [|r rows IH]; intros seq prev adopted E Hall; simpl in E.
  { injection E as <- <- <-. exists []. rewrite (right_id_L [] (++)). split; [done|]. constructor. }
  apply Forall_cons in Hall as [Hr Hall].
  destruct (Z.eqb_spec (lr_seq r) (seq + 1)) as [Es|_]; simpl in E.
  2: { injection E as <- <- <-. exists []. rewrite (right_id_L [] (++)). split; [done|]. constructor. }
  destruct (copy_row_chains r t prev) as [h|] eqn:Ec.
  2: { injection E as <- <- <-. exists []. rewrite (right_id_L [] (++)). split; [done|]. constructor. }
  apply IH in E as (new & -> & Hc); [|done]. exists (r :: new). split; [by rewrite <- (assoc_L (++))|].
  intros [Hi Hn]%Forall_cons. apply copy_row_follows in Ec; [|done]. rewrite Es in Ec, Hi.
  econstructor; [done|done|]. rewrite <- Es at 1. by apply Hc.
Qed.

Lemma copy_page_tenant copy t from : Forall (λ r, lr_tenant_id r = uuid_to_string t) (copy_page copy t from).
Proof.
  apply Forall_forall. intros r Hr. unfold copy_page in Hr.
  apply elem_of_take in Hr as (i & Hr & _). apply list_elem_of_lookup_2 in Hr.
  rewrite merge_sort_Permutation in Hr. by apply list_elem_of_filter in Hr as [[? _] _].
Qed.

Lemma foldr_max (l : list Z) (x m : Z) :
  (x ≤ m)%Z → Forall (λ y, (y ≤ m)%Z) l → m ∈ x :: l → foldr Z.max x l = m.
Proof.
  intros Hx Hl Hm. assert (∀ y, y ∈ x :: l → (y ≤ foldr Z.max x l)%Z) as Hge.
  { clear. intros y Hy. induction l as [|z l IH]; [apply list_elem_of_singleton in Hy as ->; simpl; lia|].
    simpl. apply elem_of_cons in Hy as [->|[->|Hy]%elem_of_cons].
    - assert (x ≤ foldr Z.max x l)%Z by (apply IH; left). lia.
    - lia.
    - assert (y ≤ foldr Z.max x l)%Z by (apply IH; by right). lia. }
  assert (foldr Z.max x l ≤ m)%Z by (clear Hm Hge; induction Hl; simpl; lia).
  specialize (Hge m Hm). lia.
Qed.

Lemma log_chained_last_in t seq prev rows seq' tip :
  log_chained t seq prev rows seq' tip → rows ≠ [] → (seq' - 1)%Z ∈ lr_seq <$> rows.
Proof.
  induction 1 as [|? ? r h rows seq' tip (_ & Es & _) _ Hc IH]; [done|]. intros _.
  destruct rows as [|r2 rows].
  - inversion Hc; subst. simpl. apply list_elem_of_singleton. lia.
  - right. by apply IH.
Qed.

Lemma log_chained_max t prev rows seq' tip :
  log_chained t 0 prev rows seq' tip → (0 < seq')%Z → max_of (lr_seq <$> rows) = Some (seq' - 1)%Z.
Proof.
  intros Hc Hpos. pose proof (log_chained_seq _ _ _ _ _ _ Hc) as El. pose proof (log_chained_rows _ _ _ _ _ _ Hc) as Hr.
  destruct rows as [|r0 rows]; [unfold lenZ in El; simpl in El; lia|].
  unfold max_of. cbn [fmap list_fmap]. f_equal. apply foldr_max.
  - apply Forall_cons in Hr as [(_ & ? & _) _]. lia.
  - apply Forall_cons in Hr as [_ Hr]. apply Forall_fmap. eapply Forall_impl; [exact Hr|].
    intros x (_ & ? & _). simpl. lia.
  - change (lr_seq r0 :: list_fmap _ _ lr_seq rows) with (lr_seq <$> r0 :: rows).
    by apply (log_chained_last_in _ _ _ _ _ _ Hc).
Qed.

(** The database ended rule 2 with both its transactions done, or neither: the adopted
    rows and the head that names the last of them did not come apart. *)
Definition adopted_whole (db : ReconcileDb) : Prop :=
  match rd_adopt db with
  | RolledBack => True
  | Committed => rd_upsert db ≠ RolledBack
  | CommitLost => False
  end.

Lemma adopt_rows_ok db s copy t head_seq head_hash :
  length t = 16%nat → store_ok s → st_heads s !! t = Some (head_seq, head_hash) → adopted_whole db →
  store_ok (rc_store (adopt_rows db s copy t head_seq head_hash)) ∧
  rc_head_ahead (adopt_rows db s copy t head_seq head_hash) = false ∧
  ∀ u, u ≠ t → st_heads (rc_store (adopt_rows db s copy t head_seq head_hash)) !! u = st_heads s !! u.
Proof.
  intros Ht Hok Hhead Hdb. pose proof Hok as [Hh _]. specialize (Hh t Ht). unfold head_ok in Hh. rewrite Hhead in Hh.
  unfold adopt_rows. destruct (rd_read_ahead db); [|done]. cbn [negb].
  destruct (adopt_ahead t head_seq head_hash [] (copy_page copy t head_seq)) as [[seq' prev'] adopted'] eqn:Ea.
  destruct (Z.eqb_spec seq' head_seq) as [->|Hne]; [done|].
  apply adopt_ahead_chained in Ea as (new & -> & Hc); [|apply copy_page_tenant]. cbn [app].
  unfold insert_rows. destruct new as [|r0 new0]; [specialize (Hc (Forall_nil_2 _)); apply log_chained_seq in Hc; unfold lenZ in Hc; simpl in Hc; lia|].
  set (new := r0 :: new0) in *. destruct (insert_rows_tx new (st_rows s)) as [tb|] eqn:Ei; [|done].
  apply insert_rows_tx_ok in Ei as [-> Hi]. specialize (Hc Hi).
  pose proof (log_chained_seq _ _ _ _ _ _ Hc) as El. pose proof (lenZ_nonneg new).
  assert (fold_left insert_row new (st_rows s) = st_rows s ++ new) as Ef.
  { eapply insert_chain_fresh; [done|]. intros x Hx Ex. by eapply table_below. }
  unfold adopted_whole in Hdb. destruct (rd_adopt db); [|done..].
  set (s1 := upsert (with_rows (fold_left insert_row new (st_rows s)) s) t seq' prev').
  assert (store_ok s1 ∧ ∀ u, u ≠ t → st_heads s1 !! u = st_heads s !! u) as [Hok1 Hoth1].
  { subst s1. unfold upsert. cbn [st_heads with_rows]. rewrite Hhead. destruct (Z.ltb_spec head_seq seq'); [|lia].
    split; [|intros u Hu; simpl; by rewrite lookup_insert_ne].
    eapply (store_ok_extend s t head_seq head_hash new); try done; simpl.
    - rewrite lookup_insert, decide_True by done. do 2 f_equal. lia.
    - intros u Hu. by rewrite lookup_insert_ne. }
  by destruct (rd_upsert db).
Qed.

Lemma reconcile_ok db s copy t head_seq head_hash :
  length t = 16%nat → store_ok s → st_heads s !! t = Some (head_seq, head_hash) → (0 ≤ head_seq)%Z → adopted_whole db →
  let rc := reconcile_ledger db s copy t head_seq head_hash in
  store_ok (rc_store rc) ∧ rc_head_ahead rc = false ∧ ∀ u, u ≠ t → st_heads (rc_store rc) !! u = st_heads s !! u.
Proof.
  intros Ht Hok Hhead Hpos Hdb. pose proof Hok as [Hh _]. specialize (Hh t Ht). unfold head_ok in Hh. rewrite Hhead in Hh.
  unfold reconcile_ledger. destruct (rd_reads db); [|done]. cbn [negb].
  rewrite (log_chained_max _ _ _ _ _ Hh) by lia.
  destruct (Z.ltb_spec (head_seq + 1 - 1) head_seq); [lia|]. by apply adopt_rows_ok.
Qed.

(** A boot: every tenant of [heads], once each, at the head it has. *)
Lemma warm_ok pass heads s :
  NoDup heads.*1 → Forall (λ th, length th.1 = 16%nat ∧ st_heads s !! th.1 = Some th.2 ∧ (0 ≤ th.2.1)%Z ∧ adopted_whole (pass th.1).1) heads →
  store_ok s → store_ok (warm_from_postgres pass heads s).
Proof.
  revert s. induction heads as [|[t [q h]] heads IH]; intros s Hnd Hall Hok; [done|].
  apply NoDup_cons in Hnd as [Hnt Hnd]. apply Forall_cons in Hall as [(Ht & Hh & Hq & Hdb) Hall]. simpl in *.
  destruct (reconcile_ok (pass t).1 s (pass t).2 t q h Ht Hok Hh Hq Hdb) as (Hok' & _ & Hother).
  apply IH; [done| |done]. apply Forall_forall. intros [u [q' h']] Hu. rewrite Forall_forall in Hall.
  destruct (Hall _ Hu) as (? & ? & ? & ?). simpl in *. split_and!; [done| |done|done]. rewrite Hother; [done|].
  intros ->. apply Hnt. by apply (list_elem_of_fmap_2 fst) in Hu.
Qed.

(** ** The export of a reachable store *)

(** Appends, anchor runs and boots, in any order.  A boot reads the heads and reconciles
    each tenant; no other process appends meanwhile, and the insert of adopted rows and
    the advance of the head, which are two transactions, do not come apart; any other
    read or statement may fail. *)
Inductive reachable `{!Base64} : Store → Prop :=
  | reach_empty : reachable empty_store
  | reach_append s states n t items ids now res :
      reachable s → length t = 16%nat → append_pg_batch s states n t items ids now = Ok res →
      reachable (pa_store res)
  | reach_anchor db s t hashes start_seq end_seq anchored kp global now :
      reachable s → reachable (anchor_task db s t hashes start_seq end_seq anchored kp global now)
  | reach_boot pass heads s :
      reachable s → NoDup heads.*1 →
      Forall (λ th, length th.1 = 16%nat ∧ st_heads s !! th.1 = Some th.2 ∧ (0 ≤ th.2.1)%Z ∧ adopted_whole (pass th.1).1) heads →
      reachable (warm_from_postgres pass heads s).

Lemma append_pg_ok s states n t items ids now res :
  length t = 16%nat → store_ok s → append_pg_batch s states n t items ids now = Ok res → store_ok (pa_store res).
Proof.
  intros Ht Hok. unfold append_pg_batch. intros E. apply rbind_Ok in E as ([o s'] & Ea & E).
  apply append_atomic_ok in Ea as [Hok' _]; [|done..].
  destruct o as [o|]; [|by injection E as <-].
  destruct (if (0 <? n)%Z then _ else _) as [states' batches]. by injection E as <-.
Qed.

Lemma reachable_ok `{!Base64} s : reachable s → store_ok s.
Proof.
  induction 1.
  - apply empty_store_ok.
  - by eapply append_pg_ok.
  - by apply anchor_task_ok.
  - by apply warm_ok.
Qed.

Section export_proofs.
Context `{JsonNumber} `{!SerdeJson}.
Variable iso : Z → bytes.

Lemma export_chained opts t seq prev rows seq' tip :
  (0 ≤ seq)%Z → log_chained t seq prev rows seq' tip →
  chained opts t seq prev (export_row iso <$> rows).
Proof.
  intros Hs Hc. induction Hc as [|seq prev r h rows seq' tip (Et & Es & Ep & Eh & ->) Hi Hc IH]; [constructor|].
  rewrite fmap_cons. econstructor.
  - done.
  - unfold prev_hash_ok, family. simpl. rewrite Ep, (bool_decide_true (prev = prev)) by done.
    by destruct (_ && _).
  - done.
  - exact Eh.
  - unfold recompute_row_hash, family. simpl. by rewrite Es.
  - replace (succ64 seq) with (seq + 1)%Z; [apply IH; lia|].
    unfold succ64, i64_max in *. rewrite Z.mod_small; lia.
Qed.

Lemma in_scope_export s t :
  store_ok s → length t = 16%nat →
  in_scope (uuid_to_string t) 0 (export_row iso <$> st_rows s) = export_row iso <$> tenant_rows s t.
Proof.
  intros [Hh Hr] Ht. unfold in_scope, tenant_rows.
  assert (∀ r, r ∈ st_rows s → (0 ≤ lr_seq r)%Z) as Hnn.
  { intros r Hin. destruct (Hr r Hin) as (u & Hu & Eu). specialize (Hh u Hu). unfold head_ok in Hh.
    assert (r ∈ tenant_rows s u) as Hru by (unfold tenant_rows; by apply list_elem_of_filter).
    destruct (st_heads s !! u) as [[last hash]|].
    - apply log_chained_rows in Hh. eapply Forall_forall in Hh; [|done]. simpl in Hh. lia.
    - rewrite Hh in Hru. by apply not_elem_of_nil in Hru. }
  clear Hh Hr. induction (st_rows s) as [|r rows IH]; [done|].
  rewrite fmap_cons, !filter_cons. cbn [row_tenant_id row_seq export_row].
  assert (0 ≤ lr_seq r)%Z by (apply Hnn; left).
  rewrite IH by (intros x Hx; apply Hnn; by right).
  destruct (decide (lr_tenant_id r = uuid_to_string t)) as [E|E].
  - rewrite decide_True by done. done.
  - rewrite decide_False by (by intros [? _]). done.
Qed.

Lemma tenant_of_row s ts :
  store_ok s → Exists (λ x, row_tenant_id x = ts) (export_row iso <$> st_rows s) →
  ∃ t last hash, length t = 16%nat ∧ ts = uuid_to_string t ∧
    log_chained t 0 (genesis_v2 t) (tenant_rows s t) (last + 1) hash ∧ tenant_rows s t ≠ [].
Proof.
  intros [Hh Hr] He. apply Exists_exists in He as (x & Hx & Ex).
  apply list_elem_of_fmap in Hx as (r & -> & Hin). simpl in Ex.
  destruct (Hr r Hin) as (t & Ht & Et). specialize (Hh t Ht). unfold head_ok in Hh.
  assert (r ∈ tenant_rows s t) as Hrt by (unfold tenant_rows; by apply list_elem_of_filter).
  destruct (st_heads s !! t) as [[last hash]|].
  - exists t, last, hash. split_and!; [done|congruence|done|].
    intros E. rewrite E in Hrt. by apply not_elem_of_nil in Hrt.
  - rewrite Hh in Hrt. by apply not_elem_of_nil in Hrt.
Qed.

(** A tenant with rows has its row 0. *)
Lemma tenant_genesis s ts :
  store_ok s → Exists (λ x, row_tenant_id x = ts) (export_row iso <$> st_rows s) →
  Exists (λ x, row_tenant_id x = ts ∧ row_seq x = 0%Z) (export_row iso <$> st_rows s).
Proof.
  intros Hok He. destruct (tenant_of_row s ts Hok He) as (t & last & hash & Ht & -> & Hc & Hne).
  destruct (tenant_rows s t) as [|r0 rows] eqn:Er; [done|].
  inversion Hc as [|? ? ? h ? ? ? (Et & Es & _) _ _]; subst.
  apply Exists_exists. exists (export_row iso r0). split; [|done].
  apply list_elem_of_fmap. exists r0. split; [done|].
  assert (r0 ∈ tenant_rows s t) as Hin by (rewrite Er; left).
  unfold tenant_rows in Hin. by apply list_elem_of_filter in Hin as [_ ?].
Qed.

Lemma export_rows_u64 s : store_ok s → rows_u64 (export_row iso <$> st_rows s).
Proof.
  intros [Hh Hr]. apply Forall_fmap, Forall_forall. intros r Hin. simpl.
  destruct (Hr r Hin) as (t & Ht & Et). specialize (Hh t Ht). unfold head_ok in Hh.
  assert (r ∈ tenant_rows s t) as Hrt by (unfold tenant_rows; by apply list_elem_of_filter).
  destruct (st_heads s !! t) as [[last hash]|].
  - apply log_chained_rows in Hh. eapply Forall_forall in Hh; [|done]. simpl in Hh.
    unfold is_u64, u64_max, i64_max in *. lia.
  - rewrite Hh in Hrt. by apply not_elem_of_nil in Hrt.
Qed.

(** C6. Producer and verifier agree: whatever the sequence of batched appends of
    any tenants, anchor runs and boots that reconcile with arbitrary ClickHouse
    copies, the rows of the canonical store, exported, pass the verifier's chain
    check from genesis for every tenant, under any options and any anchors.  Reads and
    statements may fail, and a boot goes on after a pass that did; but it is required that
    no other process appends while a boot reconciles, and that the two transactions of an
    adoption - the rows, then the head - do not come apart, as where the second fails the
    chain is broken by the next append ([adopted_without_head_breaks_chain]). *)
Theorem exported_ledger_verifies `{!Base64} s opts included report :
  reachable s → hash_chain_valid report = true → trust_established report = true →
  let report' := verify_chain report (export_row iso <$> st_rows s) opts included in
  hash_chain_valid report' = true ∧ trust_established report' = true.
Proof.
  intros Hreach Hv Htr. apply reachable_ok in Hreach as Hok. cbv zeta.
  pose proof (export_rows_u64 s Hok) as Hu. split.
  - apply verify_chain_valid; [done|]. split; [done|]. intros ts start Hs.
    destruct (decide (Exists (λ x, row_tenant_id x = ts) (export_row iso <$> st_rows s))) as [He|He].
    2: { by rewrite in_scope_absent. }
    pose proof (tenant_genesis s ts Hok He) as Hg.
    apply (scope_start_genesis included) in Hg as [Hg _]. rewrite Hg in Hs. injection Hs as <-.
    destruct (tenant_of_row s ts Hok He) as (t & last & hash & Ht & -> & Hc & Hne).
    rewrite in_scope_export by done. apply (export_chained opts) in Hc; [|done].
    destruct (tenant_rows s t) as [|r0 rows] eqn:Er; [done|]. rewrite fmap_cons in *.
    exists t. split; [|exact Hc].
    inversion Hc as [|? ? ? ? ? ? Es]; subst. simpl.
    assert (r0 ∈ tenant_rows s t) as Hin by (rewrite Er; left).
    unfold tenant_rows in Hin. apply list_elem_of_filter in Hin as [-> _].
    apply uuid_str_to_bytes_of_hex; [done|]. by apply uuid_string_hex.
  - apply verify_chain_rooted; [done|]. split; [done|]. intros row Hin.
    assert (Exists (λ x, row_tenant_id x = row_tenant_id row) (export_row iso <$> st_rows s)) as He
      by (apply Exists_exists; eauto).
    apply (tenant_genesis s) in He; [|done]. apply (scope_start_genesis included) in He as [-> _]. eauto.
Qed.

End export_proofs.
End ledger.
