(* ===== verification/AnchorBatches.v ===== *)
(** * Which rows an anchor batch covers, and events that are delivered twice

    Theorems about the pieces of [Ledger] that decide ranges: the deduplication of
    redelivered events, what a committed append leaves in the store, and the
    threshold trigger.  The age sweep is in [SweepProofs]. *)

From Stdlib Require Import ZArith Lia.
From stdpp Require Import base list option gmap strings sorting.
From S2P Require Import Prelude BTree Encoding Hash Merkle Json AuditFormat AuditVerifier.
From S2P Require Import ChainProofs Ledger LedgerProofs.

(** ** Redelivery *)

Lemma elem_of_unique_ids (seen : gset bytes) (ids : list bytes) (x : bytes) :
  x ∈ unique_ids seen ids ↔ x ∈ ids ∧ x ∉ seen.
Proof.
  revert seen. induction ids as [|id ids IH]; intros seen; cbn [unique_ids].
  { rewrite elem_of_nil. tauto. }
  case_decide as Hd.
  - rewrite IH, elem_of_cons. naive_solver.
  - rewrite !elem_of_cons, IH, not_elem_of_union, not_elem_of_singleton.
    destruct (decide (x = id)); naive_solver.
Qed.

Lemma first_index_spec (ids : list bytes) (id : bytes) (i : nat) :
  id ∈ ids → first_index ids id = i ↔ ids !! i = Some id ∧ ∀ j, (j < i)%nat → ids !! j ≠ Some id.
Proof.
  intros Hin. unfold first_index. destruct (list_find (λ x, x = id) ids) as [[k y]|] eqn:E.
  - apply list_find_Some in E as (Hk & -> & Hbefore). cbn [from_option fst]. split.
    + intros <-. split; [done|]. intros j Hj E. by apply (Hbefore j id).
    + intros [Hi Hfirst]. destruct (Nat.lt_trichotomy k i) as [Hlt|[->|Hlt]]; [|done|].
      * by destruct (Hfirst k Hlt).
      * by destruct (Hbefore i id Hi Hlt).
  - apply list_find_None in E. rewrite Forall_forall in E. by destruct (E id Hin).
Qed.

(** The indices kept are those of the first occurrences of new ids. *)
Lemma dedup_ids_kept (appended : gset bytes) (ids : list bytes) (i : nat) :
  i ∈ (dedup_ids appended ids).1 ↔
  ∃ id, ids !! i = Some id ∧ id ∉ appended ∧ ∀ j, (j < i)%nat → ids !! j ≠ Some id.
Proof.
  unfold dedup_ids. cbn [fst]. rewrite merge_sort_Permutation, list_elem_of_fmap. split.
  - intros (id & -> & [Hnew [Hin _]%elem_of_unique_ids]%list_elem_of_filter).
    exists id. apply (first_index_spec ids id (first_index ids id)) in Hin as [Hs _].
    destruct (Hs eq_refl). done.
  - intros (id & Hi & Hnew & Hfirst). exists id.
    assert (id ∈ ids) as Hin by (by eapply list_elem_of_lookup_2).
    split; [symmetry; by apply first_index_spec|]. apply list_elem_of_filter. split; [done|].
    apply elem_of_unique_ids. split; [done|]. apply not_elem_of_empty.
Qed.

Lemma dedup_ids_appended (appended : gset bytes) (ids : list bytes) (id : bytes) :
  id ∈ (dedup_ids appended ids).2 ↔ id ∈ ids ∨ id ∈ appended.
Proof.
  unfold dedup_ids. cbn [snd]. rewrite elem_of_union, elem_of_list_to_set, list_elem_of_filter, elem_of_unique_ids.
  destruct (decide (id ∈ appended)); [tauto|]. split; [tauto|].
  intros [?|?]; [|tauto]. left. split; [done|]. split; [done|]. apply not_elem_of_empty.
Qed.

Lemma dedup_ids_nil (appended : gset bytes) (ids : list bytes) :
  (∀ id, id ∈ ids → id ∈ appended) → (dedup_ids appended ids).1 = [].
Proof.
  intros Hall. destruct (dedup_ids appended ids).1 as [|i l] eqn:E; [done|].
  assert (i ∈ (dedup_ids appended ids).1) as Hi by (rewrite E; left).
  apply dedup_ids_kept in Hi as (id & Hi & Hnew & _). apply list_elem_of_lookup_2 in Hi. by destruct Hnew; auto.
Qed.

Section batches.
Context `{Sha256Fn} `{!Uuid}.

Implicit Types (s : Store) (t : bytes).

(** After a successful append every id of the batch is recorded. *)
Lemma append_records_ids s t g ids count br o s' :
  append_atomic_batch s t g (Some ids) count br = Ok (o, s') →
  ∀ id, id ∈ ids → count ≠ 0%nat → id ∈ st_appended s'.
Proof.
  unfold append_atomic_batch. intros E id Hin Hc. destruct (Nat.eqb_spec count 0); [done|].
  destruct (negb (length ids =? count)%nat); [done|].
  pose proof (dedup_ids_appended (st_appended s) ids id) as Hd.
  pose proof (dedup_ids_kept (st_appended s) ids) as Hk.
  destruct (dedup_ids (st_appended s) ids) as [kept appended]. cbn [fst snd] in *.
  destruct kept as [|k0 kept].
  - injection E as <- <-. destruct (decide (id ∈ st_appended s)) as [|Hn]; [done|]. exfalso.
    apply (not_elem_of_nil (first_index ids id)). apply Hk. exists id.
    apply (first_index_spec ids id (first_index ids id)) in Hin as [Hs _]. destruct (Hs eq_refl). done.
  - destruct (default _ _) as [last hash]. destruct (negb (length hash =? 32)%nat); [done|].
    destruct (last + 1 <? 0)%Z; [done|].
    apply rbind_Ok in E as (rows & _ & E). destruct (negb (length rows =? _)%nat); [done|].
    apply rbind_Ok in E as (hs & _ & E). apply rbind_Ok in E as (table & _ & E).
    injection E as <- <-. simpl. apply Hd. auto.
Qed.

(** Each event is appended once: of the ids of a delivery, exactly the first
    occurrences of ids never seen before are appended; and delivering a batch
    again, at any later time and in any grouping under the same ids, appends
    nothing, consumes no sequence number and starts no anchor. *)
Theorem redelivery_appends_nothing s states n t items ids now res :
  items ≠ [] →
  append_pg_batch s states n t items (Some ids) now = Ok res →
  (∀ i, i ∈ (dedup_ids (st_appended s) ids).1 ↔
     ∃ id, ids !! i = Some id ∧ id ∉ st_appended s ∧ ∀ j, (j < i)%nat → ids !! j ≠ Some id) ∧
  ∀ states' n' t' items' now', length items' = length ids →
    append_pg_batch (pa_store res) states' n' t' items' (Some ids) now' =
    Ok {| pa_store := pa_store res; pa_states := states'; pa_copied := []; pa_batches := [] |}.
Proof.
  intros Hne E. split; [apply dedup_ids_kept|]. intros states' n' t' items' now' Hlen.
  assert (∀ id, id ∈ ids → id ∈ st_appended (pa_store res)) as Hrec.
  { unfold append_pg_batch in E. apply rbind_Ok in E as ([o s'] & Ea & E).
    assert (pa_store res = s') as ->.
    { destruct o as [o|]; [|by injection E as <-].
      destruct (if (0 <? n)%Z then _ else _) as [states2 batches]. by injection E as <-. }
    intros id Hin. eapply append_records_ids; [exact Ea|done|]. by destruct items. }
  apply dedup_ids_nil in Hrec. unfold append_pg_batch, append_atomic_batch.
  destruct (length items' =? 0)%nat; [done|].
  rewrite Hlen, Nat.eqb_refl. cbn [negb].
  destruct (dedup_ids (st_appended (pa_store res)) ids) as [kept appended].
  cbn [fst] in Hrec. by rewrite Hrec.
Qed.

(** ** Appends commit *)

(** The indices of the delivered events that are appended. *)
Definition new_events s (ids : option (list bytes)) (items : list PendingLedgerRow) : list nat :=
  match ids with
  | Some ids => (dedup_ids (st_appended s) ids).1
  | None => seq 0 (length items)
  end.

(** The number the store hands out next. *)
Definition next_seq s t : Z := (default GENESIS_LAST_SEQ (fst <$> st_heads s !! t) + 1)%Z.

Definition event_of (r : AuditLogRow) : PendingLedgerRow :=
  {| pl_event_type := lr_event_type r; pl_actor := lr_actor r; pl_payload_json := lr_payload r |}.

Lemma build_rows_some t items now seq prev kept :
  Forall (λ i, (i < length items)%nat) kept →
  ∃ rows, build_rows t items now seq prev kept = Some rows ∧
    Forall2 (λ i r, items !! i = Some (event_of r)) kept rows ∧
    Forall (λ r, lr_tenant_id r = uuid_to_string t ∧ (lr_seq r ≤ seq + lenZ kept - 1)%Z ∧
                 length <$> decode_hash_hex (lr_row_hash r) = Some 32%nat) rows.
Proof.
  intros Hall. revert seq prev. induction Hall as [|i kept Hi _ IH]; intros seq prev.
  { exists []. split_and!; [done|constructor|constructor]. }
  apply lookup_lt_is_Some in Hi as [item Ei]. cbn [build_rows]. rewrite Ei. cbn [mbind option_bind].
  set (h := row_hash_v2 _ _ _ _ _ _). destruct (IH (seq + 1)%Z h) as (rows & Er & Hf & Hr). rewrite Er.
  eexists. split; [done|]. split.
  - constructor; [|done]. rewrite Ei. f_equal. by destruct item.
  - pose proof (lenZ_nonneg kept) as Hk. constructor.
    + cbn [lr_tenant_id lr_seq lr_row_hash]. unfold decode_hash_hex.
      rewrite hex_decode_encode by apply row_hash_v2_length. cbn [ok fmap option_fmap option_map].
      unfold h. rewrite row_hash_v2_length. split_and!; [done| |done]. unfold lenZ in *. simpl. lia.
    + eapply Forall_impl; [exact Hr|]. intros r (? & ? & ?). split_and!; [done| |done]. unfold lenZ in *. simpl. lia.
Qed.

Lemma insert_rows_tx_some rows table :
  Forall (λ r, is_Some (uuid_parse_str (lr_tenant_id r)) ∧ (lr_seq r ≤ i64_max)%Z) rows →
  insert_rows_tx rows table = Ok (fold_left insert_row rows table).
Proof.
  intros Hall. revert table. induction Hall as [|r rows [[u Eu] Hi] _ IH]; intros table; [done|].
  cbn [insert_rows_tx fold_left]. rewrite Eu. unfold seq_i64. rewrite (proj2 (Z.leb_le _ _) Hi). apply IH.
Qed.

Lemma new_events_bounds s ids items :
  match ids with Some ids => length ids = length items | None => True end →
  Forall (λ i, (i < length items)%nat) (new_events s ids items).
Proof.
  intros Hl. apply Forall_forall. intros i Hi. destruct ids as [ids|]; simpl in Hi.
  - apply dedup_ids_kept in Hi as (id & Hi & _). apply lookup_lt_Some in Hi. lia.
  - apply elem_of_seq in Hi. lia.
Qed.

Lemma head_length s t last hash :
  store_ok s → length t = 16%nat → st_heads s !! t = Some (last, hash) → length hash = 32%nat ∧ (-1 ≤ last)%Z.
Proof.
  intros [Hh _] Ht E. specialize (Hh t Ht). unfold head_ok in Hh. rewrite E in Hh.
  pose proof (log_chained_seq _ _ _ _ _ _ Hh). pose proof (lenZ_nonneg (tenant_rows s t)). split; [|lia].
  eapply log_chained_tip_length; [|exact Hh]. apply genesis_v2_length.
Qed.

Lemma append_atomic_some s t items ids now :
  store_ok s → length t = 16%nat →
  match ids with Some ids => length ids = length items | None => True end →
  (next_seq s t + lenZ (new_events s ids items) - 1 ≤ i64_max)%Z →
  ∃ o s', append_atomic_batch s t (genesis_v2 t) ids (length items) (build_rows t items now) = Ok (o, s') ∧
    Forall2 (λ i r, items !! i = Some (event_of r)) (new_events s ids items) (from_option ab_rows [] o).
Proof.
  intros Hok Ht Hids Hfit. pose proof (new_events_bounds s ids items Hids) as Hb. unfold append_atomic_batch.
  destruct (Nat.eqb_spec (length items) 0) as [E0|_].
  { exists None, s. split; [done|]. destruct (new_events s ids items) as [|i l]; [constructor|].
    apply Forall_cons in Hb as [? _]. lia. }
  assert (match ids with Some ids => negb (length ids =? length items)%nat | None => false end = false) as ->.
  { destruct ids; [by rewrite Hids, Nat.eqb_refl|done]. }
  assert (∃ appended, match ids with Some ids => dedup_ids (st_appended s) ids
    | None => (seq 0 (length items), st_appended s) end = (new_events s ids items, appended)) as [appended ->].
  { destruct ids as [ids|]; cbn [new_events]; [destruct (dedup_ids _ _)|]; eauto. }
  destruct (new_events s ids items) as [|k kept]; [exists None, s; split; [done|constructor]|].
  set (heads := match _ with Some _ => _ | None => _ end).
  assert (∃ last hash, default (GENESIS_LAST_SEQ, genesis_v2 t) (heads !! t) = (last, hash) ∧
    length hash = 32%nat ∧ (-1 ≤ last)%Z ∧ next_seq s t = (last + 1)%Z) as (last & hash & -> & Hh & Hl & En).
  { subst heads. unfold next_seq. destruct (st_heads s !! t) as [[last hash]|] eqn:Eh.
    - rewrite Eh. exists last, hash. pose proof (head_length _ _ _ _ Hok Ht Eh). simpl. tauto.
    - rewrite lookup_insert, decide_True by done. exists (-1)%Z, (genesis_v2 t).
      pose proof (genesis_v2_length t). simpl. split_and!; [done|done|lia|done]. }
  rewrite En in Hfit. rewrite Hh, (proj2 (Z.ltb_ge _ _)) by lia. cbn [Nat.eqb negb].
  destruct (build_rows_some t items now (last + 1) hash (k :: kept) Hb) as (rows & -> & Hf & Hr).
  cbn [ok_or rbind]. rewrite <- (Forall2_length _ _ _ Hf), Nat.eqb_refl. cbn [negb].
  assert (is_Some (mapM (λ r, decode_hash_hex (lr_row_hash r)) rows)) as [hs ->].
  { apply mapM_is_Some. eapply Forall_impl; [exact Hr|]. intros r (_ & _ & E). unfold compose.
    destruct (decode_hash_hex (lr_row_hash r)); [by eexists|done]. }
  cbn [ok_or rbind]. rewrite insert_rows_tx_some.
  - eexists _, _. split; [done|]. done.
  - eapply Forall_impl; [exact Hr|]. intros r (-> & ? & _). rewrite uuid_parse_string by done. split; [by eexists|lia].
Qed.

(** An append commits: on a reachable store, for ids that match the events in
    number and sequence numbers that still fit, [append_pg_batch] succeeds, adds
    exactly the new events (each delivery's first occurrences), in the order of
    the delivery, after the rows already there, and hands the same rows to the
    copy. *)
Theorem append_commits `{!Base64} s states n t items ids now :
  reachable s → length t = 16%nat →
  match ids with Some ids => length ids = length items | None => True end →
  (next_seq s t + lenZ (new_events s ids items) - 1 ≤ i64_max)%Z →
  ∃ res, append_pg_batch s states n t items ids now = Ok res ∧
    st_rows (pa_store res) = st_rows s ++ pa_copied res ∧
    Forall2 (λ i r, items !! i = Some (event_of r)) (new_events s ids items) (pa_copied res).
Proof.
  intros Hok%reachable_ok Ht Hids Hfit.
  destruct (append_atomic_some s t items ids now Hok Ht Hids Hfit) as (o & s' & E & Hf).
  pose proof (append_atomic_ok _ _ _ _ _ _ _ Ht Hok E) as [_ Ho].
  unfold append_pg_batch. rewrite E. cbn [rbind]. destruct o as [o|].
  - destruct (if (0 <? n)%Z then _ else _) as [states' batches]. eexists. split; [done|].
    destruct Ho as (Er & _). done.
  - subst s'. eexists. split; [done|]. cbn [pa_store pa_copied]. split; [by rewrite (right_id_L [] (++))|done].
Qed.

(** ** The threshold trigger *)

(** Consecutive batches: each non-empty, of at most [n] rows, above the previous
    end. *)
Fixpoint batches_after (n : Z) (w : option Z) (bs : list (Z * Z)) : Prop :=
  match bs with
  | [] => True
  | (a, b) :: bs' =>
      (a ≤ b)%Z ∧ (b - a < n)%Z ∧ (∀ p, w = Some p → (p < a)%Z) ∧ batches_after n (Some b) bs'
  end.

Lemma set_last_anchored_end_get (states : gmap bytes TenantChainState) t e :
  (∀ p, last_anchored_end states t = Some p → (p < e)%Z) →
  last_anchored_end (set_last_anchored_end states t e) t = Some e.
Proof.
  intros Hp. unfold last_anchored_end in *. unfold set_last_anchored_end.
  rewrite lookup_insert, decide_True by done. simpl.
  destruct (states !! t) as [c|]; simpl in *; [|done].
  destruct (cs_last_anchored_end c) as [p|] eqn:Ec; [|done].
  specialize (Hp p eq_refl). destruct (Z.ltb_spec p e); [done|lia].
Qed.

(** The watermark never moves back. *)
Lemma set_last_anchored_end_mono (states : gmap bytes TenantChainState) t u e :
  match last_anchored_end states u with
  | Some p => ∃ q, last_anchored_end (set_last_anchored_end states t e) u = Some q ∧ (p ≤ q)%Z
  | None => True
  end.
Proof.
  unfold last_anchored_end, set_last_anchored_end. destruct (decide (u = t)) as [->|Hne].
  - rewrite lookup_insert, decide_True by done. destruct (states !! t) as [c|]; simpl; [|done].
    destruct (cs_last_anchored_end c) as [p|] eqn:Ec; [|done].
    destruct (Z.ltb_spec p e); simpl; [eexists; split; [done|lia]|]. rewrite Ec. eauto with lia.
  - rewrite lookup_insert_ne by done. destruct (states !! u) as [c|]; simpl; [|done].
    destruct (cs_last_anchored_end c); eauto with lia.
Qed.

Lemma threshold_anchors_after states t n seqs :
  (0 < n)%Z → StronglySorted Z.lt seqs → Forall (Z.le 0) seqs →
  (∀ p, last_anchored_end states t = Some p → Forall (Z.lt p) seqs) →
  batches_after n (last_anchored_end states t) (threshold_anchors states t n seqs).2.
Proof.
  intros Hn. revert states. induction seqs as [|q seqs IH]; intros states Hs Hpos Hw; [done|].
  apply StronglySorted_inv in Hs as [Hs Hlt]. apply Forall_cons in Hpos as [Hq Hpos]. cbn [threshold_anchors].
  destruct (negb _).
  { apply IH; [done|done|]. intros p Hp. specialize (Hw p Hp). by apply Forall_cons in Hw as [_ ?]. }
  assert (∀ p, last_anchored_end states t = Some p → (p < q)%Z) as Hpq.
  { intros p Hp. specialize (Hw p Hp). by apply Forall_cons in Hw as [? _]. }
  specialize (IH (set_last_anchored_end states t q) Hs Hpos).
  rewrite (set_last_anchored_end_get states t q Hpq) in IH.
  destruct (threshold_anchors (set_last_anchored_end states t q) t n seqs) as [states' bs].
  cbn [snd batches_after] in *. unfold anchor_batch_start, sat_sub.
  split_and!.
  - destruct (last_anchored_end states t) as [p|]; [specialize (Hpq p eq_refl)|]; lia.
  - destruct (last_anchored_end states t) as [p|]; lia.
  - intros p ->. lia.
  - apply IH. by intros p [= <-].
Qed.

(** Every multiple of [n] among the numbers ends a batch, and nothing else does. *)
Lemma threshold_anchors_ends states t n seqs :
  (threshold_anchors states t n seqs).2.*2 = filter (λ q, ((q + 1) mod n = 0)%Z) seqs.
Proof.
  revert states. induction seqs as [|q seqs IH]; intros states; [done|].
  cbn [threshold_anchors]. rewrite filter_cons. destruct (Z.eqb_spec ((q + 1) mod n) 0); cbn [negb].
  - rewrite decide_True by done. specialize (IH (set_last_anchored_end states t q)).
    destruct (threshold_anchors (set_last_anchored_end states t q) t n seqs) as [? bs].
    cbn [snd] in *. rewrite fmap_cons. by rewrite IH.
  - rewrite decide_False by done. apply IH.
Qed.

Lemma seqZ_sorted m n : StronglySorted Z.lt (seqZ m n).
Proof.
  destruct (Z.le_gt_cases 0 n) as [Hn|Hn]; [|rewrite seqZ_nil by lia; constructor].
  revert m. pattern n. apply natlike_ind; [|intros x Hx IH m|done].
  - intros m. rewrite seqZ_nil by lia. constructor.
  - rewrite seqZ_cons by lia. constructor.
    + replace (Z.pred (Z.succ x)) with x by lia. apply IH.
    + apply Forall_forall. intros y [? _]%elem_of_seqZ. lia.
Qed.

Lemma append_atomic_first s t g ids count br o s' :
  append_atomic_batch s t g ids count br = Ok (Some o, s') →
  ab_first_seq o = next_seq s t ∧ (0 ≤ ab_first_seq o)%Z ∧
  lenZ (ab_row_hashes o) = lenZ (ab_kept o) ∧ next_seq s' t = (next_seq s t + lenZ (ab_kept o))%Z.
Proof.
  unfold append_atomic_batch, next_seq. intros E.
  destruct (count =? 0)%nat; [done|]. destruct (match ids with Some _ => _ | None => _ end); [done|].
  destruct (match ids with Some ids => dedup_ids _ ids | None => _ end) as [kept appended].
  destruct kept as [|k kept]; [done|]. set (heads := match _ with Some _ => _ | None => _ end) in *.
  assert ((default (GENESIS_LAST_SEQ, g) (heads !! t)).1 = default GENESIS_LAST_SEQ (fst <$> st_heads s !! t)) as Eh.
  { subst heads. destruct (st_heads s !! t) as [[a b]|] eqn:Es; [by rewrite Es|].
    by rewrite lookup_insert, decide_True. }
  destruct (default _ (heads !! t)) as [last hash]. cbn [fst] in Eh. subst last.
  destruct (negb (length hash =? 32)%nat); [done|].
  match type of E with (if ?b then _ else _) = _ => destruct b eqn:Eneg end; [done|].
  apply rbind_Ok in E as (rows & _ & E). destruct (negb _) eqn:En; [done|].
  apply rbind_Ok in E as (hs & Ehs & E). apply rbind_Ok in E as (table & _ & E). injection E as <- <-.
  cbn [ab_first_seq ab_row_hashes ab_kept]. breflect. split_and!; [done|done| |].
  - destruct (mapM _ rows) as [hs'|] eqn:Em; [|done]. injection Ehs as ->. apply length_mapM in Em.
    unfold lenZ. by rewrite <- Em, En.
  - simpl st_heads. rewrite lookup_insert, decide_True by done. simpl. unfold lenZ. simpl. lia.
Qed.

Lemma append_atomic_none s t g ids count br s' :
  append_atomic_batch s t g ids count br = Ok (None, s') → s' = s.
Proof.
  unfold append_atomic_batch. intros E. destruct (count =? 0)%nat; [congruence|].
  destruct (match ids with Some _ => _ | None => _ end); [done|].
  destruct (match ids with Some ids => dedup_ids _ ids | None => _ end) as [kept appended].
  destruct kept as [|k kept]; [congruence|]. destruct (default _ _) as [last hash].
  destruct (negb _); [done|]. destruct (_ <? 0)%Z; [done|].
  apply rbind_Ok in E as (rows & _ & E). destruct (negb _); [done|].
  apply rbind_Ok in E as (hs & Ehs & E). by apply rbind_Ok in E as (table & _ & E).
Qed.

(** The threshold trigger covers every row once: the batches an append
    starts end exactly at the appended sequence numbers [q] with
    [(q + 1) mod anchor_every = 0], are non-empty, hold at most [anchor_every]
    rows, lie above one another and above the tenant's watermark, wherever that
    watermark came from, as long as the watermark names a committed row. *)
Theorem threshold_batches_disjoint s states n t items ids now res :
  append_pg_batch s states n t items ids now = Ok res → (0 < n)%Z →
  (∀ p, last_anchored_end states t = Some p → (p < next_seq s t)%Z) →
  batches_after n (last_anchored_end states t) (pa_batches res) ∧
  (pa_batches res).*2 =
    filter (λ q, ((q + 1) mod n = 0)%Z) (seqZ (next_seq s t) (next_seq (pa_store res) t - next_seq s t)).
Proof.
  intros E Hn Hw. unfold append_pg_batch in E. apply rbind_Ok in E as ([o s'] & Ea & E).
  destruct o as [o|].
  2: { injection E as <-. apply append_atomic_none in Ea as ->. cbn [pa_batches pa_store].
       by rewrite Z.sub_diag. }
  destruct (Z.ltb_spec 0 n); [|lia].
  pose proof (append_atomic_first _ _ _ _ _ _ _ _ Ea) as (Ef & Hf & El & En).
  replace (ab_first_seq o + lenZ (ab_row_hashes o) - 1 - ab_first_seq o + 1)%Z
    with (next_seq s' t - next_seq s t)%Z in E by lia.
  pose proof (threshold_anchors_after states t n (seqZ (ab_first_seq o) (next_seq s' t - next_seq s t)) Hn (seqZ_sorted _ _)) as Hb.
  pose proof (threshold_anchors_ends states t n (seqZ (ab_first_seq o) (next_seq s' t - next_seq s t))) as He.
  destruct (threshold_anchors _ _ _ _) as [states' bs]. injection E as <-. cbn [pa_batches pa_store snd] in *.
  rewrite Ef in He. split; [|done]. apply Hb.
  - apply Forall_forall. intros q [? _]%elem_of_seqZ. lia.
  - intros p Hp. specialize (Hw p Hp). apply Forall_forall. intros q [? _]%elem_of_seqZ. lia.
Qed.

End batches.
