(* ===== verification/SweepProofs.v ===== *)
(** * The age sweep reaches every row

    The batch a sweep chooses is made of existing rows of the tenant, none of them
    in an earlier batch, from the lowest uncovered row on; its leaves can be read
    back; and passes of the sweep leave no row uncovered. *)

From Stdlib Require Import ZArith Lia.
From stdpp Require Import base list option gmap strings sorting.
From S2P Require Import Prelude BTree Encoding Hash Merkle Json AuditFormat AuditVerifier.
From S2P Require Import ChainProofs Ledger LedgerProofs AnchorBatches.

(** ** Columns *)

Lemma min_of_spec (l : list Z) :
  match min_of l with
  | None => l = []
  | Some m => m ∈ l ∧ ∀ y, y ∈ l → (m ≤ y)%Z
  end.
Proof.
  destruct l as [|x l]; [done|]. unfold min_of. induction l as [|y l [Hin Hle]]; simpl.
  - split; [left|]. intros y ->%list_elem_of_singleton. lia.
  - split.
    + destruct (Z.min_spec y (foldr Z.min x l)) as [[_ ->]|[_ ->]]; set_solver.
    + intros z. rewrite !elem_of_cons. intros [->|[->|Hz]]; [|lia|].
      * specialize (Hle x ltac:(left)). lia.
      * specialize (Hle z ltac:(by right)). lia.
Qed.

Section sweep.
Context `{Sha256Fn} `{!Uuid}.

Implicit Types (s : Store) (t : bytes).

(** A sequence number inside a batch of the tenant. *)
Definition covered_seq s t (q : Z) : Prop := ∃ a, a ∈ st_anchors s ∧ in_batch t q a = true.

Lemma existsb_covered s t q :
  existsb (in_batch t q) (st_anchors s) = false ↔ ¬ covered_seq s t q.
Proof.
  unfold covered_seq. destruct (existsb _ _) eqn:E.
  - apply existsb_exists in E as (a & Ha & Hb). split; [done|]. intros Hn. destruct Hn. exists a.
    by rewrite list_elem_of_In.
  - split; [|done]. intros _ (a & Ha & Hb). rewrite list_elem_of_In in Ha.
    assert (existsb (in_batch t q) (st_anchors s) = true) by (apply existsb_exists; eauto). congruence.
Qed.

Lemma merge_sort_head (l : list AuditLogRow) u l' :
  merge_sort row_seq_le l = u :: l' → u ∈ l ∧ ∀ r, r ∈ l → (lr_seq u ≤ lr_seq r)%Z.
Proof.
  intros E. assert (Sorted row_seq_le (merge_sort row_seq_le l)) as Hs.
  { apply Sorted_merge_sort. intros a b. unfold row_seq_le. lia. }
  assert (∀ r, r ∈ u :: l' ↔ r ∈ l) as Hp by (intros r; rewrite <- E; by rewrite merge_sort_Permutation).
  split; [apply Hp; left|]. intros r Hr%Hp. rewrite E in Hs.
  apply Sorted_StronglySorted in Hs; [|intros a b c; unfold row_seq_le; lia].
  apply StronglySorted_inv in Hs as [_ Hall]. rewrite Forall_forall in Hall.
  apply elem_of_cons in Hr as [->|Hr]; [lia|]. by apply Hall.
Qed.

(** The probe finds the lowest row outside every batch, and finds one if there is
    one. *)
Lemma oldest_uncovered_spec s t now :
  match oldest_uncovered s t now with
  | None => ∀ r, r ∈ tenant_rows s t → covered_seq s t (lr_seq r)
  | Some u =>
      up_seq u ∈ lr_seq <$> tenant_rows s t ∧ ¬ covered_seq s t (up_seq u) ∧
      (∀ r, r ∈ tenant_rows s t → (lr_seq r < up_seq u)%Z → covered_seq s t (lr_seq r)) ∧
      up_head u = default 0%Z (max_of (lr_seq <$> tenant_rows s t)) ∧ (0 ≤ up_age_secs u)%Z
  end.
Proof.
  unfold oldest_uncovered. destruct (merge_sort row_seq_le _) as [|u l] eqn:E.
  - intros r Hr. destruct (existsb (in_batch t (lr_seq r)) (st_anchors s)) eqn:Eb.
    + apply existsb_exists in Eb as (a & Ha & Hb). exists a. by rewrite list_elem_of_In.
    + assert (r ∈ merge_sort row_seq_le (filter (λ r, existsb (in_batch t (lr_seq r)) (st_anchors s) = false)
          (tenant_rows s t))) as Hin.
      { rewrite merge_sort_Permutation. by apply list_elem_of_filter. }
      rewrite E in Hin. by apply not_elem_of_nil in Hin.
  - apply merge_sort_head in E as [Hu Hmin]. apply list_elem_of_filter in Hu as [Hu Hin].
    cbn [up_seq up_head up_age_secs]. split_and!; [|by apply existsb_covered| |done|lia].
    + apply list_elem_of_fmap. eauto.
    + intros r Hr Hlt. destruct (existsb (in_batch t (lr_seq r)) (st_anchors s)) eqn:Eb.
      * apply existsb_exists in Eb as (a & Ha & Hb). exists a. by rewrite list_elem_of_In.
      * specialize (Hmin r). rewrite list_elem_of_filter in Hmin. specialize (Hmin (conj Eb Hr)). lia.
Qed.

(** ** The rows of a tenant are numbered without a gap *)

Lemma log_chained_count t seq prev rows seq' tip b e :
  log_chained t seq prev rows seq' tip →
  Z.of_nat (length (filter (λ r, (b ≤ lr_seq r ≤ e)%Z) rows)) = Z.max 0 (Z.min (e + 1) seq' - Z.max b seq).
Proof.
  induction 1 as [seq prev|seq prev r h rows seq' tip (_ & Es & _) _ Hc IH]; [simpl; lia|].
  pose proof (log_chained_seq _ _ _ _ _ _ Hc). pose proof (lenZ_nonneg rows).
  rewrite filter_cons. case_decide; simpl length; lia.
Qed.

Lemma tenant_row_number s t q :
  store_ok s → length t = 16%nat → q ∈ lr_seq <$> tenant_rows s t →
  ∃ head, max_of (lr_seq <$> tenant_rows s t) = Some head ∧ (0 ≤ q ≤ head)%Z ∧ (head ≤ i64_max)%Z ∧
  ∀ b e, (0 ≤ b)%Z → (e ≤ head)%Z →
    Z.of_nat (length (filter (λ r, (b ≤ lr_seq r ≤ e)%Z) (tenant_rows s t))) = Z.max 0 (e + 1 - b) ∧
    Forall (λ r, is_Some (decode_hash_hex (lr_row_hash r))) (tenant_rows s t).
Proof.
  intros [Hh _] Ht Hq. specialize (Hh t Ht). unfold head_ok in Hh.
  destruct (st_heads s !! t) as [[last hash]|]; [|by rewrite Hh in Hq; apply not_elem_of_nil in Hq].
  apply list_elem_of_fmap in Hq as (r & -> & Hr).
  pose proof (log_chained_rows _ _ _ _ _ _ Hh) as Hall. rewrite Forall_forall in Hall.
  destruct (Hall r Hr) as (_ & Hlt & _).
  exists last. pose proof (log_chained_max _ _ _ _ _ Hh ltac:(lia)) as Em.
  replace (last + 1 - 1)%Z with last in Em by lia.
  split_and!; [done|lia|lia| |].
  - pose proof (log_chained_last_in _ _ _ _ _ _ Hh) as Hlast.
    assert (tenant_rows s t ≠ []) as Hne by (intros E; rewrite E in Hr; by apply not_elem_of_nil in Hr).
    apply Hlast in Hne. apply list_elem_of_fmap in Hne as (x & Ex & Hx).
    destruct (Hall x Hx) as (_ & _ & ?). lia.
  - intros b e Hb He. split; [rewrite (log_chained_count _ _ _ _ _ _ b e Hh); lia|].
    clear -Hh. induction Hh as [|? ? x h rows seq' tip (_ & _ & _ & Eh & _) _ _ IH]; constructor; [|done].
    unfold decode_hash_hex. rewrite Eh. by eexists.
Qed.

(** ** The batch of a sweep *)

Lemma in_batch_true t q a :
  in_batch t q a = true ↔
  ar_tenant_id a = uuid_to_string t ∧ (ar_batch_start_seq a ≤ q ≤ ar_batch_end_seq a)%Z.
Proof.
  unfold in_batch. rewrite !andb_true_iff, bool_decide_eq_true, !Z.leb_le. tauto.
Qed.

(** The next batch's start bounds the sweep's batch from above. *)
Lemma next_anchor_start_bound s t q a :
  a ∈ st_anchors s → ar_tenant_id a = uuid_to_string t → (q < ar_batch_start_seq a)%Z →
  ∃ m, next_anchor_start_after s t q = Some m ∧ (q < m ≤ ar_batch_start_seq a)%Z.
Proof.
  intros Ha Et Hlt. unfold next_anchor_start_after.
  assert (ar_batch_start_seq a ∈ filter (λ x, (q < x)%Z) (ar_batch_start_seq <$> tenant_anchors s t)) as Hin.
  { apply list_elem_of_filter. split; [done|]. apply list_elem_of_fmap. exists a. split; [done|].
    unfold tenant_anchors. by apply list_elem_of_filter. }
  pose proof (min_of_spec (filter (λ x, (q < x)%Z) (ar_batch_start_seq <$> tenant_anchors s t))) as Hm.
  destruct (min_of _) as [m|]; [|by rewrite Hm in Hin; apply not_elem_of_nil in Hin].
  destruct Hm as [[Hm _]%list_elem_of_filter Hle]. exists m. split; [done|]. specialize (Hle _ Hin). lia.
Qed.

Lemma next_anchor_start_above s t q m : next_anchor_start_after s t q = Some m → (q < m)%Z.
Proof.
  unfold next_anchor_start_after. intros E.
  pose proof (min_of_spec (filter (λ x, (q < x)%Z) (ar_batch_start_seq <$> tenant_anchors s t))) as Hm.
  rewrite E in Hm. destruct Hm as [[? _]%list_elem_of_filter _]. done.
Qed.

(** What a sweep anchors: from the lowest uncovered row, at most [MAX_SWEEP_BATCH]
    rows, up to the head, meeting no existing batch. *)
Record sweep_range s t (b e : Z) : Prop := {
  sr_order : (0 ≤ b ≤ e)%Z;
  sr_size : (e - b < MAX_SWEEP_BATCH)%Z;
  sr_start : b ∈ lr_seq <$> tenant_rows s t;
  sr_lowest : ∀ r, r ∈ tenant_rows s t → (lr_seq r < b)%Z → covered_seq s t (lr_seq r);
  sr_rows : ∀ head, max_of (lr_seq <$> tenant_rows s t) = Some head → (e ≤ head)%Z;
  sr_bound : (e ≤ i64_max)%Z;
  sr_fresh : ∀ q, (b ≤ q ≤ e)%Z → ¬ covered_seq s t q;
}.

Lemma sweep_batch_range s t now age b e :
  store_ok s → length t = 16%nat → sweep_batch s t now age = Some (b, e) → sweep_range s t b e.
Proof.
  intros Hok Ht. unfold sweep_batch. pose proof (oldest_uncovered_spec s t now) as Hu.
  destruct (oldest_uncovered s t now) as [u|]; [|done].
  destruct Hu as (Hin & Hnc & Hlow & Ehead & _).
  destruct (tenant_row_number s t (up_seq u) Hok Ht Hin) as (head & Em & Hq & Hmax & _).
  rewrite Em in Ehead. cbn [default] in Ehead. unfold id in Ehead.
  destruct (_ && _); [done|]. destruct (_ <? _)%Z; [done|].
  set (end0 := Z.min (up_head u) (sat_add64 (up_seq u) (MAX_SWEEP_BATCH - 1))).
  set (end1 := match next_anchor_start_after _ _ _ with Some n => _ | None => _ end).
  assert (end1 ≤ end0)%Z as Hend by (subst end1; destruct (next_anchor_start_after _ _ _); lia).
  destruct (Z.ltb_spec end1 (up_seq u)); [done|]. intros [= <- <-].
  subst end0. unfold sat_add64, MAX_SWEEP_BATCH in *. split; try done; try lia.
  - unfold MAX_SWEEP_BATCH. lia.
  - rewrite Em. intros ? [= <-]. lia.
  - intros q Hqr (a & Ha & [Et Hb]%in_batch_true).
    destruct (Z.le_gt_cases (ar_batch_start_seq a) (up_seq u)) as [Hle|Hgt].
    + apply Hnc. exists a. split; [done|]. apply in_batch_true. split; [done|]. lia.
    + apply (next_anchor_start_bound s t (up_seq u)) in Ha as (m & Em' & Hm); [|done|lia].
      subst end1. rewrite Em' in Hqr. unfold sat_sub in Hqr. lia.
Qed.

(** A hole is swept on sight, a row of the tail once it is old enough. *)
Lemma sweep_batch_some s t now age u :
  store_ok s → length t = 16%nat → oldest_uncovered s t now = Some u →
  (∃ w, up_watermark u = Some w ∧ (up_seq u ≤ w)%Z) ∨ (age ≤ up_age_secs u)%Z →
  ∃ e, sweep_batch s t now age = Some (up_seq u, e).
Proof.
  intros Hok Ht Eu Hwhy. unfold sweep_batch. pose proof (oldest_uncovered_spec s t now) as Hu.
  rewrite Eu in *. destruct Hu as (Hin & Hnc & Hlow & Ehead & _).
  destruct (tenant_row_number s t (up_seq u) Hok Ht Hin) as (head & Em & Hq & Hmax & _).
  rewrite Em in Ehead. cbn [default] in Ehead. unfold id in Ehead.
  assert (negb match up_watermark u with Some w => (up_seq u <=? w)%Z | None => false end &&
          (up_age_secs u <? age)%Z = false) as ->.
  { destruct Hwhy as [(w & -> & Hw)|Ha].
    - by rewrite (proj2 (Z.leb_le _ _) Hw).
    - by rewrite (proj2 (Z.ltb_ge _ _) Ha), andb_false_r. }
  destruct (Z.ltb_spec (up_head u) (up_seq u)); [lia|].
  set (end1 := match next_anchor_start_after _ _ _ with Some n => _ | None => _ end).
  assert (up_seq u ≤ end1)%Z as Hend.
  { subst end1. unfold sat_add64, sat_sub, MAX_SWEEP_BATCH, u64_max, i64_max in *.
    destruct (next_anchor_start_after _ _ _) as [m|] eqn:En; [apply next_anchor_start_above in En|]; lia. }
  destruct (Z.ltb_spec end1 (up_seq u)); [lia|]. eauto.
Qed.

(** The leaves of a range of committed rows are all there. *)
Lemma read_leaves s t b e :
  store_ok s → length t = 16%nat → (0 ≤ b ≤ e)%Z →
  b ∈ lr_seq <$> tenant_rows s t →
  (∀ head, max_of (lr_seq <$> tenant_rows s t) = Some head → (e ≤ head)%Z) →
  ∃ hashes, anchor_batch_from_store s t b e = Some hashes ∧ lenZ hashes = (e - b + 1)%Z.
Proof.
  intros Hok Ht Hbe Hb Hhead.
  destruct (tenant_row_number s t b Hok Ht Hb) as (head & Em & Hq & Hmax & Hcount).
  specialize (Hhead head Em). destruct (Hcount b e ltac:(lia) ltac:(lia)) as [Hlen Hdec].
  unfold anchor_batch_from_store, read_row_hashes, seq_i64.
  rewrite (proj2 (Z.leb_le b i64_max)), (proj2 (Z.leb_le e i64_max)) by lia. cbn [mbind option_bind].
  set (sel := merge_sort row_seq_le _).
  assert (sel ≡ₚ filter (λ r, (b ≤ lr_seq r ≤ e)%Z) (tenant_rows s t)) as Hp.
  { subst sel. rewrite merge_sort_Permutation. unfold tenant_rows. rewrite list_filter_filter.
    apply reflexive_eq. apply list_filter_iff. intros r. tauto. }
  assert (is_Some (mapM (λ r, decode_hash_hex (lr_row_hash r)) sel)) as [hashes Eh].
  { apply mapM_is_Some. rewrite Hp. apply Forall_forall. intros r [_ Hr]%list_elem_of_filter.
    rewrite Forall_forall in Hdec. by apply Hdec. }
  rewrite Eh. exists hashes. apply length_mapM in Eh. apply Permutation_length in Hp.
  assert (lenZ hashes = e - b + 1)%Z as El by (unfold lenZ; lia).
  unfold expected_leaves. rewrite Z.mod_small by (unfold i64_max in *; lia).
  cbn [mbind option_bind]. by rewrite El, Z.eqb_refl.
Qed.

(** What the age sweep anchors, on any reachable store: the batch starts at
    the tenant's lowest row outside every batch, holds at most 10000 rows, ends at
    or below the head, contains no sequence number of an existing batch, and its
    leaf set can be read back complete; and a sweep does anchor when the row is a
    hole below the watermark, whatever its age, or is older than the limit. *)
Theorem sweep_batch_exact `{!Base64} s t now age :
  reachable s → length t = 16%nat →
  (∀ b e, sweep_batch s t now age = Some (b, e) →
     sweep_range s t b e ∧
     ∃ hashes, anchor_batch_from_store s t b e = Some hashes ∧ lenZ hashes = (e - b + 1)%Z) ∧
  (∀ u, oldest_uncovered s t now = Some u →
     (∃ w, up_watermark u = Some w ∧ (up_seq u ≤ w)%Z) ∨ (age ≤ up_age_secs u)%Z →
     ∃ e, sweep_batch s t now age = Some (up_seq u, e)).
Proof.
  intros Hok%reachable_ok Ht. split; [|intros; by eapply sweep_batch_some].
  intros b e E. pose proof (sweep_batch_range _ _ _ _ _ _ Hok Ht E) as Hr. split; [done|].
  destruct Hr. by apply read_leaves.
Qed.

(** ** Progress *)

Section progress.
Context `{!Base64}.

Lemma B64_nonempty x : x ≠ [] → B64 x ≠ [].
Proof. intros Hx E. pose proof (B64_decode x) as Hd. rewrite E in Hd. by injection Hd as <-. Qed.

(** Some key is there to sign with, and its signatures are not empty. *)
Definition signs (ed_keypair global : option Signer) : Prop :=
  match ed_keypair, global with
  | Some k, _ | None, Some k => ∀ m, sign k m ≠ []
  | None, None => False
  end.

Lemma anchor_batch_signed root anchored kp global :
  signs kp global → is_signed (anchor_batch root anchored kp global) = true.
Proof.
  intros Hs. unfold is_signed. apply negb_true_iff, bool_decide_eq_false. unfold anchor_batch.
  destruct kp as [k|]; [|destruct global as [k|]; [|done]]; destruct anchored as [[r spki]|]; simpl;
    apply B64_nonempty, Hs.
Qed.

Lemma backfill_anchors t b e f s : st_anchors (backfill t b e f s) = st_anchors s.
Proof. unfold backfill. by destruct (seq_i64 b), (seq_i64 e). Qed.

Lemma backfill_rows {X} (g : AuditLogRow → X) t u b e f s :
  keeps_chain f → (∀ r, g (f r) = g r) → g <$> tenant_rows (backfill t b e f s) u = g <$> tenant_rows s u.
Proof.
  intros Hf Hg. unfold backfill. destruct (seq_i64 b), (seq_i64 e); try done.
  unfold tenant_rows at 1. cbn [st_rows with_rows].
  rewrite (tenant_rows_map s u (λ r, if decide _ then f r else r)).
  - rewrite <- list_fmap_compose. apply list_fmap_ext. intros i r _. simpl. case_decide; [apply Hg|done].
  - intros r. case_decide; [apply Hf|done].
Qed.

Lemma insert_anchor_bound s t root b e o now :
  length t = 16%nat → (b ≤ i64_max)%Z → (e ≤ i64_max)%Z →
  let a := build_anchor_record t root b e o now in
  insert_anchor_record s a =
  if existsb (λ x, bool_decide (ar_tenant_id x = ar_tenant_id a) &&
                   (ar_batch_start_seq x =? ar_batch_start_seq a)%Z) (st_anchors s)
  then s else with_anchors (st_anchors s ++ [a]) s.
Proof.
  intros Ht Hb He a. unfold insert_anchor_record, seq_i64.
  assert (uuid_parse_str (ar_tenant_id a) = Some t) as -> by (by apply uuid_parse_string).
  cbn [a build_anchor_record ar_batch_start_seq ar_batch_end_seq].
  by rewrite (proj2 (Z.leb_le b i64_max) Hb), (proj2 (Z.leb_le e i64_max) He).
Qed.

(** The task stores the batch's record, if no record starts there yet. *)
Lemma anchor_task_anchors db s t hashes b e anchored kp global now :
  signs kp global →
  st_anchors (anchor_task db s t hashes b e anchored kp global now) =
  st_anchors (if insert_ok db then insert_anchor_record s (build_anchor_record t (merkle_root_v2 hashes) b e
    (anchor_batch (merkle_root_v2 hashes) anchored kp global) now) else s).
Proof.
  intros Hs. unfold anchor_task. cbv zeta. rewrite (anchor_batch_signed _ _ _ _ Hs).
  destruct (is_real_rekor_entry _ && _), (signature_ok db); by rewrite ?backfill_anchors.
Qed.

(** What a task does not write: the numbers and the times of the rows. *)
Definition stamp (r : AuditLogRow) : Z * Z := (lr_seq r, lr_event_time r).

Lemma anchor_task_stamps db s t u hashes b e anchored kp global now :
  stamp <$> tenant_rows (anchor_task db s t hashes b e anchored kp global now) u = stamp <$> tenant_rows s u.
Proof.
  unfold anchor_task. cbv zeta.
  assert (∀ a, tenant_rows (insert_anchor_record s a) u = tenant_rows s u) as Ea.
  { intros a. unfold insert_anchor_record. by repeat case_match. }
  repeat case_match; repeat (rewrite backfill_rows by done); by rewrite ?Ea.
Qed.

Lemma stamps_seqs s s' t : stamp <$> tenant_rows s' t = stamp <$> tenant_rows s t → lr_seq <$> tenant_rows s' t = lr_seq <$> tenant_rows s t.
Proof. intros E. apply (f_equal (fmap fst)) in E. by rewrite <- !list_fmap_compose in E. Qed.

(** No stored batch is empty. *)
Definition batches_nonempty s : Prop := Forall (λ a, (ar_batch_start_seq a ≤ ar_batch_end_seq a)%Z) (st_anchors s).

(** The numbers of the tenant's rows that no batch covers. *)
Definition uncovered s t : list Z :=
  filter (λ q, existsb (in_batch t q) (st_anchors s) = false) (lr_seq <$> tenant_rows s t).

Lemma oldest_uncovered_none s t now : oldest_uncovered s t now = None ↔ uncovered s t = [].
Proof.
  pose proof (oldest_uncovered_spec s t now) as Hu. unfold uncovered. split.
  - intros E. rewrite E in Hu. destruct (filter _ _) as [|q l] eqn:Ef; [done|]. exfalso.
    assert (q ∈ q :: l) as Hq by left. rewrite <- Ef in Hq.
    apply list_elem_of_filter in Hq as [Hn%existsb_covered (r & -> & Hr)%list_elem_of_fmap]. by apply Hn, Hu.
  - intros E. destruct (oldest_uncovered s t now) as [u|]; [|done]. destruct Hu as (Hin & Hnc & _).
    assert (up_seq u ∈ []) as Hbad; [|by apply not_elem_of_nil in Hbad].
    rewrite <- E. apply list_elem_of_filter. split; [by apply existsb_covered|done].
Qed.

Lemma length_filter_lt {A} (P : A → Prop) `{∀ x, Decision (P x)} (l : list A) x :
  x ∈ l → ¬ P x → (length (filter P l) < length l)%nat.
Proof.
  intros Hin Hn. induction l as [|y l IH]; [by apply not_elem_of_nil in Hin|].
  pose proof (length_filter P l). rewrite filter_cons. apply elem_of_cons in Hin as [->|Hin].
  - rewrite decide_False by done. simpl. lia.
  - specialize (IH Hin). case_decide; simpl; lia.
Qed.

(** A pass over a tenant with an uncovered row covers its range. *)
Lemma sweep_tenant_step db s states t now age anchored kp global b e s' states' okb :
  store_ok s → length t = 16%nat → batches_nonempty s → signs kp global → insert_ok db = true →
  sweep_batch s t now age = Some (b, e) →
  sweep_tenant db s states t now age anchored kp global = (s', states', okb) →
  okb = true ∧ store_ok s' ∧ batches_nonempty s' ∧ stamp <$> tenant_rows s' t = stamp <$> tenant_rows s t ∧
  uncovered s' t = filter (λ q, ¬ (b ≤ q ≤ e)%Z) (uncovered s t) ∧ b ∈ uncovered s t.
Proof.
  intros Hok Ht Hne Hs Hdb Eb E. pose proof (sweep_batch_range _ _ _ _ _ _ Hok Ht Eb) as [Hbe Hsz Hb _ Hhd Hmax Hfresh].
  destruct (read_leaves s t b e Hok Ht Hbe Hb Hhd) as (hashes & El & _).
  unfold sweep_tenant in E. rewrite Eb, El in E. injection E as <- <- <-.
  set (s' := anchor_task _ _ _ _ _ _ _ _ _ _).
  pose proof (anchor_task_anchors db s t hashes b e anchored kp global now Hs) as Ea. fold s' in Ea.
  rewrite Hdb in Ea.
  set (a := build_anchor_record _ _ _ _ _ _) in Ea.
  assert (st_anchors s' = st_anchors s ++ [a]) as Ea'.
  { rewrite Ea. unfold a. rewrite insert_anchor_bound by (done || lia). fold a. destruct (existsb _ _) eqn:Ex; [|done]. exfalso.
    apply existsb_exists in Ex as (x & Hx%list_elem_of_In & Hx'). breflect.
    apply (Hfresh b); [lia|]. exists x. split; [done|]. apply in_batch_true.
    unfold batches_nonempty in Hne. rewrite Forall_forall in Hne. specialize (Hne x Hx). simpl in *. split; [done|]. lia. }
  assert (∀ q, existsb (in_batch t q) (st_anchors s') =
    existsb (in_batch t q) (st_anchors s) || ((b <=? q)%Z && (q <=? e)%Z)) as Hcov.
  { intros q. rewrite Ea', existsb_app. simpl. unfold in_batch at 2. simpl.
    rewrite bool_decide_true, orb_false_r by done. done. }
  split; [done|]. split; [by apply anchor_task_ok|]. split; [|split; [apply anchor_task_stamps|split]].
  - unfold batches_nonempty. rewrite Ea'. apply Forall_app. split; [done|]. constructor; [simpl; lia|done].
  - unfold uncovered. rewrite (stamps_seqs s s' t) by apply anchor_task_stamps. rewrite list_filter_filter.
    apply list_filter_iff. intros q. rewrite Hcov, orb_false_iff, andb_false_iff, !Z.leb_gt. split; intros [? ?]; (split; [|done] || split); try done; lia.
  - apply list_elem_of_filter. split; [apply existsb_covered, Hfresh; lia|done].
Qed.

(** A pass whose record is refused by the database changes no coverage. *)
Lemma sweep_tenant_failed db s states t now age anchored kp global s' states' okb :
  store_ok s → signs kp global → insert_ok db = false →
  sweep_tenant db s states t now age anchored kp global = (s', states', okb) →
  store_ok s' ∧ st_anchors s' = st_anchors s ∧ stamp <$> tenant_rows s' t = stamp <$> tenant_rows s t.
Proof.
  intros Hok Hs Hdb E. unfold sweep_tenant in E. destruct (sweep_batch s t now age) as [[b e]|]; [|by injection E as <- <- <-].
  destruct (anchor_batch_from_store s t b e) as [hashes|]; injection E as <- <- <-; [|done].
  split_and!; [by apply anchor_task_ok|by rewrite anchor_task_anchors, Hdb|apply anchor_task_stamps].
Qed.

(** Passes over one tenant: each its time, the log's answer and the database's. *)
Fixpoint sweeps s (states : gmap bytes TenantChainState) t (age : Z) (kp global : option Signer)
    (runs : list (Z * option (RekorV2Receipt * bytes) * StatementOutcomes)) : Store :=
  match runs with
  | [] => s
  | (now, anchored, db) :: runs' =>
      let '(s', states', _) := sweep_tenant db s states t now age anchored kp global in
      sweeps s' states' t age kp global runs'
  end.

(** A row of the tail is swept once it is this old, in whole seconds. *)
Definition aged (age now : Z) (st : Z * Z) : Prop := (age ≤ Z.max 0 ((now - st.2) / 1000000))%Z.

(** The rows up to number [q] that no batch covers. *)
Definition uncovered_to s t (q : Z) : list Z := filter (λ x, (x ≤ q)%Z) (uncovered s t).

Lemma oldest_uncovered_to s t now q x :
  x ∈ uncovered_to s t q →
  ∃ u time, oldest_uncovered s t now = Some u ∧ (up_seq u ≤ q)%Z ∧ (up_seq u, time) ∈ stamp <$> tenant_rows s t ∧
    up_age_secs u = Z.max 0 ((now - time) / 1000000).
Proof.
  intros [Hx Hun]%list_elem_of_filter. apply list_elem_of_filter in Hun as [Hn (r & -> & Hr)%list_elem_of_fmap].
  unfold oldest_uncovered. destruct (merge_sort row_seq_le _) as [|u l] eqn:E.
  - assert (r ∈ merge_sort row_seq_le (filter (λ r, existsb (in_batch t (lr_seq r)) (st_anchors s) = false) (tenant_rows s t))) as Hin
      by (rewrite merge_sort_Permutation; by apply list_elem_of_filter).
    rewrite E in Hin. by apply not_elem_of_nil in Hin.
  - apply merge_sort_head in E as [[_ Hu]%list_elem_of_filter Hmin]. eexists _, (lr_event_time u). split; [done|].
    cbn [up_seq up_age_secs]. split; [|split; [by apply (list_elem_of_fmap_2 stamp) in Hu|done]].
    specialize (Hmin r). rewrite list_elem_of_filter in Hmin. specialize (Hmin (conj Hn Hr)). lia.
Qed.

(** One pass, for the rows up to [q], all of them old enough. *)
Lemma sweep_tenant_to db s states t now age anchored kp global q s' states' okb :
  store_ok s → length t = 16%nat → batches_nonempty s → signs kp global →
  (∀ st, st ∈ stamp <$> tenant_rows s t → (st.1 ≤ q)%Z → aged age now st) →
  sweep_tenant db s states t now age anchored kp global = (s', states', okb) →
  store_ok s' ∧ batches_nonempty s' ∧ stamp <$> tenant_rows s' t = stamp <$> tenant_rows s t ∧
  (length (uncovered_to s' t q) ≤ length (uncovered_to s t q) - (if insert_ok db then 1 else 0))%nat.
Proof.
  intros Hok Ht Hne Hs Haged E. destruct (insert_ok db) eqn:Hdb; cycle 1.
  { destruct (sweep_tenant_failed _ _ _ _ _ _ _ _ _ _ _ _ Hok Hs Hdb E) as (Hok' & Ea & Eq).
    split_and!; [done|by unfold batches_nonempty; rewrite Ea|done|].
    unfold uncovered_to, uncovered. rewrite Ea, (stamps_seqs s s' t Eq). lia. }
  assert (∀ b e, sweep_batch s t now age = Some (b, e) → (uncovered_to s t q = [] ∨ (b ≤ q)%Z) →
    store_ok s' ∧ batches_nonempty s' ∧ stamp <$> tenant_rows s' t = stamp <$> tenant_rows s t ∧
    (length (uncovered_to s' t q) ≤ length (uncovered_to s t q) - 1)%nat) as Hstep.
  { intros b e Eb Hb. destruct (sweep_tenant_step _ _ _ _ _ _ _ _ _ _ _ _ _ _ Hok Ht Hne Hs Hdb Eb E) as (_ & Hok' & Hne' & Est & Eu & Hin).
    pose proof (sweep_batch_range _ _ _ _ _ _ Hok Ht Eb) as [Hbe _ _ _ _ _ _]. split_and!; [done..|].
    assert (uncovered_to s' t q = filter (λ x, ¬ (b ≤ x ≤ e)%Z) (uncovered_to s t q)) as ->.
    { unfold uncovered_to. rewrite Eu, !list_filter_filter. apply list_filter_iff. intros x. tauto. }
    destruct Hb as [->|Hb]; [simpl; lia|].
    pose proof (length_filter_lt (λ x, ¬ (b ≤ x ≤ e)%Z) (uncovered_to s t q) b) as Hlt.
    assert (b ∈ uncovered_to s t q) as Hbq by (by apply list_elem_of_filter). specialize (Hlt Hbq ltac:(cbv beta; lia)). lia. }
  destruct (uncovered_to s t q) as [|x l] eqn:Eun.
  - destruct (sweep_batch s t now age) as [[b e]|] eqn:Eb; [apply (Hstep b e); [done|by left]|].
    unfold sweep_tenant in E. rewrite Eb in E. injection E as <- <- <-. rewrite Eun. by split_and!.
  - destruct (oldest_uncovered_to s t now q x) as (u & time & Eu & Hq & Hin & Hage); [rewrite Eun; left|].
    destruct (sweep_batch_some s t now age u Hok Ht Eu) as [e Eb].
    { right. rewrite Hage. exact (Haged _ Hin Hq). }
    apply (Hstep (up_seq u) e); [done|by right].
Qed.

Lemma uncovered_to_none s t q : uncovered_to s t q = [] → q ∈ lr_seq <$> tenant_rows s t → covered_seq s t q.
Proof.
  intros E Hq. destruct (existsb (in_batch t q) (st_anchors s)) eqn:Eb.
  - apply existsb_exists in Eb as (a & Ha & Hb). exists a. by rewrite list_elem_of_In.
  - assert (q ∈ uncovered_to s t q) as Hin.
    { apply list_elem_of_filter. split; [lia|]. by apply list_elem_of_filter. }
    rewrite E in Hin. by apply not_elem_of_nil in Hin.
Qed.

(** C40. The sweep catches up, under any age limit (24 hours in production).  On a
    reachable store whose batches are all non-empty, with a signing key: take a row of a
    tenant that, with every row below it, has reached the limit at the time of each of a
    series of passes.  If there are at least as many passes whose insert of the batch's
    record the database executes as there are uncovered rows up to that one, the row ends
    up in a batch, whether or not the transparency log answers and whatever the other
    statements and the other passes come to. *)
Theorem sweeps_cover_everything s states t age kp global runs q :
  reachable s → length t = 16%nat → batches_nonempty s → signs kp global →
  q ∈ lr_seq <$> tenant_rows s t →
  (∀ r, r ∈ tenant_rows s t → (lr_seq r ≤ q)%Z → Forall (λ run, aged age run.1.1 (stamp r)) runs) →
  (length (uncovered_to s t q) ≤ length (filter (λ run, insert_ok run.2 = true) runs))%nat →
  covered_seq (sweeps s states t age kp global runs) t q.
Proof.
  intros Hok%reachable_ok Ht Hne Hs Hq Haged.
  assert (∀ st, st ∈ stamp <$> tenant_rows s t → (st.1 ≤ q)%Z → Forall (λ run, aged age run.1.1 st) runs) as Haged'.
  { intros st (r & -> & Hr)%list_elem_of_fmap. by apply Haged. }
  clear Haged. revert s states Hok Hne Hq Haged'.
  induction runs as [|[[now anchored] db] runs IH]; intros s states Hok Hne Hq Haged Hlen.
  { cbn [sweeps]. apply uncovered_to_none; [|done]. apply nil_length_inv. simpl in Hlen. lia. }
  cbn [sweeps]. destruct (sweep_tenant db s states t now age anchored kp global) as [[s' states'] okb] eqn:E.
  assert (∀ st, st ∈ stamp <$> tenant_rows s t → (st.1 ≤ q)%Z → aged age now st ∧ Forall (λ run, aged age run.1.1 st) runs) as Hnow.
  { intros st Hst Hle. specialize (Haged st Hst Hle). by apply Forall_cons in Haged. }
  destruct (sweep_tenant_to db s states t now age anchored kp global q s' states' okb Hok Ht Hne Hs) as (Hok' & Hne' & Est & Hle); [|done|].
  { intros st Hst Hstq. by apply Hnow. }
  assert (q ∈ lr_seq <$> tenant_rows s' t) as Hq' by (by rewrite (stamps_seqs s s' t Est)).
  apply (IH s' states' Hok' Hne' Hq').
  - intros st. rewrite Est. intros Hst Hstq. by apply Hnow.
  - rewrite filter_cons in Hlen. cbn [snd] in Hlen. destruct (insert_ok db); [rewrite decide_True in Hlen by done|rewrite decide_False in Hlen by done];
      simpl in Hlen; lia.
Qed.

Lemma insert_anchor_conflict s a x :
  x ∈ st_anchors s → ar_tenant_id x = ar_tenant_id a → ar_batch_start_seq x = ar_batch_start_seq a →
  insert_anchor_record s a = s.
Proof.
  intros Hx Et Eb. unfold insert_anchor_record.
  assert (existsb (λ x, bool_decide (ar_tenant_id x = ar_tenant_id a) &&
    (ar_batch_start_seq x =? ar_batch_start_seq a)%Z) (st_anchors s) = true) as ->; [|by repeat case_match].
  apply existsb_exists. exists x. rewrite <- list_elem_of_In, Et, Eb, bool_decide_true, Z.eqb_refl by done. done.
Qed.

Lemma insert_anchor_present s t root b e o now :
  length t = 16%nat → (b ≤ i64_max)%Z → (e ≤ i64_max)%Z →
  let a := build_anchor_record t root b e o now in
  ∃ x, x ∈ st_anchors (insert_anchor_record s a) ∧ ar_tenant_id x = ar_tenant_id a ∧
    ar_batch_start_seq x = ar_batch_start_seq a.
Proof.
  intros Ht Hb He a. unfold a. rewrite insert_anchor_bound by done. fold a. destruct (existsb _ _) eqn:E.
  - apply existsb_exists in E as (x & Hx & Hb'). breflect. exists x. by rewrite list_elem_of_In.
  - exists a. cbn [st_anchors with_anchors]. split; [apply elem_of_app; right; by left|done].
Qed.

(** An age sweep that runs between the commit of row [q], a threshold row,
    and the threshold trigger leaves the watermark at [q]; the trigger then starts
    the batch [q+1 .. q], the completeness check [end - start + 1] wraps to 0 and
    accepts it with no leaves, and its record is stored.  From then on a batch
    that starts at [q+1] is dropped by [ON CONFLICT DO NOTHING]: every sweep that
    picks it leaves the anchor records as they are. *)
Theorem empty_batch_blocks_anchor s states t n q anchored kp global now :
  length t = 16%nat → (0 < n)%Z → ((q + 1) mod n = 0)%Z → (0 ≤ q < i64_max)%Z →
  last_anchored_end states t = Some q → signs kp global →
  (threshold_anchors states t n [q]).2 = [((q + 1)%Z, q)] ∧
  anchor_batch_from_store s t (q + 1) q = Some [] ∧
  ∀ db s2 states2 now2 age2 anchored2 e,
    st_anchors (anchor_task all_ok s t [] (q + 1) q anchored kp global now) ⊆ st_anchors s2 →
    sweep_batch s2 t now2 age2 = Some ((q + 1)%Z, e) →
    st_anchors (sweep_tenant db s2 states2 t now2 age2 anchored2 kp global).1.1 = st_anchors s2.
Proof.
  intros Ht Hn Hmod Hq Hw Hs. split; [|split].
  - cbn [threshold_anchors]. rewrite Hmod, Z.eqb_refl, Hw. cbn [negb snd].
    unfold anchor_batch_start, sat_sub. do 2 f_equal. lia.
  - unfold anchor_batch_from_store, read_row_hashes, seq_i64.
    rewrite (proj2 (Z.leb_le (q + 1) i64_max)), (proj2 (Z.leb_le q i64_max)) by lia. cbn [mbind option_bind].
    destruct (filter _ (st_rows s)) as [|r l] eqn:Ef.
    2: { assert (r ∈ r :: l) as Hr by left. rewrite <- Ef in Hr. apply list_elem_of_filter in Hr as [[_ ?] _]. lia. }
    unfold expected_leaves. by replace (q - (q + 1) + 1)%Z with 0%Z by lia.
  - intros db s2 states2 now2 age2 anchored2 e Hsub Eb. unfold sweep_tenant. rewrite Eb.
    destruct (anchor_batch_from_store s2 t (q + 1) e) as [hashes|]; [|done].
    cbn [fst]. rewrite anchor_task_anchors by done. rewrite anchor_task_anchors in Hsub by done.
    cbn [insert_ok all_ok] in Hsub. destruct (insert_ok db); [|done].
    match type of Hsub with st_anchors (insert_anchor_record s (build_anchor_record _ ?root _ _ ?o _)) ⊆ _ =>
      destruct (insert_anchor_present s t root (q + 1) q o now) as (x & Hx & Et & Ex); [done|lia|lia|] end.
    by rewrite (insert_anchor_conflict _ _ x) by auto.
Qed.

End progress.
End sweep.
