(* ===== verification/LedgerInstances.v ===== *)
(** * Concrete ledgers

    The parameters of the producer instantiated: hyphenated uuids, standard
    base64, FIPS SHA-256.  A small ledger is produced by the appends themselves;
    the theorems about the producer are evaluated on it. *)

From Stdlib Require Import ZArith Lia.
From stdpp Require Import base list option gmap strings sorting.
From S2P Require Import Prelude BTree Encoding Hash Merkle Json AuditFormat AuditVerifier.
From S2P Require Import Instances ChainProofs Ledger LedgerProofs AnchorBatches SweepProofs.

(** ** Uuids and base64 *)

Lemma hex_digit_not_dash (z : Z) : (0 ≤ z < 16)%Z → hex_digit z ≠ dash.
Proof. intros Hz E. apply hex_nibble_digit in Hz. by rewrite E in Hz. Qed.

Lemma hex_encode_no_dash (u : bytes) : Forall (λ c, c ≠ dash) (hex_encode u).
Proof.
  induction u as [|b u IH]; [constructor|]. pose proof (byteZ_bounds b).
  repeat (apply Forall_cons; split); [apply hex_digit_not_dash; dlia..|exact IH].
Qed.

(** 8-4-4-4-12. *)
Definition hyphenate (h : bytes) : bytes :=
  take 8 h ++ dash :: take 4 (drop 8 h) ++ dash :: take 4 (drop 12 h) ++
  dash :: take 4 (drop 16 h) ++ dash :: drop 20 h.

Lemma filter_hyphenate (h : bytes) :
  Forall (λ c, c ≠ dash) h → filter (λ c, c ≠ dash) (hyphenate h) = h.
Proof.
  intros Hh. unfold hyphenate.
  assert (∀ l, Forall (λ c, c ≠ dash) l → filter (λ c, c ≠ dash) l = l) as Hid.
  { clear. induction 1 as [|c l Hc _ IH]; [done|]. rewrite filter_cons, decide_True by done. by rewrite IH. }
  repeat (rewrite filter_app || (rewrite filter_cons, (decide_False (P := dash ≠ dash)) by auto)).
  rewrite !Hid by (repeat (apply Forall_take || apply Forall_drop); done).
  pose proof (take_drop 4 (drop 16 h)) as E16. pose proof (take_drop 4 (drop 12 h)) as E12.
  pose proof (take_drop 4 (drop 8 h)) as E8. rewrite drop_drop in E16, E12, E8. simpl in E16, E12, E8.
  by rewrite E16, E12, E8, take_drop.
Qed.

Definition hyphenated_uuid : Uuid.
Proof.
  refine {| uuid_to_string u := hyphenate (hex_encode u); uuid_parse_str s := ok (uuid_str_to_bytes s) |}.
  - intros u _. apply filter_hyphenate, hex_encode_no_dash.
  - intros u Hu. rewrite (uuid_str_to_bytes_of_hex _ u); [done|done|].
    apply filter_hyphenate, hex_encode_no_dash.
Defined.

Definition standard_base64 : Base64 := {| B64 := b64_encode; B64_decode := base64_decode_encode |}.

#[local] Existing Instances fips_sha256 hyphenated_uuid standard_base64.

(** ** A ledger of three rows *)

Definition demo_tenant : bytes := replicate 15 x00 ++ [x09].

Definition demo_items : list PendingLedgerRow := [
  {| pl_event_type := lit "request"; pl_actor := lit "user1"; pl_payload_json := lit "{}" |};
  {| pl_event_type := lit "response"; pl_actor := lit "system"; pl_payload_json := lit "[1]" |};
  {| pl_event_type := lit "request"; pl_actor := lit "user2"; pl_payload_json := lit "{}" |}].

Definition demo_ids : list bytes := [lit "a"; lit "b"; lit "c"].

Definition demo_append : result PgAppend AppendError :=
  append_pg_batch empty_store ∅ 2 demo_tenant demo_items (Some demo_ids) 1000000.

Definition demo_ledger : Store :=
  match demo_append with Ok r => pa_store r | Err _ => empty_store end.

Example demo_ledger_rows :
  lr_seq <$> st_rows demo_ledger = [0; 1; 2]%Z ∧
  (pa_batches <$> ok demo_append) = Some [(0, 1)%Z] ∧
  sweep_batch demo_ledger demo_tenant 2000000 0 = Some (0, 2)%Z.
Proof. vm_compute. auto. Qed.

Definition is_ok {A E} (r : result A E) : bool := match r with Ok _ => true | Err _ => false end.

Lemma is_ok_Ok {A E} (r : result A E) : is_ok r = true → ∃ a, r = Ok a.
Proof. destruct r; [eauto|done]. Qed.

Lemma demo_append_is_ok : is_ok demo_append = true.
Proof. vm_compute. reflexivity. Qed.

Lemma demo_append_ok :
  ∃ res, append_pg_batch empty_store ∅ 2 demo_tenant demo_items (Some demo_ids) 1000000 = Ok res ∧
    demo_ledger = pa_store res.
Proof.
  destruct (is_ok_Ok demo_append demo_append_is_ok) as [res E]. exists res. split; [exact E|].
  unfold demo_ledger. by rewrite E.
Qed.

Lemma demo_ledger_reachable : reachable demo_ledger.
Proof.
  destruct demo_append_ok as (res & E & ->).
  exact (reach_append _ _ _ demo_tenant _ _ _ _ reach_empty eq_refl E).
Qed.

(** ** Witnesses *)

Definition demo_signer : Signer := {| sign := demo_sign ws_key; public_key := ws_key |}.

Lemma demo_signs : signs (Some demo_signer) None.
Proof.
  intros m E. cbn [sign demo_signer] in E. unfold demo_sign in E. apply (f_equal length) in E.
  rewrite length_app in E. pose proof (@sha256_length fips_sha256 (ws_key ++ m)) as El.
  cbn [sha256 fips_sha256] in El. rewrite El in E. discriminate.
Qed.

Lemma exported_ledger_verifies_witness :
  let report := empty_labeled [] in
  hash_chain_valid report = true ∧ trust_established report = true ∧
  let report' := @verify_chain fips_sha256 text_number (table_serde []) report
    (export_row (λ _, []) <$> st_rows demo_ledger) demo_options [] in
  hash_chain_valid report' = true ∧ trust_established report' = true.
Proof.
  split; [reflexivity|]. split; [reflexivity|].
  exact (exported_ledger_verifies (H0 := hyphenated_uuid) (λ _, []) demo_ledger demo_options []
    (empty_labeled []) demo_ledger_reachable eq_refl eq_refl).
Defined.

(** ** An adoption that comes apart *)

Definition one_item (actor : string) : list PendingLedgerRow :=
  [{| pl_event_type := lit "request"; pl_actor := lit actor; pl_payload_json := lit "{}" |}].

Definition append_one (actor : string) (s : Store) : Store :=
  match append_pg_batch s ∅ 0 demo_tenant (one_item actor) None 3000000 with Ok r => pa_store r | Err _ => s end.

Definition db_fine : ReconcileDb :=
  {| rd_reads := true; rd_fill := Committed; rd_tenant_exists := Some true; rd_read_ahead := true; rd_adopt := Committed;
     rd_upsert := Committed |}.
Definition db_no_upsert : ReconcileDb :=
  {| rd_reads := true; rd_fill := Committed; rd_tenant_exists := Some true; rd_read_ahead := true; rd_adopt := Committed;
     rd_upsert := RolledBack |}.

(** A boot after which the copy had one row more than the canonical store, and two
    appends. *)
Definition boot_then_append (db : ReconcileDb) : Store :=
  append_one "later" (append_one "next"
    (warm_from_postgres (λ _, (db, st_rows (append_one "copied" demo_ledger))) (map_to_list (st_heads demo_ledger)) demo_ledger)).

Definition exports_valid (s : Store) : bool :=
  hash_chain_valid (@verify_chain fips_sha256 text_number (table_serde []) (empty_labeled [])
    (export_row (λ _, []) <$> st_rows s) demo_options []).

(** Where the head's upsert fails after the rows were adopted, the boot goes on; the next
    append claims the number of the adopted row, its own row is dropped by
    [ON CONFLICT DO NOTHING] and the head takes its hash: the row after that does not
    chain. *)
Example adopted_without_head_breaks_chain :
  exports_valid (boot_then_append db_fine) = true ∧ lr_seq <$> st_rows (boot_then_append db_fine) = [0; 1; 2; 3; 4; 5]%Z ∧
  exports_valid (boot_then_append db_no_upsert) = false ∧ lr_seq <$> st_rows (boot_then_append db_no_upsert) = [0; 1; 2; 3; 4]%Z ∧
  lr_actor <$> st_rows (boot_then_append db_no_upsert) = [lit "user1"; lit "system"; lit "user2"; lit "copied"; lit "later"].
Proof. vm_compute. auto. Qed.

(** A second delivery: an event already there, a new one, and the new one again. *)
Lemma append_commits_witness :
  let ids := [lit "b"; lit "d"; lit "d"] in
  new_events demo_ledger (Some ids) demo_items = [1%nat] ∧
  ∃ res, append_pg_batch demo_ledger ∅ 2 demo_tenant demo_items (Some ids) 2000000 = Ok res ∧
    Forall2 (λ i r, demo_items !! i = Some (event_of r)) [1%nat] (pa_copied res).
Proof.
  assert (new_events demo_ledger (Some [lit "b"; lit "d"; lit "d"]) demo_items = [1%nat]) as En
    by (vm_compute; reflexivity).
  assert (next_seq demo_ledger demo_tenant = 3%Z) as Es by (vm_compute; reflexivity).
  split; [exact En|].
  destruct (append_commits demo_ledger ∅ 2 demo_tenant demo_items (Some [lit "b"; lit "d"; lit "d"]) 2000000
    demo_ledger_reachable eq_refl eq_refl) as (res & E & _ & Hf).
  - rewrite En, Es. unfold lenZ, i64_max. simpl. lia.
  - exists res. split; [exact E|]. rewrite En in Hf. exact Hf.
Defined.

Lemma redelivery_appends_nothing_witness :
  ∃ res, demo_items ≠ [] ∧ demo_append = Ok res ∧
    append_pg_batch (pa_store res) ∅ 2 demo_tenant (rev demo_items) (Some demo_ids) 2000000 =
    Ok {| pa_store := pa_store res; pa_states := ∅; pa_copied := []; pa_batches := [] |}.
Proof.
  destruct demo_append_ok as (res & E & _). exists res. split; [done|]. split; [exact E|].
  assert (demo_items ≠ []) as Hne by done.
  exact (proj2 (redelivery_appends_nothing _ _ _ _ _ _ _ _ Hne E) ∅ 2%Z demo_tenant (rev demo_items) 2000000%Z eq_refl).
Defined.

Lemma threshold_batches_disjoint_witness :
  ∃ res, demo_append = Ok res ∧ batches_after 2 None (pa_batches res).
Proof.
  destruct demo_append_ok as (res & E & _). exists res. split; [exact E|].
  refine (proj1 (threshold_batches_disjoint _ _ 2 demo_tenant _ _ _ _ E _ _)); [lia|].
  intros p Hp. discriminate.
Defined.

Lemma sweep_batch_exact_witness :
  sweep_batch demo_ledger demo_tenant 2000000 0 = Some (0, 2)%Z ∧ sweep_range demo_ledger demo_tenant 0 2.
Proof.
  assert (sweep_batch demo_ledger demo_tenant 2000000 0 = Some (0, 2)%Z) as E by (vm_compute; reflexivity).
  split; [exact E|].
  exact (proj1 (proj1 (sweep_batch_exact demo_ledger demo_tenant 2000000 0 demo_ledger_reachable eq_refl) _ _ E)).
Defined.

(** Four passes a day after the rows were written, under the limit of 24 hours; the
    database refuses the second one's record. *)
Definition day : Z := 24 * 60 * 60.
Definition demo_runs : list (Z * option (RekorV2Receipt * bytes) * StatementOutcomes) :=
  [(1000000 + day * 1000000, None, all_ok);
   (2000000 + day * 1000000, None, {| insert_ok := false; signature_ok := true; entry_id_ok := true |});
   (3000000 + day * 1000000, None, all_ok); (4000000 + day * 1000000, None, all_ok)]%Z.

Lemma demo_ledger_stamps : stamp <$> tenant_rows demo_ledger demo_tenant = [(0, 1000000); (1, 1000000); (2, 1000000)]%Z.
Proof. vm_compute. reflexivity. Qed.

Lemma sweeps_cover_everything_witness :
  covered_seq (sweeps demo_ledger ∅ demo_tenant day (Some demo_signer) None demo_runs) demo_tenant 2.
Proof.
  apply (sweeps_cover_everything demo_ledger ∅ demo_tenant day (Some demo_signer) None
    demo_runs 2 demo_ledger_reachable eq_refl).
  - assert (st_anchors demo_ledger = []) as E by (vm_compute; reflexivity).
    unfold batches_nonempty. rewrite E. constructor.
  - exact demo_signs.
  - pose proof (f_equal (fmap fst) demo_ledger_stamps) as E. rewrite <- list_fmap_compose in E.
    change (fst ∘ stamp) with lr_seq in E. rewrite E. do 2 apply list_elem_of_further. apply list_elem_of_here.
  - intros r Hr _. apply (list_elem_of_fmap_2 stamp) in Hr. rewrite demo_ledger_stamps in Hr.
    repeat (apply elem_of_cons in Hr as [Hr|Hr]; [rewrite Hr; repeat constructor; vm_compute; discriminate|]).
    by apply not_elem_of_nil in Hr.
  - assert (length (uncovered_to demo_ledger demo_tenant 2) = 3%nat) as -> by (vm_compute; reflexivity).
    simpl. lia.
Defined.

(** Row 1 closes a batch of two, and the sweep has just anchored it. *)
Lemma empty_batch_blocks_anchor_witness :
  let states := set_last_anchored_end ∅ demo_tenant 1 in
  (threshold_anchors states demo_tenant 2 [1%Z]).2 = [(2, 1)%Z] ∧
  anchor_batch_from_store demo_ledger demo_tenant 2 1 = Some [].
Proof.
  assert (last_anchored_end (set_last_anchored_end ∅ demo_tenant 1) demo_tenant = Some 1%Z) as Hw
    by (vm_compute; reflexivity).
  destruct (empty_batch_blocks_anchor demo_ledger (set_last_anchored_end ∅ demo_tenant 1) demo_tenant 2 1
    None (Some demo_signer) None 0) as (E1 & E2 & _); [reflexivity|lia|reflexivity|unfold i64_max; lia|exact Hw|exact demo_signs|].
  split; [exact E1|exact E2].
Defined.

(** The consequence, end to end: after the empty batch no pass covers row 2. *)
Example empty_batch_buries_row :
  let s := anchor_task all_ok demo_ledger demo_tenant [] 2 1 None (Some demo_signer) None 0 in
  let s := anchor_task all_ok s demo_tenant (default [] (anchor_batch_from_store s demo_tenant 0 1)) 0 1 None (Some demo_signer) None 0 in
  let s' := (sweep_tenant all_ok s ∅ demo_tenant 5000000 0 None (Some demo_signer) None).1.1 in
  sweep_batch s demo_tenant 5000000 0 = Some (2, 2)%Z ∧ sweep_batch s' demo_tenant 6000000 0 = Some (2, 2)%Z.
Proof. vm_compute. auto. Qed.
