(* ===== verification/SignedProofs.v ===== *)
(** * A batch the gateway signs is a batch the verifier accepts

    The producer reads a batch's leaves from the canonical store by a query, the
    verifier collects them from the exported rows by key: on a reachable store the
    two agree, so a signed batch that never reached the transparency log verifies
    under the workspace key. *)

From Stdlib Require Import ZArith Lia.
From stdpp Require Import base list option gmap strings sorting.
From S2P Require Import Prelude BTree Encoding Hash Merkle Json AuditFormat AuditVerifier.
From S2P Require Import Instances ChainProofs AnchorProofs Ledger LedgerProofs AnchorBatches SweepProofs.
From S2P Require Import LedgerInstances.

Section signed.
Context `{Sha256Fn} `{!Uuid}.
Implicit Types (s : Store) (t : bytes) (rows : list AuditLogRow).

(** ** The query's leaves *)

Lemma log_chained_seqs t seq prev rows seq' tip :
  log_chained t seq prev rows seq' tip → lr_seq <$> rows = seqZ seq (seq' - seq).
Proof.
  induction 1 as [seq prev|seq prev r h rows seq' tip (_ & Es & _) _ Hc IH]; [by rewrite Z.sub_diag|].
  pose proof (log_chained_seq _ _ _ _ _ _ Hc). pose proof (lenZ_nonneg rows).
  rewrite fmap_cons, seqZ_cons by lia. f_equal; [done|]. rewrite IH. f_equal; lia.
Qed.

Lemma log_chained_unique t seq prev rows seq' tip r1 r2 :
  log_chained t seq prev rows seq' tip → r1 ∈ rows → r2 ∈ rows → lr_seq r1 = lr_seq r2 → r1 = r2.
Proof.
  intros Hc. induction Hc as [|seq prev r h rows seq' tip (_ & Es & _) _ Hc IH]; [by intros ?%not_elem_of_nil|].
  pose proof (log_chained_rows _ _ _ _ _ _ Hc) as Hall. rewrite Forall_forall in Hall.
  intros [->|H1]%elem_of_cons [->|H2]%elem_of_cons E; try done; [| |auto].
  - destruct (Hall _ H2) as (_ & ? & _). lia.
  - destruct (Hall _ H1) as (_ & ? & _). lia.
Qed.

Lemma log_chained_decodes t seq prev rows seq' tip :
  log_chained t seq prev rows seq' tip → Forall (λ r, ∃ h, hex_decode_32 (lr_row_hash r) = Ok h) rows.
Proof. induction 1 as [|? ? r h rows seq' tip (_ & _ & _ & Eh & _) _ _ IH]; constructor; eauto. Qed.

Lemma seqZ_filter_range a n b e :
  (a ≤ b)%Z → (e < a + n)%Z → (b ≤ e)%Z → filter (λ q, (b ≤ q ≤ e)%Z) (seqZ a n) = seqZ b (e - b + 1).
Proof.
  intros Ha He Hbe.
  replace n with ((b - a) + ((e - b + 1) + (a + n - e - 1)))%Z by lia.
  rewrite (seqZ_app a (b - a)), (seqZ_app _ (e - b + 1) (a + n - e - 1)) by lia. rewrite !filter_app.
  assert (∀ m k, (∀ q, q ∈ seqZ m k → ¬ (b ≤ q ≤ e)%Z) → filter (λ q, (b ≤ q ≤ e)%Z) (seqZ m k) = []) as Hout.
  { intros m k Hq. destruct (filter _ _) as [|x l] eqn:Ef; [done|]. exfalso.
    assert (x ∈ x :: l) as Hx by left. rewrite <- Ef in Hx. apply list_elem_of_filter in Hx as [? ?]. by apply (Hq x). }
  rewrite (Hout a), (Hout (a + (b - a) + (e - b + 1))%Z); [|intros q Hq%elem_of_seqZ; lia..].
  rewrite (right_id_L [] (++)). cbn [app]. replace (a + (b - a))%Z with b by lia.
  assert (∀ l : list Z, Forall (λ q, (b ≤ q ≤ e)%Z) l → filter (λ q, (b ≤ q ≤ e)%Z) l = l) as Hid.
  { induction 1 as [|x l Hx _ IH]; [done|]. rewrite filter_cons, decide_True by done. by rewrite IH. }
  apply Hid, Forall_forall. intros q Hq%elem_of_seqZ. lia.
Qed.

Lemma list_filter_fmap_seq (b e : Z) rows :
  lr_seq <$> filter (λ r, (b ≤ lr_seq r ≤ e)%Z) rows = filter (λ q, (b ≤ q ≤ e)%Z) (lr_seq <$> rows).
Proof. induction rows as [|r rows IH]; [done|]. rewrite fmap_cons, !filter_cons. case_decide; rewrite ?fmap_cons; by rewrite IH. Qed.

(** The rows the query selects, in the order it returns them. *)
Definition selected s t (b e : Z) : list AuditLogRow :=
  merge_sort row_seq_le
    (filter (λ r, lr_tenant_id r = uuid_to_string t ∧ (b ≤ lr_seq r ≤ e)%Z) (st_rows s)).

Lemma selected_perm s t b e : selected s t b e ≡ₚ filter (λ r, (b ≤ lr_seq r ≤ e)%Z) (tenant_rows s t).
Proof.
  unfold selected. rewrite merge_sort_Permutation. unfold tenant_rows. rewrite list_filter_filter.
  apply reflexive_eq, list_filter_iff. intros r. tauto.
Qed.

Lemma selected_seqs s t last hash b e :
  log_chained t 0 (genesis_v2 t) (tenant_rows s t) (last + 1) hash → (0 ≤ b ≤ e)%Z → (e ≤ last)%Z →
  lr_seq <$> selected s t b e = seqZ b (e - b + 1).
Proof.
  intros Hc Hbe He.
  assert (lr_seq <$> selected s t b e ≡ₚ seqZ b (e - b + 1)) as Hp.
  { rewrite selected_perm, list_filter_fmap_seq, (log_chained_seqs _ _ _ _ _ _ Hc).
    rewrite seqZ_filter_range by lia. done. }
  apply (StronglySorted_unique Z.le); [| |done].
  - assert (Sorted row_seq_le (selected s t b e)) as Hs.
    { apply Sorted_merge_sort. intros x y. unfold row_seq_le. lia. }
    apply Sorted_StronglySorted in Hs; [|intros x y z; unfold row_seq_le; lia].
    clear Hp. induction Hs as [|x l Hs IH Hall]; constructor; [done|]. by apply Forall_fmap.
  - pose proof (seqZ_sorted b (e - b + 1)) as Hs. clear Hp.
    induction Hs as [|x l Hs IH Hall]; constructor; [done|]. eapply Forall_impl; [exact Hall|]. simpl. lia.
Qed.

(** ** The verifier's leaves are the producer's *)

Lemma from_store_range s t b e hashes :
  store_ok s → length t = 16%nat → (0 ≤ b ≤ e)%Z → anchor_batch_from_store s t b e = Some hashes →
  ∃ last hash, log_chained t 0 (genesis_v2 t) (tenant_rows s t) (last + 1) hash ∧ (e ≤ last)%Z ∧
    (e ≤ i64_max)%Z ∧ mapM (λ r, decode_hash_hex (lr_row_hash r)) (selected s t b e) = Some hashes.
Proof.
  intros [Hh _] Ht Hbe E. unfold anchor_batch_from_store, read_row_hashes, seq_i64 in E.
  destruct (Z.leb_spec b i64_max); [|done]. destruct (Z.leb_spec e i64_max); [|done].
  cbn [mbind option_bind] in E. fold (selected s t b e) in E.
  destruct (mapM _ (selected s t b e)) as [hs|] eqn:Em; [|done]. cbn [mbind option_bind] in E.
  destruct (Z.eqb_spec (lenZ hs) (expected_leaves b e)) as [El|]; [|done]. injection E as ->.
  unfold expected_leaves in El. rewrite Z.mod_small in El by (unfold i64_max in *; lia).
  apply length_mapM in Em as Elen. pose proof (Permutation_length (selected_perm s t b e)) as Ep.
  specialize (Hh t Ht). unfold head_ok in Hh. destruct (st_heads s !! t) as [[last hash]|].
  - exists last, hash. pose proof (log_chained_count _ _ _ _ _ _ b e Hh) as Ecount. unfold lenZ in El.
    split_and!; [done| |done|done]. lia.
  - rewrite Hh in Ep. unfold lenZ in El. simpl in Ep. lia.
Qed.

Context `{JsonNumber} `{!SerdeJson} `{!Base64} `{!Crypto}.
Variable iso : Z → bytes.

Lemma leaves_agree s t b e hashes a :
  store_ok s → length t = 16%nat → (0 ≤ b ≤ e)%Z → anchor_batch_from_store s t b e = Some hashes →
  an_tenant_id a = uuid_to_string t → an_batch_start_seq a = b → an_batch_end_seq a = e →
  batch_leaves (row_hash_by_key (export_row iso <$> st_rows s)) a = Some hashes.
Proof.
  intros Hok Ht Hbe E Et Eb Ee.
  destruct (from_store_range s t b e hashes Hok Ht Hbe E) as (last & hash & Hc & Hlast & Hmax & Em).
  pose proof (selected_seqs s t last hash b e Hc Hbe Hlast) as Eseqs.
  assert (anchor_u64 a) as Hu by (unfold anchor_u64, is_u64, u64_max, i64_max in *; lia).
  assert (∀ r, r ∈ tenant_rows s t ↔ lr_tenant_id r = uuid_to_string t ∧ r ∈ st_rows s) as Hmem
    by (intros r; unfold tenant_rows; rewrite list_elem_of_filter; done).
  assert (∀ i r, selected s t b e !! i = Some r → lr_seq r = (b + Z.of_nat i)%Z ∧ r ∈ tenant_rows s t) as Hsel.
  { intros i r Hi. split.
    - assert ((lr_seq <$> selected s t b e) !! i = Some (lr_seq r)) as Hl by (by rewrite list_lookup_fmap, Hi).
      rewrite Eseqs in Hl. apply lookup_seqZ in Hl as [-> _]. done.
    - apply list_elem_of_lookup_2 in Hi. rewrite selected_perm in Hi. by apply list_elem_of_filter in Hi as [_ ?]. }
  destruct (batch_leaves_complete (export_row iso <$> st_rows s) a Hu) as [leaves El].
  { rewrite Eb, Ee, Et. intros q Hq.
    assert (q ∈ lr_seq <$> tenant_rows s t) as Hin.
    { rewrite (log_chained_seqs _ _ _ _ _ _ Hc). apply elem_of_seqZ. lia. }
    apply list_elem_of_fmap in Hin as (r & -> & Hr). exists (export_row iso r).
    apply log_chained_decodes in Hc as Hd. rewrite Forall_forall in Hd. destruct (Hd r Hr) as [h Eh].
    exists h. apply Hmem in Hr as [? ?]. split_and!; [by apply list_elem_of_fmap_2|done..]. }
  rewrite El. f_equal. apply batch_leaves_sound in El as [Elen Hrow]; [|by apply export_rows_u64|done].
  pose proof (length_mapM _ _ _ Em) as Emlen.
  assert (length (selected s t b e) = Z.to_nat (e - b + 1)) as Esel.
  { rewrite <- (length_fmap lr_seq), Eseqs, length_seqZ. done. }
  apply list_eq_same_length with (n := length hashes); [done|rewrite Eb, Ee in Elen; unfold lenZ in Elen; lia|].
  intros i h1 h2 Hi Hh1 Hh2. destruct (Hrow i h1 Hh1) as (row & Hin & Etr & Esr & Ehr).
  apply list_elem_of_fmap in Hin as (r1 & -> & Hin). cbn [export_row row_tenant_id row_seq row_row_hash] in *.
  apply mapM_Some in Em. destruct (Forall2_lookup_r _ _ _ _ _ Em Hh2) as (r2 & Hr2 & Ed2).
  destruct (Hsel i r2 Hr2) as [Es2 Hin2].
  assert (r1 = r2) as ->.
  { eapply (log_chained_unique t); [exact Hc|apply Hmem; split; [by rewrite Etr|done]|done|]. rewrite Esr, Es2. lia. }
  unfold decode_hash_hex in Ed2. rewrite Ehr in Ed2. by injection Ed2 as <-.
Qed.

(** A working Ed25519 key pair. *)
Definition valid_signer (k : Signer) : Prop :=
  length (public_key k) = 32%nat ∧
  ∀ m, length (sign k m) = 64%nat ∧ verify_ed25519_raw (public_key k) m (sign k m) = Ok ().

(** C36. Producer and verifier agree on signed batches: on a reachable store, any
    batch the completeness check lets through, signed by the workspace's key while
    the transparency log did not answer, is accepted by the verifier that is given
    that key: it counts as signed by the workspace and adds no error, whatever the
    state of the pass. *)
Theorem signed_batch_verifies s t b e hashes k now opts st parse_proof :
  reachable s → length t = 16%nat → (0 ≤ b ≤ e)%Z →
  anchor_batch_from_store s t b e = Some hashes → valid_signer k → tenant_pubkey opts = Some (public_key k) →
  let a := anchor_record parse_proof (build_anchor_record t (merkle_root_v2 hashes) b e
    (anchor_batch (merkle_root_v2 hashes) None (Some k) None) now) in
  verify_anchor opts (row_hash_by_key (export_row iso <$> st_rows s)) st a = record_signer a false st.
Proof.
  intros Hok%reachable_ok Ht Hbe E (Hpk & Hk) Hkey a. unfold verify_anchor.
  assert (an_anchor_state a = lit "unanchored") as -> by done. assert (an_rekor a = None) as -> by done.
  rewrite bool_decide_false by (intros E'; vm_compute in E'; discriminate). cbn [andb].
  rewrite (leaves_agree s t b e hashes a Hok Ht Hbe E) by done.
  assert (an_merkle_root a = hex_encode (merkle_root_v2 hashes)) as -> by done.
  rewrite hex_decode_encode by (rewrite merkle_root_v2_mth; apply mth_length). rewrite bool_decide_true by done. cbn [negb].
  rewrite Hkey. assert (ed_pubkey (an_ed25519 a) = B64 (public_key k)) as -> by done.
  rewrite B64_decode, Hpk. cbn [Nat.eqb negb]. unfold select_key. rewrite bool_decide_true by done.
  set (m := local_attest_msg (merkle_root_v2 hashes) (anchor_commitment None)).
  assert (ed_signature (an_ed25519 a) = B64 (sign k m)) as -> by done. rewrite B64_decode.
  destruct (Hk m) as [-> Hv]. cbn [Nat.eqb negb]. unfold attestation. fold m. rewrite Hv. done.
Qed.

End signed.

(** The three rows of [demo_ledger], signed by the workspace key. *)
Lemma demo_signer_valid : @valid_signer demo_crypto demo_signer.
Proof.
  split; [reflexivity|]. intros m. split.
  - cbn [sign demo_signer]. unfold demo_sign. rewrite length_app.
    pose proof (@sha256_length fips_sha256) as Hl. cbn [sha256 fips_sha256] in Hl. by rewrite !Hl.
  - unfold verify_ed25519_raw. cbn [ed25519_from_bytes demo_crypto public_key demo_signer ok_or].
    change (length ws_key =? 32)%nat with true. cbn [rbind ok_or ed25519_verify demo_crypto sign].
    by rewrite bool_decide_true.
Qed.

Definition demo_leaves : list bytes :=
  default [] (@anchor_batch_from_store hyphenated_uuid demo_ledger demo_tenant 0 2).

Lemma demo_leaves_eq : @anchor_batch_from_store hyphenated_uuid demo_ledger demo_tenant 0 2 = Some demo_leaves.
Proof. vm_compute. reflexivity. Qed.

Definition demo_proof (b : bytes) : InclusionProof := {| ip_log_index := []; ip_tree_size := []; ip_hashes := [] |}.

Definition demo_signed_record : AnchorRecord :=
  anchor_record demo_proof
    (@build_anchor_record hyphenated_uuid demo_tenant (@merkle_root_v2 fips_sha256 demo_leaves) 0 2
      (@anchor_batch fips_sha256 standard_base64 (@merkle_root_v2 fips_sha256 demo_leaves) None (Some demo_signer) None) 0).

Lemma signed_batch_verifies_witness :
  let st := {| as_report := empty_labeled []; as_included := []; as_signers := [] |} in
  length demo_leaves = 3%nat ∧
  @verify_anchor fips_sha256 text_number (table_serde []) demo_crypto demo_options
    (@row_hash_by_key text_number (@export_row text_number (λ _, []) <$> st_rows demo_ledger)) st demo_signed_record =
  record_signer demo_signed_record false st.
Proof.
  split; [vm_compute; reflexivity|].
  assert (0 ≤ 0 ≤ 2)%Z as Hr by lia.
  exact (@signed_batch_verifies fips_sha256 hyphenated_uuid text_number (table_serde []) standard_base64 demo_crypto
    (λ _, []) demo_ledger demo_tenant 0 2 demo_leaves demo_signer 0 demo_options
    {| as_report := empty_labeled []; as_included := []; as_signers := [] |} demo_proof
    demo_ledger_reachable eq_refl Hr demo_leaves_eq demo_signer_valid eq_refl).
Defined.
