(* ===== verification/CircuitBreaker.v ===== *)
(** * The circuit breaker

    [crates/gateway/src/circuit_breaker.rs]: one breaker per (provider, region,
    credential), and a provider-wide tier derived from the credentials that are
    Open on evidence about the provider.

    Entries are shared ([Arc<Mutex<Entry>>] in the map, a weak reference in each
    credential handle), so they live in a store of their own ([heap]) and both the
    map and the handles' cells ([cells]) hold addresses.  An entry that leaves the
    map is marked retired and keeps its address: whether the allocation still
    exists when a handle looks is not observable, [record] does nothing either
    way.  Each operation runs under its entry's lock and is one step; the clock is
    an argument, read as often as the code reads it.  Times are nanoseconds. *)

From Stdlib Require Import ZArith Lia.
From stdpp Require Import base list option gmap sorting.
From S2P Require Import Prelude BTree Float64.

(** ** Configuration *)

Record BreakerConfig := {
  window_size : nat;
  failure_rate_threshold : f64;
  consecutive_failure_threshold : Z;
  cooldown_default : Z;
  half_open_max_probes : Z;
  provider_min_open_credentials : nat;
  max_entries : nat;
  idle_evict : Z;
  probe_lost : Z;
}.

Definition secs (n : Z) : Z := n * 1000000000.

(** The documented values. *)
Definition FALLBACK : BreakerConfig := {|
  window_size := 20;
  failure_rate_threshold := f64_div (f64_of 1) (f64_of 2);
  consecutive_failure_threshold := 5;
  cooldown_default := secs 10;
  half_open_max_probes := 3;
  provider_min_open_credentials := 3;
  max_entries := Z.to_nat 100000;
  idle_evict := secs 3600;
  probe_lost := secs 300;
|}.

(** [CircuitBreaker::new] keeps the configuration, with at least one owner. *)
Definition new_config (c : BreakerConfig) : BreakerConfig := {|
  window_size := window_size c;
  failure_rate_threshold := failure_rate_threshold c;
  consecutive_failure_threshold := consecutive_failure_threshold c;
  cooldown_default := cooldown_default c;
  half_open_max_probes := half_open_max_probes c;
  provider_min_open_credentials := Nat.max (provider_min_open_credentials c) 1;
  max_entries := max_entries c;
  idle_evict := idle_evict c;
  probe_lost := probe_lost c;
|}.

(** ** Credentials *)

Inductive Credential : Type :=
  | Env
  | Byok (fp : bytes).

#[global] Instance Credential_eq_dec : EqDecision Credential.
Proof. solve_decision. Defined.

#[global] Program Instance Credential_countable : Countable Credential :=
  inj_countable' (λ c, match c with Env => None | Byok fp => Some fp end)
                 (λ o, match o with None => Env | Some fp => Byok fp end) _.
Next Obligation. by intros []. Qed.

Definition OwnerTag : Type := bytes.

Record Tuning := {
  tu_consecutive_failure_threshold : Z;
  tu_cooldown : Z;
}.

Notation Key := (bytes * bytes * Credential)%type.

(** A handle: the credential, its owner and label, its override; [observed] is the
    address of the handle's cell, shared by its clones. *)
Record Cred := {
  cred_id : Credential;
  cred_owner : option (OwnerTag * bytes);
  cred_tuning : option Tuning;
  deadline_scoped : bool;
  observed : nat;
}.

Definition isolated (c : Cred) : bool := bool_decide (is_Some (cred_tuning c)) || deadline_scoped c.

Inductive Outcome : Type := Success | UpstreamFault | CredentialFault.

#[global] Instance Outcome_eq_dec : EqDecision Outcome.
Proof. solve_decision. Defined.

Inductive BState : Type := Closed | Open | HalfOpen.

#[global] Instance BState_eq_dec : EqDecision BState.
Proof. solve_decision. Defined.

Definition severity (s : BState) : Z :=
  match s with Closed => 0 | HalfOpen => 1 | Open => 2 end.

(** ** Entries *)

Record BreakerState := mkState {
  bs_state : BState;
  bs_window : list bool;
  bs_window_isolated : list bool;
  consecutive_failures : Z;
  streak_isolated : bool;
  open_shared : bool;
  opened_at : option Z;
  half_open_probes : Z;
  half_open_successes : Z;
  probe_granted_at : option Z;
}.

Definition new_state : BreakerState := mkState Closed [] [] 0 false false None 0 0 None.

Definition failure_rate (s : BreakerState) : f64 :=
  match bs_window s with
  | [] => f64_of 0
  | w => f64_div (f64_of (lenZ (filter (λ ok, ok = false) w))) (f64_of (lenZ w))
  end.

Record Entry := {
  retired : bool;
  en_st : BreakerState;
  en_owner : option (OwnerTag * bytes);
  en_tuning : option Tuning;
  last_used : Z;
}.

Notation OpenCredentials := (gmap Credential (option OwnerTag * Z)).

Record CircuitBreaker := {
  breakers : gmap Key nat;
  heap : gmap nat Entry;
  next_addr : nat;
  cells : gmap nat (Key * nat);
  open : gmap (bytes * bytes) OpenCredentials;
  trip_total : Z;
  reject_total : Z;
  capacity_admitted_total : Z;
}.

Definition new_breaker : CircuitBreaker :=
  {| breakers := ∅; heap := ∅; next_addr := 0; cells := ∅; open := ∅;
     trip_total := 0; reject_total := 0; capacity_admitted_total := 0 |}.

Definition set_open (o : gmap (bytes * bytes) OpenCredentials) (cb : CircuitBreaker) : CircuitBreaker :=
  {| breakers := breakers cb; heap := heap cb; next_addr := next_addr cb; cells := cells cb; open := o;
     trip_total := trip_total cb; reject_total := reject_total cb;
     capacity_admitted_total := capacity_admitted_total cb |}.
Definition set_maps (m : gmap Key nat) (h : gmap nat Entry) (cb : CircuitBreaker) : CircuitBreaker :=
  {| breakers := m; heap := h; next_addr := next_addr cb; cells := cells cb; open := open cb;
     trip_total := trip_total cb; reject_total := reject_total cb;
     capacity_admitted_total := capacity_admitted_total cb |}.
Definition set_cells (c : gmap nat (Key * nat)) (cb : CircuitBreaker) : CircuitBreaker :=
  {| breakers := breakers cb; heap := heap cb; next_addr := next_addr cb; cells := c; open := open cb;
     trip_total := trip_total cb; reject_total := reject_total cb;
     capacity_admitted_total := capacity_admitted_total cb |}.
Definition set_counters (t r c : Z) (cb : CircuitBreaker) : CircuitBreaker :=
  {| breakers := breakers cb; heap := heap cb; next_addr := next_addr cb; cells := cells cb; open := open cb;
     trip_total := t; reject_total := r; capacity_admitted_total := c |}.

Definition note_trip (cb : CircuitBreaker) : CircuitBreaker :=
  set_counters (trip_total cb + 1) (reject_total cb) (capacity_admitted_total cb) cb.
Definition note_reject (cb : CircuitBreaker) : CircuitBreaker :=
  set_counters (trip_total cb) (reject_total cb + 1) (capacity_admitted_total cb) cb.
Definition note_capacity (cb : CircuitBreaker) : CircuitBreaker :=
  set_counters (trip_total cb) (reject_total cb) (capacity_admitted_total cb + 1) cb.

(** [now.saturating_duration_since(t)]. *)
Definition since (now t : Z) : Z := Z.max 0 (now - t).

Section breaker.
Context (config : BreakerConfig).

Implicit Types (cb : CircuitBreaker) (cred : Cred) (now : Z).

Definition consecutive_threshold (tuning : option Tuning) : Z :=
  from_option tu_consecutive_failure_threshold (consecutive_failure_threshold config) tuning.

Definition cooldown (tuning : option Tuning) : Z := from_option tu_cooldown (cooldown_default config) tuning.

(** ** The provider-wide tier *)

(** [set.retain(|_, (_, until)| *until > now)]. *)
Definition unexpired now (set : OpenCredentials) : OpenCredentials :=
  filter (λ kv, (now < kv.2.2)%Z) set.

Definition distinct_owners (set : OpenCredentials) : gset (option OwnerTag) :=
  list_to_set ((λ kv, kv.2.1) <$> map_to_list set).

Definition provider_open_count (provider region : bytes) now cb : nat * CircuitBreaker :=
  match open cb !! (provider, region) with
  | None => (0%nat, cb)
  | Some set =>
      let set := unexpired now set in
      (size (distinct_owners set), set_open (<[(provider, region) := set]> (open cb)) cb)
  end.

Definition mark_open (provider region : bytes) cred (until : Z) cb : CircuitBreaker :=
  let set := default ∅ (open cb !! (provider, region)) in
  set_open (<[(provider, region) := <[cred_id cred := (fst <$> cred_owner cred, until)]> set]> (open cb)) cb.

Definition unmark_open (provider region : bytes) (c : Credential) cb : CircuitBreaker :=
  match open cb !! (provider, region) with
  | None => cb
  | Some set => set_open (<[(provider, region) := delete c set]> (open cb)) cb
  end.

(** ** Eviction *)

Definition evictable (e : Entry) now : bool :=
  let idle := (idle_evict config <=? since now (last_used e))%Z in
  match bs_state (en_st e) with
  | Closed => idle
  | Open =>
      idle && match opened_at (en_st e) with
              | None => true
              | Some t => (cooldown (en_tuning e) <=? since now t)%Z
              end
  | HalfOpen => idle
  end.

Definition retire (e : Entry) : Entry :=
  {| retired := true; en_st := en_st e; en_owner := en_owner e; en_tuning := en_tuning e;
     last_used := last_used e |}.

(** [breakers.retain(..)]: drop the entries [gone] selects, mark them retired and
    unmark them in the provider tier. *)
Definition retain_entries (gone : Key → Entry → bool) cb : CircuitBreaker :=
  let doomed := filter (λ kl, from_option (gone kl.1) false (heap cb !! kl.2) = true) (breakers cb) in
  let h := foldr (alter retire) (heap cb) (snd <$> map_to_list doomed) in
  foldr (λ k, unmark_open k.1.1 k.1.2 k.2) (set_maps (breakers cb ∖ doomed) h cb)
    (fst <$> map_to_list doomed).

Definition sweep_idle_locked now cb : nat * CircuitBreaker :=
  let before := size (breakers cb) in
  let cb := retain_entries (λ _ e, evictable e now) cb in
  let cb := set_open (filter (λ kv, kv.2 ≠ ∅) (unexpired now <$> open cb)) cb in
  ((before - size (breakers cb))%nat, cb).

(** [entry]: the address of the entry, created when absent and there is room. *)
Definition entry (key : Key) cred now cb : option nat * CircuitBreaker :=
  match breakers cb !! key with
  | Some l => (Some l, cb)
  | None =>
      let cb :=
        if (max_entries config <=? size (breakers cb))%nat then (sweep_idle_locked now cb).2 else cb in
      if (max_entries config <=? size (breakers cb))%nat then (None, note_capacity cb)
      else
        let l := next_addr cb in
        let e := {| retired := false; en_st := new_state; en_owner := cred_owner cred;
                    en_tuning := cred_tuning cred; last_used := now |} in
        (Some l,
         {| breakers := <[key := l]> (breakers cb); heap := <[l := e]> (heap cb); next_addr := S l;
            cells := cells cb; open := open cb; trip_total := trip_total cb;
            reject_total := reject_total cb; capacity_admitted_total := capacity_admitted_total cb |})
  end.

Definition key (provider region : bytes) cred : Key := (provider, region, cred_id cred).

(** ** [allow] *)

(** The probe of a half-open breaker: granted, or a lost one replaced. *)
Definition grant_probe now (probes : Z) (s : BreakerState) : BreakerState :=
  mkState (bs_state s) (bs_window s) (bs_window_isolated s) (consecutive_failures s) (streak_isolated s)
    (open_shared s) (opened_at s) probes (half_open_successes s) (Some now).

Definition enter_half_open now (s : BreakerState) : BreakerState :=
  mkState HalfOpen (bs_window s) (bs_window_isolated s) (consecutive_failures s) (streak_isolated s)
    (open_shared s) (opened_at s) 1 0 (Some now).

Inductive Admission := Admit | Probe | LeaveOpen | Budget | Refuse.

(** The decision of [allow] on a breaker state: what happens, and the new state. *)
Definition allow_state (tuning : option Tuning) now (s : BreakerState) : Admission * BreakerState :=
  match bs_state s with
  | Closed => (Admit, s)
  | HalfOpen =>
      if (half_open_probes s <? half_open_max_probes config)%Z
      then (Probe, grant_probe now (half_open_probes s + 1) s)
      else if match probe_granted_at s with None => true | Some t => (probe_lost config <=? since now t)%Z end
      then (Probe, grant_probe now 1 s)
      else (Budget, s)
  | Open =>
      let elapsed := from_option (since now) (cooldown tuning) (opened_at s) in
      if (cooldown tuning <=? elapsed)%Z then (LeaveOpen, enter_half_open now s) else (Refuse, s)
  end.

Definition admitted (d : Admission) : bool :=
  match d with Admit | Probe | LeaveOpen => true | Budget | Refuse => false end.

Definition touch now cred (st : BreakerState) (e : Entry) : Entry :=
  {| retired := retired e; en_st := st; en_owner := match en_owner e with None => cred_owner cred | o => o end;
     en_tuning := cred_tuning cred; last_used := now |}.

Definition with_entry (l : nat) (e : Entry) cb : CircuitBreaker :=
  set_maps (breakers cb) (<[l := e]> (heap cb)) cb.

(** [now0] is the clock as [entry] reads it. *)
Definition allow (provider region : bytes) cred now now0 cb : bool * CircuitBreaker :=
  let '(n, cb) := provider_open_count provider region now cb in
  if (provider_min_open_credentials config <=? n)%nat then (false, note_reject cb) else
  match entry (key provider region cred) cred now0 cb with
  | (None, cb) => (true, cb)
  | (Some l, cb) =>
      let cb := set_cells (<[observed cred := (key provider region cred, l)]> (cells cb)) cb in
      match heap cb !! l with
      | None => (true, cb)
      | Some e =>
          let '(d, st) := allow_state (cred_tuning cred) now (en_st e) in
          let cb := with_entry l (touch now cred st e) cb in
          (admitted d,
           match d with
           | LeaveOpen => unmark_open provider region (cred_id cred) cb
           | Refuse => note_reject cb
           | _ => cb
           end)
      end
  end.

Definition would_allow (provider region : bytes) cred now cb : bool * CircuitBreaker :=
  let '(n, cb) := provider_open_count provider region now cb in
  (if (provider_min_open_credentials config <=? n)%nat then false
   else match breakers cb !! key provider region cred ≫= λ l, heap cb !! l with
        | None => true
        | Some e =>
            let s := en_st e in
            match bs_state s with
            | Closed => true
            | HalfOpen =>
                (half_open_probes s <? half_open_max_probes config)%Z ||
                match probe_granted_at s with None => true | Some t => (probe_lost config <=? since now t)%Z end
            | Open =>
                match opened_at s with
                | None => true
                | Some t => (cooldown (cred_tuning cred) <=? since now t)%Z
                end
            end
        end, cb).

(** ** [record] *)

(** [while window.len() > window_size { pop_front }]. *)
Definition trim_window (w : list bool) : list bool := drop (length w - window_size config) w.

(** The outcome enters the window and the streak ([u32] arithmetic). *)
Definition push_outcome (success iso : bool) (s : BreakerState) : BreakerState :=
  mkState (bs_state s) (trim_window (bs_window s ++ [success])) (trim_window (bs_window_isolated s ++ [iso]))
    (if success then 0 else (consecutive_failures s + 1) mod 2 ^ 32)%Z
    (if success then false else streak_isolated s || iso)
    (open_shared s) (opened_at s) (half_open_probes s) (half_open_successes s) (probe_granted_at s).

(** [Recovered]. *)
Definition close (s : BreakerState) : BreakerState :=
  mkState Closed [] [] 0 false false (opened_at s) 0 0 None.

Definition count_success (s : BreakerState) : BreakerState :=
  mkState (bs_state s) (bs_window s) (bs_window_isolated s) (consecutive_failures s) (streak_isolated s)
    (open_shared s) (opened_at s) (half_open_probes s) (half_open_successes s + 1) (probe_granted_at s).

(** A failed probe. *)
Definition reopen now (iso : bool) (s : BreakerState) : BreakerState :=
  mkState Open (bs_window s) (bs_window_isolated s) (consecutive_failures s) (streak_isolated s)
    (open_shared s && negb iso) (Some now) 0 0 None.

(** A trip from Closed. *)
Definition trip now (shared : bool) (s : BreakerState) : BreakerState :=
  mkState Open (bs_window s) (bs_window_isolated s) (consecutive_failures s) (streak_isolated s)
    shared (Some now) (half_open_probes s) (half_open_successes s) (probe_granted_at s).

(** The transition of one breaker state, and whether it opened. *)
Definition record_state (tuning : option Tuning) (success iso : bool) now (s : BreakerState)
    : BreakerState * bool :=
  let s := push_outcome success iso s in
  match bs_state s with
  | HalfOpen =>
      if success then
        let s := count_success s in
        if (half_open_max_probes config <=? half_open_successes s)%Z then (close s, false) else (s, false)
      else (reopen now iso s, true)
  | Closed =>
      let window_full := (window_size config <=? length (bs_window s))%nat in
      let by_streak := (consecutive_threshold tuning <=? consecutive_failures s)%Z in
      let by_rate := window_full && f64_ge (failure_rate s) (failure_rate_threshold config) in
      if by_streak || by_rate then
        let window_clean :=
          negb (existsb (λ '(ok, iso), negb ok && iso) (zip (bs_window s) (bs_window_isolated s))) in
        (trip now (negb iso && ((by_streak && negb (streak_isolated s)) || (by_rate && window_clean))) s, true)
      else (s, false)
  | Open => (s, false)
  end.

Definition record_entry now cred (st : BreakerState) (e : Entry) : Entry :=
  {| retired := retired e; en_st := st; en_owner := en_owner e; en_tuning := cred_tuning cred; last_used := now |}.

(** The entry [record] works on: the one this handle was admitted through, or the
    one in the map. *)
Definition record_cell (k : Key) cred now0 cb : option nat * CircuitBreaker :=
  match cells cb !! observed cred with
  | Some (seen_key, l) =>
      if decide (seen_key = k)
      then (if decide (is_Some (heap cb !! l)) then Some l else None, cb)
      else entry k cred now0 cb
  | None => entry k cred now0 cb
  end.

Definition record (provider region : bytes) cred (outcome : Outcome) now0 now cb : CircuitBreaker :=
  let success := bool_decide (outcome = Success) in
  let iso := isolated cred || bool_decide (outcome = CredentialFault) in
  if iso && negb success && bool_decide (cred_owner cred = None) then cb else
  match record_cell (key provider region cred) cred now0 cb with
  | (None, cb) => cb
  | (Some l, cb) =>
      match heap cb !! l with
      | None => cb
      | Some e =>
          if retired e then cb else
          let '(st, opened) := record_state (cred_tuning cred) success iso now (en_st e) in
          let cb := with_entry l (record_entry now cred st e) cb in
          let cb := if opened then note_trip cb else cb in
          if opened && open_shared st
          then mark_open provider region cred (now + cooldown (cred_tuning cred)) cb
          else cb
      end
  end.

(** ** Reset and the read surfaces *)

Definition reset_credential (c : Credential) cb : CircuitBreaker :=
  retain_entries (λ k _, bool_decide (k.2 = c)) cb.

Definition provider_state (provider region : bytes) now cb : BState * nat :=
  let '(n, _) := provider_open_count provider region now cb in
  (if (provider_min_open_credentials config <=? n)%nat then Open else Closed, n).

Definition visible (owner : option OwnerTag) (include_env : bool) (k : Key) (e : Entry) : bool :=
  match k.2 with
  | Env => include_env
  | Byok _ => bool_decide (is_Some owner) && bool_decide (fst <$> en_owner e = owner)
  end.

(** [bump]: the worst state of a provider wins. *)
Definition bump (provider : bytes) (st : BState) (out : gmap bytes BState) : gmap bytes BState :=
  match out !! provider with
  | Some s => if (severity s <? severity st)%Z then <[provider := st]> out else out
  | None => <[provider := st]> out
  end.

Definition tenant_view (owner : option OwnerTag) (include_env : bool) now cb : gmap bytes BState :=
  let out := foldr (λ pr out,
      let st := (provider_state pr.1 pr.2 now cb).1 in
      if decide (st = Closed) then out else bump pr.1 st out) ∅ (fst <$> map_to_list (open cb)) in
  foldr (λ kl out,
      match heap cb !! kl.2 with
      | Some e => if visible owner include_env kl.1 e then bump kl.1.1.1 (bs_state (en_st e)) out else out
      | None => out
      end) out (map_to_list (breakers cb)).

Record CredentialView := {
  cv_provider : bytes;
  cv_region : bytes;
  cv_label : bytes;
  cv_state : BState;
}.

Record ProviderView := {
  pv_provider : bytes;
  pv_region : bytes;
  pv_state : BState;
  pv_open_credentials : nat;
  pv_open_owners : nat;
}.

(** The order of [(provider, region, label)]. *)
Definition cv_le (a b : CredentialView) : Prop :=
  match bytes_compare (cv_provider a) (cv_provider b) with
  | Lt => True
  | Gt => False
  | Eq => match bytes_compare (cv_region a) (cv_region b) with
          | Lt => True
          | Gt => False
          | Eq => bytes_compare (cv_label a) (cv_label b) ≠ Gt
          end
  end.
#[global] Instance cv_le_dec : RelDecision cv_le.
Proof. intros a b. unfold cv_le. repeat case_match; apply _. Defined.

(** [Vec::dedup]: consecutive repetitions removed. *)
Fixpoint dedup_pairs (l : list (bytes * bytes)) : list (bytes * bytes) :=
  match l with
  | x :: (y :: _) as l' => if decide (x = y) then dedup_pairs l' else x :: dedup_pairs l'
  | _ => l
  end.

Definition owner_snapshot (owner : option OwnerTag) (include_env : bool) now cb
    : list CredentialView * list ProviderView :=
  let credentials := merge_sort cv_le (omap (λ kl,
      e ← heap cb !! kl.2;
      if visible owner include_env kl.1 e
      then Some {| cv_provider := kl.1.1.1; cv_region := kl.1.1.2;
                   cv_label := from_option snd (lit "env") (en_owner e); cv_state := bs_state (en_st e) |}
      else None) (map_to_list (breakers cb))) in
  let pairs := dedup_pairs ((λ c, (cv_provider c, cv_region c)) <$> credentials) in
  (credentials,
   (λ pr, let '(state, open_owners) := provider_state pr.1 pr.2 now cb in
      {| pv_provider := pr.1; pv_region := pr.2; pv_state := state;
         pv_open_credentials := from_option (λ set, size (unexpired now set)) 0%nat (open cb !! pr);
         pv_open_owners := open_owners |}) <$> pairs).

End breaker.
