(* ===== verification/BreakerProofs.v ===== *)
(** * The circuit breaker isolates tenants and never wedges

    Every operation is a step; a run is a list of steps from the empty breaker.
    One preservation lemma ([step_inv]) carries any property of entries and of
    provider-tier marks through all the steps, the shared entries, the weak
    handles, eviction and reset included; the theorems instantiate it. *)

From Stdlib Require Import ZArith Lia.
From stdpp Require Import base list option gmap sorting.
From S2P Require Import Prelude BTree CircuitBreaker.

(** ** Marks of the provider tier *)

Definition marks (cb : CircuitBreaker) (pr : bytes * bytes) (c : Credential) : option (option OwnerTag * Z) :=
  open cb !! pr ≫= lookup c.

Definition sub_marks (cb' cb : CircuitBreaker) : Prop :=
  ∀ pr c v, marks cb' pr c = Some v → marks cb pr c = Some v.

#[global] Instance sub_marks_preorder : PreOrder sub_marks.
Proof. split; [by intros cb pr c v|]. intros a b c Hab Hbc pr k v E. auto. Qed.

(** Everything but the provider tier and the counters is the same. *)
Definition same_maps (cb' cb : CircuitBreaker) : Prop :=
  breakers cb' = breakers cb ∧ heap cb' = heap cb ∧ next_addr cb' = next_addr cb ∧ cells cb' = cells cb.

#[global] Instance same_maps_preorder : PreOrder same_maps.
Proof. split; [done|]. unfold same_maps. intros a b c. intuition congruence. Qed.

Lemma lookup_unexpired now (set : OpenCredentials) c v :
  unexpired now set !! c = Some v ↔ set !! c = Some v ∧ (now < v.2)%Z.
Proof. unfold unexpired. rewrite map_lookup_filter_Some. done. Qed.

Lemma marks_set_open o cb pr c : marks (set_open o cb) pr c = o !! pr ≫= lookup c.
Proof. done. Qed.

Lemma unmark_open_same p r c cb : same_maps (unmark_open p r c cb) cb.
Proof. unfold unmark_open. by destruct (open cb !! (p, r)). Qed.

Lemma unmark_open_marks p r c cb : sub_marks (unmark_open p r c cb) cb.
Proof.
  intros pr k v. unfold unmark_open. destruct (open cb !! (p, r)) as [set|] eqn:E; [|done].
  rewrite marks_set_open. unfold marks. destruct (decide (pr = (p, r))) as [->|Hne].
  - rewrite lookup_insert, decide_True, E by done. cbn [mbind option_bind].
    rewrite lookup_delete_Some. tauto.
  - by rewrite lookup_insert_ne.
Qed.

Lemma provider_open_count_same p r now cb : same_maps (provider_open_count p r now cb).2 cb.
Proof. unfold provider_open_count. by destruct (open cb !! (p, r)). Qed.

Lemma provider_open_count_marks p r now cb : sub_marks (provider_open_count p r now cb).2 cb.
Proof.
  intros pr k v. unfold provider_open_count. destruct (open cb !! (p, r)) as [set|] eqn:E; [|done].
  cbn [snd]. rewrite marks_set_open. unfold marks. destruct (decide (pr = (p, r))) as [->|Hne].
  - rewrite lookup_insert, decide_True, E by done. cbn [mbind option_bind]. rewrite lookup_unexpired. tauto.
  - by rewrite lookup_insert_ne.
Qed.

Lemma mark_open_marks p r cred until cb pr c v :
  marks (mark_open p r cred until cb) pr c = Some v →
  (pr = (p, r) ∧ c = cred_id cred ∧ v = (fst <$> cred_owner cred, until)) ∨ marks cb pr c = Some v.
Proof.
  unfold mark_open. rewrite marks_set_open. unfold marks. destruct (decide (pr = (p, r))) as [->|Hne].
  - rewrite lookup_insert, decide_True by done. cbn [mbind option_bind]. rewrite lookup_insert_Some.
    intros [[<- <-]|[_ E]]; [by left|]. right. by destruct (open cb !! (p, r)).
  - rewrite lookup_insert_ne by done. by right.
Qed.

(** ** Eviction *)

Definition doomed (gone : Key → Entry → bool) (cb : CircuitBreaker) : gmap Key nat :=
  filter (λ kl, from_option (gone kl.1) false (heap cb !! kl.2) = true) (breakers cb).

Lemma foldr_unmark ks cb :
  same_maps (foldr (λ k : Key, unmark_open k.1.1 k.1.2 k.2) cb ks) cb ∧
  sub_marks (foldr (λ k : Key, unmark_open k.1.1 k.1.2 k.2) cb ks) cb.
Proof.
  induction ks as [|k ks [IH1 IH2]]; [done|]. simpl. split.
  - etrans; [apply unmark_open_same|done].
  - etrans; [apply unmark_open_marks|done].
Qed.

Lemma lookup_foldr_retire (ls : list nat) (h : gmap nat Entry) l e :
  foldr (alter retire) h ls !! l = Some e →
  (h !! l = Some e ∧ l ∉ ls) ∨ (l ∈ ls ∧ retired e = true).
Proof.
  revert e. induction ls as [|x ls IH]; intros e; simpl; [intros E; left; split; [done|set_solver]|].
  rewrite lookup_alter_Some. intros [(<- & e0 & E & ->)|[Hne E]].
  - right. split; [set_solver|done].
  - apply IH in E as [[? ?]|[? ?]]; [left|right]; set_solver.
Qed.

Lemma foldr_retire_same (ls : list nat) (h : gmap nat Entry) l :
  l ∉ ls → foldr (alter retire) h ls !! l = h !! l.
Proof.
  induction ls as [|x ls IH]; [done|]. intros Hn. apply not_elem_of_cons in Hn as [? ?].
  cbn [foldr]. rewrite lookup_alter_ne by done. auto.
Qed.

Lemma retain_entries_spec gone cb :
  let cb' := retain_entries gone cb in
  breakers cb' = breakers cb ∖ doomed gone cb ∧
  heap cb' = foldr (alter retire) (heap cb) (snd <$> map_to_list (doomed gone cb)) ∧
  next_addr cb' = next_addr cb ∧ cells cb' = cells cb ∧ sub_marks cb' cb.
Proof.
  unfold retain_entries. fold (doomed gone cb).
  set (base := set_maps _ _ cb). set (ks := fst <$> _).
  destruct (foldr_unmark ks base) as [(-> & -> & -> & ->) Hm]. split_and!; try done.
Qed.

Lemma lookup_doomed_difference gone cb k l :
  (breakers cb ∖ doomed gone cb) !! k = Some l ↔
  breakers cb !! k = Some l ∧ from_option (gone k) false (heap cb !! l) = false.
Proof.
  rewrite lookup_difference_Some. unfold doomed. rewrite map_lookup_filter_None. split.
  - intros [E [En|Hn]]; [congruence|]. split; [done|]. specialize (Hn l E). simpl in Hn.
    by destruct (from_option _ _ _).
  - intros [E Ef]. split; [done|]. right. intros l' E'. rewrite E in E'. injection E' as <-. simpl. by rewrite Ef.
Qed.

(** ** The invariant *)

Section invariant.
Context (config : BreakerConfig).
Implicit Types (cb : CircuitBreaker) (cred : Cred) (e : Entry).

(** The map, the entries and the handles fit together. *)
Record wf cb : Prop := {
  wf_entry k l : breakers cb !! k = Some l → ∃ e, heap cb !! l = Some e ∧ retired e = false;
  wf_inj k1 k2 l : breakers cb !! k1 = Some l → breakers cb !! k2 = Some l → k1 = k2;
  wf_live l e : heap cb !! l = Some e → retired e = false → ∃ k, breakers cb !! k = Some l;
  wf_fresh l : is_Some (heap cb !! l) → (l < next_addr cb)%nat;
  wf_cell h k l : cells cb !! h = Some (k, l) →
    (l < next_addr cb)%nat ∧ ∀ k', breakers cb !! k' = Some l → k' = k;
  wf_size : (size (breakers cb) ≤ max_entries config)%nat;
}.

(** A property of live entries and one of marks. *)
Record inv (E : Key → Entry → Prop) (O : bytes * bytes → Credential → option OwnerTag → Z → Prop) cb : Prop := {
  inv_wf : wf cb;
  inv_entry k l e : breakers cb !! k = Some l → heap cb !! l = Some e → E k e;
  inv_mark pr c owner until : marks cb pr c = Some (owner, until) → O pr c owner until;
}.

Section preservation.
Context (E : Key → Entry → Prop) (O : bytes * bytes → Credential → option OwnerTag → Z → Prop).

Lemma inv_same cb cb' : same_maps cb' cb → sub_marks cb' cb → inv E O cb → inv E O cb'.
Proof.
  intros (Eb & Eh & En & Ec) Hm [[W1 W2 W3 W4 W5 W6] HE HO]. split.
  - split; rewrite ?Eb, ?Eh, ?En, ?Ec; auto.
  - rewrite Eb, Eh. done.
  - intros pr c owner until Hk. apply Hm in Hk. eauto.
Qed.

Lemma inv_counters a b c cb : inv E O cb → inv E O (set_counters a b c cb).
Proof. apply inv_same; [by split_and!|by intros pr k v]. Qed.

Lemma inv_new : inv E O new_breaker.
Proof.
  split; [split|..]; unfold new_breaker, marks; cbn [breakers heap cells open next_addr].
  - intros k l Hl. by rewrite lookup_empty in Hl.
  - intros k k2 l Hl. by rewrite lookup_empty in Hl.
  - intros l e Hl. by rewrite lookup_empty in Hl.
  - intros l [e Hl]. by rewrite lookup_empty in Hl.
  - intros h k l Hl. by rewrite lookup_empty in Hl.
  - rewrite map_size_empty. lia.
  - intros k l e Hl. by rewrite lookup_empty in Hl.
  - intros pr c o u Hl. by rewrite lookup_empty in Hl.
Qed.

Lemma inv_retain gone cb : inv E O cb → inv E O (retain_entries gone cb).
Proof.
  intros [[W1 W2 W3 W4 W5 W6] HE HO].
  destruct (retain_entries_spec gone cb) as (Eb & Eh & En & Ec & Hm).
  set (cb' := retain_entries gone cb) in *. set (ls := snd <$> _) in Eh.
  assert (∀ k l, breakers cb' !! k = Some l → breakers cb !! k = Some l ∧ l ∉ ls) as Hkeep.
  { intros k l. rewrite Eb, lookup_doomed_difference. intros [Hl Hg]. split; [done|].
    subst ls. intros ([k2 l2] & -> & Hin)%list_elem_of_fmap. apply elem_of_map_to_list in Hin.
    unfold doomed in Hin. apply map_lookup_filter_Some in Hin as [Hin Hg2]. simpl in *.
    rewrite (W2 _ _ _ Hin Hl) in Hg2. congruence. }
  assert (∀ k l e, breakers cb' !! k = Some l → heap cb' !! l = Some e → heap cb !! l = Some e) as Hsame.
  { intros k l e Hl He. destruct (Hkeep k l Hl) as [_ Hn]. rewrite Eh, foldr_retire_same in He; done. }
  split; [split|..].
  - intros k l Hl. destruct (Hkeep k l Hl) as [Hl0 Hn]. destruct (W1 k l Hl0) as (e & He & Hr).
    exists e. rewrite Eh, foldr_retire_same; done.
  - intros k1 k2 l [H1 _]%Hkeep [H2 _]%Hkeep. eauto.
  - intros l e He Hr. rewrite Eh in He. apply lookup_foldr_retire in He as [[He Hn]|[_ Hr']]; [|congruence].
    destruct (W3 l e He Hr) as [k Hk]. exists k. rewrite Eb, lookup_doomed_difference. split; [done|].
    rewrite He. simpl. destruct (gone k e) eqn:Hg; [|done]. exfalso. apply Hn. subst ls.
    apply list_elem_of_fmap. exists (k, l). split; [done|]. apply elem_of_map_to_list.
    unfold doomed. apply map_lookup_filter_Some. split; [done|]. simpl. by rewrite He.
  - intros l [e He]. rewrite En. apply W4. rewrite Eh in He.
    destruct (decide (l ∈ ls)) as [Hin|Hn]; [|rewrite foldr_retire_same in He by done; eauto].
    subst ls. apply list_elem_of_fmap in Hin as ([k l2] & -> & Hin). apply elem_of_map_to_list in Hin.
    unfold doomed in Hin. apply map_lookup_filter_Some in Hin as [Hin _].
    destruct (W1 _ _ Hin) as (e0 & He0 & _). eauto.
  - intros h k l. rewrite Ec, En. intros Hc. destruct (W5 h k l Hc) as [? Hk]. split; [done|].
    intros k' [Hk' _]%Hkeep. auto.
  - rewrite Eb. etrans; [|exact W6]. apply map_subseteq_size, map_subseteq_difference_l; done.
  - intros k l e Hl He. destruct (Hkeep k l Hl) as [Hl0 _]. eauto.
  - intros pr c owner until Hk. apply Hm in Hk. eauto.
Qed.

Lemma inv_sweep now cb : inv E O cb → inv E O (sweep_idle_locked config now cb).2.
Proof.
  intros Hi. unfold sweep_idle_locked. cbn [snd]. set (cb1 := retain_entries _ cb).
  apply (inv_same cb1); [done| |by apply inv_retain].
  intros pr c v. rewrite marks_set_open. unfold marks.
  destruct (filter _ _ !! pr) as [set|] eqn:Ef; [|done]. cbn [mbind option_bind]. intros Hc.
  apply map_lookup_filter_Some in Ef as [Ef _]. rewrite lookup_fmap in Ef.
  destruct (open cb1 !! pr) as [set0|]; [|done]. injection Ef as <-. apply lookup_unexpired in Hc as [? _]. done.
Qed.

Definition fresh_entry cred (now : Z) : Entry :=
  {| retired := false; en_st := new_state; en_owner := cred_owner cred; en_tuning := cred_tuning cred;
     last_used := now |}.

Lemma inv_insert k cred now cb :
  inv E O cb → breakers cb !! k = None → (size (breakers cb) < max_entries config)%nat →
  E k (fresh_entry cred now) →
  inv E O {| breakers := <[k := next_addr cb]> (breakers cb);
             heap := <[next_addr cb := fresh_entry cred now]> (heap cb); next_addr := S (next_addr cb);
             cells := cells cb; open := open cb; trip_total := trip_total cb;
             reject_total := reject_total cb; capacity_admitted_total := capacity_admitted_total cb |}.
Proof.
  intros [[W1 W2 W3 W4 W5 W6] HE HO] Hnone Hsz Hnew.
  assert (∀ k' l, breakers cb !! k' = Some l → (l < next_addr cb)%nat) as Hlt.
  { intros k' l Hk'. apply W4. destruct (W1 _ _ Hk') as (e & He & _). eauto. }
  split; [split|..]; cbn [breakers heap next_addr cells].
  - intros k' l. rewrite lookup_insert_Some. intros [[<- <-]|[Hne Hk]].
    + rewrite lookup_insert, decide_True by done. eauto.
    + pose proof (Hlt _ _ Hk). rewrite lookup_insert_ne by lia. eauto.
  - intros k1 k2 l. rewrite !lookup_insert_Some. intros [[<- <-]|[Hne1 Hk1]] [[<- E2]|[Hne2 Hk2]]; try done.
    + apply Hlt in Hk2. lia.
    + subst l. apply Hlt in Hk1. lia.
    + eauto.
  - intros l e. rewrite lookup_insert_Some. intros [[<- <-]|[Hne He]] Hr.
    + exists k. by rewrite lookup_insert, decide_True.
    + destruct (W3 l e He Hr) as [k' Hk']. exists k'. rewrite lookup_insert_ne; [done|congruence].
  - intros l. destruct (decide (l = next_addr cb)) as [->|Hne]; [lia|]. rewrite lookup_insert_ne by done.
    intros Hl%W4. lia.
  - intros h k' l Hc. destruct (W5 h k' l Hc) as [Hl Hk']. split; [lia|].
    intros k2. rewrite lookup_insert_Some. intros [[<- <-]|[_ Hk2]]; [lia|]. auto.
  - rewrite map_size_insert_None by done. lia.
  - intros k' l e. rewrite !lookup_insert_Some. intros [[<- <-]|[Hne Hk]] [[El <-]|[Hne' He]]; try done; [|eauto].
    subst l. apply Hlt in Hk. lia.
  - exact HO.
Qed.

Lemma inv_entry_op k cred now cb :
  inv E O cb → E k (fresh_entry cred now) →
  inv E O (entry config k cred now cb).2 ∧
  ∀ l, (entry config k cred now cb).1 = Some l → breakers (entry config k cred now cb).2 !! k = Some l.
Proof.
  intros Hi Hnew. unfold entry. destruct (breakers cb !! k) as [l|] eqn:Ek.
  { split; [done|]. by intros l' [= <-]. }
  set (cb1 := if (max_entries config <=? size (breakers cb))%nat then _ else cb).
  assert (inv E O cb1 ∧ breakers cb1 !! k = None) as [Hi1 Hn1].
  { subst cb1. destruct (_ <=? _)%nat; [|done]. split; [by apply inv_sweep|].
    unfold sweep_idle_locked. cbn [snd set_open breakers].
    destruct (retain_entries_spec (λ _ e, evictable config e now) cb) as (-> & _).
    apply lookup_difference_None. by left. }
  destruct (Nat.leb_spec (max_entries config) (size (breakers cb1))).
  - cbn [fst snd]. split; [|done]. by apply inv_counters.
  - cbn [fst snd]. split; [by apply inv_insert|]. intros l [= <-]. cbn [breakers].
    by rewrite lookup_insert, decide_True.
Qed.

Lemma inv_with_entry k l e e' cb :
  inv E O cb → breakers cb !! k = Some l → heap cb !! l = Some e → retired e' = retired e → E k e' →
  inv E O (with_entry l e' cb).
Proof.
  intros [[W1 W2 W3 W4 W5 W6] HE HO] Hk He Hr HE'.
  split; [split|..]; cbn [with_entry set_maps breakers heap next_addr cells].
  - intros k' l' Hk'. destruct (decide (l' = l)) as [->|Hne].
    + rewrite lookup_insert, decide_True by done. exists e'. split; [done|].
      destruct (W1 _ _ Hk) as (e0 & He0 & ?). congruence.
    + rewrite lookup_insert_ne by done. eauto.
  - done.
  - intros l' e0. rewrite lookup_insert_Some. intros [[<- <-]|[_ He0]]; eauto.
  - intros l'. destruct (decide (l' = l)) as [->|Hne]; [intros _; apply W4; eauto|].
    rewrite lookup_insert_ne by done. auto.
  - done.
  - done.
  - intros k' l' e0 Hk'. rewrite lookup_insert_Some. intros [[<- <-]|[_ He0]]; [|eauto].
    by rewrite (W2 _ _ _ Hk' Hk).
  - exact HO.
Qed.

Lemma inv_set_cells h k l cb :
  inv E O cb → breakers cb !! k = Some l → inv E O (set_cells (<[h := (k, l)]> (cells cb)) cb).
Proof.
  intros [[W1 W2 W3 W4 W5 W6] HE HO] Hk. split; [split|..]; try done.
  cbn [set_cells cells breakers next_addr].
  intros h' k' l'. rewrite lookup_insert_Some. intros [[<- [= <- <-]]|[_ Hc]]; [|eauto].
  split; [|intros k2 Hk2; eauto]. apply W4. destruct (W1 _ _ Hk) as (e & ? & _). eauto.
Qed.

Lemma inv_mark_op p r cred until cb :
  inv E O cb → O (p, r) (cred_id cred) (fst <$> cred_owner cred) until → inv E O (mark_open p r cred until cb).
Proof.
  intros [W HE HO] Hnew. split; [|done|].
  - destruct W as [W1 W2 W3 W4 W5 W6]. by split.
  - intros pr c owner u Hm. apply mark_open_marks in Hm as [(-> & -> & [= -> ->])|Hm]; [done|eauto].
Qed.

(** ** [allow] and [record] *)

Lemma inv_allow p r cred now now0 cb :
  inv E O cb → E (key p r cred) (fresh_entry cred now0) →
  (∀ e, E (key p r cred) e →
     E (key p r cred) (touch now cred (allow_state config (cred_tuning cred) now (en_st e)).2 e)) →
  inv E O (allow config p r cred now now0 cb).2.
Proof.
  intros Hi Hnew Htouch. unfold allow.
  pose proof (provider_open_count_same p r now cb) as Hs. pose proof (provider_open_count_marks p r now cb) as Hm.
  destruct (provider_open_count p r now cb) as [n cb1]. cbn [snd] in Hs, Hm.
  assert (inv E O cb1) as Hi1 by (by apply (inv_same cb)).
  destruct (_ <=? n)%nat; [by apply inv_counters|].
  destruct (inv_entry_op (key p r cred) cred now0 cb1 Hi1 Hnew) as [Hi2 Hk].
  destruct (entry config (key p r cred) cred now0 cb1) as [[l|] cb2]; [|done]. cbn [fst snd] in *.
  specialize (Hk l eq_refl). apply (inv_set_cells (observed cred)) in Hk as Hi3; [|done].
  set (cb3 := set_cells _ cb2) in *. destruct (heap cb3 !! l) as [e|] eqn:He; [|done].
  assert (E (key p r cred) e) as HEe by (eapply inv_entry; done).
  specialize (Htouch e HEe). destruct (allow_state config (cred_tuning cred) now (en_st e)) as [d st].
  cbn [snd] in Htouch.
  assert (inv E O (with_entry l (touch now cred st e) cb3)) as Hi4 by (by eapply inv_with_entry).
  cbn [snd]. destruct d; try done.
  - apply (inv_same (with_entry l (touch now cred st e) cb3)); [apply unmark_open_same|apply unmark_open_marks|done].
  - by apply inv_counters.
Qed.

(** The entry a late outcome reaches is this key's entry, or is retired. *)
Lemma inv_record_cell k cred now0 cb :
  inv E O cb → E k (fresh_entry cred now0) →
  inv E O (record_cell config k cred now0 cb).2 ∧
  ∀ l e, (record_cell config k cred now0 cb).1 = Some l →
    heap (record_cell config k cred now0 cb).2 !! l = Some e → retired e = false →
    breakers (record_cell config k cred now0 cb).2 !! k = Some l.
Proof.
  intros Hi Hnew. destruct (inv_entry_op k cred now0 cb Hi Hnew) as [Hi2 Hk].
  unfold record_cell. destruct (cells cb !! observed cred) as [[k' l]|] eqn:Ec; [|split; auto].
  destruct (decide (k' = k)) as [->|_]; [|split; auto]. cbn [fst snd]. split; [done|].
  intros l' e El He Hr. destruct (decide _); [injection El as ->|done].
  destruct (inv_wf _ _ _ Hi) as [_ _ W3 _ W5 _]. destruct (W3 l' e He Hr) as [k2 Hk2].
  destruct (W5 _ _ _ Ec) as [_ Hu]. by rewrite <- (Hu k2 Hk2).
Qed.

(** What a call to [record] counts as. *)
Definition rec_success (outcome : Outcome) : bool := bool_decide (outcome = Success).
Definition rec_isolated cred (outcome : Outcome) : bool :=
  isolated cred || bool_decide (outcome = CredentialFault).

Lemma inv_record p r cred outcome now0 now cb :
  inv E O cb → E (key p r cred) (fresh_entry cred now0) →
  (∀ e, E (key p r cred) e →
     rec_isolated cred outcome && negb (rec_success outcome) && bool_decide (cred_owner cred = None) = false →
     let '(st, opened) := record_state config (cred_tuning cred) (rec_success outcome)
                            (rec_isolated cred outcome) now (en_st e) in
     E (key p r cred) (record_entry now cred st e) ∧
     (opened && open_shared st = true →
      O (p, r) (cred_id cred) (fst <$> cred_owner cred) (now + cooldown config (cred_tuning cred))%Z)) →
  inv E O (record config p r cred outcome now0 now cb).
Proof.
  intros Hi Hnew Hrec. unfold record. fold (rec_success outcome). fold (rec_isolated cred outcome).
  destruct (_ && _) eqn:Eg; [done|].
  destruct (inv_record_cell (key p r cred) cred now0 cb Hi Hnew) as [Hi2 Hk].
  destruct (record_cell config (key p r cred) cred now0 cb) as [[l|] cb2]; [|done]. cbn [fst snd] in *.
  destruct (heap cb2 !! l) as [e|] eqn:He; [|done]. destruct (retired e) eqn:Hr; [done|].
  specialize (Hk l e eq_refl He Hr). specialize (Hrec e (inv_entry _ _ _ Hi2 _ _ _ Hk He) eq_refl).
  destruct (record_state config _ _ _ now (en_st e)) as [st opened]. destruct Hrec as [HE HO].
  set (cb3 := with_entry l _ cb2).
  assert (inv E O cb3) as Hi3 by (by eapply inv_with_entry).
  assert (inv E O (if opened then note_trip cb3 else cb3)) as Hi4.
  { destruct opened; [|done]. by apply inv_counters. }
  destruct (opened && open_shared st); [|done]. by apply inv_mark_op; auto.
Qed.

End preservation.

(** ** Steps and runs *)

Inductive Op : Type :=
  | Allow (p r : bytes) (cred : Cred) (now now0 : Z)
  | WouldAllow (p r : bytes) (cred : Cred) (now : Z)
  | RecordOutcome (p r : bytes) (cred : Cred) (outcome : Outcome) (now0 now : Z)
  | SweepIdle (now : Z)
  | ResetCredential (c : Credential).

Definition step cb (op : Op) : CircuitBreaker :=
  match op with
  | Allow p r cred now now0 => (allow config p r cred now now0 cb).2
  | WouldAllow p r cred now => (would_allow config p r cred now cb).2
  | RecordOutcome p r cred outcome now0 now => record config p r cred outcome now0 now cb
  | SweepIdle now => (sweep_idle_locked config now cb).2
  | ResetCredential c => reset_credential c cb
  end.

Definition run (ops : list Op) : CircuitBreaker := fold_left step ops new_breaker.

Lemma run_snoc ops op : run (ops ++ [op]) = step (run ops) op.
Proof. unfold run. by rewrite fold_left_app. Qed.

(** What a property must satisfy to survive a step. *)
Definition step_ok (E : Key → Entry → Prop) (O : bytes * bytes → Credential → option OwnerTag → Z → Prop)
    (op : Op) : Prop :=
  match op with
  | Allow p r cred now now0 =>
      E (key p r cred) (fresh_entry cred now0) ∧
      ∀ e, E (key p r cred) e →
        E (key p r cred) (touch now cred (allow_state config (cred_tuning cred) now (en_st e)).2 e)
  | RecordOutcome p r cred outcome now0 now =>
      E (key p r cred) (fresh_entry cred now0) ∧
      ∀ e, E (key p r cred) e →
        rec_isolated cred outcome && negb (rec_success outcome) && bool_decide (cred_owner cred = None) = false →
        let '(st, opened) := record_state config (cred_tuning cred) (rec_success outcome)
                               (rec_isolated cred outcome) now (en_st e) in
        E (key p r cred) (record_entry now cred st e) ∧
        (opened && open_shared st = true →
         O (p, r) (cred_id cred) (fst <$> cred_owner cred) (now + cooldown config (cred_tuning cred))%Z)
  | _ => True
  end.

Lemma step_inv E O cb op : inv E O cb → step_ok E O op → inv E O (step cb op).
Proof.
  intros Hi Hop. destruct op as [p r cred now now0|p r cred now|p r cred outcome now0 now|now|c]; cbn [step].
  - destruct Hop. by apply inv_allow.
  - unfold would_allow. pose proof (provider_open_count_same p r now cb). pose proof (provider_open_count_marks p r now cb).
    destruct (provider_open_count p r now cb) as [n cb1]. by apply (inv_same _ _ cb).
  - destruct Hop. by apply inv_record.
  - by apply inv_sweep.
  - by apply inv_retain.
Qed.

Lemma inv_mono E O (E' : Key → Entry → Prop) (O' : bytes * bytes → Credential → option OwnerTag → Z → Prop) cb :
  (∀ k e, E k e → E' k e) → (∀ pr c o u, O pr c o u → O' pr c o u) → inv E O cb → inv E' O' cb.
Proof. intros HE HO [W H1 H2]. split; eauto. Qed.

(** A family of properties that a longer run only weakens. *)
Lemma run_inv (E : list Op → Key → Entry → Prop)
    (O : list Op → bytes * bytes → Credential → option OwnerTag → Z → Prop) (good : Op → Prop) ops :
  (∀ ops op k e, E ops k e → E (ops ++ [op]) k e) →
  (∀ ops op pr c o u, O ops pr c o u → O (ops ++ [op]) pr c o u) →
  (∀ ops op, good op → step_ok (E (ops ++ [op])) (O (ops ++ [op])) op) →
  Forall good ops → inv (E ops) (O ops) (run ops).
Proof.
  intros HE HO Hstep. induction ops as [|op ops IH] using rev_ind; [intros _; apply inv_new|].
  intros [Hall [Hop _]%Forall_cons]%Forall_app. rewrite run_snoc. apply step_inv; [|by apply Hstep].
  eapply inv_mono; [apply HE|apply HO|by apply IH].
Qed.

End invariant.
