(* ===== verification/BreakerTheorems.v ===== *)
(** * Theorems about the circuit breaker

    No wedge, bounded memory, tenant isolation of the provider-wide tier, the
    probe budget, agreement of the two admission checks, and outcomes that arrive
    after a reset. *)

From Stdlib Require Import ZArith Lia.
From stdpp Require Import base list option gmap sorting.
From S2P Require Import Prelude BTree Float64 CircuitBreaker BreakerProofs.

(** What [parse_table] accepts. *)
Record config_ok (c : BreakerConfig) : Prop := {
  co_window : (1 ≤ window_size c)%nat;
  co_rate : SFltb (f64_of 0) (failure_rate_threshold c) = true;
  co_streak : (1 ≤ consecutive_failure_threshold c < 2 ^ 32)%Z;
  co_cooldown : (0 < cooldown_default c)%Z;
  co_probes : (1 ≤ half_open_max_probes c)%Z;
  co_owners : (1 ≤ provider_min_open_credentials c)%nat;
}.

Lemma fallback_ok : config_ok FALLBACK.
Proof. split; [simpl; lia|reflexivity|simpl; unfold secs; lia..]. Qed.

Section theorems.
Context (config : BreakerConfig) (Hconfig : config_ok config).
Implicit Types (cb : CircuitBreaker) (cred : Cred) (e : Entry) (s : BreakerState).

(** An override the routing document accepts. *)
Definition tuning_ok (tuning : option Tuning) : Prop :=
  from_option (λ t, (1 ≤ tu_consecutive_failure_threshold t < 2 ^ 32)%Z) True tuning.

Lemma threshold_pos tuning : tuning_ok tuning → (1 ≤ consecutive_threshold config tuning < 2 ^ 32)%Z.
Proof. destruct Hconfig, tuning; simpl; auto. Qed.

(** ** The shape of an entry *)

Record entry_shape (T : Z) s : Prop := {
  es_windows : length (bs_window s) = length (bs_window_isolated s);
  es_window : (length (bs_window s) ≤ window_size config)%nat;
  es_streak : (0 ≤ consecutive_failures s < 2 ^ 32)%Z;
  es_half_open : bs_state s = HalfOpen →
    (1 ≤ half_open_probes s ≤ half_open_max_probes config)%Z ∧
    (0 ≤ half_open_successes s < half_open_max_probes config)%Z ∧
    ∃ t, probe_granted_at s = Some t ∧ (t ≤ T)%Z;
  es_open : bs_state s = Open → ∃ t, opened_at s = Some t ∧ (t ≤ T)%Z;
}.

Lemma new_state_shape T : entry_shape T new_state.
Proof. split; simpl; try done; lia. Qed.

Lemma allow_state_shape T tuning now s :
  (now ≤ T)%Z → entry_shape T s → entry_shape T (allow_state config tuning now s).2.
Proof.
  intros Hn [H1 H2 H3 H4 H5]. destruct Hconfig as [_ _ _ _ Hp _]. unfold allow_state.
  destruct (bs_state s) eqn:Es; [split; simpl; rewrite ?Es; done| |].
  - destruct (_ <=? _)%Z; split; simpl; rewrite ?Es; try done. intros _. split_and!; [lia..|eauto].
  - destruct (H4 eq_refl) as (? & ? & ?).
    destruct (Z.ltb_spec (half_open_probes s) (half_open_max_probes config)).
    + split; simpl; rewrite ?Es; try done. intros _. split_and!; [lia..|eauto].
    + destruct (match probe_granted_at s with Some _ => _ | None => _ end); split; simpl; rewrite ?Es; try done.
      intros _. split_and!; [lia..|eauto].
Qed.

Lemma length_trim_window (w : list bool) : length (trim_window config w) = Nat.min (length w) (window_size config).
Proof. unfold trim_window. rewrite length_drop. lia. Qed.

Lemma push_outcome_shape T success iso s : entry_shape T s → entry_shape T (push_outcome config success iso s).
Proof.
  intros [H1 H2 H3 H4 H5]. split; cbn [push_outcome bs_state bs_window bs_window_isolated consecutive_failures
    half_open_probes half_open_successes probe_granted_at opened_at].
  - rewrite !length_trim_window, !length_app. simpl. lia.
  - rewrite length_trim_window. lia.
  - destruct success; [lia|]. apply Z.mod_pos_bound. lia.
  - done.
  - done.
Qed.

Lemma record_state_shape T tuning success iso now s :
  (now ≤ T)%Z → entry_shape T s → entry_shape T (record_state config tuning success iso now s).1.
Proof.
  intros Hn Hs. apply (push_outcome_shape T success iso) in Hs. unfold record_state.
  set (s1 := push_outcome config success iso s) in *. destruct Hs as [H1 H2 H3 H4 H5].
  destruct (bs_state s1) eqn:Es.
  - destruct (_ || _); (split; [exact H1|exact H2|exact H3|..]); cbn [fst trip bs_state opened_at]; rewrite ?Es;
      try discriminate; eauto.
  - by split; cbn [fst]; rewrite ?Es.
  - destruct (H4 eq_refl) as (? & ? & ?). destruct success.
    + destruct (Z.leb_spec (half_open_max_probes config) (half_open_successes (count_success s1))) as [|Hlt].
      * destruct Hconfig. split; simpl; try done; lia.
      * split; [exact H1|exact H2|exact H3| |]; simpl in *; rewrite ?Es; [|done].
        intros _. split_and!; [lia..|done].
    + split; [exact H1|exact H2|exact H3|done|simpl; eauto].
Qed.

(** Every clock reading of the operation is at most [T]. *)
Definition op_before (T : Z) (op : Op) : Prop :=
  match op with
  | Allow _ _ _ now now0 => (now ≤ T)%Z ∧ (now0 ≤ T)%Z
  | WouldAllow _ _ _ now | SweepIdle now => (now ≤ T)%Z
  | RecordOutcome _ _ _ _ now0 now => (now0 ≤ T)%Z ∧ (now ≤ T)%Z
  | ResetCredential _ => True
  end.

(** A mark is set only on evidence without overrides. *)
Lemma opened_shared_default tuning success iso now s :
  let '(st, opened) := record_state config tuning success iso now s in
  opened && open_shared st = true → iso = false.
Proof.
  unfold record_state. set (s1 := push_outcome config success iso s).
  destruct (bs_state s1); [|done|].
  - destruct (_ || _); [|done]. simpl. by destruct iso.
  - destruct success; [destruct (_ <=? _)%Z; discriminate|]. cbn [reopen open_shared andb].
    intros [_ E]%andb_prop. by apply negb_true_iff.
Qed.

Lemma isolated_tuning cred outcome : rec_isolated cred outcome = false → cred_tuning cred = None ∧ isolated cred = false.
Proof.
  unfold rec_isolated. intros [E _]%orb_false_elim. split; [|done]. unfold isolated in E. breflect.
  destruct (cred_tuning cred) as [tu|]; [|done]. exfalso. eauto.
Qed.

Lemma run_shape T ops :
  Forall (op_before T) ops →
  inv config (λ _ e, entry_shape T (en_st e)) (λ _ _ _ until, (until ≤ T + cooldown_default config)%Z) (run config ops).
Proof.
  intros Hops.
  apply (run_inv config (λ _ _ e, entry_shape T (en_st e)) (λ _ _ _ _ until, (until ≤ T + cooldown_default config)%Z)
    (op_before T)); try done.
  intros _ op Hop. destruct op as [p r cred now now0|p r cred now|p r cred outcome now0 now|now|c]; try done; simpl in Hop.
  - split; [apply new_state_shape|]. intros e He. cbn [touch en_st]. apply allow_state_shape; tauto.
  - split; [apply new_state_shape|]. intros e He _.
    pose proof (record_state_shape T (cred_tuning cred) (rec_success outcome) (rec_isolated cred outcome) now _ (proj2 Hop) He) as Hs.
    pose proof (opened_shared_default (cred_tuning cred) (rec_success outcome) (rec_isolated cred outcome) now (en_st e)) as Ho.
    destruct (record_state _ _ _ _ _ _) as [st opened]. split; [done|].
    intros [Et _]%Ho%isolated_tuning. rewrite Et. simpl. lia.
Qed.

(** C39. The breaker's bookkeeping never breaks, whatever the calls and their
    clock readings: every entry in the map is live, belongs to one key only, and
    is the only one its handles can reach; the map never exceeds [max_entries];
    windows stay within [window_size]; a half-open entry has granted between one
    and [half_open_max_probes] probes and remembers when. *)
Theorem breaker_invariant T ops :
  Forall (op_before T) ops →
  wf config (run config ops) ∧
  ∀ k l e, breakers (run config ops) !! k = Some l → heap (run config ops) !! l = Some e →
    retired e = false ∧ entry_shape T (en_st e).
Proof.
  intros Hops. pose proof (run_shape T ops Hops) as [W HE _]. split; [done|].
  intros k l e Hl He. split; [|by eapply HE]. destruct (wf_entry _ _ W _ _ Hl) as (e' & He' & ?). congruence.
Qed.

(** ** Admission *)

(** [would_allow]'s decision on an entry. *)
Lemma allow_state_would tuning now s :
  admitted (allow_state config tuning now s).1 =
  match bs_state s with
  | Closed => true
  | HalfOpen =>
      (half_open_probes s <? half_open_max_probes config)%Z ||
      match probe_granted_at s with None => true | Some t => (probe_lost config <=? since now t)%Z end
  | Open => match opened_at s with None => true | Some t => (cooldown config tuning <=? since now t)%Z end
  end.
Proof.
  unfold allow_state. destruct (bs_state s); [done| |].
  - destruct (opened_at s) as [t|]; simpl; [by destruct (_ <=? _)%Z|]. by rewrite Z.leb_refl.
  - destruct (_ <? _)%Z; [done|]. by destruct (match probe_granted_at s with Some _ => _ | None => _ end).
Qed.

(** [allow] on an entry that is in the map. *)
Lemma allow_found p r cred now now0 cb l e :
  let cb1 := (provider_open_count p r now cb).2 in
  breakers cb !! key p r cred = Some l → heap cb !! l = Some e →
  ((provider_open_count p r now cb).1 < provider_min_open_credentials config)%nat →
  (allow config p r cred now now0 cb).1 = admitted (allow_state config (cred_tuning cred) now (en_st e)).1.
Proof.
  intros cb1 Hl He Hn. unfold allow. pose proof (provider_open_count_same p r now cb) as (Eb & Eh & _).
  subst cb1. destruct (provider_open_count p r now cb) as [n cb1]. cbn [fst snd] in *.
  rewrite (proj2 (Nat.leb_gt _ _) Hn). unfold entry. rewrite Eb, Hl.
  cbn [set_cells heap]. rewrite Eh, He. by destruct (allow_state _ _ _ _).
Qed.

Lemma allow_absent p r cred now now0 cb :
  wf config cb → breakers cb !! key p r cred = None →
  ((provider_open_count p r now cb).1 < provider_min_open_credentials config)%nat →
  (allow config p r cred now now0 cb).1 = true.
Proof.
  intros W Hl Hn. unfold allow. pose proof (provider_open_count_same p r now cb) as (Eb & Eh & _).
  destruct (provider_open_count p r now cb) as [n cb1]. cbn [fst snd] in *.
  rewrite (proj2 (Nat.leb_gt _ _) Hn). unfold entry. rewrite <- Eb in Hl. rewrite Hl.
  set (cb2 := if (max_entries config <=? size (breakers cb1))%nat then _ else cb1). destruct (_ <=? size (breakers cb2))%nat; [done|].
  cbn [set_cells heap]. by rewrite lookup_insert, decide_True.
Qed.

(** Choosing a target by [would_allow] is sound: for any run and any clock
    reading it gives the decision [allow] would give, it neither grants a probe
    nor moves an entry, and it leaves nothing but expired marks removed. *)
Theorem would_allow_agrees T ops p r cred now now0 :
  Forall (op_before T) ops →
  let cb := run config ops in
  (would_allow config p r cred now cb).1 = (allow config p r cred now now0 cb).1 ∧
  same_maps (would_allow config p r cred now cb).2 cb ∧
  (∀ pr c v, marks (would_allow config p r cred now cb).2 pr c = Some v → marks cb pr c = Some v) ∧
  (∀ pr c v, marks cb pr c = Some v → (now < v.2)%Z → marks (would_allow config p r cred now cb).2 pr c = Some v).
Proof.
  intros Hops cb. pose proof (run_shape T ops Hops) as [W _ _]. fold cb in W.
  assert ((would_allow config p r cred now cb).2 = (provider_open_count p r now cb).2) as E2.
  { unfold would_allow. by destruct (provider_open_count p r now cb). }
  rewrite E2. split; [|split; [apply provider_open_count_same|split; [apply provider_open_count_marks|]]].
  - destruct (Nat.lt_ge_cases (provider_open_count p r now cb).1 (provider_min_open_credentials config)) as [Hn|Hn].
    + transitivity (from_option (λ e, admitted (allow_state config (cred_tuning cred) now (en_st e)).1) true
        (breakers cb !! key p r cred ≫= λ l, heap cb !! l)).
      * unfold would_allow. pose proof (provider_open_count_same p r now cb) as (Eb & Eh & _).
        destruct (provider_open_count p r now cb) as [n cb1]. cbn [fst snd] in *.
        rewrite (proj2 (Nat.leb_gt _ _) Hn), Eb, Eh. destruct (_ ≫= _) as [e|]; [|done].
        simpl. by rewrite allow_state_would.
      * destruct (breakers cb !! key p r cred) as [l|] eqn:Hl; cbn [mbind option_bind].
        -- destruct (wf_entry _ _ W _ _ Hl) as (e & He & _). rewrite He.
           by rewrite (allow_found _ _ _ _ _ _ _ _ Hl He Hn).
        -- by rewrite allow_absent.
    + unfold would_allow, allow. destruct (provider_open_count p r now cb) as [n cb1]. cbn [fst snd] in *.
      by rewrite (proj2 (Nat.leb_le _ _) Hn).
  - intros pr c v Hm Hv. unfold provider_open_count. destruct (open cb !! (p, r)) as [set|] eqn:E; [|done].
    cbn [snd]. rewrite marks_set_open. unfold marks in Hm. destruct (decide (pr = (p, r))) as [->|Hne].
    + rewrite lookup_insert, decide_True by done. rewrite E in Hm. cbn [mbind option_bind] in *.
      by apply lookup_unexpired.
    + by rewrite lookup_insert_ne.
Qed.

(** Marks that have expired do not count. *)
Lemma provider_open_count_zero p r now cb :
  (∀ c v, marks cb (p, r) c = Some v → (v.2 ≤ now)%Z) → (provider_open_count p r now cb).1 = 0%nat.
Proof.
  intros Hexp. unfold provider_open_count. destruct (open cb !! (p, r)) as [set|] eqn:E; [|done]. cbn [fst].
  assert (unexpired now set = ∅) as ->; [|done].
  apply map_empty. intros c. destruct (unexpired now set !! c) as [v|] eqn:Ec; [|done].
  apply lookup_unexpired in Ec as [Ec Hlt]. specialize (Hexp c v). unfold marks in Hexp. rewrite E in Hexp.
  specialize (Hexp Ec). lia.
Qed.

(** C14. The breaker cannot wedge: after any run whose clock readings are at most
    [T], whatever outcomes were recorded, lost or never reported, and however many
    tenants tripped, a call is admitted from the time
    [T + max (cooldown, the workspace's cooldown, probe_lost)] on. *)
Theorem breaker_never_wedges T ops p r cred now now0 :
  Forall (op_before T) ops →
  (T + Z.max (cooldown_default config) (Z.max (cooldown config (cred_tuning cred)) (probe_lost config)) ≤ now)%Z →
  (allow config p r cred now now0 (run config ops)).1 = true.
Proof.
  intros Hops Hnow. pose proof (run_shape T ops Hops) as [W HE HO]. set (cb := run config ops) in *.
  assert ((provider_open_count p r now cb).1 < provider_min_open_credentials config)%nat as Hn.
  { rewrite provider_open_count_zero; [destruct Hconfig; lia|]. intros c [o u] Hm%HO. simpl. lia. }
  destruct (breakers cb !! key p r cred) as [l|] eqn:Hl; [|by apply allow_absent].
  destruct (wf_entry _ _ W _ _ Hl) as (e & He & _). specialize (HE _ _ _ Hl He).
  rewrite (allow_found _ _ _ _ _ _ _ _ Hl He Hn), allow_state_would.
  destruct (bs_state (en_st e)) eqn:Es; [done| |].
  - destruct (es_open _ _ HE Es) as (t & -> & Ht). apply Z.leb_le. unfold since. lia.
  - destruct (es_half_open _ _ HE Es) as (_ & _ & t & -> & Ht). apply orb_true_intro. right.
    apply Z.leb_le. unfold since. lia.
Qed.

(** ** Evidence *)

(** A window without a failure is below any threshold that [parse_table] accepts. *)
Lemma no_failures_rate s :
  Forall (λ ok, ok = true) (bs_window s) → f64_ge (failure_rate s) (failure_rate_threshold config) = false.
Proof.
  intros Hall. destruct Hconfig as [_ Hr _ _ _ _]. unfold failure_rate.
  assert (filter (λ ok, ok = false) (bs_window s) = []) as Ef.
  { induction Hall as [|ok w -> _ IH]; [done|]. by rewrite filter_cons. }
  assert (∀ y, f64_ge (f64_div (f64_of 0) y) (failure_rate_threshold config) = false) as Hz.
  { intros y. unfold f64_ge, f64_div. change (f64_of 0) with (S754_zero false) in *.
    destruct (failure_rate_threshold config) as [[]|[]| |[] m ex], y as [[]|[]| |[] m2 e2]; done. }
  destruct (bs_window s) as [|w0 w]; [|rewrite Ef; apply Hz].
  change (f64_of 0) with (S754_zero false) in *. unfold f64_ge.
  by destruct (failure_rate_threshold config) as [[]|[]| |[] m ex].
Qed.

Lemma rate_has_failure s :
  f64_ge (failure_rate s) (failure_rate_threshold config) = true → false ∈ bs_window s.
Proof.
  intros E. destruct (decide (false ∈ bs_window s)) as [|Hn]; [done|]. exfalso.
  rewrite no_failures_rate in E; [done|]. apply Forall_forall. intros [] Hin; done.
Qed.

(** What an entry's state proves about the outcomes recorded on it: [F] that a
    failure was recorded, [U] that an upstream fault was, without an override. *)
Record evidence (F U : Prop) s : Prop := {
  ev_len : length (bs_window s) = length (bs_window_isolated s);
  ev_clean : F ∨ (bs_state s = Closed ∧ consecutive_failures s = 0%Z ∧ Forall (λ ok, ok = true) (bs_window s));
  ev_window : (false, false) ∈ zip (bs_window s) (bs_window_isolated s) → U;
  ev_streak : consecutive_failures s ≠ 0%Z → streak_isolated s = false → U;
  ev_shared : open_shared s = true → U;
}.

Lemma new_state_evidence F U : evidence F U new_state.
Proof. split; simpl; try done. - right. split_and!; [done..|constructor]. - intros Hin. by apply not_elem_of_nil in Hin. Qed.

Lemma allow_state_evidence F U tuning now s :
  evidence F U s → evidence F U (allow_state config tuning now s).2.
Proof.
  intros [H1 H2 H3 H4 H5]. unfold allow_state. destruct (bs_state s) eqn:Es.
  - split; cbn [snd]; rewrite ?Es; done.
  - destruct H2 as [HF|(? & _)]; [|done]. destruct (_ <=? _)%Z; split; cbn [snd]; rewrite ?Es; try done; by left.
  - destruct H2 as [HF|(? & _)]; [|done].
    destruct (_ <? _)%Z; [|destruct (match probe_granted_at s with Some _ => _ | None => _ end)];
      split; cbn [snd]; rewrite ?Es; try done; by left.
Qed.

Lemma push_outcome_evidence F U success iso s :
  (success = false → F) → (success = false → iso = false → U) →
  evidence F U s → evidence F U (push_outcome config success iso s).
Proof.
  intros HF HU [H1 H2 H3 H4 H5].
  assert (length (bs_window s ++ [success]) = length (bs_window_isolated s ++ [iso])) as El
    by (rewrite !length_app; simpl; lia).
  split; cbn [push_outcome bs_state bs_window bs_window_isolated consecutive_failures streak_isolated open_shared].
  - rewrite !length_trim_window. lia.
  - destruct H2 as [?|(? & ? & Hw)]; [by left|]. destruct success; [|left; auto]. right. split_and!; [done..|].
    unfold trim_window. apply Forall_drop, Forall_app. split; [done|]. by constructor.
  - unfold trim_window. rewrite <- El, <- zip_with_drop. intros Hin%subseteq_drop.
    rewrite zip_with_app in Hin by done. apply elem_of_app in Hin as [Hin|Hin]; [auto|].
    apply list_elem_of_singleton in Hin. injection Hin as <- <-. auto.
  - destruct success; [done|]. intros _ [Hs Hi]%orb_false_elim. auto.
  - done.
Qed.

Lemma record_state_evidence F U tuning success iso now s :
  tuning_ok tuning → (success = false → F) → (success = false → iso = false → U) → evidence F U s →
  let '(st, opened) := record_state config tuning success iso now s in
  evidence F U st ∧ (opened && open_shared st = true → U).
Proof.
  intros Htune HF HU Hs. apply (push_outcome_evidence F U success iso) in Hs; [|done..]. unfold record_state.
  set (s1 := push_outcome config success iso s) in *. pose proof Hs as [H1 H2 H3 H4 H5].
  pose proof (threshold_pos tuning Htune) as Hthr.
  destruct (bs_state s1) eqn:Es; [| |].
  - set (by_streak := (_ <=? consecutive_failures s1)%Z). set (by_rate := _ && f64_ge _ _).
    destruct (by_streak || by_rate) eqn:Etrip; [|done].
    assert (by_rate = true → false ∈ bs_window s1) as Hrate.
    { intros [_ Hr]%andb_prop. by apply rate_has_failure. }
    assert (F ∧ (negb iso && (by_streak && negb (streak_isolated s1) || by_rate &&
      negb (existsb (λ '(ok, iso), negb ok && iso) (zip (bs_window s1) (bs_window_isolated s1)))) = true → U)) as [HFt HUt].
    { split.
      - destruct H2 as [?|(_ & E0 & Hall)]; [done|]. exfalso. apply orb_prop in Etrip as [E|E].
        + apply Z.leb_le in E. lia.
        + apply Hrate in E. rewrite Forall_forall in Hall. by specialize (Hall _ E).
      - intros [_ E]%andb_prop. apply orb_prop in E as [[Eb En]%andb_prop|[Er En]%andb_prop].
        + apply H4; [apply Z.leb_le in Eb; lia|by apply negb_true_iff].
        + apply H3. apply Hrate, list_elem_of_lookup in Er as [i Hi].
          destruct (lookup_lt_is_Some_2 (bs_window_isolated s1) i) as [b Hb].
          { apply lookup_lt_Some in Hi. lia. }
          assert ((false, b) ∈ zip (bs_window s1) (bs_window_isolated s1)) as Hin.
          { apply list_elem_of_lookup. exists i. apply lookup_zip_with_Some. eauto. }
          destruct b; [|done]. apply negb_true_iff in En. exfalso.
          assert (existsb (λ '(ok, iso), negb ok && iso) (zip (bs_window s1) (bs_window_isolated s1)) = true)
            by (apply existsb_exists; exists (false, true); by rewrite <- list_elem_of_In). congruence. }
    split; [|exact HUt]. split; [done|by left|done|done|exact HUt].
  - split; [done|]. done.
  - destruct H2 as [HFF|[? _]]; [|done]. destruct success.
    + destruct (_ <=? _)%Z; (split; [|done]).
      * split; simpl; try done; [by left|]. intros Hin. by apply not_elem_of_nil in Hin.
      * split; simpl; try done. by left.
    + cbn [reopen open_shared andb]. split; [|intros [? ?]%andb_prop; auto].
      split; cbn [reopen bs_state bs_window bs_window_isolated consecutive_failures streak_isolated open_shared];
        [done|by left|done|done|intros [? ?]%andb_prop; auto].
Qed.

(** A failure recorded on the key. *)
Definition fault_on (k : Key) (op : Op) : Prop :=
  match op with
  | RecordOutcome p r cred outcome _ _ => outcome ≠ Success ∧ key p r cred = k
  | _ => False
  end.

(** The owner an upstream fault without overrides speaks for, on one provider and
    region. *)
Definition blamed_owner (p r : bytes) (op : Op) : option (option OwnerTag) :=
  match op with
  | RecordOutcome p' r' cred UpstreamFault _ _ =>
      if decide (p' = p ∧ r' = r ∧ isolated cred = false) then Some (fst <$> cred_owner cred) else None
  | _ => None
  end.

Definition blamed (p r : bytes) (ops : list Op) : gset (option OwnerTag) :=
  list_to_set (omap (blamed_owner p r) ops).

Definition upstream_on (k : Key) (op : Op) : Prop :=
  match op with
  | RecordOutcome p r cred UpstreamFault _ _ => isolated cred = false ∧ key p r cred = k
  | _ => False
  end.

(** Overrides are clamped, and a credential has one owner ([own]). *)
Definition op_good (own : Credential → option OwnerTag) (op : Op) : Prop :=
  match op with
  | RecordOutcome _ _ cred _ _ _ => tuning_ok (cred_tuning cred) ∧ fst <$> cred_owner cred = own (cred_id cred)
  | _ => True
  end.

Lemma run_evidence own ops :
  Forall (op_good own) ops →
  inv config (λ k e, evidence (Exists (fault_on k) ops) (Exists (upstream_on k) ops) (en_st e))
    (λ pr c owner _, Exists (upstream_on (pr, c)) ops ∧ owner = own c) (run config ops).
Proof.
  intros Hops.
  assert (∀ (P : Op → Prop) ops op, Exists P ops → Exists P (ops ++ [op])) as Hmono
    by (intros P l op Hl; apply Exists_app; by left).
  apply (run_inv config (λ ops k e, evidence (Exists (fault_on k) ops) (Exists (upstream_on k) ops) (en_st e))
    (λ ops pr c owner _, Exists (upstream_on (pr, c)) ops ∧ owner = own c) (op_good own)); try done.
  - intros l op k e [H1 H2 H3 H4 H5]. split; [done|destruct H2; [left|right]; auto|auto..].
  - intros l op pr c o u [? ?]. auto.
  - clear Hops ops. intros ops op Hop. destruct op as [p r cred now now0| |p r cred outcome now0 now| |]; try done.
    + split; [apply new_state_evidence|]. intros e He. cbn [touch en_st]. by apply allow_state_evidence.
    + destruct Hop as [Htune Hown]. split; [apply new_state_evidence|]. intros e He _.
      set (op := RecordOutcome p r cred outcome now0 now) in *.
      assert (Exists (fault_on (key p r cred)) (ops ++ [op]) ∨ rec_success outcome = true) as HF.
      { destruct (decide (outcome = Success)) as [->|Hn]; [by right|]. left.
        apply Exists_app. right. by apply Exists_cons; left. }
      pose proof (record_state_evidence (Exists (fault_on (key p r cred)) (ops ++ [op]))
        (Exists (upstream_on (key p r cred)) (ops ++ [op])) (cred_tuning cred) (rec_success outcome)
        (rec_isolated cred outcome) now (en_st e) Htune) as Hev.
      destruct (record_state _ _ _ _ _ _) as [st opened]. destruct Hev as [Hst Hopen].
      * intros E. destruct HF; [done|congruence].
      * intros E [Ei Ec]%orb_false_elim. apply Exists_app. right. apply Exists_cons. left.
        unfold rec_success in E. apply bool_decide_eq_false in E, Ec. subst op. by destruct outcome.
      * done.
      * split; [done|]. intros Ho. split; [by apply Hopen|done].
Qed.

Lemma upstream_blamed own p r c ops :
  Forall (op_good own) ops → Exists (upstream_on (p, r, c)) ops → own c ∈ blamed p r ops.
Proof.
  intros Hops Hex. apply elem_of_list_to_set, list_elem_of_omap. apply Exists_exists in Hex as (op & Hin & Hop).
  exists op. split; [done|]. rewrite Forall_forall in Hops. specialize (Hops op Hin).
  destruct op as [| |p' r' cred outcome now0 now| |]; try done. destruct outcome; try done.
  destruct Hop as [Hi [= <- <- <-]]. destruct Hops as [_ Ho]. simpl. rewrite decide_True by done. by rewrite Ho.
Qed.

(** C13. Tenants are isolated.  The provider-wide tier counts at most the owners
    whose own credentials have recorded an upstream fault under default settings
    for that provider and region: credential faults, workspace deadlines and
    workspace tunings never count, and several credentials of one owner count
    once.  So as long as those owners are fewer than
    [provider_min_open_credentials], a credential on which no failure was recorded
    is admitted, whatever the other tenants do. *)
Theorem few_owners_cannot_refuse_others own ops p r cred now now0 :
  Forall (op_good own) ops →
  ((provider_open_count p r now (run config ops)).1 ≤ size (blamed p r ops))%nat ∧
  ((size (blamed p r ops) < provider_min_open_credentials config)%nat →
   ¬ Exists (fault_on (key p r cred)) ops →
   (allow config p r cred now now0 (run config ops)).1 = true).
Proof.
  intros Hops. pose proof (run_evidence own ops Hops) as [W HE HO]. set (cb := run config ops) in *.
  assert ((provider_open_count p r now cb).1 ≤ size (blamed p r ops))%nat as Hcount.
  { unfold provider_open_count. destruct (open cb !! (p, r)) as [set|] eqn:Eo; [|simpl; lia]. cbn [fst].
    apply subseteq_size. intros o. unfold distinct_owners. rewrite elem_of_list_to_set.
    intros ([c [owner until]] & -> & Hin)%list_elem_of_fmap. apply elem_of_map_to_list, lookup_unexpired in Hin as [Hin _].
    assert (marks cb (p, r) c = Some (owner, until)) as Hm by (unfold marks; by rewrite Eo).
    apply HO in Hm as [Hu ->]. by apply upstream_blamed. }
  split; [done|]. intros Hfew Hnone.
  destruct (breakers cb !! key p r cred) as [l|] eqn:Hl; [|apply allow_absent; [done|done|lia]].
  destruct (wf_entry _ _ W _ _ Hl) as (e & He & _). specialize (HE _ _ _ Hl He).
  rewrite (allow_found _ _ _ _ _ _ _ _ Hl He) by lia. rewrite allow_state_would.
  destruct (ev_clean _ _ _ HE) as [?|[-> _]]; done.
Qed.

(** ** Outcomes that arrive late *)

Lemma run_wf ops : wf config (run config ops).
Proof.
  eapply (inv_wf config (λ _ _, True) (λ _ _ _ _, True)).
  apply (run_inv config (λ _ _ _, True) (λ _ _ _ _ _, True) (λ _, True)); try done.
  - intros _ op _. destruct op; try done. simpl. split; [done|]. intros e _ _. by destruct (record_state _ _ _ _ _ _).
  - by apply Forall_forall.
Qed.

(** An address whose entry has left the map. *)
Definition dead (l : nat) cb : Prop := (l < next_addr cb)%nat ∧ ∀ e, heap cb !! l = Some e → retired e = true.

Lemma dead_same l cb cb' : same_maps cb' cb → dead l cb → dead l cb'.
Proof. intros (_ & Eh & En & _). unfold dead. by rewrite Eh, En. Qed.

Lemma dead_retain l gone cb : dead l cb → dead l (retain_entries gone cb).
Proof.
  intros [Hl Hd]. destruct (retain_entries_spec gone cb) as (_ & Eh & En & _). split; [by rewrite En|].
  rewrite Eh. intros e [[He _]|[_ ?]]%lookup_foldr_retire; auto.
Qed.

Lemma dead_entry l k cred now cb : dead l cb → dead l (entry config k cred now cb).2.
Proof.
  intros Hd. unfold entry. destruct (breakers cb !! k); [done|].
  set (cb1 := if (max_entries config <=? size (breakers cb))%nat then _ else cb).
  assert (dead l cb1) as [Hl1 Hd1].
  { subst cb1. destruct (_ <=? _)%nat; [|done]. unfold sweep_idle_locked. cbn [snd].
    apply (dead_retain l (λ _ e, evictable config e now)) in Hd. exact Hd. }
  clearbody cb1. destruct (_ <=? _)%nat; [exact (conj Hl1 Hd1)|]. split; cbn [snd next_addr heap]; [lia|].
  rewrite lookup_insert_ne by lia. done.
Qed.

Lemma dead_with_entry l l' e cb : dead l cb → l' ≠ l → dead l (with_entry l' e cb).
Proof. intros [Hl Hd] Hne. split; [done|]. cbn [with_entry set_maps heap]. by rewrite lookup_insert_ne. Qed.

Lemma dead_not_mapped l k cb : wf config cb → dead l cb → breakers cb !! k ≠ Some l.
Proof. intros W [_ Hd] Hk. destruct (wf_entry _ _ W _ _ Hk) as (e & He & ?). specialize (Hd e He). congruence. Qed.

Lemma dead_allow l p r cred now now0 cb : wf config cb → dead l cb → dead l (allow config p r cred now now0 cb).2.
Proof.
  intros W Hd. unfold allow. pose proof (provider_open_count_same p r now cb) as Hs.
  assert (inv config (λ _ _, True) (λ _ _ _ _, True) cb) as Hi by (by split).
  pose proof (inv_same config _ _ cb _ Hs (provider_open_count_marks p r now cb) Hi) as Hi1.
  apply (dead_same l _ _ Hs) in Hd. destruct (provider_open_count p r now cb) as [n cb1]. cbn [snd] in *.
  destruct (_ <=? n)%nat; [done|].
  destruct (inv_entry_op config _ _ (key p r cred) cred now0 cb1 Hi1 I) as [Hi2 Hk].
  apply (dead_entry l (key p r cred) cred now0) in Hd. destruct (entry _ _ _ _ cb1) as [[l'|] cb2]; [|done].
  cbn [fst snd] in *. specialize (Hk l' eq_refl).
  assert (l' ≠ l) as Hne by (intros ->; by apply (dead_not_mapped l (key p r cred) cb2) in Hd; [|apply Hi2]).
  cbn [set_cells heap]. destruct (heap cb2 !! l') as [e|]; [|done].
  destruct (allow_state _ _ _ _) as [d st]. cbn [snd].
  set (cb3 := with_entry l' _ _). assert (dead l cb3) as Hd3 by (by apply dead_with_entry).
  destruct d; try done. apply (dead_same l cb3); [apply unmark_open_same|done].
Qed.

Lemma dead_record l p r cred outcome now0 now cb :
  dead l cb → dead l (record config p r cred outcome now0 now cb).
Proof.
  intros Hd. unfold record. destruct (_ && _ && _); [done|].
  assert (dead l (record_cell config (key p r cred) cred now0 cb).2) as Hd2.
  { unfold record_cell. destruct (cells cb !! _) as [[k' l']|]; [|by apply dead_entry].
    destruct (decide (k' = _)); [done|by apply dead_entry]. }
  destruct (record_cell _ _ _ _ _) as [[l'|] cb2]; [|done]. cbn [snd] in Hd2.
  destruct (heap cb2 !! l') as [e|] eqn:He; [|done]. destruct (retired e) eqn:Hr; [done|].
  assert (l' ≠ l) as Hne by (intros ->; destruct Hd2 as [_ Hd2]; specialize (Hd2 e He); congruence).
  destruct (record_state _ _ _ _ _ _) as [st opened].
  assert (dead l (with_entry l' (record_entry now cred st e) cb2)) as Hd3 by (by apply dead_with_entry).
  by destruct opened, (open_shared st).
Qed.

Lemma dead_step l cb op : wf config cb → dead l cb → dead l (step config cb op).
Proof.
  intros W Hd. destruct op; cbn [step].
  - by apply dead_allow.
  - unfold would_allow. pose proof (provider_open_count_same p r now cb) as Hs.
    apply (dead_same l _ _ Hs) in Hd. by destruct (provider_open_count p r now cb).
  - by apply dead_record.
  - by apply (dead_retain l (λ _ e, evictable config e now)) in Hd.
  - by apply dead_retain.
Qed.

(** Only [allow] through the same handle rewrites a handle's cell. *)
Definition uses_cell (h : nat) (op : Op) : Prop :=
  match op with Allow _ _ cred _ _ => observed cred = h | _ => False end.

Lemma entry_cells k cred now cb : cells (entry config k cred now cb).2 = cells cb.
Proof.
  unfold entry. destruct (breakers cb !! k); [done|].
  assert (cells (sweep_idle_locked config now cb).2 = cells cb) as Es.
  { unfold sweep_idle_locked. cbn [snd set_open cells].
    by destruct (retain_entries_spec (λ _ e, evictable config e now) cb) as (_ & _ & _ & -> & _). }
  destruct (max_entries config <=? size (breakers cb))%nat; by destruct (_ <=? _)%nat.
Qed.

Lemma step_cells h cb op : ¬ uses_cell h op → cells (step config cb op) !! h = cells cb !! h.
Proof.
  intros Hn. destruct op as [p r cred now now0|p r cred now|p r cred outcome now0 now|now|c]; cbn [step].
  - unfold allow. pose proof (provider_open_count_same p r now cb) as (_ & _ & _ & Ec).
    destruct (provider_open_count p r now cb) as [n cb1]. cbn [snd] in Ec. rewrite <- Ec.
    destruct (_ <=? n)%nat; [done|]. pose proof (entry_cells (key p r cred) cred now0 cb1) as Ee.
    destruct (entry _ _ _ _ cb1) as [[l|] cb2]; cbn [snd] in *; [|by rewrite Ee].
    assert (cells (set_cells (<[observed cred := (key p r cred, l)]> (cells cb2)) cb2) !! h = cells cb1 !! h) as Eh.
    { cbn [set_cells cells]. rewrite lookup_insert_ne by done. by rewrite Ee. }
    set (cb3 := set_cells _ cb2) in *. destruct (heap cb3 !! l) as [e|]; [|done].
    destruct (allow_state _ _ _ _) as [d st]. cbn [snd]. destruct d; try done.
    set (cb4 := with_entry _ _ cb3). pose proof (unmark_open_same p r (cred_id cred) cb4) as (_ & _ & _ & Eu).
    by rewrite Eu.
  - unfold would_allow. pose proof (provider_open_count_same p r now cb) as (_ & _ & _ & Ec).
    destruct (provider_open_count p r now cb) as [n cb1]. cbn [snd] in *. by rewrite Ec.
  - unfold record. destruct (_ && _ && _); [done|].
    assert (cells (record_cell config (key p r cred) cred now0 cb).2 = cells cb) as Ec.
    { unfold record_cell. destruct (cells cb !! observed cred) as [[k' l']|]; [|by apply entry_cells].
      destruct (decide (k' = _)); [done|by apply entry_cells]. }
    destruct (record_cell _ _ _ _ _) as [[l'|] cb2]; cbn [snd] in Ec; [|by rewrite Ec].
    rewrite <- Ec. destruct (heap cb2 !! l') as [e|]; [|done]. destruct (retired e); [done|].
    destruct (record_state _ _ _ _ _ _) as [st opened]. by destruct opened, (open_shared st).
  - unfold sweep_idle_locked. cbn [snd set_open cells].
    by destruct (retain_entries_spec (λ _ e, evictable config e now) cb) as (_ & _ & _ & -> & _).
  - unfold reset_credential. by destruct (retain_entries_spec (λ k _, bool_decide (k.2 = c)) cb) as (_ & _ & _ & -> & _).
Qed.

(** A reset retires every entry of the credential, in the map or in a handle. *)
Lemma reset_dead c cb h p r l :
  wf config cb → cells cb !! h = Some ((p, r, c), l) → dead l (reset_credential c cb).
Proof.
  intros W Hc. unfold reset_credential.
  destruct (retain_entries_spec (λ k _, bool_decide (k.2 = c)) cb) as (Eb & Eh & En & _ & _).
  set (gone := λ (k : Key) (_ : Entry), bool_decide (k.2 = c)) in *.
  destruct (wf_cell _ _ W _ _ _ Hc) as [Hl Hk]. split; [by rewrite En|]. rewrite Eh.
  intros e [[He Hn]|[_ ?]]%lookup_foldr_retire; [|done].
  destruct (retired e) eqn:Hr; [done|]. exfalso. destruct (wf_live _ _ W _ _ He Hr) as [k Hmap].
  apply Hn, list_elem_of_fmap. exists (k, l). split; [done|]. apply elem_of_map_to_list.
  unfold doomed. apply map_lookup_filter_Some. split; [done|]. cbn [fst snd]. rewrite He. simpl.
  subst gone. simpl. apply bool_decide_true. by rewrite (Hk k Hmap).
Qed.

Lemma run_app ops1 ops2 : run config (ops1 ++ ops2) = fold_left (step config) ops2 (run config ops1).
Proof. unfold run. apply fold_left_app. Qed.

(** A reset forgets the old key's outcomes for good: a call admitted through
    a handle before the reset, and reported at any time after it, changes nothing
    at all, whatever happened in between (the same credential used again, its new
    entry tripped, the map swept), as long as the handle was not used for another
    admission. *)
Theorem late_outcome_is_ignored ops1 ops2 p r cred outcome now0 now l :
  cells (run config ops1) !! observed cred = Some (key p r cred, l) →
  Forall (λ op, ¬ uses_cell (observed cred) op) ops2 →
  let cb := run config (ops1 ++ ResetCredential (cred_id cred) :: ops2) in
  record config p r cred outcome now0 now cb = cb.
Proof.
  intros Hc Hops2 cb.
  assert (dead l cb ∧ cells cb !! observed cred = Some (key p r cred, l)) as [[_ Hd] Hcell].
  { subst cb. rewrite (cons_middle _ ops1 ops2).
    induction ops2 as [|op ops2 IH] using rev_ind.
    - rewrite (right_id_L [] (++)), run_snoc. cbn [step].
      split; [eapply reset_dead; [apply run_wf|exact Hc]|].
      rewrite <- Hc. change (reset_credential (cred_id cred) (run config ops1))
        with (step config (run config ops1) (ResetCredential (cred_id cred))). apply step_cells. intros Hu. exact Hu.
    - apply Forall_app in Hops2 as [H2 Hop]. apply Forall_cons in Hop as [Hop _].
      destruct (IH H2) as [Hd Hcell]. rewrite (assoc_L (++)), (assoc_L (++)), run_snoc. rewrite <- (assoc_L (++)).
      split; [apply dead_step; [apply run_wf|done]|]. by rewrite step_cells. }
  unfold record. destruct (_ && _ && _); [done|]. unfold record_cell. rewrite Hcell, decide_True by done.
  destruct (decide (is_Some (heap cb !! l))) as [[e He]|]; [|done]. by rewrite He, (Hd e He).
Qed.

(** ** Tripping *)

(** Failures on an open breaker leave it open, with its opening time. *)
Lemma record_open_stays tuning success iso now s :
  bs_state s = Open →
  bs_state (record_state config tuning success iso now s).1 = Open ∧
  opened_at (record_state config tuning success iso now s).1 = opened_at s.
Proof. intros Es. unfold record_state. cbn [push_outcome bs_state]. by rewrite Es. Qed.

Definition failures (tuning : option Tuning) (iso : bool) (ts : list Z) s : BreakerState :=
  fold_left (λ s t, (record_state config tuning false iso t s).1) ts s.

Lemma failures_open tuning iso ts s :
  bs_state s = Open →
  bs_state (failures tuning iso ts s) = Open ∧ opened_at (failures tuning iso ts s) = opened_at s.
Proof.
  revert s. induction ts as [|t ts IH]; intros s Es; [done|]. cbn [failures fold_left].
  destruct (record_open_stays tuning false iso t s Es) as [Es' <-]. by apply IH.
Qed.

Lemma failures_trip tuning iso ts s :
  bs_state s = Closed → (0 ≤ consecutive_failures s)%Z → (consecutive_failures s + lenZ ts < 2 ^ 32)%Z →
  (consecutive_threshold config tuning ≤ consecutive_failures s + lenZ ts)%Z → ts ≠ [] →
  bs_state (failures tuning iso ts s) = Open ∧ ∃ t, t ∈ ts ∧ opened_at (failures tuning iso ts s) = Some t.
Proof.
  revert s. induction ts as [|t ts IH]; intros s Es Hpos Hsmall Hthr Hne; [done|].
  cbn [failures fold_left]. set (s' := (record_state config tuning false iso t s).1).
  unfold lenZ in Hsmall, Hthr. cbn [length] in Hsmall, Hthr.
  assert ((consecutive_failures s + 1) mod 2 ^ 32 = consecutive_failures s + 1)%Z as Em by (apply Z.mod_small; lia).
  assert ((bs_state s' = Open ∧ opened_at s' = Some t) ∨
    (bs_state s' = Closed ∧ consecutive_failures s' = consecutive_failures s + 1 ∧
     consecutive_failures s + 1 < consecutive_threshold config tuning)%Z) as [[Eo Et]|(Ec & Ecf & Hlt)].
  { subst s'. unfold record_state. cbn [push_outcome bs_state consecutive_failures]. rewrite Es, Em.
    destruct (Z.leb_spec (consecutive_threshold config tuning) (consecutive_failures s + 1)).
    - left. done.
    - cbn [orb]. destruct (_ && f64_ge _ _); [by left|]. right. cbn [fst push_outcome bs_state consecutive_failures].
      by rewrite Em. }
  - destruct (failures_open tuning iso ts s' Eo) as [Ef Eof]. unfold failures in Ef, Eof. split; [done|].
    exists t. split; [left|]. by rewrite Eof.
  - destruct ts as [|t2 ts]; [simpl in Hthr; lia|].
    destruct (IH s' Ec) as [Ho (t' & Hin & Et')]; [lia|unfold lenZ; lia|unfold lenZ; lia|done|].
    split; [done|]. exists t'. split; [by right|done].
Qed.

(** [record] through a handle whose entry is in the map. *)
Lemma record_found p r cred outcome now0 now cb l e :
  cells cb !! observed cred = Some (key p r cred, l) → heap cb !! l = Some e → retired e = false →
  rec_isolated cred outcome && negb (rec_success outcome) && bool_decide (cred_owner cred = None) = false →
  let cb' := record config p r cred outcome now0 now cb in
  cells cb' = cells cb ∧ breakers cb' = breakers cb ∧
  ∃ e', heap cb' !! l = Some e' ∧ retired e' = false ∧
    en_st e' = (record_state config (cred_tuning cred) (rec_success outcome) (rec_isolated cred outcome) now (en_st e)).1.
Proof.
  intros Hc He Hr Hg. unfold record. fold (rec_success outcome). fold (rec_isolated cred outcome). rewrite Hg.
  unfold record_cell. rewrite Hc, decide_True by done. rewrite decide_True by (by eexists). rewrite He, Hr.
  destruct (record_state _ _ _ _ _ _) as [st opened]. cbn [fst].
  assert (<[l := record_entry now cred st e]> (heap cb) !! l = Some (record_entry now cred st e)) as El
    by (by rewrite lookup_insert, decide_True).
  destruct opened, (open_shared st); cbv zeta; (split; [done|]); (split; [done|]);
    exists (record_entry now cred st e); split_and!; try done; exact El.
Qed.

Definition records p r cred outcome (ts : list Z) cb : CircuitBreaker :=
  fold_left (λ cb t, record config p r cred outcome t t cb) ts cb.

Lemma records_found p r cred outcome ts cb l e :
  outcome ≠ Success →
  cells cb !! observed cred = Some (key p r cred, l) → heap cb !! l = Some e → retired e = false →
  rec_isolated cred outcome && bool_decide (cred_owner cred = None) = false →
  let cb' := records p r cred outcome ts cb in
  breakers cb' = breakers cb ∧ ∃ e', heap cb' !! l = Some e' ∧
    en_st e' = failures (cred_tuning cred) (rec_isolated cred outcome) ts (en_st e).
Proof.
  intros Hf. assert (rec_success outcome = false) as Es by (by apply bool_decide_eq_false).
  revert cb e. induction ts as [|t ts IH]; intros cb e Hc He Hr Hg; [simpl; eauto|].
  cbn [records failures fold_left].
  destruct (record_found p r cred outcome t t cb l e Hc He Hr) as (Ec & Eb & e' & He' & Hr' & Est).
  { by rewrite Es, andb_true_r. }
  rewrite Es in Est. rewrite <- Est, <- Eb. apply IH; [by rewrite Ec|done..].
Qed.

(** The breaker opens: on a closed credential, as many failures in a row as
    its threshold (the workspace's, if it set one), recorded through an admitted
    handle, refuse the next call of that credential for a cool-down after the
    first of them. *)
Theorem consecutive_faults_refuse ops p r cred outcome ts now now0 l e :
  let cb := run config ops in
  cells cb !! observed cred = Some (key p r cred, l) → breakers cb !! key p r cred = Some l →
  heap cb !! l = Some e → bs_state (en_st e) = Closed → (0 ≤ consecutive_failures (en_st e))%Z →
  (consecutive_failures (en_st e) + lenZ ts < 2 ^ 32)%Z → tuning_ok (cred_tuning cred) →
  outcome ≠ Success → rec_isolated cred outcome && bool_decide (cred_owner cred = None) = false →
  lenZ ts = consecutive_threshold config (cred_tuning cred) →
  Forall (λ t, since now t < cooldown config (cred_tuning cred))%Z ts →
  (allow config p r cred now now0 (records p r cred outcome ts cb)).1 = false.
Proof.
  intros cb Hc Hl He Es Hpos Hsmall Htune Hf Hg Hlen Hts. pose proof (threshold_pos _ Htune) as Hthr.
  destruct (wf_entry _ _ (run_wf ops) _ _ Hl) as (e0 & He0 & Hr). assert (e0 = e) as -> by (subst cb; congruence).
  destruct (records_found p r cred outcome ts cb l e Hf Hc He Hr Hg) as (Eb & e' & He' & Est).
  destruct (failures_trip (cred_tuning cred) (rec_isolated cred outcome) ts (en_st e)) as [Eo (t & Hin & Et)]; try done; try lia.
  { intros ->. unfold lenZ in Hlen. simpl in Hlen. lia. }
  set (cb' := records _ _ _ _ _ cb) in *.
  destruct (Nat.lt_ge_cases (provider_open_count p r now cb').1 (provider_min_open_credentials config)) as [Hn|Hn].
  - rewrite (allow_found p r cred now now0 cb' l e') by (rewrite ?Eb; done). rewrite allow_state_would, Est, Eo, Et.
    apply Z.leb_gt. by eapply Forall_forall in Hts.
  - unfold allow. destruct (provider_open_count p r now cb') as [n cb1]. cbn [fst] in Hn.
    by rewrite (proj2 (Nat.leb_le _ _) Hn).
Qed.

(** ** The probe budget *)

(** The decisions of successive calls of [allow] on one entry. *)
Fixpoint admissions (tuning : option Tuning) (ts : list Z) s : list bool * BreakerState :=
  match ts with
  | [] => ([], s)
  | t :: ts' =>
      let '(d, s') := allow_state config tuning t s in
      let '(ds, s'') := admissions tuning ts' s' in
      (admitted d :: ds, s'')
  end.

Lemma half_open_admissions tuning ts s t0 :
  bs_state s = HalfOpen → (0 ≤ half_open_probes s ≤ half_open_max_probes config)%Z →
  (∃ t, probe_granted_at s = Some t ∧ (t0 ≤ t)%Z) →
  Forall (λ t, t0 ≤ t < t0 + probe_lost config)%Z ts → (0 < probe_lost config)%Z →
  let '(ds, s') := admissions tuning ts s in
  lenZ (filter (λ d, d = true) ds) = Z.min (lenZ ts) (half_open_max_probes config - half_open_probes s) ∧
  bs_state s' = HalfOpen ∧ half_open_successes s' = half_open_successes s.
Proof.
  intros Es Hp Hg Hts Hl. revert s Es Hp Hg. induction Hts as [|t ts Ht Hts IH]; intros s Es Hp Hg.
  { cbn [admissions]. unfold lenZ. simpl. split_and!; [lia|done..]. }
  cbn [admissions]. unfold allow_state. rewrite Es. destruct Hg as (tg & Eg & Htg). rewrite Eg.
  destruct (Z.ltb_spec (half_open_probes s) (half_open_max_probes config)) as [Hlt|Hge].
  - set (s1 := grant_probe t (half_open_probes s + 1) s).
    specialize (IH s1). destruct (admissions tuning ts s1) as [ds s'].
    destruct IH as (Ec & Es' & Ess); [done|simpl; lia|simpl; exists t; split; [done|lia]|].
    split_and!; [|done|by rewrite Ess]. rewrite filter_cons, decide_True by done.
    unfold lenZ in *. cbn [length s1 grant_probe half_open_probes] in *. lia.
  - assert ((probe_lost config <=? since t tg)%Z = false) as -> by (apply Z.leb_gt; unfold since; lia).
    specialize (IH s). destruct (admissions tuning ts s) as [ds s'].
    destruct IH as (Ec & Es' & Ess); [done|done|eauto|]. split_and!; [|done..].
    rewrite filter_cons, decide_False by done. unfold lenZ in *. cbn [length]. lia.
Qed.

Definition successes (tuning : option Tuning) (nows : list Z) s : BreakerState :=
  fold_left (λ s t, (record_state config tuning true false t s).1) nows s.

Lemma successes_half_open tuning nows s :
  bs_state s = HalfOpen → (half_open_successes s + lenZ nows < half_open_max_probes config)%Z →
  bs_state (successes tuning nows s) = HalfOpen ∧
  half_open_successes (successes tuning nows s) = (half_open_successes s + lenZ nows)%Z.
Proof.
  revert s. induction nows as [|t nows IH]; intros s Es Hlt.
  { split; [done|]. unfold successes, lenZ. simpl. lia. }
  unfold lenZ in *. cbn [length] in Hlt |- *. cbn [successes fold_left].
  assert ((record_state config tuning true false t s).1 = count_success (push_outcome config true false s)) as Er.
  { unfold record_state. cbn [push_outcome bs_state]. rewrite Es. cbn [count_success push_outcome half_open_successes].
    by destruct (Z.leb_spec (half_open_max_probes config) (half_open_successes s + 1)); [lia|]. }
  rewrite Er. destruct (IH (count_success (push_outcome config true false s))) as [E1 E2].
  { done. } { cbn [count_success push_outcome half_open_successes]. lia. }
  unfold successes in E1, E2. split; [done|]. rewrite E2. cbn [count_success push_outcome half_open_successes]. lia.
Qed.

Lemma successes_close tuning nows s :
  bs_state s = HalfOpen → half_open_successes s = 0%Z → lenZ nows = half_open_max_probes config →
  bs_state (successes tuning nows s) = Closed ∧ bs_window (successes tuning nows s) = [] ∧
  consecutive_failures (successes tuning nows s) = 0%Z.
Proof.
  intros Es E0 Hlen. destruct Hconfig as [_ _ _ _ Hp _].
  destruct nows as [|t nows _] using rev_ind; [unfold lenZ in Hlen; simpl in Hlen; lia|].
  rewrite lenZ_app in Hlen. change (lenZ [t]) with 1%Z in Hlen.
  destruct (successes_half_open tuning nows s Es) as [E1 E2]; [lia|].
  unfold successes in *. rewrite fold_left_app. cbn [fold_left]. set (s1 := fold_left _ nows s) in *.
  unfold record_state. cbn [push_outcome bs_state]. rewrite E1. cbn [count_success push_outcome half_open_successes].
  rewrite E2, E0. by destruct (Z.leb_spec (half_open_max_probes config) (0 + lenZ nows + 1)); [|lia].
Qed.

(** The probe budget: once the cool-down of an open credential has passed,
    of the calls that arrive before the probes can count as lost exactly the first
    [half_open_max_probes] are admitted; then that many successes, and no fewer,
    close the breaker with a clean slate, and one failure reopens it for a full
    cool-down. *)
Theorem probe_budget tuning s topen t0 ts :
  bs_state s = Open → opened_at s = Some topen → (cooldown config tuning ≤ since t0 topen)%Z →
  Forall (λ t, t0 ≤ t < t0 + probe_lost config)%Z ts → (0 < probe_lost config)%Z →
  let '(ds, s') := admissions tuning (t0 :: ts) s in
  lenZ (filter (λ d, d = true) ds) = Z.min (lenZ (t0 :: ts)) (half_open_max_probes config) ∧
  bs_state s' = HalfOpen ∧ half_open_successes s' = 0%Z ∧
  (∀ iso now, let s2 := (record_state config tuning false iso now s').1 in
     bs_state s2 = Open ∧ opened_at s2 = Some now) ∧
  (∀ nows, let s2 := successes tuning nows s' in
     ((lenZ nows < half_open_max_probes config)%Z → bs_state s2 = HalfOpen) ∧
     (lenZ nows = half_open_max_probes config → bs_state s2 = Closed ∧ bs_window s2 = [] ∧ consecutive_failures s2 = 0%Z)).
Proof.
  intros Es Et Hcool Hts Hl. cbn [admissions]. unfold allow_state at 1. rewrite Es, Et. simpl from_option.
  rewrite (proj2 (Z.leb_le _ _) Hcool). destruct Hconfig as [_ _ _ _ Hp _].
  pose proof (half_open_admissions tuning ts (enter_half_open t0 s) t0) as Hadm.
  destruct (admissions tuning ts (enter_half_open t0 s)) as [ds s'].
  destruct Hadm as (Ec & Es' & E0); [done|simpl; lia|simpl; exists t0; split; [done|lia]|done|done|].
  cbn [enter_half_open half_open_successes half_open_probes] in *. split_and!; [|done|done| |].
  - rewrite filter_cons, decide_True by done. unfold lenZ in *. cbn [length]. lia.
  - intros iso now. unfold record_state. cbn [push_outcome bs_state]. by rewrite Es'.
  - intros nows. split; [|by apply successes_close]. intros Hlt.
    apply (successes_half_open tuning nows s' Es'). lia.
Qed.

End theorems.

(** ** The read surface *)

(** [out] holds, per provider, the worst of the states listed. *)
Definition view_of (l : list (bytes * BState)) (out : gmap bytes BState) : Prop :=
  ∀ p, match out !! p with
       | None => ∀ st, (p, st) ∉ l
       | Some st => (p, st) ∈ l ∧ ∀ st', (p, st') ∈ l → (severity st' ≤ severity st)%Z
       end.

Lemma bump_view l out p st : view_of l out → view_of ((p, st) :: l) (bump p st out).
Proof.
  intros Hv q. specialize (Hv q) as Hq. unfold bump. destruct (decide (q = p)) as [->|Hne].
  - destruct (out !! p) as [s|] eqn:E; [destruct Hq as [Hin Hmax]; destruct (Z.ltb_spec (severity s) (severity st))|].
    + rewrite lookup_insert, decide_True by done. split; [left|]. intros st' [[= ->]|H']%elem_of_cons; [lia|].
      specialize (Hmax st' H'). lia.
    + rewrite E. split; [by right|]. intros st' [[= ->]|H']%elem_of_cons; [lia|auto].
    + rewrite lookup_insert, decide_True by done. split; [left|].
      intros st' [[= ->]|H']%elem_of_cons; [lia|]. by destruct (Hq st').
  - assert (∀ o : gmap bytes BState, o = out ∨ o = <[p := st]> out → o !! q = out !! q) as Ho.
    { intros o [->| ->]; [done|]. by rewrite lookup_insert_ne. }
    match goal with |- context [?o !! q] => rewrite (Ho o) by (repeat case_match; auto) end.
    destruct (out !! q) as [s|].
    + destruct Hq as [Hin Hmax]. split; [by right|]. intros st' [[= -> _]|H']%elem_of_cons; [done|auto].
    + intros st' [[= -> _]|H']%elem_of_cons; [done|]. by apply (Hq st').
Qed.

Lemma foldr_bump_view {A} (f : A → option (bytes * BState)) (g : A → gmap bytes BState → gmap bytes BState) l k out :
  (∀ x out, g x out = match f x with Some (p, st) => bump p st out | None => out end) →
  view_of k out → view_of (omap f l ++ k) (foldr g out l).
Proof.
  intros Hg Hk. induction l as [|x l IH]; [done|]. simpl. rewrite Hg.
  destruct (f x) as [[p st]|]; [by apply bump_view|done].
Qed.

Section view.
Context (config : BreakerConfig) (owner : option OwnerTag) (include_env : bool) (now : Z) (cb : CircuitBreaker).

(** What the provider tier and the entries contribute to the view. *)
Definition tier_line (pr : bytes * bytes) : option (bytes * BState) :=
  let st := (provider_state config pr.1 pr.2 now cb).1 in
  if decide (st = Closed) then None else Some (pr.1, st).

Definition entry_line (kl : Key * nat) : option (bytes * BState) :=
  match heap cb !! kl.2 with
  | Some e => if visible owner include_env kl.1 e then Some (kl.1.1.1, bs_state (en_st e)) else None
  | None => None
  end.

Lemma tenant_view_lines :
  view_of (omap entry_line (map_to_list (breakers cb)) ++ omap tier_line (fst <$> map_to_list (open cb)) ++ [])
    (tenant_view config owner include_env now cb).
Proof.
  unfold tenant_view. apply foldr_bump_view.
  - intros kl out. unfold entry_line. destruct (heap cb !! kl.2) as [e|]; [|done]. by destruct (visible _ _ _ _).
  - apply foldr_bump_view; [|intros q; rewrite lookup_empty; intros st Hin; by apply not_elem_of_nil in Hin].
    intros pr out. unfold tier_line. by destruct (decide _).
Qed.

Definition tier_open (p : bytes) : Prop :=
  ∃ r, is_Some (open cb !! (p, r)) ∧ (provider_state config p r now cb).1 = Open.

Definition own_entry (p : bytes) (st : BState) : Prop :=
  ∃ r c l e, breakers cb !! (p, r, c) = Some l ∧ heap cb !! l = Some e ∧ bs_state (en_st e) = st ∧
    match c with Env => include_env = true | Byok _ => is_Some owner ∧ fst <$> en_owner e = owner end.

Lemma provider_state_cases p r :
  (provider_state config p r now cb).1 = Open ∨ (provider_state config p r now cb).1 = Closed.
Proof.
  unfold provider_state. destruct (provider_open_count p r now cb) as [n cb1]. destruct (_ <=? _)%nat; auto.
Qed.

Lemma tier_lines p st :
  (p, st) ∈ omap tier_line (fst <$> map_to_list (open cb)) ↔ st = Open ∧ tier_open p.
Proof.
  rewrite list_elem_of_omap. split.
  - intros ([p' r] & Hin & E). apply list_elem_of_fmap in Hin as ([pr set] & Epr & Hin). cbn [fst] in Epr. subst pr.
    apply elem_of_map_to_list in Hin. unfold tier_line in E. cbn [fst snd] in E.
    destruct (provider_state_cases p' r) as [Eo|Eo]; rewrite Eo in E; simpl in E; [|done].
    injection E as -> <-. split; [done|]. exists r. split; [by eexists|done].
  - intros [-> (r & [set Hs] & Ho)]. exists (p, r). split.
    + apply list_elem_of_fmap. exists ((p, r), set). split; [done|]. by apply elem_of_map_to_list.
    + unfold tier_line. cbn [fst snd]. by rewrite Ho.
Qed.

Lemma entry_lines p st : (p, st) ∈ omap entry_line (map_to_list (breakers cb)) ↔ own_entry p st.
Proof.
  rewrite list_elem_of_omap. unfold entry_line, own_entry. split.
  - intros ([[[p' r] c] l] & Hin & E). apply elem_of_map_to_list in Hin. cbn [fst snd] in E.
    destruct (heap cb !! l) as [e|] eqn:He; [|done]. destruct (visible _ _ _ _) eqn:Ev; [|done].
    injection E as -> <-. exists r, c, l, e. split_and!; [done..|]. unfold visible in Ev. cbn [snd] in Ev.
    destruct c; [done|]. by breflect.
  - intros (r & c & l & e & Hl & He & <- & Hv). exists ((p, r, c), l).
    split; [by apply elem_of_map_to_list|]. cbn [fst snd]. rewrite He. unfold visible. cbn [snd].
    destruct c; [by rewrite Hv|]. destruct Hv. by rewrite !bool_decide_true.
Qed.

(** What a tenant sees of the breakers: for each provider the worst of the
    provider-wide tier, when it is open somewhere, and of the tenant's own
    entries (and the environment's, where it is shared); never the state of
    another tenant's credential. *)
Theorem tenant_view_is_own_worst p :
  let shown st := st = Open ∧ tier_open p ∨ own_entry p st in
  match tenant_view config owner include_env now cb !! p with
  | None => ∀ st, ¬ shown st
  | Some st => shown st ∧ ∀ st', shown st' → (severity st' ≤ severity st)%Z
  end.
Proof.
  intros shown. pose proof (tenant_view_lines p) as Hview.
  assert (∀ st, shown st ↔ (p, st) ∈ omap entry_line (map_to_list (breakers cb)) ++
    omap tier_line (fst <$> map_to_list (open cb)) ++ []) as Hshown.
  { intros st. rewrite (right_id_L [] (++)), elem_of_app, tier_lines, entry_lines. unfold shown. tauto. }
  destruct (tenant_view _ _ _ _ _ !! p) as [st|].
  - destruct Hview as [Hin Hmax]. split; [by apply Hshown|]. intros st' Hs%Hshown. auto.
  - intros st Hs%Hshown. by apply (Hview st).
Qed.

End view.

(** ** Runs *)

Definition tenant_cred (tag : byte) (cell : nat) : Cred :=
  {| cred_id := Byok [tag]; cred_owner := Some ([tag], lit "default"); cred_tuning := None;
     deadline_scoped := false; observed := cell |}.

Definition tag_owner (c : Credential) : option OwnerTag := match c with Env => None | Byok fp => Some fp end.

Definition provider0 : bytes := lit "openai".
Definition region0 : bytes := lit "us".

(** An admission and five faults, at successive seconds from [t]. *)
Definition outage (cred : Cred) (t : Z) : list Op :=
  Allow provider0 region0 cred t t ::
  ((λ i, RecordOutcome provider0 region0 cred UpstreamFault (t + secs i) (t + secs i)) <$> [1; 2; 3; 4; 5]%Z).

Definition two_outages : list Op := outage (tenant_cred x41 0) 0 ++ outage (tenant_cred x42 1) 0.
Definition three_outages : list Op := two_outages ++ outage (tenant_cred x43 2) 0.

(** Two tenants down leave the third alone; three shed everyone, until the
    cool-down. *)
Example provider_tier_opens :
  let ask ops now := (allow FALLBACK provider0 region0 (tenant_cred x44 3) now now (run FALLBACK ops)).1 in
  ask two_outages (secs 6) = true ∧ ask three_outages (secs 6) = false ∧ ask three_outages (secs 15) = true.
Proof. vm_compute. auto. Qed.

Lemma two_outages_before : Forall (op_before (secs 5)) two_outages.
Proof. repeat constructor; vm_compute; discriminate. Qed.

Lemma breaker_invariant_witness :
  Forall (op_before (secs 5)) two_outages ∧ wf FALLBACK (run FALLBACK two_outages).
Proof.
  split; [exact two_outages_before|].
  exact (proj1 (breaker_invariant FALLBACK fallback_ok (secs 5) two_outages two_outages_before)).
Defined.

Lemma would_allow_agrees_witness :
  (would_allow FALLBACK provider0 region0 (tenant_cred x41 0) (secs 6) (run FALLBACK two_outages)).1 =
  (allow FALLBACK provider0 region0 (tenant_cred x41 0) (secs 6) (secs 6) (run FALLBACK two_outages)).1.
Proof.
  exact (proj1 (would_allow_agrees FALLBACK fallback_ok (secs 5) two_outages provider0 region0
    (tenant_cred x41 0) (secs 6) (secs 6) two_outages_before)).
Defined.

Lemma breaker_never_wedges_witness :
  (allow FALLBACK provider0 region0 (tenant_cred x41 0) (secs 305) (secs 305) (run FALLBACK two_outages)).1 = true.
Proof.
  apply (breaker_never_wedges FALLBACK fallback_ok (secs 5) two_outages provider0 region0
    (tenant_cred x41 0) (secs 305) (secs 305) two_outages_before). vm_compute. discriminate.
Defined.

Lemma few_owners_cannot_refuse_others_witness :
  size (blamed provider0 region0 two_outages) = 2%nat ∧
  (allow FALLBACK provider0 region0 (tenant_cred x44 3) (secs 6) (secs 6) (run FALLBACK two_outages)).1 = true.
Proof.
  assert (size (blamed provider0 region0 two_outages) = 2%nat) as E by (vm_compute; reflexivity).
  split; [exact E|].
  refine (proj2 (few_owners_cannot_refuse_others FALLBACK fallback_ok tag_owner two_outages provider0 region0
    (tenant_cred x44 3) (secs 6) (secs 6) _) _ _).
  - repeat constructor.
  - rewrite E. simpl. lia.
  - intros Hex. apply Exists_exists in Hex as (op & Hin & Hop).
    repeat (apply elem_of_cons in Hin as [->|Hin]; [by destruct Hop|]). by apply not_elem_of_nil in Hin.
Defined.

Lemma late_outcome_is_ignored_witness :
  let cred := tenant_cred x41 0 in
  let cb := run FALLBACK ([Allow provider0 region0 cred 0 0] ++ ResetCredential (Byok [x41]) ::
                          [Allow provider0 region0 (tenant_cred x41 7) 1 1]) in
  record FALLBACK provider0 region0 cred UpstreamFault 2 2 cb = cb.
Proof.
  apply (late_outcome_is_ignored FALLBACK [Allow provider0 region0 (tenant_cred x41 0) 0 0]
    [Allow provider0 region0 (tenant_cred x41 7) 1 1] provider0 region0 (tenant_cred x41 0) UpstreamFault 2 2 0%nat).
  - vm_compute. reflexivity.
  - constructor; [|constructor]. simpl. discriminate.
Defined.

Lemma consecutive_faults_refuse_witness :
  let cb := run FALLBACK [Allow provider0 region0 (tenant_cred x41 0) 0 0] in
  (allow FALLBACK provider0 region0 (tenant_cred x41 0) (secs 9) (secs 9)
    (records FALLBACK provider0 region0 (tenant_cred x41 0) UpstreamFault (secs <$> [1; 2; 3; 4; 5]%Z) cb)).1 = false.
Proof.
  apply (consecutive_faults_refuse FALLBACK fallback_ok [Allow provider0 region0 (tenant_cred x41 0) 0 0]
    provider0 region0 (tenant_cred x41 0) UpstreamFault (secs <$> [1; 2; 3; 4; 5]%Z) (secs 9) (secs 9) 0%nat
    {| retired := false; en_st := new_state; en_owner := Some ([x41], lit "default"); en_tuning := None; last_used := 0 |}).
  - vm_compute. reflexivity.
  - vm_compute. reflexivity.
  - vm_compute. reflexivity.
  - reflexivity.
  - simpl. lia.
  - vm_compute. reflexivity.
  - exact I.
  - discriminate.
  - reflexivity.
  - reflexivity.
  - repeat constructor.
Defined.

Lemma probe_budget_witness :
  let '(ds, s') := admissions FALLBACK None (secs 10 :: (secs <$> [11; 12; 13; 14]%Z))
                     (mkState Open [] [] 5 false true (Some 0%Z) 0 0 None) in
  lenZ (filter (λ d, d = true) ds) = 3%Z ∧ bs_state s' = HalfOpen.
Proof.
  assert (Forall (λ t, secs 10 ≤ t < secs 10 + probe_lost FALLBACK)%Z (secs <$> [11; 12; 13; 14]%Z)) as Hts
    by (repeat constructor; vm_compute; (discriminate || reflexivity)).
  assert (cooldown FALLBACK None ≤ since (secs 10) 0)%Z as Hcool by (vm_compute; discriminate).
  pose proof (probe_budget FALLBACK fallback_ok None (mkState Open [] [] 5 false true (Some 0%Z) 0 0 None) 0
    (secs 10) (secs <$> [11; 12; 13; 14]%Z) eq_refl eq_refl Hcool Hts eq_refl) as Hb.
  destruct (admissions _ _ _ _) as [ds s']. destruct Hb as (E & Es & _). split; [rewrite E; reflexivity|exact Es].
Defined.
