(* ===== verification/Network.v ===== *)
(** * Network addresses: CIDR rules and the outbound guard

    [Cidr] of [crates/shared/src/key_policy.rs] (the [source_ips] rule of a key
    policy) and [crates/gateway/src/ssrf_guard.rs] (which outbound addresses are
    refused).  Addresses are the integers [u32::from] and [u128::from] give; the
    predicates of [std::net] that the guard calls are written out.

    The theorems: a network contains exactly the addresses that agree with it on
    its prefix; the guard's predicate is membership in a table of networks; every
    address a validated target connects to is outside the networks that the module lists,
    but for the part of [0.0.0.0/8] that the guard lets through. *)

From Stdlib Require Import ZArith Lia Btauto.
From stdpp Require Import base list option.
From S2P Require Import Prelude Encoding.
Local Open Scope Z_scope.

(** ** Addresses *)

Inductive IpAddr : Type := V4 (a : Z) | V6 (a : Z).

#[global] Instance IpAddr_eq_dec : EqDecision IpAddr.
Proof. solve_decision. Defined.

Definition is_ipv4 (ip : IpAddr) : bool := match ip with V4 _ => true | V6 _ => false end.

(** The addresses of the two families. *)
Definition ip_wf (ip : IpAddr) : Prop :=
  match ip with V4 a => 0 ≤ a < 2 ^ 32 | V6 a => 0 ≤ a < 2 ^ 128 end.

(** [octets()\[i\]] of an IPv4 address, [segments()\[i\]] of an IPv6 one. *)
Definition octet (a i : Z) : Z := Z.land (Z.shiftr a (8 * (3 - i))) 255.
Definition segment (a i : Z) : Z := Z.land (Z.shiftr a (16 * (7 - i))) 65535.

(** [Ipv6Addr::to_ipv4_mapped]: [::ffff:a.b.c.d]. *)
Definition to_ipv4_mapped (a : Z) : option Z :=
  if Z.shiftr a 32 =? 65535 then Some (Z.land a u32_max) else None.

(** [IpAddr::to_canonical]. *)
Definition to_canonical (ip : IpAddr) : IpAddr :=
  match ip with
  | V4 a => V4 a
  | V6 a => match to_ipv4_mapped a with Some v4 => V4 v4 | None => V6 a end
  end.

(** *** The text form of an address, [IpAddr::from_str] of [std::net]

    A parser consumes a prefix; [None] leaves the input where it was. *)

Definition to_digit (radix : Z) (b : byte) : option Z :=
  d ← hex_nibble b; if d <? radix then Some d else None.

Fixpoint read_digits (radix : Z) (s : bytes) : list Z * bytes :=
  match s with
  | [] => ([], [])
  | b :: r => match to_digit radix b with
              | Some d => let '(ds, r') := read_digits radix r in (d :: ds, r')
              | None => ([], s)
              end
  end.

Definition read_number (radix max : Z) (max_digits : nat) (allow_zero_prefix : bool) (s : bytes)
    : option (Z * bytes) :=
  let '(ds, r) := read_digits radix s in
  let n := foldl (λ acc d, acc * radix + d) 0 ds in
  if (length ds =? 0)%nat || (max_digits <? length ds)%nat || (max <? n)
     || (negb allow_zero_prefix && bool_decide (head ds = Some 0) && (1 <? length ds)%nat)
  then None else Some (n, r).

Definition read_given_char (c : byte) (s : bytes) : option bytes :=
  match s with b :: r => if bool_decide (b = c) then Some r else None | [] => None end.

Definition read_separator {A} (sep : byte) (i : nat) (inner : bytes → option (A * bytes)) (s : bytes)
    : option (A * bytes) :=
  match i with O => inner s | S _ => read_given_char sep s ≫= inner end.

Definition read_ipv4_addr (s : bytes) : option (Z * bytes) :=
  let group i := read_separator "."%byte i (read_number 10 255 3 false) in
  '(a, s) ← group 0%nat s; '(b, s) ← group 1%nat s; '(c, s) ← group 2%nat s; '(d, s) ← group 3%nat s;
  Some (a * 2 ^ 24 + b * 2 ^ 16 + c * 2 ^ 8 + d, s).

(** [read_groups] into [limit - i] slots from slot [i] on: the groups read, whether
    they end in an IPv4 address, and the rest. *)
Fixpoint read_groups (slots i : nat) (s : bytes) : list Z * bool * bytes :=
  match slots with
  | O => ([], false, s)
  | S slots' =>
      match (if (0 <? slots')%nat then read_separator ":"%byte i read_ipv4_addr s else None) with
      | Some (v4, r) => ([Z.shiftr v4 16; Z.land v4 65535], true, r)
      | None =>
          match read_separator ":"%byte i (read_number 16 65535 4 true) s with
          | Some (g, r) =>
              let '(gs, is_v4, r') := read_groups slots' (S i) r in (g :: gs, is_v4, r')
          | None => ([], false, s)
          end
      end
  end.

Definition of_segments (gs : list Z) : Z := foldl (λ acc g, acc * 65536 + g) 0 gs.

Definition read_ipv6_addr (s : bytes) : option (Z * bytes) :=
  let '(head, head_ipv4, r) := read_groups 8 0 s in
  if (length head =? 8)%nat then Some (of_segments head, r) else
  if head_ipv4 then None else
  r ← read_given_char ":"%byte r;
  r ← read_given_char ":"%byte r;
  let '(tail, _, r) := read_groups (8 - (length head + 1)) 0 r in
  Some (of_segments (head ++ replicate (8 - length head - length tail) 0 ++ tail), r).

Definition ip_parse (s : bytes) : option IpAddr :=
  match read_ipv4_addr s with
  | Some (a, []) => Some (V4 a)
  | Some _ => None
  | None => match read_ipv6_addr s with Some (a, []) => Some (V6 a) | _ => None end
  end.

(** *** [std::net::Ipv4Addr] and [Ipv6Addr] *)

Definition v4_is_private (a : Z) : bool :=
  (octet a 0 =? 10)
  || ((octet a 0 =? 172) && ((16 <=? octet a 1) && (octet a 1 <=? 31)))
  || ((octet a 0 =? 192) && (octet a 1 =? 168)).
Definition v4_is_loopback (a : Z) : bool := octet a 0 =? 127.
Definition v4_is_link_local (a : Z) : bool := (octet a 0 =? 169) && (octet a 1 =? 254).
Definition v4_is_broadcast (a : Z) : bool := a =? u32_max.
Definition v4_is_documentation (a : Z) : bool :=
  ((octet a 0 =? 192) && (octet a 1 =? 0) && (octet a 2 =? 2))
  || ((octet a 0 =? 198) && (octet a 1 =? 51) && (octet a 2 =? 100))
  || ((octet a 0 =? 203) && (octet a 1 =? 0) && (octet a 2 =? 113)).
Definition v4_is_unspecified (a : Z) : bool := a =? 0.
Definition v6_is_loopback (a : Z) : bool := a =? 1.
Definition v6_is_unspecified (a : Z) : bool := a =? 0.
Definition v6_is_multicast (a : Z) : bool := Z.land (segment a 0) 0xff00 =? 0xff00.

(** ** The outbound guard *)

Definition is_cgnat (a : Z) : bool := (octet a 0 =? 100) && (Z.land (octet a 1) 0xc0 =? 64).
Definition is_azure_imds (a : Z) : bool :=
  (octet a 0 =? 168) && (octet a 1 =? 63) && (octet a 2 =? 129) && (octet a 3 =? 16).
Definition is_reserved_class_e (a : Z) : bool := 240 <=? octet a 0.
Definition is_unique_local_v6 (a : Z) : bool := Z.land (segment a 0) 0xfe00 =? 0xfc00.
Definition is_ipv6_documentation (a : Z) : bool := (segment a 0 =? 0x2001) && (segment a 1 =? 0x0db8).

Definition is_blocked_v4 (a : Z) : bool :=
  v4_is_private a || v4_is_loopback a || v4_is_link_local a || is_cgnat a || v4_is_broadcast a
  || v4_is_documentation a || v4_is_unspecified a || is_azure_imds a || is_reserved_class_e a.

Definition is_blocked_ip (ip : IpAddr) : bool :=
  match ip with
  | V4 a => is_blocked_v4 a
  | V6 a =>
      match to_ipv4_mapped a with
      | Some v4 => is_blocked_v4 v4
      | None =>
          v6_is_loopback a || v6_is_unspecified a || is_unique_local_v6 a || v6_is_multicast a
          || is_ipv6_documentation a
      end
  end.

Definition is_loopback_only (ip : IpAddr) : bool :=
  match ip with
  | V4 a => v4_is_loopback a
  | V6 a => v6_is_loopback a || from_option v4_is_loopback false (to_ipv4_mapped a)
  end.

(** What the guard reads of a parsed URL ([reqwest::Url]), and a resolved socket
    address. *)
Record ParsedUrl := {
  url_scheme : bytes;
  url_host : option bytes;
  url_port_or_known_default : option Z;
}.
Record SocketAddr := { sa_ip : IpAddr; sa_port : Z }.
Record PinnedTarget := { pt_host : bytes; pt_addrs : list SocketAddr }.

Inductive SsrfError : Type :=
  | InvalidUrl | SchemeNotPermitted | NoHost | BlockedLiteral | DnsFailed | NoAddresses | BlockedAddress.

Section guard.
(** [Url::parse] and the resolver. *)
Variable url_parse : bytes → option ParsedUrl.
Variable lookup_host : bytes → Z → option (list SocketAddr).
(** [is_loopback_bypass_enabled()]: [false] in every release build. *)
Variable allow_loopback : bool.

Definition address_refused (ip : IpAddr) : bool :=
  if allow_loopback && is_loopback_only ip then false else is_blocked_ip ip.

Definition validate_url_pinned (raw : bytes) : result PinnedTarget SsrfError :=
  let? url := ok_or (url_parse raw) InvalidUrl in
  if negb (bool_decide (url_scheme url = lit "https") || bool_decide (url_scheme url = lit "http"))
  then Err SchemeNotPermitted else
  let? host := ok_or (url_host url) NoHost in
  match ip_parse host with
  | Some ip =>
      if allow_loopback && is_loopback_only ip then Ok {| pt_host := host; pt_addrs := [] |}
      else if is_blocked_ip ip then Err BlockedLiteral
      else Ok {| pt_host := host; pt_addrs := [] |}
  | None =>
      let port := default 443 (url_port_or_known_default url) in
      let? addrs := ok_or (lookup_host host port) DnsFailed in
      match addrs with
      | [] => Err NoAddresses
      | _ =>
          if existsb (λ addr, address_refused (sa_ip addr)) addrs then Err BlockedAddress
          else Ok {| pt_host := host; pt_addrs := addrs |}
      end
  end.

(** Where a client bound to the target ([PinnedTarget::pin]) connects when the
    resolver now answers [answer]: the pinned addresses, or the literal. *)
Definition pin (t : PinnedTarget) (answer : list IpAddr) : list IpAddr :=
  match pt_addrs t with
  | [] => match ip_parse (pt_host t) with Some ip => [ip] | None => answer end
  | addrs => sa_ip <$> addrs
  end.

Definition validate_url_sync (url : ParsedUrl) : result unit SsrfError :=
  if negb (bool_decide (url_scheme url = lit "https") || bool_decide (url_scheme url = lit "http"))
  then Err SchemeNotPermitted
  else match url_host url ≫= ip_parse with
       | Some ip => if is_blocked_ip ip then Err BlockedLiteral else Ok ()
       | None => Ok ()
       end.
End guard.

(** ** Networks *)

Record Cidr := { net : IpAddr; len : Z }.

#[global] Instance Cidr_eq_dec : EqDecision Cidr.
Proof. solve_decision. Defined.

(** [MAX.checked_shl(k).unwrap_or(0)] on a [w]-bit type. *)
Definition shl_max (w k : Z) : Z := if k <? w then Z.land (Z.shiftl (2 ^ w - 1) k) (2 ^ w - 1) else 0.

Definition mask (ip : IpAddr) (l : Z) : IpAddr :=
  match ip with
  | V4 a => V4 (Z.land a (shl_max 32 (32 - l)))
  | V6 a => V6 (Z.land a (shl_max 128 (128 - l)))
  end.

Definition split_once (c : byte) (s : bytes) : option (bytes * bytes) :=
  match list_find (λ b, b = c) s with
  | Some (i, _) => Some (take i s, drop (S i) s)
  | None => None
  end.

Definition Cidr_parse (raw : bytes) : option Cidr :=
  let raw := trim raw in
  let '(addr, l) := match split_once "/"%byte raw with
                    | Some (a, l) => (a, Some l)
                    | None => (raw, None)
                    end in
  ip ← ip_parse addr;
  if match ip with V6 a => bool_decide (to_ipv4_mapped a ≠ None) | V4 _ => false end then None else
  let max := if is_ipv4 ip then 32 else 128 in
  l ← match l with
      | None => Some max
      | Some l => n ← parse_u64 l; if (n <=? 255) && (n <=? max) then Some n else None
      end;
  Some {| net := mask ip l; len := l |}.

Definition contains (c : Cidr) (ip : IpAddr) : bool :=
  let ip := to_canonical ip in
  bool_decide (is_ipv4 ip = is_ipv4 (net c)) && bool_decide (mask ip (len c) = net c).

(** ** Examples *)

Example ip_parse_examples :
  ip_parse (lit "10.1.2.3") = Some (V4 0x0a010203)
  ∧ ip_parse (lit "10.01.2.3") = None
  ∧ ip_parse (lit "::1") = Some (V6 1)
  ∧ ip_parse (lit "::ffff:10.0.0.1") = Some (V6 0xffff0a000001)
  ∧ ip_parse (lit "2001:DB8::5:0") = Some (V6 0x20010db8000000000000000000050000)
  ∧ ip_parse (lit "1:2:3:4:5:6:7:8") = Some (V6 0x00010002000300040005000600070008)
  ∧ ip_parse (lit "1:2:3:4:5:6:7") = None
  ∧ ip_parse (lit "example.com") = None.
Proof. vm_compute. repeat split. Qed.

Example cidr_examples :
  Cidr_parse (lit " 10.1.2.3/8 ") = Some {| net := V4 0x0a000000; len := 8 |}
  ∧ Cidr_parse (lit "::ffff:10.0.0.0/104") = None
  ∧ Cidr_parse (lit "10.0.0.0/33") = None
  ∧ (flip contains (V6 0xffff0aff0001) <$> Cidr_parse (lit "10.0.0.0/8")) = Some true.
Proof. vm_compute. repeat split. Qed.

(** ** Prefixes *)

Lemma octet_div (a i : Z) : 0 ≤ i ≤ 3 → octet a i = (a / 2 ^ (8 * (3 - i))) `mod` 256.
Proof.
  intros Hi. unfold octet. change 255 with (Z.ones 8).
  by rewrite Z.land_ones, Z.shiftr_div_pow2 by lia.
Qed.

Lemma segment_div (a i : Z) : 0 ≤ i ≤ 7 → segment a i = (a / 2 ^ (16 * (7 - i))) `mod` 65536.
Proof.
  intros Hi. unfold segment. change 65535 with (Z.ones 16).
  by rewrite Z.land_ones, Z.shiftr_div_pow2 by lia.
Qed.

(** Clearing the low bits of a [w]-bit integer. *)
Lemma land_shl_max (w k a : Z) :
  0 ≤ k ≤ w → 0 ≤ a < 2 ^ w → Z.land a (shl_max w k) = a / 2 ^ k * 2 ^ k.
Proof.
  intros Hk Ha. unfold shl_max. destruct (Z.ltb_spec k w) as [Hlt|Hge].
  - rewrite <- Z.shiftr_div_pow2, <- Z.shiftl_mul_pow2 by lia.
    replace (2 ^ w - 1) with (Z.ones w) by (rewrite Z.ones_equiv; lia).
    apply Z.bits_inj'. intros n Hn.
    rewrite !Z.land_spec, !Z.shiftl_spec by lia.
    destruct (Z.ltb_spec n k) as [Hnk|Hnk].
    + rewrite !(Z.testbit_neg_r _ (n - k)) by lia. by rewrite andb_false_r.
    + rewrite Z.shiftr_spec by lia. replace (n - k + k) with n by lia.
      destruct (Z.ltb_spec n w) as [Hnw|Hnw].
      * rewrite !Z.ones_spec_low by lia. by rewrite !andb_true_r.
      * rewrite <- (Z.mod_small a (2 ^ w)), Z.mod_pow2_bits_high by lia. done.
  - replace k with w by lia. rewrite Z.div_small, Z.land_0_r by lia. lia.
Qed.

(** Two addresses agree on their first [l] bits. *)
Definition same_prefix (l : Z) (ip ip' : IpAddr) : Prop :=
  match ip, ip' with
  | V4 a, V4 b => a / 2 ^ (32 - l) = b / 2 ^ (32 - l)
  | V6 a, V6 b => a / 2 ^ (128 - l) = b / 2 ^ (128 - l)
  | _, _ => False
  end.

Definition prefix_ok (ip : IpAddr) (l : Z) : Prop := 0 ≤ l ≤ (if is_ipv4 ip then 32 else 128).

Lemma land_shl_max_inj (w k a b : Z) :
  0 ≤ k ≤ w → 0 ≤ a < 2 ^ w → 0 ≤ b < 2 ^ w →
  Z.land a (shl_max w k) = Z.land b (shl_max w k) ↔ a / 2 ^ k = b / 2 ^ k.
Proof.
  intros Hk Ha Hb. rewrite !land_shl_max by done. split; [|by intros ->].
  apply Z.mul_reg_r. apply Z.pow_nonzero; lia.
Qed.

Lemma mask_same_prefix (ip ip' : IpAddr) (l : Z) :
  ip_wf ip → ip_wf ip' → is_ipv4 ip = is_ipv4 ip' → prefix_ok ip l →
  mask ip l = mask ip' l ↔ same_prefix l ip ip'.
Proof.
  unfold prefix_ok. destruct ip as [a|a], ip' as [b|b]; cbn [ip_wf is_ipv4 mask same_prefix];
    intros Ha Hb Hf Hl; try discriminate Hf.
  - rewrite <- (land_shl_max_inj 32) by lia. split; [by intros [= ->] | by intros ->].
  - rewrite <- (land_shl_max_inj 128) by lia. split; [by intros [= ->] | by intros ->].
Qed.

Lemma canonical_wf (ip : IpAddr) : ip_wf ip → ip_wf (to_canonical ip).
Proof.
  destruct ip as [a|a]; cbn [to_canonical]; [done|]. unfold to_ipv4_mapped.
  destruct (Z.shiftr a 32 =? 65535); cbn [ip_wf]; [|done].
  intros _. change u32_max with (Z.ones 32). rewrite Z.land_ones by lia. apply Z.mod_pos_bound. lia.
Qed.

(** A network contains exactly the addresses that agree with it on its prefix,
    whatever the family in which the address was written. *)
Lemma contains_spec (ip net0 : IpAddr) (l : Z) :
  ip_wf ip → ip_wf net0 → prefix_ok net0 l →
  contains {| net := mask net0 l; len := l |} ip = true ↔
  is_ipv4 (to_canonical ip) = is_ipv4 net0 ∧ same_prefix l (to_canonical ip) net0.
Proof.
  intros Hip Hn Hl. unfold contains. cbn [net len].
  assert (is_ipv4 (mask net0 l) = is_ipv4 net0) as -> by by destruct net0.
  rewrite andb_true_iff, !bool_decide_eq_true.
  split; intros [Hf Hm]; (split; [done|]); revert Hm;
    (rewrite mask_same_prefix; [done|by apply canonical_wf|done|done|]);
    unfold prefix_ok in *; by rewrite Hf.
Qed.

(** ** The guard is a table of networks *)

Definition v4_net (a b c d l : Z) : Cidr :=
  {| net := mask (V4 (a * 2 ^ 24 + b * 2 ^ 16 + c * 2 ^ 8 + d)) l; len := l |}.
Definition v6_net (hi l : Z) : Cidr := {| net := mask (V6 hi) l; len := l |}.

(** What the guard blocks.  The module's table says [0.0.0.0/8] where the guard has the
    one address [0.0.0.0]. *)
Definition zero_network : Cidr := v4_net 0 0 0 0 8.

Definition guard_networks : list Cidr := [
  v4_net 10 0 0 0 8; v4_net 172 16 0 0 12; v4_net 192 168 0 0 16; v4_net 127 0 0 0 8;
  v4_net 169 254 0 0 16; v4_net 100 64 0 0 10; v4_net 255 255 255 255 32;
  v4_net 192 0 2 0 24; v4_net 198 51 100 0 24; v4_net 203 0 113 0 24;
  v4_net 0 0 0 0 32; v4_net 168 63 129 16 32; v4_net 240 0 0 0 4;
  v6_net 1 128; v6_net 0 128; v6_net (0xfc00 * 2 ^ 112) 7; v6_net (0xff00 * 2 ^ 112) 8;
  v6_net (0x20010db8 * 2 ^ 96) 32].

(** The networks the module says are blocked. *)
Definition blocked_networks : list Cidr := zero_network :: guard_networks.

Lemma contains_v4 (x y l : Z) :
  0 ≤ x < 2 ^ 32 → 0 ≤ y < 2 ^ 32 → 0 ≤ l ≤ 32 →
  contains {| net := mask (V4 y) l; len := l |} (V4 x) = (x / 2 ^ (32 - l) =? y / 2 ^ (32 - l)).
Proof.
  intros Hx Hy Hl. apply eq_true_iff_eq. rewrite contains_spec, Z.eqb_eq by done. cbn. tauto.
Qed.

Lemma contains_v6 (x y l : Z) :
  0 ≤ x < 2 ^ 128 → 0 ≤ y < 2 ^ 128 → 0 ≤ l ≤ 128 → to_ipv4_mapped x = None →
  contains {| net := mask (V6 y) l; len := l |} (V6 x) = (x / 2 ^ (128 - l) =? y / 2 ^ (128 - l)).
Proof.
  intros Hx Hy Hl Hm. apply eq_true_iff_eq. rewrite contains_spec, Z.eqb_eq by done.
  cbn [to_canonical]. rewrite Hm. cbn. tauto.
Qed.

Lemma contains_v6_v4 (x y l : Z) : contains {| net := mask (V6 y) l; len := l |} (V4 x) = false.
Proof. done. Qed.

Lemma contains_v4_v6 (x y l : Z) :
  to_ipv4_mapped x = None → contains {| net := mask (V4 y) l; len := l |} (V6 x) = false.
Proof. intros Hm. unfold contains. cbn [to_canonical]. by rewrite Hm. Qed.

Lemma octets_spec (a : Z) :
  0 ≤ a < 2 ^ 32 → ∃ o0 o1 o2 o3,
    a = o0 * 16777216 + o1 * 65536 + o2 * 256 + o3 ∧
    (0 ≤ o0 < 256 ∧ 0 ≤ o1 < 256 ∧ 0 ≤ o2 < 256 ∧ 0 ≤ o3 < 256) ∧
    octet a 0 = o0 ∧ octet a 1 = o1 ∧ octet a 2 = o2 ∧ octet a 3 = o3.
Proof.
  change (2 ^ 32) with 4294967296. intros Ha.
  exists (a / 256 / 256 / 256), ((a / 256 / 256) `mod` 256), ((a / 256) `mod` 256), (a `mod` 256).
  rewrite !octet_div by lia.
  change (2 ^ (8 * (3 - 0))) with (256 * 256 * 256). change (2 ^ (8 * (3 - 1))) with (256 * 256).
  change (2 ^ (8 * (3 - 2))) with 256. change (2 ^ (8 * (3 - 3))) with 1.
  rewrite Z.div_1_r, <- !Z.div_div by lia. repeat split; dlia.
Qed.

(** Comparing leading bits is comparing leading octets. *)
Ltac prefix_bits :=
  apply eq_true_iff_eq; rewrite ?orb_true_iff, ?andb_true_iff, ?Z.eqb_eq, ?Z.leb_le; dlia.

Lemma blocked_v4_networks (a : Z) :
  0 ≤ a < 2 ^ 32 → is_blocked_v4 a = existsb (λ c, contains c (V4 a)) guard_networks.
Proof.
  intros Ha. unfold guard_networks, v4_net, v6_net. cbn [existsb].
  rewrite !contains_v4, !contains_v6_v4 by lia.
  unfold is_blocked_v4, v4_is_private, v4_is_loopback, v4_is_link_local, is_cgnat, v4_is_broadcast,
    v4_is_documentation, v4_is_unspecified, is_azure_imds, is_reserved_class_e.
  destruct (octets_spec a Ha) as (o0 & o1 & o2 & o3 & Eo & Hb & -> & -> & -> & ->). clear Ha.
  assert (Z.land o1 0xc0 = o1 / 64 * 64) as -> by (apply (land_shl_max 8 6); lia).
  repeat match goal with
  | |- context [a / 2 ^ (32 - ?l)] => let k := eval vm_compute in (2 ^ (32 - l)) in change (2 ^ (32 - l)) with k
  | |- context [(?w * 2 ^ 24 + ?x + ?y + ?z) / ?k] =>
      let c := (eval vm_compute in ((w * 2 ^ 24 + x + y + z) / k)) in
      change ((w * 2 ^ 24 + x + y + z) / k) with c
  end.
  assert (a / 16777216 = o0) as -> by dlia. assert (a / 1048576 = o0 * 16 + o1 / 16) as -> by dlia.
  assert (a / 65536 = o0 * 256 + o1) as -> by dlia. assert (a / 4194304 = o0 * 4 + o1 / 64) as -> by dlia.
  assert (a / 256 = o0 * 65536 + o1 * 256 + o2) as -> by dlia.
  assert (a / 268435456 = o0 / 16) as -> by dlia. rewrite !Z.div_1_r.
  replace (o0 * 16 + o1 / 16 =? 2753) with ((o0 =? 172) && ((16 <=? o1) && (o1 <=? 31))) by prefix_bits.
  replace (o0 * 256 + o1 =? 49320) with ((o0 =? 192) && (o1 =? 168)) by prefix_bits.
  replace (o0 * 256 + o1 =? 43518) with ((o0 =? 169) && (o1 =? 254)) by prefix_bits.
  replace (o0 * 4 + o1 / 64 =? 401) with ((o0 =? 100) && (o1 / 64 * 64 =? 64)) by prefix_bits.
  replace (o0 * 65536 + o1 * 256 + o2 =? 12582914) with ((o0 =? 192) && (o1 =? 0) && (o2 =? 2)) by prefix_bits.
  replace (o0 * 65536 + o1 * 256 + o2 =? 12989284) with ((o0 =? 198) && (o1 =? 51) && (o2 =? 100)) by prefix_bits.
  replace (o0 * 65536 + o1 * 256 + o2 =? 13303921) with ((o0 =? 203) && (o1 =? 0) && (o2 =? 113)) by prefix_bits.
  replace (a =? 2822734096) with ((o0 =? 168) && (o1 =? 63) && (o2 =? 129) && (o3 =? 16)) by prefix_bits.
  replace (o0 / 16 =? 15) with (240 <=? o0) by prefix_bits.
  change u32_max with 4294967295. btauto.
Qed.

Lemma blocked_v6_networks (a : Z) :
  0 ≤ a < 2 ^ 128 → to_ipv4_mapped a = None →
  is_blocked_ip (V6 a) = existsb (λ c, contains c (V6 a)) guard_networks.
Proof.
  intros Ha Hm. unfold guard_networks, v4_net, v6_net. cbn [existsb].
  rewrite !contains_v4_v6 by done. rewrite !contains_v6 by (done || lia).
  unfold is_blocked_ip. rewrite Hm. unfold v6_is_loopback, v6_is_unspecified, is_unique_local_v6,
    v6_is_multicast, is_ipv6_documentation.
  rewrite !segment_div by lia.
  set (s0 := (a / 2 ^ (16 * (7 - 0))) `mod` 65536). set (s1 := (a / 2 ^ (16 * (7 - 1))) `mod` 65536).
  assert (a / 2 ^ 96 = s0 * 65536 + s1 ∧ 0 ≤ s0 < 65536 ∧ 0 ≤ s1 < 65536) as (E & H0 & H1).
  { subst s0 s1. change (2 ^ (16 * (7 - 0))) with (2 ^ 96 * 65536).
    change (2 ^ (16 * (7 - 1))) with (2 ^ 96). rewrite <- Z.div_div by lia.
    assert (0 ≤ a / 2 ^ 96 < 2 ^ 32) by dlia. dlia. }
  assert (Z.land s0 0xfe00 = s0 / 512 * 512) as -> by (apply (land_shl_max 16 9); lia).
  assert (Z.land s0 0xff00 = s0 / 256 * 256) as -> by (apply (land_shl_max 16 8); lia).
  change (2 ^ (128 - 7)) with (2 ^ 96 * 33554432). change (2 ^ (128 - 8)) with (2 ^ 96 * 16777216).
  change (2 ^ (128 - 32)) with (2 ^ 96). change (2 ^ (128 - 128)) with 1.
  rewrite <- !Z.div_div by lia. rewrite E. clearbody s0 s1.
  change (0xfc00 * 2 ^ 112 / 2 ^ 96 / 33554432) with 126.
  change (0xff00 * 2 ^ 112 / 2 ^ 96 / 16777216) with 255.
  change (0x20010db8 * 2 ^ 96 / 2 ^ 96) with 536939960. rewrite !Z.div_1_r.
  replace ((s0 * 65536 + s1) / 33554432 =? 126) with (s0 / 512 * 512 =? 0xfc00) by prefix_bits.
  replace ((s0 * 65536 + s1) / 16777216 =? 255) with (s0 / 256 * 256 =? 0xff00) by prefix_bits.
  replace (s0 * 65536 + s1 =? 536939960) with ((s0 =? 0x2001) && (s1 =? 0x0db8)) by prefix_bits.
  btauto.
Qed.

Lemma contains_canonical (c : Cidr) (ip : IpAddr) : contains c (to_canonical ip) = contains c ip.
Proof.
  unfold contains. destruct ip as [a|a]; cbn [to_canonical]; [done|].
  by destruct (to_ipv4_mapped a) eqn:E; cbn [to_canonical]; rewrite ?E.
Qed.

(** The guard's predicate, written with octets and segments, is membership in the
    table. *)
Lemma guard_networks_exact (ip : IpAddr) :
  ip_wf ip → is_blocked_ip ip = existsb (λ c, contains c ip) guard_networks.
Proof.
  intros Hw. destruct ip as [a|a]; [by apply blocked_v4_networks|].
  destruct (to_ipv4_mapped a) as [v4|] eqn:E; [|by apply blocked_v6_networks].
  pose proof (canonical_wf (V6 a) Hw) as Hc. pose proof (λ c, contains_canonical c (V6 a)) as Hcc.
  cbn [to_canonical] in *. rewrite E in *. cbn [is_blocked_ip]. rewrite E.
  rewrite blocked_v4_networks by done. clear -Hcc. induction guard_networks as [|c l IH]; [done|].
  cbn [existsb]. by rewrite IH, Hcc.
Qed.

(** ** Parsed addresses are addresses *)

Lemma read_digits_bound (radix : Z) (s : bytes) :
  0 < radix → Forall (λ d, 0 ≤ d) (read_digits radix s).1.
Proof.
  intros Hr. induction s as [|b s IH]; [by constructor|]. simpl.
  destruct (to_digit radix b) as [d|] eqn:E; [|by constructor].
  destruct (read_digits radix s) as [ds r]. constructor; [|done].
  unfold to_digit, hex_nibble in E.
  repeat (case_match; simplify_eq/=; breflect); lia.
Qed.

Lemma foldl_digits_nonneg (radix acc : Z) (ds : list Z) :
  0 < radix → 0 ≤ acc → Forall (λ d, 0 ≤ d) ds → 0 ≤ foldl (λ acc d, acc * radix + d) acc ds.
Proof. intros Hr. revert acc. induction ds as [|d ds IH]; intros acc Ha; [done|]. intros [? ?]%Forall_cons. apply IH; [nia|done]. Qed.

Lemma read_number_bound radix max k z s n r :
  0 < radix → read_number radix max k z s = Some (n, r) → 0 ≤ n ≤ max.
Proof.
  intros Hr. unfold read_number. pose proof (read_digits_bound radix s Hr) as Hb.
  destruct (read_digits radix s) as [ds r']. cbn [fst] in Hb.
  pose proof (foldl_digits_nonneg radix 0 ds Hr ltac:(lia) Hb).
  destruct (_ || _) eqn:E; [done|]. intros [= <- <-]. breflect. lia.
Qed.

Lemma read_separator_some {A} sep i (inner : bytes → option (A * bytes)) s v :
  read_separator sep i inner s = Some v → ∃ s', inner s' = Some v.
Proof. destruct i; simpl; [eauto|]. intros (s' & _ & E)%bind_Some. eauto. Qed.

Lemma read_group_bound radix max k z sep i s n r :
  0 < radix → read_separator sep i (read_number radix max k z) s = Some (n, r) → 0 ≤ n ≤ max.
Proof. intros Hr [s' E]%read_separator_some. by eapply read_number_bound. Qed.

Lemma read_ipv4_bound s a r : read_ipv4_addr s = Some (a, r) → 0 ≤ a < 2 ^ 32.
Proof.
  unfold read_ipv4_addr. intros E.
  do 4 (let Hn := fresh in apply bind_Some in E as ([? ?] & Hn & E); apply read_group_bound in Hn; [|lia]).
  injection E as <- <-. change (2 ^ 32) with 4294967296. lia.
Qed.

Definition is_segment (g : Z) : Prop := 0 ≤ g < 65536.

Lemma read_groups_bound slots i s :
  let '(gs, _, _) := read_groups slots i s in Forall is_segment gs ∧ (length gs ≤ slots)%nat.
Proof.
  revert i s. induction slots as [|slots IH]; intros i s; cbn [read_groups]; [done|].
  destruct (if (0 <? slots)%nat then _ else _) as [[v4 r]|] eqn:E.
  - destruct (Nat.ltb_spec 0 slots); [|done].
    apply read_separator_some in E as [s' Hv%read_ipv4_bound]. split; [|simpl; lia].
    change 65535 with (Z.ones 16). rewrite Z.land_ones, Z.shiftr_div_pow2 by lia.
    change (2 ^ 32) with 4294967296 in Hv. change (2 ^ 16) with 65536. unfold is_segment.
    repeat constructor; dlia.
  - destruct (read_separator ":"%byte i (read_number 16 65535 4 true) s) as [[g r]|] eqn:Eg;
      [|split; [constructor|simpl; lia]].
    apply read_group_bound in Eg as Hg; [|lia].
    specialize (IH (S i) r). destruct (read_groups slots (S i) r) as [[gs v] r'].
    destruct IH as [Hgs Hl]. split; [|simpl; lia]. constructor; [unfold is_segment; lia|done].
Qed.

Lemma of_segments_bound acc gs :
  Forall is_segment gs → 0 ≤ acc →
  acc * 2 ^ (16 * lenZ gs) ≤ foldl (λ acc g, acc * 65536 + g) acc gs < (acc + 1) * 2 ^ (16 * lenZ gs).
Proof.
  intros Hgs. revert acc. induction Hgs as [|g gs Hg _ IH]; intros acc Hacc.
  - simpl foldl. change (16 * lenZ (@nil Z)) with 0. lia.
  - cbn [foldl]. unfold is_segment in Hg. specialize (IH (acc * 65536 + g) ltac:(lia)).
    replace (16 * lenZ (g :: gs)) with (16 + 16 * lenZ gs) by (unfold lenZ; simpl; lia).
    rewrite Z.pow_add_r by (pose proof (lenZ_nonneg gs); lia). change (2 ^ 16) with 65536.
    pose proof (Z.pow_nonneg 2 (16 * lenZ gs) ltac:(lia)). nia.
Qed.

Lemma read_ipv6_bound s a r : read_ipv6_addr s = Some (a, r) → 0 ≤ a < 2 ^ 128.
Proof.
  unfold read_ipv6_addr. pose proof (read_groups_bound 8 0 s) as Hh.
  destruct (read_groups 8 0 s) as [[hd hd4] r1]. destruct Hh as [Hh Hhl].
  destruct (Nat.eqb_spec (length hd) 8) as [E8|Hn8].
  - intros [= <- <-]. pose proof (of_segments_bound 0 hd Hh ltac:(lia)) as Hb.
    replace (16 * lenZ hd) with 128 in Hb by (unfold lenZ; lia). unfold of_segments. lia.
  - destruct hd4; [done|]. intros (r2 & _ & (r3 & _ & E)%bind_Some)%bind_Some.
    pose proof (read_groups_bound (8 - (length hd + 1)) 0 r3) as Ht.
    destruct (read_groups (8 - (length hd + 1)) 0 r3) as [[tl tl4] r4]. destruct Ht as [Ht Htl].
    injection E as <- <-.
    set (gs := hd ++ replicate (8 - length hd - length tl) 0 ++ tl).
    assert (Forall is_segment gs) as Hgs.
    { apply Forall_app; split; [done|]. apply Forall_app; split; [|done].
      apply Forall_replicate. by unfold is_segment. }
    pose proof (of_segments_bound 0 gs Hgs ltac:(lia)) as Hb.
    replace (16 * lenZ gs) with 128 in Hb; [unfold of_segments; lia|].
    unfold lenZ, gs. rewrite !length_app, length_replicate. lia.
Qed.

Lemma ip_parse_wf s ip : ip_parse s = Some ip → ip_wf ip.
Proof.
  unfold ip_parse. destruct (read_ipv4_addr s) as [[a [|]]|] eqn:E4; [|done|].
  - intros [= <-]. by eapply read_ipv4_bound.
  - destruct (read_ipv6_addr s) as [[a [|]]|] eqn:E6; [|done..]. intros [= <-]. by eapply read_ipv6_bound.
Qed.

(** ** Validated targets *)

Lemma not_blocked_outside (ip : IpAddr) :
  ip_wf ip → is_blocked_ip ip = false → Forall (λ c, contains c ip = false) guard_networks.
Proof.
  intros Hw. rewrite guard_networks_exact by done. intros E. apply Forall_forall. intros c Hc.
  apply not_true_iff_false. intros Hcon. apply not_true_iff_false in E. apply E.
  apply existsb_exists. exists c. by rewrite <- list_elem_of_In.
Qed.

(** An address that is in none of the networks the module lists; or, of those, only in
    [0.0.0.0/8], and then it is not [0.0.0.0]. *)
Definition public_or_zero (ip : IpAddr) : Prop :=
  (∀ c, c ∈ blocked_networks → contains c ip = true → c = zero_network) ∧ contains (v4_net 0 0 0 0 32) ip = false.

Lemma outside_public ip : Forall (λ c, contains c ip = false) guard_networks → public_or_zero ip.
Proof.
  intros Ho. rewrite Forall_forall in Ho. split.
  - intros c [->|Hc]%elem_of_cons Hin; [done|]. by rewrite Ho in Hin.
  - apply Ho. unfold guard_networks. do 10 right. left.
Qed.

(** C15. A validated URL is only ever connected to public addresses, with one exception:
    in a release build, for every target that [validate_url_pinned] returns, the addresses
    that a client bound to it uses exist, do not depend on what the resolver answers
    later, and lie, in IPv4, IPv6 or IPv4-mapped form, in none of the networks that the
    module lists as blocked - except that of [0.0.0.0/8], which the module lists, the code
    blocks [0.0.0.0] alone ([zero_network_not_blocked]). *)
Theorem validated_target_is_public url_parse lookup_host raw t :
  (∀ host port addrs, lookup_host host port = Some addrs → Forall (λ a, ip_wf (sa_ip a)) addrs) →
  validate_url_pinned url_parse lookup_host false raw = Ok t →
  ∀ answer,
    pin t answer ≠ [] ∧ pin t answer = pin t [] ∧ Forall public_or_zero (pin t answer).
Proof.
  intros Hdns E answer. unfold validate_url_pinned in E.
  apply rbind_Ok in E as (url & _ & E). destruct (negb _); [done|].
  apply rbind_Ok in E as (host & _ & E). destruct (ip_parse host) as [ip|] eqn:Ei; cbn [andb] in E.
  - destruct (is_blocked_ip ip) eqn:Eb; [done|]. injection E as <-.
    unfold pin. cbn [pt_addrs pt_host]. rewrite Ei. split_and!; [done..|].
    constructor; [|done]. apply outside_public, not_blocked_outside; [by eapply ip_parse_wf|done].
  - apply rbind_Ok in E as (addrs & El & E). destruct (lookup_host _ _) as [l|] eqn:Eh; [|done].
    injection El as ->. apply Hdns in Eh. destruct addrs as [|a0 addrs']; [done|].
    set (addrs := a0 :: addrs') in *. destruct (existsb _ addrs) eqn:Ex; [done|]. injection E as <-.
    unfold pin. cbn [pt_addrs]. unfold addrs. split_and!; [done..|]. fold addrs.
    apply Forall_fmap, Forall_forall. intros x Hx. rewrite Forall_forall in Eh.
    apply outside_public, not_blocked_outside; [by apply Eh|]. apply not_true_iff_false. intros Hb.
    apply not_true_iff_false in Ex. apply Ex. apply existsb_exists. exists x.
    by rewrite <- list_elem_of_In.
Qed.

(** A host that resolves to a public address; it is refused once it resolves to the
    metadata service as well. *)
Definition demo_url_parse (raw : bytes) : option ParsedUrl :=
  Some {| url_scheme := lit "https"; url_host := Some raw; url_port_or_known_default := Some 443 |}.
Definition demo_lookup (ips : list Z) (host : bytes) (port : Z) : option (list SocketAddr) :=
  Some ((λ a, {| sa_ip := V4 a; sa_port := port |}) <$> ips).

Lemma validated_target_is_public_witness :
  let t := {| pt_host := lit "hooks.example"; pt_addrs := [{| sa_ip := V4 0x5db8d822; sa_port := 443 |}] |} in
  Forall public_or_zero (pin t [V4 0xa9fea9fe]).
Proof.
  apply (validated_target_is_public demo_url_parse (demo_lookup [0x5db8d822]) (lit "hooks.example")).
  - intros host port addrs [= <-]. by repeat constructor.
  - vm_compute. reflexivity.
Defined.

Example rebinding_is_refused :
  validate_url_pinned demo_url_parse (demo_lookup [0x5db8d822; 0xa9fea9fe]) false (lit "hooks.example")
  = Err BlockedAddress.
Proof. vm_compute. reflexivity. Qed.

(** The address [0.1.2.3] of the block [0.0.0.0/8] passes the guard: only
    [0.0.0.0] itself is "unspecified". *)
Lemma zero_network_not_blocked :
  is_blocked_ip (V4 0x00010203) = false ∧ contains zero_network (V4 0x00010203) = true.
Proof. vm_compute. done. Qed.
