(* ===== verification/Glob.v ===== *)
(** * Model patterns

    [glob_match], [provider_facing_names] and [deny_matches] of
    [crates/shared/src/key_policy.rs].  The matcher walks pattern and text with two
    indices and remembers the last star, so it never backtracks past it; here an
    index is the suffix that starts at it.

    The theorems: the walk takes at most [(|p| + 1) (|t| + 1)] steps and decides
    the declarative relation [glob]; denial looks at every provider-facing name. *)

From Stdlib Require Import ZArith Lia.
From stdpp Require Import base list option.
From S2P Require Import Prelude Network.

(** ** Bytes *)

Definition to_ascii_lowercase1 (b : byte) : byte :=
  if ((65 <=? byteZ b) && (byteZ b <=? 90))%Z then Zbyte (byteZ b + 32) else b.
Definition to_ascii_lowercase (s : bytes) : bytes := to_ascii_lowercase1 <$> s.
Definition eq_ignore_ascii_case (a b : byte) : bool :=
  bool_decide (to_ascii_lowercase1 a = to_ascii_lowercase1 b).
Definition is_ascii_alphabetic (b : byte) : bool :=
  let z := byteZ b in ((65 <=? z) && (z <=? 90) || (97 <=? z) && (z <=? 122))%Z.

Definition star_byte : byte := "*"%byte.

(** ** The matcher *)

(** One turn of the loop at pattern suffix [p], text suffix [t] and last star
    [(pattern after it, text it absorbs up to)].  [None]: out of fuel. *)
Fixpoint glob_loop (fuel : nat) (p t : bytes) (star : option (bytes * bytes)) : option bool :=
  match fuel with
  | O => None
  | S fuel' =>
      match t with
      | [] => Some (forallb (λ b, bool_decide (b = star_byte)) p)
      | b :: t' =>
          let absorb :=
            match star with
            | Some (sp, st) => glob_loop fuel' sp (tail st) (Some (sp, tail st))
            | None => Some false
            end in
          match p with
          | a :: p' =>
              if bool_decide (a = star_byte) then glob_loop fuel' p' t (Some (p', t))
              else if eq_ignore_ascii_case a b then glob_loop fuel' p' t' star
              else absorb
          | [] => absorb
          end
      end
  end.

Definition glob_fuel (p t : bytes) : nat := S (length t) * S (length p).

Definition glob_match (pattern text : bytes) : bool :=
  default false (glob_loop (glob_fuel pattern text) pattern text None).

(** ** Provider-facing names *)

Definition next_name (rest : bytes) : option bytes :=
  match split_once "/"%byte rest with
  | Some (_, t) => Some t
  | None =>
      match split_once "."%byte rest with
      | Some (h, t) =>
          if negb (bool_decide (h = [])) && forallb is_ascii_alphabetic h then Some t else None
      | None => None
      end
  end.

(** The loop of [provider_facing_names]; every turn shortens [rest]. *)
Fixpoint facing_names (fuel : nat) (rest : bytes) : list bytes :=
  match fuel with
  | O => []
  | S fuel' =>
      match next_name rest with
      | Some (c :: n) => (c :: n) :: facing_names fuel' (c :: n)
      | _ => []
      end
  end.

Definition provider_facing_names (model : bytes) : list bytes := facing_names (length model) model.

Definition deny_matches (patterns : list bytes) (model : bytes) : bool :=
  existsb (λ g, glob_match g model) patterns
  || existsb (λ n, existsb (λ g, glob_match g n) patterns) (provider_facing_names model).

(** ** The specification *)

(** A star matches any run of bytes, every other byte itself up to ASCII case. *)
Inductive glob : bytes → bytes → Prop :=
  | glob_nil : glob [] []
  | glob_skip p t : glob p t → glob (star_byte :: p) t
  | glob_take p b t : glob (star_byte :: p) t → glob (star_byte :: p) (b :: t)
  | glob_byte a p b t :
      a ≠ star_byte → eq_ignore_ascii_case a b = true → glob p t → glob (a :: p) (b :: t).

(** ** Correctness of the walk *)

(** A run of pattern bytes without a star against a run of text. *)
Definition literal (q x : bytes) : Prop :=
  Forall2 (λ a b, a ≠ star_byte ∧ eq_ignore_ascii_case a b = true) q x.

Lemma glob_star_drop p t k : glob (star_byte :: p) (drop k t) → glob (star_byte :: p) t.
Proof.
  revert k. induction t as [|b t IH]; intros k; [by rewrite drop_nil|].
  destruct k as [|k]; [done|]. intros H%IH. by constructor.
Qed.

Lemma glob_star p t : glob (star_byte :: p) t ↔ ∃ k, (k ≤ length t)%nat ∧ glob p (drop k t).
Proof.
  split.
  - remember (star_byte :: p) as p0 eqn:E. induction 1 as [|q t H _|q b t H IH|a q b t Ha]; simplify_eq.
    + exists 0%nat. split; [lia|done].
    + destruct (IH eq_refl) as (k & Hk & Hg). exists (S k). simpl. split; [lia|done].
  - intros (k & _ & H). apply (glob_star_drop p t k). by constructor.
Qed.

Lemma glob_byte_inv a p t :
  a ≠ star_byte → glob (a :: p) t → ∃ b t', t = b :: t' ∧ eq_ignore_ascii_case a b = true ∧ glob p t'.
Proof. intros Ha H. inversion H; simplify_eq; eauto. Qed.

Lemma glob_nil_text p : glob p [] ↔ forallb (λ b, bool_decide (b = star_byte)) p = true.
Proof.
  induction p as [|a p IH]; simpl; [split; [done|constructor]|].
  rewrite andb_true_iff, bool_decide_eq_true, <- IH. split.
  - intros H. inversion H; simplify_eq; auto.
  - intros [-> H]. by constructor.
Qed.

(** A match of [q ++ p] takes the length of [q] off the text. *)
Lemma glob_literal_app q x p t :
  literal q x → glob (q ++ p) t → (length q ≤ length t)%nat ∧ glob p (drop (length q) t).
Proof.
  intros H. revert t. induction H as [|a b q x [Ha _] _ IH]; intros t Hg; [split; [simpl; lia|done]|].
  apply glob_byte_inv in Hg as (b' & t' & -> & _ & Hg); [|done].
  apply IH in Hg as [? ?]. split; [simpl; lia|done].
Qed.

(** What is still possible at a state of the walk. *)
Definition remaining (p t : bytes) (star : option (bytes * bytes)) : Prop :=
  glob p t ∨ match star with
             | Some (sp, st) => ∃ k, (1 ≤ k ≤ length st)%nat ∧ glob sp (drop k st)
             | None => False
             end.

(** Since the last star the walk has matched a literal run. *)
Definition star_ok (p t : bytes) (star : option (bytes * bytes)) : Prop :=
  match star with
  | Some (sp, st) => ∃ q x, sp = q ++ p ∧ st = x ++ t ∧ literal q x
  | None => True
  end.

(** What a later start after the same star could still match, a star reached now
    matches as well. *)
Lemma later_start_subsumed sp st p t k :
  star_ok (star_byte :: p) t (Some (sp, st)) → (1 ≤ k ≤ length st)%nat → glob sp (drop k st) →
  glob (star_byte :: p) t.
Proof.
  intros (q & x & -> & -> & Hl) Hk Hg. pose proof (Forall2_length _ _ _ Hl) as Hlen.
  apply (glob_literal_app q x) in Hg as [Hq Hg]; [|done].
  rewrite drop_drop in Hg. rewrite drop_app_ge in Hg by lia. by eapply glob_star_drop.
Qed.

Lemma later_start_too_short sp st p k :
  star_ok p [] (Some (sp, st)) → (1 ≤ k ≤ length st)%nat → ¬ glob sp (drop k st).
Proof.
  intros (q & x & -> & -> & Hl) Hk Hg. pose proof (Forall2_length _ _ _ Hl) as Hlen.
  apply (glob_literal_app q x) in Hg as [Hq _]; [|done].
  rewrite app_nil_r in *. rewrite length_drop in Hq. lia.
Qed.

(** The three moves of the walk keep what is still possible. *)
Lemma remaining_absorb sp c st p t :
  ¬ glob p t → remaining sp st (Some (sp, st)) ↔ remaining p t (Some (sp, c :: st)).
Proof.
  intros Hno. unfold remaining. split.
  - intros [H|(k & Hk & H)]; right; [exists 1%nat|exists (S k)]; cbn [drop length]; (split; [lia|done]).
  - intros [H|(k & Hk & H)]; [done|]. destruct k as [|[|k]]; [lia|by left|].
    right. exists (S k). cbn [drop length] in *. split; [lia|done].
Qed.

Lemma remaining_star p t star :
  star_ok (star_byte :: p) t star →
  remaining p t (Some (p, t)) ↔ remaining (star_byte :: p) t star.
Proof.
  intros Hok. transitivity (glob (star_byte :: p) t).
  - unfold remaining. rewrite glob_star. split.
    + intros [H|(k & Hk & H)]; [exists 0%nat|exists k]; (split; [lia|done]).
    + intros ([|k] & Hk & H); [by left|]. right. exists (S k). split; [lia|done].
  - unfold remaining. split; [by left|]. intros [H|H]; [done|]. destruct star as [[sp st]|]; [|done].
    destruct H as (k & Hk & H). by eapply later_start_subsumed.
Qed.

Lemma remaining_byte a p b t star :
  a ≠ star_byte → eq_ignore_ascii_case a b = true →
  remaining p t star ↔ remaining (a :: p) (b :: t) star.
Proof.
  intros Ha Eab. unfold remaining.
  enough (glob p t ↔ glob (a :: p) (b :: t)) as -> by done.
  split; [by constructor|]. intros (b' & t' & [= <- <-] & _ & H)%glob_byte_inv; done.
Qed.

Lemma star_ok_byte a p b t star :
  a ≠ star_byte → eq_ignore_ascii_case a b = true → star_ok (a :: p) (b :: t) star → star_ok p t star.
Proof.
  intros Ha Eab. destruct star as [[sp st]|]; [|done]. intros (q & x & -> & -> & Hl).
  exists (q ++ [a]), (x ++ [b]). rewrite <- !app_assoc. repeat split.
  apply Forall2_app; [done|]. by repeat constructor.
Qed.

Lemma star_ok_fresh p t : star_ok p t (Some (p, t)).
Proof. exists [], []. by repeat split; try constructor. Qed.

(** Every turn shortens the pattern, or moves the last star's text on. *)
Definition turns (n : nat) (p t : bytes) (star : option (bytes * bytes)) : nat :=
  length (from_option snd t star) * S n + length p.

Lemma glob_loop_spec n fuel p t star :
  star_ok p t star → (length p ≤ n)%nat → (length (from_option fst [] star) ≤ n)%nat →
  (turns n p t star < fuel)%nat →
  ∃ r, glob_loop fuel p t star = Some r ∧ (r = true ↔ remaining p t star).
Proof.
  revert p t star. induction fuel as [|fuel IH]; intros p t star Hok Hp Hsp Hf; [lia|].
  unfold turns in *. cbn [glob_loop]. destruct t as [|b t'].
  { eexists; split; [done|]. rewrite <- glob_nil_text. unfold remaining.
    destruct star as [[sp st]|]; [|naive_solver]. split; [by left|]. intros [H|(k & Hk & H)]; [done|].
    by destruct (later_start_too_short _ _ _ _ Hok Hk). }
  assert (¬ glob p (b :: t') →
    ∃ r, match star with
         | Some (sp, st) => glob_loop fuel sp (tail st) (Some (sp, tail st))
         | None => Some false
         end = Some r ∧ (r = true ↔ remaining p (b :: t') star)) as Habsorb.
  { intros Hno. destruct star as [[sp st]|]; [|exists false; unfold remaining; naive_solver].
    destruct st as [|c st']; [by destruct Hok as (q & [|] & _ & [=] & _)|]. cbn [tail].
    setoid_rewrite <- remaining_absorb; [|done].
    apply IH; [apply star_ok_fresh|done..|]. cbn [from_option fst snd length] in *. lia. }
  destruct p as [|a p']; [apply Habsorb; by inversion 1|]. simpl in Hp.
  case_bool_decide as Ea; [|destruct (eq_ignore_ascii_case a b) eqn:Eab].
  - subst a. setoid_rewrite <- remaining_star; [|done].
    apply IH; [apply star_ok_fresh|simpl; lia..|].
    destruct star as [[sp st]|]; cbn [from_option snd length] in *; [|lia].
    destruct Hok as (q & x & _ & -> & _). rewrite length_app in Hf. simpl length in Hf. lia.
  - setoid_rewrite <- remaining_byte; [|done..].
    apply IH; [by eapply star_ok_byte|lia|done|].
    destruct star as [[sp st]|]; cbn [from_option snd length] in *; lia.
  - apply Habsorb. intros (b' & t2 & [= <- <-] & E & _)%glob_byte_inv; [congruence|done].
Qed.

Lemma glob_match_decides p t :
  ∃ r, glob_loop (glob_fuel p t) p t None = Some r ∧ (r = true ↔ glob p t).
Proof.
  destruct (glob_loop_spec (length p) (glob_fuel p t) p t None) as (r & Hr & Hiff);
    [done|done|simpl; lia|unfold turns, glob_fuel; simpl; lia|].
  exists r. split; [done|]. rewrite Hiff. unfold remaining. tauto.
Qed.

(** C16. The model-pattern matcher decides the pattern language: with [|t| + 1] times
    [|p| + 1] turns it always ends, and answers true exactly when the pattern
    matches the text, stars standing for any run of bytes and other bytes for
    themselves up to ASCII case. *)
Theorem glob_match_correct p t :
  (∃ r, glob_loop (glob_fuel p t) p t None = Some r) ∧ (glob_match p t = true ↔ glob p t).
Proof.
  destruct (glob_match_decides p t) as (r & Hr & Hiff). split; [by exists r|].
  unfold glob_match. by rewrite Hr.
Qed.

(** ** Denial looks behind every routing prefix *)

(** The names a model carries once routing prefixes are stripped, one after the
    other. *)
Inductive facing : bytes → bytes → Prop :=
  | facing_refl m : facing m m
  | facing_next m n x : next_name m = Some n → n ≠ [] → facing n x → facing m x.

Lemma split_once_length c s h t : split_once c s = Some (h, t) → (length t < length s)%nat.
Proof.
  unfold split_once. destruct (list_find _ s) as [[i b]|] eqn:E; [|done]. intros [= <- <-].
  apply list_find_Some in E as (E & _ & _). apply lookup_lt_Some in E. rewrite length_drop. lia.
Qed.

Lemma next_name_length m n : next_name m = Some n → (length n < length m)%nat.
Proof.
  unfold next_name. destruct (split_once "/"%byte m) as [[h t]|] eqn:E.
  - intros [= <-]. by eapply split_once_length.
  - destruct (split_once "."%byte m) as [[h t]|] eqn:E'; [|done].
    destruct (_ && _); [|done]. intros [= <-]. by eapply split_once_length.
Qed.

Lemma facing_names_spec fuel m x :
  (length m ≤ fuel)%nat → (x = m ∨ x ∈ facing_names fuel m) ↔ facing m x.
Proof.
  revert m. induction fuel as [|fuel IH]; intros m Hm; cbn [facing_names].
  - split.
    + intros [->|H]; [constructor|]. by apply elem_of_nil in H.
    + intros H. left. destruct H as [m|m n x H _ _]; [done|]. apply next_name_length in H. lia.
  - destruct (next_name m) as [[|c n]|] eqn:E.
    + split; [intros [->|[]%elem_of_nil]; constructor|]. intros H; inversion H; simplify_eq; auto.
    + rewrite elem_of_cons. pose proof (next_name_length _ _ E) as Hl.
      rewrite (IH (c :: n)) by lia. split.
      * intros [->|H]; [constructor|]. by eapply facing_next.
      * intros H; inversion H; simplify_eq; auto.
    + split; [intros [->|[]%elem_of_nil]; constructor|]. intros H; inversion H; simplify_eq; auto.
Qed.

Lemma glob_match_glob p t : glob_match p t = true ↔ glob p t.
Proof.
  destruct (glob_match_decides p t) as (r & Hr & Hiff). unfold glob_match. by rewrite Hr.
Qed.

(** A deny list matches a model by its name or by any name it may carry on the
    provider's wire. *)
Lemma deny_matches_spec patterns model :
  deny_matches patterns model = true ↔ ∃ g n, g ∈ patterns ∧ facing model n ∧ glob g n.
Proof.
  unfold deny_matches. rewrite orb_true_iff, !existsb_elem_of.
  setoid_rewrite existsb_elem_of. setoid_rewrite glob_match_glob.
  setoid_rewrite <- (facing_names_spec (length model) model) at 1; [|done].
  fold (provider_facing_names model). naive_solver.
Qed.

Example deny_looks_behind_prefixes :
  deny_matches [lit "gpt-4o*"] (lit "openrouter/openai/GPT-4o-mini") = true
  ∧ deny_matches [lit "claude-*"] (lit "us.anthropic.claude-3-haiku") = true
  ∧ deny_matches [lit "1"] (lit "gpt-4.1") = false.
Proof. vm_compute. done. Qed.
