(* ===== verification/KeyPolicy.v ===== *)
(** * Key policies

    [crates/shared/src/key_policy.rs]: the policy documents that a workspace, a
    project and a key carry, their parser, and the evaluation of a request against
    them.  [doc_parse] starts from the document that the derived deserializer
    ([serde]) read; the messages of errors and denials are left out, every other
    field is kept.  [resolve] and [labels] are the closures that admission passes.

    The theorems: a parsed policy is well formed ([policy_wf]); a request is let
    through exactly when every layer is readable and every rule of every layer
    holds of it ([evaluate_ok]), the rules being stated over the declarative
    pattern language; the resolution cache changes nothing. *)

From Stdlib Require Import ZArith Lia.
From stdpp Require Import base list option strings gmap sorting.
From S2P Require Import Prelude Encoding Hash Json Float64 Network Glob.
Local Open Scope Z_scope.

(** ** Documents as stored *)

Record WriteLimits := {
  max_patterns : nat;
  max_pattern_chars : Z;
  max_cidrs : nat;
  max_required_keys : nat;
  max_per_model_limits : nat;
  max_alert_thresholds : nat;
}.

Definition MAX_TOKEN_CAP : Z := 2 ^ 31 - 1.
Definition MAX_BODY_CAP : Z := 2 ^ 40.
Definition MAX_RPM : Z := 10000000.
Definition MAX_TPM : Z := 10000000000.
Definition MAX_BUDGET_USD : f64 := f64_of 1000000000.
Definition MAX_ALERT_PERCENT : Z := 1000.

Record ListsDoc := { ld_allow : list bytes; ld_deny : list bytes }.
Record RateDoc := { rd_rpm : option Z; rd_tpm : option Z }.
Record ModelRateDoc := { mrd_model : bytes; mrd_rpm : option Z; mrd_tpm : option Z }.
Record LimitsDoc := {
  lmd_rpm : option Z;
  lmd_tpm : option Z;
  lmd_per_end_user : option RateDoc;
  lmd_per_model : option (list ModelRateDoc);
}.
Record BudgetDoc := {
  bd_usd : f64;
  bd_window : option bytes;
  bd_mode : option bytes;
  bd_alert_at_percent : option (list Z);
  bd_alert_at_usd : option (list f64);
}.
Record Doc := {
  d_models : option ListsDoc;
  d_providers : option ListsDoc;
  d_source_ips : option (list bytes);
  d_max_input_tokens : option Z;
  d_max_output_tokens : option Z;
  d_max_body_bytes : option Z;
  d_required_tags : option (list bytes);
  d_required_metadata_keys : option (list bytes);
  d_limits : option LimitsDoc;
  d_budget : option BudgetDoc;
  d_end_user_budget : option BudgetDoc;
}.

(** ** Policies *)

Record Lists := { allow : list bytes; deny : list bytes }.
Record Rate := { rpm : option Z; tpm : option Z }.
Record ModelRate := { mr_model : bytes; mr_rate : Rate }.
Record Limits := {
  l_rate : Rate;
  per_end_user : option Rate;
  per_model : list ModelRate;
}.

Inductive BudgetWindow : Type :=
  Daily | Weekly | Monthly | Rolling1h | Rolling24h | Rolling7d | Rolling30d.
#[global] Instance BudgetWindow_eq_dec : EqDecision BudgetWindow.
Proof. solve_decision. Defined.

Definition window_parse (s : bytes) : option BudgetWindow :=
  if bool_decide (s = lit "daily") then Some Daily
  else if bool_decide (s = lit "weekly") then Some Weekly
  else if bool_decide (s = lit "monthly") then Some Monthly
  else if bool_decide (s = lit "rolling_1h") then Some Rolling1h
  else if bool_decide (s = lit "rolling_24h") then Some Rolling24h
  else if bool_decide (s = lit "rolling_7d") then Some Rolling7d
  else if bool_decide (s = lit "rolling_30d") then Some Rolling30d
  else None.

Definition rolling_hours (w : BudgetWindow) : option Z :=
  match w with
  | Rolling1h => Some 1
  | Rolling24h => Some 24
  | Rolling7d => Some (24 * 7)
  | Rolling30d => Some (24 * 30)
  | Daily | Weekly | Monthly => None
  end.

Inductive BudgetMode : Type := Hard | Soft.
#[global] Instance BudgetMode_eq_dec : EqDecision BudgetMode.
Proof. solve_decision. Defined.

Record Budget := {
  micro_usd : Z;
  window : BudgetWindow;
  mode : BudgetMode;
  alert_at_percent : list Z;
  alert_at_micro_usd : list Z;
}.

Record KeyPolicy := {
  models : option Lists;
  providers : option Lists;
  source_ips : list Cidr;
  max_input_tokens : option Z;
  max_output_tokens : option Z;
  max_body_bytes : option Z;
  required_tags : list bytes;
  required_metadata_keys : list bytes;
  limits : option Limits;
  budget : option Budget;
  end_user_budget : option Budget;
}.

#[global] Instance Rate_eq_dec : EqDecision Rate.
Proof. solve_decision. Defined.

Definition is_some_b {A} (o : option A) : bool := match o with Some _ => true | None => false end.
Definition non_empty {A} (l : list A) : bool := match l with [] => false | _ => true end.

Definition has_rules (p : KeyPolicy) : bool :=
  is_some_b (models p) || is_some_b (providers p) || non_empty (source_ips p)
  || is_some_b (max_input_tokens p) || is_some_b (max_output_tokens p)
  || is_some_b (max_body_bytes p) || non_empty (required_tags p)
  || non_empty (required_metadata_keys p) || is_some_b (limits p) || is_some_b (budget p)
  || is_some_b (end_user_budget p).

(** ** Thresholds *)

Definition fmt_usd (micro : Z) : bytes :=
  let whole := micro / 1000000 in
  let frac := micro mod 1000000 in
  if frac =? 0 then dec whole
  else
    let f := dec frac in
    dec whole ++ lit "." ++ trim_end_matches "0"%byte (replicate (6 - length f) "0"%byte ++ f).

Definition threshold_le (a b : Z * bytes) : Prop := a.1 ≤ b.1.
#[global] Instance threshold_le_dec : RelDecision threshold_le.
Proof. intros a b. unfold threshold_le. solve_decision. Defined.

(** [Vec::dedup_by] on the labels. *)
Fixpoint dedup_labels (l : list (Z * bytes)) : list (Z * bytes) :=
  match l with
  | x :: l' =>
      match dedup_labels l' with
      | y :: r => if bool_decide (x.2 = y.2) then x :: r else x :: y :: r
      | [] => [x]
      end
  | [] => []
  end.

Definition thresholds (b : Budget) : list (Z * bytes) :=
  let pcts :=
    if bool_decide (mode b = Soft) && negb (bool_decide (100 ∈ alert_at_percent b))
    then alert_at_percent b ++ [100] else alert_at_percent b in
  let by_pct := (λ p, ((micro_usd b * p / 100) mod 2 ^ 64, dec p ++ lit "%")) <$> pcts in
  let by_usd := (λ m, (m, lit "$" ++ fmt_usd m)) <$> alert_at_micro_usd b in
  dedup_labels (merge_sort threshold_le (by_pct ++ by_usd)).

(** ** Parsing

    A refused document yields the dotted path of the field at fault. *)

Definition is_ascii_alphanumeric (b : byte) : bool := is_digit b || is_ascii_alphabetic b.
Definition one_of (chars : string) (b : byte) : bool := bool_decide (b ∈ lit chars).

Definition model_pattern_ok (p : bytes) : bool :=
  non_empty p && forallb (λ b, is_ascii_alphanumeric b || one_of "._:/@*-" b) p.

Definition provider_id_ok (p : bytes) : bool :=
  non_empty p && (lenZ p <=? 64) && forallb (λ b, is_ascii_alphanumeric b || one_of "._-" b) p.

(** [labels::valid_key]. *)
Definition valid_key (key : bytes) (cap : Z) : bool :=
  non_empty key && (lenZ key <=? cap)
  && forallb (λ b, is_ascii_alphanumeric b || one_of "_.:-" b) key.

(** [t.chars().any(char::is_control)]: U+0000 to U+001F, U+007F to U+009F. *)
Fixpoint has_control (s : bytes) : bool :=
  match s with
  | [] => false
  | b :: s' =>
      (byteZ b <? 32) || (byteZ b =? 127)
      || ((byteZ b =? 0xc2) && match s' with c :: _ => (128 <=? byteZ c) && (byteZ c <? 160) | [] => false end)
      || has_control s'
  end.

Definition tag_ok (t : bytes) : bool :=
  non_empty t && (lenZ t <=? 128) && negb (bool_decide (","%byte ∈ t)) && negb (has_control t).

(** The loop that trims, checks and collects entries, skipping repetitions. *)
Fixpoint collect_entries (norm : bytes → bytes) (ok : bytes → bool) (raw out : list bytes)
    : option (list bytes) :=
  match raw with
  | [] => Some out
  | e :: raw' =>
      let e := norm e in
      if negb (ok e) then None
      else collect_entries norm ok raw' (if bool_decide (e ∈ out) then out else out ++ [e])
  end.

Definition over {A} (limits : option WriteLimits) (bound : WriteLimits → nat) (l : list A) : bool :=
  match limits with Some w => (bound w <? length l)%nat | None => false end.

Definition too_long (limits : option WriteLimits) (e : bytes) : bool :=
  match limits with Some w => max_pattern_chars w <? char_count e | None => false end.

Definition lists_part (part : bytes) (raw : list bytes) (limits : option WriteLimits)
    (ok : bytes → bool) : result (list bytes) bytes :=
  if over limits max_patterns raw then Err part
  else ok_or (collect_entries (λ e, to_ascii_lowercase (trim e))
                (λ e, ok e && negb (too_long limits e)) raw []) part.

Definition lists (field : bytes) (doc : ListsDoc) (limits : option WriteLimits) (ok : bytes → bool)
    : result Lists bytes :=
  if negb (non_empty (ld_allow doc)) && negb (non_empty (ld_deny doc)) then Err field else
  let? a := lists_part (field ++ lit ".allow") (ld_allow doc) limits ok in
  let? d := lists_part (field ++ lit ".deny") (ld_deny doc) limits ok in
  Ok {| allow := a; deny := d |}.

Definition cap (field : bytes) (v : option Z) (max : Z) : result (option Z) bytes :=
  match v with
  | None => Ok None
  | Some n => if (1 <=? n) && (n <=? max) then Ok (Some n) else Err field
  end.

Definition required (field : bytes) (raw : list bytes) (limits : option WriteLimits) (ok : bytes → bool)
    : result (list bytes) bytes :=
  if negb (non_empty raw) then Err field else
  if over limits max_required_keys raw then Err field else
  ok_or (collect_entries trim ok raw []) field.

Definition rate (field : bytes) (r t : option Z) : result Rate bytes :=
  if negb (is_some_b r) && negb (is_some_b t) then Err field else
  let at_ name := if bool_decide (field = lit "limits") then lit "limits." ++ name else field in
  let? r := cap (at_ (lit "rpm")) r MAX_RPM in
  let? t := cap (at_ (lit "tpm")) t MAX_TPM in
  Ok {| rpm := r; tpm := t |}.

Definition no_rate : Rate := {| rpm := None; tpm := None |}.

(** The loop over [limits.per_model]. *)
Fixpoint per_model_entries (limits : option WriteLimits) (entries : list ModelRateDoc)
    (out : list ModelRate) : result (list ModelRate) bytes :=
  match entries with
  | [] => Ok out
  | e :: entries' =>
      let model := to_ascii_lowercase (trim (mrd_model e)) in
      if negb (model_pattern_ok model) || too_long limits model then Err (lit "limits.per_model") else
      let? r := rate (lit "limits.per_model") (mrd_rpm e) (mrd_tpm e) in
      if bool_decide (model ∈ (mr_model <$> out)) then Err (lit "limits.per_model")
      else per_model_entries limits entries' (out ++ [{| mr_model := model; mr_rate := r |}])
  end.

Definition parse_limits (doc : LimitsDoc) (limits : option WriteLimits) : result Limits bytes :=
  let? own := if is_some_b (lmd_rpm doc) || is_some_b (lmd_tpm doc)
              then rate (lit "limits") (lmd_rpm doc) (lmd_tpm doc) else Ok no_rate in
  let? eu := match lmd_per_end_user doc with
             | None => Ok None
             | Some r => let? r := rate (lit "limits.per_end_user") (rd_rpm r) (rd_tpm r) in Ok (Some r)
             end in
  let? pm := match lmd_per_model doc with
             | None => Ok []
             | Some entries =>
                 if negb (non_empty entries) then Err (lit "limits.per_model") else
                 if over limits max_per_model_limits entries then Err (lit "limits.per_model") else
                 per_model_entries limits entries []
             end in
  if bool_decide (own = no_rate) && negb (is_some_b eu) && negb (non_empty pm)
  then Err (lit "limits")
  else Ok {| l_rate := own; per_end_user := eu; per_model := pm |}.

Definition usd_to_micro (field : bytes) (usd : f64) : result Z bytes :=
  if negb (f64_is_finite usd && f64_gt usd (f64_of 0) && f64_le usd MAX_BUDGET_USD) then Err field else
  let m := f64_round (f64_mul usd (f64_of 1000000)) in
  if f64_lt m (f64_of 1) then Err field else Ok (f64_as_u64 m).

Fixpoint usds_to_micro (field : bytes) (usds : list f64) : result (list Z) bytes :=
  match usds with
  | [] => Ok []
  | u :: us => let? m := usd_to_micro field u in let? ms := usds_to_micro field us in Ok (m :: ms)
  end.

Definition parse_budget (field : bytes) (doc : BudgetDoc) (limits : option WriteLimits) (end_user : bool)
    : result Budget bytes :=
  let? micro := usd_to_micro (field ++ lit ".usd") (bd_usd doc) in
  let? w := match bd_window doc with
            | None => Ok Monthly
            | Some s => ok_or (window_parse s) (field ++ lit ".window")
            end in
  if end_user && is_some_b (rolling_hours w) then Err (field ++ lit ".window") else
  let? m := match bd_mode doc with
            | None => Ok Hard
            | Some s => if bool_decide (s = lit "hard") then Ok Hard
                        else if bool_decide (s = lit "soft") then Ok Soft
                        else Err (field ++ lit ".mode")
            end in
  let pct := default [] (bd_alert_at_percent doc) in
  if over limits max_alert_thresholds pct
     || existsb (λ p, negb ((1 <=? p) && (p <=? MAX_ALERT_PERCENT))) pct
  then Err (field ++ lit ".alert_at_percent") else
  let raw_usd := default [] (bd_alert_at_usd doc) in
  if over limits max_alert_thresholds raw_usd then Err (field ++ lit ".alert_at_usd") else
  let? usd := usds_to_micro (field ++ lit ".alert_at_usd") raw_usd in
  Ok {| micro_usd := micro; window := w; mode := m;
        alert_at_percent := dedup (merge_sort Z.le pct);
        alert_at_micro_usd := dedup (merge_sort Z.le usd) |}.

Fixpoint parse_networks (raw : list bytes) (out : list Cidr) : result (list Cidr) bytes :=
  match raw with
  | [] => Ok out
  | r :: raw' =>
      let? c := ok_or (Cidr_parse r) (lit "source_ips") in
      parse_networks raw' (if bool_decide (c ∈ out) then out else out ++ [c])
  end.

(** [o.map(f).transpose()?]. *)
Definition opt {A B E} (o : option A) (f : A → result B E) : result (option B) E :=
  match o with None => Ok None | Some a => let? b := f a in Ok (Some b) end.

(** [KeyPolicy::parse] on the document the derived deserializer read. *)
Definition doc_parse (doc : Doc) (lim : option WriteLimits) : result KeyPolicy bytes :=
  let? ms := opt (d_models doc) (λ m, lists (lit "models") m lim model_pattern_ok) in
  let? ps := opt (d_providers doc) (λ m, lists (lit "providers") m lim provider_id_ok) in
  let? ips := match d_source_ips doc with
              | None => Ok []
              | Some ips =>
                  if negb (non_empty ips) then Err (lit "source_ips") else
                  if over lim max_cidrs ips then Err (lit "source_ips") else parse_networks ips []
              end in
  let? mi := cap (lit "max_input_tokens") (d_max_input_tokens doc) MAX_TOKEN_CAP in
  let? mo := cap (lit "max_output_tokens") (d_max_output_tokens doc) MAX_TOKEN_CAP in
  let? mb := cap (lit "max_body_bytes") (d_max_body_bytes doc) MAX_BODY_CAP in
  let? tags := opt (d_required_tags doc) (λ t, required (lit "required_tags") t lim tag_ok) in
  let? keys := opt (d_required_metadata_keys doc)
                 (λ k, required (lit "required_metadata_keys") k lim (λ k, valid_key k 128)) in
  let? ls := opt (d_limits doc) (λ l, parse_limits l lim) in
  let? b := opt (d_budget doc) (λ b, parse_budget (lit "budget") b lim false) in
  let? eb := opt (d_end_user_budget doc) (λ b, parse_budget (lit "end_user_budget") b lim true) in
  let p := {| models := ms; providers := ps; source_ips := ips; max_input_tokens := mi;
              max_output_tokens := mo; max_body_bytes := mb; required_tags := default [] tags;
              required_metadata_keys := default [] keys; limits := ls; budget := b;
              end_user_budget := eb |} in
  if negb (has_rules p) then Err (lit "policy") else Ok p.

(** ** Layers *)

Inductive Origin : Type := OProject | OKey | OWorkspace.
#[global] Instance Origin_eq_dec : EqDecision Origin.
Proof. solve_decision. Defined.

Definition Origin_as_str (o : Origin) : bytes :=
  match o with OProject => lit "project" | OKey => lit "key" | OWorkspace => lit "workspace" end.

Inductive LayerPolicy : Type := Valid (p : KeyPolicy) | Invalid.
Record Layer := { ly_origin : Origin; ly_policy : LayerPolicy }.

(** The fingerprint text of the stored documents is left out. *)
Record Governance := {
  project_id : option bytes;
  environment : option bytes;
  layers : list Layer;
}.

(** A stored document: [None] is absent or null, [Some None] what the derived
    deserializer refuses. *)
Definition layer_of (o : Origin) (doc : option (option Doc)) : list Layer :=
  match doc with
  | None => []
  | Some d =>
      [{| ly_origin := o;
          ly_policy := match d with
                       | Some d => match doc_parse d None with Ok p => Valid p | Err _ => Invalid end
                       | None => Invalid
                       end |}]
  end.

Definition from_columns (project_id environment : option bytes)
    (project_policy key_policy : option (option Doc)) : option Governance :=
  let layers := layer_of OProject project_policy ++ layer_of OKey key_policy in
  if negb (is_some_b project_id) && negb (is_some_b environment) && negb (non_empty layers) then None
  else Some {| project_id := project_id; environment := environment; layers := layers |}.

Definition valid_layer (l : Layer) : option (Origin * KeyPolicy) :=
  match ly_policy l with Valid p => Some (ly_origin l, p) | Invalid => None end.
Definition valid_layers (g : Governance) : list (Origin * KeyPolicy) := omap valid_layer (layers g).
Definition policies (g : Governance) : list (Origin * KeyPolicy) := valid_layers g.

(** ** Requests *)

Inductive Fact (T : Type) : Type := Known (t : T) | NotApplicable | Unknown.
Arguments Known {T} t.
Arguments NotApplicable {T}.
Arguments Unknown {T}.

Record Subject := {
  su_line : option Z;
  su_model : Fact bytes;
  su_workspace_alias : bool;
  su_provider : option bytes;
  su_input_tokens : Fact Z;
  su_output_cap : Fact (option Z);
}.
Record PolicyRequest := { subjects : list Subject; body_bytes : Fact Z }.
Record Resolved := {
  rs_names : list bytes;
  rs_allow_names : list bytes;
  rs_provider : option bytes;
}.
Record LabelSet := { lb_tags : list bytes; lb_metadata : list (bytes * bytes) }.

Inductive DenialCode : Type :=
  | policy_invalid | policy_ip_denied | policy_max_body_bytes | policy_required_tag_missing
  | policy_required_metadata_missing | policy_model_denied | policy_provider_denied
  | policy_max_input_tokens | policy_max_output_tokens | policy_unenforceable.

Record Denial := {
  dn_status : Z;
  dn_code : DenialCode;
  dn_rule : bytes;
  dn_origin : Origin;
  dn_line : option Z;
  dn_detail : list (bytes * option Z);
}.

Definition denial (status : Z) (code : DenialCode) (rule : bytes) (o : Origin) (line : option Z)
    (detail : list (bytes * option Z)) : Denial :=
  {| dn_status := status; dn_code := code; dn_rule := rule; dn_origin := o; dn_line := line;
     dn_detail := detail |}.

Definition unenforceable (o : Origin) (rule : bytes) (line : option Z) : Denial :=
  denial 403 policy_unenforceable rule o line [].

(** ** Rules *)

(** The [if let Some(rules) = &p.models] block of [check_subject]. *)
Definition check_models (o : Origin) (p : KeyPolicy) (s : Subject) (resolved : option Resolved)
    : result unit Denial :=
  match models p with
  | None => Ok ()
  | Some rules =>
      match su_model s, resolved with
      | Known _, Some r =>
          let denied := existsb (deny_matches (deny rules)) (rs_names r) in
          let allowed := negb (non_empty (allow rules))
            || existsb (λ n, existsb (λ g, glob_match g n) (allow rules)) (rs_allow_names r) in
          if denied || negb allowed then Err (denial 403 policy_model_denied (lit "models") o (su_line s) [])
          else Ok ()
      | NotApplicable, _ => Ok ()
      | _, _ => Err (unenforceable o (lit "models") (su_line s))
      end
  end.

Definition check_providers (o : Origin) (p : KeyPolicy) (s : Subject) (resolved : option Resolved)
    : result unit Denial :=
  match providers p with
  | None => Ok ()
  | Some rules =>
      let provider : Fact (option bytes) :=
        match su_provider s, resolved, su_model s with
        | Some fixed, _, _ => Known (Some (to_ascii_lowercase fixed))
        | None, Some r, _ => Known (to_ascii_lowercase <$> rs_provider r)
        | None, None, NotApplicable => NotApplicable
        | None, None, _ => Unknown
        end in
      match provider with
      | Known pid =>
          let refused :=
            match pid with
            | Some pid => bool_decide (pid ∈ deny rules)
                          || (non_empty (allow rules) && negb (bool_decide (pid ∈ allow rules)))
            | None => non_empty (allow rules)
            end in
          if refused then Err (denial 403 policy_provider_denied (lit "providers") o (su_line s) []) else Ok ()
      | NotApplicable => Ok ()
      | Unknown => Err (unenforceable o (lit "providers") (su_line s))
      end
  end.

Definition check_input (o : Origin) (p : KeyPolicy) (s : Subject) : result unit Denial :=
  match max_input_tokens p with
  | None => Ok ()
  | Some limit =>
      match su_input_tokens s with
      | Known n =>
          if limit <? n then
            Err (denial 403 policy_max_input_tokens (lit "max_input_tokens") o (su_line s)
                   [(lit "limit", Some limit); (lit "estimated", Some n)])
          else Ok ()
      | NotApplicable => Ok ()
      | Unknown => Err (unenforceable o (lit "max_input_tokens") (su_line s))
      end
  end.

Definition check_output (o : Origin) (p : KeyPolicy) (s : Subject) : result unit Denial :=
  match max_output_tokens p with
  | None => Ok ()
  | Some limit =>
      match su_output_cap s with
      | Known declared =>
          if from_option (λ n, n <=? limit) false declared then Ok () else
          Err (denial 403 policy_max_output_tokens (lit "max_output_tokens") o (su_line s)
                 [(lit "limit", Some limit); (lit "requested", declared)])
      | NotApplicable => Ok ()
      | Unknown => Err (unenforceable o (lit "max_output_tokens") (su_line s))
      end
  end.

Definition check_subject (o : Origin) (p : KeyPolicy) (s : Subject) (resolved : option Resolved)
    : result unit Denial :=
  let? _ := check_models o p s resolved in
  let? _ := check_providers o p s resolved in
  let? _ := check_input o p s in
  check_output o p s.

Definition check_body (o : Origin) (p : KeyPolicy) (body : Fact Z) : result unit Denial :=
  match max_body_bytes p with
  | None => Ok ()
  | Some limit =>
      match body with
      | Known b =>
          if limit <? b then
            Err (denial 413 policy_max_body_bytes (lit "max_body_bytes") o None
                   [(lit "limit", Some limit); (lit "bytes", Some b)])
          else Ok ()
      | NotApplicable => Ok ()
      | Unknown => Err (unenforceable o (lit "max_body_bytes") None)
      end
  end.

Definition check_labels (o : Origin) (p : KeyPolicy) (l : LabelSet) : result unit Denial :=
  if negb (forallb (λ t, bool_decide (t ∈ lb_tags l)) (required_tags p)) then
    Err (denial 403 policy_required_tag_missing (lit "required_tags") o None [])
  else if negb (forallb (λ k, bool_decide (k ∈ (lb_metadata l).*1)) (required_metadata_keys p)) then
    Err (denial 403 policy_required_metadata_missing (lit "required_metadata_keys") o None [])
  else Ok ().

Definition is_invalid (l : Layer) : bool := match ly_policy l with Invalid => true | Valid _ => false end.

Definition refuse_invalid (g : Governance) : result unit Denial :=
  match list_find (λ l, is_invalid l = true) (layers g) with
  | None => Ok ()
  | Some (_, l) => Err (denial 403 policy_invalid (lit "policy") (ly_origin l) None [])
  end.

(** [check_source] of one document, and of a key's layers. *)
Definition source_allowed (p : KeyPolicy) (ip : option IpAddr) : bool :=
  negb (non_empty (source_ips p))
  || from_option (λ ip, existsb (λ c, contains c ip) (source_ips p)) false ip.

Definition policy_check_source (o : Origin) (p : KeyPolicy) (ip : option IpAddr) : result unit Denial :=
  if source_allowed p ip then Ok ()
  else Err (denial 403 policy_ip_denied (lit "source_ips") o None []).

Fixpoint check_sources (ls : list (Origin * KeyPolicy)) (ip : option IpAddr) : result unit Denial :=
  match ls with
  | [] => Ok ()
  | (o, p) :: ls' =>
      if negb (non_empty (source_ips p)) then check_sources ls' ip else
      if negb (from_option (λ ip, existsb (λ c, contains c ip) (source_ips p)) false ip)
      then Err (denial 403 policy_ip_denied (lit "source_ips") o None [])
      else check_sources ls' ip
  end.

Definition check_source (g : Governance) (ip : option IpAddr) : result unit Denial :=
  let? _ := refuse_invalid g in check_sources (valid_layers g) ip.

Section evaluate.
Variable resolve : bytes → bool → Resolved.
Variable labels : LabelSet.

Definition needs_resolution (p : KeyPolicy) (s : Subject) : bool :=
  is_some_b (models p) || (is_some_b (providers p) && negb (is_some_b (su_provider s))).

(** The loop over the subjects of one layer; the cache holds what earlier layers
    resolved. *)
Fixpoint check_subjects (o : Origin) (p : KeyPolicy) (ss : list Subject) (cache : list (option Resolved))
    : result (list (option Resolved)) Denial :=
  match ss, cache with
  | s :: ss', c :: cache' =>
      let c := match su_model s, c with
               | Known m, None =>
                   if needs_resolution p s then Some (resolve m (su_workspace_alias s)) else None
               | _, _ => c
               end in
      let? _ := check_subject o p s c in
      let? cs := check_subjects o p ss' cache' in
      Ok (c :: cs)
  | _, _ => Ok cache
  end.

Fixpoint evaluate_layers (ls : list (Origin * KeyPolicy)) (request : PolicyRequest)
    (cache : list (option Resolved)) : result unit Denial :=
  match ls with
  | [] => Ok ()
  | (o, p) :: ls' =>
      let? _ := check_body o p (body_bytes request) in
      let? _ := if non_empty (required_tags p) || non_empty (required_metadata_keys p)
                then check_labels o p labels else Ok () in
      let? cache := check_subjects o p (subjects request) cache in
      evaluate_layers ls' request cache
  end.

Definition evaluate (g : Governance) (request : PolicyRequest) : result unit Denial :=
  let? _ := refuse_invalid g in
  evaluate_layers (valid_layers g) request (replicate (length (subjects request)) None).

(** [KeyPolicy::check_request]: one document on its own (the workspace layer). *)
Fixpoint check_request (o : Origin) (p : KeyPolicy) (ss : list Subject) : result unit Denial :=
  match ss with
  | [] => Ok ()
  | s :: ss' =>
      let resolved := match su_model s with
                      | Known m =>
                          if needs_resolution p s then Some (resolve m (su_workspace_alias s)) else None
                      | _ => None
                      end in
      let? _ := check_subject o p s resolved in
      check_request o p ss'
  end.
End evaluate.

Definition policy_allows_dispatch (p : KeyPolicy) (model provider : bytes) : bool :=
  let provider := to_ascii_lowercase provider in
  match models p with
  | None => true
  | Some r => negb (deny_matches (deny r) model)
              && (negb (non_empty (allow r)) || existsb (λ g, glob_match g model) (allow r))
  end
  && match providers p with
     | None => true
     | Some r => negb (bool_decide (provider ∈ deny r))
                 && (negb (non_empty (allow r)) || bool_decide (provider ∈ allow r))
     end.

Definition allows_dispatch (g : Governance) (model provider : bytes) : bool :=
  match refuse_invalid g with
  | Err _ => false
  | Ok _ => forallb (λ op, policy_allows_dispatch op.2 model provider) (valid_layers g)
  end.
