(* ===== verification/KeyPolicyProofs.v ===== *)
(** * Key policies: what is stored and what is let through

    The declarative reading of every rule ([permits]) over the pattern language
    [glob], and the two theorems: evaluation is exactly [permits] of every layer,
    and a parsed policy is well formed. *)

From Stdlib Require Import ZArith Lia.
From stdpp Require Import base list option strings gmap sorting.
From S2P Require Import Prelude Encoding Hash Json Float64 Network Glob KeyPolicy.
Local Open Scope Z_scope.

(** ** What a rule means *)

(** No pattern of the deny list matches any name the request is known by, behind
    any prefix; the allow list, if there is one, matches a dispatched name. *)
Definition lists_permit (r : Lists) (rs : Resolved) : Prop :=
  (∀ n x g, n ∈ rs_names rs → facing n x → g ∈ deny r → ¬ glob g x) ∧
  (allow r = [] ∨ ∃ n g, n ∈ rs_allow_names rs ∧ g ∈ allow r ∧ glob g n).

Definition provider_permitted (r : Lists) (pid : option bytes) : Prop :=
  match pid with
  | Some pid => pid ∉ deny r ∧ (allow r = [] ∨ pid ∈ allow r)
  | None => allow r = []
  end.

(** A fact satisfies a rule when it is known and good, or the rule cannot apply; an
    unknown fact never does. *)
Definition fact_ok {T} (P : T → Prop) (f : Fact T) : Prop :=
  match f with Known t => P t | NotApplicable => True | Unknown => False end.

Definition when_set {T} (o : option T) (P : T → Prop) : Prop :=
  match o with Some t => P t | None => True end.

Section permits.
Variable resolve : bytes → bool → Resolved.
Variable labels : LabelSet.

Record subject_permitted (p : KeyPolicy) (s : Subject) : Prop := {
  sp_models : when_set (models p) (λ r,
    fact_ok (λ m, lists_permit r (resolve m (su_workspace_alias s))) (su_model s));
  sp_providers : when_set (providers p) (λ r,
    match su_provider s with
    | Some fixed => provider_permitted r (Some (to_ascii_lowercase fixed))
    | None => fact_ok (λ m, provider_permitted r
                (to_ascii_lowercase <$> rs_provider (resolve m (su_workspace_alias s)))) (su_model s)
    end);
  sp_input : when_set (max_input_tokens p) (λ limit, fact_ok (λ n, n ≤ limit) (su_input_tokens s));
  sp_output : when_set (max_output_tokens p) (λ limit,
    fact_ok (λ declared, ∃ n, declared = Some n ∧ n ≤ limit) (su_output_cap s));
}.

Record permits (p : KeyPolicy) (request : PolicyRequest) : Prop := {
  pm_body : when_set (max_body_bytes p) (λ limit, fact_ok (λ b, b ≤ limit) (body_bytes request));
  pm_tags : ∀ t, t ∈ required_tags p → t ∈ lb_tags labels;
  pm_metadata : ∀ k, k ∈ required_metadata_keys p → k ∈ (lb_metadata labels).*1;
  pm_subjects : ∀ s, s ∈ subjects request → subject_permitted p s;
}.

(** ** Each check decides its rule *)

Lemma rbind_unit_Ok {A B E} (r : result A E) (k : result B E) b :
  (rbind r (λ _, k)) = Ok b ↔ (∃ a, r = Ok a) ∧ k = Ok b.
Proof. rewrite rbind_Ok. naive_solver. Qed.

Lemma unit_Ok {E} (r : result unit E) : (∃ a, r = Ok a) ↔ r = Ok ().
Proof. destruct r as [[]|]; split; eauto. by intros [? ?]. Qed.

Lemma if_Ok {E} (b : bool) (e : E) : (if b then Err e else Ok ()) = Ok () ↔ b = false.
Proof. by destruct b. Qed.

Lemma non_empty_nil {A} (l : list A) : non_empty l = false ↔ l = [].
Proof. by destruct l. Qed.

(** What the cache may hold for a subject. *)
Definition cached (s : Subject) (c : option Resolved) : Prop :=
  c = None ∨ ∃ m, su_model s = Known m ∧ c = Some (resolve m (su_workspace_alias s)).

(** ... and what it holds when the subject is checked. *)
Definition resolved_for (p : KeyPolicy) (s : Subject) (c : option Resolved) : Prop :=
  cached s c ∧ ∀ m, su_model s = Known m → needs_resolution p s = true →
    c = Some (resolve m (su_workspace_alias s)).

Lemma lists_permit_spec r rs :
  existsb (deny_matches (deny r)) (rs_names rs)
  || negb (negb (non_empty (allow r))
           || existsb (λ n, existsb (λ g, glob_match g n) (allow r)) (rs_allow_names rs)) = false
  ↔ lists_permit r rs.
Proof.
  rewrite orb_false_iff, negb_false_iff, orb_true_iff, negb_true_iff, non_empty_nil.
  rewrite <- not_true_iff_false, existsb_elem_of. setoid_rewrite deny_matches_spec.
  rewrite existsb_elem_of. setoid_rewrite existsb_elem_of. setoid_rewrite glob_match_glob.
  unfold lists_permit. naive_solver.
Qed.

Lemma check_models_ok o p s c :
  resolved_for p s c →
  check_models o p s c = Ok () ↔
  when_set (models p) (λ r, fact_ok (λ m, lists_permit r (resolve m (su_workspace_alias s))) (su_model s)).
Proof.
  intros [_ Hc]. unfold check_models, needs_resolution in *. destruct (models p) as [r|]; [|done].
  destruct (su_model s) as [m| |]; simpl; try done.
  rewrite (Hc m eq_refl eq_refl). by rewrite if_Ok, lists_permit_spec.
Qed.

Lemma provider_permitted_spec r pid :
  match pid with
  | Some pid => bool_decide (pid ∈ deny r) || (non_empty (allow r) && negb (bool_decide (pid ∈ allow r)))
  | None => non_empty (allow r)
  end = false ↔ provider_permitted r pid.
Proof.
  destruct pid as [pid|]; simpl; [|by rewrite non_empty_nil].
  rewrite orb_false_iff, bool_decide_eq_false, andb_false_iff, negb_false_iff, bool_decide_eq_true.
  by rewrite non_empty_nil.
Qed.

Lemma check_providers_ok o p s c :
  resolved_for p s c →
  check_providers o p s c = Ok () ↔
  when_set (providers p) (λ r,
    match su_provider s with
    | Some fixed => provider_permitted r (Some (to_ascii_lowercase fixed))
    | None => fact_ok (λ m, provider_permitted r
                (to_ascii_lowercase <$> rs_provider (resolve m (su_workspace_alias s)))) (su_model s)
    end).
Proof.
  intros [Hca Hc]. unfold check_providers, needs_resolution in *. destruct (providers p) as [r|]; [|done].
  destruct (su_provider s) as [fixed|]; simpl; [by rewrite if_Ok, (provider_permitted_spec r (Some _))|].
  destruct (su_model s) as [m| |] eqn:Em; simpl.
  - rewrite (Hc m eq_refl) by by rewrite orb_true_r. by rewrite if_Ok, provider_permitted_spec.
  - destruct Hca as [->|(m & E & _)]; [done|congruence].
  - destruct Hca as [->|(m & E & _)]; [done|congruence].
Qed.

Lemma check_input_ok o p s :
  check_input o p s = Ok () ↔
  when_set (max_input_tokens p) (λ limit, fact_ok (λ n, n ≤ limit) (su_input_tokens s)).
Proof.
  unfold check_input. destruct (max_input_tokens p); [|done].
  destruct (su_input_tokens s); simpl; try done. rewrite if_Ok, Z.ltb_ge. done.
Qed.

Lemma check_output_ok o p s :
  check_output o p s = Ok () ↔
  when_set (max_output_tokens p) (λ limit,
    fact_ok (λ declared, ∃ n, declared = Some n ∧ n ≤ limit) (su_output_cap s)).
Proof.
  unfold check_output. destruct (max_output_tokens p) as [l|]; [|done].
  destruct (su_output_cap s) as [[n|]| |]; simpl; try done; [|naive_solver].
  destruct (Z.leb_spec n l); split; [by eauto|done|done|]. intros (n' & [= <-] & ?). lia.
Qed.

Lemma check_subject_ok o p s c :
  resolved_for p s c → check_subject o p s c = Ok () ↔ subject_permitted p s.
Proof.
  intros Hc. unfold check_subject. rewrite !rbind_unit_Ok.
  rewrite !unit_Ok, check_models_ok, check_providers_ok, check_input_ok, check_output_ok by done.
  split; [intros (? & ? & ? & ?); by constructor|]. by intros [].
Qed.

(** ** The loops *)

Definition resolve_now (p : KeyPolicy) (s : Subject) (c : option Resolved) : option Resolved :=
  match su_model s, c with
  | Known m, None => if needs_resolution p s then Some (resolve m (su_workspace_alias s)) else None
  | _, _ => c
  end.

Lemma resolve_now_ok p s c : cached s c → resolved_for p s (resolve_now p s c).
Proof.
  unfold resolved_for, cached, resolve_now. intros [->|(m & Em & ->)]; [|rewrite Em; naive_solver].
  destruct (su_model s) as [m| |] eqn:Em; [|naive_solver..].
  destruct (needs_resolution p s); naive_solver.
Qed.

Lemma check_subjects_ok o p ss cache :
  Forall2 cached ss cache →
  (∃ cache', check_subjects resolve o p ss cache = Ok cache') ↔ ∀ s, s ∈ ss → subject_permitted p s.
Proof.
  induction 1 as [|s c ss cache Hc _ IH]; cbn [check_subjects].
  - split; [intros _ s []%elem_of_nil|eauto].
  - fold (resolve_now p s c). pose proof (check_subject_ok o p s _ (resolve_now_ok p s c Hc)) as Hs. split.
    + intros (cs & [[[] E] (cs' & E' & _)%rbind_Ok]%rbind_unit_Ok) x [->|Hx]%elem_of_cons; [by apply Hs|].
      apply IH; [by eexists|done].
    + intros Hall. destruct (proj2 IH) as [cs' E'].
      { intros x Hx. apply Hall. by apply elem_of_cons; right. }
      rewrite (proj2 Hs), E' by (apply Hall, elem_of_cons; by left). by eexists.
Qed.

Lemma check_subjects_cached o p ss cache cache' :
  Forall2 cached ss cache → check_subjects resolve o p ss cache = Ok cache' → Forall2 cached ss cache'.
Proof.
  intros H. revert cache'. induction H as [|s c ss cache Hc _ IH]; intros cache'; cbn [check_subjects].
  - intros [= <-]. constructor.
  - fold (resolve_now p s c). intros [_ (cs & Ecs & [= <-])%rbind_Ok]%rbind_unit_Ok.
    constructor; [by apply resolve_now_ok|]. by apply IH.
Qed.

Lemma check_body_ok o p body :
  check_body o p body = Ok () ↔ when_set (max_body_bytes p) (λ limit, fact_ok (λ b, b ≤ limit) body).
Proof.
  unfold check_body. destruct (max_body_bytes p); [|done]. destruct body; simpl; try done.
  by rewrite if_Ok, Z.ltb_ge.
Qed.

Lemma check_labels_ok o p :
  (if non_empty (required_tags p) || non_empty (required_metadata_keys p)
   then check_labels o p labels else Ok ()) = Ok () ↔
  (∀ t, t ∈ required_tags p → t ∈ lb_tags labels) ∧
  (∀ k, k ∈ required_metadata_keys p → k ∈ (lb_metadata labels).*1).
Proof.
  transitivity (check_labels o p labels = Ok ()).
  { destruct (_ || _) eqn:E; [done|]. apply orb_false_iff in E as [E1%non_empty_nil E2%non_empty_nil].
    unfold check_labels. by rewrite E1, E2. }
  unfold check_labels. destruct (forallb (λ t, bool_decide (t ∈ lb_tags labels)) _) eqn:E1; simpl.
  - rewrite if_Ok, negb_false_iff, forallb_elem_of. setoid_rewrite bool_decide_eq_true.
    rewrite forallb_elem_of in E1. setoid_rewrite bool_decide_eq_true in E1. naive_solver.
  - split; [done|]. intros [H _]. apply not_true_iff_false in E1. destruct E1.
    apply forallb_elem_of. setoid_rewrite bool_decide_eq_true. done.
Qed.

Lemma evaluate_layers_ok ls request cache :
  Forall2 cached (subjects request) cache →
  evaluate_layers resolve labels ls request cache = Ok () ↔ ∀ o p, (o, p) ∈ ls → permits p request.
Proof.
  revert cache. induction ls as [|[o p] ls IH]; intros cache Hc; cbn [evaluate_layers].
  - split; [intros _ o p []%elem_of_nil|done].
  - rewrite !rbind_unit_Ok, rbind_Ok. setoid_rewrite elem_of_cons.
    rewrite !unit_Ok, check_body_ok, check_labels_ok.
    assert ((∃ cache', check_subjects resolve o p (subjects request) cache = Ok cache' ∧
        evaluate_layers resolve labels ls request cache' = Ok ()) ↔
      (∀ s, s ∈ subjects request → subject_permitted p s) ∧ ∀ o p, (o, p) ∈ ls → permits p request) as ->.
    { rewrite <- (check_subjects_ok o p _ _ Hc). split.
      - intros (cache' & E & He). rewrite (IH cache') in He by by eapply check_subjects_cached. eauto.
      - intros [(cache' & E) Hl]. exists cache'. split; [done|]. apply IH; [by eapply check_subjects_cached|done]. }
    split.
    + intros (? & [? ?] & ? & Hl) o' p' [[= -> ->]|Hin]; [by constructor|eauto].
    + intros H. destruct (H o p) as [? ? ? ?]; [by left|]. split_and!; eauto.
Qed.

Lemma refuse_invalid_ok g : refuse_invalid g = Ok () ↔ ∀ l, l ∈ layers g → ∃ p, ly_policy l = Valid p.
Proof.
  unfold refuse_invalid. destruct (list_find _ _) as [[i l]|] eqn:E.
  - apply list_find_Some in E as (El & Hi & _). split; [done|]. intros H.
    apply list_elem_of_lookup_2, H in El as [p Hp]. unfold is_invalid in Hi. by rewrite Hp in Hi.
  - split; [|done]. intros _ l Hl. rewrite list_find_None, Forall_forall in E.
    specialize (E l Hl). unfold is_invalid in E. destruct (ly_policy l); [eauto|done].
Qed.

Lemma elem_of_valid_layers g o p :
  (o, p) ∈ valid_layers g ↔ {| ly_origin := o; ly_policy := Valid p |} ∈ layers g.
Proof.
  unfold valid_layers. rewrite list_elem_of_omap. unfold valid_layer. split.
  - intros ([o' [p'|]] & Hl & E); simpl in E; by simplify_eq.
  - intros H. eexists; split; [exact H|done].
Qed.

Lemma valid_layers_all g (P : KeyPolicy → Prop) :
  (∀ l, l ∈ layers g → ∃ p, ly_policy l = Valid p) ∧ (∀ o p, (o, p) ∈ valid_layers g → P p) ↔
  ∀ l, l ∈ layers g → ∃ p, ly_policy l = Valid p ∧ P p.
Proof.
  setoid_rewrite elem_of_valid_layers. split.
  - intros [Hv Hp] l Hl. destruct (Hv l Hl) as [p E]. exists p. split; [done|].
    apply (Hp (ly_origin l)). destruct l as [o lp]. simpl in *. by subst.
  - intros H. split; [intros l Hl; destruct (H l Hl) as (p & E & _); eauto|].
    intros o p Hl. by destruct (H _ Hl) as (p' & [= ->] & ?).
Qed.

Lemma replicate_cached ss : Forall2 cached ss (replicate (length ss) None).
Proof. induction ss; simpl; constructor; [by left|done]. Qed.

Lemma evaluate_spec g request :
  evaluate resolve labels g request = Ok () ↔
  ∀ l, l ∈ layers g → ∃ p, ly_policy l = Valid p ∧ permits p request.
Proof.
  unfold evaluate. rewrite rbind_unit_Ok, unit_Ok.
  rewrite refuse_invalid_ok, evaluate_layers_ok by apply replicate_cached. apply valid_layers_all.
Qed.

Lemma check_request_spec o p ss :
  check_request resolve o p ss = Ok () ↔ ∀ s, s ∈ ss → subject_permitted p s.
Proof.
  induction ss as [|s ss IH]; cbn [check_request].
  - split; [intros _ s []%elem_of_nil|done].
  - rewrite rbind_unit_Ok, unit_Ok. setoid_rewrite elem_of_cons. rewrite IH.
    rewrite (check_subject_ok o p s) by apply (resolve_now_ok p s None (or_introl eq_refl)).
    naive_solver.
Qed.
End permits.

(** ** Sources *)

(** The networks a policy names contain the address, if it names any. *)
Definition source_permitted (p : KeyPolicy) (ip : option IpAddr) : Prop :=
  source_ips p = [] ∨ ∃ a c, ip = Some a ∧ c ∈ source_ips p ∧ contains c a = true.

Lemma source_permitted_spec p ip :
  from_option (λ a, existsb (λ c, contains c a) (source_ips p)) false ip = true ↔
  ∃ a c, ip = Some a ∧ c ∈ source_ips p ∧ contains c a = true.
Proof.
  destruct ip as [a|]; simpl; [|naive_solver]. rewrite existsb_elem_of. naive_solver.
Qed.

Lemma check_sources_ok ls ip :
  check_sources ls ip = Ok () ↔ ∀ o p, (o, p) ∈ ls → source_permitted p ip.
Proof.
  induction ls as [|[o p] ls IH]; cbn [check_sources].
  - split; [intros _ o p []%elem_of_nil|done].
  - setoid_rewrite elem_of_cons. transitivity (source_permitted p ip ∧ check_sources ls ip = Ok ());
      [|rewrite IH; naive_solver].
    unfold source_permitted. destruct (source_ips p) as [|c cs] eqn:E; cbn [non_empty negb]; [naive_solver|].
    rewrite <- E, <- source_permitted_spec. destruct (from_option _ _ _); cbn [negb].
    + split; [by auto|]. by intros [_ ?].
    + split; [done|]. intros [[Hn|Hn] _]; congruence.
Qed.

Lemma check_source_spec g ip :
  check_source g ip = Ok () ↔ ∀ l, l ∈ layers g → ∃ p, ly_policy l = Valid p ∧ source_permitted p ip.
Proof.
  unfold check_source. rewrite rbind_unit_Ok, unit_Ok, refuse_invalid_ok, check_sources_ok.
  apply valid_layers_all.
Qed.

(** C10. A key's policies are an intersection, and fail closed.  A request passes the
    admission check exactly when every layer could be read and every rule of every
    layer permits it, and passes the source check exactly when every layer could be
    read and the address lies in a network of every layer that names some.  What
    the route does not know fails a rule that asks for it; deny patterns are
    matched behind every routing prefix of every name; the check is indifferent to
    the order of the layers and to the cache of resolutions. *)
Theorem policy_is_every_layer resolve labels g request ip :
  (evaluate resolve labels g request = Ok () ↔
   ∀ l, l ∈ layers g → ∃ p, ly_policy l = Valid p ∧ permits resolve labels p request) ∧
  (check_source g ip = Ok () ↔
   ∀ l, l ∈ layers g → ∃ p, ly_policy l = Valid p ∧ source_permitted p ip).
Proof. split; [apply evaluate_spec|apply check_source_spec]. Qed.

(** ** Well-formed policies *)

Definition bounded (max : Z) (o : option Z) : Prop := when_set o (λ n, 1 ≤ n ≤ max).

Record lists_wf (ok : bytes → bool) (l : Lists) : Prop := {
  lw_some : allow l ≠ [] ∨ deny l ≠ [];
  lw_allow : Forall (λ e, ok e = true) (allow l) ∧ NoDup (allow l);
  lw_deny : Forall (λ e, ok e = true) (deny l) ∧ NoDup (deny l);
}.

(** A network is its own mask, of a length of its family, and not an IPv4-mapped
    one. *)
Record cidr_wf (c : Cidr) : Prop := {
  cw_net : ip_wf (net c);
  cw_len : prefix_ok (net c) (len c);
  cw_mask : mask (net c) (len c) = net c;
}.

Record rate_wf (r : Rate) : Prop := {
  rw_some : r ≠ no_rate;
  rw_rpm : bounded MAX_RPM (rpm r);
  rw_tpm : bounded MAX_TPM (tpm r);
}.

Record limits_wf (l : Limits) : Prop := {
  lmw_some : l_rate l ≠ no_rate ∨ per_end_user l ≠ None ∨ per_model l ≠ [];
  lmw_rate : l_rate l = no_rate ∨ rate_wf (l_rate l);
  lmw_end_user : when_set (per_end_user l) rate_wf;
  lmw_model : Forall (λ m, model_pattern_ok (mr_model m) = true ∧ rate_wf (mr_rate m)) (per_model l);
  lmw_distinct : NoDup (mr_model <$> per_model l);
}.

Record budget_wf (b : Budget) : Prop := {
  bw_micro : is_u64 (micro_usd b);
  bw_percent : Forall (λ p, 1 ≤ p ≤ MAX_ALERT_PERCENT) (alert_at_percent b) ∧ NoDup (alert_at_percent b);
  bw_usd : Forall is_u64 (alert_at_micro_usd b) ∧ NoDup (alert_at_micro_usd b);
}.

Record policy_wf (p : KeyPolicy) : Prop := {
  pw_some : has_rules p = true;
  pw_models : when_set (models p) (lists_wf model_pattern_ok);
  pw_providers : when_set (providers p) (lists_wf provider_id_ok);
  pw_source : Forall cidr_wf (source_ips p) ∧ NoDup (source_ips p);
  pw_caps : bounded MAX_TOKEN_CAP (max_input_tokens p) ∧ bounded MAX_TOKEN_CAP (max_output_tokens p)
            ∧ bounded MAX_BODY_CAP (max_body_bytes p);
  pw_tags : Forall (λ t, tag_ok t = true) (required_tags p) ∧ NoDup (required_tags p);
  pw_keys : Forall (λ k, valid_key k 128 = true) (required_metadata_keys p)
            ∧ NoDup (required_metadata_keys p);
  pw_limits : when_set (limits p) limits_wf;
  pw_budget : when_set (budget p) budget_wf;
  pw_end_user : when_set (end_user_budget p) (λ b, budget_wf b ∧ rolling_hours (window b) = None);
}.

(** Pushing an element that is not there yet. *)
Lemma push_new {A} `{EqDecision A} (P : A → Prop) (out : list A) (e : A) :
  P e → Forall P out ∧ NoDup out →
  Forall P (if bool_decide (e ∈ out) then out else out ++ [e])
  ∧ NoDup (if bool_decide (e ∈ out) then out else out ++ [e]).
Proof.
  intros He [Hf Hn]. case_bool_decide; [done|]. split.
  - apply Forall_app; split; [done|by constructor].
  - apply NoDup_app; split_and!; [done| |apply NoDup_singleton]. set_solver.
Qed.

Lemma collect_entries_wf norm ok raw out l :
  collect_entries norm ok raw out = Some l →
  Forall (λ e, ok e = true) out ∧ NoDup out → Forall (λ e, ok e = true) l ∧ NoDup l.
Proof.
  revert out. induction raw as [|e raw IH]; intros out; cbn [collect_entries]; [by intros [= ->]|].
  destruct (ok (norm e)) eqn:E; [|done]. simpl. intros H Hout. eapply IH; [exact H|].
  by apply (push_new (λ e, ok e = true)).
Qed.

Lemma collect_entries_length norm ok raw out l :
  collect_entries norm ok raw out = Some l → out ≠ [] ∨ raw ≠ [] → l ≠ [].
Proof.
  revert out. induction raw as [|e raw IH]; intros out; cbn [collect_entries]; [intros [= ->]; tauto|].
  destruct (ok (norm e)); [|done]. simpl. intros H _. eapply IH; [exact H|]. left.
  case_bool_decide as Hin; [|by destruct out]. by destruct out; [apply elem_of_nil in Hin|].
Qed.

Lemma lists_part_wf part raw lim ok l :
  lists_part part raw lim ok = Ok l →
  Forall (λ e, ok e = true) l ∧ NoDup l ∧ (raw ≠ [] → l ≠ []).
Proof.
  unfold lists_part. destruct (over _ _ _); [done|]. destruct (collect_entries _ _ _ _) as [l'|] eqn:E; [|done].
  intros [= <-]. pose proof (collect_entries_wf _ _ _ _ _ E) as [Hf Hn]; [by split; constructor|].
  split_and!; [|done|]; [|intros Hr; eapply collect_entries_length; [exact E|by right]].
  eapply Forall_impl; [exact Hf|]. intros x Hx. simpl in Hx. by apply andb_true_iff in Hx as [? _].
Qed.

Lemma lists_parse_wf field doc lim ok l : lists field doc lim ok = Ok l → lists_wf ok l.
Proof.
  unfold lists. destruct (_ && _) eqn:E; [done|].
  intros (a & (Ha & Hna & Hsa)%lists_part_wf & (d & (Hd & Hnd & Hsd)%lists_part_wf & [= <-])%rbind_Ok)%rbind_Ok.
  constructor; simpl; [|done..]. apply andb_false_iff in E as [E|E]; apply negb_false_iff in E.
  - left. apply Hsa. by destruct (ld_allow doc).
  - right. apply Hsd. by destruct (ld_deny doc).
Qed.

Lemma cap_bounded field v max o : cap field v max = Ok o → bounded max o.
Proof.
  unfold cap. destruct v as [n|]; [|by intros [= <-]]. destruct (_ && _) eqn:E; [|done].
  intros [= <-]. simpl. breflect. lia.
Qed.

Lemma required_wf field raw lim ok l :
  required field raw lim ok = Ok l → Forall (λ e, ok e = true) l ∧ NoDup l.
Proof.
  unfold required. do 2 (destruct (_ : bool); [done|]).
  destruct (collect_entries _ _ _ _) eqn:E; [|done]. intros [= <-].
  eapply collect_entries_wf; [exact E|]. by split; constructor.
Qed.

Lemma rate_parse_wf field r t x : rate field r t = Ok x → rate_wf x.
Proof.
  unfold rate. destruct (_ && _) eqn:E; [done|].
  intros (r' & Er & (t' & Et & [= <-])%rbind_Ok)%rbind_Ok.
  constructor; simpl; [|by eapply cap_bounded..].
  unfold no_rate. intros [= -> ->]. unfold cap in *. destruct r, t; simpl in *; try done;
    by repeat case_match.
Qed.

Lemma per_model_wf lim entries out l :
  per_model_entries lim entries out = Ok l →
  Forall (λ m, model_pattern_ok (mr_model m) = true ∧ rate_wf (mr_rate m)) out ∧ NoDup (mr_model <$> out) →
  Forall (λ m, model_pattern_ok (mr_model m) = true ∧ rate_wf (mr_rate m)) l ∧ NoDup (mr_model <$> l).
Proof.
  revert out. induction entries as [|e entries IH]; intros out; cbn [per_model_entries]; [by intros [= ->]|].
  set (m := to_ascii_lowercase _). destruct (_ || _) eqn:E; [done|].
  apply orb_false_iff in E as [E%negb_false_iff _].
  intros (r & Hr%rate_parse_wf & H)%rbind_Ok [Hf Hn]. case_bool_decide as Hin; [done|].
  eapply IH; [exact H|]. split.
  - apply Forall_app; split; [done|]. by apply Forall_singleton.
  - rewrite fmap_app. apply NoDup_app; split_and!; [done| |apply NoDup_singleton].
    intros x Hx ->%list_elem_of_singleton. done.
Qed.

Lemma limits_parse_wf doc lim l : parse_limits doc lim = Ok l → limits_wf l.
Proof.
  unfold parse_limits. intros (own & Eo & (eu & Ee & (pm & Ep & E)%rbind_Ok)%rbind_Ok)%rbind_Ok.
  destruct (_ && _) eqn:Es; [done|]. injection E as <-.
  assert (Forall (λ m, model_pattern_ok (mr_model m) = true ∧ rate_wf (mr_rate m)) pm ∧ NoDup (mr_model <$> pm)) as [Hpm Hnd].
  { destruct (lmd_per_model doc); [|injection Ep as <-; by split; constructor].
    destruct (negb _); [done|]. destruct (over _ _ _); [done|].
    eapply per_model_wf; [exact Ep|]. by split; constructor. }
  constructor; simpl; [| | |done..].
  - destruct (decide (own = no_rate)); [|by left]. right. destruct eu; [by left|]. right. intros ->.
    by rewrite bool_decide_true in Es.
  - destruct (_ || _); [right; by eapply rate_parse_wf|left; by injection Eo].
  - destruct (lmd_per_end_user doc); [|by injection Ee as <-].
    apply rbind_Ok in Ee as (r' & Hr%rate_parse_wf & [= <-]). done.
Qed.

Lemma usd_to_micro_u64 field usd m : usd_to_micro field usd = Ok m → is_u64 m.
Proof.
  unfold usd_to_micro. do 2 (destruct (_ : bool); [done|]). intros [= <-].
  apply f64_as_unsigned_bound. by vm_compute.
Qed.

Lemma usds_to_micro_u64 field usds ms : usds_to_micro field usds = Ok ms → Forall is_u64 ms.
Proof.
  revert ms. induction usds as [|u us IH]; intros ms; cbn [usds_to_micro]; [by intros [= <-]; constructor|].
  intros (m & Hm%usd_to_micro_u64 & (ms' & ?%IH & [= <-])%rbind_Ok)%rbind_Ok. by constructor.
Qed.

(** Sorted and deduplicated lists keep what their elements satisfy. *)
Lemma sorted_seqs_wf (P : Z → Prop) (l : list Z) :
  Forall P l → Forall P (dedup (merge_sort Z.le l)) ∧ NoDup (dedup (merge_sort Z.le l)).
Proof.
  intros H. destruct (sorted_seqs l) as [Hn He]. split; [|done].
  apply Forall_forall. intros x Hx%He. by eapply Forall_forall in H.
Qed.

Lemma budget_parse_wf field doc lim eu b :
  parse_budget field doc lim eu = Ok b →
  budget_wf b ∧ (eu = true → rolling_hours (window b) = None).
Proof.
  unfold parse_budget. intros (m & Hm%usd_to_micro_u64 & (w & _ & E)%rbind_Ok)%rbind_Ok.
  destruct (_ && _) eqn:Er; [done|]. apply rbind_Ok in E as (md & _ & E).
  destruct (_ || _) eqn:Ep; [done|].
  destruct (over lim max_alert_thresholds (default [] (bd_alert_at_usd doc))); [done|].
  apply rbind_Ok in E as (us & Hus%usds_to_micro_u64 & [= <-]). split.
  - constructor; simpl; [done| |by apply sorted_seqs_wf]. apply sorted_seqs_wf, Forall_forall.
    intros x Hx. apply orb_false_iff in Ep as [_ Ep]. apply not_true_iff_false in Ep.
    rewrite existsb_elem_of in Ep. destruct ((1 <=? x) && (x <=? MAX_ALERT_PERCENT)) eqn:E.
    + breflect. lia.
    + destruct Ep. exists x. by rewrite E.
  - intros ->. simpl in *. by destruct (rolling_hours w).
Qed.

Lemma mask_idem ip l : ip_wf ip → prefix_ok ip l → ip_wf (mask ip l) ∧ mask (mask ip l) l = mask ip l.
Proof.
  unfold prefix_ok. destruct ip as [a|a]; cbn [ip_wf is_ipv4 mask]; intros Ha Hl.
  - rewrite <- Z.land_assoc, Z.land_diag. split; [|done].
    rewrite land_shl_max by lia. pose proof (Z.pow_pos_nonneg 2 (32 - l)).
    pose proof (Z.mul_div_le a (2 ^ (32 - l))). pose proof (Z.div_pos a (2 ^ (32 - l))). nia.
  - rewrite <- Z.land_assoc, Z.land_diag. split; [|done].
    rewrite land_shl_max by lia. pose proof (Z.pow_pos_nonneg 2 (128 - l)).
    pose proof (Z.mul_div_le a (2 ^ (128 - l))). pose proof (Z.div_pos a (2 ^ (128 - l))). nia.
Qed.

Lemma Cidr_parse_wf raw c : Cidr_parse raw = Some c → cidr_wf c.
Proof.
  unfold Cidr_parse. destruct (match split_once _ _ with Some _ => _ | None => _ end) as [addr l].
  intros (ip & Hip%ip_parse_wf & E)%bind_Some. destruct (match ip with V4 _ => _ | V6 _ => _ end); [done|].
  apply bind_Some in E as (n & En & [= <-]).
  assert (prefix_ok ip n) as Hn.
  { unfold prefix_ok. destruct l as [l|]; [|injection En as <-; by destruct ip].
    apply bind_Some in En as (k & Hk%parse_u64_bound & En). destruct (_ && _) eqn:E; [|done].
    injection En as <-. breflect. unfold is_u64 in Hk. lia. }
  destruct (mask_idem ip n Hip Hn). constructor; cbn [net len]; [done| |done].
  unfold prefix_ok in *. by destruct ip.
Qed.

Lemma parse_networks_wf raw out l :
  parse_networks raw out = Ok l → Forall cidr_wf out ∧ NoDup out → Forall cidr_wf l ∧ NoDup l.
Proof.
  revert out. induction raw as [|r raw IH]; intros out; cbn [parse_networks]; [by intros [= ->]|].
  intros (c & Ec & H)%rbind_Ok Hout. destruct (Cidr_parse r) as [c'|] eqn:E; [|done]. injection Ec as ->.
  eapply IH; [exact H|]. apply (push_new cidr_wf); [by eapply Cidr_parse_wf|done].
Qed.

Lemma opt_wf {A B E} (o : option A) (f : A → result B E) (P : B → Prop) o' :
  opt o f = Ok o' → (∀ a b, f a = Ok b → P b) → when_set o' P.
Proof.
  destruct o as [a|]; simpl; [|by intros [= <-]]. intros (b & Eb & [= <-])%rbind_Ok H. by eapply H.
Qed.

Lemma opt_list_wf {A B E} (o : option A) (f : A → result (list B) E) (P : list B → Prop) o' :
  opt o f = Ok o' → P [] → (∀ a b, f a = Ok b → P b) → P (default [] o').
Proof. intros H H0 Hp. apply (opt_wf _ _ P) in H; [|done]. by destruct o'. Qed.

Lemma doc_parse_wf doc lim p : doc_parse doc lim = Ok p → policy_wf p.
Proof.
  unfold doc_parse. intros E.
  apply rbind_Ok in E as (ms & Hms & E). apply rbind_Ok in E as (ps & Hps & E).
  apply rbind_Ok in E as (ips & Hips & E). apply rbind_Ok in E as (mi & Hmi & E).
  apply rbind_Ok in E as (mo & Hmo & E). apply rbind_Ok in E as (mb & Hmb & E).
  apply rbind_Ok in E as (tags & Htags & E). apply rbind_Ok in E as (keys & Hkeys & E).
  apply rbind_Ok in E as (ls & Hls & E). apply rbind_Ok in E as (b & Hb & E).
  apply rbind_Ok in E as (eb & Heb & E).
  destruct (has_rules _) eqn:Hr; [|done]. injection E as <-. constructor; simpl.
  - done.
  - eapply opt_wf; [exact Hms|]. intros a l Hl. exact (lists_parse_wf _ _ _ _ _ Hl).
  - eapply opt_wf; [exact Hps|]. intros a l Hl. exact (lists_parse_wf _ _ _ _ _ Hl).
  - destruct (d_source_ips doc); [|injection Hips as <-; by split; constructor].
    destruct (negb _); [done|]. destruct (over _ _ _); [done|].
    eapply parse_networks_wf; [done|]. by split; constructor.
  - split_and!; by eapply cap_bounded.
  - eapply (opt_list_wf _ _ (λ l, Forall _ l ∧ NoDup l)); [done|by split; constructor|]. intros a l Hl. exact (required_wf _ _ _ _ _ Hl).
  - eapply (opt_list_wf _ _ (λ l, Forall _ l ∧ NoDup l)); [done|by split; constructor|]. intros a l Hl. exact (required_wf _ _ _ _ _ Hl).
  - eapply opt_wf; [done|]. intros a l Hl. exact (limits_parse_wf _ _ _ Hl).
  - eapply opt_wf; [done|]. intros a b' Hb'. by apply budget_parse_wf in Hb' as [? _].
  - eapply opt_wf; [done|]. intros a b' Hb'. apply budget_parse_wf in Hb' as [? ?]. auto.
Qed.

(** Whatever the parser accepts is a well-formed policy, with the bounds the
    write path is documented to keep: at least one rule; pattern lists that are not
    both empty, of valid entries without repetition; networks of a length their
    family has, with every bit past it cleared; caps, rates and alert percentages in
    range; per-model limits on distinct patterns; amounts that fit 64 bits; and a
    calendar window for an end-user budget. *)
Theorem parsed_policy_wf doc lim p : doc_parse doc lim = Ok p → policy_wf p.
Proof. apply doc_parse_wf. Qed.

(** A document with a rule of every kind. *)
Definition demo_doc : Doc := {|
  d_models := Some {| ld_allow := [lit "GPT-4o*"; lit " gpt-4o* "]; ld_deny := [lit "*-preview"] |};
  d_providers := Some {| ld_allow := [lit "OpenAI"]; ld_deny := [] |};
  d_source_ips := Some [lit "10.1.2.3/8"; lit "2001:db8::/32"];
  d_max_input_tokens := Some 8000; d_max_output_tokens := Some 1000; d_max_body_bytes := Some 1048576;
  d_required_tags := Some [lit "team:core"]; d_required_metadata_keys := Some [lit "run.id"];
  d_limits := Some {| lmd_rpm := Some 60; lmd_tpm := None; lmd_per_end_user := None;
                      lmd_per_model := Some [{| mrd_model := lit "gpt-4o*"; mrd_rpm := None; mrd_tpm := Some 90000 |}] |};
  d_budget := Some {| bd_usd := f64_div (f64_of 25) (f64_of 2); bd_window := Some (lit "rolling_24h"); bd_mode := None;
                      bd_alert_at_percent := Some [80; 50; 80]; bd_alert_at_usd := Some [f64_of 10] |};
  d_end_user_budget := None;
|}.

Definition demo_policy : option KeyPolicy := ok (doc_parse demo_doc None).

Example demo_budget : (demo_policy ≫= budget) = Some
  {| micro_usd := 12500000; window := Rolling24h; mode := Hard; alert_at_percent := [50; 80];
     alert_at_micro_usd := [10000000] |}.
Proof. vm_compute. reflexivity. Qed.

Lemma parsed_policy_wf_witness :
  match doc_parse demo_doc None with Ok p => policy_wf p | Err _ => False end.
Proof.
  destruct (doc_parse demo_doc None) as [p|e] eqn:E.
  - exact (parsed_policy_wf demo_doc None p E).
  - exfalso. revert E. vm_compute. discriminate.
Defined.
