(* ===== verification/Budgets.v ===== *)
(** * Spend budgets

    [crates/gateway/src/budgets.rs] (the table of spend counters), [check_budget]
    and [applicable_budgets] of [crates/gateway/src/admission.rs], and the period
    keys of [crates/shared/src/spend.rs].

    The table maps a tenant to its counters; every operation runs under the
    tenant's lock and is one step.  Wall-clock times are Unix seconds, monotonic
    instants nanoseconds; both are arguments.  The calendar ([chrono]) and the keyed
    hash of end-user ids ([RandomState]) are parameters, the ClickHouse reads enter
    as their results.  The text of alert payloads and refusals is left out. *)

From Stdlib Require Import ZArith Lia.
From stdpp Require Import base list option strings gmap sorting.
From S2P Require Import Prelude KeyPolicy.
Local Open Scope Z_scope.

(** ** Subjects *)

Inductive Scope : Type := Workspace | Project (id : bytes) | Key (id : bytes).

#[global] Instance Scope_eq_dec : EqDecision Scope.
Proof. solve_decision. Defined.
#[global] Program Instance Scope_countable : Countable Scope :=
  inj_countable' (λ s, match s with Workspace => inl () | Project i => inr (inl i) | Key i => inr (inr i) end)
    (λ x, match x with inl () => Workspace | inr (inl i) => Project i | inr (inr i) => Key i end) _.
Next Obligation. by intros []. Qed.

#[global] Program Instance BudgetWindow_countable : Countable BudgetWindow :=
  inj_countable (λ w, match w with Daily => 0 | Weekly => 1 | Monthly => 2 | Rolling1h => 3
                      | Rolling24h => 4 | Rolling7d => 5 | Rolling30d => 6 end)
    (λ n, if n =? 0 then Some Daily else if n =? 1 then Some Weekly else if n =? 2 then Some Monthly
          else if n =? 3 then Some Rolling1h else if n =? 4 then Some Rolling24h
          else if n =? 5 then Some Rolling7d else Some Rolling30d) _.
Next Obligation. by intros []. Qed.

(** A scope, and inside it possibly one end user (by hash). *)
Abbreviation Slot := (Scope * option Z)%type.

Record Applicable := {
  ap_origin : Origin;
  ap_scope : Scope;
  ap_end_user : option bytes;
  ap_budget : Budget;
}.

Inductive Prep : Type := Ready (spent : Z) | NeedsSeed (period : Z) | Backoff | Capacity.

Inductive Seed : Type := Total (m : Z) | Hours (hours : list (Z * Z)).

(** The parts an alert's deduplication key and payload are made of. *)
Record Crossing := {
  cx_tenant : bytes;
  cx_origin : Origin;
  cx_scope : Scope;
  cx_end_user : option bytes;
  cx_window : BudgetWindow;
  cx_label : bytes;
  cx_period : Z;
  cx_spent : Z;
}.

(** [seeded_for] of a rolling counter. *)
Definition ROLLING : Z := u64_max.

(** ** Periods *)

(** [chrono::Datelike] on a UTC instant. *)
Class Datelike := {
  year : Z → Z; month : Z → Z; day : Z → Z;
  iso_year : Z → Z; iso_week : Z → Z;
}.

Section budgets.
Context `{Datelike}.
Variable end_user_hash : bytes → Z.

Definition year_month (now : Z) : Z := (year now * 100 + month now) mod 2 ^ 32.

Definition hour_index (now : Z) : Z := Z.max 0 now / 3600.

(** [period_key], with [window_key] of [shared::spend] for the calendar windows. *)
Definition period_key (w : BudgetWindow) (now : Z) : Z :=
  match w with
  | Daily => (year now * 10000 + month now * 100 + day now) mod 2 ^ 32
  | Weekly => (iso_year now * 100 + iso_week now) mod 2 ^ 32
  | Monthly => year_month now
  | w => hour_index now / default 1 (rolling_hours w)
  end.

(** ** Counters *)

Record Counter := {
  co_origin : Origin;
  spec : Budget;
  co_end_user : option bytes;
  seeded_for : option Z;
  micro : Z;
  hours : list (Z * Z);
  fired : gset (bytes * Z);
  seed_failed_at : option Z;
  co_last_used : Z;
}.

Definition new_counter (a : Applicable) (at_ : Z) : Counter :=
  {| co_origin := ap_origin a; spec := ap_budget a; co_end_user := ap_end_user a; seeded_for := None;
     micro := 0; hours := []; fired := ∅; seed_failed_at := None; co_last_used := at_ |}.

Definition set_hours (hs : list (Z * Z)) (c : Counter) : Counter :=
  {| co_origin := co_origin c; spec := spec c; co_end_user := co_end_user c; seeded_for := seeded_for c;
     micro := micro c; hours := hs; fired := fired c; seed_failed_at := seed_failed_at c;
     co_last_used := co_last_used c |}.

Definition set_micro (m : Z) (c : Counter) : Counter :=
  {| co_origin := co_origin c; spec := spec c; co_end_user := co_end_user c; seeded_for := seeded_for c;
     micro := m; hours := hours c; fired := fired c; seed_failed_at := seed_failed_at c;
     co_last_used := co_last_used c |}.

Definition set_fired (f : gset (bytes * Z)) (c : Counter) : Counter :=
  {| co_origin := co_origin c; spec := spec c; co_end_user := co_end_user c; seeded_for := seeded_for c;
     micro := micro c; hours := hours c; fired := f; seed_failed_at := seed_failed_at c;
     co_last_used := co_last_used c |}.

Definition set_seeded (p : Z) (c : Counter) : Counter :=
  {| co_origin := co_origin c; spec := spec c; co_end_user := co_end_user c; seeded_for := Some p;
     micro := micro c; hours := hours c; fired := fired c; seed_failed_at := seed_failed_at c;
     co_last_used := co_last_used c |}.

Definition set_seed_failed (o : option Z) (c : Counter) : Counter :=
  {| co_origin := co_origin c; spec := spec c; co_end_user := co_end_user c; seeded_for := seeded_for c;
     micro := micro c; hours := hours c; fired := fired c; seed_failed_at := o;
     co_last_used := co_last_used c |}.

Definition set_spec (a : Applicable) (at_ : Z) (c : Counter) : Counter :=
  {| co_origin := ap_origin a; spec := ap_budget a; co_end_user := co_end_user c; seeded_for := seeded_for c;
     micro := micro c; hours := hours c; fired := fired c; seed_failed_at := seed_failed_at c;
     co_last_used := at_ |}.

(** [while front.is_some_and(|(h, _)| h < first) { pop_front }]. *)
Fixpoint pop_before (first : Z) (hs : list (Z * Z)) : list (Z * Z) :=
  match hs with
  | (h, m) :: hs' => if h <? first then pop_before first hs' else hs
  | [] => []
  end.

(** The sum of [u64]s wraps in a release build. *)
Definition sum_u64 (l : list Z) : Z := foldr Z.add 0 l mod 2 ^ 64.

Definition first_hour (n now : Z) : Z := sat_sub (hour_index now) (n - 1).

Definition counter_spent (now : Z) (c : Counter) : Z * Counter :=
  match rolling_hours (window (spec c)) with
  | Some n =>
      let hs := pop_before (first_hour n now) (hours c) in
      (sum_u64 (hs.*2), set_hours hs c)
  | None => (micro c, c)
  end.

(** Add to the last bucket, or open a new one. *)
Fixpoint add_hour (h m : Z) (hs : list (Z * Z)) : list (Z * Z) :=
  match hs with
  | [] => [(h, m)]
  | [(last, m')] => if last =? h then [(last, sat_add64 m' m)] else [(last, m'); (h, m)]
  | x :: hs' => x :: add_hour h m hs'
  end.

Definition counter_add (now cost : Z) (c : Counter) : Counter :=
  match rolling_hours (window (spec c)) with
  | Some _ => set_hours (add_hour (hour_index now) cost (hours c)) c
  | None => set_micro (sat_add64 (micro c) cost) c
  end.

Definition current (now : Z) (c : Counter) : bool :=
  match seeded_for c with
  | None => true
  | Some p => (p =? ROLLING) || (p =? period_key (window (spec c)) now)
  end.

(** ** The table *)

Record EndUserSeed := { by_user : gmap bytes Z; truncated : bool }.

Record TenantCounters := {
  slots : gmap Slot (list Counter);
  end_users : Z;
  eu_seeds : gmap (Scope * BudgetWindow * Z) EndUserSeed;
}.

Definition no_counters : TenantCounters := {| slots := ∅; end_users := 0; eu_seeds := ∅ |}.

Record BudgetTable := {
  tenants : gmap bytes TenantCounters;
  max_end_users : Z;
  backoff : Z;
}.

Definition table_new (max_end_users backoff : Z) : BudgetTable :=
  {| tenants := ∅; max_end_users := max_end_users; backoff := backoff |}.

Definition set_tenant (t : bytes) (tc : TenantCounters) (tb : BudgetTable) : BudgetTable :=
  {| tenants := <[t := tc]> (tenants tb); max_end_users := max_end_users tb; backoff := backoff tb |}.

Definition set_slots (s : gmap Slot (list Counter)) (tc : TenantCounters) : TenantCounters :=
  {| slots := s; end_users := end_users tc; eu_seeds := eu_seeds tc |}.
Definition set_end_users (n : Z) (tc : TenantCounters) : TenantCounters :=
  {| slots := slots tc; end_users := n; eu_seeds := eu_seeds tc |}.
Definition set_eu_seeds (m : gmap (Scope * BudgetWindow * Z) EndUserSeed) (tc : TenantCounters) : TenantCounters :=
  {| slots := slots tc; end_users := end_users tc; eu_seeds := m |}.

Definition slot_of (a : Applicable) : Slot := (ap_scope a, end_user_hash <$> ap_end_user a).

Definition has_window (w : BudgetWindow) (c : Counter) : bool := bool_decide (window (spec c) = w).

(** The first counter with the window, changed by [f]. *)
Fixpoint alter_window (w : BudgetWindow) (f : Counter → Counter) (v : list Counter) : list Counter :=
  match v with
  | [] => []
  | c :: v' => if has_window w c then f c :: v' else c :: alter_window w f v'
  end.

Fixpoint find_window (w : BudgetWindow) (v : list Counter) : option Counter :=
  match v with
  | [] => None
  | c :: v' => if has_window w c then Some c else find_window w v'
  end.

Definition idle_hour : Z := 3600 * 1000000000.

Definition recently_used (at_ idle : Z) (v : list Counter) : bool :=
  existsb (λ c, sat_sub at_ (co_last_used c) <? idle) v.

Definition evict_keep (at_ idle : Z) (slot : Slot) (v : list Counter) : bool :=
  match slot.2 with None => true | Some _ => recently_used at_ idle v end.

Definition evict_idle_end_users (at_ idle : Z) (tc : TenantCounters) : TenantCounters :=
  let kept := filter (λ sv, evict_keep at_ idle sv.1 sv.2 = true) (slots tc) in
  let freed := Z.of_nat (size (slots tc)) - Z.of_nat (size kept) in
  set_end_users (sat_sub (end_users tc) freed) (set_slots kept tc).

(** The decision at the end of [prepare]. *)
Definition prepare_decision (backoff : Z) (a : Applicable) (now at_ : Z) (c : Counter) : Prep * Counter :=
  if match seed_failed_at c with Some t => sat_sub at_ t <? backoff | None => false end
  then (Backoff, c) else
  match rolling_hours (window (ap_budget a)) with
  | Some _ =>
      match seeded_for c with
      | None => (NeedsSeed ROLLING, c)
      | Some _ => let '(s, c) := counter_spent now c in (Ready s, c)
      end
  | None =>
      let key := period_key (window (ap_budget a)) now in
      if bool_decide (seeded_for c = Some key) then (Ready (micro c), c) else (NeedsSeed key, c)
  end.

Definition prepare_tenant (max_end_users backoff : Z) (a : Applicable) (now at_ : Z) (tc : TenantCounters)
    : Prep * TenantCounters :=
  let slot := slot_of a in
  let w := window (ap_budget a) in
  let exists_ := existsb (has_window w) (default [] (slots tc !! slot)) in
  let fresh := negb exists_ && is_some_b slot.2 in
  let tc := if fresh && (max_end_users <=? end_users tc) then evict_idle_end_users at_ idle_hour tc else tc in
  if fresh && (max_end_users <=? end_users tc) then (Capacity, tc) else
  let tc := if fresh then set_end_users (end_users tc + 1) tc else tc in
  let v := default [] (slots tc !! slot) in
  let v := if existsb (has_window w) v then v else v ++ [new_counter a at_] in
  let c := set_spec a at_ (default (new_counter a at_) (find_window w v)) in
  let '(p, c) := prepare_decision backoff a now at_ c in
  (p, set_slots (<[slot := alter_window w (λ _, c) v]> (slots tc)) tc).

Definition prepare (t : bytes) (a : Applicable) (now at_ : Z) (tb : BudgetTable) : Prep * BudgetTable :=
  let tc := default no_counters (tenants tb !! t) in
  let '(p, tc) := prepare_tenant (max_end_users tb) (backoff tb) a now at_ tc in
  (p, set_tenant t tc tb).

(** ** Baselines *)

(** [BTreeMap<u64, u64>] as its list in key order; [f] sees the old entry. *)
Fixpoint hour_insert (h : Z) (f : option Z → Z) (l : list (Z * Z)) : list (Z * Z) :=
  match l with
  | [] => [(h, f None)]
  | (h', m') :: l' =>
      if h <? h' then (h, f None) :: l
      else if h =? h' then (h, f (Some m')) :: l'
      else (h', m') :: hour_insert h f l'
  end.

Definition collect_hours (hs : list (Z * Z)) : list (Z * Z) :=
  foldl (λ acc hm, hour_insert hm.1 (λ _, hm.2) acc) [] hs.

Definition merge_hours (hs seed : list (Z * Z)) : list (Z * Z) :=
  foldl (λ acc hm, hour_insert hm.1 (λ o, sat_add64 (default 0 o) hm.2) acc) (collect_hours hs) seed.

Definition seed_counter (period : Z) (s : Seed) (c : Counter) : Counter :=
  let c := set_seed_failed None c in
  if bool_decide (seeded_for c = Some period) then c else
  let c := match s with
           | Total m =>
               if is_some_b (seeded_for c) then set_fired ∅ (set_micro m c)
               else set_micro (sat_add64 (micro c) m) c
           | Hours hs => set_hours (merge_hours (hours c) hs) c
           end in
  set_seeded period c.

(** Change the counter of a slot and window, if there is one. *)
Definition alter_counter (slot : Slot) (w : BudgetWindow) (f : Counter → Counter) (tc : TenantCounters)
    : TenantCounters :=
  set_slots (alter (alter_window w f) slot (slots tc)) tc.

Definition seed (t : bytes) (a : Applicable) (period : Z) (s : Seed) (now : Z) (tb : BudgetTable)
    : option Z * BudgetTable :=
  let tc := default no_counters (tenants tb !! t) in
  let w := window (ap_budget a) in
  match slots tc !! slot_of a ≫= find_window w with
  | None => (None, set_tenant t tc tb)
  | Some c =>
      let '(spent, c) := counter_spent now (seed_counter period s c) in
      (Some spent, set_tenant t (alter_counter (slot_of a) w (λ _, c) tc) tb)
  end.

Definition seed_failed (t : bytes) (a : Applicable) (at_ : Z) (tb : BudgetTable) : BudgetTable :=
  let tc := default no_counters (tenants tb !! t) in
  set_tenant t (alter_counter (slot_of a) (window (ap_budget a)) (set_seed_failed (Some at_)) tc) tb.

Definition end_user_seed (t : bytes) (scope : Scope) (w : BudgetWindow) (period : Z) (tb : BudgetTable)
    : option EndUserSeed :=
  tc ← tenants tb !! t; eu_seeds tc !! (scope, w, period).

Definition store_end_user_seed (t : bytes) (scope : Scope) (w : BudgetWindow) (period : Z) (s : EndUserSeed)
    (tb : BudgetTable) : BudgetTable :=
  let tc := default no_counters (tenants tb !! t) in
  let kept := filter (λ ks, ¬ (ks.1.1.1 = scope ∧ ks.1.1.2 = w)) (eu_seeds tc) in
  set_tenant t (set_eu_seeds (<[(scope, w, period) := s]> kept) tc) tb.

(** [end_user_baseline]: the grouped read, cached; [None] where a read failed.
    [read_group] is the grouped read's rows, [read_user] the read of one user. *)
Definition end_user_baseline (t : bytes) (a : Applicable) (user : bytes) (period : Z)
    (read_group : option (list (bytes * Z))) (read_user : option Z) (tb : BudgetTable)
    : option Seed * BudgetTable :=
  let w := window (ap_budget a) in
  let '(s, tb) :=
    match end_user_seed t (ap_scope a) w period tb with
    | Some s => (Some s, tb)
    | None =>
        match read_group with
        | None => (None, tb)
        | Some rows =>
            let s := {| by_user := list_to_map (rev rows);
                        truncated := max_end_users tb <=? lenZ rows |} in
            (Some s, store_end_user_seed t (ap_scope a) w period s tb)
        end
    end in
  match s with
  | None => (None, tb)
  | Some s =>
      match by_user s !! user with
      | Some m => (Some (Total m), tb)
      | None => if negb (truncated s) then (Some (Total 0), tb) else (Total <$> read_user, tb)
      end
  end.

(** ** Recording *)

(** The loop over the thresholds of one counter. *)
Fixpoint fire (sink : Crossing → bool) (crossing : bytes → Crossing) (period after : Z)
    (ths : list (Z * bytes)) (f : gset (bytes * Z)) : list Crossing * gset (bytes * Z) :=
  match ths with
  | [] => ([], f)
  | (at_, label) :: ths' =>
      if (after <? at_) || bool_decide ((label, period) ∈ f) then fire sink crossing period after ths' f
      else
        let x := crossing label in
        if sink x then
          let '(xs, f') := fire sink crossing period after ths' ({[(label, period)]} ∪ f) in (x :: xs, f')
        else fire sink crossing period after ths' f
  end.

Definition crossing_for (t : bytes) (scope : Scope) (c : Counter) (label : bytes) (period spent : Z)
    : Crossing :=
  {| cx_tenant := t; cx_origin := co_origin c; cx_scope := scope; cx_end_user := co_end_user c;
     cx_window := window (spec c); cx_label := label; cx_period := period; cx_spent := spent |}.

(** One counter of a matching slot. *)
Definition record_counter (sink : Crossing → bool) (t : bytes) (scope : Scope) (cost now : Z) (c : Counter)
    : list Crossing * Counter :=
  if negb (current now c) then ([], c) else
  let '(before, c) := counter_spent now c in
  let c := counter_add now cost c in
  let after := sat_add64 before cost in
  let period := period_key (window (spec c)) now in
  let '(xs, f) := fire sink (λ label, crossing_for t scope c label period after) period after
                    (thresholds (spec c)) (fired c) in
  (xs, set_fired f c).

Definition record_slot (sink : Crossing → bool) (t : bytes) (cost now : Z) (tc : TenantCounters) (slot : Slot)
    : list Crossing * TenantCounters :=
  match slots tc !! slot with
  | None => ([], tc)
  | Some v =>
      let rs := record_counter sink t slot.1 cost now <$> v in
      (concat (rs.*1), set_slots (<[slot := rs.*2]> (slots tc)) tc)
  end.

Definition record_slots (project key : option bytes) (end_user : option bytes) : list Slot :=
  scope ← Workspace :: (from_option (λ p, [Project p]) [] project ++ from_option (λ k, [Key k]) [] key);
  (scope, None) :: from_option (λ u, [(scope, Some (end_user_hash u))]) [] end_user.

Definition record (t : bytes) (project key end_user : option bytes) (cost now : Z) (sink : Crossing → bool)
    (tb : BudgetTable) : list Crossing * BudgetTable :=
  if cost =? 0 then ([], tb) else
  match tenants tb !! t with
  | None => ([], tb)
  | Some tc =>
      let '(xs, tc) :=
        foldl (λ acc slot, let '(xs, tc) := acc in
                 let '(ys, tc) := record_slot sink t cost now tc slot in (xs ++ ys, tc))
          ([], tc) (record_slots project key end_user) in
      (xs, set_tenant t tc tb)
  end.

(** ** Admission *)

Definition is_hard (b : Budget) : bool := bool_decide (mode b = Hard).

Inductive BudgetRefusal : Type := BudgetExceeded (spent : Z) | SpendUnknown | BudgetCapacity.

(** [check_budget]; [baseline] is what the durable read answers, for the period it
    is asked about ([None]: it failed). *)
Definition check_budget (t : bytes) (a : Applicable) (now at_ : Z) (baseline : Z → option Seed)
    (tb : BudgetTable) : result unit BudgetRefusal * BudgetTable :=
  let hard := is_hard (ap_budget a) in
  let refuse e := if hard then Err e else Ok () in
  let decide_ spent :=
    if hard && (micro_usd (ap_budget a) <=? spent) then Err (BudgetExceeded spent) else Ok () in
  let '(p, tb) := prepare t a now at_ tb in
  match p with
  | Ready spent => (decide_ spent, tb)
  | NeedsSeed period =>
      match baseline period with
      | Some s => let '(spent, tb) := seed t a period s now tb in (decide_ (default 0 spent), tb)
      | None => (refuse SpendUnknown, seed_failed t a at_ tb)
      end
  | Backoff => (refuse SpendUnknown, tb)
  | Capacity => (refuse BudgetCapacity, tb)
  end.

(** [applicable_budgets]: [key_id] is the key's uuid, when it is one. *)
Definition layer_scope (project_id key_id : option bytes) (o : Origin) : option Scope :=
  match o with
  | OProject => Project <$> project_id
  | OKey => Key <$> key_id
  | OWorkspace => None
  end.

Definition policy_layers (workspace : option KeyPolicy) (g : option Governance) (key_id : option bytes)
    : list (Origin * Scope * KeyPolicy) :=
  from_option (λ p, [(OWorkspace, Workspace, p)]) [] workspace
  ++ from_option (λ g, omap (λ op, (λ s, (op.1, s, op.2)) <$> layer_scope (project_id g) key_id op.1)
                         (policies g)) [] g.

Definition applicable_budgets (workspace : option KeyPolicy) (g : option Governance) (key_id : option bytes)
    (end_user : option bytes) : list Applicable :=
  '(o, s, p) ← policy_layers workspace g key_id;
  from_option (λ b, [{| ap_origin := o; ap_scope := s; ap_end_user := None; ap_budget := b |}]) [] (budget p)
  ++ match end_user_budget p, end_user with
     | Some b, Some u => [{| ap_origin := o; ap_scope := s; ap_end_user := Some u; ap_budget := b |}]
     | _, _ => []
     end.
End budgets.
