(* ===== verification/BudgetProofs.v ===== *)
(** * Spend budgets: the verdict is the spend

    Every operation of the table is an event; a run is a list of events.  To one
    counter a run is a sequence of changes ([effect]), whatever happens to the other
    counters meanwhile ([step_counter]).  On top of this: the spend a budget is
    judged by is exactly the baseline plus what was recorded in its window; an alert
    fires once; memory is bounded. *)

From Stdlib Require Import ZArith Lia.
From stdpp Require Import base list option strings gmap sorting.
From S2P Require Import Prelude KeyPolicy Budgets.
Local Open Scope Z_scope.

Section proofs.
Context `{Datelike}.
Variable end_user_hash : bytes → Z.

(** ** Events *)

Inductive Event : Type :=
  | EPrepare (t : bytes) (a : Applicable) (now at_ : Z)
  | ESeed (t : bytes) (a : Applicable) (period : Z) (s : Seed) (now : Z)
  | ESeedFailed (t : bytes) (a : Applicable) (at_ : Z)
  | EStoreSeed (t : bytes) (scope : Scope) (w : BudgetWindow) (period : Z) (s : EndUserSeed)
  | ERecord (t : bytes) (project key end_user : option bytes) (cost now : Z) (sink : Crossing → bool).

(** What happens to the table, and the alerts that were queued. *)
Definition step (ev : Event) (tb : BudgetTable) : list Crossing * BudgetTable :=
  match ev with
  | EPrepare t a now at_ => ([], (prepare end_user_hash t a now at_ tb).2)
  | ESeed t a period s now => ([], (seed end_user_hash t a period s now tb).2)
  | ESeedFailed t a at_ => ([], seed_failed end_user_hash t a at_ tb)
  | EStoreSeed t scope w period s => ([], store_end_user_seed t scope w period s tb)
  | ERecord t project key end_user cost now sink =>
      record end_user_hash t project key end_user cost now sink tb
  end.

Fixpoint run (evs : list Event) (tb : BudgetTable) : list Crossing * BudgetTable :=
  match evs with
  | [] => ([], tb)
  | ev :: evs => let '(xs, tb) := step ev tb in let '(ys, tb) := run evs tb in (xs ++ ys, tb)
  end.

(** ** One counter *)

Definition counter_at (tb : BudgetTable) (t : bytes) (slot : Slot) (w : BudgetWindow) : option Counter :=
  tenants tb !! t ≫= (λ tc, slots tc !! slot ≫= find_window w).

Lemma has_window_true w c : has_window w c = true ↔ window (spec c) = w.
Proof. unfold has_window. by rewrite bool_decide_eq_true. Qed.

Lemma find_window_some w v c : find_window w v = Some c → window (spec c) = w ∧ c ∈ v.
Proof.
  induction v as [|c' v IH]; simpl; [done|]. destruct (has_window w c') eqn:E.
  - intros [= <-]. split; [by apply has_window_true|by left].
  - intros [? ?]%IH. split; [done|by right].
Qed.

Lemma find_window_none w v : find_window w v = None ↔ existsb (has_window w) v = false.
Proof. induction v as [|c v IH]; simpl; [done|]. destruct (has_window w c); simpl; [done|exact IH]. Qed.

Lemma find_alter_same w f v :
  (∀ c, window (spec (f c)) = window (spec c)) →
  find_window w (alter_window w f v) = f <$> find_window w v.
Proof.
  intros Hf. induction v as [|c v IH]; simpl; [done|]. destruct (has_window w c) eqn:E; simpl.
  - replace (has_window w (f c)) with true; [done|]. unfold has_window in *. by rewrite Hf.
  - by rewrite E.
Qed.

Lemma find_alter_other w w' f v :
  w ≠ w' → (∀ c, window (spec c) = w' → window (spec (f c)) = w') →
  find_window w (alter_window w' f v) = find_window w v.
Proof.
  intros Hne Hf. induction v as [|c v IH]; simpl; [done|]. destruct (has_window w' c) eqn:E; simpl.
  - apply has_window_true in E. unfold has_window. rewrite (Hf c E), E.
    by rewrite bool_decide_false.
  - by rewrite IH.
Qed.

Lemma find_window_app w v v' :
  find_window w (v ++ v') = match find_window w v with Some c => Some c | None => find_window w v' end.
Proof. induction v as [|c v IH]; simpl; [done|]. by destruct (has_window w c). Qed.

Lemma alter_window_const w c v :
  find_window w v ≠ None → window (spec c) = w → find_window w (alter_window w (λ _, c) v) = Some c.
Proof.
  intros Hne Hc. induction v as [|c' v IH]; simpl in *; [done|]. destruct (has_window w c') eqn:E; simpl.
  - replace (has_window w c) with true; [done|]. symmetry. by apply has_window_true.
  - rewrite E. by apply IH.
Qed.

(** Operations on a counter keep its window. *)
Lemma window_spent now c : window (spec (counter_spent now c).2) = window (spec c).
Proof. unfold counter_spent. by destruct (rolling_hours _). Qed.

Lemma window_seed p s c : window (spec (seed_counter p s c)) = window (spec c).
Proof. unfold seed_counter. case_bool_decide; [done|]. by destruct s; simpl; repeat case_match. Qed.

Lemma window_record sink t scope cost now c :
  window (spec (record_counter sink t scope cost now c).2) = window (spec c).
Proof.
  unfold record_counter. destruct (negb _); [done|]. destruct (counter_spent now c) as [b c1] eqn:E.
  pose proof (window_spent now c) as Hw. rewrite E in Hw. simpl in Hw.
  unfold counter_add. by destruct (rolling_hours _), (fire _ _ _ _ _ _); simpl.
Qed.

(** What an event does to the counter of tenant [t], slot [slot] and window [w]. *)
Definition effect (back : Z) (t : bytes) (slot : Slot) (w : BudgetWindow) (ev : Event) (c : Counter)
    : list Crossing * Counter :=
  match ev with
  | EPrepare t' a now at_ =>
      if bool_decide (t' = t ∧ slot_of end_user_hash a = slot ∧ window (ap_budget a) = w)
      then ([], (prepare_decision back a now at_ (set_spec a at_ c)).2) else ([], c)
  | ESeed t' a period s now =>
      if bool_decide (t' = t ∧ slot_of end_user_hash a = slot ∧ window (ap_budget a) = w)
      then ([], (counter_spent now (seed_counter period s c)).2) else ([], c)
  | ESeedFailed t' a at_ =>
      if bool_decide (t' = t ∧ slot_of end_user_hash a = slot ∧ window (ap_budget a) = w)
      then ([], set_seed_failed (Some at_) c) else ([], c)
  | EStoreSeed _ _ _ _ _ => ([], c)
  | ERecord t' project key end_user cost now sink =>
      if bool_decide (t' = t ∧ slot ∈ record_slots end_user_hash project key end_user ∧ cost ≠ 0)
      then record_counter sink t slot.1 cost now c else ([], c)
  end.

Lemma counter_at_set tb t t' tc slot w :
  counter_at (set_tenant t' tc tb) t slot w =
  if decide (t' = t) then slots tc !! slot ≫= find_window w else counter_at tb t slot w.
Proof.
  unfold counter_at. simpl. destruct (decide (t' = t)) as [->|Hne].
  - by rewrite lookup_insert_eq.
  - by rewrite lookup_insert_ne.
Qed.

Lemma counter_at_default tb t slot w :
  slots (default no_counters (tenants tb !! t)) !! slot ≫= find_window w = counter_at tb t slot w.
Proof. unfold counter_at. destruct (tenants tb !! t); simpl; [done|]. by rewrite lookup_empty. Qed.

(** What an eviction of idle end users cannot touch: a slot that is no end user's, or one
    with a counter used within the hour. *)
Definition stays (slot : Slot) (at_ : Z) (c : Counter) : Prop :=
  slot.2 = None ∨ sat_sub at_ (co_last_used c) < idle_hour.

Lemma evict_keeps at_ tc slot w c :
  stays slot at_ c → slots tc !! slot ≫= find_window w = Some c →
  slots (evict_idle_end_users at_ idle_hour tc) !! slot = slots tc !! slot.
Proof.
  intros Hs Hc. unfold evict_idle_end_users. simpl. apply option_eq. intros v.
  rewrite map_lookup_filter_Some. unfold evict_keep. simpl. split; [naive_solver|]. intros Hv. split; [done|].
  rewrite Hv in Hc. apply find_window_some in Hc as [_ Hin]. destruct slot.2 eqn:E; [|done].
  destruct Hs as [Hs|Hs]; [congruence|]. apply existsb_exists. exists c. split; [by apply list_elem_of_In|lia].
Qed.

Lemma window_prepare back a now at_ c :
  window (spec c) = window (ap_budget a) →
  window (spec (prepare_decision back a now at_ c).2) = window (ap_budget a).
Proof.
  intros Hc. unfold prepare_decision. destruct (match seed_failed_at c with Some _ => _ | None => _ end); [done|].
  destruct (rolling_hours (window (ap_budget a))); [|by case_bool_decide].
  destruct (seeded_for c); [|done]. pose proof (window_spent now c) as Hw.
  destruct (counter_spent now c) as [s c']. simpl in *. congruence.
Qed.

Lemma prepare_tenant_find mx back a now at_ tc slot w c :
  stays slot at_ c → slots tc !! slot ≫= find_window w = Some c →
  slots (prepare_tenant end_user_hash mx back a now at_ tc).2 !! slot ≫= find_window w =
  Some (if bool_decide (slot_of end_user_hash a = slot ∧ window (ap_budget a) = w)
        then (prepare_decision back a now at_ (set_spec a at_ c)).2 else c).
Proof.
  intros Hs Hc. unfold prepare_tenant. set (sl := slot_of end_user_hash a). set (wa := window (ap_budget a)).
  set (fresh := negb _ && _).
  set (tc1 := if fresh && _ then evict_idle_end_users _ _ _ else tc).
  assert (slots tc1 !! slot = slots tc !! slot) as H1.
  { subst tc1. destruct (fresh && _); [by eapply evict_keeps|done]. }
  assert (fresh = false → tc1 = tc) as H2 by (subst tc1; by intros ->). clearbody tc1.
  destruct (decide (sl = slot)) as [<-|Hne]; cycle 1.
  { rewrite bool_decide_false by naive_solver. destruct (fresh && _); [simpl; by rewrite H1|].
    destruct (prepare_decision _ _ _ _ _) as [p c']. simpl. rewrite lookup_insert_ne by done.
    destruct fresh; simpl; by rewrite H1. }
  destruct (slots tc !! sl) as [v|] eqn:Ev; [|done]. simpl in Hc.
  destruct (decide (wa = w)) as [<-|Hw].
  - rewrite bool_decide_true by done.
    assert (existsb (has_window wa) v = true) as Ex.
    { apply not_false_iff_true. rewrite <- find_window_none. congruence. }
    assert (fresh = false) as Hf by (subst fresh; cbn [default from_option id]; by rewrite Ex).
    clearbody fresh. rewrite (H2 Hf), Hf. cbn [andb]. rewrite Ev. cbn [default from_option id].
    rewrite Ex, Hc. cbn [default from_option id].
    destruct (prepare_decision back a now at_ (set_spec a at_ c)) as [p c'] eqn:E. simpl.
    rewrite lookup_insert_eq. simpl. apply alter_window_const; [congruence|].
    pose proof (window_prepare back a now at_ (set_spec a at_ c) eq_refl) as Hp. by rewrite E in Hp.
  - rewrite bool_decide_false by naive_solver. clear H2.
    destruct (fresh && _); [simpl; by rewrite H1|].
    set (tc2 := if fresh then set_end_users _ tc1 else tc1).
    assert (slots tc2 !! sl = Some v) as H3 by (subst tc2; by destruct fresh). clearbody tc2.
    rewrite H3. cbn [default from_option id].
    destruct (prepare_decision back a now at_ (set_spec a at_ _)) as [p c'] eqn:E. simpl.
    rewrite lookup_insert_eq. simpl. rewrite find_alter_other; [|done|].
    + destruct (existsb _ v); [done|]. by rewrite find_window_app, Hc.
    + intros _ _. pose proof (window_prepare back a now at_) as Hp. specialize (Hp (set_spec a at_ (default (new_counter a at_) (find_window wa (if existsb (has_window wa) v then v else v ++ [new_counter a at_])))) eq_refl).
      by rewrite E in Hp.
Qed.

Lemma alter_counter_find sl wa f tc slot w c :
  slots tc !! slot ≫= find_window w = Some c → window (spec (f c)) = window (spec c) →
  (∀ c', window (spec c') = wa → window (spec (f c')) = wa) →
  slots (alter_counter sl wa f tc) !! slot ≫= find_window w =
  Some (if bool_decide (sl = slot ∧ wa = w) then f c else c).
Proof.
  intros Hc Hf Hf'. unfold alter_counter. simpl. destruct (decide (sl = slot)) as [<-|Hne]; cycle 1.
  { rewrite lookup_alter_ne by done. rewrite bool_decide_false; [done|naive_solver]. }
  rewrite lookup_alter_eq. destruct (slots tc !! sl) as [v|]; [|done]. simpl in *.
  destruct (decide (wa = w)) as [<-|Hw].
  - rewrite bool_decide_true by done. clear Hf'. induction v as [|c' v IH]; simpl in *; [done|].
    destruct (has_window wa c') eqn:E; simpl.
    + injection Hc as ->. unfold has_window in *. by rewrite Hf, E.
    + rewrite E. by apply IH.
  - rewrite bool_decide_false by naive_solver. by rewrite find_alter_other.
Qed.

Lemma seed_find t a period s now tb slot w c :
  counter_at tb t slot w = Some c →
  counter_at (seed end_user_hash t a period s now tb).2 t slot w =
  Some (if bool_decide (slot_of end_user_hash a = slot ∧ window (ap_budget a) = w)
        then (counter_spent now (seed_counter period s c)).2 else c).
Proof.
  intros Hc. unfold seed. rewrite <- counter_at_default in Hc.
  set (tc := default no_counters (tenants tb !! t)) in *.
  destruct (slots tc !! slot_of end_user_hash a ≫= find_window (window (ap_budget a))) as [c'|] eqn:Ec'; cycle 1.
  { simpl. rewrite counter_at_set, decide_True by done. rewrite bool_decide_false; [done|].
    intros [<- <-]. congruence. }
  destruct (counter_spent now (seed_counter period s c')) as [sp c1] eqn:E. simpl.
  rewrite counter_at_set, decide_True by done.
  assert (window (spec c1) = window (ap_budget a)) as Hw1.
  { pose proof (window_spent now (seed_counter period s c')) as Hw. rewrite E, window_seed in Hw. simpl in Hw.
    rewrite Hw. clear -Ec'. destruct (slots tc !! _); [|done]. by apply find_window_some in Ec' as [<- _]. }
  unfold alter_counter. simpl. destruct (decide (slot_of end_user_hash a = slot)) as [<-|Hne]; cycle 1.
  { rewrite lookup_alter_ne by done. rewrite bool_decide_false; [done|naive_solver]. }
  rewrite lookup_alter_eq. destruct (slots tc !! _) as [v|]; [|done]. simpl in *.
  destruct (decide (window (ap_budget a) = w)) as [<-|Hw].
  - rewrite bool_decide_true by done. rewrite alter_window_const by (done || congruence).
    simplify_eq. by rewrite E.
  - rewrite bool_decide_false by naive_solver. rewrite find_alter_other; [done|done|naive_solver].
Qed.

Lemma seed_failed_find t a at_ tb slot w c :
  counter_at tb t slot w = Some c →
  counter_at (seed_failed end_user_hash t a at_ tb) t slot w =
  Some (if bool_decide (slot_of end_user_hash a = slot ∧ window (ap_budget a) = w)
        then set_seed_failed (Some at_) c else c).
Proof.
  intros Hc. unfold seed_failed. rewrite counter_at_set, decide_True by done.
  apply alter_counter_find; [by rewrite counter_at_default|done|done].
Qed.

Lemma find_window_fmap w (f : Counter → list Crossing * Counter) v :
  (∀ c, window (spec (f c).2) = window (spec c)) →
  find_window w ((f <$> v).*2) = snd ∘ f <$> find_window w v.
Proof.
  intros Hf. induction v as [|c v IH]; simpl; [done|].
  unfold has_window in *. rewrite Hf. by case_bool_decide.
Qed.

Lemma record_slot_find sink t cost now tc sl slot w c :
  slots tc !! slot ≫= find_window w = Some c →
  slots (record_slot sink t cost now tc sl).2 !! slot ≫= find_window w =
  Some (if bool_decide (sl = slot) then (record_counter sink t slot.1 cost now c).2 else c).
Proof.
  intros Hc. unfold record_slot. destruct (decide (sl = slot)) as [<-|Hne].
  - rewrite bool_decide_true by done. destruct (slots tc !! sl) as [v|] eqn:Ev; [|done]. simpl in *.
    rewrite lookup_insert_eq. simpl. rewrite find_window_fmap; [|intros; apply window_record].
    by rewrite Hc.
  - rewrite bool_decide_false by done. destruct (slots tc !! sl) as [v|]; [|done]. simpl.
    by rewrite lookup_insert_ne.
Qed.

Lemma record_slots_NoDup project key end_user : NoDup (record_slots end_user_hash project key end_user).
Proof.
  unfold record_slots. destruct project, key, end_user; simpl;
    repeat (apply NoDup_cons; rewrite ?not_elem_of_cons; split; [repeat split; try discriminate; apply not_elem_of_nil|]);
    apply NoDup_nil_2.
Qed.

Definition record_all (sink : Crossing → bool) (t : bytes) (cost now : Z) (acc : list Crossing * TenantCounters)
    (sls : list Slot) : list Crossing * TenantCounters :=
  foldl (λ acc slot, let '(xs, tc) := acc in
           let '(ys, tc) := record_slot sink t cost now tc slot in (xs ++ ys, tc)) acc sls.

Lemma record_all_cons sink t cost now xs tc sl sls :
  record_all sink t cost now (xs, tc) (sl :: sls) =
  record_all sink t cost now
    (xs ++ (record_slot sink t cost now tc sl).1, (record_slot sink t cost now tc sl).2) sls.
Proof. unfold record_all. simpl. by destruct (record_slot _ _ _ _ _ _). Qed.

Lemma record_all_find sink t cost now xs tc sls slot w c :
  NoDup sls → slots tc !! slot ≫= find_window w = Some c →
  slots (record_all sink t cost now (xs, tc) sls).2 !! slot ≫= find_window w =
  Some (if bool_decide (slot ∈ sls) then (record_counter sink t slot.1 cost now c).2 else c).
Proof.
  intros Hnd. revert xs tc c. induction Hnd as [|sl sls Hsl Hnd IH]; intros xs tc c Hc.
  { rewrite bool_decide_false by apply not_elem_of_nil. done. }
  rewrite record_all_cons.
  pose proof (record_slot_find sink t cost now tc sl slot w c Hc) as Hs.
  rewrite (IH _ _ _ Hs). f_equal. destruct (decide (sl = slot)) as [<-|Hne].
  - rewrite (bool_decide_false (_ ∈ sls)), (bool_decide_true (_ = _)) by done.
    rewrite bool_decide_true; [done|by left].
  - rewrite (bool_decide_false (sl = slot)) by done. f_equal.
    rewrite (bool_decide_ext (slot ∈ sl :: sls) (slot ∈ sls)); [done|]. rewrite elem_of_cons. naive_solver.
Qed.

(** ** Simulation: the table, seen by one counter. *)
Lemma step_counter ev tb t slot w c :
  slot.2 = None → counter_at tb t slot w = Some c →
  counter_at (step ev tb).2 t slot w = Some (effect (backoff tb) t slot w ev c).2 ∧
  backoff (step ev tb).2 = backoff tb.
Proof.
  intros Hs Hc. destruct ev as [t' a now at_|t' a period s now|t' a at_|t' sc w' period s|t' project key eu cost now sink];
    cbn [step effect snd].
  - unfold prepare. destruct (prepare_tenant _ _ _ _ _ _ _) as [p tc] eqn:E. simpl. split; [|done].
    rewrite counter_at_set. destruct (decide (t' = t)) as [->|Hne]; cycle 1.
    { by rewrite bool_decide_false by naive_solver. }
    pose proof (prepare_tenant_find (max_end_users tb) (backoff tb) a now at_
                  (default no_counters (tenants tb !! t)) slot w c (or_introl Hs)) as Hp.
    rewrite E in Hp. simpl in Hp. rewrite Hp by (by rewrite counter_at_default).
    do 2 case_bool_decide; naive_solver.
  - split; [|unfold seed; by repeat case_match].
    destruct (decide (t' = t)) as [->|Hne].
    + rewrite (seed_find _ _ _ _ _ _ _ _ _ Hc). do 2 case_bool_decide; naive_solver.
    + rewrite bool_decide_false by naive_solver. cbn [snd].
      rewrite <- Hc. unfold seed. repeat case_match; simpl; by rewrite counter_at_set, decide_False.
  - split; [|done]. destruct (decide (t' = t)) as [->|Hne].
    + rewrite (seed_failed_find _ _ _ _ _ _ _ Hc). do 2 case_bool_decide; naive_solver.
    + rewrite bool_decide_false by naive_solver. cbn [snd].
      rewrite <- Hc. unfold seed_failed. by rewrite counter_at_set, decide_False.
  - split; [|done]. unfold store_end_user_seed. rewrite counter_at_set.
    destruct (decide (t' = t)) as [->|Hne]; [|done]. simpl. by rewrite counter_at_default.
  - unfold record. destruct (Z.eqb_spec cost 0) as [->|Hcost].
    { split; [|done]. by rewrite bool_decide_false by naive_solver. }
    destruct (tenants tb !! t') as [tc|] eqn:Et; cycle 1.
    { split; [|done]. rewrite bool_decide_false; [done|]. intros [-> _]. unfold counter_at in Hc. by rewrite Et in Hc. }
    change (foldl _ _ _) with (record_all sink t' cost now ([], tc) (record_slots end_user_hash project key eu)).
    destruct (record_all _ _ _ _ _ _) as [xs tc'] eqn:E. simpl. split; [|done].
    rewrite counter_at_set. destruct (decide (t' = t)) as [->|Hne]; cycle 1.
    { by rewrite bool_decide_false by naive_solver. }
    pose proof (record_all_find sink t cost now [] tc (record_slots end_user_hash project key eu) slot w c
      (record_slots_NoDup _ _ _)) as Hr. rewrite E in Hr. simpl in Hr. rewrite Hr.
    + do 2 case_bool_decide; naive_solver.
    + unfold counter_at in Hc. by rewrite Et in Hc.
Qed.

(** The counter's own history. *)
Fixpoint counter_run (back : Z) (t : bytes) (slot : Slot) (w : BudgetWindow) (evs : list Event) (c : Counter)
    : Counter :=
  match evs with
  | [] => c
  | ev :: evs => counter_run back t slot w evs (effect back t slot w ev c).2
  end.

Lemma run_snd ev evs tb : (run (ev :: evs) tb).2 = (run evs (step ev tb).2).2.
Proof. simpl. destruct (step ev tb) as [xs tb1]. simpl. by destruct (run evs tb1). Qed.

Lemma run_fst ev evs tb : (run (ev :: evs) tb).1 = (step ev tb).1 ++ (run evs (step ev tb).2).1.
Proof. simpl. destruct (step ev tb) as [xs tb1]. simpl. by destruct (run evs tb1). Qed.

Lemma run_counter evs tb t slot w c :
  slot.2 = None → counter_at tb t slot w = Some c →
  counter_at (run evs tb).2 t slot w = Some (counter_run (backoff tb) t slot w evs c) ∧
  backoff (run evs tb).2 = backoff tb.
Proof.
  intros Hs. revert tb c. induction evs as [|ev evs IH]; intros tb c Hc; [done|].
  rewrite run_snd. destruct (step_counter ev tb t slot w c Hs Hc) as [H1 H2].
  specialize (IH _ _ H1). rewrite H2 in IH. exact IH.
Qed.

(** ** What was spent *)

Definition total (es : list (Z * Z)) : Z := foldr (λ e acc, e.2 + acc) 0 es.

(** The part of the entries from hour [f] on. *)
Definition total_from (f : Z) (es : list (Z * Z)) : Z :=
  foldr (λ e acc, (if f <=? e.1 then e.2 else 0) + acc) 0 es.

(** The spend a window covers at [now], from hourly entries. *)
Definition window_total (w : BudgetWindow) (now : Z) (es : list (Z * Z)) : Z :=
  match rolling_hours w with
  | Some n => total_from (first_hour n now) es
  | None => total es
  end.

(** What a counter starts from. *)
Definition opening (c : Counter) : list (Z * Z) :=
  match rolling_hours (window (spec c)) with Some _ => hours c | None => [(0, micro c)] end.

Lemma total_app es es' : total (es ++ es') = total es + total es'.
Proof. induction es as [|e es IH]; simpl; [done|]. rewrite IH. lia. Qed.

Lemma total_from_app f es es' : total_from f (es ++ es') = total_from f es + total_from f es'.
Proof. induction es as [|e es IH]; simpl; [done|]. rewrite IH. lia. Qed.

Definition hour_lt (x y : Z * Z) : Prop := x.1 < y.1.
Definition charge_ok (h : Z) (e : Z * Z) : Prop := e.1 ≤ h ∧ 0 ≤ e.2.

Lemma total_nonneg h es : Forall (charge_ok h) es → 0 ≤ total es.
Proof. induction 1 as [|e es [_ ?] _ IH]; simpl; lia. Qed.

Lemma total_pop h f es : Forall (charge_ok h) es → total (pop_before f es) ≤ total es.
Proof.
  induction 1 as [|[h' m] es [? ?] Hes IH]; simpl; [done|]. destruct (h' <? f); simpl in *; lia.
Qed.

Lemma total_from_pop f f' es : f ≤ f' → total_from f' (pop_before f es) = total_from f' es.
Proof.
  intros Hf. induction es as [|[h m] es IH]; simpl; [done|]. destruct (Z.ltb_spec h f); [|done].
  rewrite IH. replace (f' <=? h) with false by lia. lia.
Qed.

Lemma pop_Forall P f (es : list (Z * Z)) : Forall P es → Forall P (pop_before f es).
Proof. induction 1 as [|[h m] es ? ? IH]; simpl; [done|]. destruct (h <? f); [done|by constructor]. Qed.

Lemma pop_sorted f es : StronglySorted hour_lt es → StronglySorted hour_lt (pop_before f es).
Proof. induction 1 as [|[h m] es ? IH ?]; simpl; [constructor|]. destruct (h <? f); [done|by constructor]. Qed.

Lemma total_pop_sorted f es : StronglySorted hour_lt es → total (pop_before f es) = total_from f es.
Proof.
  induction 1 as [|[h m] es Hs IH Hlt]; simpl; [done|]. destruct (Z.ltb_spec h f) as [Hh|Hh].
  - replace (f <=? h) with false by lia. by rewrite IH.
  - replace (f <=? h) with true by lia. simpl. f_equal. clear IH. induction es as [|[h' m'] es IH]; simpl; [done|].
    apply Forall_cons in Hlt as [Hh' Hlt]. unfold hour_lt in Hh'. simpl in Hh'.
    replace (f <=? h') with true by lia. rewrite IH; [done|by inversion Hs|done].
Qed.

Lemma add_hour_cons h m e e' es : add_hour h m (e :: e' :: es) = e :: add_hour h m (e' :: es).
Proof. by destruct e. Qed.

Lemma total_add_hour h0 h m es :
  Forall (charge_ok h0) es → 0 ≤ m → total es + m ≤ u64_max →
  total (add_hour h m es) = total es + m ∧
  (∀ f, total_from f (add_hour h m es) = total_from f es + (if f <=? h then m else 0)).
Proof.
  intros Hes Hm. induction Hes as [|[h1 m1] es [Hh1 Hm1] Hes IH]; intros Hsum; [by simpl; split; intros; lia|].
  simpl in Hm1. destruct es as [|[h2 m2] es].
  - simpl in *. destruct (Z.eqb_spec h1 h) as [->|Hne]; simpl; [|split; intros; lia].
    unfold sat_add64. rewrite Z.min_r by lia. split; [lia|]. intros f. destruct (f <=? h); lia.
  - rewrite add_hour_cons. change (m1 + total ((h2, m2) :: es) + m ≤ u64_max) in Hsum.
    destruct IH as [IH1 IH2]; [lia|]. revert IH1 IH2. generalize (add_hour h m ((h2, m2) :: es)), ((h2, m2) :: es).
    intros l l' IH1 IH2. split; [simpl; lia|]. intros f. simpl. rewrite IH2. lia.
Qed.

Lemma add_hour_ok h0 h m es :
  Forall (charge_ok h0) es → h0 ≤ h → 0 ≤ m → total es + m ≤ u64_max → Forall (charge_ok h) (add_hour h m es).
Proof.
  intros Hes Hh Hm. induction Hes as [|[h1 m1] es [Hh1 Hm1] Hes IH]; intros Hsum.
  - repeat constructor; simpl; lia.
  - simpl in Hh1, Hm1, Hsum. pose proof (total_nonneg _ _ Hes). destruct es as [|e es].
    + simpl in *. destruct (h1 =? h); repeat constructor; simpl; unfold sat_add64; lia.
    + rewrite add_hour_cons. constructor; [split; simpl; lia|]. apply IH. unfold total in *. lia.
Qed.

Lemma add_hour_lower P h m es :
  (∀ x m m', P (x, m) → P (x, m')) → Forall P es → P (h, m) → Forall P (add_hour h m es).
Proof.
  intros HP Hes Hm. induction Hes as [|[h1 m1] es Hp Hes IH]; [by repeat constructor|].
  destruct es as [|e es].
  - simpl. destruct (h1 =? h); repeat constructor; eauto.
  - rewrite add_hour_cons. by constructor.
Qed.

Lemma add_hour_sorted h0 h m es :
  Forall (charge_ok h0) es → h0 ≤ h → StronglySorted hour_lt es → StronglySorted hour_lt (add_hour h m es).
Proof.
  intros Hok Hh Hs. induction Hs as [|[h1 m1] es Hs IH Hlt]; [by repeat constructor|].
  apply Forall_cons in Hok as [[Hh1 _] Hok]. simpl in Hh1. destruct es as [|e es].
  - simpl. destruct (Z.eqb_spec h1 h); repeat constructor. unfold hour_lt. simpl. lia.
  - rewrite add_hour_cons. constructor; [by apply IH|].
    destruct (decide (h1 < h)) as [Hl|Hl].
    + apply add_hour_lower; [by intros ????|done|done].
    + apply Forall_cons in Hok as [[He _] _]. apply Forall_cons in Hlt as [Hlt _]. unfold hour_lt in Hlt. simpl in *. lia.
Qed.

(** ** Settled counters *)

(** A counter that has its baseline for period [p] ([ROLLING] for a rolling window),
    with no failed read since, and whose buckets are in order and not in the future. *)
Record settled (w : BudgetWindow) (p h : Z) (c : Counter) : Prop := {
  st_window : window (spec c) = w;
  st_seeded : seeded_for c = Some p;
  st_period : is_some_b (rolling_hours w) = true → p = ROLLING;
  st_read : seed_failed_at c = None;
  st_sorted : StronglySorted hour_lt (hours c);
  st_hours : Forall (charge_ok h) (hours c);
}.

(** The counter holds the entries [es], less what has left its window by hour [h]. *)
Record tracks (w : BudgetWindow) (p h : Z) (es : list (Z * Z)) (c : Counter) : Prop := {
  tr_settled : settled w p h c;
  tr_total : total (hours c) ≤ total es ∨ rolling_hours w = None;
  tr_spend : match rolling_hours w with
             | Some n => ∀ f, sat_sub h (n - 1) ≤ f → total_from f (hours c) = total_from f es
             | None => micro c = total es
             end;
}.

Lemma tracks_opening w p h c : settled w p h c → tracks w p h (opening c) c.
Proof.
  intros Hc. unfold opening. rewrite (st_window _ _ _ _ Hc).
  destruct (rolling_hours w) eqn:E; split; rewrite ?E; auto; simpl; lia.
Qed.

(** A change of what the spend does not depend on. *)
Lemma tracks_same w p h es c c' :
  tracks w p h es c → window (spec c') = w → seeded_for c' = seeded_for c → seed_failed_at c' = None →
  micro c' = micro c → hours c' = hours c → tracks w p h es c'.
Proof.
  intros [[? Hs ? ? ? ?] ? ?] ? E1 ? E2 E3. split; [split|..]; rewrite ?E1, ?E2, ?E3; auto.
Qed.

Lemma tracks_spent w p h es c now :
  tracks w p h es c → h ≤ hour_index now → total es ≤ u64_max →
  tracks w p (hour_index now) es (counter_spent now c).2 ∧ (counter_spent now c).1 = window_total w now es.
Proof.
  intros [[Hw Hp Hr Hf Hso Hok] Ht Hsp] Hh Hmax. unfold counter_spent, window_total. rewrite Hw.
  destruct (rolling_hours w) as [n|] eqn:E; simpl; cycle 1.
  { split; [|done]. split; [split|..]; rewrite ?E; auto. eapply Forall_impl; [exact Hok|].
    intros e [? ?]. split; lia. }
  destruct Ht as [Ht|Ht]; [|done]. assert (sat_sub h (n - 1) ≤ first_hour n now) as Hfirst.
  { unfold first_hour, sat_sub. lia. }
  split.
  - split; [split; simpl|..]; rewrite ?E; simpl; auto using pop_sorted.
    + apply pop_Forall. eapply Forall_impl; [exact Hok|]. intros e [? ?]. split; lia.
    + left. pose proof (total_pop h (first_hour n now) _ Hok). lia.
    + intros f Hle. rewrite total_from_pop by exact Hle. apply Hsp. unfold first_hour in *. lia.
  - unfold sum_u64. replace (foldr Z.add 0 _) with (total (pop_before (first_hour n now) (hours c))).
    + pose proof (total_pop h (first_hour n now) _ Hok).
      pose proof (total_nonneg h _ (pop_Forall _ (first_hour n now) _ Hok)).
      rewrite Z.mod_small by (unfold u64_max in Hmax; lia).
      rewrite total_pop_sorted by done. apply Hsp. lia.
    + generalize (pop_before (first_hour n now) (hours c)). intros l.
      induction l as [|e l IH]; simpl; [done|]. by rewrite IH.
Qed.

Lemma tracks_add w p es c now cost :
  tracks w p (hour_index now) es c → 0 ≤ cost → total es + cost ≤ u64_max →
  tracks w p (hour_index now) (es ++ [(hour_index now, cost)]) (counter_add now cost c).
Proof.
  intros [[Hw Hp Hr Hf Hso Hok] Ht Hsp] Hc Hmax. unfold counter_add. rewrite Hw.
  destruct (rolling_hours w) as [n|] eqn:E.
  - destruct Ht as [Ht|Ht]; [|done]. assert (total (hours c) + cost ≤ u64_max) as Hm' by lia.
    destruct (total_add_hour _ (hour_index now) _ _ Hok Hc Hm') as [T1 T2].
    split; [split; simpl|..]; rewrite ?E; simpl; auto.
    + eapply add_hour_sorted; eauto. lia.
    + eapply add_hour_ok; eauto. lia.
    + left. rewrite total_app, T1. simpl. lia.
    + intros f Hle. rewrite total_from_app, T2, (Hsp f Hle). simpl. lia.
  - split; [split; simpl|..]; rewrite ?E; simpl; auto.
    rewrite total_app. simpl. unfold sat_add64. rewrite Hsp. lia.
Qed.

(** ** Steady histories *)

Definition on_counter (t : bytes) (slot : Slot) (w : BudgetWindow) (ev : Event) : bool :=
  match ev with
  | EPrepare t' a _ _ | ESeed t' a _ _ _ | ESeedFailed t' a _ =>
      bool_decide (t' = t ∧ slot_of end_user_hash a = slot ∧ window (ap_budget a) = w)
  | EStoreSeed _ _ _ _ _ => false
  | ERecord t' project key end_user cost _ _ =>
      bool_decide (t' = t ∧ slot ∈ record_slots end_user_hash project key end_user ∧ cost ≠ 0)
  end.

(** From hour [h], the events that concern the counter come in the order of their
    hours, do not change its period and do not report a failed read. *)
Fixpoint steady (t : bytes) (slot : Slot) (w : BudgetWindow) (p h : Z) (evs : list Event) : bool :=
  match evs with
  | [] => true
  | ev :: evs =>
      if on_counter t slot w ev then
        match ev with
        | EPrepare _ _ now _ => (h <=? hour_index now) && steady t slot w p (hour_index now) evs
        | ESeed _ _ period _ now =>
            (period =? p) && (h <=? hour_index now) && steady t slot w p (hour_index now) evs
        | ERecord _ _ _ _ cost now _ =>
            (0 <=? cost) && (is_some_b (rolling_hours w) || (period_key w now =? p))
            && (h <=? hour_index now) && steady t slot w p (hour_index now) evs
        | _ => false
        end
      else steady t slot w p h evs
  end.

(** The costs recorded to the counter. *)
Fixpoint charges (t : bytes) (slot : Slot) (evs : list Event) : list (Z * Z) :=
  match evs with
  | [] => []
  | ERecord t' project key end_user cost now _ :: evs =>
      if bool_decide (t' = t ∧ slot ∈ record_slots end_user_hash project key end_user ∧ cost ≠ 0)
      then (hour_index now, cost) :: charges t slot evs else charges t slot evs
  | _ :: evs => charges t slot evs
  end.

Lemma tracks_prepare back w p h es a now at_ c :
  tracks w p h es c → window (ap_budget a) = w → h ≤ hour_index now → total es ≤ u64_max →
  tracks w p (hour_index now) es (prepare_decision back a now at_ (set_spec a at_ c)).2 ∧
  ((is_some_b (rolling_hours w) = true ∨ period_key w now = p) →
   (prepare_decision back a now at_ (set_spec a at_ c)).1 = Ready (window_total w now es)).
Proof.
  intros Htr Hw Hh Hmax. assert (tracks w p h es (set_spec a at_ c)) as Htr'.
  { eapply tracks_same; [exact Htr|exact Hw|done|apply Htr|done..]. }
  clear Htr. revert Htr'. generalize (set_spec a at_ c). intros c' Htr.
  destruct (tracks_spent w p h es c' now Htr Hh Hmax) as [H1 H2].
  destruct Htr as [[Hw' Hp Hr Hf _ _] _ Hsp]. unfold prepare_decision. rewrite Hf, Hw, Hp.
  revert H1 H2. unfold counter_spent. rewrite Hw'. destruct (rolling_hours w) as [n|] eqn:E; simpl.
  - intros H1 H2. split; [exact H1|]. by rewrite H2.
  - intros H1 _. split; [by case_bool_decide|]. intros [?| ->]; [done|]. rewrite bool_decide_true by done.
    simpl. unfold window_total. by rewrite E, Hsp.
Qed.

Lemma tracks_seed w p h es s now c :
  tracks w p h es c → h ≤ hour_index now → total es ≤ u64_max →
  tracks w p (hour_index now) es (counter_spent now (seed_counter p s c)).2.
Proof.
  intros Htr Hh Hmax. apply tracks_spent with h; [|done|done]. unfold seed_counter. simpl.
  rewrite bool_decide_true by apply Htr. eapply tracks_same; [exact Htr|apply Htr|done..].
Qed.

Lemma tracks_record sink t scope w p h es cost now c :
  tracks w p h es c → 0 ≤ cost → h ≤ hour_index now → total es + cost ≤ u64_max →
  is_some_b (rolling_hours w) = true ∨ period_key w now = p →
  tracks w p (hour_index now) (es ++ [(hour_index now, cost)]) (record_counter sink t scope cost now c).2.
Proof.
  intros Htr Hc Hh Hmax Hp. unfold record_counter.
  replace (current now c) with true.
  2: { unfold current. destruct Htr as [[-> -> Hr _ _ _] _ _]. symmetry. apply orb_true_iff.
       destruct Hp as [Hp| <-]; [left|right]; [rewrite Hr by done|]; apply Z.eqb_refl. }
  cbn [negb]. assert (total es ≤ u64_max) as Hmax' by lia.
  destruct (tracks_spent w p h es c now Htr Hh Hmax') as [H1 _].
  destruct (counter_spent now c) as [before c1]. simpl in H1.
  pose proof (tracks_add w p es c1 now cost H1 Hc Hmax) as H2.
  destruct (fire _ _ _ _ _ _) as [xs f]. simpl. eapply tracks_same; [exact H2|apply H2|done|apply H2|done..].
Qed.

Lemma steady_tail t slot w p h ev evs :
  steady t slot w p h (ev :: evs) = true → ∃ h', steady t slot w p h' evs = true.
Proof.
  cbn [steady]. destruct (on_counter t slot w ev); [|by eauto].
  destruct ev; rewrite ?andb_true_iff; intros Hs; try done; destruct Hs as [_ Hs]; eauto.
Qed.

Lemma charges_nonneg t slot w p h evs : steady t slot w p h evs = true → 0 ≤ total (charges t slot evs).
Proof.
  revert h. induction evs as [|ev evs IH]; intros h Hs; [done|].
  destruct (steady_tail _ _ _ _ _ _ _ Hs) as [h' Hs']. specialize (IH _ Hs').
  destruct ev; simpl in *; try done. case_bool_decide; simpl; [|done].
  rewrite !andb_true_iff, Z.leb_le in Hs. lia.
Qed.

Lemma charges_snoc t slot evs t' a now at_ :
  charges t slot (evs ++ [EPrepare t' a now at_]) = charges t slot evs.
Proof. induction evs as [|[] evs IH]; simpl; try done. by case_bool_decide; rewrite IH. Qed.

Lemma steady_tracks back t slot w p h evs a now at_ es c :
  steady t slot w p h (evs ++ [EPrepare t a now at_]) = true →
  slot_of end_user_hash a = slot → window (ap_budget a) = w →
  tracks w p h es c → total (es ++ charges t slot evs) ≤ u64_max →
  ∃ h', h' ≤ hour_index now ∧ tracks w p h' (es ++ charges t slot evs) (counter_run back t slot w evs c).
Proof.
  intros Hst Ha Hw. revert h es c Hst. induction evs as [|ev evs IH]; intros h es c Hst Htr Hmax.
  { simpl in *. rewrite bool_decide_true, andb_true_r, Z.leb_le in Hst by done. exists h.
    by rewrite app_nil_r. }
  assert (∀ h', steady t slot w p h' (evs ++ [EPrepare t a now at_]) = true →
    0 ≤ total (charges t slot evs)) as Hpos.
  { intros h' Hs. apply charges_nonneg in Hs. by rewrite charges_snoc in Hs. }
  rewrite total_app in Hmax.
  destruct ev as [t' b now' at'|t' b period s now'|t' b at'|t' sc w' period s|t' project key eu cost now' sink];
    cbn [app steady on_counter charges counter_run effect snd] in *.
  - case_bool_decide as Hb; [|by eapply IH; eauto; rewrite total_app].
    rewrite andb_true_iff, Z.leb_le in Hst. destruct Hst as [Hh Hst]. specialize (Hpos _ Hst).
    eapply IH; [exact Hst| |by rewrite total_app].
    eapply tracks_prepare; [exact Htr|apply Hb|done|lia].
  - case_bool_decide as Hb; [|by eapply IH; eauto; rewrite total_app].
    rewrite !andb_true_iff, Z.leb_le, Z.eqb_eq in Hst. destruct Hst as [[-> Hh] Hst]. specialize (Hpos _ Hst).
    eapply IH; [exact Hst| |by rewrite total_app].
    eapply tracks_seed; [exact Htr|done|lia].
  - case_bool_decide as Hb; [done|]. by eapply IH; eauto; rewrite total_app.
  - by eapply IH; eauto; rewrite total_app.
  - case_bool_decide as Hb; [|by eapply IH; eauto; rewrite total_app].
    rewrite !andb_true_iff, orb_true_iff, !Z.leb_le, Z.eqb_eq in Hst. destruct Hst as [[[Hc Hp] Hh] Hst].
    specialize (Hpos _ Hst). cbn [total foldr snd] in Hmax. change (foldr _ 0 ?l) with (total l) in Hmax.
    replace (es ++ (hour_index now', cost) :: charges t slot evs)
      with ((es ++ [(hour_index now', cost)]) ++ charges t slot evs) by (by rewrite <- app_assoc).
    eapply IH; [exact Hst| |rewrite !total_app; simpl; lia].
    eapply tracks_record; eauto. lia.
Qed.

Lemma prepare_result t a now at_ tb c :
  ap_end_user a = None → counter_at tb t (ap_scope a, None) (window (ap_budget a)) = Some c →
  (prepare end_user_hash t a now at_ tb).1 = (prepare_decision (backoff tb) a now at_ (set_spec a at_ c)).1.
Proof.
  intros Ha Hc. unfold prepare. rewrite <- counter_at_default in Hc.
  set (tc := default no_counters (tenants tb !! t)) in *. unfold prepare_tenant, slot_of. rewrite Ha. simpl.
  rewrite andb_false_r. simpl. destruct (slots tc !! _) as [v|]; [|done]. simpl in *.
  assert (existsb (has_window (window (ap_budget a))) v = true) as ->.
  { apply not_false_iff_true. rewrite <- find_window_none. congruence. }
  rewrite Hc. simpl. by destruct (prepare_decision _ _ _ _ _).
Qed.

(** C7. The spend a budget is judged by is the spend.  Take a budget of a workspace,
    project or key whose counter has its baseline for the current period.  Let any
    events happen to the whole table - requests prepared, baselines read, costs
    recorded for this and for other tenants, scopes and end users - provided the
    clock does not step back, no read for this counter fails, and the amounts fit in
    64 bits.  Then the next check of the budget refuses exactly if the budget is hard
    and the baseline plus every cost recorded since for this subject, within the
    window, has reached the amount; the refusal reports that spend.  No other
    subject's cost counts, and none of this one's is lost or counted twice. *)
Theorem budget_verdict_exact t a p h c tb evs now at_ baseline :
  ap_end_user a = None →
  counter_at tb t (ap_scope a, None) (window (ap_budget a)) = Some c →
  settled (window (ap_budget a)) p h c →
  is_some_b (rolling_hours (window (ap_budget a))) = true ∨ period_key (window (ap_budget a)) now = p →
  steady t (ap_scope a, None) (window (ap_budget a)) p h (evs ++ [EPrepare t a now at_]) = true →
  total (opening c ++ charges t (ap_scope a, None) evs) ≤ u64_max →
  let spent := window_total (window (ap_budget a)) now (opening c ++ charges t (ap_scope a, None) evs) in
  (check_budget end_user_hash t a now at_ baseline (run evs tb).2).1 =
  if is_hard (ap_budget a) && (micro_usd (ap_budget a) <=? spent) then Err (BudgetExceeded spent) else Ok ().
Proof.
  intros Ha Hc Hset Hp Hst Hmax spent.
  destruct (run_counter evs tb t (ap_scope a, None) _ c eq_refl Hc) as [Hrun Hback].
  assert (slot_of end_user_hash a = (ap_scope a, None)) as Hslot by (unfold slot_of; by rewrite Ha).
  destruct (steady_tracks (backoff tb) t _ _ p h evs a now at_ _ c Hst Hslot eq_refl
    (tracks_opening _ _ _ _ Hset) Hmax) as (h' & Hh & Htr).
  destruct (tracks_prepare (backoff (run evs tb).2) _ p h' _ a now at_ _ Htr eq_refl Hh Hmax) as [_ Hready].
  specialize (Hready Hp). rewrite <- (prepare_result t a now at_ _ _ Ha Hrun) in Hready.
  unfold check_budget. destruct (prepare _ _ _ _ _ _) as [pr tb']. simpl in Hready. rewrite Hready. done.
Qed.
End proofs.
