(* ===== verification/BudgetInvariants.v ===== *)
(** * Spend budgets: what always holds of the table

    The invariant of reachable tables ([table_wf]), the bound on the memory end users
    can claim, the alerts, and the reads of baselines. *)

From Stdlib Require Import ZArith Lia.
From stdpp Require Import base list option strings gmap sorting.
From S2P Require Import Prelude KeyPolicy Budgets BudgetProofs.
Local Open Scope Z_scope.

Section invariants.
Context `{Datelike}.
Variable end_user_hash : bytes → Z.

(** ** The invariant *)

Definition nonneg (e : Z * Z) : Prop := 0 ≤ e.2.

Record counter_wf (slot : Slot) (c : Counter) : Prop := {
  cw_user : end_user_hash <$> co_end_user c = slot.2;
  cw_hours : Forall nonneg (hours c);
}.

Record slot_wf (slot : Slot) (v : list Counter) : Prop := {
  sw_some : v ≠ [];
  sw_windows : NoDup ((λ c, window (spec c)) <$> v);
  sw_counters : Forall (counter_wf slot) v;
}.

Definition tenant_wf (tc : TenantCounters) : Prop := map_Forall slot_wf (slots tc).
Definition table_wf (tb : BudgetTable) : Prop := map_Forall (λ _, tenant_wf) (tenants tb).

(** Amounts are unsigned. *)
Definition event_ok (ev : Event) : Prop :=
  match ev with
  | ESeed _ _ _ (Hours hs) _ => Forall nonneg hs
  | ERecord _ _ _ _ cost _ _ => 0 ≤ cost
  | _ => True
  end.

Lemma no_counters_wf : tenant_wf no_counters.
Proof. apply map_Forall_empty. Qed.

Lemma default_wf tb t : table_wf tb → tenant_wf (default no_counters (tenants tb !! t)).
Proof. intros Hwf. destruct (tenants tb !! t) eqn:E; [by apply Hwf in E|apply no_counters_wf]. Qed.

Lemma set_tenant_wf tb t tc : table_wf tb → tenant_wf tc → table_wf (set_tenant t tc tb).
Proof. intros. by apply map_Forall_insert_2. Qed.

Lemma alter_window_wf slot w f v :
  slot_wf slot v → (∀ c, window (spec c) = w → counter_wf slot c → window (spec (f c)) = w ∧ counter_wf slot (f c)) →
  slot_wf slot (alter_window w f v).
Proof.
  intros [Hs Hnd Hv] Hf. split.
  - destruct v as [|c v]; [done|]. simpl. by destruct (has_window w c).
  - clear Hs. induction v as [|c v IH]; simpl in *; [done|].
    apply NoDup_cons in Hnd as [Hc Hnd]. apply Forall_cons in Hv as [Hwf Hv]. destruct (has_window w c) eqn:E.
    + apply has_window_true in E. simpl. destruct (Hf c E Hwf) as [-> _]. rewrite E in Hc. by apply NoDup_cons.
    + simpl. apply NoDup_cons. split; [|by apply IH]. intros Hin. apply Hc. clear -Hin Hf Hv.
      induction v as [|c' v IH]; simpl in *; [done|]. apply Forall_cons in Hv as [Hwf Hv].
      destruct (has_window w c') eqn:E; simpl in *.
      * apply has_window_true in E. destruct (Hf c' E Hwf) as [Hw _]. rewrite Hw, <- E in Hin. done.
      * apply elem_of_cons in Hin as [Hin|Hin]; [rewrite Hin; by left|right; auto].
  - clear Hs Hnd. induction Hv as [|c v Hc Hv IH]; simpl; [done|]. destruct (has_window w c) eqn:E.
    + apply has_window_true in E. constructor; [by apply Hf|done].
    + by constructor.
Qed.

Lemma pop_nonneg f hs : Forall nonneg hs → Forall nonneg (pop_before f hs).
Proof. apply pop_Forall. Qed.

Lemma spent_wf slot now c : counter_wf slot c → counter_wf slot (counter_spent now c).2.
Proof.
  intros [? ?]. unfold counter_spent. destruct (rolling_hours _); simpl; [|done].
  split; simpl; auto using pop_nonneg.
Qed.

Lemma add_wf slot now cost c : 0 ≤ cost → counter_wf slot c → counter_wf slot (counter_add now cost c).
Proof.
  intros Hc [? Hh]. unfold counter_add. destruct (rolling_hours _); simpl; [|done].
  split; simpl; [done|]. induction Hh as [|[h m] hs Hm Hh IH]; simpl; [by repeat constructor|].
  destruct hs as [|e hs].
  - destruct (h =? _); repeat constructor; try done. unfold nonneg, sat_add64, u64_max in *. simpl in *. lia.
  - by constructor.
Qed.

Lemma hour_insert_nonneg h f hs :
  (∀ o, (∀ m, o = Some m → 0 ≤ m) → 0 ≤ f o) → Forall nonneg hs → Forall nonneg (hour_insert h f hs).
Proof.
  intros Hf. induction 1 as [|[h' m'] hs Hm Hh IH]; simpl.
  - constructor; [|done]. by apply Hf.
  - destruct (h <? h'); [|destruct (h =? h')]; repeat constructor; try done.
    + by apply Hf.
    + apply Hf. intros m [= <-]. done.
Qed.

Lemma foldl_insert_nonneg (g : Z * Z → option Z → Z) hs acc :
  (∀ e o, nonneg e → (∀ m, o = Some m → 0 ≤ m) → 0 ≤ g e o) → Forall nonneg hs → Forall nonneg acc →
  Forall nonneg (foldl (λ acc e, hour_insert e.1 (g e) acc) acc hs).
Proof.
  intros Hg Hhs. revert acc. induction Hhs as [|e hs He Hhs IH]; intros acc Hacc; simpl; [done|].
  apply IH. apply hour_insert_nonneg; auto.
Qed.

Lemma merge_nonneg hs hs' : Forall nonneg hs → Forall nonneg hs' → Forall nonneg (merge_hours hs hs').
Proof.
  intros H1 H2. unfold merge_hours, collect_hours.
  apply (foldl_insert_nonneg (λ e o, sat_add64 (default 0 o) e.2)); [|done|].
  - intros e [m|] He Ho; simpl; unfold sat_add64, nonneg, u64_max in *; [specialize (Ho m eq_refl)|]; lia.
  - apply (foldl_insert_nonneg (λ e _, e.2)); auto.
Qed.

Lemma seed_counter_wf slot p s c :
  (∀ hs, s = Hours hs → Forall nonneg hs) → counter_wf slot c → counter_wf slot (seed_counter p s c).
Proof.
  intros Hs [? ?]. unfold seed_counter. simpl. case_bool_decide; [done|].
  destruct s as [m|hs]; [by destruct (is_some_b _)|]. split; simpl; [done|].
  apply merge_nonneg; [done|by apply Hs].
Qed.

Lemma record_counter_wf sink t scope slot cost now c :
  0 ≤ cost → counter_wf slot c → counter_wf slot (record_counter sink t scope cost now c).2.
Proof.
  intros Hc Hwf. unfold record_counter. destruct (negb _); [done|].
  pose proof (spent_wf slot now c Hwf) as H1. destruct (counter_spent now c) as [b c1]. simpl in H1.
  apply (add_wf slot now cost) in H1 as [? ?]; [|done]. by destruct (fire _ _ _ _ _ _).
Qed.

Lemma prepare_decision_wf slot back a now at_ c :
  counter_wf slot c → counter_wf slot (prepare_decision back a now at_ c).2.
Proof.
  intros Hwf. unfold prepare_decision. destruct (match seed_failed_at c with Some _ => _ | None => _ end); [done|].
  pose proof (spent_wf slot now c Hwf) as H1. destruct (rolling_hours _); [|by case_bool_decide].
  destruct (seeded_for c); [|done]. by destruct (counter_spent now c).
Qed.

(** ** Every operation keeps it *)

Lemma evict_wf at_ idle tc : tenant_wf tc → tenant_wf (evict_idle_end_users at_ idle tc).
Proof. intros Hwf slot v. simpl. rewrite map_lookup_filter_Some. intros [Hv _]. by apply Hwf. Qed.

Lemma new_counter_wf a at_ : counter_wf (slot_of end_user_hash a) (new_counter a at_).
Proof. by split. Qed.

Lemma find_window_wf slot w v c : slot_wf slot v → find_window w v = Some c → counter_wf slot c.
Proof.
  intros [_ _ Hv] [_ Hc]%find_window_some. by eapply Forall_forall in Hv.
Qed.

(** The counters of the slot once the one for [a] is there. *)
Lemma with_counter_wf a at_ o :
  (∀ v, o = Some v → slot_wf (slot_of end_user_hash a) v) →
  let v := default [] o in
  let w := window (ap_budget a) in
  slot_wf (slot_of end_user_hash a) (if existsb (has_window w) v then v else v ++ [new_counter a at_]).
Proof.
  intros Ho v w. destruct (existsb (has_window w) v) eqn:E.
  - destruct o as [v'|]; [by apply Ho|done].
  - split; [by destruct v| |].
    + rewrite fmap_app. apply NoDup_app. split; [destruct o as [v'|]; [by apply Ho|constructor]|].
      split; [|apply NoDup_singleton]. intros w' Hw' Hin. apply list_elem_of_singleton in Hin as ->.
      apply list_elem_of_fmap in Hw' as (c & Hc & Hin). simpl in Hc.
      rewrite <- not_true_iff_false in E. apply E, existsb_exists. exists c. split; [by apply list_elem_of_In|].
      apply has_window_true. by rewrite <- Hc.
    + apply Forall_app. split; [destruct o as [v'|]; [by apply Ho|constructor]|].
      constructor; [apply new_counter_wf|done].
Qed.

Lemma prepare_tenant_wf mx back a now at_ tc :
  tenant_wf tc → tenant_wf (prepare_tenant end_user_hash mx back a now at_ tc).2.
Proof.
  intros Hwf. unfold prepare_tenant. set (fresh := negb _ && _).
  set (tc1 := if fresh && _ then evict_idle_end_users _ _ _ else tc).
  assert (tenant_wf tc1) as Hwf1 by (subst tc1; destruct (fresh && _); [by apply evict_wf|done]).
  clearbody tc1. destruct (fresh && _); [done|].
  set (tc2 := if fresh then set_end_users _ tc1 else tc1).
  assert (tenant_wf tc2) as Hwf2 by (subst tc2; by destruct fresh). clearbody tc2.
  pose proof (with_counter_wf a at_ (slots tc2 !! slot_of end_user_hash a) (λ v E, Hwf2 _ _ E)) as Hv.
  simpl in Hv. revert Hv. generalize (if existsb (has_window (window (ap_budget a))) (default [] (slots tc2 !! slot_of end_user_hash a))
    then default [] (slots tc2 !! slot_of end_user_hash a)
    else default [] (slots tc2 !! slot_of end_user_hash a) ++ [new_counter a at_]). intros v Hv.
  destruct (prepare_decision back a now at_ _) as [p c'] eqn:E. simpl.
  apply map_Forall_insert_2; [|exact Hwf2]. apply alter_window_wf; [exact Hv|]. intros _ _ _.
  assert (counter_wf (slot_of end_user_hash a) (set_spec a at_ (default (new_counter a at_) (find_window (window (ap_budget a)) v)))) as Hc.
  { destruct (find_window _ v) as [c|] eqn:F; [|apply new_counter_wf].
    apply find_window_wf with (1 := Hv) in F as [? ?]. by split. }
  split.
  - pose proof (window_prepare back a now at_ _ (eq_refl : window (spec (set_spec a at_ (default (new_counter a at_) (find_window (window (ap_budget a)) v)))) = _)) as Hw.
    by rewrite E in Hw.
  - apply (prepare_decision_wf _ back a now at_) in Hc. by rewrite E in Hc.
Qed.

Lemma alter_counter_wf slot w f tc :
  tenant_wf tc →
  (∀ c, window (spec c) = w → counter_wf slot c → window (spec (f c)) = w ∧ counter_wf slot (f c)) →
  tenant_wf (alter_counter slot w f tc).
Proof.
  intros Hwf Hf slot' v. unfold alter_counter. simpl. destruct (decide (slot = slot')) as [<-|Hne].
  - rewrite lookup_alter_eq. destruct (slots tc !! slot) as [v'|] eqn:E; [|done]. intros [= <-].
    apply alter_window_wf; [by apply Hwf|done].
  - rewrite lookup_alter_ne by done. apply Hwf.
Qed.

Lemma seed_table_wf t a p s now tb :
  (∀ hs, s = Hours hs → Forall nonneg hs) → table_wf tb → table_wf (seed end_user_hash t a p s now tb).2.
Proof.
  intros Hs Hwf. unfold seed. pose proof (default_wf tb t Hwf) as Hd. revert Hd.
  generalize (default no_counters (tenants tb !! t)). intros tc Htc.
  destruct (slots tc !! slot_of end_user_hash a ≫= _) as [c|] eqn:Ec; [|by apply set_tenant_wf].
  destruct (counter_spent now (seed_counter p s c)) as [sp c1] eqn:E. simpl. apply set_tenant_wf; [done|].
  apply alter_counter_wf; [done|]. intros _ _ _.
  destruct (slots tc !! slot_of end_user_hash a) as [v|] eqn:Ev; [|done]. simpl in Ec.
  pose proof (window_spent now (seed_counter p s c)) as Hw. rewrite E, window_seed in Hw. simpl in Hw.
  pose proof (find_window_wf _ _ _ _ (Htc _ _ Ev) Ec) as Hc.
  apply (seed_counter_wf _ p s) in Hc; [|done]. apply (spent_wf _ now) in Hc. rewrite E in Hc.
  apply find_window_some in Ec as [Hwc _]. split; [by rewrite Hw|done].
Qed.

Lemma record_slot_wf sink t cost now tc slot :
  0 ≤ cost → tenant_wf tc → tenant_wf (record_slot sink t cost now tc slot).2.
Proof.
  intros Hc Hwf. unfold record_slot. destruct (slots tc !! slot) as [v|] eqn:E; [|done]. simpl.
  apply map_Forall_insert_2; [|exact Hwf]. destruct (Hwf _ _ E) as [Hs Hnd Hv]. split.
  - by destruct v.
  - rewrite <- !list_fmap_compose. erewrite list_fmap_ext; [exact Hnd|].
    intros i c _. simpl. apply window_record.
  - rewrite <- list_fmap_compose. apply Forall_fmap. eapply Forall_impl; [exact Hv|].
    intros c Hwc. by apply record_counter_wf.
Qed.

Lemma record_all_wf sink t cost now xs tc sls :
  0 ≤ cost → tenant_wf tc → tenant_wf (record_all sink t cost now (xs, tc) sls).2.
Proof.
  intros Hc. revert xs tc. induction sls as [|sl sls IH]; intros xs tc Hwf; [done|].
  rewrite record_all_cons. apply IH, record_slot_wf; done.
Qed.

Lemma step_wf ev tb : event_ok ev → table_wf tb → table_wf (step end_user_hash ev tb).2.
Proof.
  intros Hev Hwf. destruct ev as [t a now at_|t a p s now|t a at_|t sc w p s|t project key eu cost now sink]; simpl.
  - unfold prepare. pose proof (prepare_tenant_wf (max_end_users tb) (backoff tb) a now at_ _ (default_wf tb t Hwf)) as Hp.
    destruct (prepare_tenant _ _ _ _ _ _ _). by apply set_tenant_wf.
  - apply seed_table_wf; [|done]. intros hs ->. exact Hev.
  - apply set_tenant_wf; [done|]. apply alter_counter_wf; [by apply default_wf|]. intros c ? []. by split.
  - apply set_tenant_wf; [done|]. by apply default_wf.
  - unfold record. destruct (cost =? 0); [done|]. destruct (tenants tb !! t) as [tc|] eqn:E; [|done].
    pose proof (record_all_wf sink t cost now [] tc (record_slots end_user_hash project key eu) Hev (Hwf _ _ E)) as Hr.
    unfold record_all in Hr. destruct (foldl _ _ _). by apply set_tenant_wf.
Qed.

Lemma budget_run_wf evs tb : Forall event_ok evs → table_wf tb → table_wf (run end_user_hash evs tb).2.
Proof.
  intros Hevs. revert tb. induction Hevs as [|ev evs Hev Hevs IH]; intros tb Hwf; [done|].
  rewrite run_snd. by apply IH, step_wf.
Qed.

Lemma table_new_wf mx back : table_wf (table_new mx back).
Proof. apply map_Forall_empty. Qed.

(** ** Memory *)

Definition weight (slot : Slot) (v : list Counter) : Z := if is_some_b slot.2 then lenZ v else 0.

(** The counters a tenant's end users hold. *)
Definition user_counters (m : gmap Slot (list Counter)) : Z := map_sum weight m.

Lemma user_counters_replace slot m v v' :
  m !! slot = Some v → weight slot v' = weight slot v → user_counters (<[slot := v']> m) = user_counters m.
Proof. intros Hm Hw. unfold user_counters. rewrite map_sum_insert, Hm. simpl. lia. Qed.

Lemma user_counters_filter at_ idle m :
  map_Forall slot_wf m →
  user_counters (filter (λ sv, evict_keep at_ idle sv.1 sv.2 = true) m)
  + (Z.of_nat (size m) - Z.of_nat (size (filter (λ sv, evict_keep at_ idle sv.1 sv.2 = true) m)))
  ≤ user_counters m.
Proof.
  intros Hwf. set (P := λ sv : Slot * list Counter, evict_keep at_ idle sv.1 sv.2 = true).
  unfold user_counters. rewrite <- !map_sum_size, !map_sum_filter.
  enough (map_sum (λ k v, (if decide (P (k, v)) then weight k v else 0) + 1) m
          ≤ map_sum (λ k v, weight k v + if decide (P (k, v)) then 1 else 0) m).
  { rewrite !map_sum_add in *. lia. }
  apply map_sum_le. intros slot v Hv. case_decide as Hk; [lia|]. subst P. simpl in Hk.
  unfold weight, evict_keep in *. destruct (Hwf _ _ Hv) as [Hs _ _]. destruct slot.2; [|done].
  unfold lenZ. destruct v; simpl; [done|lia].
Qed.

(** A tenant never holds more end-user counters than it counts, nor counts more than
    it may have. *)
Definition tenant_bound (mx : Z) (tc : TenantCounters) : Prop :=
  user_counters (slots tc) ≤ end_users tc ≤ mx.

Lemma evict_bound mx at_ idle tc :
  0 ≤ mx → tenant_wf tc → tenant_bound mx tc → tenant_bound mx (evict_idle_end_users at_ idle tc).
Proof.
  intros Hmx Hwf [H1 H2]. pose proof (user_counters_filter at_ idle (slots tc) Hwf) as Hf.
  unfold evict_idle_end_users, tenant_bound. simpl. unfold sat_sub.
  pose proof (map_subseteq_size _ _ (map_filter_subseteq (λ sv, evict_keep at_ idle sv.1 sv.2 = true) (slots tc))). lia.
Qed.

Lemma weight_length slot v v' : length v = length v' → weight slot v = weight slot v'.
Proof. unfold weight, lenZ. by intros ->. Qed.

Lemma alter_window_length w f v : length (alter_window w f v) = length v.
Proof. induction v as [|c v IH]; simpl; [done|]. destruct (has_window w c); simpl; [done|]. by rewrite IH. Qed.

Lemma prepare_tenant_bound mx back a now at_ tc :
  0 ≤ mx → tenant_wf tc → tenant_bound mx tc →
  tenant_bound mx (prepare_tenant end_user_hash mx back a now at_ tc).2.
Proof.
  intros Hmx Hwf Hb. unfold prepare_tenant. set (slot := slot_of end_user_hash a).
  set (w := window (ap_budget a)). set (ex := existsb (has_window w) (default [] (slots tc !! slot))).
  set (fresh := negb ex && _).
  set (tc1 := if fresh && _ then evict_idle_end_users _ _ _ else tc).
  assert (tenant_bound mx tc1 ∧ (existsb (has_window w) (default [] (slots tc1 !! slot)) = false → fresh = is_some_b slot.2))
    as [Hb1 Hf].
  { subst tc1. split; [destruct (fresh && _); [by apply evict_bound|done]|].
    subst fresh. destruct ex eqn:E; simpl; [subst ex; simpl; congruence|]. done. }
  clearbody tc1. destruct (fresh && (mx <=? end_users tc1)) eqn:Hcap; [done|].
  destruct (prepare_decision back a now at_ _) as [p c']. unfold tenant_bound in *.
  assert (slots (if fresh then set_end_users (end_users tc1 + 1) tc1 else tc1) = slots tc1) as Hsl by (by destruct fresh).
  rewrite !Hsl. cbn [slots set_slots snd].
  set (v := if existsb _ _ then _ else _).
  assert (user_counters (<[slot := alter_window w (λ _, c') v]> (slots tc1)) =
    user_counters (slots tc1) + (if existsb (has_window w) (default [] (slots tc1 !! slot)) then 0
                                 else if is_some_b slot.2 then 1 else 0)) as ->.
  { subst v. destruct (slots tc1 !! slot) as [v0|] eqn:Ev; cbn [default from_option id].
    - unfold user_counters. rewrite map_sum_insert, Ev. cbn [from_option].
      unfold weight, lenZ. rewrite alter_window_length.
      destruct (is_some_b slot.2), (existsb (has_window w) v0); rewrite ?length_app; simpl; lia.
    - unfold user_counters. rewrite map_sum_insert, Ev. cbn [from_option]. unfold weight, lenZ. rewrite alter_window_length.
      destruct (is_some_b slot.2); simpl; lia. }
  destruct (existsb (has_window w) (default [] (slots tc1 !! slot))) eqn:Ex.
  - destruct fresh; simpl in *; [apply Z.leb_gt in Hcap|]; lia.
  - rewrite (Hf eq_refl) in *. destruct (is_some_b slot.2); simpl in *; [apply Z.leb_gt in Hcap|]; lia.
Qed.

(** One grouped baseline per scope and window. *)
Definition one_baseline (tc : TenantCounters) : Prop :=
  ∀ scope w p p', is_Some (eu_seeds tc !! (scope, w, p)) → is_Some (eu_seeds tc !! (scope, w, p')) → p = p'.

Definition tenant_small (mx : Z) (tc : TenantCounters) : Prop := tenant_bound mx tc ∧ one_baseline tc.
Definition table_small (tb : BudgetTable) : Prop := map_Forall (λ _, tenant_small (max_end_users tb)) (tenants tb).

Lemma default_small tb t :
  0 ≤ max_end_users tb → table_small tb → tenant_small (max_end_users tb) (default no_counters (tenants tb !! t)).
Proof.
  intros Hmx Hb. destruct (tenants tb !! t) as [tc|] eqn:E; [by apply (Hb t)|].
  split; [by split|]. intros ???? [? Hs]. cbn in Hs. by rewrite lookup_empty in Hs.
Qed.

Lemma set_tenant_small tb t tc :
  table_small tb → tenant_small (max_end_users tb) tc → table_small (set_tenant t tc tb).
Proof. intros. by apply map_Forall_insert_2. Qed.

Lemma alter_counter_small mx slot w f tc : tenant_small mx tc → tenant_small mx (alter_counter slot w f tc).
Proof.
  intros [[H1 H2] H3]. split; [|exact H3]. split; [|exact H2]. unfold alter_counter. simpl.
  destruct (slots tc !! slot) as [v|] eqn:E.
  - replace (alter _ slot (slots tc)) with (<[slot := alter_window w f v]> (slots tc)).
    2: { apply map_eq. intros s. destruct (decide (s = slot)) as [->|Hne].
         - by rewrite lookup_insert_eq, lookup_alter_eq, E.
         - by rewrite lookup_insert_ne, lookup_alter_ne. }
    rewrite user_counters_replace with (v := v); [done|done|].
    apply weight_length, alter_window_length.
  - by rewrite alter_id'.
Qed.

Lemma record_slot_small mx sink t cost now tc slot :
  tenant_small mx tc → tenant_small mx (record_slot sink t cost now tc slot).2.
Proof.
  intros [[H1 H2] H3]. unfold record_slot. destruct (slots tc !! slot) as [v|] eqn:E; [|done].
  split; [|exact H3]. split; [|exact H2]. simpl. rewrite user_counters_replace with (v := v); [done|done|].
  apply weight_length. by rewrite !length_fmap.
Qed.

Lemma record_all_small mx sink t cost now xs tc sls :
  tenant_small mx tc → tenant_small mx (record_all sink t cost now (xs, tc) sls).2.
Proof.
  revert xs tc. induction sls as [|sl sls IH]; intros xs tc Hs; [done|].
  rewrite record_all_cons. by apply IH, record_slot_small.
Qed.

Lemma store_small mx scope w p s tc :
  tenant_small mx tc →
  tenant_small mx (set_eu_seeds (<[(scope, w, p) := s]> (filter (λ ks, ¬ (ks.1.1.1 = scope ∧ ks.1.1.2 = w)) (eu_seeds tc))) tc).
Proof.
  intros [Hb Ho]. split; [exact Hb|]. intros scope' w' p1 p2. cbn [set_eu_seeds eu_seeds].
  intros [x1 E1] [x2 E2]. apply lookup_insert_Some in E1, E2. rewrite !map_lookup_filter_Some in E1, E2. simpl in *.
  destruct E1 as [[[= -> -> ->] _]|(_ & E1 & N1)], E2 as [[E2 _]|(_ & E2 & N2)]; simplify_eq; try done.
  - by destruct N2.
  - by destruct N1.
  - eapply Ho; eexists; eassumption.
Qed.

Lemma prepare_small mx back a now at_ tc :
  0 ≤ mx → tenant_wf tc → tenant_small mx tc →
  tenant_small mx (prepare_tenant end_user_hash mx back a now at_ tc).2.
Proof.
  intros Hmx Hwf [Hb Ho]. split; [by apply prepare_tenant_bound|]. unfold prepare_tenant.
  set (fresh := negb _ && _). set (tc1 := if fresh && _ then evict_idle_end_users _ _ _ else tc).
  assert (eu_seeds tc1 = eu_seeds tc) as He by (subst tc1; by destruct (fresh && _)). clearbody tc1.
  destruct (fresh && _); [unfold one_baseline; simpl; by rewrite He|].
  destruct (prepare_decision _ _ _ _ _) as [p c']. unfold one_baseline. simpl. destruct fresh; simpl; by rewrite He.
Qed.

Lemma step_small ev tb :
  0 ≤ max_end_users tb → table_wf tb → table_small tb →
  table_small (step end_user_hash ev tb).2 ∧ max_end_users (step end_user_hash ev tb).2 = max_end_users tb.
Proof.
  intros Hmx Hwf Hs. pose proof (default_small tb) as Hd.
  destruct ev as [t a now at_|t a p s now|t a at_|t sc w p s|t project key eu cost now sink]; simpl.
  - unfold prepare. pose proof (prepare_small (max_end_users tb) (backoff tb) a now at_ _ Hmx (default_wf tb t Hwf) (Hd t Hmx Hs)) as Hp.
    destruct (prepare_tenant _ _ _ _ _ _ _). split; [by apply set_tenant_small|done].
  - unfold seed. destruct (slots _ !! _ ≫= _) as [c|]; [|split; [apply set_tenant_small; auto|done]].
    destruct (counter_spent _ _). split; [|done]. apply set_tenant_small; [done|]. apply alter_counter_small; auto.
  - split; [|done]. apply set_tenant_small; [done|]. apply alter_counter_small; auto.
  - split; [|done]. apply set_tenant_small; [done|]. apply store_small; auto.
  - unfold record. destruct (cost =? 0); [done|]. destruct (tenants tb !! t) as [tc|] eqn:E; [|done].
    pose proof (record_all_small _ sink t cost now [] tc (record_slots end_user_hash project key eu) (Hs _ _ E)) as Hr.
    unfold record_all in Hr. destruct (foldl _ _ _). split; [by apply set_tenant_small|done].
Qed.

Lemma run_small evs tb :
  Forall event_ok evs → 0 ≤ max_end_users tb → table_wf tb → table_small tb →
  table_small (run end_user_hash evs tb).2 ∧ max_end_users (run end_user_hash evs tb).2 = max_end_users tb.
Proof.
  intros Hevs. revert tb. induction Hevs as [|ev evs Hev Hevs IH]; intros tb Hmx Hwf Hs; [done|].
  rewrite run_snd. destruct (step_small ev tb Hmx Hwf Hs) as [Hs' Hm]. rewrite <- Hm in *.
  apply IH; [done| |done]. by apply step_wf.
Qed.

(** End users cannot exhaust memory: after any sequence of operations, with any
    end-user ids, a tenant holds at most [max_end_users] end-user counters, and at most
    one grouped baseline per scope and window. *)
Theorem end_user_memory_bounded mx back evs t tc :
  0 ≤ mx → Forall event_ok evs → tenants (run end_user_hash evs (table_new mx back)).2 !! t = Some tc →
  user_counters (slots tc) ≤ mx ∧
  ∀ scope w p p', is_Some (eu_seeds tc !! (scope, w, p)) → is_Some (eu_seeds tc !! (scope, w, p')) → p = p'.
Proof.
  intros Hmx Hevs Ht.
  destruct (run_small evs (table_new mx back) Hevs Hmx (table_new_wf _ _) (map_Forall_empty _)) as [Hs Hm].
  destruct (Hs _ _ Ht) as [[Hb1 Hb2] Ho]. split; [|exact Ho]. rewrite Hm in Hb2. simpl in Hb2. lia.
Qed.

(** ** Unknown spend *)

Lemma pop_idem f hs : pop_before f (pop_before f hs) = pop_before f hs.
Proof.
  induction hs as [|[h m] hs IH]; simpl; [done|]. destruct (h <? f) eqn:E; [done|]. simpl. by rewrite E.
Qed.

Lemma spent_idem now c : counter_spent now (counter_spent now c).2 = counter_spent now c.
Proof.
  unfold counter_spent. destruct (rolling_hours (window (spec c))) eqn:E; simpl; rewrite E; [|done].
  by rewrite pop_idem.
Qed.

Lemma seeded_spent now c : seeded_for (counter_spent now c).2 = seeded_for c.
Proof. unfold counter_spent. by destruct (rolling_hours (window (spec c))). Qed.

Lemma prepare_tenant_post mx back a now at_ tc :
  (prepare_tenant end_user_hash mx back a now at_ tc).1 ≠ Capacity →
  ∃ c, (prepare_tenant end_user_hash mx back a now at_ tc).1 = (prepare_decision back a now at_ (set_spec a at_ c)).1 ∧
    slots (prepare_tenant end_user_hash mx back a now at_ tc).2 !! slot_of end_user_hash a
      ≫= find_window (window (ap_budget a)) = Some (prepare_decision back a now at_ (set_spec a at_ c)).2.
Proof.
  unfold prepare_tenant. set (fresh := negb _ && _).
  set (tc0 := if fresh && _ then evict_idle_end_users _ _ _ else tc). clearbody tc0.
  destruct (fresh && _); [done|]. intros _.
  set (tc1 := if fresh then set_end_users _ tc0 else tc0). clearbody tc1.
  set (v := if existsb _ _ then _ else _).
  assert (find_window (window (ap_budget a)) v ≠ None) as Hv.
  { subst v. destruct (existsb _ (default [] (slots tc1 !! _))) eqn:E.
    - rewrite find_window_none. congruence.
    - rewrite find_window_app. destruct (find_window _ (default _ _)); [done|]. simpl.
      unfold has_window. simpl. by rewrite bool_decide_true. }
  exists (default (new_counter a at_) (find_window (window (ap_budget a)) v)).
  pose proof (window_prepare back a now at_
    (set_spec a at_ (default (new_counter a at_) (find_window (window (ap_budget a)) v))) eq_refl) as Hw.
  destruct (prepare_decision _ _ _ _ _) as [p c']. simpl in *. split; [done|].
  rewrite lookup_insert_eq. simpl. by apply alter_window_const.
Qed.

Lemma prepare_post t a now at_ tb :
  (prepare end_user_hash t a now at_ tb).1 ≠ Capacity →
  ∃ c, (prepare end_user_hash t a now at_ tb).1 = (prepare_decision (backoff tb) a now at_ (set_spec a at_ c)).1 ∧
    counter_at (prepare end_user_hash t a now at_ tb).2 t (slot_of end_user_hash a) (window (ap_budget a)) =
    Some (prepare_decision (backoff tb) a now at_ (set_spec a at_ c)).2.
Proof.
  unfold prepare. pose proof (prepare_tenant_post (max_end_users tb) (backoff tb) a now at_ (default no_counters (tenants tb !! t))) as Hp.
  destruct (prepare_tenant _ _ _ _ _ _ _) as [p tc]. simpl in *. intros Hc.
  destruct (Hp Hc) as (c & H1 & H2). exists c. by rewrite counter_at_set, decide_True.
Qed.

Lemma seed_result t a p s now tb c :
  counter_at tb t (slot_of end_user_hash a) (window (ap_budget a)) = Some c →
  (seed end_user_hash t a p s now tb).1 = Some (counter_spent now (seed_counter p s c)).1.
Proof.
  intros Hc. unfold seed. rewrite counter_at_default, Hc. by destruct (counter_spent _ _).
Qed.

(** The period a counter must have its baseline for. *)
Definition known_for (w : BudgetWindow) (now : Z) (c : Counter) : Prop :=
  match rolling_hours w with
  | Some _ => is_Some (seeded_for c)
  | None => seeded_for c = Some (period_key w now)
  end.

Lemma ready_known back a now at_ c spent :
  (prepare_decision back a now at_ (set_spec a at_ c)).1 = Ready spent →
  known_for (window (ap_budget a)) now (prepare_decision back a now at_ (set_spec a at_ c)).2 ∧
  (counter_spent now (prepare_decision back a now at_ (set_spec a at_ c)).2).1 = spent.
Proof.
  unfold prepare_decision, known_for. destruct (match seed_failed_at _ with Some _ => _ | None => _ end); [done|].
  pose proof (spent_idem now (set_spec a at_ c)) as Hi. revert Hi. unfold counter_spent. cbn [set_spec spec].
  destruct (rolling_hours (window (ap_budget a))) eqn:E.
  - simpl. destruct (seeded_for c) eqn:Es; [|done]. simpl. rewrite E. intros Hi [= <-].
    split; [by rewrite Es|]. by simplify_eq/=.
  - intros _. case_bool_decide as Hs; [|done]. cbn [fst snd]. intros [= <-]. split; [done|]. simpl. by rewrite E.
Qed.

Lemma needs_seed_period back a now at_ c p :
  (prepare_decision back a now at_ c).1 = NeedsSeed p →
  (prepare_decision back a now at_ c).2 = c ∧
  (rolling_hours (window (ap_budget a)) = None → p = period_key (window (ap_budget a)) now).
Proof.
  unfold prepare_decision. destruct (match seed_failed_at c with Some _ => _ | None => _ end); [done|].
  destruct (rolling_hours (window (ap_budget a))).
  - destruct (seeded_for c); [by destruct (counter_spent _ _)|]. intros [= <-]. split; [done|]. done.
  - case_bool_decide; [done|]. by intros [= <-].
Qed.

(** The counter of [slot] and [w] was used at [at_], is known for [now] and shows less
    than [m]. *)
Definition holds_below (t : bytes) (slot : Slot) (w : BudgetWindow) (now at_ m : Z) (tb : BudgetTable) : Prop :=
  ∃ c, counter_at tb t slot w = Some c ∧ known_for w now c ∧ (counter_spent now c).1 < m ∧ co_last_used c = at_.

Lemma last_used_spent now c : co_last_used (counter_spent now c).2 = co_last_used c.
Proof. unfold counter_spent. by destruct (rolling_hours (window (spec c))). Qed.

Lemma last_used_seed p s c : co_last_used (seed_counter p s c) = co_last_used c.
Proof. unfold seed_counter. simpl. case_bool_decide; [done|]. by destruct s, (is_some_b (seeded_for c)). Qed.

Lemma last_used_prepare back a now at_ c :
  co_last_used (prepare_decision back a now at_ (set_spec a at_ c)).2 = at_.
Proof.
  unfold prepare_decision. destruct (match seed_failed_at _ with Some _ => _ | None => _ end); [done|].
  destruct (rolling_hours (window (ap_budget a))); [|by case_bool_decide].
  pose proof (last_used_spent now (set_spec a at_ c)) as Hl. simpl. destruct (seeded_for c); [|done].
  destruct (counter_spent now (set_spec a at_ c)). exact Hl.
Qed.

Lemma check_budget_holds t a now at_ baseline tb :
  let r := check_budget end_user_hash t a now at_ baseline tb in
  if is_hard (ap_budget a) then
    r.1 = Ok () → holds_below t (slot_of end_user_hash a) (window (ap_budget a)) now at_ (micro_usd (ap_budget a)) r.2
  else r.1 = Ok ().
Proof.
  intros r. subst r. unfold check_budget. pose proof (prepare_post t a now at_ tb) as Hpost.
  destruct (prepare _ _ _ _ _ _) as [p tb1]. cbn [fst snd] in Hpost.
  destruct (is_hard (ap_budget a)); cbn [andb]; cycle 1.
  { destruct p; try done. destruct (baseline period); [|done]. by destruct (seed _ _ _ _ _ _ _). }
  destruct p as [spent|p| |]; try done; destruct Hpost as (c & Hp & Hc); try done.
  - destruct (Z.leb_spec (micro_usd (ap_budget a)) spent); [done|]. intros _. cbn [snd].
    destruct (ready_known _ _ _ _ _ _ (eq_sym Hp)) as [Hk Hs]. eexists. split; [exact Hc|]. split; [done|].
    split; [lia|apply last_used_prepare].
  - destruct (baseline p) as [s|]; [|done]. pose proof (seed_result t a p s now tb1 _ Hc) as Hr.
    pose proof (seed_find end_user_hash t a p s now tb1 _ _ _ Hc) as Hf. rewrite bool_decide_true in Hf by done.
    destruct (seed _ _ _ _ _ _ _) as [spent tb2]. cbn [fst snd] in *. rewrite Hr. cbn [default from_option id].
    destruct (needs_seed_period _ _ _ _ _ _ (eq_sym Hp)) as [Hsame Hper]. rewrite Hsame in *.
    destruct (Z.leb_spec (micro_usd (ap_budget a)) (counter_spent now (seed_counter p s (set_spec a at_ c))).1); [done|].
    intros _. eexists. split; [exact Hf|]. rewrite spent_idem, last_used_spent, last_used_seed. split; [|done].
    assert (seeded_for (counter_spent now (seed_counter p s (set_spec a at_ c))).2 = Some p) as Hsd.
    { assert (seeded_for (seed_counter p s (set_spec a at_ c)) = Some p) as Hsd.
      { unfold seed_counter. by case_bool_decide. }
      by rewrite seeded_spent. }
    unfold known_for. rewrite Hsd. destruct (rolling_hours _); [done|]. by rewrite Hper.
Qed.

(** A counter that is known needs no baseline: a check on it, or on any other, at the same
    instants leaves it known and with the same spend. *)
Lemma known_prepare back a now at_ c m :
  window (spec c) = window (ap_budget a) → known_for (window (ap_budget a)) now c → (counter_spent now c).1 < m →
  known_for (window (ap_budget a)) now (prepare_decision back a now at_ (set_spec a at_ c)).2 ∧
  (counter_spent now (prepare_decision back a now at_ (set_spec a at_ c)).2).1 < m.
Proof.
  intros Hw Hk Hm.
  assert (known_for (window (ap_budget a)) now (set_spec a at_ c)) as Hk' by exact Hk.
  assert ((counter_spent now (set_spec a at_ c)).1 < m) as Hm'.
  { revert Hm. unfold counter_spent. cbn [set_spec spec]. rewrite Hw. by destruct (rolling_hours _). }
  revert Hk' Hm'. generalize (set_spec a at_ c). clear c Hw Hk Hm. intros c Hk Hm. unfold prepare_decision.
  destruct (match seed_failed_at c with Some _ => _ | None => _ end); [by split_and!|].
  pose proof (spent_idem now c) as Hi. pose proof (seeded_spent now c) as Hs.
  unfold known_for in *. destruct (rolling_hours (window (ap_budget a))).
  - destruct (seeded_for c) as [q|]; [|by destruct Hk]. destruct (counter_spent now c) as [s c'].
    cbn [fst snd] in *. split; [by rewrite Hs|by rewrite Hi].
  - rewrite bool_decide_true by done. by split.
Qed.

Lemma needs_seed_unknown back a now at_ c p :
  (prepare_decision back a now at_ c).1 = NeedsSeed p →
  ¬ known_for (window (ap_budget a)) now (prepare_decision back a now at_ c).2.
Proof.
  unfold prepare_decision, known_for. destruct (match seed_failed_at c with Some _ => _ | None => _ end); [done|].
  destruct (rolling_hours (window (ap_budget a))).
  - destruct (seeded_for c) eqn:E; [by destruct (counter_spent now c)|]. intros _. cbn [snd]. rewrite E. by intros [].
  - case_bool_decide; done.
Qed.

Lemma prepare_find t a now at_ tb slot w c :
  stays slot at_ c → counter_at tb t slot w = Some c →
  counter_at (prepare end_user_hash t a now at_ tb).2 t slot w =
  Some (if bool_decide (slot_of end_user_hash a = slot ∧ window (ap_budget a) = w)
        then (prepare_decision (backoff tb) a now at_ (set_spec a at_ c)).2 else c).
Proof.
  intros Hs Hc. unfold prepare.
  pose proof (prepare_tenant_find end_user_hash (max_end_users tb) (backoff tb) a now at_
    (default no_counters (tenants tb !! t)) slot w c Hs) as Hp.
  rewrite counter_at_default in Hp. specialize (Hp Hc).
  destruct (prepare_tenant _ _ _ _ _ _ _) as [p tc]. cbn [snd] in *. by rewrite counter_at_set, decide_True.
Qed.

Lemma counter_at_window tb t slot w c : counter_at tb t slot w = Some c → window (spec c) = w.
Proof.
  unfold counter_at. destruct (tenants tb !! t); [|done]. simpl. destruct (slots _ !! _); [|done].
  by intros [? _]%find_window_some.
Qed.

Lemma prepare_holds t a now at_ tb slot w m :
  holds_below t slot w now at_ m tb →
  holds_below t slot w now at_ m (prepare end_user_hash t a now at_ tb).2 ∧
  (slot_of end_user_hash a = slot → window (ap_budget a) = w →
   ∀ p, (prepare end_user_hash t a now at_ tb).1 ≠ NeedsSeed p).
Proof.
  intros (c & Hc & Hk & Hm & Hl). assert (stays slot at_ c) as Hst.
  { right. rewrite Hl. unfold sat_sub, idle_hour. lia. }
  pose proof (prepare_find t a now at_ tb slot w c Hst Hc) as Hf. pose proof (counter_at_window _ _ _ _ _ Hc) as Hw.
  case_bool_decide as Hb; cycle 1.
  { split; [exists c; by split_and!|]. intros <- <-. by destruct Hb. }
  destruct Hb as [<- <-]. destruct (known_prepare (backoff tb) a now at_ c m Hw Hk Hm) as [Hk' Hm']. split.
  - eexists. split; [exact Hf|]. split_and!; [done|done|apply last_used_prepare].
  - intros _ _ p Hp. destruct (prepare_post t a now at_ tb) as (c1 & H1 & H2); [by rewrite Hp|].
    rewrite Hp in H1. apply (needs_seed_unknown _ _ _ _ _ _ (eq_sym H1)). rewrite Hf in H2. injection H2 as <-. done.
Qed.

Lemma check_budget_keeps t a now at_ baseline tb slot w m :
  holds_below t slot w now at_ m tb →
  holds_below t slot w now at_ m (check_budget end_user_hash t a now at_ baseline tb).2.
Proof.
  intros Hh. unfold check_budget. destruct (prepare_holds t a now at_ tb slot w m Hh) as [H1 H2].
  destruct (prepare _ _ _ _ _ _) as [p tb1]. cbn [fst snd] in *. destruct p as [spent|p| |]; try done.
  assert (¬ (slot_of end_user_hash a = slot ∧ window (ap_budget a) = w)) as Hne.
  { intros [Hs Hw]. by apply (H2 Hs Hw p). }
  destruct H1 as (c & Hc & Hk). destruct (baseline p) as [s|].
  - pose proof (seed_find end_user_hash t a p s now tb1 slot w c Hc) as Hf. rewrite bool_decide_false in Hf by done.
    destruct (seed _ _ _ _ _ _ _). by exists c.
  - pose proof (seed_failed_find end_user_hash t a at_ tb1 slot w c Hc) as Hf. rewrite bool_decide_false in Hf by done.
    by exists c.
Qed.

Lemma check_budget_known t a now at_ baseline tb :
  let r := check_budget end_user_hash t a now at_ baseline tb in
  if is_hard (ap_budget a) then
    r.1 = Ok () → ∃ c, counter_at r.2 t (slot_of end_user_hash a) (window (ap_budget a)) = Some c ∧
      known_for (window (ap_budget a)) now c ∧ (counter_spent now c).1 < micro_usd (ap_budget a)
  else r.1 = Ok ().
Proof.
  pose proof (check_budget_holds t a now at_ baseline tb) as Hr. simpl in *.
  destruct (is_hard _); [|done]. intros Hok. destruct (Hr Hok) as (c & ? & ? & ? & _). eauto.
Qed.

(** C8. Budgets fail closed.  A soft budget never refuses.  A hard one admits a request
    only if, afterwards, its counter - the tenant's, scope's and end user's own - has a
    baseline for the period the request falls in and the spend it shows is below the
    amount; so a baseline that could not be read, one still in its retry backoff, and a
    table with no room for the end user all refuse. *)
Theorem budget_fails_closed t a now at_ baseline tb :
  let r := check_budget end_user_hash t a now at_ baseline tb in
  if is_hard (ap_budget a) then
    r.1 = Ok () → ∃ c, counter_at r.2 t (slot_of end_user_hash a) (window (ap_budget a)) = Some c ∧
      known_for (window (ap_budget a)) now c ∧ (counter_spent now c).1 < micro_usd (ap_budget a)
  else r.1 = Ok ().
Proof. apply check_budget_known. Qed.

(** A check that reads a baseline leaves the counter settled, as [budget_verdict_exact]
    starts from. *)
Lemma hour_insert_keys P h f hs :
  Forall (λ e, P e.1) hs → P h → Forall (λ e, P e.1) (hour_insert h f hs).
Proof.
  intros Hhs Hh. induction Hhs as [|[h' m'] hs Hm Hhs IH]; simpl; [by repeat constructor|].
  destruct (h <? h'); [|destruct (h =? h')]; repeat constructor; done.
Qed.

Lemma hour_insert_sorted h f hs :
  StronglySorted hour_lt hs → StronglySorted hour_lt (hour_insert h f hs).
Proof.
  induction 1 as [|[h' m'] hs Hs IH Hlt]; simpl; [by repeat constructor|].
  destruct (Z.ltb_spec h h'); [|destruct (Z.eqb_spec h h') as [->|Hne]].
  - repeat constructor; try done. eapply Forall_impl; [exact Hlt|]. intros e He. unfold hour_lt in *. simpl in *. lia.
  - by constructor.
  - constructor; [done|]. apply (hour_insert_keys (λ x, h' < x)); [exact Hlt|lia].
Qed.

Lemma foldl_insert_sorted (g : Z * Z → option Z → Z) hs acc :
  StronglySorted hour_lt acc → StronglySorted hour_lt (foldl (λ acc e, hour_insert e.1 (g e) acc) acc hs).
Proof. revert acc. induction hs as [|e hs IH]; intros acc Hacc; simpl; auto using hour_insert_sorted. Qed.

Lemma merge_sorted hs hs' : StronglySorted hour_lt (merge_hours hs hs').
Proof.
  unfold merge_hours, collect_hours. apply (foldl_insert_sorted (λ e o, sat_add64 (default 0 o) e.2)).
  apply (foldl_insert_sorted (λ e _, e.2)). constructor.
Qed.

(** The baseline has the shape its window asks for. *)
Definition seed_fits (w : BudgetWindow) (s : Seed) : Prop :=
  match s, rolling_hours w with
  | Total _, None => True
  | Hours hs, Some _ => Forall nonneg hs
  | _, _ => False
  end.

Lemma upper_bound (hs : list (Z * Z)) : Forall nonneg hs → ∃ h, Forall (charge_ok h) hs.
Proof.
  induction 1 as [|e hs He Hhs [h IH]]; [by exists 0|]. exists (Z.max h e.1). constructor; [split; [lia|done]|].
  eapply Forall_impl; [exact IH|]. intros e' [? ?]. split; lia.
Qed.

Lemma seed_settles p s now c :
  seed_fits (window (spec c)) s → Forall nonneg (hours c) → (rolling_hours (window (spec c)) = None → hours c = []) →
  seeded_for c ≠ Some p → (is_some_b (rolling_hours (window (spec c))) = true → p = ROLLING) →
  ∃ h, settled (window (spec c)) p h (counter_spent now (seed_counter p s c)).2.
Proof.
  intros Hfit Hnn Hcal Hne Hp. unfold seed_counter. simpl. rewrite bool_decide_false by done.
  unfold seed_fits in Hfit. destruct s as [m|hs], (rolling_hours (window (spec c))) as [n|] eqn:E; try done.
  - exists 0. rewrite (Hcal eq_refl) in Hnn.
    destruct (is_some_b (seeded_for c)); unfold counter_spent; simpl; rewrite E; simpl;
      (split; simpl; rewrite ?E, ?Hcal by done; try done; constructor).
  - assert (Forall nonneg (pop_before (first_hour n now) (merge_hours (hours c) hs))) as Hpn.
    { apply pop_nonneg, merge_nonneg; done. }
    destruct (upper_bound _ Hpn) as [h Hh]. exists h. unfold counter_spent. simpl. rewrite E. simpl.
    split; simpl; rewrite ?E; try done. apply pop_sorted, merge_sorted.
Qed.
End invariants.
