(* ===== verification/BudgetAlerts.v ===== *)
(** * Spend budgets: alerts

    What [record] queues for one counter is exactly what that counter's own thresholds
    ask for, and a threshold is queued at most once per period.  Ends with concrete
    runs: the hypotheses of the theorems are met, and two defects are shown. *)

From Stdlib Require Import ZArith Lia.
From stdpp Require Import base list option strings gmap sorting.
From S2P Require Import Prelude KeyPolicy Budgets BudgetProofs BudgetInvariants.
Local Open Scope Z_scope.

Section alerts.
Context `{Datelike}.
Variable end_user_hash : bytes → Z.

(** An alert of the counter of tenant [t], slot [slot] (of no end user) and window [w]. *)
Definition mine (t : bytes) (slot : Slot) (w : BudgetWindow) (x : Crossing) : Prop :=
  cx_tenant x = t ∧ cx_scope x = slot.1 ∧ cx_end_user x = None ∧ cx_window x = w.
#[local] Instance mine_dec t slot w x : Decision (mine t slot w x).
Proof. unfold mine. apply _. Defined.

Definition named (label : bytes) (period : Z) (x : Crossing) : Prop := cx_label x = label ∧ cx_period x = period.
#[local] Instance named_dec label period x : Decision (named label period x).
Proof. unfold named. apply _. Defined.

(** How many alerts of the threshold [label] for [period]. *)
Definition count (label : bytes) (period : Z) (xs : list Crossing) : nat := length (filter (named label period) xs).

Lemma count_app label period xs ys : count label period (xs ++ ys) = (count label period xs + count label period ys)%nat.
Proof. unfold count. by rewrite filter_app, length_app. Qed.

(** Fired already? *)
Definition done_ (label : bytes) (period : Z) (f : gset (bytes * Z)) : nat :=
  if bool_decide ((label, period) ∈ f) then 1%nat else 0%nat.

Lemma done_le label period f : (done_ label period f ≤ 1)%nat.
Proof. unfold done_. by case_bool_decide; [reflexivity|lia]. Qed.

Lemma fire_count sink crossing period after ths f label q :
  (∀ l, cx_label (crossing l) = l ∧ cx_period (crossing l) = period) →
  (count label q (fire sink crossing period after ths f).1 + done_ label q f
   = done_ label q (fire sink crossing period after ths f).2)%nat.
Proof.
  intros Hx. revert f. induction ths as [|[at_ l] ths IH]; intros f; simpl; [unfold count; simpl; lia|].
  destruct (after <? at_); simpl; [apply IH|]. case_bool_decide as Hin; [apply IH|].
  destruct (sink (crossing l)); [|apply IH]. specialize (IH ({[(l, period)]} ∪ f)).
  destruct (fire _ _ _ _ _ _) as [xs f']. simpl in *. unfold count in *. rewrite filter_cons.
  destruct (decide (named label q (crossing l))) as [[H1 H2]|Hn].
  - destruct (Hx l) as [E1 E2]. rewrite E1, E2 in *. subst. simpl. unfold done_ in *.
    rewrite (bool_decide_false (_ ∈ f)) by done. rewrite bool_decide_true in IH by set_solver. lia.
  - rewrite <- IH. f_equal. unfold done_. rewrite (bool_decide_ext _ ((label, q) ∈ {[(l, period)]} ∪ f)); [done|].
    destruct (Hx l) as [E1 E2]. unfold named in Hn. rewrite E1, E2 in Hn. set_solver.
Qed.

Lemma record_counter_count sink t scope cost now c label q :
  (count label q (record_counter sink t scope cost now c).1 + done_ label q (fired c)
   = done_ label q (fired (record_counter sink t scope cost now c).2))%nat.
Proof.
  unfold record_counter. destruct (negb _); [done|]. destruct (counter_spent now c) as [before c1] eqn:E.
  assert (fired (counter_add now cost c1) = fired c) as Hf.
  { unfold counter_add, counter_spent in *. by repeat case_match; simplify_eq/=. }
  set (x := λ label, crossing_for _ _ _ label _ _). 
  pose proof (fire_count sink x (period_key (window (spec (counter_add now cost c1))) now) (sat_add64 before cost)
    (thresholds (spec (counter_add now cost c1))) (fired (counter_add now cost c1)) label q (λ l, conj eq_refl eq_refl)) as Hc.
  destruct (fire _ _ _ _ _ _) as [xs f]. simpl in *. by rewrite Hf in Hc.
Qed.

(** Who an alert is about. *)
Definition about (t : bytes) (scope : Scope) (c : Counter) (x : Crossing) : Prop :=
  cx_tenant x = t ∧ cx_scope x = scope ∧ cx_end_user x = co_end_user c ∧ cx_window x = window (spec c).

Lemma fire_Forall P sink crossing period after ths f :
  (∀ l, P (crossing l)) → Forall P (fire sink crossing period after ths f).1.
Proof.
  intros HP. revert f. induction ths as [|[at_ l] ths IH]; intros f; simpl; [done|].
  destruct (_ || _); [apply IH|]. destruct (sink (crossing l)); [|apply IH].
  specialize (IH ({[(l, period)]} ∪ f)). destruct (fire _ _ _ _ _ _). by constructor.
Qed.

Lemma record_counter_about sink t scope cost now c :
  Forall (about t scope c) (record_counter sink t scope cost now c).1.
Proof.
  unfold record_counter. destruct (negb _); [done|]. destruct (counter_spent now c) as [before c1] eqn:E.
  set (x := λ label, crossing_for _ _ _ label _ _).
  assert (∀ l, about t scope c (x l)) as Hx.
  { intros l. unfold about. subst x. simpl. unfold counter_add, counter_spent in *.
    by repeat case_match; simplify_eq/=. }
  pose proof (fire_Forall _ sink x (period_key (window (spec (counter_add now cost c1))) now) (sat_add64 before cost)
    (thresholds (spec (counter_add now cost c1))) (fired (counter_add now cost c1)) Hx) as Hf.
  by destruct (fire _ _ _ _ _ _).
Qed.

Lemma filter_all_mine t slot w xs : Forall (mine t slot w) xs → filter (mine t slot w) xs = xs.
Proof. induction 1 as [|x xs Hx Hxs IH]; [done|]. by rewrite filter_cons_True, IH. Qed.

Lemma filter_none_mine t slot w xs : Forall (λ x, ¬ mine t slot w x) xs → filter (mine t slot w) xs = [].
Proof. induction 1 as [|x xs Hx Hxs IH]; [done|]. by rewrite filter_cons_False. Qed.

(** What the counters of one slot queue. *)
Lemma concat_mine sink t slot w cost now v c :
  slot_wf end_user_hash slot v → slot.2 = None → find_window w v = Some c →
  filter (mine t slot w) (concat ((record_counter sink t slot.1 cost now <$> v).*1)) =
  (record_counter sink t slot.1 cost now c).1.
Proof.
  intros [_ Hnd Hv] Hs. induction v as [|c' v IH]; [done|]. cbn [find_window fmap list_fmap concat].
  apply Forall_cons in Hv as [[Hu _] Hv]. apply NoDup_cons in Hnd as [Hw Hnd]. rewrite filter_app.
  pose proof (record_counter_about sink t slot.1 cost now c') as Ha.
  assert (co_end_user c' = None) as Hcu. { rewrite Hs in Hu. by destruct (co_end_user c'). }
  destruct (has_window w c') eqn:E.
  - intros [= <-]. apply has_window_true in E. rewrite filter_all_mine.
    2: { eapply Forall_impl; [exact Ha|]. intros x (? & ? & ? & ?). unfold mine. by rewrite <- Hcu, <- E. }
    rewrite filter_none_mine; [by rewrite app_nil_r|]. clear -Hw E.
    apply Forall_concat, Forall_fmap, Forall_fmap, Forall_forall. intros c Hc. simpl.
    eapply Forall_impl; [apply record_counter_about|]. intros x (_ & _ & _ & Hx) (_ & _ & _ & Hm).
    apply Hw, list_elem_of_fmap. exists c. split; [congruence|done].
  - intros Hf. rewrite (filter_none_mine _ _ _ (record_counter sink t slot.1 cost now c').1).
    + by apply IH.
    + eapply Forall_impl; [exact Ha|]. intros x (_ & _ & _ & Hx) (_ & _ & _ & Hm).
      assert (has_window w c' = true); [|congruence]. apply has_window_true. congruence.
Qed.

Lemma record_slot_mine sink t cost now tc sl slot w c :
  tenant_wf end_user_hash tc → slot.2 = None → slots tc !! slot ≫= find_window w = Some c →
  filter (mine t slot w) (record_slot sink t cost now tc sl).1 =
  if bool_decide (sl = slot) then (record_counter sink t slot.1 cost now c).1 else [].
Proof.
  intros Hwf Hs Hc. unfold record_slot. case_bool_decide as Hsl.
  - subst. destruct (slots tc !! slot) as [v|] eqn:Ev; [|done]. simpl. eapply concat_mine; eauto.
  - destruct (slots tc !! sl) as [v|] eqn:Ev; [|done]. simpl. apply filter_none_mine.
    apply Forall_concat, Forall_fmap, Forall_fmap, Forall_forall. intros c' Hc'. simpl.
    eapply Forall_impl; [apply record_counter_about|]. intros x (_ & H1 & H2 & _) (_ & H3 & H4 & _).
    destruct (Hwf _ _ Ev) as [_ _ Hv]. eapply Forall_forall in Hv as [Hu _]; [|exact Hc'].
    rewrite <- H2, H4 in Hu. apply Hsl. destruct sl, slot. simpl in *. congruence.
Qed.

Lemma record_all_mine sink t cost now xs tc sls slot w c :
  tenant_wf end_user_hash tc → 0 ≤ cost → slot.2 = None → NoDup sls → slots tc !! slot ≫= find_window w = Some c →
  filter (mine t slot w) (record_all sink t cost now (xs, tc) sls).1 =
  filter (mine t slot w) xs ++ if bool_decide (slot ∈ sls) then (record_counter sink t slot.1 cost now c).1 else [].
Proof.
  intros Hwf Hcost Hs Hnd. revert xs tc Hwf c. induction Hnd as [|sl sls Hsl Hnd IH]; intros xs tc Hwf c Hc.
  { rewrite bool_decide_false by apply not_elem_of_nil. by rewrite app_nil_r. }
  rewrite record_all_cons.
  pose proof (record_slot_find sink t cost now tc sl slot w c Hc) as Hf.
  rewrite (IH _ _ (record_slot_wf end_user_hash sink t cost now tc sl Hcost Hwf) _ Hf).
  rewrite filter_app, (record_slot_mine sink t cost now tc sl slot w c Hwf Hs Hc), <- app_assoc. f_equal.
  destruct (decide (sl = slot)) as [<-|Hne].
  - rewrite (bool_decide_false (_ ∈ sls)), !bool_decide_true by (done || by left). by rewrite app_nil_r.
  - rewrite (bool_decide_false (sl = slot)) by done. simpl.
    rewrite (bool_decide_ext (slot ∈ sl :: sls) (slot ∈ sls)); [done|]. rewrite elem_of_cons. naive_solver.
Qed.

(** The alerts of a step that are about a counter are the ones its own history
    gives. *)
Lemma step_mine ev tb t slot w c :
  table_wf end_user_hash tb → event_ok ev → slot.2 = None → counter_at tb t slot w = Some c →
  filter (mine t slot w) (step end_user_hash ev tb).1 = (effect end_user_hash (backoff tb) t slot w ev c).1.
Proof.
  intros Hwf Hev Hs Hc. destruct ev as [t' a now at_|t' a p s now|t' a at_|t' sc w' p s|t' project key eu cost now sink];
    cbn [step effect fst]; try (by case_bool_decide); [done|].
  unfold record. destruct (Z.eqb_spec cost 0) as [->|Hcost].
  { by rewrite bool_decide_false by naive_solver. }
  destruct (tenants tb !! t') as [tc|] eqn:Et; cycle 1.
  { rewrite bool_decide_false; [done|]. intros [-> _]. unfold counter_at in Hc. by rewrite Et in Hc. }
  change (foldl _ _ _) with (record_all sink t' cost now ([], tc) (record_slots end_user_hash project key eu)).
  destruct (decide (t' = t)) as [->|Hne].
  - assert (slots tc !! slot ≫= find_window w = Some c) as Hc'. { unfold counter_at in Hc. by rewrite Et in Hc. }
    pose proof (record_all_mine sink t cost now [] tc (record_slots end_user_hash project key eu) slot w c
      (Hwf _ _ Et) Hev Hs (record_slots_NoDup _ _ _ _) Hc') as Hm.
    destruct (record_all _ _ _ _ _ _) as [xs tc']. simpl in *. rewrite Hm.
    do 2 case_bool_decide; naive_solver.
  - rewrite bool_decide_false by naive_solver.
    assert (∀ xs tc sls, Forall (λ x, cx_tenant x = t') xs →
      Forall (λ x, cx_tenant x = t') (record_all sink t' cost now (xs, tc) sls).1) as Hall.
    { intros xs0 tc0 sls. revert xs0 tc0. induction sls as [|sl sls IH]; intros xs0 tc0 Hx; [done|].
      rewrite record_all_cons. apply IH, Forall_app. split; [done|]. unfold record_slot.
      destruct (slots tc0 !! sl); [|done]. simpl. apply Forall_concat, Forall_fmap, Forall_fmap, Forall_forall.
      intros c' _. eapply Forall_impl; [apply record_counter_about|]. by intros x []. }
    specialize (Hall [] tc (record_slots end_user_hash project key eu) (Forall_nil_2 _)).
    destruct (record_all _ _ _ _ _ _) as [xs tc']. simpl in *. apply filter_none_mine.
    eapply Forall_impl; [exact Hall|]. intros x Hx [? _]. congruence.
Qed.

(** The events give the counter baselines of period [p] only. *)
Definition same_period (t : bytes) (slot : Slot) (w : BudgetWindow) (p : Z) (ev : Event) : Prop :=
  on_counter end_user_hash t slot w ev = true →
  match ev with ESeed _ _ period _ _ => period = p | _ => True end.

Definition seeded_in (p : Z) (c : Counter) : Prop := seeded_for c = None ∨ seeded_for c = Some p.

Lemma fired_spent now c : fired (counter_spent now c).2 = fired c.
Proof. unfold counter_spent. by destruct (rolling_hours (window (spec c))). Qed.

Lemma effect_count back t slot w p ev c label q :
  same_period t slot w p ev → seeded_in p c →
  seeded_in p (effect end_user_hash back t slot w ev c).2 ∧
  (count label q (effect end_user_hash back t slot w ev c).1 + done_ label q (fired c)
   = done_ label q (fired (effect end_user_hash back t slot w ev c).2))%nat.
Proof.
  intros Hsame Hin. unfold same_period in Hsame.
  destruct ev as [t' a now at_|t' a period s now|t' a at_|t' sc w' period s|t' project key eu cost now sink];
    cbn [effect on_counter] in *; try (split; [exact Hin|unfold count; simpl; lia]);
    case_bool_decide as Hb; try (split; [exact Hin|unfold count; simpl; lia]).
  - assert (∀ c', seeded_for (prepare_decision back a now at_ c').2 = seeded_for c' ∧
      fired (prepare_decision back a now at_ c').2 = fired c') as Hp.
    { intros c'. unfold prepare_decision. pose proof (fired_spent now c'). pose proof (seeded_spent now c').
      destruct (match seed_failed_at c' with Some _ => _ | None => _ end); [done|].
      destruct (rolling_hours _); [|by case_bool_decide]. destruct (seeded_for c') eqn:Es; [|done].
      destruct (counter_spent now c'). simpl in *. done. }
    destruct (Hp (set_spec a at_ c)) as [H1 H2]. cbn [snd fst]. unfold seeded_in. rewrite H1, H2. done.
  - specialize (Hsame eq_refl). subst period. cbn [snd fst]. rewrite fired_spent. unfold seeded_in.
    rewrite seeded_spent. unfold seed_counter. simpl. destruct Hin as [Hn|Hn]; rewrite Hn; simpl.
    + destruct s; simpl; (split; [by right|unfold count; simpl; lia]).
    + rewrite bool_decide_true by done. simpl. split; [by right|unfold count; simpl; lia].
  - split; [|apply record_counter_count]. unfold seeded_in in *. replace (seeded_for _) with (seeded_for c); [done|].
    unfold record_counter. destruct (negb _); [done|]. pose proof (seeded_spent now c) as Hsp.
    destruct (counter_spent now c) as [b c1]. simpl in Hsp. destruct (fire _ _ _ _ _ _). simpl.
    unfold counter_add. by destruct (rolling_hours _).
Qed.

Lemma run_count evs tb t slot w p c label q :
  table_wf end_user_hash tb → Forall event_ok evs → slot.2 = None → counter_at tb t slot w = Some c →
  seeded_in p c → Forall (same_period t slot w p) evs →
  (count label q (filter (mine t slot w) (run end_user_hash evs tb).1) + done_ label q (fired c)
   = done_ label q (fired (counter_run end_user_hash (backoff tb) t slot w evs c)))%nat.
Proof.
  intros Hwf Hok Hs. revert tb c Hwf. induction Hok as [|ev evs Hev Hok IH]; intros tb c Hwf Hc Hin Hsame; [done|].
  apply Forall_cons in Hsame as [Hs1 Hsame].
  rewrite run_fst, filter_app, count_app, (step_mine ev tb t slot w c Hwf Hev Hs Hc).
  destruct (effect_count (backoff tb) t slot w p ev c label q Hs1 Hin) as [Hin' Hcount].
  destruct (step_counter end_user_hash ev tb t slot w c Hs Hc) as [Hc' Hb].
  specialize (IH _ _ (step_wf end_user_hash ev tb Hev Hwf) Hc' Hin' Hsame). rewrite Hb in IH.
  cbn [counter_run]. lia.
Qed.

Lemma fire_complete sink crossing period after ths f at_ label :
  (at_, label) ∈ ths → at_ ≤ after → (∀ x, sink x = true) →
  (label, period) ∈ (fire sink crossing period after ths f).2.
Proof.
  intros Hin Hat Hsink.
  assert (∀ ths f, f ⊆ (fire sink crossing period after ths f).2) as Hmono.
  { clear -Hsink. induction ths as [|[a l] ths IH]; intros f; simpl; [done|].
    destruct (_ || _); [apply IH|]. rewrite Hsink. specialize (IH ({[(l, period)]} ∪ f)).
    destruct (fire _ _ _ _ _ _). simpl in *. set_solver. }
  revert f. induction ths as [|[a l] ths IH]; intros f; [by apply not_elem_of_nil in Hin|]. simpl.
  apply elem_of_cons in Hin as [[= <- <-]|Hin].
  - replace (after <? at_) with false by lia. simpl. case_bool_decide as Hf; [by apply Hmono|].
    rewrite Hsink. specialize (Hmono ths ({[(label, period)]} ∪ f)). destruct (fire _ _ _ _ _ _). simpl in *. set_solver.
  - destruct (_ || _); [by apply IH|]. rewrite Hsink. specialize (IH Hin ({[(l, period)]} ∪ f)).
    by destruct (fire _ _ _ _ _ _).
Qed.

Lemma record_counter_fires sink t scope cost now c at_ label :
  current now c = true → (∀ x, sink x = true) → (at_, label) ∈ thresholds (spec c) →
  at_ ≤ sat_add64 (counter_spent now c).1 cost →
  (label, period_key (window (spec c)) now) ∈ fired (record_counter sink t scope cost now c).2.
Proof.
  intros Hcur Hsink Hin Hat. unfold record_counter. rewrite Hcur. cbn [negb].
  destruct (counter_spent now c) as [before c1] eqn:E.
  assert (spec (counter_add now cost c1) = spec c) as Hspec.
  { unfold counter_add, counter_spent in *. by repeat case_match; simplify_eq/=. }
  simpl in Hat. rewrite Hspec. set (x := λ label, crossing_for _ _ _ label _ _).
  pose proof (fire_complete sink x (period_key (window (spec c)) now) (sat_add64 before cost)
    (thresholds (spec c)) (fired (counter_add now cost c1)) at_ label Hin Hat Hsink) as Hf.
  by destruct (fire _ _ _ _ _ _).
Qed.

(** An alert fires exactly once.  In any history of the table, until the counter of
    a workspace, project or key takes the baseline of another period: each of its
    thresholds is queued at most once per period, and not at all if it already was -
    whatever other requests, tenants and end users do, and however often the alert
    queue was full in between; and once a recorded cost brings the spend to a
    threshold and the queue takes it, the threshold has been queued. *)
Theorem alert_fires_once mx back evs0 evs t scope w p c label :
  Forall event_ok evs0 → Forall event_ok evs →
  let tb := (run end_user_hash evs0 (table_new mx back)).2 in
  counter_at tb t (scope, None) w = Some c → seeded_in p c → Forall (same_period t (scope, None) w p) evs →
  let n period := count label period (filter (mine t (scope, None) w) (run end_user_hash evs tb).1) in
  (∀ period, (n period ≤ 1)%nat ∧ ((label, period) ∈ fired c → n period = 0%nat)) ∧
  (∀ evs' project key eu cost now sink at_ c',
     evs = evs' ++ [ERecord t project key eu cost now sink] →
     counter_at (run end_user_hash evs' tb).2 t (scope, None) w = Some c' →
     (scope, None) ∈ record_slots end_user_hash project key eu → cost ≠ 0 → current now c' = true →
     (∀ x, sink x = true) → (at_, label) ∈ thresholds (spec c') →
     at_ ≤ sat_add64 (counter_spent now c').1 cost →
     (label, period_key w now) ∉ fired c → n (period_key w now) = 1%nat).
Proof.
  intros H0 H1 tb Hc Hin Hsame n.
  assert (∀ period, n period + done_ label period (fired c) =
    done_ label period (fired (counter_run end_user_hash (backoff tb) t (scope, None) w evs c)))%nat as Hn.
  { intros q. exact (run_count evs tb t (scope, None) w p c label q
      (budget_run_wf end_user_hash evs0 _ H0 (table_new_wf end_user_hash mx back)) H1 eq_refl Hc Hin Hsame). }
  split.
  - intros q. specialize (Hn q). pose proof (done_le label q (fired (counter_run end_user_hash (backoff tb) t (scope, None) w evs c))).
    split; [lia|]. intros Hf. revert Hn. unfold done_ at 1. rewrite bool_decide_true by done. lia.
  - intros evs' project key eu cost now sink at_ c' -> Hc' Hslot Hcost Hcur Hsink Hth Hat Hnf.
    specialize (Hn (period_key w now)). revert Hn. unfold done_ at 1. rewrite bool_decide_false by done.
    destruct (run_counter end_user_hash evs' tb t (scope, None) w c eq_refl Hc) as [Hr _].
    rewrite Hc' in Hr. injection Hr as ->.
    replace (counter_run _ _ _ _ _ (evs' ++ _) c) with
      (record_counter sink t scope cost now (counter_run end_user_hash (backoff tb) t (scope, None) w evs' c)).2.
    2: { generalize (backoff tb). clear -Hslot Hcost. intros b. revert c. induction evs' as [|ev evs' IH]; intros c; simpl; [|apply IH].
         by rewrite bool_decide_true by done. }
    intros Hn. unfold done_ in Hn. rewrite bool_decide_true in Hn; [lia|].
    pose proof (record_counter_fires sink t scope cost now _ at_ label Hcur Hsink Hth Hat) as Hf.
    replace (window (spec _)) with w in Hf; [done|]. clear -Hc'. unfold counter_at in Hc'.
    destruct (tenants _ !! t) as [tc|]; [|done]. simpl in Hc'. destruct (slots tc !! _); [|done].
    by apply find_window_some in Hc' as [-> _].
Qed.
End alerts.

(** ** Concrete runs *)

(** A calendar with one month, from the epoch. *)
#[local] Instance first_month : Datelike :=
  { year := λ _, 1970; month := λ _, 1; day := λ s, s / 86400 + 1; iso_year := λ _, 1970; iso_week := λ s, s / 604800 + 1 }.

Definition len_hash (u : bytes) : Z := lenZ u.
Definition acme : bytes := lit "acme".
Definition key_a : bytes := lit "key-a".

Definition rolling_budget : Budget :=
  {| micro_usd := 1000000; window := Rolling24h; mode := Hard; alert_at_percent := [50]; alert_at_micro_usd := [] |}.
Definition key_budget : Applicable :=
  {| ap_origin := OKey; ap_scope := Key key_a; ap_end_user := None; ap_budget := rolling_budget |}.

(** The key's budget is prepared and takes its baseline: 300000 in hour 1. *)
Definition seeded_events : list Event :=
  [EPrepare acme key_budget 7200 0; ESeed acme key_budget ROLLING (Hours [(1, 300000)]) 7200].
Definition seeded_table : BudgetTable := (run len_hash seeded_events (table_new 2 1000)).2.
Definition seeded_counter : Counter :=
  {| co_origin := OKey; spec := rolling_budget; co_end_user := None; seeded_for := Some ROLLING; micro := 0;
     hours := [(1, 300000)]; fired := ∅; seed_failed_at := None; co_last_used := 0 |}.

(** Costs of this key, of another key and of another tenant. *)
Definition traffic : list Event :=
  [ERecord acme None (Some key_a) (Some (lit "u")) 300000 7300 (λ _, false);
   ERecord acme None (Some (lit "key-b")) None 900000 7400 (λ _, true);
   ERecord (lit "other") None (Some key_a) None 900000 7500 (λ _, true);
   ERecord acme None (Some key_a) None 400000 10900 (λ _, true)].

Lemma seeded_at : counter_at seeded_table acme (Key key_a, None) Rolling24h = Some seeded_counter.
Proof. vm_compute. reflexivity. Qed.

(** The counter before the last of these. *)
Definition busy_counter : Counter := set_hours [(1, 300000); (2, 300000)] seeded_counter.

Lemma busy_at :
  counter_at (run len_hash (take 3 traffic) seeded_table).2 acme (Key key_a, None) Rolling24h = Some busy_counter.
Proof. vm_compute. reflexivity. Qed.

Lemma seeded_settled : settled Rolling24h ROLLING 2 seeded_counter.
Proof. split; try done; repeat constructor; done. Qed.

Lemma budget_verdict_exact_witness :
  (check_budget len_hash acme key_budget 11000 5 (λ _, None) (run len_hash traffic seeded_table).2).1
  = Err (BudgetExceeded 1000000).
Proof.
  exact (budget_verdict_exact len_hash acme key_budget ROLLING 2 seeded_counter seeded_table traffic 11000 5 (λ _, None)
           eq_refl seeded_at seeded_settled (or_introl eq_refl) ltac:(vm_compute; reflexivity)
           ltac:(vm_compute; discriminate)).
Defined.

(** Half of the budget is spent: admitted, on a known spend. *)
Lemma budget_fails_closed_witness :
  let r := check_budget len_hash acme key_budget 7600 5 (λ _, None) (run len_hash (take 1 traffic) seeded_table).2 in
  r.1 = Ok () ∧ ∃ c, counter_at r.2 acme (slot_of len_hash key_budget) Rolling24h = Some c ∧
    known_for Rolling24h 7600 c ∧ (counter_spent 7600 c).1 < 1000000.
Proof.
  intros r. assert (r.1 = Ok ()) as Hok by (vm_compute; reflexivity). split; [exact Hok|].
  exact (budget_fails_closed len_hash acme key_budget 7600 5 (λ _, None) (run len_hash (take 1 traffic) seeded_table).2 Hok).
Defined.

Lemma end_user_memory_bounded_witness :
  ∃ tc, tenants seeded_table !! acme = Some tc ∧ user_counters (slots tc) ≤ 2.
Proof.
  destruct (tenants seeded_table !! acme) as [tc|] eqn:E; [|exfalso; vm_compute in E; discriminate].
  exists tc. split; [reflexivity|].
  apply (end_user_memory_bounded len_hash 2 1000 seeded_events acme tc); [lia| |exact E].
  repeat constructor; done.
Defined.

Lemma alert_fires_once_witness :
  (lit "50%", 0) ∉ fired seeded_counter ∧
  (count (lit "50%") 0 (filter (mine acme (Key key_a, None) Rolling24h) (run len_hash traffic seeded_table).1) = 1)%nat.
Proof.
  split; [vm_compute; done|].
  assert (Forall event_ok seeded_events) as H0 by (repeat constructor; done).
  assert (Forall event_ok traffic) as H1 by (repeat constructor; done).
  assert (Forall (same_period len_hash acme (Key key_a, None) Rolling24h ROLLING) traffic) as H2
    by (repeat constructor; done).
  destruct (alert_fires_once len_hash 2 1000 seeded_events traffic acme (Key key_a) Rolling24h ROLLING
    seeded_counter (lit "50%") H0 H1 seeded_at (or_intror eq_refl) H2) as [_ Hfire].
  apply (Hfire (take 3 traffic) None (Some key_a) None 400000 10900 (λ _, true) 500000 busy_counter).
  - reflexivity.
  - exact busy_at.
  - apply (bool_decide_unpack _). vm_compute. exact I.
  - done.
  - reflexivity.
  - reflexivity.
  - apply (bool_decide_unpack _). vm_compute. exact I.
  - vm_compute. discriminate.
  - vm_compute. done.
Defined.

(** ** Defects *)

Definition daily_budget (m : BudgetMode) : Budget :=
  {| micro_usd := 5; window := Daily; mode := m; alert_at_percent := []; alert_at_micro_usd := [] |}.
Definition workspace_budget (m : BudgetMode) : Applicable :=
  {| ap_origin := OWorkspace; ap_scope := Workspace; ap_end_user := None; ap_budget := daily_budget m |}.

(** On the first day the baseline cannot be read and a cost of 5 is recorded; on the
    second day (second 90000) the baseline is read. *)
Definition unread_first_day : list Event :=
  [EPrepare acme (workspace_budget Soft) 100 0; ESeedFailed acme (workspace_budget Soft) 0;
   ERecord acme None None None 5 200 (λ _, true)].

(** Until its first baseline a counter takes costs of any period, and the first
    baseline is added to them: here the first day's spend refuses the second day's
    first request, although nothing was spent on the second day. *)
Theorem unread_spend_carries_over :
  (check_budget len_hash acme (workspace_budget Hard) 90000 5000 (λ _, Some (Total 0))
     (run len_hash unread_first_day (table_new 2 1000)).2).1 = Err (BudgetExceeded 5).
Proof. vm_compute. reflexivity. Qed.

Definition user_budget (u : string) (w : BudgetWindow) : Applicable :=
  {| ap_origin := OWorkspace; ap_scope := Workspace; ap_end_user := Some (lit u);
     ap_budget := {| micro_usd := 5; window := w; mode := Hard; alert_at_percent := []; alert_at_micro_usd := [] |} |}.

(** One end user is seen while the budget is daily and again after it was made
    monthly; two hours later another one is. *)
Definition window_edited : list Event :=
  [EPrepare acme (user_budget "a" Daily) 100 0; EPrepare acme (user_budget "a" Monthly) 100 0;
   EPrepare acme (user_budget "bb" Monthly) 7300 (2 * idle_hour)].

(** [end_users] counts counters, but eviction frees one per slot: a table for two end
    users that holds a single counter has no room for a second. *)
Theorem evicted_counters_leak :
  (prepare len_hash acme (user_budget "ccc" Monthly) 7300 (2 * idle_hour)
     (run len_hash window_edited (table_new 2 1000)).2).1 = Capacity ∧
  (user_counters ∘ slots <$> tenants (run len_hash window_edited (table_new 2 1000)).2 !! acme) = Some 1.
Proof. split; vm_compute; reflexivity. Qed.
