(* ===== verification/Limits.v ===== *)
(** * Rate limits

    [crates/gateway/src/limits.rs] (token buckets, their reservations, the cap on
    end-user ids) and [token_cost], [limit_checks] of
    [crates/gateway/src/admission.rs].

    Every operation of the table is one step: [table_admit] and [reconcile] hold the
    tenant's lock, the queue of reservations is a concurrent map whose counter is
    updated with it.  Instants and durations are nanoseconds.  The keyed hash of
    end-user ids and the resolution of model names are parameters.  The text of the
    refusals is left out. *)

From Stdlib Require Import ZArith Lia.
From stdpp Require Import base list option strings gmap.
From S2P Require Import Prelude Float64 Glob KeyPolicy Budgets.
Local Open Scope Z_scope.

(** ** Buckets *)

Inductive Dim : Type := All | EndUser (h : Z) | Model (pattern : bytes).
#[global] Instance Dim_eq_dec : EqDecision Dim.
Proof. solve_decision. Defined.
#[global] Program Instance Dim_countable : Countable Dim :=
  inj_countable' (λ d, match d with All => inl () | EndUser h => inr (inl h) | Model p => inr (inr p) end)
    (λ x, match x with inl () => All | inr (inl h) => EndUser h | inr (inr p) => Model p end) _.
Next Obligation. by intros []. Qed.

Inductive Kind : Type := Rpm | Tpm.
#[global] Instance Kind_eq_dec : EqDecision Kind.
Proof. solve_decision. Defined.
#[global] Program Instance Kind_countable : Countable Kind :=
  inj_countable' (λ k, match k with Rpm => true | Tpm => false end) (λ b, if b : bool then Rpm else Tpm) _.
Next Obligation. by intros []. Qed.

Record BucketKey := { bk_scope : Scope; bk_dim : Dim; bk_kind : Kind }.
#[global] Instance BucketKey_eq_dec : EqDecision BucketKey.
Proof. solve_decision. Defined.
#[global] Program Instance BucketKey_countable : Countable BucketKey :=
  inj_countable' (λ k, (bk_scope k, bk_dim k, bk_kind k)) (λ x, {| bk_scope := x.1.1; bk_dim := x.1.2; bk_kind := x.2 |}) _.
Next Obligation. by intros []. Qed.

Record Check := { ck_key : BucketKey; ck_limit : Z; ck_cost : Z }.

Record LimitDenial := {
  ld_code : bytes;
  ld_scope : Scope;
  ld_dim : Dim;
  ld_kind : Kind;
  ld_limit : Z;
  ld_requested : Z;
  retry_after_secs : Z;
  exceeds_capacity : bool;
}.

Definition end_user_limit_capacity : bytes := lit "end_user_limit_capacity".

Definition capacity_denial (s : Scope) : LimitDenial :=
  {| ld_code := end_user_limit_capacity; ld_scope := s; ld_dim := EndUser 0; ld_kind := Rpm; ld_limit := 0;
     ld_requested := 1; retry_after_secs := 60; exceeds_capacity := false |}.

Definition code_for (k : Kind) (s : Scope) (d : Dim) : bytes :=
  match k, d, s with
  | Rpm, EndUser _, _ => lit "rpm_limit_end_user"
  | Tpm, EndUser _, _ => lit "tpm_limit_end_user"
  | Rpm, Model _, _ => lit "rpm_limit_model"
  | Tpm, Model _, _ => lit "tpm_limit_model"
  | Rpm, All, Workspace => lit "rpm_limit_workspace"
  | Rpm, All, Project _ => lit "rpm_limit_project"
  | Rpm, All, Key _ => lit "rpm_limit_key"
  | Tpm, All, Workspace => lit "tpm_limit_workspace"
  | Tpm, All, Project _ => lit "tpm_limit_project"
  | Tpm, All, Key _ => lit "tpm_limit_key"
  end.

Record Bucket := {
  tokens : f64;
  bu_capacity : f64;
  last_refill : Z;
  bu_last_used : Z;
}.

Definition bucket_new (limit now : Z) : Bucket :=
  {| tokens := f64_of limit; bu_capacity := f64_of limit; last_refill := now; bu_last_used := now |}.

(** [Duration::as_secs_f64]. *)
Definition as_secs_f64 (d : Z) : f64 :=
  f64_add (f64_of (d / 1000000000)) (f64_div (f64_of (d mod 1000000000)) (f64_of 1000000000)).

(** [f64::EPSILON] and [1e-9]. *)
Definition EPSILON : f64 := f64_div (f64_of 1) (f64_of (2 ^ 52)).
Definition slack : f64 := f64_div (f64_of 1) (f64_of 1000000000).

Definition refill (limit now : Z) (b : Bucket) : Bucket :=
  let cap := f64_of limit in
  let capacity := if f64_gt (f64_abs (f64_sub cap (bu_capacity b))) EPSILON then cap else bu_capacity b in
  let elapsed := as_secs_f64 (sat_sub now (last_refill b)) in
  {| tokens := f64_min (f64_add (tokens b) (f64_div (f64_mul elapsed cap) (f64_of 60))) cap;
     bu_capacity := capacity; last_refill := now; bu_last_used := bu_last_used b |}.

Definition wait_secs (cost : Z) (b : Bucket) : Z :=
  let per_sec := f64_div (bu_capacity b) (f64_of 60) in
  if f64_le per_sec (f64_of 0) then 60 else
  let secs := f64_ceil (f64_div (f64_sub (f64_of cost) (tokens b)) per_sec) in
  if f64_is_finite secs then Z.min (f64_as_u64 (f64_max secs (f64_of 1))) 3600 else 60.

Definition set_tokens (x : f64) (b : Bucket) : Bucket :=
  {| tokens := x; bu_capacity := bu_capacity b; last_refill := last_refill b; bu_last_used := bu_last_used b |}.

(** [b.tokens -= cost; b.last_used = now]. *)
Definition debit (cost now : Z) (b : Bucket) : Bucket :=
  {| tokens := f64_sub (tokens b) (f64_of cost); bu_capacity := bu_capacity b; last_refill := last_refill b;
     bu_last_used := now |}.

Record TenantBuckets := { bmap : gmap BucketKey Bucket; tb_end_users : Z }.

Definition no_buckets : TenantBuckets := {| bmap := ∅; tb_end_users := 0 |}.

Definition is_end_user (k : BucketKey) : bool := match bk_dim k with EndUser _ => true | _ => false end.

Definition in_use (now idle : Z) (b : Bucket) : bool := sat_sub now (bu_last_used b) <? idle.

Definition evict_idle (now idle : Z) (tb : TenantBuckets) : TenantBuckets :=
  let kept := filter (λ kb, in_use now idle kb.2 = true) (bmap tb) in
  let freed := filter (λ kb, negb (in_use now idle kb.2) && is_end_user kb.1 = true) (bmap tb) in
  if bool_decide (size kept = size (bmap tb)) then {| bmap := kept; tb_end_users := tb_end_users tb |}
  else {| bmap := kept; tb_end_users := sat_sub (tb_end_users tb) (Z.of_nat (size freed)) |}.

(** ** Reservations *)

Record Reservation := {
  rv_tenant : bytes;
  debits : list (BucketKey * Z);
  rv_key_id : option bytes;
  rv_model : bytes;
  rv_end_user : option bytes;
  rv_at : Z;
}.

Record LimitTable := {
  lt_tenants : gmap bytes TenantBuckets;
  pending : gmap (bytes * bytes) (list Reservation);
  pending_count : Z;
  lt_max_end_users : Z;
  lt_idle : Z;
  reservation_ttl : Z;
  max_pending : Z;
}.

Definition limits_new (max_end_users idle reservation_ttl max_pending : Z) : LimitTable :=
  {| lt_tenants := ∅; pending := ∅; pending_count := 0; lt_max_end_users := max_end_users; lt_idle := idle;
     reservation_ttl := reservation_ttl; max_pending := max_pending |}.

Definition set_buckets (t : bytes) (tb : TenantBuckets) (lt : LimitTable) : LimitTable :=
  {| lt_tenants := <[t := tb]> (lt_tenants lt); pending := pending lt; pending_count := pending_count lt;
     lt_max_end_users := lt_max_end_users lt; lt_idle := lt_idle lt; reservation_ttl := reservation_ttl lt;
     max_pending := max_pending lt |}.

Definition set_pending (m : gmap (bytes * bytes) (list Reservation)) (n : Z) (lt : LimitTable) : LimitTable :=
  {| lt_tenants := lt_tenants lt; pending := m; pending_count := n;
     lt_max_end_users := lt_max_end_users lt; lt_idle := lt_idle lt; reservation_ttl := reservation_ttl lt;
     max_pending := max_pending lt |}.

(** ** Admission *)

Definition bucket_or_new (c : Check) (now : Z) (m : gmap BucketKey Bucket) : Bucket :=
  default (bucket_new (ck_limit c) now) (m !! ck_key c).

Definition short (c : Check) (b : Bucket) : bool := f64_lt (f64_add (tokens b) slack) (f64_of (ck_cost c)).

Definition wait_for (c : Check) (b : Bucket) : Z :=
  if ck_limit c <? ck_cost c then 60 else wait_secs (ck_cost c) b.

Definition denial_for (c : Check) (b : Bucket) : LimitDenial :=
  {| ld_code := code_for (bk_kind (ck_key c)) (bk_scope (ck_key c)) (bk_dim (ck_key c));
     ld_scope := bk_scope (ck_key c); ld_dim := bk_dim (ck_key c); ld_kind := bk_kind (ck_key c);
     ld_limit := ck_limit c; ld_requested := ck_cost c; retry_after_secs := wait_for c b;
     exceeds_capacity := ck_limit c <? ck_cost c |}.

(** The loop that refills every bucket and keeps the worst refusal. *)
Fixpoint probe (now : Z) (checks : list Check) (worst : option LimitDenial) (tb : TenantBuckets)
    : option LimitDenial * TenantBuckets :=
  match checks with
  | [] => (worst, tb)
  | c :: checks' =>
      let is_new := negb (is_some_b (bmap tb !! ck_key c)) in
      let b := refill (ck_limit c) now (bucket_or_new c now (bmap tb)) in
      let worst :=
        if short c b then
          match worst with
          | None => Some (denial_for c b)
          | Some w => if retry_after_secs w <? wait_for c b then Some (denial_for c b) else worst
          end
        else worst in
      probe now checks' worst
        {| bmap := <[ck_key c := b]> (bmap tb);
           tb_end_users := if is_new && is_end_user (ck_key c) then tb_end_users tb + 1 else tb_end_users tb |}
  end.

(** The loop that charges them. *)
Definition charge (now : Z) (checks : list Check) (m : gmap BucketKey Bucket) : gmap BucketKey Bucket :=
  foldl (λ m c, alter (debit (ck_cost c) now) (ck_key c) m) m checks.

Definition tpm_debits (checks : list Check) : list (BucketKey * Z) :=
  omap (λ c, if bool_decide (bk_kind (ck_key c) = Tpm) && (0 <? ck_cost c) then Some (ck_key c, ck_cost c) else None)
    checks.

Definition new_end_users (checks : list Check) (tb : TenantBuckets) : Z :=
  lenZ (filter (λ c, is_end_user (ck_key c) && negb (is_some_b (bmap tb !! ck_key c)) = true) checks).

Fixpoint first_end_user (checks : list Check) : Scope :=
  match checks with
  | [] => Workspace
  | c :: checks' => if is_end_user (ck_key c) then bk_scope (ck_key c) else first_end_user checks'
  end.

Definition admit_tenant (max_end_users idle : Z) (checks : list Check) (now : Z) (tb : TenantBuckets)
    : result (list (BucketKey * Z)) LimitDenial * TenantBuckets :=
  let n := new_end_users checks tb in
  let full tb := (0 <? n) && (max_end_users <? tb_end_users tb + n) in
  let tb' := if full tb then evict_idle now idle tb else tb in
  if full tb && full tb' then (Err (capacity_denial (first_end_user checks)), tb') else
  match probe now checks None tb' with
  | (Some w, tb) => (Err w, tb)
  | (None, tb) => (Ok (tpm_debits checks), {| bmap := charge now checks (bmap tb); tb_end_users := tb_end_users tb |})
  end.

Definition table_admit (t : bytes) (checks : list Check) (now : Z) (lt : LimitTable)
    : result (list (BucketKey * Z)) LimitDenial * LimitTable :=
  match checks with
  | [] => (Ok [], lt)
  | _ =>
      let '(r, tb) := admit_tenant (lt_max_end_users lt) (lt_idle lt) checks now
                        (default no_buckets (lt_tenants lt !! t)) in
      (r, set_buckets t tb lt)
  end.

Definition correct (n actual : Z) (b : Bucket) : Bucket :=
  set_tokens (f64_clamp (f64_add (tokens b) (f64_sub (f64_of n) (f64_of actual)))
                (f64_neg (bu_capacity b)) (bu_capacity b)) b.

Definition reconcile (r : Reservation) (actual : Z) (lt : LimitTable) : LimitTable :=
  match lt_tenants lt !! rv_tenant r with
  | None => lt
  | Some tb =>
      let m := foldl (λ m kn, alter (correct kn.2 actual) kn.1 m) (bmap tb) (debits r) in
      set_buckets (rv_tenant r) {| bmap := m; tb_end_users := tb_end_users tb |} lt
  end.

Definition fresh_at (now ttl : Z) (r : Reservation) : bool := sat_sub now (rv_at r) <? ttl.

Definition parked (m : gmap (bytes * bytes) (list Reservation)) : Z := map_sum (λ _ v, lenZ v) m.

Definition sweep (now : Z) (lt : LimitTable) : LimitTable :=
  let swept := filter (λ r, fresh_at now (reservation_ttl lt) r = true) <$> pending lt in
  let kept := filter (λ kv, kv.2 ≠ []) swept in
  let dropped := parked (pending lt) - parked swept in
  set_pending kept (pending_count lt - Z.min dropped (pending_count lt)) lt.

Definition set_at (now : Z) (r : Reservation) : Reservation :=
  {| rv_tenant := rv_tenant r; debits := debits r; rv_key_id := rv_key_id r; rv_model := rv_model r;
     rv_end_user := rv_end_user r; rv_at := now |}.

Definition park (trace_id : bytes) (r : Reservation) (now : Z) (lt : LimitTable) : LimitTable :=
  match debits r with
  | [] => lt
  | _ =>
      let full lt := max_pending lt <=? pending_count lt in
      let lt' := if full lt then sweep now lt else lt in
      if full lt && full lt' then lt' else
      let k := (rv_tenant r, trace_id) in
      set_pending (<[k := default [] (pending lt' !! k) ++ [set_at now r]]> (pending lt')) (pending_count lt' + 1) lt'
  end.

(** [v.iter().position(p)] and [v.remove(idx)]. *)
Fixpoint position {A} (p : A → bool) (v : list A) : option nat :=
  match v with
  | [] => None
  | x :: v' => if p x then Some 0%nat else S <$> position p v'
  end.

Definition same_key (key_id : option bytes) (r : Reservation) : bool := bool_decide (rv_key_id r = key_id).
Definition same_call (key_id model end_user : option bytes) (r : Reservation) : bool :=
  same_key key_id r && from_option (λ m, bool_decide (rv_model r = m)) true model
  && bool_decide (rv_end_user r = end_user).

Definition take (t trace_id : bytes) (key_id model end_user : option bytes) (lt : LimitTable)
    : option Reservation * LimitTable :=
  match pending lt !! (t, trace_id) with
  | None => (None, lt)
  | Some v =>
      let idx := match position (same_call key_id model end_user) v with
                 | Some i => Some i
                 | None => position (same_key key_id) v
                 end in
      match idx ≫= (λ i, (λ r, (i, r)) <$> v !! i) with
      | Some (i, r) =>
          let v' := delete i v in
          (Some r, set_pending (match v' with [] => delete (t, trace_id) (pending lt)
                                | _ => <[(t, trace_id) := v']> (pending lt) end) (pending_count lt - 1) lt)
      | None =>
          (None, set_pending (match v with [] => delete (t, trace_id) (pending lt) | _ => pending lt end)
                   (pending_count lt) lt)
      end
  end.

(** [reconcile_span]: [usage] is the span's input and output tokens, [failed] whether
    its status is an error. *)
Definition reconcile_span (t trace_id : bytes) (key_id model end_user : option bytes)
    (input output : option Z) (failed : bool) (lt : LimitTable) : LimitTable :=
  match take t trace_id key_id model end_user lt with
  | (None, lt) => lt
  | (Some r, lt) =>
      match input, output with
      | None, None => if failed then reconcile r 0 lt else lt
      | i, o => reconcile r (default 0 i + default 0 o) lt
      end
  end.

(** ** The cap on end-user ids *)

Definition MAX_TRACKED : Z := 100000.

Record EndUserCap := {
  ec_map : gmap (bytes * option bytes) (Z * gset Z);
  ec_cap : Z;
  ec_window : Z;
}.

Definition set_ec_map (m : gmap (bytes * option bytes) (Z * gset Z)) (e : EndUserCap) : EndUserCap :=
  {| ec_map := m; ec_cap := ec_cap e; ec_window := ec_window e |}.

(** Drop expired windows, then everything. *)
Definition make_room (now : Z) (e : EndUserCap) : gmap (bytes * option bytes) (Z * gset Z) :=
  if MAX_TRACKED <=? Z.of_nat (size (ec_map e)) then
    let kept := filter (λ kv, sat_sub now kv.2.1 < ec_window e) (ec_map e) in
    if MAX_TRACKED <=? Z.of_nat (size kept) then ∅ else kept
  else ec_map e.

Definition cap_admit (t : bytes) (key : option bytes) (end_user now : Z) (e : EndUserCap)
    : result unit Z * EndUserCap :=
  let m := make_room now e in
  let '(start, ids) := default (now, ∅) (m !! (t, key)) in
  let '(start, ids) := if ec_window e <=? sat_sub now start then (now, ∅) else (start, ids) in
  let put ids := set_ec_map (<[(t, key) := (start, ids)]> m) e in
  if bool_decide (end_user ∈ ids) then (Ok (), put ids)
  else if ec_cap e <=? Z.of_nat (size ids) then
    (Err (Z.max (sat_sub (ec_window e) (sat_sub now start) / 1000000000) 1), put ids)
  else (Ok (), put ({[end_user]} ∪ ids)).

(** ** The buckets of a request *)

Inductive TokenCost : Type := CostKnown (n : Z) | CostUnknown | NotCounted.

Fixpoint token_sum (default_reserve : Z) (ss : list Subject) (n : Z) : TokenCost :=
  match ss with
  | [] => CostKnown n
  | s :: ss' =>
      match su_input_tokens s with
      | Unknown => CostUnknown
      | i =>
          let n := match i with Known v => sat_add64 n v | _ => n end in
          match su_output_cap s with
          | Unknown => CostUnknown
          | Known (Some v) => token_sum default_reserve ss' (sat_add64 n v)
          | Known None => token_sum default_reserve ss' (sat_add64 n default_reserve)
          | NotApplicable => token_sum default_reserve ss' n
          end
      end
  end.

Definition token_cost (req : PolicyRequest) (default_reserve : Z) : TokenCost :=
  if existsb (λ s, is_some_b (su_line s)) (subjects req) then NotCounted
  else token_sum default_reserve (subjects req) 0.

Section checks.
Variable end_user_hash : bytes → Z.
Variable resolve : bytes → bool → Resolved.

(** Every name the request goes by, unless a model is unknown. *)
Fixpoint request_names (ss : list Subject) (names : option (list bytes)) : option (list bytes) :=
  match ss with
  | [] => names
  | s :: ss' =>
      request_names ss'
        (match su_model s with
         | Known m => let r := resolve m (su_workspace_alias s) in
                      (λ v, v ++ rs_names r ++ rs_allow_names r) <$> names
         | NotApplicable => names
         | Unknown => None
         end)
  end.

(** The [push] closure. *)
Definition push (cost : TokenCost) (o : Origin) (s : Scope) (d : Dim) (r : Rate) (rule : bytes) (checks : list Check)
    : result (list Check) Denial :=
  let key k := {| bk_scope := s; bk_dim := d; bk_kind := k |} in
  let checks := checks ++ from_option (λ n, [{| ck_key := key Rpm; ck_limit := n; ck_cost := 1 |}]) [] (rpm r) in
  match tpm r with
  | None => Ok checks
  | Some limit =>
      match cost with
      | CostKnown n => Ok (checks ++ [{| ck_key := key Tpm; ck_limit := limit; ck_cost := n |}])
      | NotCounted => Ok checks
      | CostUnknown => Err (unenforceable o rule None)
      end
  end.

Fixpoint push_models (cost : TokenCost) (o : Origin) (s : Scope) (names : list bytes) (ms : list ModelRate)
    (checks : list Check) : result (list Check) Denial :=
  match ms with
  | [] => Ok checks
  | m :: ms' =>
      let? checks := if existsb (λ n, deny_matches [mr_model m] n) names
                     then push cost o s (Model (mr_model m)) (mr_rate m) (lit "limits.per_model") checks
                     else Ok checks in
      push_models cost o s names ms' checks
  end.

Definition layer_checks (cost : TokenCost) (eu : option Z) (names : option (list bytes)) (o : Origin) (s : Scope)
    (l : Limits) (checks : list Check) : result (list Check) Denial :=
  let? checks := push cost o s All (l_rate l) (lit "limits.tpm") checks in
  let? checks := match per_end_user l, eu with
                 | Some r, Some h => push cost o s (EndUser h) r (lit "limits.per_end_user") checks
                 | _, _ => Ok checks
                 end in
  match per_model l with
  | [] => Ok checks
  | ms => match names with
          | None => Err (unenforceable o (lit "limits.per_model") None)
          | Some names => push_models cost o s names ms checks
          end
  end.

Definition limit_layers (workspace : option KeyPolicy) (g : option Governance) (key_id : option bytes)
    : list (Origin * Scope * Limits) :=
  from_option (λ l, [(OWorkspace, Workspace, l)]) [] (workspace ≫= limits)
  ++ from_option (λ g, omap (λ op, l ← limits op.2; s ← layer_scope (project_id g) key_id op.1; Some (op.1, s, l))
                         (policies g)) [] g.

Fixpoint layers_checks (cost : TokenCost) (eu : option Z) (names : option (list bytes))
    (ls : list (Origin * Scope * Limits)) (checks : list Check) : result (list Check) Denial :=
  match ls with
  | [] => Ok checks
  | (o, s, l) :: ls' =>
      let? checks := layer_checks cost eu names o s l checks in layers_checks cost eu names ls' checks
  end.

Definition limit_checks (workspace : option KeyPolicy) (g : option Governance) (key_id : option bytes)
    (request : PolicyRequest) (end_user : option bytes) (default_reserve : Z) : result (list Check) Denial :=
  layers_checks (token_cost request default_reserve) (end_user_hash <$> end_user)
    (request_names (subjects request) (Some [])) (limit_layers workspace g key_id) [].
End checks.
