(* ===== verification/LimitProofs.v ===== *)
(** * Rate limits: what an admission charges

    [table_admit] charges every bucket of a request or none; the table's own counters are
    exact; a span settles a reservation of its own key.  Ends with concrete runs. *)

From Stdlib Require Import ZArith Lia.
From stdpp Require Import base list option strings gmap.
From S2P Require Import Prelude Float64 Glob KeyPolicy Budgets Limits.
Local Open Scope Z_scope.

(** ** Probing and charging *)

(** The bucket a check is decided on. *)
Definition ready (now : Z) (m : gmap BucketKey Bucket) (c : Check) : Bucket :=
  refill (ck_limit c) now (bucket_or_new c now m).

Abbreviation keys checks := (ck_key <$> checks).

Lemma probe_worst_some now checks w tb : (probe now checks (Some w) tb).1 ≠ None.
Proof.
  revert w tb. induction checks as [|c checks IH]; intros w tb; [done|]. simpl.
  destruct (short c _); [|apply IH]. destruct (_ <? _); apply IH.
Qed.

Lemma bucket_or_new_insert c k b now m : ck_key c ≠ k → bucket_or_new c now (<[k := b]> m) = bucket_or_new c now m.
Proof. intros Hne. unfold bucket_or_new. by rewrite lookup_insert_ne. Qed.

Lemma probe_other now checks worst tb k :
  k ∉ keys checks → bmap (probe now checks worst tb).2 !! k = bmap tb !! k.
Proof.
  revert worst tb. induction checks as [|c checks IH]; intros worst tb Hk; [done|].
  apply not_elem_of_cons in Hk as [Hk1 Hk2]. simpl. rewrite IH by done. simpl. by rewrite lookup_insert_ne.
Qed.

Lemma probe_bucket now checks worst tb c :
  NoDup (keys checks) → c ∈ checks →
  bmap (probe now checks worst tb).2 !! ck_key c = Some (ready now (bmap tb) c).
Proof.
  revert worst tb. induction checks as [|c' checks IH]; intros worst tb Hnd Hc; [by apply not_elem_of_nil in Hc|].
  apply NoDup_cons in Hnd as [Hc' Hnd]. simpl. apply elem_of_cons in Hc as [->|Hc].
  - rewrite probe_other by done. simpl. by rewrite lookup_insert_eq.
  - rewrite IH by done. simpl. unfold ready. rewrite bucket_or_new_insert; [done|].
    intros E. apply Hc'. rewrite <- E. by apply list_elem_of_fmap_2.
Qed.

(** What is kept as the worst refusal: a check that does not fit, and none that does
    not waits longer. *)
Definition worst_of (now : Z) (m : gmap BucketKey Bucket) (checks : list Check) (w : LimitDenial) : Prop :=
  (∃ c, c ∈ checks ∧ short c (ready now m c) = true ∧ w = denial_for c (ready now m c)) ∧
  ∀ c, c ∈ checks → short c (ready now m c) = true → wait_for c (ready now m c) ≤ retry_after_secs w.

Lemma probe_worst now m0 done_ checks worst tb :
  NoDup (keys (done_ ++ checks)) → (∀ k, k ∉ keys done_ → bmap tb !! k = m0 !! k) →
  match worst with
  | None => ∀ c, c ∈ done_ → short c (ready now m0 c) = false
  | Some w => worst_of now m0 done_ w
  end →
  match (probe now checks worst tb).1 with
  | None => ∀ c, c ∈ done_ ++ checks → short c (ready now m0 c) = false
  | Some w => worst_of now m0 (done_ ++ checks) w
  end.
Proof.
  revert done_ worst tb. induction checks as [|c checks IH]; intros done_ worst tb Hnd Hm Hw; simpl.
  { by rewrite app_nil_r. }
  assert (ck_key c ∉ keys done_) as Hc.
  { rewrite fmap_app in Hnd. apply NoDup_app in Hnd as (_ & Hnd & _). intros Hin. apply (Hnd _ Hin).
    simpl. by left. }
  assert (refill (ck_limit c) now (bucket_or_new c now (bmap tb)) = ready now m0 c) as Hr.
  { unfold ready, bucket_or_new. by rewrite Hm. }
  rewrite Hr. replace (done_ ++ c :: checks) with ((done_ ++ [c]) ++ checks) in * by (by rewrite <- app_assoc).
  apply IH; [done| |].
  { intros k Hk. rewrite fmap_app, not_elem_of_app in Hk. destruct Hk as [Hk1 Hk2]. simpl in *.
    apply not_elem_of_cons in Hk2 as [Hk2 _]. rewrite lookup_insert_ne by done. by apply Hm. }
  destruct (short c (ready now m0 c)) eqn:Hs.
  - destruct worst as [w|].
    + destruct Hw as [(c1 & Hin & Hs1 & ->) Hmax]. destruct (Z.ltb_spec (retry_after_secs (denial_for c1 (ready now m0 c1))) (wait_for c (ready now m0 c))) as [Hlt|Hge].
      * split; [exists c; rewrite elem_of_app, list_elem_of_singleton; auto|].
        intros c2 [Hc2| ->%list_elem_of_singleton]%elem_of_app Hs2; [|simpl; lia]. specialize (Hmax c2 Hc2 Hs2). simpl in *. lia.
      * split; [exists c1; rewrite elem_of_app; auto|].
        intros c2 [Hc2| ->%list_elem_of_singleton]%elem_of_app Hs2; [by apply Hmax|done].
    + split; [exists c; rewrite elem_of_app, list_elem_of_singleton; auto|].
      intros c2 [Hc2| ->%list_elem_of_singleton]%elem_of_app Hs2; [|simpl; lia]. by rewrite (Hw c2 Hc2) in Hs2.
  - destruct worst as [w|].
    + destruct Hw as [(c1 & Hin & Hs1 & ->) Hmax]. split; [exists c1; rewrite elem_of_app; auto|].
      intros c2 [Hc2| ->%list_elem_of_singleton]%elem_of_app Hs2; [by apply Hmax|congruence].
    + intros c2 [Hc2| ->%list_elem_of_singleton]%elem_of_app; auto.
Qed.

Lemma charge_other now checks m k : k ∉ keys checks → charge now checks m !! k = m !! k.
Proof.
  unfold charge. revert m. induction checks as [|c checks IH]; intros m Hk; [done|].
  apply not_elem_of_cons in Hk as [Hk1 Hk2]. simpl. rewrite IH by done. by rewrite lookup_alter_ne.
Qed.

Lemma charge_bucket now checks m c :
  NoDup (keys checks) → c ∈ checks → charge now checks m !! ck_key c = debit (ck_cost c) now <$> m !! ck_key c.
Proof.
  unfold charge. revert m. induction checks as [|c' checks IH]; intros m Hnd Hc; [by apply not_elem_of_nil in Hc|].
  apply NoDup_cons in Hnd as [Hc' Hnd]. simpl. apply elem_of_cons in Hc as [->|Hc].
  - change (charge now checks (alter (debit (ck_cost c') now) (ck_key c') m) !! ck_key c' = debit (ck_cost c') now <$> m !! ck_key c').
    rewrite charge_other by done. by rewrite lookup_alter_eq.
  - rewrite IH by done. rewrite lookup_alter_ne; [done|]. intros E. apply Hc'. rewrite E. by apply list_elem_of_fmap_2.
Qed.

(** The buckets an admission decides on: idle ones are dropped first if the request
    brings end users there is no room for. *)
Definition room (lt : LimitTable) (t : bytes) (checks : list Check) (now : Z) : TenantBuckets :=
  let tb := default no_buckets (lt_tenants lt !! t) in
  let n := new_end_users checks tb in
  if (0 <? n) && (lt_max_end_users lt <? tb_end_users tb + n) then evict_idle now (lt_idle lt) tb else tb.

(** Even so the tenant's end users do not all fit. *)
Definition no_room (lt : LimitTable) (t : bytes) (checks : list Check) (now : Z) : Prop :=
  let n := new_end_users checks (default no_buckets (lt_tenants lt !! t)) in
  0 < n ∧ lt_max_end_users lt < tb_end_users (room lt t checks now) + n.

Definition bucket_at (lt : LimitTable) (t : bytes) (k : BucketKey) : option Bucket :=
  lt_tenants lt !! t ≫= λ tb, bmap tb !! k.

Lemma admit_spec t checks now lt :
  NoDup (keys checks) → checks ≠ [] →
  let m := bmap (room lt t checks now) in
  let lt' := (table_admit t checks now lt).2 in
  (match (table_admit t checks now lt).1 with
   | Ok ds =>
       ¬ no_room lt t checks now ∧ ds = tpm_debits checks ∧
       ∀ c, c ∈ checks → short c (ready now m c) = false ∧
         bucket_at lt' t (ck_key c) = Some (debit (ck_cost c) now (ready now m c))
   | Err w =>
       (no_room lt t checks now ∧ w = capacity_denial (first_end_user checks) ∧
        lt_tenants lt' !! t = Some (room lt t checks now)) ∨
       (¬ no_room lt t checks now ∧ worst_of now m checks w ∧
        ∀ c, c ∈ checks → bucket_at lt' t (ck_key c) = Some (ready now m c))
   end) ∧
  (∀ k, k ∉ keys checks → bucket_at lt' t k = m !! k) ∧
  (∀ t', t' ≠ t → lt_tenants lt' !! t' = lt_tenants lt !! t').
Proof.
  intros Hnd Hne m lt'. subst lt'. unfold table_admit. destruct checks as [|c0 checks0]; [done|].
  set (checks := c0 :: checks0) in *. clearbody checks. unfold admit_tenant. fold (room lt t checks now). cbv zeta.
  set (n := new_end_users checks _). set (tb0 := default no_buckets (lt_tenants lt !! t)).
  change (if (0 <? n) && (lt_max_end_users lt <? tb_end_users tb0 + n) then evict_idle now (lt_idle lt) tb0 else tb0)
    with (room lt t checks now).
  match goal with |- context [if ?b then (Err _, _) else _] => set (full := b) end.
  assert (full = true ↔ no_room lt t checks now) as Hfull.
  { subst full. unfold no_room, room. cbv zeta. fold tb0. change (new_end_users checks tb0) with n.
    destruct ((0 <? n) && (lt_max_end_users lt <? tb_end_users tb0 + n)) eqn:E; cbn [andb]; rewrite ?E; lia. }
  destruct full.
  { unfold bucket_at. simpl. rewrite lookup_insert_eq. simpl. split; [left; split_and!; [by apply Hfull|done|done]|].
    split; [done|]. intros t' Ht'. by rewrite lookup_insert_ne. }
  assert (¬ no_room lt t checks now) as Hroom by (by intros ?%Hfull).
  pose proof (probe_worst now m [] checks None (room lt t checks now) Hnd (λ _ _, eq_refl)) as Hw. cbn [app] in Hw.
  pose proof (probe_bucket now checks None (room lt t checks now)) as Hb.
  pose proof (probe_other now checks None (room lt t checks now)) as Ho.
  destruct (probe now checks None (room lt t checks now)) as [[w|] tb2]; unfold bucket_at;
    cbn [fst snd set_buckets lt_tenants bmap] in *; rewrite lookup_insert_eq; simpl.
  - split; [right; split_and!; [done|apply Hw; set_solver|by intros; apply Hb]|]. split; [exact Ho|].
    intros t' Ht'. by rewrite lookup_insert_ne.
  - split; [split_and!; [done|done|]|].
    + intros c Hc. split; [apply Hw; set_solver|]. rewrite charge_bucket by done. by rewrite Hb.
    + split; [|by intros; rewrite lookup_insert_ne]. intros k Hk. rewrite charge_other by done. by apply Ho.
Qed.

Lemma admit_charges t checks now lt ds lt' c :
  NoDup (keys checks) → table_admit t checks now lt = (Ok ds, lt') → c ∈ checks →
  ∃ b, short c b = false ∧ bucket_at lt' t (ck_key c) = Some (debit (ck_cost c) now b).
Proof.
  intros Hnd E Hc. destruct checks as [|c0 checks0]; [by apply not_elem_of_nil in Hc|].
  destruct (admit_spec t (c0 :: checks0) now lt Hnd ltac:(done)) as [Hs _]. rewrite E in Hs. cbn [fst snd] in Hs.
  destruct Hs as (_ & _ & Hs). destruct (Hs c Hc) as [H1 H2]. eauto.
Qed.

(** The answer, from the buckets and the room alone. *)
Lemma admit_ok_iff t checks now lt :
  NoDup (keys checks) → checks ≠ [] →
  (is_Some (ok (table_admit t checks now lt).1) ↔
   ¬ no_room lt t checks now ∧ ∀ c, c ∈ checks → short c (ready now (bmap (room lt t checks now)) c) = false).
Proof.
  intros Hnd Hne. destruct (admit_spec t checks now lt Hnd Hne) as [Hs _].
  destruct (table_admit t checks now lt).1 as [ds|w]; simpl.
  - destruct Hs as (Hr & _ & Hs). split; [|by eexists]. intros _. split; [done|]. intros c Hc. by apply Hs.
  - split; [by intros []|]. intros [Hr Hc]. destruct Hs as [[? _]|(_ & [(c & Hin & Hsh & _) _] & _)]; [done|].
    by rewrite Hc in Hsh.
Qed.

(** C9. A request charges every bucket or none.  For a request with one check per
    bucket: it is admitted exactly if the table has room for the end users it brings
    (idle buckets dropped first, if need be) and every bucket, refilled to now, holds its
    cost; then each of them is charged its cost once, and the token charges are what is
    returned to be reconciled.  If it is refused, no bucket is charged: with no room for
    its end user nothing is touched but idle buckets dropped, and otherwise each is just
    refilled and the refusal names a bucket that is short and for which the wait is the
    longest.  Buckets of other subjects (but dropped idle ones) and of other tenants stay
    as they are. *)
Theorem admit_all_or_nothing t checks now lt :
  NoDup (keys checks) → checks ≠ [] →
  let m := bmap (room lt t checks now) in
  let lt' := (table_admit t checks now lt).2 in
  (is_Some (ok (table_admit t checks now lt).1) ↔
   ¬ no_room lt t checks now ∧ ∀ c, c ∈ checks → short c (ready now m c) = false) ∧
  (match (table_admit t checks now lt).1 with
   | Ok ds =>
       ¬ no_room lt t checks now ∧ ds = tpm_debits checks ∧
       ∀ c, c ∈ checks → short c (ready now m c) = false ∧
         bucket_at lt' t (ck_key c) = Some (debit (ck_cost c) now (ready now m c))
   | Err w =>
       (no_room lt t checks now ∧ w = capacity_denial (first_end_user checks) ∧
        lt_tenants lt' !! t = Some (room lt t checks now)) ∨
       (¬ no_room lt t checks now ∧ worst_of now m checks w ∧
        ∀ c, c ∈ checks → bucket_at lt' t (ck_key c) = Some (ready now m c))
   end) ∧
  (∀ k, k ∉ keys checks → bucket_at lt' t k = m !! k) ∧
  (∀ t', t' ≠ t → lt_tenants lt' !! t' = lt_tenants lt !! t').
Proof. intros Hnd Hne. split; [by apply admit_ok_iff|by apply admit_spec]. Qed.

(** ** Runs of the table *)

Inductive LimitEvent : Type :=
  | LAdmit (t : bytes) (checks : list Check) (now : Z)
  | LPark (trace_id : bytes) (r : Reservation) (now : Z)
  | LSweep (now : Z)
  | LSpan (t trace_id : bytes) (key_id model end_user : option bytes) (input output : option Z) (failed : bool).

Definition lstep (ev : LimitEvent) (lt : LimitTable) : LimitTable :=
  match ev with
  | LAdmit t checks now => (table_admit t checks now lt).2
  | LPark trace_id r now => park trace_id r now lt
  | LSweep now => sweep now lt
  | LSpan t trace_id key_id model end_user input output failed =>
      reconcile_span t trace_id key_id model end_user input output failed lt
  end.

Definition lrun (evs : list LimitEvent) (lt : LimitTable) : LimitTable := foldl (λ lt ev, lstep ev lt) lt evs.

(** *** End users *)

Definition users (m : gmap BucketKey Bucket) : Z := map_sum (λ k _, if is_end_user k then 1 else 0) m.

Lemma users_insert k b m :
  users (<[k := b]> m) = users m + (if negb (is_some_b (m !! k)) && is_end_user k then 1 else 0).
Proof.
  unfold users. rewrite map_sum_insert. destruct (m !! k); simpl; destruct (is_end_user k); lia.
Qed.

Lemma users_alter f k m : users (alter f k m) = users m.
Proof.
  destruct (m !! k) as [b|] eqn:E; [|by rewrite alter_id'].
  replace (alter f k m) with (<[k := f b]> m).
  - rewrite users_insert, E. simpl. lia.
  - apply map_eq. intros k'. destruct (decide (k' = k)) as [->|Hne].
    + by rewrite lookup_insert_eq, lookup_alter_eq, E.
    + by rewrite lookup_insert_ne, lookup_alter_ne.
Qed.

Lemma users_charge now checks m : users (charge now checks m) = users m.
Proof.
  unfold charge. revert m. induction checks as [|c checks IH]; intros m; [done|]. simpl.
  rewrite IH. apply users_alter.
Qed.

Lemma users_nonneg m : 0 ≤ users m.
Proof. apply map_sum_nonneg. intros k v _. by destruct (is_end_user k). Qed.

Lemma users_evict now idle tb :
  tb_end_users tb = users (bmap tb) → tb_end_users (evict_idle now idle tb) = users (bmap (evict_idle now idle tb)).
Proof.
  intros Heq. unfold evict_idle. set (m := bmap tb) in *.
  set (kept := filter (λ kb, in_use now idle kb.2 = true) m).
  set (freed := filter (λ kb, negb (in_use now idle kb.2) && is_end_user kb.1 = true) m).
  assert (users m = users kept + Z.of_nat (size freed)) as Hsum.
  { unfold users, kept, freed. rewrite <- map_sum_size, !map_sum_filter, <- map_sum_add. apply map_sum_ext.
    intros k b _. simpl. destruct (in_use now idle b), (is_end_user k); simpl; repeat case_decide; naive_solver lia. }
  pose proof (users_nonneg kept). case_bool_decide as Hsz; simpl; [|unfold sat_sub; lia].
  assert (size freed = 0%nat); [|lia].
  assert (Z.of_nat (size freed) ≤ Z.of_nat (size m) - Z.of_nat (size kept)); [|lia].
  unfold kept, freed. rewrite <- !map_sum_size, !map_sum_filter.
  enough (map_sum (λ k b, (if decide (negb (in_use now idle (k, b).2) && is_end_user (k, b).1 = true) then 1 else 0)
    + if decide (in_use now idle (k, b).2 = true) then 1 else 0) m ≤ map_sum (λ _ _, 1) m) by (rewrite map_sum_add in *; lia).
  apply map_sum_le. intros k b _. simpl. destruct (in_use now idle b), (is_end_user k); simpl; repeat case_decide; naive_solver lia.
Qed.

Lemma evict_users_le now idle tb : users (bmap (evict_idle now idle tb)) ≤ users (bmap tb).
Proof.
  unfold evict_idle. set (kept := filter _ (bmap tb)). assert (users kept ≤ users (bmap tb)); [|by case_bool_decide].
  unfold users, kept. rewrite map_sum_filter. apply map_sum_le. intros k b _. case_decide; destruct (is_end_user k); lia.
Qed.

Definition user_checks (checks : list Check) : Z := lenZ (filter (λ c, is_end_user (ck_key c) = true) checks).

Lemma probe_users now checks worst tb :
  tb_end_users tb = users (bmap tb) →
  tb_end_users (probe now checks worst tb).2 = users (bmap (probe now checks worst tb).2) ∧
  users (bmap (probe now checks worst tb).2) ≤ users (bmap tb) + new_end_users checks tb.
Proof.
  revert worst tb. induction checks as [|c checks IH]; intros worst tb Heq; simpl; [split; [done|]; unfold new_end_users, lenZ; cbn; lia|].
  set (b := refill _ _ _). set (tb' := {| bmap := _; tb_end_users := _ |}).
  assert (tb_end_users tb' = users (bmap tb')) as Heq'.
  { subst tb'. simpl. rewrite users_insert, Heq. destruct (_ && _); lia. }
  destruct (IH (if short c b then match worst with None => Some (denial_for c b)
      | Some w => if retry_after_secs w <? wait_for c b then Some (denial_for c b) else worst end else worst) tb' Heq') as [H1 H2].
  split; [exact H1|]. etransitivity; [exact H2|]. subst tb'. simpl. rewrite users_insert.
  assert (new_end_users checks {| bmap := <[ck_key c := b]> (bmap tb);
      tb_end_users := if negb (is_some_b (bmap tb !! ck_key c)) && is_end_user (ck_key c) then tb_end_users tb + 1 else tb_end_users tb |}
    ≤ new_end_users checks tb) as Hmono.
  { unfold new_end_users. cbn [bmap]. clear. induction checks as [|c' checks IH]; [done|]. rewrite !filter_cons.
    assert (is_some_b (bmap tb !! ck_key c') = true → is_some_b (<[ck_key c:=b]> (bmap tb) !! ck_key c') = true) as Hs.
    { destruct (decide (ck_key c = ck_key c')) as [->|Hne]; [by rewrite lookup_insert_eq|by rewrite lookup_insert_ne]. }
    unfold lenZ in *. destruct (is_end_user (ck_key c')), (is_some_b (bmap tb !! ck_key c')), (is_some_b (<[ck_key c:=b]> (bmap tb) !! ck_key c'));
      simpl in *; try (by specialize (Hs eq_refl)); rewrite ?decide_True, ?decide_False by done; simpl; lia. }
  assert (new_end_users (c :: checks) tb = (if negb (is_some_b (bmap tb !! ck_key c)) && is_end_user (ck_key c) then 1 else 0) + new_end_users checks tb) as Hc.
  { unfold new_end_users. rewrite filter_cons. unfold lenZ.
    destruct (is_some_b (bmap tb !! ck_key c)), (is_end_user (ck_key c)); simpl; repeat case_decide; simpl; try done; lia. }
  rewrite Hc. lia.
Qed.

(** *** Reservations *)

Definition park_ok (k : bytes * bytes) (v : list Reservation) : Prop := v ≠ [] ∧ Forall (λ r, rv_tenant r = k.1) v.

Record limits_ok (mx K : Z) (lt : LimitTable) : Prop := {
  lo_max : lt_max_end_users lt = mx;
  lo_users : map_Forall (λ _ tb, tb_end_users tb = users (bmap tb) ∧ users (bmap tb) ≤ mx + (K - 1)) (lt_tenants lt);
  lo_parked : pending_count lt = parked (pending lt);
  lo_pending : pending_count lt ≤ max_pending lt;
  lo_queues : map_Forall park_ok (pending lt);
}.

(** A request has at most [K] checks of end users. *)
Definition event_fits (K : Z) (ev : LimitEvent) : Prop :=
  match ev with LAdmit _ checks _ => user_checks checks ≤ K | _ => True end.

Lemma new_end_users_le checks tb : 0 ≤ new_end_users checks tb ≤ user_checks checks.
Proof.
  unfold new_end_users, user_checks, lenZ. split; [lia|]. induction checks as [|c checks IH]; [done|].
  rewrite !filter_cons. destruct (is_end_user (ck_key c)), (is_some_b (bmap tb !! ck_key c)); simpl; repeat case_decide; simpl; try done; lia.
Qed.

Lemma admit_ok mx K t checks now lt :
  user_checks checks ≤ K → 0 ≤ mx → 1 ≤ K → limits_ok mx K lt → limits_ok mx K (table_admit t checks now lt).2.
Proof.
  intros HK Hmx HK1 [Hm Hu Hp Hq Hv]. unfold table_admit. destruct checks as [|c0 checks0]; [done|].
  set (checks := c0 :: checks0) in *. clearbody checks. unfold admit_tenant. rewrite Hm.
  set (tb0 := default no_buckets (lt_tenants lt !! t)).
  assert (tb_end_users tb0 = users (bmap tb0) ∧ users (bmap tb0) ≤ mx + (K - 1)) as [He0 Hb0].
  { subst tb0. destruct (lt_tenants lt !! t) as [tb|] eqn:E; [by apply (Hu _ _ E)|]. simpl. split; [done|].
    unfold users. rewrite map_sum_empty. lia. }
  cbv zeta. set (n := new_end_users checks tb0). set (tb1 := if _ && _ then evict_idle _ _ tb0 else tb0).
  assert (tb_end_users tb1 = users (bmap tb1) ∧ users (bmap tb1) ≤ mx + (K - 1)) as [He1 Hb1].
  { subst tb1. destruct (_ && _); [|done]. split; [by apply users_evict|].
    pose proof (evict_users_le now (lt_idle lt) tb0). lia. }
  destruct (probe_users now checks None tb1 He1) as [He2 Hb2].
  pose proof (new_end_users_le checks tb1) as Hn1. pose proof (new_end_users_le checks tb0) as Hn0.
  assert (n = 0 → tb1 = tb0) as Hz. { intros Hn. subst tb1. by rewrite Hn. }
  destruct (((0 <? n) && (mx <? tb_end_users tb0 + n)) && ((0 <? n) && (mx <? tb_end_users tb1 + n))) eqn:Hfull.
  { split; simpl; try done. apply map_Forall_insert_2; [done|exact Hu]. }
  assert (users (bmap (probe now checks None tb1).2) ≤ mx + (K - 1)) as Hb3.
  { destruct (decide (n = 0)) as [Hn|Hn]; [rewrite (Hz Hn) in *; fold n in Hb2; lia|].
    assert (tb_end_users tb1 + n ≤ mx); [|lia].
    subst tb1. destruct (Z.ltb_spec 0 n); [|lia]. simpl in *.
    destruct (Z.ltb_spec mx (tb_end_users tb0 + n)); simpl in *; [by apply Z.ltb_ge in Hfull|lia]. }
  destruct (probe now checks None tb1) as [[w|] tb2]; simpl in *; split; simpl; try done;
    (apply map_Forall_insert_2; [|exact Hu]); simpl; rewrite ?users_charge; done.
Qed.

Lemma parked_nonneg m : 0 ≤ parked m.
Proof. apply map_sum_nonneg. intros k v _. apply lenZ_nonneg. Qed.

Lemma sweep_ok mx K now lt : limits_ok mx K lt → limits_ok mx K (sweep now lt).
Proof.
  intros [Hm Hu Hp Hq Hv]. unfold sweep.
  set (f := filter (λ r, fresh_at now (reservation_ttl lt) r = true)).
  assert (parked (filter (λ kv, kv.2 ≠ []) (f <$> pending lt)) = parked (f <$> pending lt)) as Hk.
  { unfold parked. rewrite map_sum_filter. apply map_sum_ext. intros k v _. case_decide as Hd; [done|].
    simpl in Hd. by rewrite Hd. }
  assert (parked (f <$> pending lt) ≤ parked (pending lt)) as Hle.
  { unfold parked. rewrite map_sum_fmap. apply map_sum_le. intros k v _. unfold lenZ, f.
    pose proof (length_filter (λ r, fresh_at now (reservation_ttl lt) r = true) v). lia. }
  pose proof (parked_nonneg (f <$> pending lt)). split; simpl; try done.
  - rewrite Hk. lia.
  - lia.
  - intros k v. rewrite map_lookup_filter_Some. intros [E Hne]. split; [done|].
    rewrite lookup_fmap in E. destruct (pending lt !! k) as [v0|] eqn:E0; [|done]. simplify_eq/=.
    destruct (Hv _ _ E0) as [_ Hall]. apply Forall_forall. intros r0 [_ Hr0]%list_elem_of_filter.
    by eapply Forall_forall in Hall.
Qed.

Lemma park_step_ok mx K trace_id r now lt : limits_ok mx K lt → limits_ok mx K (park trace_id r now lt).
Proof.
  intros Hok. unfold park. destruct (debits r); [done|]. cbv zeta.
  set (lt1 := if _ <=? _ then sweep now lt else lt).
  assert (limits_ok mx K lt1) as Hok1 by (subst lt1; destruct (_ <=? _); [by apply sweep_ok|done]).
  destruct ((max_pending lt <=? pending_count lt) && (max_pending lt1 <=? pending_count lt1)) eqn:Hfull; [done|].
  assert (pending_count lt1 < max_pending lt1) as Hlt.
  { subst lt1. destruct (Z.leb_spec (max_pending lt) (pending_count lt)); simpl in *; [by apply Z.leb_gt|lia]. }
  destruct Hok1 as [Hm Hu Hp Hq Hv]. split; simpl; try done.
  - rewrite Hp. unfold parked. rewrite map_sum_insert, lenZ_app.
    destruct (pending lt1 !! (rv_tenant r, trace_id)); unfold lenZ; simpl; lia.
  - lia.
  - apply map_Forall_insert_2; [|exact Hv]. split; [by destruct (default _ _)|].
    apply Forall_app. split; [|by constructor].
    destruct (pending lt1 !! (rv_tenant r, trace_id)) as [v|] eqn:E; [|done]. by destruct (Hv _ _ E).
Qed.

Lemma limits_reconcile_ok mx K r actual lt : limits_ok mx K lt → limits_ok mx K (reconcile r actual lt).
Proof.
  intros [Hm Hu Hp Hq Hv]. unfold reconcile. destruct (lt_tenants lt !! rv_tenant r) as [tb|] eqn:E; [|done].
  split; simpl; try done. apply map_Forall_insert_2; [|exact Hu]. simpl.
  assert (∀ ds m, users (foldl (λ m kn, alter (correct kn.2 actual) kn.1 m) m ds) = users m) as Hf.
  { clear. induction ds as [|d ds IH]; intros m; [done|]. simpl. by rewrite IH, users_alter. }
  rewrite Hf. by apply (Hu _ _ E).
Qed.

(** *** Taking a reservation back *)

Lemma position_spec {A} (p : A → bool) v i : position p v = Some i → ∃ x, v !! i = Some x ∧ p x = true.
Proof.
  revert i. induction v as [|x v IH]; intros i; simpl; [done|]. destruct (p x) eqn:E.
  - intros [= <-]. by exists x.
  - destruct (position p v) as [j|]; [|done]. intros [= <-]. by apply IH.
Qed.

Lemma position_none {A} (p : A → bool) v : position p v = None ↔ ∀ x, x ∈ v → p x = false.
Proof.
  induction v as [|x v IH]; simpl; [by split; [intros _ ? ?%not_elem_of_nil|]|]. destruct (p x) eqn:E.
  - split; [done|]. intros Hall. rewrite Hall in E; [done|by left].
  - destruct (position p v) as [j|]; simpl.
    + split; [done|]. intros Hall. assert (Some j = None) as Hn; [|done].
      apply IH. intros y Hy. apply Hall. by right.
    + split; [|done]. intros _ y [->|Hy]%elem_of_cons; [done|]. by apply IH.
Qed.

Lemma take_found t trace_id key_id model end_user lt r lt' :
  take t trace_id key_id model end_user lt = (Some r, lt') →
  ∃ v i, pending lt !! (t, trace_id) = Some v ∧ v !! i = Some r ∧ rv_key_id r = key_id ∧
    ((∃ r', r' ∈ v ∧ same_call key_id model end_user r' = true) → same_call key_id model end_user r = true) ∧
    pending_count lt' = pending_count lt - 1 ∧
    pending lt' = match delete i v with [] => delete (t, trace_id) (pending lt)
                  | _ => <[(t, trace_id) := delete i v]> (pending lt) end ∧
    lt_tenants lt' = lt_tenants lt ∧ lt_max_end_users lt' = lt_max_end_users lt ∧ max_pending lt' = max_pending lt.
Proof.
  unfold take. destruct (pending lt !! (t, trace_id)) as [v|]; [|done].
  destruct (position (same_call key_id model end_user) v) as [i|] eqn:E1.
  - destruct (position_spec _ _ _ E1) as (x & Hx & Hp). simpl. rewrite Hx. simpl. intros [= <- <-].
    exists v, i. split_and!; try done. unfold same_call in Hp. apply andb_prop in Hp as [[Hp _]%andb_prop _].
    by apply bool_decide_eq_true in Hp.
  - destruct (position (same_key key_id) v) as [i|] eqn:E2; [|done].
    destruct (position_spec _ _ _ E2) as (x & Hx & Hp). simpl. rewrite Hx. simpl. intros [= <- <-].
    exists v, i. split_and!; try done; [by apply bool_decide_eq_true in Hp|].
    intros (r' & Hr' & Hs). apply position_none with (x := r') in E1; [congruence|done].
Qed.

Lemma take_none t trace_id key_id model end_user lt lt' :
  map_Forall park_ok (pending lt) → take t trace_id key_id model end_user lt = (None, lt') → lt' = lt.
Proof.
  intros Hv. unfold take. destruct (pending lt !! (t, trace_id)) as [v|] eqn:E; [|by intros [= <-]].
  destruct (match position _ v with Some i => Some i | None => _ end ≫= _) as [[i r]|]; [done|].
  destruct (Hv _ _ E) as [Hne _]. destruct v; [done|]. intros [= <-]. by destruct lt.
Qed.

Lemma take_ok mx K t trace_id key_id model end_user lt :
  limits_ok mx K lt → limits_ok mx K (take t trace_id key_id model end_user lt).2.
Proof.
  intros Hok. destruct (take t trace_id key_id model end_user lt) as [[r|] lt'] eqn:E; cycle 1.
  { simpl. by apply take_none in E as ->; [|apply Hok]. }
  destruct (take_found _ _ _ _ _ _ _ _ E) as (v & i & Hv & Hi & _ & _ & Hc & Hp & Ht & Hm & Hmp).
  destruct Hok as [Hm' Hu Hp' Hq Hall]. simpl.
  assert (lenZ (delete i v) = lenZ v - 1) as Hlen.
  { unfold lenZ. rewrite length_delete by (by eexists). apply lookup_lt_Some in Hi. lia. }
  assert (lenZ v + parked (delete (t, trace_id) (pending lt)) = parked (pending lt)) as Hsum.
  { unfold parked. rewrite map_sum_delete, Hv. simpl. lia. }
  split; rewrite ?Ht, ?Hm, ?Hmp; try done.
  - rewrite Hc, Hp', Hp. destruct (delete i v) as [|r1 v1] eqn:Ed.
    + unfold lenZ in Hlen. simpl in Hlen. unfold lenZ in *. lia.
    + unfold parked in *. rewrite map_sum_insert, Hv. simpl from_option. rewrite Hlen.
      rewrite map_sum_delete, Hv in Hsum. simpl in Hsum. lia.
  - lia.
  - rewrite Hp. destruct (delete i v) as [|r1 v1] eqn:Ed.
    + apply map_Forall_delete. exact Hall.
    + apply map_Forall_insert_2; [|exact Hall]. split; [done|]. rewrite <- Ed.
      destruct (Hall _ _ Hv) as [_ Hf]. by apply Forall_delete.
Qed.

Lemma span_ok mx K t trace_id key_id model end_user i o failed lt :
  limits_ok mx K lt → limits_ok mx K (reconcile_span t trace_id key_id model end_user i o failed lt).
Proof.
  intros Hok. pose proof (take_ok mx K t trace_id key_id model end_user lt Hok) as Ht. unfold reconcile_span.
  destruct (take _ _ _ _ _ _) as [[r|] lt']; [|done]. simpl in Ht.
  destruct i, o, failed; auto using limits_reconcile_ok.
Qed.

Lemma lrun_ok mx K evs lt :
  0 ≤ mx → 1 ≤ K → Forall (event_fits K) evs → limits_ok mx K lt → limits_ok mx K (lrun evs lt).
Proof.
  intros Hmx HK Hevs. revert lt. induction Hevs as [|ev evs Hev Hevs IH]; intros lt Hok; [done|]. simpl. apply IH.
  destruct ev; simpl; auto using admit_ok, park_step_ok, sweep_ok, span_ok.
Qed.

Lemma limits_new_ok mx K idle ttl mp : 0 ≤ mp → limits_ok mx K (limits_new mx idle ttl mp).
Proof. intros Hmp. split; simpl; try done; apply map_Forall_empty. Qed.

(** The table's own counts are exact and bounded: after any sequence of admissions,
    parked and swept reservations and recorded spans, the number of end-user buckets a
    tenant is charged with is the number it has, and exceeds the maximum by less than
    the checks of end users in one request; the count of parked reservations is the
    number parked, and never exceeds its maximum. *)
Theorem limit_table_bounded mx K idle ttl mp evs :
  0 ≤ mx → 1 ≤ K → 0 ≤ mp → Forall (event_fits K) evs →
  let lt := lrun evs (limits_new mx idle ttl mp) in
  pending_count lt = parked (pending lt) ∧ parked (pending lt) ≤ max_pending lt ∧
  ∀ t tb, lt_tenants lt !! t = Some tb → tb_end_users tb = users (bmap tb) ∧ users (bmap tb) < mx + K.
Proof.
  intros Hmx HK Hmp Hevs lt.
  destruct (lrun_ok mx K evs _ Hmx HK Hevs (limits_new_ok mx K idle ttl mp Hmp)) as [_ Hu Hp Hq _].
  fold lt in Hu, Hp, Hq. split; [done|]. split; [lia|]. intros t tb Ht. destruct (Hu _ _ Ht). split; [done|lia].
Qed.

Lemma park_parks trace_id r now lt :
  debits r ≠ [] → pending_count lt < max_pending lt →
  ∃ v, pending (park trace_id r now lt) !! (rv_tenant r, trace_id) = Some (v ++ [set_at now r]).
Proof.
  intros Hd Hlt. unfold park. destruct (debits r); [done|].
  replace (max_pending lt <=? pending_count lt) with false by lia. simpl. rewrite lookup_insert_eq. eauto.
Qed.

(** A span settles a reservation of its own key.  Whatever was admitted, parked and
    settled before: the reservation a recorded span takes back was parked by its own
    tenant and its own key - never by another key of the same trace - and by the same
    model and end user if the trace has one such; it leaves the queue, and nothing else
    does.  A reservation that was parked is there to be taken by its span. *)
Theorem span_takes_own_reservation mx K idle ttl mp evs t trace_id key_id model end_user :
  0 ≤ mx → 1 ≤ K → 0 ≤ mp → Forall (event_fits K) evs →
  let lt := lrun evs (limits_new mx idle ttl mp) in
  (∀ r lt', take t trace_id key_id model end_user lt = (Some r, lt') →
     rv_tenant r = t ∧ rv_key_id r = key_id ∧ parked (pending lt') = parked (pending lt) - 1 ∧
     ∃ v i, pending lt !! (t, trace_id) = Some v ∧ v !! i = Some r ∧
       default [] (pending lt' !! (t, trace_id)) = delete i v ∧
       (∀ k, k ≠ (t, trace_id) → pending lt' !! k = pending lt !! k) ∧
       ((∃ r', r' ∈ v ∧ same_call key_id model end_user r' = true) → same_call key_id model end_user r = true)) ∧
  (∀ r now, rv_tenant r = t → debits r ≠ [] → pending_count lt < max_pending lt →
     ∃ r', (take t trace_id (rv_key_id r) (Some (rv_model r)) (rv_end_user r) (park trace_id r now lt)).1 = Some r' ∧
       rv_key_id r' = rv_key_id r ∧ rv_model r' = rv_model r ∧ rv_end_user r' = rv_end_user r).
Proof.
  intros Hmx HK Hmp Hevs lt.
  pose proof (lrun_ok mx K evs _ Hmx HK Hevs (limits_new_ok mx K idle ttl mp Hmp)) as Hok. fold lt in Hok. split.
  - intros r lt' Ht. pose proof (take_ok mx K t trace_id key_id model end_user lt Hok) as Hok'. rewrite Ht in Hok'. cbn [snd] in Hok'.
    destruct (take_found _ _ _ _ _ _ _ _ Ht) as (v & i & Hv & Hi & Hkey & Hcall & Hc & Hp & _).
    destruct (lo_queues _ _ _ Hok _ _ Hv) as [_ Hten].
    split; [by eapply Forall_lookup_1 in Hten|]. split; [done|]. split.
    { rewrite <- (lo_parked _ _ _ Hok), <- (lo_parked _ _ _ Hok'). exact Hc. }
    exists v, i. split; [done|]. split; [done|]. rewrite Hp. split; [|split; [|done]].
    + destruct (delete i v); simpl; by rewrite ?lookup_delete_eq, ?lookup_insert_eq.
    + intros k Hk. destruct (delete i v); [by rewrite lookup_delete_ne|by rewrite lookup_insert_ne].
  - intros r now <- Hd Hlt. destruct (park_parks trace_id r now lt Hd Hlt) as [v Hv].
    assert (same_call (rv_key_id r) (Some (rv_model r)) (rv_end_user r) (set_at now r) = true) as Hs.
    { unfold same_call, same_key. simpl. by rewrite !bool_decide_true. }
    unfold take. rewrite Hv. destruct (position _ (v ++ [set_at now r])) as [i|] eqn:E.
    + destruct (position_spec _ _ _ E) as (r' & Hr' & Hs'). simpl. rewrite Hr'. simpl. exists r'. split; [done|].
      unfold same_call, same_key in Hs'. simpl in Hs'. rewrite !andb_true_iff, !bool_decide_eq_true in Hs'. tauto.
    + rewrite position_none in E. rewrite (E (set_at now r)) in Hs; [done|]. apply elem_of_app. right. by left.
Qed.

(** ** The buckets of a request *)

Section checks.
Variable end_user_hash : bytes → Z.
Variable resolve : bytes → bool → Resolved.

(** The rates of a layer that apply to a request, and to which bucket. *)
Definition layer_rules (eu : option Z) (names : option (list bytes)) (l : Limits) : list (Dim * Rate) :=
  (All, l_rate l)
  :: match per_end_user l, eu with Some r, Some h => [(EndUser h, r)] | _, _ => [] end
  ++ ((λ m, (Model (mr_model m), mr_rate m)) <$>
        filter (λ m, existsb (λ n, deny_matches [mr_model m] n) (default [] names) = true) (per_model l)).

Definition rule_checks (cost : TokenCost) (s : Scope) (dr : Dim * Rate) : list Check :=
  let key k := {| bk_scope := s; bk_dim := dr.1; bk_kind := k |} in
  from_option (λ n, [{| ck_key := key Rpm; ck_limit := n; ck_cost := 1 |}]) [] (rpm dr.2)
  ++ match tpm dr.2, cost with
     | Some n, CostKnown c => [{| ck_key := key Tpm; ck_limit := n; ck_cost := c |}]
     | _, _ => []
     end.

Definition unknown_tokens (cost : TokenCost) (dr : Dim * Rate) : bool :=
  match tpm dr.2, cost with Some _, CostUnknown => true | _, _ => false end.

(** A layer that cannot be enforced on the request. *)
Definition blocked (cost : TokenCost) (eu : option Z) (names : option (list bytes)) (l : Limits) : bool :=
  existsb (unknown_tokens cost) (layer_rules eu names l)
  || (negb (is_some_b names) && negb (bool_decide (per_model l = []))).

Lemma push_spec cost o s d r rule checks :
  ok (push cost o s d r rule checks) =
  if unknown_tokens cost (d, r) then None else Some (checks ++ rule_checks cost s (d, r)).
Proof.
  unfold push, unknown_tokens, rule_checks. simpl. destruct (tpm r), cost; simpl; by rewrite ?app_nil_r, <- ?app_assoc.
Qed.

Lemma ok_rbind {A B E} (x : result A E) (k : A → result B E) : ok (rbind x k) = ok x ≫= λ a, ok (k a).
Proof. by destruct x. Qed.

Lemma push_models_spec cost o s names ms checks :
  let rs := (λ m, (Model (mr_model m), mr_rate m)) <$>
              filter (λ m, existsb (λ n, deny_matches [mr_model m] n) names = true) ms in
  ok (push_models cost o s names ms checks) =
  if existsb (unknown_tokens cost) rs then None else Some (checks ++ (rs ≫= rule_checks cost s)).
Proof.
  revert checks. induction ms as [|m ms IH]; intros checks; simpl; [by rewrite app_nil_r|]. rewrite ok_rbind, filter_cons.
  destruct (existsb (λ n, deny_matches [mr_model m] n) names) eqn:E.
  - rewrite decide_True by done. rewrite push_spec. simpl. destruct (unknown_tokens cost _); simpl; [done|].
    rewrite IH. simpl. destruct (existsb (unknown_tokens cost) _); [done|]. by rewrite <- app_assoc.
  - rewrite decide_False by done. simpl. apply IH.
Qed.

Lemma layer_checks_spec cost eu names o s l checks :
  ok (layer_checks cost eu names o s l checks) =
  if blocked cost eu names l then None else Some (checks ++ (layer_rules eu names l ≫= rule_checks cost s)).
Proof.
  unfold layer_checks, blocked, layer_rules. rewrite ok_rbind, push_spec. cbn [existsb]. simpl mbind.
  destruct (unknown_tokens cost (All, l_rate l)); [done|]. cbn [mbind option_bind orb]. rewrite ok_rbind.
  rewrite existsb_app, bind_app.
  set (eur := match per_end_user l with Some r => match eu with Some h => [(EndUser h, r)] | None => [] end | None => [] end).
  assert (ok (match per_end_user l with
    | Some r => match eu with
       | Some h => push cost o s (EndUser h) r (lit "limits.per_end_user") (checks ++ rule_checks cost s (All, l_rate l))
       | None => Ok (checks ++ rule_checks cost s (All, l_rate l)) end
    | None => Ok (checks ++ rule_checks cost s (All, l_rate l)) end) =
    if existsb (unknown_tokens cost) eur then None
    else Some ((checks ++ rule_checks cost s (All, l_rate l)) ++ (eur ≫= rule_checks cost s))) as ->.
  { subst eur. destruct (per_end_user l), eu; simpl; rewrite ?push_spec, ?orb_false_r, ?app_nil_r; try done. }
  destruct (existsb (unknown_tokens cost) eur); [done|]. cbn [mbind option_bind orb].
  destruct (per_model l) as [|m ms] eqn:Em.
  { simpl. rewrite andb_false_r. simpl. by rewrite app_nil_r, <- app_assoc. }
  rewrite bool_decide_false by done. destruct names as [names|]; simpl negb; cbn [andb default from_option id].
  - rewrite orb_false_r.
    pose proof (push_models_spec cost o s names (m :: ms)
      ((checks ++ rule_checks cost s (All, l_rate l)) ++ (eur ≫= rule_checks cost s))) as Hp.
    cbv zeta in Hp. cbn [push_models] in Hp. rewrite Hp. destruct (existsb (unknown_tokens cost) _); [done|].
    by rewrite <- !app_assoc.
  - by rewrite orb_true_r.
Qed.

Lemma layers_checks_spec cost eu names ls checks :
  ok (layers_checks cost eu names ls checks) =
  if existsb (λ x, blocked cost eu names x.2) ls then None
  else Some (checks ++ (ls ≫= λ x, layer_rules eu names x.2 ≫= rule_checks cost x.1.2)).
Proof.
  revert checks. induction ls as [|[[o s] l] ls IH]; intros checks; simpl; [by rewrite app_nil_r|].
  rewrite ok_rbind, layer_checks_spec. destruct (blocked cost eu names l); simpl; [done|].
  rewrite IH. destruct (existsb _ ls); [done|]. by rewrite <- app_assoc.
Qed.

(** *** One check per bucket *)

Lemma rule_checks_keys cost s dr c :
  c ∈ rule_checks cost s dr → bk_scope (ck_key c) = s ∧ bk_dim (ck_key c) = dr.1.
Proof.
  unfold rule_checks. rewrite elem_of_app. intros [Hc|Hc].
  - destruct (rpm dr.2); simpl in Hc; [|by apply not_elem_of_nil in Hc]. by apply list_elem_of_singleton in Hc as ->.
  - destruct (tpm dr.2), cost; try (by apply not_elem_of_nil in Hc). by apply list_elem_of_singleton in Hc as ->.
Qed.

Lemma rule_checks_NoDup cost s dr : NoDup (keys (rule_checks cost s dr)).
Proof.
  unfold rule_checks. destruct (rpm dr.2), (tpm dr.2), cost; simpl;
    repeat (apply NoDup_cons; split; [rewrite ?list_elem_of_singleton; try apply not_elem_of_nil; congruence|]); apply NoDup_nil_2.
Qed.

Lemma rules_NoDup cost s rs : NoDup (rs.*1) → NoDup (keys (rs ≫= rule_checks cost s)).
Proof.
  induction rs as [|dr rs IH]; [intros; apply NoDup_nil_2|]. simpl. intros [Hd Hnd]%NoDup_cons.
  rewrite fmap_app. apply NoDup_app. split; [apply rule_checks_NoDup|]. split; [|by apply IH].
  intros k (c & -> & Hc)%list_elem_of_fmap (c' & E & Hc')%list_elem_of_fmap.
  apply list_elem_of_bind in Hc' as (dr' & Hc' & Hin). apply rule_checks_keys in Hc as [_ H1], Hc' as [_ H2].
  apply Hd. rewrite E, H2 in H1. rewrite <- H1. by apply list_elem_of_fmap_2.
Qed.

Lemma layer_rules_NoDup eu names l : NoDup (mr_model <$> per_model l) → NoDup ((layer_rules eu names l).*1).
Proof.
  intros Hnd. unfold layer_rules. set (ms := filter _ (per_model l)).
  assert (NoDup ((λ m, Model (mr_model m)) <$> ms)) as Hms.
  { assert (NoDup (mr_model <$> ms)) as Hm.
    { subst ms. clear -Hnd. induction (per_model l) as [|m ml IH]; [done|]. apply NoDup_cons in Hnd as [Hm Hnd].
      rewrite filter_cons. case_decide; [|by apply IH]. apply NoDup_cons. split; [|by apply IH].
      intros (m' & E & Hin)%list_elem_of_fmap. apply Hm. rewrite E. apply list_elem_of_fmap_2.
      by apply list_elem_of_filter in Hin as [_ ?]. }
    replace ((λ m, Model (mr_model m)) <$> ms) with (Model <$> (mr_model <$> ms)) by (by rewrite <- list_fmap_compose).
    apply NoDup_fmap_2; [|done]. by intros ? ? [= ->]. }
  rewrite fmap_cons, fmap_app, <- list_fmap_compose. simpl. apply NoDup_cons. split.
  - rewrite elem_of_app. intros [Hin|(m & ? & _)%list_elem_of_fmap]; [|done].
    destruct (per_end_user l), eu; simpl in Hin; try (by apply not_elem_of_nil in Hin). by apply list_elem_of_singleton in Hin.
  - apply NoDup_app. split; [|split; [|exact Hms]].
    + destruct (per_end_user l), eu; simpl; try apply NoDup_nil_2. apply NoDup_singleton.
    + intros d Hin (m & -> & _)%list_elem_of_fmap.
      destruct (per_end_user l), eu; simpl in Hin; try (by apply not_elem_of_nil in Hin). by apply list_elem_of_singleton in Hin.
Qed.

Definition layers_rules (cost : TokenCost) (eu : option Z) (names : option (list bytes)) (x : Origin * Scope * Limits)
    : list Check := layer_rules eu names x.2 ≫= rule_checks cost x.1.2.

Lemma layers_rules_scope cost eu names x c : c ∈ layers_rules cost eu names x → bk_scope (ck_key c) = x.1.2.
Proof. intros (dr & Hc & _)%list_elem_of_bind. by apply rule_checks_keys in Hc as [? _]. Qed.

Lemma layers_NoDup cost eu names ls :
  NoDup ((λ x, x.1.2) <$> ls) → (∀ x, x ∈ ls → NoDup (mr_model <$> per_model x.2)) →
  NoDup (keys (ls ≫= layers_rules cost eu names)).
Proof.
  induction ls as [|x ls IH]; intros Hs Hm; [apply NoDup_nil_2|].
  change (NoDup (x.1.2 :: ((λ x, x.1.2) <$> ls))) in Hs. apply NoDup_cons in Hs as [Hs Hnd].
  change (NoDup (keys (layers_rules cost eu names x ++ (ls ≫= layers_rules cost eu names)))).
  rewrite fmap_app. apply NoDup_app. split; [|split].
  - apply rules_NoDup, layer_rules_NoDup, Hm. by left.
  - intros k (c & -> & Hc)%list_elem_of_fmap (c' & E & Hc')%list_elem_of_fmap. apply Hs.
    apply list_elem_of_bind in Hc' as (y & Hc' & Hy). apply layers_rules_scope in Hc, Hc'.
    rewrite <- Hc, E, Hc'. by apply (list_elem_of_fmap_2 (λ x : Origin * Scope * Limits, x.1.2)).
  - apply IH; [done|]. intros y Hy. apply Hm. by right.
Qed.

(** With one layer per scope and one rate per model pattern - which is what stored
    policies have - a request has one check per bucket. *)
Lemma limit_checks_NoDup workspace g key_id request end_user reserve checks :
  limit_checks end_user_hash resolve workspace g key_id request end_user reserve = Ok checks →
  NoDup ((λ x, x.1.2) <$> limit_layers workspace g key_id) →
  (∀ x, x ∈ limit_layers workspace g key_id → NoDup (mr_model <$> per_model x.2)) → NoDup (keys checks).
Proof.
  unfold limit_checks. intros Hc Hs Hm.
  pose proof (layers_checks_spec (token_cost request reserve) (end_user_hash <$> end_user)
    (request_names resolve (subjects request) (Some [])) (limit_layers workspace g key_id) []) as Hspec.
  rewrite Hc in Hspec. destruct (existsb _ _); [done|].
  assert (checks = limit_layers workspace g key_id ≫= layers_rules (token_cost request reserve) (end_user_hash <$> end_user)
    (request_names resolve (subjects request) (Some []))) as -> by (by injection Hspec).
  by apply layers_NoDup.
Qed.

(** Every limit of every layer is checked, and fails closed.  A request is given
    its buckets exactly if no layer has a token limit that applies while its tokens
    cannot be estimated, nor a model limit while its models are not known; and then the
    buckets are exactly those of the rates that apply: the workspace's, project's and
    key's own rate, the end user's, and each model rate whose pattern matches a name
    the request goes by, its provider-facing names included - one request each, and
    the tokens of the estimate. *)
Theorem limit_checks_exact workspace g key_id request end_user reserve :
  let cost := token_cost request reserve in
  let eu := end_user_hash <$> end_user in
  let names := request_names resolve (subjects request) (Some []) in
  let layers := limit_layers workspace g key_id in
  match limit_checks end_user_hash resolve workspace g key_id request end_user reserve with
  | Err _ => ∃ o s l, (o, s, l) ∈ layers ∧
      ((per_model l ≠ [] ∧ names = None) ∨
       ∃ d r, (d, r) ∈ layer_rules eu names l ∧ is_Some (tpm r) ∧ cost = CostUnknown)
  | Ok checks =>
      (∀ o s l, (o, s, l) ∈ layers → (per_model l ≠ [] → is_Some names) ∧
        ∀ d r, (d, r) ∈ layer_rules eu names l → is_Some (tpm r) → cost ≠ CostUnknown) ∧
      ∀ c, c ∈ checks ↔ ∃ o s l d r, (o, s, l) ∈ layers ∧ (d, r) ∈ layer_rules eu names l ∧
        bk_scope (ck_key c) = s ∧ bk_dim (ck_key c) = d ∧
        match bk_kind (ck_key c) with
        | Rpm => rpm r = Some (ck_limit c) ∧ ck_cost c = 1
        | Tpm => tpm r = Some (ck_limit c) ∧ cost = CostKnown (ck_cost c)
        end
  end.
Proof.
  intros cost eu names layers. unfold limit_checks. fold cost eu names layers.
  pose proof (layers_checks_spec cost eu names layers []) as Hs.
  destruct (layers_checks cost eu names layers []) as [checks|d] eqn:E; cbn [ok app] in Hs;
    destruct (existsb (λ x, blocked cost eu names x.2) layers) eqn:Eb; try done.
  - injection Hs as ->. split.
    + intros o s l Hl. apply not_true_iff_false in Eb. rewrite existsb_elem_of in Eb.
      assert (blocked cost eu names l = false) as Hb.
      { apply not_true_iff_false. intros Hb. apply Eb. by exists (o, s, l). }
      unfold blocked in Hb. apply orb_false_elim in Hb as [Hb1 Hb2]. split.
      * intros Hm. rewrite bool_decide_false in Hb2 by done. destruct names; [done|]. discriminate Hb2.
      * intros d r Hdr [n Hn] Hc. apply not_true_iff_false in Hb1. apply Hb1, existsb_elem_of.
        exists (d, r). split; [done|]. unfold unknown_tokens. simpl. by rewrite Hn, Hc.
    + intros c. rewrite list_elem_of_bind. split.
      * intros ([[o s] l] & Hc & Hl). 
        destruct (proj1 (list_elem_of_bind (rule_checks cost s) c (layer_rules eu names l)) Hc) as ([d r] & Hc' & Hdr).
        clear Hc. rename Hc' into Hc. exists o, s, l, d, r. split; [done|]. split; [done|].
        unfold rule_checks in Hc. simpl in Hc. apply elem_of_app in Hc as [Hc|Hc].
        -- destruct (rpm r); simpl in Hc; [|by apply not_elem_of_nil in Hc]. apply list_elem_of_singleton in Hc as ->. done.
        -- destruct (tpm r), cost; try (by apply not_elem_of_nil in Hc). apply list_elem_of_singleton in Hc as ->. done.
      * intros (o & s & l & d & r & Hl & Hdr & <- & <- & Hk). exists (o, bk_scope (ck_key c), l). split; [|done].
        apply (proj2 (list_elem_of_bind (rule_checks cost (bk_scope (ck_key c))) c (layer_rules eu names l))).
        exists (bk_dim (ck_key c), r). split; [|done]. unfold rule_checks. simpl. apply elem_of_app.
        destruct c as [[s' d' k] limit co]. simpl in *. destruct k; destruct Hk as [-> Hc]; simplify_eq; [left|right]; simpl.
        -- by left.
        -- rewrite Hc. by left.
  - apply existsb_elem_of in Eb as ([[o s] l] & Hl & Hb). exists o, s, l. split; [done|]. simpl in Hb.
    unfold blocked in Hb. apply orb_true_iff in Hb as [Hb|Hb].
    + right. apply existsb_elem_of in Hb as ([d' r] & Hdr & Hu). exists d', r. split; [done|].
      unfold unknown_tokens in Hu. simpl in Hu. destruct (tpm r), cost; done.
    + left. apply andb_prop in Hb as [H1 H2]. apply negb_true_iff, bool_decide_eq_false in H2. split; [done|].
      by destruct names.
Qed.
End checks.

(** ** The cap on end-user ids *)

(** The ids counted for a key at [now]. *)
Definition counted (now : Z) (e : EndUserCap) (t : bytes) (key : option bytes) : gset Z :=
  match make_room now e !! (t, key) with
  | Some (start, ids) => if ec_window e <=? sat_sub now start then ∅ else ids
  | None => ∅
  end.

Definition cap_ok (e : EndUserCap) : Prop :=
  map_Forall (λ _ si, Z.of_nat (size si.2) ≤ ec_cap e) (ec_map e).

Lemma make_room_ok now e : cap_ok e → map_Forall (λ _ si, Z.of_nat (size si.2) ≤ ec_cap e) (make_room now e).
Proof.
  intros Hok. unfold make_room. destruct (_ <=? _); [|exact Hok]. destruct (_ <=? _); [apply map_Forall_empty|].
  intros k v. rewrite map_lookup_filter_Some. intros [E _]. exact (Hok _ _ E).
Qed.

(** An id the key already brought in this window is admitted, a new one exactly if the
    key is below its cap; a key never has more ids than the cap. *)
Theorem cap_admit_exact t key u now e :
  cap_ok e → 0 < ec_cap e →
  cap_ok (cap_admit t key u now e).2 ∧
  ((cap_admit t key u now e).1 = Ok () ↔
   u ∈ counted now e t key ∨ Z.of_nat (size (counted now e t key)) < ec_cap e).
Proof.
  intros Hok Hcap. pose proof (make_room_ok now e Hok) as Hm. unfold cap_admit, counted.
  set (m := make_room now e) in *.
  destruct (default (now, ∅) (m !! (t, key))) as [start0 ids0] eqn:Ed.
  assert (Z.of_nat (size ids0) ≤ ec_cap e) as H0.
  { destruct (m !! (t, key)) as [[s i]|] eqn:E; simpl in Ed; simplify_eq; [by apply (Hm _ _ E)|].
    rewrite size_empty. lia. }
  destruct (if ec_window e <=? sat_sub now start0 then (now, ∅) else (start0, ids0)) as [start ids] eqn:Ei.
  assert (Z.of_nat (size ids) ≤ ec_cap e) as H1.
  { destruct (_ <=? _); simplify_eq; [rewrite size_empty; lia|done]. }
  assert (match m !! (t, key) with Some (s, i) => if ec_window e <=? sat_sub now s then ∅ else i | None => ∅ end = ids) as ->.
  { destruct (m !! (t, key)) as [[s i]|]; simpl in Ed; simplify_eq; destruct (_ <=? _); by simplify_eq. }
  assert (∀ i, Z.of_nat (size i) ≤ ec_cap e → cap_ok (set_ec_map (<[(t, key) := (start, i)]> m) e)) as Hput.
  { intros i Hi. apply map_Forall_insert_2; [exact Hi|exact Hm]. }
  case_bool_decide as Hu; [split; [by apply Hput|]; split; [by left|done]|].
  destruct (Z.leb_spec (ec_cap e) (Z.of_nat (size ids))) as [Hfull|Hroom]; (split; [apply Hput; try done|]).
  - split; [done|]. intros [?|?]; [done|lia].
  - rewrite size_union by set_solver. rewrite size_singleton. lia.
  - split; [by right|done].
Qed.

(** The set of windows is emptied when it is full of live ones, so an id the cap had
    refused is then admitted. *)
Theorem cap_forgets t key u now e start ids :
  MAX_TRACKED ≤ Z.of_nat (size (ec_map e)) →
  (∀ k v, ec_map e !! k = Some v → sat_sub now v.1 < ec_window e) → 0 < ec_cap e →
  ec_map e !! (t, key) = Some (start, ids) → u ∉ ids → Z.of_nat (size ids) = ec_cap e →
  (cap_admit t key u now e).1 = Ok ().
Proof.
  intros Hsz Hlive Hcap _ _ _. unfold cap_admit, make_room.
  replace (filter _ (ec_map e)) with (ec_map e).
  2: { symmetry. apply map_filter_id. intros k v E. by apply (Hlive k v). }
  replace (MAX_TRACKED <=? Z.of_nat (size (ec_map e))) with true by lia. rewrite lookup_empty. simpl.
  destruct (ec_window e <=? _); rewrite bool_decide_false by set_solver;
    rewrite size_empty; (destruct (Z.leb_spec (ec_cap e) (Z.of_nat 0)); [lia|done]).
Qed.

(** ** Concrete runs *)

Definition one_key (s : Scope) (d : Dim) (k : Kind) : BucketKey := {| bk_scope := s; bk_dim := d; bk_kind := k |}.
Definition a_check (s : Scope) (d : Dim) (k : Kind) (limit cost : Z) : Check :=
  {| ck_key := one_key s d k; ck_limit := limit; ck_cost := cost |}.
Definition acme_id : bytes := lit "acme".

(** A request of 40 tokens under a workspace limit of 100 and a key limit of 50. *)
Definition request_checks : list Check :=
  [a_check Workspace All Tpm 100 40; a_check (Key (lit "k")) All Tpm 50 40; a_check (Key (lit "k")) (EndUser 7) Rpm 3 1].

Lemma admit_all_or_nothing_witness :
  let lt := limits_new 10 1000 1000 10 in
  let lt1 := (table_admit acme_id request_checks 5 lt).2 in
  (table_admit acme_id request_checks 5 lt).1 = Ok (tpm_debits request_checks) ∧
  bucket_at lt1 acme_id (one_key Workspace All Tpm)
    = Some (debit 40 5 (ready 5 ∅ (a_check Workspace All Tpm 100 40))) ∧
  (* the second request finds 10 tokens in the key's bucket: the workspace's keeps its 60 *)
  bucket_at (table_admit acme_id request_checks 5 lt1).2 acme_id (one_key Workspace All Tpm)
    = Some (ready 5 (bmap (room lt1 acme_id request_checks 5)) (a_check Workspace All Tpm 100 40)).
Proof.
  assert (NoDup (keys request_checks)) as Hnd by (apply (bool_decide_unpack _); vm_compute; exact I).
  assert (request_checks ≠ []) as Hne by done.
  assert (a_check Workspace All Tpm 100 40 ∈ request_checks) as Hin by (by left). cbv zeta.
  set (lt := limits_new 10 1000 1000 10). set (lt1 := (table_admit acme_id request_checks 5 lt).2).
  assert ((table_admit acme_id request_checks 5 lt).1 = Ok (tpm_debits request_checks)) as H1 by (vm_compute; reflexivity).
  assert (¬ is_Some (ok (table_admit acme_id request_checks 5 lt1).1)) as H2 by (vm_compute; by intros [? ?]).
  assert (match (table_admit acme_id request_checks 5 lt1).1 with Err w => bool_decide (ld_code w = end_user_limit_capacity) | _ => false end = false)
    as H3 by (vm_compute; reflexivity).
  split; [exact H1|]. split.
  - destruct (admit_all_or_nothing acme_id request_checks 5 lt Hnd Hne) as (_ & Hr & _). rewrite H1 in Hr.
    destruct Hr as (_ & _ & Hr). apply (Hr _ Hin).
  - destruct (admit_all_or_nothing acme_id request_checks 5 lt1 Hnd Hne) as (_ & Hr & _).
    destruct (table_admit acme_id request_checks 5 lt1).1 as [ds|w] eqn:E; [by destruct H2|].
    destruct Hr as [(_ & -> & _)|(_ & _ & Hr)]; [|exact (Hr _ Hin)]. exfalso. discriminate H3.
Defined.

Definition a_reservation (key model : string) : Reservation :=
  {| rv_tenant := acme_id; debits := [(one_key Workspace All Tpm, 40)]; rv_key_id := Some (lit key);
     rv_model := lit model; rv_end_user := None; rv_at := 0 |}.

(** Two keys share a trace. *)
Definition shared_trace : list LimitEvent :=
  [LAdmit acme_id request_checks 5; LPark (lit "tr") (a_reservation "k" "gpt") 5;
   LAdmit acme_id request_checks 6; LPark (lit "tr") (a_reservation "other" "gpt") 6].

Lemma shared_trace_fits : Forall (event_fits 6) shared_trace.
Proof. repeat constructor; vm_compute; discriminate. Qed.

Lemma limit_table_bounded_witness :
  pending_count (lrun shared_trace (limits_new 10 1000 1000 10)) = 2 ∧
  parked (pending (lrun shared_trace (limits_new 10 1000 1000 10))) ≤ 10.
Proof.
  destruct (limit_table_bounded 10 6 1000 1000 10 shared_trace ltac:(lia) ltac:(lia) ltac:(lia) shared_trace_fits) as (H1 & H2 & _).
  split; [vm_compute; reflexivity|exact H2].
Defined.

Lemma span_takes_own_reservation_witness :
  (λ r, rv_key_id r) <$>
    (take acme_id (lit "tr") (Some (lit "other")) (Some (lit "renamed")) None
       (lrun shared_trace (limits_new 10 1000 1000 10))).1 = Some (Some (lit "other")).
Proof.
  destruct (span_takes_own_reservation 10 6 1000 1000 10 shared_trace acme_id (lit "tr") (Some (lit "other"))
    (Some (lit "renamed")) None ltac:(lia) ltac:(lia) ltac:(lia) shared_trace_fits) as [Ht _].
  assert (is_some_b (take acme_id (lit "tr") (Some (lit "other")) (Some (lit "renamed")) None
    (lrun shared_trace (limits_new 10 1000 1000 10))).1 = true) as Hs by (vm_compute; reflexivity).
  destruct (take acme_id _ _ _ _ _) as [[r|] lt']; [|discriminate Hs].
  destruct (Ht r lt' eq_refl) as (_ & Hk & _). simpl. by rewrite Hk.
Defined.

(** ** A defect

    The room for a request's new end-user buckets is counted before idle buckets are
    dropped; those of its end-user buckets that are dropped and made again are not in
    the count.  One request of one end user, under a limit of the workspace it met two
    seconds ago and one of its key it has not met, gives a table for one end-user
    bucket two of them. *)
Definition idle_then_new : list LimitEvent :=
  [LAdmit acme_id [a_check Workspace (EndUser 7) Rpm 3 1] 0;
   LAdmit acme_id [a_check Workspace (EndUser 7) Rpm 3 1; a_check (Key (lit "k")) (EndUser 7) Rpm 3 1] 2000].

Theorem end_user_bound_exceeded :
  (λ tb, users (bmap tb)) <$> lt_tenants (lrun idle_then_new (limits_new 1 1000 1000 10)) !! acme_id = Some 2.
Proof. vm_compute. reflexivity. Qed.
