(* ===== verification/Controls.v ===== *)
(** * Workspace controls, request throttling and key spend

    The parts of admission that are small enough to stand beside it:
    [crates/gateway/src/controls.rs] (pause, block lists, the workspace's policy
    document), [crates/gateway/src/rate_limiter.rs] (the per-minute bucket of a tenant
    and of a key) and [crates/gateway/src/spend.rs] (the monthly counter of a key or
    workspace).  Instants are nanoseconds, money is micro-dollars; the text of
    messages is left out. *)

From Stdlib Require Import ZArith Lia.
From stdpp Require Import base list option strings gmap.
From S2P Require Import Prelude Float64 Glob KeyPolicy Budgets Limits.
Local Open Scope Z_scope.

(** ** Controls *)

(** [KeyPolicy::workspace_only]: the fields a workspace document may not carry. *)
Definition workspace_only (p : KeyPolicy) : bool :=
  negb (is_some_b (max_input_tokens p) || is_some_b (max_output_tokens p) || is_some_b (max_body_bytes p)
        || non_empty (required_tags p) || non_empty (required_metadata_keys p)).

Record WorkspaceControls := {
  wc_policy : option LayerPolicy;
  paused : option Z;
  blocked_models : list bytes;
  blocked_providers : list bytes;
  blocked_end_users : list bytes;
}.

Definition no_controls : WorkspaceControls :=
  {| wc_policy := None; paused := None; blocked_models := []; blocked_providers := []; blocked_end_users := [] |}.

(** [WorkspaceControls::from_row]; a stored document as in [layer_of]. *)
Definition from_row (policy : option (option Doc)) (pause : option Z)
    (models providers end_users : list bytes) : WorkspaceControls :=
  let parsed doc :=
    match doc ≫= λ d, ok (doc_parse d None) with
    | Some p => if workspace_only p then Valid p else Invalid
    | None => Invalid
    end in
  {| wc_policy := parsed <$> policy; paused := pause;
     blocked_models := to_ascii_lowercase <$> models;
     blocked_providers := to_ascii_lowercase <$> providers;
     blocked_end_users := end_users |}.

Definition controls_policy (c : WorkspaceControls) : option KeyPolicy :=
  match wc_policy c with Some (Valid p) => Some p | _ => None end.

Definition invalid_policy (c : WorkspaceControls) : bool :=
  match wc_policy c with Some Invalid => true | _ => false end.

Definition restricts (c : WorkspaceControls) : bool :=
  is_some_b (paused c) || invalid_policy c || non_empty (blocked_models c) || non_empty (blocked_providers c)
  || non_empty (blocked_end_users c).

Inductive ControlCode : Type :=
  policy_unreadable | end_user_blocked | model_blocked | block_unenforceable | provider_blocked.

Inductive ControlRefusal : Type :=
  | Paused (since : Z)
  | Blocked (code : ControlCode) (line : option Z).

Definition check_paused (c : WorkspaceControls) : result unit ControlRefusal :=
  match paused c with Some since => Err (Paused since) | None => Ok () end.

Section blocks.
Variable resolve : bytes → bool → Resolved.

Definition subject_resolved (s : Subject) : option Resolved :=
  match su_model s with Known m => Some (resolve m (su_workspace_alias s)) | _ => None end.

Definition check_blocked_models (c : WorkspaceControls) (s : Subject) : result unit ControlRefusal :=
  if negb (non_empty (blocked_models c)) then Ok () else
  match su_model s, subject_resolved s with
  | Known _, Some r =>
      if existsb (deny_matches (blocked_models c)) (rs_names r ++ rs_allow_names r)
      then Err (Blocked model_blocked (su_line s)) else Ok ()
  | NotApplicable, _ => Ok ()
  | _, _ => Err (Blocked block_unenforceable (su_line s))
  end.

Definition check_blocked_providers (c : WorkspaceControls) (s : Subject) : result unit ControlRefusal :=
  if negb (non_empty (blocked_providers c)) then Ok () else
  let provider := match su_provider s with Some p => Some p | None => subject_resolved s ≫= rs_provider end in
  let refused := match to_ascii_lowercase <$> provider with
                 | Some p => bool_decide (p ∈ blocked_providers c)
                 | None => match su_model s with NotApplicable => false | _ => true end
                 end in
  if refused then Err (Blocked provider_blocked (su_line s)) else Ok ().

Fixpoint check_blocks (c : WorkspaceControls) (ss : list Subject) : result unit ControlRefusal :=
  match ss with
  | [] => Ok ()
  | s :: ss' =>
      let? _ := check_blocked_models c s in
      let? _ := check_blocked_providers c s in
      check_blocks c ss'
  end.

(** [controls::check_request]. *)
Definition controls_check (c : WorkspaceControls) (request : PolicyRequest) (end_user : option bytes)
    : result unit ControlRefusal :=
  let? _ := check_paused c in
  if invalid_policy c then Err (Blocked policy_unreadable None) else
  if from_option (λ u, bool_decide (u ∈ blocked_end_users c)) false end_user
  then Err (Blocked end_user_blocked None) else
  if negb (non_empty (blocked_models c)) && negb (non_empty (blocked_providers c)) then Ok () else
  check_blocks c (subjects request).
End blocks.

(** [controls::allows_dispatch]: may an admitted request move to another model? *)
Definition controls_allow_dispatch (c : WorkspaceControls) (model provider : bytes) : bool :=
  negb (bool_decide (to_ascii_lowercase provider ∈ blocked_providers c))
  && negb (deny_matches (blocked_models c) model)
  && negb (invalid_policy c)
  && from_option (λ p, policy_allows_dispatch p model provider) true (controls_policy c).

(** ** The per-minute bucket *)

Record BucketState := { bs_tokens : f64; bs_last_refill : Z }.

Definition bucket_state_new (capacity : f64) (now : Z) : BucketState :=
  {| bs_tokens := capacity; bs_last_refill := now |}.

Definition try_consume (capacity refill_per_ms : f64) (now : Z) (b : BucketState) : bool * BucketState :=
  let elapsed_ms := f64_mul (as_secs_f64 (sat_sub now (bs_last_refill b))) (f64_of 1000) in
  let t := f64_min (f64_add (bs_tokens b) (f64_mul elapsed_ms refill_per_ms)) capacity in
  if f64_ge t (f64_of 1) then (true, {| bs_tokens := f64_sub t (f64_of 1); bs_last_refill := now |})
  else (false, {| bs_tokens := t; bs_last_refill := now |}).

Definition bucket_retry (refill_per_ms : f64) (b : BucketState) : Z :=
  f64_as_u32 (f64_ceil (f64_div (f64_div (f64_sub (f64_of 1) (bs_tokens b)) refill_per_ms) (f64_of 1000))).

Definition TENANT_BUCKET : Z := 0.
Definition KEY_BUCKET : Z := 255.

(** A bucket's name: the text and the kind. *)
Abbreviation RateLimiter := (gmap (bytes * Z) BucketState).

Inductive RateLimitDecision : Type := Allow | Throttle (retry_after_secs : Z).

Definition consume (name : bytes) (kind : Z) (rpm : Z) (now : Z) (rl : RateLimiter)
    : RateLimitDecision * RateLimiter :=
  let capacity := f64_of rpm in
  let refill_per_ms := f64_div capacity (f64_of 60000) in
  let b := default (bucket_state_new capacity now) (rl !! (name, kind)) in
  let '(ok_, b) := try_consume capacity refill_per_ms now b in
  (if ok_ then Allow else Throttle (Z.max (bucket_retry refill_per_ms b) 1), <[(name, kind) := b]> rl).

Definition check_tenant (t : bytes) (rpm : option Z) (now : Z) (rl : RateLimiter)
    : RateLimitDecision * RateLimiter :=
  match rpm with
  | None => (Allow, rl)
  | Some rpm => consume t TENANT_BUCKET rpm now rl
  end.

Definition key_bucket (t id : bytes) : bytes := t ++ lit "/" ++ id.

Definition check_scoped (t : bytes) (rpm : option Z) (key_id : option bytes) (key_rpm : option Z) (now : Z)
    (rl : RateLimiter) : RateLimitDecision * RateLimiter :=
  match check_tenant t rpm now rl with
  | (Throttle n, rl) => (Throttle n, rl)
  | (Allow, rl) =>
      match key_id, key_rpm with
      | Some id, Some rpm => if 0 <? rpm then consume (key_bucket t id) KEY_BUCKET rpm now rl else (Allow, rl)
      | _, _ => (Allow, rl)
      end
  end.

(** ** Spend of a key or workspace *)

Inductive SpendSubject : Type := SKey (id : bytes) | SWorkspace (id : bytes) | SOnlineEvalJudge (id : bytes).
#[global] Instance SpendSubject_eq_dec : EqDecision SpendSubject.
Proof. solve_decision. Defined.
#[global] Program Instance SpendSubject_countable : Countable SpendSubject :=
  inj_countable' (λ s, match s with SKey i => inl i | SWorkspace i => inr (inl i) | SOnlineEvalJudge i => inr (inr i) end)
    (λ x, match x with inl i => SKey i | inr (inl i) => SWorkspace i | inr (inr i) => SOnlineEvalJudge i end) _.
Next Obligation. by intros []. Qed.

Record SpendTracker := {
  spend : gmap SpendSubject Z;
  seeded : gmap SpendSubject Z;
  sp_failed : gmap SpendSubject Z;
}.

Definition tracker_new : SpendTracker := {| spend := ∅; seeded := ∅; sp_failed := ∅ |}.

Definition MICRO : f64 := f64_of 1000000.

Definition to_micro (usd : f64) : Z :=
  if negb (f64_is_finite usd) || f64_le usd (f64_of 0) then 0 else f64_as_u64 (f64_round (f64_mul usd MICRO)).
Definition from_micro (micro : Z) : f64 := f64_div (f64_of micro) MICRO.

Definition current_micro (who : SpendSubject) (st : SpendTracker) : Z := default 0 (spend st !! who).

Definition needs_seed (who : SpendSubject) (period : Z) (st : SpendTracker) : bool :=
  match seeded st !! who with None => true | Some m => negb (m =? period) end.

Definition seed_backing_off (who : SpendSubject) (backoff now : Z) (st : SpendTracker) : bool :=
  match sp_failed st !! who with Some t => sat_sub now t <? backoff | None => false end.

Definition note_seed_failed (who : SpendSubject) (now : Z) (st : SpendTracker) : SpendTracker :=
  {| spend := spend st; seeded := seeded st; sp_failed := <[who := now]> (sp_failed st) |}.

(** [fetch_add] on an [AtomicU64] wraps. *)
Definition fetch_add (who : SpendSubject) (n : Z) (st : SpendTracker) : gmap SpendSubject Z :=
  <[who := (current_micro who st + n) mod 2 ^ 64]> (spend st).

Definition seed_if_needed (who : SpendSubject) (period : Z) (baseline : f64) (st : SpendTracker)
    : bool * SpendTracker :=
  match seeded st !! who with
  | Some m =>
      if m =? period then (false, st) else
      (true, {| spend := <[who := to_micro baseline]> (spend st); seeded := <[who := period]> (seeded st);
                sp_failed := delete who (sp_failed st) |})
  | None =>
      (true, {| spend := fetch_add who (to_micro baseline) st; seeded := <[who := period]> (seeded st);
                sp_failed := delete who (sp_failed st) |})
  end.

Definition spend_record (who : SpendSubject) (cost : option f64) (st : SpendTracker) : SpendTracker :=
  match cost with
  | None => st
  | Some cost =>
      if negb (f64_is_finite cost && f64_gt cost (f64_of 0)) then st else
      {| spend := fetch_add who (to_micro cost) st; seeded := seeded st; sp_failed := sp_failed st |}
  end.

Inductive BudgetDecision : Type := BudgetAllow | BudgetOver (budget_usd spent_usd : f64).

Definition spend_check (who : SpendSubject) (budget : option f64) (st : SpendTracker) : BudgetDecision :=
  match budget with
  | None => BudgetAllow
  | Some b =>
      if negb (f64_is_finite b && f64_gt b (f64_of 0)) then BudgetAllow else
      let spent := current_micro who st in
      if to_micro b <=? spent then BudgetOver b (from_micro spent) else BudgetAllow
  end.
