(* ===== verification/Admission.v ===== *)
(** * The admission pipeline

    [run] of [crates/gateway/src/admission.rs]: the thirteen steps a dispatch request
    passes, in [ORDER], over the state they share - the per-minute buckets, the
    end-user ids, the limit table, the spend counters, the budget table and the ledger
    feed.

    What the steps compute elsewhere enters as its result: the parsed request, the
    refusal of parsing or routing if there is one, the resolved entitlements, the
    durable spend reads, the price and the predictive verdict, whether the ledger
    publish succeeded.  Every step reads the clocks itself, so they are functions of
    the step. *)

From Stdlib Require Import ZArith Lia.
From stdpp Require Import base list option strings gmap.
From S2P Require Import Prelude Float64 Network Glob KeyPolicy Budgets Limits Controls.
Local Open Scope Z_scope.

(** ** Steps *)

Inductive Step : Type :=
  | Auth | ScopeStep | Parse | Entitlements | ControlsStep | RateLimit | Policy | LimitsStep
  | KeyBudget | WorkspaceBudget | BudgetsStep | Predictive | Audit.

Definition step_num (s : Step) : Z :=
  match s with
  | Auth => 0 | ScopeStep => 1 | Parse => 2 | Entitlements => 3 | ControlsStep => 4 | RateLimit => 5 | Policy => 6
  | LimitsStep => 7 | KeyBudget => 8 | WorkspaceBudget => 9 | BudgetsStep => 10 | Predictive => 11 | Audit => 12
  end.

Definition ORDER : list Step :=
  [Auth; ScopeStep; Parse; Entitlements; ControlsStep; RateLimit; Policy; LimitsStep; KeyBudget; WorkspaceBudget;
   BudgetsStep; Predictive; Audit].

(** ** Refusals *)

Inductive ControlDenial : Type :=
  | workspace_paused (since : Z)
  | end_user_id_cap (retry : Z)
  | limit_denial (d : LimitDenial)
  | budget_spend_unknown
  | budget_denial (r : BudgetRefusal).

Inductive Refusal : Type :=
  | InsufficientScope
  | Malformed
  | Unroutable
  | RateLimited (retry_after_secs : Z)
  | KeyBudgetExceeded (budget_usd spent_usd : f64)
  | WorkspaceBudgetExceeded (budget_usd spent_usd : f64)
  | PredictiveBlock
  | AuditUnavailable
  | Unpriced
  | PolicyDenied (d : Denial)
  | BlockDenied (code : ControlCode) (line : option Z)
  | Control (c : ControlDenial).

(** ** State and request *)

Record Gateway := {
  g_rate : RateLimiter;
  g_ids : EndUserCap;
  g_limits : LimitTable;
  g_spend : SpendTracker;
  g_budgets : BudgetTable;
  g_ledger : list (bytes * bytes);
}.

Record ResolvedEntitlements := {
  rate_limit_rpm : option Z;
  e_controls : WorkspaceControls;
  workspace_budget_micro_usd : Z;
}.

Inductive PredictiveDecision : Type := PAllow | PWarn | PBlock.

Record Request := {
  (* claims *)
  r_tenant : bytes;
  r_scope_ok : bool;
  r_key_id : option bytes;
  r_key_uuid : option bytes;
  r_governance : option Governance;
  r_key_rpm : option Z;
  r_budget_usd : option f64;
  r_budget_reset : BudgetWindow;
  (* request *)
  r_trace : bytes;
  r_parse : option Refusal;
  r_route : option Refusal;
  r_request : PolicyRequest;
  r_content_length : option Z;
  r_labels : LabelSet;
  r_client_ip : option IpAddr;
  r_end_user : option bytes;
  r_model : bytes;
  r_gated : bool;
  (* results of what the steps call *)
  r_entitlements : option ResolvedEntitlements;
  r_key_baseline : option f64;
  r_workspace_baseline : option f64;
  r_baseline : Applicable → Z → option Seed;
  r_priced : bool;
  r_decision : PredictiveDecision;
  r_published : bool;
  (* clocks *)
  r_at : Step → Z;
  r_utc : Step → Z;
}.

(** The process's settings. *)
Record Config := {
  no_control_plane_rpm : option Z;
  default_output_reserve_tokens : Z;
  seed_backoff : Z;
  predictive_enforce : bool;
}.

Definition set_rate (x : RateLimiter) (g : Gateway) : Gateway :=
  {| g_rate := x; g_ids := g_ids g; g_limits := g_limits g; g_spend := g_spend g; g_budgets := g_budgets g; g_ledger := g_ledger g |}.
Definition set_ids (x : EndUserCap) (g : Gateway) : Gateway :=
  {| g_rate := g_rate g; g_ids := x; g_limits := g_limits g; g_spend := g_spend g; g_budgets := g_budgets g; g_ledger := g_ledger g |}.
Definition set_limits (x : LimitTable) (g : Gateway) : Gateway :=
  {| g_rate := g_rate g; g_ids := g_ids g; g_limits := x; g_spend := g_spend g; g_budgets := g_budgets g; g_ledger := g_ledger g |}.
Definition set_spend (x : SpendTracker) (g : Gateway) : Gateway :=
  {| g_rate := g_rate g; g_ids := g_ids g; g_limits := g_limits g; g_spend := x; g_budgets := g_budgets g; g_ledger := g_ledger g |}.
Definition set_budgets (x : BudgetTable) (g : Gateway) : Gateway :=
  {| g_rate := g_rate g; g_ids := g_ids g; g_limits := g_limits g; g_spend := g_spend g; g_budgets := x; g_ledger := g_ledger g |}.
Definition set_ledger (x : list (bytes * bytes)) (g : Gateway) : Gateway :=
  {| g_rate := g_rate g; g_ids := g_ids g; g_limits := g_limits g; g_spend := g_spend g; g_budgets := g_budgets g; g_ledger := x |}.

(** A step refuses or passes, and may change the state either way. *)
Definition StepFn : Type := Gateway → option Refusal * Gateway.

Definition refuse (o : option Refusal) : StepFn := λ g, (o, g).

Definition and_then (f k : StepFn) : StepFn := λ g,
  match f g with (None, g) => k g | r => r end.

Section run.
Context `{Datelike}.
Variable end_user_hash : bytes → Z.
Variable resolve : bytes → bool → Resolved.
Variable cfg : Config.
Variable req : Request.

Definition controls : option WorkspaceControls := e_controls <$> r_entitlements req.
Definition ws_policy : option KeyPolicy := controls ≫= controls_policy.

(** ** Controls and policy *)

Definition control_refusal (r : ControlRefusal) : Refusal :=
  match r with Paused since => Control (workspace_paused since) | Blocked code line => BlockDenied code line end.

Definition policy_err (r : result unit Denial) : option Refusal :=
  match r with Ok _ => None | Err d => Some (PolicyDenied d) end.

Definition workspace_controls : option Refusal :=
  c ← controls;
  if restricts c then
    match controls_check resolve c (r_request req) (r_end_user req) with Ok _ => None | Err r => Some (control_refusal r) end
  else None.

Definition workspace_rules : option Refusal :=
  p ← ws_policy;
  if is_some_b (models p) || is_some_b (providers p) || non_empty (source_ips p) then
    policy_err
      (let? _ := if is_some_b (r_key_id req) then policy_check_source OWorkspace p (r_client_ip req) else Ok () in
       check_request resolve OWorkspace p (subjects (r_request req)))
  else None.

Definition controls_step : StepFn := and_then (refuse workspace_controls) (refuse workspace_rules).

Definition rate_limit_step : StepFn := λ g,
  if r_gated req then (None, g) else
  let rpm := match r_entitlements req with Some e => rate_limit_rpm e | None => no_control_plane_rpm cfg end in
  match check_scoped (r_tenant req) rpm (r_key_id req) (r_key_rpm req) (r_at req RateLimit) (g_rate g) with
  | (Throttle n, rl) => (Some (RateLimited n), set_rate rl g)
  | (Allow, rl) => (None, set_rate rl g)
  end.

(** [enforce_policy]: a declared body length replaces the route's fact. *)
Definition policy_request : PolicyRequest :=
  {| subjects := subjects (r_request req);
     body_bytes := match r_content_length req with Some n => Known n | None => body_bytes (r_request req) end |}.

Definition policy_step : StepFn := refuse
  (g ← r_governance req;
   if non_empty (layers g) then policy_err (evaluate resolve (r_labels req) g policy_request) else None).

(** ** Limits *)

Definition per_user (p : KeyPolicy) : bool :=
  is_some_b (end_user_budget p) || from_option (λ l, is_some_b (per_end_user l)) false (limits p).

(** [ws_policy.is_some_and(f) || governance.is_some_and(|g| g.policies().any(f))]. *)
Definition any_policy (f : KeyPolicy → bool) : bool :=
  from_option f false ws_policy || from_option (λ g, existsb (λ op, f op.2) (policies g)) false (r_governance req).

Definition end_user_ids : StepFn := λ g,
  match r_end_user req with
  | Some u =>
      if any_policy per_user then
        match cap_admit (r_tenant req) (r_key_id req) (end_user_hash u) (r_at req LimitsStep) (g_ids g) with
        | (Err retry, c) => (Some (Control (end_user_id_cap (Z.min retry u32_max))), set_ids c g)
        | (Ok _, c) => (None, set_ids c g)
        end
      else (None, g)
  | None => (None, g)
  end.

Definition reservation (ds : list (BucketKey * Z)) : Reservation :=
  {| rv_tenant := r_tenant req; debits := ds; rv_key_id := r_key_id req; rv_model := r_model req;
     rv_end_user := r_end_user req; rv_at := r_at req LimitsStep |}.

Definition limit_buckets : StepFn := λ g,
  if any_policy (λ p, is_some_b (limits p)) then
    match limit_checks end_user_hash resolve ws_policy (r_governance req) (r_key_uuid req) (r_request req)
            (r_end_user req) (default_output_reserve_tokens cfg) with
    | Err d => (Some (PolicyDenied d), g)
    | Ok checks =>
        match table_admit (r_tenant req) checks (r_at req LimitsStep) (g_limits g) with
        | (Err d, lt) => (Some (Control (limit_denial d)), set_limits lt g)
        | (Ok ds, lt) => (None, set_limits (park (r_trace req) (reservation ds) (r_at req LimitsStep) lt) g)
        end
    end
  else (None, g).

Definition limits_step : StepFn := and_then end_user_ids limit_buckets.

(** ** Spend *)

(** Seed a counter that needs it, or refuse because the spend is unknown; then the
    check. *)
Definition spend_step (who : SpendSubject) (period : Z) (read : option f64) (now : Z) (budget : f64)
    (over : f64 → f64 → Refusal) : StepFn := λ g,
  let st := g_spend g in
  let seeded_ :=
    if needs_seed who period st then
      match if seed_backing_off who (seed_backoff cfg) now st then None else read with
      | None => Err (note_seed_failed who now st)
      | Some baseline => Ok (seed_if_needed who period baseline st).2
      end
    else Ok st in
  match seeded_ with
  | Err st => (Some (Control budget_spend_unknown), set_spend st g)
  | Ok st =>
      (match spend_check who (Some budget) st with BudgetOver b s => Some (over b s) | BudgetAllow => None end,
       set_spend st g)
  end.

Definition key_budget_step : StepFn := λ g,
  match r_key_id req, r_budget_usd req, r_key_uuid req with
  | Some _, Some budget, Some id =>
      spend_step (SKey id) (period_key (r_budget_reset req) (r_utc req KeyBudget)) (r_key_baseline req)
        (r_at req KeyBudget) budget KeyBudgetExceeded g
  | _, _, _ => (None, g)
  end.

Definition has_hard_policy_budget : bool :=
  any_policy (λ p, from_option is_hard false (budget p) || from_option is_hard false (end_user_budget p)).

Definition caller_is_budgeted : bool :=
  (is_some_b (r_key_id req) && is_some_b (r_budget_usd req))
  || from_option (λ e, 0 <? workspace_budget_micro_usd e) false (r_entitlements req)
  || has_hard_policy_budget.

Definition workspace_budget : Z := from_option workspace_budget_micro_usd 0 (r_entitlements req).

Definition workspace_spend : StepFn := λ g,
  if 0 <? workspace_budget then
    spend_step (SWorkspace (r_tenant req)) (year_month (r_utc req LimitsStep)) (r_workspace_baseline req)
      (r_at req WorkspaceBudget) (from_micro workspace_budget) WorkspaceBudgetExceeded g
  else (None, g).

Definition priced : option Refusal := if caller_is_budgeted && negb (r_priced req) then Some Unpriced else None.

Definition workspace_budget_step : StepFn := and_then workspace_spend (refuse priced).

(** ** Budgets *)

Fixpoint check_budgets (l : list Applicable) : StepFn := λ g,
  match l with
  | [] => (None, g)
  | a :: l' =>
      match check_budget end_user_hash (r_tenant req) a (r_utc req BudgetsStep) (r_at req BudgetsStep)
              (r_baseline req a) (g_budgets g) with
      | (Err SpendUnknown, tb) => (Some (Control budget_spend_unknown), set_budgets tb g)
      | (Err r, tb) => (Some (Control (budget_denial r)), set_budgets tb g)
      | (Ok _, tb) => check_budgets l' (set_budgets tb g)
      end
  end.

Definition budgets_step : StepFn :=
  check_budgets (applicable_budgets ws_policy (r_governance req) (r_key_uuid req) (r_end_user req)).

(** ** The pipeline *)

Definition predictive_step : StepFn := refuse
  match r_decision req with
  | PBlock => if predictive_enforce cfg then Some PredictiveBlock else None
  | _ => None
  end.

Definition audit_step : StepFn := λ g,
  if r_published req then (None, set_ledger (g_ledger g ++ [(r_tenant req, r_trace req)]) g)
  else (Some AuditUnavailable, g).

Definition pipeline : list (Step * StepFn) :=
  [(ScopeStep, refuse (if r_scope_ok req then None else Some InsufficientScope));
   (Parse, refuse (r_parse req));
   (Entitlements, refuse (r_route req));
   (ControlsStep, controls_step);
   (RateLimit, rate_limit_step);
   (Policy, policy_step);
   (LimitsStep, limits_step);
   (KeyBudget, key_budget_step);
   (WorkspaceBudget, workspace_budget_step);
   (BudgetsStep, budgets_step);
   (Predictive, predictive_step);
   (Audit, audit_step)].

(** The steps in turn, up to the first refusal, with the step it came from. *)
Fixpoint run_steps (l : list (Step * StepFn)) (g : Gateway) : result unit (Step * Refusal) * Gateway :=
  match l with
  | [] => (Ok (), g)
  | (s, f) :: l' =>
      match f g with
      | (Some r, g) => (Err (s, r), g)
      | (None, g) => run_steps l' g
      end
  end.

Definition run : Gateway → result unit (Step * Refusal) * Gateway := run_steps pipeline.
End run.
