(* ===== verification/AdmissionProofs.v ===== *)
(** * The admission pipeline: what an answer means

    A refusal leaves no ledger row and nothing charged by the steps after it; an
    admission means every gate was passed, and leaves exactly one row. *)

From Stdlib Require Import ZArith Lia.
From stdpp Require Import base list option strings gmap sorting.
From S2P Require Import Prelude Float64 Network Glob KeyPolicy KeyPolicyProofs Budgets BudgetProofs BudgetInvariants.
From S2P Require Import Limits LimitProofs Controls Admission.
Local Open Scope Z_scope.

(** ** Frames *)

Definition keeps {X} (proj : Gateway → X) (f : StepFn) : Prop := ∀ g, proj (f g).2 = proj g.

Lemma keeps_refuse {X} (proj : Gateway → X) o : keeps proj (refuse o).
Proof. done. Qed.

Lemma keeps_and_then {X} (proj : Gateway → X) f k : keeps proj f → keeps proj k → keeps proj (and_then f k).
Proof.
  intros Hf Hk g. unfold and_then. specialize (Hf g). destruct (f g) as [[r|] g1]; [done|].
  by rewrite Hk.
Qed.

Create HintDb frames.
#[local] Hint Resolve keeps_refuse keeps_and_then : frames.

Section admission.
Context `{Datelike}.
Variable end_user_hash : bytes → Z.
Variable resolve : bytes → bool → Resolved.
Variable cfg : Config.
Variable req : Request.

Abbreviation rate_limit := (rate_limit_step cfg req).
Abbreviation ids := (end_user_ids end_user_hash req).
Abbreviation buckets := (limit_buckets end_user_hash resolve cfg req).
Abbreviation key_budget := (key_budget_step cfg req).
Abbreviation ws_spend := (workspace_spend cfg req).
Abbreviation steps := (pipeline end_user_hash resolve cfg req).

Lemma keeps_rate_limit {X} (proj : Gateway → X) :
  (∀ x g, proj (set_rate x g) = proj g) → keeps proj rate_limit.
Proof. intros Hp g. unfold rate_limit_step. destruct (r_gated req); [done|]. by destruct (check_scoped _ _ _ _ _ _) as [[] ?]; simpl. Qed.

Lemma keeps_ids {X} (proj : Gateway → X) : (∀ x g, proj (set_ids x g) = proj g) → keeps proj ids.
Proof.
  intros Hp g. unfold end_user_ids. destruct (r_end_user req); [|done]. destruct (any_policy _ _); [|done].
  by destruct (cap_admit _ _ _ _ _) as [[] ?]; simpl.
Qed.

Lemma keeps_buckets {X} (proj : Gateway → X) : (∀ x g, proj (set_limits x g) = proj g) → keeps proj buckets.
Proof.
  intros Hp g. unfold limit_buckets. destruct (any_policy _ _); [|done]. destruct (limit_checks _ _ _ _ _ _ _ _); [|done].
  by destruct (table_admit _ _ _ _) as [[] ?]; simpl.
Qed.

Lemma keeps_spend {X} (proj : Gateway → X) who period read now budget over :
  (∀ x g, proj (set_spend x g) = proj g) → keeps proj (spend_step cfg who period read now budget over).
Proof.
  intros Hp g. unfold spend_step. destruct (if needs_seed _ _ _ then _ else _); simpl; by rewrite Hp.
Qed.

Lemma keeps_key_budget {X} (proj : Gateway → X) : (∀ x g, proj (set_spend x g) = proj g) → keeps proj key_budget.
Proof.
  intros Hp g. unfold key_budget_step. destruct (r_key_id req), (r_budget_usd req), (r_key_uuid req); try done.
  by apply keeps_spend.
Qed.

Lemma keeps_ws_spend {X} (proj : Gateway → X) : (∀ x g, proj (set_spend x g) = proj g) → keeps proj ws_spend.
Proof. intros Hp g. unfold workspace_spend. destruct (0 <? _); [|done]. by apply keeps_spend. Qed.

Lemma keeps_budgets {X} (proj : Gateway → X) l :
  (∀ x g, proj (set_budgets x g) = proj g) → keeps proj (check_budgets end_user_hash req l).
Proof.
  intros Hp. induction l as [|a l IH]; intros g; [done|]. simpl.
  destruct (check_budget _ _ _ _ _ _ _) as [[?|[]] tb]; simpl; rewrite ?IH; by rewrite ?Hp.
Qed.

Lemma keeps_audit {X} (proj : Gateway → X) : (∀ x g, proj (set_ledger x g) = proj g) → keeps proj (audit_step req).
Proof. intros Hp g. unfold audit_step. by destruct (r_published req); simpl. Qed.

#[local] Hint Resolve keeps_rate_limit keeps_ids keeps_buckets keeps_key_budget keeps_ws_spend keeps_budgets keeps_audit : frames.

(** The steps before [k] do not change [proj]. *)
Definition late {X} (proj : Gateway → X) (k : Step) : Prop :=
  ∀ s f, (s, f) ∈ steps → step_num s < step_num k → keeps proj f.

Ltac frames :=
  intros s f Hin Hlt; unfold pipeline in Hin;
  repeat (apply elem_of_cons in Hin as [[= -> ->]|Hin]);
  try (by apply not_elem_of_nil in Hin); try (simpl in Hlt; lia); try (vm_compute in Hlt; discriminate);
  unfold controls_step, limits_step, workspace_budget_step, budgets_step, policy_step, predictive_step; eauto 6 with frames.

Lemma late_rate : late g_rate RateLimit.
Proof. frames. Qed.
Lemma late_ids : late g_ids LimitsStep.
Proof. frames. Qed.
Lemma late_limits : late g_limits LimitsStep.
Proof. frames. Qed.
Lemma late_spend : late g_spend KeyBudget.
Proof. frames. Qed.
Lemma late_budgets : late g_budgets BudgetsStep.
Proof. frames. Qed.
Lemma late_ledger : late g_ledger Audit.
Proof. frames. Qed.

Lemma steps_sorted : StronglySorted (λ x y, step_num x.1 < step_num y.1) steps.
Proof. unfold pipeline. repeat (constructor; [|repeat (constructor; [done|]); constructor]). constructor. Qed.

(** Where a refusal comes from: a step, run on a state in which nothing that only later
    steps change has changed. *)
Lemma run_steps_refused l g s r g' :
  StronglySorted (λ x y, step_num x.1 < step_num y.1) l → run_steps l g = (Err (s, r), g') →
  ∃ f g1, (s, f) ∈ l ∧ f g1 = (Some r, g') ∧
    ∀ X (proj : Gateway → X), (∀ s' f', (s', f') ∈ l → step_num s' < step_num s → keeps proj f') → proj g1 = proj g.
Proof.
  intros Hs. revert g. induction Hs as [|[s0 f] l Hs IH Hlt]; intros g Hrun; [done|]. simpl in Hrun.
  destruct (f g) as [[r0|] g1] eqn:E.
  - injection Hrun as -> -> ->. exists f, g. split; [by left|]. by split.
  - destruct (IH g1 Hrun) as (f1 & g2 & Hin & Hf & Hk). exists f1, g2. split; [by right|]. split; [done|].
    intros X proj Hp. rewrite Hk by (intros; eapply Hp; [by right|done]).
    eapply Forall_forall in Hlt; [|exact Hin]. specialize (Hp s0 f ltac:(by left) Hlt g). by rewrite E in Hp.
Qed.

Lemma run_keeps {X} (proj : Gateway → X) k g s r g' :
  late proj k → run end_user_hash resolve cfg req g = (Err (s, r), g') → step_num s < step_num k → proj g' = proj g.
Proof.
  intros Hl Hrun Hk. destruct (run_steps_refused _ _ _ _ _ steps_sorted Hrun) as (f & g1 & Hin & Hf & Hp).
  rewrite <- (Hp X proj) by (intros; eapply Hl; [done|lia]).
  specialize (Hl s f Hin Hk g1). by rewrite Hf in Hl.
Qed.

(** The pipeline runs [ORDER], from its second step. *)
Lemma steps_order : steps.*1 = tail ORDER.
Proof. done. Qed.

(** The last step refuses without publishing. *)
Lemma audit_refuses g r g' : audit_step req g = (Some r, g') → g' = g.
Proof. unfold audit_step. by destruct (r_published req); intros [= <- <-]. Qed.

(** The function of a step. *)
Lemma step_fn s f : (s, f) ∈ steps →
  (s = LimitsStep → f = limits_step end_user_hash resolve cfg req) ∧ (s = Audit → f = audit_step req).
Proof.
  unfold pipeline. intros Hin.
  repeat (apply elem_of_cons in Hin as [[= -> ->]|Hin]; [by split|]). by apply not_elem_of_nil in Hin.
Qed.

Lemma refused_ledger g s r g' :
  run end_user_hash resolve cfg req g = (Err (s, r), g') → g_ledger g' = g_ledger g.
Proof.
  intros Hrun. destruct (run_steps_refused _ _ _ _ _ steps_sorted Hrun) as (f & g1 & Hin & Hf & Hp).
  rewrite <- (Hp _ g_ledger).
  2: { intros s' f' Hin' Hlt. apply (late_ledger s' f' Hin'). destruct s; simpl in *; lia. }
  destruct (decide (step_num s < step_num Audit)) as [Hlt|Hge].
  - pose proof (late_ledger s f Hin Hlt g1) as Hl. by rewrite Hf in Hl.
  - destruct (step_fn s f Hin) as [_ Ha]. rewrite Ha in Hf by (destruct s; simpl in Hge; done || lia).
    by apply audit_refuses in Hf as ->.
Qed.

(** ** What the limits leave behind when they refuse *)

Definition request_checks_of : result (list Check) Denial :=
  limit_checks end_user_hash resolve (ws_policy req) (r_governance req) (r_key_uuid req) (r_request req)
    (r_end_user req) (default_output_reserve_tokens cfg).

(** Stored policies give every bucket one check. *)
Lemma layer_of_valid o doc l : l ∈ layer_of o doc → ly_origin l = o ∧ ∀ p, ly_policy l = Valid p → policy_wf p.
Proof.
  unfold layer_of. destruct doc as [d|]; [|by intros ?%not_elem_of_nil]. intros ->%list_elem_of_singleton. simpl.
  split; [done|]. destruct d as [d|]; [|done]. destruct (doc_parse d None) as [p|e] eqn:E; [|done].
  intros ? [= <-]. by eapply doc_parse_wf.
Qed.

Lemma stored_limit_layers p e dp dk gv key_id :
  from_columns p e dp dk = Some gv →
  ∃ a b, omap (λ op, l ← limits op.2; s ← layer_scope (project_id gv) key_id op.1; Some (op.1, s, l)) (policies gv) = a ++ b ∧
    (a = [] ∨ ∃ i l, a = [(OProject, Project i, l)]) ∧ (b = [] ∨ ∃ i l, b = [(OKey, Key i, l)]) ∧
    ∀ x, x ∈ a ++ b → NoDup (mr_model <$> per_model x.2).
Proof.
  unfold from_columns. destruct (_ && _); [done|]. intros [= <-].
  unfold policies, valid_layers. simpl layers. rewrite !omap_app. eexists _, _. split; [done|]. simpl project_id.
  assert (∀ o doc x, x ∈ omap (λ op : Origin * KeyPolicy, l ← limits op.2; s ← layer_scope p key_id op.1; Some (op.1, s, l))
    (omap valid_layer (layer_of o doc)) → NoDup (mr_model <$> per_model x.2)) as Hnd.
  { intros o doc x (op & Hop & Hx)%list_elem_of_omap. apply list_elem_of_omap in Hop as (ly & Hly & Hv).
    apply layer_of_valid in Hly as [_ Hwf]. unfold valid_layer in Hv. destruct (ly_policy ly) as [pol|]; [|done].
    simplify_eq/=. specialize (Hwf _ eq_refl). apply pw_limits in Hwf. destruct (limits pol) as [l|]; [|done]. simpl in Hx.
    destruct (layer_scope p key_id (ly_origin ly)); simplify_eq/=. by apply Hwf. }
  split_and!.
  - unfold layer_of. destruct dp as [d|]; [|by left]. simpl. destruct (match d with Some _ => _ | None => _ end); simpl; [|by left].
    destruct (limits p0), p; simpl; eauto.
  - unfold layer_of. destruct dk as [d|]; [|by left]. simpl. destruct (match d with Some _ => _ | None => _ end); simpl; [|by left].
    destruct (limits p0), key_id; simpl; eauto.
  - intros x [Hx|Hx]%elem_of_app; by eapply Hnd.
Qed.

(** The policies of the request come from stored documents. *)
Definition stored_policies : Prop :=
  (∀ gv, r_governance req = Some gv → ∃ p e dp dk, from_columns p e dp dk = Some gv) ∧
  (∀ p, ws_policy req = Some p → policy_wf p).

Lemma stored_one_check checks : stored_policies → request_checks_of = Ok checks → NoDup (ck_key <$> checks).
Proof.
  intros [Hg Hw] Hc. unfold request_checks_of in Hc. eapply limit_checks_NoDup; [exact Hc|..];
    unfold limit_layers; (destruct (r_governance req) as [gv|]; simpl;
      [destruct (Hg gv eq_refl) as (p & e & dp & dk & Hf);
       destruct (stored_limit_layers p e dp dk gv (r_key_uuid req) Hf) as (a & b & -> & Ha & Hb & Hnd)|rewrite app_nil_r]).
  - destruct (ws_policy req ≫= limits), Ha as [->|(i & l' & ->)], Hb as [->|(j & l'' & ->)]; simpl;
      repeat (apply NoDup_cons; split; [rewrite ?elem_of_cons, ?elem_of_nil; naive_solver|]); apply NoDup_nil_2.
  - destruct (ws_policy req ≫= limits); simpl; [apply NoDup_singleton|apply NoDup_nil_2].
  - intros x [Hx|Hx]%elem_of_app; [|by apply Hnd]. destruct (ws_policy req) as [pol|] eqn:E; [|by apply not_elem_of_nil in Hx].
    specialize (Hw pol eq_refl). apply pw_limits in Hw. simpl in Hx. destruct (limits pol); simpl in Hx; [|by apply not_elem_of_nil in Hx].
    apply list_elem_of_singleton in Hx as ->. by apply Hw.
  - intros x Hx. destruct (ws_policy req) as [pol|] eqn:E; [|by apply not_elem_of_nil in Hx].
    specialize (Hw pol eq_refl). apply pw_limits in Hw. simpl in Hx. destruct (limits pol); simpl in Hx; [|by apply not_elem_of_nil in Hx].
    apply list_elem_of_singleton in Hx as ->. by apply Hw.
Qed.

(** A bucket that was not charged: dropped, if it was idle, or left as it is; and then
    perhaps refilled to now under the limit of a check of the request. *)
Definition uncharged (checks : list Check) (now idle : Z) (k : BucketKey) (o o' : option Bucket) : Prop :=
  ∃ kept, (kept = o ∨ kept = None ∧ ∃ b, o = Some b ∧ in_use now idle b = false) ∧
    (o' = kept ∨ ∃ c, c ∈ checks ∧ ck_key c = k ∧
       o' = Some (refill (ck_limit c) now (default (bucket_new (ck_limit c) now) kept))).

Lemma uncharged_refl checks now idle k o : uncharged checks now idle k o o.
Proof. exists o. split; by left. Qed.

Lemma evict_idle_lookup now idle tb k :
  bmap (evict_idle now idle tb) !! k = bmap tb !! k ∨
  bmap (evict_idle now idle tb) !! k = None ∧ ∃ b, bmap tb !! k = Some b ∧ in_use now idle b = false.
Proof.
  assert (bmap (evict_idle now idle tb) = filter (λ kb, in_use now idle kb.2 = true) (bmap tb)) as ->
    by (unfold evict_idle; by case_bool_decide).
  destruct (bmap tb !! k) as [b|] eqn:E; cycle 1.
  { left. apply map_lookup_filter_None. by left. }
  destruct (in_use now idle b) eqn:Eu; [left; by apply map_lookup_filter_Some|right]. split; [|eauto].
  apply map_lookup_filter_None. right. intros b' Hb'. simplify_eq. simpl. congruence.
Qed.

Lemma room_lookup lt t checks now k :
  bmap (room lt t checks now) !! k = bucket_at lt t k ∨
  bmap (room lt t checks now) !! k = None ∧ ∃ b, bucket_at lt t k = Some b ∧ in_use now (lt_idle lt) b = false.
Proof.
  assert (bucket_at lt t k = bmap (default no_buckets (lt_tenants lt !! t)) !! k) as ->.
  { unfold bucket_at. destruct (lt_tenants lt !! t); simpl; [done|]. by rewrite lookup_empty. }
  unfold room. cbv zeta. destruct (_ && _); [apply evict_idle_lookup|by left].
Qed.

Lemma admit_refused t checks now lt d lt' t' k :
  NoDup (ck_key <$> checks) → table_admit t checks now lt = (Err d, lt') →
  if bool_decide (t' = t) then uncharged checks now (lt_idle lt) k (bucket_at lt t' k) (bucket_at lt' t' k)
  else bucket_at lt' t' k = bucket_at lt t' k.
Proof.
  intros Hnd E. destruct checks as [|c0 checks0]; [done|]. set (checks := c0 :: checks0) in *.
  destruct (admit_spec t checks now lt Hnd ltac:(done)) as (Hr & Ho & Ht). rewrite E in *. cbn [fst snd] in *.
  case_bool_decide as Ht'; [subst t'|unfold bucket_at; by rewrite Ht].
  exists (bmap (room lt t checks now) !! k). split; [apply room_lookup|].
  destruct (decide (k ∈ ck_key <$> checks)) as [(c & -> & Hc)%list_elem_of_fmap|Hk]; [|left; by apply Ho].
  destruct Hr as [(_ & _ & Hr)|(_ & _ & Hr)]; [left; unfold bucket_at; by rewrite Hr|].
  right. exists c. split_and!; [done|done|]. by rewrite Hr.
Qed.

Lemma limits_refused g r g' t k :
  stored_policies → limits_step end_user_hash resolve cfg req g = (Some r, g') →
  ∃ checks, (request_checks_of = Ok checks ∨ checks = []) ∧
    if bool_decide (t = r_tenant req)
    then uncharged checks (r_at req LimitsStep) (lt_idle (g_limits g)) k (bucket_at (g_limits g) t k) (bucket_at (g_limits g') t k)
    else bucket_at (g_limits g') t k = bucket_at (g_limits g) t k.
Proof.
  intros Hst. unfold limits_step, and_then. pose proof (keeps_ids g_limits ltac:(done) g) as Hi.
  assert (∀ o : option Bucket, if bool_decide (t = r_tenant req)
    then uncharged [] (r_at req LimitsStep) (lt_idle (g_limits g)) k o o else o = o) as Hsame.
  { intros o. case_bool_decide; [apply uncharged_refl|done]. }
  destruct (ids g) as [[r1|] g1]; simpl in Hi.
  { intros [= -> ->]. exists []. split; [by right|]. rewrite Hi. apply Hsame. }
  unfold limit_buckets. destruct (any_policy _ _); [|done]. fold request_checks_of.
  destruct request_checks_of as [checks|d] eqn:Ec; cycle 1.
  { intros [= <- <-]. exists []. split; [by right|]. rewrite Hi. apply Hsame. }
  destruct (table_admit _ _ _ _) as [[ds|d] lt] eqn:E; [done|]. intros [= <- <-]. exists checks. split; [by left|].
  rewrite <- Hi. cbn [set_limits g_limits]. exact (admit_refused _ _ _ _ _ _ t k (stored_one_check checks Hst Ec) E).
Qed.

(** C4. A refused request leaves no trace behind the gate that refused it.  Whichever
    step refuses: no ledger row is published; the per-minute buckets are untouched if
    it came before them (so a paused workspace or a blocked model costs no request),
    the limit buckets and end-user ids if it came before the limits (a request the
    policy denies charges nothing), the spend counters and the budget table if it came
    before those.  And a refusal of the limits themselves, for policies that come from
    stored documents, charges no bucket: each is the bucket it was - refilled to the
    instant of the step under the limit of the request's own check on it, or dropped
    first if it was idle - and buckets of other tenants are untouched. *)
Theorem refusal_charges_nothing_later g s r g' :
  run end_user_hash resolve cfg req g = (Err (s, r), g') →
  g_ledger g' = g_ledger g ∧
  (step_num s < step_num RateLimit → g_rate g' = g_rate g) ∧
  (step_num s < step_num LimitsStep → g_ids g' = g_ids g ∧ g_limits g' = g_limits g) ∧
  (step_num s < step_num KeyBudget → g_spend g' = g_spend g) ∧
  (step_num s < step_num BudgetsStep → g_budgets g' = g_budgets g) ∧
  (s = LimitsStep → stored_policies → ∀ t k, ∃ checks, (request_checks_of = Ok checks ∨ checks = []) ∧
     if bool_decide (t = r_tenant req)
     then uncharged checks (r_at req LimitsStep) (lt_idle (g_limits g)) k (bucket_at (g_limits g) t k) (bucket_at (g_limits g') t k)
     else bucket_at (g_limits g') t k = bucket_at (g_limits g) t k).
Proof.
  intros Hrun. split; [by eapply refused_ledger|].
  assert (∀ X (proj : Gateway → X) k, late proj k → step_num s < step_num k → proj g' = proj g) as Hk.
  { intros X proj k Hl. by apply (run_keeps proj k g s r g'). }
  split; [by apply Hk, late_rate|].
  split; [intros Hs; split; by eapply Hk; [apply late_ids || apply late_limits|]|].
  split; [by apply Hk, late_spend|]. split; [by apply Hk, late_budgets|].
  intros Hs Hst t k. destruct (run_steps_refused _ _ _ _ _ steps_sorted Hrun) as (f & g1 & Hin & Hf & Hp).
  destruct (step_fn s f Hin) as [Hl _]. rewrite (Hl Hs) in Hf.
  rewrite <- (Hp _ g_limits); [by eapply limits_refused|].
  intros s' f' Hin' Hlt. apply (late_limits s' f' Hin'). by rewrite <- Hs.
Qed.

(** ** What passing each gate means *)

(** The model of a subject goes by no blocked name. *)
Definition model_clear (c : WorkspaceControls) (s : Subject) : Prop :=
  blocked_models c = [] ∨ su_model s = NotApplicable ∨
  ∃ m, su_model s = Known m ∧
    let r := resolve m (su_workspace_alias s) in
    ∀ n, n ∈ rs_names r ++ rs_allow_names r → deny_matches (blocked_models c) n = false.

Definition provider_of (s : Subject) : option bytes :=
  match su_provider s with Some p => Some p | None => subject_resolved resolve s ≫= rs_provider end.

Definition provider_clear (c : WorkspaceControls) (s : Subject) : Prop :=
  blocked_providers c = [] ∨
  match provider_of s with
  | Some p => to_ascii_lowercase p ∉ blocked_providers c
  | None => su_model s = NotApplicable
  end.

Definition unrestricted (c : WorkspaceControls) : Prop :=
  paused c = None ∧ invalid_policy c = false ∧
  (∀ u, r_end_user req = Some u → u ∉ blocked_end_users c) ∧
  ∀ s, s ∈ subjects (r_request req) → model_clear c s ∧ provider_clear c s.

Lemma non_empty_false {A} (l : list A) : non_empty l = false → l = [].
Proof. by destruct l. Qed.

Lemma blocked_models_ok c s : check_blocked_models resolve c s = Ok () → model_clear c s.
Proof.
  unfold check_blocked_models, model_clear, subject_resolved. destruct (non_empty (blocked_models c)) eqn:E; simpl.
  - destruct (su_model s) as [m| |]; [|by right; left|done].
    destruct (existsb _ _) eqn:Ex; [done|]. intros _. right. right. exists m. split; [done|]. intros n Hn.
    apply not_true_iff_false. intros Hd. apply not_true_iff_false in Ex. apply Ex, existsb_elem_of. eauto.
  - intros _. left. by apply non_empty_false.
Qed.

Lemma blocked_providers_ok c s : check_blocked_providers resolve c s = Ok () → provider_clear c s.
Proof.
  unfold check_blocked_providers, provider_clear, provider_of. destruct (non_empty (blocked_providers c)) eqn:E; simpl.
  - intros Hr. right. revert Hr.
    destruct (match su_provider s with Some p => Some p | None => _ end) as [p|]; simpl.
    + case_bool_decide; [done|]. done.
    + by destruct (su_model s).
  - intros _. left. by apply non_empty_false.
Qed.

Lemma controls_check_ok c :
  controls_check resolve c (r_request req) (r_end_user req) = Ok () → unrestricted c.
Proof.
  unfold controls_check, check_paused, unrestricted. destruct (paused c); [done|]. simpl.
  destruct (invalid_policy c); [done|]. destruct (from_option _ false (r_end_user req)) eqn:Eu; [done|].
  assert (∀ u, r_end_user req = Some u → u ∉ blocked_end_users c) as Hu.
  { intros u Hu. rewrite Hu in Eu. simpl in Eu. by apply bool_decide_eq_false in Eu. }
  destruct (negb _ && negb _) eqn:En.
  - intros _. split_and!; [done..|]. apply andb_prop in En as [E1 E2]. apply negb_true_iff, non_empty_false in E1, E2.
    intros s _. split; [by left|by left].
  - intros Hc. split_and!; [done..|]. revert Hc. induction (subjects (r_request req)) as [|s ss IH]; [by intros _ ? ?%not_elem_of_nil|].
    simpl. rewrite rbind_Ok. intros ([] & H1 & Hc). rewrite rbind_Ok in Hc. destruct Hc as ([] & H2 & Hc).
    intros s' [->|Hs]%elem_of_cons; [split; [by apply blocked_models_ok|by apply blocked_providers_ok]|by apply IH].
Qed.

Lemma unrestricted_trivially c : restricts c = false → unrestricted c.
Proof.
  unfold restricts. intros Hr. repeat (apply orb_false_elim in Hr as [Hr ?]).
  apply non_empty_false in H0, H1, H2. unfold unrestricted. split_and!.
  - by destruct (paused c).
  - done.
  - intros u _. rewrite H0. apply not_elem_of_nil.
  - intros s _. split; by left.
Qed.

Lemma spend_step_ok who period read now budget over g g' :
  spend_step cfg who period read now budget over g = (None, g') →
  seeded (g_spend g') !! who = Some period ∧
  (f64_is_finite budget && f64_gt budget (f64_of 0) = true → current_micro who (g_spend g') < to_micro budget) ∧
  (∀ w, w ≠ who → spend (g_spend g') !! w = spend (g_spend g) !! w ∧ seeded (g_spend g') !! w = seeded (g_spend g) !! w).
Proof.
  unfold spend_step. destruct (needs_seed who period (g_spend g)) eqn:En.
  - destruct (if seed_backing_off _ _ _ _ then None else read) as [b|]; [|done]. intros [= Hc <-]. simpl.
    unfold needs_seed in En.
    assert (seeded (seed_if_needed who period b (g_spend g)).2 !! who = Some period ∧
      ∀ w, w ≠ who → spend (seed_if_needed who period b (g_spend g)).2 !! w = spend (g_spend g) !! w ∧
        seeded (seed_if_needed who period b (g_spend g)).2 !! w = seeded (g_spend g) !! w) as [H1 H2].
    { unfold seed_if_needed. destruct (seeded (g_spend g) !! who) as [m|] eqn:E;
        [destruct (m =? period); [done|]|]; simpl; rewrite lookup_insert_eq; (split; [done|]); intros w Hw;
        unfold fetch_add; by rewrite !lookup_insert_ne. }
    split; [done|]. split; [|done]. intros Hb. unfold spend_check in Hc. rewrite Hb in Hc. simpl in Hc.
    destruct (Z.leb_spec (to_micro budget) (current_micro who (seed_if_needed who period b (g_spend g)).2)); [done|lia].
  - intros [= Hc <-]. simpl. unfold needs_seed in En. split; [|split; [|done]].
    + destruct (seeded (g_spend g) !! who) as [m|]; [|done]. apply negb_false_iff, Z.eqb_eq in En. by subst.
    + intros Hb. unfold spend_check in Hc. rewrite Hb in Hc. simpl in Hc.
      destruct (Z.leb_spec (to_micro budget) (current_micro who (g_spend g))); [done|lia].
Qed.

(** The hard budget [a] judged the request on a spend that is known and below its amount,
    in the table as it is now. *)
Definition within_budget (g : Gateway) (a : Applicable) : Prop :=
  ∃ c, counter_at (g_budgets g) (r_tenant req) (slot_of end_user_hash a) (window (ap_budget a)) = Some c ∧
    known_for (window (ap_budget a)) (r_utc req BudgetsStep) c ∧
    (counter_spent (r_utc req BudgetsStep) c).1 < micro_usd (ap_budget a).

Lemma check_budgets_keeps l g slot w m :
  let below g := holds_below (r_tenant req) slot w (r_utc req BudgetsStep) (r_at req BudgetsStep) m (g_budgets g) in
  below g → below (check_budgets end_user_hash req l g).2.
Proof.
  intros below. revert g. induction l as [|a l IH]; intros g Hg; [done|]. simpl.
  pose proof (check_budget_keeps end_user_hash _ a _ _ (r_baseline req a) _ _ _ _ Hg) as Hk.
  destruct (check_budget _ _ _ _ _ _ _) as [[[]|[]] tb]; try exact Hk. by apply IH.
Qed.

Lemma check_budgets_ok l g g' :
  check_budgets end_user_hash req l g = (None, g') →
  ∀ a, a ∈ l → is_hard (ap_budget a) = true → within_budget g' a.
Proof.
  revert g. induction l as [|a l IH]; intros g Hg b Hb Hh; [by apply not_elem_of_nil in Hb|]. simpl in Hg.
  pose proof (check_budget_holds end_user_hash (r_tenant req) a (r_utc req BudgetsStep) (r_at req BudgetsStep) (r_baseline req a) (g_budgets g)) as Hk.
  destruct (check_budget _ _ _ _ _ _ _) as [[[]|[]] tb] eqn:E; try done.
  apply elem_of_cons in Hb as [->|Hb]; [|by eapply IH].
  rewrite Hh in Hk. pose proof (check_budgets_keeps l (set_budgets tb g) _ _ _ (Hk eq_refl)) as Hl.
  rewrite Hg in Hl. destruct Hl as (c & H1 & H2 & H3 & _). exists c. by split_and!.
Qed.

Lemma no_limit_layers :
  any_policy req (λ p, is_some_b (limits p)) = false → limit_layers (ws_policy req) (r_governance req) (r_key_uuid req) = [].
Proof.
  unfold any_policy, limit_layers. intros [H1 H2]%orb_false_elim.
  assert (ws_policy req ≫= limits = None) as ->.
  { destruct (ws_policy req) as [p|]; simpl in *; [|done]. by destruct (limits p). }
  simpl. destruct (r_governance req) as [gv|]; simpl in *; [|done]. induction (policies gv) as [|[o p] l IH]; [done|].
  simpl in *. apply orb_false_elim in H2 as [H2 H3]. destruct (limits p); [done|]. simpl. by apply IH.
Qed.

Lemma park_tenants trace_id r now lt : lt_tenants (park trace_id r now lt) = lt_tenants lt.
Proof.
  unfold park. destruct (debits r); [done|]. destruct (_ <=? _); simpl; [|done]. by destruct (_ <=? _).
Qed.

(** Every check of the request fitted its bucket as it stood, refilled, and was charged. *)
Definition charged_for (lt lt' : LimitTable) (checks : list Check) : Prop :=
  let now := r_at req LimitsStep in
  let m := bmap (room lt (r_tenant req) checks now) in
  ∀ c, c ∈ checks → short c (ready now m c) = false ∧
    bucket_at lt' (r_tenant req) (ck_key c) = Some (debit (ck_cost c) now (ready now m c)).

Lemma limit_buckets_ok g g' :
  buckets g = (None, g') → ∃ checks, request_checks_of = Ok checks ∧
    (stored_policies → charged_for (g_limits g) (g_limits g') checks).
Proof.
  unfold limit_buckets. fold request_checks_of. destruct (any_policy req (λ p, is_some_b (limits p))) eqn:Ep; cycle 1.
  { intros _. exists []. split; [|by intros _ ? ?%not_elem_of_nil]. unfold request_checks_of, limit_checks. by rewrite (no_limit_layers Ep). }
  destruct request_checks_of as [checks|d] eqn:Ec; [|done].
  destruct (table_admit _ _ _ _) as [[ds|d] lt] eqn:E; [|done]. intros [= <-]. exists checks. split; [done|].
  intros Hst c Hc. cbn [set_limits g_limits]. unfold bucket_at. rewrite park_tenants.
  assert (checks ≠ []) as Hne by (intros ->; by apply not_elem_of_nil in Hc).
  destruct (admit_spec (r_tenant req) checks (r_at req LimitsStep) (g_limits g) (stored_one_check checks Hst Ec) Hne) as [Hr _].
  rewrite E in Hr. cbn [fst snd] in Hr. destruct Hr as (_ & _ & Hr). by apply Hr.
Qed.

(** The per-minute buckets: the named one had a token and gave it. *)
Definition token_taken (name : bytes) (kind rpm now : Z) (rl rl' : RateLimiter) : Prop :=
  ∃ b', try_consume (f64_of rpm) (f64_div (f64_of rpm) (f64_of 60000)) now
          (default (bucket_state_new (f64_of rpm) now) (rl !! (name, kind))) = (true, b') ∧
    rl' !! (name, kind) = Some b'.

Lemma consume_ok name kind rpm now rl rl' :
  consume name kind rpm now rl = (Allow, rl') →
  token_taken name kind rpm now rl rl' ∧ ∀ n k, (n, k) ≠ (name, kind) → rl' !! (n, k) = rl !! (n, k).
Proof.
  unfold consume, token_taken. destruct (try_consume _ _ _ _) as [[] b]; [|done]. intros [= <-]. split.
  - exists b. by rewrite lookup_insert_eq.
  - intros n k Hne. by rewrite lookup_insert_ne.
Qed.

(** The requests per minute the workspace is held to. *)
Definition tenant_rpm : option Z :=
  match r_entitlements req with Some e => rate_limit_rpm e | None => no_control_plane_rpm cfg end.

(** A request that is not gated elsewhere took a token of the workspace's bucket and, if
    its key has a limit, of the key's. *)
Definition rate_passed (rl rl' : RateLimiter) : Prop :=
  (∀ rpm, tenant_rpm = Some rpm → token_taken (r_tenant req) TENANT_BUCKET rpm (r_at req RateLimit) rl rl') ∧
  (∀ id rpm, r_key_id req = Some id → r_key_rpm req = Some rpm → 0 < rpm →
     token_taken (key_bucket (r_tenant req) id) KEY_BUCKET rpm (r_at req RateLimit) rl rl').

Lemma check_scoped_ok rl rl' :
  check_scoped (r_tenant req) tenant_rpm (r_key_id req) (r_key_rpm req) (r_at req RateLimit) rl = (Allow, rl') →
  rate_passed rl rl'.
Proof.
  unfold check_scoped, check_tenant, rate_passed. destruct tenant_rpm as [rpm|].
  - destruct (consume _ _ rpm _ _) as [[|] rl1] eqn:E1; [|done]. apply consume_ok in E1 as [H1 F1].
    destruct (r_key_id req) as [id|], (r_key_rpm req) as [krpm|]; try (intros [= <-]; split; [|done]; by intros ? [= <-]).
    destruct (Z.ltb_spec 0 krpm) as [Hp|Hp]; [|intros [= <-]; split; [by intros ? [= <-]|intros ? ? [= <-] [= <-]; lia]].
    intros [[b' [Hb H2]] F2]%consume_ok. split.
    + intros ? [= <-]. destruct H1 as (b1 & H1 & L1). exists b1. split; [done|]. rewrite F2; [done|]. intros [=].
    + intros ? ? [= <-] [= <-] _. exists b'. split; [|done]. rewrite F1 in Hb; [done|]. intros [=].
  - destruct (r_key_id req) as [id|], (r_key_rpm req) as [krpm|]; try done.
    destruct (Z.ltb_spec 0 krpm) as [Hp|Hp]; [|intros _; split; [done|intros ? ? [= <-] [= <-]; lia]].
    intros [H2 _]%consume_ok. split; [done|]. by intros ? ? [= <-] [= <-] _.
Qed.

Lemma rate_limit_ok g g' :
  rate_limit g = (None, g') → if r_gated req then g_rate g' = g_rate g else rate_passed (g_rate g) (g_rate g').
Proof.
  unfold rate_limit_step. destruct (r_gated req); [by intros [= <-]|]. fold tenant_rpm.
  destruct (check_scoped _ _ _ _ _ _) as [[|] rl] eqn:E; [|done]. intros [= <-]. simpl. by apply check_scoped_ok.
Qed.

(** An end user that some policy of the request limits has, or got, a place among the ids
    its key may bring. *)
Definition id_counted (g g' : Gateway) : Prop :=
  ∀ u, r_end_user req = Some u → any_policy req per_user = true →
    cap_admit (r_tenant req) (r_key_id req) (end_user_hash u) (r_at req LimitsStep) (g_ids g) = (Ok (), g_ids g').

Lemma ids_ok g g' : ids g = (None, g') → id_counted g g'.
Proof.
  unfold end_user_ids, id_counted. intros Hg u Hu Hp. rewrite Hu, Hp in Hg.
  destruct (cap_admit _ _ _ _ _) as [[[]|] c]; [|done]. by injection Hg as <-.
Qed.

Lemma refuse_ok o g g' : refuse o g = (None, g') → o = None ∧ g' = g.
Proof. by intros [= -> <-]. Qed.

Lemma and_then_ok f k g g' : and_then f k g = (None, g') → ∃ g1, f g = (None, g1) ∧ k g1 = (None, g').
Proof. unfold and_then. destruct (f g) as [[r|] g1]; [done|]. eauto. Qed.

Lemma policy_err_ok r : policy_err r = None → r = Ok ().
Proof. by destruct r as [[]|]. Qed.

Lemma workspace_controls_ok : workspace_controls resolve req = None → ∀ c, controls req = Some c → unrestricted c.
Proof.
  unfold workspace_controls. intros Hc c E. rewrite E in Hc. simpl in Hc.
  destruct (restricts c) eqn:Er; [|by apply unrestricted_trivially].
  apply controls_check_ok. by destruct (controls_check _ _ _ _) as [[]|].
Qed.

Lemma workspace_rules_ok p :
  workspace_rules resolve req = None → ws_policy req = Some p →
  is_some_b (models p) || is_some_b (providers p) || non_empty (source_ips p) = true →
  (is_Some (r_key_id req) → source_allowed p (r_client_ip req) = true) ∧
  check_request resolve OWorkspace p (subjects (r_request req)) = Ok ().
Proof.
  unfold workspace_rules. intros Hr Hw Hp. rewrite Hw in Hr. simpl in Hr. rewrite Hp in Hr. apply policy_err_ok in Hr.
  rewrite rbind_Ok in Hr. destruct Hr as ([] & Hs & Hc). split; [|done].
  intros [k Hk]. rewrite Hk in Hs. simpl in Hs. unfold policy_check_source in Hs. by destruct (source_allowed _ _).
Qed.

Lemma policy_step_ok gv g g' :
  policy_step resolve req g = (None, g') → r_governance req = Some gv →
  evaluate resolve (r_labels req) gv (policy_request req) = Ok ().
Proof.
  unfold policy_step. intros [Hp _]%refuse_ok Hg. rewrite Hg in Hp. simpl in Hp.
  destruct (layers gv) as [|l ls] eqn:El; simpl in Hp; [|by apply policy_err_ok in Hp].
  unfold evaluate, refuse_invalid, valid_layers. by rewrite El.
Qed.

(** A run that admits, taken apart into its steps. *)
Lemma run_passed g g' :
  run end_user_hash resolve cfg req g = (Ok (), g') →
  (r_scope_ok req = true ∧ r_parse req = None ∧ r_route req = None ∧
   (predictive_enforce cfg = true → r_decision req ≠ PBlock)) ∧
  workspace_controls resolve req = None ∧ workspace_rules resolve req = None ∧
  ∃ g4 g5 g6 g7 g9 g10,
    rate_limit g = (None, g4) ∧ policy_step resolve req g4 = (None, g5) ∧
    limits_step end_user_hash resolve cfg req g5 = (None, g6) ∧ key_budget g6 = (None, g7) ∧
    workspace_budget_step cfg req g7 = (None, g9) ∧ budgets_step end_user_hash req g9 = (None, g10) ∧
    audit_step req g10 = (None, g').
Proof.
  intros Hrun. unfold run, pipeline in Hrun. cbn [run_steps] in Hrun.
  repeat match type of Hrun with
  | (match ?x with (_, _) => _ end) = _ =>
      let E := fresh "E" in let g0 := fresh "g" in destruct x as [[?|] g0] eqn:E; [discriminate Hrun|]
  end.
  injection Hrun as <-.
  apply refuse_ok in E as [Hscope ->], E0 as [Hparse ->], E1 as [Hroute ->].
  apply and_then_ok in E2 as (h & [Hctl ->]%refuse_ok & [Hrules ->]%refuse_ok). apply refuse_ok in E9 as [Hpred ->].
  split_and!; [by destruct (r_scope_ok req)|done|done| |done|done|].
  { intros Hen Hb. by rewrite Hen, Hb in Hpred. }
  eexists _, _, _, _, _, _. split_and!; done.
Qed.

(** What an admitted request passed of the controls and policies. *)
Lemma admitted_gates g g' :
  run end_user_hash resolve cfg req g = (Ok (), g') →
  (∀ c, controls req = Some c → unrestricted c) ∧
  (∀ p, ws_policy req = Some p → is_some_b (models p) || is_some_b (providers p) || non_empty (source_ips p) = true →
     check_request resolve OWorkspace p (subjects (r_request req)) = Ok ()) ∧
  (∀ gv, r_governance req = Some gv → evaluate resolve (r_labels req) gv (policy_request req) = Ok ()).
Proof.
  intros (_ & Hctl & Hrules & g4 & g5 & g6 & g7 & g9 & g10 & _ & E4 & _)%run_passed. split_and!.
  - by apply workspace_controls_ok.
  - intros p Hp Hr. by apply workspace_rules_ok.
  - intros gv Hgv. by eapply policy_step_ok.
Qed.

(** C3. An admitted request passed every gate.  If the pipeline admits: exactly one
    ledger row was published; the key has the scope, the request parses and routes, and an
    enforced prediction did not block it; the workspace is not paused, its policy is
    readable, the end user is not blocked and no name or provider a subject goes by is;
    the workspace's and every layer's policy allow the request; unless the route gates it
    itself, the workspace's per-minute bucket and that of the key each had a token and gave
    it; an end user that a policy limits has its place among the ids of the key; every rate
    limit that applies had room for the request in the bucket as it stood and was charged
    (for policies that come from stored documents, which give a bucket one check); the
    key's and the workspace's spend are known for the current period and below their
    ceilings, and the model has a price if the caller has a budget; and in the table of
    budgets as the pipeline leaves it, every hard budget that applies has its own counter,
    known for the period, with a spend below its amount. *)
Theorem admission_sound g g' :
  run end_user_hash resolve cfg req g = (Ok (), g') →
  g_ledger g' = g_ledger g ++ [(r_tenant req, r_trace req)] ∧
  (r_scope_ok req = true ∧ r_parse req = None ∧ r_route req = None ∧
   (predictive_enforce cfg = true → r_decision req ≠ PBlock)) ∧
  (∀ c, controls req = Some c → unrestricted c) ∧
  (∀ p, ws_policy req = Some p → is_some_b (models p) || is_some_b (providers p) || non_empty (source_ips p) = true →
     (is_Some (r_key_id req) → source_allowed p (r_client_ip req) = true) ∧
     check_request resolve OWorkspace p (subjects (r_request req)) = Ok ()) ∧
  (∀ gv, r_governance req = Some gv → evaluate resolve (r_labels req) gv (policy_request req) = Ok ()) ∧
  (r_gated req = false → rate_passed (g_rate g) (g_rate g')) ∧
  id_counted g g' ∧
  (∃ checks, request_checks_of = Ok checks ∧ (stored_policies → charged_for (g_limits g) (g_limits g') checks)) ∧
  (∀ k budget id, r_key_id req = Some k → r_budget_usd req = Some budget → r_key_uuid req = Some id →
     seeded (g_spend g') !! SKey id = Some (period_key (r_budget_reset req) (r_utc req KeyBudget)) ∧
     (f64_is_finite budget && f64_gt budget (f64_of 0) = true →
      current_micro (SKey id) (g_spend g') < to_micro budget)) ∧
  (0 < workspace_budget req →
     seeded (g_spend g') !! SWorkspace (r_tenant req) = Some (year_month (r_utc req LimitsStep)) ∧
     (f64_is_finite (from_micro (workspace_budget req)) && f64_gt (from_micro (workspace_budget req)) (f64_of 0) = true →
      current_micro (SWorkspace (r_tenant req)) (g_spend g') < to_micro (from_micro (workspace_budget req)))) ∧
  (caller_is_budgeted req = true → r_priced req = true) ∧
  (∀ a, a ∈ applicable_budgets (ws_policy req) (r_governance req) (r_key_uuid req) (r_end_user req) →
     is_hard (ap_budget a) = true → within_budget g' a).
Proof.
  intros (Hfirst & Hctl & Hrules & g4 & g5 & g6 & g7 & g9 & g10 & E3 & E4 & E5 & E6 & E7 & E8 & E10)%run_passed.
  apply and_then_ok in E5 as (hi & Hids & Hbuckets). apply and_then_ok in E7 as (hw & Hws & [Hpriced ->]%refuse_ok).
  assert (∀ X (proj : Gateway → X) f g1 o g2, f g1 = (o, g2) → keeps proj f → proj g2 = proj g1) as Hk.
  { intros X proj f ga o gb Hf Hkeep. specialize (Hkeep ga). by rewrite Hf in Hkeep. }
  assert (∀ X (proj : Gateway → X), keeps proj key_budget → keeps proj ws_spend → (∀ l, keeps proj (check_budgets end_user_hash req l)) →
    keeps proj (audit_step req) → proj g' = proj g6) as Hafter.
  { intros X proj ? ? ? ?. rewrite (Hk _ proj _ _ _ _ E10), (Hk _ proj _ _ _ _ E8), (Hk _ proj _ _ _ _ Hws),
      (Hk _ proj _ _ _ _ E6); unfold budgets_step; auto. }
  assert (g_ledger g10 = g_ledger g) as Hled.
  { rewrite (Hk _ g_ledger _ _ _ _ E8), (Hk _ g_ledger _ _ _ _ Hws), (Hk _ g_ledger _ _ _ _ E6),
      (Hk _ g_ledger _ _ _ _ Hbuckets), (Hk _ g_ledger _ _ _ _ Hids), (Hk _ g_ledger _ _ _ _ E4),
      (Hk _ g_ledger _ _ _ _ E3); unfold budgets_step, policy_step; auto with frames. }
  assert (g_rate g' = g_rate g4) as Hrate.
  { rewrite (Hafter _ g_rate), (Hk _ g_rate _ _ _ _ Hbuckets), (Hk _ g_rate _ _ _ _ Hids), (Hk _ g_rate _ _ _ _ E4);
      unfold policy_step; auto with frames. }
  assert (g_limits hi = g_limits g) as Hlim0.
  { rewrite (Hk _ g_limits _ _ _ _ Hids), (Hk _ g_limits _ _ _ _ E4), (Hk _ g_limits _ _ _ _ E3); unfold policy_step; auto with frames. }
  assert (g_ids g5 = g_ids g) as Hids0.
  { rewrite (Hk _ g_ids _ _ _ _ E4), (Hk _ g_ids _ _ _ _ E3); unfold policy_step; auto with frames. }
  assert (g_limits g' = g_limits g6) as Hlim by (apply Hafter; auto with frames).
  assert (g_ids g' = g_ids hi) as Hids1.
  { rewrite (Hafter _ g_ids), (Hk _ g_ids _ _ _ _ Hbuckets); auto with frames. }
  assert (g_budgets g' = g_budgets g10) as Hbud by (apply (Hk _ g_budgets _ _ _ _ E10); auto with frames).
  assert (g_spend g' = g_spend hw) as Hsp.
  { rewrite (Hk _ g_spend _ _ _ _ E10), (Hk _ g_spend _ _ _ _ E8); unfold budgets_step; auto with frames. }
  split_and!; try apply Hfirst.
  - unfold audit_step in E10. destruct (r_published req); [|done]. injection E10 as <-. simpl. by rewrite Hled.
  - by apply workspace_controls_ok.
  - intros p Hp Hr. by apply workspace_rules_ok.
  - intros gv Hgv. by eapply policy_step_ok.
  - intros Hgate. apply rate_limit_ok in E3. rewrite Hgate in E3. by rewrite Hrate.
  - intros u Hu Hp. rewrite <- Hids0, Hids1. by apply ids_ok.
  - rewrite Hlim, <- Hlim0. by apply limit_buckets_ok.
  - intros k budget id Hkey Hb Hid. unfold key_budget_step in E6. rewrite Hkey, Hb, Hid in E6.
    apply spend_step_ok in E6 as (H1 & H2 & _). rewrite Hsp.
    assert (spend (g_spend hw) !! SKey id = spend (g_spend g7) !! SKey id ∧
      seeded (g_spend hw) !! SKey id = seeded (g_spend g7) !! SKey id) as [Es1 Es2].
    { unfold workspace_spend in Hws. destruct (0 <? _); [|by simplify_eq; split].
      apply spend_step_ok in Hws as (_ & _ & Hw). by apply Hw. }
    unfold current_micro in *. by rewrite Es1, Es2.
  - intros Hpos. rewrite Hsp. unfold workspace_spend in Hws. replace (0 <? workspace_budget req) with true in Hws by lia.
    apply spend_step_ok in Hws as (H1 & H2 & _). done.
  - intros Hb. unfold priced in Hpriced. rewrite Hb in Hpriced. by destruct (r_priced req).
  - intros a Ha Hh. unfold within_budget. rewrite Hbud. by eapply check_budgets_ok.
Qed.
End admission.

(** ** A concrete request *)

#[local] Instance fixed_date : Datelike :=
  { year := λ _, 2026; month := λ _, 10; day := λ _, 5; iso_year := λ _, 2026; iso_week := λ _, 41 }.

Definition resolve_plain (m : bytes) (_ : bool) : Resolved :=
  {| rs_names := [m]; rs_allow_names := [m]; rs_provider := Some (lit "openai") |}.
Definition no_hash (u : bytes) : Z := lenZ u.

(** A key with a request limit and a hard daily budget. *)
Definition small_policy : KeyPolicy :=
  {| models := Some {| allow := []; deny := [lit "gpt-5*"] |}; providers := None; source_ips := [];
     max_input_tokens := Some 100; max_output_tokens := None; max_body_bytes := None; required_tags := [];
     required_metadata_keys := [];
     limits := Some {| l_rate := {| rpm := Some 2; tpm := Some 1000 |}; per_end_user := None; per_model := [] |};
     budget := Some {| micro_usd := 5000000; window := Daily; mode := Hard; alert_at_percent := []; alert_at_micro_usd := [] |};
     end_user_budget := None |}.

Definition small_request (model : string) : Request :=
  {| r_tenant := lit "acme"; r_scope_ok := true; r_key_id := Some (lit "k"); r_key_uuid := Some (lit "k");
     r_governance := Some {| project_id := None; environment := None;
                             layers := [{| ly_origin := OKey; ly_policy := Valid small_policy |}] |};
     r_key_rpm := None; r_budget_usd := Some (f64_of 8); r_budget_reset := Monthly;
     r_trace := lit "trace"; r_parse := None; r_route := None;
     r_request := {| subjects := [{| su_line := None; su_model := Known (lit model); su_workspace_alias := false;
                                     su_provider := None; su_input_tokens := Known 40; su_output_cap := Known (Some 60) |}];
                     body_bytes := Known 10 |};
     r_content_length := None; r_labels := {| lb_tags := []; lb_metadata := [] |}; r_client_ip := None;
     r_end_user := None; r_model := lit model; r_gated := false;
     r_entitlements := Some {| rate_limit_rpm := Some 60;
       e_controls := {| wc_policy := None; paused := None; blocked_models := [lit "o1*"]; blocked_providers := [];
                        blocked_end_users := [] |};
       workspace_budget_micro_usd := 10000000 |};
     r_key_baseline := Some (f64_of 1); r_workspace_baseline := Some (f64_of 2); r_baseline := λ _ _, Some (Total 7);
     r_priced := true; r_decision := PWarn; r_published := true; r_at := λ _, 1000; r_utc := λ _, 1000 |}.

Definition small_config : Config :=
  {| no_control_plane_rpm := None; default_output_reserve_tokens := 1024; seed_backoff := 5; predictive_enforce := true |}.

Definition empty_gateway : Gateway :=
  {| g_rate := ∅; g_ids := {| ec_map := ∅; ec_cap := 10; ec_window := 1000 |}; g_limits := limits_new 10 1000 1000 10;
     g_spend := tracker_new; g_budgets := table_new 10 1000; g_ledger := [] |}.

Abbreviation small_run model := (run no_hash resolve_plain small_config (small_request model) empty_gateway).

(** The policy of the key, as it is stored. *)
Definition small_doc : Doc :=
  {| d_models := Some {| ld_allow := []; ld_deny := [lit "gpt-5*"] |}; d_providers := None; d_source_ips := None;
     d_max_input_tokens := Some 100; d_max_output_tokens := None; d_max_body_bytes := None; d_required_tags := None;
     d_required_metadata_keys := None;
     d_limits := Some {| lmd_rpm := Some 2; lmd_tpm := Some 1000; lmd_per_end_user := None; lmd_per_model := None |};
     d_budget := Some {| bd_usd := f64_of 5; bd_window := Some (lit "daily"); bd_mode := Some (lit "hard");
                         bd_alert_at_percent := None; bd_alert_at_usd := None |};
     d_end_user_budget := None |}.

Lemma small_stored model : stored_policies (small_request model).
Proof.
  split; [|done]. intros gv [= <-]. exists None, None, None, (Some (Some small_doc)). vm_compute. reflexivity.
Qed.

(** The bucket of the key's two requests a minute. *)
Definition small_rpm : Check :=
  {| ck_key := {| bk_scope := Key (lit "k"); bk_dim := All; bk_kind := Rpm |}; ck_limit := 2; ck_cost := 1 |}.

Definition small_budget : Applicable :=
  {| ap_origin := OKey; ap_scope := Key (lit "k"); ap_end_user := None;
     ap_budget := {| micro_usd := 5000000; window := Daily; mode := Hard; alert_at_percent := []; alert_at_micro_usd := [] |} |}.

Lemma admission_sound_witness :
  (small_run "gpt-4o").1 = Ok () ∧ g_ledger (small_run "gpt-4o").2 = [(lit "acme", lit "trace")] ∧
  token_taken (lit "acme") TENANT_BUCKET 60 1000 ∅ (g_rate (small_run "gpt-4o").2) ∧
  bucket_at (g_limits (small_run "gpt-4o").2) (lit "acme") (ck_key small_rpm) = Some (debit 1 1000 (ready 1000 ∅ small_rpm)) ∧
  seeded (g_spend (small_run "gpt-4o").2) !! SWorkspace (lit "acme") = Some 202610 ∧
  within_budget no_hash (small_request "gpt-4o") (small_run "gpt-4o").2 small_budget.
Proof.
  assert ((small_run "gpt-4o").1 = Ok ()) as Hok by (vm_compute; reflexivity).
  assert (small_run "gpt-4o" = (Ok (), (small_run "gpt-4o").2)) as Hrun by (rewrite <- Hok; apply surjective_pairing).
  destruct (admission_sound no_hash resolve_plain small_config (small_request "gpt-4o") empty_gateway _ Hrun)
    as (H1 & _ & _ & _ & _ & H2 & _ & (checks & Hc & H3) & _ & H4 & _ & H5).
  destruct (H2 eq_refl) as [H2t _]. specialize (H2t 60 eq_refl).
  split; [exact Hok|]. split; [exact H1|]. split; [exact H2t|]. split.
  - assert (small_rpm ∈ checks) as Hin.
    { vm_compute in Hc. injection Hc as <-. by left. }
    assert (bmap (room (g_limits empty_gateway) (lit "acme") checks 1000) = ∅) as Hm
      by (vm_compute in Hc; injection Hc as <-; vm_compute; reflexivity).
    destruct (H3 (small_stored "gpt-4o") _ Hin) as [_ Hb]. cbn [small_request r_tenant r_at] in Hb. rewrite Hm in Hb. exact Hb.
  - split; [apply H4; vm_compute; reflexivity|]. apply H5; [by left|done].
Defined.

(** The workspace blocks [o1*], the key denies [gpt-5*]. *)
Abbreviation third_run :=
  (run no_hash resolve_plain small_config (small_request "gpt-4o")
     (run no_hash resolve_plain small_config (small_request "gpt-4o") (small_run "gpt-4o").2).2).

Lemma refusal_charges_nothing_later_witness :
  (small_run "o1-mini").1 = Err (ControlsStep, BlockDenied model_blocked None) ∧
  g_rate (small_run "o1-mini").2 = ∅ ∧
  (∃ d, (small_run "gpt-5").1 = Err (Policy, PolicyDenied d)) ∧
  lt_tenants (g_limits (small_run "gpt-5").2) = ∅ ∧ g_ledger (small_run "gpt-5").2 = [] ∧
  (* the third request of a minute is refused by the limits *)
  (∃ d, third_run.1 = Err (LimitsStep, Control (limit_denial d))) ∧
  ∃ checks, uncharged checks 1000 1000 (ck_key small_rpm)
    (bucket_at (g_limits (run no_hash resolve_plain small_config (small_request "gpt-4o") (small_run "gpt-4o").2).2) (lit "acme") (ck_key small_rpm))
    (bucket_at (g_limits third_run.2) (lit "acme") (ck_key small_rpm)).
Proof.
  assert ((small_run "o1-mini").1 = Err (ControlsStep, BlockDenied model_blocked None)) as E1 by (vm_compute; reflexivity).
  assert (∃ d, (small_run "gpt-5").1 = Err (Policy, PolicyDenied d)) as [d E2] by (eexists; vm_compute; reflexivity).
  assert (∃ d, third_run.1 = Err (LimitsStep, Control (limit_denial d))) as [d3 E3] by (eexists; vm_compute; reflexivity).
  assert (third_run = (Err (LimitsStep, Control (limit_denial d3)), third_run.2)) as R3
    by (rewrite <- E3; apply surjective_pairing).
  assert (small_run "o1-mini" = (Err (ControlsStep, BlockDenied model_blocked None), (small_run "o1-mini").2)) as R1
    by (rewrite <- E1; apply surjective_pairing).
  assert (small_run "gpt-5" = (Err (Policy, PolicyDenied d), (small_run "gpt-5").2)) as R2
    by (rewrite <- E2; apply surjective_pairing).
  destruct (refusal_charges_nothing_later no_hash resolve_plain small_config (small_request "o1-mini") empty_gateway _ _ _ R1)
    as (_ & H1 & _).
  destruct (refusal_charges_nothing_later no_hash resolve_plain small_config (small_request "gpt-5") empty_gateway _ _ _ R2)
    as (H2 & _ & H3 & _).
  destruct (H3 ltac:(vm_compute; reflexivity)) as [_ H4].
  destruct (refusal_charges_nothing_later no_hash resolve_plain small_config (small_request "gpt-4o") _ _ _ _ R3)
    as (_ & _ & _ & _ & _ & H5).
  destruct (H5 eq_refl (small_stored "gpt-4o") (lit "acme") (ck_key small_rpm)) as (checks & _ & H6).
  rewrite bool_decide_true in H6 by reflexivity.
  split_and!; [exact E1|apply H1; vm_compute; reflexivity|by exists d|by rewrite H4|exact H2|by exists d3|by exists checks].
Defined.
