(* ===== verification/SpendProofs.v ===== *)
(** * Per-minute buckets and spend counters

    The limiter charges a request to its tenant's and its key's bucket and no other;
    the spend counter of a subject is its baseline plus what was recorded for it.  Ends
    with a defect of the retry after a failed baseline read. *)

From Stdlib Require Import ZArith Lia.
From stdpp Require Import base list option strings gmap.
From S2P Require Import Prelude Float64 KeyPolicy Budgets Limits Controls Admission.
Local Open Scope Z_scope.
#[local] Arguments f64_of : simpl never.

(** ** The limiter *)

Lemma consume_other name kind rpm now rl k :
  k ≠ (name, kind) → (consume name kind rpm now rl).2 !! k = rl !! k.
Proof. intros Hk. unfold consume. destruct (try_consume _ _ _ _). simpl. by rewrite lookup_insert_ne. Qed.

Lemma key_bucket_inj t id id' : key_bucket t id = key_bucket t id' → id = id'.
Proof. unfold key_bucket. intros E. by apply (inj (t ++.)), (inj (lit "/" ++.)) in E. Qed.

(** The tokens a bucket holds at [now]. *)
Definition filled (rpm now : Z) (o : option BucketState) : f64 :=
  let capacity := f64_of rpm in
  let b := default (bucket_state_new capacity now) o in
  f64_min (f64_add (bs_tokens b)
    (f64_mul (f64_mul (as_secs_f64 (sat_sub now (bs_last_refill b))) (f64_of 1000)) (f64_div capacity (f64_of 60000)))) capacity.

Lemma consume_own name kind rpm now rl :
  let x := filled rpm now (rl !! (name, kind)) in
  let r := consume name kind rpm now rl in
  if f64_ge x (f64_of 1) then
    r.1 = Allow ∧ r.2 !! (name, kind) = Some {| bs_tokens := f64_sub x (f64_of 1); bs_last_refill := now |}
  else (∃ n, r.1 = Throttle n ∧ 1 ≤ n) ∧ r.2 !! (name, kind) = Some {| bs_tokens := x; bs_last_refill := now |}.
Proof.
  unfold consume, try_consume, filled. cbv zeta.
  destruct (f64_ge _ (f64_of 1)); simpl; rewrite lookup_insert_eq; [done|]. split; [|done]. eexists. split; [done|]. lia.
Qed.

(** One caller's requests cost no other caller anything.  A request is allowed
    exactly if its tenant has no cap or holds a token, and its key likewise; it takes
    one token from the tenant's bucket, and then one from the key's.  A tenant that is
    throttled does not lose the key's token.  No bucket of another tenant or of another
    key changes; a caller without caps touches no bucket at all; a throttled caller is
    told to wait at least a second. *)
Theorem check_scoped_isolated t rpm key_id key_rpm now rl :
  let r := check_scoped t rpm key_id key_rpm now rl in
  let tenant_ok := match rpm with Some n => f64_ge (filled n now (rl !! (t, TENANT_BUCKET))) (f64_of 1) | None => true end in
  let key_ok := match key_id, key_rpm with
                | Some id, Some n => (n <=? 0) || f64_ge (filled n now (rl !! (key_bucket t id, KEY_BUCKET))) (f64_of 1)
                | _, _ => true end in
  (r.1 = Allow ↔ tenant_ok && key_ok = true) ∧
  (∀ n, r.1 = Throttle n → 1 ≤ n) ∧
  (∀ k, k ≠ (t, TENANT_BUCKET) → (∀ id, key_id = Some id → k ≠ (key_bucket t id, KEY_BUCKET)) → r.2 !! k = rl !! k) ∧
  (rpm = None → key_rpm = None → r.2 = rl) ∧
  (∀ n, rpm = Some n → bs_tokens <$> r.2 !! (t, TENANT_BUCKET) =
     Some (if tenant_ok then f64_sub (filled n now (rl !! (t, TENANT_BUCKET))) (f64_of 1)
           else filled n now (rl !! (t, TENANT_BUCKET)))) ∧
  (∀ id n, key_id = Some id → key_rpm = Some n → 0 < n →
     if tenant_ok then bs_tokens <$> r.2 !! (key_bucket t id, KEY_BUCKET) =
       Some (if key_ok then f64_sub (filled n now (rl !! (key_bucket t id, KEY_BUCKET))) (f64_of 1)
             else filled n now (rl !! (key_bucket t id, KEY_BUCKET)))
     else r.2 !! (key_bucket t id, KEY_BUCKET) = rl !! (key_bucket t id, KEY_BUCKET)).
Proof.
  intros r tenant_ok key_ok. subst r. unfold check_scoped.
  assert (∃ d rl1, check_tenant t rpm now rl = (d, rl1) ∧
    (if tenant_ok then d = Allow else ∃ n, d = Throttle n ∧ 1 ≤ n) ∧
    (∀ k, k ≠ (t, TENANT_BUCKET) → rl1 !! k = rl !! k) ∧ (rpm = None → rl1 = rl) ∧
    (∀ n, rpm = Some n → bs_tokens <$> rl1 !! (t, TENANT_BUCKET) =
       Some (if tenant_ok then f64_sub (filled n now (rl !! (t, TENANT_BUCKET))) (f64_of 1)
             else filled n now (rl !! (t, TENANT_BUCKET))))) as (d & rl1 & -> & Hd & Ho & Hn & Ht).
  { unfold check_tenant. subst tenant_ok. destruct rpm as [n|]; [|by exists Allow, rl].
    pose proof (consume_own t TENANT_BUCKET n now rl) as Hc. pose proof (consume_other t TENANT_BUCKET n now rl) as Hoth.
    cbv zeta in Hc. destruct (consume t TENANT_BUCKET n now rl) as [d rl1]. simpl in *. exists d, rl1. split; [done|].
    destruct (f64_ge _ _); destruct Hc as [Hd Hb]; split_and!; try done; intros n' [= <-]; by rewrite Hb. }
  clearbody tenant_ok. destruct tenant_ok; cycle 1.
  { destruct Hd as (n & -> & Hn1). simpl. split_and!.
    - by split.
    - by intros ? [= <-].
    - intros k Hk _. by apply Ho.
    - intros Hr _. by apply Hn.
    - exact Ht.
    - intros id n' -> -> Hp. by apply Ho. }
  subst d. simpl andb.
  assert (∀ id, (key_bucket t id, KEY_BUCKET) ≠ (t, TENANT_BUCKET)) as Hdiff by done.
  destruct key_id as [id|]; [destruct key_rpm as [n|]; [destruct (Z.ltb_spec 0 n) as [Hp|Hp]|]|]; subst key_ok; simpl; cycle 1.
  { replace (n <=? 0) with true by lia. split_and!; try done; intros; simplify_eq; eauto; lia. }
  { split_and!; try done; eauto. }
  { split_and!; try done; eauto. }
  replace (n <=? 0) with false by lia. simpl.
  pose proof (consume_own (key_bucket t id) KEY_BUCKET n now rl1) as Hc.
  pose proof (consume_other (key_bucket t id) KEY_BUCKET n now rl1) as Hoth. cbv zeta in Hc.
  rewrite (Ho _ (Hdiff id)) in Hc. destruct (consume (key_bucket t id) KEY_BUCKET n now rl1) as [d rl2]. simpl in *.
  destruct (f64_ge (filled n now (rl !! (key_bucket t id, KEY_BUCKET))) (f64_of 1)).
  - destruct Hc as [-> Hb]. split_and!; try done.
    + intros k Hk1 Hk2. rewrite Hoth by (by apply Hk2). by apply Ho.
    + intros n' E. rewrite Hoth by done. by apply Ht.
    + intros id' n' [= <-] [= <-] _. by rewrite Hb.
  - destruct Hc as [(m & -> & Hm) Hb]. split_and!; try done.
    + by intros ? [= <-].
    + intros k Hk1 Hk2. rewrite Hoth by (by apply Hk2). by apply Ho.
    + intros n' E. rewrite Hoth by done. by apply Ht.
    + intros id' n' [= <-] [= <-] _. by rewrite Hb.
Qed.

(** ** Spend *)

Inductive SpendEvent : Type :=
  | SSeed (who : SpendSubject) (period : Z) (baseline : f64)
  | SFailed (who : SpendSubject) (now : Z)
  | SRecord (who : SpendSubject) (cost : option f64).

Definition sstep (ev : SpendEvent) (st : SpendTracker) : SpendTracker :=
  match ev with
  | SSeed who period baseline => (seed_if_needed who period baseline st).2
  | SFailed who now => note_seed_failed who now st
  | SRecord who cost => spend_record who cost st
  end.

Definition srun (evs : list SpendEvent) (st : SpendTracker) : SpendTracker := foldl (λ st ev, sstep ev st) st evs.

(** The costs recorded for a subject, in micro-dollars. *)
Fixpoint costs (who : SpendSubject) (evs : list SpendEvent) : Z :=
  match evs with
  | [] => 0
  | SRecord w (Some c) :: evs => (if decide (w = who) then to_micro c else 0) + costs who evs
  | _ :: evs => costs who evs
  end.

(** No baseline of another period for the subject. *)
Definition same_month (who : SpendSubject) (period : Z) (ev : SpendEvent) : Prop :=
  match ev with SSeed w p _ => w = who → p = period | _ => True end.

Lemma to_micro_range x : 0 ≤ to_micro x < 2 ^ 64.
Proof.
  unfold to_micro. destruct (_ || _); [lia|]. unfold f64_as_u64.
  pose proof (f64_as_unsigned_bound u64_max (f64_round (f64_mul x MICRO)) ltac:(unfold u64_max; lia)).
  unfold u64_max in *. lia.
Qed.

Lemma current_fetch_add who w n st :
  default 0 (fetch_add who n st !! w) = if decide (w = who) then (current_micro who st + n) mod 2 ^ 64 else current_micro w st.
Proof.
  unfold fetch_add, current_micro. case_decide as Hw; [subst; by rewrite lookup_insert_eq|by rewrite lookup_insert_ne].
Qed.

(** A cost that is not recorded counts nothing. *)
Lemma to_micro_zero c : f64_is_finite c && f64_gt c (f64_of 0) = false → to_micro c = 0.
Proof.
  unfold to_micro. destruct (f64_is_finite c) eqn:Ef; simpl; [|done]. intros Hg.
  destruct (f64_le c (f64_of 0)) eqn:El; [done|]. exfalso. revert Hg El. unfold f64_gt, f64_le, SFltb, SFleb.
  change (f64_of 0) with (S754_zero false). destruct c as [s|s| |[] m e]; simpl in *; done.
Qed.

Lemma sstep_current who period ev st :
  same_month who period ev → seeded st !! who = Some period → 0 ≤ current_micro who st < 2 ^ 64 →
  seeded (sstep ev st) !! who = Some period ∧ 0 ≤ current_micro who (sstep ev st) < 2 ^ 64 ∧
  current_micro who (sstep ev st) = (current_micro who st + costs who [ev]) mod 2 ^ 64.
Proof.
  intros Hsame Hs Hr. destruct ev as [w p b|w now|w [c|]]; simpl.
  - unfold seed_if_needed. destruct (decide (w = who)) as [->|Hne].
    + rewrite Hs. rewrite (Hsame eq_refl), Z.eqb_refl. simpl. rewrite Z.add_0_r, Z.mod_small by done. done.
    + rewrite Z.add_0_r, Z.mod_small by done.
      destruct (seeded st !! w) as [m|]; [destruct (m =? p); [done|]|]; unfold current_micro, fetch_add; simpl; by rewrite !lookup_insert_ne.
  - rewrite Z.add_0_r, Z.mod_small by done. done.
  - rewrite Z.add_0_r. unfold spend_record. destruct (f64_is_finite c && f64_gt c (f64_of 0)) eqn:E; simpl.
    + set (st' := {| spend := _; seeded := _; sp_failed := _ |}).
      change (current_micro who st') with (default 0 (fetch_add w (to_micro c) st !! who)). rewrite current_fetch_add.
      destruct (decide (who = w)) as [<-|Hne].
      * rewrite decide_True by done. split; [done|]. split; [|done]. apply Z.mod_pos_bound. lia.
      * rewrite decide_False by done. by rewrite Z.add_0_r, Z.mod_small.
    + case_decide; rewrite ?(to_micro_zero _ E), ?Z.add_0_r, Z.mod_small by done; done.
  - rewrite Z.add_0_r, Z.mod_small by done. done.
Qed.

Lemma srun_current who period evs st :
  Forall (same_month who period) evs → seeded st !! who = Some period → 0 ≤ current_micro who st < 2 ^ 64 →
  current_micro who (srun evs st) = (current_micro who st + costs who evs) mod 2 ^ 64.
Proof.
  intros Hevs. revert st. induction Hevs as [|ev evs Hev Hevs IH]; intros st Hs Hr.
  { simpl. by rewrite Z.add_0_r, Z.mod_small. }
  destruct (sstep_current who period ev st Hev Hs Hr) as (H1 & H2 & H3).
  change (srun (ev :: evs) st) with (srun evs (sstep ev st)). rewrite (IH _ H1 H2), H3, Z.add_mod_idemp_l by lia.
  f_equal. destruct ev as [?|?|? []]; simpl; lia.
Qed.

(** The cap is on what was spent.  Once a subject has its baseline for the period -
    the first one added to what was recorded while it was read, a later period's
    replacing the old total - any history of other subjects' seeds and records and of
    its own records leaves its counter at the baseline plus its own costs, and the
    check refuses exactly when that has reached the cap; a cost or cap that is not a
    positive number counts as none. *)
Theorem spend_cap_exact who period baseline st evs budget :
  needs_seed who period st = true → 0 ≤ current_micro who st < 2 ^ 64 → Forall (same_month who period) evs →
  f64_is_finite budget && f64_gt budget (f64_of 0) = true →
  let opening := if decide (is_Some (seeded st !! who)) then 0 else current_micro who st in
  let spent := (opening + to_micro baseline + costs who evs) mod 2 ^ 64 in
  let st' := srun evs (seed_if_needed who period baseline st).2 in
  needs_seed who period (seed_if_needed who period baseline st).2 = false ∧
  spend_check who (Some budget) st' =
  if to_micro budget <=? spent then BudgetOver budget (from_micro spent) else BudgetAllow.
Proof.
  intros Hneed Hr Hevs Hb opening spent st'.
  set (st1 := (seed_if_needed who period baseline st).2) in *.
  assert (seeded st1 !! who = Some period ∧ current_micro who st1 = (opening + to_micro baseline) mod 2 ^ 64) as [H1 H2].
  { subst st1 opening. unfold needs_seed in Hneed. unfold seed_if_needed. destruct (seeded st !! who) as [m|] eqn:E.
    - apply negb_true_iff in Hneed. rewrite Hneed, decide_True by eauto.
      unfold current_micro. simpl. rewrite !lookup_insert_eq. simpl. split; [done|].
      rewrite Z.mod_small; [done|apply to_micro_range].
    - rewrite decide_False by (by intros [? ?]). split; [simpl; by rewrite lookup_insert_eq|].
      change (default 0 (fetch_add who (to_micro baseline) st !! who) = (current_micro who st + to_micro baseline) mod 2 ^ 64).
      by rewrite current_fetch_add, decide_True. }
  split; [unfold needs_seed; by rewrite H1, Z.eqb_refl|].
  assert (current_micro who st' = spent) as Hsp.
  { subst st' spent. rewrite (srun_current who period evs st1 Hevs H1), H2, Z.add_mod_idemp_l by (try lia; rewrite H2; apply Z.mod_pos_bound; lia).
    done. }
  unfold spend_check. rewrite Hb. simpl. by rewrite Hsp.
Qed.

Definition usd (n : Z) : f64 := f64_of n.

Lemma spend_cap_exact_witness :
  let st := spend_record (SKey [x01]) (Some (usd 1)) tracker_new in
  let evs := [SRecord (SKey [x02]) (Some (usd 50)); SRecord (SKey [x01]) (Some (usd 2)); SRecord (SKey [x01]) None] in
  spend_check (SKey [x01]) (Some (usd 8)) (srun evs (seed_if_needed (SKey [x01]) 202610 (usd 5) st).2)
  = BudgetOver (usd 8) (from_micro 8000000).
Proof.
  intros st evs.
  assert (needs_seed (SKey [x01]) 202610 st = true) as H1 by (vm_compute; reflexivity).
  assert (0 ≤ current_micro (SKey [x01]) st < 2 ^ 64) as H2 by (vm_compute; split; [discriminate|reflexivity]).
  assert (Forall (same_month (SKey [x01]) 202610) evs) as H3 by (repeat constructor).
  assert (f64_is_finite (usd 8) && f64_gt (usd 8) (f64_of 0) = true) as H4 by (vm_compute; reflexivity).
  destruct (spend_cap_exact (SKey [x01]) 202610 (usd 5) st evs (usd 8) H1 H2 H3 H4) as [_ Hc].
  rewrite Hc. vm_compute. reflexivity.
Defined.

(** ** A defect

    While a failed baseline read is in its backoff the caller is refused without a
    read, and that refusal is noted as a failed read of its own.  So the backoff starts
    again with every request: a caller that sends one at least every [seed_backoff] is
    refused for ever after a single failed read, although every read would succeed. *)
Section backoff.
Variable cfg : Config.
Variables (who : SpendSubject) (period : Z) (budget : f64) (over : f64 → f64 → Refusal).

(** One request per time; [reads] are what the durable read would answer. *)
Fixpoint answers (arrivals : list (Z * option f64)) (g : Gateway) : list (option Refusal) :=
  match arrivals with
  | [] => []
  | (now, read) :: l =>
      let '(r, g) := spend_step cfg who period read now budget over g in r :: answers l g
  end.

Fixpoint spaced (last : Z) (arrivals : list (Z * option f64)) : Prop :=
  match arrivals with
  | [] => True
  | (now, _) :: l => sat_sub now last < seed_backoff cfg ∧ spaced now l
  end.

Theorem backoff_restarts arrivals last g :
  needs_seed who period (g_spend g) = true → sp_failed (g_spend g) !! who = Some last → spaced last arrivals →
  Forall (λ r, r = Some (Control budget_spend_unknown)) (answers arrivals g).
Proof.
  revert last g. induction arrivals as [|[now read] l IH]; intros last g Hn Hf Hsp; simpl; [constructor|].
  destruct Hsp as [Hgap Hsp]. unfold spend_step. rewrite Hn. unfold seed_backing_off. rewrite Hf.
  replace (sat_sub now last <? seed_backoff cfg) with true by lia. simpl. constructor; [done|].
  apply (IH now); [done| |done]. simpl. by rewrite lookup_insert_eq.
Qed.
End backoff.

Definition quick_config : Config :=
  {| no_control_plane_rpm := None; default_output_reserve_tokens := 0; seed_backoff := 5; predictive_enforce := false |}.

(** One failed read at time 0, then a request every 4 while every read would succeed. *)
Example backoff_restarts_run :
  answers quick_config (SKey [x01]) 202610 (usd 8) KeyBudgetExceeded
    [(0, None); (4, Some (usd 0)); (8, Some (usd 0)); (12, Some (usd 0)); (16, Some (usd 0))]
    {| g_rate := ∅; g_ids := {| ec_map := ∅; ec_cap := 1; ec_window := 1 |}; g_limits := limits_new 1 1 1 1;
       g_spend := tracker_new; g_budgets := table_new 1 1; g_ledger := [] |}
  = replicate 5 (Some (Control budget_spend_unknown)).
Proof. vm_compute. reflexivity. Qed.
