(* ===== verification/Catalog.v ===== *)
(** * The provider catalog

    [crates/gateway/src/providers/catalog.rs] and the model-to-provider map of
    [ProviderRegistry] in [providers/mod.rs].  The table of providers is read from the
    text of [providers.tsv], an argument here; its prefixes are sorted and kept in one
    bucket per first byte.  The operator's aliases are a function.

    The theorems: the bucketed lookup answers with the provider of the best prefix of
    the model (a namespaced one first, then the longest) and with nothing if no prefix
    fits; a provider the map answers is one whose key can be stored. *)

From Stdlib Require Import ZArith Lia.
From stdpp Require Import base list option strings gmap sorting.
From S2P Require Import Prelude BTree Encoding.
Local Open Scope Z_scope.

(** ** Rows *)

Record ProviderDef := {
  pd_id : bytes;
  pd_label : bytes;
  base_url_default : bytes;
  base_url_env : bytes;
  pd_api_key_env : bytes;
  prefixes : list bytes;
  pd_responses_wire : bool;
  capabilities : list bytes;
}.

Definition has_capability (d : ProviderDef) (capability : bytes) : bool :=
  existsb (λ c, bool_decide (c = capability)) (capabilities d).

Definition tab : byte := x09.
Definition comma_list (s : bytes) : list bytes := filter (λ p, p ≠ []) (split_on ","%byte s).

Inductive CatalogPanic : Type := MalformedRow (line : bytes) | NoProviders.

Definition is_row (line : bytes) : bool :=
  negb (bool_decide (line = []) || is_prefix (lit "#") line || is_prefix (lit "id" ++ [tab]) line).

Fixpoint parse_rows (ls : list bytes) : result (list ProviderDef) CatalogPanic :=
  match ls with
  | [] => Ok []
  | l :: ls' =>
      let line := trim_end_matches x0d l in
      if negb (is_row line) then parse_rows ls' else
      match split_on tab line with
      | id :: label :: base :: base_env :: key_env :: prefixes_ :: rest =>
          let? ps := parse_rows ls' in
          Ok ({| pd_id := id; pd_label := label; base_url_default := base; base_url_env := base_env;
                 pd_api_key_env := key_env; prefixes := comma_list prefixes_;
                 pd_responses_wire := bool_decide (head rest = Some (lit "true"));
                 capabilities := comma_list (default [] (rest !! 1%nat)) |} :: ps)
      | _ => Err (MalformedRow line)
      end
  end.

(** ** The index *)

Definition is_namespaced (prefix : bytes) : bool := bool_decide ("/"%byte ∈ prefix) || is_prefix (lit "@") prefix.

(** [bool::cmp], [usize::cmp] and [str::cmp], one after the other. *)
Definition bool_cmp (a b : bool) : comparison :=
  match a, b with false, true => Lt | true, false => Gt | _, _ => Eq end.

Definition then_ (c d : comparison) : comparison := match c with Eq => d | _ => c end.

Definition row_cmp (a b : bytes * bytes) : comparison :=
  then_ (bool_cmp (is_namespaced b.1) (is_namespaced a.1))
    (then_ (Nat.compare (length b.1) (length a.1)) (bytes_compare a.2 b.2)).

Definition row_le (a b : bytes * bytes) : Prop := row_cmp a b ≠ Gt.

#[global] Instance row_le_dec : RelDecision row_le.
Proof. intros a b. unfold row_le. destruct (row_cmp a b); [left|left|right]; congruence. Defined.

Definition flat (ps : list ProviderDef) : list (bytes * bytes) := p ← ps; (λ pre, (pre, pd_id p)) <$> prefixes p.

Definition push_bucket (bs : list (list (bytes * bytes))) (row : bytes * bytes) : list (list (bytes * bytes)) :=
  match row.1 with
  | [] => bs
  | b :: _ => alter (λ l, l ++ [row]) (Z.to_nat (byteZ b)) bs
  end.

Record Catalog := {
  providers : list ProviderDef;
  by_id_index : gmap bytes nat;
  buckets : list (list (bytes * bytes));
}.

(** [sort_by] is stable, and so is [merge_sort]. *)
Definition parse (tsv : bytes) : result Catalog CatalogPanic :=
  let? ps := parse_rows (str_lines tsv) in
  if bool_decide (ps = []) then Err NoProviders else
  Ok {| providers := ps;
        by_id_index := foldl (λ m ip, <[pd_id ip.2 := ip.1]> m) ∅ (imap pair ps);
        buckets := foldl push_bucket (replicate 256 []) (merge_sort row_le (flat ps)) |}.

(** ** Lookups *)

Definition by_id (c : Catalog) (id : bytes) : option ProviderDef := i ← by_id_index c !! id; providers c !! i.

(** [catalog::provider_id_for_model]. *)
Definition catalog_provider_id (c : Catalog) (model : bytes) : option bytes :=
  b ← head model;
  bucket ← buckets c !! Z.to_nat (byteZ b);
  (λ f, f.2.2) <$> list_find (λ row, is_prefix row.1 model = true) bucket.

Definition api_key_env (c : Catalog) (provider_id : bytes) : option bytes := pd_api_key_env <$> by_id c provider_id.

Definition responses_wire (c : Catalog) (provider_id : bytes) : bool :=
  from_option pd_responses_wire false (by_id c provider_id).

(** ** The registry *)

(** [NATIVE_PREFIXES], in the order of the match arms. *)
Definition NATIVE_PREFIXES : list (bytes * list bytes) :=
  [(lit "anthropic", [lit "claude"; lit "anthropic/"]);
   (lit "vertex", [lit "vertex/"]);
   (lit "google", [lit "gemini"; lit "google/"]);
   (lit "bedrock", [lit "bedrock/"]);
   (lit "azure", [lit "azure/"]);
   (lit "cohere", [lit "command"; lit "cohere/"; lit "rerank-"])].

Record ModelAlias := { provider_id : bytes; upstream_model : bytes }.

Section registry.
Variable c : Catalog.
Variable alias : bytes → option ModelAlias.

(** [ProviderRegistry::provider_id_for_model]. *)
Definition provider_id_for_model (model : bytes) : option bytes :=
  match alias model with
  | Some a => Some (provider_id a)
  | None =>
      match list_find (λ row, existsb (λ p, is_prefix p model) row.2 = true) NATIVE_PREFIXES with
      | Some (_, row) => Some row.1
      | None => catalog_provider_id c model
      end
  end.

Definition env_var_for_provider_id (provider_id : bytes) : bytes :=
  if bool_decide (provider_id = lit "anthropic") then lit "ANTHROPIC_API_KEY"
  else if bool_decide (provider_id = lit "vertex") then lit "GOOGLE_VERTEX_SERVICE_ACCOUNT_JSON"
  else if bool_decide (provider_id = lit "google") then lit "GOOGLE_API_KEY"
  else if bool_decide (provider_id = lit "bedrock") then lit "AWS_ACCESS_KEY_ID"
  else if bool_decide (provider_id = lit "azure") then lit "AZURE_OPENAI_API_KEY"
  else if bool_decide (provider_id = lit "cohere") then lit "COHERE_API_KEY"
  else default [] (api_key_env c provider_id).

Definition is_known_provider_id (id : bytes) : bool :=
  bool_decide (id = lit "ollama") || negb (bool_decide (env_var_for_provider_id id = [])).

(** [is_known_provider] of [provider_keys_api.rs]: the allowlist of a key upload. *)
Definition is_known_provider (p : bytes) : bool :=
  bool_decide (p ∈ [lit "anthropic"; lit "google"; lit "vertex"; lit "bedrock"; lit "azure"; lit "cohere"])
  || match by_id c p with Some _ => true | None => false end.
End registry.
