(* ===== verification/CatalogProofs.v ===== *)
(** * The catalog: the best prefix wins

    The order of the index, what a bucket holds, and the lookup against the reference
    reading of the table. *)

From Stdlib Require Import ZArith Lia.
From stdpp Require Import base list option strings gmap sorting.
From S2P Require Import Prelude BTree Encoding Catalog.
Local Open Scope Z_scope.

Lemma is_prefix_spec p s : is_prefix p s = true ↔ p `prefix_of` s.
Proof.
  revert s. induction p as [|a p IH]; intros s; simpl; [split; [intros _; apply prefix_nil|done]|].
  destruct s as [|b s]; [split; [done|by intros ?%prefix_nil_not]|].
  rewrite andb_true_iff, bool_decide_eq_true, IH. split.
  - intros [-> ?]. by apply prefix_cons.
  - intros Hp. split; [by eapply prefix_cons_inv_1|by eapply prefix_cons_inv_2].
Qed.

(** ** The order of the index *)

Definition bytes_le (a b : bytes) : Prop := bytes_compare a b ≠ Gt.

Lemma bytes_le_trans a b c : bytes_le a b → bytes_le b c → bytes_le a c.
Proof.
  unfold bytes_le. destruct (bytes_compare a b) eqn:E; [apply bytes_compare_eq in E as ->; done| |done].
  destruct (bytes_compare b c) eqn:E'; [apply bytes_compare_eq in E' as ->; congruence| |done].
  intros _ _. by rewrite (bytes_lt_trans a b c E E').
Qed.

Lemma bytes_le_antisym a b : bytes_le a b → bytes_le b a → a = b.
Proof.
  unfold bytes_le. rewrite (bytes_compare_antisym a b). destruct (bytes_compare a b) eqn:E; simpl; [|done..].
  intros _ _. by apply bytes_compare_eq.
Qed.

Lemma row_le_spec a b : row_le a b ↔
  (is_namespaced b.1 = true → is_namespaced a.1 = true) ∧
  (is_namespaced a.1 = is_namespaced b.1 →
     (length b.1 ≤ length a.1)%nat ∧ (length b.1 = length a.1 → bytes_le a.2 b.2)).
Proof.
  unfold row_le, row_cmp, bytes_le. destruct (is_namespaced a.1), (is_namespaced b.1); simpl;
    try (split; [intros ?; split; [done|done]|done]); try (split; [done|intros [H _]; by specialize (H eq_refl)]);
    destruct (Nat.compare_spec (length b.1) (length a.1)); simpl; split; try (intros ?; split_and!; lia || done || lia);
    try (intros [_ H']; specialize (H' eq_refl); destruct H' as [? H']; try lia; by apply H'); try done.
  all: intros H'; split; [done|]; intros _; split; [lia|]; try (intros; done); lia.
Qed.

#[global] Instance row_le_trans : Transitive row_le.
Proof.
  intros a b c. rewrite !row_le_spec. intros [H1 H2] [H3 H4]. split; [tauto|]. intros Eac.
  assert (is_namespaced a.1 = is_namespaced b.1) as Eab.
  { destruct (is_namespaced a.1), (is_namespaced b.1), (is_namespaced c.1); simpl in *; try done; naive_solver. }
  destruct (H2 Eab) as [H5 H6], (H4 ltac:(congruence)) as [H7 H8]. split; [lia|]. intros El.
  eapply bytes_le_trans; [apply H6|apply H8]; lia.
Qed.

#[global] Instance row_le_total : Total row_le.
Proof.
  intros a b. unfold row_le, row_cmp. rewrite (bytes_compare_antisym a.2 b.2), (Nat.compare_antisym (length b.1) (length a.1)).
  destruct (is_namespaced a.1), (is_namespaced b.1); simpl; try (by left); try (by right);
    destruct (Nat.compare _ _); simpl; try (by left); try (by right); destruct (bytes_compare a.2 b.2); by (left + right).
Qed.

(** ** Buckets *)

Lemma byteZ_inj a b : Z.to_nat (byteZ a) = Z.to_nat (byteZ b) → a = b.
Proof.
  intros E. pose proof (byteZ_bounds a). pose proof (byteZ_bounds b). rewrite <- (Zbyte_byteZ a), <- (Zbyte_byteZ b). f_equal. lia.
Qed.

Lemma buckets_spec b l bs old :
  bs !! Z.to_nat (byteZ b) = Some old →
  foldl push_bucket bs l !! Z.to_nat (byteZ b) = Some (old ++ filter (λ row, head row.1 = Some b) l).
Proof.
  revert bs old. induction l as [|[pre id] l IH]; intros bs old Hb; simpl; [by rewrite app_nil_r|].
  destruct pre as [|x pre]; cbn [push_bucket fst].
  { rewrite filter_cons_False by done. by apply IH. }
  destruct (decide (x = b)) as [->|Hne].
  - rewrite filter_cons_True by done. rewrite cons_middle, (app_assoc old). apply IH. by rewrite list_lookup_alter_eq, Hb.
  - rewrite filter_cons_False by (simpl; congruence). apply IH. rewrite list_lookup_alter_ne; [done|].
    intros E%byteZ_inj. done.
Qed.

(** The first hit of a sorted list is below every other hit. *)
Lemma list_find_least {A} (R : relation A) (P : A → Prop) `{∀ x, Decision (P x)} (l : list A) i x :
  StronglySorted R l → list_find P l = Some (i, x) → ∀ y, y ∈ l → P y → y = x ∨ R x y.
Proof.
  revert i. induction l as [|a l IH]; intros i Hs; simpl; [done|]. apply StronglySorted_inv in Hs as [Hs Hall].
  case_decide as Ha.
  - intros [= <- <-] y [->|Hy]%elem_of_cons _; [by left|right]. by eapply Forall_forall in Hall.
  - destruct (list_find P l) as [[j z]|]; [|done]. simpl. intros [= <- <-] y [->|Hy]%elem_of_cons Hp; [done|].
    by eapply IH.
Qed.

Lemma StronglySorted_filter {A} (R : relation A) (P : A → Prop) `{∀ x, Decision (P x)} (l : list A) :
  StronglySorted R l → StronglySorted R (filter P l).
Proof.
  induction 1 as [|a l Hs IH Hall]; [constructor|]. rewrite filter_cons. case_decide; [|done].
  constructor; [done|]. apply Forall_forall. intros x [_ Hx]%list_elem_of_filter. by eapply Forall_forall in Hall.
Qed.

(** ** The lookup *)

(** The rows of the table that fit a model. *)
Definition fits (ps : list ProviderDef) (model pre id : bytes) : Prop :=
  (∃ d, d ∈ ps ∧ pd_id d = id ∧ pre ∈ prefixes d) ∧ pre ≠ [] ∧ pre `prefix_of` model.

(** No other row that fits is namespaced when this one is not, is longer in the same
    class, or has a smaller id at the same prefix. *)
Definition best (ps : list ProviderDef) (model pre id : bytes) : Prop :=
  fits ps model pre id ∧ ∀ pre' id', fits ps model pre' id' →
    (is_namespaced pre' = true → is_namespaced pre = true) ∧
    (is_namespaced pre = is_namespaced pre' → (length pre' ≤ length pre)%nat ∧ (pre' = pre → bytes_le id id')).

Lemma flat_elem ps pre id : (pre, id) ∈ flat ps ↔ ∃ d, d ∈ ps ∧ pd_id d = id ∧ pre ∈ prefixes d.
Proof.
  unfold flat. rewrite list_elem_of_bind. setoid_rewrite list_elem_of_fmap. naive_solver.
Qed.

Lemma prefix_same_length (a b m : bytes) : a `prefix_of` m → b `prefix_of` m → length a = length b → a = b.
Proof. intros [x ->] [y E] El. by apply app_inj_1 in E as [-> _]. Qed.

Lemma best_unique ps model pre id pre' id' : best ps model pre id → best ps model pre' id' → id = id'.
Proof.
  intros [F B] [F' B']. destruct (B _ _ F') as [N1 L1], (B' _ _ F) as [N2 L2].
  assert (is_namespaced pre = is_namespaced pre') as E by (destruct (is_namespaced pre), (is_namespaced pre'); naive_solver).
  destruct (L1 E) as [? H1], (L2 (eq_sym E)) as [? H2]. destruct F as (_ & _ & P), F' as (_ & _ & P').
  assert (pre = pre') as -> by (eapply prefix_same_length; eauto; lia). by apply bytes_le_antisym; auto.
Qed.

(** The rows of a model's bucket that are prefixes of it are the rows that fit. *)
Lemma bucket_rows ps model b : head model = Some b → ∀ pre id,
  ((pre, id) ∈ filter (λ row, head row.1 = Some b) (merge_sort row_le (flat ps)) ∧ is_prefix pre model = true)
  ↔ fits ps model pre id.
Proof.
  intros Hb pre id. rewrite list_elem_of_filter, merge_sort_Permutation, flat_elem, is_prefix_spec. unfold fits. simpl. split.
  - intros [[Hh Ho] Hp]. split_and!; [done| |done]. by intros ->.
  - intros (Ho & Hn & Hp). split_and!; [|done|done]. destruct pre as [|x pre]; [done|].
    destruct model as [|y model]; [done|]. simpl in *. apply prefix_cons_inv_1 in Hp. congruence.
Qed.

Lemma catalog_find ps model :
  match b ← head model; list_find (λ row, is_prefix row.1 model = true)
          (filter (λ row, head row.1 = Some b) (merge_sort row_le (flat ps))) with
  | Some (_, (pre, id)) => best ps model pre id
  | None => ∀ pre id, ¬ fits ps model pre id
  end.
Proof.
  destruct (head model) as [b|] eqn:Hb; simpl.
  - pose proof (bucket_rows ps model b Hb) as Hrows. set (l := filter _ _) in *.
    assert (StronglySorted row_le l) as Hs.
    { apply StronglySorted_filter, StronglySorted_merge_sort; apply _. }
    destruct (list_find _ l) as [[i [pre id]]|] eqn:E.
    + pose proof (list_find_least _ _ _ _ _ Hs E) as Hleast. apply list_find_Some in E as (Hi & Hp & _).
      apply list_elem_of_lookup_2 in Hi. split; [by apply Hrows|]. intros pre' id' [Hin Hp']%Hrows.
      destruct (Hleast (pre', id') Hin Hp') as [[= -> ->]|[H1 H2]%row_le_spec].
      * split; [done|]. intros _. split; [done|]. intros _. unfold bytes_le.
        by rewrite (proj2 (bytes_compare_eq id id) eq_refl).
      * simpl in *. split; [done|]. intros En. destruct (H2 En) as [? H3]. split; [done|]. intros ->. by apply H3.
    + intros pre id [Hin Hp]%Hrows. rewrite list_find_None, Forall_forall in E. by apply (E _ Hin).
  - intros pre id (_ & Hn & Hp). destruct model; [|done]. by apply prefix_nil_inv in Hp.
Qed.

Lemma catalog_lookup c ps model :
  buckets c = foldl push_bucket (replicate 256 []) (merge_sort row_le (flat ps)) →
  catalog_provider_id c model =
    (λ f, f.2.2) <$> (b ← head model; list_find (λ row, is_prefix row.1 model = true)
                        (filter (λ row, head row.1 = Some b) (merge_sort row_le (flat ps)))).
Proof.
  unfold catalog_provider_id. intros ->. destruct (head model) as [b|]; [|done]. cbn [mbind option_bind].
  rewrite (buckets_spec b _ _ []); [done|]. apply lookup_replicate_2. pose proof (byteZ_bounds b). lia.
Qed.

Lemma parse_providers tsv c : parse tsv = Ok c →
  ∃ ps, providers c = ps ∧ buckets c = foldl push_bucket (replicate 256 []) (merge_sort row_le (flat ps)).
Proof. unfold parse. intros (ps & _ & Hp)%rbind_Ok. case_bool_decide; [done|]. injection Hp as <-. eauto. Qed.

(** C35. The catalog answers with the best prefix.  The index of one bucket per first
    byte is an optimisation of reading the whole table: a model resolves to a provider
    exactly when some row's prefix fits it and no fitting row is better, a namespaced
    prefix being better than a bare one and a longer one than a shorter; and it
    resolves to nothing exactly when no prefix of the table fits, there being no
    default. *)
Theorem catalog_answers_best_prefix tsv c model :
  parse tsv = Ok c →
  (∀ id, catalog_provider_id c model = Some id ↔ ∃ pre, best (providers c) model pre id) ∧
  (catalog_provider_id c model = None ↔ ∀ pre id, ¬ fits (providers c) model pre id).
Proof.
  intros (ps & -> & Hb)%parse_providers. rewrite (catalog_lookup c ps) by done.
  pose proof (catalog_find ps model) as Hf. destruct (mbind _ _) as [[i [pre id]]|]; simpl.
  - split.
    + intros id'. split; [intros [= <-]; eauto|]. intros [pre' Hbest]. f_equal. by eapply best_unique.
    + split; [done|]. intros Hn. destruct Hf as [Hf _]. by apply Hn in Hf.
  - split; [|done]. intros id. split; [done|]. intros (pre & Hfit & _). by apply Hf in Hfit.
Qed.

(** ** Every routed provider can be keyed *)

Lemma index_spec (ps : list ProviderDef) (k : nat) (m : gmap bytes nat) id :
  let m' := foldl (λ m ip, <[pd_id ip.2 := ip.1]> m) m (imap (λ i d, ((k + i)%nat, d)) ps) in
  (∃ i d, ps !! i = Some d ∧ pd_id d = id ∧ m' !! id = Some (k + i)%nat) ∨
  (id ∉ pd_id <$> ps ∧ m' !! id = m !! id).
Proof.
  revert k m. induction ps as [|d ps IH]; intros k m m'; [right; split; [apply not_elem_of_nil|done]|].
  assert (m' = foldl (λ m ip, <[pd_id ip.2 := ip.1]> m) (<[pd_id d := k]> m) (imap (λ i d, ((S k + i)%nat, d)) ps)) as ->.
  { unfold m'. rewrite imap_cons. simpl. rewrite Nat.add_0_r. f_equal. apply imap_ext. intros i x _. simpl. f_equal. lia. }
  destruct (IH (S k) (<[pd_id d := k]> m)) as [(i & x & Hi & Hx & E)|[Hn E]].
  - left. exists (S i), x. split_and!; [done|done|]. rewrite E. f_equal. lia.
  - rewrite E. destruct (decide (pd_id d = id)) as [<-|Hne].
    + left. exists 0%nat, d. rewrite lookup_insert_eq. split_and!; [done|done|f_equal; lia].
    + right. rewrite lookup_insert_ne by done. split; [|done]. rewrite fmap_cons, not_elem_of_cons. split; [congruence|done].
Qed.

Lemma by_id_spec tsv c id : parse tsv = Ok c → id ∈ pd_id <$> providers c → ∃ d, by_id c id = Some d ∧ d ∈ providers c ∧ pd_id d = id.
Proof.
  unfold parse. intros (ps & _ & Hp)%rbind_Ok. case_bool_decide; [done|]. injection Hp as <-. intros Hin.
  unfold by_id. cbn [providers by_id_index] in *.
  destruct (index_spec ps 0 ∅ id) as [(i & d & Hi & Hd & E)|[Hn _]]; [|done].
  exists d. split_and!; [|by eapply list_elem_of_lookup_2|done]. change (imap pair ps) with (imap (λ i d, ((0 + i)%nat, d)) ps).
  rewrite E. done.
Qed.

(** A provider id that the configuration reader accepts is one a key can be stored
    for, if the table has the keyless local provider. *)
Lemma known_id_known c p : is_Some (by_id c (lit "ollama")) → is_known_provider_id c p = true → is_known_provider c p = true.
Proof.
  intros [d Ho]. unfold is_known_provider_id, is_known_provider, env_var_for_provider_id, api_key_env.
  rewrite !orb_true_iff, !bool_decide_eq_true. rewrite negb_true_iff, bool_decide_eq_false. intros [->|Hne].
  - right. by rewrite Ho.
  - repeat (case_bool_decide as E; [left; subst p; by apply (bool_decide_unpack _)|clear E]).
    right. by destruct (by_id c p).
Qed.

(** What is routed can be keyed.  If the configuration reader accepted the providers
    of the operator's aliases, then every provider that the model map answers, by an
    alias, by a native prefix or from the table, is one the key upload accepts: a model
    never dispatches to a provider for which no key can be stored. *)
Theorem routed_is_usable tsv c alias model p :
  parse tsv = Ok c → is_Some (by_id c (lit "ollama")) →
  (∀ m a, alias m = Some a → is_known_provider_id c (provider_id a) = true) →
  provider_id_for_model c alias model = Some p → is_known_provider c p = true.
Proof.
  intros Hc Ho Hal. unfold provider_id_for_model. destruct (alias model) as [a|] eqn:Ea.
  { intros [= <-]. apply known_id_known; eauto. }
  destruct (list_find _ NATIVE_PREFIXES) as [[i row]|] eqn:En.
  - intros [= <-]. apply list_find_Some in En as (Hi & _). apply list_elem_of_lookup_2 in Hi.
    unfold NATIVE_PREFIXES in Hi. repeat (apply elem_of_cons in Hi as [->|Hi]; [done|]). by apply not_elem_of_nil in Hi.
  - intros Hp. pose proof Hc as Hc'. apply parse_providers in Hc' as (ps & Eps & Ebk).
    rewrite (catalog_lookup c ps) in Hp by done. pose proof (catalog_find ps model) as Hf.
    destruct (mbind _ _) as [[i [pre id]]|]; [|done]. injection Hp as <-. destruct Hf as [((d & Hd & <- & _) & _) _].
    destruct (by_id_spec tsv c (pd_id d) Hc) as (d' & E & _); [rewrite Eps; by apply list_elem_of_fmap_2|].
    unfold is_known_provider. simpl. rewrite E. apply orb_true_r.
Qed.

(** ** A small table *)

Definition tsv_row (fields : list string) : bytes :=
  match fields with
  | [] => [newline]
  | f :: fs => lit f ++ (fs ≫= λ f, tab :: lit f) ++ [newline]
  end.

Definition small_tsv : bytes :=
  tsv_row ["# generated"%string]
  ++ tsv_row ["id"; "label"; "base_url"; "base_url_env"; "api_key_env"; "prefixes"]%string
  ++ tsv_row ["groq"; "Groq"; "https://api.groq.com/openai"; "GROQ_BASE_URL"; "GROQ_API_KEY"; "groq/,llama"; "true"; "files,batch"]%string
  ++ tsv_row ["ollama"; "Ollama"; "http://localhost:11434"; "OLLAMA_BASE_URL"; ""; "ollama/"; "false"]%string
  ++ tsv_row ["perplexity"; "Perplexity"; "https://api.perplexity.ai"; "PERPLEXITY_BASE_URL"; "PERPLEXITY_API_KEY"; "llama-3.1-sonar"]%string.

Definition small_catalog : Catalog :=
  match parse small_tsv with Ok c => c | Err _ => {| providers := []; by_id_index := ∅; buckets := [] |} end.

Definition no_alias (_ : bytes) : option ModelAlias := None.

Example small_catalog_lookups :
  catalog_provider_id small_catalog (lit "llama-3.1-sonar-large") = Some (lit "perplexity") ∧
  catalog_provider_id small_catalog (lit "llama-3.3-70b") = Some (lit "groq") ∧
  catalog_provider_id small_catalog (lit "groq/llama-3.1-sonar") = Some (lit "groq") ∧
  catalog_provider_id small_catalog (lit "mystery") = None ∧
  provider_id_for_model small_catalog no_alias (lit "vertex/gemini-2.5-pro") = Some (lit "vertex") ∧
  responses_wire small_catalog (lit "groq") = true ∧ responses_wire small_catalog (lit "ollama") = false ∧
  from_option (λ d, has_capability d (lit "batch")) false (by_id small_catalog (lit "groq")) = true ∧
  parse (lit "groq") = Err (MalformedRow (lit "groq")).
Proof. vm_compute. done. Qed.

Lemma catalog_answers_best_prefix_witness :
  parse small_tsv = Ok small_catalog ∧ ∃ pre, best (providers small_catalog) (lit "llama-3.1-sonar-large") pre (lit "perplexity").
Proof.
  assert (parse small_tsv = Ok small_catalog) as Hp by (vm_compute; reflexivity).
  split; [exact Hp|]. apply (catalog_answers_best_prefix small_tsv small_catalog (lit "llama-3.1-sonar-large") Hp).
  vm_compute. reflexivity.
Defined.

Lemma routed_is_usable_witness :
  provider_id_for_model small_catalog no_alias (lit "groq/llama3") = Some (lit "groq") ∧
  is_known_provider small_catalog (lit "groq") = true.
Proof.
  assert (provider_id_for_model small_catalog no_alias (lit "groq/llama3") = Some (lit "groq")) as Hm by (vm_compute; reflexivity).
  split; [exact Hm|].
  apply (routed_is_usable small_tsv small_catalog no_alias (lit "groq/llama3")); [vm_compute; reflexivity| |done|exact Hm].
  vm_compute. eexists. reflexivity.
Defined.
