(* ===== verification/Pricing.v ===== *)
(** * Prices

    [crates/gateway/src/pricing.rs]: the hand-verified price cards, the generated price
    table behind them, and the cost of a request's tokens.  Rates are US dollars per
    million tokens.  The text of [model_prices.tsv] and the provider map are arguments.

    A block of cards answers [None] when it does not apply, and [Some r] when the
    function returns [r] from it. *)

From Stdlib Require Import ZArith Lia.
From stdpp Require Import base list option strings gmap.
From S2P Require Import Prelude BTree Float64 Encoding Network Glob Catalog.
Local Open Scope Z_scope.

(** ** Decimal numbers *)

(** The binary64 number nearest to [± m 10^k], by the exact quotient. *)
Definition f64_decimal (neg : bool) (m k : Z) : f64 :=
  if m =? 0 then S754_zero neg
  else if 0 <=? k then binary_normalize 53 1024 ((if neg then -1 else 1) * m * 10 ^ k) 0 neg
  else SFdiv 53 1024 (S754_finite neg (Z.to_pos m) 0) (S754_finite false (Z.to_pos (10 ^ (- k))) 0).

(** The digits at the front of a text, and what follows. *)
Fixpoint take_digits (s : bytes) : bytes * bytes :=
  match s with
  | b :: s' => if is_digit b then let '(d, r) := take_digits s' in (b :: d, r) else ([], s)
  | [] => ([], [])
  end.

Definition digits_val (d : bytes) : Z := foldl (λ acc b, acc * 10 + (byteZ b - 48)) 0 d.

Definition take_sign (s : bytes) : bool * bytes :=
  match s with
  | b :: s' => if decide (b = "-"%byte) then (true, s') else if decide (b = "+"%byte) then (false, s') else (false, s)
  | [] => (false, [])
  end.

(** [s.parse::<f64>()]: a sign, digits with an optional point, an optional exponent;
    or [inf], [infinity], [nan] in any case. *)
Definition parse_f64 (s : bytes) : option f64 :=
  let '(neg, s) := take_sign s in
  let low := to_ascii_lowercase s in
  if bool_decide (low = lit "nan") then Some S754_nan
  else if bool_decide (low = lit "inf" ∨ low = lit "infinity") then Some (S754_infinity neg)
  else
    let '(int, rest) := take_digits s in
    let '(frac, rest) := match rest with
                         | b :: rest' => if decide (b = "."%byte) then take_digits rest' else ([], rest)
                         | [] => ([], [])
                         end in
    if bool_decide (int = [] ∧ frac = []) then None else
    let k := - lenZ frac in
    match rest with
    | [] => Some (f64_decimal neg (digits_val (int ++ frac)) k)
    | e :: rest' =>
        if decide (e = "e"%byte ∨ e = "E"%byte) then
          let '(eneg, rest') := take_sign rest' in
          match take_digits rest' with
          | ((_ :: _) as d, []) =>
              Some (f64_decimal neg (digits_val (int ++ frac)) (k + (if eneg then -1 else 1) * digits_val d))
          | _ => None
          end
        else None
    end.

(** A decimal literal of the source. *)
Definition usd (s : string) : f64 := default S754_nan (parse_f64 (lit s)).

(** ** Cards *)

Record LongContext := { threshold_tokens : Z; input_mult : f64; output_mult : f64 }.

Record PriceCard := {
  input_per_mtok : f64;
  output_per_mtok : f64;
  cache_read_per_mtok : f64;
  cache_write_per_mtok : f64;
  long_context : option LongContext;
}.

(** A struct literal, with the fields in the order of the source. *)
Definition card (input output cache_read cache_write : string) : PriceCard :=
  {| input_per_mtok := usd input; output_per_mtok := usd output; cache_read_per_mtok := usd cache_read;
     cache_write_per_mtok := usd cache_write; long_context := None |}.

Definition flat_card (input cache_read output : string) : PriceCard :=
  {| input_per_mtok := usd input; output_per_mtok := usd output; cache_read_per_mtok := usd cache_read;
     cache_write_per_mtok := f64_of 0; long_context := None |}.

Definition long (threshold : Z) (im om : string) (c : PriceCard) : PriceCard :=
  {| input_per_mtok := input_per_mtok c; output_per_mtok := output_per_mtok c;
     cache_read_per_mtok := cache_read_per_mtok c; cache_write_per_mtok := cache_write_per_mtok c;
     long_context := Some {| threshold_tokens := threshold; input_mult := usd im; output_mult := usd om |} |}.

Definition cache_write (rate : string) (c : PriceCard) : PriceCard :=
  {| input_per_mtok := input_per_mtok c; output_per_mtok := output_per_mtok c;
     cache_read_per_mtok := cache_read_per_mtok c; cache_write_per_mtok := usd rate; long_context := long_context c |}.

Definition is_model (bare : bytes) (name : string) : bool :=
  bool_decide (bare = lit name)
  || match strip_prefix (lit name) bare ≫= strip_prefix (lit "-") with
     | Some (c :: _) => is_digit c
     | _ => false
     end.

Definition MTOK : f64 := f64_of 1000000.

Definition contains (m : bytes) (s : string) : bool := contains_text (lit s) m.

(** [matches!(route_prefix, None | Some(..))]. *)
Definition first_party (route_prefix : option bytes) (names : list string) : bool :=
  from_option (λ p, existsb (λ n, bool_decide (p = lit n)) names) true route_prefix.

(** The first line of a vendor's list that names the model. *)
Fixpoint listed (bare : bytes) (l : list (list string * PriceCard)) : option PriceCard :=
  match l with
  | [] => None
  | (names, c) :: l' => if existsb (is_model bare) names then Some c else listed bare l'
  end.

Definition claude_card (m : bytes) : option PriceCard :=
  if contains m "fable" || contains m "mythos" then
    Some (card "10.0" "50.0" (if contains m "-5-1" then "0.25" else "1.0") "12.5")
  else if contains m "opus" then
    if contains m "opus-5-5" then Some (card "4.0" "20.0" "0.2" "5.0")
    else if existsb (contains m) ["opus-4-5"; "opus-4-6"; "opus-4-7"; "opus-4-8"; "opus-5"]%string
    then Some (card "5.0" "25.0" "0.5" "6.25")
    else Some (card "15.0" "75.0" "1.5" "18.75")
  else if contains m "haiku" then
    if contains m "haiku-5-5" then Some (long 100000 "5.0" "5.0" (card "0.10" "0.50" "0.01" "0.125"))
    else if contains m "haiku-3-5" || contains m "3-5-haiku" then Some (card "0.8" "4.0" "0.08" "1.0")
    else Some (card "1.0" "5.0" "0.1" "1.25")
  else if contains m "sonnet" then
    if contains m "sonnet-5" then Some (card "2.0" "10.0" (if contains m "sonnet-5-5" then "0.10" else "0.20") "2.5")
    else Some (card "3.0" "15.0" "0.3" "3.75")
  else None.

Definition deepseek_card (bare : bytes) : option PriceCard :=
  if contains bare "v4-pro" then Some (flat_card "1.32" "0.044" "3.96")
  else if contains bare "v4-flash" || contains bare "deepseek-flash" || bool_decide (bare = lit "deepseek-chat")
          || bool_decide (bare = lit "deepseek-reasoner") then Some (flat_card "0.30" "0.006" "1.20")
  else None.

Definition xai_cards : list (list string * PriceCard) :=
  [(["grok-4.7"%string], long 199999 "2.0" "2.0" (flat_card "2.0" "0.50" "6.0"));
   (["grok-4.3"%string], long 199999 "2.0" "2.0" (flat_card "1.25" "0.20" "2.5"));
   (["grok-build-0.1"%string], long 199999 "2.0" "2.0" (flat_card "1.0" "0.20" "2.0"))].

Definition moonshot_cards : list (list string * PriceCard) :=
  [(["kimi-k3"%string], cache_write "3.0" (flat_card "3.0" "0.30" "15.0"));
   (["kimi-k2.7-code"%string], flat_card "0.95" "0.19" "4.0");
   (["kimi-k2.6"%string], flat_card "0.95" "0.16" "4.0")].

Definition zai_cards : list (list string * PriceCard) :=
  [(["glm-5.3-flashx"%string], flat_card "0.37" "0.075" "1.25");
   (["glm-5.3-flash"%string], flat_card "0.15" "0.03" "0.50");
   (["glm-5.3"%string], flat_card "1.4" "0.26" "4.4")].

Definition alibaba_cards : list (list string * PriceCard) :=
  [(["qwen3.8-max"%string], flat_card "2.0" "0.40" "6.0");
   (["qwen3.7-plus"%string], long 256000 "3.0" "3.0" (flat_card "0.4" "0.08" "1.6"));
   (["qwen3.8-flash"%string], flat_card "0.15" "0.03" "0.47")].

Definition openai_cards : list (list string * PriceCard) :=
  [(["gpt-6-astra"%string], long 272000 "2.0" "1.5" (cache_write "12.5" (flat_card "10.0" "1.0" "50.0")));
   (["gpt-6.1-sol"%string], long 272000 "2.0" "1.5" (cache_write "2.5" (flat_card "2.0" "0.10" "10.0")));
   (["gpt-6-sol"%string], long 272000 "2.0" "1.5" (cache_write "2.5" (flat_card "2.0" "0.20" "10.0")));
   (["gpt-6-luna"%string], long 272000 "2.0" "1.5" (cache_write "0.125" (flat_card "0.10" "0.01" "0.50")));
   (["gpt-5.6-sol"; "gpt-5.6"]%string, long 272000 "2.0" "1.5" (cache_write "5.0" (flat_card "4.0" "0.4" "20.0")));
   (["gpt-5.6-terra"%string], long 272000 "2.0" "1.5" (cache_write "2.5" (flat_card "2.0" "0.2" "12.0")));
   (["gpt-5.6-luna"%string], long 272000 "2.0" "1.5" (cache_write "0.25" (flat_card "0.2" "0.02" "1.2")));
   (["gpt-5.6-cyber"%string], cache_write "15.625" (flat_card "12.5" "1.25" "75.0"));
   (["gpt-5.5-pro"%string], flat_card "30.0" "0.0" "180.0");
   (["gpt-5.5"%string], long 272000 "2.0" "1.5" (flat_card "5.0" "0.5" "30.0"));
   (["gpt-5.3-codex"%string], flat_card "1.75" "0.175" "14.0");
   (["gpt-4o-mini"%string], card "0.15" "0.60" "0.075" "0.0");
   (["gpt-4o"%string], card "2.50" "10.0" "1.25" "0.0")].

Definition gemini_cards : list (list string * PriceCard) :=
  [(["gemini-3.8-flash"%string], flat_card "0.75" "0.075" "3.75");
   (["gemini-3.5-flash-lite"%string], flat_card "0.30" "0.03" "2.50");
   (["gemini-3.5-flash"%string], flat_card "1.50" "0.15" "9.00");
   (["gemini-3.1-flash-lite"%string], flat_card "0.25" "0.025" "1.50");
   (["gemini-3.1-pro-preview"; "gemini-3.1-pro"]%string, long 200000 "2.0" "1.5" (flat_card "2.00" "0.20" "12.00"));
   (["gemini-3-flash-preview"%string], flat_card "0.50" "0.05" "3.00");
   (["gemini-2.5-pro"%string], long 200000 "2.0" "1.5" (flat_card "1.25" "0.125" "10.0"));
   (["gemini-2.5-flash-lite"%string], flat_card "0.10" "0.01" "0.40");
   (["gemini-2.5-flash"%string], flat_card "0.30" "0.03" "2.50");
   (["gemini-2.0-flash"%string], card "0.10" "0.40" "0.0" "0.0")].

Definition ends_with (s suffix : bytes) : bool := is_prefix (reverse suffix) (reverse s).

(** The blocks of [price_card], in order: where a block applies, and what it answers;
    a block that answers nothing falls through unless it is closed. *)
Record Block := { applies : bool; closed : bool; answer : option PriceCard }.

Fixpoint first_block (l : list Block) : option PriceCard :=
  match l with
  | [] => None
  | b :: l' => if applies b then match answer b with
                                 | Some c => Some c
                                 | None => if closed b then None else first_block l'
                                 end
               else first_block l'
  end.

Definition price_card (model : bytes) : option PriceCard :=
  let m := to_ascii_lowercase model in
  let '(route_prefix, bare) := match split_once "/"%byte m with Some (p, rest) => (Some p, rest) | None => (None, m) end in
  first_block
    [{| applies := first_party route_prefix ["anthropic"%string] && is_prefix (lit "claude-") bare; closed := true;
        answer := claude_card m |};
     {| applies := first_party route_prefix ["deepseek"%string] && is_prefix (lit "deepseek") bare; closed := false;
        answer := deepseek_card bare |};
     {| applies := first_party route_prefix ["xai"%string]; closed := false; answer := listed bare xai_cards |};
     {| applies := first_party route_prefix ["moonshot-intl"%string]; closed := false; answer := listed bare moonshot_cards |};
     {| applies := first_party route_prefix ["zai"%string]; closed := false; answer := listed bare zai_cards |};
     {| applies := first_party route_prefix ["alibaba"%string]; closed := false; answer := listed bare alibaba_cards |};
     {| applies := first_party route_prefix ["openai"%string]; closed := false; answer := listed bare openai_cards |};
     {| applies := first_party route_prefix ["google"; "vertex"]%string && is_prefix (lit "gemini-") bare; closed := true;
        answer := if ends_with bare (lit "-latest") then None else listed bare gemini_cards |}].

(** ** Cost *)

Record Usage := {
  u_input_tokens : Z;
  u_output_tokens : Z;
  cache_read_input_tokens : option Z;
  cache_creation_input_tokens : option Z;
}.

Definition tier (c : PriceCard) (prompt : f64) : f64 * f64 :=
  match long_context c with
  | Some lc => if f64_gt prompt (f64_of (threshold_tokens lc)) then (input_mult lc, output_mult lc) else (f64_of 1, f64_of 1)
  | None => (f64_of 1, f64_of 1)
  end.

Definition cost_from_card (c : PriceCard) (u : Usage) : f64 :=
  let input := f64_of (u_input_tokens u) in
  let output := f64_of (u_output_tokens u) in
  let cache_read := f64_of (default 0 (cache_read_input_tokens u)) in
  let cache_write := f64_of (default 0 (cache_creation_input_tokens u)) in
  let '(in_mult, out_mult) := tier c (f64_add (f64_add input cache_read) cache_write) in
  f64_div
    (f64_add
       (f64_mul (f64_add (f64_add (f64_mul input (input_per_mtok c)) (f64_mul cache_read (cache_read_per_mtok c)))
                   (f64_mul cache_write (cache_write_per_mtok c))) in_mult)
       (f64_mul (f64_mul output (output_per_mtok c)) out_mult))
    MTOK.

(** ** The generated table *)

Definition Rates : Type := f64 * f64 * option f64.

Definition is_price_row (line : bytes) : bool :=
  negb (bool_decide (line = []) || is_prefix (lit "#") line || is_prefix (lit "provider" ++ [tab]) line).

Definition price_row (line : bytes) : option (bytes * bytes * Rates) :=
  match split_on tab line with
  | p :: model :: i :: o :: rest =>
      let cr := head rest ≫= parse_f64 in
      i ← parse_f64 i; o ← parse_f64 o; Some (p, model, (i, o, cr))
  | _ => None
  end.

(** A later row replaces an earlier one of the same key. *)
Definition price_table (tsv : bytes) : gmap (bytes * bytes) Rates :=
  foldl (λ t l, let line := trim_end_matches x0d l in
                if negb (is_price_row line) then t
                else match price_row line with Some (k, r) => <[k := r]> t | None => t end) ∅ (str_lines tsv).

Definition rates_card (r : Rates) : PriceCard :=
  let '(input, output, cache_read) := r in
  {| input_per_mtok := input; output_per_mtok := output; cache_read_per_mtok := default input cache_read;
     cache_write_per_mtok := input; long_context := None |}.

Section cost.
Variable t : gmap (bytes * bytes) Rates.
Variable provider_of_model : bytes → option bytes.

Definition or_else {A} (a : option A) (b : option A) : option A := match a with Some _ => a | None => b end.

Definition catalog_card (model : bytes) : option PriceCard :=
  let provider := provider_of_model model in
  rates_card <$>
    or_else (or_else (p ← provider; t !! (p, model))
                     (p ← provider; pb ← split_once "/"%byte model; t !! (p, pb.2)))
            (t !! (lit "*", model)).

Definition catalog_card_for_provider (model provider : bytes) : option PriceCard :=
  r ← strip_prefix provider model; bare ← strip_prefix (lit "/") r;
  rates_card <$> or_else (t !! (provider, model)) (t !! (provider, bare)).

Definition price_model (requested : bytes) (alias : option ModelAlias) : bytes :=
  match alias with Some a => provider_id a ++ lit "/" ++ upstream_model a | None => requested end.

Definition cost_usd (model : bytes) (u : Usage) : option f64 :=
  c ← or_else (price_card model) (catalog_card model); Some (cost_from_card c u).

Definition cost_usd_for_routed_model (requested : bytes) (alias : option ModelAlias) (u : Usage) : option f64 :=
  match alias with
  | None => cost_usd requested u
  | Some a =>
      let m := price_model requested alias in
      c ← or_else (price_card m) (catalog_card_for_provider m (provider_id a)); Some (cost_from_card c u)
  end.

(** [token_pricing_with_alias] of [admission.rs]: is there a price at all. *)
Definition token_priced (alias : bytes → option ModelAlias) (model : bytes) : bool :=
  bool_decide (is_Some (cost_usd_for_routed_model model (alias model)
    {| u_input_tokens := 0; u_output_tokens := 0; cache_read_input_tokens := None; cache_creation_input_tokens := None |})).
End cost.
