(* ===== verification/PricingProofs.v ===== *)
(** * Prices: scope, tiers and signs

    Which card a model takes, the exact threshold of a long-context tier, and that a
    cost is a number that is not negative. *)

From Stdlib Require Import ZArith Lia.
From stdpp Require Import base list option strings gmap.
From S2P Require Import Prelude BTree Float64 Float64Proofs Encoding Network Glob Catalog CatalogProofs Pricing.
Local Open Scope Z_scope.

(** ** Names *)

Lemma strip_prefix_spec p s r : strip_prefix p s = Some r ↔ s = p ++ r.
Proof.
  revert s. induction p as [|a p IH]; intros s; simpl; [split; congruence|].
  destruct s as [|b s]; [done|]. destruct (decide (a = b)) as [->|Hne]; [rewrite IH; split; congruence|].
  split; [done|]. intros [= -> _]. done.
Qed.

(** [is_model] holds of the name and of its dated snapshots. *)
Lemma is_model_spec bare name : is_model bare name = true ↔
  bare = lit name ∨ ∃ d r, is_digit d = true ∧ bare = lit name ++ "-"%byte :: d :: r.
Proof.
  unfold is_model. rewrite orb_true_iff, bool_decide_eq_true. f_equiv. split.
  - destruct (strip_prefix (lit name) bare) as [s|] eqn:E1; simpl; [|done].
    apply strip_prefix_spec in E1 as ->. destruct s as [|b s]; [done|]. destruct (decide _) as [<-|]; [|done].
    destruct s as [|d r]; [done|]. eauto.
  - intros (d & r & Hd & ->). rewrite (proj2 (strip_prefix_spec _ _ ("-"%byte :: d :: r)) eq_refl). done.
Qed.

(** Two names that one model can match: equal, or the one a dated snapshot of the
    other. *)
Definition clash (a b : string) : bool :=
  bool_decide (lit a = lit b) || is_model (lit b) a || bool_decide (lit b = lit a ++ lit "-").

Lemma is_model_clash bare a b : is_model bare a = true → is_model bare b = true → clash a b = true ∨ clash b a = true.
Proof.
  assert (∀ a b x, is_model bare a = true → is_model bare b = true → lit b = lit a ++ x → clash a b = true) as Hlt.
  { clear. intros a b x Ha Hb Ex. unfold clash. rewrite !orb_true_iff, !bool_decide_eq_true.
    destruct x as [|c x]; [left; left; by rewrite app_nil_r in Ex|]. rewrite is_model_spec in Ha.
    assert (lit b `prefix_of` bare) as [y Hy] by (apply is_model_spec in Hb as [->|(d & r & _ & ->)]; [done|by eexists]).
    rewrite Ex, <- app_assoc in Hy. destruct Ha as [Ha|(d & r & Hd & Ha)]; rewrite Hy in Ha.
    - rewrite <- (app_nil_r (lit a)) in Ha at 2. by apply app_inv_head in Ha.
    - apply app_inv_head in Ha. injection Ha as -> Ha. destruct x as [|d' x].
      + right. done.
      + injection Ha as -> _. left. right. apply is_model_spec. right. rewrite Ex. eauto. }
  intros Ha Hb. assert (lit a `prefix_of` bare ∧ lit b `prefix_of` bare) as [Pa Pb].
  { split; [apply is_model_spec in Ha as [->|(? & ? & _ & ->)]|apply is_model_spec in Hb as [->|(? & ? & _ & ->)]]; done || by eexists. }
  destruct (prefix_weak_total _ _ _ Pa Pb) as [[x Hx]|[x Hx]]; [left|right]; eapply Hlt; eauto.
Qed.

Definition no_clash (l : list (list string * PriceCard)) : bool :=
  forallb (λ i, forallb (λ j, bool_decide (i = j) ||
    match l !! i, l !! j with
    | Some (ns, _), Some (ms, _) => forallb (λ a, forallb (λ b, negb (clash a b)) ms) ns
    | _, _ => true
    end) (seq 0 (length l))) (seq 0 (length l)).

Lemma no_clash_spec l i j ns c ms d a b :
  no_clash l = true → l !! i = Some (ns, c) → l !! j = Some (ms, d) → i ≠ j → a ∈ ns → b ∈ ms → clash a b = false.
Proof.
  unfold no_clash. rewrite forallb_forall. intros H Hi Hj Hne Ha Hb.
  specialize (H i). rewrite forallb_forall in H. specialize (H ltac:(apply in_seq; apply lookup_lt_Some in Hi; lia) j).
  specialize (H ltac:(apply in_seq; apply lookup_lt_Some in Hj; lia)). rewrite Hi, Hj, bool_decide_false in H by done. simpl in H.
  rewrite forallb_forall in H. apply list_elem_of_In, H in Ha. rewrite forallb_forall in Ha.
  apply list_elem_of_In, Ha in Hb. by apply negb_true_iff in Hb.
Qed.

Lemma listed_line l bare i ns c a :
  no_clash l = true → l !! i = Some (ns, c) → a ∈ ns → is_model bare a = true → listed bare l = Some c.
Proof.
  intros Hn Hi Ha Hm. assert (∀ j ms d, l !! j = Some (ms, d) → existsb (is_model bare) ms = true → j = i) as Huniq.
  { intros j ms d Hj (b & Hb & Hmb)%existsb_elem_of. destruct (decide (j = i)) as [|Hne]; [done|].
    destruct (is_model_clash bare a b Hm Hmb) as [E|E]; [rewrite (no_clash_spec l i j ns c ms d) in E|rewrite (no_clash_spec l j i ms d ns c) in E]; done. }
  clear Hn. revert i Hi Huniq. induction l as [|[ms d] l IH]; intros i Hi Huniq; [done|]. cbn [listed].
  destruct (existsb (is_model bare) ms) eqn:E.
  - pose proof (Huniq 0%nat ms d eq_refl E) as <-. simpl in Hi. congruence.
  - destruct i as [|i]; simpl in Hi.
    + injection Hi as -> ->. apply not_true_iff_false in E. destruct E. apply existsb_elem_of. eauto.
    + apply (IH i); [done|]. intros j ms' d' Hj He. pose proof (Huniq (S j) ms' d' Hj He). lia.
Qed.

(** ** Which card a model takes *)

(** Every list of [price_card], in the order of its blocks. *)
Definition all_cards : list (list string * PriceCard) :=
  xai_cards ++ moonshot_cards ++ zai_cards ++ alibaba_cards ++ openai_cards ++ gemini_cards.

Lemma all_cards_no_clash : no_clash all_cards = true.
Proof. vm_compute. done. Qed.

Lemma listed_app bare l1 l2 : listed bare (l1 ++ l2) = or_else (listed bare l1) (listed bare l2).
Proof. induction l1 as [|[ns c] l1 IH]; simpl; [done|]. by destruct (existsb _ _). Qed.

Lemma split_once_none c s : c ∉ s → split_once c s = None.
Proof.
  unfold split_once. intros Hn. destruct (list_find _ s) as [[i b]|] eqn:E; [|done].
  apply list_find_Some in E as (Hb & -> & _). by apply list_elem_of_lookup_2 in Hb.
Qed.

Lemma split_once_some c p r : c ∉ p → split_once c (p ++ c :: r) = Some (p, r).
Proof.
  intros Hn. unfold split_once. assert (list_find (λ b, b = c) (p ++ c :: r) = Some (length p, c)) as ->.
  { apply list_find_Some. split_and!; [by rewrite list_lookup_middle|done|]. intros j y Hj Hlt ->.
    rewrite lookup_app_l in Hj by done. by apply list_elem_of_lookup_2 in Hj. }
  simpl. rewrite take_app_length. f_equal. f_equal. rewrite drop_app_ge by lia.
  replace (S (length p) - length p)%nat with 1%nat by lia. done.
Qed.

Definition prefix_compatible (p a : bytes) : bool := is_prefix p a || is_prefix a p.

Lemma not_prefix p a x : prefix_compatible p a = false → is_prefix p (a ++ x) = false.
Proof.
  unfold prefix_compatible. intros [H1 H2]%orb_false_elim. apply not_true_iff_false. rewrite is_prefix_spec. intros Hp.
  apply not_true_iff_false in H1, H2. rewrite is_prefix_spec in H1, H2.
  destruct (prefix_weak_total p a (a ++ x) Hp (ex_intro _ x eq_refl)); tauto.
Qed.

(** No listed name can be read as one of the two families that are matched by a
    prefix, and the Gemini names are those of the last list. *)
Lemma names_apart : forallb (λ line, forallb (λ a,
    negb (prefix_compatible (lit "claude-") (lit a)) && negb (prefix_compatible (lit "deepseek") (lit a))) line.1) all_cards = true.
Proof. vm_compute. done. Qed.

Lemma gemini_only bare : is_prefix (lit "gemini-") bare = false → listed bare gemini_cards = None.
Proof.
  intros Hp. assert (∀ l, forallb (λ line, forallb (λ a, is_prefix (lit "gemini-") (lit a)) line.1) l = true → listed bare l = None) as H.
  { induction l as [|[ns c] l IH]; [done|]. cbn [forallb fst listed]. intros [Hns Hl]%andb_prop.
    destruct (existsb (is_model bare) ns) eqn:E; [|by apply IH]. apply existsb_elem_of in E as (a & Ha & Hm).
    rewrite forallb_forall in Hns. apply list_elem_of_In, Hns, is_prefix_spec in Ha. exfalso.
    apply not_true_iff_false in Hp. apply Hp, is_prefix_spec. etrans; [exact Ha|].
    apply is_model_spec in Hm as [->|(? & ? & _ & ->)]; [done|by eexists]. }
  apply H. vm_compute. done.
Qed.

(** A bare model outside the two prefix families takes its card from the lists. *)
Lemma bare_card model :
  let bare := to_ascii_lowercase model in
  "/"%byte ∉ bare → is_prefix (lit "claude-") bare = false → is_prefix (lit "deepseek") bare = false →
  ends_with bare (lit "-latest") = false → price_card model = listed bare all_cards.
Proof.
  intros bare Hs Hc Hd Hl. unfold price_card. fold bare. rewrite split_once_none by done. cbn [first_block applies].
  rewrite Hc, Hd. cbn [first_party from_option andb applies answer closed first_block]. unfold all_cards. rewrite !listed_app.
  destruct (listed bare xai_cards), (listed bare moonshot_cards), (listed bare zai_cards), (listed bare alibaba_cards),
    (listed bare openai_cards); try done. cbn [or_else]. destruct (is_prefix (lit "gemini-") bare) eqn:Hg; [|by rewrite gemini_only].
  rewrite Hl. by destruct (listed bare gemini_cards).
Qed.

(** A listed model has its own price.  A model that is named in one of the price
    lists, or a dated snapshot of such a name, in any case, takes exactly the card of
    its line: no other line of any list names it, so the order of the lists does not
    matter and a sibling ([gpt-5.5-pro] beside [gpt-5.5]) never takes another model's
    price.  (A floating [-latest] name is left out.) *)
Theorem listed_model_has_its_price model ns c a :
  let bare := to_ascii_lowercase model in
  (ns, c) ∈ all_cards → a ∈ ns → (bare = lit a ∨ ∃ d r, is_digit d = true ∧ bare = lit a ++ "-"%byte :: d :: r) →
  "/"%byte ∉ bare → ends_with bare (lit "-latest") = false →
  price_card model = Some c.
Proof.
  intros bare Hin Ha Hname Hs Hl. apply list_elem_of_lookup_1 in Hin as [i Hi].
  assert (∃ x, bare = lit a ++ x) as [x Hx].
  { destruct Hname as [->|(d & r & _ & ->)]; [exists []; by rewrite app_nil_r|by eexists]. }
  pose proof names_apart as Hap. rewrite forallb_forall in Hap.
  specialize (Hap (ns, c) ltac:(by eapply list_elem_of_In, list_elem_of_lookup_2)). simpl in Hap. rewrite forallb_forall in Hap.
  pose proof (Hap a ltac:(by apply list_elem_of_In)) as Hab. apply andb_prop in Hab as [Hc%negb_true_iff Hd%negb_true_iff].
  rewrite (bare_card model); [|done| | |done].
  - apply (listed_line _ _ i ns c a all_cards_no_clash Hi Ha). by apply is_model_spec.
  - fold bare. rewrite Hx. by apply not_prefix.
  - fold bare. rewrite Hx. by apply not_prefix.
Qed.

(** ** Resellers *)

(** The prefixes of the first-party routes. *)
Definition vendors : list bytes :=
  lit <$> ["anthropic"; "deepseek"; "xai"; "moonshot-intl"; "zai"; "alibaba"; "openai"; "google"; "vertex"]%string.

Lemma reseller_no_card model p rest :
  split_once "/"%byte (to_ascii_lowercase model) = Some (p, rest) → p ∉ vendors → price_card model = None.
Proof.
  intros Hs Hp. unfold price_card. rewrite Hs. unfold vendors in Hp. rewrite !fmap_cons, !not_elem_of_cons in Hp.
  destruct Hp as (H1 & H2 & H3 & H4 & H5 & H6 & H7 & H8 & H9 & _). unfold first_party. cbn [from_option existsb].
  repeat (rewrite bool_decide_false by done). done.
Qed.

Lemma lowercase_slash b : to_ascii_lowercase1 b = "/"%byte ↔ b = "/"%byte.
Proof. destruct b; vm_compute; split; congruence. Qed.

Lemma lowercase_split p r : "/"%byte ∉ p →
  split_once "/"%byte (to_ascii_lowercase (p ++ lit "/" ++ r)) = Some (to_ascii_lowercase p, to_ascii_lowercase r).
Proof.
  intros Hp. unfold to_ascii_lowercase. rewrite fmap_app. change (lit "/" ++ r) with ("/"%byte :: r). rewrite fmap_cons.
  apply (split_once_some "/"%byte (to_ascii_lowercase1 <$> p) (to_ascii_lowercase1 <$> r)).
  rewrite list_elem_of_fmap. intros (b & E & Hb). symmetry in E. apply lowercase_slash in E as ->. done.
Qed.

Section costs.
Variable t : gmap (bytes * bytes) Rates.
Variable provider_of_model : bytes → option bytes.

Abbreviation cost_usd_ := (cost_usd t provider_of_model).
Abbreviation routed_cost := (cost_usd_for_routed_model t provider_of_model).

Lemma catalog_card_row model c : catalog_card t provider_of_model model = Some c →
  ∃ r, c = rates_card r ∧
    ((∃ p, provider_of_model model = Some p ∧
        (t !! (p, model) = Some r ∨ ∃ h b, split_once "/"%byte model = Some (h, b) ∧ t !! (p, b) = Some r)) ∨
     t !! (lit "*", model) = Some r).
Proof.
  unfold catalog_card. intros (r & Hr & ->)%fmap_Some. exists r. split; [done|].
  destruct (provider_of_model model) as [p|]; simpl in Hr; [|by right].
  destruct (t !! (p, model)) as [r'|] eqn:E1; simpl in Hr; [left; exists p; naive_solver|].
  destruct (split_once _ model) as [[h b]|] eqn:E2; simpl in Hr; [|by right].
  destruct (t !! (p, b)) as [r'|] eqn:E3; simpl in Hr; [left; exists p; naive_solver|by right].
Qed.

(** A reseller's model is priced from the reseller's row.  A model routed by the
    prefix of a provider that is not one of the first-party vendors never takes a
    hand-verified card, whatever name follows the prefix: its cost comes from the
    generated table, from the row of the provider it is routed to (with or without the
    prefix) or from the row of the unambiguous full name.  An operator's alias to such
    a provider is priced by the provider and model it sends to, never by the name that
    was requested and never by a row of another provider. *)
Theorem reseller_is_priced_from_its_row :
  (∀ model p rest u x,
     split_once "/"%byte (to_ascii_lowercase model) = Some (p, rest) → p ∉ vendors → cost_usd_ model u = Some x →
     ∃ r, x = cost_from_card (rates_card r) u ∧
       ((∃ q, provider_of_model model = Some q ∧
           (t !! (q, model) = Some r ∨ ∃ h b, split_once "/"%byte model = Some (h, b) ∧ t !! (q, b) = Some r)) ∨
        t !! (lit "*", model) = Some r)) ∧
  (∀ requested a u x,
     "/"%byte ∉ provider_id a → to_ascii_lowercase (provider_id a) ∉ vendors → routed_cost requested (Some a) u = Some x →
     ∃ r, x = cost_from_card (rates_card r) u ∧
       (t !! (provider_id a, provider_id a ++ lit "/" ++ upstream_model a) = Some r ∨
        t !! (provider_id a, upstream_model a) = Some r)).
Proof.
  split.
  - intros model p rest u x Hs Hp. unfold cost_usd. rewrite (reseller_no_card model p rest Hs Hp). simpl.
    destruct (catalog_card _ _ model) as [c|] eqn:E; simpl; [|done]. intros [= <-].
    apply catalog_card_row in E as (r & -> & Hr). eauto.
  - intros requested a u x Hn Hv. unfold cost_usd_for_routed_model, price_model.
    rewrite (reseller_no_card _ _ _ (lowercase_split _ (upstream_model a) Hn) Hv). cbn [or_else].
    unfold catalog_card_for_provider. rewrite (proj2 (strip_prefix_spec _ _ (lit "/" ++ upstream_model a)) eq_refl).
    cbn [mbind option_bind]. rewrite (proj2 (strip_prefix_spec _ _ (upstream_model a)) eq_refl). cbn [mbind option_bind].
    destruct (t !! (provider_id a, provider_id a ++ lit "/" ++ upstream_model a)) as [r|] eqn:E1; simpl.
    + intros [= <-]. eauto.
    + destruct (t !! (provider_id a, upstream_model a)) as [r|] eqn:E2; simpl; [|done]. intros [= <-]. eauto.
Qed.

(** ** Tiers *)

Record usage_wf (u : Usage) : Prop := {
  uw_input : 0 ≤ u_input_tokens u ≤ u32_max;
  uw_output : 0 ≤ u_output_tokens u ≤ u32_max;
  uw_read : 0 ≤ default 0 (cache_read_input_tokens u) ≤ u32_max;
  uw_write : 0 ≤ default 0 (cache_creation_input_tokens u) ≤ u32_max;
}.

(** The whole prompt, cached prefix included. *)
Definition prompt_tokens (u : Usage) : Z :=
  u_input_tokens u + default 0 (cache_read_input_tokens u) + default 0 (cache_creation_input_tokens u).

(** The cost at given multipliers. *)
Definition cost_at (c : PriceCard) (u : Usage) (mults : f64 * f64) : f64 :=
  f64_div
    (f64_add
       (f64_mul (f64_add (f64_add (f64_mul (f64_of (u_input_tokens u)) (input_per_mtok c))
                                  (f64_mul (f64_of (default 0 (cache_read_input_tokens u))) (cache_read_per_mtok c)))
                         (f64_mul (f64_of (default 0 (cache_creation_input_tokens u))) (cache_write_per_mtok c))) mults.1)
       (f64_mul (f64_mul (f64_of (u_output_tokens u)) (output_per_mtok c)) mults.2))
    MTOK.

(** The long-context tier starts exactly above its threshold.  The three counters of
    the prompt are added in floating point, and the sum is compared there; the result
    is the comparison of the integers: the multipliers apply when the whole prompt has
    more tokens than the threshold, and otherwise, one token below, the flat rates. *)
Theorem long_tier_is_exact c u :
  usage_wf u → (∀ lc, long_context c = Some lc → 0 ≤ threshold_tokens lc ≤ u32_max) →
  cost_from_card c u =
    cost_at c u match long_context c with
                | Some lc => if threshold_tokens lc <? prompt_tokens u then (input_mult lc, output_mult lc)
                             else (f64_of 1, f64_of 1)
                | None => (f64_of 1, f64_of 1)
                end.
Proof.
  intros [Hi Ho Hr Hw] Hlc. assert (u32_max < 2 ^ 32) as Hm by done.
  assert (cost_from_card c u = cost_at c u (tier c (f64_of (prompt_tokens u)))) as ->.
  { unfold cost_from_card, prompt_tokens. rewrite !f64_add_of by lia. by destruct (tier _ _). }
  unfold tier. destruct (long_context c) as [lc|]; [|done]. specialize (Hlc lc eq_refl).
  by rewrite f64_gt_of by (unfold prompt_tokens; lia).
Qed.

(** ** Signs *)

Definition rate_ok (x : f64) : bool :=
  match x with S754_zero false | S754_finite false _ _ => true | _ => false end.
Definition mult_ok (x : f64) : bool := match x with S754_finite false _ _ => true | _ => false end.

Definition card_ok (c : PriceCard) : bool :=
  rate_ok (input_per_mtok c) && rate_ok (output_per_mtok c) && rate_ok (cache_read_per_mtok c)
  && rate_ok (cache_write_per_mtok c)
  && from_option (λ lc, mult_ok (input_mult lc) && mult_ok (output_mult lc) && (0 <=? threshold_tokens lc)
                        && (threshold_tokens lc <=? u32_max)) true (long_context c).

(** The rows of the generated table carry rates that are not negative. *)
Definition table_ok : Prop := ∀ k i o cr, t !! k = Some (i, o, cr) →
  rate_ok i = true ∧ rate_ok o = true ∧ from_option rate_ok true cr = true.

Lemma listed_elem bare l c : listed bare l = Some c → ∃ ns, (ns, c) ∈ l.
Proof.
  induction l as [|[ns d] l IH]; simpl; [done|]. destruct (existsb _ _); [intros [= ->]; exists ns; by left|].
  intros (ms & Hm)%IH. exists ms. by right.
Qed.

Lemma all_cards_ok : forallb (λ line, card_ok line.2) all_cards = true.
Proof. vm_compute. done. Qed.

Lemma listed_ok bare l c : (∀ x, x ∈ l → x ∈ all_cards) → listed bare l = Some c → card_ok c = true.
Proof.
  intros Hl (ns & Hin%Hl)%listed_elem. pose proof all_cards_ok as H. rewrite forallb_forall in H.
  apply (H (ns, c)). by apply list_elem_of_In.
Qed.

Lemma claude_card_ok m c : claude_card m = Some c → card_ok c = true.
Proof. unfold claude_card. repeat (case_match; try done); intros [= <-]; vm_compute; done. Qed.

Lemma deepseek_card_ok m c : deepseek_card m = Some c → card_ok c = true.
Proof. unfold deepseek_card. repeat (case_match; try done); intros [= <-]; vm_compute; done. Qed.

Lemma first_block_answer l c : first_block l = Some c → ∃ b, b ∈ l ∧ answer b = Some c.
Proof.
  induction l as [|b l IH]; simpl; [done|]. intros Hb.
  assert (answer b = Some c ∨ first_block l = Some c) as [?|(b' & ? & ?)%IH]; [|exists b; split; [by left|done]|exists b'; split; [by right|done]].
  destruct (applies b); [|by right]. destruct (answer b); [by left|]. destruct (closed b); [done|by right].
Qed.

Ltac in_all := intros ? ?; unfold all_cards; rewrite !elem_of_app; tauto.

Lemma price_card_ok model c : price_card model = Some c → card_ok c = true.
Proof.
  unfold price_card. destruct (match split_once _ _ with Some _ => _ | None => _ end) as [rp bare].
  intros (b & Hb & Ha)%first_block_answer. rewrite !elem_of_cons in Hb.
  destruct Hb as [->|[->|[->|[->|[->|[->|[->|[->|[]%not_elem_of_nil]]]]]]]]; cbn [answer] in Ha.
  - by eapply claude_card_ok.
  - by eapply deepseek_card_ok.
  - eapply listed_ok; [|exact Ha]. in_all.
  - eapply listed_ok; [|exact Ha]. in_all.
  - eapply listed_ok; [|exact Ha]. in_all.
  - eapply listed_ok; [|exact Ha]. in_all.
  - eapply listed_ok; [|exact Ha]. in_all.
  - destruct (ends_with _ _); [done|]. eapply listed_ok; [|exact Ha]. in_all.
Qed.

Lemma rates_card_ok r k : table_ok → t !! k = Some r → card_ok (rates_card r) = true.
Proof.
  destruct r as [[i o] cr]. intros Ht (Hi & Ho & Hc)%Ht. unfold card_ok. simpl. rewrite Hi, Ho.
  destruct cr; simpl in *; by rewrite ?Hc, ?Hi.
Qed.

Lemma rate_nonneg x : rate_ok x = true → nonneg x ∧ f64_is_finite x = true.
Proof. by destruct x as [[]|[]| |[] ? ?]. Qed.

Lemma mult_positive x : mult_ok x = true → positive x.
Proof. by destruct x as [[]|[]| |[] ? ?]. Qed.

Lemma tokens_finite n : 0 ≤ n ≤ u32_max → nonneg (f64_of n) ∧ f64_is_finite (f64_of n) = true.
Proof.
  intros Hn. assert (u32_max < 2 ^ 53) by done. split; [apply f64_of_nonneg; lia|]. destruct (Z.eq_dec n 0) as [->|]; [done|].
  by rewrite f64_of_norm by lia.
Qed.

Lemma tier_positive c prompt : card_ok c = true → positive (tier c prompt).1 ∧ positive (tier c prompt).2.
Proof.
  unfold card_ok, tier. intros [_ Hl]%andb_prop. destruct (long_context c) as [lc|]; simpl in *; [|done].
  repeat apply andb_prop in Hl as [Hl ?]. destruct (f64_gt _ _); simpl; [|done]. split; by apply mult_positive.
Qed.

Lemma cost_nonneg c u : usage_wf u → card_ok c = true → nonneg (cost_from_card c u).
Proof.
  intros [Hi Ho Hr Hw] Hc. unfold cost_from_card. pose proof (tier_positive c) as Ht.
  match goal with |- context [tier c ?p] => specialize (Ht p Hc); destruct (tier c p) as [im om] end. simpl in Ht.
  unfold card_ok in Hc. apply andb_prop in Hc as [Hc _]. repeat apply andb_prop in Hc as [Hc ?].
  assert (∀ n r, 0 ≤ n ≤ u32_max → rate_ok r = true → nonneg (f64_mul (f64_of n) r)) as Hm.
  { intros n r [? ?]%tokens_finite [? ?]%rate_nonneg. by apply f64_mul_nonneg. }
  apply f64_div_positive; [|done].
  apply f64_add_nonneg; apply f64_mul_positive; try tauto; [|by apply Hm]. repeat apply f64_add_nonneg; by apply Hm.
Qed.

Lemma routed_cost_nonneg requested alias u x :
  table_ok → usage_wf u → routed_cost requested alias u = Some x → nonneg x.
Proof.
  intros Ht Hu. unfold cost_usd_for_routed_model, cost_usd.
  assert (∀ m o, (∀ c, o = Some c → card_ok c = true) →
    (c ← or_else (price_card m) o; Some (cost_from_card c u)) = Some x → nonneg x) as H.
  { intros m o Ho. destruct (price_card m) as [c|] eqn:Ep; simpl; [intros [= <-]; by apply cost_nonneg, (price_card_ok m)|].
    destruct o as [c|]; simpl; [|done]. intros [= <-]. apply cost_nonneg; auto. }
  destruct alias as [a|]; apply H; intros c.
  - unfold catalog_card_for_provider. intros (r1 & _ & (r2 & _ & (r & Hr & ->)%fmap_Some)%bind_Some)%bind_Some.
    destruct (t !! (provider_id a, price_model requested (Some a))) as [r'|] eqn:E; simpl in Hr;
      [injection Hr as ->|]; by eapply rates_card_ok.
  - intros (r & -> & [(p & _ & [E|(h & b & _ & E)])|E])%catalog_card_row; by eapply rates_card_ok.
Qed.

(** A cost is a price.  Whatever the model, the alias and the usage, a cost the
    gateway computes is a number, not NaN, and not negative (rates of the generated
    table are assumed not negative; the hand-verified cards are checked).  So a request
    never lowers a spend counter, and never poisons it. *)
Theorem cost_is_a_price requested alias u x :
  table_ok → usage_wf u → routed_cost requested alias u = Some x →
  f64_is_nan x = false ∧ f64_ge x (f64_of 0) = true.
Proof. intros Ht Hu Hx. by eapply nonneg_ge, routed_cost_nonneg. Qed.
End costs.

(** ** A small table *)

Definition small_prices : bytes :=
  tsv_row ["provider"; "model"; "input"; "output"; "cache_read"]%string
  ++ tsv_row ["groq"; "llama-3.3-70b"; "0.59"; "0.79"; ""]%string
  ++ tsv_row ["groq"; "claude-opus-5"; "0.25"; "1.25"; "0.025"]%string
  ++ tsv_row ["groq"; "broken"; "free"; "1.25"]%string
  ++ tsv_row ["*"; "command-r"; "0.5"; "1.5"; "0.05"]%string.

Definition small_table : gmap (bytes * bytes) Rates := price_table small_prices.

Definition small_provider : bytes → option bytes := provider_id_for_model small_catalog no_alias.

Definition tokens (input output : Z) : Usage :=
  {| u_input_tokens := input; u_output_tokens := output; cache_read_input_tokens := Some 10; cache_creation_input_tokens := None |}.

Definition groq_opus : ModelAlias := {| provider_id := lit "groq"; upstream_model := lit "claude-opus-5" |}.

Example price_examples :
  small_table !! (lit "groq", lit "llama-3.3-70b") = Some (usd "0.59", usd "0.79", None) ∧
  small_table !! (lit "groq", lit "broken") = None ∧
  (input_per_mtok <$> price_card (lit "Claude-Opus-5-5-20260901")) = Some (usd "4") ∧
  (input_per_mtok <$> price_card (lit "groq/claude-opus-5")) = None ∧
  (input_per_mtok <$> price_card (lit "vertex/gemini-2.5-pro")) = Some (usd "1.25") ∧
  price_card (lit "gemini-flash-latest") = None ∧ price_card (lit "gpt-5.5-mini") = None ∧
  is_Some (cost_usd small_table small_provider (lit "groq/llama-3.3-70b") (tokens 10 20)) ∧
  token_priced small_table small_provider no_alias (lit "mystery") = false.
Proof. vm_compute. split_and!; (done || by eexists). Qed.

Lemma small_table_ok : table_ok small_table.
Proof.
  assert (map_Forall (λ _ r, (rate_ok r.1.1 && rate_ok r.1.2 && from_option rate_ok true r.2) = true) small_table) as H.
  { apply (bool_decide_unpack _). vm_compute. exact I. }
  intros k i o cr E. specialize (H k _ E). simpl in H. repeat apply andb_prop in H as [H ?]. done.
Qed.

Lemma listed_model_has_its_price_witness :
  price_card (lit "GPT-5.5-2026-10-01") = Some (long 272000 "2.0" "1.5" (flat_card "5.0" "0.5" "30.0")).
Proof.
  apply (listed_model_has_its_price (lit "GPT-5.5-2026-10-01") ["gpt-5.5"%string] _ "gpt-5.5"%string).
  - apply (list_elem_of_lookup_2 _ 21%nat). reflexivity.
  - left.
  - right. exists "2"%byte, (lit "026-10-01"). vm_compute. split; reflexivity.
  - apply (bool_decide_unpack _). vm_compute. exact I.
  - vm_compute. reflexivity.
Defined.

Lemma reseller_is_priced_from_its_row_witness :
  ∃ x r, cost_usd_for_routed_model small_table small_provider (lit "claude-opus-5") (Some groq_opus) (tokens 1000 10) = Some x ∧
    x = cost_from_card (rates_card r) (tokens 1000 10).
Proof.
  destruct (cost_usd_for_routed_model small_table small_provider (lit "claude-opus-5") (Some groq_opus) (tokens 1000 10)) as [x|] eqn:E.
  - destruct (proj2 (reseller_is_priced_from_its_row small_table small_provider) (lit "claude-opus-5") groq_opus (tokens 1000 10) x)
      as (r & Hr & _).
    + apply (bool_decide_unpack _). vm_compute. exact I.
    + apply (bool_decide_unpack _). vm_compute. exact I.
    + exact E.
    + exists x, r. split; [reflexivity|exact Hr].
  - exfalso. vm_compute in E. discriminate E.
Defined.

Lemma tokens_wf a b : 0 ≤ a ≤ u32_max → 0 ≤ b ≤ u32_max → usage_wf (tokens a b).
Proof. intros Ha Hb. by constructor. Qed.

Lemma long_tier_is_exact_witness :
  cost_from_card (long 199999 "2.0" "2.0" (flat_card "2.0" "0.50" "6.0")) (tokens 199990 7)
  = cost_at (long 199999 "2.0" "2.0" (flat_card "2.0" "0.50" "6.0")) (tokens 199990 7) (usd "2.0", usd "2.0").
Proof.
  rewrite (long_tier_is_exact (long 199999 "2.0" "2.0" (flat_card "2.0" "0.50" "6.0")) (tokens 199990 7)).
  - vm_compute. reflexivity.
  - apply tokens_wf; done.
  - intros lc [= <-]. done.
Defined.

Lemma cost_is_a_price_witness : ∃ x,
  cost_usd_for_routed_model small_table small_provider (lit "claude-sonnet-4-6") None (tokens 1000 500) = Some x ∧
  f64_ge x (f64_of 0) = true.
Proof.
  assert (usage_wf (tokens 1000 500)) as Hu by (apply tokens_wf; done).
  destruct (cost_usd_for_routed_model small_table small_provider (lit "claude-sonnet-4-6") None (tokens 1000 500)) as [x|] eqn:E.
  - exists x. split; [reflexivity|].
    exact (proj2 (cost_is_a_price small_table small_provider (lit "claude-sonnet-4-6") None (tokens 1000 500) x small_table_ok
                    Hu E)).
  - exfalso. vm_compute in E. discriminate E.
Defined.
