(* ===== verification/Routing.v ===== *)
(** * Routing: the workspace document and the plan of a request

    [crates/gateway/src/routing/mod.rs], [conditions.rs] and the configuration half of
    [deadlines.rs]: virtual models, key pools, conditional rules and splits, their
    validation on a write, and the ordered candidates a request is dispatched by; with
    [policy_resolve] and [routed_policy_resolve] of [admission.rs], through which the
    controls judge them.

    The provider registry, the operator's aliases, the price table, the identity hash
    and the syntax of header names and uuids are a parameter.  A source of randomness
    is the sequence of its draws. *)

From Stdlib Require Import ZArith Lia.
From stdpp Require Import base list option strings gmap sorting.
From S2P Require Import Prelude BTree Float64 Encoding Hash Json Network Glob KeyPolicy.
Local Open Scope Z_scope.

(** ** Limits *)

(** The [routing] and [timeouts] blocks of the reference table. *)
Record RouteLimits := {
  max_virtual_models : nat;
  max_targets_per_model : nat;
  max_pool_keys_per_provider : nat;
  explore_ratio : f64;
  min_samples : Z;
  doc_max_bytes : nat;
  max_rules : nat;
  max_arms : nat;
  max_match_value_bytes : nat;
  sticky_key_max_bytes : nat;
  match_header_denylist : list bytes;
}.

Record Bounds := {
  min_ms : Z; total_min_ms : Z; max_ms : Z; max_timeout_rules : nat;
  consecutive_failures_min : Z; consecutive_failures_max : Z;
  cooldown_secs_min : Z; cooldown_secs_max : Z;
}.

(** ** The document *)

Inductive Strategy : Type := Priority | Weighted | Latency | Cost.

#[global] Instance Strategy_eq_dec : EqDecision Strategy.
Proof. solve_decision. Defined.

Record Target := { tg_model : bytes; tg_weight : option Z }.
Record VirtualModel := { vm_strategy : Strategy; vm_targets : list Target }.
Record PoolKey := { pk_label : bytes; pk_weight : option Z }.
Record KeyPool := { kp_provider : bytes; kp_strategy : Strategy; kp_keys : list PoolKey }.

Inductive Values : Type := One (v : bytes) | Many (vs : list bytes).

Definition items (v : Values) : list bytes := match v with One v => [v] | Many vs => vs end.

Definition values_match (v : Values) (value : option bytes) : bool :=
  from_option (λ x, bool_decide (x ∈ items v)) false value.

Record Header := { h_name : bytes; h_equals : option bytes; h_prefix : option bytes; h_values : option (list bytes) }.
Record Metadata := { md_key : bytes; md_equals : option bytes; md_values : option (list bytes) }.

Record Match := {
  mt_model : bytes;
  mt_header : option Header;
  mt_metadata : option Metadata;
  mt_tag : option bytes;
  mt_key_id : option Values;
  mt_project_id : option Values;
  mt_environment : option Values;
  mt_end_user_id : option Values;
  mt_stream : option bool;
}.

Inductive Missing : Type := Stable | Random | Refuse.

Record Arm := { arm_name : bytes; arm_route_to : bytes; arm_bp : option Z }.
Record Split := { sticky_by : list bytes; on_missing_identity : Missing; arms : list Arm }.
Record Action := { route_to : option bytes; split : option Split }.
Record Rule := { ru_id : bytes; ru_wires : list bytes; predicate : Match; action : Action; salt : bytes }.

Record Phases := { headers_ms : option Z; first_chunk_ms : option Z; idle_ms : option Z; total_ms : option Z }.
Record TimeoutRule := { tm_provider : option bytes; tm_model : option bytes; tm_phases : Phases }.
Record BreakerOverride := { bo_consecutive_failures : Z; bo_cooldown_secs : Z }.

Definition no_phases : Phases := {| headers_ms := None; first_chunk_ms := None; idle_ms := None; total_ms := None |}.

Record RoutingDoc := {
  rules : list Rule;
  virtual_models : BTreeMap.t VirtualModel;
  key_pools : list KeyPool;
  timeouts : list TimeoutRule;
  breaker : option BreakerOverride;
}.

Inductive RoutingState : Type := NoRouting | ValidRouting (d : RoutingDoc) | InvalidRouting.

Definition routing_doc (s : RoutingState) : option RoutingDoc :=
  match s with ValidRouting d => Some d | _ => None end.

(** ** What the document is read against *)

Class Registry := {
  provider_of : bytes → option bytes;
  op_alias : bytes → option bytes;
  known_provider : bytes → bool;
  route_cost : bytes → Z → Z → option f64;
  sample_draw : bytes → bytes → Z;
  uuid_ok : bytes → bool;
  header_name_ok : bytes → bool;
}.

(** The tenant's aliases, and the keys it holds. *)
Record WriteContext := { wc_aliases : list bytes; wc_labels : list (bytes * bytes) }.

Inductive FieldCode : Type := invalid_field | invalid_target | invalid_rule.
Record FieldError := { fe_code : FieldCode; fe_field : bytes }.

Definition field (at_ : bytes) : FieldError := {| fe_code := invalid_field; fe_field := at_ |}.
Definition target_err (at_ : bytes) : FieldError := {| fe_code := invalid_target; fe_field := at_ |}.
Definition bad_rule (i : Z) : FieldError :=
  {| fe_code := invalid_rule; fe_field := lit "rules[" ++ dec i ++ lit "]" |}.

Definition refuse_if (b : bool) (e : FieldError) : result unit FieldError := if b then Err e else Ok ().

(** A [for] loop with early return; the body sees the index and what came before. *)
Fixpoint for_each {A} (f : Z → list A → A → result unit FieldError) (i : Z) (before l : list A)
    : result unit FieldError :=
  match l with
  | [] => Ok ()
  | a :: l' => let? _ := f i before a in for_each f (i + 1) (before ++ [a]) l'
  end.

Section routing.
Context `{Registry}.
Variable lim : RouteLimits.
Variable bnd : Bounds.

Definition priced (model : bytes) : bool := is_some_b (route_cost model 0 0).

(** ** Write validation *)

Definition is_embedding_model (model : bytes) : bool := contains_text (lit "embed") (to_ascii_lowercase model).

Definition weight_ok (w : option Z) : bool := from_option (λ w, (1 <=? w) && (w <=? 1000)) true w.

Definition MAX_ALIAS_LEN : Z := 64.

Definition valid_alias (alias : bytes) : bool :=
  match alias with
  | [] => false
  | b :: _ => (lenZ alias <=? MAX_ALIAS_LEN) && is_ascii_alphanumeric b
              && forallb (λ c, is_ascii_alphanumeric c || one_of "._:/-" c) alias
  end.

Definition validate_target (doc : RoutingDoc) (ctx : WriteContext) (at_ : bytes) (s : Strategy)
    (i : Z) (before : list Target) (t : Target) : result unit FieldError :=
  let tat := at_ ++ lit ".targets[" ++ dec i ++ lit "]" in
  let m := tg_model t in
  let? _ := refuse_if (bool_decide (m ∈ tg_model <$> before)) (target_err tat) in
  let? _ := refuse_if (is_some_b (BTreeMap.get m (virtual_models doc))) (target_err tat) in
  let? _ := refuse_if (bool_decide (m ∈ wc_aliases ctx)) (target_err tat) in
  let? _ := refuse_if (negb (is_some_b (provider_of m))) (target_err tat) in
  let? _ := refuse_if (negb (weight_ok (tg_weight t))) (field (tat ++ lit ".weight")) in
  refuse_if (bool_decide (s = Cost) && negb (priced m)) (target_err tat).

Definition validate_virtual (doc : RoutingDoc) (ctx : WriteContext) (name : bytes) (vm : VirtualModel)
    : result unit FieldError :=
  let at_ := lit "virtual_models." ++ name in
  let? _ := refuse_if (negb (valid_alias name)) (field at_) in
  let? _ := refuse_if (is_some_b (provider_of name) || is_some_b (op_alias name)) (field at_) in
  let? _ := refuse_if (bool_decide (name ∈ wc_aliases ctx)) (field at_) in
  let? _ := refuse_if (negb (non_empty (vm_targets vm)) || bool_decide (max_targets_per_model lim < length (vm_targets vm))%nat)
              (field (at_ ++ lit ".targets")) in
  let? _ := for_each (validate_target doc ctx at_ (vm_strategy vm)) 0 [] (vm_targets vm) in
  refuse_if (bool_decide (1 < length (vm_targets vm))%nat
             && existsb (λ t, is_embedding_model (tg_model t)) (vm_targets vm)) (target_err (at_ ++ lit ".targets")).

Definition validate_pool_key (ctx : WriteContext) (at_ provider : bytes) (j : Z) (before : list PoolKey) (k : PoolKey)
    : result unit FieldError :=
  let kat := at_ ++ lit ".keys[" ++ dec j ++ lit "]" in
  let? _ := refuse_if (bool_decide (pk_label k ∈ pk_label <$> before)) (field kat) in
  let? _ := refuse_if (negb (bool_decide ((provider, pk_label k) ∈ wc_labels ctx))) (field kat) in
  refuse_if (negb (weight_ok (pk_weight k))) (field (kat ++ lit ".weight")).

Definition validate_pool (ctx : WriteContext) (i : Z) (before : list KeyPool) (pool : KeyPool) : result unit FieldError :=
  let at_ := lit "key_pools[" ++ dec i ++ lit "]" in
  let? _ := refuse_if (bool_decide (kp_provider pool ∈ kp_provider <$> before)) (field (at_ ++ lit ".provider")) in
  let? _ := refuse_if (negb (known_provider (kp_provider pool))) (field (at_ ++ lit ".provider")) in
  let? _ := refuse_if (bool_decide (kp_strategy pool ∉ [Priority; Weighted])) (field (at_ ++ lit ".strategy")) in
  let? _ := refuse_if (negb (non_empty (kp_keys pool)) || bool_decide (max_pool_keys_per_provider lim < length (kp_keys pool))%nat)
              (field (at_ ++ lit ".keys")) in
  for_each (validate_pool_key ctx at_ (kp_provider pool)) 0 [] (kp_keys pool).

(** [deadlines::validate]. *)
Definition validate_phase (i : Z) (name : bytes) (n : option Z) (min : Z) : result unit FieldError :=
  refuse_if (from_option (λ n, (max_ms bnd =? 0) || negb ((min <=? n) && (n <=? max_ms bnd))) false n)
    (field (lit "timeouts[" ++ dec i ++ lit "]." ++ name)).

Definition validate_timeout (i : Z) (_ : list TimeoutRule) (r : TimeoutRule) : result unit FieldError :=
  let at_ := lit "timeouts[" ++ dec i ++ lit "]" in
  let? _ := refuse_if (from_option (λ p, negb (known_provider p)) false (tm_provider r))
              (field (at_ ++ lit ".match.provider")) in
  let? _ := refuse_if (from_option (λ m, bool_decide (m = [] ∨ doc_max_bytes lim < length m)%nat) false (tm_model r))
              (field (at_ ++ lit ".match.model")) in
  let? _ := validate_phase i (lit "headers_ms") (headers_ms (tm_phases r)) (min_ms bnd) in
  let? _ := validate_phase i (lit "first_chunk_ms") (first_chunk_ms (tm_phases r)) (min_ms bnd) in
  let? _ := validate_phase i (lit "idle_ms") (idle_ms (tm_phases r)) (min_ms bnd) in
  validate_phase i (lit "total_ms") (total_ms (tm_phases r)) (total_min_ms bnd).

Definition validate_deadlines (doc : RoutingDoc) : result unit FieldError :=
  let? _ := refuse_if (bool_decide (max_timeout_rules bnd < length (timeouts doc))%nat) (field (lit "timeouts")) in
  let? _ := for_each validate_timeout 0 [] (timeouts doc) in
  match breaker doc with
  | None => Ok ()
  | Some t =>
      let n := bo_consecutive_failures t in
      let c := bo_cooldown_secs t in
      let? _ := refuse_if ((consecutive_failures_max bnd =? 0)
                           || negb ((consecutive_failures_min bnd <=? n) && (n <=? consecutive_failures_max bnd)))
                  (field (lit "breaker.consecutive_failures")) in
      refuse_if ((cooldown_secs_max bnd =? 0)
                 || negb ((cooldown_secs_min bnd <=? c) && (c <=? cooldown_secs_max bnd)))
        (field (lit "breaker.cooldown_secs"))
  end.

(** [conditions::validate]. *)
Definition bounded (v : bytes) : bool :=
  bool_decide (v ≠ [] ∧ length v ≤ max_match_value_bytes lim)%nat.

Definition header_ok (name : bytes) : bool :=
  bounded name && header_name_ok name
  && negb (existsb (λ s, bool_decide (to_ascii_lowercase s = to_ascii_lowercase name)) (match_header_denylist lim)).

Definition b2n (b : bool) : nat := if b then 1%nat else 0%nat.

Definition predicate_ok (equals prefix : option bytes) (values : option (list bytes)) : bool :=
  bool_decide (b2n (is_some_b equals) + b2n (is_some_b prefix) + b2n (is_some_b values) = 1)%nat
  && from_option bounded true equals && from_option bounded true prefix
  && from_option (λ v, bool_decide (v ≠ [] ∧ length v ≤ max_rules lim)%nat && forallb bounded v) true values.

Definition targets (a : Action) : list bytes :=
  option_list (route_to a) ++ from_option (λ s, arm_route_to <$> arms s) [] (split a).

Definition concrete (doc : RoutingDoc) (target : bytes) : list bytes :=
  match BTreeMap.get target (virtual_models doc) with
  | Some v => tg_model <$> vm_targets v
  | None => [target]
  end.

Definition values_ok (v : Values) : bool :=
  bool_decide (items v ≠ [] ∧ length (items v) ≤ max_rules lim)%nat && forallb bounded (items v).

(** The loop over the arms; [sum] adds up the basis points before the last arm. *)
Fixpoint validate_arms (i : Z) (names : list bytes) (sum : Z) (l : list Arm) : result Z FieldError :=
  match l with
  | [] => Ok sum
  | a :: l' =>
      if negb (bounded (arm_name a)) || bool_decide (arm_name a ∈ names) then Err (bad_rule i) else
      match l' with
      | [] => match arm_bp a with Some _ => Err (bad_rule i) | None => Ok sum end
      | _ => match arm_bp a with
             | Some bp => if bp <=? 10000 then validate_arms i (arm_name a :: names) (sum + bp) l' else Err (bad_rule i)
             | None => Err (bad_rule i)
             end
      end
  end.

Definition strip_header (v : bytes) : option bytes :=
  if is_prefix (lit "header:") v then Some (drop 7 v) else None.

Definition sticky_ok (v : bytes) : bool :=
  match strip_header v with
  | Some h => header_ok h
  | None => bool_decide (v ∈ [lit "end_user"; lit "session"; lit "key"])
  end.

Definition validate_split (stored : bool) (i : Z) (r : Rule) (s : Split) : result unit FieldError :=
  let? _ := refuse_if (stored && negb (bounded (salt r))) (bad_rule i) in
  let? _ := refuse_if (bool_decide (length (arms s) < 2 ∨ max_arms lim < length (arms s))%nat) (bad_rule i) in
  let? sum := validate_arms i [] 0 (arms s) in
  let? _ := refuse_if (10000 <? sum) (bad_rule i) in
  refuse_if (bool_decide (max_rules lim < length (sticky_by s))%nat || negb (forallb sticky_ok (sticky_by s))) (bad_rule i).

Definition rule_target_ok (r : Rule) (model : bytes) : bool :=
  match provider_of model with
  | None => false
  | Some p =>
      negb ((bool_decide (lit "messages" ∈ ru_wires r) && negb (bool_decide (p = lit "anthropic")))
            || (bool_decide (lit "gemini" ∈ ru_wires r) && negb (bool_decide (p = lit "google"))))
  end.

Definition rule_targets_ok (doc : RoutingDoc) (r : Rule) : bool :=
  forallb (λ t, bounded t && negb (bool_decide (concrete doc t = [])) && forallb (rule_target_ok r) (concrete doc t))
    (targets (action r)).

Definition rule_wires : list bytes := [lit "chat"; lit "responses"; lit "messages"; lit "gemini"].

Definition validate_rule (doc : RoutingDoc) (stored : bool) (i : Z) (before : list Rule) (r : Rule)
    : result unit FieldError :=
  let m := predicate r in
  let err := bad_rule i in
  let? _ := refuse_if (negb (bounded (ru_id r)) || bool_decide (ru_id r ∈ ru_id <$> before)) err in
  let? _ := refuse_if (bool_decide (ru_wires r = [] ∨ 4 < length (ru_wires r))%nat
                       || negb (forallb (λ w, bool_decide (w ∈ rule_wires)) (ru_wires r))) err in
  let? _ := refuse_if (negb (bounded (mt_model m)) || negb (from_option bounded true (mt_tag m))) err in
  let vals := option_list (mt_key_id m) ++ option_list (mt_project_id m) ++ option_list (mt_environment m)
              ++ option_list (mt_end_user_id m) in
  let? _ := refuse_if (negb (forallb values_ok vals)) err in
  let? _ := refuse_if (negb (forallb (λ v, forallb uuid_ok (items v))
                               (option_list (mt_key_id m) ++ option_list (mt_project_id m)))) err in
  let? _ := refuse_if (negb (from_option (λ h, header_ok (h_name h)
                               && predicate_ok (h_equals h) (h_prefix h) (h_values h)) true (mt_header m))) err in
  let? _ := refuse_if (negb (from_option (λ d, bounded (md_key d)
                               && predicate_ok (md_equals d) None (md_values d)) true (mt_metadata m))) err in
  let? _ := refuse_if (Bool.eqb (is_some_b (route_to (action r))) (is_some_b (split (action r)))) err in
  let? _ := match split (action r) with Some s => validate_split stored i r s | None => Ok () end in
  refuse_if (negb (rule_targets_ok doc r)) err.

Definition validate_rules (doc : RoutingDoc) (stored : bool) : result unit FieldError :=
  let? _ := refuse_if (bool_decide (max_rules lim < length (rules doc))%nat) (bad_rule 0) in
  for_each (validate_rule doc stored) 0 [] (rules doc).

(** [routing::validate]: the checks of a write. *)
Definition validate (doc : RoutingDoc) (ctx : WriteContext) : result unit FieldError :=
  let? _ := validate_deadlines doc in
  let? _ := validate_rules doc false in
  let? _ := refuse_if (bool_decide (max_virtual_models lim < length (virtual_models doc))%nat)
              (field (lit "virtual_models")) in
  let? _ := for_each (λ _ _ kv, validate_virtual doc ctx kv.1 kv.2) 0 [] (virtual_models doc) in
  for_each (validate_pool ctx) 0 [] (key_pools doc).

(** [RoutingState::from_stored]: [None] no document, [Some None] one that does not
    deserialize. *)
Definition from_stored (doc : option (option RoutingDoc)) : RoutingState :=
  match doc with
  | None => NoRouting
  | Some None => InvalidRouting
  | Some (Some d) =>
      match validate_deadlines d, validate_rules d true with
      | Ok _, Ok _ =>
          match d with
          | {| rules := []; virtual_models := []; key_pools := []; timeouts := []; breaker := None |} => NoRouting
          | _ => ValidRouting d
          end
      | _, _ => InvalidRouting
      end
  end.

(** ** Wires *)

Inductive Wire : Type :=
  | Chat | Responses | Messages | Gemini | Embeddings | Media | Realtime | Files | Batches | Passthrough.

Definition wire_str (w : Wire) : bytes :=
  match w with
  | Chat => lit "chat" | Responses => lit "responses" | Messages => lit "messages" | Gemini => lit "gemini"
  | Embeddings => lit "embeddings" | Media => lit "media" | Realtime => lit "realtime" | Files => lit "files"
  | Batches => lit "batches" | Passthrough => lit "passthrough"
  end.

Inductive VirtualSupport : Type := NoVirtual | AnyProvider | OwnProvider (p : bytes) | SingleTarget.
Inductive PoolSupport : Type := DefaultOnly | Pool | SessionStart.

#[global] Instance PoolSupport_eq_dec : EqDecision PoolSupport.
Proof. solve_decision. Defined.

Record RoutingScope := {
  wire : Wire;
  virtual_support : VirtualSupport;
  key_pool : PoolSupport;
  fallthrough : bool;
  has_timeouts : bool;
}.

Definition consults_routing (s : RoutingScope) : bool :=
  has_timeouts s || match virtual_support s with NoVirtual => false | _ => true end
  || negb (bool_decide (key_pool s = DefaultOnly)).

(** ** The order of the targets *)

Record Estimate := { input_tokens : Z; output_tokens : Z }.

Definition weight_of (t : Target) : Z := default 1 (tg_weight t).

(** [u32] weights: the sum of fewer than 2^32 of them is a [u64]. *)
Definition total_weight (ts : list Target) : Z := foldr Z.add 0 (weight_of <$> ts).

(** The first index whose cumulative weight exceeds [r]; [0] if there is none. *)
Fixpoint pick_from (r acc : Z) (i : nat) (ws : list Z) : nat :=
  match ws with
  | [] => 0
  | w :: ws' => if r <? acc + w then i else pick_from r (acc + w) (S i) ws'
  end.

Definition to_front (i : nat) (l : list nat) : list nat := i :: filter (λ j, j ≠ i) l.

(** [partial_cmp(..).unwrap_or(Equal)] is not [Greater]. *)
Definition lat_le (a b : bool * f64 * nat) : Prop :=
  match a, b with
  | (false, _, _), (true, _, _) => True
  | (true, _, _), (false, _, _) => False
  | (_, x, i), (_, y, j) =>
      match SFcompare x y with Some Lt => True | Some Gt => False | Some Eq => (i ≤ j)%nat | None => True end
  end.

#[global] Instance lat_le_dec : RelDecision lat_le.
Proof. intros [[[] x] i] [[[] y] j]; simpl; try solve_decision; destruct (SFcompare x y) as [[]|]; solve_decision. Defined.

Definition cost_le (a b : f64 * nat) : Prop := lat_le (false, a.1, a.2) (false, b.1, b.2).

#[global] Instance cost_le_dec : RelDecision cost_le.
Proof. intros a b. unfold cost_le. apply _. Defined.

Definition latency_key (warm : bytes → bytes → option (f64 * Z)) (i : nat) (t : Target) : bool * f64 * nat :=
  match provider_of (tg_model t) ≫= λ p, warm p (tg_model t) with
  | Some (ms, n) => if min_samples lim <=? n then (false, ms, i) else (true, f64_of 0, i)
  | None => (true, f64_of 0, i)
  end.

(** [Vec::remove] and [insert(0, _)]. *)
Definition move_to_front (k : nat) (l : list nat) : list nat :=
  match l !! k with Some x => x :: delete k l | None => l end.

Definition u32_of (n : Z) : Z := Z.min n u32_max.

(** [order]: the dispatch order and the targets dropped as unpriced.  [warm] is what
    the latency statistics of the request's tenant answer; [rng] are the draws. *)
Definition order (s : Strategy) (ts : list Target) (est : Estimate) (warm : bytes → bytes → option (f64 * Z))
    (rng : nat → Z) : list nat * list nat :=
  let all := seq 0 (length ts) in
  match s with
  | Priority => (all, [])
  | Weighted =>
      let total := total_weight ts in
      if total =? 0 then (all, [])
      else (to_front (pick_from (rng 0%nat mod total) 0 0 (weight_of <$> ts)) all, [])
  | Latency =>
      let explore := rng 0%nat mod 10000 <? f64_as_u64 (f64_mul (explore_ratio lim) (f64_of 10000)) in
      let keyed := merge_sort lat_le (imap (latency_key warm) ts) in
      let out := snd <$> keyed in
      (if explore && bool_decide (1 < length out)%nat
       then move_to_front (Z.to_nat (rng 1%nat mod lenZ out)) out else out, [])
  | Cost =>
      let cost i t := (λ c, (c, i)) <$> route_cost (tg_model t) (u32_of (input_tokens est)) (u32_of (output_tokens est)) in
      let costs := imap (λ i t, (i, cost i t)) ts in
      (snd <$> merge_sort cost_le (omap snd costs),
       fst <$> filter (λ ic, ic.2 = None) costs)
  end.

(** ** The plan *)

Record Candidate := {
  c_model : bytes;
  c_provider : bytes;
  c_target_index : nat;
  weight_pct : option f64;
  ewma_ttfb_ms : option f64;
}.

Inductive SkipReason : Type := unpriced | unroutable.
Record PlanSkip := { sk_provider : bytes; sk_model : bytes; sk_reason : SkipReason }.

Record Assignment := {
  as_rule : bytes;
  as_arm : option bytes;
  as_bucket : option Z;
  as_sticky_source : option bytes;
  as_non_sticky : bool;
  as_arm_pct : option f64;
  as_namespace : option bytes;
}.

Record RoutePlan := {
  rp_requested : bytes;
  virtual_model : option bytes;
  rp_strategy : option Strategy;
  candidates : list Candidate;
  skipped : list PlanSkip;
  policy_targets : list bytes;
  policy_aliases : list bytes;
  assignment : option Assignment;
}.

Definition dispatches (p : RoutePlan) : bool := is_some_b (virtual_model p) || is_some_b (assignment p).

Inductive PlanError : Type :=
  | RoutingInvalid
  | IdentityRequired
  | UnroutableOnWire (model : bytes)
  | NoCandidate (model : bytes).

Definition candidate_of (s : Strategy) (total : Z) (warm : bytes → bytes → option (f64 * Z)) (i : nat) (t : Target)
    (p : bytes) : Candidate :=
  {| c_model := tg_model t; c_provider := p; c_target_index := i;
     weight_pct := if bool_decide (s = Weighted) && (0 <? total)
                   then Some (f64_div (f64_mul (f64_of (weight_of t)) (f64_of 100)) (f64_of total)) else None;
     ewma_ttfb_ms := if bool_decide (s = Latency)
                     then '(ms, n) ← warm p (tg_model t); if min_samples lim <=? n then Some ms else None
                     else None |}.

Definition wire_serves (scope : RoutingScope) (vm : VirtualModel) : bool :=
  match virtual_support scope with
  | NoVirtual => false
  | SingleTarget => bool_decide (length (vm_targets vm) = 1%nat)
  | OwnProvider p => forallb (λ t, bool_decide (provider_of (tg_model t) = Some p)) (vm_targets vm)
  | AnyProvider => true
  end.

(** The indexed targets, in the order of the indices. *)
Definition pick_targets (ts : list Target) (l : list nat) : list (nat * Target) := omap (λ i, (i,.) <$> ts !! i) l.

(** [routing::plan]. *)
Definition plan_virtual (scope : RoutingScope) (requested : bytes) (state : RoutingState) (est : Estimate)
    (warm : bytes → bytes → option (f64 * Z)) (rng : nat → Z) : result (option RoutePlan) PlanError :=
  match state with
  | NoRouting => Ok None
  | InvalidRouting => if consults_routing scope then Err RoutingInvalid else Ok None
  | ValidRouting doc =>
      match BTreeMap.get requested (virtual_models doc) with
      | None => Ok None
      | Some vm =>
          if negb (wire_serves scope vm) then Err (UnroutableOnWire requested) else
          let '(ordered, dropped) := order (vm_strategy vm) (vm_targets vm) est warm rng in
          let total := total_weight (snd <$> pick_targets (vm_targets vm) ordered) in
          let unpriced_ := (λ it, {| sk_provider := default (lit "unknown") (provider_of (tg_model it.2));
                                     sk_model := tg_model it.2; sk_reason := unpriced |})
                             <$> pick_targets (vm_targets vm) dropped in
          let lost := omap (λ it, match provider_of (tg_model it.2) with
                                  | None => Some {| sk_provider := lit "unknown"; sk_model := tg_model it.2; sk_reason := unroutable |}
                                  | Some _ => None
                                  end) (pick_targets (vm_targets vm) ordered) in
          let cands := omap (λ it, candidate_of (vm_strategy vm) total warm it.1 it.2 <$> provider_of (tg_model it.2))
                         (pick_targets (vm_targets vm) ordered) in
          match cands with
          | [] => Err (NoCandidate requested)
          | _ => Ok (Some {| rp_requested := requested; virtual_model := Some requested; rp_strategy := Some (vm_strategy vm);
                             candidates := cands; skipped := unpriced_ ++ lost;
                             policy_targets := tg_model <$> vm_targets vm; policy_aliases := []; assignment := None |})
          end
      end
  end.

(** ** Conditional rules *)

(** What a request is matched by; a header is looked up by name. *)
Record Facts := {
  f_header : bytes → option bytes;
  f_metadata : bytes → option bytes;
  f_tags : list bytes;
  f_key_id : option bytes;
  f_project_id : option bytes;
  f_environment : option bytes;
  f_end_user : option bytes;
  f_session : option bytes;
  f_stream : bool;
  f_trace_id : bytes;
}.

Definition matches_value (value equals prefix : option bytes) (values : option (list bytes)) : bool :=
  from_option (λ v, bool_decide (equals = Some v) || from_option (λ p, is_prefix p v) false prefix
                    || from_option (λ xs, bool_decide (v ∈ xs)) false values) false value.

Definition matches (m : Match) (model : bytes) (f : Facts) : bool :=
  glob_match (mt_model m) model
  && from_option (λ h, matches_value (f_header f (h_name h)) (h_equals h) (h_prefix h) (h_values h)) true (mt_header m)
  && from_option (λ d, matches_value (f_metadata f (md_key d)) (md_equals d) None (md_values d)) true (mt_metadata m)
  && from_option (λ t, bool_decide (t ∈ f_tags f)) true (mt_tag m)
  && from_option (λ v, values_match v (f_key_id f)) true (mt_key_id m)
  && from_option (λ v, values_match v (f_project_id f)) true (mt_project_id m)
  && from_option (λ v, values_match v (f_environment f)) true (mt_environment m)
  && from_option (λ v, values_match v (f_end_user f)) true (mt_end_user_id m)
  && from_option (λ v, Bool.eqb v (f_stream f)) true (mt_stream m).

(** One source of a sticky identity. *)
Definition sticky_source (f : Facts) (s : bytes) : option (bytes * bytes) :=
  let '(source, value) :=
    match strip_header s with
    | Some h => (lit "header", f_header f h)
    | None =>
        if bool_decide (s = lit "end_user") then (lit "end_user", f_end_user f)
        else if bool_decide (s = lit "session") then (lit "session", f_session f)
        else if bool_decide (s = lit "key") then (lit "key", f_key_id f)
        else (lit "none", None)
    end in
  v ← value; if bool_decide (v ≠ [] ∧ length v ≤ sticky_key_max_bytes lim)%nat then Some (source, v) else None.

Fixpoint find_map {A B} (f : A → option B) (l : list A) : option B :=
  match l with [] => None | a :: l' => match f a with Some b => Some b | None => find_map f l' end end.

(** [serde_json::to_string(&(salt, id, arm))]. *)
Definition namespace (r : Rule) (a : Arm) : bytes :=
  lit "[" ++ canon_string (salt r) ++ lit "," ++ canon_string (ru_id r) ++ lit "," ++ canon_string (arm_name a) ++ lit "]".

(** The arm a bucket falls in, with its width; without a bucket, the remainder arm. *)
Fixpoint pick_arm (bucket : option Z) (lower : Z) (l : list Arm) : option (Arm * Z) :=
  match l with
  | [] => None
  | a :: l' =>
      let bp := default ((10000 - lower) mod 2 ^ 32) (arm_bp a) in
      if match bucket with
         | Some b => b <? (lower + bp) mod 2 ^ 32
         | None => negb (is_some_b (arm_bp a))
         end
      then Some (a, bp) else pick_arm bucket ((lower + bp) mod 2 ^ 32) l'
  end.

Definition choose (r : Rule) (f : Facts) : result (bytes * Assignment) PlanError :=
  match route_to (action r) with
  | Some t => Ok (t, {| as_rule := ru_id r; as_arm := None; as_bucket := None; as_sticky_source := None;
                        as_non_sticky := false; as_arm_pct := None; as_namespace := None |})
  | None =>
      match split (action r) with
      | None => Err RoutingInvalid
      | Some s =>
          let identity := find_map (sticky_source f) (sticky_by s) in
          let? value := match identity, on_missing_identity s with
                        | Some (_, v), _ => Ok (Some v)
                        | None, Stable => Ok None
                        | None, Random => Ok (Some (f_trace_id f))
                        | None, Refuse => Err IdentityRequired
                        end in
          let bucket := (λ v, sample_draw (salt r) v mod 10000) <$> value in
          match pick_arm bucket 0 (arms s) with
          | None => Err RoutingInvalid
          | Some (a, bp) =>
              Ok (arm_route_to a,
                  {| as_rule := ru_id r; as_arm := Some (arm_name a); as_bucket := bucket;
                     as_sticky_source := Some (from_option fst (lit "none") identity);
                     as_non_sticky := negb (is_some_b identity);
                     as_arm_pct := Some (f64_div (f64_of bp) (f64_of 100)); as_namespace := Some (namespace r a) |})
          end
      end
  end.

Definition in_scope (scope : RoutingScope) (requested : bytes) (r : Rule) : bool :=
  bool_decide (wire_str (wire scope) ∈ ru_wires r) && glob_match (mt_model (predicate r)) requested.

(** A [BTreeSet], in iteration order. *)
Definition set_of (l : list bytes) : list bytes := (foldl (λ m x, BTreeMap.insert x () m) [] l).*1.

Definition plain_plan (target : bytes) : RoutePlan :=
  {| rp_requested := target; virtual_model := None; rp_strategy := None;
     candidates := (λ p, {| c_model := target; c_provider := p; c_target_index := 0; weight_pct := None; ewma_ttfb_ms := None |})
                     <$> option_list (provider_of target);
     skipped := []; policy_targets := [target]; policy_aliases := []; assignment := None |}.

(** [conditions::plan]. *)
Definition plan (scope : RoutingScope) (requested : bytes) (state : RoutingState) (est : Estimate)
    (warm : bytes → bytes → option (f64 * Z)) (rng : nat → Z) (f : Facts) : result (option RoutePlan) PlanError :=
  match routing_doc state with
  | None => plan_virtual scope requested state est warm rng
  | Some doc =>
      match filter (λ r, in_scope scope requested r = true) (rules doc) with
      | [] => plan_virtual scope requested state est warm rng
      | rs =>
          let? selected := match list_find (λ r, matches (predicate r) requested f = true) rs with
                           | Some (_, r) => let? ta := choose r f in Ok (Some ta)
                           | None => Ok None
                           end in
          let target := from_option fst requested selected in
          let? planned := plan_virtual scope target state est warm rng in
          let p := default (plain_plan target) planned in
          let reach := t ← rs ≫= (λ r, targets (action r)); concrete doc t in
          let all := set_of (policy_targets p ++ reach) in
          let p := {| rp_requested := requested; virtual_model := virtual_model p; rp_strategy := rp_strategy p;
                      candidates := candidates p; skipped := skipped p;
                      policy_targets := policy_targets p ++ filter (λ t, t ∉ policy_targets p) all;
                      policy_aliases := set_of (filter (λ t, is_Some (BTreeMap.get t (virtual_models doc)))
                                                  (rs ≫= (λ r, targets (action r))));
                      assignment := snd <$> selected |} in
          if dispatches p && negb (non_empty (candidates p)) then Err RoutingInvalid else Ok (Some p)
      end
  end.

(** ** Key pools *)

Record PoolChoice := { labels : list bytes; pooled : bool }.

Definition DEFAULT_LABEL : bytes := lit "default".

Definition pool_labels (scope : RoutingScope) (state : RoutingState) (provider : bytes) (rng : nat → Z) : PoolChoice :=
  let default_ := {| labels := [DEFAULT_LABEL]; pooled := false |} in
  if bool_decide (key_pool scope = DefaultOnly) then default_ else
  match routing_doc state ≫= (λ d, snd <$> list_find (λ p, kp_provider p = provider) (key_pools d)) with
  | None => default_
  | Some pool =>
      let ts := (λ k, {| tg_model := pk_label k; tg_weight := pk_weight k |}) <$> kp_keys pool in
      let '(ordered, _) := order (kp_strategy pool) ts {| input_tokens := 0; output_tokens := 0 |} (λ _ _, None) rng in
      {| labels := (tg_model ∘ snd) <$> pick_targets ts ordered; pooled := true |}
  end.

(** ** What the controls judge *)

Definition subject_for (p : RoutePlan) (first : Subject) (i : nat) (t : bytes) : Subject :=
  {| su_line := su_line first;
     su_model := Known t;
     su_workspace_alias := negb (dispatches p) && bool_decide (t = rp_requested p) && su_workspace_alias first;
     su_provider := None;
     su_input_tokens := match i with O => su_input_tokens first | S _ => NotApplicable end;
     su_output_cap := match i with O => su_output_cap first | S _ => NotApplicable end |}.

Definition expand (request : PolicyRequest) (p : option RoutePlan) : PolicyRequest :=
  match p, subjects request with
  | Some p, first :: rest =>
      match policy_targets p, su_model first with
      | [], _ => request
      | ts, Known _ => {| subjects := imap (subject_for p first) ts ++ rest; body_bytes := body_bytes request |}
      | _, _ => request
      end
  | _, _ => request
  end.

(** [policy_resolve]; [aliases] are the workspace's. *)
Definition policy_resolve (aliases : bytes → option bytes) (model : bytes) (workspace_alias : bool) : Resolved :=
  let aliased := if workspace_alias then aliases model else None in
  let target := default model aliased in
  let upstream := u ← op_alias target; if bool_decide (u = target) then None else Some u in
  {| rs_names := model :: option_list aliased ++ option_list upstream;
     rs_allow_names := target :: option_list upstream;
     rs_provider := provider_of target |}.

Fixpoint push_names (names extra : list bytes) : list bytes :=
  match extra with
  | [] => names
  | x :: extra' => push_names (if bool_decide (x ∈ names) then names else names ++ [x]) extra'
  end.

Definition routed_policy_resolve (aliases : bytes → option bytes) (p : option RoutePlan) (model : bytes) (workspace_alias : bool)
    : Resolved :=
  let r := policy_resolve aliases model workspace_alias in
  match p with
  | Some p =>
      if bool_decide (model ∈ policy_targets p) then
        {| rs_names := push_names (rs_names r) (rp_requested p :: policy_aliases p);
           rs_allow_names := rs_allow_names r; rs_provider := rs_provider r |}
      else r
  | None => r
  end.

(** [routing::pricing]: the first target without a price. *)
Definition pricing (aliases : bytes → option bytes) (p : RoutePlan) : option bytes :=
  snd <$> list_find
    (λ t, priced (if negb (dispatches p) && bool_decide (t = rp_requested p) then default t (aliases t) else t) = false)
    (policy_targets p).

(** [estimate] of [admission.rs]. *)
Definition estimate (default_output_reserve : Z) (req : PolicyRequest) : Estimate :=
  {| input_tokens := match subjects req with
                     | s :: _ => match su_input_tokens s with Known n => n | _ => 0 end
                     | [] => 0
                     end;
     output_tokens := match subjects req with
                      | s :: _ => match su_output_cap s with Known (Some n) => n | _ => default_output_reserve end
                      | [] => default_output_reserve
                      end |}.

(** ** Deadlines *)

Definition timeout_matches (provider model : bytes) (r : TimeoutRule) : bool :=
  from_option (λ p, bool_decide (p = provider)) true (tm_provider r)
  && from_option (λ g, glob_match g model) true (tm_model r).

(** [deadlines::resolve]. *)
Definition resolve_phases (state : RoutingState) (provider model : bytes) : Phases :=
  match routing_doc state ≫= (λ d, list_find (λ r, timeout_matches provider model r = true) (timeouts d)) with
  | Some (_, r) => tm_phases r
  | None => no_phases
  end.

(** [Budget::deadline]: the instant a phase ends, with the phase that ends it; [true]
    stands for the total.  Instants are nanoseconds. *)
Definition deadline (phases : Phases) (total_started : option Z) (limit : option Z) (start : Z) : option (Z * bool) :=
  let phase := (λ ms, (start + ms * 1000000, false)) <$> limit in
  let total := ms ← total_ms phases; s ← total_started; Some (s + ms * 1000000, true) in
  match phase, total with
  | Some p, Some t => Some (if t.1 <=? p.1 then t else p)
  | Some p, None => Some p
  | None, t => t
  end.
End routing.
