(* ===== verification/RoutingProofs.v ===== *)
(** * Routing: order, splits and plans

    The order of a strategy is a permutation of the targets, the weighted draw and the
    split follow their weights exactly, and every candidate of a plan is a target the
    controls are shown. *)

From Stdlib Require Import ZArith Lia.
From stdpp Require Import base list option strings gmap sorting.
From S2P Require Import Prelude BTree Float64 Encoding Hash Json Network Glob KeyPolicy KeyPolicyProofs Routing.
Local Open Scope Z_scope.

(** ** The weighted draw *)

Lemma pick_from_range r acc k ws : pick_from r acc k ws = 0%nat ∨ (k ≤ pick_from r acc k ws < k + length ws)%nat.
Proof.
  revert acc k. induction ws as [|w ws IH]; intros acc k; simpl; [by left|]. destruct (r <? acc + w); [right; lia|].
  destruct (IH (acc + w) (S k)); [by left|right; lia].
Qed.

Definition sum (ws : list Z) : Z := foldr Z.add 0 ws.

Lemma pick_from_last r acc k ws :
  Forall (Z.le 0) ws → acc ≤ r < acc + sum ws → (k ≤ pick_from r acc k ws < k + length ws)%nat.
Proof.
  revert acc k. induction ws as [|w ws IH]; intros acc k Hw Hr; simpl in *; [lia|].
  apply Forall_cons in Hw as [H0 Hw]. destruct (Z.ltb_spec r (acc + w)); [lia|].
  destruct (IH (acc + w) (S k) Hw); lia.
Qed.

(** Among the draws below the sum of the weights, each index is picked as often as its
    weight says. *)
Lemma pick_from_count ws acc k i w :
  Forall (Z.le 0) ws → ws !! i = Some w →
  lenZ (filter (λ r, pick_from r acc k ws = (k + i)%nat) (seqZ acc (sum ws))) = w.
Proof.
  revert acc k i. induction ws as [|v ws IH]; intros acc k i Hw Hi; [done|]. apply Forall_cons in Hw as [Hv Hw].
  assert (0 ≤ sum ws) as Hs by (clear -Hw; induction Hw; simpl; lia).
  change (sum (v :: ws)) with (v + sum ws). rewrite seqZ_app by lia. rewrite filter_app, lenZ_app.
  assert (∀ r, r ∈ seqZ acc v → pick_from r acc k (v :: ws) = k) as H1.
  { intros r [? ?]%elem_of_seqZ. simpl. destruct (Z.ltb_spec r (acc + v)); [done|lia]. }
  assert (∀ r, r ∈ seqZ (acc + v) (sum ws) → pick_from r acc k (v :: ws) = pick_from r (acc + v) (S k) ws) as H2.
  { intros r [? ?]%elem_of_seqZ. simpl. destruct (Z.ltb_spec r (acc + v)); [lia|done]. }
  destruct i as [|i]; simpl in Hi.
  - injection Hi as ->. rewrite filter_all, filter_none.
    + unfold lenZ. rewrite length_seqZ. simpl. lia.
    + apply Forall_forall. intros r Hr. rewrite H2 by done. apply elem_of_seqZ in Hr.
      destruct (pick_from_last r (acc + w) (S k) ws Hw); lia.
    + apply Forall_forall. intros r Hr. rewrite H1 by done. lia.
  - rewrite filter_none.
    + change (lenZ (@nil Z)) with 0. rewrite <- (IH (acc + v) (S k) i Hw Hi), Z.add_0_l. f_equal. apply filter_Forall_iff.
      apply Forall_forall. intros r Hr. rewrite H2 by done. lia.
    + apply Forall_forall. intros r Hr. rewrite H1 by done. lia.
Qed.

(** ** The order is a permutation *)

Lemma to_front_perm i l : NoDup l → i ∈ l → to_front i l ≡ₚ l.
Proof.
  unfold to_front. intros Hnd Hi. apply elem_of_Permutation in Hi as [l' E]. rewrite E in *.
  apply NoDup_cons in Hnd as [Hn _]. rewrite filter_cons_False by naive_solver. f_equiv.
  rewrite filter_all; [done|]. apply Forall_forall. intros j Hj ->. done.
Qed.

Lemma move_to_front_perm k l : move_to_front k l ≡ₚ l.
Proof. unfold move_to_front. destruct (l !! k) eqn:E; [|done]. symmetry. by apply delete_Permutation. Qed.

Lemma imap_index {A} (f : nat → A → nat) (l : list A) :
  (∀ i a, f i a = i) → imap f l = seq 0 (length l).
Proof.
  intros Hf. apply list_eq. intros i. rewrite list_lookup_imap.
  destruct (l !! i) as [a|] eqn:E; simpl.
  - rewrite lookup_seq_lt; [by rewrite Hf|]. by eapply lookup_lt_Some.
  - rewrite lookup_seq_ge; [done|]. by apply lookup_ge_None.
Qed.

Lemma partition_perm {A B} (l : list (A * option B)) (f : B → A) :
  Forall (λ ab, ∀ b, ab.2 = Some b → f b = ab.1) l →
  (f <$> omap snd l) ++ (fst <$> filter (λ ab, ab.2 = None) l) ≡ₚ l.*1.
Proof.
  induction 1 as [|[a [b|]] l Hx _ IH]; [done|..].
  - rewrite filter_cons_False by done. simpl in *. rewrite (Hx b eq_refl). by f_equiv.
  - rewrite filter_cons_True by done. simpl in *. rewrite <- Permutation_middle. by f_equiv.
Qed.

(** ** Comparisons *)

Lemma SFcompare_antisym (x y : f64) : SFcompare y x = CompOpp <$> SFcompare x y.
Proof.
  destruct x as [sx|sx| |sx mx ex], y as [sy|sy| |sy my ey]; simpl; try done; try (by destruct sx, sy); try (by destruct sx); try by destruct sy.
  assert (Pos.compare_cont Eq my mx = CompOpp (Pos.compare_cont Eq mx my)) as E.
  { apply (Pos.compare_antisym mx my). }
  rewrite (Z.compare_antisym ex ey), E.
  destruct sx, sy; simpl; try done; f_equal; destruct (ex ?= ey); simpl; try done; by destruct (Pos.compare_cont _ mx my).
Qed.

#[global] Instance lat_le_total : Total lat_le.
Proof.
  intros [[[] x] i] [[[] y] j]; simpl; auto; rewrite (SFcompare_antisym x y);
    destruct (SFcompare x y) as [[]|]; simpl; auto; lia.
Qed.

#[global] Instance cost_le_total : Total cost_le.
Proof. intros a b. apply lat_le_total. Qed.

Lemma total_zero ws : Forall (Z.le 0) ws → sum ws = 0 → Forall (eq 0) ws.
Proof.
  induction 1 as [|w ws Hw Hws IH]; [constructor|]. simpl. intros E.
  assert (0 ≤ sum ws) by (clear -Hws; induction Hws; simpl; lia). constructor; [|apply IH]; unfold sum in *; lia.
Qed.

Section order.
Context `{Registry}.
Variable lim : RouteLimits.
Variable est : Estimate.
Variable warm : bytes → bytes → option (f64 * Z).

Abbreviation order_ s ts rng := (order lim s ts est warm rng).

Lemma order_perm s ts rng : (order_ s ts rng).1 ++ (order_ s ts rng).2 ≡ₚ seq 0 (length ts).
Proof.
  destruct s; unfold order; cbn [fst snd].
  - by rewrite app_nil_r.
  - destruct (Z.eqb_spec (total_weight ts) 0) as [|Hn]; cbn [fst snd]; rewrite app_nil_r; [done|].
    apply to_front_perm; [apply NoDup_seq|]. apply elem_of_seq.
    destruct ts as [|t ts]; [done|].
    destruct (pick_from_range (rng 0%nat mod total_weight (t :: ts)) 0 0 (weight_of <$> t :: ts)) as [->|Hr];
      [simpl; lia|]. rewrite length_fmap in Hr. lia.
  - rewrite app_nil_r.
    assert (snd <$> merge_sort lat_le (imap (latency_key lim warm) ts) ≡ₚ seq 0 (length ts)) as Hp.
    { rewrite merge_sort_Permutation, fmap_imap. rewrite imap_index; [done|]. intros i t. simpl. unfold latency_key.
      destruct (_ ≫= _) as [[ms n]|]; [destruct (_ <=? _)|]; done. }
    destruct (_ && _); [|done]. by rewrite move_to_front_perm.
  - rewrite merge_sort_Permutation, partition_perm.
    + rewrite fmap_imap. rewrite imap_index; [done|]. done.
    + apply Forall_forall. intros [i o] (j & t & [= -> ->] & _)%elem_of_lookup_imap b Hb. simpl in *.
      by apply fmap_Some in Hb as (c & _ & ->).
Qed.

Lemma weighted_head ts rng :
  total_weight ts ≠ 0 →
  head (order_ Weighted ts rng).1 = Some (pick_from (rng 0%nat mod total_weight ts) 0 0 (weight_of <$> ts)).
Proof. intros Hn. unfold order. by destruct (Z.eqb_spec (total_weight ts) 0). Qed.

Lemma weighted_count ts i t :
  Forall (λ t, 0 ≤ weight_of t) ts → ts !! i = Some t →
  lenZ (filter (λ r, head (order_ Weighted ts (λ _, r)).1 = Some i) (seqZ 0 (total_weight ts))) = weight_of t.
Proof.
  intros Hw Hi. apply Forall_fmap in Hw. change (Forall (Z.le 0) (weight_of <$> ts)) in Hw.
  assert ((weight_of <$> ts) !! i = Some (weight_of t)) as Hwi by by rewrite list_lookup_fmap, Hi.
  destruct (Z.eq_dec (total_weight ts) 0) as [E|Hn].
  - rewrite E. change (seqZ 0 0) with (@nil Z). eapply Forall_lookup_1 in Hwi; [|apply total_zero; [done|exact E]]. done.
  - rewrite <- (pick_from_count (weight_of <$> ts) 0 0 i (weight_of t) Hw Hwi). f_equal. apply filter_Forall_iff.
    apply Forall_forall. intros r [? Hr]%elem_of_seqZ. rewrite weighted_head by done.
    rewrite Z.mod_small by (split; [done|exact Hr]). simpl. split; congruence.
Qed.

Lemma cost_keyed ts rng : ∃ keyed,
  (order_ Cost ts rng).1 = keyed.*2 ∧ Sorted cost_le keyed ∧
  (∀ c i, (c, i) ∈ keyed ↔ ∃ t, ts !! i = Some t ∧
     route_cost (tg_model t) (u32_of (input_tokens est)) (u32_of (output_tokens est)) = Some c) ∧
  (∀ i, i ∈ (order_ Cost ts rng).2 ↔ ∃ t, ts !! i = Some t ∧
     route_cost (tg_model t) (u32_of (input_tokens est)) (u32_of (output_tokens est)) = None).
Proof.
  unfold order. cbn [fst snd]. eexists. split_and!; [done|apply Sorted_merge_sort, _|..].
  - intros c i. rewrite merge_sort_Permutation, list_elem_of_omap. split.
    + intros ([j o] & (k & t & [= -> ->] & Ht)%elem_of_lookup_imap & Ho). simpl in Ho.
      apply fmap_Some in Ho as (c' & Hc & [= -> ->]). eauto.
    + intros (t & Ht & Hc). exists (i, Some (c, i)). split; [|done]. apply elem_of_lookup_imap. exists i, t. by rewrite Hc.
  - intros i. rewrite list_elem_of_fmap. split.
    + intros ([j o] & -> & [Hn (k & t & [= -> ->] & Ht)%elem_of_lookup_imap]%list_elem_of_filter). simpl in *.
      apply fmap_None in Hn. eauto.
    + intros (t & Ht & Hc). exists (i, None). split; [done|]. apply list_elem_of_filter. split; [done|].
      apply elem_of_lookup_imap. exists i, t. by rewrite Hc.
Qed.

(** The order of a virtual model's targets is what its strategy says.  Whatever the
    strategy and the draws, the dispatch order and the dropped targets together are
    every target once.  [priority] keeps the declared order.  [weighted] puts first
    each target as often as its weight: of the possible draws exactly the target's
    weight select it.  [latency] sorts the warm targets by their time, before the cold
    ones in declared order, and at most moves one to the front.  [cost] sorts the
    priced targets by the request's price and drops exactly the others. *)
Theorem order_exact ts rng :
  (∀ s, (order_ s ts rng).1 ++ (order_ s ts rng).2 ≡ₚ seq 0 (length ts)) ∧
  order_ Priority ts rng = (seq 0 (length ts), []) ∧
  (Forall (λ t, 0 ≤ weight_of t) ts → ∀ i t, ts !! i = Some t →
     lenZ (filter (λ r, head (order_ Weighted ts (λ _, r)).1 = Some i) (seqZ 0 (total_weight ts))) = weight_of t) ∧
  (∃ keyed, keyed ≡ₚ imap (latency_key lim warm) ts ∧ Sorted lat_le keyed ∧
     ((order_ Latency ts rng).1 = keyed.*2 ∨
      rng 0%nat mod 10000 < f64_as_u64 (f64_mul (explore_ratio lim) (f64_of 10000)) ∧
      ∃ k, (order_ Latency ts rng).1 = move_to_front k keyed.*2)) ∧
  (∃ keyed, (order_ Cost ts rng).1 = keyed.*2 ∧ Sorted cost_le keyed ∧
     (∀ c i, (c, i) ∈ keyed ↔ ∃ t, ts !! i = Some t ∧
        route_cost (tg_model t) (u32_of (input_tokens est)) (u32_of (output_tokens est)) = Some c) ∧
     (∀ i, i ∈ (order_ Cost ts rng).2 ↔ ∃ t, ts !! i = Some t ∧
        route_cost (tg_model t) (u32_of (input_tokens est)) (u32_of (output_tokens est)) = None)).
Proof.
  split_and!.
  - intros s. apply order_perm.
  - done.
  - intros. by apply weighted_count.
  - exists (merge_sort lat_le (imap (latency_key lim warm) ts)).
    split_and!; [apply merge_sort_Permutation|apply Sorted_merge_sort, _|].
    unfold order. cbn [fst]. destruct (Z.ltb_spec (rng 0%nat mod 10000) (f64_as_u64 (f64_mul (explore_ratio lim) (f64_of 10000))));
      [|by left]. simpl. case_bool_decide; [right; eauto|by left].
  - apply cost_keyed.
Qed.
End order.

(** ** Splits *)

(** The width of every arm: its basis points, and for the last what is left. *)
Fixpoint widths (lower : Z) (l : list Arm) : list Z :=
  match l with
  | [] => []
  | a :: l' => let w := default (10000 - lower) (arm_bp a) in w :: widths (lower + w) l'
  end.

Lemma pick_from_interval r acc k ws j w :
  Forall (Z.le 0) ws → acc ≤ r < acc + sum ws → ws !! j = Some w →
  pick_from r acc k ws = (k + j)%nat ↔ acc + sum (take j ws) ≤ r < acc + sum (take j ws) + w.
Proof.
  revert acc k j. induction ws as [|v ws IH]; intros acc k j Hw Hr Hj; [done|]. apply Forall_cons in Hw as [Hv Hw].
  change (sum (v :: ws)) with (v + sum ws) in Hr. assert (∀ l, Forall (Z.le 0) l → 0 ≤ sum l) as Hpos.
  { clear. induction 1; simpl; unfold sum in *; lia. }
  destruct j as [|j]; simpl in Hj.
  - injection Hj as ->. simpl. destruct (Z.ltb_spec r (acc + w)); [split; lia|]. split; [|lia]. intros E.
    destruct (pick_from_last r (acc + w) (S k) ws Hw); lia.
  - cbn [take]. change (sum (v :: take j ws)) with (v + sum (take j ws)). cbn [pick_from].
    specialize (Hpos (take j ws) ltac:(by apply Forall_take)).
    destruct (Z.ltb_spec r (acc + v)); [split; lia|].
    replace (k + S j)%nat with (S k + j)%nat by lia. rewrite (IH (acc + v) (S k) j Hw ltac:(lia) Hj). lia.
Qed.

Lemma pick_from_S r acc k ws :
  Forall (Z.le 0) ws → acc ≤ r < acc + sum ws → pick_from r acc (S k) ws = S (pick_from r acc k ws).
Proof.
  revert acc k. induction ws as [|w ws IH]; intros acc k Hw Hr; [simpl in Hr; lia|].
  apply Forall_cons in Hw as [? Hw]. change (sum (w :: ws)) with (w + sum ws) in Hr.
  cbn [pick_from]. destruct (Z.ltb_spec r (acc + w)); [done|]. apply IH; [done|lia].
Qed.

(** The checks of a validation that succeeded. *)
Lemma refuse_if_ok b e : refuse_if b e = Ok () ↔ b = false.
Proof. destruct b; simpl; split; congruence. Qed.

Ltac rinv := repeat match goal with
  | E : rbind _ _ = Ok _ |- _ => apply rbind_Ok in E as ([] & ? & E)
  | E : refuse_if _ _ = Ok _ |- _ => apply refuse_if_ok in E
  | E : negb _ = false |- _ => apply negb_false_iff in E
  | E : _ || _ = false |- _ => apply orb_false_elim in E as [? ?]
  end.

Section split.
Context `{Registry}.
Variable lim : RouteLimits.

Definition bps_ok (l : list Arm) : Prop := Forall (λ a, from_option (Z.le 0) True (arm_bp a)) l.

Lemma validate_arms_mono i names s l t : bps_ok l → validate_arms lim i names s l = Ok t → s ≤ t.
Proof.
  revert names s. induction l as [|a l IH]; intros names s Hb; cbn [validate_arms]; [intros [= ->]; lia|].
  apply Forall_cons in Hb as [Ha Hb]. destruct (_ || _); [done|].
  destruct l as [|a' l]; [destruct (arm_bp a); [done|]; intros [= ->]; lia|].
  destruct (arm_bp a) as [bp|]; [|done]. destruct (bp <=? 10000); [|done]. intros Hv%IH; simpl in *; [lia|done].
Qed.

Lemma validate_arms_names i names s l t :
  validate_arms lim i names s l = Ok t → NoDup (arm_name <$> l) ∧ ∀ x, x ∈ names → x ∉ arm_name <$> l.
Proof.
  revert names s. induction l as [|a l IH]; intros names s; cbn [validate_arms].
  { intros _. split; [apply NoDup_nil_2|]. intros x _. apply not_elem_of_nil. }
  destruct (negb (bounded lim (arm_name a)) || bool_decide (arm_name a ∈ names)) eqn:E; [done|].
  apply orb_false_elim in E as [_ E%bool_decide_eq_false].
  destruct l as [|a' l].
  { intros _. split; [apply NoDup_singleton|]. simpl. intros x Hx ->%list_elem_of_singleton. done. }
  destruct (arm_bp a) as [bp|]; [|done]. destruct (bp <=? 10000); [|done]. intros [Hnd Hn]%IH.
  rewrite fmap_cons. split.
  - apply NoDup_cons. split; [apply Hn; by left|done].
  - intros x Hx [->|Hx']%elem_of_cons; [done|]. eapply Hn; [by right|done].
Qed.

Lemma widths_spec i names s l t :
  l ≠ [] → bps_ok l → 0 ≤ s → validate_arms lim i names s l = Ok t → t ≤ 10000 →
  Forall (Z.le 0) (widths s l) ∧ sum (widths s l) = 10000 - s ∧ length (widths s l) = length l ∧
  (∀ b, s ≤ b < 10000 → ∃ j a w, l !! j = Some a ∧ widths s l !! j = Some w ∧
     pick_arm (Some b) s l = Some (a, w) ∧ pick_from b s 0 (widths s l) = j) ∧
  ∃ a w, last l = Some a ∧ pick_arm None s l = Some (a, w).
Proof.
  intros Hne Hb Hs Hv Ht. revert names s Hne Hb Hs Hv. induction l as [|a l IH]; [done|].
  intros names s _ Hb Hs Hv. pose proof Hb as Hb'. apply Forall_cons in Hb' as [Ha Hbl].
  cbn [validate_arms] in Hv. destruct (_ || _); [done|]. destruct l as [|a' l].
  - destruct (arm_bp a) eqn:Ea; [done|]. injection Hv as ->. cbn [widths pick_arm]. rewrite Ea. simpl default.
    rewrite (Z.mod_small (10000 - t)) by lia. replace (t + (10000 - t)) with 10000 by lia. simpl.
    split_and!; [repeat constructor; lia|lia|done|..].
    + intros b Hbb. exists 0%nat, a, (10000 - t). rewrite (Z.mod_small 10000) by lia.
      destruct (Z.ltb_spec b 10000); [|lia]. by destruct (b <? t + (10000 - t)).
    + eauto.
  - destruct (arm_bp a) as [bp|] eqn:Ea; [|done]. simpl in Ha. destruct (bp <=? 10000); [|done].
    pose proof (validate_arms_mono _ _ _ _ _ Hbl Hv) as Hm.
    destruct (IH (arm_name a :: names) (s + bp) ltac:(done) Hbl ltac:(lia) Hv) as (Hw & Hsum & Hlen & Hp & a0 & w0 & Hlast & Hnone). clear IH.
    remember (a' :: l) as l1 eqn:El1. cbn [widths pick_arm]. rewrite Ea. simpl default.
    rewrite (Z.mod_small (s + bp)) by lia. split_and!.
    + by constructor.
    + change (bp + sum (widths (s + bp) l1) = 10000 - s). lia.
    + simpl. by f_equal.
    + intros b Hbb. cbn [pick_from]. destruct (Z.ltb_spec b (s + bp)); [by exists 0%nat, a, bp|].
      destruct (Hp b ltac:(lia)) as (j & a1 & w1 & H1 & H2 & H3 & H4). exists (S j), a1, w1. split_and!; [done..|].
      rewrite <- H4. apply pick_from_S; [done|lia].
    + exists a0, w0. split; [|done]. subst l1. by rewrite last_cons_cons.
Qed.

(** What [validate_rules] leaves of a rule with a split. *)
Record split_ok (s : Split) : Prop := {
  so_arms : (2 ≤ length (arms s))%nat;
  so_names : NoDup (arm_name <$> arms s);
  so_bps : bps_ok (arms s);
  so_widths : Forall (Z.le 0) (widths 0 (arms s));
  so_sum : sum (widths 0 (arms s)) = 10000;
  so_length : length (widths 0 (arms s)) = length (arms s);
  so_pick : ∀ b, 0 ≤ b < 10000 → ∃ j a w, arms s !! j = Some a ∧ widths 0 (arms s) !! j = Some w ∧
     pick_arm (Some b) 0 (arms s) = Some (a, w) ∧ pick_from b 0 0 (widths 0 (arms s)) = j;
  so_rest : ∃ a w, last (arms s) = Some a ∧ pick_arm None 0 (arms s) = Some (a, w);
}.

Lemma validate_split_ok stored i r s : bps_ok (arms s) → validate_split lim stored i r s = Ok () → split_ok s.
Proof.
  intros Hb. unfold validate_split. destruct (stored && _); simpl; [done|].
  case_bool_decide as Hl; simpl; [done|]. destruct (validate_arms lim i [] 0 (arms s)) as [t|] eqn:Hv; simpl; [|done].
  destruct (Z.ltb_spec 10000 t); simpl; [done|]. intros _.
  destruct (validate_arms_names _ _ _ _ _ Hv) as [Hnd _].
  assert (arms s ≠ []) as Hne by (intros E; rewrite E in Hl; simpl in Hl; lia).
  destruct (widths_spec i [] 0 (arms s) t Hne Hb ltac:(lia) Hv ltac:(lia)) as (? & ? & ? & ? & ?).
  constructor; try done; lia.
Qed.

Lemma validate_rule_ok doc stored i before r :
  validate_rule lim doc stored i before r = Ok () →
  (∀ s, split (action r) = Some s → route_to (action r) = None ∧ validate_split lim stored i r s = Ok ()) ∧
  (route_to (action r) = None → is_Some (split (action r))) ∧
  ru_wires r ≠ [] ∧ Forall (.∈ rule_wires) (ru_wires r) ∧ rule_targets_ok lim doc r = true.
Proof.
  unfold validate_rule. intros E. rinv. split_and!.
  - intros s Es. rewrite Es in *. destruct (route_to (action r)); done.
  - intros Er. rewrite Er in *. destruct (split (action r)); [eauto|done].
  - intros Ew. match goal with X : bool_decide (ru_wires r = [] ∨ _) = false |- _ => apply bool_decide_eq_false in X; tauto end.
  - apply Forall_forall. intros w Hw.
    match goal with X : forallb (λ w, bool_decide (w ∈ rule_wires)) _ = true |- _ => rewrite forallb_forall in X;
      apply list_elem_of_In in Hw; apply X, bool_decide_eq_true in Hw; done end.
  - done.
Qed.

(** A split is exact and sticky.  Of a rule that passed the validation the arms have
    different names and their widths, the declared basis points and what is left of
    10000 for the last arm, add up to 10000.  The choice depends on nothing of the
    request but its identity: an identity goes to the arm whose interval of buckets
    its draw falls in, so each arm takes as many of the 10000 buckets as its width.
    Without an identity the rule's choice decides: the remainder arm, the draw of the
    trace, or a refusal. *)
Theorem split_is_exact doc i before r s f :
  validate_rule lim doc true i before r = Ok () → split (action r) = Some s → bps_ok (arms s) →
  let ws := widths 0 (arms s) in
  let draw v := sample_draw (salt r) v mod 10000 in
  let goes b := ∀ j a w, arms s !! j = Some a → ws !! j = Some w →
    sum (take j ws) ≤ b < sum (take j ws) + w ↔
      ∃ asg, choose lim r f = Ok (arm_route_to a, asg) ∧ as_arm asg = Some (arm_name a) ∧ as_bucket asg = Some b in
  NoDup (arm_name <$> arms s) ∧ Forall (Z.le 0) ws ∧ sum ws = 10000 ∧ length ws = length (arms s) ∧
  match find_map (sticky_source lim f) (sticky_by s), on_missing_identity s with
  | Some (_, v), _ => goes (draw v)
  | None, Random => goes (draw (f_trace_id f))
  | None, Stable => ∃ a asg, last (arms s) = Some a ∧ choose lim r f = Ok (arm_route_to a, asg) ∧
                      as_arm asg = Some (arm_name a) ∧ as_bucket asg = None
  | None, Refuse => choose lim r f = Err IdentityRequired
  end.
Proof.
  intros Hv Hs Hb ws draw goes. destruct (proj1 (validate_rule_ok _ _ _ _ _ Hv) _ Hs) as [Hr Hsp].
  pose proof (validate_split_ok _ _ _ _ Hb Hsp) as [Ha Hn _ Hw Hsum Hl Hp Hrest]. split_and!; [done..|].
  assert (∀ b src ns, choose lim r f = match pick_arm (Some b) 0 (arms s) with
              | None => Err RoutingInvalid
              | Some (a, bp) => Ok (arm_route_to a, {| as_rule := ru_id r; as_arm := Some (arm_name a); as_bucket := Some b;
                   as_sticky_source := src; as_non_sticky := ns;
                   as_arm_pct := Some (f64_div (f64_of bp) (f64_of 100)); as_namespace := Some (namespace r a) |}) end →
            0 ≤ b < 10000 → goes b) as Hgo.
  { intros b src ns E Hbr j a w Hj Hwj. destruct (Hp b Hbr) as (j' & a' & w' & Ha' & Hw' & Epick & Efrom).
    rewrite E, Epick. rewrite <- (Z.add_0_l (sum _)), <- (pick_from_interval b 0 0 ws j w Hw ltac:(unfold ws; rewrite Hsum; lia) Hwj).
    unfold ws. rewrite Efrom, Nat.add_0_l. split.
    - intros ->. replace a' with a by congruence. by eexists.
    - intros (asg & [= _ <-] & [= Hname] & _). eapply NoDup_lookup; [exact Hn|..]; rewrite list_lookup_fmap.
      + by rewrite Ha'.
      + rewrite Hj. simpl. by rewrite Hname. }
  unfold choose in *. rewrite Hr, Hs in *. unfold draw.
  destruct (find_map _ _) as [[src v]|]; [|destruct (on_missing_identity s)]; simpl.
  - eapply Hgo; [done|]. by apply Z.mod_pos_bound.
  - destruct Hrest as (a & w & Hlast & ->). by eexists _, _.
  - eapply Hgo; [done|]. by apply Z.mod_pos_bound.
  - done.
Qed.
End split.

(** ** Plans *)

Lemma set_of_elem x l : x ∈ set_of l ↔ x ∈ l.
Proof.
  unfold set_of. assert (∀ m, x ∈ (foldl (λ m x, BTreeMap.insert x () m) m l).*1 ↔ x ∈ m.*1 ∨ x ∈ l) as E.
  { induction l as [|y l IH]; intros m; simpl; [set_solver|]. rewrite IH, BTreeMap.elem_of_keys_insert. set_solver. }
  rewrite E. set_solver.
Qed.

#[local] Arguments plan_virtual : simpl never.
#[local] Arguments plan : simpl never.
#[local] Arguments plain_plan : simpl never.

Section plans.
Context `{Registry}.
Variable lim : RouteLimits.

Abbreviation plan_virtual_ := (plan_virtual lim).
Abbreviation plan_ := (plan lim).

(** A candidate is one of the targets the controls judge, at its own provider. *)
Definition candidate_ok (p : RoutePlan) (c : Candidate) : Prop :=
  c_model c ∈ policy_targets p ∧ provider_of (c_model c) = Some (c_provider c).

Lemma pick_targets_elem ts l i t : (i, t) ∈ pick_targets ts l ↔ i ∈ l ∧ ts !! i = Some t.
Proof.
  unfold pick_targets. rewrite list_elem_of_omap. split.
  - intros (j & Hj & (t' & Ht & [= -> ->])%fmap_Some). done.
  - intros [Hi Ht]. exists i. by rewrite Ht.
Qed.

Lemma plan_virtual_ok scope requested state est warm rng p :
  plan_virtual_ scope requested state est warm rng = Ok (Some p) →
  ∃ doc vm, state = ValidRouting doc ∧ BTreeMap.get requested (virtual_models doc) = Some vm ∧
    wire_serves scope vm = true ∧ virtual_model p = Some requested ∧ policy_targets p = tg_model <$> vm_targets vm ∧
    candidates p ≠ [] ∧ ∀ c, c ∈ candidates p → candidate_ok p c.
Proof.
  unfold plan_virtual. destruct state as [|doc|]; [done| |by destruct (consults_routing scope)].
  destruct (BTreeMap.get _ _) as [vm|] eqn:Ev; [|done]. destruct (wire_serves scope vm) eqn:Es; [simpl|done].
  destruct (order _ _ _ _ _ _) as [ordered dropped]. destruct (omap _ _) as [|c0 cs] eqn:Ec; [done|].
  intros [= <-]. exists doc, vm. split_and!; try done. simpl. intros c Hc. rewrite <- Ec in Hc.
  apply list_elem_of_omap in Hc as ([i t] & [_ Ht]%pick_targets_elem & (pr & Hp & ->)%fmap_Some). split; [|done].
  simpl. apply list_elem_of_fmap. exists t. split; [done|]. by eapply list_elem_of_lookup_2.
Qed.

(** The rules in scope of a request, and every model one of them can lead to. *)
Definition scoped (doc : RoutingDoc) (scope : RoutingScope) (requested : bytes) : list Rule :=
  filter (λ r, in_scope scope requested r = true) (rules doc).

Definition reachable (doc : RoutingDoc) (rs : list Rule) : list bytes :=
  t ← rs ≫= (λ r, targets (action r)); concrete doc t.

Lemma choose_target r f t a : choose lim r f = Ok (t, a) → t ∈ targets (action r).
Proof.
  unfold choose, targets. destruct (route_to (action r)) as [t0|]; [intros [= -> _]; by left|].
  destruct (split (action r)) as [s|]; [|done]. intros Hc. apply rbind_Ok in Hc as (v & _ & Hc).
  destruct (pick_arm _ _ _) as [[arm bp]|] eqn:Ep; [|done]. injection Hc as <- _. simpl.
  apply list_elem_of_fmap. exists arm. split; [done|]. clear -Ep.
  remember 0 as lower eqn:E0. clear E0. revert lower Ep. induction (arms s) as [|a l IH]; intros lower; cbn [pick_arm]; [done|].
  destruct (match _ with Some b => _ | None => _ end); [intros [= -> _]; by left|]. intros Hp. right. by eapply IH.
Qed.

(** What a plan is made of: the target that was chosen, its own plan, and what the
    rules in scope add. *)
Lemma plan_inv scope requested doc est warm rng f p :
  plan_ scope requested (ValidRouting doc) est warm rng f = Ok (Some p) →
  (scoped doc scope requested = [] ∧ assignment p = None ∧
     plan_virtual_ scope requested (ValidRouting doc) est warm rng = Ok (Some p)) ∨
  ∃ sel planned,
    let rs := scoped doc scope requested in
    let target := from_option fst requested sel in
    let q := default (plain_plan target) planned in
    rs ≠ [] ∧ plan_virtual_ scope target (ValidRouting doc) est warm rng = Ok planned ∧
    (∀ t a, sel = Some (t, a) → ∃ r, r ∈ rs ∧ t ∈ targets (action r)) ∧
    assignment p = snd <$> sel ∧ candidates p = candidates q ∧ virtual_model p = virtual_model q ∧ rp_requested p = requested ∧
    (∀ x, x ∈ policy_targets p ↔ x ∈ policy_targets q ∨ x ∈ reachable doc rs) ∧
    (∀ x, x ∈ policy_aliases p ↔ is_Some (BTreeMap.get x (virtual_models doc)) ∧ x ∈ rs ≫= (λ r, targets (action r))) ∧
    (dispatches p = true → candidates p ≠ []).
Proof.
  unfold plan. cbn [routing_doc]. fold (scoped doc scope requested). destruct (scoped doc scope requested) as [|r0 rs0] eqn:Ers.
  { intros Hp. left. split_and!; [done| |done]. unfold plan_virtual in Hp.
    destruct (BTreeMap.get _ _); [|done]. destruct (negb _); [done|]. destruct (order _ _ _ _ _ _).
    destruct (omap _ _); [done|]. by injection Hp as <-. }
  rewrite <- Ers. intros Hp. right. apply rbind_Ok in Hp as (sel & Hsel & Hp). apply rbind_Ok in Hp as (planned & Hpl & Hp).
  exists sel, planned. set (rs := scoped doc scope requested) in *. set (target := from_option fst requested sel) in *.
  set (q := default (plain_plan target) planned) in *. cbv zeta.
  match type of Hp with (if ?b then _ else Ok (Some ?r)) = _ => destruct b eqn:Ed; [done|]; injection Hp as <- end.
  split_and!; simpl; try done.
  - by rewrite Ers.
  - intros t a ->. destruct (list_find _ rs) as [[i r]|] eqn:Ef; [|done]. apply list_find_Some in Ef as (Er & _).
    apply rbind_Ok in Hsel as ([t' a'] & Hc & [= <- <-]). exists r. split; [by eapply list_elem_of_lookup_2|].
    by eapply choose_target.
  - intros x. rewrite elem_of_app, list_elem_of_filter, set_of_elem, elem_of_app. unfold reachable.
    destruct (decide (x ∈ policy_targets q)); tauto.
  - intros x. by rewrite set_of_elem, list_elem_of_filter.
  - intros Hd. rewrite Hd in Ed. simpl in Ed. by destruct (candidates q).
Qed.

Lemma plain_plan_ok t c : c ∈ candidates (plain_plan t) → c_model c = t ∧ provider_of t = Some (c_provider c).
Proof.
  unfold plain_plan. simpl. rewrite list_elem_of_fmap. intros (pr & -> & Hp). destruct (provider_of t) as [x|]; [|by apply not_elem_of_nil in Hp].
  by apply list_elem_of_singleton in Hp as ->.
Qed.

Lemma plan_virtual_none scope target doc est warm rng :
  plan_virtual_ scope target (ValidRouting doc) est warm rng = Ok None → BTreeMap.get target (virtual_models doc) = None.
Proof.
  unfold plan_virtual. destruct (BTreeMap.get _ _); [|done]. destruct (negb _); [done|].
  destruct (order _ _ _ _ _ _). by destruct (omap _ _).
Qed.

(** The candidates of a plan are concrete models of its target. *)
Lemma planned_concrete scope target doc est warm rng planned c :
  plan_virtual_ scope target (ValidRouting doc) est warm rng = Ok planned →
  c ∈ candidates (default (plain_plan target) planned) →
  c_model c ∈ concrete doc target ∧ policy_targets (default (plain_plan target) planned) = concrete doc target ∧
  provider_of (c_model c) = Some (c_provider c).
Proof.
  intros Hp Hc. unfold concrete. destruct planned as [q|]; cbn [default from_option] in Hc |- *.
  - apply plan_virtual_ok in Hp as (d & vm & [= <-] & -> & _ & _ & Et & _ & Hok). destruct (Hok c Hc) as [? ?].
    by rewrite <- Et.
  - apply plain_plan_ok in Hc as [-> Hpr]. rewrite (plan_virtual_none _ _ _ _ _ _ Hp). split_and!; [by left|done|done].
Qed.

Lemma plan_other scope requested state est warm rng f p :
  plan_ scope requested state est warm rng f = Ok (Some p) → ∃ doc, state = ValidRouting doc.
Proof.
  destruct state as [|doc|]; [done|eauto|]. unfold plan, plan_virtual. simpl. by destruct (consults_routing scope).
Qed.

Lemma reachable_elem doc rs r t x : r ∈ rs → t ∈ targets (action r) → x ∈ concrete doc t → x ∈ reachable doc rs.
Proof.
  intros Hr Ht Hx. unfold reachable. apply list_elem_of_bind. exists t. split; [done|]. apply list_elem_of_bind. eauto.
Qed.

(** Every outcome is judged.  Two plans of the same request document, made from any
    headers, identities, statistics and draws: the targets shown to the controls by
    the one contain every candidate of the other, at its own provider, so no hint
    leads to a model that was not judged.  (A request that no rule matches stays with
    the model it names; the other plan then is one no rule matched either.) *)
Theorem every_outcome_is_judged scope requested state est warm rng f p est' warm' rng' f' p' :
  plan_ scope requested state est warm rng f = Ok (Some p) →
  plan_ scope requested state est' warm' rng' f' = Ok (Some p') →
  (is_Some (assignment p) → is_Some (assignment p')) →
  ∀ c, c ∈ candidates p' → candidate_ok p c.
Proof.
  intros Hp Hp' Ha c Hc. destruct (plan_other _ _ _ _ _ _ _ _ Hp) as [doc ->].
  apply plan_inv in Hp as [(Es & Hn & Hp)|(sel & planned & Hne & Hpl & _ & Easg & Ecand & _ & _ & Hpt & _ & _)].
  - apply plan_inv in Hp' as [(_ & _ & Hp')|(sel' & planned' & Hne' & _)]; [|done].
    apply plan_virtual_ok in Hp as (d & vm & [= <-] & Hv & _ & _ & Et & _ & _).
    apply plan_virtual_ok in Hp' as (d' & vm' & [= <-] & Hv' & _ & _ & Et' & _ & Hok). simplify_eq.
    destruct (Hok c Hc) as [? ?]. split; [by rewrite Et, <- Et'|done].
  - apply plan_inv in Hp' as [(Es & _)|(sel' & planned' & _ & Hpl' & Hsel' & Easg' & Ecand' & _)]; [done|].
    rewrite Ecand' in Hc. destruct (planned_concrete _ _ _ _ _ _ _ _ Hpl' Hc) as (Hin & _ & Hpr). split; [|done].
    apply Hpt. destruct sel' as [[t a]|]; simpl in *.
    + right. destruct (Hsel' t a eq_refl) as (r & Hr & Ht). by eapply reachable_elem.
    + left. destruct sel as [[t a]|]; simpl in *.
      { rewrite Easg, Easg' in Ha. destruct Ha as [? [=]]. eauto. }
      unfold concrete in Hin. destruct planned as [q|]; simpl.
      * apply plan_virtual_ok in Hpl as (d & vm & [= <-] & Hv & _ & _ & -> & _). by rewrite Hv in Hin.
      * rewrite (plan_virtual_none _ _ _ _ _ _ Hpl) in Hin. done.
Qed.

Lemma plan_candidate_ok scope requested state est warm rng f p c :
  plan_ scope requested state est warm rng f = Ok (Some p) → c ∈ candidates p → candidate_ok p c.
Proof.
  intros Hp Hc. destruct (plan_other _ _ _ _ _ _ _ _ Hp) as [doc ->].
  apply plan_inv in Hp as [(_ & _ & Hp)|(sel & planned & _ & Hpl & _ & _ & Ecand & _ & _ & Hpt & _)].
  - apply plan_virtual_ok in Hp as (_ & _ & _ & _ & _ & _ & _ & _ & Hok). by apply Hok.
  - rewrite Ecand in Hc. destruct (planned_concrete _ _ _ _ _ _ _ _ Hpl Hc) as (Hin & E & Hpr). split; [|done].
    apply Hpt. left. by rewrite E.
Qed.

Lemma plan_dispatches scope requested state est warm rng f p :
  plan_ scope requested state est warm rng f = Ok (Some p) → dispatches p = true → candidates p ≠ [].
Proof.
  intros Hp Hd. destruct (plan_other _ _ _ _ _ _ _ _ Hp) as [doc ->].
  apply plan_inv in Hp as [(_ & _ & Hp)|(? & ? & ? & ? & ? & ? & ? & ? & ? & ? & ? & Hc)]; [|by apply Hc].
  by apply plan_virtual_ok in Hp as (?&?&?&?&?&?&?&?&?).
Qed.

Lemma for_each_ok {A} (g : Z → list A → A → result unit FieldError) i before l :
  for_each g i before l = Ok () → ∀ a, a ∈ l → ∃ j b, g j b a = Ok ().
Proof.
  revert i before. induction l as [|x l IH]; intros i before; [by intros _ a ?%not_elem_of_nil|]. cbn [for_each].
  intros E. rinv. intros a [->|Ha]%elem_of_cons; eauto.
Qed.

Lemma rule_target_provider doc r t m : rule_targets_ok lim doc r = true → t ∈ targets (action r) → m ∈ concrete doc t →
  concrete doc t ≠ [] ∧ ∃ p, provider_of m = Some p ∧ (lit "messages" ∈ ru_wires r → p = lit "anthropic") ∧
    (lit "gemini" ∈ ru_wires r → p = lit "google").
Proof.
  unfold rule_targets_ok. rewrite forallb_forall. intros Hall Ht%list_elem_of_In Hm%list_elem_of_In. apply Hall in Ht.
  apply andb_prop in Ht as [[_ Hne]%andb_prop Hf]. apply negb_true_iff, bool_decide_eq_false in Hne.
  rewrite forallb_forall in Hf. apply Hf in Hm. unfold rule_target_ok in Hm. split; [done|].
  destruct (provider_of m) as [p|]; [|done]. exists p. split; [done|].
  apply negb_true_iff, orb_false_elim in Hm as [H1 H2]. apply andb_false_iff in H1, H2.
  rewrite !bool_decide_eq_false, !negb_false_iff, !bool_decide_eq_true in *. tauto.
Qed.

Lemma validate_rules_ok doc stored r :
  validate_rules lim doc stored = Ok () → r ∈ rules doc → ∃ i before, validate_rule lim doc stored i before r = Ok ().
Proof. unfold validate_rules. intros E Hr. rinv. by eapply for_each_ok. Qed.

Lemma from_stored_rules bnd o doc : from_stored lim bnd o = ValidRouting doc → validate_rules lim doc true = Ok ().
Proof.
  unfold from_stored. destruct o as [[d|]|]; [|done..].
  destruct (validate_deadlines _ _ _) as [[]|]; [|done]. destruct (validate_rules _ _ _) as [[]|] eqn:E; [|done].
  intros Hd. assert (d = doc) as <-; [|done].
  destruct d as [[] [] [] [] []]; simpl in Hd; congruence.
Qed.

Lemma scoped_elem doc scope requested r :
  r ∈ scoped doc scope requested → r ∈ rules doc ∧ wire_str (wire scope) ∈ ru_wires r.
Proof.
  unfold scoped. intros [Hs Hr]%list_elem_of_filter. split; [done|]. unfold in_scope in Hs.
  by apply andb_prop in Hs as [?%bool_decide_eq_true _].
Qed.

Lemma own_provider scope native vm t : virtual_support scope = OwnProvider native → wire_serves scope vm = true →
  t ∈ vm_targets vm → provider_of (tg_model t) = Some native.
Proof.
  unfold wire_serves. intros -> Hs Ht. rewrite forallb_forall in Hs. apply list_elem_of_In, Hs in Ht.
  by apply bool_decide_eq_true in Ht.
Qed.

(** A native wire stays with its provider.  Of a stored document, on the Messages
    wire of Anthropic or the Gemini wire of Google, every candidate of a plan that
    replaces the model the request names is served by the wire's own provider: a
    virtual model, a rule and every arm of a split alike. *)
Theorem native_wire_keeps_provider bnd stored scope native requested est warm rng f p :
  (wire scope = Messages ∧ native = lit "anthropic" ∨ wire scope = Gemini ∧ native = lit "google") →
  virtual_support scope = OwnProvider native →
  plan_ scope requested (from_stored lim bnd stored) est warm rng f = Ok (Some p) → dispatches p = true →
  candidates p ≠ [] ∧ ∀ c, c ∈ candidates p → c_provider c = native.
Proof.
  intros Hw Hv Hp Hd. destruct (plan_other _ _ _ _ _ _ _ _ Hp) as [doc Ed]. pose proof (from_stored_rules _ _ _ Ed) as Hok.
  rewrite Ed in Hp. clear Ed. assert (∀ target est warm rng q, plan_virtual_ scope target (ValidRouting doc) est warm rng = Ok (Some q) →
    candidates q ≠ [] ∧ ∀ c, c ∈ candidates q → c_provider c = native) as Hvirt.
  { intros target ???? (d & vm & [= <-] & _ & Hs & _ & Et & Hne & Hc)%plan_virtual_ok. split; [done|]. intros c Hin.
    destruct (Hc c Hin) as [Hm Hpr]. rewrite Et in Hm. apply list_elem_of_fmap in Hm as (t & E & Ht).
    pose proof (own_provider _ _ _ _ Hv Hs Ht). congruence. }
  apply plan_inv in Hp as [(_ & _ & Hp)|(sel & planned & Hne & Hpl & Hsel & Easg & Ecand & Evm & _ & _ & _ & Hne')]; [eauto|].
  split; [eauto|]. rewrite Ecand. destruct planned as [q|]; [by eapply Hvirt|]. intros c Hc.
  destruct (planned_concrete _ _ _ _ _ _ _ _ Hpl Hc) as (Hin & _ & Hpr). destruct sel as [[t a]|]; simpl in *.
  - destruct (Hsel t a eq_refl) as (r & [Hr Hwr]%scoped_elem & Ht).
    destruct (validate_rules_ok _ _ _ Hok Hr) as (i & before & (_ & _ & _ & _ & Htg)%validate_rule_ok).
    destruct (rule_target_provider _ _ _ _ Htg Ht Hin) as (_ & pr & Hpr' & Ha & Hg).
    destruct Hw as [[Ew ->]|[Ew ->]]; rewrite Ew in Hwr; simpl in Hwr; [specialize (Ha Hwr)|specialize (Hg Hwr)]; congruence.
  - unfold dispatches in Hd. rewrite Easg, Evm in Hd. done.
Qed.

Lemma order_keeps s ts est warm rng i t :
  ts !! i = Some t →
  (s = Cost → is_Some (route_cost (tg_model t) (u32_of (input_tokens est)) (u32_of (output_tokens est)))) →
  i ∈ (order lim s ts est warm rng).1.
Proof.
  intros Ht Hc. assert (i ∈ (order lim s ts est warm rng).1 ++ (order lim s ts est warm rng).2) as Hi.
  { rewrite order_perm. apply elem_of_seq. apply lookup_lt_Some in Ht. lia. }
  apply elem_of_app in Hi as [Hi|Hi]; [done|]. destruct s; simpl in Hi.
  - by apply not_elem_of_nil in Hi.
  - destruct (total_weight ts =? 0); by apply not_elem_of_nil in Hi.
  - by apply not_elem_of_nil in Hi.
  - destruct (cost_keyed lim est warm ts rng) as (_ & _ & _ & _ & Hd). apply Hd in Hi as (t' & Ht' & Hn).
    simplify_eq. rewrite Hn in Hc. by destruct (Hc eq_refl).
Qed.

(** Whether a model has a price does not depend on the usage that is priced. *)
Definition price_exists : Prop :=
  ∀ m a b a' b', is_Some (route_cost m a b) → is_Some (route_cost m a' b').

Lemma plan_virtual_routes scope requested doc est warm rng vm :
  BTreeMap.get requested (virtual_models doc) = Some vm → wire_serves scope vm = true → vm_targets vm ≠ [] →
  (∀ t, t ∈ vm_targets vm → is_Some (provider_of (tg_model t)) ∧
     (vm_strategy vm = Cost → is_Some (route_cost (tg_model t) (u32_of (input_tokens est)) (u32_of (output_tokens est))))) →
  ∃ p, plan_virtual_ scope requested (ValidRouting doc) est warm rng = Ok (Some p).
Proof.
  intros Hv Hs Hne Hall. unfold plan_virtual. rewrite Hv, Hs. simpl.
  destruct (vm_targets vm) as [|t ts] eqn:Et; [done|]. destruct (Hall t) as [[pr Hpr] Hc]; [by left|].
  pose proof (order_keeps (vm_strategy vm) (t :: ts) est warm rng 0%nat t eq_refl Hc) as Hin.
  destruct (order _ _ _ _ _ _) as [ordered dropped]. destruct (omap _ _) as [|c cs] eqn:Ec; [|by eexists].
  exfalso. eapply not_elem_of_nil. rewrite <- Ec. apply list_elem_of_omap. exists (0%nat, t).
  split; [by apply pick_targets_elem|]. simpl. by rewrite Hpr.
Qed.

Lemma validate_target_ok doc ctx at_ s i before t : validate_target doc ctx at_ s i before t = Ok () →
  is_Some (provider_of (tg_model t)) ∧ (s = Cost → is_Some (route_cost (tg_model t) 0 0)).
Proof.
  unfold validate_target. intros E. rinv. split; [by destruct (provider_of (tg_model t))|]. intros ->.
  simpl in E. apply negb_false_iff in E. unfold priced in E. by destruct (route_cost _ _ _).
Qed.

Lemma validate_virtual_ok doc ctx bnd name vm :
  validate lim bnd doc ctx = Ok () → BTreeMap.get name (virtual_models doc) = Some vm →
  vm_targets vm ≠ [] ∧ ∀ t, t ∈ vm_targets vm →
    is_Some (provider_of (tg_model t)) ∧ (vm_strategy vm = Cost → is_Some (route_cost (tg_model t) 0 0)).
Proof.
  unfold validate. intros E Hv. apply BTreeMap.get_elem_of in Hv. rinv.
  match goal with X : for_each (λ _ _ kv, _) _ _ _ = Ok _ |- _ => destruct (for_each_ok _ _ _ _ X _ Hv) as (i & b & Hvv) end.
  simpl in Hvv. unfold validate_virtual in Hvv. rinv. split; [by destruct (vm_targets vm)|]. intros t Ht.
  match goal with X : for_each (validate_target _ _ _ _) _ _ _ = Ok _ |- _ => destruct (for_each_ok _ _ _ _ X _ Ht) as (j & b' & Htt) end.
  by eapply validate_target_ok.
Qed.

(** The basis points and widths of a document are unsigned. *)
Definition unsigned (doc : RoutingDoc) : Prop :=
  ∀ r s, r ∈ rules doc → split (action r) = Some s → bps_ok (arms s).

Lemma choose_ok doc stored i before r f :
  validate_rule lim doc stored i before r = Ok () → (∀ s, split (action r) = Some s → bps_ok (arms s)) →
  (∃ t a, choose lim r f = Ok (t, a)) ∨ choose lim r f = Err IdentityRequired.
Proof.
  intros Hv Hb. apply validate_rule_ok in Hv as (Hsp & Hex & _). unfold choose.
  destruct (route_to (action r)) as [t|] eqn:Er; [eauto|]. destruct (Hex eq_refl) as [s Hs]. rewrite Hs.
  destruct (Hsp s Hs) as [_ Hv]. pose proof (validate_split_ok _ _ _ _ _ (Hb s Hs) Hv) as [_ _ _ _ _ _ Hp (a & w & _ & Hn)].
  assert (∀ b, 0 ≤ b < 10000 → ∃ a w, pick_arm (Some b) 0 (arms s) = Some (a, w)) as Hp' by (intros b Hb'; destruct (Hp b Hb') as (?&?&?&?&?&?&?); eauto).
  clear Hp. destruct (find_map _ _) as [[src v]|]; [|destruct (on_missing_identity s)]; simpl; [..|by right].
  - destruct (Hp' (sample_draw (salt r) v mod 10000)) as (a' & w' & ->); [by apply Z.mod_pos_bound|eauto].
  - rewrite Hn. eauto.
  - destruct (Hp' (sample_draw (salt r) (f_trace_id f) mod 10000)) as (a' & w' & ->); [by apply Z.mod_pos_bound|eauto].
Qed.

Lemma written_virtual bnd ctx doc scope target est warm rng :
  price_exists → validate lim bnd doc ctx = Ok () → virtual_support scope = AnyProvider →
  ∃ o, plan_virtual_ scope target (ValidRouting doc) est warm rng = Ok o ∧
    (is_Some (BTreeMap.get target (virtual_models doc)) → is_Some o).
Proof.
  intros Hprice Hv Hany. destruct (BTreeMap.get target (virtual_models doc)) as [vm|] eqn:Eg.
  - destruct (validate_virtual_ok _ _ _ _ _ Hv Eg) as [Hne Hall].
    destruct (plan_virtual_routes scope target doc est warm rng vm) as [p Hp]; [done| |done| |eauto].
    + unfold wire_serves. by rewrite Hany.
    + intros t Ht. destruct (Hall t Ht). eauto.
  - exists None. split; [|by intros []]. unfold plan_virtual. by rewrite Eg.
Qed.

Definition selection (rs : list Rule) (requested : bytes) (f : Facts) : result (option (bytes * Assignment)) PlanError :=
  match list_find (λ r, matches (predicate r) requested f = true) rs with
  | Some (_, r) => let? ta := choose lim r f in Ok (Some ta)
  | None => Ok None
  end.

(** The rule a request selects, of validated rules, chooses a target that routes. *)
Lemma selection_ok doc stored rs requested f :
  validate_rules lim doc stored = Ok () → unsigned doc → (∀ r, r ∈ rs → r ∈ rules doc) →
  match selection rs requested f with
  | Err e => e = IdentityRequired
  | Ok None => True
  | Ok (Some (t, _)) => ∀ m, m ∈ concrete doc t → is_Some (provider_of m)
  end.
Proof.
  intros Hv Hu Hrs. unfold selection. destruct (list_find _ rs) as [[k r]|] eqn:Ef; [|done].
  apply list_find_Some in Ef as (Hk & _). apply list_elem_of_lookup_2, Hrs in Hk.
  destruct (validate_rules_ok _ _ _ Hv Hk) as (i & b & Hr).
  destruct (choose_ok _ _ _ _ _ f Hr ltac:(intros s Hs; by eapply Hu)) as [(t & a & Hc)|Hc]; rewrite Hc; simpl; [|done].
  intros m Hm. apply validate_rule_ok in Hr as (_ & _ & _ & _ & Ht). apply choose_target in Hc.
  destruct (rule_target_provider _ _ _ _ Ht Hc Hm) as (_ & p & -> & _). eauto.
Qed.

Lemma planned_nonempty scope target doc est warm rng o :
  plan_virtual_ scope target (ValidRouting doc) est warm rng = Ok o → is_Some (provider_of target) ∨ is_Some o →
  candidates (default (plain_plan target) o) ≠ [].
Proof.
  intros Hp Hs. destruct o as [q|]; simpl.
  - by apply plan_virtual_ok in Hp as (?&?&?&?&?&?&?&?&?).
  - destruct Hs as [[p Hs]|[? [=]]]. unfold plain_plan. by rewrite Hs.
Qed.

(** C34. A document that passed the write validation routes every request.  On a wire
    that serves any provider, whatever the request, its statistics and its draws, the
    plan is never "invalid", never "no candidate" and never "unroutable": it is
    a plan, or the refusal of a split that asks for an identity the request does not
    have.  A plan that replaces the requested model has a candidate. *)
Theorem written_document_routes bnd ctx doc scope requested est warm rng f :
  price_exists → unsigned doc → validate lim bnd doc ctx = Ok () → virtual_support scope = AnyProvider →
  plan_ scope requested (ValidRouting doc) est warm rng f = Err IdentityRequired ∨
  ∃ o, plan_ scope requested (ValidRouting doc) est warm rng f = Ok o ∧
    ∀ p, o = Some p → dispatches p = true → candidates p ≠ [].
Proof.
  intros Hprice Hu Hv Hany. pose proof (written_virtual bnd ctx doc scope) as Hvirt.
  assert (validate_rules lim doc false = Ok ()) as Hr.
  { unfold validate in Hv. apply rbind_Ok in Hv as (_ & _ & Hv). by apply rbind_Ok in Hv as ([] & Hv & _). }
  unfold plan. cbn [routing_doc]. fold (scoped doc scope requested).
  destruct (scoped doc scope requested) as [|r0 rs0] eqn:Ers.
  { destruct (Hvirt requested est warm rng Hprice Hv Hany) as (o & Hp & _). right. exists o. split; [done|]. intros p -> _.
    by apply plan_virtual_ok in Hp as (?&?&?&?&?&?&?&?&?). }
  rewrite <- Ers. fold (selection (scoped doc scope requested) requested f).
  pose proof (selection_ok doc false (scoped doc scope requested) requested f Hr Hu (λ r Hin, proj1 (scoped_elem _ _ _ _ Hin))) as Hsel.
  destruct (selection _ _ _) as [sel|e]; simpl; [|by left; f_equal].
  destruct (Hvirt (from_option fst requested sel) est warm rng Hprice Hv Hany) as (o & Ho & _). rewrite Ho. simpl.
  right. match goal with |- context [if ?b then _ else _] => destruct b eqn:Eb end.
  - exfalso. apply andb_prop in Eb as [Hd Hne]. simpl in Hne. apply negb_true_iff in Hne.
    eapply planned_nonempty; [exact Ho| |by destruct (candidates _)]. destruct o as [q|]; [by right; eexists|].
    destruct sel as [[t a]|]; [|done]. left. apply Hsel. unfold concrete. simpl in *. rewrite (plan_virtual_none _ _ _ _ _ _ Ho). by left.
  - eexists. split; [done|]. intros p [= <-] Hd. rewrite Hd in Eb. simpl in *. by destruct (candidates _).
Qed.
End plans.
