(* ===== verification/RoutedAdmission.v ===== *)
(** * Routed requests through admission

    The provider catalog and the prices are the registry that routing reads; a request
    with a plan is judged by the admission pipeline on every target of the plan.  Then
    what is dispatched, every candidate of the plan, is permitted.

    [apply_route], with which a wire rewrites its parsed body for the plan, is left
    out: it changes neither the targets nor the subjects that are judged. *)

From Stdlib Require Import ZArith Lia.
From stdpp Require Import base list option strings gmap sorting.
From S2P Require Import Prelude BTree Float64 Float64Proofs Encoding Hash Json Network Glob Catalog CatalogProofs Pricing PricingProofs.
From S2P Require Import KeyPolicy KeyPolicyProofs Budgets Limits Controls Admission AdmissionProofs Routing RoutingProofs.
Local Open Scope Z_scope.

(** ** The gateway's registry *)

Section gateway.
Variable c : Catalog.
Variable alias : bytes → option ModelAlias.
Variable t : gmap (bytes * bytes) Rates.
Variable draw : bytes → bytes → Z.
Variable uuid header_name : bytes → bool.

Definition routed_usage (input output : Z) : Usage :=
  {| u_input_tokens := input; u_output_tokens := output; cache_read_input_tokens := None; cache_creation_input_tokens := None |}.

Definition gateway_registry : Registry :=
  {| provider_of := provider_id_for_model c alias;
     op_alias := λ m, upstream_model <$> alias m;
     known_provider := is_known_provider c;
     route_cost := λ m input output,
       cost_usd_for_routed_model t (provider_id_for_model c alias) m (alias m) (routed_usage input output);
     sample_draw := draw; uuid_ok := uuid; header_name_ok := header_name |}.

(** A model has a price or not, whatever is spent: routing's requirement. *)
Lemma gateway_price_exists : @price_exists gateway_registry.
Proof.
  intros m i o i' o'. unfold route_cost. simpl. unfold cost_usd_for_routed_model, cost_usd.
  destruct (alias m) as [a|]; destruct (or_else _ _); simpl; eauto; by intros [].
Qed.

(** The order by cost compares numbers: no cost is NaN. *)
Lemma gateway_costs_compare m input output x :
  table_ok t → 0 ≤ input → 0 ≤ output →
  @route_cost gateway_registry m (u32_of input) (u32_of output) = Some x → nonneg x.
Proof.
  intros Ht Hi Ho Hx. unfold route_cost in Hx. simpl in Hx. eapply routed_cost_nonneg; [exact Ht| |exact Hx].
  assert (0 ≤ u32_max) by done. constructor; simpl; unfold u32_of; lia.
Qed.
End gateway.

(** ** What is dispatched was permitted *)

Section routed.
Context `{Datelike} `{Registry}.
Variable lim : RouteLimits.
Variable end_user_hash : bytes → Z.
Variable aliases : bytes → option bytes.
Variable cfg : Config.
Variable req : Request.

Lemma push_names_elem names extra x : x ∈ push_names names extra ↔ x ∈ names ∨ x ∈ extra.
Proof.
  revert names. induction extra as [|y extra IH]; intros names; simpl; [set_solver|]. rewrite IH.
  case_bool_decide; set_solver.
Qed.

Lemma deny_nothing n : deny_matches [] n = false.
Proof. apply not_true_iff_false. rewrite deny_matches_spec. intros (g & _ & Hg & _). by apply not_elem_of_nil in Hg. Qed.

(** The subject of a target of the plan. *)
Lemma expand_subject base p first rest m :
  subjects base = first :: rest → is_Some (match su_model first with Known n => Some n | _ => None end) → m ∈ policy_targets p →
  ∃ s, s ∈ subjects (expand base (Some p)) ∧ su_model s = Known m ∧ su_provider s = None ∧
    (dispatches p = true → su_workspace_alias s = false).
Proof.
  intros Hs [n Hn] [i Hi]%list_elem_of_lookup_1. exists (subject_for p first i m). unfold expand. rewrite Hs.
  destruct (policy_targets p) as [|t ts] eqn:Et; [done|]. destruct (su_model first); try done. rewrite <- Et in *. split_and!; try done.
  - simpl. apply elem_of_app. left. apply elem_of_lookup_imap. eauto.
  - simpl. by intros ->.
Qed.

(** The names and the provider a dispatched target is judged by. *)
Lemma resolve_target p m pr :
  m ∈ policy_targets p → provider_of m = Some pr →
  let r := routed_policy_resolve aliases (Some p) m false in
  rs_provider r = Some pr ∧
  (∀ n, n = m ∨ n = rp_requested p ∨ n ∈ policy_aliases p ∨ op_alias m = Some n → n ∈ rs_names r) ∧
  (∀ n, n ∈ rs_allow_names r → n = m ∨ op_alias m = Some n).
Proof.
  intros Hm Hp r. unfold r, routed_policy_resolve. rewrite bool_decide_true by done. cbn [rs_provider rs_names rs_allow_names].
  unfold policy_resolve. cbn [rs_provider rs_names rs_allow_names default from_option option_list app]. split_and!; [done|..].
  - intros n Hn. rewrite push_names_elem, !elem_of_cons.
    destruct (op_alias m) as [u|]; simpl; [destruct (bool_decide_reflect (u = m)); simpl; rewrite ?elem_of_cons|]; naive_solver.
  - intros n. destruct (op_alias m) as [u|]; simpl; [destruct (bool_decide_reflect (u = m)); simpl|];
      rewrite ?elem_of_cons, elem_of_nil; naive_solver.
Qed.

(** A layer that permits the target's subject permits the target. *)
Definition target_permitted (p : RoutePlan) (pol : KeyPolicy) (c : Candidate) : Prop :=
  (∀ r, models pol = Some r →
     (∀ n x g, n = c_model c ∨ n = rp_requested p ∨ n ∈ policy_aliases p ∨ op_alias (c_model c) = Some n →
        facing n x → g ∈ deny r → ¬ glob g x) ∧
     (allow r = [] ∨ ∃ n g, (n = c_model c ∨ op_alias (c_model c) = Some n) ∧ g ∈ allow r ∧ glob g n)) ∧
  (∀ r, providers pol = Some r →
     to_ascii_lowercase (c_provider c) ∉ deny r ∧ (allow r = [] ∨ to_ascii_lowercase (c_provider c) ∈ allow r)).

Lemma subject_target_permitted p pol c s :
  candidate_ok p c → su_model s = Known (c_model c) → su_provider s = None → su_workspace_alias s = false →
  subject_permitted (routed_policy_resolve aliases (Some p)) pol s → target_permitted p pol c.
Proof.
  intros [Hin Hpr] Hm Hp Hw [Hmod Hprov _ _].
  destruct (resolve_target p (c_model c) (c_provider c) Hin Hpr) as (Er & Hn & Ha). rewrite Hm, Hp, Hw in *. split.
  - intros r Hr. rewrite Hr in Hmod. cbn [when_set fact_ok] in Hmod. destruct Hmod as [Hdeny Hallow]. split.
    + intros n x g Hnn. apply Hdeny. by apply Hn.
    + destruct Hallow as [?|(n & g & Hna & Hg)]; [by left|]. right. exists n, g. split; [by apply Ha|done].
  - intros r Hr. rewrite Hr in Hprov. cbn [when_set fact_ok] in Hprov. by rewrite Er in Hprov.
Qed.

(** C24. What is dispatched was permitted.  A request whose plan replaces its model runs
    through admission with the plan's targets as its subjects.  If it is admitted, then
    every candidate the gateway may dispatch to is clear of the workspace's blocks
    under its own name, the requested name and every virtual name on the way, its
    provider is not blocked, and the workspace's policy and every layer of the key
    permit the model and the provider. *)
Theorem dispatched_is_permitted scope requested state est warm rng f p base first rest g g' :
  plan lim scope requested state est warm rng f = Ok (Some p) → dispatches p = true →
  subjects base = first :: rest → su_model first = Known requested →
  r_request req = expand base (Some p) →
  run end_user_hash (routed_policy_resolve aliases (Some p)) cfg req g = (Ok (), g') →
  candidates p ≠ [] ∧ ∀ c, c ∈ candidates p →
    (∀ ctl, controls req = Some ctl →
       (∀ n, n = c_model c ∨ n = rp_requested p ∨ n ∈ policy_aliases p → deny_matches (blocked_models ctl) n = false) ∧
       to_ascii_lowercase (c_provider c) ∉ blocked_providers ctl) ∧
    (∀ pol, ws_policy req = Some pol → target_permitted p pol c) ∧
    (∀ gv l, r_governance req = Some gv → l ∈ layers gv → ∃ pol, ly_policy l = Valid pol ∧ target_permitted p pol c).
Proof.
  intros Hplan Hd Hs Hf Hreq Hrun. split; [by eapply plan_dispatches|]. intros c Hc.
  pose proof (plan_candidate_ok lim _ _ _ _ _ _ _ _ _ Hplan Hc) as Hok. destruct Hok as [Hin Hpr].
  destruct (expand_subject base p first rest (c_model c) Hs) as (s & Hsin & Hm & Hp & Hw); [by rewrite Hf|done|].
  specialize (Hw Hd). rewrite <- Hreq in Hsin. destruct (admitted_gates _ _ _ _ _ _ Hrun) as (Hctl & Hws & Hgov).
  destruct (resolve_target p (c_model c) (c_provider c) Hin Hpr) as (Er & Hn & Ha).
  assert (∀ pol, subject_permitted (routed_policy_resolve aliases (Some p)) pol s → target_permitted p pol c) as Hperm.
  { intros pol. by apply subject_target_permitted. }
  split_and!.
  - intros ctl (_ & _ & _ & Hclear)%Hctl. destruct (Hclear s Hsin) as [Hmc Hpc]. split.
    + intros n Hnn. destruct Hmc as [->|[E|(m & E & Hall)]]; [apply deny_nothing|congruence|]. rewrite Hm, Hw in *. injection E as <-.
      apply Hall, elem_of_app. left. apply Hn. tauto.
    + destruct Hpc as [->|Hpc]; [apply not_elem_of_nil|]. unfold AdmissionProofs.provider_of, subject_resolved in Hpc.
      rewrite Hp, Hm, Hw in Hpc. cbn [mbind option_bind] in Hpc. by rewrite Er in Hpc.
  - intros pol Hpol. destruct (is_some_b (models pol) || is_some_b (providers pol) || non_empty (source_ips pol)) eqn:Eb.
    + apply Hperm. by apply (proj1 (check_request_spec _ _ _ _) (Hws pol Hpol Eb)).
    + apply orb_false_elim in Eb as [[E1 E2]%orb_false_elim _]. split; intros r Hr; by rewrite Hr in *.
  - intros gv l Hgv Hl. specialize (Hgov gv Hgv). rewrite evaluate_spec in Hgov. destruct (Hgov l Hl) as (pol & Epol & Hpm).
    exists pol. split; [done|]. apply Hperm. by apply (pm_subjects _ _ _ _ Hpm).
Qed.
End routed.

(** ** A small workspace *)

Definition small_draw (salt key : bytes) : Z := 977 * (lenZ salt + 31 * lenZ key).

#[local] Instance small_registry : Registry :=
  gateway_registry small_catalog no_alias small_table small_draw (λ _, true) (λ _, true).

Definition small_limits : RouteLimits :=
  {| max_virtual_models := 4; max_targets_per_model := 4; max_pool_keys_per_provider := 4; explore_ratio := usd "0.05";
     min_samples := 5; doc_max_bytes := 4096; max_rules := 4; max_arms := 4; max_match_value_bytes := 64;
     sticky_key_max_bytes := 64; match_header_denylist := [lit "authorization"] |}.

Definition small_bounds : Bounds :=
  {| min_ms := 100; total_min_ms := 1000; max_ms := 600000; max_timeout_rules := 4; consecutive_failures_min := 1;
     consecutive_failures_max := 10; cooldown_secs_min := 1; cooldown_secs_max := 60 |}.

Definition any_match (model : string) : Match :=
  {| mt_model := lit model; mt_header := None; mt_metadata := None; mt_tag := None; mt_key_id := None; mt_project_id := None;
     mt_environment := None; mt_end_user_id := None; mt_stream := None |}.

Definition canary : Split :=
  {| sticky_by := [lit "end_user"]; on_missing_identity := Stable;
     arms := [{| arm_name := lit "new"; arm_route_to := lit "claude-haiku-5-5"; arm_bp := Some 3000 |};
              {| arm_name := lit "old"; arm_route_to := lit "fast"; arm_bp := None |}] |}.

Definition canary_rule : Rule :=
  {| ru_id := lit "canary"; ru_wires := [lit "chat"]; predicate := any_match "assistant*";
     action := {| route_to := None; split := Some canary |}; salt := lit "s1" |}.

Definition native_rule : Rule :=
  {| ru_id := lit "native"; ru_wires := [lit "messages"]; predicate := any_match "claude-*";
     action := {| route_to := Some (lit "claude-haiku-5-5"); split := None |}; salt := [] |}.

Definition small_doc : RoutingDoc :=
  {| rules := [canary_rule; native_rule];
     virtual_models := [(lit "fast", {| vm_strategy := Cost;
       vm_targets := [{| tg_model := lit "claude-haiku-4-5"; tg_weight := None |};
                      {| tg_model := lit "gemini-2.5-flash"; tg_weight := None |}] |})];
     key_pools := []; timeouts := []; breaker := None |}.

Definition small_scope (w : Wire) (v : VirtualSupport) : RoutingScope :=
  {| wire := w; virtual_support := v; key_pool := Pool; fallthrough := true; has_timeouts := true |}.

Definition small_facts (user : option bytes) : Facts :=
  {| f_header := λ _, None; f_metadata := λ _, None; f_tags := []; f_key_id := None; f_project_id := None;
     f_environment := None; f_end_user := user; f_session := None; f_stream := false; f_trace_id := lit "t" |}.

Definition small_est : Estimate := {| input_tokens := 100; output_tokens := 100 |}.

Definition small_plan (scope : RoutingScope) (model : string) (user : option bytes) : result (option RoutePlan) PlanError :=
  plan small_limits scope (lit model) (from_stored small_limits small_bounds (Some (Some small_doc))) small_est
    (λ _ _, None) (λ _, 0) (small_facts user).

Definition chat := small_scope Chat AnyProvider.

Definition plan_of (r : result (option RoutePlan) PlanError) : RoutePlan :=
  match r with Ok (Some p) => p | _ => plain_plan [] end.

Definition small_targets : list Target :=
  [{| tg_model := lit "claude-haiku-4-5"; tg_weight := Some 3 |}; {| tg_model := lit "mystery"; tg_weight := Some 1 |}].

Example plan_examples :
  (c_model <$> candidates (plan_of (small_plan chat "assistant-1" None))) = [lit "gemini-2.5-flash"; lit "claude-haiku-4-5"] ∧
  (c_model <$> candidates (plan_of (small_plan chat "assistant-1" (Some (lit "anna"))))) = [lit "gemini-2.5-flash"; lit "claude-haiku-4-5"] ∧
  (c_model <$> candidates (plan_of (small_plan chat "assistant-1" (Some (lit "b"))))) = [lit "claude-haiku-5-5"] ∧
  order small_limits Cost small_targets small_est (λ _ _, None) (λ _, 0) = ([0%nat], [1%nat]) ∧
  order small_limits Weighted small_targets small_est (λ _ _, None) (λ _, 3) = ([1%nat; 0%nat], []) ∧
  validate small_limits small_bounds small_doc {| wc_aliases := []; wc_labels := [] |} = Ok ().
Proof. vm_compute. done. Qed.

Lemma order_exact_witness :
  order small_limits Priority small_targets small_est (λ _ _, None) (λ _, 7) = ([0%nat; 1%nat], []) ∧
  lenZ (filter (λ r, head (order small_limits Weighted small_targets small_est (λ _ _, None) (λ _, r)).1 = Some 0%nat)
          (seqZ 0 (total_weight small_targets))) = 3.
Proof.
  destruct (order_exact small_limits small_est (λ _ _, None) small_targets (λ _, 7)) as (_ & H1 & H2 & _).
  split; [exact H1|]. apply (H2 ltac:(repeat constructor; done) 0%nat {| tg_model := lit "claude-haiku-4-5"; tg_weight := Some 3 |}).
  reflexivity.
Defined.

Lemma canary_unsigned : bps_ok (arms canary).
Proof. repeat constructor; done. Qed.

Lemma split_is_exact_witness :
  sum (widths 0 (arms canary)) = 10000 ∧
  ∃ a asg, last (arms canary) = Some a ∧ choose small_limits canary_rule (small_facts None) = Ok (arm_route_to a, asg).
Proof.
  destruct (split_is_exact small_limits small_doc 0 [] canary_rule canary (small_facts None)) as (_ & _ & H1 & _ & H2).
  - vm_compute. reflexivity.
  - reflexivity.
  - exact canary_unsigned.
  - split; [exact H1|]. destruct H2 as (a & asg & Ha & Hc & _). exists a, asg. split; [exact Ha|exact Hc].
Defined.

Lemma every_outcome_is_judged_witness :
  Forall (λ c, c_model c ∈ policy_targets (plan_of (small_plan chat "assistant-1" None)))
    (candidates (plan_of (small_plan chat "assistant-1" (Some (lit "b"))))).
Proof.
  apply Forall_forall. intros c Hc.
  apply (every_outcome_is_judged small_limits chat (lit "assistant-1")
    (from_stored small_limits small_bounds (Some (Some small_doc)))
    small_est (λ _ _, None) (λ _, 0) (small_facts None) (plan_of (small_plan chat "assistant-1" None))
    small_est (λ _ _, None) (λ _, 0) (small_facts (Some (lit "b"))) (plan_of (small_plan chat "assistant-1" (Some (lit "b"))))).
  - vm_compute. reflexivity.
  - vm_compute. reflexivity.
  - intros _. vm_compute. eexists. reflexivity.
  - exact Hc.
Defined.

Lemma native_wire_keeps_provider_witness :
  Forall (λ c, c_provider c = lit "anthropic")
    (candidates (plan_of (small_plan (small_scope Messages (OwnProvider (lit "anthropic"))) "claude-opus-5" None))).
Proof.
  apply Forall_forall.
  apply (native_wire_keeps_provider small_limits small_bounds (Some (Some small_doc))
    (small_scope Messages (OwnProvider (lit "anthropic"))) (lit "anthropic") (lit "claude-opus-5") small_est (λ _ _, None) (λ _, 0)
    (small_facts None)).
  - left. split; reflexivity.
  - reflexivity.
  - vm_compute. reflexivity.
  - vm_compute. reflexivity.
Defined.

Lemma small_unsigned : unsigned small_doc.
Proof.
  intros r s Hr Hs. apply elem_of_cons in Hr as [->|Hr]; [injection Hs as <-; exact canary_unsigned|].
  apply list_elem_of_singleton in Hr as ->. discriminate Hs.
Qed.

Lemma written_document_routes_witness :
  plan small_limits chat (lit "assistant-1") (ValidRouting small_doc) small_est (λ _ _, None) (λ _, 0) (small_facts None)
    = Err IdentityRequired ∨
  ∃ o, plan small_limits chat (lit "assistant-1") (ValidRouting small_doc) small_est (λ _ _, None) (λ _, 0) (small_facts None)
    = Ok o.
Proof.
  destruct (written_document_routes small_limits small_bounds {| wc_aliases := []; wc_labels := [] |} small_doc chat
    (lit "assistant-1") small_est (λ _ _, None) (λ _, 0) (small_facts None)) as [H1|(o & H1 & _)].
  - apply gateway_price_exists.
  - exact small_unsigned.
  - vm_compute. reflexivity.
  - reflexivity.
  - left. exact H1.
  - right. exists o. exact H1.
Defined.

#[local] Existing Instance fixed_date.

Definition asked : PolicyRequest := r_request (small_request "assistant-1").

(** The small request of admission, judged on a plan. *)
Definition routed_request (p : RoutePlan) : Request :=
  let r := small_request "assistant-1" in
  {| r_tenant := r_tenant r; r_scope_ok := r_scope_ok r; r_key_id := r_key_id r; r_key_uuid := r_key_uuid r;
     r_governance := r_governance r; r_key_rpm := r_key_rpm r; r_budget_usd := r_budget_usd r; r_budget_reset := r_budget_reset r;
     r_trace := r_trace r; r_parse := r_parse r; r_route := r_route r; r_request := expand asked (Some p);
     r_content_length := r_content_length r; r_labels := r_labels r; r_client_ip := r_client_ip r; r_end_user := r_end_user r;
     r_model := r_model r; r_gated := r_gated r; r_entitlements := r_entitlements r; r_key_baseline := r_key_baseline r;
     r_workspace_baseline := r_workspace_baseline r; r_baseline := r_baseline r; r_priced := r_priced r;
     r_decision := r_decision r; r_published := r_published r; r_at := r_at r; r_utc := r_utc r |}.

Definition chat_plan : RoutePlan := plan_of (small_plan chat "assistant-1" (Some (lit "b"))).

Definition routed_run : result unit (Step * Refusal) * Gateway :=
  run no_hash (routed_policy_resolve (λ _, None) (Some chat_plan)) small_config (routed_request chat_plan) empty_gateway.

Lemma dispatched_is_permitted_witness :
  routed_run.1 = Ok () ∧ candidates chat_plan ≠ [] ∧
  Forall (λ c, ∀ ctl, controls (routed_request chat_plan) = Some ctl → to_ascii_lowercase (c_provider c) ∉ blocked_providers ctl)
    (candidates chat_plan).
Proof.
  assert (routed_run.1 = Ok ()) as Hok by (vm_compute; reflexivity).
  assert (routed_run = (Ok (), routed_run.2)) as Hrun by (rewrite <- Hok; apply surjective_pairing).
  destruct (dispatched_is_permitted small_limits no_hash (λ _, None) small_config (routed_request chat_plan) chat (lit "assistant-1")
    (from_stored small_limits small_bounds (Some (Some small_doc))) small_est (λ _ _, None) (λ _, 0) (small_facts (Some (lit "b")))
    chat_plan asked (default {| su_line := None; su_model := Unknown; su_workspace_alias := false; su_provider := None;
      su_input_tokens := Unknown; su_output_cap := Unknown |} (head (subjects asked))) [] empty_gateway routed_run.2) as [H1 H2].
  - vm_compute. reflexivity.
  - vm_compute. reflexivity.
  - vm_compute. reflexivity.
  - vm_compute. reflexivity.
  - reflexivity.
  - exact Hrun.
  - split; [exact Hok|]. split; [exact H1|]. apply Forall_forall. intros c Hc ctl Hctl. exact (proj2 (proj1 (H2 c Hc) ctl Hctl)).
Defined.
