(* ===== verification/Ingest.v ===== *)
(** * Ingest: sampling, ceilings, gaps

    The guards of the ingest service: [tail_sampler.rs], [per_trace_ceiling.rs],
    [gap_tracker.rs], [cardinality.rs], [disk_guard.rs] and the held sequences of
    [span_envelope.rs], all under [crates/ingest/src].  A concurrent map is a finite
    map, one call of a method is one step; the clock is an argument.  Uuids are 128-bit
    numbers. *)

From Stdlib Require Import ZArith Lia.
From stdpp Require Import base list option strings gmap.
From S2P Require Import Prelude.
Local Open Scope Z_scope.

(** ** The tail sampler *)

Inductive SampleDecision : Type := Keep | Drop.
Inductive SamplingPolicy : Type := Tail | Full.

#[global] Instance SampleDecision_eq_dec : EqDecision SampleDecision.
Proof. solve_decision. Defined.
#[global] Instance SamplingPolicy_eq_dec : EqDecision SamplingPolicy.
Proof. solve_decision. Defined.

(** What the sampler reads of a span. *)
Record SpanView := { sv_trace : Z; sv_error : bool; sv_intervention : bool }.

Record TailSampler := { sample_rate_pct : Z; forced_keep : gmap Z Z }.

Definition sampler_with_rate (pct : Z) : TailSampler := {| sample_rate_pct := Z.min pct 100; forced_keep := ∅ |}.

Definition sampler_new : TailSampler := sampler_with_rate 10.

Definition keep_by_rate (s : TailSampler) (trace_id : Z) : bool :=
  if sample_rate_pct s =? 0 then false
  else if 100 <=? sample_rate_pct s then true
  else trace_id mod 100 <? sample_rate_pct s.

Definition evaluate (s : TailSampler) (span : SpanView) (policy : SamplingPolicy) (now : Z) : SampleDecision * TailSampler :=
  if decide (policy = Full) then (Keep, s)
  else if sv_error span || sv_intervention span then
    (Keep, {| sample_rate_pct := sample_rate_pct s; forced_keep := <[sv_trace span := now]> (forced_keep s) |})
  else if decide (is_Some (forced_keep s !! sv_trace span)) then (Keep, s)
  else (if keep_by_rate s (sv_trace span) then Keep else Drop, s).

(** [saturating_duration_since]. *)
Definition since (now earlier : Z) : Z := Z.max 0 (now - earlier).

Definition sampler_prune_at (s : TailSampler) (now max_age : Z) : TailSampler :=
  {| sample_rate_pct := sample_rate_pct s;
     forced_keep := filter (λ kv, since now kv.2 < max_age) (forced_keep s) |}.

(** ** The ceiling of a trace *)

Definition DEFAULT_MAX_SPANS_PER_TRACE : Z := 10000.
Definition DEFAULT_MAX_BYTES_PER_TRACE : Z := 64 * 1024 * 1024.

Inductive CeilingDecision : Type := Accept | Exceeded.

#[global] Instance CeilingDecision_eq_dec : EqDecision CeilingDecision.
Proof. solve_decision. Defined.

Record TraceAccum := { ta_spans : Z; ta_bytes : Z; ta_last_seen : Z }.

Record PerTraceCeiling := { max_spans : Z; max_bytes : Z; accum : gmap (Z * Z) TraceAccum; ceiling_dropped : Z }.

Definition ceiling_with_limits (spans bytes_ : Z) : PerTraceCeiling :=
  {| max_spans := spans; max_bytes := bytes_; accum := ∅; ceiling_dropped := 0 |}.

Definition ceiling_new : PerTraceCeiling := ceiling_with_limits DEFAULT_MAX_SPANS_PER_TRACE DEFAULT_MAX_BYTES_PER_TRACE.

(** The counter of spans is a [u32]; with the span cap disabled it wraps. *)
Definition check_and_record (c : PerTraceCeiling) (tenant_id trace_id span_bytes now : Z) : CeilingDecision * PerTraceCeiling :=
  let k := (tenant_id, trace_id) in
  let e := default {| ta_spans := 0; ta_bytes := 0; ta_last_seen := now |} (accum c !! k) in
  let span_cap_hit := (0 <? max_spans c) && (max_spans c <=? ta_spans e) in
  let byte_cap_hit := (0 <? max_bytes c) && (max_bytes c <=? ta_bytes e) in
  if span_cap_hit || byte_cap_hit then
    (Exceeded, {| max_spans := max_spans c; max_bytes := max_bytes c;
                  accum := <[k := {| ta_spans := ta_spans e; ta_bytes := ta_bytes e; ta_last_seen := now |}]> (accum c);
                  ceiling_dropped := (ceiling_dropped c + 1) mod 2 ^ 64 |})
  else
    (Accept, {| max_spans := max_spans c; max_bytes := max_bytes c;
                accum := <[k := {| ta_spans := (ta_spans e + 1) mod 2 ^ 32;
                                   ta_bytes := Z.min (ta_bytes e + span_bytes) u64_max; ta_last_seen := now |}]> (accum c);
                ceiling_dropped := ceiling_dropped c |}).

Definition ceiling_prune_at (c : PerTraceCeiling) (now max_age : Z) : PerTraceCeiling :=
  {| max_spans := max_spans c; max_bytes := max_bytes c;
     accum := filter (λ kv, since now (ta_last_seen kv.2) < max_age) (accum c); ceiling_dropped := ceiling_dropped c |}.

(** ** Gaps of the stream *)

Inductive GapKind : Type := BootTrim | Trim.
Record Gap := { first_missing : Z; last_missing : Z; gap_kind : GapKind }.

Definition gap_count (g : Gap) : Z := last_missing g - first_missing g + 1.

(** The cursor of the tracker. *)
Definition at_boot (ack_floor first_sequence last_delivered : Z) : option Z * option Gap :=
  (Some (Z.max (Z.max ack_floor last_delivered) (Z.max 0 (first_sequence - 1))),
   if (0 <? ack_floor) && (ack_floor + 1 <? first_sequence)
   then Some {| first_missing := ack_floor + 1; last_missing := first_sequence - 1; gap_kind := BootTrim |} else None).

Definition unanchored : option Z := None.

Definition observe (cursor : option Z) (stream_seq delivered : Z) : option Gap * option Z :=
  if negb (delivered =? 1) then (None, cursor) else
  match cursor with
  | None => (None, Some stream_seq)
  | Some c =>
      if stream_seq <=? c then (None, cursor)
      else (if c + 1 <? stream_seq
            then Some {| first_missing := c + 1; last_missing := stream_seq - 1; gap_kind := Trim |} else None,
            Some stream_seq)
  end.

(** ** Held sequences *)

Definition hold (seq : Z) (held : gset Z) : bool * gset Z := (bool_decide (seq ∉ held), {[seq]} ∪ held).
Definition release (seq : Z) (held : gset Z) : gset Z := held ∖ {[seq]}.

(** ** Attribute cardinality *)

(** A sketch of distinct keys: what [hyperloglogplus] provides. *)
Class Sketch := {
  sketch : Type;
  sketch_new : sketch;
  sketch_insert : bytes → sketch → sketch;
  sketch_count : sketch → Z;
}.

Inductive Classification : Type := Accepted | Overflow.

Section cardinality.
Context `{Sketch}.

Record WorkspaceState := { ws_sketch : sketch; ws_estimate : Z }.

Definition observe_and_classify (inner : gmap Z WorkspaceState) (workspace_id : Z) (attr_key : bytes) (cap : Z)
    : Classification * gmap Z WorkspaceState :=
  let st := default {| ws_sketch := sketch_new; ws_estimate := 0 |} (inner !! workspace_id) in
  let sk := sketch_insert attr_key (ws_sketch st) in
  let est := if ws_estimate st mod 8 =? 0 then sketch_count sk else Z.min (ws_estimate st + 1) u64_max in
  (if cap <? est then Overflow else Accepted,
   <[workspace_id := {| ws_sketch := sk; ws_estimate := est |}]> inner).
End cardinality.

(** ** Disk pressure *)

Definition DEFAULT_MIN_FREE_BYTES : Z := 100 * 1024 * 1024.

Definition should_shed (available_bytes min_free_bytes : Z) : bool := available_bytes <? min_free_bytes.

(** [refresh_once]: [None] is a failed [statvfs]. *)
Definition refresh_once (shedding : bool) (available : option Z) (min_free_bytes : Z) : bool :=
  match available with Some a => should_shed a min_free_bytes | None => shedding end.
