(* ===== verification/IngestProofs.v ===== *)
(** * Ingest: what the guards guarantee *)

From Stdlib Require Import ZArith Lia.
From stdpp Require Import base list option strings gmap.
From S2P Require Import Prelude Ingest.
Local Open Scope Z_scope.

(** ** The sampler over a history *)

Inductive SamplerOp : Type := Eval (span : SpanView) (policy : SamplingPolicy) (now : Z) | Prune (now max_age : Z).

Definition sampler_step (s : TailSampler) (op : SamplerOp) : TailSampler :=
  match op with
  | Eval span policy now => (evaluate s span policy now).2
  | Prune now max_age => sampler_prune_at s now max_age
  end.

Definition sampler_run (s : TailSampler) (ops : list SamplerOp) : TailSampler := foldl sampler_step s ops.

Definition failing (span : SpanView) : bool := sv_error span || sv_intervention span.

(** A span was forced at [t]: since then the clock went on, and no sweep came
    [max_age] or more after [t]. *)
Definition within (t : Z) (op : SamplerOp) : Prop :=
  match op with Eval _ _ now => t ≤ now | Prune now max_age => since now t < max_age end.

Lemma forced_stays s tr t op :
  within t op → (∃ u, t ≤ u ∧ forced_keep s !! tr = Some u) → ∃ u, t ≤ u ∧ forced_keep (sampler_step s op) !! tr = Some u.
Proof.
  intros Hw (u & Hu & E). destruct op as [span policy now|now max_age]; simpl in *.
  - unfold evaluate. case_decide; [eauto|]. destruct (_ || _); simpl.
    + destruct (decide (sv_trace span = tr)) as [->|Hn]; [exists now; by rewrite lookup_insert_eq|].
      exists u. by rewrite lookup_insert_ne.
    + case_decide; eauto.
  - exists u. split; [done|]. apply map_lookup_filter_Some. split; [done|]. simpl. unfold since in *. lia.
Qed.

Lemma evaluate_forced s span policy now u : forced_keep s !! sv_trace span = Some u → (evaluate s span policy now).1 = Keep.
Proof.
  intros E. unfold evaluate. case_decide; [done|]. destruct (_ || _); [done|]. by rewrite decide_True.
Qed.

Definition never_forces (tr : Z) (op : SamplerOp) : Prop :=
  match op with Eval span policy _ => sv_trace span = tr → failing span = false | Prune _ _ => True end.

Lemma rate_step s op : sample_rate_pct (sampler_step s op) = sample_rate_pct s.
Proof.
  destruct op; simpl; [|done]. unfold evaluate. case_decide; [done|]. destruct (_ || _); [done|]. by case_decide.
Qed.

Lemma rate_run s ops : sample_rate_pct (sampler_run s ops) = sample_rate_pct s.
Proof. revert s. induction ops as [|op ops IH]; intros s; [done|]. simpl. by rewrite IH, rate_step. Qed.

Lemma unforced_stays s tr op :
  never_forces tr op → forced_keep s !! tr = None → forced_keep (sampler_step s op) !! tr = None.
Proof.
  intros Hn E. destruct op as [span policy now|now max_age]; simpl in *.
  - unfold evaluate. case_decide; [done|]. destruct (sv_error span || sv_intervention span) eqn:Ef; [|by case_decide].
    simpl. rewrite lookup_insert_ne; [done|]. intros E'. specialize (Hn E'). unfold failing in Hn. congruence.
  - apply map_lookup_filter_None. by left.
Qed.

Lemma filter_seqZ_below a n k : 0 ≤ k ≤ n → lenZ (filter (λ i, i < a + k) (seqZ a n)) = k.
Proof.
  intros Hk. replace n with (k + (n - k)) by lia. rewrite seqZ_app by lia. rewrite filter_app, lenZ_app.
  assert (filter (λ i, i < a + k) (seqZ a k) = seqZ a k) as ->.
  { apply filter_all, Forall_forall. intros i. rewrite elem_of_seqZ. lia. }
  assert (filter (λ i, i < a + k) (seqZ (a + k) (n - k)) = []) as ->.
  { apply filter_none, Forall_forall. intros i. rewrite elem_of_seqZ. lia. }
  unfold lenZ. rewrite length_seqZ. simpl. lia.
Qed.

(** Of a hundred consecutive ids the rate keeps its share. *)
Lemma rate_share s rate id :
  sample_rate_pct s = Z.min rate 100 → 0 ≤ rate →
  lenZ (filter (λ i, keep_by_rate s i = true) (seqZ (100 * id) 100)) = Z.min rate 100.
Proof.
  intros E Hr. rewrite <- (filter_seqZ_below (100 * id) 100 (Z.min rate 100)) by lia. f_equal.
  apply filter_Forall_iff, Forall_forall. intros i [? ?]%elem_of_seqZ. unfold keep_by_rate. rewrite E.
  destruct (Z.eqb_spec (Z.min rate 100) 0); [split; [done|lia]|].
  destruct (Z.leb_spec 100 (Z.min rate 100)); [split; [lia|done]|].
  rewrite Z.ltb_lt. replace (i mod 100) with (i - 100 * id); [lia|]. apply (Z.mod_unique i 100 id); lia.
Qed.

(** A failing trace is kept whole, a clean one by its id alone.  A span with an error
    or an intervention is kept, and every later span of its trace is kept, whatever
    else is evaluated and swept, as long as no sweep comes a whole window after that
    span.  Of a trace in which nothing failed, every span has the same verdict, the one
    its id gives at the sampling rate; and of any hundred consecutive ids exactly as
    many are kept as the rate says.  Under the full policy everything is kept. *)
Theorem sampler_verdicts rate ops :
  0 ≤ rate →
  let s := sampler_run (sampler_with_rate rate) ops in
  (∀ span t, failing span = true → (evaluate s span Tail t).1 = Keep ∧
     ∀ ops' span' policy now, Forall (within t) ops' → sv_trace span' = sv_trace span →
       (evaluate (sampler_run (evaluate s span Tail t).2 ops') span' policy now).1 = Keep) ∧
  (∀ span now, Forall (never_forces (sv_trace span)) ops → failing span = false →
     (evaluate s span Tail now).1 = (if keep_by_rate (sampler_with_rate rate) (sv_trace span) then Keep else Drop)) ∧
  (∀ id, lenZ (filter (λ i, keep_by_rate s i = true) (seqZ (100 * id) 100)) = Z.min rate 100) ∧
  (∀ span now, evaluate s span Full now = (Keep, s)).
Proof.
  intros Hrate s. split_and!.
  - intros span t Hf. assert (evaluate s span Tail t = (Keep, {| sample_rate_pct := sample_rate_pct s;
      forced_keep := <[sv_trace span := t]> (forced_keep s) |})) as -> by (unfold evaluate; fold (failing span); by rewrite Hf).
    split; [done|]. intros ops' span' policy now Hw Et. simpl.
    assert (∀ s0, (∃ u, t ≤ u ∧ forced_keep s0 !! sv_trace span = Some u) →
      ∃ u, t ≤ u ∧ forced_keep (sampler_run s0 ops') !! sv_trace span = Some u) as Hrun.
    { induction Hw as [|op ops' Ho _ IH]; [done|]. intros s0 H0. simpl. apply IH. by apply forced_stays. }
    destruct (Hrun {| sample_rate_pct := sample_rate_pct s; forced_keep := <[sv_trace span := t]> (forced_keep s) |})
      as (u & _ & E); [exists t; simpl; by rewrite lookup_insert_eq|].
    eapply evaluate_forced. rewrite Et. exact E.
  - intros span now Hn Hf. assert (forced_keep s !! sv_trace span = None) as E.
    { unfold s. assert (∀ s0, forced_keep s0 !! sv_trace span = None → forced_keep (sampler_run s0 ops) !! sv_trace span = None) as H.
      { induction Hn as [|op ops' Ho _ IH]; [done|]. intros s0 H0. simpl. apply IH. by apply unforced_stays. }
      by apply H. }
    unfold evaluate. fold (failing span). rewrite Hf, decide_False by done. rewrite decide_False by (rewrite E; apply is_Some_None). simpl.
    unfold keep_by_rate, s. by rewrite rate_run.
  - intros id. apply rate_share; [unfold s; by rewrite rate_run|done].
  - done.
Qed.

(** A sweep does not look at the clean spans of a trace.  Rate 0, an error at second 0,
    clean spans of the trace kept every minute up to second 599; the sweep at second 600
    drops the verdict, and the next clean span of the trace is dropped. *)
Example active_trace_is_swept :
  let failing_span := {| sv_trace := 7; sv_error := true; sv_intervention := false |} in
  let clean_span := {| sv_trace := 7; sv_error := false; sv_intervention := false |} in
  let s := sampler_run (sampler_with_rate 0)
             ([Eval failing_span Tail 0] ++ ((λ m, Eval clean_span Tail (60 * m)) <$> seqZ 1 9) ++ [Eval clean_span Tail 599]) in
  (evaluate s clean_span Tail 599).1 = Keep ∧
  (evaluate (sampler_run s [Prune 600 600]) clean_span Tail 600).1 = Drop.
Proof. vm_compute. done. Qed.

(** ** The ceiling over a history *)

(** A check: tenant, trace, bytes, time. *)
Record CeilingCheck := { cc_tenant : Z; cc_trace : Z; cc_bytes : Z; cc_now : Z }.

Definition cc_key (x : CeilingCheck) : Z * Z := (cc_tenant x, cc_trace x).

Fixpoint ceiling_run (c : PerTraceCeiling) (l : list CeilingCheck) : list CeilingDecision * PerTraceCeiling :=
  match l with
  | [] => ([], c)
  | x :: l' =>
      let '(d, c1) := check_and_record c (cc_tenant x) (cc_trace x) (cc_bytes x) (cc_now x) in
      let '(ds, c2) := ceiling_run c1 l' in (d :: ds, c2)
  end.

(** The reference: one trace on its own, with what it accepted so far. *)
Fixpoint alone (caps : Z * Z) (spans bytes_ : Z) (l : list CeilingCheck) : list CeilingDecision :=
  match l with
  | [] => []
  | x :: l' =>
      if bool_decide ((0 < caps.1 ∧ caps.1 ≤ spans) ∨ (0 < caps.2 ∧ caps.2 ≤ bytes_))
      then Exceeded :: alone caps spans bytes_ l'
      else Accept :: alone caps (spans + 1) (bytes_ + cc_bytes x) l'
  end.

(** The decisions about one trace. *)
Definition decisions_of (k : Z * Z) (l : list CeilingCheck) (ds : list CeilingDecision) : list CeilingDecision :=
  snd <$> filter (λ xd, cc_key xd.1 = k) (zip l ds).

Definition recorded (c : PerTraceCeiling) (k : Z * Z) : Z * Z :=
  match accum c !! k with Some e => (ta_spans e, ta_bytes e) | None => (0, 0) end.

Lemma check_key c x :
  let '(d, c') := check_and_record c (cc_tenant x) (cc_trace x) (cc_bytes x) (cc_now x) in
  let '(n, b) := recorded c (cc_key x) in
  let hit := bool_decide ((0 < max_spans c ∧ max_spans c ≤ n) ∨ (0 < max_bytes c ∧ max_bytes c ≤ b)) in
  d = (if hit then Exceeded else Accept) ∧
  recorded c' (cc_key x) = (if hit then (n, b) else ((n + 1) mod 2 ^ 32, Z.min (b + cc_bytes x) u64_max)) ∧
  (∀ k, k ≠ cc_key x → recorded c' k = recorded c k) ∧ max_spans c' = max_spans c ∧ max_bytes c' = max_bytes c.
Proof.
  unfold check_and_record, recorded, cc_key.
  set (e := default _ _).
  assert (match accum c !! (cc_tenant x, cc_trace x) with Some e => (ta_spans e, ta_bytes e) | None => (0, 0) end
          = (ta_spans e, ta_bytes e)) as -> by (unfold e; by destruct (accum c !! _)).
  assert (((0 <? max_spans c) && (max_spans c <=? ta_spans e)) || ((0 <? max_bytes c) && (max_bytes c <=? ta_bytes e))
    = bool_decide ((0 < max_spans c ∧ max_spans c ≤ ta_spans e) ∨ (0 < max_bytes c ∧ max_bytes c ≤ ta_bytes e))) as ->.
  { apply eq_true_iff_eq. rewrite bool_decide_eq_true, orb_true_iff, !andb_true_iff, !Z.ltb_lt, !Z.leb_le. done. }
  case_bool_decide; simpl; rewrite lookup_insert_eq; split_and!; try done; intros k Hk; by rewrite lookup_insert_ne.
Qed.

Lemma ceiling_run_alone c l k n b :
  recorded c k = (n, b) → 0 ≤ n → 0 ≤ b → n + lenZ l < 2 ^ 32 →
  Forall (λ x, 0 ≤ cc_bytes x) l → b + foldr Z.add 0 (cc_bytes <$> l) ≤ u64_max →
  decisions_of k l (ceiling_run c l).1 = alone (max_spans c, max_bytes c) n b (filter (λ x, cc_key x = k) l).
Proof.
  revert c n b. induction l as [|x l IH]; intros c n b Hr Hn Hb Hlen Hpos Hsum; [done|].
  apply Forall_cons in Hpos as [Hx Hpos]. rewrite fmap_cons in Hsum. simpl in Hsum.
  assert (0 ≤ foldr Z.add 0 (cc_bytes <$> l)) as Hs0.
  { clear -Hpos. induction Hpos; [done|]. rewrite fmap_cons. cbn [foldr]. lia. }
  unfold lenZ in Hlen. rewrite length_cons in Hlen. cbn [ceiling_run].
  pose proof (check_key c x) as Hc. destruct (check_and_record c _ _ _ _) as [d c1].
  destruct (recorded c (cc_key x)) as [n' b'] eqn:Er. destruct Hc as (Hd & Hrec & Hother & Ems & Emb).
  destruct (ceiling_run c1 l) as [ds c2] eqn:Erun. unfold decisions_of. simpl zip. cbn [fst].
  assert (ds = (ceiling_run c1 l).1) as Eds by by rewrite Erun.
  destruct (decide (cc_key x = k)) as [Ek|Ek].
  - subst k. rewrite !filter_cons_True by done. rewrite fmap_cons. simpl. rewrite Er in Hr. injection Hr as -> ->.
    rewrite Hd. case_bool_decide; f_equal; fold (decisions_of (cc_key x) l ds); rewrite Eds, <- Ems, <- Emb.
    + apply IH; try done; unfold lenZ; lia.
    + rewrite Z.mod_small in Hrec by lia. rewrite Z.min_l in Hrec by lia. apply IH; try done; unfold lenZ; lia.
  - rewrite !filter_cons_False by done. fold (decisions_of k l ds). rewrite Eds, <- Ems, <- Emb.
    apply IH; try done; unfold lenZ; try lia. by rewrite Hother.
Qed.

Lemma alone_bound caps n b l : 0 < caps.1 → n ≤ caps.1 → n + lenZ (filter (.= Accept) (alone caps n b l)) ≤ caps.1.
Proof.
  intros Hc. revert n b. induction l as [|x l IH]; intros n b Hn; simpl; [unfold lenZ; simpl; lia|].
  case_bool_decide as Hh.
  - rewrite filter_cons_False by done. by apply IH.
  - rewrite filter_cons_True by done. unfold lenZ. rewrite length_cons.
    specialize (IH (n + 1) (b + cc_bytes x) ltac:(lia)). unfold lenZ in IH. lia.
Qed.

(** The ceiling is exact and per trace.  Over any history of checks (below the range of
    the counters), the decisions about a trace of a tenant are those of a ceiling that
    sees that trace alone: accept while fewer spans than the span cap and fewer bytes
    than the byte cap were accepted, a cap of zero not counting.  So no other tenant and
    no other trace has any influence, at most the span cap's number of spans is
    accepted, and the bytes exceed the byte cap by less than the last span. *)
Theorem ceiling_is_exact spans bytes_ l k :
  lenZ l < 2 ^ 32 → Forall (λ x, 0 ≤ cc_bytes x) l → foldr Z.add 0 (cc_bytes <$> l) ≤ u64_max →
  let ds := decisions_of k l (ceiling_run (ceiling_with_limits spans bytes_) l).1 in
  ds = alone (spans, bytes_) 0 0 (filter (λ x, cc_key x = k) l) ∧
  (0 < spans → lenZ (filter (.= Accept) ds) ≤ spans).
Proof.
  intros Hlen Hpos Hsum ds.
  assert (ds = alone (spans, bytes_) 0 0 (filter (λ x, cc_key x = k) l)) as E.
  { apply (ceiling_run_alone (ceiling_with_limits spans bytes_)); try done; lia. }
  split; [done|]. intros Hs. rewrite E. by apply (alone_bound (spans, bytes_) 0 0); [|simpl; lia].
Qed.

(** ** Gaps *)

(** Deliveries: stream sequence and delivery count. *)
Fixpoint observe_all (cursor : option Z) (l : list (Z * Z)) : list Gap * option Z :=
  match l with
  | [] => ([], cursor)
  | (s, n) :: l' =>
      let '(g, c1) := observe cursor s n in
      let '(gs, c2) := observe_all c1 l' in (option_list g ++ gs, c2)
  end.

Definition missing_of (g : Gap) : list Z := seqZ (first_missing g) (gap_count g).

(** The sequences delivered for the first time. *)
Definition firsts (l : list (Z * Z)) : list Z := fst <$> filter (λ sn, sn.2 = 1) l.

(** First deliveries come in stream order, after the cursor. *)
Fixpoint in_order (c : Z) (l : list Z) : Prop :=
  match l with [] => True | s :: l' => c < s ∧ in_order s l' end.

Lemma in_order_above c l s : in_order c l → s ∈ l → c < s.
Proof.
  revert c. induction l as [|x l IH]; intros c; simpl; [by intros _ ?%not_elem_of_nil|].
  intros [Hx Hl] [->|Hs]%elem_of_cons; [done|]. specialize (IH x Hl Hs). lia.
Qed.

(** Gaps are counted exactly.  The deliveries of a pull consumer: first deliveries in
    the order of the stream, redeliveries anywhere between them.  The gaps the tracker
    reports, put together, are exactly the sequences after its first cursor and up to
    its last that were never delivered, in order and each once; redeliveries change
    nothing. *)
Theorem gaps_are_exact c l gs c' :
  in_order c (firsts l) → observe_all (Some c) l = (gs, c') →
  ∃ e, c' = Some e ∧ c ≤ e ∧ (e = c ∨ e ∈ firsts l) ∧
    (gs ≫= missing_of) = filter (λ s, s ∉ firsts l) (seqZ (c + 1) (e - c)).
Proof.
  revert c gs. induction l as [|[s n] l IH]; intros c gs Ho; cbn [observe_all].
  { intros [= <- <-]. exists c. split_and!; [done|lia|by left|]. by rewrite Z.sub_diag. }
  unfold firsts in *. rewrite filter_cons in Ho. unfold observe. simpl in Ho.
  destruct (decide (n = 1)) as [->|Hn].
  - simpl in Ho. destruct Ho as [Hs Ho]. cbn [Z.eqb Pos.eqb negb]. destruct (Z.leb_spec s c); [lia|].
    destruct (observe_all (Some s) l) as [gs' c2] eqn:E. intros [= <- <-].
    destruct (IH s gs' Ho E) as (e & -> & He & Hmem & Hgs). exists e. rewrite filter_cons_True by done. rewrite fmap_cons. cbn [fst].
    split_and!; [done|lia|right; destruct Hmem as [->|?]; [by left|by right]|].
    rewrite bind_app, Hgs. replace (e - c) with ((s - c - 1) + (1 + (e - s))) by lia.
    rewrite (seqZ_app (c + 1)) by lia. rewrite (seqZ_app (c + 1 + (s - c - 1)) 1) by lia. rewrite !filter_app.
    replace (c + 1 + (s - c - 1)) with s by lia. change (seqZ s 1) with [s].
    assert (∀ x, x ∈ (filter (λ sn : Z * Z, sn.2 = 1) l).*1 → s < x) as Habove.
    { intros x. by apply in_order_above. }
    rewrite (filter_none _ [s]); [|by repeat constructor; simpl; intros Hx; apply Hx; left]. rewrite app_nil_l. f_equal.
    + rewrite filter_all; [|apply Forall_forall; intros x [? ?]%elem_of_seqZ [->|Hx%Habove]%elem_of_cons; lia].
      destruct (Z.ltb_spec (c + 1) s); simpl.
      * rewrite app_nil_r. unfold missing_of, gap_count. simpl. f_equal. lia.
      * replace (s - c - 1) with 0 by lia. done.
    + apply filter_Forall_iff, Forall_forall. intros x [? ?]%elem_of_seqZ. rewrite not_elem_of_cons.
      split; [|tauto]. intros Hx. split; [lia|done].
  - rewrite filter_cons_False by done. destruct (Z.eqb_spec n 1); [done|]. cbn [negb].
    destruct (observe_all (Some c) l) as [gs' c2] eqn:E. intros [= <- <-]. by apply IH.
Qed.

(** The boot gap ends just below the first retained message, and the cursor stands at or
    above it, so the tracker never reports a boot gap again. *)
Lemma boot_gap_behind_cursor a f d c g :
  at_boot a f d = (Some c, Some g) → first_missing g = a + 1 ∧ last_missing g = f - 1 ∧ last_missing g ≤ c ∧ 0 < gap_count g.
Proof.
  unfold at_boot. destruct (Z.ltb_spec 0 a), (Z.ltb_spec (a + 1) f); simpl; intros [= <- <-]; unfold gap_count; simpl; lia.
Qed.

(** ** Attribute cardinality *)

(** A sketch that counts exactly. *)
#[local] Instance exact_sketch : Sketch :=
  { sketch := gset bytes; sketch_new := ∅; sketch_insert := λ k s, {[k]} ∪ s; sketch_count := λ s, Z.of_nat (size s) }.

Fixpoint classify_all (inner : gmap Z WorkspaceState) (l : list bytes) (cap : Z) : list Classification :=
  match l with
  | [] => []
  | k :: l' => let '(c, inner') := observe_and_classify inner 1 k cap in c :: classify_all inner' l' cap
  end.

(** The cached estimate is refreshed when it is a multiple of eight, not at every eighth
    observation, and counts up in between even if the key is not new: one key, sent six
    times, is over a cap of five; eight keys are counted at every observation. *)
Example repeated_key_overflows :
  classify_all ∅ (replicate 9 (lit "k")) 5 =
    [Accepted; Accepted; Accepted; Accepted; Accepted; Overflow; Overflow; Overflow; Accepted].
Proof. vm_compute. done. Qed.

(** ** Witnesses *)

Definition bad_span : SpanView := {| sv_trace := 42; sv_error := true; sv_intervention := false |}.
Definition good_span : SpanView := {| sv_trace := 42; sv_error := false; sv_intervention := false |}.

Lemma sampler_verdicts_witness :
  (evaluate (sampler_run (evaluate (sampler_with_rate 0) bad_span Tail 5).2 [Prune 300 600]) good_span Tail 301).1 = Keep ∧
  lenZ (filter (λ i, keep_by_rate (sampler_with_rate 10) i = true) (seqZ 300 100)) = 10.
Proof.
  split.
  - destruct (sampler_verdicts 0 [] ltac:(done)) as (H1 & _). apply (proj2 (H1 bad_span 5 eq_refl) [Prune 300 600] good_span Tail 301).
    + repeat constructor.
    + reflexivity.
  - destruct (sampler_verdicts 10 [] ltac:(done)) as (_ & _ & H3 & _). exact (H3 3).
Defined.

Definition small_checks : list CeilingCheck :=
  [{| cc_tenant := 1; cc_trace := 9; cc_bytes := 10; cc_now := 0 |}; {| cc_tenant := 2; cc_trace := 9; cc_bytes := 10; cc_now := 1 |};
   {| cc_tenant := 1; cc_trace := 9; cc_bytes := 10; cc_now := 2 |}; {| cc_tenant := 1; cc_trace := 9; cc_bytes := 10; cc_now := 3 |}].

Lemma ceiling_is_exact_witness :
  decisions_of (1, 9) small_checks (ceiling_run (ceiling_with_limits 2 0) small_checks).1 = [Accept; Accept; Exceeded].
Proof.
  rewrite (proj1 (ceiling_is_exact 2 0 small_checks (1, 9) ltac:(done) ltac:(repeat constructor; done) ltac:(done))).
  vm_compute. reflexivity.
Defined.

Lemma gaps_are_exact_witness : ∃ e, (observe_all (Some 3) [(4, 1); (8, 1); (4, 2); (9, 1)]).2 = Some e ∧
  ((observe_all (Some 3) [(4, 1); (8, 1); (4, 2); (9, 1)]).1 ≫= missing_of) = filter (λ s, s ∉ [4; 8; 9]) (seqZ 4 (e - 3)).
Proof.
  destruct (gaps_are_exact 3 [(4, 1); (8, 1); (4, 2); (9, 1)] _ _ ltac:(simpl; lia) (surjective_pairing _)) as (e & He & _ & _ & Hg).
  exists e. split; [exact He|exact Hg].
Defined.
