(* ===== verification/SpanWriter.v ===== *)
(** * The span writer

    [crates/ingest/src/clickhouse_writer.rs]: spans are taken from the channel, metered,
    sampled, put through the per-trace ceiling and collected into a batch; the batch is
    inserted, its blobs and their references are inserted, and only then its messages are
    acknowledged.  The meter has its own batches with their own retries.

    The database is outside: an attempt to insert succeeds, fails without effect, or
    takes effect and loses its reply; a table with a deduplication window drops a block
    whose token it has seen.  Redaction, the content hash, the text of a uuid and the
    capture of direct spans are arguments.  [serde_json] prints an object whose keys are
    sorted, as [Json.canon] does.  A writer that fails stops with its messages
    unacknowledged; they are delivered again to the next process. *)

From Stdlib Require Import ZArith Lia.
From stdpp Require Import base list option strings gmap.
From S2P Require Import Prelude BTree Float64 Encoding Hash Json Ingest.
Local Open Scope Z_scope.

Definition SAMPLER_MAX_TRACE_WINDOW : Z := 600.
Definition SAMPLER_PRUNE_INTERVAL : Z := 60.
Definition BLOB_THRESHOLD_BYTES : Z := 1024.
Definition INGEST_METER_PENDING_CAP : nat := 8640.

(** [CH_INSERT_BACKOFF], in milliseconds. *)
Definition CH_INSERT_BACKOFF : list Z := [500; 1000; 2000; 4000; 8000; 16000; 32000].

(** ** Spans *)

Section spans.
Context `{JsonNumber}.

(** [sp_attributes] is the JSON object the attributes serialize to, unknown attributes
    included. *)
Record Span := {
  sp_tenant : Z;
  sp_trace : Z;
  sp_id : Z;
  sp_parent : option Z;
  sp_name : bytes;
  sp_start : Z;
  sp_end : option Z;
  sp_status_code : Z;
  sp_status_message : option bytes;
  sp_intervention : option Z;
  sp_aft_id : option bytes;
  sp_attributes : Value;
}.

Inductive SpanSource : Type := Nats | OtlpDirect.

#[global] Instance SpanSource_eq_dec : EqDecision SpanSource.
Proof. solve_decision. Defined.

(** A span with the stream sequence of its message. *)
Record Envelope := { e_span : Span; e_source : SpanSource; e_ack : option Z }.

Record SpanRow := {
  row_tenant_id : bytes;
  row_trace_id : bytes;
  row_span_id : bytes;
  row_parent_span_id : option bytes;
  row_name : bytes;
  row_start_time : Z;
  row_end_time : Z;
  row_status_code : Z;
  row_status_message : bytes;
  row_attributes : bytes;
  row_aft_ids : list bytes;
  row_intervention : Z;
  row_span_bytes : Z;
}.

Record PendingBlob := { pb_tenant : bytes; pb_hash : bytes; pb_bytes : bytes; pb_size : Z }.
Record PendingBlobRef := { pr_tenant : bytes; pr_hash : bytes; pr_span_id : bytes; pr_day : Z }.

Record IngestMeterBatch := { mb_token : bytes; mb_day : Z; mb_rows : list (bytes * f64) }.

(** What the writer takes from elsewhere. *)
Class WriterEnv := {
  uuid_text : Z → bytes;
  blake3 : bytes → bytes;
  redact : bytes → bytes;
  redact_json : Value → Value;
  apply_capture : Z → Span → Span;
  sampling_policy : Z → SamplingPolicy;
}.

Context `{WriterEnv}.

Definition GATEWAY_SPAN_BYTES_ATTR : bytes := lit "tracelane_span_bytes".

(** [extra.get(key)]. *)
Definition attr_get (key : bytes) (v : Value) : option Value :=
  match v with Object fields => snd <$> (snd <$> list_find (λ kv, kv.1 = key) fields) | _ => None end.

Definition is_gateway_stamped (s : Span) : bool := bool_decide (is_Some (attr_get GATEWAY_SPAN_BYTES_ATTR (sp_attributes s))).

Definition resolve_span_bytes (s : Span) : Z :=
  match attr_get GATEWAY_SPAN_BYTES_ATTR (sp_attributes s) ≫= λ v, match v with Number n => num_as_u64 n | _ => None end with
  | Some stamped => Z.min stamped u32_max
  | None => Z.min (lenZ (canon (sp_attributes s)) + lenZ (sp_name s) + lenZ (default [] (sp_status_message s)) + 96) u32_max
  end.

(** ** Blobs *)

Definition is_blob_ref (v : Value) : bool :=
  match attr_get (lit "$ref") v with Some (String s) => is_prefix (lit "blake3:") s | _ => false end.

(** One value of the object: what it becomes, and what it queues. *)
Definition substitute_value (tenant_id span_id : bytes) (day : Z) (value : Value)
    : Value * option (PendingBlob * PendingBlobRef) :=
  if is_blob_ref value then (value, None) else
  let text := canon value in
  if lenZ text <=? BLOB_THRESHOLD_BYTES then (value, None) else
  let hash := blake3 text in
  (Object [(lit "$ref", String (lit "blake3:" ++ hex_encode hash))],
   Some ({| pb_tenant := tenant_id; pb_hash := hash; pb_bytes := text; pb_size := Z.min (lenZ text) u32_max |},
         {| pr_tenant := tenant_id; pr_hash := hash; pr_span_id := span_id; pr_day := day |})).

Definition substitute_blobs (tenant_id span_id : bytes) (day : Z) (attrs : Value) : Value * list (PendingBlob * PendingBlobRef) :=
  match attrs with
  | Object fields =>
      let out := (λ kv, (kv.1, substitute_value tenant_id span_id day kv.2)) <$> fields in
      (Object ((λ kx, (kx.1, kx.2.1)) <$> out), omap (λ kx, kx.2.2) out)
  | _ => (attrs, [])
  end.

Definition build_span_row (s : Span) (span_bytes day : Z) : SpanRow * list (PendingBlob * PendingBlobRef) :=
  let tenant_id := uuid_text (sp_tenant s) in
  let span_id := uuid_text (sp_id s) in
  let '(attrs, queued) := substitute_blobs tenant_id span_id day (redact_json (sp_attributes s)) in
  ({| row_tenant_id := tenant_id; row_trace_id := uuid_text (sp_trace s); row_span_id := span_id;
      row_parent_span_id := uuid_text <$> sp_parent s; row_name := redact (sp_name s); row_start_time := sp_start s;
      row_end_time := default 0 (sp_end s); row_status_code := sp_status_code s;
      row_status_message := redact (default [] (sp_status_message s)); row_attributes := canon attrs;
      row_aft_ids := option_list (sp_aft_id s); row_intervention := default 0 (sp_intervention s);
      row_span_bytes := span_bytes |}, queued).

(** [days_since_epoch]: days as a [u16]. *)
Definition days_since_epoch (days : Z) : Z := Z.min (Z.max days 0) (2 ^ 16 - 1).

Definition row_byte_estimate (row : SpanRow) : Z :=
  lenZ (row_attributes row) + lenZ (row_name row) + lenZ (row_status_message row)
  + from_option lenZ 0 (row_parent_span_id row) + 128.

Definition view (s : Span) : SpanView :=
  {| sv_trace := sp_trace s; sv_error := bool_decide (sp_status_code s = 2); sv_intervention := bool_decide (is_Some (sp_intervention s)) |}.

Definition sample_one (sampler : TailSampler) (s : Span) (policy : SamplingPolicy) (span_bytes day now : Z)
    : option (SpanRow * list (PendingBlob * PendingBlobRef)) * TailSampler :=
  let '(d, sampler) := evaluate sampler (view s) policy now in
  (if decide (d = Keep) then Some (build_span_row s span_bytes day) else None, sampler).

Definition capture_direct_span (s : Span) (source : SpanSource) : Span :=
  if decide (source = OtlpDirect) then apply_capture (sp_tenant s) s else s.

(** ** The database *)

(** An attempt: reported done; failed without effect; took effect but its reply was
    lost; refused for good. *)
Inductive Attempt : Type := Done | Failed | LostReply | Refused.

(** A table with a deduplication window: blocks by token.  The schema keeps the tokens of
    the last 1000 blocks.  Here they are kept for good, which is the same for a writer that
    sends a block again only until it is stored, and no other block in between. *)
Definition insert_block {A} (token : bytes) (rows : A) (t : list (bytes * A)) : list (bytes * A) :=
  if decide (token ∈ t.*1) then t else t ++ [(token, rows)].

Definition attempt_insert {A} (a : Attempt) (token : bytes) (rows : A) (t : list (bytes * A)) : list (bytes * A) :=
  match a with Done | LostReply => insert_block token rows t | Failed | Refused => t end.

Record World := {
  db_spans : list (bytes * list SpanRow);
  db_blobs : list PendingBlob;
  db_blob_refs : list PendingBlobRef;
  db_meters : list (bytes * (Z * list (bytes * f64)));
  acked : list Z;
}.

(** [flush_with_backoff]: one attempt per rung and one more, all with one token. *)
Fixpoint flush_with_backoff (rungs : list Z) (oracle : nat → Attempt) (token : bytes) (rows : list SpanRow)
    (t : list (bytes * list SpanRow)) : result unit unit * list (bytes * list SpanRow) :=
  let t' := attempt_insert (oracle 0%nat) token rows t in
  match oracle 0%nat with
  | Done => (Ok (), t')
  | Refused => (Err (), t')
  | Failed | LostReply =>
      match rungs with
      | [] => (Err (), t')
      | _ :: rungs' => flush_with_backoff rungs' (oracle ∘ S) token rows t'
      end
  end.

(** [seen.insert((tenant, hash))]. *)
Fixpoint dedup_blobs (seen : list (bytes * bytes)) (l : list PendingBlob) : list PendingBlob :=
  match l with
  | [] => []
  | b :: l' => if decide ((pb_tenant b, pb_hash b) ∈ seen) then dedup_blobs seen l'
               else b :: dedup_blobs ((pb_tenant b, pb_hash b) :: seen) l'
  end.

(** [flush_blobs]: the two inserts, each once. *)
Definition flush_blobs (blobs_ refs : Attempt) (queued : list (PendingBlob * PendingBlobRef)) (w : World)
    : result unit unit * World :=
  let bs := dedup_blobs [] queued.*1 in
  let rs := queued.*2 in
  let put_blobs w := {| db_spans := db_spans w; db_blobs := db_blobs w ++ bs; db_blob_refs := db_blob_refs w;
                        db_meters := db_meters w; acked := acked w |} in
  let put_refs w := {| db_spans := db_spans w; db_blobs := db_blobs w; db_blob_refs := db_blob_refs w ++ rs;
                       db_meters := db_meters w; acked := acked w |} in
  match queued with
  | [] => (Ok (), w)
  | _ =>
      match blobs_ with
      | Failed | Refused => (Err (), w)
      | LostReply => (Err (), put_blobs w)
      | Done =>
          let w := put_blobs w in
          match refs with
          | Failed | Refused => (Err (), w)
          | LostReply => (Err (), put_refs w)
          | Done => (Ok (), put_refs w)
          end
      end
  end.

Definition ack_all (seqs : list Z) (w : World) : World :=
  {| db_spans := db_spans w; db_blobs := db_blobs w; db_blob_refs := db_blob_refs w; db_meters := db_meters w;
     acked := acked w ++ seqs |}.

(** ** The meter *)

(** [insert_ingest_meter_batch]. *)
Definition meter_insert (a : Attempt) (b : IngestMeterBatch) (t : list (bytes * (Z * list (bytes * f64))))
    : bool * list (bytes * (Z * list (bytes * f64))) :=
  (match a with Done => true | _ => false end, attempt_insert a (mb_token b) (mb_day b, mb_rows b) t).

(** The retries of the pending batches, oldest first, up to the first failure. *)
Fixpoint retry_pending (oracle : nat → Attempt) (pending : list IngestMeterBatch) (t : list (bytes * (Z * list (bytes * f64))))
    : bool * list IngestMeterBatch * list (bytes * (Z * list (bytes * f64))) :=
  match pending with
  | [] => (true, [], t)
  | b :: pending' =>
      match meter_insert (oracle 0%nat) b t with
      | (true, t') => retry_pending (oracle ∘ S) pending' t'
      | (false, t') => (false, pending, t')
      end
  end.

(** [flush_ingest_meter]; a drained batch that does not fit pushes out the oldest. *)
Definition flush_ingest_meter (oracle : nat → Attempt) (token : bytes) (day : Z) (buffer : gmap bytes f64)
    (pending : list IngestMeterBatch) (t : list (bytes * (Z * list (bytes * f64))))
    : list IngestMeterBatch * list (bytes * (Z * list (bytes * f64))) :=
  let attempts := length pending in
  let '(retried, pending, t) := retry_pending oracle pending t in
  if decide (buffer = ∅) then (pending, t) else
  let batch := {| mb_token := token; mb_day := days_since_epoch day; mb_rows := map_to_list buffer |} in
  let '(ok, t) := if retried then meter_insert (oracle attempts) batch t else (false, t) in
  if ok then (pending, t)
  else ((if decide (INGEST_METER_PENDING_CAP ≤ length pending)%nat then tail pending else pending) ++ [batch], t).

(** ** The loop *)

Record Writer := {
  w_sampler : TailSampler;
  w_ceiling : PerTraceCeiling;
  meter_buffer : gmap bytes f64;
  meter_pending : list IngestMeterBatch;
  last_prune : Z;
}.

(** What a cycle collects; [b_dropped] are the messages dropped on purpose. *)
Record Batch := {
  b_rows : list SpanRow;
  b_acks : list Z;
  b_queued : list (PendingBlob * PendingBlobRef);
  b_dropped : list Z;
}.

Definition empty_batch : Batch := {| b_rows := []; b_acks := []; b_queued := []; b_dropped := [] |}.

Definition meter_span (s : Span) (span_bytes : Z) (buffer : gmap bytes f64) : gmap bytes f64 :=
  if is_gateway_stamped s then buffer
  else <[uuid_text (sp_tenant s) := f64_add (default (f64_of 0) (buffer !! uuid_text (sp_tenant s))) (f64_of span_bytes)]> buffer.

(** One received span, at a day and a time. *)
Definition receive (e : Envelope) (day now : Z) (st : Writer * Batch) : Writer * Batch :=
  let '(w, b) := st in
  let policy := sampling_policy (sp_tenant (e_span e)) in
  let s := capture_direct_span (e_span e) (e_source e) in
  let span_bytes := resolve_span_bytes s in
  let buffer := meter_span s span_bytes (meter_buffer w) in
  let '(o, sampler) := sample_one (w_sampler w) s policy span_bytes (days_since_epoch day) now in
  let drop w queued :=
    (w, {| b_rows := b_rows b; b_acks := b_acks b; b_queued := b_queued b ++ queued;
           b_dropped := b_dropped b ++ option_list (e_ack e) |}) in
  match o with
  | Some (row, queued) =>
      let '(d, ceiling) := check_and_record (w_ceiling w) (sp_tenant (e_span e)) (sp_trace (e_span e)) (row_byte_estimate row) now in
      let w := {| w_sampler := sampler; w_ceiling := ceiling; meter_buffer := buffer; meter_pending := meter_pending w;
                  last_prune := last_prune w |} in
      if decide (d = Exceeded) then drop w queued
      else (w, {| b_rows := b_rows b ++ [row]; b_acks := b_acks b ++ option_list (e_ack e); b_queued := b_queued b ++ queued;
                  b_dropped := b_dropped b |})
  | None =>
      drop {| w_sampler := sampler; w_ceiling := w_ceiling w; meter_buffer := buffer; meter_pending := meter_pending w;
              last_prune := last_prune w |} []
  end.

(** The spans that arrive before the deadline, up to a full batch; with whether the
    batch filled. *)
Fixpoint collect (batch_size : nat) (l : list (Envelope * Z * Z)) (st : Writer * Batch) : Writer * Batch * bool :=
  match l with
  | [] => (st, false)
  | (e, day, now) :: l' =>
      let st := receive e day now st in
      if bool_decide (batch_size ≤ length (b_rows st.2))%nat
         && bool_decide (length (b_rows st.2) ≠ 0)%nat then (st, true)
      else collect batch_size l' st
  end.

(** What the channel, the database and the clocks do in a cycle: the spans that are ready
    before the deadline (what a full batch leaves is the next cycle's), and whether the
    channel is found closed after them. *)
Record CycleInput := {
  ci_spans : list (Envelope * Z * Z);
  ci_closed : bool;
  ci_token : bytes;
  ci_flush : nat → Attempt;
  ci_blobs : Attempt;
  ci_refs : Attempt;
  ci_meter_token : bytes;
  ci_meter : nat → Attempt;
  ci_day : Z;
  ci_now : Z;
}.

(** The durable part: rows, then blobs and references, then the acknowledgements. *)
Definition flush_batch (ci : CycleInput) (b : Batch) (w : World) : result unit unit * World :=
  match b_rows b with
  | [] => (Ok (), w)
  | _ =>
      let '(r, spans) := flush_with_backoff CH_INSERT_BACKOFF (ci_flush ci) (ci_token ci) (b_rows b) (db_spans w) in
      let w := {| db_spans := spans; db_blobs := db_blobs w; db_blob_refs := db_blob_refs w; db_meters := db_meters w; acked := acked w |} in
      match r with
      | Err _ => (Err (), w)
      | Ok _ =>
          match flush_blobs (ci_blobs ci) (ci_refs ci) (b_queued b) w with
          | (Err _, w) => (Err (), w)
          | (Ok _, w) => (Ok (), ack_all (b_acks b) w)
          end
      end
  end.

(** A channel that closes behind a full batch is seen closed by a later cycle. *)
Definition sees_close (batch_size : nat) (ci : CycleInput) (wr : Writer) : bool :=
  ci_closed ci && negb (collect batch_size (ci_spans ci) (wr, empty_batch)).2.

(** A cycle.  A dropped span is acknowledged when it is dropped.  A failed flush ends
    the writer, except on shutdown, where the meter is still flushed. *)
Definition cycle (batch_size : nat) (ci : CycleInput) (st : Writer * World) : result unit unit * (Writer * World) :=
  let '(wr, w) := st in
  let closed := sees_close batch_size ci wr in
  let '(wr, b, _) := collect batch_size (ci_spans ci) (wr, empty_batch) in
  let w := ack_all (b_dropped b) w in
  let '(r, w) := flush_batch ci b w in
  match r with
  | Err _ => if closed then
               let '(pending, meters) := flush_ingest_meter (ci_meter ci) (ci_meter_token ci) (ci_day ci) (meter_buffer wr) (meter_pending wr) (db_meters w) in
               (Ok (), ({| w_sampler := w_sampler wr; w_ceiling := w_ceiling wr; meter_buffer := ∅; meter_pending := pending; last_prune := last_prune wr |},
                        {| db_spans := db_spans w; db_blobs := db_blobs w; db_blob_refs := db_blob_refs w; db_meters := meters; acked := acked w |}))
             else (Err (), (wr, w))
  | Ok _ =>
      let '(pending, meters) := flush_ingest_meter (ci_meter ci) (ci_meter_token ci) (ci_day ci) (meter_buffer wr) (meter_pending wr) (db_meters w) in
      let w := {| db_spans := db_spans w; db_blobs := db_blobs w; db_blob_refs := db_blob_refs w; db_meters := meters; acked := acked w |} in
      let sweep := negb closed && (SAMPLER_PRUNE_INTERVAL <=? since (ci_now ci) (last_prune wr)) in
      (Ok (), ({| w_sampler := if sweep then sampler_prune_at (w_sampler wr) (ci_now ci) SAMPLER_MAX_TRACE_WINDOW else w_sampler wr;
                  w_ceiling := if sweep then ceiling_prune_at (w_ceiling wr) (ci_now ci) SAMPLER_MAX_TRACE_WINDOW else w_ceiling wr;
                  meter_buffer := ∅; meter_pending := pending;
                  last_prune := if sweep then ci_now ci else last_prune wr |}, w))
  end.

(** The writer, cycle after cycle, until it fails. *)
Fixpoint run_writer (batch_size : nat) (cs : list CycleInput) (st0 : Writer * World) : result unit unit * (Writer * World) :=
  match cs with
  | [] => (Ok (), st0)
  | ci :: cs' =>
      match cycle batch_size ci st0 with
      | (Err _, st) => (Err (), st)
      | (Ok _, st) => if sees_close batch_size ci st0.1 then (Ok (), st) else run_writer batch_size cs' st
      end
  end.
End spans.
