(* ===== verification/SpanWriterProofs.v ===== *)
(** * What the span writer acknowledges, and what it bills

    A message is acknowledged only after its span was dropped on purpose or its row, its
    blobs and their references are in the database; an insert that is repeated under its
    token is stored once; a meter batch is billed at most once, and is lost only when the
    queue of batches is full. *)

From Stdlib Require Import ZArith Lia.
From stdpp Require Import base list option strings gmap.
From S2P Require Import Prelude BTree Float64 Encoding Hash Json Ingest SpanWriter.
Local Open Scope Z_scope.

(** ** Blocks and tokens *)

Section blocks.
Context {A : Type}.
Implicit Types (t : list (bytes * A)) (rows : A) (token : bytes).

Lemma insert_block_fresh token rows t : token ∉ t.*1 → insert_block token rows t = t ++ [(token, rows)].
Proof. intros. unfold insert_block. by rewrite decide_False. Qed.

Lemma insert_block_again token rows t : token ∈ t.*1 → insert_block token rows t = t.
Proof. intros. unfold insert_block. by rewrite decide_True. Qed.

Lemma token_in_app token rows t : token ∈ (t ++ [(token, rows)]).*1.
Proof. rewrite fmap_app. apply elem_of_app. right. by apply list_elem_of_singleton. Qed.

(** One insert: nothing, or the block at the end. *)
Lemma attempt_insert_spec a token rows t : token ∉ t.*1 →
  attempt_insert a token rows t = t ∨ attempt_insert a token rows t = t ++ [(token, rows)].
Proof. intros Hf. destruct a; simpl; rewrite ?insert_block_fresh by done; auto. Qed.

Lemma attempt_insert_incl a token rows t x : x ∈ t → x ∈ attempt_insert a token rows t.
Proof. intros. destruct a; simpl; try done; unfold insert_block; case_decide; try done; apply elem_of_app; by left. Qed.

Lemma attempt_insert_from a token rows t x : x ∈ attempt_insert a token rows t → x ∈ t ∨ x = (token, rows).
Proof.
  destruct a; simpl; try by left. all: unfold insert_block; case_decide; [by left|].
  all: rewrite elem_of_app, list_elem_of_singleton; auto.
Qed.

Lemma attempt_insert_NoDup a token rows t : NoDup t.*1 → NoDup (attempt_insert a token rows t).*1.
Proof.
  intros. destruct a; simpl; try done; unfold insert_block; case_decide; try done.
  all: rewrite fmap_app; apply NoDup_app; split_and!; [done| |apply NoDup_singleton].
  all: intros x Hx ->%list_elem_of_singleton; done.
Qed.
End blocks.

Section flush.
Context `{JsonNumber}.
Implicit Types (t : list (bytes * list SpanRow)) (rows : list SpanRow).

(** Whatever the attempts do, the block is stored at most once; and once if one of them
    reported success. *)
Lemma flush_with_backoff_spec rungs oracle token rows t0 t :
  token ∉ t0.*1 → t = t0 ∨ t = t0 ++ [(token, rows)] →
  let '(r, t') := flush_with_backoff rungs oracle token rows t in
  (t' = t0 ∨ t' = t0 ++ [(token, rows)]) ∧ (r = Ok () → t' = t0 ++ [(token, rows)]).
Proof.
  revert oracle t. induction rungs as [|g rungs IH]; intros oracle t Hf Ht.
  all: assert (Ha : ∀ a, attempt_insert a token rows t = t0 ∨ attempt_insert a token rows t = t0 ++ [(token, rows)])
    by (intros a; destruct Ht as [-> | ->]; [by apply attempt_insert_spec|right; destruct a; simpl; try done;
        by rewrite insert_block_again by apply token_in_app]).
  all: assert (Hd : attempt_insert Done token rows t = t0 ++ [(token, rows)])
    by (simpl; destruct Ht as [-> | ->]; [by apply insert_block_fresh|by rewrite insert_block_again by apply token_in_app]).
  all: specialize (Ha (oracle 0%nat)); simpl; destruct (oracle 0%nat) eqn:Ho.
  all: try (split; [exact Ha|intros; by try apply Hd]).
  all: exact (IH (oracle ∘ S) _ Hf Ha).
Qed.

(** An outage that the ladder outlasts: the first attempt that is answered decides. *)
Lemma flush_outlasts rungs oracle token rows t k :
  (k ≤ length rungs)%nat → oracle k = Done → (∀ i, (i < k)%nat → oracle i = Failed ∨ oracle i = LostReply) →
  (flush_with_backoff rungs oracle token rows t).1 = Ok ().
Proof.
  revert oracle t k. induction rungs as [|g rungs IH]; intros oracle t k Hk Hd Hbefore.
  - assert (k = 0%nat) as -> by (simpl in Hk; lia). simpl. by rewrite Hd.
  - destruct k as [|k]; simpl; [by rewrite Hd|].
    destruct (Hbefore 0%nat ltac:(lia)) as [Ho|Ho]; rewrite Ho.
    all: apply (IH (oracle ∘ S) _ k); [simpl in Hk; lia|done|intros i Hi; exact (Hbefore (S i) ltac:(lia))].
Qed.
End flush.

(** ** Blobs *)

Lemma dedup_blobs_from seen l b : b ∈ dedup_blobs seen l → b ∈ l.
Proof.
  revert seen. induction l as [|x l IH]; intros seen; simpl; [done|]. case_decide; rewrite ?elem_of_cons; [eauto|].
  intros [->|Hb]; eauto.
Qed.

Lemma dedup_blobs_covers seen l b : b ∈ l → (pb_tenant b, pb_hash b) ∉ seen →
  ∃ b', b' ∈ dedup_blobs seen l ∧ pb_tenant b' = pb_tenant b ∧ pb_hash b' = pb_hash b.
Proof.
  revert seen. induction l as [|x l IH]; intros seen Hb Hs; [by apply elem_of_nil in Hb|].
  destruct (decide ((pb_tenant b, pb_hash b) = (pb_tenant x, pb_hash x))) as [He|Hn].
  - injection He as Ht Hh. exists x. simpl. rewrite decide_False by (by rewrite <- Ht, <- Hh).
    split; [by left|done].
  - apply elem_of_cons in Hb as [->|Hb]; [done|]. simpl. case_decide.
    + by apply IH.
    + destruct (IH ((pb_tenant x, pb_hash x) :: seen) Hb) as (b' & Hb' & He).
      { by apply not_elem_of_cons. }
      exists b'. split; [by right|done].
Qed.

(** ** What a cycle collects *)

Section collecting.
Context `{WriterEnv}.
Implicit Types (e : Envelope) (day now seq : Z) (wr : Writer) (w : World) (b : Batch).

Definition span_of e : Span := capture_direct_span (e_span e) (e_source e).

(** The row a span becomes, with the blobs and references it queues. *)
Definition stored_as e day : SpanRow * list (PendingBlob * PendingBlobRef) :=
  build_span_row (span_of e) (resolve_span_bytes (span_of e)) (days_since_epoch day).

(** A span is dropped by the sampler or by the ceiling of its trace. *)
Definition dropped_on_purpose wr e day now : Prop :=
  (evaluate (w_sampler wr) (view (span_of e)) (sampling_policy (sp_tenant (e_span e))) now).1 = Drop ∨
  (check_and_record (w_ceiling wr) (sp_tenant (e_span e)) (sp_trace (e_span e)) (row_byte_estimate (stored_as e day).1) now).1 = Exceeded.

Definition receive_at (st : Writer * Batch) (x : Envelope * Z * Z) : Writer * Batch := receive x.1.1 x.1.2 x.2 st.
Definition receives wr (l : list (Envelope * Z * Z)) : Writer * Batch := foldl receive_at (wr, empty_batch) l.

Lemma receive_spec e day now wr b :
  let b' := (receive e day now (wr, b)).2 in
  (dropped_on_purpose wr e day now ∧ b_rows b' = b_rows b ∧ b_acks b' = b_acks b ∧
   b_dropped b' = b_dropped b ++ option_list (e_ack e) ∧ (∀ q, q ∈ b_queued b → q ∈ b_queued b')) ∨
  (b_rows b' = b_rows b ++ [(stored_as e day).1] ∧ b_acks b' = b_acks b ++ option_list (e_ack e) ∧
   b_dropped b' = b_dropped b ∧ b_queued b' = b_queued b ++ (stored_as e day).2).
Proof.
  unfold receive, sample_one, dropped_on_purpose. fold (span_of e).
  destruct (evaluate _ _ _ _) as [d sampler] eqn:Hev. simpl. destruct (decide (d = Keep)) as [->|Hd].
  - fold (stored_as e day). destruct (stored_as e day) as [row q]. simpl.
    destruct (check_and_record _ _ _ _ _) as [c ceiling]. simpl. case_decide as Hc; [left|by right].
    split_and!; auto; intros; apply elem_of_app; by left.
  - left. split_and!; auto; [left; by destruct d|intros; apply elem_of_app; by left].
Qed.

(** [collect] receives a prefix of what is ready. *)
Lemma collect_prefix n l st :
  ∃ taken rest, l = taken ++ rest ∧ (collect n l st).1 = foldl receive_at st taken ∧
    ((collect n l st).2 = false → rest = []).
Proof.
  revert st. induction l as [|[[e day] now] l IH]; intros st.
  - by exists [], [].
  - cbn [collect]. set (st' := receive e day now st). case_match.
    + exists [(e, day, now)], l. by split_and!.
    + destruct (IH st') as (taken & rest & -> & Hc & Hr). by exists ((e, day, now) :: taken), rest.
Qed.

Lemma receives_snoc wr l e day now : receives wr (l ++ [(e, day, now)]) = receive e day now (receives wr l).
Proof. unfold receives. by rewrite foldl_app. Qed.

(** A seq that is to be acknowledged after the flush has its row and blobs in the batch. *)
Lemma receives_acks wr l seq :
  seq ∈ b_acks (receives wr l).2 →
  ∃ e day now, (e, day, now) ∈ l ∧ e_ack e = Some seq ∧
    (stored_as e day).1 ∈ b_rows (receives wr l).2 ∧ (∀ q, q ∈ (stored_as e day).2 → q ∈ b_queued (receives wr l).2).
Proof.
  induction l as [|[[e day] now] l IH] using rev_ind; [by intros ?%elem_of_nil|].
  rewrite receives_snoc.
  destruct (receives wr l) as [wr1 b1] eqn:Hl. simpl in IH.
  assert (Hold : seq ∈ b_acks b1 → ∀ b', (∀ r, r ∈ b_rows b1 → r ∈ b_rows b') → (∀ q, q ∈ b_queued b1 → q ∈ b_queued b') →
    ∃ e' day' now', (e', day', now') ∈ l ++ [(e, day, now)] ∧ e_ack e' = Some seq ∧
      (stored_as e' day').1 ∈ b_rows b' ∧ (∀ q, q ∈ (stored_as e' day').2 → q ∈ b_queued b')).
  { intros Hs b' Hr Hq. destruct (IH Hs) as (e' & day' & now' & Hin & Ha & Hrow & Hqs).
    exists e', day', now'. split_and!; eauto. apply elem_of_app; by left. }
  destruct (receive_spec e day now wr1 b1) as [(_ & Hr & Ha & _ & Hq)|(Hr & Ha & _ & Hq)].
  - rewrite Ha. intros Hs. apply Hold; [done|by rewrite Hr|done].
  - rewrite Ha. intros [Hs|Hs]%elem_of_app.
    + apply Hold; [done|rewrite Hr|rewrite Hq]; intros; apply elem_of_app; by left.
    + exists e, day, now. split_and!.
      * apply elem_of_app. right. by apply list_elem_of_singleton.
      * destruct (e_ack e); simpl in Hs; [by apply list_elem_of_singleton in Hs as ->|by apply elem_of_nil in Hs].
      * rewrite Hr. apply elem_of_app. right. by apply list_elem_of_singleton.
      * rewrite Hq. intros. apply elem_of_app. by right.
Qed.

(** A seq that is acknowledged at once was dropped on purpose. *)
Lemma receives_dropped wr l seq :
  seq ∈ b_dropped (receives wr l).2 →
  ∃ pre e day now post, l = pre ++ (e, day, now) :: post ∧ e_ack e = Some seq ∧
    dropped_on_purpose (receives wr pre).1 e day now.
Proof.
  induction l as [|[[e day] now] l IH] using rev_ind; [by intros ?%elem_of_nil|].
  rewrite receives_snoc.
  destruct (receives wr l) as [wr1 b1] eqn:Hl. simpl in IH.
  assert (Hold : seq ∈ b_dropped b1 → ∃ pre e' day' now' post, l ++ [(e, day, now)] = pre ++ (e', day', now') :: post ∧
    e_ack e' = Some seq ∧ dropped_on_purpose (receives wr pre).1 e' day' now').
  { intros (pre & e' & day' & now' & post & -> & Ha & Hd)%IH.
    exists pre, e', day', now', (post ++ [(e, day, now)]). by rewrite <- app_assoc. }
  destruct (receive_spec e day now wr1 b1) as [(Hd & _ & _ & Hb & _)|(_ & _ & Hb & _)]; rewrite Hb; [|exact Hold].
  intros [Hs|Hs]%elem_of_app; [by apply Hold|].
  exists l, e, day, now, []. split_and!; [done| |by rewrite Hl].
  destruct (e_ack e); simpl in Hs; [by apply list_elem_of_singleton in Hs as ->|by apply elem_of_nil in Hs].
Qed.

(** Every message that is received is in one of the two lists. *)
Lemma receives_accounted wr l e day now seq :
  (e, day, now) ∈ l → e_ack e = Some seq → seq ∈ b_acks (receives wr l).2 ∨ seq ∈ b_dropped (receives wr l).2.
Proof.
  intros Hin Ha. induction l as [|[[e' day'] now'] l IH] using rev_ind; [by apply elem_of_nil in Hin|].
  rewrite receives_snoc.
  destruct (receives wr l) as [wr1 b1]. simpl in IH.
  assert (Hnew : (e, day, now) = (e', day', now') → seq ∈ option_list (e_ack e')).
  { intros [= <- <- <-]. rewrite Ha. by apply list_elem_of_singleton. }
  apply elem_of_app in Hin as [Hin|Hin%list_elem_of_singleton].
  all: destruct (receive_spec e' day' now' wr1 b1) as [(_ & _ & Hb & Hd & _)|(_ & Hb & Hd & _)]; rewrite Hb, Hd, ?elem_of_app; naive_solver.
Qed.

Lemma receives_no_rows wr l : b_rows (receives wr l).2 = [] → b_acks (receives wr l).2 = [].
Proof.
  intros Hr. destruct (b_acks (receives wr l).2) as [|seq s] eqn:Ha; [done|].
  destruct (receives_acks wr l seq) as (e & day & now & _ & _ & Hrow & _); [rewrite Ha; by left|].
  rewrite Hr in Hrow. by apply elem_of_nil in Hrow.
Qed.
End collecting.

(** ** What a cycle stores and acknowledges *)

Section durability.
Context `{WriterEnv}.
Implicit Types (e : Envelope) (day now seq : Z) (wr : Writer) (w : World) (b : Batch) (ci : CycleInput).

Definition blobs_stored w (queued : list (PendingBlob * PendingBlobRef)) : Prop :=
  ∀ q, q ∈ queued → q.2 ∈ db_blob_refs w ∧
    ∃ bl, bl ∈ db_blobs w ∧ pb_tenant bl = pb_tenant q.1 ∧ pb_hash bl = pb_hash q.1.

(** The row of a span is stored, with every blob it refers to and the reference. *)
Definition durable w e day : Prop :=
  (∃ token rows, (token, rows) ∈ db_spans w ∧ (stored_as e day).1 ∈ rows) ∧ blobs_stored w (stored_as e day).2.

(** Nothing is taken back. *)
Definition grows w w' : Prop :=
  (∀ x, x ∈ db_spans w → x ∈ db_spans w') ∧ (∀ x, x ∈ db_blobs w → x ∈ db_blobs w') ∧
  (∀ x, x ∈ db_blob_refs w → x ∈ db_blob_refs w') ∧ (∀ x, x ∈ acked w → x ∈ acked w').

#[global] Instance grows_preorder : PreOrder grows.
Proof. split; [intros w; by split_and!|intros w1 w2 w3 (A1 & A2 & A3 & A4) (B1 & B2 & B3 & B4); split_and!; auto]. Qed.

#[global] Instance durable_grows : Proper (grows ==> eq ==> eq ==> impl) durable.
Proof.
  intros w w' (G1 & G2 & G3 & _) e ? <- day ? <- [(token & rows & Ht & Hr) Hq]. split; [eauto|].
  intros q [Href (bl & Hbl & He)]%Hq. split; eauto.
Qed.

Lemma flush_blobs_spec a1 a2 queued w :
  let '(r, w') := flush_blobs a1 a2 queued w in
  grows w w' ∧ db_spans w' = db_spans w ∧ acked w' = acked w ∧ (r = Ok () → blobs_stored w' queued).
Proof.
  destruct queued as [|q0 queued]; [split_and!; try done; by intros _ q ?%elem_of_nil|].
  cbn [flush_blobs]. set (qs := q0 :: queued).
  destruct a1; try (split_and!; try done; split_and!; simpl; intros; try apply elem_of_app; tauto).
  destruct a2; try (split_and!; try done; split_and!; simpl; intros; try apply elem_of_app; tauto).
  split_and!; try done; [split_and!; simpl; intros; try apply elem_of_app; tauto|].
  intros _ q Hq. cbn [db_blob_refs db_blobs]. split; [apply elem_of_app; right; change (q.2 ∈ qs.*2); by apply list_elem_of_fmap_2|].
  destruct (dedup_blobs_covers [] qs.*1 q.1) as (bl & Hbl & He); [by apply list_elem_of_fmap_2|apply not_elem_of_nil|].
  exists bl. split; [apply elem_of_app; by right|done].
Qed.

(** The flush of a batch: acknowledged only when everything of it is stored. *)
Lemma flush_batch_spec ci b w :
  ci_token ci ∉ (db_spans w).*1 → b_rows b ≠ [] →
  let '(r, w') := flush_batch ci b w in
  grows w w' ∧ (db_spans w' = db_spans w ∨ db_spans w' = db_spans w ++ [(ci_token ci, b_rows b)]) ∧
  match r with
  | Ok _ => acked w' = acked w ++ b_acks b ∧ (ci_token ci, b_rows b) ∈ db_spans w' ∧ blobs_stored w' (b_queued b)
  | Err _ => acked w' = acked w
  end.
Proof.
  intros Hf Hne. unfold flush_batch. destruct (b_rows b) as [|row0 rows0] eqn:Hrows; [done|].
  pose proof (flush_with_backoff_spec CH_INSERT_BACKOFF (ci_flush ci) (ci_token ci) (row0 :: rows0) _ _ Hf (or_introl eq_refl)) as Hflush.
  destruct (flush_with_backoff _ _ _ _ _) as [r spans]. destruct Hflush as [Ht Hok].
  set (w1 := {| db_spans := spans; db_blobs := _ |}).
  assert (grows w w1) as Hg1.
  { split_and!; simpl; try done. intros x Hx. destruct Ht as [-> | ->]; rewrite ?elem_of_app; auto. }
  destruct r as [[]|[]]; [|by split_and!].
  pose proof (flush_blobs_spec (ci_blobs ci) (ci_refs ci) (b_queued b) w1) as Hblobs.
  destruct (flush_blobs _ _ _ _) as [r2 w2]. destruct Hblobs as (Hg2 & Hs2 & Ha2 & Hok2).
  destruct r2 as [[]|[]].
  - split_and!; [| |simpl; by rewrite Ha2| |by apply Hok2].
    + etrans; [exact Hg1|]. etrans; [exact Hg2|]. split_and!; simpl; try done. intros; apply elem_of_app; by left.
    + simpl. by rewrite Hs2.
    + simpl. rewrite Hs2. simpl. rewrite Hok by done. apply elem_of_app. right. by apply list_elem_of_singleton.
  - split_and!; [by etrans|by rewrite Hs2|by rewrite Ha2].
Qed.

(** Where the writer is when it receives a span of a run. *)
Inductive taken (n : nat) : list CycleInput → Writer * World → Envelope → Z → Z → Writer → Prop :=
  | taken_now ci cs st e day now pre post :
      ci_spans ci = pre ++ (e, day, now) :: post → taken n (ci :: cs) st e day now (receives st.1 pre).1
  | taken_later ci cs st st' e day now wr :
      cycle n ci st = (Ok (), st') → taken n cs st' e day now wr → taken n (ci :: cs) st e day now wr.

(** What an acknowledgement of a run means. *)
Definition accounted (n : nat) (cs : list CycleInput) (st : Writer * World) w seq : Prop :=
  ∃ e day now wr, taken n cs st e day now wr ∧ e_ack e = Some seq ∧ (dropped_on_purpose wr e day now ∨ durable w e day).

(** A cycle keeps the rest of the world apart from the meter's table. *)
Lemma cycle_world n ci wr w :
  ∃ b, (∃ taken_ rest, ci_spans ci = taken_ ++ rest ∧ b = (receives wr taken_).2) ∧
    let '(r0, w0) := flush_batch ci b (ack_all (b_dropped b) w) in
    let '(r, (_, w')) := cycle n ci (wr, w) in
    db_spans w' = db_spans w0 ∧ db_blobs w' = db_blobs w0 ∧ db_blob_refs w' = db_blob_refs w0 ∧ acked w' = acked w0.
Proof.
  destruct (collect_prefix n (ci_spans ci) (wr, empty_batch)) as (taken_ & rest & Hl & Hc & _).
  exists (receives wr taken_).2. split; [eauto|]. unfold receives. rewrite <- Hc.
  unfold cycle. destruct (collect _ _ _) as [[wr1 b] full]. simpl.
  destruct (flush_batch ci b _) as [r0 w0]. destruct r0.
  - by destruct (flush_ingest_meter _ _ _ _ _ _) as [pending meters].
  - destruct (sees_close _ _ _); [|done]. by destruct (flush_ingest_meter _ _ _ _ _ _) as [pending meters].
Qed.

Lemma cycle_accounted n ci cs wr w r wr' w' :
  cycle n ci (wr, w) = (r, (wr', w')) → ci_token ci ∉ (db_spans w).*1 →
  grows w w' ∧ (∀ t, t ∈ (db_spans w').*1 → t ∈ (db_spans w).*1 ∨ t = ci_token ci) ∧
  ∀ seq, seq ∈ acked w' → seq ∈ acked w ∨ accounted n (ci :: cs) (wr, w) w' seq.
Proof.
  intros Hcy Hf. destruct (cycle_world n ci wr w) as (b & (tk & rest & Hl & Hb) & Hw). rewrite Hcy in Hw.
  assert (Hdrop : ∀ seq, seq ∈ b_dropped b → accounted n (ci :: cs) (wr, w) w' seq).
  { intros seq. rewrite Hb. intros (pre & e & day & now & post & -> & Ha & Hd)%receives_dropped.
    exists e, day, now, (receives wr pre).1. split_and!; [|done|by left].
    apply (taken_now n ci cs (wr, w) e day now pre (post ++ rest)). by rewrite Hl, <- app_assoc. }
  destruct (decide (b_rows b = [])) as [Hnil|Hne].
  - assert (flush_batch ci b (ack_all (b_dropped b) w) = (Ok (), ack_all (b_dropped b) w)) as He by (unfold flush_batch; by rewrite Hnil).
    rewrite He in Hw. destruct Hw as (Hs & Hbl & Hrf & Hack). simpl in *.
    split_and!; [split_and!; intros x Hx; rewrite ?Hs, ?Hbl, ?Hrf, ?Hack; try done; apply elem_of_app; by left|rewrite Hs; tauto|].
    intros seq. rewrite Hack, elem_of_app. intros [?|?]; [by left|right; by apply Hdrop].
  - pose proof (flush_batch_spec ci b (ack_all (b_dropped b) w) Hf Hne) as Hspec.
    destruct (flush_batch _ _ _) as [r0 w0]. destruct Hw as (Hs & Hbl & Hrf & Hack). destruct Hspec as (Hg & Hsp & Hr).
    assert (grows w w') as Hgw.
    { destruct Hg as (G1 & G2 & G3 & G4). split_and!; intros x Hx; rewrite ?Hs, ?Hbl, ?Hrf, ?Hack; auto.
      apply G4, elem_of_app. by left. }
    split_and!; [done| |].
    + intros t. rewrite Hs. destruct Hsp as [-> | ->]; simpl; [tauto|].
      rewrite fmap_app, elem_of_app. intros [?| ->%list_elem_of_singleton]; auto.
    + intros seq. rewrite Hack. destruct r0; [|rewrite Hr; simpl; rewrite elem_of_app; intros [?|?]; [by left|right; by apply Hdrop]].
      destruct Hr as (Ha & Hin & Hq). rewrite Ha. simpl. rewrite !elem_of_app. intros [[?|?]|Hseq]; [by left|right; by apply Hdrop|right].
      rewrite Hb in Hseq. apply receives_acks in Hseq as (e & day & now & Hin' & Hea & Hrow & Hqs). rewrite <- Hb in Hrow, Hqs.
      apply list_elem_of_split in Hin' as (pre & post & ->).
      exists e, day, now, (receives wr pre).1. split_and!; [|done|right].
      * apply (taken_now n ci cs (wr, w) e day now pre (post ++ rest)). by rewrite Hl, <- app_assoc.
      * split; [exists (ci_token ci), (b_rows b); by rewrite Hs|].
        intros q [? (bl & ? & ?)]%Hqs%Hq. rewrite Hbl, Hrf. eauto.
Qed.

Lemma run_writer_grows n cs st r st' :
  run_writer n cs st = (r, st') → NoDup (ci_token <$> cs) → (∀ ci, ci ∈ cs → ci_token ci ∉ (db_spans st.2).*1) →
  grows st.2 st'.2 ∧ ∀ seq, seq ∈ acked st'.2 → seq ∈ acked st.2 ∨ accounted n cs st st'.2 seq.
Proof.
  revert st. induction cs as [|ci cs IH]; intros [wr w] Hrun Hnd Hf; cbn [run_writer] in Hrun.
  - injection Hrun as <- <-. split; [done|]. by left.
  - destruct (cycle n ci (wr, w)) as [r1 [wr1 w1]] eqn:Hcy.
    destruct (cycle_accounted n ci cs _ _ _ _ _ Hcy) as (Hg & Htok & Hack); [apply Hf; by left|].
    assert (Hstop : st' = (wr1, w1) → grows w st'.2 ∧ ∀ seq, seq ∈ acked st'.2 → seq ∈ acked w ∨ accounted n (ci :: cs) (wr, w) st'.2 seq)
      by (by intros ->).
    destruct r1 as [[]|[]]; [|simplify_eq/=; by apply Hstop].
    simpl in Hrun. destruct (sees_close n ci wr); [simplify_eq/=; by apply Hstop|].
    rewrite fmap_cons in Hnd. apply NoDup_cons in Hnd as [Hnew Hnd].
    destruct (IH (wr1, w1) Hrun Hnd) as [Hg' Hack'].
    { intros ci' Hin Htk. apply Htok in Htk as [Htk| He]; [by apply (Hf ci'); [right|]|].
      apply Hnew. rewrite <- He. by apply list_elem_of_fmap_2. }
    split; [by etrans|]. intros seq [Hs|(e & day & now & wr2 & Htk & Ha & Hd)]%Hack'.
    + apply Hack in Hs as [?|(e & day & now & wr2 & Htk & Ha & Hd)]; [by left|right].
      exists e, day, now, wr2. split_and!; [done..|]. destruct Hd as [?|Hd]; [by left|right]. by rewrite Hg' in Hd.
    + right. exists e, day, now, wr2. split_and!; [by eapply taken_later|done..].
Qed.

(** C23. A message of the stream is acknowledged only when it is dealt with: for every
    sequence of cycles, whatever the inserts do (fail, succeed, or succeed and lose their
    reply), wherever the writer stops and whether it stops on an error or on a closed
    channel, each newly acknowledged sequence number belongs to a span that the sampler or
    the ceiling of its trace dropped, or whose row is stored together with each of its
    blobs and their references.  The tokens of the batches are fresh. *)
Theorem acked_is_durable n cs wr w r wr' w' seq :
  NoDup (ci_token <$> cs) → (∀ ci, ci ∈ cs → ci_token ci ∉ (db_spans w).*1) →
  run_writer n cs (wr, w) = (r, (wr', w')) → seq ∈ acked w' →
  seq ∈ acked w ∨
  ∃ e day now wr1, taken n cs (wr, w) e day now wr1 ∧ e_ack e = Some seq ∧ (dropped_on_purpose wr1 e day now ∨ durable w' e day).
Proof. intros Hnd Hf Hrun Hs. by apply (run_writer_grows n cs (wr, w) r (wr', w') Hrun Hnd Hf). Qed.

(** An outage shorter than the ladder loses nothing: if an attempt [k] of the eight is
    answered (those before it failed or lost their reply) and the blobs and references are
    stored, the cycle completes, every message it received is acknowledged, and the rows
    of the batch are in the table exactly once. *)
Theorem outage_is_outlasted n ci wr w k :
  (k ≤ length CH_INSERT_BACKOFF)%nat → ci_flush ci k = Done →
  (∀ i, (i < k)%nat → ci_flush ci i = Failed ∨ ci_flush ci i = LostReply) →
  ci_blobs ci = Done → ci_refs ci = Done → ci_token ci ∉ (db_spans w).*1 →
  ∃ wr' w' got rest, cycle n ci (wr, w) = (Ok (), (wr', w')) ∧ ci_spans ci = got ++ rest ∧
    (∀ e day now seq, (e, day, now) ∈ got → e_ack e = Some seq → seq ∈ acked w') ∧
    db_spans w' = match b_rows (receives wr got).2 with [] => db_spans w | rows => db_spans w ++ [(ci_token ci, rows)] end.
Proof.
  intros Hk Hd Hbefore Hb1 Hb2 Hf.
  destruct (collect_prefix n (ci_spans ci) (wr, empty_batch)) as (got & rest & Hl & Hc & _). fold (receives wr got) in Hc.
  assert (Hall : ∀ e day now seq, (e, day, now) ∈ got → e_ack e = Some seq →
    seq ∈ acked w ++ b_dropped (receives wr got).2 ++ b_acks (receives wr got).2).
  { intros e day now seq Hin Ha. rewrite !elem_of_app. right. by apply or_comm, (receives_accounted wr got e day now). }
  unfold cycle. destruct (collect _ _ _) as [[wr1 b] full] eqn:Hcol. simpl in Hc. rewrite <- Hc in Hall. simpl in Hall.
  assert (∃ w0, flush_batch ci b (ack_all (b_dropped b) w) = (Ok (), w0) ∧ acked w0 = acked w ++ b_dropped b ++ b_acks b ∧
    db_spans w0 = match b_rows b with [] => db_spans w | rows => db_spans w ++ [(ci_token ci, rows)] end) as (w0 & Hfl & Hack & Hsp).
  { unfold flush_batch. destruct (b_rows b) as [|row rows] eqn:Hrows.
    - eexists. split_and!; [done| |done]. pose proof (receives_no_rows wr got) as Hno. rewrite <- Hc in Hno. simpl in Hno |- *. by rewrite Hno, app_nil_r.
    - pose proof (flush_outlasts CH_INSERT_BACKOFF (ci_flush ci) (ci_token ci) (row :: rows) (db_spans w) k Hk Hd Hbefore) as Hok.
      pose proof (flush_with_backoff_spec CH_INSERT_BACKOFF (ci_flush ci) (ci_token ci) (row :: rows) _ _ Hf (or_introl eq_refl)) as Hspec.
      simpl db_spans. destruct (flush_with_backoff _ _ _ _ _) as [r spans]. simpl in Hok. subst r. destruct Hspec as [_ Hspec].
      rewrite Hb1, Hb2, (Hspec eq_refl). destruct (b_queued b); (eexists; split_and!; [done|simpl; by rewrite app_assoc|done]). }
  rewrite Hfl. destruct (flush_ingest_meter _ _ _ _ _ _) as [pending meters]. eexists _, _, got, rest.
  split_and!; [done|done|simpl; by rewrite Hack|by rewrite <- Hc].
Qed.
End durability.

(** ** The meter *)

Abbreviation MeterTable := (list (bytes * (Z * list (bytes * f64)))).

Definition entry (b : IngestMeterBatch) : bytes * (Z * list (bytes * f64)) := (mb_token b, (mb_day b, mb_rows b)).

Record meter_inv (pending : list IngestMeterBatch) (t : MeterTable) : Prop := {
  mi_stored : NoDup t.*1;
  mi_pending : NoDup (mb_token <$> pending);
  mi_same : ∀ b, b ∈ pending → mb_token b ∈ t.*1 → entry b ∈ t;
}.

(** An attempt on a batch whose token is new, or already stored with its own rows. *)
Lemma meter_insert_ok a b t t' : meter_insert a b t = (true, t') → (mb_token b ∈ t.*1 → entry b ∈ t) → entry b ∈ t'.
Proof.
  unfold meter_insert. destruct a; intros [= <-]. intros Hs. simpl. unfold insert_block. case_decide; [by apply Hs|].
  apply elem_of_app. right. by apply list_elem_of_singleton.
Qed.

Lemma meter_insert_table a b t : (meter_insert a b t).2 = attempt_insert a (mb_token b) (entry b).2 t.
Proof. done. Qed.

(** Other pending batches stay consistent with the table. *)
Lemma mi_same_step a b (pending : list IngestMeterBatch) t :
  (∀ x, x ∈ pending → mb_token x ∈ t.*1 → entry x ∈ t) → (∀ x, x ∈ pending → mb_token x = mb_token b → x = b) →
  ∀ x, x ∈ pending → mb_token x ∈ (attempt_insert a (mb_token b) (entry b).2 t).*1 → entry x ∈ attempt_insert a (mb_token b) (entry b).2 t.
Proof.
  intros Hs Hu x Hx Hin. apply list_elem_of_fmap in Hin as (y & He & Hy).
  pose proof (attempt_insert_from _ _ _ _ _ Hy) as [Ht|Hye].
  - apply attempt_insert_incl, Hs; [done|]. rewrite He. by apply list_elem_of_fmap_2.
  - subst y. simpl in He. rewrite (Hu x Hx He). exact Hy.
Qed.

Lemma NoDup_token_inj (pending : list IngestMeterBatch) x y :
  NoDup (mb_token <$> pending) → x ∈ pending → y ∈ pending → mb_token x = mb_token y → x = y.
Proof.
  intros Hnd (i & Hi)%list_elem_of_lookup_1 (j & Hj)%list_elem_of_lookup_1 He.
  assert (i = j) as ->; [|congruence]. apply (NoDup_lookup _ i j (mb_token x) Hnd); rewrite list_lookup_fmap.
  - by rewrite Hi.
  - by rewrite Hj, He.
Qed.

(** What stays pending is a suffix; what left is stored; nothing else is. *)
Lemma retry_pending_spec oracle pending t :
  meter_inv pending t →
  let '(ok, rest, t') := retry_pending oracle pending t in
  ∃ sent, pending = sent ++ rest ∧ meter_inv rest t' ∧ (ok = true → rest = []) ∧
    (∀ b, b ∈ sent → entry b ∈ t') ∧ (∀ x, x ∈ t → x ∈ t') ∧ (∀ x, x ∈ t' → x ∈ t ∨ ∃ b, b ∈ pending ∧ x = entry b).
Proof.
  revert oracle t. induction pending as [|b pending IH]; intros oracle t Hinv.
  - exists []. split_and!; auto. by intros b ?%elem_of_nil.
  - cbn [retry_pending]. pose proof (meter_insert_table (oracle 0%nat) b t) as Ht'.
    destruct (meter_insert (oracle 0%nat) b t) as [ok t'] eqn:Hm. simpl in Ht'.
    destruct Hinv as [H1 H2 H3]. pose proof H2 as H2'. rewrite fmap_cons in H2. apply NoDup_cons in H2 as [H2a H2b].
    assert (meter_inv (b :: pending) t') as [_ _ Hsame].
    { split; [rewrite Ht'; by apply attempt_insert_NoDup|done|]. rewrite Ht'. apply mi_same_step; [done|].
      intros x Hx He. by apply (NoDup_token_inj (b :: pending)); [| |left|]. }
    assert (∀ x, x ∈ t → x ∈ t') as Hincl by (rewrite Ht'; intros; by apply attempt_insert_incl).
    assert (∀ x, x ∈ t' → x ∈ t ∨ x = entry b) as Hfrom by (rewrite Ht'; intros x; apply attempt_insert_from).
    assert (NoDup t'.*1) as Hnd by (rewrite Ht'; by apply attempt_insert_NoDup).
    destruct ok.
    + assert (meter_inv pending t') as Hinv' by (split; [done|done|intros x Hx; apply Hsame; by right]).
      specialize (IH (oracle ∘ S) t' Hinv'). destruct (retry_pending (oracle ∘ S) pending t') as [[ok rest] t''].
      destruct IH as (sent & -> & Hi & Hok & Hst & Hin & Hfr). exists (b :: sent).
      split; [done|]. split; [done|]. split; [done|]. split; [|split; [by auto|]].
      * intros x [->|Hx]%elem_of_cons; [|by apply Hst]. apply Hin, (meter_insert_ok _ _ _ _ Hm), H3. by left.
      * intros x [[?| ->]%Hfrom|(y & Hy & ->)]%Hfr; [by left|right; exists b; split; [by left|done]|right; exists y; split; [by right|done]].
    + exists []. split; [done|]. split; [by split|]. split; [done|]. split; [by intros x ?%elem_of_nil|]. split; [done|].
      intros x [?| ->]%Hfrom; [by left|right; exists b; split; [by left|done]].
Qed.

(** A flush of the meter, and the batch it drains. *)
Record MeterFlush := { mf_oracle : nat → Attempt; mf_token : bytes; mf_day : Z; mf_buffer : gmap bytes f64 }.

Definition drained (f : MeterFlush) : list IngestMeterBatch :=
  if decide (mf_buffer f = ∅) then []
  else [{| mb_token := mf_token f; mb_day := days_since_epoch (mf_day f); mb_rows := map_to_list (mf_buffer f) |}].

Definition meter_flush (st : list IngestMeterBatch * MeterTable) (f : MeterFlush) : list IngestMeterBatch * MeterTable :=
  flush_ingest_meter (mf_oracle f) (mf_token f) (mf_day f) (mf_buffer f) st.1 st.2.

Definition meter_run (fs : list MeterFlush) : list IngestMeterBatch * MeterTable := foldl meter_flush ([], []) fs.

Lemma retry_pending_done oracle pending t : (∀ i, oracle i = Done) → (retry_pending oracle pending t).1 = (true, []).
Proof.
  revert oracle t. induction pending as [|b pending IH]; intros oracle t Hd; [done|].
  cbn [retry_pending]. unfold meter_insert. rewrite (Hd 0%nat). apply IH. intros i. apply (Hd (S i)).
Qed.

(** A new batch at the end of the queue, after an attempt or without one. *)
Lemma meter_inv_snoc rest t b : meter_inv rest t → mb_token b ∉ t.*1 → mb_token b ∉ mb_token <$> rest →
  (∀ a, meter_inv (rest ++ [b]) (attempt_insert a (mb_token b) (entry b).2 t)) ∧ meter_inv (rest ++ [b]) t.
Proof.
  intros [H1 H2 H3] Hf Hr.
  assert (NoDup (mb_token <$> rest ++ [b])) as Hnd.
  { rewrite fmap_app. apply NoDup_app. split_and!; [done| |apply NoDup_singleton]. by intros x Hx ->%list_elem_of_singleton. }
  assert (∀ x, x ∈ rest ++ [b] → mb_token x ∈ t.*1 → entry x ∈ t) as Hs.
  { intros x [Hx| ->%list_elem_of_singleton]%elem_of_app ?; [by apply H3|done]. }
  split; [intros a|by split].
  split; [by apply attempt_insert_NoDup|done|apply mi_same_step; [done|]].
  intros x Hx He. apply (NoDup_token_inj _ _ _ Hnd Hx); [|done]. apply elem_of_app. right. by apply list_elem_of_singleton.
Qed.

Lemma meter_inv_suffix pre rest t : meter_inv (pre ++ rest) t → meter_inv rest t.
Proof.
  intros [H1 H2 H3]. split; [done| |intros b Hb; apply H3, elem_of_app; by right].
  rewrite fmap_app in H2. by apply NoDup_app in H2 as (_ & _ & ?).
Qed.

(** The push at the end of the queue, with the oldest pushed out at the cap. *)
Lemma queue_push (rest : list IngestMeterBatch) b t2 cap :
  let q := (if decide (cap ≤ length rest)%nat then tail rest else rest) ++ [b] in
  meter_inv (rest ++ [b]) t2 → (length rest ≤ cap)%nat → (0 < cap)%nat →
  meter_inv q t2 ∧ (length q ≤ cap)%nat ∧ (length q ≤ S (length rest))%nat ∧
  (∀ x, x ∈ q → x ∈ rest ++ [b]) ∧ (∀ x, x ∈ rest ++ [b] → x ∈ q ∨ length rest = cap ∧ head rest = Some x).
Proof.
  intros q Hi Hl Hc. unfold q. case_decide as Hcap; [|split_and!; auto; rewrite length_app; simpl; lia].
  destruct rest as [|o rest]; [simpl in *; lia|]. simpl in *. split_and!.
  - by apply (meter_inv_suffix [o]).
  - rewrite length_app. simpl. lia.
  - rewrite length_app. simpl. lia.
  - intros x. by right.
  - intros x [->|Hx]%elem_of_cons; [right; split; [lia|done]|by left].
Qed.

(** The drained batch goes out, or to the end of the queue; a full queue loses its head. *)
Lemma meter_flush_spec pending t f :
  meter_inv pending t → mf_token f ∉ t.*1 → mf_token f ∉ mb_token <$> pending → (length pending ≤ INGEST_METER_PENDING_CAP)%nat →
  let '(pending', t') := meter_flush (pending, t) f in
  meter_inv pending' t' ∧ (length pending' ≤ INGEST_METER_PENDING_CAP)%nat ∧ (length pending' ≤ S (length pending))%nat ∧
  (∀ x, x ∈ t → x ∈ t') ∧ (∀ x, x ∈ t' → x ∈ t ∨ ∃ b, b ∈ pending ++ drained f ∧ x = entry b) ∧
  (∀ b, b ∈ pending' → b ∈ pending ++ drained f) ∧
  (∀ b, b ∈ pending ++ drained f → entry b ∈ t' ∨ b ∈ pending' ∨ (length pending = INGEST_METER_PENDING_CAP ∧ head pending = Some b)) ∧
  ((∀ i, mf_oracle f i = Done) → pending' = []).
Proof.
  intros Hinv Hf Hp Hlen. unfold meter_flush, flush_ingest_meter, drained. cbn [fst snd].
  pose proof (retry_pending_spec (mf_oracle f) pending t Hinv) as Hret. pose proof (retry_pending_done (mf_oracle f) pending t) as Hdone.
  destruct (retry_pending _ _ _) as [[retried rest] t1]. destruct Hret as (sent & Hpend & Hi1 & Hok & Hst & Hin & Hfr).
  assert (∀ b, b ∈ pending → entry b ∈ t1 ∨ b ∈ rest) as Hcov by (intros b; rewrite Hpend, elem_of_app; naive_solver).
  assert (∀ b, b ∈ rest → b ∈ pending) as Hsub by (rewrite Hpend; intros; apply elem_of_app; by right).
  assert (length rest ≤ length pending)%nat as Hll by (rewrite Hpend, length_app; lia).
  case_decide as Hempty.
  { rewrite app_nil_r. split_and!; try done; [lia|lia|naive_solver|intros Ha; specialize (Hdone Ha); naive_solver]. }
  set (b := {| mb_token := mf_token f; mb_day := _; mb_rows := _ |}).
  assert (mb_token b ∉ t1.*1) as Hf1.
  { intros (x & Hx & [Ht|(y & Hy & ->)]%Hfr)%list_elem_of_fmap; [apply Hf|apply Hp]; simpl in Hx; rewrite Hx; by apply list_elem_of_fmap_2. }
  assert (mb_token b ∉ mb_token <$> rest) as Hf2.
  { intros (x & Hx & Hxr)%list_elem_of_fmap. apply Hp. simpl in Hx. rewrite Hx. by apply list_elem_of_fmap_2, Hsub. }
  destruct (meter_inv_snoc rest t1 b Hi1 Hf1 Hf2) as [Hs1 Hs2].
  assert (∃ ok t2, (if retried then meter_insert (mf_oracle f (length pending)) b t1 else (false, t1)) = (ok, t2) ∧
    meter_inv (rest ++ [b]) t2 ∧ (∀ x, x ∈ t1 → x ∈ t2) ∧ (∀ x, x ∈ t2 → x ∈ t1 ∨ x = entry b) ∧ (ok = true → entry b ∈ t2) ∧
    ((∀ i, mf_oracle f i = Done) → ok = true)) as (ok & t2 & -> & Hi2 & Hin2 & Hfr2 & Hst2 & Hd2).
  { destruct retried; [|exists false, t1; split_and!; auto; [done|intros Ha; by specialize (Hdone Ha)]].
    eexists _, _. split; [apply surjective_pairing|]. rewrite meter_insert_table. split_and!; [done|..].
    - intros. by apply attempt_insert_incl.
    - intros x. apply attempt_insert_from.
    - intros Ho. eapply meter_insert_ok; [|done]. by rewrite <- Ho, <- surjective_pairing.
    - intros Ha. unfold meter_insert. by rewrite Ha. }
  assert (∀ x, x ∈ t2 → x ∈ t ∨ ∃ b', b' ∈ pending ++ [b] ∧ x = entry b') as Hfrom.
  { intros x [[?|(y & ? & ->)]%Hfr| ->]%Hfr2; [by left|right; exists y; split; [apply elem_of_app; by left|done]|].
    right. exists b. split; [apply elem_of_app; right; by apply list_elem_of_singleton|done]. }
  destruct ok.
  - split_and!; [|lia|lia|naive_solver|done|intros x Hx; apply elem_of_app; left; auto| |].
    + destruct Hi2 as [I1 I2 I3]. split; [done|by destruct Hi1|]. intros x Hx. apply I3, elem_of_app. by left.
    + intros x [Hx| ->%list_elem_of_singleton]%elem_of_app; [destruct (Hcov x Hx); auto|auto].
    + intros Ha. specialize (Hdone Ha). naive_solver.
  - destruct (queue_push rest b t2 INGEST_METER_PENDING_CAP Hi2 ltac:(lia) ltac:(apply Nat.ltb_lt; reflexivity)) as (Q1 & Q2 & Q3 & Q4 & Q5).
    split_and!; [done|done|lia|naive_solver|done| | |intros Ha; by specialize (Hd2 Ha)].
    + intros x [?|?]%Q4%elem_of_app; apply elem_of_app; auto.
    + intros x Hx. assert (entry x ∈ t1 ∨ x ∈ rest ++ [b]) as [?|[?|[Hlr Hh]]%Q5].
      { apply elem_of_app in Hx as [[?|?]%Hcov|?]; [by left|right; apply elem_of_app; by left|right; apply elem_of_app; by right]. }
      * left. auto.
      * auto.
      * right. right. assert (sent = []) as -> by (apply length_zero_iff_nil; rewrite Hpend, length_app in Hlen; lia).
        by rewrite Hpend.
Qed.

Lemma meter_run_inv fs :
  NoDup (mf_token <$> fs) →
  let '(pending, t) := meter_run fs in
  meter_inv pending t ∧ (length pending ≤ INGEST_METER_PENDING_CAP)%nat ∧ (length pending ≤ length fs)%nat ∧
  (∀ b, b ∈ pending → b ∈ fs ≫= drained) ∧ (∀ x, x ∈ t → ∃ b, b ∈ fs ≫= drained ∧ x = entry b) ∧
  ((length fs ≤ INGEST_METER_PENDING_CAP)%nat → ∀ b, b ∈ fs ≫= drained → entry b ∈ t ∨ b ∈ pending).
Proof.
  induction fs as [|f fs IH] using rev_ind; intros Hnd.
  { split_and!; simpl; try lia; try (intros; set_solver). split; simpl; [apply NoDup_nil_2|apply NoDup_nil_2|set_solver]. }
  rewrite fmap_app in Hnd. apply NoDup_app in Hnd as (Hnd & Hnew & _). specialize (IH Hnd).
  unfold meter_run in *. rewrite foldl_app. cbn [foldl]. destruct (foldl meter_flush ([], []) fs) as [pending t].
  destruct IH as (Hinv & Hcap & Hlen & Hpend & Hfrom & Hcov).
  assert (Htok : ∀ b, b ∈ fs ≫= drained → mb_token b ≠ mf_token f).
  { intros b (g & Hb & Hg)%list_elem_of_bind He. apply (Hnew (mf_token g)); [by apply list_elem_of_fmap_2|].
    apply list_elem_of_singleton. unfold drained in Hb. case_decide; [by apply elem_of_nil in Hb|].
    apply list_elem_of_singleton in Hb as ->. exact He. }
  pose proof (meter_flush_spec pending t f Hinv) as Hspec. destruct (meter_flush (pending, t) f) as [pending' t'].
  destruct Hspec as (I & C & L & G & F & P & V & _); [|..|done|].
  { intros (x & He & (b & Hb & ->)%Hfrom)%list_elem_of_fmap. by apply (Htok b). }
  { intros (b & He & Hb)%list_elem_of_fmap. by apply (Htok b); [apply Hpend|]. }
  assert (Hsub : ∀ b, b ∈ pending ++ drained f → b ∈ (fs ++ [f]) ≫= drained).
  { intros b. rewrite bind_app, bind_singleton, !elem_of_app. naive_solver. }
  rewrite length_app. split_and!; [done|done|simpl; lia|auto| |].
  - intros x [(b & Hb & ->)%Hfrom|(b & Hb & ->)]%F; exists b; (split; [|done]); [|by apply Hsub].
    rewrite bind_app. apply elem_of_app. by left.
  - simpl. intros Hl b. rewrite bind_app, bind_singleton, elem_of_app. intros Hb.
    assert (entry b ∈ t ∨ b ∈ pending ++ drained f) as [Ht|Hq].
    { destruct Hb as [Hb|?]; [destruct (Hcov ltac:(lia) b Hb); [by left|]|]; right; apply elem_of_app; auto. }
    + left. auto.
    + destruct (V b Hq) as [?|[?|[? _]]]; [auto|auto|lia].
Qed.

Lemma flush_done oracle token day buffer pending t p' t' :
  (∀ i, oracle i = Done) → flush_ingest_meter oracle token day buffer pending t = (p', t') → p' = [].
Proof.
  intros Hd. unfold flush_ingest_meter. pose proof (retry_pending_done oracle pending t Hd) as Hr.
  destruct (retry_pending _ _ _) as [[ok rest] t1]. injection Hr as -> ->.
  case_decide; [by intros [= <- _]|]. unfold meter_insert. rewrite Hd. by intros [= <- _].
Qed.

Lemma drained_NoDup fs : NoDup (mf_token <$> fs) → NoDup ((fst ∘ entry) <$> (fs ≫= drained)).
Proof.
  induction fs as [|f fs IH]; [constructor|]. rewrite fmap_cons. intros [Hn Hnd]%NoDup_cons.
  rewrite bind_cons, fmap_app. unfold drained at 1. case_decide; [by apply IH|]. simpl. constructor; [|by apply IH].
  intros (b & He & (g & Hb & Hg)%list_elem_of_bind)%list_elem_of_fmap. apply Hn.
  unfold drained in Hb. case_decide; [by apply elem_of_nil in Hb|]. apply list_elem_of_singleton in Hb as ->.
  simpl in He. rewrite He. by apply list_elem_of_fmap_2.
Qed.

(** C25. The meter bills at most once and forgets only at its cap.  Over any run of flushes
    with fresh tokens, whatever the inserts do, the table holds each token once and holds
    only batches that were drained, unchanged; the queue is bounded; in a run no longer
    than the cap every drained batch is in the table or waits; and a flush whose inserts
    all succeed empties the queue, so every batch drained is then billed exactly once. *)
Theorem meter_bills_once fs pending t :
  NoDup (mf_token <$> fs) → meter_run fs = (pending, t) →
  NoDup t.*1 ∧ (∀ x, x ∈ t → ∃ b, b ∈ fs ≫= drained ∧ x = entry b) ∧
  (length pending ≤ INGEST_METER_PENDING_CAP)%nat ∧
  ((length fs ≤ INGEST_METER_PENDING_CAP)%nat → ∀ b, b ∈ fs ≫= drained → entry b ∈ t ∨ b ∈ pending) ∧
  (∀ fs' f, fs = fs' ++ [f] → (∀ i, mf_oracle f i = Done) →
     pending = [] ∧ ((length fs ≤ INGEST_METER_PENDING_CAP)%nat → t ≡ₚ entry <$> (fs ≫= drained))).
Proof.
  intros Hnd Hrun. pose proof (meter_run_inv fs Hnd) as Hinv. rewrite Hrun in Hinv.
  destruct Hinv as (Hi & Hcap & _ & _ & Hfrom & Hcov). split_and!; try done; [by destruct Hi|].
  intros fs' f -> Hd. assert (pending = []) as ->.
  { unfold meter_run in Hrun. rewrite foldl_app in Hrun. cbn [foldl] in Hrun.
    destruct (foldl meter_flush ([], []) fs') as [p0 t0]. unfold meter_flush in Hrun. cbn [fst snd] in Hrun.
    by apply (flush_done _ _ _ _ _ _ _ _ Hd Hrun). }
  split; [done|]. intros Hl. apply NoDup_Permutation.
  - apply (NoDup_fmap_1 fst). by destruct Hi.
  - apply (NoDup_fmap_1 fst). rewrite <- list_fmap_compose. by apply drained_NoDup.
  - intros x. split.
    + intros (b & Hb & ->)%Hfrom. by apply list_elem_of_fmap_2.
    + intros (b & -> & Hb)%list_elem_of_fmap. destruct (Hcov Hl b Hb) as [?|?%elem_of_nil]; done.
Qed.

(** ** A run *)

Section demo.
Local Existing Instance text_number.

(** The text of an id is its number; a digest is the first bytes of the text; nothing is
    redacted or captured; every trace is kept. *)
Definition demo_writer_env : WriterEnv := {|
  uuid_text := dec;
  blake3 := take 32;
  redact := λ t, t;
  redact_json := λ v, v;
  apply_capture := λ _ s, s;
  sampling_policy := λ _, Full;
|}.
Local Existing Instance demo_writer_env.

Definition demo_span (id : Z) (text : bytes) : Span :=
  {| sp_tenant := 7; sp_trace := 9; sp_id := id; sp_parent := None; sp_name := lit "call"; sp_start := 0; sp_end := None;
     sp_status_code := 1; sp_status_message := None; sp_intervention := None; sp_aft_id := None;
     sp_attributes := Object [(lit "input", String text)] |}.

Definition demo_message (seq : Z) (text : bytes) : Envelope * Z * Z :=
  ({| e_span := demo_span seq text; e_source := Nats; e_ack := Some seq |}, 20000, seq).

(** The ceiling of a trace is one span. *)
Definition demo_writer : Writer :=
  {| w_sampler := sampler_new; w_ceiling := ceiling_with_limits 1 0; meter_buffer := ∅; meter_pending := []; last_prune := 0 |}.

Definition empty_world : World := {| db_spans := []; db_blobs := []; db_blob_refs := []; db_meters := []; acked := [] |}.

Definition long_text (c : byte) : bytes := replicate 1100 c.

(** The first insert is lost, the second takes effect and its reply is lost, the third is
    answered. *)
Definition demo_cycle : CycleInput :=
  {| ci_spans := [demo_message 1 (long_text Byte.x61); demo_message 2 (long_text Byte.x62)]; ci_closed := false; ci_token := lit "t1";
     ci_flush := λ i, match i with 0%nat => Failed | 1%nat => LostReply | _ => Done end; ci_blobs := Done; ci_refs := Done;
     ci_meter_token := lit "m1"; ci_meter := λ _, Done; ci_day := 20000; ci_now := 3 |}.

(** A span over the ceiling of its trace is acknowledged and not stored, but its blob and
    the reference to it were queued when its row was built, and they are stored. *)
Example dropped_span_leaves_blobs :
  let '(r, (_, w)) := cycle 2000 demo_cycle (demo_writer, empty_world) in
  r = Ok () ∧ acked w = [2; 1] ∧ (row_span_id <$> ((db_spans w).*2 ≫= id)) = [dec 1] ∧
  (pr_span_id <$> db_blob_refs w) = [dec 1; dec 2] ∧ length (db_blobs w) = 2%nat.
Proof. vm_compute. split_and!; reflexivity. Qed.

Lemma acked_is_durable_witness :
  1 ∈ acked (run_writer 2000 [demo_cycle] (demo_writer, empty_world)).2.2 ∧
  (1 ∈ acked empty_world ∨
   ∃ e day now wr1, taken 2000 [demo_cycle] (demo_writer, empty_world) e day now wr1 ∧ e_ack e = Some 1 ∧
     (dropped_on_purpose wr1 e day now ∨ durable (run_writer 2000 [demo_cycle] (demo_writer, empty_world)).2.2 e day)).
Proof.
  assert (1 ∈ acked (run_writer 2000 [demo_cycle] (demo_writer, empty_world)).2.2) as Hs
    by (apply (bool_decide_unpack _); vm_compute; exact I).
  split; [exact Hs|].
  apply (acked_is_durable 2000 [demo_cycle] demo_writer empty_world (run_writer 2000 [demo_cycle] (demo_writer, empty_world)).1
           (run_writer 2000 [demo_cycle] (demo_writer, empty_world)).2.1 (run_writer 2000 [demo_cycle] (demo_writer, empty_world)).2.2 1).
  - apply NoDup_singleton.
  - intros ci _. apply not_elem_of_nil.
  - by destruct (run_writer 2000 [demo_cycle] (demo_writer, empty_world)) as [? [? ?]].
  - exact Hs.
Defined.

Lemma outage_is_outlasted_witness :
  ∃ wr' w' got rest, cycle 2000 demo_cycle (demo_writer, empty_world) = (Ok (), (wr', w')) ∧ ci_spans demo_cycle = got ++ rest ∧
    (∀ e day now seq, (e, day, now) ∈ got → e_ack e = Some seq → seq ∈ acked w') ∧
    db_spans w' = match b_rows (receives demo_writer got).2 with [] => [] | rows => [] ++ [(lit "t1", rows)] end.
Proof.
  apply (outage_is_outlasted 2000 demo_cycle demo_writer empty_world 2).
  - simpl. lia.
  - reflexivity.
  - intros [|[|i]] Hi; [by left|by right|lia].
  - reflexivity.
  - reflexivity.
  - apply not_elem_of_nil.
Defined.

(** Two drained batches; the reply to the first is lost, and it is sent again. *)
Definition lost_flush : MeterFlush :=
  {| mf_oracle := λ _, LostReply; mf_token := lit "m1"; mf_day := 20000; mf_buffer := {[ lit "t" := f64_of 10 ]} |}.
Definition good_flush : MeterFlush :=
  {| mf_oracle := λ _, Done; mf_token := lit "m2"; mf_day := 20000; mf_buffer := {[ lit "t" := f64_of 20 ]} |}.
Definition demo_flushes : list MeterFlush := [lost_flush; good_flush].

Lemma meter_bills_once_witness :
  (meter_run demo_flushes).1 = [] ∧ (meter_run demo_flushes).2 ≡ₚ entry <$> (demo_flushes ≫= drained).
Proof.
  destruct (meter_bills_once demo_flushes (meter_run demo_flushes).1 (meter_run demo_flushes).2) as (_ & _ & _ & _ & Hd).
  - apply (bool_decide_unpack _). vm_compute. exact I.
  - by destruct (meter_run demo_flushes).
  - destruct (Hd [lost_flush] good_flush eq_refl (λ _, eq_refl)) as [Hp Ht].
    split; [exact Hp|]. apply Ht. apply Nat.leb_le. reflexivity.
Defined.
End demo.
