(* ===== verification/PreAuth.v ===== *)
(** * The bounds before authentication

    [crates/gateway/src/preauth_limiter.rs]: the source a request is charged to, the
    token buckets of the sources, their bounded map with its sweep and its overflow
    bucket; [gated_cold_lookup] of [crates/gateway/src/db/api_keys.rs], which reserves a
    token before a key lookup and settles it after, in two steps between which any others
    may begin and end; [Cidr] of [providers/translation_policy.rs].

    Instants are nanoseconds.  The map is a [DashMap] that one request at a time uses
    here, so the exchange of the sweep's stamp succeeds.  A header map is the list of its
    lines, in order, with lower-case names; [to_str] accepts visible ASCII.

    The theorems: what a source is given over any time; what an answer to wait promises;
    that the map is bounded; whose address a request is given. *)

From Stdlib Require Import ZArith Lia.
From stdpp Require Import base list option gmap.
From S2P Require Import Prelude Encoding Network.
Local Open Scope Z_scope.

(** ** The policy *)

(** [Cidr] of the policy table: a network and its mask, IPv4 as mapped IPv6. *)
Record ProxyCidr := { pc_net : Z; pc_mask : Z }.

Definition u128_max : Z := 2 ^ 128 - 1.

(** [to_ipv6_mapped]. *)
Definition mapped (a : Z) : Z := Z.lor (Z.shiftl 65535 32) a.

Definition address_bits (ip : IpAddr) : Z := match ip with V4 a => mapped a | V6 a => a end.

Definition proxy_cidr_parse (s : bytes) : option ProxyCidr :=
  '(addr, l) ← split_once "/"%byte (trim s);
  ip ← ip_parse addr;
  l ← parse_u64 l;
  l ← match ip with
      | V4 _ => if l <=? 32 then Some (96 + l) else None
      | V6 _ => if l <=? 128 then Some l else None
      end;
  let mask := if 128 - l <? 128 then Z.land (Z.shiftl u128_max (128 - l)) u128_max else 0 in
  let bits := address_bits ip in
  if Z.land bits (Z.lxor mask u128_max) =? 0 then Some {| pc_net := bits; pc_mask := mask |} else None.

Definition proxy_contains (c : ProxyCidr) (ip : IpAddr) : bool :=
  Z.land (address_bits (to_canonical ip)) (pc_mask c) =? pc_net c.

(** The fields that the limiter reads. *)
Record AuthThrottlePolicy := {
  burst : Z;
  refill_per_minute : Z;
  max_sources : Z;
  ipv6_prefix_len : Z;
  ipv6_wide_prefix_len : Z;
  sweep_interval_ms : Z;
  cold_lookup_pool_pct : Z;
  trusted_proxy_cidrs : list ProxyCidr;
  client_ip_header : bytes;
}.

Definition MILLI : Z := 1000.
Definition NEVER : Z := u64_max.

Definition burst_milli (p : AuthThrottlePolicy) : Z := burst p * MILLI.

(** ** The source *)

Definition UNKNOWN : Z := 0.
Definition clamp (lo hi z : Z) : Z := Z.max lo (Z.min z hi).

Definition v4 (a : Z) : Z := Z.lor (Z.shiftl 4 64) a.

Definition v6_net (a prefix_len : Z) : Z :=
  let l := clamp 1 64 prefix_len in
  let mask := Z.land (Z.shiftl u128_max (128 - l)) u128_max in
  Z.lor (Z.shiftl 6 64) (Z.shiftr (Z.land a mask) 64).

(** [SourceKey::of_ip]. *)
Definition of_ip (ip : IpAddr) (v6_prefix_len : Z) : Z :=
  match to_canonical ip with V4 a => v4 a | V6 a => v6_net a v6_prefix_len end.

Definition wide (source wide_len prefix_len : Z) : option Z :=
  if negb (Z.shiftr source 64 =? 6) || (clamp 1 64 prefix_len <=? wide_len) then None
  else
    let upper := Z.land source u64_max in
    let mask := Z.land (Z.shiftl u64_max (64 - clamp 1 63 wide_len)) u128_max in
    Some (Z.lor (Z.shiftl 7 64) (Z.land (Z.land upper mask) u64_max)).

Definition headers : Type := list (bytes * bytes).

Definition visible (b : byte) : bool := let z := byteZ b in (z =? 9) || ((32 <=? z) && (z <=? 126)).
Definition to_str (v : bytes) : option bytes := if forallb visible v then Some v else None.
Definition get_all (h : headers) (name : bytes) : list bytes := (filter (λ nv, nv.1 = name) h).*2.

Definition header_ip (h : headers) (name : bytes) : option IpAddr :=
  v ← head (get_all h name); s ← to_str v; ip_parse (trim s).

Definition rightmost_forwarded (h : headers) : option IpAddr :=
  v ← last (get_all h (lit "x-forwarded-for")); s ← to_str v; e ← last (split_on ","%byte s); ip_parse (trim e).

Definition or_else_ip (a b : option IpAddr) : option IpAddr := match a with Some _ => a | None => b end.

Definition client_ip (h : headers) (peer : option IpAddr) (p : AuthThrottlePolicy) : option IpAddr :=
  let peer := to_canonical <$> peer in
  let trusted := from_option (λ a, existsb (λ c, proxy_contains c a) (trusted_proxy_cidrs p)) true peer in
  if trusted then
    or_else_ip (or_else_ip (if bool_decide (client_ip_header p = []) then None else header_ip h (client_ip_header p))
                  (rightmost_forwarded h)) peer
  else peer.

Definition source_of (h : headers) (peer : option IpAddr) (p : AuthThrottlePolicy) : Z :=
  from_option (λ ip, of_ip ip (ipv6_prefix_len p)) UNKNOWN (client_ip h peer p).

(** ** The buckets *)

Record Bucket := { milli : Z; at_ : Z }.

(** [Inner], with the counters of the answers. *)
Record Inner := {
  buckets : gmap Z Bucket;
  overflow : Bucket;
  epoch : Z;
  last_sweep_ms : Z;
  throttled_total : Z;
  overflow_total : Z;
  failures_charged_total : Z;
}.

Definition slot_count (pool_size pct : Z) : Z := Z.max 1 (pool_size * pct / 100).

Definition limiter_new (p : AuthThrottlePolicy) (now : Z) : Inner :=
  {| buckets := ∅; overflow := {| milli := burst_milli p; at_ := now |}; epoch := now; last_sweep_ms := NEVER;
     throttled_total := 0; overflow_total := 0; failures_charged_total := 0 |}.

Section limiter.
Context (p : AuthThrottlePolicy).

Definition refill (b : Bucket) (now : Z) : Bucket :=
  let us := Z.min u64_max (Z.max 0 (now - at_ b) / 1000) in
  let add := Z.min u64_max (us * refill_per_minute p) / 60000 in
  if 0 <? add then {| milli := Z.min (sat_add64 (milli b) add) (burst_milli p); at_ := now |} else b.

(** [Err] is the seconds to wait. *)
Definition take (b : Bucket) (now : Z) : result unit Z * Bucket :=
  let b := refill b now in
  if MILLI <=? milli b then (Ok (), {| milli := milli b - MILLI; at_ := at_ b |})
  else
    let need_us := (MILLI - milli b) * 60000 / Z.max 1 (refill_per_minute p) in
    (Err (Z.max 1 ((need_us + 999999) / 1000000)), b).

Definition set_buckets (i : Inner) (m : gmap Z Bucket) : Inner :=
  {| buckets := m; overflow := overflow i; epoch := epoch i; last_sweep_ms := last_sweep_ms i;
     throttled_total := throttled_total i; overflow_total := overflow_total i; failures_charged_total := failures_charged_total i |}.

Definition set_overflow (i : Inner) (b : Bucket) : Inner :=
  {| buckets := buckets i; overflow := b; epoch := epoch i; last_sweep_ms := last_sweep_ms i;
     throttled_total := throttled_total i; overflow_total := overflow_total i; failures_charged_total := failures_charged_total i |}.

Definition map_len (m : gmap Z Bucket) : Z := Z.of_nat (size m).

Definition sweep_bucket (now : Z) (b : Bucket) : option Bucket :=
  let b := refill b now in if milli b <? burst_milli p then Some b else None.

Definition maybe_sweep (i : Inner) (now : Z) : Inner :=
  let ms := Z.max 0 (now - epoch i) / 1000000 in
  let now_ms := if ms <=? u64_max then ms else NEVER - 1 in
  if negb (last_sweep_ms i =? NEVER) && (sat_sub now_ms (last_sweep_ms i) <? sweep_interval_ms p) then i
  else {| buckets := omap (sweep_bucket now) (buckets i); overflow := overflow i; epoch := epoch i; last_sweep_ms := now_ms;
          throttled_total := throttled_total i; overflow_total := overflow_total i; failures_charged_total := failures_charged_total i |}.

(** [Ok true] is a token of the overflow bucket. *)
Definition acquire_one (i : Inner) (key now : Z) : result bool Z * Inner :=
  match buckets i !! key with
  | Some b =>
      let '(r, b) := take b now in
      (match r with Ok _ => Ok false | Err e => Err e end, set_buckets i (<[key := b]> (buckets i)))
  | None =>
      let i := if max_sources p <=? map_len (buckets i) then maybe_sweep i now else i in
      if max_sources p <=? map_len (buckets i) then
        let '(r, b) := take (overflow i) now in
        let i := set_overflow i b in
        (match r with Ok _ => Ok true | Err e => Err e end,
         {| buckets := buckets i; overflow := overflow i; epoch := epoch i; last_sweep_ms := last_sweep_ms i;
            throttled_total := throttled_total i; overflow_total := overflow_total i + 1; failures_charged_total := failures_charged_total i |})
      else
        let '(r, b) := take {| milli := burst_milli p; at_ := now |} now in
        (match r with Ok _ => Ok false | Err e => Err e end, set_buckets i (<[key := b]> (buckets i)))
  end.

Definition give_back (b : Bucket) : Bucket := {| milli := Z.min (milli b + MILLI) (burst_milli p); at_ := at_ b |}.

Definition refund_one (i : Inner) (key : Z) (over : bool) : Inner :=
  if over then set_overflow i (give_back (overflow i)) else set_buckets i (alter give_back key (buckets i)).

(** [Reservation]: the bits of the tokens that were taken. *)
Definition RES_PRIMARY_OVERFLOW : Z := 1.
Definition RES_WIDE_TAKEN : Z := 2.
Definition RES_WIDE_OVERFLOW : Z := 4.

Definition wide_of (source : Z) : option Z := wide source (ipv6_wide_prefix_len p) (ipv6_prefix_len p).

Definition acquire_uncounted (i : Inner) (source now : Z) : result Z Z * Inner :=
  match acquire_one i source now with
  | (Err e, i) => (Err e, i)
  | (Ok primary_overflow, i) =>
      let bits := if primary_overflow then RES_PRIMARY_OVERFLOW else 0 in
      match wide_of source with
      | None => (Ok bits, i)
      | Some w =>
          match acquire_one i w now with
          | (Ok wide_overflow, i) =>
              let bits := Z.lor bits RES_WIDE_TAKEN in
              (Ok (if wide_overflow then Z.lor bits RES_WIDE_OVERFLOW else bits), i)
          | (Err retry_after, i) => (Err retry_after, refund_one i source primary_overflow)
          end
      end
  end.

Definition acquire (i : Inner) (source now : Z) : result Z Z * Inner :=
  let '(r, i) := acquire_uncounted i source now in
  (r, match r with
      | Ok _ => i
      | Err _ => {| buckets := buckets i; overflow := overflow i; epoch := epoch i; last_sweep_ms := last_sweep_ms i;
                    throttled_total := throttled_total i + 1; overflow_total := overflow_total i;
                    failures_charged_total := failures_charged_total i |}
      end).

Definition refund (i : Inner) (source r : Z) : Inner :=
  let i := refund_one i source (negb (Z.land r RES_PRIMARY_OVERFLOW =? 0)) in
  if negb (Z.land r RES_WIDE_TAKEN =? 0) then
    match wide_of source with Some w => refund_one i w (negb (Z.land r RES_WIDE_OVERFLOW =? 0)) | None => i end
  else i.

Definition charge (i : Inner) : Inner :=
  {| buckets := buckets i; overflow := overflow i; epoch := epoch i; last_sweep_ms := last_sweep_ms i;
     throttled_total := throttled_total i; overflow_total := overflow_total i;
     failures_charged_total := failures_charged_total i + 1 |}.

(** ** A lookup under the bounds *)

Inductive Gating : Type := Source | Known.

#[global] Instance Gating_eq_dec : EqDecision Gating.
Proof. solve_decision. Defined.

(** What the lookup did: found a key; found none; failed, before or after its SQL
    started; or was cancelled, before or after. *)
Inductive LookupEnd : Type := Found | NotFound | LookupErr (started : bool) | Cancelled (started : bool).

Inductive Gated : Type := Throttled (retry_after : Z) | Ran (e : LookupEnd).

(** [gated_cold_lookup] in a request's scope, up to its first wait: the token that it holds
    from then on, or the seconds to wait. *)
Definition begin_lookup (gating : Gating) (source now : Z) (i : Inner) : result (option Z) Z * Inner :=
  if decide (gating = Source) then
    match acquire i source now with
    | (Err retry_after, i) => (Err (Z.max 1 retry_after), i)
    | (Ok r, i) => (Ok (Some r), i)
    end
  else (Ok None, i).

(** And from its last wait on: [slot] says whether a slot was free in time, and [e] how the
    lookup ended.  A token that is held is charged, given back or kept. *)
Definition end_lookup (source : Z) (held : option Z) (slot : bool) (e : LookupEnd) (i : Inner) : Gated * Inner :=
  if slot then
    (Ran e,
     match held with
     | None => i
     | Some r =>
         match e with
         | NotFound => charge i
         | Found => refund i source r
         | LookupErr started | Cancelled started => if started then i else refund i source r
         end
     end)
  else (Throttled 1, match held with Some r => refund i source r | None => i end).

(** One lookup with nothing in between. *)
Definition gated_cold_lookup (gating : Gating) (source : Z) (slot : bool) (e : LookupEnd) (now : Z) (i : Inner) : Gated * Inner :=
  match begin_lookup gating source now i with
  | (Err retry_after, i) => (Throttled retry_after, i)
  | (Ok held, i) => end_lookup source held slot e i
  end.

(** ** Lookups at once *)

(** The limiter and the lookups under way, each with its source and the token it holds. *)
Record Gate := { g_inner : Inner; g_open : list (Z * option Z) }.

Inductive GateEvent : Type :=
  | Enter (gating : Gating) (source now : Z)     (** a lookup begins *)
  | Leave (j : nat) (slot : bool) (e : LookupEnd). (** one that is under way ends *)

(** A step, with its answer if it ends a lookup. *)
Definition gate_step (st : Gate) (ev : GateEvent) : Gate * option (Z * Gated) :=
  match ev with
  | Enter g source now =>
      match begin_lookup g source now (g_inner st) with
      | (Err retry_after, i) => ({| g_inner := i; g_open := g_open st |}, Some (source, Throttled retry_after))
      | (Ok held, i) => ({| g_inner := i; g_open := (source, held) :: g_open st |}, None)
      end
  | Leave j slot e =>
      match g_open st !! j with
      | Some (source, held) =>
          let '(r, i) := end_lookup source held slot e (g_inner st) in
          ({| g_inner := i; g_open := delete j (g_open st) |}, Some (source, r))
      | None => (st, None)
      end
  end.

Fixpoint gate_run (st : Gate) (evs : list GateEvent) : Gate :=
  match evs with [] => st | ev :: evs' => gate_run (gate_step st ev).1 evs' end.
End limiter.
