(* ===== verification/PreAuthProofs.v ===== *)
(** * What the bounds before authentication give

    A source's bucket over any run of reservations and refunds, the promise of an answer
    to wait, the size of the map, and the address a request is judged on. *)

From Stdlib Require Import ZArith Lia.
From stdpp Require Import base list option gmap.
From S2P Require Import Prelude Encoding Network PreAuth.
Local Open Scope Z_scope.

Section rates.
Context (p : AuthThrottlePolicy).
Hypothesis burst_u32 : is_u32 (burst p).
Hypothesis rate_pos : 0 ≤ refill_per_minute p.

Lemma burst_fits : 0 ≤ burst_milli p ≤ u64_max.
Proof using burst_u32. unfold burst_milli, MILLI. unfold is_u32 in burst_u32. change u32_max with 4294967295 in burst_u32. change u64_max with 18446744073709551615. lia. Qed.

(** A token is [6e10] units; a nanosecond gives [refill_per_minute] of them.  The
    potential of a bucket falls by a token with each token taken and never rises. *)
Definition potential (b : Bucket) : Z := 60000000 * milli b - refill_per_minute p * at_ b.

Record good (t : Z) (b : Bucket) : Prop := {
  gd_low : 0 ≤ milli b;
  gd_high : milli b ≤ burst_milli p;
  gd_at : at_ b ≤ t;
}.

Lemma refill_spec t now b : good t b → t ≤ now →
  good now (refill p b now) ∧ potential (refill p b now) ≤ potential b ∧ milli b ≤ milli (refill p b now).
Proof.
  intros [H1 H2 H3] Ht. unfold refill, potential, sat_add64. assert (0 < u64_max) as Hmax by done. pose proof burst_fits as Hfit. set (us := Z.min _ (Z.max 0 _ / 1000)). set (add := Z.min _ _ / 60000).
  assert (0 ≤ us ∧ us * 1000 ≤ now - at_ b) as [Hu0 Hu].
  { unfold us. rewrite Z.max_r by lia. pose proof (Z.mul_div_le (now - at_ b) 1000 ltac:(lia)).
    pose proof (Z.div_pos (now - at_ b) 1000 ltac:(lia) ltac:(lia)). lia. }
  assert (add * 60000 ≤ us * refill_per_minute p) as Ha.
  { unfold add. pose proof (Z.mul_div_le (Z.min u64_max (us * refill_per_minute p)) 60000 ltac:(lia)). lia. }
  case_match; simpl; (split; [split; simpl; lia|]); [|lia].
  assert (us * refill_per_minute p * 1000 ≤ (now - at_ b) * refill_per_minute p) by nia. split; [nia|lia].
Qed.

(** What a [take] leaves, and what it costs. *)
Lemma take_spec t now b : good t b → t ≤ now →
  good now (take p b now).2 ∧
  potential (take p b now).2 + (match (take p b now).1 with Ok _ => 60000000000 | Err _ => 0 end) ≤ potential b.
Proof.
  intros Hg Ht. destruct (refill_spec t now b Hg Ht) as ([H1 H2 H3] & Hp & _). unfold take, MILLI.
  case_match eqn:Hm; simpl; (split; [split; simpl; lia|]); [|lia]. unfold potential in *. simpl. lia.
Qed.

Lemma fresh_good now : good now {| milli := burst_milli p; at_ := now |}.
Proof. pose proof burst_fits. split; simpl; lia. Qed.

(** ** Where tokens are *)

(** The bucket of a source, or the overflow bucket. *)
Inductive Place : Type := Own (k : Z) | Shared.

#[local] Instance Place_eq_dec : EqDecision Place.
Proof. solve_decision. Defined.

Definition bucket_at (pl : Place) (i : Inner) : option Bucket :=
  match pl with Own k => buckets i !! k | Shared => Some (overflow i) end.

(** The tokens that a reservation of a key took there. *)
Definition token1 (pl : Place) (key : Z) (over : bool) : Z :=
  match pl with Own k => if negb over && bool_decide (k = key) then 1 else 0 | Shared => if over then 1 else 0 end.

Definition tokens (pl : Place) (source r : Z) : Z :=
  token1 pl source (negb (Z.land r RES_PRIMARY_OVERFLOW =? 0)) +
  (if negb (Z.land r RES_WIDE_TAKEN =? 0) then
     match wide_of p source with Some w => token1 pl w (negb (Z.land r RES_WIDE_OVERFLOW =? 0)) | None => 0 end
   else 0).

(** The account of a place: [n] tokens were taken from it so far. *)
Definition account (pl : Place) (K t : Z) (i : Inner) (n : Z) : Prop :=
  match bucket_at pl i with
  | Some b => good t b ∧ 60000000000 * n + potential b ≤ K
  | None => 60000000000 * n + 60000000 * burst_milli p - refill_per_minute p * t ≤ K
  end.

Lemma account_later pl K t t' i n : account pl K t i n → t ≤ t' → account pl K t' i n.
Proof.
  unfold account. destruct (bucket_at pl i) as [b|]; [|nia]. intros [[H1 H2 H3] Hk] Ht. split; [split; lia|lia].
Qed.

Lemma sweep_account pl K t now i n : account pl K t i n → t ≤ now → account pl K now (maybe_sweep p i now) n.
Proof.
  intros Ha Ht. unfold maybe_sweep. case_match; [by eapply account_later|].
  destruct pl as [k|]; unfold account in *; simpl in *; [|destruct Ha as [[H1 H2 H3] Hk]; split; [split; lia|lia]].
  rewrite lookup_omap. destruct (buckets i !! k) as [b|]; simpl; [|nia].
  destruct Ha as [Hg Hk]. destruct (refill_spec t now b Hg Ht) as ([H1 H2 H3] & Hp & _). unfold sweep_bucket. destruct (milli (refill p b now) <? burst_milli p) eqn:Hm; simpl.
  - split; [done|lia].
  - unfold potential in *. nia.
Qed.

(** One reservation, at one key. *)
Lemma acquire_one_account pl K t now i n key :
  account pl K t i n → t ≤ now →
  account pl K now (acquire_one p i key now).2
    (n + match (acquire_one p i key now).1 with Ok over => token1 pl key over | Err _ => 0 end).
Proof.
  intros Ha Ht. unfold acquire_one. destruct (buckets i !! key) as [b|] eqn:Hb.
  - pose proof (take_spec t now b) as Hs. destruct (take p b now) as [r b']. simpl in *.
    destruct (decide (pl = Own key)) as [->|Hpl].
    + unfold account, bucket_at in *. simpl. rewrite lookup_insert_eq. rewrite Hb in Ha. destruct Ha as [Hg Hk].
      destruct (Hs Hg Ht) as [Hg' Hp']. destruct r; simpl; rewrite ?bool_decide_true by done; simpl; (split; [done|lia]).
    + apply (account_later pl K t now); [|done].
      assert (Hz : match (match r with Ok _ => Ok false | Err e => Err e end) with Ok over => token1 pl key over | Err _ => 0 end = 0).
      { destruct r; [|done]. destruct pl; simpl; [|done]. rewrite bool_decide_false by congruence. done. }
      rewrite Hz, Z.add_0_r. unfold account, bucket_at in *. destruct pl as [k|]; simpl; [|done].
      by rewrite lookup_insert_ne by congruence.
  - set (i1 := if max_sources p <=? map_len (buckets i) then maybe_sweep p i now else i).
    assert (account pl K now i1 n) as Ha1 by (unfold i1; case_match; [by eapply sweep_account|by eapply account_later]).
    assert (buckets i1 !! key = None) as Hb1.
    { unfold i1. case_match; [|done]. unfold maybe_sweep. case_match; [done|]. simpl. by rewrite lookup_omap, Hb. }
    case_match.
    + pose proof (take_spec now now (overflow i1)) as Hs. destruct (take p (overflow i1) now) as [r b']. simpl in *.
      unfold account, bucket_at in *. destruct pl as [k|]; simpl in *.
      * by destruct r; simpl; rewrite Z.add_0_r.
      * destruct Ha1 as [Hg Hk]. destruct (Hs Hg ltac:(lia)) as [Hg' Hp']. destruct r; simpl; (split; [done|lia]).
    + pose proof (take_spec now now _ (fresh_good now)) as Hs. destruct (take p _ now) as [r b']. simpl in Hs.
      destruct Hs as [Hg' Hp']; [lia|]. unfold account, bucket_at in *. destruct pl as [k|]; simpl.
      * destruct (decide (k = key)) as [->|Hk].
        -- rewrite lookup_insert_eq, Hb1 in *. unfold potential in Hp'. simpl in Hp'.
           destruct r; simpl; rewrite ?bool_decide_true by done; simpl; (split; [done|unfold potential; lia]).
        -- rewrite lookup_insert_ne by congruence. destruct r; simpl; rewrite ?bool_decide_false by done; simpl; by rewrite Z.add_0_r.
      * destruct r; simpl; by rewrite Z.add_0_r.
Qed.

Lemma refund_one_account pl K t i n key over :
  account pl K t i n → account pl K t (refund_one p i key over) (n - token1 pl key over).
Proof.
  intros Ha. pose proof burst_fits as Hfit.
  assert (Hgb : ∀ b, good t b → good t (give_back p b) ∧ potential (give_back p b) ≤ potential b + 60000000000).
  { intros b [H1 H2 H3]. unfold give_back, potential, MILLI. split; [split; simpl; lia|simpl; lia]. }
  unfold refund_one, account, bucket_at in *. destruct over, pl as [k|]; simpl in *; rewrite ?Z.sub_0_r; try done.
  - destruct Ha as [Hg Hk]. destruct (Hgb _ Hg). split; [done|lia].
  - destruct (decide (k = key)) as [->|Hne].
    + rewrite lookup_alter_eq, bool_decide_true by done. destruct (buckets i !! key) as [b|]; simpl; [|lia].
      destruct Ha as [Hg Hk]. destruct (Hgb _ Hg). split; [done|lia].
    + by rewrite lookup_alter_ne, bool_decide_false, Z.sub_0_r by done.
Qed.

Lemma refund_account pl K t i n source r : account pl K t i n → account pl K t (refund p i source r) (n - tokens pl source r).
Proof.
  intros Ha. unfold refund, tokens. rewrite Z.sub_add_distr.
  apply (refund_one_account _ _ _ _ _ source (negb (Z.land r RES_PRIMARY_OVERFLOW =? 0))) in Ha.
  case_match; [|by rewrite Z.sub_0_r]. destruct (wide_of p source); [by apply refund_one_account|by rewrite Z.sub_0_r].
Qed.

(** A reservation: what it says it took is what it took; a refused one took nothing. *)
Lemma acquire_account pl K t now i n source :
  account pl K t i n → t ≤ now →
  account pl K now (acquire p i source now).2
    (n + match (acquire p i source now).1 with Ok r => tokens pl source r | Err _ => 0 end).
Proof.
  intros Ha Ht. unfold acquire, acquire_uncounted.
  pose proof (acquire_one_account pl K t now i n source Ha Ht) as H1.
  destruct (acquire_one p i source now) as [[po|e] i1]; cbn [fst snd] in *; [|exact H1].
  unfold tokens. destruct (wide_of p source) as [w|].
  - pose proof (acquire_one_account pl K now now i1 _ w H1 (Z.le_refl now)) as H2.
    destruct (acquire_one p i1 w now) as [[wo|e] i2]; cbn [fst snd] in *.
    + rewrite <- Z.add_assoc in H2. by destruct po, wo.
    + pose proof (refund_one_account pl K now i2 _ source po H2) as H3. rewrite Z.add_0_r in H3 |- *.
      replace (n + token1 pl source po - token1 pl source po) with n in H3 by lia. exact H3.
  - cbn [fst snd]. destruct po; cbn [Z.land RES_PRIMARY_OVERFLOW RES_WIDE_TAKEN]; rewrite Z.add_0_r; exact H1.
Qed.

(** ** Runs *)

Inductive LimiterOp : Type := OAcquire (source now : Z) | ORefund (source r : Z) | OCharge.

Definition limiter_step (i : Inner) (op : LimiterOp) : Inner :=
  match op with OAcquire s now => (acquire p i s now).2 | ORefund s r => refund p i s r | OCharge => charge i end.

(** The tokens that an operation takes from a place: negative when it gives back. *)
Definition op_tokens (pl : Place) (i : Inner) (op : LimiterOp) : Z :=
  match op with
  | OAcquire s now => match (acquire p i s now).1 with Ok r => tokens pl s r | Err _ => 0 end
  | ORefund s r => - tokens pl s r
  | OCharge => 0
  end.

Fixpoint taken_from (pl : Place) (i : Inner) (ops : list LimiterOp) : Z :=
  match ops with [] => 0 | op :: ops' => op_tokens pl i op + taken_from pl (limiter_step i op) ops' end.

Definition limiter_run (i : Inner) (ops : list LimiterOp) : Inner := foldl limiter_step i ops.

(** The clock does not run backwards, and shows at most [t1]. *)
Fixpoint between (t0 : Z) (ops : list LimiterOp) (t1 : Z) : Prop :=
  match ops with
  | [] => t0 ≤ t1
  | OAcquire _ now :: ops' => t0 ≤ now ∧ between now ops' t1
  | _ :: ops' => between t0 ops' t1
  end.

Lemma run_account pl K ops t i n t1 :
  between t ops t1 → account pl K t i n → account pl K t1 (limiter_run i ops) (n + taken_from pl i ops).
Proof.
  revert t i n. induction ops as [|op ops IH]; intros t i n Hb Ha; simpl in *.
  - rewrite Z.add_0_r. by eapply account_later.
  - rewrite Z.add_assoc. destruct op as [s now|s r|]; simpl.
    + destruct Hb as [Ht Hb]. apply (IH now); [done|]. by apply (acquire_account pl K t).
    + apply (IH t); [done|]. rewrite Z.add_opp_r. by apply refund_account.
    + apply (IH t); [done|]. by rewrite Z.add_0_r.
Qed.

Lemma account_new pl t0 : account pl (60000000 * burst_milli p - refill_per_minute p * t0) t0 (limiter_new p t0) 0.
Proof.
  unfold account. destruct pl; simpl; [rewrite lookup_empty; lia|]. split; [apply fresh_good|]. unfold potential. simpl. lia.
Qed.

Lemma account_bound pl t0 t1 i n :
  account pl (60000000 * burst_milli p - refill_per_minute p * t0) t1 i n →
  n * 60000000000 ≤ burst p * 60000000000 + refill_per_minute p * (t1 - t0).
Proof.
  intros Ha. destruct burst_u32 as [Hb0 _]. unfold account in Ha. unfold burst_milli, MILLI in Ha. destruct (bucket_at pl _) as [b|]; [|lia].
  destruct Ha as [[H1 H2 H3] Hk]. unfold potential in Hk. nia.
Qed.

(** The rate of a source.  Over any run of reservations, refunds and charges between two
    instants, the tokens that a source's bucket gave and did not get back are at most the
    burst and the refill of the time between, and so are those of the overflow bucket;
    sweeps that drop a bucket and the buckets made after them included. *)
Theorem source_rate_bounded pl ops t0 t1 :
  between t0 ops t1 →
  taken_from pl (limiter_new p t0) ops * 60000000000 ≤ burst p * 60000000000 + refill_per_minute p * (t1 - t0).
Proof.
  intros Hb. pose proof (run_account pl _ ops t0 _ 0 t1 Hb (account_new pl t0)) as Ha. rewrite Z.add_0_l in Ha.
  by apply account_bound in Ha.
Qed.

(** ** What a place holds *)

(** The millitokens that a place holds at an instant: a source without a bucket has a full
    one. *)
Definition level (pl : Place) (i : Inner) (now : Z) : Z :=
  match bucket_at pl i with Some b => milli (refill p b now) | None => burst_milli p end.

Definition capped (i : Inner) : Prop := ∀ pl b, bucket_at pl i = Some b → milli b ≤ burst_milli p.

Lemma refill_milli b now : milli b ≤ burst_milli p → ∃ add, 0 ≤ add ∧
  ∀ m, m ≤ burst_milli p → milli (refill p {| milli := m; at_ := at_ b |} now) = Z.min (m + add) (burst_milli p).
Proof.
  intros Hb. pose proof burst_fits. unfold refill, sat_add64. cbn [milli at_]. set (add := Z.min u64_max _ / 60000).
  assert (0 ≤ add) as Ha.
  { unfold add. apply Z.div_pos; [|lia]. apply Z.min_glb; [done|]. apply Z.mul_nonneg_nonneg; [|done].
    apply Z.min_glb; [done|]. apply Z.div_pos; lia. }
  exists add. split; [done|]. intros m Hm. destruct (Z.ltb_spec 0 add); cbn [milli]; lia.
Qed.

Lemma refill_milli_cap b now : milli b ≤ burst_milli p → milli (refill p b now) ≤ burst_milli p.
Proof. intros Hb. destruct (refill_milli b now Hb) as (add & _ & H). specialize (H (milli b) Hb). destruct b. cbn in *. lia. Qed.

Lemma refill_again b now : refill p (refill p b now) now = refill p b now.
Proof.
  unfold refill at 2 3. set (add := Z.min u64_max _ / 60000). destruct (Z.ltb_spec 0 add) as [Hlt|Hge].
  - unfold refill. cbn [at_ milli]. by rewrite Z.sub_diag.
  - unfold refill. fold add. by destruct (Z.ltb_spec 0 add); [lia|].
Qed.

Lemma level_cap i pl now : capped i → level pl i now ≤ burst_milli p.
Proof. intros Hc. unfold level. destruct (bucket_at pl i) as [b|] eqn:Hb; [|lia]. apply refill_milli_cap. by eapply Hc. Qed.

(** A [take] at an instant takes a token or nothing. *)
Lemma take_level b now :
  milli (refill p (take p b now).2 now) = milli (refill p b now) - MILLI * (match (take p b now).1 with Ok _ => 1 | Err _ => 0 end).
Proof.
  unfold take. set (c := refill p b now). assert (refill p c now = c) as Hc by apply refill_again.
  assert (∀ m, refill p {| milli := m; at_ := at_ c |} now = {| milli := m; at_ := at_ c |}) as Hm.
  { intros m. destruct (decide (at_ c = now)) as [Hn|Hn].
    - unfold refill. cbn [at_]. by rewrite Hn, Z.sub_diag.
    - assert (c = b ∧ (Z.min u64_max (Z.min u64_max (Z.max 0 (now - at_ b) / 1000) * refill_per_minute p) / 60000) ≤ 0) as [Hcb Hadd].
      { unfold c, refill in Hn |- *. destruct (Z.ltb_spec 0 (Z.min u64_max (Z.min u64_max (Z.max 0 (now - at_ b) / 1000) * refill_per_minute p) / 60000)); done. }
      unfold refill. cbn [at_ milli]. rewrite Hcb. by destruct (Z.ltb_spec 0 (Z.min u64_max (Z.min u64_max (Z.max 0 (now - at_ b) / 1000) * refill_per_minute p) / 60000)); [lia|]. }
  destruct (MILLI <=? milli c); cbn [fst snd]; [rewrite Hm; cbn [milli]; lia|rewrite Hc; lia].
Qed.

Lemma take_capped b now : milli b ≤ burst_milli p → milli (take p b now).2 ≤ burst_milli p.
Proof.
  intros Hb. pose proof (refill_milli_cap b now Hb). unfold take. destruct (MILLI <=? milli (refill p b now)); cbn [snd milli]; [unfold MILLI; lia|done].
Qed.

Lemma sweep_level i now pl : capped i → level pl (maybe_sweep p i now) now = level pl i now ∧ capped (maybe_sweep p i now).
Proof.
  intros Hc. unfold maybe_sweep. case_match; [done|]. split.
  - unfold level. destruct pl as [k|]; cbn; [|done]. rewrite lookup_omap. destruct (buckets i !! k) as [b|] eqn:Hk; cbn; [|done].
    unfold sweep_bucket. destruct (Z.ltb_spec (milli (refill p b now)) (burst_milli p)); [by rewrite refill_again|].
    pose proof (refill_milli_cap b now (Hc (Own k) b Hk)). lia.
  - intros [k|] b; cbn; [|apply (Hc Shared)]. rewrite lookup_omap. destruct (buckets i !! k) as [b0|] eqn:Hk; cbn; [|done].
    unfold sweep_bucket. destruct (Z.ltb_spec (milli (refill p b0 now)) (burst_milli p)); cbn; [|intros [=]]. intros [= <-]. apply refill_milli_cap. by apply (Hc (Own k)).
Qed.

Lemma set_bucket_level i key b pl now : capped i → milli b ≤ burst_milli p →
  level pl (set_buckets i (<[key := b]> (buckets i))) now = (if decide (pl = Own key) then milli (refill p b now) else level pl i now) ∧
  capped (set_buckets i (<[key := b]> (buckets i))).
Proof.
  intros Hc Hb. split.
  - unfold level. destruct pl as [k|]; cbn; [|by rewrite decide_False]. destruct (decide (k = key)) as [->|Hne].
    + rewrite decide_True by done. by rewrite lookup_insert_eq.
    + rewrite decide_False by congruence. by rewrite lookup_insert_ne.
  - intros [k|] b'; cbn; [|apply (Hc Shared)]. intros [[<- <-]|[_ Hk]]%lookup_insert_Some; [done|by apply (Hc (Own k))].
Qed.

Lemma acquire_one_level i key now pl : capped i →
  level pl (acquire_one p i key now).2 now =
    level pl i now - MILLI * (match (acquire_one p i key now).1 with Ok over => token1 pl key over | Err _ => 0 end) ∧
  capped (acquire_one p i key now).2.
Proof.
  intros Hc. unfold acquire_one. destruct (buckets i !! key) as [b|] eqn:Hk.
  - pose proof (take_level b now) as Ht. pose proof (take_capped b now (Hc (Own key) b Hk)) as Hcap.
    destruct (take p b now) as [r b']. cbn [fst snd] in *. destruct (set_bucket_level i key b' pl now Hc Hcap) as [-> Hc']. split; [|done].
    case_decide as Hpl; [subst pl|].
    + unfold level. cbn [bucket_at]. rewrite Hk, Ht. destruct r; cbn [token1]; rewrite ?bool_decide_true by done; reflexivity.
    + destruct r; [|lia]. destruct pl as [k|]; cbn [token1]; [|cbn; lia]. rewrite bool_decide_false by congruence. cbn. lia.
  - set (i1 := if max_sources p <=? map_len (buckets i) then maybe_sweep p i now else i).
    assert (level pl i1 now = level pl i now ∧ capped i1) as [<- Hc1] by (unfold i1; case_match; [by apply sweep_level|done]).
    assert (buckets i1 !! key = None) as Hk1.
    { unfold i1. case_match; [|done]. unfold maybe_sweep. case_match; [done|]. cbn. by rewrite lookup_omap, Hk. }
    clearbody i1. case_match.
    + pose proof (take_level (overflow i1) now) as Ht. pose proof (take_capped (overflow i1) now (Hc1 Shared _ eq_refl)) as Hcap.
      destruct (take p (overflow i1) now) as [r b']. cbn [fst snd] in *. split.
      * destruct pl as [k|]; unfold level; cbn; [by destruct r; cbn; rewrite ?Z.sub_0_r|]. rewrite Ht. by destruct r.
      * intros [k|] b0; cbn; [apply (Hc1 (Own k))|]. by intros [= <-].
    + pose proof (take_level {| milli := burst_milli p; at_ := now |} now) as Ht.
      pose proof (take_capped {| milli := burst_milli p; at_ := now |} now (Z.le_refl _)) as Hcap.
      destruct (take p _ now) as [r b']. cbn [fst snd] in *. destruct (set_bucket_level i1 key b' pl now Hc1 Hcap) as [-> Hc']. split; [|done].
      assert (refill p {| milli := burst_milli p; at_ := now |} now = {| milli := burst_milli p; at_ := now |}) as Hf
        by (unfold refill; cbn [at_]; by rewrite Z.sub_diag).
      rewrite Hf in Ht. cbn [milli] in Ht. case_decide as Hpl; [subst pl|].
      * unfold level. cbn [bucket_at]. rewrite Hk1, Ht. destruct r; cbn [token1]; rewrite ?bool_decide_true by done; reflexivity.
      * destruct r; [|lia]. destruct pl as [k|]; cbn [token1]; [|cbn; lia]. rewrite bool_decide_false by congruence. cbn. lia.
Qed.

(** What is given back comes on top, up to the burst. *)
Lemma give_back_level b now : milli b ≤ burst_milli p →
  milli (refill p (give_back p b) now) = Z.min (milli (refill p b now) + MILLI) (burst_milli p).
Proof.
  intros Hb. destruct (refill_milli b now Hb) as (add & Ha & Hadd). unfold give_back. rewrite Hadd by lia.
  specialize (Hadd (milli b) Hb). destruct b as [m t]. cbn [milli at_] in *. rewrite Hadd. unfold MILLI. lia.
Qed.

Lemma refund_one_level i key over pl now : capped i →
  level pl (refund_one p i key over) now = Z.min (level pl i now + MILLI * token1 pl key over) (burst_milli p) ∧ capped (refund_one p i key over).
Proof.
  intros Hc. pose proof (level_cap i pl now Hc) as Hle. unfold refund_one. destruct over.
  - split.
    + destruct pl as [k|]; cbn [token1 negb andb]; [rewrite Z.mul_0_r, Z.add_0_r, Z.min_l; done|].
      unfold level. cbn. rewrite give_back_level by (by apply (Hc Shared)). done.
    + intros [k|] b; cbn; [apply (Hc (Own k))|]. intros [= <-]. cbn. lia.
  - split.
    + destruct pl as [k|]; cbn [token1 negb andb]; [|rewrite Z.mul_0_r, Z.add_0_r, Z.min_l; done].
      case_bool_decide as Hk; [subst k|].
      * unfold level. cbn. rewrite lookup_alter_eq. destruct (buckets i !! key) as [b|] eqn:Hb; cbn; [|unfold MILLI; lia].
        by rewrite give_back_level by (by apply (Hc (Own key))).
      * rewrite Z.mul_0_r, Z.add_0_r, Z.min_l by done. unfold level. cbn. by rewrite lookup_alter_ne.
    + intros [k|] b; cbn; [|apply (Hc Shared)]. destruct (decide (k = key)) as [->|Hne].
      * rewrite lookup_alter_eq. destruct (buckets i !! key) as [b0|]; cbn; [|done]. intros [= <-]. cbn. lia.
      * rewrite lookup_alter_ne by done. apply (Hc (Own k)).
Qed.

Lemma level_counters pl i now a b c :
  level pl {| buckets := buckets i; overflow := overflow i; epoch := epoch i; last_sweep_ms := last_sweep_ms i;
              throttled_total := a; overflow_total := b; failures_charged_total := c |} now = level pl i now.
Proof. by destruct pl. Qed.

Lemma capped_counters i a b c : capped i →
  capped {| buckets := buckets i; overflow := overflow i; epoch := epoch i; last_sweep_ms := last_sweep_ms i;
            throttled_total := a; overflow_total := b; failures_charged_total := c |}.
Proof. intros Hc [k|] b0; [apply (Hc (Own k))|apply (Hc Shared)]. Qed.

Lemma token1_nonneg pl key over : 0 ≤ token1 pl key over.
Proof. unfold token1. repeat case_match; lia. Qed.

Lemma tokens_own source r : 1 ≤ tokens (Own source) source r + tokens Shared source r ∧ ∀ pl, 0 ≤ tokens pl source r.
Proof.
  assert (∀ pl, 0 ≤ tokens pl source r) as Hpos.
  { intros pl. unfold tokens. pose proof (token1_nonneg pl source (negb (Z.land r RES_PRIMARY_OVERFLOW =? 0))).
    repeat case_match; try lia. pose proof (token1_nonneg pl z (negb (Z.land r RES_WIDE_OVERFLOW =? 0))). lia. }
  split; [|done].
  assert (token1 (Own source) source (negb (Z.land r RES_PRIMARY_OVERFLOW =? 0)) ≤ tokens (Own source) source r ∧
          token1 Shared source (negb (Z.land r RES_PRIMARY_OVERFLOW =? 0)) ≤ tokens Shared source r) as [H1 H2].
  { unfold tokens. split; repeat case_match; try lia; pose proof (token1_nonneg (Own source) z (negb (Z.land r RES_WIDE_OVERFLOW =? 0)));
      pose proof (token1_nonneg Shared z (negb (Z.land r RES_WIDE_OVERFLOW =? 0))); lia. }
  cbn [token1] in H1, H2. rewrite bool_decide_true, andb_true_r in H1 by done.
  destruct (negb (Z.land r RES_PRIMARY_OVERFLOW =? 0)); cbn [negb] in H1;
    pose proof (Hpos (Own source)); pose proof (Hpos Shared); lia.
Qed.

Lemma refund_level i source r pl now : capped i →
  level pl (refund p i source r) now = Z.min (level pl i now + MILLI * tokens pl source r) (burst_milli p) ∧ capped (refund p i source r).
Proof.
  intros Hc. unfold refund, tokens.
  destruct (refund_one_level i source (negb (Z.land r RES_PRIMARY_OVERFLOW =? 0)) pl now Hc) as [H1 Hc1].
  destruct (negb (Z.land r RES_WIDE_TAKEN =? 0)); [|rewrite Z.add_0_r; done]. destruct (wide_of p source) as [w|]; [|rewrite Z.add_0_r; done].
  destruct (refund_one_level _ w (negb (Z.land r RES_WIDE_OVERFLOW =? 0)) pl now Hc1) as [H2 Hc2]. split; [|done]. rewrite H2, H1.
  pose proof (token1_nonneg pl w (negb (Z.land r RES_WIDE_OVERFLOW =? 0))). unfold MILLI. lia.
Qed.

(** A reservation takes the tokens it says it took, and a refused one takes none. *)
Lemma acquire_level i source now pl : capped i →
  level pl (acquire p i source now).2 now =
    level pl i now - MILLI * (match (acquire p i source now).1 with Ok r => tokens pl source r | Err _ => 0 end) ∧
  capped (acquire p i source now).2.
Proof.
  intros Hc. unfold acquire, acquire_uncounted. destruct (acquire_one_level i source now pl Hc) as [H1 Hc1].
  destruct (acquire_one p i source now) as [[po|e] i1]; cbn [fst snd] in *; [|rewrite level_counters; split; [done|by apply capped_counters]].
  unfold tokens. destruct (wide_of p source) as [w|].
  - destruct (acquire_one_level i1 w now pl Hc1) as [H2 Hc2].
    destruct (acquire_one p i1 w now) as [[wo|e] i2]; cbn [fst snd] in *.
    + split; [|done]. rewrite H2, H1. by destruct po, wo; cbn [Z.land Z.lor negb Z.eqb RES_PRIMARY_OVERFLOW RES_WIDE_TAKEN RES_WIDE_OVERFLOW Pos.land Pos.lor Pos.eqb]; rewrite Z.mul_add_distr_l, Z.sub_add_distr.
    + destruct (refund_one_level i2 source po pl now Hc2) as [H3 Hc3]. rewrite level_counters. split; [|by apply capped_counters].
      rewrite H3, H2, H1. pose proof (level_cap i pl now Hc). unfold MILLI. lia.
  - cbn [fst snd]. split; [|done]. rewrite H1. destruct po; cbn [Z.land negb Z.eqb RES_PRIMARY_OVERFLOW RES_WIDE_TAKEN Pos.land]; by rewrite Z.add_0_r.
Qed.

(** ** Lookups *)

(** SQL ran for the lookup and found no key. *)
Definition in_vain (e : LookupEnd) : bool :=
  match e with NotFound | LookupErr true | Cancelled true => true | _ => false end.

(** The tokens of a place that a lookup under way holds. *)
Definition held_tokens (pl : Place) (l : Z * option Z) : Z := from_option (tokens pl l.1) 0 l.2.

Fixpoint open_tokens (pl : Place) (ls : list (Z * option Z)) : Z :=
  match ls with [] => 0 | l :: ls' => held_tokens pl l + open_tokens pl ls' end.

(** The tokens that lookups in vain kept, over a run. *)
Definition step_kept (pl : Place) (st : Gate) (ev : GateEvent) : Z :=
  match ev with
  | Leave j slot e => match g_open st !! j with Some l => if slot && in_vain e then held_tokens pl l else 0 | None => 0 end
  | Enter _ _ _ => 0
  end.
Fixpoint kept (pl : Place) (st : Gate) (evs : list GateEvent) : Z :=
  match evs with [] => 0 | ev :: evs' => step_kept pl st ev + kept pl (gate_step p st ev).1 evs' end.

(** The lookups under its bucket that a source was let make in vain. *)
Definition step_junk (k : Z) (st : Gate) (ev : GateEvent) : Z :=
  match ev with
  | Leave j true e => match g_open st !! j with Some (s, Some _) => if in_vain e && bool_decide (s = k) then 1 else 0 | _ => 0 end
  | _ => 0
  end.
Fixpoint junk (k : Z) (st : Gate) (evs : list GateEvent) : Z :=
  match evs with [] => 0 | ev :: evs' => step_junk k st ev + junk k (gate_step p st ev).1 evs' end.

Definition gate_new (t0 : Z) : Gate := {| g_inner := limiter_new p t0; g_open := [] |}.

(** The clock does not run backwards, and shows at most [t1]. *)
Fixpoint in_order (t0 : Z) (evs : list GateEvent) (t1 : Z) : Prop :=
  match evs with
  | [] => t0 ≤ t1
  | Enter _ _ now :: evs' => t0 ≤ now ∧ in_order now evs' t1
  | Leave _ _ _ :: evs' => in_order t0 evs' t1
  end.

Lemma held_tokens_nonneg pl l : 0 ≤ held_tokens pl l.
Proof. destruct l as [s [r|]]; cbn; [|done]. by apply tokens_own. Qed.

Lemma open_delete pl ls j l : ls !! j = Some l → open_tokens pl ls = held_tokens pl l + open_tokens pl (delete j ls).
Proof.
  revert j. induction ls as [|x ls IH]; intros j Hj; [done|]. destruct j as [|j]; [injection Hj as ->; done|].
  change (delete (S j) (x :: ls)) with (x :: delete j ls). cbn [open_tokens]. rewrite (IH j Hj). lia.
Qed.

Lemma open_nonneg pl ls : 0 ≤ open_tokens pl ls.
Proof. induction ls as [|l ls IH]; cbn; [done|]. pose proof (held_tokens_nonneg pl l). lia. Qed.

(** What was kept and what is held is on the account. *)
Lemma gate_account pl K st ev t n t1 :
  match ev with Enter _ _ now => t ≤ now ∧ t1 = now | Leave _ _ _ => t1 = t end →
  account pl K t (g_inner st) (n + open_tokens pl (g_open st)) →
  account pl K t1 (g_inner (gate_step p st ev).1) (n + step_kept pl st ev + open_tokens pl (g_open (gate_step p st ev).1)).
Proof.
  destruct ev as [g s now|j slot e]; cbn [gate_step step_kept].
  - intros [Ht ->] Ha. rewrite Z.add_0_r. unfold begin_lookup. case_decide; [|cbn; by eapply account_later].
    pose proof (acquire_account pl K t now _ _ s Ha Ht) as H1.
    destruct (acquire p (g_inner st) s now) as [[r|ra] i1]; cbn [fst snd g_inner g_open open_tokens held_tokens from_option] in *.
    + by replace (n + (tokens pl s r + open_tokens pl (g_open st))) with (n + open_tokens pl (g_open st) + tokens pl s r) by lia.
    + by rewrite Z.add_0_r in H1.
  - intros -> Ha. destruct (g_open st !! j) as [[s held]|] eqn:Hj; [|cbn; by rewrite Z.add_0_r].
    rewrite (open_delete pl _ _ _ Hj) in Ha.
    assert (∀ i, g_inner (let '(r, i') := end_lookup p s held slot e i in ({| g_inner := i'; g_open := delete j (g_open st) |}, Some (s, r))).1 =
      (end_lookup p s held slot e i).2) as Hi by (intros i; by destruct (end_lookup _ _ _ _ _ _)).
    assert (g_open (let '(r, i') := end_lookup p s held slot e (g_inner st) in ({| g_inner := i'; g_open := delete j (g_open st) |}, Some (s, r))).1 =
      delete j (g_open st)) as Ho by (by destruct (end_lookup _ _ _ _ _ _)).
    rewrite Hi, Ho. clear Hi Ho. destruct held as [r|]; unfold held_tokens in *; cbn [fst snd from_option] in *; unfold end_lookup.
    + pose proof (refund_account pl K t (g_inner st) _ s r Ha) as H2.
      replace (n + (tokens pl s r + open_tokens pl (delete j (g_open st))) - tokens pl s r)
        with (n + 0 + open_tokens pl (delete j (g_open st))) in H2 by lia.
      rewrite (Z.add_assoc n) in Ha. destruct slot; cbn [andb snd]; [|exact H2]. by destruct e as [| |[]|[]]; cbn [in_vain snd].
    + rewrite Z.add_0_l in Ha. destruct slot; cbn [andb snd]; destruct (in_vain e); by rewrite Z.add_0_r.
Qed.

Lemma gate_run_account pl K evs t st n t1 : in_order t evs t1 →
  account pl K t (g_inner st) (n + open_tokens pl (g_open st)) →
  account pl K t1 (g_inner (gate_run p st evs)) (n + kept pl st evs + open_tokens pl (g_open (gate_run p st evs))).
Proof.
  revert t st n. induction evs as [|ev evs IH]; intros t st n Hb Ha; cbn [in_order gate_run kept] in *.
  - rewrite Z.add_0_r. by eapply account_later.
  - rewrite Z.add_assoc. destruct ev as [g s now|j slot e].
    + destruct Hb as [Ht Hb]. apply (IH now); [done|]. by apply (gate_account pl K st _ t).
    + apply (IH t); [done|]. by apply (gate_account pl K st _ t).
Qed.

Lemma account_new_gate pl t0 evs t1 : in_order t0 evs t1 →
  account pl (60000000 * burst_milli p - refill_per_minute p * t0) t1 (g_inner (gate_run p (gate_new t0) evs))
    (kept pl (gate_new t0) evs + open_tokens pl (g_open (gate_run p (gate_new t0) evs))).
Proof. intros Hb. apply (gate_run_account pl _ evs t0 (gate_new t0) 0 t1 Hb). cbn. apply account_new. Qed.

Lemma gate_capped t0 evs t1 : in_order t0 evs t1 → capped (g_inner (gate_run p (gate_new t0) evs)).
Proof.
  intros Hb pl b Hpl. pose proof (account_new_gate pl t0 evs t1 Hb) as Ha. unfold account in Ha. rewrite Hpl in Ha. apply Ha.
Qed.

Lemma junk_kept k evs st : junk k st evs ≤ kept (Own k) st evs + kept Shared st evs.
Proof.
  revert st. induction evs as [|ev evs IH]; intros st; cbn [junk kept]; [lia|]. specialize (IH (gate_step p st ev).1).
  enough (step_junk k st ev ≤ step_kept (Own k) st ev + step_kept Shared st ev) by lia.
  destruct ev as [g s now|j slot e]; cbn [step_junk step_kept]; [lia|].
  destruct (g_open st !! j) as [l|]; [|by destruct slot].
  pose proof (held_tokens_nonneg (Own k) l) as P1. pose proof (held_tokens_nonneg Shared l) as P2.
  destruct slot; cbn [andb]; [|lia]. destruct (in_vain e); cbn [andb]; destruct l as [s [r|]]; try lia.
  case_bool_decide as Hk; [|lia]. subst k. cbn [held_tokens from_option fst snd]. by apply tokens_own.
Qed.

(** What the end of a lookup does to a place: a lookup in vain keeps its tokens, any other
    gives them back. *)
Lemma leave_level i s held slot e pl now : capped i →
  level pl (end_lookup p s held slot e i).2 now =
    if slot && in_vain e then level pl i now else Z.min (level pl i now + MILLI * held_tokens pl (s, held)) (burst_milli p).
Proof.
  intros Hc. pose proof (level_cap i pl now Hc) as Hle. unfold end_lookup. destruct held as [r|]; cbn [held_tokens from_option fst snd].
  - destruct (refund_level i s r pl now Hc) as [Hr _]. destruct slot; cbn [andb snd]; [|done].
    destruct e as [| |[]|[]]; cbn [in_vain]; done.
  - rewrite Z.mul_0_r, Z.add_0_r, Z.min_l by done. by destruct slot, (in_vain e).
Qed.

(** C32. Junk keys cost a bounded number of lookups, and only they cost.  Over any run of
    lookups between two instants, any number of them under way at once, the tokens that a
    place, the bucket of a source or the overflow bucket, gave to lookups that ran SQL in
    vain and to those under way are at most the burst and the refill of the time between;
    so the lookups of a source under its bucket for which SQL ran and found no key (an
    error or a cancellation after SQL started included) are at most twice that: each is
    paid for from the source's own bucket or, when the map is full, from the one overflow
    bucket, whatever is swept and made again in between.  At any point of the run, a lookup
    that begins takes exactly the tokens it then holds, and none when it is refused; one
    that ends leaves every place as it is if it ran SQL in vain, and otherwise, when it
    found a key, ran no SQL or got no slot, gives back all it holds, up to the burst. *)
Theorem junk_lookups_bounded k evs t0 t1 :
  in_order t0 evs t1 →
  let st := gate_run p (gate_new t0) evs in
  let bound := burst p * 60000000000 + refill_per_minute p * (t1 - t0) in
  (∀ pl, (kept pl (gate_new t0) evs + open_tokens pl (g_open st)) * 60000000000 ≤ bound) ∧
  junk k (gate_new t0) evs * 60000000000 ≤ 2 * bound ∧
  (∀ g s now pl, level pl (begin_lookup p g s now (g_inner st)).2 now =
     level pl (g_inner st) now - MILLI * (match (begin_lookup p g s now (g_inner st)).1 with Ok held => held_tokens pl (s, held) | Err _ => 0 end)) ∧
  (∀ j s held slot e now pl, g_open st !! j = Some (s, held) →
     level pl (g_inner (gate_step p st (Leave j slot e)).1) now =
       if slot && in_vain e then level pl (g_inner st) now
       else Z.min (level pl (g_inner st) now + MILLI * held_tokens pl (s, held)) (burst_milli p)).
Proof.
  intros Hb st bound. pose proof (gate_capped t0 evs t1 Hb) as Hc.
  assert (∀ pl, (kept pl (gate_new t0) evs + open_tokens pl (g_open st)) * 60000000000 ≤ bound) as Hpl
    by (intros pl; apply (account_bound pl t0 t1 (g_inner st)); by apply account_new_gate).
  split_and!; [exact Hpl| | |].
  - pose proof (junk_kept k evs (gate_new t0)). pose proof (Hpl (Own k)). pose proof (Hpl Shared).
    pose proof (open_nonneg (Own k) (g_open st)). pose proof (open_nonneg Shared (g_open st)). lia.
  - intros g s now pl. unfold begin_lookup. case_decide; cbn [fst snd held_tokens from_option]; [|lia].
    destruct (acquire_level (g_inner st) s now pl Hc) as [H1 _]. by destruct (acquire p (g_inner st) s now) as [[r|ra] i1].
  - intros j s held slot e now pl Hj. cbn [gate_step]. rewrite Hj. rewrite <- (leave_level (g_inner st) s held slot e pl now Hc).
    by destruct (end_lookup p s held slot e (g_inner st)).
Qed.

(** ** Waiting *)

(** The seconds of a refusal cover what is missing, in spite of the two roundings. *)
Lemma wait_covers missing rate : 0 < missing ≤ 1000 → 1 ≤ rate →
  missing * 60000 ≤ Z.max 1 ((missing * 60000 / rate + 999999) / 1000000) * 1000000 * rate.
Proof.
  intros Hm Hr. set (q := missing * 60000 / rate). set (s := Z.max 1 ((q + 999999) / 1000000)).
  pose proof (Z.div_mod (missing * 60000) rate ltac:(lia)) as Hq. fold q in Hq.
  pose proof (Z.mod_pos_bound (missing * 60000) rate ltac:(lia)) as Hmod. set (r := (missing * 60000) mod rate) in *.
  assert (q ≤ s * 1000000) as Hs.
  { unfold s. pose proof (Z.mul_succ_div_gt (q + 999999) 1000000 ltac:(lia)). lia. }
  destruct (Z.le_gt_cases 60 rate) as [Hbig|Hsmall]; [assert (1 ≤ s) by (unfold s; lia); nia|].
  destruct (decide (s * 1000000 = q)) as [He|Hne]; [|assert (q + 1 ≤ s * 1000000) by lia; nia].
  rewrite He. assert (r = 20000 * (3 * missing - 50 * s * rate)) by nia. nia.
Qed.

Lemma take_after_wait t now b s b' later :
  1 ≤ refill_per_minute p → 1 ≤ burst p → good t b → t ≤ now → take p b now = (Err s, b') → now + s * 1000000000 ≤ later →
  ∃ b'', take p b' later = (Ok (), b'').
Proof.
  intros Hr Hb Hg Ht Htk Hl. pose proof (take_spec t now b Hg Ht) as [Hg' _]. rewrite Htk in Hg'. cbn [snd] in Hg'.
  pose proof (refill_spec now later b' Hg') as Hrf. unfold take in Htk. fold (refill p b now) in Htk.
  destruct (MILLI <=? milli (refill p b now)) eqn:Hm; [discriminate|]. injection Htk as <- <-. set (b1 := refill p b now) in *.
  unfold MILLI in *. apply Z.leb_gt in Hm. destruct Hg' as [G1 G2 G3].
  pose proof (wait_covers (1000 - milli b1) (refill_per_minute p) ltac:(lia) Hr) as Hw.
  rewrite (Z.max_r 1 (refill_per_minute p)) in Hl by lia.
  set (s := Z.max 1 (((1000 - milli b1) * 60000 / refill_per_minute p + 999999) / 1000000)) in *.
  assert (1 ≤ s) as Hs1 by (unfold s; lia). clearbody s.
  assert (1000 ≤ milli (refill p b1 later)) as Henough.
  { unfold refill. set (us := Z.min _ (Z.max 0 _ / 1000)). assert (Z.min u64_max (s * 1000000) ≤ us) as Hus.
    { unfold us. pose proof (Z.div_le_mono (s * 1000000000) (Z.max 0 (later - at_ b1)) 1000 ltac:(lia) ltac:(lia)) as Hd.
      replace (s * 1000000000) with (s * 1000000 * 1000) in Hd by lia. rewrite Z.div_mul in Hd by lia. lia. }
    assert (1000 - milli b1 ≤ Z.min u64_max (us * refill_per_minute p) / 60000) as Hadd.
    { apply Z.div_le_lower_bound; [lia|]. assert (60000 * 1000 ≤ u64_max) by (by vm_compute).
      assert ((1000 - milli b1) * 60000 ≤ us * refill_per_minute p); [|lia].
      destruct (Z.min_spec u64_max (s * 1000000)) as [[? Hmin]|[? Hmin]]; rewrite Hmin in Hus; nia. }
    pose proof burst_fits as Hfit. unfold sat_add64, burst_milli, MILLI in *. destruct (0 <? _) eqn:Hz; cbn [milli]; lia. }
  unfold take. unfold MILLI. fold (refill p b1 later). rewrite (proj2 (Z.leb_le _ _) Henough). eauto.
Qed.

Lemma account_good pl K t i n b : account pl K t i n → bucket_at pl i = Some b → good t b.
Proof. unfold account. intros Ha Hb. rewrite Hb in Ha. by destruct Ha. Qed.

Lemma fresh_take now : 1 ≤ burst p → ∃ b, take p {| milli := burst_milli p; at_ := now |} now = (Ok (), b).
Proof.
  intros Hb. pose proof (refill_spec now now _ (fresh_good now) ltac:(lia)) as (_ & _ & Hm). cbn [milli] in Hm.
  unfold take. destruct (MILLI <=? _) eqn:He; [eauto|]. unfold burst_milli, MILLI in *. lia.
Qed.

Lemma maybe_sweep_overflow i now : overflow (maybe_sweep p i now) = overflow i.
Proof. unfold maybe_sweep. by case_match. Qed.

Lemma acquire_one_after_wait t now later i key s i' :
  1 ≤ refill_per_minute p → 1 ≤ burst p → (∀ b, buckets i !! key = Some b → good t b) → good t (overflow i) → t ≤ now →
  acquire_one p i key now = (Err s, i') → now + s * 1000000000 ≤ later → ∃ over, (acquire_one p i' key later).1 = Ok over.
Proof.
  intros Hr Hb Hgk Hgo Ht Ha Hl. unfold acquire_one in Ha. destruct (buckets i !! key) as [b|] eqn:Hk.
  - destruct (take p b now) as [[[]|s0] b'] eqn:Htk; simplify_eq. unfold acquire_one. cbn [set_buckets buckets]. rewrite lookup_insert_eq.
    destruct (take_after_wait t now b s b' later) as [b'' Hok]; eauto. rewrite Hok. by exists false.
  - set (i1 := if max_sources p <=? map_len (buckets i) then maybe_sweep p i now else i) in *.
    assert (overflow i1 = overflow i ∧ buckets i1 !! key = None) as [Ho Hk1].
    { unfold i1. destruct (_ <=? _); [|by split]. split; [apply maybe_sweep_overflow|]. unfold maybe_sweep.
      destruct (_ && _); [done|]. cbn [buckets]. by rewrite lookup_omap, Hk. }
    clearbody i1. case_match; [|by destruct (fresh_take now Hb) as [b0 Hf]; rewrite Hf in Ha].
    destruct (take p (overflow i1) now) as [[[]|s0] b'] eqn:Htk; simplify_eq.
    unfold acquire_one. cbn [set_overflow buckets]. rewrite Hk1. rewrite Ho in Htk.
    destruct (take_after_wait t now (overflow i) s b' later) as [b'' Hok]; eauto.
    case_match.
    + set (i2 := if _ : bool then _ else _). assert (overflow i2 = b') as -> by (unfold i2; case_match; [by rewrite maybe_sweep_overflow|done]).
      rewrite Hok. by exists true.
    + destruct (fresh_take later Hb) as [b0 Hf]. rewrite Hf. by exists false.
Qed.

Lemma acquire_one_counters i key now a b c :
  (acquire_one p {| buckets := buckets i; overflow := overflow i; epoch := epoch i; last_sweep_ms := last_sweep_ms i;
      throttled_total := a; overflow_total := b; failures_charged_total := c |} key now).1 = (acquire_one p i key now).1.
Proof.
  destruct i as [m o ep ls x y z].
  cbv beta iota zeta delta [acquire_one maybe_sweep set_buckets set_overflow buckets overflow epoch last_sweep_ms throttled_total
    overflow_total failures_charged_total].
  destruct (m !! key) as [bk|]; [by destruct (take p bk now)|].
  repeat (match goal with |- context [if ?c then _ else _] => destruct c eqn:? end; cbv beta iota);
    try congruence; match goal with |- context [take p ?b0 now] => by destruct (take p b0 now) end.
Qed.

(** An answer to wait is kept.  After any run, a source without a second bucket (every
    IPv4 source) that is refused and comes again after the seconds of its answer, with
    nothing in between, is given its token. *)
Theorem retry_after_is_kept ops t0 t now source s i' later :
  1 ≤ refill_per_minute p → 1 ≤ burst p → between t0 ops t → t ≤ now → wide_of p source = None →
  acquire p (limiter_run (limiter_new p t0) ops) source now = (Err s, i') → now + s * 1000000000 ≤ later →
  ∃ r, (acquire p i' source later).1 = Ok r.
Proof.
  intros Hr Hb Hops Ht Hw Ha Hl. set (i := limiter_run _ ops) in *.
  pose proof (run_account (Own source) _ ops t0 _ 0 t Hops (account_new _ t0)) as HA.
  pose proof (run_account Shared _ ops t0 _ 0 t Hops (account_new _ t0)) as HS. fold i in HA, HS.
  unfold acquire, acquire_uncounted in *. rewrite Hw in *. destruct (acquire_one p i source now) as [[o|e] i1] eqn:H1; [discriminate|].
  injection Ha as -> <-.
  destruct (acquire_one_after_wait t now later i source s i1) as [over Hok]; try done.
  { intros b Hk. by apply (account_good (Own source) _ t i _ b HA). }
  { by apply (account_good Shared _ t i _ _ HS). }
  set (i2 := {| buckets := buckets i1; throttled_total := _ |}).
  assert ((acquire_one p i2 source later).1 = Ok over) as Hsame by (rewrite <- Hok; apply acquire_one_counters).
  destruct (acquire_one p i2 source later) as [[o|e'] i3]; [|done]. eexists. reflexivity.
Qed.

(** ** Memory *)

Lemma size_omap_le (f : Bucket → option Bucket) (m : gmap Z Bucket) : (size (omap f m) ≤ size m)%nat.
Proof. rewrite <- !size_dom. apply subseteq_size, dom_omap_subseteq. Qed.

Definition bounded_map (i : Inner) : Prop := map_len (buckets i) ≤ max_sources p.

Lemma acquire_one_size i key now : bounded_map i → bounded_map (acquire_one p i key now).2.
Proof.
  unfold bounded_map, acquire_one, map_len. intros Hi. destruct (buckets i !! key) as [b|] eqn:Hk.
  - destruct (take p b now). cbn. by rewrite map_size_insert_Some by eauto.
  - set (i1 := if max_sources p <=? Z.of_nat (size (buckets i)) then maybe_sweep p i now else i).
    assert (Z.of_nat (size (buckets i1)) ≤ max_sources p ∧ buckets i1 !! key = None) as [Hi1 Hk1].
    { unfold i1, maybe_sweep. destruct (_ <=? Z.of_nat _); [|by split]. destruct (_ && _); [by split|].
      cbn [buckets]. rewrite lookup_omap, Hk. split; [|done]. pose proof (size_omap_le (sweep_bucket p now) (buckets i)). lia. }
    case_match; [by destruct (take p (overflow i1) now)|]. destruct (take p _ now). cbn [set_buckets snd buckets].
    rewrite map_size_insert_None by done. lia.
Qed.

Lemma refund_one_size i key over : bounded_map i → bounded_map (refund_one p i key over).
Proof.
  unfold bounded_map, refund_one, map_len. destruct over; cbn [set_overflow set_buckets buckets]; [done|].
  by rewrite <- !size_dom, dom_alter_L.
Qed.

(** The map of buckets never outgrows its bound. *)
Theorem sources_bounded ops t0 : 0 ≤ max_sources p → bounded_map (limiter_run (limiter_new p t0) ops).
Proof.
  intros Hm. assert (bounded_map (limiter_new p t0)) as Hi by (unfold bounded_map, map_len; cbn; rewrite map_size_empty; lia).
  revert Hi. generalize (limiter_new p t0). induction ops as [|op ops IH]; intros i Hi; [done|]. apply IH. clear IH.
  destruct op as [s now|s r|]; cbn [limiter_step].
  - unfold acquire, acquire_uncounted. pose proof (acquire_one_size i s now Hi) as H1.
    destruct (acquire_one p i s now) as [[o|e] i1]; cbn [snd] in *; [|exact H1].
    destruct (wide_of p s) as [w|]; [|exact H1]. pose proof (acquire_one_size i1 w now H1) as H2.
    destruct (acquire_one p i1 w now) as [[o'|e] i2]; cbn [snd] in *; [exact H2|]. by apply (refund_one_size _ s o) in H2.
  - unfold refund. apply (refund_one_size _ s (negb (Z.land r RES_PRIMARY_OVERFLOW =? 0))) in Hi.
    case_match; [|done]. destruct (wide_of p s); [by apply refund_one_size|done].
  - exact Hi.
Qed.
End rates.

(** ** The source of a request *)

Lemma tag_plus k x : 0 ≤ x < 2 ^ 64 → Z.lor (Z.shiftl k 64) x = k * 2 ^ 64 + x.
Proof.
  intros Hx. assert (Z.land (Z.shiftl k 64) x = 0) as Hl.
  { apply Z.bits_inj'. intros n Hn. rewrite Z.land_spec, Z.bits_0, Z.shiftl_spec by lia.
    destruct (Z.lt_ge_cases n 64) as [Hlt|Hge]; [by rewrite (Z.testbit_neg_r k) by lia|].
    rewrite (Z.bits_above_log2 x n), andb_false_r; [done|lia|].
    destruct (decide (x = 0)) as [->|]; [simpl; lia|]. apply Z.log2_lt_pow2; [lia|]. apply (Z.lt_le_trans _ (2 ^ 64)); [lia|].
    by apply Z.pow_le_mono_r. }
  rewrite <- Z.lxor_lor by done. rewrite <- Z.add_nocarry_lxor by done. by rewrite Z.shiftl_mul_pow2.
Qed.

Lemma clamp_bounds l : 1 ≤ clamp 1 64 l ≤ 64.
Proof. unfold clamp. lia. Qed.

(** The key of an IPv6 source is its network. *)
Lemma v6_net_eq a l : 0 ≤ a < 2 ^ 128 →
  v6_net a l = 6 * 2 ^ 64 + a / 2 ^ (128 - clamp 1 64 l) * 2 ^ (64 - clamp 1 64 l) ∧
  0 ≤ a / 2 ^ (128 - clamp 1 64 l) * 2 ^ (64 - clamp 1 64 l) < 2 ^ 64.
Proof.
  intros Ha. unfold v6_net. pose proof (clamp_bounds l) as Hc. set (c := clamp 1 64 l) in *. clearbody c.
  assert (Z.shiftr (Z.land a (Z.land (Z.shiftl u128_max (128 - c)) u128_max)) 64 = Z.shiftl (Z.shiftr a (128 - c)) (64 - c)) as ->.
  { apply Z.bits_inj'. intros n Hn. unfold u128_max. change (2 ^ 128 - 1) with (Z.ones 128).
    rewrite Z.shiftr_spec, !Z.land_spec, !Z.shiftl_spec by lia.
    destruct (Z.lt_ge_cases n (64 - c)) as [Hlt|Hge].
    - rewrite (Z.testbit_neg_r (Z.ones 128)), (Z.testbit_neg_r (Z.shiftr a _)) by lia. by rewrite andb_false_r.
    - rewrite Z.shiftr_spec by lia. replace (n - (64 - c) + (128 - c)) with (n + 64) by lia.
      destruct (Z.lt_ge_cases n 64) as [Hn64|Hn64].
      + rewrite !Z.ones_spec_low by lia. by rewrite !andb_true_r.
      + rewrite (Z.bits_above_log2 a (n + 64)); [done|lia|]. destruct (decide (a = 0)) as [->|]; [simpl; lia|].
        apply Z.log2_lt_pow2; [lia|]. apply (Z.lt_le_trans _ (2 ^ 128)); [lia|]. apply Z.pow_le_mono_r; lia. }
  rewrite (Z.shiftl_mul_pow2 (Z.shiftr a _)), Z.shiftr_div_pow2 by lia.
  assert (0 ≤ a / 2 ^ (128 - c) < 2 ^ c) as Hd.
  { split; [apply Z.div_pos; [lia|by apply Z.pow_pos_nonneg; lia]|]. apply Z.div_lt_upper_bound; [apply Z.pow_pos_nonneg; lia|].
    rewrite <- Z.pow_add_r by lia. replace (128 - c + c) with 128 by lia. lia. }
  assert (0 ≤ a / 2 ^ (128 - c) * 2 ^ (64 - c) < 2 ^ 64) as Hb.
  { replace (2 ^ 64) with (2 ^ c * 2 ^ (64 - c)) by (rewrite <- Z.pow_add_r by lia; f_equal; lia).
    assert (0 < 2 ^ (64 - c)) by (apply Z.pow_pos_nonneg; lia). nia. }
  split; [|done]. by rewrite tag_plus.
Qed.

(** Sources are networks.  Two addresses are one source exactly when they are the same
    IPv4 address (IPv4-mapped IPv6 included) or lie in the same IPv6 network of the
    configured length; and no address is the source of a request without one. *)
Theorem sources_are_networks a b l :
  ip_wf a → ip_wf b →
  (of_ip a l = of_ip b l ↔
   match to_canonical a, to_canonical b with
   | V4 x, V4 y => x = y
   | V6 x, V6 y => x / 2 ^ (128 - clamp 1 64 l) = y / 2 ^ (128 - clamp 1 64 l)
   | _, _ => False
   end) ∧ of_ip a l ≠ UNKNOWN.
Proof.
  intros Ha%canonical_wf Hb%canonical_wf. unfold of_ip, v4, UNKNOWN. pose proof (clamp_bounds l) as Hc.
  assert (0 < 2 ^ (64 - clamp 1 64 l)) as Hpow by (apply Z.pow_pos_nonneg; lia).
  destruct (to_canonical a) as [x|x], (to_canonical b) as [y|y]; cbn [ip_wf] in *.
  - rewrite !tag_plus by lia. split; [split; intros; lia|lia].
  - rewrite tag_plus by lia. destruct (v6_net_eq y l Hb) as [-> Hy]. split; [split; [lia|done]|lia].
  - rewrite tag_plus by lia. destruct (v6_net_eq x l Ha) as [-> Hx]. split; [split; [lia|done]|lia].
  - destruct (v6_net_eq x l Ha) as [-> Hx], (v6_net_eq y l Hb) as [-> Hy]. split; [split; [nia|by intros ->]|lia].
Qed.

Lemma split_on_nil c s : split_on c s ≠ [].
Proof. destruct s; simpl; repeat case_match; done. Qed.

Lemma split_on_free c s : c ∉ s → split_on c s = [s].
Proof.
  induction s as [|b s IH]; intros Hc; [done|]. apply not_elem_of_cons in Hc as [Hb Hc]. simpl.
  rewrite decide_False by congruence. by rewrite (IH Hc).
Qed.

(** The last entry is what stands behind the last comma. *)
Lemma last_split c pre v : c ∉ v → last (split_on c (pre ++ c :: v)) = Some v.
Proof.
  intros Hv. induction pre as [|b pre IH]; simpl.
  - rewrite decide_True by done. by rewrite split_on_free.
  - case_decide.
    + destruct (split_on c (pre ++ c :: v)) eqn:He; [by apply split_on_nil in He|]. done.
    + destruct (split_on c (pre ++ c :: v)) as [|part parts] eqn:He; [by apply split_on_nil in He|].
      destruct parts as [|part' parts]; [|done]. exfalso.
      assert (1 < length (split_on c (pre ++ c :: v)))%nat as Hlen.
      { clear. induction pre as [|b' pre IHp]; simpl.
        - rewrite decide_True by done. simpl. destruct (split_on c v) eqn:Hs; [by apply split_on_nil in Hs|simpl; lia].
        - case_decide; [simpl; lia|]. destruct (split_on c (pre ++ c :: v)); simpl in *; lia. }
      rewrite He in Hlen. simpl in Hlen. lia.
Qed.

(** A peer is a proxy when a trusted network contains it. *)
Definition trusted_peer (p : AuthThrottlePolicy) (peer : IpAddr) : bool :=
  existsb (λ c, proxy_contains c (to_canonical peer)) (trusted_proxy_cidrs p).

(** A forwarding header is believed only from a proxy, and only what the proxy wrote.
    From any other peer the client is the peer, whatever headers it sends.  From a proxy
    it is the address in the configured header when that holds one; else the last entry of
    the last [x-forwarded-for] line, whatever the client wrote in front of it, on that line
    and on the lines before, when it is an address; else the proxy. *)
Theorem forwarded_by_proxy_only p peer h lines pre v :
  ","%byte ∉ v → forallb visible (pre ++ ","%byte :: v) = true →
  (trusted_peer p peer = false → client_ip h (Some peer) p = Some (to_canonical peer)) ∧
  (trusted_peer p peer = true → client_ip_header p ≠ [] → is_Some (header_ip h (client_ip_header p)) →
   client_ip h (Some peer) p = header_ip h (client_ip_header p)) ∧
  (trusted_peer p peer = true → client_ip_header p = [] ∨ header_ip h (client_ip_header p) = None →
   get_all h (lit "x-forwarded-for") = lines ++ [pre ++ ","%byte :: v] →
   client_ip h (Some peer) p = Some (default (to_canonical peer) (ip_parse (trim v)))).
Proof.
  intros Hv Hvis. unfold client_ip, trusted_peer. cbn [fmap option_fmap option_map from_option].
  split_and!; intros Ht; rewrite Ht; [done| |].
  - intros Hne [ip Hip]. rewrite bool_decide_false by done. by rewrite Hip.
  - intros Hno Hl.
    assert ((if bool_decide (client_ip_header p = []) then None else header_ip h (client_ip_header p)) = None) as ->
      by (destruct Hno as [->| ->]; [done|by case_match]).
    unfold rightmost_forwarded, to_str. rewrite Hl, last_snoc. cbn [mbind option_bind]. rewrite Hvis. cbn [mbind option_bind].
    rewrite last_split by done. cbn [mbind option_bind or_else_ip]. by destruct (ip_parse (trim v)).
Qed.

(** ** Witnesses *)

Definition small_policy : AuthThrottlePolicy :=
  {| burst := 3; refill_per_minute := 60; max_sources := 1; ipv6_prefix_len := 64; ipv6_wide_prefix_len := 48; sweep_interval_ms := 1000;
     cold_lookup_pool_pct := 25; trusted_proxy_cidrs := omap proxy_cidr_parse [lit "127.0.0.0/8"; lit "fc00::/7"];
     client_ip_header := lit "cf-connecting-ip" |}.

(** A lookup that begins, and one in vain that ends. *)
Definition enters (s : Z) : GateEvent := Enter Source s 5.
Definition in_vain_ends : GateEvent := Leave 0 true NotFound.

(** Three lookups of a source that are under way at once, one of another, whose bucket the
    map has no room for, and one of the first that is refused; then they end in vain, but
    for one that found a key. *)
Definition flood : list GateEvent :=
  [enters 9; enters 8; enters 9; enters 9; enters 9; in_vain_ends; Leave 0 true Found; in_vain_ends; in_vain_ends].

Lemma junk_lookups_bounded_witness :
  junk small_policy 9 (gate_new small_policy 0) flood * 60000000000 ≤ 2 * (3 * 60000000000 + 60 * (5 - 0)) ∧
  level small_policy (Own 9) (g_inner (gate_step small_policy (gate_run small_policy (gate_new small_policy 0) (firstn 6 flood)) (Leave 0 true Found)).1) 5 =
    Z.min (level small_policy (Own 9) (g_inner (gate_run small_policy (gate_new small_policy 0) (firstn 6 flood))) 5 +
      MILLI * held_tokens small_policy (Own 9) (9, Some 0)) (burst_milli small_policy).
Proof.
  split.
  - apply (junk_lookups_bounded small_policy ltac:(split; done) ltac:(done) 9 flood 0 5). cbn. lia.
  - destruct (junk_lookups_bounded small_policy ltac:(split; done) ltac:(done) 9 (firstn 6 flood) 0 5) as (_ & _ & _ & Hl); [cbn; lia|].
    assert (g_open (gate_run small_policy (gate_new small_policy 0) (firstn 6 flood)) !! 0%nat = Some (9, Some 0)) as Hj by (vm_compute; reflexivity).
    pose proof (Hl 0%nat 9 (Some 0) true Found 5 (Own 9) Hj) as Hlevel. assert (true && in_vain Found = false) as Hf by reflexivity.
    rewrite Hf in Hlevel. exact Hlevel.
Defined.

Example flood_is_cut :
  junk small_policy 9 (gate_new small_policy 0) flood = 2 ∧
  level small_policy (Own 9) (g_inner (gate_run small_policy (gate_new small_policy 0) flood)) 5 = 1000.
Proof. vm_compute. done. Qed.

Definition spent : list LimiterOp := replicate 3 (OAcquire 9 0).

Lemma retry_after_is_kept_witness :
  (acquire small_policy (limiter_run small_policy (limiter_new small_policy 0) spent) 9 0).1 = Err 1 ∧
  ∃ r, (acquire small_policy (acquire small_policy (limiter_run small_policy (limiter_new small_policy 0) spent) 9 0).2 9 1000000000).1 = Ok r.
Proof.
  split; [reflexivity|].
  apply (retry_after_is_kept small_policy ltac:(split; done) ltac:(done) spent 0 0 0 9 1
           (acquire small_policy (limiter_run small_policy (limiter_new small_policy 0) spent) 9 0).2 1000000000).
  - done.
  - done.
  - cbn. lia.
  - done.
  - reflexivity.
  - reflexivity.
  - done.
Defined.

Lemma sources_are_networks_witness :
  of_ip (V6 0x20010db8000000010000000000000001) 64 = of_ip (V6 0x20010db80000000100000000000000ff) 64 ∧
  of_ip (V6 0xffff0a000001) 64 = of_ip (V4 0x0a000001) 64.
Proof.
  split; apply sources_are_networks; (split; lia) || reflexivity.
Defined.

Lemma forwarded_by_proxy_only_witness :
  client_ip [(lit "x-forwarded-for", lit "1.1.1.1, 2.2.2.2")] (Some (V4 0x7f000001)) small_policy = Some (V4 0x02020202) ∧
  client_ip [(lit "cf-connecting-ip", lit "1.1.1.1")] (Some (V4 0x08080808)) small_policy = Some (V4 0x08080808).
Proof.
  split.
  - destruct (forwarded_by_proxy_only small_policy (V4 0x7f000001) [(lit "x-forwarded-for", lit "1.1.1.1, 2.2.2.2")] []
                (lit "1.1.1.1") (lit " 2.2.2.2")) as (_ & _ & H).
    + apply (bool_decide_unpack _). vm_compute. exact I.
    + reflexivity.
    + rewrite (H eq_refl (or_intror eq_refl) eq_refl). reflexivity.
  - destruct (forwarded_by_proxy_only small_policy (V4 0x08080808) [(lit "cf-connecting-ip", lit "1.1.1.1")] []
                (lit "1.1.1.1") (lit " 2.2.2.2")) as (H & _ & _).
    + apply (bool_decide_unpack _). vm_compute. exact I.
    + reflexivity.
    + exact (H eq_refl).
Defined.
