(* ===== verification/StrictJson.v ===== *)
(** * The strict JSON parse

    [crates/gateway/src/strict_json.rs]: the visitor that builds a [serde_json::Value] and
    refuses a key repeated in any object, at any depth; the path of the refusal; the rule
    for the content type.

    The parser that calls the visitor is [serde_json]'s: what it finds in a text is an
    argument, a [Doc], the calls it makes in their order.  An array or object that is not
    [closed] ends in an error of the parser after the members listed, and [DBad] is a value
    that the parser refuses.  Keys are decoded.  A number that is not finite is [None].

    The theorems: what is accepted has one reading, whichever copy of a key a reader keeps;
    the path of a refusal leads to a key that is repeated; the path is short. *)

From Stdlib Require Import ZArith Lia Sorted.
From stdpp Require Import base list option strings.
From S2P Require Import Prelude BTree Encoding Json Glob PreAuth.
Local Open Scope Z_scope.

Definition RAW_VALUE_TOKEN : bytes := lit "$serde_json::private::RawValue".
Definition DUPLICATE_KEY_CODE : bytes := lit "duplicate_json_key".
Definition MAX_SEGMENT_CHARS : nat := 64.
Definition MAX_PATH_CHARS : nat := 256.

(** One step of a path. *)
Inductive Seg : Type := SKey (k : bytes) | SIndex (i : nat).

Section strict.
Context `{JsonNumber}.

Inductive Doc : Type :=
  | DNull
  | DBool (b : bool)
  | DNumber (n : option number)
  | DString (s : bytes)
  | DArray (items : list Doc) (closed : bool)
  | DObject (members : list (bytes * Doc)) (closed : bool)
  | DBad.

Lemma Doc_nested_ind (P : Doc → Prop) :
  P DNull → (∀ b, P (DBool b)) → (∀ n, P (DNumber n)) → (∀ s, P (DString s)) →
  (∀ items closed, Forall P items → P (DArray items closed)) →
  (∀ members closed, Forall (λ kd, P kd.2) members → P (DObject members closed)) → P DBad → ∀ d, P d.
Proof.
  intros Hn Hb Hm Hs Ha Ho Hx. fix IH 1. intros [|b|n|s|items closed|members closed|].
  - exact Hn.
  - apply Hb.
  - apply Hm.
  - apply Hs.
  - apply Ha. induction items as [|d items IHi]; constructor; [apply IH|exact IHi].
  - apply Ho. induction members as [|[k d] members IHm]; constructor; [apply IH|exact IHm].
  - exact Hx.
Qed.

(** ** The visitor *)

(** The error of a parse: the path of a repeated key, innermost first, when there is one. *)
Definition Unwind : Type := option (list Seg).
Definition push_seg (s : Seg) (e : Unwind) : Unwind := (λ path, path ++ [s]) <$> e.

Section visiting.
Variable visit : Doc → result Value Unwind.

Fixpoint visit_seq (out : list Value) (items : list Doc) (closed : bool) : result Value Unwind :=
  match items with
  | [] => if closed then Ok (Array out) else Err None
  | d :: items' =>
      match visit d with
      | Ok v => visit_seq (out ++ [v]) items' closed
      | Err e => Err (push_seg (SIndex (length out)) e)
      end
  end.

Fixpoint visit_map (out : BTreeMap.t Value) (members : list (bytes * Doc)) (closed : bool) : result Value Unwind :=
  match members with
  | [] => if closed then Ok (Object out) else Err None
  | (k, d) :: members' =>
      if decide (k = RAW_VALUE_TOKEN) then Err None else
      match BTreeMap.get k out with
      | Some _ => Err (Some [SKey k])
      | None =>
          match visit d with
          | Ok v => visit_map (BTreeMap.insert k v out) members' closed
          | Err e => Err (push_seg (SKey k) e)
          end
      end
  end.
End visiting.

Fixpoint visit (d : Doc) : result Value Unwind :=
  match d with
  | DNull => Ok Null
  | DBool b => Ok (Bool b)
  | DNumber n => Ok (from_option Number Null n)
  | DString s => Ok (String s)
  | DArray items closed => visit_seq visit [] items closed
  | DObject members closed => visit_map visit [] members closed
  | DBad => Err None
  end.

(** ** The path of a refusal *)

(** Characters of UTF-8 text: each starts with a byte that is not a continuation. *)
Definition is_cont (b : byte) : bool := (128 <=? byteZ b) && (byteZ b <? 192).
Definition char_count (s : bytes) : nat := length (filter (λ b, is_cont b = false) s).

Fixpoint take_chars (n : nat) (s : bytes) : bytes :=
  match s with
  | [] => []
  | b :: s' => if is_cont b then b :: take_chars n s' else match n with O => [] | S n' => b :: take_chars n' s' end
  end.

(** The character U+2026. *)
Definition ellipsis : bytes := [Byte.xe2; Byte.x80; Byte.xa6].

Definition render_seg (out : bytes) (s : Seg) : bytes :=
  match s with
  | SKey k =>
      (if bool_decide (out = []) then [] else out ++ lit ".") ++ take_chars MAX_SEGMENT_CHARS k
      ++ (if (MAX_SEGMENT_CHARS <? char_count k)%nat then ellipsis else [])
  | SIndex i => out ++ lit "[" ++ dec (Z.of_nat i) ++ lit "]"
  end.

Fixpoint render_from (out : bytes) (outermost_first : list Seg) : bytes :=
  match outermost_first with
  | [] => out
  | s :: segs =>
      let out := render_seg out s in
      if (MAX_PATH_CHARS <? char_count out)%nat then take_chars MAX_PATH_CHARS out ++ ellipsis else render_from out segs
  end.

Definition render_path (innermost_first : list Seg) : bytes := render_from [] (reverse innermost_first).

(** ** The parse *)

Inductive StrictJsonError : Type := DuplicateKey (path : bytes) | Invalid.

Definition code (e : StrictJsonError) : bytes :=
  match e with DuplicateKey _ => DUPLICATE_KEY_CODE | Invalid => lit "invalid_request" end.

Definition finish (parsed : result Value Unwind) : result Value StrictJsonError :=
  match parsed with
  | Ok v => Ok v
  | Err (Some segs) => Err (DuplicateKey (render_path segs))
  | Err None => Err Invalid
  end.

(** [events] is the parser: what it finds in the text, and whether nothing is left. *)
Definition from_slice (events : bytes → Doc * bool) (text : bytes) : result Value StrictJsonError :=
  let '(d, ended) := events text in
  finish (match visit d with Ok v => if ended then Ok v else Err None | Err e => Err e end).

(** [json_content_type] of the [Content-Type] line, when it is text. *)
Definition json_content_type (content_type : option bytes) : bool :=
  match content_type ≫= to_str with
  | None => false
  | Some ct =>
      match Network.split_once "/"%byte (trim (default [] (head (split_on ";"%byte ct)))) with
      | None => false
      | Some (ty, sub) =>
          let sub := to_ascii_lowercase (trim sub) in
          bool_decide (to_ascii_lowercase (trim ty) = lit "application")
          && (bool_decide (sub = lit "json") || is_prefix (reverse (lit "+json")) (reverse sub))
      end
  end.

(** ** Readings *)

(** What a reader may make of a text, whichever copy of a key it keeps in each object. *)
Inductive reads : Doc → Value → Prop :=
  | reads_null : reads DNull Null
  | reads_bool b : reads (DBool b) (Bool b)
  | reads_number n : reads (DNumber n) (from_option Number Null n)
  | reads_string s : reads (DString s) (String s)
  | reads_array items vs : Forall2 reads items vs → reads (DArray items true) (Array vs)
  | reads_object members (m : BTreeMap.t Value) :
      BTreeMap.sorted m → (∀ k, k ∈ m.*1 ↔ k ∈ members.*1) →
      (∀ k v, BTreeMap.get k m = Some v → ∃ d, (k, d) ∈ members ∧ reads d v) → reads (DObject members true) (Object m).

(** A text that is JSON, with no key twice in an object and no reserved key. *)
Fixpoint clean (d : Doc) : bool :=
  match d with
  | DNull | DBool _ | DNumber _ | DString _ => true
  | DArray items closed => closed && forallb clean items
  | DObject members closed =>
      closed && bool_decide (NoDup members.*1) && bool_decide (RAW_VALUE_TOKEN ∉ members.*1) && forallb (λ kd, clean kd.2) members
  | DBad => false
  end.

(** Where a path leads: to a key that its object has twice. *)
Inductive repeated : Doc → list Seg → Prop :=
  | repeated_here members closed k pre mid post :
      members.*1 = pre ++ k :: mid ++ k :: post → repeated (DObject members closed) [SKey k]
  | repeated_member members closed k d path :
      (k, d) ∈ members → repeated d path → repeated (DObject members closed) (SKey k :: path)
  | repeated_item items closed i d path :
      items !! i = Some d → repeated d path → repeated (DArray items closed) (SIndex i :: path).

(** *** Maps *)

Lemma sorted_ext (m1 m2 : BTreeMap.t Value) :
  BTreeMap.sorted m1 → BTreeMap.sorted m2 → (∀ k, BTreeMap.get k m1 = BTreeMap.get k m2) → m1 = m2.
Proof.
  revert m2. induction m1 as [|[k1 v1] m1 IH]; intros [|[k2 v2] m2] S1 S2 Hg; [done|..].
  - specialize (Hg k2). simpl in Hg. by rewrite decide_True in Hg by done.
  - specialize (Hg k1). simpl in Hg. by rewrite decide_True in Hg by done.
  - unfold BTreeMap.sorted in *. simpl in S1, S2. apply StronglySorted_inv in S1 as [S1 A1], S2 as [S2 A2].
    assert (k1 = k2) as ->.
    { destruct (decide (k1 = k2)) as [|Hne]; [done|exfalso].
      pose proof (Hg k1) as G1. pose proof (Hg k2) as G2. simpl in G1, G2. rewrite decide_True, decide_False in G1 by done.
      rewrite (decide_True (P := k2 = k2)), decide_False in G2 by congruence.
      symmetry in G1. apply BTreeMap.get_elem_of in G1, G2.
      assert (bytes_lt k2 k1) as L1 by (rewrite Forall_forall in A2; apply A2, list_elem_of_fmap; by exists (k1, v1)).
      assert (bytes_lt k1 k2) as L2 by (rewrite Forall_forall in A1; apply A1, list_elem_of_fmap; by exists (k2, v2)).
      apply (bytes_lt_irrefl k1). by trans k2. }
    pose proof (Hg k2) as G. simpl in G. rewrite !decide_True in G by done. injection G as ->. f_equal.
    apply IH; [done..|]. intros k. specialize (Hg k). simpl in Hg. case_decide as Hk; [|done]. subst k.
    assert (∀ m : BTreeMap.t Value, Forall (bytes_lt k2) m.*1 → BTreeMap.get k2 m = None) as Hnone.
    { intros m Hall. apply BTreeMap.get_None. intros Hin. rewrite Forall_forall in Hall. by apply Hall, bytes_lt_irrefl in Hin. }
    by rewrite !Hnone.
Qed.

Definition insert_all (out kvs : BTreeMap.t Value) : BTreeMap.t Value := foldl (λ m kv, BTreeMap.insert kv.1 kv.2 m) out kvs.

Lemma insert_all_sorted out kvs : BTreeMap.sorted out → BTreeMap.sorted (insert_all out kvs).
Proof. revert out. induction kvs as [|[k v] kvs IH]; intros out Hs; [done|]. apply IH. by apply BTreeMap.insert_sorted. Qed.

Lemma insert_all_get out kvs k : NoDup kvs.*1 →
  BTreeMap.get k (insert_all out kvs) = match BTreeMap.get k kvs with Some v => Some v | None => BTreeMap.get k out end.
Proof.
  revert out. induction kvs as [|[k' v'] kvs IH]; intros out Hnd; [done|].
  rewrite fmap_cons in Hnd. apply NoDup_cons in Hnd as [Hn Hnd]. cbn [fst] in Hn. cbn [insert_all foldl]. fold (insert_all (BTreeMap.insert k' v' out) kvs).
  rewrite IH by done. cbn [fst snd BTreeMap.get]. case_decide as Hk.
  - subst k'. apply BTreeMap.get_None in Hn. by rewrite Hn, BTreeMap.get_insert_eq.
  - by rewrite BTreeMap.get_insert_ne.
Qed.

(** *** The two loops *)

Section loops.
Variable f : Doc → result Value Unwind.

Lemma visit_seq_ok out items closed v :
  visit_seq f out items closed = Ok v ↔ closed = true ∧ ∃ vs, Forall2 (λ d w, f d = Ok w) items vs ∧ v = Array (out ++ vs).
Proof.
  revert out. induction items as [|d items IH]; intros out; simpl.
  - split.
    + destruct closed; intros [= <-]. split; [done|]. exists []. by rewrite app_nil_r.
    + intros [-> (vs & ->%Forall2_nil_inv_l & ->)]. by rewrite app_nil_r.
  - destruct (f d) as [w|e] eqn:Hd; [rewrite IH|].
    + split; intros [-> (vs & Hvs & ->)]; (split; [done|]).
      * exists (w :: vs). split; [by constructor|]. by rewrite <- app_assoc.
      * apply Forall2_cons_inv_l in Hvs as (w' & vs' & Hw & Hvs & ->). rewrite Hd in Hw. injection Hw as <-.
        exists vs'. by rewrite <- app_assoc.
    + split; [done|]. intros [_ (vs & Hvs & _)]. apply Forall2_cons_inv_l in Hvs as (w' & vs' & Hw & _). congruence.
Qed.

Lemma visit_seq_path out items closed path :
  visit_seq f out items closed = Err (Some path) →
  ∃ i d segs, items !! i = Some d ∧ f d = Err (Some segs) ∧ path = segs ++ [SIndex (length out + i)].
Proof.
  revert out. induction items as [|d items IH]; intros out; simpl; [by destruct closed|].
  destruct (f d) as [w|[segs|]] eqn:Hd; [|intros [= <-]; exists 0%nat, d, segs; by rewrite Nat.add_0_r|done].
  intros (i & d' & segs & Hi & Hf & ->)%IH. exists (S i), d', segs. split_and!; [done..|].
  rewrite length_app. simpl. by replace (length out + 1 + i)%nat with (length out + S i)%nat by lia.
Qed.

(** What the object loop accepts. *)
Lemma visit_map_ok out members closed v :
  visit_map f out members closed = Ok v ↔
  closed = true ∧ NoDup members.*1 ∧ RAW_VALUE_TOKEN ∉ members.*1 ∧ (∀ k, k ∈ members.*1 → k ∉ out.*1) ∧
  ∃ kvs, Forall2 (λ kd kv, kd.1 = kv.1 ∧ f kd.2 = Ok kv.2) members kvs ∧ v = Object (insert_all out kvs).
Proof.
  revert out. induction members as [|[k d] members IH]; intros out; cbn [visit_map fmap list_fmap fst].
  - split.
    + destruct closed; intros [= <-]. split_and!; try done; [constructor|set_solver|set_solver|]. by exists [].
    + intros (-> & _ & _ & _ & kvs & ->%Forall2_nil_inv_l & ->). done.
  - rewrite NoDup_cons, not_elem_of_cons. case_decide as Hraw; [split; [done|naive_solver]|].
    destruct (BTreeMap.get k out) as [w|] eqn:Hk.
    { split; [done|]. intros (_ & _ & _ & Hdis & _). exfalso. apply (Hdis k); [by left|].
      apply BTreeMap.get_elem_of in Hk. apply list_elem_of_fmap. by exists (k, w). }
    apply BTreeMap.get_None in Hk. destruct (f d) as [w|e] eqn:Hd.
    + rewrite IH. split.
      * intros (-> & Hnd & Hr & Hdis & kvs & Hf & ->). split_and!; try done.
        -- intros Hin. apply (Hdis k Hin). apply BTreeMap.elem_of_keys_insert. by left.
        -- intros j [->|Hj]%elem_of_cons; [done|]. intros Ho. apply (Hdis j Hj), BTreeMap.elem_of_keys_insert. by right.
        -- exists ((k, w) :: kvs). split; [by constructor|done].
      * intros (-> & [Hn Hnd] & [_ Hr] & Hdis & kvs & Hf & ->). split_and!; try done.
        -- intros j Hj [->|Ho]%BTreeMap.elem_of_keys_insert; [done|]. by apply (Hdis j); [right|].
        -- apply Forall2_cons_inv_l in Hf as ([k' w'] & kvs' & [Hk' Hw] & Hf & ->). simpl in Hk', Hw. subst k'.
           rewrite Hd in Hw. injection Hw as <-. by exists kvs'.
    + split; [done|]. intros (_ & _ & _ & _ & kvs & Hf & _).
      apply Forall2_cons_inv_l in Hf as (kv & kvs' & [_ Hw] & _). simpl in Hw. congruence.
Qed.

Lemma visit_map_path out members closed path :
  visit_map f out members closed = Err (Some path) →
  (∃ pre k mid post, members.*1 = pre ++ k :: post ∧ (k ∈ out.*1 ∨ pre = mid.1 ++ k :: mid.2) ∧ path = [SKey k]) ∨
  (∃ k d segs, (k, d) ∈ members ∧ f d = Err (Some segs) ∧ path = segs ++ [SKey k]).
Proof.
  revert out. induction members as [|[k d] members IH]; intros out; cbn [visit_map]; [by destruct closed|].
  case_decide; [done|]. destruct (BTreeMap.get k out) as [w|] eqn:Hk.
  { intros [= <-]. left. exists [], k, ([], []), members.*1. split_and!; [done| |done]. left.
    apply BTreeMap.get_elem_of in Hk. apply list_elem_of_fmap. by exists (k, w). }
  destruct (f d) as [w|[segs|]] eqn:Hd; [|intros [= <-]; right; exists k, d, segs; split_and!; [by left|done..]|done].
  intros [(pre & k' & mid & post & Hm & Hor & ->)|(k' & d' & segs & Hin & Hf & ->)]%IH.
  - left. destruct Hor as [[->|Ho]%BTreeMap.elem_of_keys_insert| ->].
    + exists (k :: pre), k, ([], pre), post. cbn [fmap list_fmap fst]. rewrite Hm. split_and!; [done|by right|done].
    + exists (k :: pre), k', mid, post. cbn [fmap list_fmap fst]. rewrite Hm. split_and!; [done|by left|done].
    + exists (k :: mid.1 ++ k' :: mid.2), k', (k :: mid.1, mid.2), post. cbn [fmap list_fmap fst]. rewrite Hm. split_and!; [done|by right|done].
  - right. exists k', d', segs. split_and!; [by right|done..].
Qed.
End loops.

Lemma NoDup_keys_fun {A} (l : list (bytes * A)) k x y : NoDup l.*1 → (k, x) ∈ l → (k, y) ∈ l → x = y.
Proof.
  induction l as [|[k' z] l IH]; [by intros _ ?%elem_of_nil|]. rewrite fmap_cons. intros [Hn Hnd]%NoDup_cons.
  assert (∀ w, (k', w) ∈ l → False) as Hno by (intros w Hw; apply Hn, list_elem_of_fmap; by exists (k', w)).
  rewrite !elem_of_cons. intros [[= -> ->]|Hx] [[= E]|Hy]; subst; try done; try (exfalso; by eapply Hno). by apply IH.
Qed.

(** *** The visitor *)

Lemma Forall2_fun {A B} (P : A → B → Prop) l l' x i : Forall2 P l l' → l !! i = Some x → ∃ y, l' !! i = Some y ∧ P x y.
Proof. intros Hf Hi. by eapply Forall2_lookup_l. Qed.

Lemma forall2_keys (f : Doc → result Value Unwind) (members : list (bytes * Doc)) (kvs : list (bytes * Value)) :
  Forall2 (λ kd kv, kd.1 = kv.1 ∧ f kd.2 = Ok kv.2) members kvs → kvs.*1 = members.*1.
Proof. induction 1 as [|kd kv members kvs [Hk _] _ IH]; [done|]. rewrite !fmap_cons, IH. by rewrite Hk. Qed.

Lemma visit_accepts d : clean d = true ↔ ∃ v, visit d = Ok v.
Proof.
  induction d as [| | | |items closed IH|members closed IH|] using Doc_nested_ind; cbn [clean visit]; try (split; eauto; fail).
  - rewrite andb_true_iff, forallb_forall. split.
    + intros [-> Hall].
      assert (∃ vs, Forall2 (λ d w, visit d = Ok w) items vs) as [vs Hvs].
      { induction items as [|d items IHi]; [by exists []|]. apply Forall_cons in IH as [Hd IH].
        destruct (proj1 Hd (Hall d (or_introl eq_refl))) as [v Hv]. destruct (IHi IH) as [vs Hvs]; [intros x Hx; apply Hall; by right|].
        exists (v :: vs). by constructor. }
      exists (Array vs). apply visit_seq_ok. split; [done|]. by exists vs.
    + intros [v [-> (vs & Hvs & _)]%visit_seq_ok]. split; [done|]. intros d Hd%list_elem_of_In.
      apply list_elem_of_lookup in Hd as [i Hi]. rewrite Forall_forall in IH.
      destruct (Forall2_fun _ _ _ _ _ Hvs Hi) as (w & _ & Hw). apply IH; [by eapply list_elem_of_lookup_2|eauto].
  - rewrite !andb_true_iff, forallb_forall, !bool_decide_eq_true. split.
    + intros (((-> & Hnd) & Hr) & Hall).
      assert (∃ kvs, Forall2 (λ kd kv, kd.1 = kv.1 ∧ visit kd.2 = Ok kv.2) members kvs) as [kvs Hkvs].
      { clear Hnd Hr. induction members as [|[k d] members IHm]; [by exists []|]. apply Forall_cons in IH as [Hd IH].
        destruct (proj1 Hd (Hall (k, d) (or_introl eq_refl))) as [v Hv]. destruct (IHm IH) as [kvs Hkvs]; [intros x Hx; apply Hall; by right|].
        exists ((k, v) :: kvs). by constructor. }
      exists (Object (insert_all [] kvs)). apply visit_map_ok. split_and!; try done; [intros k _; apply not_elem_of_nil|]. by exists kvs.
    + intros [v (-> & Hnd & Hr & _ & kvs & Hkvs & _)%visit_map_ok]. split_and!; try done. intros kd Hd%list_elem_of_In.
      pose proof Hd as Hd'. apply list_elem_of_lookup in Hd as [i Hi]. rewrite Forall_forall in IH.
      destruct (Forall2_fun _ _ _ _ _ Hkvs Hi) as (kv & _ & _ & Hv). apply (IH kd Hd'). eauto.
  - split; [done|by intros [? ?]].
Qed.

(** What the visitor builds is a reading, and there is no other. *)
Lemma visit_reads d v : visit d = Ok v → reads d v ∧ ∀ v', reads d v' → v' = v.
Proof.
  revert v. induction d as [| | | |items closed IH|members closed IH|] using Doc_nested_ind; cbn [visit]; intros v Hv;
    try (injection Hv as <-; split; [constructor|by inversion 1]).
  - apply visit_seq_ok in Hv as [-> (vs & Hvs & ->)]. cbn [app]. split.
    + constructor. clear -IH Hvs. induction Hvs as [|d w items vs Hd _ IHv]; constructor; apply Forall_cons in IH as [H0 IH]; [by apply H0|by apply IHv].
    + intros v' Hr. inversion Hr as [| | | |items' ws Hws|]; subst. f_equal.
      clear -IH Hvs Hws. revert ws Hws. induction Hvs as [|d w items vs Hd _ IHv]; intros ws Hws.
      { by apply Forall2_nil_inv_l in Hws. }
      apply Forall_cons in IH as [H0 IH]. apply Forall2_cons_inv_l in Hws as (w' & ws' & Hw' & Hws & ->). f_equal; [|by apply IHv].
      by apply (H0 w Hd).
  - apply visit_map_ok in Hv as (-> & Hnd & _ & _ & kvs & Hkvs & ->). pose proof (forall2_keys _ _ _ Hkvs) as Hkeys.
    assert (NoDup kvs.*1) as Hnd' by (by rewrite Hkeys). rewrite Forall_forall in IH.
    assert (Hm : ∀ k, BTreeMap.get k (insert_all [] kvs) = BTreeMap.get k kvs)
      by (intros k; rewrite insert_all_get by done; by destruct (BTreeMap.get k kvs)).
    assert (Hs : BTreeMap.sorted (insert_all [] kvs)) by (apply insert_all_sorted; constructor).
    assert (Hval : ∀ k w, BTreeMap.get k kvs = Some w → ∃ d, (k, d) ∈ members ∧ visit d = Ok w).
    { intros k w Hg%BTreeMap.get_elem_of. apply list_elem_of_lookup in Hg as [i Hi].
      destruct (Forall2_lookup_r _ _ _ _ _ Hkvs Hi) as ([k' d] & Hi' & Hk' & Hw). simpl in Hk', Hw. subst k'.
      exists d. split; [by eapply list_elem_of_lookup_2|done]. }
    assert (Hdom : ∀ m : BTreeMap.t Value, ∀ k, k ∈ m.*1 ↔ is_Some (BTreeMap.get k m)).
    { intros m k. destruct (BTreeMap.get k m) eqn:Hg.
      - split; [eauto|]. intros _. apply BTreeMap.get_elem_of in Hg. apply list_elem_of_fmap. by exists (k, v).
      - apply BTreeMap.get_None in Hg. split; [done|by intros [? ?]]. }
    split.
    + constructor; [done|intros k; by rewrite Hdom, Hm, <- Hdom, Hkeys|].
      intros k w. rewrite Hm. intros (d & Hd & Hw)%Hval. exists d. split; [done|]. by apply (IH (k, d)).
    + intros v' Hr. inversion Hr as [| | | | |members' m Hms Hmk Hmv]; subst. f_equal. apply sorted_ext; [done..|]. intros k. rewrite Hm.
      destruct (BTreeMap.get k m) as [w|] eqn:Hg.
      * destruct (Hmv k w Hg) as (d & Hd & Hw).
        assert (is_Some (BTreeMap.get k kvs)) as [w' Hg'].
        { apply Hdom. rewrite Hkeys. apply list_elem_of_fmap. by exists (k, d). }
        rewrite Hg'. f_equal. destruct (Hval k w' Hg') as (d' & Hd' & Hw'). assert (d' = d) as -> by (by eapply NoDup_keys_fun).
        by apply (IH (k, d) Hd w').
      * symmetry. apply BTreeMap.get_None. rewrite Hkeys, <- Hmk. by apply BTreeMap.get_None.
  - done.
Qed.

Lemma visit_path d path : visit d = Err (Some path) → repeated d (reverse path).
Proof.
  revert path. induction d as [| | | |items closed IH|members closed IH|] using Doc_nested_ind; cbn [visit]; intros path Hv; try done.
  - apply visit_seq_path in Hv as (i & d & segs & Hi & Hd & ->). rewrite reverse_app. simpl.
    apply (repeated_item _ _ i d); [done|]. rewrite Forall_forall in IH. apply IH; [by eapply list_elem_of_lookup_2|done].
  - apply visit_map_path in Hv as [(pre & k & mid & post & Hm & [Ho| ->] & ->)|(k & d & segs & Hin & Hd & ->)].
    + by apply elem_of_nil in Ho.
    + apply (repeated_here _ _ k mid.1 mid.2 post). by rewrite Hm, <- app_assoc.
    + rewrite reverse_app. simpl. apply (repeated_member _ _ k d); [done|]. rewrite Forall_forall in IH. by apply (IH (k, d)).
Qed.

(** ** The parse *)

(** C31. What the strict parse accepts has one reading.  A text is accepted exactly when the
    parser finds one JSON value in it with no key twice in an object, at any depth, and no
    reserved key; the value is then a reading of the text, and every reading of it,
    whichever copy of a key its reader keeps in whichever object, is that value. *)
Theorem accepted_has_one_reading (events : bytes → Doc * bool) text :
  ((∃ v, from_slice events text = Ok v) ↔ clean (events text).1 = true ∧ (events text).2 = true) ∧
  ∀ v, from_slice events text = Ok v → reads (events text).1 v ∧ ∀ v', reads (events text).1 v' → v' = v.
Proof.
  unfold from_slice. destruct (events text) as [d ended]. cbn [fst snd]. split.
  - rewrite visit_accepts. destruct (visit d) as [v|[segs|]], ended; cbn [finish]; naive_solver.
  - intros v Hv. apply visit_reads. destruct (visit d) as [w|[segs|]], ended; cbn [finish] in Hv; naive_solver.
Qed.

Lemma char_count_app a b : char_count (a ++ b) = (char_count a + char_count b)%nat.
Proof. unfold char_count. by rewrite filter_app, length_app. Qed.

Lemma take_chars_count n s : (char_count (take_chars n s) ≤ n)%nat.
Proof.
  revert n. induction s as [|b s IH]; intros n; simpl; [unfold char_count; simpl; lia|].
  destruct (is_cont b) eqn:Hb; [|destruct n as [|n]; [unfold char_count; simpl; lia|]];
    unfold char_count in *; rewrite filter_cons, Hb; simpl; [apply IH|]. specialize (IH n). lia.
Qed.

Lemma render_from_short out segs : (char_count out ≤ MAX_PATH_CHARS)%nat → (char_count (render_from out segs) ≤ S MAX_PATH_CHARS)%nat.
Proof.
  revert out. induction segs as [|s segs IH]; intros out Ho; cbn [render_from]; [lia|].
  case_match eqn:Hc; [|apply IH; by apply Nat.ltb_ge in Hc].
  rewrite char_count_app. pose proof (take_chars_count MAX_PATH_CHARS (render_seg out s)).
  change (char_count ellipsis) with 1%nat. lia.
Qed.

(** A refusal names the key that is repeated, and little else.  When the parse answers
    that a key is repeated, there is a path into the text that leads to an object with
    that key twice, the answer is the rendering of that path, and it has at most one
    character more than the maximum, whatever the keys are. *)
Theorem refusal_names_the_key (events : bytes → Doc * bool) text path :
  from_slice events text = Err (DuplicateKey path) →
  ∃ segs, repeated (events text).1 segs ∧ path = render_from [] segs ∧ (char_count path ≤ S MAX_PATH_CHARS)%nat.
Proof.
  unfold from_slice. destruct (events text) as [d ended]. cbn [fst]. intros Hf.
  assert (∃ segs, visit d = Err (Some segs) ∧ path = render_path segs) as (segs & Hv & ->).
  { destruct (visit d) as [v|[segs|]]; [by destruct ended| |done]. injection Hf as <-. by exists segs. }
  exists (reverse segs). split_and!; [by apply visit_path|done|]. apply render_from_short. unfold char_count. simpl. lia.
Qed.
End strict.

(** ** Witnesses *)

Section demo.
Local Existing Instance text_number.

(** A text whose second object has a key twice. *)
Definition twice : Doc :=
  DObject [(lit "messages", DArray [DNull; DObject [(lit "system", DString (lit "a")); (lit "x", DNull); (lit "system", DString (lit "b"))] true] true)] true.

Definition once : Doc := DObject [(lit "b", DBool true); (lit "a", DArray [DString (lit "x")] true)] true.

Definition demo_events (text : bytes) : Doc * bool := if decide (text = lit "1") then (once, true) else (twice, true).

(** Two readers can differ on the first text. *)
Example twice_has_two_readings :
  from_slice demo_events (lit "2") = Err (DuplicateKey (lit "messages[1].system")) ∧ clean twice = false.
Proof. split; reflexivity. Qed.

Lemma accepted_has_one_reading_witness :
  ∃ v, from_slice demo_events (lit "1") = Ok v ∧ ∀ v', reads once v' → v' = v.
Proof.
  destruct (accepted_has_one_reading demo_events (lit "1")) as [[_ Hacc] Hone].
  destruct Hacc as [v Hv]; [split; reflexivity|]. exists v. split; [exact Hv|]. apply (Hone v Hv).
Defined.

Lemma refusal_names_the_key_witness :
  ∃ segs, repeated twice segs ∧ lit "messages[1].system" = render_from [] segs ∧
    (char_count (lit "messages[1].system") ≤ S MAX_PATH_CHARS)%nat.
Proof.
  apply (refusal_names_the_key demo_events (lit "2")). reflexivity.
Defined.
End demo.
