(* ===== verification/Attempt.v ===== *)
(** * The live checks of a provider attempt

    [crates/gateway/src/routing/attempt.rs]: before each attempt at a provider, retries
    included, the controls are read again and the request is judged again on every target
    it may reach, the one about to be tried included; then the provider key is resolved
    again, and compared with the one about to be sent.

    [check_key_budget] of [crates/gateway/src/offpath.rs] is the key-budget step of
    admission.  What is read enters as its result; what is read twice enters twice.

    The theorem: an attempt that is let through is permitted by the controls as they stand. *)

From Stdlib Require Import ZArith Lia.
From stdpp Require Import base list option strings gmap.
From S2P Require Import Prelude Float64 Encoding Network Glob KeyPolicy KeyPolicyProofs Budgets BudgetProofs BudgetInvariants Limits Controls Admission AdmissionProofs.
From S2P Require Import Routing RoutingProofs RoutedAdmission.
Local Open Scope Z_scope.

Inductive KeyLiveness : Type := Live (g : option Governance) | Revoked | LivenessUnknown.

(** The denials of the attempt itself, and the refusals of admission. *)
Inductive Denied : Type :=
  | key_revoked
  | control_unverifiable
  | upstream_killed
  | zdr_unsatisfiable
  | routing_invalid
  | provider_key_unavailable
  | refused (r : Refusal).

(** [Context]: the request as admitted, its plan and whether it asks for zero retention. *)
Record AttemptContext := { ac_request : Request; ac_plan : option RoutePlan; ac_zdr : bool }.

(** What the checks read, at each look. *)
Record Looks := {
  lk_liveness : KeyLiveness;
  lk_killed : bool;
  lk_zdr_eligible : bool;
  lk_entitlements : option ResolvedEntitlements;
  lk_routing_invalid : bool;
  lk_priced : bool;
  lk_key : option bytes;
  lk_entitlements_current : bool;
  lk_killed_again : bool;
  lk_zdr_again : bool;
}.

(** A check denies or passes, and may change the state either way. *)
Definition Check_ : Type := Gateway → option Denied * Gateway.

Definition deny_if (b : bool) (d : Denied) : Check_ := λ g, (if b then Some d else None, g).
Definition judge (f : StepFn) : Check_ := λ g, let '(o, g) := f g in (refused <$> o, g).

Fixpoint checks_in_turn (l : list Check_) : Check_ := λ g,
  match l with
  | [] => (None, g)
  | f :: l' => match f g with (None, g) => checks_in_turn l' g | r => r end
  end.

(** The subject of a model that no declared target names. *)
Definition fallback_subject (first : Subject) (model : bytes) : Subject :=
  {| su_model := Known model; su_workspace_alias := false; su_provider := None; su_input_tokens := NotApplicable;
     su_output_cap := NotApplicable; su_line := su_line first |}.

Definition names_model (model : bytes) (s : Subject) : bool :=
  match su_model s with Known m => bool_decide (m = model) | _ => false end.

(** The request that is judged: every target of the plan, and the one about to be tried. *)
Definition judged (base : PolicyRequest) (p : option RoutePlan) (model : bytes) : PolicyRequest :=
  let r := expand base p in
  if existsb (names_model model) (subjects r) then r
  else match head (subjects r) with
       | Some first => {| subjects := subjects r ++ [fallback_subject first model]; body_bytes := body_bytes r |}
       | None => r
       end.

(** The claims with the policy that was read just now, the entitlements and the request. *)
Definition live_request (req : Request) (gov : option Governance) (ent : option ResolvedEntitlements) (r : PolicyRequest) : Request :=
  {| r_tenant := r_tenant req; r_scope_ok := r_scope_ok req; r_key_id := r_key_id req; r_key_uuid := r_key_uuid req;
     r_governance := gov; r_key_rpm := r_key_rpm req; r_budget_usd := r_budget_usd req; r_budget_reset := r_budget_reset req;
     r_trace := r_trace req; r_parse := r_parse req; r_route := r_route req; r_request := r; r_content_length := r_content_length req;
     r_labels := r_labels req; r_client_ip := r_client_ip req; r_end_user := r_end_user req; r_model := r_model req;
     r_gated := r_gated req; r_entitlements := ent; r_key_baseline := r_key_baseline req; r_workspace_baseline := r_workspace_baseline req;
     r_baseline := r_baseline req; r_priced := r_priced req; r_decision := r_decision req; r_published := r_published req;
     r_at := r_at req; r_utc := r_utc req |}.

Section check.
Context `{Datelike} `{Registry}.
Variable end_user_hash : bytes → Z.
Variable aliases : bytes → option bytes.
Variable cfg : Config.
Variable ctx : AttemptContext.

(** The workspace's budget: not seeded here, an unread counter refuses. *)
Definition workspace_check (req : Request) : StepFn := λ g,
  if 0 <? workspace_budget req then
    if needs_seed (SWorkspace (r_tenant req)) (year_month (r_utc req LimitsStep)) (g_spend g) then (Some (Control budget_spend_unknown), g)
    else (match spend_check (SWorkspace (r_tenant req)) (Some (from_micro (workspace_budget req))) (g_spend g) with
          | BudgetOver b s => Some (WorkspaceBudgetExceeded b s)
          | BudgetAllow => None
          end, g)
  else (None, g).

Definition controls_again (resolve : bytes → bool → Resolved) (req : Request) : option Refusal :=
  c ← controls req;
  match controls_check resolve c (r_request req) (r_end_user req) with Ok _ => None | Err r => Some (control_refusal r) end.

Definition rules_again (resolve : bytes → bool → Resolved) (req : Request) : option Refusal :=
  p ← ws_policy req; policy_err (check_request resolve OWorkspace p (subjects (r_request req))).

Definition policy_again (resolve : bytes → bool → Resolved) (req : Request) : option Refusal :=
  g ← r_governance req; policy_err (evaluate resolve (r_labels req) g (r_request req)).

(** [check_controls], once the key is known to be live. *)
Definition check_controls (k : Looks) (gov : option Governance) (model : bytes) : Check_ :=
  let resolve := routed_policy_resolve aliases (ac_plan ctx) in
  let req := live_request (ac_request ctx) gov (lk_entitlements k) (judged (r_request (ac_request ctx)) (ac_plan ctx) model) in
  checks_in_turn
    [deny_if (lk_killed k) upstream_killed;
     deny_if (ac_zdr ctx && negb (lk_zdr_eligible k)) zdr_unsatisfiable;
     deny_if (is_some_b (lk_entitlements k) && lk_routing_invalid k) routing_invalid;
     judge (refuse (controls_again resolve req));
     judge (refuse (rules_again resolve req));
     judge (refuse (policy_again resolve req));
     judge (key_budget_step cfg req);
     judge (workspace_check req);
     judge (refuse (if caller_is_budgeted req && negb (lk_priced k) then Some Unpriced else None));
     judge (check_budgets end_user_hash req (applicable_budgets (ws_policy req) gov (r_key_uuid req) (r_end_user req)))].

(** [check]: the controls, then the key and a last look. *)
Definition check (k : Looks) (model key : bytes) : Check_ :=
  match lk_liveness k with
  | Revoked => deny_if true key_revoked
  | LivenessUnknown => deny_if true control_unverifiable
  | Live gov =>
      checks_in_turn
        [check_controls k gov model;
         deny_if (negb (bool_decide (lk_key k = Some key))) provider_key_unavailable;
         deny_if (is_some_b (lk_entitlements k) && negb (lk_entitlements_current k)) control_unverifiable;
         deny_if (lk_killed_again k) upstream_killed;
         deny_if (ac_zdr ctx && negb (lk_zdr_again k)) zdr_unsatisfiable]
  end.

(** ** What passing means *)

Lemma checks_cons f l g g' : checks_in_turn (f :: l) g = (None, g') → ∃ g1, f g = (None, g1) ∧ checks_in_turn l g1 = (None, g').
Proof. cbn [checks_in_turn]. destruct (f g) as [[d|] g1]; [done|eauto]. Qed.

Lemma deny_if_ok b d g g' : deny_if b d g = (None, g') → b = false ∧ g' = g.
Proof. unfold deny_if. by destruct b; intros [= <-]. Qed.

Lemma judge_ok f g g' : judge f g = (None, g') → f g = (None, g').
Proof. unfold judge. by destruct (f g) as [[r|] g1]; intros [= <-]. Qed.

(** The model about to be tried is among those judged. *)
Lemma judged_names base p first rest model :
  subjects base = first :: rest → ∃ s, s ∈ subjects (judged base p model) ∧ su_model s = Known model.
Proof.
  intros Hs. unfold judged. destruct (existsb _ _) eqn:He.
  - apply existsb_exists in He as (s & Hin%list_elem_of_In & Hm). exists s. split; [done|]. unfold names_model in Hm.
    destruct (su_model s) as [m| |]; [|done..]. by apply bool_decide_eq_true in Hm as ->.
  - assert (∃ f r, subjects (expand base p) = f :: r) as (f & r & Hf).
    { unfold expand. rewrite Hs. destruct p as [p|]; [|eauto]. destruct (policy_targets p) as [|t ts]; [eauto|].
      destruct (su_model first); eauto. }
    rewrite Hf. cbn [head]. exists (fallback_subject f model). split; [|done]. apply elem_of_app. right. by apply list_elem_of_singleton.
Qed.

Lemma workspace_check_ok req g g' : workspace_check req g = (None, g') → g' = g ∧
  (0 < workspace_budget req → f64_is_finite (from_micro (workspace_budget req)) && f64_gt (from_micro (workspace_budget req)) (f64_of 0) = true →
   current_micro (SWorkspace (r_tenant req)) (g_spend g) < to_micro (from_micro (workspace_budget req))).
Proof.
  unfold workspace_check. destruct (Z.ltb_spec 0 (workspace_budget req)) as [Hp|Hp]; [|intros [= <-]; split; [done|lia]].
  destruct (needs_seed _ _ _); [done|]. intros [= Hc <-]. split; [done|]. intros _ Hb. unfold spend_check in Hc.
  change (f64_of 0) with (Floats.SpecFloat.S754_zero false) in Hb. rewrite Hb in Hc. cbn [negb] in Hc. destruct (Z.leb_spec (to_micro (from_micro (workspace_budget req))) (current_micro (SWorkspace (r_tenant req)) (g_spend g))); [done|lia].
Qed.

(** C30. An attempt that is let through is permitted as the controls stand.  Of the key that
    was used: it is live.  Of the provider: it was not switched off at the last look, and
    it is eligible when the request asks for zero retention.  The provider key about to be
    sent is the one stored now, and the entitlements are the current ones.  And the model
    about to be tried was judged, whether or not it was a declared target: the workspace is
    not paused and its blocks clear it, the workspace's rules and every layer of the key's
    policy as just read permit it, the budgets of the key and the workspace are not spent, it
    has a price if the caller has a budget, and in the table of budgets as the check leaves
    it every hard budget of the policies just read has its own counter, known for the
    period, with a spend below its amount. *)
Theorem attempt_is_permitted k model key g g' first rest :
  subjects (r_request (ac_request ctx)) = first :: rest →
  check k model key g = (None, g') →
  ∃ gov s,
    let resolve := routed_policy_resolve aliases (ac_plan ctx) in
    let req := live_request (ac_request ctx) gov (lk_entitlements k) (judged (r_request (ac_request ctx)) (ac_plan ctx) model) in
    lk_liveness k = Live gov ∧ lk_killed_again k = false ∧ (ac_zdr ctx = true → lk_zdr_again k = true) ∧
    lk_key k = Some key ∧ (lk_entitlements k = None ∨ lk_entitlements_current k = true ∧ lk_routing_invalid k = false) ∧
    s ∈ subjects (r_request req) ∧ su_model s = Known model ∧
    (∀ c, controls req = Some c → unrestricted resolve req c) ∧
    (∀ p, ws_policy req = Some p → subject_permitted resolve p s) ∧
    (∀ gv l, gov = Some gv → l ∈ layers gv → ∃ p, ly_policy l = Valid p ∧ subject_permitted resolve p s) ∧
    (∀ kid budget id, r_key_id req = Some kid → r_budget_usd req = Some budget → r_key_uuid req = Some id →
       f64_is_finite budget && f64_gt budget (f64_of 0) = true → current_micro (SKey id) (g_spend g') < to_micro budget) ∧
    (0 < workspace_budget req → f64_is_finite (from_micro (workspace_budget req)) && f64_gt (from_micro (workspace_budget req)) (f64_of 0) = true →
       current_micro (SWorkspace (r_tenant req)) (g_spend g') < to_micro (from_micro (workspace_budget req))) ∧
    (caller_is_budgeted req = true → lk_priced k = true) ∧
    (∀ a, a ∈ applicable_budgets (ws_policy req) gov (r_key_uuid req) (r_end_user req) → is_hard (ap_budget a) = true →
       within_budget end_user_hash req g' a).
Proof.
  intros Hs Hc. unfold check in Hc. destruct (lk_liveness k) as [gov| |]; [|done..].
  apply checks_cons in Hc as (g1 & Hctl & Hc). apply checks_cons in Hc as (? & [Hkey ->]%deny_if_ok & Hc).
  apply checks_cons in Hc as (? & [Hcur ->]%deny_if_ok & Hc). apply checks_cons in Hc as (? & [Hkill ->]%deny_if_ok & Hc).
  apply checks_cons in Hc as (? & [Hzdr ->]%deny_if_ok & [= <-]).
  apply negb_false_iff, bool_decide_eq_true in Hkey. unfold check_controls in Hctl.
  set (resolve := routed_policy_resolve aliases (ac_plan ctx)) in *. set (req := live_request _ _ _ _) in *.
  apply checks_cons in Hctl as (? & [_ ->]%deny_if_ok & Hctl). apply checks_cons in Hctl as (? & [_ ->]%deny_if_ok & Hctl).
  apply checks_cons in Hctl as (? & [Hroute ->]%deny_if_ok & Hctl).
  apply checks_cons in Hctl as (? & [Hblocks ->]%judge_ok%refuse_ok & Hctl). apply checks_cons in Hctl as (? & [Hrules ->]%judge_ok%refuse_ok & Hctl).
  apply checks_cons in Hctl as (? & [Hpol ->]%judge_ok%refuse_ok & Hctl). apply checks_cons in Hctl as (g2 & Hkb%judge_ok & Hctl).
  apply checks_cons in Hctl as (? & [-> Hws]%judge_ok%workspace_check_ok & Hctl). apply checks_cons in Hctl as (? & [Hprice ->]%judge_ok%refuse_ok & Hctl).
  apply checks_cons in Hctl as (g3 & Hbud%judge_ok & [= <-]).
  assert (g_spend g3 = g_spend g2) as Hsp.
  { pose proof (keeps_budgets end_user_hash req g_spend
      (applicable_budgets (ws_policy req) gov (r_key_uuid req) (r_end_user req)) (λ _ _, eq_refl) g2) as Hk. by rewrite Hbud in Hk. }
  destruct (judged_names (r_request (ac_request ctx)) (ac_plan ctx) first rest model Hs) as (s & Hin & Hm).
  exists gov, s. cbv zeta. fold resolve. fold req. split_and!; try done.
  - intros Hz. rewrite Hz in Hzdr. simpl in Hzdr. by apply negb_false_iff in Hzdr.
  - destruct (lk_entitlements k); [|by left]. simpl in Hcur, Hroute. apply negb_false_iff in Hcur. by right.
  - intros c Ec. apply controls_check_ok. unfold controls_again in Hblocks. rewrite Ec in Hblocks. simpl in Hblocks.
    by destruct (controls_check _ _ _ _) as [[]|].
  - intros p Ep. unfold rules_again in Hrules. rewrite Ep in Hrules. simpl in Hrules. apply policy_err_ok in Hrules.
    by apply (proj1 (check_request_spec _ _ _ _) Hrules).
  - intros gv l -> Hl. unfold policy_again in Hpol. simpl in Hpol. apply policy_err_ok in Hpol. rewrite evaluate_spec in Hpol.
    destruct (Hpol l Hl) as (p & Ep & Hp). exists p. split; [done|]. by apply (pm_subjects _ _ _ _ Hp).
  - intros kid budget id E1 E2 E3 Hb. unfold key_budget_step in Hkb. rewrite E1, E2, E3 in Hkb.
    apply spend_step_ok in Hkb as (_ & Hlt & _). rewrite Hsp. by apply Hlt.
  - rewrite Hsp. exact Hws.
  - intros Hb. rewrite Hb in Hprice. destruct (lk_priced k); [done|]. discriminate.
  - by eapply check_budgets_ok.
Qed.
End check.

(** ** A concrete attempt *)

#[local] Existing Instance fixed_date.
#[local] Existing Instance small_registry.

Definition demo_context : AttemptContext := {| ac_request := small_request "assistant-1"; ac_plan := Some chat_plan; ac_zdr := true |}.

Definition demo_looks (killed : bool) : Looks :=
  {| lk_liveness := Live (r_governance (small_request "assistant-1")); lk_killed := false; lk_zdr_eligible := true;
     lk_entitlements := r_entitlements (small_request "assistant-1"); lk_routing_invalid := false; lk_priced := true;
     lk_key := Some (lit "secret"); lk_entitlements_current := true; lk_killed_again := killed; lk_zdr_again := true |}.

Definition demo_check (k : Looks) (model key : string) : option Denied * Gateway :=
  check no_hash (λ _, None) small_config demo_context k (lit model) (lit key) routed_run.2.

(** A fallback the plan does not declare is judged too; a key that was rotated, a provider
    that was switched off and a model that the workspace blocks stop the attempt. *)
Example attempts :
  (demo_check (demo_looks false) "gemini-2.5-flash" "secret").1 = None ∧
  (demo_check (demo_looks false) "gemini-2.5-flash" "old").1 = Some provider_key_unavailable ∧
  (demo_check (demo_looks true) "gemini-2.5-flash" "secret").1 = Some upstream_killed ∧
  (demo_check (demo_looks false) "o1-mini" "secret").1 = Some (refused (BlockDenied model_blocked None)).
Proof. vm_compute. repeat split. Qed.

Lemma attempt_is_permitted_witness :
  (demo_check (demo_looks false) "gemini-2.5-flash" "secret").1 = None ∧
  ∃ s, s ∈ subjects (judged asked (Some chat_plan) (lit "gemini-2.5-flash")) ∧
    subject_permitted (routed_policy_resolve (λ _, None) (Some chat_plan)) small_policy s.
Proof.
  assert ((demo_check (demo_looks false) "gemini-2.5-flash" "secret").1 = None) as Hok by (vm_compute; reflexivity).
  assert (demo_check (demo_looks false) "gemini-2.5-flash" "secret" = (None, (demo_check (demo_looks false) "gemini-2.5-flash" "secret").2)) as Hc
    by (rewrite <- Hok; apply surjective_pairing).
  destruct (attempt_is_permitted no_hash (λ _, None) small_config demo_context (demo_looks false) (lit "gemini-2.5-flash") (lit "secret")
    routed_run.2 _ (default {| su_line := None; su_model := Unknown; su_workspace_alias := false; su_provider := None;
      su_input_tokens := Unknown; su_output_cap := Unknown |} (head (subjects asked))) [] eq_refl Hc)
    as (gov & s & Hl & _ & _ & _ & _ & Hs & _ & _ & _ & Hg & _).
  injection Hl as <-. split; [exact Hok|]. exists s. split; [exact Hs|].
  destruct (Hg _ {| ly_origin := OKey; ly_policy := Valid small_policy |} eq_refl) as (p & Hp & Hperm).
  - left.
  - injection Hp as <-. exact Hperm.
Defined.
