(* ===== verification/KnownKeysProofs.v ===== *)
(** * The set of valid keys: theorems

    Of [KnownKeys]: refusals without a lookup are right, and reads are spaced.  The runs
    are any mixture of mints and of requests under the lock. *)

From Stdlib Require Import ZArith Lia.
From stdpp Require Import base list option gmap sorting.
From S2P Require Import Prelude KnownKeys.
Local Open Scope Z_scope.

Section world.
Variable table : list KeyRow.
Variable db_clock : Z → Z.
Variable cfg : KnownKeysConfig.

(** The clock of the database does not run backwards. *)
Hypothesis clock_mono : ∀ a b, a ≤ b → db_clock a ≤ db_clock b.
(** Digests have 32 bytes and a unique index. *)
Hypothesis digests_ok : ∀ row, row ∈ table → length (kr_hash row) = 32%nat.
Hypothesis digests_unique : NoDup (kr_hash <$> table).
(** A row that is not committed yet has a stamp no older than the overlap. *)
Hypothesis stamps_recent : ∀ row v, row ∈ table → ¬ committed row v → db_clock v - delta_overlap cfg ≤ kr_created row.
(** ** Runs *)

(** A request under the lock: the instants of its start, of the [now()] and the snapshot
    of its read, and of its end. *)
Record Call := {
  c_digest : bytes; c_arrival : Z; c_started : Z; c_r0 : Z; c_r : Z; c_end : Z; c_waited : Waited;
  c_sleeping : list bytes; c_reading : list bytes; c_fetch : option Z → option KeySnapshot;
}.

Definition call (k : KnownKeys) (c : Call) : Membership * KnownKeys :=
  confirm cfg (c_fetch c) k (c_digest c) (c_arrival c) (c_started c) (c_waited c) (c_sleeping c) (c_reading c).

Definition ordered (c : Call) : Prop := c_started c ≤ c_r0 c ≤ c_r c ∧ c_r c ≤ c_end c.

(** Its instants are in order, it slept as long as it should, and its read is an answer. *)
Record call_ok (k : KnownKeys) (t : Z) (c : Call) : Prop := {
  co_started : t ≤ c_started c;
  co_arrival : c_arrival c ≤ c_started c;
  co_order : ordered c;
  co_wake : ∀ w, wake cfg (kstate k) = Some w → w ≤ c_started c;
  co_answers : ∀ since snap, c_fetch c since = Some snap → answers table db_clock (kk_max cfg) (c_r0 c) (c_r c) since snap;
}.

(** Whether it asks the database. *)
Definition reads (k : KnownKeys) (c : Call) : bool :=
  match c_waited c, confirm_begin cfg k (c_digest c) (c_arrival c) with
  | (InTime | AtRead), MustRead _ _ => true
  | _, _ => false
  end.

(** The sets reached, with the instant and the starts of the reads, the last first. *)
Inductive reaches : KnownKeys → Z → list Z → Prop :=
  | reaches_new t : reaches known_new t []
  | reaches_mint k t starts d t' : reaches k t starts → t ≤ t' → reaches (note_minted k d) t' starts
  | reaches_call k t starts c : reaches k t starts → call_ok k t c →
      reaches (call k c).2 (c_end c) (if reads k c then c_started c :: starts else starts).

(** ** What the set covers *)

(** A read of the whole table at or after an instant found the row revoked or expired. *)
Definition found_dead (row : KeyRow) (from t : Z) : Prop :=
  ∃ n v, from ≤ n ≤ v ∧ v ≤ t ∧ committed row v ∧ live row (db_clock n) v = false.

(** A loaded set holds every key that its last read could see, but for those that its last
    whole read, less than [full_reload] before, found dead. *)
Definition covers (k : KnownKeys) (t : Z) : Prop := ∀ s, kset k = Some s → ∃ start full r0 r,
  last_ok_start (kstate k) = Some start ∧ last_full (kstate k) = Some full ∧ watermark (kstate k) = Some (db_clock r0) ∧
  start ≤ r0 ≤ r ∧ r ≤ t ∧ (start = full ∨ start - full < full_reload cfg) ∧
  ∀ row, row ∈ table → committed row r → kr_hash row ∈ s ∨ found_dead row full t.

Lemma committed_mono row v v' : v ≤ v' → committed row v → committed row v'.
Proof.
  unfold committed, version_at. intros Hv [x Hx]. destruct (last (filter (λ y, kv_commit y ≤ v') (kr_versions row))) eqn:Hl; [done|].
  apply last_None in Hl. apply last_Some in Hx as [l' Hx].
  assert (x ∈ filter (λ y, kv_commit y ≤ v) (kr_versions row)) as [Hc Hin]%list_elem_of_filter by (rewrite Hx; set_solver).
  assert (x ∈ filter (λ y, kv_commit y ≤ v') (kr_versions row)) as Hin' by (apply list_elem_of_filter; split; [lia|done]).
  rewrite Hl in Hin'. set_solver.
Qed.

Lemma found_dead_mono row from t t' : t ≤ t' → found_dead row from t → found_dead row from t'.
Proof. intros Ht (n & v & ? & ? & H). exists n, v. split_and!; [lia..|apply H|apply H]. Qed.

Lemma covers_mono k t t' : t ≤ t' → covers k t → covers k t'.
Proof.
  intros Ht Hk s Hs. destruct (Hk s Hs) as (start & full & r0 & r & H1 & H2 & H3 & H4 & H5 & H6 & Hall). exists start, full, r0, r.
  split_and!; try done; [lia..|]. intros row Hin Hc. destruct (Hall row Hin Hc) as [?|Hd]; [by left|right]. by eapply found_dead_mono.
Qed.

(** Mints and the marks of attempts and of failures keep it. *)
Lemma covers_more k k' t :
  last_ok_start (kstate k') = last_ok_start (kstate k) → last_full (kstate k') = last_full (kstate k) →
  watermark (kstate k') = watermark (kstate k) →
  (∀ s', kset k' = Some s' → ∃ s, kset k = Some s ∧ s ⊆ s') → covers k t → covers k' t.
Proof.
  intros H1 H2 H3 Hs Hk s' Hs'. destruct (Hs s' Hs') as (s & E & Hsub). destruct (Hk s E) as (start & full & r0 & r & G1 & G2 & G3 & G4 & G5 & G6 & Hall).
  exists start, full, r0, r. rewrite H1, H2, H3. split_and!; try done; [lia..|]. intros row Hin Hc. destruct (Hall row Hin Hc); [left|by right]. set_solver.
Qed.

Lemma mint_all_state k ds : kstate (mint_all k ds) = kstate k.
Proof. revert k. induction ds as [|d ds IH]; intros k; [done|]. cbn [mint_all foldl]. fold (mint_all (note_minted k d) ds). by rewrite IH. Qed.

Lemma mint_all_set k ds : (kset k = None → kset (mint_all k ds) = None) ∧ (∀ s, kset k = Some s → ∃ s', kset (mint_all k ds) = Some s' ∧ s ⊆ s').
Proof.
  revert k. induction ds as [|d ds IH]; intros k; [split; [done|]; intros s Hs; by exists s|].
  cbn [mint_all foldl]. fold (mint_all (note_minted k d) ds). destruct (IH (note_minted k d)) as [Hn Hs]. split.
  - intros E. apply Hn. cbn. by rewrite E.
  - intros s E. destruct (Hs ({[d]} ∪ s)) as (s' & E' & Hsub); [cbn; by rewrite E|]. exists s'. split; [done|set_solver].
Qed.

Lemma mint_all_grows k ds s' : kset (mint_all k ds) = Some s' → ∃ s, kset k = Some s ∧ s ⊆ s'.
Proof.
  destruct (mint_all_set k ds) as [Hn Hs]. destruct (kset k) as [s|]; [|by rewrite Hn].
  destruct (Hs s eq_refl) as (s2 & E & Hsub). rewrite E. intros [= <-]. by exists s.
Qed.

Lemma attempt_loaded k a st b s : kset k = Some s → ∃ s', kset (mint_all (set_kstate (mint_all k a) st) b) = Some s' ∧ s ⊆ s'.
Proof.
  intros Es. destruct (proj2 (mint_all_set k a) s Es) as (s1 & E1 & Hsub1).
  destruct (proj2 (mint_all_set (set_kstate (mint_all k a) st) b) s1 E1) as (s2 & E2 & Hsub2). exists s2. split; [done|set_solver].
Qed.

Lemma covers_mint k ds t : covers k t → covers (mint_all k ds) t.
Proof. apply covers_more; [by rewrite mint_all_state..|apply mint_all_grows]. Qed.

(** ** A read *)

(** A read whose digests are not too many has every row it selects. *)
Lemma answers_complete r0 r since snap row :
  answers table db_clock (kk_max cfg) r0 r since snap → (size (list_to_set (hashes snap) : gset bytes) ≤ kk_max cfg)%nat →
  row ∈ table → selected db_clock since r0 r row = true → kr_hash row ∈ hashes snap.
Proof.
  intros (_ & order & Hperm & Hh) Hsize Hin Hsel.
  set (sel := kr_hash <$> filter (λ row, selected db_clock since r0 r row = true) table) in *.
  assert (kr_hash row ∈ sel) as Hrow by (apply list_elem_of_fmap; exists row; by rewrite list_elem_of_filter).
  assert (∀ h, h ∈ order → length h = 32%nat) as Hlen.
  { intros h Hhin. rewrite Hperm in Hhin. apply list_elem_of_fmap in Hhin as (row' & -> & [_ Hr]%list_elem_of_filter). by apply digests_ok. }
  assert (hashes snap = take (S (kk_max cfg)) order) as Hall.
  { rewrite Hh. apply filter_all, Forall_forall. intros h Hin'. apply Hlen. apply elem_of_take in Hin' as (i & Hi & _). by eapply list_elem_of_lookup_2. }
  assert (NoDup order) as Hnd.
  { rewrite Hperm. unfold sel. apply (sublist_NoDup _ (kr_hash <$> table)); [done|]. apply fmap_sublist, sublist_filter. }
  rewrite size_list_to_set, Hall, length_take in Hsize by (rewrite Hall; apply (sublist_NoDup _ order); [done|apply sublist_take]).
  rewrite Hall, take_ge by lia. by rewrite Hperm.
Qed.

(** A full read covers, whatever the set was. *)
Lemma covers_full k d c snap :
  ordered c → answers table db_clock (kk_max cfg) (c_r0 c) (c_r c) None snap →
  covers (confirm_end cfg k d (c_started c) true snap).2 (c_end c).
Proof.
  intros [Ho1 Ho2] Ha. unfold confirm_end. cbn [kset]. case_match eqn:Hmax; [by intros s|]. apply Nat.ltb_ge in Hmax.
  unfold digest_count in Hmax. cbn in Hmax. intros s [= <-]. exists (c_started c), (c_started c), (c_r0 c), (c_r c). cbn. split_and!; try done; try lia.
  { by rewrite (proj1 Ha). }
  intros row Hin Hc. destruct (live row (db_clock (c_r0 c)) (c_r c)) eqn:Hl.
  - left. apply elem_of_list_to_set. by eapply answers_complete.
  - right. exists (c_r0 c), (c_r c). split_and!; [lia..|done|done].
Qed.

(** A read of what is new covers when the set did before. *)
Lemma covers_delta k d c full r0 r1 s snap :
  ordered c → kset k = Some s → r0 ≤ r1 → r1 ≤ c_r c →
  last_full (kstate k) = Some full → c_started c - full < full_reload cfg →
  (∀ row, row ∈ table → committed row r1 → kr_hash row ∈ s ∨ found_dead row full (c_end c)) →
  answers table db_clock (kk_max cfg) (c_r0 c) (c_r c) (Some (db_clock r0 - delta_overlap cfg)) snap →
  covers (confirm_end cfg k d (c_started c) false snap).2 (c_end c).
Proof.
  intros [Ho1 Ho2] Hs Hr Hr1 Hfl Hage Hold Ha. unfold confirm_end. cbn [kset]. rewrite Hs. cbn [fmap option_fmap option_map].
  case_match eqn:Hmax; [by intros s'|]. apply Nat.ltb_ge in Hmax. unfold digest_count in Hmax. cbn in Hmax.
  intros s' [= <-]. exists (c_started c), full, (c_r0 c), (c_r c). cbn. split_and!; try done; try lia.
  { by rewrite (proj1 Ha). }
  intros row Hin Hc. destruct (decide (committed row r1)) as [Hc1|Hn].
  - destruct (Hold row Hin Hc1); [left; set_solver|by right].
  - left. apply elem_of_union_r, elem_of_list_to_set. eapply answers_complete; [done| |done|].
    + etrans; [|exact Hmax]. apply subseteq_size. set_solver.
    + unfold selected. rewrite bool_decide_true by done. apply Z.leb_le.
      pose proof (stamps_recent row r1 Hin Hn). pose proof (clock_mono r0 r1 Hr). lia.
Qed.

(** ** Every step keeps the cover *)

Lemma begin_must_read k d arrival st loaded : confirm_begin cfg k d arrival = MustRead st loaded → st = kstate k ∧ loaded = is_loaded k.
Proof. unfold confirm_begin. repeat case_match; intros [= <- <-]; done. Qed.

Lemma delta_loaded k started : read_full cfg (kstate k) (is_loaded k) started = false → is_Some (kset k).
Proof.
  intros [[Hl%negb_false_iff _]%orb_false_iff _]%orb_false_iff. unfold is_loaded in Hl. by apply bool_decide_eq_true in Hl.
Qed.

Lemma delta_recent k started full : read_full cfg (kstate k) (is_loaded k) started = false → last_full (kstate k) = Some full →
  started - full < full_reload cfg.
Proof. intros [_ Hf]%orb_false_iff El. rewrite El in Hf. cbn in Hf. apply Z.leb_gt in Hf. lia. Qed.

Lemma covers_call k t c : covers k t → call_ok k t c → covers (call k c).2 (c_end c).
Proof.
  intros Hk Hok. pose proof (co_order _ _ _ Hok) as Ho. pose proof (co_started _ _ _ Hok) as Ht.
  assert (t ≤ c_end c) as Hte by (unfold ordered in Ho; lia).
  pose proof (covers_mono k t (c_end c) Hte Hk) as Hend. unfold call, confirm.
  destruct (c_waited c) eqn:Hw; [|done|..]; (destruct (confirm_begin _ _ _ _) as [m|st loaded] eqn:Hb; [done|]); [|by apply covers_mint|].
  - apply begin_must_read in Hb as [-> ->]. set (k1 := mint_all _ (c_reading c)).
    assert (∀ s', kset k1 = Some s' → ∃ s, kset k = Some s ∧ s ⊆ s') as Hgrow.
    { intros s' (s1 & E1 & Hs1)%mint_all_grows. apply mint_all_grows in E1 as (s & E & Hs). exists s. split; [done|set_solver]. }
    assert (kstate k1 = set_attempt (kstate k) (c_started c)) as Hst by (unfold k1; rewrite mint_all_state; cbn; by rewrite mint_all_state).
    assert (covers k1 (c_end c)) as Hk1 by (apply (covers_more k); [by rewrite Hst..|done|done]).
    destruct (c_fetch c _) as [snap|] eqn:Hf; [|apply (covers_more k1); [done..|eauto|done]].
    apply (co_answers _ _ _ Hok) in Hf. destruct (read_full _ _ _ _) eqn:Hfull; [by apply covers_full|].
    destruct (delta_loaded _ _ Hfull) as [s Es].
    destruct (attempt_loaded k (c_sleeping c) (set_attempt (kstate (mint_all k (c_sleeping c))) (c_started c)) (c_reading c) s Es) as (s2 & E2 & Hsub2).
    fold k1 in E2. destruct (Hk s Es) as (start' & full' & r0' & r1' & _ & Hfl & Hwm' & Hr' & Hrt & _ & Hall').
    unfold read_since in Hf. rewrite Hwm' in Hf. cbn in Hf.
    apply (covers_delta k1 _ c full' r0' r1' s2); [done..|lia|unfold ordered in Ho; lia|by rewrite Hst|by eapply delta_recent| |done].
    intros row Hin Hc. destruct (Hall' row Hin Hc) as [?|Hd]; [left; set_solver|right; by eapply found_dead_mono].
  - apply covers_mint, (covers_more (mint_all k (c_sleeping c))); [done..|eauto|by apply covers_mint].
Qed.

Lemma covers_reached k t starts : reaches k t starts → covers k t.
Proof.
  induction 1 as [t|k t starts d t' Hr IH Ht|k t starts c Hr IH Hok]; [by intros s| |by apply (covers_call k t)].
  apply (covers_mono _ t); [done|]. exact (covers_mint k [d] t IH).
Qed.

(** What an answer [Absent] says of the set. *)
Definition misses (k : KnownKeys) (d : bytes) (arrival : Z) : Prop :=
  ∃ s start, kset k = Some s ∧ d ∉ s ∧ last_ok_start (kstate k) = Some start ∧ arrival ≤ start.

Lemma begin_absent k d arrival : confirm_begin cfg k d arrival = Answered Absent → misses k d arrival.
Proof.
  unfold confirm_begin, contains, is_loaded. destruct (kset k) as [s|] eqn:Es; cbn.
  - case_bool_decide as Hd; [done|].
    destruct (last_ok_start (kstate k)) as [start|] eqn:El; cbn; [|done]. destruct (Z.leb_spec arrival start); [|done]. by exists s, start.
  - by case_match.
Qed.

Lemma end_absent k d started full snap arrival : arrival ≤ started → (full = false → is_Some (kset k)) →
  (confirm_end cfg k d started full snap).1 = Absent → misses (confirm_end cfg k d started full snap).2 d arrival.
Proof.
  intros Ha Hs. unfold confirm_end. case_match; [done|]. cbn [fst snd]. unfold contains, misses. cbn [set_kstate kset kstate last_ok_start].
  destruct full; [|destruct (Hs eq_refl) as [s ->]]; cbn; (case_bool_decide as Hd; [done|]); intros _; eauto 10.
Qed.

Lemma call_absent k t c : call_ok k t c → (call k c).1 = Absent → misses (call k c).2 (c_digest c) (c_arrival c).
Proof.
  intros Hok. pose proof (co_arrival _ _ _ Hok) as Ha. unfold call, confirm.
  destruct (c_waited c); [|done|..]; (destruct (confirm_begin _ _ _ _) as [m|st loaded] eqn:Hb; [cbn; intros ->; by apply begin_absent|try done]).
  destruct (c_fetch c _) as [snap|]; [|done]. apply begin_must_read in Hb as [-> ->]. apply end_absent; [done|]. intros Hfull.
  apply delta_loaded in Hfull as [s Es].
  by destruct (attempt_loaded k (c_sleeping c) (set_attempt (kstate (mint_all k (c_sleeping c))) (c_started c)) (c_reading c) s Es) as (s2 & -> & _).
Qed.

(** C28. What a refusal without a lookup rests on.  Over any run of mints and requests, with
    reads that fail, are dropped or are cut off by their limit, when the set answers that a
    digest is absent, then a key with that digest that was committed when the request
    arrived, by this process or any other writer, was found revoked or expired by a read of
    the table: one that is over before the answer, and whose [now()] is not before the
    arrival, or is less than [full_reload] before it.  So a key that is live and was live
    over that time is never refused; one whose expiry was moved after it had passed may be,
    until the table is read whole again.  The clock of the database does not run backwards,
    digests are unique, and a row is committed within the overlap of its stamp. *)
Theorem absent_was_read_dead k t starts c row :
  reaches k t starts → call_ok k t c → (call k c).1 = Absent →
  row ∈ table → kr_hash row = c_digest c → committed row (c_arrival c) →
  ∃ n v, n ≤ v ≤ c_end c ∧ committed row v ∧ live row (db_clock n) v = false ∧
    (c_arrival c ≤ n ∨ c_arrival c - n < full_reload cfg).
Proof.
  intros Hr Hok Hm Hin Hh Hc. apply covers_reached in Hr. pose proof (covers_call k t c Hr Hok) as Hcov.
  destruct (call_absent k t c Hok Hm) as (s & start & Es & Hd & El & Ha).
  destruct (Hcov s Es) as (start' & full & r0 & r & El' & _ & _ & Hord & _ & Hage & Hall). rewrite El in El'. injection El' as <-.
  destruct (Hall row Hin) as [?|(n & v & Hn & Hv & Hcv & Hlive)]; [apply (committed_mono row (c_arrival c)); [lia|done]|congruence|].
  exists n, v. split_and!; [lia..|done|done|]. destruct Hage; [left|right]; lia.
Qed.

(** ** The reads *)

(** Each read starts a refresh after the one before. *)
Fixpoint spaced (starts : list Z) : Prop :=
  match starts with
  | a :: (b :: _) as l => b + refresh cfg ≤ a ∧ spaced l
  | _ => True
  end.

Lemma end_attempt k d started full snap : last_attempt (kstate (confirm_end cfg k d started full snap).2) = last_attempt (kstate k).
Proof. unfold confirm_end. by case_match. Qed.

Lemma call_attempt k c :
  last_attempt (kstate (call k c).2) = if reads k c then Some (c_started c) else last_attempt (kstate k).
Proof.
  unfold call, confirm, reads. destruct (c_waited c); [|done|..]; (destruct (confirm_begin _ _ _ _) as [m|st loaded]; [done|]).
  - destruct (c_fetch c _); [rewrite end_attempt|]; cbn; by rewrite mint_all_state.
  - cbn. by rewrite mint_all_state.
  - cbn. by rewrite mint_all_state.
Qed.

Lemma reached_attempt k t starts : reaches k t starts → last_attempt (kstate k) = head starts ∧ spaced starts.
Proof.
  induction 1 as [t|k t starts d t' Hr IH Ht|k t starts c Hr [IH1 IH2] Hok]; [done|done|]. rewrite call_attempt.
  destruct (reads k c) eqn:Hreads; [|done]. split; [done|]. destruct starts as [|b starts]; [done|]. split; [|done].
  apply (co_wake _ _ _ Hok). unfold wake. by rewrite IH1.
Qed.

Lemma spaced_count starts : 0 ≤ refresh cfg → spaced starts → ∀ a z, head starts = Some z → last starts = Some a →
  (Z.of_nat (length starts) - 1) * refresh cfg ≤ z - a.
Proof.
  intros Hf. induction starts as [|x [|y l] IH]; [done| |].
  - intros _ a z [= <-] [= <-]. cbn. lia.
  - intros [Hxy Hs] a z [= <-] Hl. rewrite last_cons_cons in Hl. specialize (IH Hs a y eq_refl Hl). cbn [length] in *. nia.
Qed.

(** A flood of misses costs one read in a refresh.  Over any run, the reads of the table
    start at least a refresh apart, so that [n] of them span [n - 1] refreshes, however many
    requests miss. *)
Theorem reads_are_spaced k t starts a z :
  0 ≤ refresh cfg → reaches k t starts → head starts = Some z → last starts = Some a →
  spaced starts ∧ (Z.of_nat (length starts) - 1) * refresh cfg ≤ z - a.
Proof. intros Hf [_ Hs]%reached_attempt Hz Ha. split; [done|]. by apply spaced_count. Qed.
End world.

(** ** A concrete table *)

Definition demo_cfg : KnownKeysConfig := {| refresh := 10; full_reload := 1000; overlap := 5; kk_max := 3 |}.
Definition digest_of (b : byte) : bytes := replicate 32 b.

(** A key that stays, one that is revoked at 45, and one that is minted at 60. *)
Definition staying : KeyRow :=
  {| kr_hash := digest_of Byte.x01; kr_created := 8; kr_versions := [{| kv_commit := 10; kv_revoked := None; kv_expires := None |}] |}.
Definition leaving : KeyRow :=
  {| kr_hash := digest_of Byte.x02; kr_created := 10;
     kr_versions := [{| kv_commit := 10; kv_revoked := None; kv_expires := None |}; {| kv_commit := 46; kv_revoked := Some 45; kv_expires := None |}] |}.
Definition coming : KeyRow :=
  {| kr_hash := digest_of Byte.x03; kr_created := 58; kr_versions := [{| kv_commit := 60; kv_revoked := None; kv_expires := None |}] |}.
Definition demo_table : list KeyRow := [staying; leaving; coming].
Definition db_now (t : Z) : Z := t.

Definition demo_call (d : byte) (arrival started : Z) : Call :=
  {| c_digest := digest_of d; c_arrival := arrival; c_started := started; c_r0 := started + 1; c_r := started + 2; c_end := started + 3;
     c_waited := InTime; c_sleeping := []; c_reading := [];
     c_fetch := λ since, Some (fetch_known_keys demo_table db_now 3 (started + 1) (started + 2) since) |}.

Lemma demo_digests row : row ∈ demo_table → length (kr_hash row) = 32%nat.
Proof. intros Hin. unfold demo_table in Hin. by repeat (apply elem_of_cons in Hin as [->|Hin]; [reflexivity|]); apply not_elem_of_nil in Hin. Qed.

Lemma demo_stamps row v : row ∈ demo_table → ¬ committed row v → db_now v - delta_overlap demo_cfg ≤ kr_created row.
Proof.
  change (delta_overlap demo_cfg) with 5. unfold demo_table, db_now, committed, version_at. intros Hin Hn.
  repeat (apply elem_of_cons in Hin as [->|Hin]); [..|by apply not_elem_of_nil in Hin]; cbn [kr_versions kr_created staying leaving coming] in *;
    rewrite filter_cons in Hn; cbn [kv_commit] in Hn; case_decide as Hc; [..|lia| | lia| |lia]; exfalso; apply Hn; try done.
  rewrite filter_cons. by case_decide.
Qed.

Lemma demo_call_ok k t d arrival started :
  arrival ≤ started → t ≤ started → (∀ w, wake demo_cfg (kstate k) = Some w → w ≤ started) →
  call_ok demo_table db_now demo_cfg k t (demo_call d arrival started).
Proof. intros Ha Ht Hw. split; try done; [unfold ordered; cbn; lia|]. intros since snap [= <-]. apply fetch_answers. Qed.

(** The run: a full read, a mint elsewhere that the next read finds, and a revoked key that
    the set still holds, until it is read whole again. *)
Definition demo_runs : list (Membership * KnownKeys) :=
  let r1 := call demo_cfg known_new (demo_call Byte.x01 20 20) in
  let r2 := call demo_cfg r1.2 (demo_call Byte.x03 61 62) in
  let r3 := call demo_cfg r2.2 (demo_call Byte.x02 70 80) in
  let r4 := call demo_cfg r3.2 (demo_call Byte.x09 1200 1200) in
  let r5 := call demo_cfg r4.2 (demo_call Byte.x02 1210 1220) in [r1; r2; r3; r4; r5].

Example demo_answers : demo_runs.*1 = [Present; Present; Present; Absent; Absent].
Proof. vm_compute. reflexivity. Qed.

Definition demo_known : KnownKeys := (call demo_cfg known_new (demo_call Byte.x09 100 100)).2.

Lemma demo_reached : reaches demo_table db_now demo_cfg demo_known 103 [100].
Proof. apply (reaches_call demo_table db_now demo_cfg known_new 0 [] (demo_call Byte.x09 100 100)); [constructor|]. by apply demo_call_ok; [lia..|]. Qed.

Lemma absent_was_read_dead_witness :
  (call demo_cfg demo_known (demo_call Byte.x02 111 120)).1 = Absent ∧
  ∃ n v, n ≤ v ≤ 123 ∧ committed leaving v ∧ live leaving (db_now n) v = false ∧ (111 ≤ n ∨ 111 - n < 1000).
Proof.
  assert ((call demo_cfg demo_known (demo_call Byte.x02 111 120)).1 = Absent) as Hm by (vm_compute; reflexivity).
  split; [exact Hm|].
  apply (absent_was_read_dead demo_table db_now demo_cfg) with (k := demo_known) (t := 103) (starts := [100]) (c := demo_call Byte.x02 111 120).
  - by intros.
  - apply demo_digests.
  - apply (bool_decide_unpack _). vm_compute. exact I.
  - apply demo_stamps.
  - apply demo_reached.
  - apply demo_call_ok; [lia..|]. intros w Hw. vm_compute in Hw. injection Hw as <-. lia.
  - exact Hm.
  - right. left.
  - reflexivity.
  - clear Hm. vm_compute. eexists. reflexivity.
Defined.

Lemma reads_are_spaced_witness :
  let k := (call demo_cfg demo_known (demo_call Byte.x02 111 120)).2 in
  reaches demo_table db_now demo_cfg k 123 [120; 100] ∧ (2 - 1) * refresh demo_cfg ≤ 120 - 100.
Proof.
  cbv zeta. assert (reaches demo_table db_now demo_cfg (call demo_cfg demo_known (demo_call Byte.x02 111 120)).2 123 [120; 100]) as Hr.
  { apply (reaches_call demo_table db_now demo_cfg demo_known 103 [100] (demo_call Byte.x02 111 120)); [apply demo_reached|].
    apply demo_call_ok; [lia..|]. intros w Hw. vm_compute in Hw. injection Hw as <-. lia. }
  split; [exact Hr|]. refine (proj2 (reads_are_spaced demo_table db_now demo_cfg _ 123 [120; 100] 100 120 _ Hr eq_refl eq_refl)). vm_compute. discriminate.
Defined.

(** ** An expiry that is moved late *)

(** A key whose expiry, 100, is removed by an update that looked at it at 99 and was
    committed at 105. *)
Definition extended : KeyRow :=
  {| kr_hash := digest_of Byte.x04; kr_created := 8;
     kr_versions := [{| kv_commit := 10; kv_revoked := None; kv_expires := Some 100 |}; {| kv_commit := 105; kv_revoked := None; kv_expires := None |}] |}.

Definition late_call (d : byte) (arrival started : Z) : Call :=
  {| c_digest := digest_of d; c_arrival := arrival; c_started := started; c_r0 := started + 1; c_r := started + 2; c_end := started + 3;
     c_waited := InTime; c_sleeping := []; c_reading := [];
     c_fetch := λ since, Some (fetch_known_keys [extended] db_now 3 (started + 1) (started + 2) since) |}.

(** A whole read in between leaves the key out, and no read of what is new brings it back:
    it is refused although it is live, until the table is read whole again. *)
Example late_extension_is_refused :
  let k := (call demo_cfg known_new (late_call Byte.x09 101 101)).2 in
  (call demo_cfg k (late_call Byte.x04 200 200)).1 = Absent ∧ live extended (db_now 203) 203 = true ∧
  (call demo_cfg (call demo_cfg k (late_call Byte.x04 200 200)).2 (late_call Byte.x04 1200 1200)).1 = Present.
Proof. vm_compute. repeat split. Qed.
