(* ===== verification/Authority.v ===== *)
(** * What a caller may do

    [crates/shared/src/api_scope.rs] (the scopes of a key), [crates/gateway/src/auth/mod.rs]
    (roles and claims), [crates/gateway/src/auth/capability.rs] (the matrix of roles and
    capabilities) and the rule of [crates/gateway/src/key_routes.rs] for the scopes of a key
    that is minted or edited.

    The theorems: a key never holds more than its minter's role allows, and mints no other;
    the matrix has the shape it is meant to have. *)

From Stdlib Require Import ZArith Lia.
From stdpp Require Import base list option strings gmap.
From S2P Require Import Prelude Encoding Glob.

(** ** Scopes *)

Inductive ApiScope : Type := Chat | Read | Ingest | Admin | Passthrough.

#[global] Instance ApiScope_eq_dec : EqDecision ApiScope.
Proof. solve_decision. Defined.

(** [Scope::all]. *)
Definition all_scopes : list ApiScope := [Chat; Read; Ingest; Admin; Passthrough].

Definition as_slug (s : ApiScope) : bytes :=
  lit match s with Chat => "chat" | Read => "read" | Ingest => "ingest" | Admin => "admin" | Passthrough => "passthrough" end.

(** [Scope::from_slug]. *)
Definition scope_from_slug (slug : bytes) : option ApiScope :=
  let s := to_ascii_lowercase (trim slug) in
  if bool_decide (s = lit "chat") then Some Chat
  else if bool_decide (s = lit "read") then Some Read
  else if bool_decide (s = lit "ingest") then Some Ingest
  else if bool_decide (s = lit "admin") then Some Admin
  else if bool_decide (s = lit "passthrough") then Some Passthrough
  else None.

(** A set of scopes is the list of its members. *)
Inductive KeyScope : Type := LegacyFullSurface | Scoped (scopes : list ApiScope).

(** [KeyScope::from_column]. *)
Definition scope_from_column (raw : option (list bytes)) : KeyScope :=
  match raw with None => LegacyFullSurface | Some slugs => Scoped (omap scope_from_slug slugs) end.

Definition allows (k : KeyScope) (needed : ApiScope) : bool :=
  match k with
  | LegacyFullSurface => match needed with Chat | Read | Ingest | Admin => true | Passthrough => false end
  | Scoped s => bool_decide (needed ∈ s)
  end.

(** ** The matrix *)

Inductive Role : Type := Owner | Member | Viewer | Billing.
Inductive AuthMethod : Type := JwtBearer | ApiKeyMethod | SelfHostMasterKey | Mtls.

#[global] Instance Role_eq_dec : EqDecision Role.
Proof. solve_decision. Defined.
#[global] Instance AuthMethod_eq_dec : EqDecision AuthMethod.
Proof. solve_decision. Defined.

(** [Role::from_slug]. *)
Definition role_from_slug (slug : bytes) : option Role :=
  if bool_decide (slug = lit "owner" ∨ slug = lit "admin") then Some Owner
  else if bool_decide (slug = lit "developer" ∨ slug = lit "member") then Some Member
  else if bool_decide (slug = lit "viewer") then Some Viewer
  else if bool_decide (slug = lit "billing") then Some Billing
  else None.

Definition role_from_claim (raw : option bytes) : option Role := raw ≫= role_from_slug.

Inductive Capability : Type :=
  | ReadTraces | ViewSpend | ViewSettings | ViewKeys | MintKeys | ManageAllKeys | GrantPassthrough | ViewPolicies
  | EditPolicies | EditBudgets | EditProjects | ManageAlerts | AnnotateTraces | WritePrompts | ViewProviderKeys
  | ManageProviderKeys | ManageBilling | ManageTeam | ManageSecurity | ReadControlAudit | ManageControls | GrantAdminScope.

#[global] Instance Capability_eq_dec : EqDecision Capability.
Proof. solve_decision. Defined.

(** [Capability as usize]. *)
Definition capability_index (c : Capability) : nat :=
  match c with
  | ReadTraces => 0 | ViewSpend => 1 | ViewSettings => 2 | ViewKeys => 3 | MintKeys => 4 | ManageAllKeys => 5
  | GrantPassthrough => 6 | ViewPolicies => 7 | EditPolicies => 8 | EditBudgets => 9 | EditProjects => 10
  | ManageAlerts => 11 | AnnotateTraces => 12 | WritePrompts => 13 | ViewProviderKeys => 14 | ManageProviderKeys => 15
  | ManageBilling => 16 | ManageTeam => 17 | ManageSecurity => 18 | ReadControlAudit => 19 | ManageControls => 20
  | GrantAdminScope => 21
  end.

Record Row := {
  cap : Capability; slug : bytes;
  admin : bool; developer : bool; viewer : bool; billing : bool; unrecognised : bool; api_key : bool; master : bool;
}.

Definition row_new (c : Capability) (slug : string) (admin developer viewer billing unrecognised api_key master : bool) : Row :=
  {| cap := c; slug := lit slug; admin := admin; developer := developer; viewer := viewer; billing := billing;
     unrecognised := unrecognised; api_key := api_key; master := master |}.

Definition Y : bool := true.
Definition N : bool := false.

Definition MATRIX : list Row :=
  [row_new ReadTraces         "read_traces"          Y Y Y N Y Y Y;
   row_new ViewSpend          "view_spend"           Y Y Y Y Y Y Y;
   row_new ViewSettings       "view_settings"        Y Y Y Y N N Y;
   row_new ViewKeys           "view_keys"            Y Y Y Y N N Y;
   row_new MintKeys           "mint_keys"            Y Y N N N N Y;
   row_new ManageAllKeys      "manage_all_keys"      Y N N N N N Y;
   row_new GrantPassthrough   "grant_passthrough"    Y N N N N N Y;
   row_new ViewPolicies       "view_policies"        Y N N N N N Y;
   row_new EditPolicies       "edit_policies"        Y N N N N N N;
   row_new EditBudgets        "edit_budgets"         Y N N Y N Y Y;
   row_new EditProjects       "edit_projects"        Y N N N N N Y;
   row_new ManageAlerts       "manage_alerts"        Y Y N N N N Y;
   row_new AnnotateTraces     "annotate_traces"      Y Y N N N Y Y;
   row_new WritePrompts       "write_prompts"        Y N N N N Y Y;
   row_new ViewProviderKeys   "view_provider_keys"   Y N N N N N Y;
   row_new ManageProviderKeys "manage_provider_keys" Y N N N N N N;
   row_new ManageBilling      "manage_billing"       Y N N Y N N Y;
   row_new ManageTeam         "manage_team"          Y N N N N N N;
   row_new ManageSecurity     "manage_security"      Y N N N N N N;
   row_new ReadControlAudit   "read_control_audit"   Y N N N N N Y;
   row_new ManageControls     "manage_controls"      Y N N N N N Y;
   row_new GrantAdminScope    "grant_admin_scope"    Y N N N N N Y].

(** A row that grants nothing; the index is never out of range ([matrix_rows]). *)
Definition no_row : Row := row_new ReadTraces "" N N N N N N N.

(** [Capability::row]. *)
Definition row (c : Capability) : Row := nth (capability_index c) MATRIX no_row.

Definition least_role (c : Capability) : bytes :=
  let r := row c in
  lit (if viewer r then "viewer" else if billing r then "billing" else if developer r then "developer" else "admin").

(** The claims that authority is read from. *)
Record Claims := { auth_method : AuthMethod; role : option Role; key_scope : KeyScope; sub : bytes }.

Definition can (c : Claims) (k : Capability) : bool :=
  let r := row k in
  match auth_method c with
  | JwtBearer =>
      match role c with
      | Some Owner => admin r
      | Some Member => developer r
      | Some Viewer => viewer r
      | Some Billing => billing r
      | None => unrecognised r
      end
  | ApiKeyMethod => api_key r
  | SelfHostMasterKey => master r
  | Mtls => false
  end.

Definition allows_scope (c : Claims) (needed : ApiScope) : bool :=
  if negb (allows (key_scope c) needed) then false
  else if bool_decide (auth_method c = JwtBearer) && bool_decide (needed = Read) then can c ReadTraces
  else true.

Definition allows_spend_read (c : Claims) : bool := allows (key_scope c) Read && can c ViewSpend.

(** The id of the key that a request was made with. *)
Definition api_key_id (c : Claims) : option bytes :=
  if bool_decide (auth_method c = ApiKeyMethod) then
    if is_prefix (lit "apikey:") (sub c) then Some (drop 7 (sub c)) else None
  else None.

(** ** The scopes of a key *)

Definition scope_grant_capability (s : ApiScope) : Capability :=
  match s with Chat | Read | Ingest => MintKeys | Admin => GrantAdminScope | Passthrough => GrantPassthrough end.

(** The errors name the field; their text is not modelled. *)
Inductive FieldError : Type := ScopeRequired | ScopeEmpty | ScopeUnknown (slug : bytes).

Fixpoint canonical_slugs (out raw : list bytes) : result (list bytes) FieldError :=
  match raw with
  | [] => Ok out
  | slug :: raw' =>
      match scope_from_slug slug with
      | None => Err (ScopeUnknown slug)
      | Some s => canonical_slugs (if bool_decide (as_slug s ∈ out) then out else out ++ [as_slug s]) raw'
      end
  end.

Definition validate_scope (raw : option (list bytes)) : result (list bytes) FieldError :=
  match raw with None => Err ScopeRequired | Some [] => Err ScopeEmpty | Some raw => canonical_slugs [] raw end.

(** Whether the caller may not put these scopes on a key. *)
Definition scope_refusal (c : Claims) (scope : list bytes) : bool :=
  existsb (λ s, negb (can c (scope_grant_capability s))) (omap scope_from_slug scope).

Inductive KeyEditor : Type := AnyKey | MintedBy (sub : bytes).

Definition key_editor (c : Claims) : option KeyEditor :=
  if can c ManageAllKeys then Some AnyKey else if can c MintKeys then Some (MintedBy (sub c)) else None.

Inductive MintError : Type := BadField (e : FieldError) | RoleForbidden.

(** The scopes of a key, on mint and on edit: what is stored. *)
Definition grant_scope (c : Claims) (raw : option (list bytes)) : result (list bytes) MintError :=
  match validate_scope raw with
  | Err e => Err (BadField e)
  | Ok scope => if scope_refusal c scope then Err RoleForbidden else Ok scope
  end.

(** ** The shape of the matrix *)

Definition all_capabilities : list Capability :=
  [ReadTraces; ViewSpend; ViewSettings; ViewKeys; MintKeys; ManageAllKeys; GrantPassthrough; ViewPolicies; EditPolicies;
   EditBudgets; EditProjects; ManageAlerts; AnnotateTraces; WritePrompts; ViewProviderKeys; ManageProviderKeys;
   ManageBilling; ManageTeam; ManageSecurity; ReadControlAudit; ManageControls; GrantAdminScope].

Lemma matrix_rows c : MATRIX !! capability_index c = Some (row c) ∧ cap (row c) = c.
Proof. by destruct c. Qed.

Definition session (r : option Role) (sub : bytes) : Claims :=
  {| auth_method := JwtBearer; role := r; key_scope := LegacyFullSurface; sub := sub |}.

(** The claims of a key with the stored scopes. *)
Definition of_key (stored : option (list bytes)) (id : bytes) : Claims :=
  {| auth_method := ApiKeyMethod; role := None; key_scope := scope_from_column stored; sub := lit "apikey:" ++ id |}.

(** *** Slugs *)

Lemma slug_round_trip s : scope_from_slug (as_slug s) = Some s.
Proof. destruct s; vm_compute; reflexivity. Qed.

Lemma canonical_scopes out raw stored :
  canonical_slugs out raw = Ok stored → omap scope_from_slug raw ⊆ omap scope_from_slug stored ∧ omap scope_from_slug out ⊆ omap scope_from_slug stored ∧
  omap scope_from_slug stored ⊆ omap scope_from_slug out ++ omap scope_from_slug raw.
Proof.
  revert out. induction raw as [|slug raw IH]; intros out; cbn [canonical_slugs omap list_omap].
  { intros [= <-]. rewrite app_nil_r. split_and!; [set_solver|done|done]. }
  destruct (scope_from_slug slug) as [s|] eqn:Hs; [|done]. intros (H1 & H2 & H3)%IH.
  assert (omap scope_from_slug (if bool_decide (as_slug s ∈ out) then out else out ++ [as_slug s]) ⊆ s :: omap scope_from_slug out ∧
    s ∈ omap scope_from_slug (if bool_decide (as_slug s ∈ out) then out else out ++ [as_slug s]) ∧
    omap scope_from_slug out ⊆ omap scope_from_slug (if bool_decide (as_slug s ∈ out) then out else out ++ [as_slug s])) as (G1 & G2 & G3).
  { case_bool_decide as Hin.
    - split_and!; [set_solver| |done]. apply list_elem_of_omap. exists (as_slug s). by rewrite slug_round_trip.
    - rewrite omap_app. cbn [omap list_omap]. rewrite slug_round_trip. set_solver. }
  set_solver.
Qed.

Lemma granted_scopes c raw stored : grant_scope c raw = Ok stored →
  stored ≠ [] ∧ (∀ s, s ∈ omap scope_from_slug stored ↔ s ∈ omap scope_from_slug (default [] raw)) ∧
  ∀ s, s ∈ omap scope_from_slug stored → can c (scope_grant_capability s) = true.
Proof.
  unfold grant_scope, validate_scope. destruct raw as [[|slug raw]|]; [done| |done].
  destruct (canonical_slugs [] (slug :: raw)) as [st|e] eqn:Hc; [|done].
  destruct (scope_refusal c st) eqn:Hr; [done|]. intros [= <-]. pose proof (canonical_scopes _ _ _ Hc) as (H1 & _ & H3).
  split_and!.
  - intros ->. cbn [canonical_slugs] in Hc. destruct (scope_from_slug slug) as [s|] eqn:Hs; [|done].
    assert (s ∈ omap scope_from_slug (slug :: raw)) as Hin%H1 by (cbn [omap list_omap]; rewrite Hs; by left). by apply not_elem_of_nil in Hin.
  - intros s. cbn [default]. split; [intros Hin%H3; exact Hin|apply H1].
  - intros s Hin. unfold scope_refusal in Hr. destruct (can c (scope_grant_capability s)) eqn:Hcan; [done|].
    assert (existsb (λ s, negb (can c (scope_grant_capability s))) (omap scope_from_slug st) = true) as Ht; [|congruence].
    apply existsb_exists. exists s. rewrite Hcan. split; [by apply list_elem_of_In|done].
Qed.

(** Who may grant the admin scope holds whatever a key can hold. *)
Lemma admin_granter_covers_keys c k id : can c GrantAdminScope = true → can (of_key None id) k = true → can c k = true.
Proof. destruct c as [[] [[]|] ks sb]; cbn; try done; destruct k; done. Qed.

Lemma minter_reads c : can c MintKeys = true → can c ReadTraces = true ∧ can c ViewSpend = true.
Proof. by destruct c as [[] [[]|] ks sb]. Qed.

(** C29. A key never holds more than its minter's role allows.  When scopes are granted to a
    key, on mint or on edit, the key has exactly the scopes that were asked for, at least
    one, and the caller's role may grant each of them.  If the key may use the admin scope,
    whatever capability it holds its minter holds; if it may read, its minter may read
    traces and spend; and it can mint, grant to and edit no key itself, so that nothing is
    gained by going through other keys (the matrix decides: the comment at the gate of
    [create_key_handler], that keys are grandfathered there, is out of date). *)
Theorem key_holds_no_more c raw stored id :
  grant_scope c raw = Ok stored →
  let k := of_key (Some stored) id in
  stored ≠ [] ∧
  (∀ s, allows_scope k s = true ↔ s ∈ omap scope_from_slug (default [] raw)) ∧
  (∀ s, allows_scope k s = true → can c (scope_grant_capability s) = true) ∧
  (allows_scope k Admin = true → ∀ cap, can k cap = true → can c cap = true) ∧
  (allows_scope k Read = true → can c ReadTraces = true ∧ can c ViewSpend = true) ∧
  key_editor k = None ∧ ∀ raw' stored', grant_scope k raw' ≠ Ok stored'.
Proof.
  intros Hg k. destruct (granted_scopes c raw stored Hg) as (Hne & Hall & Hcan).
  assert (∀ s, allows_scope k s = true ↔ s ∈ omap scope_from_slug stored) as Hk.
  { intros s. unfold allows_scope, k, of_key. cbn. case_bool_decide as Hin; cbn; [|done]. split; done. }
  split_and!; [done|intros s; by rewrite Hk|intros s Hs; by apply Hcan, Hk|..].
  - intros Ha%Hk%Hcan cap0 Hc. by apply (admin_granter_covers_keys c cap0 id).
  - intros Hr%Hk%Hcan. by apply minter_reads.
  - done.
  - intros raw' stored' Hg'. destruct (granted_scopes k raw' stored' Hg') as (Hne' & _ & Hcan').
    assert (omap scope_from_slug stored' = []) as Hnil.
    { destruct (omap scope_from_slug stored') as [|s l] eqn:Ho; [done|]. specialize (Hcan' s ltac:(by left)). by destruct s. }
    unfold grant_scope, validate_scope in Hg'. destruct raw' as [[|slug raw']|]; [done| |done].
    destruct (canonical_slugs [] (slug :: raw')) as [st|e] eqn:Hcs; [|done]. destruct (scope_refusal k st); [done|].
    injection Hg' as <-. pose proof (canonical_scopes _ _ _ Hcs) as (H1 & _ & _). rewrite Hnil in H1.
    cbn [canonical_slugs] in Hcs. destruct (scope_from_slug slug) as [s|] eqn:Hs; [|done].
    assert (s ∈ omap scope_from_slug (slug :: raw')) as Hin%H1 by (cbn [omap list_omap]; rewrite Hs; by left). by apply not_elem_of_nil in Hin.
Qed.

Lemma key_holds_no_more_witness :
  grant_scope (session (Some Member) (lit "u1")) (Some [lit " Chat"; lit "read"; lit "chat"]) = Ok [lit "chat"; lit "read"] ∧
  grant_scope (session (Some Member) (lit "u1")) (Some [lit "chat"; lit "admin"]) = Err RoleForbidden ∧
  allows_scope (of_key (Some [lit "chat"; lit "read"]) (lit "k1")) Admin = false.
Proof.
  assert (grant_scope (session (Some Member) (lit "u1")) (Some [lit " Chat"; lit "read"; lit "chat"]) = Ok [lit "chat"; lit "read"]) as Hg
    by (vm_compute; reflexivity).
  split; [exact Hg|]. split; [vm_compute; reflexivity|].
  destruct (key_holds_no_more _ _ _ (lit "k1") Hg) as (_ & _ & Hcan & _).
  destruct (allows_scope (of_key (Some [lit "chat"; lit "read"]) (lit "k1")) Admin) eqn:Ha; [|reflexivity].
  specialize (Hcan Admin Ha). vm_compute in Hcan. discriminate.
Defined.

(** The admin role holds everything; a service identity nothing; a viewer and a session
    without a known role only read; only an admin session changes policy, providers, the
    team or security; the billing role sees spend and no traces; slugs are unique. *)
Theorem matrix_shape :
  (∀ k sb, can (session (Some Owner) sb) k = true) ∧
  (∀ c k, auth_method c = Mtls → can c k = false) ∧
  (∀ k sb, can (session None sb) k = true → k = ReadTraces ∨ k = ViewSpend) ∧
  (∀ k sb, can (session (Some Viewer) sb) k = true → k ∈ [ReadTraces; ViewSpend; ViewSettings; ViewKeys]) ∧
  (∀ c k, k ∈ [EditPolicies; ManageProviderKeys; ManageTeam; ManageSecurity] → can c k = true → auth_method c = JwtBearer ∧ role c = Some Owner) ∧
  (∀ sb, can (session (Some Billing) sb) ViewSpend = true ∧ allows_scope (session (Some Billing) sb) Read = false ∧
     allows_spend_read (session (Some Billing) sb) = true) ∧
  NoDup (slug <$> MATRIX).
Proof.
  split_and!.
  - by intros [].
  - by intros [[] ? ? ?] k.
  - intros [] sb; vm_compute; intros H; first [discriminate H|left; reflexivity|right; reflexivity].
  - intros [] sb; vm_compute; intros H; first [discriminate H|repeat first [left|right]].
  - intros [[] [[]|] ks sb] k Hk; repeat (apply elem_of_cons in Hk as [->|Hk]); try done; by apply not_elem_of_nil in Hk.
  - done.
  - apply (bool_decide_unpack _). vm_compute. exact I.
Qed.
