(* ===== verification/KeyCache.v ===== *)
(** * The lookup of a key and its caches

    [crates/gateway/src/db/api_keys.rs]: the positive cache, the negative cache, the
    last-known answers that are served past the lifetime of the cache while the row is read
    again, the refresher of the keys in use, and the lookup in the table.

    A lookup in the table and a refresh hold the read side of the cache lock from before
    their query until they have written the caches; a writer of this process holds the
    write side from before its commit until it has invalidated the keys it wrote.  The
    answers from the caches take no lock.  [World] has the rows, the caches, the refreshes
    that were started, the holders of the read side and the writer with the keys it has
    still to invalidate; [step] is one step of one of them.  The commit and each
    invalidation are steps of their own, and the writer may be cut off between them.  Any
    interleaving is a sequence of steps, each at an instant of its own.

    The digest of a key and the verification of its Argon2id hash are parameters.  The
    caches of the [moka] library hold an entry for its time to live, and may drop it at any
    step.  Expiry and revocation are compared with the clock of the database in a query and
    with the clock of the gateway in a cache. *)

From Stdlib Require Import ZArith Lia.
From stdpp Require Import base list option gmap strings sorting.
From S2P Require Import Prelude Float64 Encoding Glob KeyPolicy Pricing KnownKeys Authority PreAuth.
Local Open Scope Z_scope.

(** ** Settings *)

Definition DEFAULT_AUTH_CACHE_TTL_SECS : Z := 60.
Definition MAX_AUTH_CACHE_TTL_SECS : Z := 900.
Definition NEGATIVE_TTL_SECS : Z := 30.
Definition DEFAULT_REFRESH_INTERVAL_SECS : Z := 20.
Definition MAX_ACTIVE_DIGESTS : nat := 10000.
Definition MAX_LAST_KNOWN : nat := 10000.
Definition MAX_REFRESH_PER_TICK : nat := 100.

Definition parse_auth_cache_ttl (raw : option bytes) : Z :=
  match (v ← raw; parse_u64 (trim v)) with
  | Some s => if (1 <=? s) && (s <=? MAX_AUTH_CACHE_TTL_SECS) then s else DEFAULT_AUTH_CACHE_TTL_SECS
  | None => DEFAULT_AUTH_CACHE_TTL_SECS
  end.

Definition parse_refresh_interval (raw : option bytes) (ttl_secs : Z) : Z :=
  let want := default DEFAULT_REFRESH_INTERVAL_SECS (v ← raw; parse_u64 (trim v)) in
  clamp 5 (Z.max 5 (ttl_secs / 2)) want.

Definition stale_max_secs (ttl_secs : Z) : Z := Z.min (ttl_secs * 15) 900.

(** ** Rows and answers *)

(** The columns of [api_keys] and of its project that authentication reads. *)
Record AuthRow := {
  ar_tenant : bytes; ar_id : bytes; ar_phc : option bytes; ar_scope : option (list bytes); ar_expires : option Z;
  ar_budget : option bytes; ar_rpm : option Z; ar_reset : bytes; ar_revoked : option Z;
  ar_project : option bytes; ar_environment : option bytes; ar_key_policy : option (option Doc); ar_project_policy : option (option Doc);
}.

(** [CachedAuth]. *)
Record CachedAuth := {
  ca_tenant : bytes; ca_id : bytes; ca_scope : KeyScope; ca_budget : option f64; ca_rpm : option Z; ca_reset : BudgetWindow;
  ca_until : option Z; ca_governance : option Governance;
}.

Inductive LookupPath : Type := Warm | Stale | Cold.

(** [KeyAuth]. *)
Record KeyAuth := {
  ka_tenant : bytes; ka_id : bytes; ka_scope : KeyScope; ka_budget : option f64; ka_rpm : option Z; ka_reset : BudgetWindow;
  ka_governance : option Governance; ka_path : LookupPath;
}.

(** [BudgetReset::from_column]. *)
Definition reset_from_column (s : bytes) : BudgetWindow :=
  if bool_decide (s = lit "daily") then Daily else if bool_decide (s = lit "weekly") then Weekly else Monthly.

Definition auth_deadline (expires_at revoked_at : option Z) : option Z :=
  match expires_at, revoked_at with
  | Some e, Some r => Some (Z.min e r)
  | Some t, None | None, Some t => Some t
  | None, None => None
  end.

Definition governance_from_row (r : AuthRow) : option Governance :=
  from_columns (ar_project r) (ar_environment r) (ar_project_policy r) (ar_key_policy r).

Definition budget_of (r : AuthRow) : option f64 :=
  t ← ar_budget r; v ← parse_f64 t; if f64_is_finite v && f64_gt v (f64_of 0) then Some v else None.

Definition rpm_of (r : AuthRow) : option Z := v ← ar_rpm r; if 0 <? v then Some v else None.

(** The entry that a row gives, in the lookup and in the refresh. *)
Definition row_entry (r : AuthRow) : CachedAuth :=
  {| ca_tenant := ar_tenant r; ca_id := ar_id r; ca_scope := scope_from_column (ar_scope r); ca_budget := budget_of r; ca_rpm := rpm_of r;
     ca_reset := reset_from_column (ar_reset r); ca_until := auth_deadline (ar_expires r) (ar_revoked r);
     ca_governance := governance_from_row r |}.

Definition key_auth (e : CachedAuth) (p : LookupPath) : KeyAuth :=
  {| ka_tenant := ca_tenant e; ka_id := ca_id e; ka_scope := ca_scope e; ka_budget := ca_budget e; ka_rpm := ca_rpm e;
     ka_reset := ca_reset e; ka_governance := ca_governance e; ka_path := p |}.

(** The condition of the query, with its [now()]. *)
Definition row_live (n : Z) (r : AuthRow) : bool := after n (ar_revoked r) && after n (ar_expires r).

(** [valid_until.is_some_and(|deadline| now >= deadline)]. *)
Definition past (utc : Z) (until : option Z) : bool := from_option (λ d, d <=? utc) false until.

(** ** The caches *)

(** Entries with the instant at which they were written, and the counters. *)
Record AuthState := {
  auth_cache : gmap bytes (CachedAuth * Z);
  negative_cache : gmap bytes Z;
  last_known : gmap bytes (CachedAuth * Z);
  active_digests : gmap bytes Z;
  hit_total : Z; miss_total : Z; negative_hit_total : Z; stale_served_total : Z; known_key_rejected_total : Z;
}.

Definition set_auth_cache (s : AuthState) m : AuthState :=
  {| auth_cache := m; negative_cache := negative_cache s; last_known := last_known s; active_digests := active_digests s;
     hit_total := hit_total s; miss_total := miss_total s; negative_hit_total := negative_hit_total s;
     stale_served_total := stale_served_total s; known_key_rejected_total := known_key_rejected_total s |}.
Definition set_negative (s : AuthState) m : AuthState :=
  {| auth_cache := auth_cache s; negative_cache := m; last_known := last_known s; active_digests := active_digests s;
     hit_total := hit_total s; miss_total := miss_total s; negative_hit_total := negative_hit_total s;
     stale_served_total := stale_served_total s; known_key_rejected_total := known_key_rejected_total s |}.
Definition set_last_known (s : AuthState) m : AuthState :=
  {| auth_cache := auth_cache s; negative_cache := negative_cache s; last_known := m; active_digests := active_digests s;
     hit_total := hit_total s; miss_total := miss_total s; negative_hit_total := negative_hit_total s;
     stale_served_total := stale_served_total s; known_key_rejected_total := known_key_rejected_total s |}.
Definition set_active (s : AuthState) m : AuthState :=
  {| auth_cache := auth_cache s; negative_cache := negative_cache s; last_known := last_known s; active_digests := m;
     hit_total := hit_total s; miss_total := miss_total s; negative_hit_total := negative_hit_total s;
     stale_served_total := stale_served_total s; known_key_rejected_total := known_key_rejected_total s |}.
(** Add to the counters: hits, misses, negative hits, stale answers, rejections of the set. *)
Definition count (s : AuthState) (h m n st k : Z) : AuthState :=
  {| auth_cache := auth_cache s; negative_cache := negative_cache s; last_known := last_known s; active_digests := active_digests s;
     hit_total := hit_total s + h; miss_total := miss_total s + m; negative_hit_total := negative_hit_total s + n;
     stale_served_total := stale_served_total s + st; known_key_rejected_total := known_key_rejected_total s + k |}.

Definition SECOND : Z := 1000000000.
Definition elapsed (now at_ : Z) : Z := Z.max 0 (now - at_).
Definition as_secs (d : Z) : Z := d / SECOND.

(** An entry of a cache with a time to live. *)
Definition fresh {A} (ttl_secs now : Z) (e : A * Z) : option A := if now - e.2 <? ttl_secs * SECOND then Some e.1 else None.

Definition cache_get (ttl_secs now : Z) (s : AuthState) (d : bytes) : option CachedAuth := auth_cache s !! d ≫= fresh ttl_secs now.
Definition negative_get (now : Z) (s : AuthState) (d : bytes) : bool :=
  from_option (λ at_, now - at_ <? NEGATIVE_TTL_SECS * SECOND) false (negative_cache s !! d).
Definition negative_insert (now : Z) (s : AuthState) (d : bytes) : AuthState := set_negative s (<[d := now]> (negative_cache s)).
Definition forget_negative (s : AuthState) (d : bytes) : AuthState := set_negative s (delete d (negative_cache s)).

Definition note_active (now : Z) (s : AuthState) (d : bytes) : AuthState :=
  if (MAX_ACTIVE_DIGESTS <=? size (active_digests s))%nat && negb (bool_decide (is_Some (active_digests s !! d))) then s
  else set_active s (<[d := now]> (active_digests s)).

(** The key of the entry that was written first. *)
Definition staler (ke : bytes * (CachedAuth * Z)) (best : option (bytes * Z)) : option (bytes * Z) :=
  match best with
  | None => Some (ke.1, ke.2.2)
  | Some kt => if ke.2.2 <? kt.2 then Some (ke.1, ke.2.2) else Some kt
  end.
Definition stalest (m : gmap bytes (CachedAuth * Z)) : option bytes := fst <$> foldr staler None (map_to_list m).

(** The loop that drops the stalest while the map is full. *)
Fixpoint drop_stalest (fuel cap : nat) (m : gmap bytes (CachedAuth * Z)) : gmap bytes (CachedAuth * Z) :=
  match fuel with
  | O => m
  | S fuel' =>
      if (cap <=? size m)%nat then match stalest m with Some k => drop_stalest fuel' cap (delete k m) | None => m end else m
  end.

Definition evict_last_known_if_full (now : Z) (m : gmap bytes (CachedAuth * Z)) (cap : nat) (cutoff_secs : Z) : gmap bytes (CachedAuth * Z) :=
  if (size m <? cap)%nat then m
  else
    let m := filter (λ ke, as_secs (elapsed now ke.2.2) < cutoff_secs) m in
    drop_stalest (size m) cap m.

Section cache.
Variable ttl_secs : Z.

Definition remember_last_known (now : Z) (s : AuthState) (d : bytes) (e : CachedAuth) : AuthState :=
  set_last_known s (<[d := (e, now)]> (evict_last_known_if_full now (last_known s) MAX_LAST_KNOWN (stale_max_secs ttl_secs))).
Definition forget_last_known (s : AuthState) (d : bytes) : AuthState := set_last_known s (delete d (last_known s)).
Definition last_known_fresh_enough (now : Z) (s : AuthState) (d : bytes) : option CachedAuth :=
  '(e, at_) ← last_known s !! d; if as_secs (elapsed now at_) <? stale_max_secs ttl_secs then Some e else None.

Definition invalidate (s : AuthState) (d : bytes) : AuthState :=
  forget_last_known (set_auth_cache s (delete d (auth_cache s))) d.

(** ** The refresher *)

(** Which keys are due: oldest first, within the budget. *)
Definition older (a b : bytes * Z) : Prop := b.2 ≤ a.2.

#[global] Instance older_dec a b : Decision (older a b).
Proof. unfold older. apply _. Defined.

Definition select_due (due : list (bytes * Z)) (budget : nat) : list bytes := (firstn budget (merge_sort older due)).*1.

Definition due_for_refresh (idle_secs now : Z) (s : AuthState) : list bytes * AuthState :=
  let map := filter (λ ds, elapsed now ds.2 < idle_secs * SECOND) (active_digests s) in
  let due := (λ ds, (ds.1, elapsed now ds.2)) <$> filter (λ ds, ttl_secs / 2 * SECOND ≤ elapsed now ds.2) (map_to_list map) in
  (select_due due MAX_REFRESH_PER_TICK, set_active s map).

(** ** The lookup *)

(** The lookup before the store: granted, refused, or to be looked up; a stale answer
    starts a refresh. *)
Inductive Fast : Type := Granted (a : KeyAuth) (refresh : bool) | Refused | Miss.

Definition lookup_fast (now utc : Z) (s : AuthState) (d : bytes) : Fast * AuthState :=
  match cache_get ttl_secs now s d with
  | Some e =>
      if past utc (ca_until e) then (Refused, s)
      else (Granted (key_auth e Warm) false, note_active now (count s 1 0 0 0 0) d)
  | None =>
      let s := count s 0 1 0 0 0 in
      if negative_get now s d then (Refused, count s 0 0 1 0 0)
      else
        match last_known_fresh_enough now s d with
        | Some e =>
            if past utc (ca_until e) then (Refused, s)
            else (Granted (key_auth e Stale) true, note_active now (count s 0 0 0 1 0) d)
        | None => (Miss, s)
        end
  end.

(** What the set of valid keys says decides the bounds of the lookup; no set, no answer. *)
Definition gating_of (m : option Membership) : option Gating :=
  match m with None | Some MUnknown => Some Source | Some Present => Some Known | Some Absent => None end.

(** [lookup_cold_stage] up to its lookup: [None] is a refusal, otherwise the lookup begins
    under the bounds of the limiter, or is told to wait; [end_lookup] ends it. *)
Definition lookup_cold_stage (p : AuthThrottlePolicy) (m : option Membership) (source now : Z) (i : Inner) (s : AuthState) (d : bytes)
    : option (result (option Z) Z) * Inner * AuthState :=
  match gating_of m with
  | None => (None, i, negative_insert now (count s 0 0 0 0 1) d)
  | Some g => let '(r, i) := begin_lookup p g source now i in (Some r, i, s)
  end.

(** ** The table *)

(** The query of the lookup and of the refresh. *)
Definition select_row (rows : gmap bytes AuthRow) (n : Z) (d : bytes) : option AuthRow :=
  r ← rows !! d; if row_live n r then Some r else None.

Section kdf.
(** [argon2id_verify] of the stored hash and the body; [None] is a malformed hash. *)
Variable verify : bytes → bytes → option bool.

Definition phc_ok (r : AuthRow) (body : bytes) : bool :=
  from_option (λ p, default false (verify p body)) false (ar_phc r).

(** [cold_lookup] after its query; [utc] is the time of the request, [utc'] the time now. *)
Definition cold_finish (now utc utc' : Z) (row : option AuthRow) (body : bytes) (s : AuthState) (d : bytes) : option KeyAuth * AuthState :=
  match row with
  | None => (None, negative_insert now s d)
  | Some r =>
      if negb (phc_ok r body) then (None, s)
      else
        let e := row_entry r in
        if past (Z.max utc utc') (ca_until e) then (None, s)
        else (Some (key_auth e Cold),
              note_active now (remember_last_known now (set_auth_cache s (<[d := (e, now)]> (auth_cache s))) d e) d)
  end.
End kdf.

(** [refresh_one] after its query. *)
Definition refresh_finish (now : Z) (row : option AuthRow) (s : AuthState) (d : bytes) : AuthState :=
  match row with
  | None => let s := invalidate s d in set_active s (delete d (active_digests s))
  | Some r =>
      let e := row_entry r in remember_last_known now (set_auth_cache s (<[d := (e, now)]> (auth_cache s))) d e
  end.
End cache.

(** ** Steps *)

(** A lookup, with the body of the key and the time of its request, or a refresh, that
    holds the read side of the lock, and the row it read. *)
Record Held := { h_digest : bytes; h_cold : option (bytes * Z); h_row : option AuthRow }.

(** [w_refreshes] are the keys whose refresh was started: it may run at any later step.
    [w_writer] is the writer that holds the write side, with the keys it has still to
    invalidate. *)
Record World := {
  w_rows : gmap bytes AuthRow; w_auth : AuthState; w_refreshes : list bytes; w_held : list Held; w_writer : option (list bytes);
}.

Definition set_w_rows (w : World) m : World :=
  {| w_rows := m; w_auth := w_auth w; w_refreshes := w_refreshes w; w_held := w_held w; w_writer := w_writer w |}.
Definition set_w_auth (w : World) s : World :=
  {| w_rows := w_rows w; w_auth := s; w_refreshes := w_refreshes w; w_held := w_held w; w_writer := w_writer w |}.
Definition set_w_refreshes (w : World) l : World :=
  {| w_rows := w_rows w; w_auth := w_auth w; w_refreshes := l; w_held := w_held w; w_writer := w_writer w |}.
Definition set_w_held (w : World) l : World :=
  {| w_rows := w_rows w; w_auth := w_auth w; w_refreshes := w_refreshes w; w_held := l; w_writer := w_writer w |}.
Definition set_w_writer (w : World) o : World :=
  {| w_rows := w_rows w; w_auth := w_auth w; w_refreshes := w_refreshes w; w_held := w_held w; w_writer := o |}.

Definition put_row (rows : gmap bytes AuthRow) (d : bytes) (r : option AuthRow) : gmap bytes AuthRow :=
  match r with Some r => <[d := r]> rows | None => delete d rows end.

(** The commit of a writer of this process: it has waited for the holders of the read side
    and for the writer before it, and its rows are written. *)
Definition commit (rs : list (bytes * option AuthRow)) (w : World) : option World :=
  if bool_decide (w_held w = []) && bool_decide (w_writer w = None) then
    Some (set_w_writer (set_w_rows w (foldl (λ m dr, put_row m dr.1 dr.2) (w_rows w) rs)) (Some rs.*1))
  else None.

(** The loop of the writer after its commit: the next key is invalidated; after the last
    the lock is released. *)
Definition invalidate_next (w : World) : option World :=
  match w_writer w with
  | Some (d :: ds) => Some (set_w_writer (set_w_auth w (invalidate (w_auth w) d)) (Some ds))
  | Some [] => Some (set_w_writer w None)
  | None => None
  end.

(** The writer is cut off: its request was dropped, or the commit was made and reported as
    an error.  The lock is released, and what is left is not invalidated. *)
Definition cut_off (w : World) : option World := if w_writer w then Some (set_w_writer w None) else None.

(** A writer to its end with nothing in between. *)
Fixpoint invalidate_rest (fuel : nat) (w : World) : option World :=
  match fuel with
  | O => Some w
  | S fuel' => w ← invalidate_next w; invalidate_rest fuel' w
  end.
Definition commit_and_invalidate (rs : list (bytes * option AuthRow)) (w : World) : option World :=
  w ← commit rs w; invalidate_rest (S (length rs)) w.

(** A mint of this process: the row is committed, and a negative answer forgotten. *)
Definition mint (d : bytes) (r : AuthRow) (w : World) : World :=
  set_w_auth (set_w_rows w (<[d := r]> (w_rows w))) (forget_negative (w_auth w) d).

Inductive Event : Type :=
  | EvLookup (body : bytes) (utc : Z)              (** a request, up to the store *)
  | EvAbsent (d : bytes)                           (** the set of valid keys refuses *)
  | EvTick                                         (** the refresher *)
  | EvSelect (cold : option (bytes * Z)) (d : bytes) (n : Z)  (** a query, its [now()] at [n] *)
  | EvFinish (i : nat) (utc : Z)                   (** a holder of the lock finishes *)
  | EvDrop (i : nat)                               (** a holder is cancelled *)
  | EvCommit (rs : list (bytes * option AuthRow))  (** a writer of this process commits *)
  | EvInvalidateNext                               (** the writer invalidates a key, or is done *)
  | EvCutOff                                       (** the writer is cut off *)
  | EvWrite (d : bytes) (r : option AuthRow)       (** a write of another process *)
  | EvMint (d : bytes) (r : AuthRow)               (** a mint of this process *)
  | EvInvalidate (d : bytes)                       (** the notification of a revocation *)
  | EvEvict (d : bytes) | EvEvictNegative (d : bytes). (** a cache drops an entry *)

Section steps.
Variable digest : bytes → bytes.
Variable verify : bytes → bytes → option bool.
Variables ttl_secs idle_secs : Z.

(** A step at an instant; [None] when it cannot be taken.  It may grant a key. *)
Definition step (now : Z) (e : Event) (w : World) : option (World * option (bytes * KeyAuth)) :=
  match e with
  | EvLookup body utc =>
      let d := digest body in
      let '(r, s) := lookup_fast ttl_secs now utc (w_auth w) d in
      let w := set_w_auth w s in
      match r with
      | Granted a refresh => Some (if refresh then set_w_refreshes w (d :: w_refreshes w) else w, Some (d, a))
      | Refused | Miss => Some (w, None)
      end
  | EvAbsent d => Some (set_w_auth w (negative_insert now (count (w_auth w) 0 0 0 0 1) d), None)
  | EvTick =>
      let '(ds, s) := due_for_refresh ttl_secs idle_secs now (w_auth w) in
      Some (set_w_refreshes (set_w_auth w s) (ds ++ w_refreshes w), None)
  | EvSelect cold d n =>
      let allowed := match cold with
                     | Some (body, _) => bool_decide (digest body = d)
                     | None => bool_decide (d ∈ w_refreshes w)
                     end in
      if allowed && bool_decide (w_writer w = None) then
        Some (set_w_held w ({| h_digest := d; h_cold := cold; h_row := select_row (w_rows w) n d |} :: w_held w), None)
      else None
  | EvFinish i utc =>
      h ← w_held w !! i;
      let w := set_w_held w (delete i (w_held w)) in
      match h_cold h with
      | Some (body, utc0) =>
          let '(a, s) := cold_finish ttl_secs verify now utc0 utc (h_row h) body (w_auth w) (h_digest h) in
          Some (set_w_auth w s, (λ a, (h_digest h, a)) <$> a)
      | None => Some (set_w_auth w (refresh_finish ttl_secs now (h_row h) (w_auth w) (h_digest h)), None)
      end
  | EvDrop i => Some (set_w_held w (delete i (w_held w)), None)
  | EvCommit rs => w ← commit rs w; Some (w, None)
  | EvInvalidateNext => w ← invalidate_next w; Some (w, None)
  | EvCutOff => w ← cut_off w; Some (w, None)
  | EvWrite d r => Some (set_w_rows w (put_row (w_rows w) d r), None)
  | EvMint d r => Some (mint d r w, None)
  | EvInvalidate d => Some (set_w_auth w (invalidate (w_auth w) d), None)
  | EvEvict d => Some (set_w_auth w (set_auth_cache (w_auth w) (delete d (auth_cache (w_auth w)))), None)
  | EvEvictNegative d => Some (set_w_auth w (forget_negative (w_auth w) d), None)
  end.
End steps.

Definition no_caches : AuthState :=
  {| auth_cache := ∅; negative_cache := ∅; last_known := ∅; active_digests := ∅; hit_total := 0; miss_total := 0;
     negative_hit_total := 0; stale_served_total := 0; known_key_rejected_total := 0 |}.

Definition world_new (rows : gmap bytes AuthRow) : World := {| w_rows := rows; w_auth := no_caches; w_refreshes := []; w_held := []; w_writer := None |}.
