(* ===== verification/KeyCacheProofs.v ===== *)
(** * The lookup of a key: theorems

    Over every interleaving of requests, refreshes, writers and evictions of [KeyCache]:
    what a grant rests on, that a revocation of this process holds at once, and the bounds
    of the maps. *)

From Stdlib Require Import ZArith Lia.
From stdpp Require Import base list option gmap strings sorting.
From S2P Require Import Prelude Float64 Encoding KeyPolicy KnownKeys Authority KeyCache.
Local Open Scope Z_scope.

(** ** The bounds of the maps *)

Lemma max_last_known_pos : (1 ≤ MAX_LAST_KNOWN)%nat.
Proof. apply Nat.leb_le. vm_compute. reflexivity. Qed.

#[local] Opaque MAX_LAST_KNOWN MAX_ACTIVE_DIGESTS.

Lemma stalest_some m : m ≠ ∅ → ∃ k, stalest m = Some k ∧ is_Some (m !! k).
Proof.
  intros Hm. unfold stalest.
  assert (∀ l, l ≠ [] → ∃ kt, foldr staler None l = Some kt ∧ kt.1 ∈ l.*1) as Hf.
  { induction l as [|ke l IH]; [done|]. intros _. cbn [foldr]. unfold staler at 1.
    destruct (foldr staler None l) as [kt|] eqn:E; [|eexists; split; [done|by left]].
    case_match; eexists; (split; [done|]); [by left|]. destruct l as [|x l]; [done|]. destruct (IH ltac:(done)) as (kt' & [= <-] & Hin). by right. }
  destruct (Hf (map_to_list m)) as (kt & -> & Hin).
  - by intros ->%map_to_list_empty_iff.
  - exists kt.1. split; [done|]. apply list_elem_of_fmap in Hin as ([k' v] & -> & Hin%elem_of_map_to_list). by exists v.
Qed.

Lemma drop_stalest_sub fuel cap m k v : drop_stalest fuel cap m !! k = Some v → m !! k = Some v.
Proof.
  revert m. induction fuel as [|fuel IH]; intros m; [done|]. cbn [drop_stalest]. case_match; [|done].
  destruct (stalest m) as [k'|]; [|done]. intros H1%IH. by apply lookup_delete_Some in H1 as [_ H1].
Qed.

Lemma drop_stalest_size fuel cap m : (1 ≤ cap)%nat → (size m ≤ fuel)%nat → (size (drop_stalest fuel cap m) < cap)%nat.
Proof.
  intros Hc. revert m. induction fuel as [|fuel IH]; intros m Hm; cbn [drop_stalest]; [lia|].
  destruct (Nat.leb_spec cap (size m)) as [Hle|]; [|lia].
  destruct (stalest_some m) as (k & -> & [v Hk]); [intros ->; rewrite map_size_empty in Hle; lia|].
  apply IH. rewrite map_size_delete, Hk. lia.
Qed.

(** The eviction leaves room, and invents nothing. *)
Lemma evict_spec now m cap cutoff : (1 ≤ cap)%nat →
  (size (evict_last_known_if_full now m cap cutoff) < cap)%nat ∧
  ∀ k v, evict_last_known_if_full now m cap cutoff !! k = Some v → m !! k = Some v.
Proof.
  intros Hc. unfold evict_last_known_if_full. destruct (Nat.ltb_spec (size m) cap); [done|]. split.
  - by apply drop_stalest_size.
  - intros k v H1%drop_stalest_sub. by apply map_lookup_filter_Some in H1 as [H1 _].
Qed.

Definition bounded (s : AuthState) : Prop :=
  (size (last_known s) ≤ MAX_LAST_KNOWN)%nat ∧ (size (active_digests s) ≤ MAX_ACTIVE_DIGESTS)%nat.

Lemma bounded_note_active now s d : bounded s → bounded (note_active now s d).
Proof.
  unfold bounded, note_active. intros [H1 H2]. case_match eqn:Hc; [done|]. split; [done|]. cbn. rewrite map_size_insert.
  destruct (active_digests s !! d) eqn:Hd; [done|]. rewrite bool_decide_false in Hc by (by intros [? ?]). cbn in Hc.
  rewrite andb_true_r in Hc. apply Nat.leb_gt in Hc. lia.
Qed.

Lemma bounded_remember ttl now s d e : bounded s → bounded (remember_last_known ttl now s d e).
Proof.
  unfold bounded, remember_last_known. intros [H1 H2]. split; [|done]. cbn [last_known set_last_known].
  destruct (evict_spec now (last_known s) MAX_LAST_KNOWN (stale_max_secs ttl)) as [Hs _]; [apply max_last_known_pos|].
  rewrite map_size_insert. case_match; cbn [id]; lia.
Qed.

Lemma bounded_invalidate s d : bounded s → bounded (invalidate s d).
Proof. unfold bounded. intros [H1 H2]. split; [|done]. cbn. rewrite map_size_delete. case_match; unfold id; lia. Qed.

Lemma size_filter_le {A} (P : bytes * A → Prop) `{!∀ x, Decision (P x)} (m : gmap bytes A) : (size (filter P m) ≤ size m)%nat.
Proof. rewrite <- !size_dom. apply subseteq_size, dom_filter_subseteq. Qed.

(** ** Runs *)

Section runs.
Variable digest : bytes → bytes.
Variable verify : bytes → bytes → option bool.
Variables ttl_secs idle_secs : Z.

(** What the runs record: the rows that queries found, with the [now()] of the query and its
    instant, the instants at which a lookup or a refresh with a row ended, and the bodies
    that were verified. *)
Inductive Entry : Type :=
  | Selected (d : bytes) (r : AuthRow) (n s : Z)
  | Ended (d : bytes) (r : AuthRow) (i : Z)
  | Verified (d body : bytes) (r : AuthRow).

Definition logs (now : Z) (e : Event) (w : World) : list Entry :=
  match e with
  | EvSelect _ d n => match select_row (w_rows w) n d with Some r => [Selected d r n now] | None => [] end
  | EvFinish i _ =>
      match w_held w !! i with
      | Some {| h_digest := d; h_cold := c; h_row := Some r |} =>
          Ended d r now :: match c with Some (body, _) => if phc_ok verify r body then [Verified d body r] else [] | None => [] end
      | _ => []
      end
  | _ => []
  end.

Inductive runs : World → Z → list Entry → Prop :=
  | runs_new rows t : runs (world_new rows) t []
  | runs_step w t log now e w' g :
      runs w t log → t ≤ now → step digest verify ttl_secs idle_secs now e w = Some (w', g) → runs w' now (logs now e w ++ log).

(** An entry of a cache is that of a live row, and its stamp is the instant at which a
    lookup or a refresh of that row ended. *)
Definition sourced (log : list Entry) (t : Z) (d : bytes) (x : CachedAuth * Z) : Prop :=
  ∃ r n s, Selected d r n s ∈ log ∧ row_live n r = true ∧ x.1 = row_entry r ∧ s ≤ x.2 ≤ t ∧ Ended d r x.2 ∈ log.

(** A body with this digest was presented, and its hash verified. *)
Definition verified (log : list Entry) (d : bytes) : Prop :=
  ∃ body r, Verified d body r ∈ log ∧ digest body = d ∧ phc_ok verify r body = true.

Record good (log : list Entry) (t : Z) (s : AuthState) : Prop := {
  g_cache : map_Forall (λ d x, sourced log t d x ∧ verified log d) (auth_cache s);
  g_known : map_Forall (λ d x, sourced log t d x ∧ verified log d) (last_known s);
  g_active : map_Forall (λ d _, verified log d) (active_digests s);
}.

(** A holder of the lock has a live row, and its digest is of its body or was verified. *)
Definition held_ok (log : list Entry) (t : Z) (h : Held) : Prop :=
  (∀ r, h_row h = Some r → ∃ n s, Selected (h_digest h) r n s ∈ log ∧ row_live n r = true ∧ s ≤ t) ∧
  match h_cold h with Some (body, _) => digest body = h_digest h | None => verified log (h_digest h) end.

Record winv (log : list Entry) (t : Z) (w : World) : Prop := {
  wi_good : good log t (w_auth w);
  wi_bounded : bounded (w_auth w);
  wi_refreshes : Forall (verified log) (w_refreshes w);
  wi_held : Forall (held_ok log t) (w_held w);
}.

(** *** A longer record and a later instant *)

Lemma sourced_mono log log' t t' d x : log ⊆ log' → t ≤ t' → sourced log t d x → sourced log' t' d x.
Proof. intros Hl Ht (r & n & s & Hin & Hlive & He & Hs & Hend). exists r, n, s. split_and!; [by apply Hl|done|done|lia|lia|by apply Hl]. Qed.

Lemma verified_mono log log' d : log ⊆ log' → verified log d → verified log' d.
Proof. intros Hl (body & r & Hin & H). exists body, r. split; [by apply Hl|done]. Qed.

Lemma good_mono log log' t t' s : log ⊆ log' → t ≤ t' → good log t s → good log' t' s.
Proof.
  intros Hl Ht [H1 H2 H3]. split.
  - eapply map_Forall_impl; [exact H1|]. intros d x [? ?]. split; [by eapply sourced_mono|by eapply verified_mono].
  - eapply map_Forall_impl; [exact H2|]. intros d x [? ?]. split; [by eapply sourced_mono|by eapply verified_mono].
  - eapply map_Forall_impl; [exact H3|]. intros d x ?. by eapply verified_mono.
Qed.

Lemma held_ok_mono log log' t t' h : log ⊆ log' → t ≤ t' → held_ok log t h → held_ok log' t' h.
Proof.
  intros Hl Ht [H1 H2]. split.
  - intros r Hr. destruct (H1 r Hr) as (n & s & Hin & Hlive & Hs). exists n, s. split_and!; [by apply Hl|done|lia].
  - destruct (h_cold h) as [[body u]|]; [done|by eapply verified_mono].
Qed.

Lemma winv_mono log log' t t' w : log ⊆ log' → t ≤ t' → winv log t w → winv log' t' w.
Proof.
  intros Hl Ht [H1 H2 H3 H4]. split; [by eapply good_mono|done| |].
  - eapply Forall_impl; [exact H3|]. intros d. by apply verified_mono.
  - eapply Forall_impl; [exact H4|]. intros h. by apply held_ok_mono.
Qed.

(** *** The operations on the caches *)

Lemma good_note_active log t now s d : verified log d → good log t s → good log t (note_active now s d).
Proof. intros Hv [H1 H2 H3]. unfold note_active. case_match; split; [done..|]. by apply map_Forall_insert_2. Qed.

Lemma good_insert log t s d x : sourced log t d x → verified log d → good log t s → good log t (set_auth_cache s (<[d := x]> (auth_cache s))).
Proof. intros Hs Hv [H1 H2 H3]. split; [|done..]. by apply map_Forall_insert_2. Qed.

Lemma good_remember log t now s d e : sourced log t d (e, now) → verified log d → good log t s → good log t (remember_last_known ttl_secs now s d e).
Proof.
  intros Hs Hv [H1 H2 H3]. split; [done| |done]. apply map_Forall_insert_2; [done|]. intros k v Hk. apply H2.
  by apply (proj2 (evict_spec now (last_known s) MAX_LAST_KNOWN (stale_max_secs ttl_secs) max_last_known_pos)).
Qed.

Lemma good_invalidate log t s d : good log t s → good log t (invalidate s d).
Proof. intros [H1 H2 H3]. split; [by apply map_Forall_delete..|done]. Qed.

Lemma good_delete_active log t s d : good log t s → good log t (set_active s (delete d (active_digests s))).
Proof. intros [H1 H2 H3]. split; [done..|by apply map_Forall_delete]. Qed.

Lemma good_delete_cache log t s d : good log t s → good log t (set_auth_cache s (delete d (auth_cache s))).
Proof. intros [H1 H2 H3]. split; [by apply map_Forall_delete|done..]. Qed.

(** The counters and the negative cache play no part. *)
Lemma good_count log t s a b c d e : good log t s → good log t (count s a b c d e).
Proof. by intros [H1 H2 H3]. Qed.
Lemma good_set_negative log t s m : good log t s → good log t (set_negative s m).
Proof. by intros [H1 H2 H3]. Qed.
Lemma bounded_count s a b c d e : bounded s → bounded (count s a b c d e).
Proof. done. Qed.

Lemma due_ok log t now s : good log t s → bounded s →
  Forall (verified log) (due_for_refresh ttl_secs idle_secs now s).1 ∧ good log t (due_for_refresh ttl_secs idle_secs now s).2 ∧
  bounded (due_for_refresh ttl_secs idle_secs now s).2.
Proof.
  intros [H1 H2 H3] [B1 B2]. unfold due_for_refresh. cbn [fst snd]. split_and!.
  - rewrite Forall_forall. intros d Hd. unfold select_due in Hd. apply list_elem_of_fmap in Hd as ([d' x] & -> & Hd).
    assert (∀ n (l : list (bytes * Z)) y, y ∈ firstn n l → y ∈ l) as Htake
      by (intros n l y Hy; apply elem_of_take in Hy as (i & Hi & _); by eapply list_elem_of_lookup_2).
    apply Htake in Hd. rewrite merge_sort_Permutation in Hd.
    apply list_elem_of_fmap in Hd as ([d2 y] & [= -> ->] & [_ Hd]%list_elem_of_filter). cbn.
    apply elem_of_map_to_list, map_lookup_filter_Some in Hd as [Hd _]. by apply (H3 d2 y).
  - split; [done..|]. intros k v [Hk _]%map_lookup_filter_Some. by apply (H3 k v).
  - split; [done|]. cbn [active_digests set_active]. etrans; [apply size_filter_le|done].
Qed.

(** *** Grants *)

(** What a grant rests on, of a step [e] at an instant in a world: a live row [r] that a
    query found, and, as the path says, the entry of the cache, written when that row was
    taken and not older than the lifetime; the last known answer, not older than the stale
    limit; or the lookup that ends with this step. *)
Definition granted_row (log : list Entry) (utc : Z) (d : bytes) (a : KeyAuth) (r : AuthRow) (s : Z) : Prop :=
  (∃ n, Selected d r n s ∈ log ∧ row_live n r = true) ∧
  a = key_auth (row_entry r) (ka_path a) ∧ past utc (auth_deadline (ar_expires r) (ar_revoked r)) = false.

Definition granted_by (log : list Entry) (now : Z) (e : Event) (w : World) (d : bytes) (p : LookupPath) (r : AuthRow) (s : Z) : Prop :=
  match p with
  | Warm => ∃ i, auth_cache (w_auth w) !! d = Some (row_entry r, i) ∧ Ended d r i ∈ log ∧ s ≤ i ≤ now ∧ now - i < ttl_secs * SECOND
  | Stale => ∃ i, last_known (w_auth w) !! d = Some (row_entry r, i) ∧ Ended d r i ∈ log ∧ s ≤ i ≤ now ∧ now - i < stale_max_secs ttl_secs * SECOND
  | Cold => ∃ j utc body utc0, e = EvFinish j utc ∧ w_held w !! j = Some {| h_digest := d; h_cold := Some (body, utc0); h_row := Some r |} ∧
      digest body = d ∧ phc_ok verify r body = true ∧ s ≤ now
  end.

Definition granted_ok (log : list Entry) (now : Z) (e : Event) (w : World) (utc : Z) (d : bytes) (a : KeyAuth) : Prop :=
  (∃ r s, granted_row log utc d a r s ∧ granted_by log now e w d (ka_path a) r s) ∧ verified log d.

Lemma secs_elapsed now at_ m : as_secs (elapsed now at_) < m → now - at_ < m * SECOND.
Proof. unfold as_secs, elapsed, SECOND. intros H1. apply Z.lt_nge. intros H2. apply (Z.lt_irrefl m). eapply Z.le_lt_trans; [|exact H1].
  apply Z.div_le_lower_bound; lia. Qed.

Lemma lookup_fast_ok log t now utc s d : t ≤ now → good log t s → bounded s →
  good log t (lookup_fast ttl_secs now utc s d).2 ∧ bounded (lookup_fast ttl_secs now utc s d).2 ∧
  ∀ a b, (lookup_fast ttl_secs now utc s d).1 = Granted a b → ∀ e w, w_auth w = s → granted_ok log now e w utc d a.
Proof.
  intros Ht Hg Hb. destruct Hg as [H1 H2 H3]. assert (good log t s) as Hg by done. unfold lookup_fast.
  destruct (cache_get ttl_secs now s d) as [e|] eqn:Hc.
  - unfold cache_get in Hc. destruct (auth_cache s !! d) as [x|] eqn:Hd; [|done]. destruct (H1 d x Hd) as [Hs Hv].
    cbn in Hc. unfold fresh in Hc. destruct (Z.ltb_spec (now - x.2) (ttl_secs * SECOND)); [|done]. injection Hc as <-.
    destruct (past utc (ca_until x.1)) eqn:Hp; cbn [fst snd]; [by split_and!|].
    split_and!; [by apply good_note_active, good_count|by apply bounded_note_active, bounded_count|].
    intros a b [= <- <-] ev w <-. split; [|done]. destruct Hs as (r & n & s0 & Hin & Hlive & He & Hi & Hend). destruct x as [x i]. cbn in *. subst x.
    exists r, s0. split; [by split; [exists n|]|]. exists i. split_and!; [done..|lia|lia|done].
  - destruct (negative_get now _ d); cbn [fst snd]; [split_and!; [by apply good_count|by apply bounded_count|done]|].
    destruct (last_known_fresh_enough ttl_secs now _ d) as [e|] eqn:Hl; cbn [fst snd]; [|split_and!; [by apply good_count|by apply bounded_count|done]].
    unfold last_known_fresh_enough in Hl. change (last_known (count s 0 1 0 0 0)) with (last_known s) in Hl.
    destruct (last_known s !! d) as [[e' at_]|] eqn:Hd; [|done]. cbn in Hl. destruct (H2 d _ Hd) as [Hs Hv].
    destruct (Z.ltb_spec (as_secs (elapsed now at_)) (stale_max_secs ttl_secs)) as [Hlt%secs_elapsed|]; [|done]. injection Hl as <-.
    destruct (past utc (ca_until e')) eqn:Hp; cbn [fst snd]; [split_and!; [by apply good_count|by apply bounded_count|done]|].
    split_and!; [by apply good_note_active, good_count, good_count|by apply bounded_note_active, bounded_count|].
    intros a b [= <- <-] ev w <-. split; [|done]. destruct Hs as (r & n & s0 & Hin & Hlive & He & Hi & Hend). cbn in *. subst e'.
    exists r, s0. split; [by split; [exists n|]|]. exists at_. split_and!; [done..|lia|lia|done].
Qed.

(** *** Steps *)

Lemma select_row_live rows n d r : select_row rows n d = Some r → row_live n r = true.
Proof. unfold select_row. destruct (rows !! d) as [r'|]; [|done]. cbn. case_match; [|done]. by intros [= <-]. Qed.

Lemma read_entry log t now d r n s : Selected d r n s ∈ log → row_live n r = true → s ≤ t → t ≤ now → Ended d r now ∈ log →
  sourced log now d (row_entry r, now).
Proof. intros Hin Hl Hs Ht He. exists r, n, s. cbn. split_and!; [done..|lia|lia|done]. Qed.

Lemma cold_finish_ok log t now utc utc' h body u s : t ≤ now → h_cold h = Some (body, u) → held_ok log t h → good log now s → bounded s →
  (∀ r, h_row h = Some r → phc_ok verify r body = true → Verified (h_digest h) body r ∈ log) →
  (∀ r, h_row h = Some r → Ended (h_digest h) r now ∈ log) →
  good log now (cold_finish ttl_secs verify now utc utc' (h_row h) body s (h_digest h)).2 ∧
  bounded (cold_finish ttl_secs verify now utc utc' (h_row h) body s (h_digest h)).2 ∧
  ∀ a, (cold_finish ttl_secs verify now utc utc' (h_row h) body s (h_digest h)).1 = Some a →
    ∀ j w, w_held w !! j = Some h → granted_ok log now (EvFinish j utc') w utc' (h_digest h) a.
Proof.
  intros Ht Hcold [Hrow Hbody] Hg Hb Hver Hend. rewrite Hcold in Hbody. unfold cold_finish.
  destruct (h_row h) as [r|] eqn:Hhr; [|cbn [fst snd]; split_and!; [by apply good_set_negative|done|done]].
  destruct (phc_ok verify r body) eqn:Hphc; cbn [negb fst snd]; [|by split_and!].
  destruct (Hrow r eq_refl) as (n & s0 & Hin & Hlive & Hs0).
  destruct (past (Z.max utc utc') (ca_until (row_entry r))) eqn:Hp; cbn [fst snd]; [by split_and!|].
  assert (verified log (h_digest h)) as Hv by (exists body, r; split_and!; [by apply Hver|done|done]).
  assert (sourced log now (h_digest h) (row_entry r, now)) as Hs by (eapply read_entry; try done; by apply Hend).
  split_and!.
  - by apply good_note_active, good_remember, good_insert.
  - by apply bounded_note_active, bounded_remember.
  - intros a [= <-] j w Hj. split; [|done]. exists r, s0. split; [split; [by exists n|]; split; [done|]|].
    + unfold past in *. cbn [row_entry ca_until] in *. destruct (auth_deadline _ _) as [dl|]; [|done]. cbn in *.
      apply Z.leb_gt in Hp. apply Z.leb_gt. lia.
    + cbn. exists j, utc', body, u. destruct h as [hd hc hr]. cbn in *. subst. split_and!; [done..|lia].
Qed.

Lemma refresh_finish_ok log t now h s : t ≤ now → h_cold h = None → held_ok log t h → good log now s → bounded s →
  (∀ r, h_row h = Some r → Ended (h_digest h) r now ∈ log) →
  good log now (refresh_finish ttl_secs now (h_row h) s (h_digest h)) ∧ bounded (refresh_finish ttl_secs now (h_row h) s (h_digest h)).
Proof.
  intros Ht Hcold [Hrow Hv] Hg Hb Hend. rewrite Hcold in Hv. unfold refresh_finish. destruct (h_row h) as [r|].
  - destruct (Hrow r eq_refl) as (n & s0 & Hin & Hlive & Hs0).
    assert (sourced log now (h_digest h) (row_entry r, now)) as Hs by (eapply read_entry; try done; by apply Hend).
    split; [by apply good_remember, good_insert|by apply bounded_remember].
  - split; [by apply good_delete_active, good_invalidate|]. destruct (bounded_invalidate s (h_digest h) Hb) as [B1 B2]. split; [done|].
    cbn [active_digests set_active]. rewrite map_size_delete. case_match; unfold id; lia.
Qed.

(** The time of the gateway at which an event is judged. *)
Definition event_utc (e : Event) : Z := match e with EvLookup _ utc | EvFinish _ utc => utc | _ => 0 end.

Lemma winv_step log t w now e w' g :
  winv log t w → t ≤ now → step digest verify ttl_secs idle_secs now e w = Some (w', g) →
  winv (logs now e w ++ log) now w' ∧ ∀ d a, g = Some (d, a) → granted_ok (logs now e w ++ log) now e w (event_utc e) d a.
Proof.
  intros Hw0 Ht Hstep. set (log' := logs now e w ++ log).
  assert (log ⊆ log') as Hsub by (unfold log'; set_solver).
  pose proof (winv_mono log log' t now w Hsub Ht Hw0) as Hw. destruct Hw as [Hg Hb Hr Hh].
  destruct e as [body utc|d| |cold d n|i utc|i|rs| | |d r|d r|d|d|d]; cbn [step event_utc] in *.
  - destruct (lookup_fast_ok log' now now utc (w_auth w) (digest body) ltac:(lia) Hg Hb) as (G1 & G2 & G3).
    destruct (lookup_fast ttl_secs now utc (w_auth w) (digest body)) as [r s]. cbn [fst snd] in *.
    destruct r as [a refresh| |]; injection Hstep as <- <-; [|by split; [split|]..].
    pose proof (G3 a refresh eq_refl (EvLookup body utc) w eq_refl) as Ha. split; [|by intros d0 a0 [= <- <-]].
    destruct refresh; split; try done. constructor; [apply Ha|done].
  - injection Hstep as <- <-. split; [|done]. split; [by apply good_set_negative, good_count|done..].
  - destruct (due_ok log' now now (w_auth w) Hg Hb) as (D1 & D2 & D3).
    destruct (due_for_refresh _ _ _ _) as [ds s]. injection Hstep as <- <-. split; [|done]. split; [done..| |done]. by apply Forall_app.
  - case_match eqn:Hal; [|done]. apply andb_true_iff in Hal as [Ha _]. injection Hstep as <- <-. split; [|done]. split; [done..|]. constructor; [|done]. split; cbn [h_row h_digest h_cold].
    + intros r Hrow. exists n, now. split_and!; [|by eapply select_row_live|lia]. unfold log'. cbn [logs]. rewrite Hrow. by left.
    + destruct cold as [[body u]|]; apply bool_decide_eq_true in Ha; [done|]. rewrite Forall_forall in Hr. by apply Hr.
  - destruct (w_held w !! i) as [h|] eqn:Hi; [|done]. cbn in Hstep. pose proof (Forall_lookup_1 _ _ _ _ Hh Hi) as Hok.
    assert (Forall (held_ok log' now) (delete i (w_held w))) as Hdel by (by apply Forall_delete).
    assert (∀ r, h_row h = Some r → Ended (h_digest h) r now ∈ log') as Hend.
    { intros r Hrow. unfold log'. cbn [logs]. rewrite Hi. destruct h as [hd hc hr]. cbn in *. subst hr. by left. }
    destruct (h_cold h) as [[body u]|] eqn:Hcold.
    + destruct (cold_finish_ok log' now now u utc h body u (w_auth w)) as (G1 & G2 & G3); try done.
      { intros r Hrow Hphc. unfold log'. cbn [logs]. rewrite Hi. destruct h as [hd hc hr]. cbn in *. subst hc hr. rewrite Hphc. right. by left. }
      destruct (cold_finish _ _ _ _ _ _ _ _ _) as [a s]. cbn [fst snd] in *. injection Hstep as <- <-.
      split; [by split|]. destruct a as [a|]; [|done]. intros d0 a0 [= <- <-]. by apply G3.
    + destruct (refresh_finish_ok log' now now h (w_auth w)) as (G1 & G2); try done. injection Hstep as <- <-. split; [by split|done].
  - injection Hstep as <- <-. split; [|done]. split; [done..|]. by apply Forall_delete.
  - unfold commit in Hstep. case_match; [|done]. injection Hstep as <- <-. by split; [split|].
  - unfold invalidate_next in Hstep. destruct (w_writer w) as [[|d ds]|]; [| |done]; injection Hstep as <- <-; (split; [|done]); [by split|].
    split; [by apply good_invalidate|by apply bounded_invalidate|done..].
  - unfold cut_off in Hstep. case_match; [|done]. injection Hstep as <- <-. by split; [split|].
  - injection Hstep as <- <-. by split; [split|].
  - injection Hstep as <- <-. split; [|done]. split; [by apply good_set_negative|done..].
  - injection Hstep as <- <-. split; [|done]. split; [by apply good_invalidate|by apply bounded_invalidate|done..].
  - injection Hstep as <- <-. split; [|done]. split; [by apply good_delete_cache|done..].
  - injection Hstep as <- <-. split; [|done]. split; [by apply good_set_negative|done..].
Qed.

Lemma winv_runs w t log : runs w t log → winv log t w.
Proof.
  induction 1 as [rows t|w t log now e w' g Hr IH Ht Hs].
  - split; [split; apply map_Forall_empty|split; apply Nat.le_0_l|constructor|constructor].
  - by destruct (winv_step _ _ _ _ _ _ _ IH Ht Hs).
Qed.

(** C27. What a grant rests on.  Over any interleaving of requests, refreshes, writers of this
    process and of others and evictions, when a step grants a key: a query found its row,
    not revoked and not expired by the clock of the database; the grant has the tenant, the
    scope, the limits and the policy of that row and nothing else; neither its expiry nor
    its scheduled revocation has passed by the clock of the gateway; and a body with this
    digest was presented and its hash verified.  A warm grant is the entry that the cache
    held at that step, written at the instant at which a lookup or a refresh of that row
    ended, less than the lifetime of the cache ago; a stale one is the last known answer,
    written in the same way less than the stale limit ago; a cold one is the end of the
    lookup itself, whose body verifies against the row.  Neither limit is over fifteen
    minutes. *)
Theorem grant_rests_on_read w t log now e w' d a :
  1 ≤ ttl_secs ≤ MAX_AUTH_CACHE_TTL_SECS → runs w t log → t ≤ now →
  step digest verify ttl_secs idle_secs now e w = Some (w', Some (d, a)) →
  (∃ r s, granted_row (logs now e w ++ log) (event_utc e) d a r s ∧ granted_by (logs now e w ++ log) now e w d (ka_path a) r s) ∧
  verified (logs now e w ++ log) d ∧ ttl_secs ≤ stale_max_secs ttl_secs ≤ 900.
Proof.
  unfold MAX_AUTH_CACHE_TTL_SECS. intros Httl Hr Ht Hs. destruct (winv_step _ _ _ _ _ _ _ (winv_runs _ _ _ Hr) Ht Hs) as [_ Hg].
  destruct (Hg d a eq_refl) as [Hrow Hv]. split_and!; [done..| |]; unfold stale_max_secs; lia.
Qed.

(** The maps that no library bounds are bounded. *)
Theorem maps_are_bounded w t log : runs w t log → bounded (w_auth w).
Proof. intros Hr. by apply winv_runs in Hr as [_ Hb _ _]. Qed.

(** ** Revocation *)

Section revoked.
Variable d0 : bytes.
Variable n0 : Z.

(** A row that is dead from [n0] on, or no row. *)
Definition dead (r : option AuthRow) : Prop := ∀ r', r = Some r' → row_live n0 r' = false.

(** What the caches still have of the key is in [P], its row is dead, and no lookup or
    refresh under way has a row of it. *)
Record waning (P : CachedAuth * Z → Prop) (w : World) : Prop := {
  wa_cache x : auth_cache (w_auth w) !! d0 = Some x → P x;
  wa_known x : last_known (w_auth w) !! d0 = Some x → P x;
  wa_held : Forall (λ h, h_digest h = d0 → h_row h = None) (w_held w);
  wa_row : dead (w_rows w !! d0);
}.

(** The writer that holds the lock has still to invalidate the key. *)
Definition waiting (w : World) : Prop := d0 ∈ default [] (w_writer w) ∧ w_held w = [].

(** Later queries have a later [now()], and no writer brings the key back. *)
Definition quiet (e : Event) : Prop :=
  match e with
  | EvSelect _ d n => d = d0 → n0 ≤ n
  | EvWrite d r => d = d0 → dead r
  | EvMint d r => d = d0 → dead (Some r)
  | EvCommit rs => ∀ r, (d0, r) ∈ rs → dead r
  | _ => True
  end.

Lemma row_dead_later n r : n0 ≤ n → row_live n0 r = false → row_live n r = false.
Proof.
  unfold row_live, after. intros Hn [Hd|Hd]%andb_false_iff; apply andb_false_iff; [left|right];
    [destruct (ar_revoked r)|destruct (ar_expires r)]; cbn in *; try done; apply Z.ltb_ge in Hd; apply Z.ltb_ge; lia.
Qed.

Lemma select_dead rows n : dead (rows !! d0) → n0 ≤ n → select_row rows n d0 = None.
Proof.
  unfold select_row. intros Hd Hn. destruct (rows !! d0) as [r|]; [|done]. cbn. by rewrite (row_dead_later n r Hn (Hd r eq_refl)).
Qed.

Lemma put_row_dead rows d r : (d = d0 → dead r) → (d ≠ d0 → dead (rows !! d0)) → dead (put_row rows d r !! d0).
Proof.
  intros H1 H2. destruct (decide (d = d0)) as [->|Hne].
  - destruct r as [r|]; cbn; [rewrite lookup_insert_eq|rewrite lookup_delete_eq; by intros r']; by apply H1.
  - destruct r as [r|]; cbn; [rewrite lookup_insert_ne by done|rewrite lookup_delete_ne by done]; by apply H2.
Qed.

Lemma put_rows_dead rs rows : (∀ r, (d0, r) ∈ rs → dead r) → dead (rows !! d0) ∨ d0 ∈ rs.*1 →
  dead (foldl (λ m dr, put_row m dr.1 dr.2) rows rs !! d0).
Proof.
  revert rows. induction rs as [|[d r] rs IH]; intros rows Hrs Hor; cbn [foldl].
  - destruct Hor as [?|Hin]; [done|]. by apply not_elem_of_nil in Hin.
  - apply IH; [intros r' Hr'; apply Hrs; by right|]. cbn [fst snd]. destruct (decide (d = d0)) as [->|Hne].
    + left. apply put_row_dead; [|done]. intros _. apply Hrs. by left.
    + destruct Hor as [Hd|[Hd|Hd]%elem_of_cons]; [left; by apply put_row_dead|by destruct Hne|by right].
Qed.

Lemma invalidate_none s d : auth_cache (invalidate s d) !! d = None ∧ last_known (invalidate s d) !! d = None.
Proof. split; apply lookup_delete_eq. Qed.

Lemma note_active_maps now s d : auth_cache (note_active now s d) = auth_cache s ∧ last_known (note_active now s d) = last_known s.
Proof. unfold note_active. by case_match. Qed.

Section left.
Variable P : CachedAuth * Z → Prop.

(** The entries of the key in the two maps. *)
Definition entries (s : AuthState) : Prop :=
  (∀ x, auth_cache s !! d0 = Some x → P x) ∧ (∀ x, last_known s !! d0 = Some x → P x).

Lemma entries_invalidate s d : entries s → entries (invalidate s d).
Proof. intros [H1 H2]. split; intros x; cbn; intros [_ Hx]%lookup_delete_Some; [by apply H1|by apply H2]. Qed.

Lemma entries_maps s s' : auth_cache s' = auth_cache s → last_known s' = last_known s → entries s → entries s'.
Proof. unfold entries. by intros -> ->. Qed.

Lemma entries_note_active now s d : entries s → entries (note_active now s d).
Proof. destruct (note_active_maps now s d). by apply entries_maps. Qed.

(** An entry of another key may drive one of the key out, and brings none in. *)
Lemma entries_store now s d e : d ≠ d0 → entries s →
  entries (remember_last_known ttl_secs now (set_auth_cache s (<[d := (e, now)]> (auth_cache s))) d e).
Proof.
  intros Hne [H1 H2]. split; intros x; cbn; rewrite lookup_insert_ne by done; [apply H1|]. intros Hx. apply H2.
  by apply (proj2 (evict_spec now _ MAX_LAST_KNOWN (stale_max_secs ttl_secs) max_last_known_pos)).
Qed.

(** The lookup before the store writes neither map, and a grant is an entry within its limit. *)
Lemma lookup_fast_maps now utc s d :
  auth_cache (lookup_fast ttl_secs now utc s d).2 = auth_cache s ∧ last_known (lookup_fast ttl_secs now utc s d).2 = last_known s ∧
  ∀ a b, (lookup_fast ttl_secs now utc s d).1 = Granted a b → ∃ x, (auth_cache s !! d = Some x ∨ last_known s !! d = Some x) ∧
    now - x.2 < Z.max ttl_secs (stale_max_secs ttl_secs) * SECOND.
Proof.
  unfold lookup_fast. destruct (cache_get ttl_secs now s d) as [e|] eqn:Hc.
  - destruct (past _ _); cbn [fst snd]; [done|]. destruct (note_active_maps now (count s 1 0 0 0 0) d) as [-> ->]. split_and!; [done..|].
    intros a b _. unfold cache_get in Hc. destruct (auth_cache s !! d) as [x|]; [|done]. exists x. split; [by left|].
    cbn in Hc. unfold fresh in Hc. destruct (Z.ltb_spec (now - x.2) (ttl_secs * SECOND)); [|done]. unfold SECOND in *. lia.
  - destruct (negative_get now _ d); [done|]. destruct (last_known_fresh_enough ttl_secs now _ d) as [e|] eqn:Hl; [|done].
    destruct (past _ _); cbn [fst snd]; [done|].
    destruct (note_active_maps now (count (count s 0 1 0 0 0) 0 0 0 1 0) d) as [-> ->]. split_and!; [done..|]. intros a b _.
    unfold last_known_fresh_enough in Hl. change (last_known (count s 0 1 0 0 0)) with (last_known s) in Hl.
    destruct (last_known s !! d) as [[x at_]|]; [|done]. exists (x, at_). split; [by right|]. cbn in Hl |- *.
    destruct (Z.ltb_spec (as_secs (elapsed now at_)) (stale_max_secs ttl_secs)) as [Hlt%secs_elapsed|]; [|done]. unfold SECOND in *. lia.
Qed.

(** A lookup or a refresh that ends brings nothing of the key: of it, it has no row. *)
Lemma finish_entries now utc h s : (h_digest h = d0 → h_row h = None) → entries s →
  (∀ body u, let r := cold_finish ttl_secs verify now u utc (h_row h) body s (h_digest h) in entries r.2 ∧ (h_digest h = d0 → r.1 = None)) ∧
  entries (refresh_finish ttl_secs now (h_row h) s (h_digest h)).
Proof.
  intros Hrow He. destruct (h_row h) as [r|].
  - assert (h_digest h ≠ d0) as Hne by (intros E; by specialize (Hrow E)). split; [|by apply entries_store].
    intros body u. unfold cold_finish. case_match; [done|]. case_match; [done|]. cbn [fst snd].
    split; [by apply entries_note_active, entries_store|done].
  - split; [intros body u; split; [by eapply entries_maps|done]|]. cbn [refresh_finish].
    eapply entries_maps; [..|by apply entries_invalidate]; done.
Qed.

Lemma waning_auth w s : entries s → waning P w → waning P (set_w_auth w s).
Proof. intros [H1 H2] [_ _ H3 H4]. by split. Qed.

Lemma waning_entries w : waning P w → entries (w_auth w).
Proof. intros [H1 H2 _ _]. by split. Qed.

Lemma waning_step now e w w' g : waning P w → quiet e → step digest verify ttl_secs idle_secs now e w = Some (w', g) →
  waning P w' ∧ ∀ a, g = Some (d0, a) → ∃ x, P x ∧ now - x.2 < Z.max ttl_secs (stale_max_secs ttl_secs) * SECOND.
Proof.
  intros Hw Hq Hs. pose proof (waning_entries w Hw) as He. pose proof Hw as [Hc Hl Hh Hr].
  destruct e as [body utc|d| |cold d n|i utc|i|rs| | |d r|d r|d|d|d]; cbn [step quiet] in *.
  - destruct (lookup_fast_maps now utc (w_auth w) (digest body)) as (M1 & M2 & M3).
    destruct (lookup_fast ttl_secs now utc (w_auth w) (digest body)) as [r s]. cbn [fst snd] in *.
    assert (waning P (set_w_auth w s)) as Hw' by (apply waning_auth; [by eapply entries_maps|done]).
    destruct r as [a refresh| |]; injection Hs as <- <-; [|by split..]. split; [destruct refresh; [by destruct Hw'|done]|].
    intros a0 [= Ed ->]. destruct (M3 a0 refresh eq_refl) as (x & Hx & Hage). rewrite Ed in Hx. exists x. split; [|done]. destruct Hx; auto.
  - injection Hs as <- <-. split; [|done]. by apply waning_auth; [eapply entries_maps|].
  - destruct (due_for_refresh _ _ _ _) as [ds s] eqn:Hdue. injection Hs as <- <-. unfold due_for_refresh in Hdue. injection Hdue as _ <-. split; [by split|done].
  - case_match; [|done]. injection Hs as <- <-. split; [|done]. split; [done..| |done]. constructor; [|done]. cbn. intros ->. by apply select_dead; [|apply Hq].
  - destruct (w_held w !! i) as [h|] eqn:Hi; [|done]. cbn in Hs.
    destruct (finish_entries now utc h (w_auth w) (Forall_lookup_1 _ _ _ _ Hh Hi) He) as [Hcold Href].
    assert (waning P (set_w_held w (delete i (w_held w)))) as Hdel by (split; [done..| |done]; by apply Forall_delete).
    destruct (h_cold h) as [[body u]|].
    + destruct (Hcold body u) as [K1 K2]. destruct (cold_finish _ _ _ _ _ _ _ _ _) as [a s]. cbn [fst snd] in *. injection Hs as <- <-.
      split; [by apply waning_auth|]. destruct a as [a|]; [|done]. intros a0 [= Ed _]. by specialize (K2 Ed).
    + injection Hs as <- <-. split; [by apply waning_auth|done].
  - injection Hs as <- <-. split; [|done]. split; [done..| |done]. by apply Forall_delete.
  - unfold commit in Hs. case_match; [|done]. injection Hs as <- <-. split; [|done]. split; [done..|]. apply put_rows_dead; [done|by left].
  - unfold invalidate_next in Hs. destruct (w_writer w) as [[|d ds]|]; [| |done]; injection Hs as <- <-; (split; [|done]); [by split|].
    destruct (waning_auth w _ (entries_invalidate (w_auth w) d He) Hw). by split.
  - unfold cut_off in Hs. case_match; [|done]. injection Hs as <- <-. split; [|done]. by split.
  - injection Hs as <- <-. split; [|done]. split; [done..|]. by apply put_row_dead.
  - injection Hs as <- <-. split; [|done]. split; [done..|]. exact (put_row_dead (w_rows w) d (Some r) Hq (λ _, Hr)).
  - injection Hs as <- <-. split; [|done]. by apply waning_auth; [apply entries_invalidate|].
  - injection Hs as <- <-. split; [|done]. apply waning_auth; [|done]. split; [|done]. intros x; cbn; intros [_ Hx]%lookup_delete_Some. by apply Hc.
  - injection Hs as <- <-. split; [|done]. by apply waning_auth; [eapply entries_maps|].
Qed.
End left.

(** Nothing is left of the key. *)
Notation clean := (waning (λ _, False)).

(** Until the writer has come to the key it has the lock, so nothing is read of the key in
    between; once it has, nothing is left. *)
Lemma waiting_step P now e w w' g : waning P w → waiting w → quiet e → e ≠ EvCutOff →
  step digest verify ttl_secs idle_secs now e w = Some (w', g) → waiting w' ∨ clean w'.
Proof.
  intros Hw [Hin Hh] Hq Hne Hs.
  destruct (w_writer w) as [ds|] eqn:Hwr; [|by apply not_elem_of_nil in Hin]. cbn in Hin.
  assert (bool_decide (w_writer w = None) = false) as Hlock by (apply bool_decide_false; congruence).
  assert (∀ w2, w_writer w2 = Some ds → w_held w2 = [] → waiting w2) as Hkeep by (intros w2 H1 H2; split; [by rewrite H1|done]).
  destruct e as [body utc|d| |cold d n|i utc|i|rs| | |d r|d r|d|d|d]; cbn [step] in Hs; try (injection Hs as <- <-; left; by apply Hkeep).
  - destruct (lookup_fast _ _ _ _ _) as [r s]. left. destruct r as [a refresh| |]; injection Hs as <- <-; [destruct refresh|..]; by apply Hkeep.
  - rewrite Hlock, andb_false_r in Hs. discriminate Hs.
  - by rewrite Hh in Hs.
  - injection Hs as <- <-. left. apply Hkeep; [done|]. cbn. by rewrite Hh.
  - unfold commit in Hs. rewrite Hlock, andb_false_r in Hs. discriminate Hs.
  - unfold invalidate_next in Hs. rewrite Hwr in Hs. destruct ds as [|d ds]; [by apply not_elem_of_nil in Hin|]. injection Hs as <- <-.
    destruct (decide (d0 = d)) as [<-|Hd].
    + right. destruct (invalidate_none (w_auth w) d0) as [N1 N2]. split; [| |cbn; by rewrite Hh|exact (wa_row _ _ Hw)];
        intros x; change (w_auth (set_w_writer ?a ?b)) with (w_auth a); cbn [w_auth set_w_auth]; congruence.
    + left. split; [|done]. by apply elem_of_cons in Hin as [Hin|Hin].
  - done.
Qed.
End revoked.

(** Steps in a row, with the grants they make. *)
Fixpoint steps (es : list (Z * Event)) (w : World) : option (World * list (bytes * KeyAuth)) :=
  match es with
  | [] => Some (w, [])
  | (now, e) :: es' =>
      '(w, g) ← step digest verify ttl_secs idle_secs now e w;
      '(w, gs) ← steps es' w;
      Some (w, match g with Some g => g :: gs | None => gs end)
  end.

Lemma waning_steps d0 n0 P es w w' gs : waning d0 n0 P w → Forall (λ te, quiet d0 n0 te.2) es → steps es w = Some (w', gs) →
  waning d0 n0 P w' ∧
  ((∀ te x, te ∈ es → P x → Z.max ttl_secs (stale_max_secs ttl_secs) * SECOND ≤ te.1 - x.2) → ∀ a, (d0, a) ∉ gs).
Proof.
  revert w gs. induction es as [|[now e] es IH]; intros w gs Hw Hq; cbn [steps].
  - intros [= <- <-]. split; [done|]. intros _ a. apply not_elem_of_nil.
  - apply Forall_cons in Hq as [He Hq]. destruct (step _ _ _ _ now e w) as [[w1 g]|] eqn:Hs; [|done]. cbn.
    destruct (steps es w1) as [[w2 gs']|] eqn:Hss; [|done]. cbn. intros [= <- <-].
    destruct (waning_step d0 n0 P now e w w1 g Hw He Hs) as [Hw1 Hg]. destruct (IH w1 gs' Hw1 Hq Hss) as [Hw2 Hn].
    split; [done|]. intros Hold a. pose proof (Hn (λ te x Hte, Hold te x ltac:(by right)) a) as Hna.
    destruct g as [[d a']|]; [|done]. apply not_elem_of_cons. split; [|done]. intros [= <- <-].
    destruct (Hg a eq_refl) as (x & Hx & Hage). specialize (Hold (now, e) x ltac:(by left) Hx). cbn in Hold. lia.
Qed.

Lemma waiting_steps d0 n0 P es w w' gs : waning d0 n0 P w → waiting d0 w ∨ waning d0 n0 (λ _, False) w →
  Forall (λ te, quiet d0 n0 te.2) es → Forall (λ te, te.2 ≠ EvCutOff) es → steps es w = Some (w', gs) →
  waiting d0 w' ∨ waning d0 n0 (λ _, False) w'.
Proof.
  revert w gs. induction es as [|[now e] es IH]; intros w gs Hw Hor Hq Hc; cbn [steps]; [by intros [= <- <-]|].
  apply Forall_cons in Hq as [He Hq], Hc as [Hce Hc]. destruct (step _ _ _ _ now e w) as [[w1 g]|] eqn:Hs; [|done]. cbn.
  destruct (steps es w1) as [[w2 gs']|] eqn:Hss; [|done]. cbn. intros [= <- <-].
  apply (IH w1 gs'); [by eapply waning_step| |done..].
  destruct Hor as [Hwait|Hclean]; [by eapply waiting_step|right; by eapply waning_step].
Qed.

(** The commit of rows that leave a key dead. *)
Lemma commit_waning w t log now rs w1 d n0 : runs w t log → t ≤ now → commit rs w = Some w1 →
  d ∈ rs.*1 → (∀ r, (d, r) ∈ rs → dead n0 r) → waning d n0 (λ x, x.2 ≤ now) w1 ∧ waiting d w1.
Proof.
  intros Hr Ht Hs Hin Hdead. destruct (winv_runs _ _ _ Hr) as [[G1 G2 _] _ _ _]. unfold commit in Hs.
  case_match eqn:Hb; [|done]. apply andb_true_iff in Hb as [Hh%bool_decide_eq_true _]. injection Hs as <-. split; [|by split].
  split; cbn.
  - intros x Hx. destruct (G1 d x Hx) as [(r & n & s & _ & _ & _ & Hi & _) _]. lia.
  - intros x Hx. destruct (G2 d x Hx) as [(r & n & s & _ & _ & _ & Hi & _) _]. lia.
  - by rewrite Hh.
  - apply put_rows_dead; [done|by right].
Qed.

(** C26. A revocation of this process.  A writer of this process commits rows, under the
    lock, that leave a key dead, revoked or expired or deleted; it then invalidates its
    keys one at a time, while requests are answered from the caches.  Once it has come to
    the key, without having been cut off before, no later step grants the key, from a
    cache, from a lookup or from a refresh, in whatever order they run and whatever was
    read before the commit.  And even where the writer is cut off before it invalidates,
    no step grants the key once the stale limit, at most fifteen minutes, has passed since
    the commit.  Both as long as no writer brings the row back and the clock of the
    database does not run backwards. *)
Theorem revoked_here_is_refused w t log now rs w1 g d n0 es1 w2 gs1 es2 w3 gs2 a :
  1 ≤ ttl_secs ≤ MAX_AUTH_CACHE_TTL_SECS → runs w t log → t ≤ now →
  step digest verify ttl_secs idle_secs now (EvCommit rs) w = Some (w1, g) →
  d ∈ rs.*1 → (∀ r, (d, r) ∈ rs → dead n0 r) →
  Forall (λ te, quiet d n0 te.2) es1 → steps es1 w1 = Some (w2, gs1) →
  Forall (λ te, quiet d n0 te.2) es2 → steps es2 w2 = Some (w3, gs2) →
  (Forall (λ te, te.2 ≠ EvCutOff) es1 ∧ d ∉ default [] (w_writer w2)) ∨
  Forall (λ te, now + stale_max_secs ttl_secs * SECOND ≤ te.1) es2 →
  (d, a) ∉ gs2 ∧ stale_max_secs ttl_secs ≤ 900.
Proof.
  unfold MAX_AUTH_CACHE_TTL_SECS. intros Httl Hr Ht Hs Hin Hdead Hq1 Hes1 Hq2 Hes2 Hor. cbn [step] in Hs.
  destruct (commit rs w) as [wc|] eqn:Hc; [|done]. injection Hs as <- <-.
  destruct (commit_waning _ _ _ _ _ _ _ _ Hr Ht Hc Hin Hdead) as [Hw Hwait].
  split; [|unfold stale_max_secs; lia]. destruct Hor as [[Hnc Hdone]|Hlate].
  - destruct (waiting_steps d n0 _ es1 wc w2 gs1 Hw ltac:(by left) Hq1 Hnc Hes1) as [[Hstill _]|Hclean]; [done|].
    by apply (waning_steps d n0 _ es2 w2 w3 gs2 Hclean Hq2 Hes2).
  - destruct (waning_steps d n0 _ es1 wc w2 gs1 Hw Hq1 Hes1) as [Hw2 _].
    apply (waning_steps d n0 _ es2 w2 w3 gs2 Hw2 Hq2 Hes2). intros te x Hte Hx.
    rewrite Forall_forall in Hlate. specialize (Hlate te Hte). cbn in Hx.
    replace (Z.max ttl_secs (stale_max_secs ttl_secs)) with (stale_max_secs ttl_secs) by (unfold stale_max_secs; lia). lia.
Qed.

(** Steps at instants that do not run backwards are a run. *)
Fixpoint last_instant (t : Z) (es : list (Z * Event)) : option Z :=
  match es with [] => Some t | (now, _) :: es' => if t <=? now then last_instant now es' else None end.

Lemma steps_runs es w t log w' gs t' : runs w t log → last_instant t es = Some t' → steps es w = Some (w', gs) → ∃ log', runs w' t' log'.
Proof.
  revert w t log gs. induction es as [|[now e] es IH]; intros w t log gs Hr; cbn [steps last_instant]; [intros [= <-] [= <- _]; by exists log|].
  destruct (Z.leb_spec t now); [|done]. intros Hl. destruct (step _ _ _ _ now e w) as [[w1 g]|] eqn:Hs; [|done]. cbn.
  destruct (steps es w1) as [[w2 gs']|] eqn:Hss; [|done]. cbn. intros [= <- _]. by eapply IH; [eapply runs_step|..].
Qed.
End runs.

(** The lifetime is always in range, whatever the setting says. *)
Lemma ttl_in_range raw : 1 ≤ parse_auth_cache_ttl raw ≤ MAX_AUTH_CACHE_TTL_SECS.
Proof.
  unfold parse_auth_cache_ttl, MAX_AUTH_CACHE_TTL_SECS, DEFAULT_AUTH_CACHE_TTL_SECS. repeat case_match; lia.
Qed.

(** ** The cold stage *)

(** The set of valid keys spares the bucket of the source: a digest it refuses is not looked
    up, and one it knows is looked up without a token, however its lookup ends. *)
Lemma known_keys_spend_nothing p m source now i s d slot e :
  m = Some Absent ∨ m = Some Present →
  (lookup_cold_stage p m source now i s d).1.2 = i ∧
  ∀ held, (lookup_cold_stage p m source now i s d).1.1 = Some (Ok held) → (PreAuth.end_lookup p source held slot e i).2 = i.
Proof.
  intros [->| ->]; [done|]. split; [done|]. unfold lookup_cold_stage, gating_of, PreAuth.begin_lookup. cbn. intros held [= <-]. by destruct slot.
Qed.

(** The refresher takes the oldest keys, and no more than its budget. *)
Theorem refresh_is_oldest_first due budget d :
  (length (select_due due budget) ≤ budget)%nat ∧
  (d ∈ select_due due budget → d ∈ due.*1) ∧
  ∃ chosen rest, chosen ++ rest ≡ₚ due ∧ chosen.*1 = select_due due budget ∧ ∀ a b, a ∈ chosen → b ∈ rest → b.2 ≤ a.2.
Proof.
  unfold select_due. set (l := merge_sort older due).
  assert (Hsort : StronglySorted older l).
  { apply StronglySorted_merge_sort; [intros [? x] [? y] [? z]; unfold older; cbn; lia|]. intros [? x] [? y]. unfold older. cbn. lia. }
  assert (l ≡ₚ due) as Hp by apply merge_sort_Permutation. split_and!.
  - rewrite length_fmap, length_take. lia.
  - intros Hd. rewrite <- Hp. apply list_elem_of_fmap in Hd as (x & -> & Hx). apply list_elem_of_fmap. exists x. split; [done|].
    apply elem_of_take in Hx as (i & Hi & _). by eapply list_elem_of_lookup_2.
  - exists (firstn budget l), (skipn budget l). rewrite take_drop. split_and!; [done..|].
    rewrite <- (take_drop budget l) in Hsort. intros a b Ha Hb. exact (StronglySorted_app_1_elem_of older _ _ a b Hsort Ha Hb).
Qed.

(** ** A concrete run *)

Definition plain (b : bytes) : bytes := b.
Definition same_text (phc body : bytes) : option bool := Some (bool_decide (phc = body)).

Definition key_row (revoked : option Z) : AuthRow :=
  {| ar_tenant := lit "t1"; ar_id := lit "k1"; ar_phc := Some (lit "body"); ar_scope := Some [lit "chat"]; ar_expires := Some 9000;
     ar_budget := Some (lit "12.5"); ar_rpm := Some 0; ar_reset := lit "daily"; ar_revoked := revoked;
     ar_project := None; ar_environment := None; ar_key_policy := None; ar_project_policy := None |}.

Definition one_key : World := world_new {[ lit "body" := key_row None ]}.
Definition at_second (s : Z) (e : Event) : Z * Event := (s * SECOND, e).

(** A cold lookup, a warm one, a stale one with its refresh, a revocation of this process
    while nothing holds the lock, and the refusal. *)
Definition demo_events : list (Z * Event) :=
  [at_second 1 (EvLookup (lit "body") 1); at_second 1 (EvSelect (Some (lit "body", 1)) (lit "body") 1); at_second 2 (EvFinish 0 2);
   at_second 30 (EvLookup (lit "body") 30); at_second 100 (EvLookup (lit "body") 100);
   at_second 101 (EvSelect None (lit "body") 101); at_second 102 (EvFinish 0 102); at_second 103 (EvLookup (lit "body") 103)].

Definition revocation : list (bytes * option AuthRow) := [(lit "body", Some (key_row (Some 110)))].

Definition grants_of (es : list (Z * Event)) : option (list LookupPath) :=
  match steps plain same_text 60 3600 es one_key with Some (_, gs) => Some ((λ ga : bytes * KeyAuth, ka_path ga.2) <$> gs) | None => None end.

(** A writer to its end, with nothing in between. *)
Definition revoke_events : list (Z * Event) := [at_second 110 (EvCommit revocation); at_second 110 EvInvalidateNext; at_second 110 EvInvalidateNext].
Definition later_events : list (Z * Event) :=
  [at_second 111 (EvLookup (lit "body") 111); at_second 112 (EvSelect (Some (lit "body", 112)) (lit "body") 112); at_second 113 (EvFinish 0 113)].

(** Nothing is granted after the revocation; the lock lets no writer commit between the
    query of a lookup and its writes, and no query run before a writer is done; and a
    refresh sees a revocation of another process. *)
Example demo_grants :
  grants_of demo_events = Some [Cold; Warm; Stale; Warm] ∧
  grants_of (demo_events ++ revoke_events ++ later_events) = Some [Cold; Warm; Stale; Warm] ∧
  grants_of [at_second 1 (EvSelect (Some (lit "body", 1)) (lit "body") 1); at_second 2 (EvCommit revocation)] = None ∧
  grants_of [at_second 1 (EvCommit revocation); at_second 2 (EvSelect (Some (lit "body", 1)) (lit "body") 1)] = None ∧
  grants_of (firstn 3 demo_events ++ [at_second 50 (EvWrite (lit "body") (Some (key_row (Some 50)))); at_second 100 (EvLookup (lit "body") 100);
    at_second 101 (EvSelect None (lit "body") 101); at_second 102 (EvFinish 0 102); at_second 103 (EvLookup (lit "body") 103)]) = Some [Cold; Stale].
Proof. vm_compute. repeat split. Qed.

(** A revocation is not in force at its commit.  A request that comes between the commit and
    the invalidation is granted; and when the writer is cut off there, the key that is
    revoked in the table is granted, here more than ten minutes later. *)
Example commit_alone_revokes_nothing :
  grants_of (firstn 3 demo_events ++ [at_second 10 (EvCommit revocation); at_second 11 (EvLookup (lit "body") 111)]) = Some [Cold; Warm] ∧
  grants_of (firstn 3 demo_events ++ [at_second 10 (EvCommit revocation); at_second 11 EvCutOff; at_second 800 (EvLookup (lit "body") 900)]) =
    Some [Cold; Stale].
Proof. vm_compute. repeat split. Qed.

Definition world_of (es : list (Z * Event)) : World := default one_key (fst <$> steps plain same_text 60 3600 es one_key).

(** The concrete run, as a run of the relation. *)
Lemma demo_run n : from_option (λ _, true) false (steps plain same_text 60 3600 (firstn n demo_events) one_key) = true →
  ∀ t, last_instant 0 (firstn n demo_events) = Some t → ∃ log, runs plain same_text 60 3600 (world_of (firstn n demo_events)) t log.
Proof.
  unfold world_of. destruct (steps _ _ _ _ (firstn n demo_events) one_key) as [[w gs]|] eqn:Hs; [|done]. intros _ t Ht. cbn.
  eapply steps_runs; [exact (runs_new plain same_text 60 3600 {[ lit "body" := key_row None ]} 0)|exact Ht|exact Hs].
Qed.

Definition warm_step : option (World * option (bytes * KeyAuth)) :=
  step plain same_text 60 3600 (30 * SECOND) (EvLookup (lit "body") 30) (world_of (firstn 3 demo_events)).
Definition warm_end : World := default one_key (fst <$> warm_step).
Definition warm_auth : KeyAuth := default (key_auth (row_entry (key_row None)) Cold) (warm_step ≫= λ r, snd <$> r.2).

Lemma grant_rests_on_read_witness :
  warm_step = Some (warm_end, Some (lit "body", warm_auth)) ∧
  ∃ r i, auth_cache (w_auth (world_of (firstn 3 demo_events))) !! lit "body" = Some (row_entry r, i) ∧ 30 * SECOND - i < 60 * SECOND.
Proof.
  destruct (demo_run 3 ltac:(vm_compute; reflexivity) (2 * SECOND) ltac:(vm_compute; reflexivity)) as [log Hr].
  assert (warm_step = Some (warm_end, Some (lit "body", warm_auth))) as Hs by (vm_compute; reflexivity).
  assert (ka_path warm_auth = Warm) as Hp by (vm_compute; reflexivity). split; [exact Hs|].
  destruct (grant_rests_on_read plain same_text 60 3600 (world_of (firstn 3 demo_events)) (2 * SECOND) log (30 * SECOND) (EvLookup (lit "body") 30)
    warm_end (lit "body") warm_auth) as [(r & s & _ & Hby) _]; [vm_compute; split; discriminate|exact Hr|vm_compute; discriminate|exact Hs|].
  rewrite Hp in Hby. destruct Hby as (i & Hc & _ & _ & Hage). exists r, i. split; [exact Hc|exact Hage].
Defined.

Definition before_revocation : World := world_of demo_events.
Definition committed : World :=
  default one_key (fst <$> step plain same_text 60 3600 (110 * SECOND) (EvCommit revocation) before_revocation).
Definition after_revocation : World := default one_key (commit_and_invalidate revocation before_revocation).
Definition later_end : World := default one_key (fst <$> steps plain same_text 60 3600 later_events after_revocation).

(** The writer that is cut off, and a request that comes after the stale limit. *)
Definition cut_world : World := default one_key (fst <$> steps plain same_text 60 3600 [at_second 110 EvCutOff] committed).
Definition latest_events : list (Z * Event) := [at_second 1010 (EvLookup (lit "body") 1010)].
Definition cut_end : World := default one_key (fst <$> steps plain same_text 60 3600 latest_events cut_world).

Lemma revoked_here_is_refused_witness :
  steps plain same_text 60 3600 [at_second 110 EvInvalidateNext; at_second 110 EvInvalidateNext] committed = Some (after_revocation, []) ∧
  steps plain same_text 60 3600 later_events after_revocation = Some (later_end, []) ∧
  (lit "body", key_auth (row_entry (key_row None)) Warm) ∉ ([] : list (bytes * KeyAuth)) ∧
  steps plain same_text 60 3600 latest_events cut_world = Some (cut_end, []) ∧
  (lit "body", key_auth (row_entry (key_row None)) Stale) ∉ ([] : list (bytes * KeyAuth)).
Proof.
  destruct (demo_run 8 ltac:(vm_compute; reflexivity) (103 * SECOND) ltac:(vm_compute; reflexivity)) as [log Hr].
  assert (step plain same_text 60 3600 (110 * SECOND) (EvCommit revocation) before_revocation = Some (committed, None)) as Hs
    by (vm_compute; reflexivity).
  assert (steps plain same_text 60 3600 [at_second 110 EvInvalidateNext; at_second 110 EvInvalidateNext] committed = Some (after_revocation, [])) as H1
    by (vm_compute; reflexivity).
  assert (steps plain same_text 60 3600 [at_second 110 EvCutOff] committed = Some (cut_world, [])) as H2 by (vm_compute; reflexivity).
  assert (steps plain same_text 60 3600 later_events after_revocation = Some (later_end, [])) as H3 by (vm_compute; reflexivity).
  assert (steps plain same_text 60 3600 latest_events cut_world = Some (cut_end, [])) as H4 by (vm_compute; reflexivity).
  assert (∀ r, (lit "body", r) ∈ revocation → dead 110 r) as Hdead
    by (intros r Hin r' ->; unfold revocation in Hin; apply list_elem_of_singleton in Hin; injection Hin as ->; vm_compute; reflexivity).
  split; [exact H1|]. split; [exact H3|].
  split.
  { refine (proj1 (revoked_here_is_refused plain same_text 60 3600 before_revocation (103 * SECOND) log (110 * SECOND) revocation committed None
      (lit "body") 110 _ after_revocation [] later_events later_end [] _ _ Hr _ Hs _ Hdead _ H1 _ H3 _)).
    - vm_compute. split; discriminate.
    - vm_compute. discriminate.
    - left.
    - repeat constructor.
    - constructor; [exact I|]. constructor; [intros _; vm_compute; discriminate|]. constructor; [exact I|constructor].
    - left. split; [repeat constructor; discriminate|apply not_elem_of_nil]. }
  split; [exact H4|].
  refine (proj1 (revoked_here_is_refused plain same_text 60 3600 before_revocation (103 * SECOND) log (110 * SECOND) revocation committed None
      (lit "body") 110 _ cut_world [] latest_events cut_end [] _ _ Hr _ Hs _ Hdead _ H2 _ H4 _)).
  - vm_compute. split; discriminate.
  - vm_compute. discriminate.
  - left.
  - repeat constructor.
  - repeat constructor.
  - right. constructor; [vm_compute; discriminate|constructor].
Defined.
