(* ===== verification/ResponseCache.v ===== *)
(** * The response cache: settings, controls and keys

    The settings of a workspace and of a key ([crates/gateway/src/db/cache_settings.rs]),
    what a request may do with the cache and what its entries are private to
    ([crates/gateway/src/cache_controls.rs]), the request header, the policy it resolves
    to and the key of a request ([crates/gateway/src/semantic_cache.rs]), and the canary
    context that is bound to the key ([crates/gateway/src/prompt_router.rs]).

    A [blake3] hasher is the bytes it was fed; the digest is the parameter [Blake3Fn].
    The types of the wire that derive [Serialize] enter with their texts ([WireTypes]).
    An [f32] is only ever hashed here, so it is its 32 bits; a uuid is its text, which is
    how it is compared and printed. *)

From Stdlib Require Import ZArith Lia.
From stdpp Require Import base list option gmap.
From S2P Require Import Prelude BTree Encoding Hash Json PreAuth.
Local Open Scope Z_scope.

(** ** Hashing *)

(** [to_le_bytes] of an integer of [n] bytes, two's complement. *)
Fixpoint le_bytes (n : nat) (z : Z) : bytes :=
  match n with
  | O => []
  | S n => Zbyte z :: le_bytes n (z / 256)
  end.

Class Blake3Fn := {
  blake3 : bytes → bytes;
  blake3_length : ∀ m, length (blake3 m) = 32%nat;
}.

(** No two different inputs of [S] share a digest. *)
Definition blake3_free `{Blake3Fn} (S : list bytes) : Prop :=
  ∀ x y, x ∈ S → y ∈ S → blake3 x = blake3 y → x = y.

(** What [hash_field] feeds the hasher: the length, eight bytes, and the bytes. *)
Definition hash_field (bs : bytes) : bytes := le_bytes 8 (lenZ bs) ++ bs.

Definition to_hex `{Blake3Fn} (h : bytes) : bytes := hex_encode (blake3 h).
Definition tag8 `{Blake3Fn} (h : bytes) : bytes := firstn 8 (to_hex h).

(** ** Settings ([db/cache_settings.rs]) *)

Inductive Mode := Inherit | On | Off.

#[global] Instance Mode_eq_dec : EqDecision Mode.
Proof. solve_decision. Defined.

Definition Mode_as_str (m : Mode) : bytes :=
  match m with Inherit => lit "inherit" | On => lit "on" | Off => lit "off" end.

Definition Mode_parse (s : bytes) : option Mode :=
  if decide (s = lit "inherit") then Some Inherit
  else if decide (s = lit "on") then Some On
  else if decide (s = lit "off") then Some Off
  else None.

(** Ordered by narrowness, as the derived [Ord] of the source: a later one is narrower. *)
Inductive NamespaceBy := ByWorkspace | ByProject | ByEndUser | ByKey.

#[global] Instance NamespaceBy_eq_dec : EqDecision NamespaceBy.
Proof. solve_decision. Defined.

Definition narrowness (n : NamespaceBy) : Z :=
  match n with ByWorkspace => 0 | ByProject => 1 | ByEndUser => 2 | ByKey => 3 end.

(** [Ord::max]: the second operand on a tie. *)
Definition ns_max (a b : NamespaceBy) : NamespaceBy := if narrowness a <=? narrowness b then b else a.

Definition NamespaceBy_as_str (n : NamespaceBy) : bytes :=
  match n with
  | ByWorkspace => lit "workspace" | ByProject => lit "project" | ByEndUser => lit "end_user" | ByKey => lit "key"
  end.

Definition NamespaceBy_parse (s : bytes) : option NamespaceBy :=
  if decide (s = lit "workspace") then Some ByWorkspace
  else if decide (s = lit "project") then Some ByProject
  else if decide (s = lit "end_user") then Some ByEndUser
  else if decide (s = lit "key") then Some ByKey
  else None.

Record Settings := {
  st_mode : Mode;
  st_ttl_hours : option Z;
  st_namespace_by : NamespaceBy;
  st_semantic : bool;
}.

#[global] Instance Settings_eq_dec : EqDecision Settings.
Proof. solve_decision. Defined.

Definition default_settings : Settings :=
  {| st_mode := Inherit; st_ttl_hours := None; st_namespace_by := ByWorkspace; st_semantic := true |}.

(** [KeyCache]: the narrowing of one key ([api_keys.cache]). *)
Record KeyNarrowing := { kn_off : bool; kn_namespace_by : option NamespaceBy }.

(** The fields of a document the strict parse refuses. *)
Inductive KeyDocError := not_an_object | bad_mode | bad_namespace_by | unknown_field (name : bytes) | empty_document.

Section key_document.
Context `{JsonNumber}.

Definition as_str (v : Value) : option bytes := match v with String s => Some s | _ => None end.

(** One turn of the loop over the fields. *)
Definition key_field (out : KeyNarrowing) (k : bytes) (v : Value) : result KeyNarrowing KeyDocError :=
  if decide (k = lit "mode") then
    if decide (as_str v = Some (lit "off"))
    then Ok {| kn_off := true; kn_namespace_by := kn_namespace_by out |}
    else Err bad_mode
  else if decide (k = lit "namespace_by") then
    match as_str v ≫= NamespaceBy_parse with
    | Some n => Ok {| kn_off := kn_off out; kn_namespace_by := Some n |}
    | None => Err bad_namespace_by
    end
  else Err (unknown_field k).

Fixpoint key_fields (out : KeyNarrowing) (o : list (bytes * Value)) : result KeyNarrowing KeyDocError :=
  match o with
  | [] => Ok out
  | (k, v) :: o => rbind (key_field out k v) (λ out, key_fields out o)
  end.

Definition parse_strict (v : Value) : result KeyNarrowing KeyDocError :=
  match v with
  | Object o =>
      rbind (key_fields {| kn_off := false; kn_namespace_by := None |} o) (λ out,
      if negb (kn_off out) && bool_decide (kn_namespace_by out = None) then Err empty_document else Ok out)
  | _ => Err not_an_object
  end.

(** A stored document that does not parse switches the cache off. *)
Definition from_stored (v : Value) : KeyNarrowing :=
  match parse_strict v with Ok k => k | Err _ => {| kn_off := true; kn_namespace_by := None |} end.

(** [KeyCache::to_json] and the rest of the write path print what the parse reads. *)
Definition KeyNarrowing_to_json (k : KeyNarrowing) : Value :=
  Object ((if kn_off k then [(lit "mode", String (lit "off"))] else []) ++
          from_option (λ n, [(lit "namespace_by", String (NamespaceBy_as_str n))]) [] (kn_namespace_by k)).
End key_document.

(** What the entitlement refresh loads. *)
Record Loaded := {
  ld_settings : Settings;
  ld_epochs : gmap bytes Z;
  ld_keys : gmap bytes KeyNarrowing;
}.

Definition default_loaded : Loaded := {| ld_settings := default_settings; ld_epochs := ∅; ld_keys := ∅ |}.

(** The row of [workspace_cache_settings], its text columns as they are stored. *)
Record SettingsRow := { sr_mode : bytes; sr_ttl_hours : option Z; sr_namespace_by : bytes; sr_semantic : bool }.

Definition settings_of_row (r : SettingsRow) : Settings :=
  {| st_mode := default Off (Mode_parse (sr_mode r));
     st_ttl_hours := t ← sr_ttl_hours r; if 0 <? t then Some t else None;
     st_namespace_by := default ByKey (NamespaceBy_parse (sr_namespace_by r));
     st_semantic := sr_semantic r |}.

(** [read_with]: the three statements of the refresh, given the rows they select. *)
Definition read_with `{JsonNumber} (row : option SettingsRow) (epochs : list (bytes * Z)) (keys : list (bytes * Value)) : Loaded :=
  {| ld_settings := from_option settings_of_row default_settings row;
     ld_epochs := foldl (λ m '(s, e), <[s := e]> m) ∅ epochs;
     ld_keys := foldl (λ m '(k, v), <[k := from_stored v]> m) ∅ keys |}.

Definition epoch (l : Loaded) (scope : bytes) : Z := default 0 (ld_epochs l !! scope).

(** The scopes of a request, in the order in which they are folded. *)
Definition scopes_of (project key : option bytes) (model : bytes) : list bytes :=
  lit "workspace" ::
  from_option (λ p, [lit "project:" ++ p]) [] project ++
  from_option (λ k, [lit "key:" ++ k]) [] key ++
  [lit "model:" ++ model].

Definition applicable_epochs (l : Loaded) (project key : option bytes) (model : bytes) : list (bytes * Z) :=
  omap (λ s, let e := epoch l s in if decide (e = 0) then None else Some (s, e)) (scopes_of project key model).

(** [bump_epoch] on the rows of one workspace, under its advisory lock. *)
Inductive BumpOutcome := Bumped (e : Z) | LimitReached (max : nat).

Definition bump_epoch (rows : gmap bytes Z) (scope : bytes) (max_rows : nat) : gmap bytes Z * BumpOutcome :=
  match rows !! scope with
  | None =>
      if (max_rows <=? size rows)%nat then (rows, LimitReached max_rows)
      else (<[scope := 1]> rows, Bumped 1)
  | Some e => (<[scope := e + 1]> rows, Bumped (e + 1))
  end.

(** [set_settings] on the row of one workspace: the row is materialised with the
    defaults of its columns, compared and replaced. *)
Record SetOutcome := { so_previous : Settings; so_current : Settings; so_changed : bool }.

Definition default_row : SettingsRow :=
  {| sr_mode := lit "inherit"; sr_ttl_hours := None; sr_namespace_by := lit "workspace"; sr_semantic := true |}.

Definition previous_of_row (r : SettingsRow) : Settings :=
  {| st_mode := default Off (Mode_parse (sr_mode r));
     st_ttl_hours := t ← sr_ttl_hours r; if 0 <=? t then Some t else None;
     st_namespace_by := default ByKey (NamespaceBy_parse (sr_namespace_by r));
     st_semantic := sr_semantic r |}.

Definition row_of_settings (s : Settings) : SettingsRow :=
  {| sr_mode := Mode_as_str (st_mode s);
     sr_ttl_hours := Z.min (2 ^ 31 - 1) <$> st_ttl_hours s;
     sr_namespace_by := NamespaceBy_as_str (st_namespace_by s);
     sr_semantic := st_semantic s |}.

Definition set_settings (row : option SettingsRow) (new : Settings) : option SettingsRow * SetOutcome :=
  let r := default default_row row in
  let previous := previous_of_row r in
  if decide (previous = new)
  then (Some r, {| so_previous := previous; so_current := previous; so_changed := false |})
  else (Some (row_of_settings new), {| so_previous := previous; so_current := new; so_changed := true |}).

(** ** Controls ([cache_controls.rs]) *)

Record ResponseCacheConfig := {
  ttl_ceiling_hours : Z;
  namespace_header_max_bytes : Z;
  max_epoch_rows_per_tenant : Z;
  stats_window_hours : Z;
  inherit_requires_capture : bool;
}.

Definition FALLBACK : ResponseCacheConfig :=
  {| ttl_ceiling_hours := 168; namespace_header_max_bytes := 64; max_epoch_rows_per_tenant := 256;
     stats_window_hours := 24; inherit_requires_capture := true |}.

Section table.
Context `{JsonNumber}.

Definition get_field (v : Value) (k : bytes) : option Value :=
  match v with
  | Object o => found ← list_find (λ kv, kv.1 = k) o; Some found.2.2
  | _ => None
  end.

Definition as_u64 (v : Value) : option Z := match v with Number n => num_as_u64 n | _ => None end.
Definition as_bool (v : Value) : option bool := match v with Bool b => Some b | _ => None end.

(** A bound: a number, at least one, that fits the type of its field. *)
Definition bound_of (v : Value) (max : Z) (k : bytes) : option Z :=
  n ← get_field v k ≫= as_u64; if (1 <=? n) && (n <=? max) then Some n else None.

(** [parse_table] of the parsed document. *)
Definition parse_table (doc : Value) : option ResponseCacheConfig :=
  v ← get_field doc (lit "response_cache");
  t ← bound_of v u32_max (lit "ttl_ceiling_hours");
  n ← bound_of v u64_max (lit "namespace_header_max_bytes");
  m ← bound_of v u64_max (lit "max_epoch_rows_per_tenant");
  w ← bound_of v u32_max (lit "stats_window_hours");
  c ← get_field v (lit "inherit_requires_capture") ≫= as_bool;
  Some {| ttl_ceiling_hours := t; namespace_header_max_bytes := n; max_epoch_rows_per_tenant := m;
          stats_window_hours := w; inherit_requires_capture := c |}.

(** [config]: the parsed table, or the documented values. *)
Definition config_of (doc : option Value) : ResponseCacheConfig := default FALLBACK (doc ≫= parse_table).
End table.

Record CacheCaller := {
  cc_model : bytes;
  cc_key_id : option bytes;
  cc_project_id : option bytes;
  cc_end_user : option bytes;
  cc_captured : bool;
  cc_namespace_header : option bytes;
}.

Record Enabled := { en_on : bool; en_why_off : option bytes }.

Definition off (why : bytes) : Enabled := {| en_on := false; en_why_off := Some why |}.
Definition on : Enabled := {| en_on := true; en_why_off := None |}.

Definition enabled (config : ResponseCacheConfig) (operator_block : bool) (loaded : option Loaded)
    (key : option KeyNarrowing) (plan_entitled captured : bool) : Enabled :=
  if negb operator_block then off (lit "operator_cache_not_configured")
  else if from_option kn_off false key then off (lit "key_cache_off")
  else
    let inherit_on := negb (inherit_requires_capture config) || captured in
    match from_option (λ l, st_mode (ld_settings l)) Inherit loaded, plan_entitled with
    | Off, _ => off (lit "workspace_cache_off")
    | On, true => on
    | _, _ => if inherit_on then on else off (lit "content_capture_off")
    end.

Definition effective_namespace (workspace : NamespaceBy) (key : option NamespaceBy) : NamespaceBy :=
  from_option (ns_max workspace) workspace key.

Record Namespace := { ns_kind : NamespaceBy; ns_value : bytes }.

Inductive NamespaceValue := NoNamespace | InNamespace (n : Namespace) | Unavailable.

#[global] Instance Namespace_eq_dec : EqDecision Namespace.
Proof. solve_decision. Defined.
#[global] Instance NamespaceValue_eq_dec : EqDecision NamespaceValue.
Proof. solve_decision. Defined.

(** The values of the three kinds of namespace, wider ones first. *)
Definition ns_candidates (who : CacheCaller) : list (NamespaceBy * option bytes) :=
  [(ByProject, cc_project_id who);
   (ByEndUser, u ← cc_end_user who; if decide (u = []) then None else Some u);
   (ByKey, cc_key_id who)].

Fixpoint first_namespace (by_ : NamespaceBy) (cs : list (NamespaceBy * option bytes)) : NamespaceValue :=
  match cs with
  | [] => Unavailable
  | (kind, Some value) :: cs =>
      if narrowness by_ <=? narrowness kind then InNamespace {| ns_kind := kind; ns_value := value |}
      else first_namespace by_ cs
  | (_, None) :: cs => first_namespace by_ cs
  end.

Definition namespace (by_ : NamespaceBy) (who : CacheCaller) : NamespaceValue :=
  if decide (by_ = ByWorkspace) then NoNamespace else first_namespace by_ (ns_candidates who).

Definition is_ascii_alphanumeric (b : byte) : bool :=
  let z := byteZ b in
  ((48 <=? z) && (z <=? 57)) || ((65 <=? z) && (z <=? 90)) || ((97 <=? z) && (z <=? 122)).

Definition namespace_byte (b : byte) : bool :=
  is_ascii_alphanumeric b || bool_decide (b ∈ ["."; "_"; ":"; "-"]%byte).

(** [namespace_header]: [Err] is the answer 400. *)
Definition namespace_header (config : ResponseCacheConfig) (h : headers) : result (option bytes) unit :=
  match get_all h (lit "x-tracelane-cache-namespace") with
  | [] => Ok None
  | [v] =>
      match to_str v with
      | Some v =>
          if bool_decide (v = []) || (namespace_header_max_bytes config <? lenZ v) || negb (forallb namespace_byte v)
          then Err () else Ok (Some v)
      | None => Err ()
      end
  | _ => Err ()
  end.

(** ** The fold *)

Record Fold := { fd_digest : bytes; fd_namespace_tag : option bytes; fd_epoch_tag : option bytes }.

Definition ns_value_of (ns : NamespaceValue) : option Namespace :=
  match ns with InNamespace n => Some n | _ => None end.

Definition scope_tag : bytes := lit "tracelane.cache.scope.v1".

(** What [fold] feeds its three hashers. *)
Definition fold_input (ns : option Namespace) (header : option bytes) (epochs : list (bytes * Z)) : bytes :=
  hash_field scope_tag ++
  from_option (λ n, hash_field (lit "ns") ++ hash_field (NamespaceBy_as_str (ns_kind n)) ++ hash_field (ns_value n)) [] ns ++
  from_option (λ h, hash_field (lit "hdr") ++ hash_field h) [] header ++
  concat ((λ '(s, e), hash_field (lit "epoch") ++ hash_field s ++ hash_field (le_bytes 8 e)) <$> epochs).

Definition ns_input (ns : option Namespace) (header : option bytes) : bytes :=
  from_option (λ n, hash_field (NamespaceBy_as_str (ns_kind n)) ++ hash_field (ns_value n)) [] ns ++
  from_option (λ h, hash_field (lit "hdr") ++ hash_field h) [] header.

Definition epoch_input (epochs : list (bytes * Z)) : bytes :=
  concat ((λ '(s, e), hash_field s ++ hash_field (le_bytes 8 e)) <$> epochs).

Definition is_some {A} (o : option A) : bool := match o with Some _ => true | None => false end.

Definition fold `{Blake3Fn} (ns : NamespaceValue) (header : option bytes) (epochs : list (bytes * Z)) : option Fold :=
  let n := ns_value_of ns in
  if negb (is_some n) && negb (is_some header) && bool_decide (epochs = []) then None
  else Some
    {| fd_digest := blake3 (fold_input n header epochs);
       fd_namespace_tag := if is_some n || is_some header then Some (tag8 (ns_input n header)) else None;
       fd_epoch_tag := if decide (epochs = []) then None else Some (tag8 (epoch_input epochs)) |}.

(** ** The request header and the policy ([semantic_cache.rs]) *)

Inductive CacheControl := DefaultControl | Bypass | Use | Ttl (hours : Z).

#[global] Instance CacheControl_eq_dec : EqDecision CacheControl.
Proof. solve_decision. Defined.

Record CacheRefusal := { cr_status : Z; cr_code : bytes }.

Definition invalid_cache_control : CacheRefusal := {| cr_status := 400; cr_code := lit "invalid_cache_control" |}.

Definition parse_control (value : bytes) : result CacheControl CacheRefusal :=
  if decide (value = lit "bypass") then Ok Bypass
  else if decide (value = lit "use") then Ok Use
  else match strip_prefix (lit "ttl=") value with
  | Some raw =>
      if bool_decide (raw = []) || negb (forallb is_digit raw) then Err invalid_cache_control
      else match parse_u64 raw with
      | Some hours => if (hours =? 0) || (u32_max <? hours) then Err invalid_cache_control else Ok (Ttl hours)
      | None => Err invalid_cache_control
      end
  | None => Err invalid_cache_control
  end.

Definition CacheControl_parse (h : headers) : result CacheControl CacheRefusal :=
  match get_all h (lit "x-tracelane-cache") with
  | [] => Ok DefaultControl
  | [v] => match to_str v with Some v => parse_control (trim v) | None => Err invalid_cache_control end
  | _ => Err invalid_cache_control
  end.

(** The fields of [ResolvedEntitlements] the cache reads. *)
Record ResolvedEntitlements := { re_f_cache_control : bool; re_cache_ttl_hours : Z; re_cache : Loaded }.

Record CachePolicy := {
  cp_bypass : bool;
  cp_ttl_hours : option Z;
  cp_binding : bytes;
  cp_quiet : bool;
  cp_semantic : bool;
  cp_fold : option Fold;
}.

Definition default_policy : CachePolicy :=
  {| cp_bypass := false; cp_ttl_hours := None; cp_binding := []; cp_quiet := false; cp_semantic := true; cp_fold := None |}.

(** [others.iter().flatten().copied().min()]. *)
Definition min_of (os : list (option Z)) : option Z :=
  foldr (λ o acc, match o, acc with Some a, Some b => Some (Z.min a b) | Some a, None => Some a | None, _ => acc end) None os.

Definition binding_of (ceiling effective : Z) (requested workspace plan operator : option Z) : bytes :=
  let tied v := bool_decide (v = Some effective) in
  match tied workspace, tied plan, tied operator with
  | true, true, true => lit "workspace,plan,operator"
  | true, true, false => lit "workspace,plan"
  | true, false, true => lit "workspace,operator"
  | true, false, false => lit "workspace"
  | false, true, true => lit "plan,operator"
  | false, true, false => lit "plan"
  | false, false, true => lit "operator"
  | false, false, false =>
      if (ceiling =? effective) && from_option (λ r, effective <? r) true requested then lit "ceiling" else lit "requested"
  end.

(** [operator] is the operator block's own time to live, when there is a block. *)
Definition effective_ttl (config : ResponseCacheConfig) (requested workspace plan operator : option Z) : Z * bytes :=
  let ceiling := ttl_ceiling_hours config in
  let floor := default ceiling (min_of [workspace; plan; operator]) in
  let effective := Z.min (Z.min (default u32_max requested) floor) ceiling in
  (effective, binding_of ceiling effective requested workspace plan operator).

Definition with_ttl (p : CachePolicy) (t : Z * bytes) : CachePolicy :=
  {| cp_bypass := cp_bypass p; cp_ttl_hours := Some t.1; cp_binding := t.2; cp_quiet := cp_quiet p;
     cp_semantic := cp_semantic p; cp_fold := cp_fold p |}.

Definition suspend (p : CachePolicy) : CachePolicy :=
  {| cp_bypass := true; cp_ttl_hours := cp_ttl_hours p; cp_binding := cp_binding p; cp_quiet := cp_quiet p;
     cp_semantic := cp_semantic p; cp_fold := cp_fold p |}.

Section policy.
Context `{Blake3Fn} (config : ResponseCacheConfig).

Definition workspace_settings (loaded : option Loaded) : Settings := from_option ld_settings default_settings loaded.

Definition workspace_policy (operator : option Z) (loaded : option Loaded) (plan : option Z)
    (key_cfg : option KeyNarrowing) (who : CacheCaller) (requested : option Z) : CachePolicy :=
  let ws := workspace_settings loaded in
  let policy :=
    match st_ttl_hours ws, plan with
    | Some ws_ttl, Some _ => with_ttl default_policy (effective_ttl config requested (Some ws_ttl) plan operator)
    | _, _ =>
        match requested with
        | Some n => with_ttl default_policy (effective_ttl config (Some n) None plan operator)
        | None => default_policy
        end
    end in
  let by_ := effective_namespace (st_namespace_by ws) (key_cfg ≫= kn_namespace_by) in
  let ns := namespace by_ who in
  if decide (ns = Unavailable) then
    {| cp_bypass := true; cp_ttl_hours := cp_ttl_hours policy; cp_binding := cp_binding policy; cp_quiet := true;
       cp_semantic := st_semantic ws; cp_fold := None |}
  else
    let epochs := from_option (λ l, applicable_epochs l (cc_project_id who) (cc_key_id who) (cc_model who)) [] loaded in
    {| cp_bypass := false; cp_ttl_hours := cp_ttl_hours policy; cp_binding := cp_binding policy; cp_quiet := false;
       cp_semantic := st_semantic ws; cp_fold := fold ns (cc_namespace_header who) epochs |}.

(** The plan's own time to live, while the plan grants cache control. *)
Definition plan_of (entitlements : option ResolvedEntitlements) : option Z :=
  e ← entitlements; if re_f_cache_control e && (0 <? re_cache_ttl_hours e) then Some (re_cache_ttl_hours e) else None.

(** The narrowing of the caller's key. *)
Definition key_cfg_of (loaded : option Loaded) (who : CacheCaller) : option KeyNarrowing :=
  k ← cc_key_id who; l ← loaded; ld_keys l !! k.

(** [operator]: the time to live of the operator's block, [None] without a block;
    [supported]: the route can cache this request. *)
Definition resolve (self : CacheControl) (entitlements : option ResolvedEntitlements) (operator : option Z)
    (supported : bool) (who : CacheCaller) : result CachePolicy CacheRefusal :=
  if decide (self = Bypass) then Ok (suspend default_policy)
  else
    let plan := plan_of entitlements in
    let loaded := re_cache <$> entitlements in
    let key_cfg := key_cfg_of loaded who in
    let state := enabled config (is_some operator) loaded key_cfg (is_some plan) (cc_captured who) in
    if decide (self = DefaultControl) then
      if negb (en_on state) || negb supported then
        Ok {| cp_bypass := negb (en_on state); cp_ttl_hours := None; cp_binding := []; cp_quiet := true;
              cp_semantic := true; cp_fold := None |}
      else Ok (workspace_policy operator loaded plan key_cfg who None)
    else match plan with
    | None => Err {| cr_status := 403; cr_code := lit "cache_control_not_entitled" |}
    | Some plan =>
        if negb supported then Err {| cr_status := 409; cr_code := lit "cache_control_unsupported_route" |}
        else if negb (en_on state) then Err {| cr_status := 409; cr_code := lit "response_cache_disabled" |}
        else
          let requested := match self with Ttl n => Some n | _ => None end in
          let policy := workspace_policy operator loaded (Some plan) key_cfg who requested in
          Ok (match cp_ttl_hours policy with
              | None => with_ttl policy (effective_ttl config requested None (Some plan) operator)
              | Some _ => policy
              end)
    end.

(** [cache_header_refusal] of [admission.rs]: a route that cannot cache refuses the
    header, and answers as [resolve] does. *)
Definition cache_header_refusal (unsupported : bool) (h : headers) (entitlements : option ResolvedEntitlements) :
    option CacheRefusal :=
  if negb unsupported then None
  else match CacheControl_parse h with
  | Ok (Use | Ttl _) =>
      if is_some (plan_of entitlements)
      then Some {| cr_status := 409; cr_code := lit "cache_control_unsupported_route" |}
      else Some {| cr_status := 403; cr_code := lit "cache_control_not_entitled" |}
  | _ => None
  end.
End policy.

(** [CachePolicy::response] on the headers of a response. *)
Definition or_insert (k v : bytes) (m : gmap bytes bytes) : gmap bytes bytes :=
  match m !! k with Some _ => m | None => <[k := v]> m end.

Definition insert_tag (k : bytes) (tag : option bytes) (m : gmap bytes bytes) : gmap bytes bytes :=
  from_option (λ v, <[k := v]> m) m tag.

Definition policy_response (p : CachePolicy) (hs : gmap bytes bytes) : gmap bytes bytes :=
  let hs := if cp_bypass p && negb (cp_quiet p) then <[lit "x-tracelane-cache" := lit "bypass"]> hs else hs in
  let hs := match cp_ttl_hours p with
            | Some ttl =>
                <[lit "x-tracelane-cache-bound" := cp_binding p]>
                (<[lit "x-tracelane-cache-ttl-hours" := dec ttl]> (or_insert (lit "x-tracelane-cache") (lit "miss") hs))
            | None => hs
            end in
  match cp_fold p with
  | Some f => insert_tag (lit "x-tracelane-cache-epoch") (fd_epoch_tag f)
                (insert_tag (lit "x-tracelane-cache-namespace") (fd_namespace_tag f) hs)
  | None => hs
  end.

(** ** The key of a request *)

(** The wire types with a derived [Serialize], each with
    [serde_json::to_string(..).unwrap_or_default()] as the code calls it. *)
Class WireTypes := {
  ContentPart : Type;
  ToolCall : Type;
  Tool : Type;
  ToolChoice : Type;
  parts_text : list ContentPart → bytes;
  tool_calls_text : list ToolCall → bytes;
  tool_text : Tool → bytes;
  tool_choice_text : ToolChoice → bytes;
}.

Inductive Role := System | User | Assistant | ToolRole.

(** [format!("{:?}", role)]. *)
Definition role_debug (r : Role) : bytes :=
  match r with System => lit "System" | User => lit "User" | Assistant => lit "Assistant" | ToolRole => lit "Tool" end.

Inductive Stop := One (s : bytes) | Many (v : list bytes).

Definition sequences (s : Stop) : list bytes := match s with One s => [s] | Many v => v end.

Section request_key.
Context `{Blake3Fn} `{JsonNumber} `{WireTypes}.

Inductive MessageContent := Text (t : bytes) | Parts (parts : list ContentPart).

Record Message := {
  m_role : Role;
  m_content : MessageContent;
  m_tool_call_id : option bytes;
  m_tool_calls : option (list ToolCall);
}.

(** The fields of [ChatRequest] that are hashed. *)
Record ChatRequest := {
  q_model : bytes;
  q_messages : list Message;
  q_tools : option (list Tool);
  q_tool_choice : option ToolChoice;
  q_max_tokens : option Z;
  q_temperature : option Z;
  q_top_p : option Z;
  q_seed : option Z;
  q_logprobs : option bool;
  q_top_logprobs : option Z;
  q_system : option bytes;
  q_stop : option Stop;
  q_response_format : option Value;
  q_reasoning_effort : option bytes;
  q_max_completion_tokens : option Z;
  q_presence_penalty : option Z;
  q_frequency_penalty : option Z;
  q_parallel_tool_calls : option bool;
  q_extra : list (bytes * Value);
}.

Definition u8_of_bool (b : bool) : bytes := [if b then x01 else x00].

(** [canonical_json] of [request_support.rs]: the fields in key order; a string or a
    scalar as [serde_json] prints it, which is what [canon] writes for one. *)
Fixpoint canonical_json (v : Value) : bytes :=
  match v with
  | Object m =>
      "{"%byte ::
      sep_concat comma (field_text <$> sort_fields (map (λ kv, (kv.1, canonical_json kv.2)) m)) ++
      ["}"%byte]
  | Array a => "["%byte :: sep_concat comma (map canonical_json a) ++ ["]"%byte]
  | other => canon other
  end.

Definition tool_call_id_text (m : Message) : bytes := default [] (m_tool_call_id m).
Definition tool_calls_field (m : Message) : bytes := from_option tool_calls_text [] (m_tool_calls m).

Definition msg_marker : bytes := x01 :: lit "msg".

Definition has_tool_state (m : Message) : bool :=
  is_some (m_tool_call_id m) || from_option (λ t, negb (bool_decide (length t = 0%nat))) false (m_tool_calls m).

Definition tool_history_input (ms : list Message) : bytes :=
  concat ((λ m, msg_marker ++ hash_field (tool_call_id_text m) ++ hash_field (tool_calls_field m)) <$> ms).

Definition tool_history_digest (ms : list Message) : option bytes :=
  if existsb has_tool_state ms then Some (to_hex (tool_history_input ms)) else None.

(** The bits of [-1.0f32], which stands for no temperature. *)
Definition no_temperature : Z := 0xBF800000.

Definition optional {A} (o : option A) (f : A → bytes) : bytes := from_option f [] o.

(** What is fed to the hasher of the parameters, in the order of the source. *)
Definition params_input (q : ChatRequest) : bytes :=
  q_model q ++
  le_bytes 4 (default 0 (q_max_tokens q)) ++
  le_bytes 4 (default no_temperature (q_temperature q)) ++
  optional (q_tools q) (λ ts, le_bytes 4 (lenZ ts) ++ concat (tool_text <$> ts)) ++
  optional (q_tool_choice q) tool_choice_text ++
  optional (q_top_p q) (λ tp, lit "top_p=" ++ le_bytes 4 tp) ++
  optional (q_seed q) (λ s, lit "seed=" ++ le_bytes 8 s) ++
  optional (q_logprobs q) (λ b, lit "logprobs=" ++ u8_of_bool b) ++
  optional (q_top_logprobs q) (λ t, lit "top_logprobs=" ++ [Zbyte t]) ++
  optional (q_stop q) (λ s, lit "stop=" ++ le_bytes 8 (lenZ (sequences s)) ++ concat (hash_field <$> sequences s)) ++
  optional (q_response_format q) (λ v, lit "response_format=" ++ hash_field (canonical_json v)) ++
  optional (q_reasoning_effort q) (λ e, lit "reasoning_effort=" ++ hash_field e) ++
  optional (q_max_completion_tokens q) (λ m, lit "max_completion_tokens=" ++ le_bytes 4 m) ++
  optional (q_presence_penalty q) (λ p, lit "presence_penalty=" ++ le_bytes 4 p) ++
  optional (q_frequency_penalty q) (λ p, lit "frequency_penalty=" ++ le_bytes 4 p) ++
  optional (q_parallel_tool_calls q) (λ b, lit "parallel_tool_calls=" ++ u8_of_bool b) ++
  (if decide (length (q_extra q) = 0%nat) then [] else lit "extra=" ++ hash_field (canonical_json (Object (q_extra q)))) ++
  optional (q_system q) (λ s, s) ++
  optional (tool_history_digest (q_messages q)) (λ d, lit "tool_history=" ++ d).

Definition params_hash_of (q : ChatRequest) : bytes := to_hex (params_input q).

Definition content_fields (c : MessageContent) : bytes :=
  match c with
  | Text t => hash_field (lit "text") ++ hash_field t
  | Parts ps => hash_field (lit "parts") ++ hash_field (parts_text ps)
  end.

(** One message in the exact key. *)
Definition message_input (m : Message) : bytes :=
  msg_marker ++ hash_field (role_debug (m_role m)) ++ content_fields (m_content m) ++
  hash_field (tool_call_id_text m) ++ hash_field (tool_calls_field m).

Definition exact_tag : bytes := lit "tracelane.semantic-cache.exact.v2" ++ [x00].

Definition exact_input (params_hash : bytes) (ms : list Message) : bytes :=
  exact_tag ++ params_hash ++ concat (message_input <$> ms).

(** The text that the semantic tier embeds. *)
Definition embed_text_of (ms : list Message) : bytes :=
  concat ((λ m, role_debug (m_role m) ++ [colon] ++
                match m_content m with Text t => t | Parts ps => parts_text ps end ++ [newline]) <$> ms).

Record RequestKey := {
  rk_canary_namespace : bytes;
  rk_bypass : bool;
  rk_ttl_hours : option Z;
  rk_exact_hash : bytes;
  rk_params_hash : bytes;
  rk_embed_text : bytes;
  rk_semantic_models : option (list bytes);
}.

Definition request_key (q : ChatRequest) : RequestKey :=
  {| rk_canary_namespace := []; rk_bypass := false; rk_ttl_hours := None;
     rk_exact_hash := to_hex (exact_input (params_hash_of q) (q_messages q));
     rk_params_hash := params_hash_of q;
     rk_embed_text := embed_text_of (q_messages q);
     rk_semantic_models := None |}.

Definition restrict_semantic_tier (k : RequestKey) (models : list bytes) : RequestKey :=
  {| rk_canary_namespace := rk_canary_namespace k; rk_bypass := rk_bypass k; rk_ttl_hours := rk_ttl_hours k;
     rk_exact_hash := rk_exact_hash k; rk_params_hash := rk_params_hash k; rk_embed_text := rk_embed_text k;
     rk_semantic_models := Some models |}.

Definition semantic_models (k : RequestKey) (configured : list bytes) : list bytes := default configured (rk_semantic_models k).

(** One rehash: the digest so far, and what it is bound to. *)
Definition rehash (d : bytes) (fields : list bytes) : bytes := to_hex (hash_field d ++ concat (hash_field <$> fields)).

Definition rehash_key (k : RequestKey) (fields : list bytes) : RequestKey :=
  {| rk_canary_namespace := rk_canary_namespace k; rk_bypass := rk_bypass k; rk_ttl_hours := rk_ttl_hours k;
     rk_exact_hash := rehash (rk_exact_hash k) fields; rk_params_hash := rehash (rk_params_hash k) fields;
     rk_embed_text := rk_embed_text k; rk_semantic_models := rk_semantic_models k |}.

(** [CachePolicy::key]. *)
Definition policy_key (p : CachePolicy) (k : RequestKey) : RequestKey :=
  let k := {| rk_canary_namespace := rk_canary_namespace k; rk_bypass := cp_bypass p; rk_ttl_hours := cp_ttl_hours p;
              rk_exact_hash := rk_exact_hash k; rk_params_hash := rk_params_hash k;
              rk_embed_text := rk_embed_text k; rk_semantic_models := rk_semantic_models k |} in
  let k := match cp_ttl_hours p with Some ttl => rehash_key k [le_bytes 4 ttl] | None => k end in
  match cp_fold p with Some f => rehash_key k [fd_digest f] | None => k end.

(** ** The canary context ([prompt_router.rs]) *)

Record CanaryRecord := { cn_tenant : bytes; cn_prompt_name : bytes; cn_canary_id : bytes; cn_enabled : bool }.

Record CanaryCacheContext := { cx_suspended : bool; cx_namespace : bytes }.

Definition default_context : CanaryCacheContext := {| cx_suspended := false; cx_namespace := [] |}.

(** The records of a tenant, by prompt name; the records are keyed by tenant and name. *)
Definition canary_rows (records : list CanaryRecord) (tenant : bytes) : list CanaryRecord :=
  (sort_fields ((λ r, (cn_prompt_name r, r)) <$> filter (λ r, cn_tenant r = tenant) records)).*2.

Definition canary_context (rows : list CanaryRecord) : CanaryCacheContext :=
  {| cx_suspended := existsb cn_enabled rows;
     cx_namespace := to_hex (concat ((λ r, hash_field (cn_prompt_name r) ++ cn_canary_id r) <$> rows)) |}.

(** [None]: the canary state was never read. *)
Definition canary_cache_context (snapshot : option (list CanaryRecord)) (tenant : bytes) : CanaryCacheContext :=
  match snapshot with
  | None => {| cx_suspended := true; cx_namespace := lit "unavailable" |}
  | Some records =>
      match canary_rows records tenant with
      | [] => default_context
      | rows => canary_context rows
      end
  end.

(** [bind_key], given the context of the tenant. *)
Definition bind_key (context : CanaryCacheContext) (k : RequestKey) (route_namespace : option bytes) : RequestKey :=
  let k := {| rk_canary_namespace := cx_namespace context; rk_bypass := rk_bypass k || cx_suspended context;
              rk_ttl_hours := rk_ttl_hours k; rk_exact_hash := rk_exact_hash k; rk_params_hash := rk_params_hash k;
              rk_embed_text := rk_embed_text k; rk_semantic_models := rk_semantic_models k |} in
  if negb (bool_decide (cx_namespace context = [])) || is_some route_namespace
  then rehash_key k (cx_namespace context :: option_list route_namespace)
  else k.

(** [reusable]: the key may be used under the context of this moment. *)
Definition reusable (context : CanaryCacheContext) (k : RequestKey) : bool :=
  negb (rk_bypass k) && negb (cx_suspended context) && bool_decide (rk_canary_namespace k = cx_namespace context).
End request_key.
