(* ===== verification/ResponseCacheProofs.v ===== *)
(** * The response cache: consent, narrowing and what a key determines

    The theorems about the settings and the keys of the response cache.  A policy that
    uses the cache has the consent of everyone who has a say; a key's document and its
    namespace only narrow; the time to live is the least of its bounds; a route that
    cannot cache refuses as the cache would.  The digests of a request determine the
    scope of its entries, and its messages, as far as the digest itself has no collision
    among the inputs that a statement names. *)

From Stdlib Require Import ZArith Lia.
From stdpp Require Import base list option gmap.
From S2P Require Import Prelude BTree Encoding Hash Json PreAuth Instances ResponseCache.
Local Open Scope Z_scope.

(** ** Field encodings *)

Lemma length_le_bytes n z : length (le_bytes n z) = n.
Proof. revert z. induction n as [|n IH]; intros z; simpl; [done|]. by rewrite IH. Qed.

Lemma le_bytes_mod n a b : le_bytes n a = le_bytes n b → a mod 256 ^ Z.of_nat n = b mod 256 ^ Z.of_nat n.
Proof.
  revert a b. induction n as [|n IH]; intros a b; [intros _; by rewrite !Z.mod_1_r|].
  cbn [le_bytes]. intros E. pose proof (f_equal (from_option byteZ 0 ∘ head) E) as E0. cbn in E0. rewrite !byteZ_Zbyte in E0.
  pose proof (f_equal tail E) as E1. cbn in E1. apply IH in E1.
  rewrite Nat2Z.inj_succ, Z.pow_succ_r by lia. rewrite !Z.rem_mul_r by (try apply Z.pow_pos_nonneg; lia). congruence.
Qed.

Lemma le_bytes_inj n a b :
  0 ≤ a < 256 ^ Z.of_nat n → 0 ≤ b < 256 ^ Z.of_nat n → le_bytes n a = le_bytes n b → a = b.
Proof. intros Ha Hb E%le_bytes_mod. by rewrite !Z.mod_small in E. Qed.

Definition is_i64 (z : Z) : Prop := - 2 ^ 63 ≤ z ≤ i64_max.

Lemma le_bytes_i64_inj a b : is_i64 a → is_i64 b → le_bytes 8 a = le_bytes 8 b → a = b.
Proof.
  unfold is_i64, i64_max. intros Ha Hb E%le_bytes_mod. change (256 ^ Z.of_nat 8) with (2 ^ 64) in E.
  Z.div_mod_to_equations. lia.
Qed.

Lemma field_app_inj x y r s : fits x → fits y → hash_field x ++ r = hash_field y ++ s → x = y ∧ r = s.
Proof.
  intros Hx%fits_is_u64 Hy%fits_is_u64 E. unfold hash_field in E. rewrite <- !app_assoc in E.
  apply app_inj_1 in E as [E1 E2]; [|by rewrite !length_le_bytes].
  apply le_bytes_inj in E1; [|unfold is_u64, u64_max in *; change (256 ^ Z.of_nat 8) with (2 ^ 64); lia..].
  apply app_inj_1 in E2; [done|]. unfold lenZ in E1. lia.
Qed.

Lemma hash_field_ne x r : hash_field x ++ r ≠ [].
Proof. unfold hash_field. by destruct (lenZ x). Qed.

(** The fields of a list, written one after the other. *)
Definition fields_text (l : list bytes) : bytes := concat (hash_field <$> l).

Lemma fields_text_app l k : fields_text (l ++ k) = fields_text l ++ fields_text k.
Proof. unfold fields_text. by rewrite fmap_app, concat_app. Qed.

Lemma fields_text_cons x l : fields_text (x :: l) = hash_field x ++ fields_text l.
Proof. done. Qed.

Lemma fields_text_inj l k : Forall fits l → Forall fits k → fields_text l = fields_text k → l = k.
Proof.
  intros Hl. revert k. induction Hl as [|x l Hx Hl IH]; intros k Hk.
  - destruct Hk as [|y k]; [done|]. intros E. symmetry in E. by apply hash_field_ne in E.
  - destruct Hk as [|y k Hy Hk]; [intros E; by apply hash_field_ne in E|].
    rewrite !fields_text_cons. intros [-> E]%field_app_inj; [|done..]. f_equal. by apply IH.
Qed.

(** ** Digests *)

Section digests.
Context `{Blake3Fn}.

Lemma length_to_hex h : length (to_hex h) = 64%nat.
Proof. unfold to_hex. by rewrite length_hex_encode, blake3_length. Qed.

Lemma to_hex_inj S x y : blake3_free S → x ∈ S → y ∈ S → to_hex x = to_hex y → x = y.
Proof. intros HS Hx Hy E%(inj hex_encode). by apply HS. Qed.
End digests.

(** ** Consent *)

Section consent.
Context (config : ResponseCacheConfig).

Definition mode_of (loaded : option Loaded) : Mode := st_mode (workspace_settings loaded).

(** Everyone who has a say about the cache allows it: the operator has a block, the key
    does not switch it off, the workspace does not either, and the workspace records the
    texts (where that is asked for) or has opted in under a plan that grants it. *)
Definition consents (entitlements : option ResolvedEntitlements) (operator : option Z) (who : CacheCaller) : Prop :=
  let loaded := re_cache <$> entitlements in
  is_Some operator ∧
  (∀ k, key_cfg_of loaded who = Some k → kn_off k = false) ∧
  mode_of loaded ≠ Off ∧
  (inherit_requires_capture config = false ∨ cc_captured who = true ∨
   (mode_of loaded = On ∧ is_Some (plan_of entitlements))).

Lemma is_some_true {A} (o : option A) : is_some o = true ↔ is_Some o.
Proof. destruct o; simpl; split; eauto; [done|by intros []]. Qed.

Lemma mode_of_alt loaded : from_option (λ l, st_mode (ld_settings l)) Inherit loaded = mode_of loaded.
Proof. by destruct loaded. Qed.

(** [enabled] is the conjunction of the consents. *)
Lemma enabled_iff entitlements operator who :
  let loaded := re_cache <$> entitlements in
  en_on (enabled config (is_some operator) loaded (key_cfg_of loaded who) (is_some (plan_of entitlements)) (cc_captured who)) = true
  ↔ consents entitlements operator who.
Proof.
  intros loaded. unfold consents. fold loaded. rewrite <- is_some_true, <- (is_some_true (plan_of _)).
  unfold enabled. rewrite mode_of_alt. generalize (mode_of loaded) (is_some (plan_of entitlements)). intros m pl.
  destruct (is_some operator); simpl; [|naive_solver]. destruct (key_cfg_of loaded who) as [[[] n]|]; simpl;
    [split; [done|intros (_ & Hk & _); by specialize (Hk _ eq_refl)]|..];
    destruct m, pl, (inherit_requires_capture config), (cc_captured who); simpl; naive_solver.
Qed.

Context `{Blake3Fn}.

(** The namespace of a request, its header and the epochs that apply to it. *)
Definition namespace_of (entitlements : option ResolvedEntitlements) (who : CacheCaller) : NamespaceValue :=
  let loaded := re_cache <$> entitlements in
  namespace (effective_namespace (st_namespace_by (workspace_settings loaded)) (key_cfg_of loaded who ≫= kn_namespace_by)) who.

Definition epochs_of (entitlements : option ResolvedEntitlements) (who : CacheCaller) : list (bytes * Z) :=
  from_option (λ l, applicable_epochs l (cc_project_id who) (cc_key_id who) (cc_model who)) [] (re_cache <$> entitlements).

(** What a policy that uses the cache rests on. *)
Lemma workspace_policy_inv operator e plan who requested :
  let p := workspace_policy config operator (re_cache <$> e) plan (key_cfg_of (re_cache <$> e) who) who requested in
  cp_bypass p = false →
  namespace_of e who ≠ Unavailable ∧ cp_fold p = fold (namespace_of e who) (cc_namespace_header who) (epochs_of e who).
Proof. unfold workspace_policy. fold (namespace_of e who). case_decide; simpl; [done|]. by intros _. Qed.

Lemma resolve_inv self e operator who p :
  resolve config self e operator true who = Ok p → cp_bypass p = false →
  self ≠ Bypass ∧ consents e operator who ∧ namespace_of e who ≠ Unavailable ∧
  cp_fold p = fold (namespace_of e who) (cc_namespace_header who) (epochs_of e who).
Proof.
  unfold resolve. case_decide as Hb; [intros [= <-]; done|]. rewrite <- enabled_iff.
  destruct (en_on _) eqn:Hon; simpl.
  - case_decide; [intros [= <-] Hp%workspace_policy_inv; tauto|].
    destruct (plan_of e) as [pl|] eqn:Hpl; [|done]. intros [= <-].
    destruct (cp_ttl_hours _); intros Hp; apply workspace_policy_inv in Hp; tauto.
  - case_decide; [intros [= <-]; done|]. by destruct (plan_of e).
Qed.
End consent.

(** ** Narrowing *)

(** The namespace of a request is at least as narrow as the workspace asks, and as its key
    asks; it is the request's own value of that kind. *)
Definition own_value (who : CacheCaller) (n : Namespace) : Prop :=
  match ns_kind n with
  | ByWorkspace => False
  | ByProject => cc_project_id who = Some (ns_value n)
  | ByEndUser => cc_end_user who = Some (ns_value n) ∧ ns_value n ≠ []
  | ByKey => cc_key_id who = Some (ns_value n)
  end.

Lemma namespace_spec by_ who :
  match namespace by_ who with
  | NoNamespace => by_ = ByWorkspace
  | InNamespace n => by_ ≠ ByWorkspace ∧ narrowness by_ ≤ narrowness (ns_kind n) ∧ own_value who n
  | Unavailable => by_ ≠ ByWorkspace ∧ cc_key_id who = None
  end.
Proof.
  unfold namespace. case_decide as Hb; [done|]. unfold ns_candidates, own_value.
  destruct (cc_project_id who) as [pr|], (cc_end_user who) as [[|u us]|], (cc_key_id who) as [k|], by_; simpl;
    try done; repeat split; try done; by try lia.
Qed.

Lemma effective_namespace_le ws key :
  narrowness ws ≤ narrowness (effective_namespace ws key) ∧
  (∀ k, key = Some k → narrowness k ≤ narrowness (effective_namespace ws key)).
Proof.
  destruct key as [k|]; simpl; [|split; [done|intros ? [=]]]. unfold ns_max.
  destruct (Z.leb_spec (narrowness ws) (narrowness k)); (split; [lia|intros ? [= <-]; lia]).
Qed.

(** The cache never widens: the namespace that a request resolves to is at least as
    narrow as the workspace's choice and as its key's, and it is the request's own project,
    end user or key; a request is in no namespace only if neither asks for one, and one
    without any value for its namespace (it then has no key) does not use the cache. *)
Theorem cache_only_narrows (e : option ResolvedEntitlements) (who : CacheCaller) :
  let loaded := re_cache <$> e in
  let asked := st_namespace_by (workspace_settings loaded) in
  match namespace_of e who with
  | NoNamespace => asked = ByWorkspace ∧ (∀ k, key_cfg_of loaded who ≫= kn_namespace_by = Some k → k = ByWorkspace)
  | InNamespace n =>
      narrowness asked ≤ narrowness (ns_kind n) ∧
      (∀ k, key_cfg_of loaded who ≫= kn_namespace_by = Some k → narrowness k ≤ narrowness (ns_kind n)) ∧
      own_value who n
  | Unavailable => cc_key_id who = None
  end.
Proof.
  intros loaded asked. unfold namespace_of. fold loaded. fold asked.
  pose proof (effective_namespace_le asked (key_cfg_of loaded who ≫= kn_namespace_by)) as [Hw Hk].
  set (by_ := effective_namespace _ _) in *. pose proof (namespace_spec by_ who) as Hs.
  destruct (namespace by_ who) as [|n|].
  - rewrite Hs in Hw, Hk. split; [by destruct asked|]. intros k Ek. specialize (Hk k Ek). by destruct k.
  - destruct Hs as (_ & Hn & Hv). split; [lia|]. split; [|done]. intros k Ek. specialize (Hk k Ek). lia.
  - apply Hs.
Qed.

(** ** Times to live *)

Definition least (t : Z) (bounds : list Z) : Prop := t ∈ bounds ∧ ∀ v, v ∈ bounds → t ≤ v.

Lemma effective_ttl_least config requested workspace plan operator :
  ttl_ceiling_hours config ≤ u32_max →
  least (effective_ttl config requested workspace plan operator).1
    (ttl_ceiling_hours config :: option_list operator ++ option_list plan ++ option_list workspace ++ option_list requested).
Proof.
  intros Hc. unfold effective_ttl, least. simpl fst. unfold u32_max in *. set (c := ttl_ceiling_hours config) in *.
  destruct requested, workspace, plan, operator; simpl;
    (split; [|intros v]; repeat setoid_rewrite elem_of_cons; rewrite elem_of_nil; lia).
Qed.

Section ttl.
Context `{Blake3Fn} (config : ResponseCacheConfig) (ceiling_u32 : ttl_ceiling_hours config ≤ u32_max).

Definition requested_of (self : CacheControl) : option Z := match self with Ttl n => Some n | _ => None end.

Lemma workspace_policy_ttl operator loaded plan key who requested t :
  cp_ttl_hours (workspace_policy config operator loaded plan key who requested) = Some t →
  least t (ttl_ceiling_hours config :: option_list operator ++ option_list plan ++
           (if decide (plan = None) then [] else option_list (st_ttl_hours (workspace_settings loaded))) ++ option_list requested).
Proof.
  intros E. unfold workspace_policy in E. set (base := match st_ttl_hours _ with Some _ => _ | None => _ end) in E.
  assert (cp_ttl_hours base = Some t) as Hb by (case_decide; exact E). clear E. subst base.
  destruct (st_ttl_hours _) as [ws|], plan as [pl|], requested as [r|]; simpl in *; try done;
    injection Hb as <-; repeat (case_decide; try done).
  all: first [ apply (effective_ttl_least config (Some r) (Some ws) (Some pl) operator ceiling_u32)
             | apply (effective_ttl_least config None (Some ws) (Some pl) operator ceiling_u32)
             | apply (effective_ttl_least config (Some r) None (Some pl) operator ceiling_u32)
             | apply (effective_ttl_least config (Some r) None None operator ceiling_u32) ].
Qed.
End ttl.

(** The age limit of a policy is the least of everything that bounds it: the caller's
    request, the plan, the operator's block, the ceiling of the table and, while the plan
    grants cache control, the workspace's own setting. *)
Theorem ttl_is_the_least `{Blake3Fn} (config : ResponseCacheConfig) (self : CacheControl)
    (e : option ResolvedEntitlements) (operator : option Z) (supported : bool) (who : CacheCaller) (p : CachePolicy) (t : Z) :
  ttl_ceiling_hours config ≤ u32_max →
  resolve config self e operator supported who = Ok p → cp_ttl_hours p = Some t →
  least t (ttl_ceiling_hours config :: option_list operator ++ option_list (plan_of e) ++
           (if decide (plan_of e = None) then [] else option_list (st_ttl_hours (workspace_settings (re_cache <$> e)))) ++
           option_list (requested_of self)).
Proof.
  intros Hc. unfold resolve. case_decide as Hb; [by intros [= <-]|]. case_decide as Hd.
  - subst self. destruct (negb _ || negb _); intros [= <-] Ht; [done|]. by apply workspace_policy_ttl in Ht.
  - destruct (plan_of e) as [pl|]; [|done]. destruct (negb supported); [done|]. destruct (negb _); [done|]. intros [= <-].
    fold (requested_of self) in *. set (wp := workspace_policy _ _ _ _ _ _ _).
    destruct (cp_ttl_hours wp) as [t'|] eqn:Et; intros Ht.
    + by apply workspace_policy_ttl in Ht.
    + injection Ht as <-. subst wp. unfold workspace_policy in Et. simpl in Et.
      destruct (st_ttl_hours _) as [ws|]; [by case_decide|].
      rewrite decide_False by done. apply (effective_ttl_least config (requested_of self) None (Some pl) operator Hc).
Qed.

(** ** Documents and refusals *)

Section documents.
Context `{JsonNumber}.

Lemma NamespaceBy_parse_as_str n : NamespaceBy_parse (NamespaceBy_as_str n) = Some n.
Proof. by destruct n. Qed.

Lemma parse_strict_says v k : parse_strict v = Ok k → kn_off k = true ∨ is_Some (kn_namespace_by k).
Proof.
  unfold parse_strict. destruct v as [| | | | |o]; try done. intros (out & _ & Hk)%rbind_Ok.
  destruct (kn_off out) eqn:E; simpl in Hk; [injection Hk as <-; by left|].
  case_bool_decide as Hn; [done|]. injection Hk as <-. right. by apply not_eq_None_Some.
Qed.
End documents.

(** A key's document says what it prints: what the strict parse accepts is read back
    from its own text, it always narrows (it switches the cache off or names a namespace),
    and a stored document that does not parse switches the cache off. *)
Theorem key_documents_narrow `{JsonNumber} (v : Value) :
  match parse_strict v with
  | Ok k => from_stored v = k ∧ parse_strict (KeyNarrowing_to_json k) = Ok k ∧ (kn_off k = true ∨ is_Some (kn_namespace_by k))
  | Err _ => kn_off (from_stored v) = true
  end.
Proof.
  unfold from_stored. destruct (parse_strict v) as [k|] eqn:E; [|done]. split; [done|].
  pose proof (parse_strict_says v k E) as Hk. split; [|done].
  destruct k as [[] [n|]]; simpl in *; [| | |destruct Hk as [|[]]; done];
    unfold parse_strict, KeyNarrowing_to_json; simpl; unfold key_field; simpl; by rewrite ?NamespaceBy_parse_as_str.
Qed.

(** Admission and the cache agree on a route that cannot cache: the refusal that
    admission owes the header is the one that the cache would give, and a header that
    admission lets pass is one that the cache resolves without a refusal. *)
Theorem header_refusals_agree `{Blake3Fn} (config : ResponseCacheConfig) (h : headers)
    (e : option ResolvedEntitlements) (operator : option Z) (who : CacheCaller) :
  cache_header_refusal true h e =
  match CacheControl_parse h with
  | Ok c => match resolve config c e operator false who with Ok _ => None | Err r => Some r end
  | Err _ => None
  end.
Proof.
  unfold cache_header_refusal. simpl. destruct (CacheControl_parse h) as [[| | |n]|r]; simpl; try done.
  - unfold resolve. rewrite decide_False by done. rewrite decide_True by done. by rewrite orb_true_r.
  - unfold resolve. rewrite !decide_False by done. by destruct (plan_of e).
  - unfold resolve. rewrite !decide_False by done. by destruct (plan_of e).
Qed.

(** ** A workspace, for the examples *)

(** A digest of 32 bytes, for the examples. *)
Definition demo_blake3 : Blake3Fn := {| blake3 := @sha256 fips_sha256; blake3_length := @sha256_length fips_sha256 |}.

(** A plan of 48 hours; the workspace opted in, keeps answers for 12 hours, private to a
    key, and was invalidated once. *)
Definition demo_entitlements (epochs : list (bytes * Z)) : ResolvedEntitlements :=
  {| re_f_cache_control := true; re_cache_ttl_hours := 48;
     re_cache := {| ld_settings := {| st_mode := On; st_ttl_hours := Some 12; st_namespace_by := ByProject; st_semantic := true |};
                    ld_epochs := list_to_map epochs;
                    ld_keys := {[ lit "k1" := {| kn_off := false; kn_namespace_by := Some ByKey |} ]} |} |}.

Definition demo_caller : CacheCaller :=
  {| cc_model := lit "gpt-4o"; cc_key_id := Some (lit "k1"); cc_project_id := Some (lit "p1"); cc_end_user := None;
     cc_captured := false; cc_namespace_header := Some (lit "team-a") |}.

Definition policy_or_default (r : result CachePolicy CacheRefusal) : CachePolicy := match r with Ok p => p | Err _ => default_policy end.

Lemma ttl_is_the_least_witness :
  least 12 [FALLBACK.(ttl_ceiling_hours); 24; 48; 12; 100].
Proof.
  apply (@ttl_is_the_least demo_blake3 FALLBACK (Ttl 100) (Some (demo_entitlements [])) (Some 24) true demo_caller
    (policy_or_default (@resolve demo_blake3 FALLBACK (Ttl 100) (Some (demo_entitlements [])) (Some 24) true demo_caller)) 12).
  - vm_compute. discriminate.
  - vm_compute. reflexivity.
  - vm_compute. reflexivity.
Defined.
