(* ===== verification/CacheKeyProofs.v ===== *)
(** * The response cache: what the digests of a request determine

    A key starts with the digest of the parameters, or of the parameters and the
    messages, and is hashed again for the age limit, for the namespace with its epochs,
    and for the canary context with the routing namespace.  The lemmas here undo the
    chain: two requests with one digest went through the same layers.  They assume that
    the digest has no collision on the list of inputs that the two chains hashed. *)

From Stdlib Require Import ZArith Lia.
From stdpp Require Import base list option gmap.
From S2P Require Import Prelude BTree Encoding Hash Json PreAuth ResponseCache ResponseCacheProofs.
Local Open Scope Z_scope.

(** ** Chains of digests *)

Section chains.
Context `{Blake3Fn}.

(** The inputs that are hashed on the way through the layers [L]. *)
Fixpoint chain_inputs (d : bytes) (L : list (list bytes)) : list bytes :=
  match L with
  | [] => []
  | l :: L => fields_text (d :: l) :: chain_inputs (rehash d l) L
  end.

Lemma rehash_fields d l : rehash d l = to_hex (fields_text (d :: l)).
Proof. done. Qed.

Lemma chain_inputs_app d L K : chain_inputs d (L ++ K) = chain_inputs d L ++ chain_inputs (foldl rehash d L) K.
Proof. revert d. induction L as [|l L IH]; intros d; simpl; [done|]. by rewrite IH. Qed.

(** An input that is not one of a layer: it does not start with the length of a digest. *)
Definition plain (base : bytes) : Prop := firstn 2 base ≠ [x40; x00].

Lemma plain_not_layer base d l : plain base → length d = 64%nat → base ≠ fields_text (d :: l).
Proof. intros Hb Hd ->. apply Hb. rewrite fields_text_cons. unfold hash_field, lenZ. by rewrite Hd. Qed.

Lemma chain_length base L : length (foldl rehash (to_hex base) L) = 64%nat.
Proof. induction L as [|l L _] using rev_ind; [apply length_to_hex|]. rewrite foldl_app. apply length_to_hex. Qed.

Lemma digest_fits d : length d = 64%nat → fits d.
Proof. intros Hd. unfold fits, lenZ, u64_max. rewrite Hd. lia. Qed.

Lemma chain_inj S base base' L L' :
  blake3_free S → base ∈ S → base' ∈ S → chain_inputs (to_hex base) L ⊆ S → chain_inputs (to_hex base') L' ⊆ S →
  Forall (Forall fits) L → Forall (Forall fits) L' → plain base → plain base' →
  foldl rehash (to_hex base) L = foldl rehash (to_hex base') L' → base = base' ∧ L = L'.
Proof.
  intros HS Hb Hb'. revert L'. induction L as [|l L IH] using rev_ind; intros L' HL HL' Hf Hf' Hp Hp' E;
    (destruct L' as [|l' L' _] using rev_ind; [|rewrite chain_inputs_app in HL'; simpl in HL'; rewrite foldl_app in E; simpl in E]).
  - split; [|done]. by apply (to_hex_inj S).
  - rewrite rehash_fields in E. apply (to_hex_inj S) in E; [|done|done|apply HL', elem_of_app; right; by left].
    by apply plain_not_layer in E; [|done|apply chain_length].
  - rewrite foldl_app in E. simpl in E. rewrite rehash_fields in E. rewrite chain_inputs_app in HL. simpl in HL.
    apply (to_hex_inj S) in E; [|done|apply HL, elem_of_app; right; by left|done]. symmetry in E.
    by apply plain_not_layer in E; [|done|apply chain_length].
  - rewrite foldl_app in E. simpl in E. rewrite chain_inputs_app in HL. simpl in HL. rewrite !rehash_fields in E.
    apply (to_hex_inj S) in E; [|done|apply HL, elem_of_app; right; by left|apply HL', elem_of_app; right; by left].
    apply Forall_app in Hf as [Hf Hl]. apply Forall_app in Hf' as [Hf' Hl']. rewrite Forall_singleton in Hl, Hl'.
    apply fields_text_inj in E; [|(constructor; [apply digest_fits, chain_length|done])..].
    injection E as E ->. apply IH in E as [-> ->]; [done| |  |done..]; intros x Hx; [apply HL|apply HL']; apply elem_of_app; by left.
Qed.

(** ** The layers of a key *)

Definition policy_layers (p : CachePolicy) : list (list bytes) :=
  option_list ((λ t, [le_bytes 4 t]) <$> cp_ttl_hours p) ++ option_list ((λ f, [fd_digest f]) <$> cp_fold p).

Definition bind_layers (context : CanaryCacheContext) (route_namespace : option bytes) : list (list bytes) :=
  if negb (bool_decide (cx_namespace context = [])) || is_some route_namespace
  then [cx_namespace context :: option_list route_namespace] else [].

Definition layers (p : CachePolicy) (context : CanaryCacheContext) (route_namespace : option bytes) : list (list bytes) :=
  policy_layers p ++ bind_layers context route_namespace.

Lemma key_hashes `{JsonNumber} `{WireTypes} p context rns (q : ChatRequest) :
  let k := bind_key context (policy_key p (request_key q)) rns in
  rk_exact_hash k = foldl rehash (to_hex (exact_input (params_hash_of q) (q_messages q))) (layers p context rns) ∧
  rk_params_hash k = foldl rehash (params_hash_of q) (layers p context rns).
Proof.
  unfold bind_key, policy_key, layers, policy_layers, bind_layers. cbv zeta.
  destruct (cp_ttl_hours p), (cp_fold p), (negb _ || _); done.
Qed.

(** A canary namespace is empty, the word for an unread state, or a digest. *)
Definition canary_namespace_wf (context : CanaryCacheContext) : Prop :=
  length (cx_namespace context) ∈ [0; 11; 64]%nat.

Lemma canary_context_wf snapshot tenant : canary_namespace_wf (canary_cache_context snapshot tenant).
Proof.
  unfold canary_namespace_wf, canary_cache_context. destruct snapshot as [rs|]; simpl; [|by right; left].
  destruct (canary_rows rs tenant); simpl; [by left|]. rewrite length_to_hex. by right; right; left.
Qed.

Definition fold_wf (p : CachePolicy) : Prop := ∀ f, cp_fold p = Some f → length (fd_digest f) = 32%nat.

(** The layers tell the age limit, the fold, the canary namespace and the route apart. *)
Lemma layers_inj p p' cx cx' rns rns' :
  fold_wf p → fold_wf p' → canary_namespace_wf cx → canary_namespace_wf cx' →
  layers p cx rns = layers p' cx' rns' →
  le_bytes 4 <$> cp_ttl_hours p = le_bytes 4 <$> cp_ttl_hours p' ∧
  fd_digest <$> cp_fold p = fd_digest <$> cp_fold p' ∧ cx_namespace cx = cx_namespace cx' ∧ rns = rns'.
Proof.
  unfold fold_wf, canary_namespace_wf. intros Hf Hf' Hc Hc' E.
  assert (∀ n, n ∈ [0; 11; 64]%nat → n ≠ 4%nat ∧ n ≠ 32%nat) as Hn.
  { intros n Hin. repeat setoid_rewrite elem_of_cons in Hin. rewrite elem_of_nil in Hin. lia. }
  apply Hn in Hc, Hc'. clear Hn. unfold layers, policy_layers, bind_layers in E.
  revert E. generalize (length_le_bytes 4). generalize (le_bytes 4). intros w Hw E.
  destruct (cp_fold p) as [f|], (cp_fold p') as [f'|];
    [specialize (Hf f eq_refl); specialize (Hf' f' eq_refl)|specialize (Hf f eq_refl)|specialize (Hf' f' eq_refl)|];
    destruct (cp_ttl_hours p) as [t|], (cp_ttl_hours p') as [t'|];
    destruct rns as [r|], rns' as [r'|];
    destruct (cx_namespace cx) as [|b s], (cx_namespace cx') as [|b' s']; simpl in *; try done;
    first [ done | (injection E; clear E); intros; repeat split; congruence
          | exfalso; (injection E; clear E); intros; simplify_eq/=;
            repeat match goal with H : _ = _ :> list byte |- _ => apply (f_equal length) in H; simpl in H; rewrite ?Hw in H end; lia ].
Qed.
End chains.

(** ** The fold *)

Section folds.
Context `{Blake3Fn}.

Definition epoch_fields (es : list (bytes * Z)) : list bytes :=
  concat ((λ '(s, e), [lit "epoch"; s; le_bytes 8 e]) <$> es).

Definition fold_fields (ns : option Namespace) (header : option bytes) (es : list (bytes * Z)) : list bytes :=
  scope_tag ::
  from_option (λ n, [lit "ns"; NamespaceBy_as_str (ns_kind n); ns_value n]) [] ns ++
  from_option (λ h, [lit "hdr"; h]) [] header ++ epoch_fields es.

Lemma fold_input_fields ns header es : fold_input ns header es = fields_text (fold_fields ns header es).
Proof.
  unfold fold_input, fold_fields. rewrite fields_text_cons, !fields_text_app. f_equal. f_equal; [|f_equal].
  - destruct ns; simpl; [|done]. by rewrite !fields_text_cons, app_nil_r.
  - destruct header; simpl; [|done]. by rewrite !fields_text_cons, app_nil_r.
  - unfold epoch_fields. induction es as [|[s e] es IH]; [done|]. cbn [fmap list_fmap concat]. rewrite IH, fields_text_app.
    by rewrite !fields_text_cons, app_nil_r.
Qed.

Lemma NamespaceBy_as_str_inj a b : NamespaceBy_as_str a = NamespaceBy_as_str b → a = b.
Proof. intros E%(f_equal NamespaceBy_parse). rewrite !NamespaceBy_parse_as_str in E. by injection E. Qed.

Lemma cons_inv {A} (x y : A) l k : x :: l = y :: k → x = y ∧ l = k.
Proof. by injection 1. Qed.

Lemma epoch_fields_inj es es' :
  Forall (λ se, is_i64 se.2) es → Forall (λ se, is_i64 se.2) es' → epoch_fields es = epoch_fields es' → es = es'.
Proof.
  intros Hs. revert es'. induction Hs as [|[s e] es He _ IH]; intros es' Hs'; destruct Hs' as [|[s' e'] es' He' Hs']; [done..|].
  intros E. change (lit "epoch" :: s :: le_bytes 8 e :: epoch_fields es = lit "epoch" :: s' :: le_bytes 8 e' :: epoch_fields es') in E.
  apply cons_inv in E as [_ [-> [Ee E]%cons_inv]%cons_inv]. f_equal; [|by apply IH]. f_equal. by apply le_bytes_i64_inj.
Qed.

Lemma fold_fields_inj ns ns' h h' es es' :
  Forall (λ se, is_i64 se.2) es → Forall (λ se, is_i64 se.2) es' →
  fold_fields ns h es = fold_fields ns' h' es' → ns = ns' ∧ h = h' ∧ es = es'.
Proof.
  intros Hs Hs' E. unfold fold_fields in E. apply (f_equal tail) in E. cbn [tail] in E.
  assert (∀ x l, epoch_fields es = x :: l → x = lit "epoch") as He.
  { destruct es as [|[s e] ?]; [done|]. intros x l [= <- _]. done. }
  assert (∀ x l, epoch_fields es' = x :: l → x = lit "epoch") as He'.
  { destruct es' as [|[s e] ?]; [done|]. intros x l [= <- _]. done. }
  destruct ns as [[k v]|], ns' as [[k' v']|], h as [hd|], h' as [hd'|]; simpl in E;
    first [ symmetry in E; by apply He' in E | by apply He in E | idtac ];
    try (injection E; clear E; intros); try done.
  all: repeat match goal with
       | H : NamespaceBy_as_str _ = NamespaceBy_as_str _ |- _ => apply NamespaceBy_as_str_inj in H
       | H : lit "hdr" :: _ = epoch_fields _ |- _ => symmetry in H; by apply He' in H
       | H : epoch_fields _ = lit "hdr" :: _ |- _ => by apply He in H
       | H : epoch_fields _ = epoch_fields _ |- _ => apply epoch_fields_inj in H; [|done..]
       end; by subst.
Qed.

Lemma fold_length ns h es f : fold ns h es = Some f → length (fd_digest f) = 32%nat.
Proof. unfold fold. destruct (_ && _); [done|]. intros [= <-]. apply blake3_length. Qed.

(** The fold determines the namespace, the header and the epochs. *)
Lemma fold_inj S ns h es ns' h' es' :
  blake3_free S → fold_input (ns_value_of ns) h es ∈ S → fold_input (ns_value_of ns') h' es' ∈ S →
  Forall fits (fold_fields (ns_value_of ns) h es) → Forall fits (fold_fields (ns_value_of ns') h' es') →
  Forall (λ se, is_i64 se.2) es → Forall (λ se, is_i64 se.2) es' →
  fd_digest <$> fold ns h es = fd_digest <$> fold ns' h' es' →
  ns_value_of ns = ns_value_of ns' ∧ h = h' ∧ es = es'.
Proof.
  intros HS Hi Hi' Hf Hf' Hs Hs'. unfold fold.
  destruct (negb (is_some (ns_value_of ns)) && _ && _) eqn:E, (negb (is_some (ns_value_of ns')) && _ && _) eqn:E'; intros Ed; try done.
  - apply andb_true_iff in E as [[En Eh]%andb_true_iff Ee%bool_decide_eq_true_1].
    apply andb_true_iff in E' as [[En' Eh']%andb_true_iff Ee'%bool_decide_eq_true_1]. subst.
    by destruct (ns_value_of ns), (ns_value_of ns'), h, h'.
  - injection Ed as Ed. apply HS in Ed; [|done..]. rewrite !fold_input_fields in Ed.
    apply fields_text_inj in Ed; [|done..]. by apply fold_fields_inj in Ed.
Qed.
End folds.

(** ** Messages, and the digests of a request *)

Section requests.
Context `{Blake3Fn} `{JsonNumber} `{WireTypes}.

(** What the exact key reads of a message. *)
Definition msg_fields (m : Message) : list bytes :=
  [role_debug (m_role m); match m_content m with Text _ => lit "text" | Parts _ => lit "parts" end;
   match m_content m with Text t => t | Parts ps => parts_text ps end; tool_call_id_text m; tool_calls_field m].

Lemma message_input_fields m : message_input m = msg_marker ++ fields_text (msg_fields m).
Proof.
  unfold message_input, content_fields. destruct (m_content m) eqn:E; unfold msg_fields; rewrite E;
    by rewrite !fields_text_cons, app_nil_r, <- !app_assoc.
Qed.

Definition message_fits (m : Message) : Prop := Forall fits (msg_fields m).

Lemma messages_inj ms ms' :
  Forall message_fits ms → Forall message_fits ms' →
  concat (message_input <$> ms) = concat (message_input <$> ms') → msg_fields <$> ms = msg_fields <$> ms'.
Proof.
  intros Hm. revert ms'. induction Hm as [|m ms Hm _ IH]; intros ms' Hm'; destruct Hm' as [|m' ms' Hm' Hms']; [done..|].
  cbn [fmap list_fmap concat]. rewrite !message_input_fields, <- !app_assoc. intros [_ E]%app_inj_1; [|done].
  unfold msg_fields at 1 2 in E. rewrite !fields_text_cons, <- !app_assoc in E.
  unfold message_fits, msg_fields in Hm, Hm'. rewrite !Forall_cons in Hm, Hm'.
  destruct Hm as (? & ? & ? & ? & ? & _), Hm' as (? & ? & ? & ? & ? & _).
  apply field_app_inj in E as [E1 E]; [|done..]. apply field_app_inj in E as [E2 E]; [|done..].
  apply field_app_inj in E as [E3 E]; [|done..]. apply field_app_inj in E as [E4 E]; [|done..].
  apply field_app_inj in E as [E5 E]; [|done..]. f_equal; [|by apply IH]. unfold msg_fields. by rewrite E1, E2, E3, E4, E5.
Qed.

Lemma exact_input_inj ph ph' ms ms' :
  length ph = 64%nat → length ph' = 64%nat → Forall message_fits ms → Forall message_fits ms' →
  exact_input ph ms = exact_input ph' ms' → ph = ph' ∧ msg_fields <$> ms = msg_fields <$> ms'.
Proof.
  intros Hl Hl' Hm Hm' [_ E]%app_inj_1; [|done]. apply app_inj_1 in E as [-> E]; [|congruence].
  split; [done|]. by apply messages_inj.
Qed.

Lemma exact_input_plain ph ms : plain (exact_input ph ms).
Proof. done. Qed.

(** The inputs hashed for the exact digest, and for the digest of the parameters. *)
Definition exact_inputs (p : CachePolicy) (cx : CanaryCacheContext) (rns : option bytes) (q : ChatRequest) : list bytes :=
  let base := exact_input (params_hash_of q) (q_messages q) in
  params_input q :: base :: chain_inputs (to_hex base) (layers p cx rns).

Definition params_inputs (p : CachePolicy) (cx : CanaryCacheContext) (rns : option bytes) (q : ChatRequest) : list bytes :=
  params_input q :: chain_inputs (params_hash_of q) (layers p cx rns).

Definition layers_fit (p : CachePolicy) (cx : CanaryCacheContext) (rns : option bytes) : Prop :=
  Forall (Forall fits) (layers p cx rns).

Lemma same_exact_hash S p cx rns q p' cx' rns' q' :
  blake3_free S → exact_inputs p cx rns q ⊆ S → exact_inputs p' cx' rns' q' ⊆ S →
  layers_fit p cx rns → layers_fit p' cx' rns' → Forall message_fits (q_messages q) → Forall message_fits (q_messages q') →
  rk_exact_hash (bind_key cx (policy_key p (request_key q)) rns) =
    rk_exact_hash (bind_key cx' (policy_key p' (request_key q')) rns') →
  layers p cx rns = layers p' cx' rns' ∧ params_input q = params_input q' ∧
  msg_fields <$> q_messages q = msg_fields <$> q_messages q'.
Proof.
  intros HS Hi Hi' Hf Hf' Hm Hm'. rewrite (proj1 (key_hashes p cx rns q)), (proj1 (key_hashes p' cx' rns' q')).
  unfold exact_inputs in Hi, Hi'. intros E. apply (chain_inj S) in E as [Eb EL]; try done; try apply exact_input_plain.
  - apply exact_input_inj in Eb as [Ep Em]; [|apply length_to_hex..|done|done]. split; [done|]. split; [|done].
    apply (to_hex_inj S) in Ep; [done..| |]; [apply Hi|apply Hi']; by left.
  - apply Hi. right. by left.
  - apply Hi'. right. by left.
  - intros x Hx. apply Hi. by right; right.
  - intros x Hx. apply Hi'. by right; right.
Qed.

Lemma same_params_hash S p cx rns q p' cx' rns' q' :
  blake3_free S → params_inputs p cx rns q ⊆ S → params_inputs p' cx' rns' q' ⊆ S →
  layers_fit p cx rns → layers_fit p' cx' rns' → plain (params_input q) → plain (params_input q') →
  rk_params_hash (bind_key cx (policy_key p (request_key q)) rns) =
    rk_params_hash (bind_key cx' (policy_key p' (request_key q')) rns') →
  layers p cx rns = layers p' cx' rns' ∧ params_input q = params_input q'.
Proof.
  intros HS Hi Hi' Hf Hf' Hq Hq'. rewrite (proj2 (key_hashes p cx rns q)), (proj2 (key_hashes p' cx' rns' q')).
  unfold params_inputs, params_hash_of in *. intros E. apply (chain_inj S) in E as [Eb EL]; try done.
  - apply Hi. by left.
  - apply Hi'. by left.
  - intros x Hx. apply Hi. by right.
  - intros x Hx. apply Hi'. by right.
Qed.
End requests.
