(* ===== verification/CacheServing.v ===== *)
(** * The response cache: lookups, stores and the chat route

    The two tiers of [SemanticCache] ([crates/gateway/src/semantic_cache.rs]), the
    zero-retention capabilities ([crates/gateway/src/zdr.rs]), and the part of the chat
    route that decides a request's policy, its key and the models its text may be
    embedded with ([crates/gateway/src/server/chat.rs], [server/buffered.rs]).

    The exact tier is a map from a tenant and a hash to an answer; its library may drop
    an entry at any time, which is a step of its own in [CacheServingProofs].  The rows of
    the table [semantic_cache] are a list.  What happens outside the program is a value of
    [Moment]: the clock (read once more before a row is written), the canary contexts at
    each of the reads, what each embedding model answers, whether the statements succeed,
    and ClickHouse's [cosineDistance]. *)

From Stdlib Require Import ZArith Lia.
From stdpp Require Import base list option gmap sorting.
From S2P Require Import Prelude Encoding Float64 Hash Json PreAuth Glob KeyPolicy Controls ResponseCache.
Local Open Scope Z_scope.

(** ** [f32] *)

Definition f32 : Type := spec_float.
Definition f32_of (n : Z) : f32 := binary_normalize 24 128 n 0 false.
Definition signed (s : bool) (m : positive) : Z := if s then Z.neg m else Z.pos m.

(** [f64::from(x)], and [x as f32] of an [f64]. *)
Definition f64_of_f32 (x : f32) : f64 :=
  match x with S754_finite s m e => binary_normalize 53 1024 (signed s m) e s | _ => x end.
Definition f32_of_f64 (x : f64) : f32 :=
  match x with S754_finite s m e => binary_normalize 24 128 (signed s m) e s | _ => x end.

(** [a.total_cmp(&b) == Greater] on numbers: a negative zero is below a positive one. *)
Definition total_gt (a b : f64) : bool :=
  match SFcompare a b with
  | Some Gt => true
  | Some Eq => match a, b with S754_zero false, S754_zero true => true | _, _ => false end
  | _ => false
  end.

(** ** The operator's block ([config.rs]) *)

Record SemanticCacheConfig := {
  sc_embedding_models : list bytes;
  sc_default_threshold_milli : Z;
  sc_ttl_hours : Z;
  sc_max_scan_entries : nat;
}.

Definition default_threshold (c : SemanticCacheConfig) : f32 :=
  SFdiv 24 128 (f32_of (sc_default_threshold_milli c)) (f32_of 1000).

(** [f64::from(1.0 - threshold)]. *)
Definition max_distance (c : SemanticCacheConfig) : f64 :=
  f64_of_f32 (SFsub 24 128 (f32_of 1) (default_threshold c)).

(** ** The tiers *)

Record CacheHit := {
  ch_created_at_ms : Z;
  ch_response_json : bytes;
  ch_tier : bytes;
  ch_similarity : option f32;
  ch_source_trace_id : bytes;
  ch_cost_saved_usd : f64;
  ch_prompt_tokens : Z;
  ch_completion_tokens : Z;
  ch_lookup_us : Z;
}.

Record CacheRow := {
  cw_tenant_id : bytes;
  cw_model : bytes;
  cw_params_hash : bytes;
  cw_exact_hash : bytes;
  cw_embedding : list Z;
  cw_embedding_model : bytes;
  cw_embedding_dims : Z;
  cw_response_json : bytes;
  cw_prompt_tokens : Z;
  cw_completion_tokens : Z;
  cw_cost_usd : f64;
  cw_source_trace_id : bytes;
  cw_created_at : Z;
}.

Record SemanticCache := {
  sm_exact : gmap (bytes * bytes) CacheHit;
  sm_no_embedder : gset bytes;
  sm_rows : list CacheRow;
}.

Definition empty_cache : SemanticCache := {| sm_exact := ∅; sm_no_embedder := ∅; sm_rows := [] |}.

(** What one embedding model answers for a tenant: no provider id, no adapter with this
    endpoint, a failing key service, no usable credential, a vector, an empty answer, a
    refused credential, any other failure. *)
Inductive EmbedAttempt :=
  | Unroutable | NativeOnly | KmsFailed | NoCredential
  | Vector (v : list Z) | EmptyAnswer | CredentialRejected | Faulted.

Record Moment := {
  mo_now_ms : Z;
  mo_insert_ms : Z;
  mo_contexts : nat → CanaryCacheContext;
  mo_attempt : bytes → EmbedAttempt;
  mo_scan_ok : bool;
  mo_insert_ok : bool;
  mo_distance : list Z → list Z → f64;
  mo_elapsed_us : Z;
}.

(** The loop of [embed]; the result is the vector, or whether the walk ended without an
    error of its own ([true]: no usable credential anywhere). *)
Fixpoint embed_walk (attempt : bytes → EmbedAttempt) (models : list bytes) (last_err : bool) : result (list Z) bool :=
  match models with
  | [] => Err (negb last_err)
  | m :: ms =>
      match attempt m with
      | Vector v => Ok v
      | KmsFailed => Err false
      | EmptyAnswer | Faulted => embed_walk attempt ms true
      | Unroutable | NativeOnly | NoCredential | CredentialRejected => embed_walk attempt ms last_err
      end
  end.

Section serving.
Context `{JsonNumber} `{WireTypes} (config : ResponseCacheConfig) (cfg : SemanticCacheConfig).

(** [embed]: a walk over the whole configured list that found no credential is
    remembered. *)
Definition embed (c : SemanticCache) (w : Moment) (tenant : bytes) (k : RequestKey) : option (list Z) * SemanticCache :=
  let models := semantic_models k (sc_embedding_models cfg) in
  let full_walk := (length models =? length (sc_embedding_models cfg))%nat in
  match embed_walk (mo_attempt w) models false with
  | Ok v => (Some v, c)
  | Err no_credential =>
      (None, if no_credential && full_walk
             then {| sm_exact := sm_exact c; sm_no_embedder := {[tenant]} ∪ sm_no_embedder c; sm_rows := sm_rows c |}
             else c)
  end.

Definition dims_of (v : list Z) : Z := Z.min 65535 (lenZ v).

(** The statement of the semantic tier. *)
Definition created_desc (a b : CacheRow) : Prop := cw_created_at b ≤ cw_created_at a.
#[local] Instance created_desc_dec a b : Decision (created_desc a b).
Proof. unfold created_desc. apply _. Defined.

Definition candidate_row (tenant model params_hash : bytes) (dims cutoff : Z) (r : CacheRow) : Prop :=
  cw_tenant_id r = tenant ∧ cw_model r = model ∧ cw_params_hash r = params_hash ∧
  cw_embedding_dims r = dims ∧ cutoff ≤ cw_created_at r.
#[local] Instance candidate_row_dec t m p d c r : Decision (candidate_row t m p d c r).
Proof. unfold candidate_row. apply _. Defined.

Definition scan (c : SemanticCache) (tenant model params_hash : bytes) (dims cutoff : Z) : list CacheRow :=
  firstn (sc_max_scan_entries cfg)
    (merge_sort created_desc (filter (candidate_row tenant model params_hash dims cutoff) (sm_rows c))).

(** [filter(distance <= max).min_by(total_cmp)]: the first of the least. *)
Definition closer (best : option (f64 * CacheRow)) (c : f64 * CacheRow) : option (f64 * CacheRow) :=
  match best with
  | Some b => if total_gt b.1 c.1 then Some c else Some b
  | None => Some c
  end.

Definition best_of (w : Moment) (v : list Z) (rows : list CacheRow) : option (f64 * CacheRow) :=
  foldl closer None
    (filter (λ c, f64_le c.1 (max_distance cfg) = true) ((λ r, (mo_distance w (cw_embedding r) v, r)) <$> rows)).

(** The age limit of a key, in milliseconds before now. *)
Definition cutoff_ms (w : Moment) (k : RequestKey) : Z :=
  mo_now_ms w - Z.min (default (sc_ttl_hours cfg) (rk_ttl_hours k)) (ttl_ceiling_hours config) * 3600000.

Definition served (h : CacheHit) (us : Z) : CacheHit :=
  {| ch_created_at_ms := ch_created_at_ms h; ch_response_json := ch_response_json h; ch_tier := ch_tier h;
     ch_similarity := ch_similarity h; ch_source_trace_id := ch_source_trace_id h;
     ch_cost_saved_usd := ch_cost_saved_usd h; ch_prompt_tokens := ch_prompt_tokens h;
     ch_completion_tokens := ch_completion_tokens h; ch_lookup_us := us |}.

(** The hit of the semantic tier. *)
Definition semantic_hit (w : Moment) (cutoff : Z) (b : f64 * CacheRow) : CacheHit :=
  {| ch_created_at_ms := cutoff; ch_response_json := cw_response_json b.2; ch_tier := lit "semantic";
     ch_similarity := Some (f32_of_f64 (f64_sub (f64_of 1) b.1)); ch_source_trace_id := cw_source_trace_id b.2;
     ch_cost_saved_usd := cw_cost_usd b.2; ch_prompt_tokens := cw_prompt_tokens b.2;
     ch_completion_tokens := cw_completion_tokens b.2; ch_lookup_us := mo_elapsed_us w |}.

(** The exact tier of a lookup. *)
Definition exact_lookup (c : SemanticCache) (w : Moment) (tenant : bytes) (k : RequestKey) : option CacheHit :=
  h ← sm_exact c !! (tenant, rk_exact_hash k);
  if (cutoff_ms w k <=? ch_created_at_ms h) && reusable (mo_contexts w 1) k then Some (served h (mo_elapsed_us w)) else None.

(** The semantic tier of a lookup. *)
Definition semantic_lookup (c : SemanticCache) (w : Moment) (tenant model : bytes) (k : RequestKey) : option CacheHit * SemanticCache :=
  if bool_decide (tenant ∈ sm_no_embedder c) then (None, c)
  else if bool_decide (length (semantic_models k (sc_embedding_models cfg)) = 0%nat) then (None, c)
  else match embed c w tenant k with
  | (None, c) => (None, c)
  | (Some v, c) =>
      if negb (mo_scan_ok w) then (None, c)
      else match best_of w v (scan c tenant model (rk_params_hash k) (dims_of v) (cutoff_ms w k)) with
      | Some b => (if reusable (mo_contexts w 2) k then Some (semantic_hit w (cutoff_ms w k) b) else None, c)
      | None => (None, c)
      end
  end.

Definition lookup_answer (c : SemanticCache) (w : Moment) (tenant model : bytes) (k : RequestKey) : option CacheHit * SemanticCache :=
  if negb (reusable (mo_contexts w 0) k) then (None, c)
  else match exact_lookup c w tenant k with
  | Some h => (Some h, c)
  | None => semantic_lookup c w tenant model k
  end.

(** ** Stores *)

Record Answer := {
  an_response_json : bytes;
  an_prompt_tokens : Z;
  an_completion_tokens : Z;
  an_cost_usd : f64;
  an_trace_id : bytes;
}.

Definition MAX_RESPONSE_BYTES : Z := 256 * 1024.

Definition exact_hit (w : Moment) (a : Answer) : CacheHit :=
  {| ch_created_at_ms := mo_now_ms w; ch_response_json := an_response_json a; ch_tier := lit "exact";
     ch_similarity := None; ch_source_trace_id := an_trace_id a; ch_cost_saved_usd := an_cost_usd a;
     ch_prompt_tokens := an_prompt_tokens a; ch_completion_tokens := an_completion_tokens a; ch_lookup_us := 0 |}.

Definition row_of (w : Moment) (tenant model : bytes) (k : RequestKey) (a : Answer) (v : list Z) : CacheRow :=
  {| cw_tenant_id := tenant; cw_model := model; cw_params_hash := rk_params_hash k; cw_exact_hash := rk_exact_hash k;
     cw_embedding := v; cw_embedding_model := default [] (head (sc_embedding_models cfg)); cw_embedding_dims := dims_of v;
     cw_response_json := an_response_json a; cw_prompt_tokens := an_prompt_tokens a;
     cw_completion_tokens := an_completion_tokens a; cw_cost_usd := an_cost_usd a;
     cw_source_trace_id := an_trace_id a; cw_created_at := mo_insert_ms w |}.

(** The durable half of a store; [FixedHex64] takes a digest of 64 characters. *)
Definition store_row (c : SemanticCache) (w : Moment) (tenant model : bytes) (k : RequestKey) (a : Answer) : SemanticCache :=
  if bool_decide (tenant ∈ sm_no_embedder c) then c
  else if bool_decide (length (semantic_models k (sc_embedding_models cfg)) = 0%nat) then c
  else match embed c w tenant k with
  | (None, c) => c
  | (Some v, c) =>
      if negb (length (rk_params_hash k) =? 64)%nat || negb (length (rk_exact_hash k) =? 64)%nat then c
      else if mo_insert_ok w
      then {| sm_exact := sm_exact c; sm_no_embedder := sm_no_embedder c;
              sm_rows := row_of w tenant model k a v :: sm_rows c |}
      else c
  end.

Definition store (c : SemanticCache) (w : Moment) (tenant model : bytes) (k : RequestKey) (a : Answer) : SemanticCache :=
  if negb (reusable (mo_contexts w 0) k) || (MAX_RESPONSE_BYTES <? lenZ (an_response_json a)) then c
  else store_row {| sm_exact := <[(tenant, rk_exact_hash k) := exact_hit w a]> (sm_exact c);
                    sm_no_embedder := sm_no_embedder c; sm_rows := sm_rows c |} w tenant model k a.
End serving.

Definition is_cacheable_finish_reason (finish_reason : bytes) : bool := bool_decide (finish_reason = lit "stop").

(** ** Zero data retention ([zdr.rs]) *)

Inductive Zdr := ZdrNone | ZdrDefault | ZdrEnterprise.

#[global] Instance Zdr_eq_dec : EqDecision Zdr.
Proof. solve_decision. Defined.

Definition Zdr_parse (s : bytes) : option Zdr :=
  if decide (s = lit "none") then Some ZdrNone
  else if decide (s = lit "default") then Some ZdrDefault
  else if decide (s = lit "enterprise") then Some ZdrEnterprise
  else None.

Record ZdrCapabilities := { zc_by_provider : gmap bytes Zdr; zc_loaded : bool }.

Definition zdr_unavailable : ZdrCapabilities := {| zc_by_provider := ∅; zc_loaded := false |}.

(** [collect] keeps the last row of a provider. *)
Definition zdr_from_rows (rows : list (bytes * bytes)) : ZdrCapabilities :=
  {| zc_by_provider := foldl (λ m '(pid, z), from_option (λ z, <[pid := z]> m) m (Zdr_parse z)) ∅ rows; zc_loaded := true |}.

Definition eligible (c : ZdrCapabilities) (provider : bytes) : bool :=
  zc_loaded c && bool_decide (zc_by_provider c !! provider = Some ZdrDefault).

(** A refresh: a failed load keeps the map. *)
Definition zdr_refresh (c : ZdrCapabilities) (rows : option (list (bytes * bytes))) : ZdrCapabilities :=
  from_option zdr_from_rows c rows.

(** [constraint_from_headers]: whether the request requires it. *)
Definition constraint_from_headers (h : headers) : result bool bytes :=
  match head (get_all h (lit "x-tracelane-zdr")) with
  | None => Ok false
  | Some v =>
      match to_str v with
      | None => Err (lit "<non-ascii>")
      | Some s =>
          let s := to_ascii_lowercase (trim s) in
          if decide (s = lit "required") then Ok true else Err s
      end
  end.

(** ** The chat route *)

Section chat.
Context `{Blake3Fn} `{JsonNumber} `{WireTypes} (config : ResponseCacheConfig) (cfg : option SemanticCacheConfig).
Variable provider_id_of : bytes → option bytes.

(** The governance of the caller's key, and the controls of the workspace. *)
Definition policy_allows (governance : option Governance) (controls : option WorkspaceControls) (model provider : bytes) : bool :=
  from_option (λ g, allows_dispatch g model provider) true governance &&
  from_option (λ c, controls_allow_dispatch c model provider) true controls.

Definition semantic_tier_models (configured : list bytes) (redacted : bool) (governance : option Governance)
    (controls : option WorkspaceControls) (zdr : option ZdrCapabilities) : list bytes :=
  if redacted then []
  else filter (λ m, from_option (λ pid, policy_allows governance controls m pid &&
                                        from_option (λ caps, eligible caps pid) true zdr) false (provider_id_of m) = true) configured.

(** What the chat route knows of a request when it decides about the cache. *)
Record ChatFacts := {
  cf_control : CacheControl;
  cf_entitlements : option ResolvedEntitlements;
  cf_streaming : bool;
  cf_caller : CacheCaller;
  cf_rail_controls : bool;
  cf_context : CanaryCacheContext;
  cf_zdr_required : bool;
  cf_zdr_caps : ZdrCapabilities;
  cf_route_namespace : option bytes;
  cf_redacted : bool;
  cf_governance : option Governance;
  cf_controls : option WorkspaceControls;
}.

(** The policy of the request, with the three reasons to suspend it, in their order. *)
Definition chat_policy (f : ChatFacts) : result CachePolicy CacheRefusal :=
  rbind (resolve config (cf_control f) (cf_entitlements f) (sc_ttl_hours <$> cfg) (negb (cf_streaming f)) (cf_caller f)) (λ p,
  let p := if cf_rail_controls f then suspend p else p in
  if cx_suspended (cf_context f) && match cf_control f with Use | Ttl _ => true | _ => false end
  then Err {| cr_status := 409; cr_code := lit "response_cache_suspended_for_canary" |}
  else
    let p := if cx_suspended (cf_context f) then suspend p else p in
    Ok (if cf_zdr_required f then suspend p else p)).

(** The key of the request, derived before the request is redacted. *)
Definition chat_key (f : ChatFacts) (p : CachePolicy) (q : ChatRequest) : option RequestKey :=
  _ ← cfg; Some (bind_key (cf_context f) (policy_key p (request_key q)) (cf_route_namespace f)).

(** The text may be embedded with the models that the redaction, the settings and the
    policies leave. *)
Definition restrict_key (f : ChatFacts) (p : CachePolicy) (k : RequestKey) : option RequestKey :=
  c ← cfg;
  Some (restrict_semantic_tier k
          (semantic_tier_models (sc_embedding_models c) (cf_redacted f || negb (cp_semantic p)) (cf_governance f)
             (cf_controls f) (if cf_zdr_required f then Some (cf_zdr_caps f) else None))).

(** The lookup of the route: a streaming request is never served from the cache. *)
Definition chat_lookup (c : SemanticCache) (w : Moment) (tenant model : bytes) (f : ChatFacts) (p : CachePolicy) (q : ChatRequest) :
    option CacheHit * SemanticCache :=
  match cfg, chat_key f p q ≫= restrict_key f p, cf_streaming f with
  | Some sc, Some k, false => lookup_answer config sc c w tenant model k
  | _, _, _ => (None, c)
  end.

(** The store of the buffered path: an answer that ended by itself, without an error and
    without a guardrail that fired. *)
Definition buffered_store (c : SemanticCache) (w : Moment) (tenant model : bytes) (f : ChatFacts) (p : CachePolicy) (q : ChatRequest)
    (error guardrail_fired : bool) (finish_reason : bytes) (a : Answer) : SemanticCache :=
  match cfg, chat_key f p q ≫= restrict_key f p, cf_streaming f with
  | Some sc, Some k, false =>
      if negb error && negb guardrail_fired && is_cacheable_finish_reason finish_reason
      then store sc c w tenant model k a else c
  | _, _, _ => c
  end.
End chat.
