(* ===== verification/CacheServingProofs.v ===== *)
(** * The response cache: what is served, to whom, and for how long

    A run interleaves the lookups and stores of any requests of any tenants with the
    evictions of the exact tier, the expiry of rows and of the negative cache.  Every
    answer that a lookup serves was stored by an earlier request of the same tenant, with
    everyone's consent, recently enough and in the same scope; an invalidation of a scope
    that covers a request hides everything stored before it; what is stored is served
    again; and a text is embedded only with models that the policies allow. *)

From Stdlib Require Import ZArith Lia.
From stdpp Require Import base list option gmap sorting.
From S2P Require Import Prelude Encoding Float64 Hash Json PreAuth Glob KeyPolicy Controls ResponseCache.
From S2P Require Import ResponseCacheProofs CacheKeyProofs CacheServing.
Local Open Scope Z_scope.

(** ** What the operations leave alone *)

Section frames.
Context `{JsonNumber} `{WireTypes} (config : ResponseCacheConfig) (sc : SemanticCacheConfig).

Lemma embed_frame c w t k v c' : embed sc c w t k = (v, c') → sm_exact c' = sm_exact c ∧ sm_rows c' = sm_rows c.
Proof. unfold embed. destruct (embed_walk _ _ _); [by intros [= <- <-]|]. destruct (_ && _); by intros [= <- <-]. Qed.

Lemma semantic_lookup_frame c w t m k o c' :
  semantic_lookup config sc c w t m k = (o, c') → sm_exact c' = sm_exact c ∧ sm_rows c' = sm_rows c.
Proof.
  unfold semantic_lookup. do 2 (case_bool_decide; [by intros [= <- <-]|]).
  destruct (embed sc c w t k) as [[v|] c1] eqn:E; apply embed_frame in E; [|by intros [= <- <-]].
  destruct (negb _); [by intros [= <- <-]|]. destruct (best_of _ _ _ _); by intros [= <- <-].
Qed.

Lemma lookup_frame c w t m k o c' :
  lookup_answer config sc c w t m k = (o, c') → sm_exact c' = sm_exact c ∧ sm_rows c' = sm_rows c.
Proof.
  unfold lookup_answer. destruct (negb _); [by intros [= <- <-]|].
  destruct (exact_lookup _ _ _ _ _ _); [by intros [= <- <-]|apply semantic_lookup_frame].
Qed.

Lemma store_row_frame c w t m k a :
  let c' := store_row sc c w t m k a in
  sm_exact c' = sm_exact c ∧ (sm_rows c' = sm_rows c ∨ ∃ v, sm_rows c' = row_of sc w t m k a v :: sm_rows c).
Proof.
  unfold store_row. do 2 (case_bool_decide; [by eauto|]).
  destruct (embed sc c w t k) as [[v|] c1] eqn:E; apply embed_frame in E as [E1 E2]; simpl; [|by rewrite E1, E2; eauto].
  destruct (_ || _); [by rewrite E1, E2; eauto|]. destruct (mo_insert_ok w); simpl; rewrite E1, E2; eauto.
Qed.

(** ** What the semantic tier picks *)

Lemma best_in l b : foldl closer None l = Some b → b ∈ l.
Proof.
  assert (∀ acc, foldl closer acc l = Some b → acc = Some b ∨ b ∈ l) as Hl.
  { induction l as [|c l IH]; intros acc; simpl; [by left|]. intros [E|Hb]%IH; [|right; by right].
    destruct acc as [b'|]; simpl in E; [|injection E as ->; right; by left].
    destruct (total_gt _ _); injection E as ->; [right; by left|by left]. }
  intros [[=]|Hb]%Hl. done.
Qed.

Lemma scan_in c t m ph dims cutoff r :
  r ∈ scan sc c t m ph dims cutoff → candidate_row t m ph dims cutoff r ∧ r ∈ sm_rows c.
Proof.
  unfold scan. intros (i & Hi)%list_elem_of_lookup. apply lookup_take_Some in Hi as [Hi _].
  apply list_elem_of_lookup_2 in Hi. rewrite merge_sort_Permutation in Hi. by apply list_elem_of_filter in Hi.
Qed.

Lemma best_of_inv w v rows d r :
  best_of sc w v rows = Some (d, r) → r ∈ rows ∧ d = mo_distance w (cw_embedding r) v ∧ f64_le d (max_distance sc) = true.
Proof.
  intros Hb%best_in. apply list_elem_of_filter in Hb as [Hd (r' & [= -> ->] & Hr)%list_elem_of_fmap]. done.
Qed.

Lemma semantic_lookup_inv c w t m k h c' :
  semantic_lookup config sc c w t m k = (Some h, c') →
  semantic_models k (sc_embedding_models sc) ≠ [] ∧
  ∃ v r, candidate_row t m (rk_params_hash k) (dims_of v) (cutoff_ms config sc w k) r ∧ r ∈ sm_rows c ∧
    f64_le (mo_distance w (cw_embedding r) v) (max_distance sc) = true ∧
    h = semantic_hit w (cutoff_ms config sc w k) (mo_distance w (cw_embedding r) v, r).
Proof.
  unfold semantic_lookup. do 2 (case_bool_decide; [done|]).
  destruct (embed sc c w t k) as [[v|] c1] eqn:E; [|done]. destruct (negb _); [done|].
  destruct (best_of _ _ _ _) as [[d r]|] eqn:Eb; [|done]. destruct (reusable _ _); [|done]. intros [= <- <-].
  apply best_of_inv in Eb as ((Hc & Hr)%scan_in & -> & Hd). split; [by destruct (semantic_models _ _)|].
  exists v, r. split; [done|]. split; [|done]. apply embed_frame in E as [_ E]. by rewrite E in Hr.
Qed.

Lemma exact_lookup_inv c w t k h :
  exact_lookup config sc c w t k = Some h →
  ∃ h0, sm_exact c !! (t, rk_exact_hash k) = Some h0 ∧ cutoff_ms config sc w k ≤ ch_created_at_ms h0 ∧ h = served h0 (mo_elapsed_us w).
Proof.
  unfold exact_lookup. intros (h0 & Hh & E)%bind_Some. exists h0. destruct (Z.leb_spec (cutoff_ms config sc w k) (ch_created_at_ms h0)); [|done].
  simpl in E. destruct (reusable _ _); [|done]. by injection E as <-.
Qed.
End frames.

(** ** Runs *)

Section runs.
Context `{Blake3Fn} `{JsonNumber} `{WireTypes} (config : ResponseCacheConfig) (sc : SemanticCacheConfig).
Variable provider_id_of : bytes → option bytes.

Abbreviation policy_of := (chat_policy config (Some sc)).
Abbreviation lookup_of := (chat_lookup config (Some sc) provider_id_of).
Abbreviation store_of := (buffered_store (Some sc) provider_id_of).

(** The key of a request under its policy. *)
Definition key_of (f : ChatFacts) (p : CachePolicy) (q : ChatRequest) : RequestKey :=
  restrict_semantic_tier (bind_key (cf_context f) (policy_key p (request_key q)) (cf_route_namespace f))
    (semantic_tier_models provider_id_of (sc_embedding_models sc) (cf_redacted f || negb (cp_semantic p)) (cf_governance f)
       (cf_controls f) (if cf_zdr_required f then Some (cf_zdr_caps f) else None)).

Lemma chat_key_eq f p q : chat_key (Some sc) f p q ≫= restrict_key (Some sc) provider_id_of f p = Some (key_of f p q).
Proof. done. Qed.

(** A request whose answer was offered to the cache. *)
Record Stored := {
  sd_tenant : bytes;
  sd_model : bytes;
  sd_facts : ChatFacts;
  sd_policy : CachePolicy;
  sd_request : ChatRequest;
  sd_error : bool;
  sd_guardrail_fired : bool;
  sd_finish_reason : bytes;
  sd_answer : Answer;
  sd_moment : Moment;
}.

Definition sd_key (s : Stored) : RequestKey := key_of (sd_facts s) (sd_policy s) (sd_request s).

Definition store_stored (c : SemanticCache) (s : Stored) : SemanticCache :=
  store_of c (sd_moment s) (sd_tenant s) (sd_model s) (sd_facts s) (sd_policy s) (sd_request s)
    (sd_error s) (sd_guardrail_fired s) (sd_finish_reason s) (sd_answer s).

Inductive step : SemanticCache * list Stored → SemanticCache * list Stored → Prop :=
  | step_lookup c hist w t m f p q :
      policy_of f = Ok p → step (c, hist) ((lookup_of c w t m f p q).2, hist)
  | step_store c hist s :
      policy_of (sd_facts s) = Ok (sd_policy s) → step (c, hist) (store_stored c s, s :: hist)
  | step_evict c hist k :
      step (c, hist) ({| sm_exact := delete k (sm_exact c); sm_no_embedder := sm_no_embedder c; sm_rows := sm_rows c |}, hist)
  | step_forget c hist t :
      step (c, hist) ({| sm_exact := sm_exact c; sm_no_embedder := sm_no_embedder c ∖ {[t]}; sm_rows := sm_rows c |}, hist)
  | step_expire c hist rows :
      rows ⊆ sm_rows c →
      step (c, hist) ({| sm_exact := sm_exact c; sm_no_embedder := sm_no_embedder c; sm_rows := rows |}, hist).

Definition reachable (c : SemanticCache) (hist : list Stored) : Prop := rtc step (empty_cache, []) (c, hist).

(** An answer that may be kept: it ended by itself, without an error and without a
    guardrail, it was not streamed, and its policy uses the cache. *)
Definition kept (s : Stored) : Prop :=
  sd_error s = false ∧ sd_guardrail_fired s = false ∧ sd_finish_reason s = lit "stop" ∧ cf_streaming (sd_facts s) = false ∧
  policy_of (sd_facts s) = Ok (sd_policy s) ∧ reusable (mo_contexts (sd_moment s) 0) (sd_key s) = true ∧
  lenZ (an_response_json (sd_answer s)) ≤ MAX_RESPONSE_BYTES.

Definition exact_from (hist : list Stored) (th : bytes * bytes) (h : CacheHit) : Prop :=
  ∃ s, s ∈ hist ∧ kept s ∧ th = (sd_tenant s, rk_exact_hash (sd_key s)) ∧ h = exact_hit (sd_moment s) (sd_answer s).

Definition row_from (hist : list Stored) (r : CacheRow) : Prop :=
  ∃ s v, s ∈ hist ∧ kept s ∧ r = row_of sc (sd_moment s) (sd_tenant s) (sd_model s) (sd_key s) (sd_answer s) v.

Definition inv (c : SemanticCache) (hist : list Stored) : Prop :=
  map_Forall (exact_from hist) (sm_exact c) ∧ Forall (row_from hist) (sm_rows c).

Lemma exact_from_more hist s th h : exact_from hist th h → exact_from (s :: hist) th h.
Proof. intros (s' & Hs & ?). exists s'. split; [by right|done]. Qed.

Lemma row_from_more hist s r : row_from hist r → row_from (s :: hist) r.
Proof. intros (s' & v & Hs & ?). exists s', v. split; [by right|done]. Qed.

Lemma inv_more c hist s : inv c hist → inv c (s :: hist).
Proof.
  intros [He Hr]. split; [|by eapply Forall_impl; [exact Hr|]; intros; apply row_from_more].
  intros th h Hh. by apply exact_from_more, He.
Qed.

Lemma store_inv c hist s : policy_of (sd_facts s) = Ok (sd_policy s) → inv c hist → inv (store_stored c s) (s :: hist).
Proof.
  intros Hp Hi%(inv_more _ _ s). unfold store_stored, buffered_store. rewrite chat_key_eq. fold (sd_key s).
  destruct (cf_streaming (sd_facts s)) eqn:Hst; [done|]. unfold is_cacheable_finish_reason.
  destruct (sd_error s) eqn:He; [done|]. destruct (sd_guardrail_fired s) eqn:Hg; [done|]. case_bool_decide as Hf; [|done].
  unfold store. cbn [negb andb]. destruct (reusable _ _) eqn:Hr; [|done]. cbn [negb orb].
  destruct (Z.ltb_spec MAX_RESPONSE_BYTES (lenZ (an_response_json (sd_answer s)))); [done|].
  assert (kept s) as Hk by (by repeat split).
  destruct (store_row_frame sc {| sm_exact := <[(sd_tenant s, rk_exact_hash (sd_key s)) := exact_hit (sd_moment s) (sd_answer s)]> (sm_exact c);
    sm_no_embedder := sm_no_embedder c; sm_rows := sm_rows c |} (sd_moment s) (sd_tenant s) (sd_model s) (sd_key s) (sd_answer s)) as [Ee Er].
  destruct Hi as [Hie Hir]. split.
  - rewrite Ee. simpl. intros th h [[<- <-]|[_ Hh]]%lookup_insert_Some; [exists s; split; [by left|done]|by apply Hie].
  - destruct Er as [->|[v ->]]; simpl; [done|]. constructor; [|done]. exists s, v. split; [by left|done].
Qed.

Lemma reachable_inv c hist : reachable c hist → inv c hist.
Proof.
  unfold reachable. change (inv c hist) with (inv (c, hist).1 (c, hist).2). generalize (c, hist). clear c hist.
  apply rtc_ind_r; [split; [apply map_Forall_empty|done]|]. intros x y _ Hs IH.
  destruct Hs as [c hist w t m f p q Hp|c hist s Hp|c hist k|c hist t|c hist rows Hsub]; cbn [fst snd] in *.
  - unfold chat_lookup. rewrite chat_key_eq. destruct (cf_streaming f); [done|].
    destruct (lookup_answer _ _ _ _ _ _ _) as [o c'] eqn:El. apply lookup_frame in El as [Ee Er]. simpl. split; [rewrite Ee|rewrite Er]; apply IH.
  - by apply store_inv.
  - destruct IH as [He Hr]. split; [by apply map_Forall_delete|done].
  - done.
  - destruct IH as [He Hr]. split; [done|]. simpl. apply Forall_forall. intros r Hin. rewrite Forall_forall in Hr. auto.
Qed.

(** ** The policy of the chat route *)

Lemma chat_policy_inv f p :
  policy_of f = Ok p → cp_bypass p = false → cf_streaming f = false →
  cf_control f ≠ Bypass ∧ cf_rail_controls f = false ∧ cf_zdr_required f = false ∧ cx_suspended (cf_context f) = false ∧
  consents config (cf_entitlements f) (Some (sc_ttl_hours sc)) (cf_caller f) ∧
  namespace_of (cf_entitlements f) (cf_caller f) ≠ Unavailable ∧
  cp_fold p = fold (namespace_of (cf_entitlements f) (cf_caller f)) (cc_namespace_header (cf_caller f))
                (epochs_of (cf_entitlements f) (cf_caller f)).
Proof.
  unfold chat_policy. intros (p0 & Hr & Hp)%rbind_Ok Hb Hst. rewrite Hst in Hr.
  destruct (cx_suspended (cf_context f)) eqn:Hc; simpl in Hp.
  { destruct (cf_control f); simpl in Hp; try done; destruct (cf_zdr_required f), (cf_rail_controls f); injection Hp as <-; done. }
  destruct (cf_zdr_required f) eqn:Hz; [injection Hp as <-; done|].
  destruct (cf_rail_controls f) eqn:Hg; injection Hp as <-; [done|].
  apply resolve_inv in Hr as (? & ? & ? & ?); [|done]. done.
Qed.

Lemma key_bypass f p q : rk_bypass (key_of f p q) = cp_bypass p || cx_suspended (cf_context f).
Proof. unfold key_of, bind_key, policy_key. simpl. destruct (cp_ttl_hours p), (cp_fold p), (negb _ || _); done. Qed.

Lemma reusable_uses cx f p q : reusable cx (key_of f p q) = true → cp_bypass p = false.
Proof. unfold reusable. rewrite key_bypass. by destruct (cp_bypass p). Qed.

(** The consent of a request that touches the cache. *)
Definition may_use_cache (f : ChatFacts) : Prop :=
  cf_control f ≠ Bypass ∧ cf_streaming f = false ∧ cf_rail_controls f = false ∧ cf_zdr_required f = false ∧
  cx_suspended (cf_context f) = false ∧ consents config (cf_entitlements f) (Some (sc_ttl_hours sc)) (cf_caller f) ∧
  namespace_of (cf_entitlements f) (cf_caller f) ≠ Unavailable.

Lemma policy_may_use f p : policy_of f = Ok p → cp_bypass p = false → cf_streaming f = false → may_use_cache f.
Proof. intros Hp Hb Hs. by pose proof (chat_policy_inv f p Hp Hb Hs) as (? & ? & ? & ? & ? & ? & _). Qed.

Lemma kept_may_use s : kept s → may_use_cache (sd_facts s).
Proof. intros (_ & _ & _ & Hs & Hp & Hr & _). eapply policy_may_use; [exact Hp| |done]. by apply reusable_uses in Hr. Qed.

Lemma lookup_unused c w t m f p q :
  cf_streaming f = true ∨ cp_bypass p = true → lookup_of c w t m f p q = (None, c).
Proof.
  intros Hu. unfold chat_lookup. rewrite chat_key_eq. destruct (cf_streaming f); [done|]. destruct Hu as [|Hb]; [done|].
  unfold lookup_answer. destruct (reusable _ _) eqn:Er; [|done]. apply reusable_uses in Er. congruence.
Qed.

Lemma store_unused c w t m f p q err fired fin a :
  cf_streaming f = true ∨ cp_bypass p = true → store_of c w t m f p q err fired fin a = c.
Proof.
  intros Hu. unfold buffered_store. rewrite chat_key_eq. destruct (cf_streaming f); [done|]. destruct Hu as [|Hb]; [done|].
  destruct (_ && _ && _); [|done]. unfold store. destruct (reusable _ _) eqn:Er; [|done]. apply reusable_uses in Er. congruence.
Qed.
(** ** The source of a hit *)

Definition same_answer (h : CacheHit) (a : Answer) : Prop :=
  ch_response_json h = an_response_json a ∧ ch_source_trace_id h = an_trace_id a ∧ ch_cost_saved_usd h = an_cost_usd a ∧
  ch_prompt_tokens h = an_prompt_tokens a ∧ ch_completion_tokens h = an_completion_tokens a.

(** The hit [h] of a lookup with key [k] is the answer of [s]. *)
Definition exact_source (w : Moment) (k : RequestKey) (h : CacheHit) (s : Stored) : Prop :=
  ch_tier h = lit "exact" ∧ rk_exact_hash (sd_key s) = rk_exact_hash k ∧ cutoff_ms config sc w k ≤ mo_now_ms (sd_moment s).

Definition semantic_source (w : Moment) (m : bytes) (k : RequestKey) (h : CacheHit) (s : Stored) : Prop :=
  ch_tier h = lit "semantic" ∧ sd_model s = m ∧ rk_params_hash (sd_key s) = rk_params_hash k ∧
  cutoff_ms config sc w k ≤ mo_insert_ms (sd_moment s) ∧ semantic_models k (sc_embedding_models sc) ≠ [] ∧
  ∃ v v', f64_le (mo_distance w v v') (max_distance sc) = true.

Lemma hit_source c hist w t m f p q h c' :
  reachable c hist → lookup_of c w t m f p q = (Some h, c') →
  cp_bypass p = false ∧ cf_streaming f = false ∧
  ∃ s, s ∈ hist ∧ kept s ∧ sd_tenant s = t ∧ same_answer h (sd_answer s) ∧
    (exact_source w (key_of f p q) h s ∨ semantic_source w m (key_of f p q) h s).
Proof.
  intros [He Hr]%reachable_inv. unfold chat_lookup. rewrite chat_key_eq. destruct (cf_streaming f); [done|].
  unfold lookup_answer. destruct (reusable _ _) eqn:Eu; [|done]. apply reusable_uses in Eu. cbn [negb].
  intros E. split; [done|]. split; [done|]. destruct (exact_lookup _ _ _ _ _ _) as [h'|] eqn:El.
  - injection E as <- <-. apply exact_lookup_inv in El as (h0 & (s & Hs & Hk & [= -> Hh] & ->)%He & Hcut & ->).
    exists s. repeat split; try done; apply Hk || (left; by repeat split).
  - apply semantic_lookup_inv in E as (Hm & v & r & (Ht & Hmo & Hph & Hd & Hcut) & Hin & Hdist & ->).
    rewrite Forall_forall in Hr. apply Hr in Hin as (s & v' & Hs & Hk & ->). simpl in *.
    exists s. split; [done|]. split; [done|]. split; [done|]. split; [done|]. right. repeat split; try done. eauto.
Qed.

(** ** The scope of a hit *)

(** Everything that is hashed for the key of a request. *)
Definition inputs_of (f : ChatFacts) (p : CachePolicy) (q : ChatRequest) : list bytes :=
  fold_input (ns_value_of (namespace_of (cf_entitlements f) (cf_caller f))) (cc_namespace_header (cf_caller f))
    (epochs_of (cf_entitlements f) (cf_caller f)) ::
  exact_inputs p (cf_context f) (cf_route_namespace f) q ++ params_inputs p (cf_context f) (cf_route_namespace f) q.

(** The machine bounds of a request: lengths are 64-bit, epochs are [i64], the age limit
    is [u32]; the canary namespace is one that the router makes, and the parameters do
    not start with the bytes 0x40 0x00, which no model name does. *)
Record request_wf (f : ChatFacts) (p : CachePolicy) (q : ChatRequest) : Prop := {
  rw_layers : layers_fit p (cf_context f) (cf_route_namespace f);
  rw_messages : Forall message_fits (q_messages q);
  rw_plain : plain (params_input q);
  rw_canary : canary_namespace_wf (cf_context f);
  rw_fields : Forall fits (fold_fields (ns_value_of (namespace_of (cf_entitlements f) (cf_caller f)))
                             (cc_namespace_header (cf_caller f)) (epochs_of (cf_entitlements f) (cf_caller f)));
  rw_epochs : Forall (λ se, is_i64 se.2) (epochs_of (cf_entitlements f) (cf_caller f));
  rw_ttl : ∀ t, cp_ttl_hours p = Some t → is_u32 t;
}.

(** The scope of a request: what its entries are private to, and what dates them. *)
Definition scope_of (f : ChatFacts) : NamespaceValue * option bytes * list (bytes * Z) * bytes * option bytes :=
  (namespace_of (cf_entitlements f) (cf_caller f), cc_namespace_header (cf_caller f),
   epochs_of (cf_entitlements f) (cf_caller f), cx_namespace (cf_context f), cf_route_namespace f).

Lemma ns_value_inj a b : a ≠ Unavailable → b ≠ Unavailable → ns_value_of a = ns_value_of b → a = b.
Proof. destruct a, b; simpl; congruence. Qed.

Lemma same_layers_same_scope S f p q f' p' q' :
  blake3_free S → inputs_of f p q ⊆ S → inputs_of f' p' q' ⊆ S → request_wf f p q → request_wf f' p' q' →
  policy_of f = Ok p → cp_bypass p = false → cf_streaming f = false →
  policy_of f' = Ok p' → cp_bypass p' = false → cf_streaming f' = false →
  layers p (cf_context f) (cf_route_namespace f) = layers p' (cf_context f') (cf_route_namespace f') →
  scope_of f = scope_of f' ∧ cp_ttl_hours p = cp_ttl_hours p'.
Proof.
  intros HS Hi Hi' Hw Hw' Hp Hb Hs Hp' Hb' Hs' E.
  apply chat_policy_inv in Hp as (_ & _ & _ & _ & _ & Hn & Hf); [|done..].
  apply chat_policy_inv in Hp' as (_ & _ & _ & _ & _ & Hn' & Hf'); [|done..].
  apply layers_inj in E as (Et & Ef & Ec & Er);
    [|intros x Hx; rewrite ?Hf, ?Hf' in Hx; by apply fold_length in Hx..|apply Hw|apply Hw'].
  rewrite Hf, Hf' in Ef. apply (fold_inj S) in Ef as (Ens & Eh & Ee);
    [|done|apply Hi; by left|apply Hi'; by left|apply Hw|apply Hw'|apply Hw|apply Hw'].
  apply ns_value_inj in Ens; [|done..]. split; [unfold scope_of; by rewrite Ens, Eh, Ee, Ec, Er|].
  pose proof (rw_ttl _ _ _ Hw) as Ht. pose proof (rw_ttl _ _ _ Hw') as Ht'.
  destruct (cp_ttl_hours p) as [x|], (cp_ttl_hours p') as [y|]; try done. f_equal.
  specialize (Ht x eq_refl). specialize (Ht' y eq_refl). unfold is_u32, u32_max in *.
  apply (le_bytes_inj 4); [change (256 ^ Z.of_nat 4) with (2 ^ 32); lia..|]. exact (inj Some _ _ Et).
Qed.
End runs.

(** Without consent the response cache is neither read nor written: a request that
    bypasses it, is streamed, requires zero retention or has scoped guardrails, whose key,
    workspace or operator has it off, or whose workspace neither records its texts nor
    opted in under its plan, gets no answer from it and leaves nothing in it, whatever the
    cache holds. *)
Theorem no_consent_no_cache `{Blake3Fn} `{JsonNumber} `{WireTypes} (config : ResponseCacheConfig) (sc : SemanticCacheConfig)
    (provider_id_of : bytes → option bytes) (f : ChatFacts) (p : CachePolicy) :
  chat_policy config (Some sc) f = Ok p → ¬ may_use_cache config sc f →
  (∀ c w t m q, chat_lookup config (Some sc) provider_id_of c w t m f p q = (None, c)) ∧
  (∀ c w t m q err fired fin a, buffered_store (Some sc) provider_id_of c w t m f p q err fired fin a = c).
Proof.
  intros Hp Hn. assert (cf_streaming f = true ∨ cp_bypass p = true) as Hu.
  { destruct (cf_streaming f) eqn:Hs; [by left|]. right. destruct (cp_bypass p) eqn:Hb; [done|]. exfalso. apply Hn.
    by eapply policy_may_use. }
  split; intros; [by apply lookup_unused|by apply store_unused].
Qed.

Section scopes.
Context `{Blake3Fn} `{JsonNumber} `{WireTypes} (config : ResponseCacheConfig) (sc : SemanticCacheConfig).
Variable provider_id_of : bytes → option bytes.

Abbreviation policy_of := (chat_policy config (Some sc)).
Abbreviation lookup_of := (chat_lookup config (Some sc) provider_id_of).

(** The requests of a history, and a request that looks an answer up, within the machine
    bounds and without a collision among everything they hash. *)
Definition no_collision (hist : list Stored) (f : ChatFacts) (p : CachePolicy) (q : ChatRequest) : Prop :=
  request_wf f p q ∧ Forall (λ s, request_wf (sd_facts s) (sd_policy s) (sd_request s)) hist ∧
  blake3_free (inputs_of f p q ++ concat ((λ s, inputs_of (sd_facts s) (sd_policy s) (sd_request s)) <$> hist)).

Lemma hit_scope c hist w t m f p q h c' :
  reachable config sc provider_id_of c hist → no_collision hist f p q → policy_of f = Ok p → lookup_of c w t m f p q = (Some h, c') →
  ∃ s, s ∈ hist ∧ kept config sc provider_id_of s ∧ sd_tenant s = t ∧ same_answer h (sd_answer s) ∧
    (exact_source config sc provider_id_of w (key_of sc provider_id_of f p q) h s ∨
     semantic_source config sc provider_id_of w m (key_of sc provider_id_of f p q) h s) ∧
    scope_of (sd_facts s) = scope_of f ∧ cp_ttl_hours (sd_policy s) = cp_ttl_hours p ∧
    params_input (sd_request s) = params_input q ∧
    (ch_tier h = lit "exact" → msg_fields <$> q_messages (sd_request s) = msg_fields <$> q_messages q).
Proof.
  intros Hr (Hw & Hws & HS) Hp Hl. apply (hit_source _ _ _ _ _ _ _ _ _ _ _ _ _ Hr) in Hl as (Hb & Hs & s & Hin & Hk & Ht & Ha & Hsrc).
  pose proof Hws as Hws'. rewrite Forall_forall in Hws'. specialize (Hws' s Hin).
  set (S := _ ++ _) in HS.
  assert (inputs_of f p q ⊆ S) as Hi by (intros x Hx; apply elem_of_app; by left).
  assert (inputs_of (sd_facts s) (sd_policy s) (sd_request s) ⊆ S) as His.
  { intros x Hx. apply elem_of_app. right. apply list_elem_of_In, in_concat. eexists. split; [|by apply list_elem_of_In].
    apply list_elem_of_In, list_elem_of_fmap. by exists s. }
  destruct Hk as (Hke & Hkg & Hkf & Hks & Hkp & Hkr & Hkl). pose proof Hkr as Hkb. apply reusable_uses in Hkb.
  exists s. split; [done|]. split; [by repeat split|]. split; [done|]. split; [done|]. split; [done|].
  destruct Hsrc as [(Htier & Eh & _)|(Htier & _ & Eh & _)].
  - apply (same_exact_hash S) in Eh as (EL & Ep & Em);
      [|done|intros x Hx; apply His; right; apply elem_of_app; by left|intros x Hx; apply Hi; right; apply elem_of_app; by left|apply Hws'|apply Hw|apply Hws'|apply Hw].
    apply (same_layers_same_scope config sc S _ _ (sd_request s) _ _ q) in EL as [Esc Et]; try done.
  - apply (same_params_hash S) in Eh as (EL & Ep);
      [|done|intros x Hx; apply His; right; apply elem_of_app; by right|intros x Hx; apply Hi; right; apply elem_of_app; by right|apply Hws'|apply Hw|apply Hws'|apply Hw].
    apply (same_layers_same_scope config sc S _ _ (sd_request s) _ _ q) in EL as [Esc Et]; try done. repeat split; try done.
    intros Hx. rewrite Hx in Htier. done.
Qed.

(** ** Epochs *)

Definition epoch_rows (f : ChatFacts) : gmap bytes Z := from_option (λ e, ld_epochs (re_cache e)) ∅ (cf_entitlements f).

(** The rows of [cache_epochs] change by bumps. *)
Definition bumps : relation (gmap bytes Z) := rtc (λ r r', ∃ scope max, r' = (bump_epoch r scope max).1).

Definition epoch_at (r : gmap bytes Z) (scope : bytes) : Z := default 0 (r !! scope).

Lemma bump_grows r scope max x : epoch_at r x ≤ epoch_at (bump_epoch r scope max).1 x.
Proof.
  unfold epoch_at, bump_epoch. destruct (r !! scope) as [e|] eqn:E; simpl.
  - destruct (decide (x = scope)) as [->|Hx]; [rewrite lookup_insert_eq, E; simpl; lia|by rewrite lookup_insert_ne by done].
  - destruct (_ <=? _)%nat; simpl; [lia|].
    destruct (decide (x = scope)) as [->|Hx]; [rewrite lookup_insert_eq, E; simpl; lia|by rewrite lookup_insert_ne by done].
Qed.

Lemma bumps_grow r r' x : bumps r r' → epoch_at r x ≤ epoch_at r' x.
Proof. induction 1 as [|r r' r'' (scope & max & ->) _ IH]; [lia|]. pose proof (bump_grows r scope max x). lia. Qed.

Lemma bumped_exceeds r scope max r' e : bump_epoch r scope max = (r', Bumped e) → epoch_at r' scope = epoch_at r scope + 1.
Proof.
  unfold bump_epoch, epoch_at. destruct (r !! scope) as [x|] eqn:E; [intros [= <- _]; by rewrite lookup_insert_eq|].
  destruct (_ <=? _)%nat; [done|]. intros [= <- _]. by rewrite lookup_insert_eq.
Qed.

Lemma bump_singleton scope n max : bump_epoch {[scope := n]} scope max = ({[scope := n + 1]}, Bumped (n + 1)).
Proof. unfold bump_epoch. by rewrite lookup_singleton_eq, insert_singleton_eq. Qed.

Lemma bump_empty scope max : bump_epoch ∅ scope (S max) = ({[scope := 1]}, Bumped 1).
Proof. unfold bump_epoch. by rewrite lookup_empty, map_size_empty. Qed.

Lemma epochs_of_spec f scope e :
  (scope, e) ∈ epochs_of (cf_entitlements f) (cf_caller f) ↔
  e ≠ 0 ∧ e = epoch_at (epoch_rows f) scope ∧
  scope ∈ scopes_of (cc_project_id (cf_caller f)) (cc_key_id (cf_caller f)) (cc_model (cf_caller f)).
Proof.
  unfold epochs_of, epoch_rows. destruct (cf_entitlements f) as [en|]; simpl.
  - unfold applicable_epochs. rewrite list_elem_of_omap. unfold epoch, epoch_at. split.
    + intros (s & Hs & E). case_decide; [done|]. by injection E as <- <-.
    + intros (He & -> & Hs). exists scope. split; [done|]. by rewrite decide_False.
  - split; [intros []%not_elem_of_nil|]. intros (He & -> & _). done.
Qed.
End scopes.

(** C11. The response cache serves a request only an answer of its own tenant and of its own
    scope.  In every run, a hit is the answer of an earlier request of the same tenant that
    ended by itself, without an error or a guardrail, and that, like the request, had
    everyone's consent; it was stored within the age limit; the two requests have the same namespace, namespace
    header, epochs, canary context and routing namespace, the same age limit and the same
    hashed parameters, and for an exact hit the same messages. *)
Theorem hits_stay_in_scope `{Blake3Fn} `{JsonNumber} `{WireTypes} (config : ResponseCacheConfig) (sc : SemanticCacheConfig)
    (provider_id_of : bytes → option bytes) (c : SemanticCache) (hist : list Stored) (w : Moment) (t m : bytes)
    (f : ChatFacts) (p : CachePolicy) (q : ChatRequest) (h : CacheHit) (c' : SemanticCache) :
  reachable config sc provider_id_of c hist → no_collision hist f p q →
  chat_policy config (Some sc) f = Ok p → chat_lookup config (Some sc) provider_id_of c w t m f p q = (Some h, c') →
  may_use_cache config sc f ∧
  ∃ s, s ∈ hist ∧ kept config sc provider_id_of s ∧ may_use_cache config sc (sd_facts s) ∧ sd_tenant s = t ∧ same_answer h (sd_answer s) ∧
    (exact_source config sc provider_id_of w (key_of sc provider_id_of f p q) h s ∨
     semantic_source config sc provider_id_of w m (key_of sc provider_id_of f p q) h s) ∧
    scope_of (sd_facts s) = scope_of f ∧ cp_ttl_hours (sd_policy s) = cp_ttl_hours p ∧
    params_input (sd_request s) = params_input q ∧
    (ch_tier h = lit "exact" → msg_fields <$> q_messages (sd_request s) = msg_fields <$> q_messages q).
Proof.
  intros Hr Hn Hp Hl. split.
  - destruct (hit_source _ _ _ _ _ _ _ _ _ _ _ _ _ Hr Hl) as (Hb & Hs & _). by eapply policy_may_use.
  - destruct (hit_scope _ _ _ _ _ _ _ _ _ _ _ _ _ Hr Hn Hp Hl) as (s & ? & Hk & ?). exists s. split; [done|]. split; [done|].
    split; [by eapply kept_may_use|done].
Qed.

(** C12. An invalidation is complete.  Let a scope that covers a request be bumped, the
    epochs of the workspace changing only by bumps, and let the request's settings be read
    after the bump.  Then, on either tier and whatever else was stored meanwhile, an answer
    that is served to it was stored by a request of the tenant whose own settings had the
    scope's epoch past the bumped one, and so were not from before the bump; and where all
    that the tenant stored is from before the bump, nothing is served. *)
Theorem invalidation_is_complete `{Blake3Fn} `{JsonNumber} `{WireTypes} (config : ResponseCacheConfig) (sc : SemanticCacheConfig)
    (provider_id_of : bytes → option bytes) (c : SemanticCache) (hist : list Stored) (w : Moment) (t m : bytes)
    (f : ChatFacts) (p : CachePolicy) (q : ChatRequest) (scope : bytes) (max : nat) (rows rows' : gmap bytes Z) (e : Z) :
  reachable config sc provider_id_of c hist → no_collision hist f p q → chat_policy config (Some sc) f = Ok p →
  bump_epoch rows scope max = (rows', Bumped e) → bumps ∅ rows → bumps rows' (epoch_rows f) →
  scope ∈ scopes_of (cc_project_id (cf_caller f)) (cc_key_id (cf_caller f)) (cc_model (cf_caller f)) →
  (∀ h c', chat_lookup config (Some sc) provider_id_of c w t m f p q = (Some h, c') →
     ∃ s, s ∈ hist ∧ sd_tenant s = t ∧ same_answer h (sd_answer s) ∧
       (exact_source config sc provider_id_of w (key_of sc provider_id_of f p q) h s ∨
        semantic_source config sc provider_id_of w m (key_of sc provider_id_of f p q) h s) ∧
       epoch_at rows scope < epoch_at (epoch_rows (sd_facts s)) scope ∧ ¬ bumps (epoch_rows (sd_facts s)) rows) ∧
  ((∀ s, s ∈ hist → sd_tenant s = t → bumps (epoch_rows (sd_facts s)) rows) →
   (chat_lookup config (Some sc) provider_id_of c w t m f p q).1 = None).
Proof.
  intros Hr Hn Hp Hb Hz Hnew Hscope.
  assert (∀ h c', chat_lookup config (Some sc) provider_id_of c w t m f p q = (Some h, c') →
     ∃ s, s ∈ hist ∧ sd_tenant s = t ∧ same_answer h (sd_answer s) ∧
       (exact_source config sc provider_id_of w (key_of sc provider_id_of f p q) h s ∨
        semantic_source config sc provider_id_of w m (key_of sc provider_id_of f p q) h s) ∧
       epoch_at rows scope < epoch_at (epoch_rows (sd_facts s)) scope ∧ ¬ bumps (epoch_rows (sd_facts s)) rows) as Hhit.
  { intros h c' El. apply (hit_scope config sc provider_id_of c hist) in El as (s & Hin & _ & Ht & Ha & Hsrc & Esc & _); [|done..].
    apply (bumps_grow _ _ scope) in Hz, Hnew. apply bumped_exceeds in Hb. change (epoch_at ∅ scope) with 0 in Hz.
    assert ((scope, epoch_at (epoch_rows f) scope) ∈ epochs_of (cf_entitlements f) (cf_caller f)) as Hf.
    { apply epochs_of_spec. split; [lia|]. done. }
    injection Esc as _ _ Ee _ _. rewrite <- Ee in Hf. apply epochs_of_spec in Hf as (_ & Hf & _).
    exists s. split_and!; [done..|lia|]. intros Hold%(bumps_grow _ _ scope). lia. }
  split; [exact Hhit|]. intros Hold. destruct (chat_lookup _ _ _ _ _ _ _ _ _ _) as [[h|] c'] eqn:El; [|done]. exfalso.
  destruct (Hhit h c' eq_refl) as (s & Hin & Ht & _ & _ & _ & Hnb). by apply Hnb, Hold.
Qed.

(** ** What is stored is served *)

(** What is stored is served again: right after an answer was kept, any request of the
    tenant whose key has the same exact digest is answered with it from the exact tier,
    while its age limit allows and neither the context nor its policy suspends the cache,
    whether or not the tenant can embed anything. *)
Theorem stored_answers_are_served `{Blake3Fn} `{JsonNumber} `{WireTypes} (config : ResponseCacheConfig) (sc : SemanticCacheConfig)
    (provider_id_of : bytes → option bytes) (c : SemanticCache) (s : Stored) (w : Moment) (m : bytes)
    (f : ChatFacts) (p : CachePolicy) (q : ChatRequest) :
  let k := key_of sc provider_id_of f p q in
  kept config sc provider_id_of s →
  cf_streaming f = false → rk_exact_hash k = rk_exact_hash (sd_key sc provider_id_of s) →
  reusable (mo_contexts w 0) k = true → reusable (mo_contexts w 1) k = true →
  cutoff_ms config sc w k ≤ mo_now_ms (sd_moment s) →
  ∃ h c', chat_lookup config (Some sc) provider_id_of (store_stored sc provider_id_of c s) w (sd_tenant s) m f p q = (Some h, c') ∧
    same_answer h (sd_answer s) ∧ ch_tier h = lit "exact" ∧ ch_created_at_ms h = mo_now_ms (sd_moment s).
Proof.
  intros k (He & Hg & Hfin & Hs & _ & Hr & Hl) Hst Ek Hr0 Hr1 Hcut.
  unfold chat_lookup. rewrite chat_key_eq, Hst. fold k. unfold lookup_answer. rewrite Hr0. cbn [negb].
  assert (exact_lookup config sc (store_stored sc provider_id_of c s) w (sd_tenant s) k =
          Some (served (exact_hit (sd_moment s) (sd_answer s)) (mo_elapsed_us w))) as ->.
  { unfold exact_lookup, store_stored, buffered_store. rewrite chat_key_eq, Hs, He, Hg, Hfin. fold (sd_key sc provider_id_of s).
    unfold is_cacheable_finish_reason. rewrite bool_decide_true by done. cbn [negb andb]. unfold store. rewrite Hr.
    destruct (Z.ltb_spec MAX_RESPONSE_BYTES (lenZ (an_response_json (sd_answer s)))); [lia|]. cbn [negb orb].
    set (c1 := {| sm_exact := <[_ := _]> _; sm_no_embedder := _; sm_rows := _ |}).
    destruct (store_row_frame sc c1 (sd_moment s) (sd_tenant s) (sd_model s) (sd_key sc provider_id_of s) (sd_answer s)) as [-> _].
    subst c1. simpl sm_exact. rewrite Ek, lookup_insert_eq. simpl. rewrite Hr1.
    destruct (Z.leb_spec (cutoff_ms config sc w k) (mo_now_ms (sd_moment s))); [done|lia]. }
  eexists _, _. by repeat split.
Qed.

(** ** Where a text is embedded *)

Definition with_attempts (w : Moment) (attempt : bytes → EmbedAttempt) : Moment :=
  {| mo_now_ms := mo_now_ms w; mo_insert_ms := mo_insert_ms w; mo_contexts := mo_contexts w; mo_attempt := attempt;
     mo_scan_ok := mo_scan_ok w; mo_insert_ok := mo_insert_ok w; mo_distance := mo_distance w; mo_elapsed_us := mo_elapsed_us w |}.

Section embedding.
Context `{Blake3Fn} `{JsonNumber} `{WireTypes} (config : ResponseCacheConfig) (sc : SemanticCacheConfig).
Variable provider_id_of : bytes → option bytes.

(** A model that the text of a request may be sent to. *)
Definition may_embed (f : ChatFacts) (p : CachePolicy) (m : bytes) : Prop :=
  m ∈ sc_embedding_models sc ∧ cf_redacted f = false ∧ cp_semantic p = true ∧
  ∃ pid, provider_id_of m = Some pid ∧ policy_allows (cf_governance f) (cf_controls f) m pid = true ∧
    (cf_zdr_required f = true → eligible (cf_zdr_caps f) pid = true).

Lemma embed_walk_ext a a' ms e : Forall (λ m, a m = a' m) ms → embed_walk a ms e = embed_walk a' ms e.
Proof. intros Hm. revert e. induction Hm as [|m ms Hm _ IH]; intros e; simpl; [done|]. rewrite Hm. destruct (a' m); auto. Qed.

Lemma key_models f p q m : m ∈ semantic_models (key_of sc provider_id_of f p q) (sc_embedding_models sc) → may_embed f p m.
Proof.
  change (semantic_models _ _) with (semantic_tier_models provider_id_of (sc_embedding_models sc) (cf_redacted f || negb (cp_semantic p))
    (cf_governance f) (cf_controls f) (if cf_zdr_required f then Some (cf_zdr_caps f) else None)).
  unfold semantic_tier_models, may_embed. destruct (cf_redacted f), (cp_semantic p); simpl; try (by intros []%not_elem_of_nil).
  intros [Hm Hin]%list_elem_of_filter. split; [done|]. split; [done|]. split; [done|].
  destruct (provider_id_of m) as [pid|]; [|done]. simpl in Hm. apply andb_true_iff in Hm as [Ha Hz].
  exists pid. split; [done|]. split; [done|]. intros E. by rewrite E in Hz.
Qed.

Lemma embed_ext c w a t f p q :
  (∀ m, may_embed f p m → mo_attempt w m = a m) →
  embed sc c (with_attempts w a) t (key_of sc provider_id_of f p q) = embed sc c w t (key_of sc provider_id_of f p q).
Proof.
  intros Ha. unfold embed. cbn [with_attempts mo_attempt].
  rewrite (embed_walk_ext a (mo_attempt w)); [done|]. apply Forall_forall. intros m Hm%key_models. symmetry. by apply Ha.
Qed.
End embedding.

(** The text of a request is sent to no embedding model but those its policies allow:
    what any other model would answer changes neither a lookup nor a store.  A model may
    be asked only if the operator configured it, the request was not redacted, the
    workspace has the semantic tier on, the model is routable, the workspace's and the
    key's policies allow it and, for a request that requires zero retention, its provider
    is eligible. *)
Theorem texts_stay_with_allowed_models `{Blake3Fn} `{JsonNumber} `{WireTypes} (config : ResponseCacheConfig)
    (sc : SemanticCacheConfig) (provider_id_of : bytes → option bytes) (w : Moment) (attempt : bytes → EmbedAttempt)
    (f : ChatFacts) (p : CachePolicy) :
  (∀ m, may_embed sc provider_id_of f p m → mo_attempt w m = attempt m) →
  (∀ c t m q, chat_lookup config (Some sc) provider_id_of c (with_attempts w attempt) t m f p q =
              chat_lookup config (Some sc) provider_id_of c w t m f p q) ∧
  (∀ c t m q err fired fin a, buffered_store (Some sc) provider_id_of c (with_attempts w attempt) t m f p q err fired fin a =
                              buffered_store (Some sc) provider_id_of c w t m f p q err fired fin a).
Proof.
  intros Ha. split; intros.
  - unfold chat_lookup. rewrite chat_key_eq. destruct (cf_streaming f); [done|]. unfold lookup_answer, semantic_lookup.
    by rewrite embed_ext.
  - unfold buffered_store. rewrite chat_key_eq. destruct (cf_streaming f); [done|]. unfold store, store_row.
    by rewrite embed_ext.
Qed.

(** ** Requests that share a key *)

(** A request with a model and messages, and nothing else. *)
Definition bare `{JsonNumber} `{WireTypes} (model : bytes) (ms : list Message) (top_p : option Z) (system : option bytes) : ChatRequest :=
  {| q_model := model; q_messages := ms; q_tools := None; q_tool_choice := None; q_max_tokens := None; q_temperature := None;
     q_top_p := top_p; q_seed := None; q_logprobs := None; q_top_logprobs := None; q_system := system; q_stop := None;
     q_response_format := None; q_reasoning_effort := None; q_max_completion_tokens := None; q_presence_penalty := None;
     q_frequency_penalty := None; q_parallel_tool_calls := None; q_extra := [] |}.

(** A defect: the tag of a sampling parameter does not keep it apart from the system
    prompt.  A request with a value of [top_p] and no system prompt has the same key, on
    both tiers, as one without it whose system prompt spells the tag and the four bytes of
    the value, so that the answer to one is served for the other. *)
Theorem top_p_collides_with_system `{Blake3Fn} `{JsonNumber} `{WireTypes} (model : bytes) (ms : list Message) (top_p : Z) :
  request_key (bare model ms (Some top_p) None) = request_key (bare model ms None (Some (lit "top_p=" ++ le_bytes 4 top_p))).
Proof. reflexivity. Qed.

(** ** A run, for the examples *)

Definition demo_wire : WireTypes :=
  {| ContentPart := bytes; ToolCall := bytes; Tool := bytes; ToolChoice := bytes; parts_text := @concat byte;
     tool_calls_text := @concat byte; tool_text := id; tool_choice_text := id |}.

Section demo.
#[local] Existing Instance demo_blake3.
#[local] Existing Instance text_number.
#[local] Existing Instance demo_wire.

Definition demo_config : SemanticCacheConfig :=
  {| sc_embedding_models := [lit "embed-a"; lit "embed-b"]; sc_default_threshold_milli := 950; sc_ttl_hours := 24; sc_max_scan_entries := 10 |}.

Definition demo_facts (epochs : list (bytes * Z)) (zdr : bool) : ChatFacts :=
  {| cf_control := DefaultControl; cf_entitlements := Some (demo_entitlements epochs); cf_streaming := false;
     cf_caller := demo_caller; cf_rail_controls := false; cf_context := default_context; cf_zdr_required := zdr;
     cf_zdr_caps := zdr_unavailable; cf_route_namespace := Some (lit "exp"); cf_redacted := false; cf_governance := None;
     cf_controls := None |}.

Definition demo_policy (f : ChatFacts) : CachePolicy := policy_or_default (chat_policy FALLBACK (Some demo_config) f).

Definition demo_request : ChatRequest :=
  bare (lit "gpt-4o") [{| m_role := User; m_content := Text (lit "hello"); m_tool_call_id := None; m_tool_calls := None |}] None None.

Definition demo_moment (now : Z) : Moment :=
  {| mo_now_ms := now; mo_insert_ms := now; mo_contexts := λ _, default_context; mo_attempt := λ _, NoCredential;
     mo_scan_ok := true; mo_insert_ok := true; mo_distance := λ _ _, f64_of 0; mo_elapsed_us := 7 |}.

Definition demo_provider (m : bytes) : option bytes := Some (lit "openai").

Definition demo_stored : Stored :=
  {| sd_tenant := lit "t1"; sd_model := lit "gpt-4o"; sd_facts := demo_facts [(lit "workspace", 1)] false;
     sd_policy := demo_policy (demo_facts [(lit "workspace", 1)] false); sd_request := demo_request; sd_error := false;
     sd_guardrail_fired := false; sd_finish_reason := lit "stop";
     sd_answer := {| an_response_json := lit "{}"; an_prompt_tokens := 1; an_completion_tokens := 2; an_cost_usd := f64_of 1; an_trace_id := lit "tr" |};
     sd_moment := demo_moment 1000000 |}.

Definition demo_cache : SemanticCache := store_stored demo_config demo_provider empty_cache demo_stored.

(** The policy of the stored request. *)
Lemma demo_stored_policy : chat_policy FALLBACK (Some demo_config) (sd_facts demo_stored) = Ok (sd_policy demo_stored).
Proof. vm_compute. reflexivity. Qed.

Lemma demo_reachable : reachable FALLBACK demo_config demo_provider demo_cache [demo_stored].
Proof. apply rtc_once, step_store. exact demo_stored_policy. Qed.

Lemma demo_kept : kept FALLBACK demo_config demo_provider demo_stored.
Proof. split_and!; try exact demo_stored_policy; vm_compute; first [reflexivity | discriminate]. Qed.

(** The bounds of a concrete request, by evaluation. *)
Definition fitsb (l : list bytes) : bool := forallb (λ x, lenZ x <=? u64_max) l.

Lemma fitsb_sound l : fitsb l = true → Forall fits l.
Proof. unfold fitsb. rewrite forallb_elem_of, Forall_forall. intros Hl x Hx. specialize (Hl x Hx). unfold fits. lia. Qed.

Lemma fitsb_concat (ls : list (list bytes)) : fitsb (concat ls) = true → Forall (Forall fits) ls.
Proof. intros Hl%fitsb_sound. by apply Forall_concat. Qed.

Lemma demo_wf epochs :
  let f := demo_facts epochs false in
  fitsb (concat (layers (demo_policy f) (cf_context f) (cf_route_namespace f))) = true →
  fitsb (fold_fields (ns_value_of (namespace_of (cf_entitlements f) (cf_caller f))) (cc_namespace_header (cf_caller f))
           (epochs_of (cf_entitlements f) (cf_caller f))) = true →
  Forall (λ se, is_i64 se.2) (epochs_of (cf_entitlements f) (cf_caller f)) →
  cp_ttl_hours (demo_policy f) = Some 12 →
  request_wf f (demo_policy f) demo_request.
Proof.
  intros f Hl Hf He Ht. split.
  - by apply fitsb_concat.
  - constructor; [|constructor]. apply fitsb_sound. vm_compute. reflexivity.
  - vm_compute. discriminate.
  - by left.
  - by apply fitsb_sound.
  - done.
  - intros t E. rewrite Ht in E. injection E as <-. by vm_compute.
Qed.

Lemma demo_stored_wf : request_wf (sd_facts demo_stored) (sd_policy demo_stored) demo_request.
Proof.
  apply (demo_wf [(lit "workspace", 1)]).
  - vm_compute. reflexivity.
  - vm_compute. reflexivity.
  - replace (epochs_of _ _) with [(lit "workspace", 1)] by (vm_compute; reflexivity). by repeat constructor.
  - vm_compute. reflexivity.
Qed.

Lemma demo_no_collision : no_collision [demo_stored] (sd_facts demo_stored) (sd_policy demo_stored) demo_request.
Proof.
  split; [exact demo_stored_wf|]. split; [constructor; [exact demo_stored_wf|constructor]|].
  apply (@collision_freeb_sound fips_sha256). vm_compute. reflexivity.
Qed.

(** An hour after the store, the request is served; the run is one of the theorem's. *)
Definition demo_lookup : option CacheHit * SemanticCache :=
  chat_lookup FALLBACK (Some demo_config) demo_provider demo_cache (demo_moment 4600000) (lit "t1") (lit "gpt-4o")
    (sd_facts demo_stored) (sd_policy demo_stored) demo_request.

Lemma demo_answer : ch_response_json <$> demo_lookup.1 = Some (lit "{}").
Proof. vm_compute. reflexivity. Qed.

Lemma hits_stay_in_scope_witness :
  ∃ h, demo_lookup.1 = Some h ∧ ch_response_json h = lit "{}" ∧
  ∃ s, s ∈ [demo_stored] ∧ sd_tenant s = lit "t1" ∧ same_answer h (sd_answer s) ∧ scope_of (sd_facts s) = scope_of (sd_facts demo_stored).
Proof.
  pose proof demo_answer as Ha. destruct demo_lookup as [[h|] c] eqn:E; [|discriminate Ha].
  exists h. split; [reflexivity|]. split; [exact (inj Some _ _ Ha)|].
  destruct (@hits_stay_in_scope demo_blake3 text_number demo_wire FALLBACK demo_config demo_provider demo_cache [demo_stored]
    (demo_moment 4600000) (lit "t1") (lit "gpt-4o") (sd_facts demo_stored) (sd_policy demo_stored) demo_request h c
    demo_reachable demo_no_collision demo_stored_policy E) as (_ & s & Hin & _ & _ & Ht & Hs & _ & Hsc & _).
  exists s. exact (conj Hin (conj Ht (conj Hs Hsc))).
Defined.

(** The workspace is invalidated once more after the store, and the same request finds
    nothing. *)
Definition demo_later : ChatFacts := demo_facts [(lit "workspace", 2)] false.

Lemma demo_later_wf : request_wf demo_later (demo_policy demo_later) demo_request.
Proof.
  apply (demo_wf [(lit "workspace", 2)]).
  - vm_compute. reflexivity.
  - vm_compute. reflexivity.
  - replace (epochs_of _ _) with [(lit "workspace", 2)] by (vm_compute; reflexivity). by repeat constructor.
  - vm_compute. reflexivity.
Qed.

Lemma demo_later_no_collision : no_collision [demo_stored] demo_later (demo_policy demo_later) demo_request.
Proof.
  split; [exact demo_later_wf|]. split; [constructor; [exact demo_stored_wf|constructor]|].
  apply (@collision_freeb_sound fips_sha256). vm_compute. reflexivity.
Qed.

Lemma invalidation_is_complete_witness :
  (chat_lookup FALLBACK (Some demo_config) demo_provider demo_cache (demo_moment 4600000) (lit "t1") (lit "gpt-4o")
    demo_later (demo_policy demo_later) demo_request).1 = None.
Proof.
  apply (@invalidation_is_complete demo_blake3 text_number demo_wire FALLBACK demo_config demo_provider demo_cache [demo_stored]
    (demo_moment 4600000) (lit "t1") (lit "gpt-4o") demo_later (demo_policy demo_later) demo_request (lit "workspace") 256
    {[lit "workspace" := 1]} {[lit "workspace" := 2]} 2 demo_reachable demo_later_no_collision).
  - vm_compute. reflexivity.
  - apply bump_singleton.
  - apply rtc_once. exists (lit "workspace"), 256%nat. by rewrite bump_empty.
  - apply rtc_refl.
  - by left.
  - intros s Hs _. apply list_elem_of_singleton in Hs as ->. apply rtc_refl.
Defined.

(** A request that requires zero retention. *)
Lemma no_consent_no_cache_witness :
  (chat_lookup FALLBACK (Some demo_config) demo_provider demo_cache (demo_moment 4600000) (lit "t1") (lit "gpt-4o")
    (demo_facts [(lit "workspace", 1)] true) (demo_policy (demo_facts [(lit "workspace", 1)] true)) demo_request) = (None, demo_cache).
Proof.
  apply (@no_consent_no_cache demo_blake3 text_number demo_wire FALLBACK demo_config demo_provider
    (demo_facts [(lit "workspace", 1)] true) (demo_policy (demo_facts [(lit "workspace", 1)] true))).
  - vm_compute. reflexivity.
  - intros (_ & _ & _ & Hz & _). discriminate Hz.
Defined.

Lemma stored_answers_are_served_witness :
  ∃ h c', demo_lookup = (Some h, c') ∧ same_answer h (sd_answer demo_stored) ∧ ch_tier h = lit "exact" ∧
    ch_created_at_ms h = 1000000.
Proof.
  apply (@stored_answers_are_served demo_blake3 text_number demo_wire FALLBACK demo_config demo_provider empty_cache demo_stored
    (demo_moment 4600000) (lit "gpt-4o") (sd_facts demo_stored) (sd_policy demo_stored) demo_request).
  - exact demo_kept.
  - reflexivity.
  - reflexivity.
  - vm_compute. reflexivity.
  - vm_compute. reflexivity.
  - vm_compute. discriminate.
Defined.

(** No request here may embed with a model that is not configured. *)
Lemma texts_stay_with_allowed_models_witness :
  chat_lookup FALLBACK (Some demo_config) demo_provider empty_cache
    (with_attempts (demo_moment 4600000) (λ m, if decide (m = lit "embed-c") then Vector [1] else NoCredential)) (lit "t1") (lit "gpt-4o")
    (sd_facts demo_stored) (sd_policy demo_stored) demo_request =
  chat_lookup FALLBACK (Some demo_config) demo_provider empty_cache (demo_moment 4600000) (lit "t1") (lit "gpt-4o")
    (sd_facts demo_stored) (sd_policy demo_stored) demo_request.
Proof.
  apply (@texts_stay_with_allowed_models demo_blake3 text_number demo_wire FALLBACK demo_config demo_provider (demo_moment 4600000)).
  intros m (Hm & _). simpl. rewrite decide_False; [reflexivity|]. intros ->. revert Hm.
  change (lit "embed-c" ∉ [lit "embed-a"; lit "embed-b"]). rewrite !not_elem_of_cons.
  split; [|split; [|apply not_elem_of_nil]]; intros E; vm_compute in E; discriminate E.
Defined.
End demo.
