(* ===== verification/Dispatch.v ===== *)
(** * Dispatch: errors, retries, keys

    What a failed dispatch says ([ProviderHttpError] of
    [crates/gateway/src/providers/mod.rs], [classify_dispatch_error] of
    [server/errors.rs]), the retry loop, the outcome the breaker is fed and the walk of a
    key pool ([server/dispatch.rs]), the retry policy and the failover chain
    ([providers/failover.rs]) with the block of the configuration they are read from
    ([config.rs]), and the operator's kill switch ([kill_switch.rs]).

    Durations and instants are nanoseconds.  An attempt at a provider, the random source,
    the clock and the reads of the key store are effects on a world that is a parameter. *)

From Stdlib Require Import ZArith Lia.
From stdpp Require Import base list option strings gmap.
From S2P Require Import Prelude BTree Encoding Network Json Catalog Pricing CircuitBreaker.
Local Open Scope Z_scope.

Definition duration_max : Z := u64_max * 1000000000 + 999999999.

(** ** The retry policy and the failover chain *)

Definition FAILOVER_BUDGET_MS : Z := 200.
Definition DEFAULT_RETRIES : Z := 1.
Definition DEFAULT_BACKOFF_MS : Z := 100.
Definition MAX_RETRIES : Z := 5.

Definition DEFAULT_CHAIN : list (bytes * bytes) :=
  [(lit "anthropic", lit "claude-3-5-sonnet-latest");
   (lit "openai", lit "gpt-4o");
   (lit "google", lit "gemini-1.5-pro")].

Record RetryPolicy := { retries : Z; backoff_ms : Z }.

Definition BUILTIN : RetryPolicy := {| retries := DEFAULT_RETRIES; backoff_ms := DEFAULT_BACKOFF_MS |}.

(** The product is a [u128]. *)
Definition planned_backoff_ms (p : RetryPolicy) : Z :=
  if 64 <=? retries p then (if backoff_ms p =? 0 then 0 else u64_max)
  else
    let factor := Z.shiftl 1 (retries p) - 1 in
    let total := backoff_ms p * factor in
    if u64_max <? total then u64_max else total.

Record FailoverHop := { fh_provider_id : bytes; fh_model : bytes }.
Record FailoverConfig := { fc_chain : list FailoverHop; fc_retries : Z; fc_backoff_ms : Z }.

(** [failover::retry_policy]. *)
Definition failover_retry_policy (cfg : option FailoverConfig) : RetryPolicy :=
  from_option (λ f, {| retries := fc_retries f; backoff_ms := fc_backoff_ms f |}) BUILTIN cfg.

(** [routing::retry_policy]: a routed failure moves on instead. *)
Definition retry_policy (cfg : option FailoverConfig) (routed : bool) : RetryPolicy :=
  let policy := failover_retry_policy cfg in
  if routed then {| retries := 0; backoff_ms := backoff_ms policy |} else policy.

Definition failover_model_for (provider : bytes) : option bytes :=
  (λ f, f.2.2) <$> list_find (λ pm, pm.1 = provider) DEFAULT_CHAIN.

Definition cross_provider_candidates (primary_family : bytes) (cfg : option FailoverConfig) : list (bytes * bytes) :=
  match cfg with
  | Some cfg => (λ h, (fh_provider_id h, fh_model h)) <$> filter (λ h, fh_provider_id h ≠ primary_family) (fc_chain cfg)
  | None => filter (λ pm, pm.1 ≠ primary_family) DEFAULT_CHAIN
  end.

Section chain.
Variable provider_of : bytes → option bytes.

Definition candidates_for (primary_family : bytes) (workspace_models : list bytes) (operator : option FailoverConfig)
    : list (bytes * bytes) :=
  if bool_decide (workspace_models = []) then cross_provider_candidates primary_family operator
  else filter (λ pm, pm.1 ≠ primary_family) (omap (λ m, (λ p, (p, m)) <$> provider_of m) workspace_models).

(** ** The [failover:] block of the configuration *)

Inductive ChainError : Type :=
  | chain_too_long | empty_entry | no_provider_id | unknown_provider | provider_twice
  | no_builtin_model | routes_elsewhere (actual : bytes) | unroutable_hop.

Inductive FailoverError : Type :=
  | bad_retries | too_many_retries | bad_backoff | backoff_over_budget | plan_over_budget
  | bad_chain (e : ChainError).

Variable known_provider_id : bytes → bool.
Variable catalog_len : nat.

(** One entry, after the hops before it. *)
Definition parse_entry (hops : list FailoverHop) (entry : bytes) : result FailoverHop ChainError :=
  if bool_decide (entry = []) then Err empty_entry else
  let '(provider_id, model) := match split_once ":"%byte entry with Some (p, m) => (trim p, trim m) | None => (entry, []) end in
  if bool_decide (provider_id = []) then Err no_provider_id
  else if negb (known_provider_id provider_id) then Err unknown_provider
  else if existsb (λ h, bool_decide (fh_provider_id h = provider_id)) hops then Err provider_twice
  else
    let? model := if bool_decide (model = []) then match failover_model_for provider_id with Some m => Ok m | None => Err no_builtin_model end
                  else Ok model in
    match provider_of model with
    | Some actual => if bool_decide (actual = provider_id) then Ok {| fh_provider_id := provider_id; fh_model := model |}
                     else Err (routes_elsewhere actual)
    | None => Err unroutable_hop
    end.

Fixpoint parse_entries (hops : list FailoverHop) (entries : list bytes) : result (list FailoverHop) ChainError :=
  match entries with
  | [] => Ok hops
  | e :: entries => let? h := parse_entry hops e in parse_entries (hops ++ [h]) entries
  end.

Definition parse_chain (raw : bytes) : result (list FailoverHop) ChainError :=
  let entries := trim <$> split_on ","%byte raw in
  if (catalog_len <? length entries)%nat then Err chain_too_long else parse_entries [] entries.

(** [raw.parse::<u32>()]: the digits of a [u64] that fit. *)
Definition parse_u32 (s : bytes) : option Z := v ← parse_u64 s; if v <=? u32_max then Some v else None.

Definition build_retries (raw : option bytes) : result Z FailoverError :=
  match raw with
  | None => Ok DEFAULT_RETRIES
  | Some raw => match parse_u32 raw with
                | None => Err bad_retries
                | Some n => if MAX_RETRIES <? n then Err too_many_retries else Ok n
                end
  end.

Definition build_backoff (raw : option bytes) : result Z FailoverError :=
  match raw with
  | None => Ok DEFAULT_BACKOFF_MS
  | Some raw => match parse_u64 raw with
                | None => Err bad_backoff
                | Some ms => if FAILOVER_BUDGET_MS <=? ms then Err backoff_over_budget else Ok ms
                end
  end.

(** The scalars as written; the line numbers serve only the messages. *)
Definition build_failover (chain retries_raw backoff_raw : option bytes) : result FailoverConfig FailoverError :=
  let? r := build_retries retries_raw in
  let? b := build_backoff backoff_raw in
  if (bool_decide (is_Some backoff_raw) || bool_decide (is_Some retries_raw))
     && (FAILOVER_BUDGET_MS <=? planned_backoff_ms {| retries := r; backoff_ms := b |})
  then Err plan_over_budget
  else
    let? hops := match chain with
                 | Some raw => match parse_chain raw with Ok h => Ok h | Err e => Err (bad_chain e) end
                 | None => Ok ((λ pm, {| fh_provider_id := pm.1; fh_model := pm.2 |}) <$> DEFAULT_CHAIN)
                 end in
    Ok {| fc_chain := hops; fc_retries := r; fc_backoff_ms := b |}.
End chain.

(** ** What a failed dispatch says *)

Record ProviderHttpError := {
  he_provider : bytes;
  he_status : Z;
  he_reason : option bytes;
  he_message : option bytes;
  he_retry_after : option Z;
}.

(** [safe_reason]: the only text of an upstream body that is kept. *)
Definition safe_reason (raw : bytes) : option bytes :=
  if negb (bool_decide (raw = [])) && (length raw <=? 64)%nat
     && forallb (λ b, ((65 <=? byteZ b) && (byteZ b <=? 90)) || ((48 <=? byteZ b) && (byteZ b <=? 57)) || bool_decide (b = "_"%byte)) raw
  then Some raw else None.

Definition body_is_relayable (status : Z) : bool :=
  (400 <=? status) && (status <? 500) && negb (status =? 401) && negb (status =? 403) && negb (status =? 407).

Definition is_auth_rejection (e : ProviderHttpError) : bool :=
  (he_status e =? 401) || (he_status e =? 403)
  || (he_status e =? 400) && from_option (λ r, contains_text (lit "API_KEY") r || contains_text (lit "CREDENTIAL") r) false (he_reason e).

Definition is_rate_limited (e : ProviderHttpError) : bool := he_status e =? 429.
Definition is_upstream_fault (e : ProviderHttpError) : bool := 500 <=? he_status e.
Definition is_model_not_found (e : ProviderHttpError) : bool := he_status e =? 404.

Definition is_unclassified_client_error (e : ProviderHttpError) : bool :=
  (400 <=? he_status e) && (he_status e <? 500) && negb (is_auth_rejection e) && negb (is_rate_limited e)
  && negb (is_model_not_found e).

(** [from_response]: the message is what [provider_message_from_body] makes of the body,
    and is attached only to an error that may carry one. *)
Definition from_response (provider : bytes) (status : Z) (reason message : option bytes) : ProviderHttpError :=
  let err := {| he_provider := provider; he_status := status; he_reason := reason; he_message := None; he_retry_after := None |} in
  if body_is_relayable status && negb (is_auth_rejection err)
  then {| he_provider := provider; he_status := status; he_reason := reason; he_message := message; he_retry_after := None |}
  else err.

Definition with_retry_after (retry_after : option Z) (e : ProviderHttpError) : ProviderHttpError :=
  {| he_provider := he_provider e; he_status := he_status e; he_reason := he_reason e; he_message := he_message e;
     he_retry_after := retry_after |}.

Record Timeout := { to_phase : bytes; to_limit_ms : Z }.
Record ReqwestError := { is_builder : bool; is_connect : bool; is_timeout : bool }.

(** An [anyhow::Error]: its text, and what the downcasts find along its chain. *)
Record DispatchError := {
  de_text : bytes;
  de_denied : option bytes;
  de_credential_derived : bool;
  de_http : option ProviderHttpError;
  de_timeout : option Timeout;
  de_reqwest : list ReqwestError;
}.

(** [err.context(text)]: the text shown changes, the chain is kept. *)
Definition context (text : bytes) (e : DispatchError) : DispatchError :=
  {| de_text := text; de_denied := de_denied e; de_credential_derived := de_credential_derived e; de_http := de_http e;
     de_timeout := de_timeout e; de_reqwest := de_reqwest e |}.

Inductive DispatchFailure : Type :=
  | KeyRejected | RateLimited | ModelNotFound | RequestRejected (status : Z) | Unavailable | TimedOut (t : Timeout).

Definition failure_reason (f : DispatchFailure) : bytes :=
  match f with
  | KeyRejected => lit "provider_key_rejected"
  | RateLimited => lit "provider_rate_limited"
  | ModelNotFound => lit "model_not_found"
  | RequestRejected _ => lit "provider_request_rejected"
  | Unavailable => lit "provider_unavailable"
  | TimedOut _ => lit "upstream_timeout"
  end.

Definition classify_dispatch_error (err : DispatchError) : DispatchFailure :=
  match de_timeout err with
  | Some t => TimedOut t
  | None =>
      match de_http err with
      | None => Unavailable
      | Some http =>
          if is_auth_rejection http then KeyRejected
          else if is_rate_limited http then RateLimited
          else if is_model_not_found http then ModelNotFound
          else if is_unclassified_client_error http then RequestRejected (he_status http)
          else Unavailable
      end
  end.

(** The whole seconds a client is told to wait, rounded up. *)
Definition upstream_retry_after_secs (err : DispatchError) : option Z :=
  http ← de_http err;
  if (he_status http =? 429) || (he_status http =? 503)
  then d ← he_retry_after http; Some (d / 1000000000 + (if 0 <? d mod 1000000000 then 1 else 0))
  else None.

(** [routing::is_key_failure]. *)
Definition is_key_failure (err : DispatchError) : bool :=
  from_option (λ h, (he_status h =? 401) || (he_status h =? 403) || (he_status h =? 429)) false (de_http err).

(** ** What the breaker is fed *)

Definition transport_outcome (err : DispatchError) : option Outcome :=
  if de_credential_derived err then Some CredentialFault else
  match de_http err with
  | Some http => if is_upstream_fault http then Some UpstreamFault else None
  | None =>
      match de_timeout err with
      | Some _ => Some CredentialFault
      | None =>
          Some (if existsb (λ e, negb (is_builder e) && (is_connect e || is_timeout e)) (de_reqwest err)
                then UpstreamFault else CredentialFault)
      end
  end.

Definition breaker_outcome {A} (result : result A DispatchError) : option Outcome :=
  match result with
  | Ok _ => Some Success
  | Err err => match de_denied err with Some _ => None | None => transport_outcome err end
  end.

(** The names of the breaker and of the spans. *)
Definition provider_name (provider_id : option bytes) : bytes :=
  match provider_id with
  | None => lit "unknown"
  | Some p => if bool_decide (p = lit "vertex") then lit "gcp_vertex_ai"
              else if bool_decide (p = lit "bedrock") then lit "aws_bedrock" else p
  end.

Definition provider_id_from_name (name : bytes) : bytes :=
  if bool_decide (name = lit "gcp_vertex_ai") then lit "vertex"
  else if bool_decide (name = lit "aws_bedrock") then lit "bedrock" else name.

(** ** The ledger of attempts *)

Record DispatchAttempt := {
  da_key_label : option bytes;
  da_attempt : Z;
  da_provider : bytes;
  da_model : bytes;
  da_outcome : bytes;
  da_status : option Z;
  da_reason : option bytes;
  da_took_ms : Z;
}.

Definition MAX_DISPATCH_ATTEMPTS : nat := 64.

(** The number is [ledger.len() as u32]. *)
Definition renumber (n : Z) (a : DispatchAttempt) : DispatchAttempt :=
  {| da_key_label := da_key_label a; da_attempt := n; da_provider := da_provider a; da_model := da_model a;
     da_outcome := da_outcome a; da_status := da_status a; da_reason := da_reason a; da_took_ms := da_took_ms a |}.

Fixpoint extend_dispatch_attempts (ledger new_attempts : list DispatchAttempt) : list DispatchAttempt :=
  match new_attempts with
  | [] => ledger
  | a :: rest =>
      if (MAX_DISPATCH_ATTEMPTS <=? length ledger)%nat then ledger
      else extend_dispatch_attempts (ledger ++ [renumber (lenZ ledger mod 2 ^ 32) a]) rest
  end.

Definition dispatch_attempts_worth_recording (ledger : list DispatchAttempt) : bool :=
  (1 <? length ledger)%nat || existsb (λ a, negb (bool_decide (da_outcome a = lit "ok"))) ledger.

Definition attempt_took_ms (d : Z) : Z := Z.min (d / 1000000) u32_max.

Definition dispatch_attempt_for_error (attempt : Z) (provider model : bytes) (err : DispatchError) (took_ms : Z) : DispatchAttempt :=
  match de_denied err with
  | Some code =>
      {| da_key_label := None; da_attempt := attempt; da_provider := provider; da_model := model; da_outcome := lit "skipped";
         da_status := None; da_reason := Some code; da_took_ms := took_ms |}
  | None =>
      let a := {| da_key_label := None; da_attempt := attempt; da_provider := provider; da_model := model; da_outcome := lit "error";
                  da_status := he_status <$> de_http err;
                  da_reason := match de_http err ≫= he_reason with
                               | Some r => Some r
                               | None => Some (failure_reason (classify_dispatch_error err))
                               end;
                  da_took_ms := took_ms |} in
      match de_timeout err with
      | None => a
      | Some t =>
          {| da_key_label := da_key_label a; da_attempt := attempt; da_provider := provider; da_model := model; da_outcome := lit "error";
             da_status := Some 504; da_reason := Some (lit "upstream_timeout:" ++ to_phase t); da_took_ms := took_ms |}
      end
  end.

Definition ok_attempt (attempt : Z) (provider model : bytes) (took_ms : Z) : DispatchAttempt :=
  {| da_key_label := None; da_attempt := attempt; da_provider := provider; da_model := model; da_outcome := lit "ok";
     da_status := None; da_reason := None; da_took_ms := took_ms |}.

Definition skipped_failover_attempt (provider model : bytes) (reason : string) : DispatchAttempt :=
  {| da_key_label := None; da_attempt := 0; da_provider := provider; da_model := model; da_outcome := lit "skipped";
     da_status := None; da_reason := Some (lit reason); da_took_ms := 0 |}.

Definition with_label (label : bytes) (a : DispatchAttempt) : DispatchAttempt :=
  {| da_key_label := Some label; da_attempt := da_attempt a; da_provider := da_provider a; da_model := da_model a;
     da_outcome := da_outcome a; da_status := da_status a; da_reason := da_reason a; da_took_ms := da_took_ms a |}.

Definition label_attempts (attempts : list DispatchAttempt) (pooled : bool) (label : bytes) : list DispatchAttempt :=
  if pooled then with_label label <$> attempts else attempts.

(** ** The retry loop *)

Definition TRANSPORT_RETRY_CUTOFF : Z := 2 * 1000000000.

Definition retry_worthwhile (err : DispatchError) (attempt_took : Z) : bool :=
  if bool_decide (is_Some (de_denied err)) then false
  else if bool_decide (is_Some (de_timeout err)) then false
  else match de_http err with
       | Some _ => match classify_dispatch_error err with Unavailable | RateLimited => true | _ => false end
       | None => attempt_took <? TRANSPORT_RETRY_CUTOFF
       end.

(** [saturating_mul] on durations; the product with the sample is a [u128]. *)
Definition jitter_pause (backoff attempt remaining sample : Z) : Z :=
  let cap := Z.min (Z.min duration_max (backoff * Z.shiftl 1 (Z.min attempt 16))) remaining in
  let picked := (cap * sample) mod 2 ^ 128 / 2 ^ 64 in
  if picked <=? u64_max then picked else u64_max.

(** What an attempt, the random source and a pause do to the rest of the world. *)
Class World (W : Type) := {
  random_u64 : W → Z * W;
  sleep : Z → W → W;
}.

Section retry.
Context {W A : Type} `{World W}.

(** An attempt answers, with how long it took. *)
Definition AttemptFn : Type := W → result A DispatchError * Z * W.

Record RetryRun := { rr_result : result A DispatchError; rr_ledger : list DispatchAttempt; rr_pauses : list Z }.

Definition final_error (err : DispatchError) (first_err : option DispatchError) : DispatchError :=
  match first_err with Some first => context (de_text first) err | None => err end.

Variables (policy : RetryPolicy) (budget : Z) (provider model : bytes) (attempt_fn : AttemptFn).

(** How long to wait before the next attempt; [None] stops. *)
Definition next_pause (err : DispatchError) (attempt_took attempt backoff_spent : Z) (w : W) : option (Z * W) :=
  if retries policy <=? attempt then None
  else if negb (retry_worthwhile err attempt_took) then None
  else
    let remaining := sat_sub budget backoff_spent in
    match de_http err ≫= he_retry_after with
    | Some asked => if asked <=? remaining then Some (asked, w) else None
    | None =>
        if remaining =? 0 then None
        else let '(sample, w) := random_u64 w in
             Some (jitter_pause (backoff_ms policy * 1000000) attempt remaining sample, w)
    end.

(** The loop; [None] when the fuel runs out. *)
Fixpoint retry_from (fuel : nat) (attempt backoff_spent : Z) (first_err : option DispatchError)
    (ledger : list DispatchAttempt) (pauses : list Z) (w : W) : option (RetryRun * W) :=
  match fuel with
  | O => None
  | S fuel =>
      let '(r, took, w) := attempt_fn w in
      match r with
      | Ok s =>
          Some ({| rr_result := Ok s; rr_ledger := ledger ++ [ok_attempt attempt provider model (attempt_took_ms took)];
                   rr_pauses := pauses |}, w)
      | Err err =>
          let ledger := ledger ++ [dispatch_attempt_for_error attempt provider model err (attempt_took_ms took)] in
          match next_pause err took attempt backoff_spent w with
          | None => Some ({| rr_result := Err (final_error err first_err); rr_ledger := ledger; rr_pauses := pauses |}, w)
          | Some (pause, w) =>
              retry_from fuel (attempt + 1) (backoff_spent + pause)
                (match first_err with None => Some err | f => f end) ledger (pauses ++ [pause]) (sleep pause w)
          end
      end
  end.

Definition retry_loop (w : W) : option (RetryRun * W) :=
  retry_from (S (Z.to_nat (retries policy))) 0 0 None [] [] w.
End retry.
Arguments RetryRun : clear implicits.
Arguments AttemptFn : clear implicits.

(** ** The key of a provider *)

Inductive ProviderKey : Type :=
  | Found (key : bytes) | NotConfigured | Unusable | LookupFailed | KmsUnavailable | KmsDenied.

#[global] Instance ProviderKey_eq_dec : EqDecision ProviderKey.
Proof. solve_decision. Defined.

Inductive CachedLookup : Type := CachedFresh (secret : bytes) | CachedStale (secret : bytes) (refresh : bool) | CachedMiss.

Inductive KmsError : Type := Unavailable_ | Denied_.

Inductive ByokFetch : Type :=
  | FetchedKey (secret : bytes) (expires_at : option Z)
  | FetchKms (e : KmsError)
  | NoRow
  | Undecryptable
  | LookupError.

(** [RefreshOutcome]: what a re-read off the request path does with the cached key. *)
Inductive RefreshOutcome : Type := Renewed (secret : bytes) | RenewedUntil (secret : bytes) (until : option Z) | Gone | RefreshFailed.

Definition refresh_outcome (fetch : ByokFetch) : RefreshOutcome :=
  match fetch with
  | FetchedKey k (Some until) => RenewedUntil k (Some until)
  | FetchedKey k None => Renewed k
  | FetchKms _ | NoRow | Undecryptable => Gone
  | LookupError => RefreshFailed
  end.

Definition kms_failure (e : KmsError) : ProviderKey := match e with Unavailable_ => KmsUnavailable | Denied_ => KmsDenied end.

Definition env_fallback_allowed (has_control_plane has_master_key : bool) : bool := negb (has_control_plane && has_master_key).

(** What the resolution of one label reads, in turn: the cache, whether there is a pool
    and a master key, the vault, the flight, the cache again, the fence of a cold fill,
    the row, whether the fill was still current, and the environment. *)
Record KeyLooks := {
  kl_cached : CachedLookup;
  kl_pool : bool;
  kl_master : bool;
  kl_vault : bool;
  kl_flight : bool;
  kl_cached_again : CachedLookup;
  kl_fill : bool;
  kl_fetch : ByokFetch;
  kl_published : bool;
  kl_env : option bytes;
}.

Definition DEFAULT_KEY_LABEL : bytes := lit "default".

(** The row, as the request's own fill reads it. *)
Definition key_of_fetch (k : KeyLooks) (env_var : bytes) : ProviderKey :=
  match kl_fetch k with
  | FetchedKey secret _ => if kl_published k then Found secret else LookupFailed
  | FetchKms e => kms_failure e
  | Undecryptable => Unusable
  | NoRow => if bool_decide (env_var = []) then Found [] else NotConfigured
  | LookupError => LookupFailed
  end.

(** The key, and whether the request waited on the control plane. *)
Definition resolve_provider_key_labeled (k : KeyLooks) (label env_var : bytes) : ProviderKey * bool :=
  match kl_cached k with
  | CachedFresh secret | CachedStale secret _ => (Found secret, false)
  | CachedMiss =>
      if kl_pool k && kl_master k then
        if negb (kl_vault k) then (KmsUnavailable, true)
        else if negb (kl_flight k) then (LookupFailed, true)
        else match kl_cached_again k with
             | CachedFresh secret => (Found secret, false)
             | _ => if negb (kl_fill k) then (LookupFailed, false) else (key_of_fetch k env_var, true)
             end
      else if negb (bool_decide (label = DEFAULT_KEY_LABEL)) then (NotConfigured, false)
      else if bool_decide (env_var = []) then (Found [], false)
      else (from_option Found NotConfigured (kl_env k), false)
  end.

(** ** The walk of a key pool *)

Record KeyCursor := { kc_labels : list bytes; kc_failure : option ProviderKey; kc_cold : bool }.

Definition new_cursor (labels : list bytes) : KeyCursor := {| kc_labels := labels; kc_failure := None; kc_cold := false |}.

Definition has_more (c : KeyCursor) : bool := negb (bool_decide (kc_labels c = [])).
Definition into_failure (c : KeyCursor) : ProviderKey := default NotConfigured (kc_failure c).

(** Why the pool has no key: an unreadable store outranks a refusal of the key service,
    and that outranks a plain miss. *)
Definition note_failure (failure : option ProviderKey) (key : ProviderKey) : option ProviderKey :=
  match key with
  | LookupFailed => Some LookupFailed
  | KmsUnavailable | KmsDenied => if bool_decide (failure = Some LookupFailed) then failure else Some key
  | _ => match failure with None => Some key | f => f end
  end.

Section cursor.
Context {W : Type}.
(** The reads made for a label of the provider. *)
Variable look : bytes → bytes → W → KeyLooks * W.

(** [labels] are the labels not yet tried: [next] has moved past the others. *)
Fixpoint next_key_from (provider_id env_var : bytes) (failure : option ProviderKey) (cold : bool) (labels : list bytes) (w : W)
    : option (bytes * bytes) * KeyCursor * W :=
  match labels with
  | [] => (None, {| kc_labels := []; kc_failure := failure; kc_cold := cold |}, w)
  | label :: rest =>
      let '(looks, w) := look provider_id label w in
      let '(key, c) := resolve_provider_key_labeled looks label env_var in
      let cold := cold || c in
      match key with
      | Found k => (Some (label, k), {| kc_labels := rest; kc_failure := failure; kc_cold := cold |}, w)
      | _ => next_key_from provider_id env_var (note_failure failure key) cold rest w
      end
  end.

Definition next_key (provider_id env_var : bytes) (c : KeyCursor) (w : W) : option (bytes * bytes) * KeyCursor * W :=
  next_key_from provider_id env_var (kc_failure c) (kc_cold c) (kc_labels c) w.
End cursor.

(** ** The kill switch *)

Definition KillSwitch : Type := gmap bytes bool.

Definition from_flag_list (raw : bytes) : KillSwitch :=
  foldl (λ m k, <[k := true]> m) ∅ (filter (λ k, k ≠ []) (trim <$> split_on ","%byte raw)).

Definition flag (ks : KillSwitch) (key : bytes) (default_ : bool) : bool := default default_ (ks !! key).
Definition predictive_killed (ks : KillSwitch) (name : bytes) : bool := flag ks (lit "kill.predictive." ++ name) false.
Definition provider_killed (ks : KillSwitch) (provider : bytes) : bool := flag ks (lit "kill.upstream." ++ provider) false.
Definition canary_enabled (ks : KillSwitch) (feature : bytes) : bool := flag ks (lit "flag.canary." ++ feature) false.

(** [forced_keys], sorted: the keys of a map are distinct. *)
Definition forced_keys (ks : KillSwitch) : list bytes :=
  (foldl (λ m x, BTreeMap.insert x () m) [] (map_to_list (filter (λ kv, kv.2 = true) ks)).*1).*1.

(** [fetch_flags], on the [featureFlags] of the answer. *)
Definition flag_on `{JsonNumber} (v : Value) : bool :=
  match v with
  | Json.Bool b => b
  | Json.String s => negb (bool_decide (s = lit "false"))
  | _ => false
  end.

Definition fetch_flags `{JsonNumber} (feature_flags : option (list (bytes * Value))) : KillSwitch :=
  foldl (λ m kv, <[kv.1 := flag_on kv.2]> m) ∅ (default [] feature_flags).

(** One turn of the refresh: a failed fetch keeps the last snapshot, another replaces it. *)
Definition kill_switch_refresh (ks : KillSwitch) (fetched : option KillSwitch) : KillSwitch := default ks fetched.
