(* ===== verification/DispatchProofs.v ===== *)
(** * The retry loop and the keys: theorems

    The retry loop makes at least one attempt and at most one more than the policy's
    retries, and never pauses longer in all than its budget; what it retries is transient,
    and the error it returns is the last one.  A retry policy the configuration accepts
    always gets all its attempts.  The process environment is never spent for a tenant of
    a control plane, and the refusal of a pool is the gravest one met. *)

From Stdlib Require Import ZArith Lia.
From stdpp Require Import base list option strings gmap.
From S2P Require Import Prelude BTree Encoding Network Json Catalog Pricing CircuitBreaker Dispatch.
Local Open Scope Z_scope.

(** ** Pauses *)

Lemma jitter_bounds backoff attempt remaining sample :
  0 ≤ backoff → 0 ≤ attempt → 0 ≤ remaining ≤ u64_max → is_u64 sample →
  0 ≤ jitter_pause backoff attempt remaining sample ≤ remaining ∧
  jitter_pause backoff attempt remaining sample ≤ backoff * 2 ^ attempt.
Proof.
  intros Hb Ha Hr Hs. unfold jitter_pause. rewrite Z.shiftl_1_l.
  assert (0 < 2 ^ Z.min attempt 16 ≤ 2 ^ attempt) as Hp
    by (split; [apply Z.pow_pos_nonneg; lia|apply Z.pow_le_mono_r; lia]).
  set (cap := Z.min (Z.min duration_max (backoff * 2 ^ Z.min attempt 16)) remaining).
  assert (0 ≤ cap ≤ remaining ∧ cap ≤ backoff * 2 ^ attempt) as Hc by (unfold cap, duration_max, u64_max; nia).
  unfold is_u64, u64_max in *.
  rewrite Z.mod_small by nia.
  assert (0 ≤ cap * sample / 2 ^ 64 ≤ cap) as Hd.
  { split; [apply Z.div_pos; nia|]. apply Z.div_le_upper_bound; nia. }
  destruct (Z.leb_spec (cap * sample / 2 ^ 64) (2 ^ 64 - 1)); lia.
Qed.

Definition total (l : list Z) : Z := foldr Z.add 0 l.

Lemma total_snoc l x : total (l ++ [x]) = total l + x.
Proof. unfold total. induction l as [|y l IH]; simpl; lia. Qed.

(** What a failure that is tried again looks like in the ledger. *)
Definition retried (a : DispatchAttempt) : Prop :=
  da_outcome a = lit "error" ∧ ∀ s, da_status a = Some s → s = 429 ∨ ¬ 400 ≤ s < 500.

Lemma worthwhile_retried err took attempt provider model ms :
  retry_worthwhile err took = true → retried (dispatch_attempt_for_error attempt provider model err ms).
Proof.
  unfold retry_worthwhile, dispatch_attempt_for_error. destruct (de_denied err); [done|]. destruct (de_timeout err) eqn:Ht; [done|].
  rewrite !bool_decide_false by (by intros []). intros Hw. split; [done|]. simpl. intros s Hs.
  destruct (de_http err) as [h|] eqn:Hh; [|done]. simplify_eq/=.
  unfold classify_dispatch_error in Hw. rewrite Ht, Hh in Hw. unfold is_rate_limited, is_model_not_found in Hw.
  destruct (is_auth_rejection h) eqn:Ea; [done|]. destruct (Z.eqb_spec (he_status h) 429); [by left|].
  destruct (Z.eqb_spec (he_status h) 404); [done|].
  destruct (is_unclassified_client_error h) eqn:Eu; [done|]. right. intros Hr. revert Eu. unfold is_unclassified_client_error.
  rewrite Ea. unfold is_rate_limited, is_model_not_found.
  destruct (Z.leb_spec 400 (he_status h)), (Z.ltb_spec (he_status h) 500), (Z.eqb_spec (he_status h) 429), (Z.eqb_spec (he_status h) 404);
    (done || lia).
Qed.

Lemma attempt_for_error_number attempt provider model err ms : da_attempt (dispatch_attempt_for_error attempt provider model err ms) = attempt.
Proof. unfold dispatch_attempt_for_error. by destruct (de_denied err), (de_timeout err). Qed.

(** The context a final error is given does not change what the ledger says of it. *)
Lemma attempt_for_final_error attempt provider model err first ms :
  dispatch_attempt_for_error attempt provider model (final_error err first) ms = dispatch_attempt_for_error attempt provider model err ms.
Proof. by destruct first. Qed.

Section retry.
Context {W A : Type} `{World W}.
Variables (policy : RetryPolicy) (budget : Z) (provider model : bytes) (attempt_fn : AttemptFn W A).
Hypothesis policy_u : 0 ≤ retries policy ∧ 0 ≤ backoff_ms policy.
Hypothesis budget_u : 0 ≤ budget ≤ u64_max.
Hypothesis random_ok : ∀ w, is_u64 (random_u64 w).1.

(** The hints of the upstream are durations. *)
Definition hints_ok : Prop :=
  ∀ w err asked, (attempt_fn w).1.1 = Err err → de_http err ≫= he_retry_after = Some asked → 0 ≤ asked.

(** What holds of a finished run. *)
Definition run_ok (run : RetryRun A) : Prop :=
  1 ≤ lenZ (rr_ledger run) ≤ retries policy + 1 ∧
  lenZ (rr_pauses run) + 1 = lenZ (rr_ledger run) ∧
  Forall (λ p, 0 ≤ p) (rr_pauses run) ∧ total (rr_pauses run) ≤ budget ∧
  da_attempt <$> rr_ledger run = seqZ 0 (lenZ (rr_ledger run)) ∧
  ∃ init final, rr_ledger run = init ++ [final] ∧ Forall retried init ∧
    match rr_result run with
    | Ok _ => da_outcome final = lit "ok"
    | Err e => ∃ took, final = dispatch_attempt_for_error (lenZ init) provider model e took
    end.

Lemma next_pause_spec err took attempt spent w pause w' :
  (∀ asked, de_http err ≫= he_retry_after = Some asked → 0 ≤ asked) → 0 ≤ attempt → 0 ≤ spent →
  next_pause policy budget err took attempt spent w = Some (pause, w') →
  attempt < retries policy ∧ retry_worthwhile err took = true ∧ 0 ≤ pause ∧ spent + pause ≤ Z.max spent budget ∧
  (de_http err ≫= he_retry_after = None → pause ≤ backoff_ms policy * 1000000 * 2 ^ attempt).
Proof.
  intros Hh Ha Hs. unfold next_pause. destruct (Z.leb_spec (retries policy) attempt); [done|].
  destruct (retry_worthwhile err took); [|done]. simpl negb. cbv iota zeta. unfold sat_sub.
  destruct (de_http err ≫= he_retry_after) as [asked|].
  - specialize (Hh _ eq_refl). destruct (Z.leb_spec asked (Z.max 0 (budget - spent))); [|done].
    intros [= <- <-]. repeat split; [lia..|done].
  - destruct (Z.eqb_spec (Z.max 0 (budget - spent)) 0); [done|]. destruct (random_u64 w) as [sample w1] eqn:Er.
    intros [= <- <-]. pose proof (random_ok w) as Hr. rewrite Er in Hr.
    destruct (jitter_bounds (backoff_ms policy * 1000000) attempt (Z.max 0 (budget - spent)) sample) as [[? ?] ?]; [lia..|done|].
    repeat split; intros; lia.
Qed.

Lemma lenZ_snoc {B} (l : list B) x : lenZ (l ++ [x]) = lenZ l + 1.
Proof. rewrite lenZ_app. unfold lenZ. simpl. lia. Qed.

Lemma seqZ_snoc n : 0 ≤ n → seqZ 0 (n + 1) = seqZ 0 n ++ [n].
Proof. intros. rewrite seqZ_app by lia. by rewrite Z.add_0_l. Qed.

Lemma run_done ledger pauses r final :
  lenZ pauses = lenZ ledger → lenZ ledger ≤ retries policy → Forall (λ p, 0 ≤ p) pauses → total pauses ≤ budget →
  da_attempt <$> ledger = seqZ 0 (lenZ ledger) → Forall retried ledger → da_attempt final = lenZ ledger →
  match r with Ok _ => da_outcome final = lit "ok" | Err e => ∃ took, final = dispatch_attempt_for_error (lenZ ledger) provider model e took end →
  run_ok {| rr_result := r; rr_ledger := ledger ++ [final]; rr_pauses := pauses |}.
Proof.
  intros Hl Hr Hp Ht Hn Hret Hf Hres. unfold run_ok. simpl. rewrite !lenZ_snoc. pose proof (lenZ_nonneg ledger).
  split_and!; [lia..|done|done| |by exists ledger, final].
  by rewrite fmap_app, Hn, seqZ_snoc, <- Hf by lia.
Qed.

Lemma retry_from_ok fuel ledger pauses first w :
  hints_ok → lenZ pauses = lenZ ledger → lenZ ledger ≤ retries policy → Forall (λ p, 0 ≤ p) pauses →
  total pauses ≤ budget → 0 ≤ total pauses → da_attempt <$> ledger = seqZ 0 (lenZ ledger) → Forall retried ledger →
  retries policy - lenZ ledger < Z.of_nat fuel →
  ∃ run w', retry_from policy budget provider model attempt_fn fuel (lenZ ledger) (total pauses) first ledger pauses w = Some (run, w')
    ∧ run_ok run.
Proof.
  intros Hh. revert ledger pauses first w. induction fuel as [|fuel IH]; intros ledger pauses first w Hl Hr Hp Ht Ht0 Hn Hret Hfuel; [lia|].
  simpl. destruct (attempt_fn w) as [[r took] w1] eqn:Ea. destruct r as [s|err].
  - do 2 eexists. split; [done|]. by apply run_done.
  - destruct (next_pause policy budget err took (lenZ ledger) (total pauses) w1) as [[pause w2]|] eqn:En.
    + pose proof (lenZ_nonneg ledger). apply next_pause_spec in En as (Hlt & Hw & Hp0 & Hb & _); [|intros asked; eapply Hh; by rewrite Ea|lia..].
      rewrite <- (lenZ_snoc ledger (dispatch_attempt_for_error (lenZ ledger) provider model err (attempt_took_ms took))), <- total_snoc.
      apply IH; rewrite ?lenZ_snoc, ?total_snoc; [lia|lia| |lia|lia| | |lia].
      * apply Forall_app. by rewrite Forall_singleton.
      * rewrite fmap_app, Hn, seqZ_snoc by lia. simpl. by rewrite attempt_for_error_number.
      * apply Forall_app. split; [done|]. apply Forall_singleton. by eapply worthwhile_retried.
    + do 2 eexists. split; [done|]. apply run_done; [done..| |].
      * apply attempt_for_error_number.
      * eexists. by rewrite attempt_for_final_error.
Qed.

Lemma retry_run_ok w : hints_ok → ∃ run w', retry_loop policy budget provider model attempt_fn w = Some (run, w') ∧ run_ok run.
Proof.
  intros Hh. unfold retry_loop. apply (retry_from_ok _ [] [] None); try done; cbv [lenZ total]; simpl; lia.
Qed.
End retry.

(** ** The configuration *)

Lemma planned_spec p a : 0 ≤ retries p → 0 ≤ backoff_ms p → planned_backoff_ms p < FAILOVER_BUDGET_MS → 0 ≤ a ≤ retries p →
  backoff_ms p * (2 ^ a - 1) < FAILOVER_BUDGET_MS.
Proof.
  unfold planned_backoff_ms, FAILOVER_BUDGET_MS, u64_max. intros Hr Hb Hp Ha.
  destruct (Z.leb_spec 64 (retries p)).
  - destruct (Z.eqb_spec (backoff_ms p) 0) as [->|]; lia.
  - rewrite Z.shiftl_1_l in Hp. assert (0 < 2 ^ a ≤ 2 ^ retries p) by (split; [apply Z.pow_pos_nonneg|apply Z.pow_le_mono_r]; lia).
    destruct (Z.ltb_spec (2 ^ 64 - 1) (backoff_ms p * (2 ^ retries p - 1))); [lia|]. nia.
Qed.

Section config.
Variable provider_of : bytes → option bytes.
Variable known_provider_id : bytes → bool.
Variable catalog_len : nat.

Lemma parse_entry_ok hops e h : parse_entry provider_of known_provider_id hops e = Ok h →
  provider_of (fh_model h) = Some (fh_provider_id h) ∧ known_provider_id (fh_provider_id h) = true ∧ fh_provider_id h ∉ fh_provider_id <$> hops.
Proof.
  unfold parse_entry. case_bool_decide; [done|].
  destruct (match split_once ":"%byte e with Some (p, m) => (trim p, trim m) | None => (e, []) end) as [pid m].
  case_bool_decide; [done|]. destruct (known_provider_id pid) eqn:Hk; [|done]. simpl negb. cbv iota.
  destruct (existsb _ hops) eqn:Hx; [done|].
  intros Hrest. assert (∃ m', provider_of m' = Some pid ∧ h = {| fh_provider_id := pid; fh_model := m' |}) as (m' & Hm & ->).
  { revert Hrest. destruct (if bool_decide (m = []) then _ else Ok m) as [m'|]; [|done]. simpl.
    destruct (provider_of m') as [actual|] eqn:Em; [|done]. case_bool_decide; [|done]. intros [= <-]. subst. eauto. }
  split_and!; [done..|]. simpl. intros (h0 & Heq & Hin)%list_elem_of_fmap.
  apply not_true_iff_false in Hx. apply Hx. apply existsb_elem_of. exists h0. by rewrite bool_decide_true.
Qed.

Definition chain_ok (hops : list FailoverHop) : Prop :=
  NoDup (fh_provider_id <$> hops) ∧ Forall (λ h, provider_of (fh_model h) = Some (fh_provider_id h)) hops.

Lemma parse_entries_ok entries hops l : chain_ok hops → parse_entries provider_of known_provider_id hops entries = Ok l → chain_ok l.
Proof.
  revert hops. induction entries as [|e entries IH]; intros hops Hok; [by intros [= <-]|]. simpl.
  destruct (parse_entry provider_of known_provider_id hops e) as [h|] eqn:Ep; [|done]. apply IH.
  apply parse_entry_ok in Ep as (Hp & _ & Hn). destruct Hok as [Hnd Hf]. split.
  - rewrite fmap_app. apply NoDup_app. split_and!; [done| |apply NoDup_singleton].
    intros x Hx ->%list_elem_of_singleton. done.
  - apply Forall_app. by rewrite Forall_singleton.
Qed.

Lemma build_retries_ok raw r : build_retries raw = Ok r → 0 ≤ r ≤ MAX_RETRIES.
Proof.
  unfold build_retries, parse_u32, MAX_RETRIES. destruct raw as [raw|]; [|intros [= <-]; unfold DEFAULT_RETRIES; lia].
  destruct (parse_u64 raw) as [v|] eqn:Ev; [|done]. simpl. apply parse_u64_bound in Ev. unfold is_u64 in Ev.
  destruct (Z.leb_spec v u32_max); [|done]. destruct (Z.ltb_spec 5 v); [done|]. intros [= <-]. lia.
Qed.

Lemma build_backoff_ok raw b : build_backoff raw = Ok b → 0 ≤ b < FAILOVER_BUDGET_MS.
Proof.
  unfold build_backoff, FAILOVER_BUDGET_MS. destruct raw as [raw|]; [|intros [= <-]; unfold DEFAULT_BACKOFF_MS; lia].
  destruct (parse_u64 raw) as [v|] eqn:Ev; [|done]. apply parse_u64_bound in Ev. unfold is_u64 in Ev.
  destruct (Z.leb_spec 200 v); [done|]. intros [= <-]. lia.
Qed.

Lemma build_failover_inv chain r b f : build_failover provider_of known_provider_id catalog_len chain r b = Ok f →
  build_retries r = Ok (fc_retries f) ∧ build_backoff b = Ok (fc_backoff_ms f) ∧
  planned_backoff_ms {| retries := fc_retries f; backoff_ms := fc_backoff_ms f |} < FAILOVER_BUDGET_MS ∧
  (∀ raw, chain = Some raw → parse_chain provider_of known_provider_id catalog_len raw = Ok (fc_chain f)).
Proof.
  unfold build_failover. destruct (build_retries r) as [n|] eqn:Er; [|done]. simpl.
  destruct (build_backoff b) as [ms|] eqn:Eb; [|done]. simpl.
  destruct ((bool_decide (is_Some b) || bool_decide (is_Some r)) && _) eqn:Ep; [done|]. intros Hrest.
  assert (planned_backoff_ms {| retries := n; backoff_ms := ms |} < FAILOVER_BUDGET_MS) as Hfit.
  { apply andb_false_iff in Ep as [Ep|Ep]; [|by apply Z.leb_gt in Ep].
    apply orb_false_iff in Ep as [Eb' Er']. apply bool_decide_eq_false in Eb', Er'.
    destruct b; [exfalso; eauto|]. destruct r; [exfalso; eauto|]. simplify_eq/=. done. }
  revert Hrest. destruct chain as [raw|].
  - destruct (parse_chain provider_of known_provider_id catalog_len raw) as [hops|] eqn:Ec; [|done]. intros [= <-]. split_and!; try done.
    by intros ? [= <-].
  - intros [= <-]. by split_and!.
Qed.

(** A configuration that was accepted at boot, or none. *)
Definition accepted (cfg : option FailoverConfig) : Prop :=
  from_option (λ f, ∃ chain r b, build_failover provider_of known_provider_id catalog_len chain r b = Ok f) True cfg.

Lemma accepted_fits cfg : accepted cfg → let p := failover_retry_policy cfg in
  0 ≤ retries p ≤ MAX_RETRIES ∧ 0 ≤ backoff_ms p ∧ planned_backoff_ms p < FAILOVER_BUDGET_MS.
Proof.
  destruct cfg as [f|]; simpl; [|by unfold BUILTIN, MAX_RETRIES; simpl].
  intros (chain & r & b & Hb). apply build_failover_inv in Hb as (Hr & Hb & Hp & _).
  apply build_retries_ok in Hr. apply build_backoff_ok in Hb. repeat split; [lia..|done].
Qed.
End config.

(** ** Every configured retry runs *)

Section all.
Context {W A : Type} `{World W}.
Variables (policy : RetryPolicy) (provider model : bytes) (attempt_fn : AttemptFn W A).

(** The upstream always fails, transiently, and says nothing of when to come back. *)
Definition failing : Prop :=
  ∀ w, ∃ err took w', attempt_fn w = (Err err, took, w') ∧ retry_worthwhile err took = true ∧ de_http err ≫= he_retry_after = None.

Lemma retry_from_all fuel ledger pauses first w :
  0 ≤ retries policy → 0 ≤ backoff_ms policy → planned_backoff_ms policy < FAILOVER_BUDGET_MS → (∀ w, is_u64 (random_u64 w).1) → failing →
  lenZ ledger ≤ retries policy → retries policy - lenZ ledger < Z.of_nat fuel →
  0 ≤ total pauses ≤ backoff_ms policy * 1000000 * (2 ^ lenZ ledger - 1) →
  ∃ run w', retry_from policy (FAILOVER_BUDGET_MS * 1000000) provider model attempt_fn fuel (lenZ ledger) (total pauses) first ledger pauses w
              = Some (run, w') ∧ lenZ (rr_ledger run) = retries policy + 1.
Proof.
  intros Hr Hb Hp Hrand Hf. revert ledger pauses first w.
  induction fuel as [|fuel IH]; intros ledger pauses first w Hl Hfuel Hspent; [lia|].
  simpl. destruct (Hf w) as (err & took & w1 & -> & Hw & Hh). pose proof (lenZ_nonneg ledger).
  destruct (next_pause policy _ err took (lenZ ledger) (total pauses) w1) as [[pause w2]|] eqn:En.
  - apply next_pause_spec in En as (Hlt & _ & Hp0 & _ & Hcap); [|done|unfold FAILOVER_BUDGET_MS, u64_max; lia|done|by rewrite Hh|lia..].
    rewrite <- (lenZ_snoc ledger (dispatch_attempt_for_error (lenZ ledger) provider model err (attempt_took_ms took))), <- total_snoc.
    specialize (Hcap Hh). apply IH; rewrite ?lenZ_snoc, ?total_snoc; [lia..|].
    replace (2 ^ (lenZ ledger + 1)) with (2 * 2 ^ lenZ ledger) by (rewrite Z.pow_add_r by lia; lia). nia.
  - do 2 eexists. split; [done|]. simpl. rewrite lenZ_snoc. revert En. unfold next_pause. rewrite Hw, Hh.
    destruct (Z.leb_spec (retries policy) (lenZ ledger)); [intros; lia|]. simpl negb. cbv iota zeta.
    pose proof (planned_spec policy (lenZ ledger) Hr Hb Hp ltac:(lia)). unfold sat_sub.
    destruct (Z.eqb_spec (Z.max 0 (FAILOVER_BUDGET_MS * 1000000 - total pauses)) 0); [exfalso; lia|]. by destruct (random_u64 w1).
Qed.
End all.

(** ** The environment *)

Definition with_env (e : option bytes) (k : KeyLooks) : KeyLooks :=
  {| kl_cached := kl_cached k; kl_pool := kl_pool k; kl_master := kl_master k; kl_vault := kl_vault k; kl_flight := kl_flight k;
     kl_cached_again := kl_cached_again k; kl_fill := kl_fill k; kl_fetch := kl_fetch k; kl_published := kl_published k; kl_env := e |}.

(** C22. The operator's own key is never spent for a tenant: with a control plane and a
    master key, and for every named key of a pool, what the process environment holds
    does not change the answer, and a key that is found was cached or read from the
    tenant's row, or the provider takes none. *)
Theorem environment_is_never_spent (k : KeyLooks) (e : option bytes) (label env_var key : bytes) :
  env_fallback_allowed (kl_pool k) (kl_master k) = false ∨ label ≠ DEFAULT_KEY_LABEL →
  resolve_provider_key_labeled (with_env e k) label env_var = resolve_provider_key_labeled k label env_var ∧
  ((resolve_provider_key_labeled k label env_var).1 = Found key →
   (∃ r, kl_cached k = CachedFresh key ∨ kl_cached k = CachedStale key r) ∨ kl_cached_again k = CachedFresh key ∨
   (∃ until, kl_fetch k = FetchedKey key until ∧ kl_published k = true) ∨ (kl_fetch k = NoRow ∧ env_var = [] ∧ key = [])).
Proof.
  intros Hno. unfold resolve_provider_key_labeled, with_env, env_fallback_allowed, key_of_fetch in *. simpl.
  destruct (kl_cached k) as [s|s r|]; [split; [done|]; intros [= ->]; left; by exists false; left|
    split; [done|]; intros [= ->]; left; exists r; by right|].
  destruct (kl_pool k && kl_master k).
  - split; [done|]. destruct (kl_vault k); [|done]. destruct (kl_flight k); [|done]. simpl.
    assert ((if negb (kl_fill k) then (LookupFailed, false) else
             (match kl_fetch k with
              | FetchedKey secret _ => if kl_published k then Found secret else LookupFailed
              | FetchKms e => kms_failure e | NoRow => if bool_decide (env_var = []) then Found [] else NotConfigured
              | Undecryptable => Unusable | LookupError => LookupFailed end, true)).1 = Found key →
            (∃ until, kl_fetch k = FetchedKey key until ∧ kl_published k = true) ∨ (kl_fetch k = NoRow ∧ env_var = [] ∧ key = [])) as Hfill.
    { destruct (kl_fill k); [|done]. simpl. destruct (kl_fetch k) as [s u|[]| | |]; try done.
      - destruct (kl_published k); [|done]. intros [= ->]. left. eauto.
      - case_bool_decide; [|done]. intros [= <-]. by right. }
    destruct (kl_cached_again k) as [s|s r|]; simpl; intros Hk; [injection Hk as ->; by right; left|right; right; by apply Hfill..].
  - destruct Hno as [|Hl]; [done|]. rewrite bool_decide_false by done. done.
Qed.

(** ** A small world *)

#[local] Instance demo_world : World nat := {| random_u64 := λ w, (2 ^ 63, w); sleep := λ _ w, w |}.

Definition demo_error (status : Z) (retry_after : option Z) : DispatchError :=
  {| de_text := lit "upstream"; de_denied := None; de_credential_derived := false;
     de_http := Some (with_retry_after retry_after (from_response (lit "openai") status None None));
     de_timeout := None; de_reqwest := [] |}.

(** It fails twice, then answers. *)
Definition third_time : AttemptFn nat nat := λ w,
  (if (w <? 2)%nat then Err (demo_error 503 (if (w =? 0)%nat then Some 50000000 else None)) else Ok w, 30000000, S w).

Definition always_down : AttemptFn nat nat := λ w, (Err (demo_error 503 None), 5, S w).

Example third_time_runs :
  (λ rw, (rr_result rw.1, rr_pauses rw.1, da_took_ms <$> rr_ledger rw.1)) <$>
    retry_loop {| retries := 2; backoff_ms := 40 |} 200000000 (lit "openai") (lit "gpt-4o") third_time 0%nat
  = Some (Ok 2%nat, [50000000; 40000000], [30; 30; 30]).
Proof. vm_compute. reflexivity. Qed.

Example boot_examples :
  build_failover (λ _, Some (lit "openai")) (λ _, true) 3 (Some (lit "openai:gpt-4o")) (Some (lit "2")) (Some (lit "66"))
    = Ok {| fc_chain := [{| fh_provider_id := lit "openai"; fh_model := lit "gpt-4o" |}]; fc_retries := 2; fc_backoff_ms := 66 |} ∧
  build_failover (λ _, Some (lit "openai")) (λ _, true) 3 None (Some (lit "2")) (Some (lit "67")) = Err plan_over_budget ∧
  build_failover (λ _, Some (lit "openai")) (λ _, true) 3 (Some (lit "openai, openai")) None None = Err (bad_chain provider_twice).
Proof. vm_compute. repeat split. Qed.

(** ** The theorems *)

(** C20. The retry loop always ends, whatever the upstream does: it makes at least one
    attempt and at most one more than the policy's retries, its pauses add up to no more
    than the budget, its ledger is numbered from zero, everything but the last attempt
    was a transient failure (never a client error other than a 429), and what it returns
    is the last attempt's answer. *)
Theorem retry_is_bounded {W A} `{World W} (policy : RetryPolicy) (budget : Z) (provider model : bytes) (attempt_fn : AttemptFn W A) (w : W) :
  0 ≤ retries policy ∧ 0 ≤ backoff_ms policy → 0 ≤ budget ≤ u64_max → (∀ w, is_u64 (random_u64 w).1) → hints_ok attempt_fn →
  ∃ run w', retry_loop policy budget provider model attempt_fn w = Some (run, w') ∧
    1 ≤ lenZ (rr_ledger run) ≤ retries policy + 1 ∧ lenZ (rr_pauses run) + 1 = lenZ (rr_ledger run) ∧
    Forall (λ p, 0 ≤ p) (rr_pauses run) ∧ total (rr_pauses run) ≤ budget ∧
    da_attempt <$> rr_ledger run = seqZ 0 (lenZ (rr_ledger run)) ∧
    ∃ init final, rr_ledger run = init ++ [final] ∧
      Forall (λ a, da_outcome a = lit "error" ∧ ∀ s, da_status a = Some s → s = 429 ∨ ¬ 400 ≤ s < 500) init ∧
      match rr_result run with
      | Ok _ => da_outcome final = lit "ok"
      | Err e => ∃ took, final = dispatch_attempt_for_error (lenZ init) provider model e took
      end.
Proof. intros. by apply retry_run_ok. Qed.

Lemma retry_is_bounded_witness :
  ∃ run w', retry_loop {| retries := 2; backoff_ms := 40 |} 200000000 (lit "openai") (lit "gpt-4o") third_time 0%nat = Some (run, w') ∧
    total (rr_pauses run) ≤ 200000000.
Proof.
  destruct (retry_is_bounded {| retries := 2; backoff_ms := 40 |} 200000000 (lit "openai") (lit "gpt-4o") third_time 0%nat)
    as (run & w' & Hr & _ & _ & _ & Ht & _).
  - done.
  - done.
  - done.
  - intros w err asked. unfold third_time. simpl. destruct (w <? 2)%nat; [|done]. intros [= <-]. simpl.
    destruct (w =? 0)%nat; simpl; [|done]. intros [= <-]. done.
  - eauto.
Defined.

(** C21. A retry policy the configuration accepts is never cut short by the budget: while
    the upstream fails transiently and says nothing of when to come back, every retry is
    made, for the built-in policy and for any [failover:] block that boots. *)
Theorem configured_retries_all_run {W A} `{World W} (provider_of : bytes → option bytes) (known : bytes → bool) (n : nat)
    (cfg : option FailoverConfig) (provider model : bytes) (attempt_fn : AttemptFn W A) (w : W) :
  accepted provider_of known n cfg → (∀ w, is_u64 (random_u64 w).1) → failing attempt_fn →
  ∃ run w', retry_loop (retry_policy cfg false) (FAILOVER_BUDGET_MS * 1000000) provider model attempt_fn w = Some (run, w') ∧
    lenZ (rr_ledger run) = retries (retry_policy cfg false) + 1.
Proof.
  intros Ha Hr Hf. apply accepted_fits in Ha as (Hn & Hb & Hp). unfold retry_loop, retry_policy.
  apply (retry_from_all _ _ _ _ _ [] [] None); try done; cbv [lenZ total]; simpl; lia.
Qed.

Lemma configured_retries_all_run_witness :
  ∃ run w', retry_loop (retry_policy (Some {| fc_chain := [{| fh_provider_id := lit "openai"; fh_model := lit "gpt-4o" |}];
                                              fc_retries := 2; fc_backoff_ms := 66 |}) false)
    (FAILOVER_BUDGET_MS * 1000000) (lit "openai") (lit "gpt-4o") always_down 0%nat = Some (run, w') ∧ lenZ (rr_ledger run) = 3.
Proof.
  apply (configured_retries_all_run (λ _, Some (lit "openai")) (λ _, true) 3).
  - exists (Some (lit "openai:gpt-4o")), (Some (lit "2")), (Some (lit "66")). vm_compute. reflexivity.
  - done.
  - intros w. exists (demo_error 503 None), 5, (S w). done.
Defined.

Lemma environment_is_never_spent_witness :
  resolve_provider_key_labeled
    {| kl_cached := CachedMiss; kl_pool := true; kl_master := true; kl_vault := true; kl_flight := true; kl_cached_again := CachedMiss;
       kl_fill := true; kl_fetch := NoRow; kl_published := true; kl_env := Some (lit "sk-operator") |}
    DEFAULT_KEY_LABEL (lit "OPENAI_API_KEY") = (NotConfigured, true).
Proof.
  destruct (environment_is_never_spent
    {| kl_cached := CachedMiss; kl_pool := true; kl_master := true; kl_vault := true; kl_flight := true; kl_cached_again := CachedMiss;
       kl_fill := true; kl_fetch := NoRow; kl_published := true; kl_env := Some (lit "sk-operator") |} None DEFAULT_KEY_LABEL
       (lit "OPENAI_API_KEY") []) as [<- _]; [by left|]. vm_compute. reflexivity.
Defined.

(** A refresh of the kill switch from the flag service replaces the flags an operator
    forced on: a provider killed by the list of the environment is live again after the
    first answer that does not name it, while a failed fetch keeps it killed. *)
Theorem refresh_drops_forced_flags (raw provider : bytes) (fetched : KillSwitch) :
  fetched !! (lit "kill.upstream." ++ provider) = None →
  provider_killed (kill_switch_refresh (from_flag_list raw) (Some fetched)) provider = false ∧
  provider_killed (kill_switch_refresh (from_flag_list raw) None) provider = provider_killed (from_flag_list raw) provider.
Proof. intros Hn. split; [|done]. unfold provider_killed, flag, kill_switch_refresh. change (default _ (Some fetched)) with fetched. by rewrite Hn. Qed.

Lemma refresh_drops_forced_flags_witness :
  provider_killed (from_flag_list (lit "kill.upstream.openai")) (lit "openai") = true ∧
  provider_killed (kill_switch_refresh (from_flag_list (lit "kill.upstream.openai")) (Some ∅)) (lit "openai") = false.
Proof. split; [by vm_compute|]. by apply (refresh_drops_forced_flags (lit "kill.upstream.openai") (lit "openai") ∅). Defined.
