(* ===== verification/Failover.v ===== *)
(** * The dispatch of a chat request

    [crates/gateway/src/server/chat.rs], from the choice of the provider to the last
    failover hop: the candidates of a routed request, the zero-retention prune, the key
    the request is first sent with, the dispatch with its retries, the other keys of the
    pool, and the walk over the plan's remaining targets and the failover chain.

    The adapters, the clock, the random source, the key store and the snapshots of the
    kill switch and of the zero-retention table are effects and reads of a world that is
    a parameter ([ChatWorld]); the breaker is part of that world.  Each call of the retry
    loop is kept as a [Sent], with what the walk saw when it decided on it. *)

From Stdlib Require Import ZArith Lia.
From stdpp Require Import base list option strings gmap.
From S2P Require Import Prelude Float64 Encoding Hash Network Catalog Pricing CircuitBreaker Glob KeyPolicy Controls Routing.
From S2P Require Import ResponseCache CacheServing Dispatch.
Local Open Scope Z_scope.

(** ** The world *)

Class ChatWorld (W A : Type) := {
  cw_random :: World W;
  kill_switch : W → KillSwitch;
  zdr_table : W → ZdrCapabilities;
  key_looks : bytes → bytes → W → KeyLooks * W;
  instant : W → Z * W;
  cb_of : W → CircuitBreaker;
  with_cb : CircuitBreaker → W → W;
  fresh_cell : W → nat * W;
  thread_rng : W → (nat → Z) * W;
  adapter_chat : bytes → bytes → bytes → bytes → W → result A DispatchError * W;
}.

#[global] Instance Phases_eq_dec : EqDecision Phases.
Proof. solve_decision. Defined.

Record Regions := { bedrock_region : bytes; vertex_location : bytes; azure_endpoint : bytes }.

Definition upstream_region (r : Regions) (provider_id : bytes) : bytes :=
  if bool_decide (provider_id = lit "bedrock") then bedrock_region r
  else if bool_decide (provider_id = lit "vertex") then vertex_location r
  else if bool_decide (provider_id = lit "azure") then azure_endpoint r
  else lit "default".

(** [Chat::ROUTING]. *)
Definition CHAT_ROUTING : RoutingScope :=
  {| wire := Chat; virtual_support := AnyProvider; key_pool := Pool; fallthrough := true; has_timeouts := true |}.

(** ** What is fixed for a request *)

Record ChatCall := {
  cr_tenant : bytes;
  cr_governance : option Governance;
  cr_controls : option WorkspaceControls;
  cr_budgeted : bool;
  cr_zdr_required : bool;
  cr_cross_provider : bool;
  cr_workspace_models : list bytes;
  cr_entitled : bool;
  cr_routing : RoutingState;
  cr_unsupported : bytes → bytes → option string;
}.

(** [check_supported], of a provider and the model on its wire: the code of its refusal. *)
Definition cr_supported (cr : ChatCall) (provider_id model : bytes) : bool :=
  match cr_unsupported cr provider_id model with None => true | Some _ => false end.

(** [header_on], [header_off] and the setting of the workspace. *)
Definition cross_provider_failover (header : option bytes) (workspace_failover_on : bool) : bool :=
  let says v := from_option (λ h, bool_decide (to_ascii_lowercase h = lit v)) false header in
  says "cross-provider"%string || (workspace_failover_on && negb (says "off"%string)).

Section chat.
Context `{Registry} `{Blake3Fn} {W A : Type} `{ChatWorld W A}.
Variable catalog : Catalog.
Variable alias : bytes → option ModelAlias.
Variable regions : Regions.
Variable breaker_config : BreakerConfig.
Variable priced_model : bytes → bool.
Variable env_keys : bool.
Variable operator : option FailoverConfig.
Variable route_limits : RouteLimits.
Variable max_attempts : Z.
Variable cr : ChatCall.

Definition pid_of (model : bytes) : option bytes := provider_id_for_model catalog alias model.
Definition env_of (provider_id : bytes) : bytes := env_var_for_provider_id catalog provider_id.
Definition family (model : bytes) : bytes := provider_name (pid_of model).
(** The model the first target's request carries: an operator's alias is replaced. *)
Definition wire_of (model : bytes) : bytes := from_option upstream_model model (alias model).
Definition unpriced_under_budget (model : bytes) : bool := cr_budgeted cr && negb (priced_model model).
Definition allowed (model provider_id : bytes) : bool := policy_allows (cr_governance cr) (cr_controls cr) model provider_id.

(** ** The breaker's credential *)

(** [Credential::byok] and [OwnerTag::of]; the tenant is its text. *)
Definition credential_of (provider_id label : bytes) : Credential :=
  Byok (firstn 8 (blake3 (lit "breaker-credential:" ++ cr_tenant cr ++ lit "|" ++ provider_id ++ lit "|" ++ label))).

Definition owner_tag : OwnerTag := firstn 16 (blake3 (lit "breaker-owner:" ++ cr_tenant cr)).

(** [breaker_cred], with [breaker_cred_with] and [tune]. *)
Definition breaker_cred (provider_id label : bytes) (w : W) : Cred * W :=
  let '(cell, w) := fresh_cell w in
  if env_keys || bool_decide (env_of provider_id = [])
  then ({| cred_id := Env; cred_owner := None; cred_tuning := None; deadline_scoped := false; observed := cell |}, w)
  else ({| cred_id := credential_of provider_id label; cred_owner := Some (owner_tag, label);
           cred_tuning := (λ b, {| tu_consecutive_failure_threshold := bo_consecutive_failures b;
                                   tu_cooldown := secs (bo_cooldown_secs b) |}) <$> (routing_doc (cr_routing cr) ≫= breaker);
           deadline_scoped := false; observed := cell |}, w).

Definition breaker_allow (provider region : bytes) (cred : Cred) (w : W) : bool * W :=
  let '(now, w) := instant w in
  let '(now0, w) := instant w in
  let '(b, cb) := CircuitBreaker.allow breaker_config provider region cred now now0 (cb_of w) in
  (b, with_cb cb w).

Definition breaker_would_allow (provider region : bytes) (cred : Cred) (w : W) : bool * W :=
  let '(now, w) := instant w in
  let '(b, cb) := would_allow breaker_config provider region cred now (cb_of w) in
  (b, with_cb cb w).

(** [record_legacy]: a transport under a workspace's deadline has recorded already. *)
Definition record_legacy (provider region : bytes) (cred : Cred) (outcome : Outcome) (model : bytes) (w : W) : W :=
  if negb (cr_entitled cr) || bool_decide (resolve_phases (cr_routing cr) (provider_id_from_name provider) model = no_phases)
  then let '(now0, w) := instant w in
       let '(now, w) := instant w in
       with_cb (CircuitBreaker.record breaker_config provider region cred outcome now0 now (cb_of w)) w
  else w.

(** ** One dispatch *)

Definition unroutable_error : DispatchError :=
  {| de_text := lit "unroutable model"; de_denied := None; de_credential_derived := false; de_http := None; de_timeout := None;
     de_reqwest := [] |}.

Definition has_adapter (provider_id : bytes) : bool :=
  bool_decide (provider_id ∈ NATIVE_PREFIXES.*1) || bool_decide (is_Some (by_id catalog provider_id)).

(** [dispatch_to_provider]: the adapter of the model's provider, which sends the model the
    request carries. *)
Definition dispatch_to_provider (model wire_model label key : bytes) (w : W) : result A DispatchError * W :=
  match pid_of model with
  | None => (Err unroutable_error, w)
  | Some provider_id => if has_adapter provider_id then adapter_chat provider_id wire_model label key w else (Err unroutable_error, w)
  end.

Definition timed_attempt (model wire_model label key : bytes) (w : W) : result A DispatchError * Z * W :=
  let '(started, w) := instant w in
  let '(r, w) := dispatch_to_provider model wire_model label key w in
  let '(ended, w) := instant w in
  (r, Z.max 0 (ended - started), w).

Definition dispatch_with_retry (provider model wire_model label key : bytes) (policy : RetryPolicy) (w : W) : option (RetryRun A * W) :=
  retry_loop policy (FAILOVER_BUDGET_MS * 1000000) provider model (timed_attempt model wire_model label key) w.

(** A call of the retry loop: where to, with which key, the world when the target and
    when its breaker were judged, and what came of it. *)
Record Sent := {
  se_provider : bytes;
  se_provider_id : bytes;
  se_model : bytes;
  se_wire_model : bytes;
  se_label : bytes;
  se_key : bytes;
  se_judged : W;
  se_run : RetryRun A;
}.

(** ** The state of the walk *)

(** [wk_budget] is the [usize] of the attempts left; [wk_stats] the latencies noted. *)
Record Walk := {
  wk_result : result A DispatchError;
  wk_ledger : list DispatchAttempt;
  wk_budget : Z;
  wk_model : bytes;
  wk_failover_from : option bytes;
  wk_target_index : option nat;
  wk_key_label : option bytes;
  wk_stats : list (bytes * bytes);
  wk_sent : list Sent;
}.

Definition note (ledger : list DispatchAttempt) (wk : Walk) : Walk :=
  {| wk_result := wk_result wk; wk_ledger := ledger; wk_budget := wk_budget wk; wk_model := wk_model wk;
     wk_failover_from := wk_failover_from wk; wk_target_index := wk_target_index wk; wk_key_label := wk_key_label wk;
     wk_stats := wk_stats wk; wk_sent := wk_sent wk |}.

Definition skip (a : DispatchAttempt) (wk : Walk) : Walk := note (extend_dispatch_attempts (wk_ledger wk) [a]) wk.

Definition set_result (r : result A DispatchError) (wk : Walk) : Walk :=
  {| wk_result := r; wk_ledger := wk_ledger wk; wk_budget := wk_budget wk; wk_model := wk_model wk;
     wk_failover_from := wk_failover_from wk; wk_target_index := wk_target_index wk; wk_key_label := wk_key_label wk;
     wk_stats := wk_stats wk; wk_sent := wk_sent wk |}.

Definition set_key_label (l : option bytes) (wk : Walk) : Walk :=
  {| wk_result := wk_result wk; wk_ledger := wk_ledger wk; wk_budget := wk_budget wk; wk_model := wk_model wk;
     wk_failover_from := wk_failover_from wk; wk_target_index := wk_target_index wk; wk_key_label := l;
     wk_stats := wk_stats wk; wk_sent := wk_sent wk |}.

(** One admitted dispatch: the budget, the retry loop, the ledger, the breaker and the
    latency. *)
Definition send (routed : bool) (provider provider_id region model wire_model label key : bytes) (stamped : bool) (cred : Cred) (judged : W)
    (wk : Walk) (w : W) : option (result A DispatchError * Walk * W) :=
  match dispatch_with_retry provider model wire_model label key (retry_policy operator routed) w with
  | None => None
  | Some (run, w) =>
      let ledger := extend_dispatch_attempts (wk_ledger wk) (label_attempts (rr_ledger run) stamped label) in
      let w := match breaker_outcome (rr_result run) with
               | Some o => record_legacy provider region cred o model w
               | None => w
               end in
      let wk := {| wk_result := wk_result wk; wk_ledger := ledger; wk_budget := sat_sub (wk_budget wk) 1; wk_model := wk_model wk;
                   wk_failover_from := wk_failover_from wk; wk_target_index := wk_target_index wk; wk_key_label := wk_key_label wk;
                   wk_stats := match rr_result run with Ok _ => wk_stats wk ++ [(provider_id, wire_model)] | Err _ => wk_stats wk end;
                   wk_sent := wk_sent wk ++ [{| se_provider := provider; se_provider_id := provider_id; se_model := model; se_wire_model := wire_model;
                                                se_label := label; se_key := key; se_judged := judged; se_run := run |}] |} in
      Some (rr_result run, wk, w)
  end.

Definition key_failed (r : result A DispatchError) : bool := match r with Err e => is_key_failure e | Ok _ => false end.

(** ** The other keys of the pool *)

Fixpoint rotate_keys (fuel : nat) (routed : bool) (provider_id region model : bytes) (cursor : KeyCursor) (wk : Walk) (w : W)
    : option (Walk * W) :=
  match fuel with
  | O => None
  | S fuel =>
      if negb (key_failed (wk_result wk)) || (wk_budget wk =? 0) then Some (wk, w) else
      let judged := w in
      match next_key key_looks provider_id (env_of provider_id) cursor w with
      | (None, _, w) => Some (wk, w)
      | (Some (label, key), cursor, w) =>
          let upstream := family model in
          let '(cred, w) := breaker_cred provider_id label w in
          match breaker_allow upstream region cred w with
          | (false, w) =>
              rotate_keys fuel routed provider_id region model cursor
                (skip (with_label label (skipped_failover_attempt upstream model "breaker_open")) wk) w
          | (true, w) =>
              match send routed upstream provider_id region model (wire_of model) label key true cred judged wk w with
              | None => None
              | Some (r, wk, w) =>
                  let wk := match r with Ok _ => set_key_label (Some label) wk | Err _ => wk end in
                  rotate_keys fuel routed provider_id region model cursor (set_result r wk) w
              end
          end
      end
  end.

(** ** A failover hop *)

Record Hop := { hop_provider : bytes; hop_model : bytes; hop_target : option nat }.

Definition hops (primary_model : bytes) (plan_rest : list Candidate) : list Hop :=
  ((λ c, {| hop_provider := family (c_model c); hop_model := c_model c; hop_target := Some (c_target_index c) |}) <$> plan_rest)
  ++ (if cr_cross_provider cr
      then (λ pm, {| hop_provider := pm.1; hop_model := pm.2; hop_target := None |})
             <$> candidates_for pid_of (family primary_model) (cr_workspace_models cr) operator
      else []).

(** The checks before a key is looked up: the provider, or why the hop is skipped. *)
Definition hop_check (h : Hop) (w : W) : result bytes string :=
  if unpriced_under_budget (hop_model h) then Err "unpriced_under_budget"%string
  else if cr_zdr_required cr && negb (eligible (zdr_table w) (hop_provider h)) then Err "zdr_ineligible"%string
  else if provider_killed (kill_switch w) (hop_provider h) then Err "killed"%string
  else match pid_of (hop_model h) with
       | None => Err "unroutable"%string
       | Some provider_id =>
           if negb (allowed (hop_model h) provider_id) then Err "policy_denied"%string
           else if negb (cr_supported cr provider_id (hop_model h)) then Err "unsupported_request"%string
           else Ok provider_id
       end.

(** What the keys of a hop came to: its cursor, whether one was usable, and the last
    label and result. *)
Record HopKeys := { hk_cursor : KeyCursor; hk_keyed : bool; hk_last : option (bytes * result A DispatchError) }.

Fixpoint hop_keys (fuel : nat) (routed : bool) (h : Hop) (provider_id : bytes) (is_pooled : bool) (judged : W) (st : HopKeys)
    (wk : Walk) (w : W) : option (HopKeys * Walk * W) :=
  match fuel with
  | O => None
  | S fuel =>
      if wk_budget wk =? 0 then Some (st, wk, w) else
      match next_key key_looks provider_id (env_of provider_id) (hk_cursor st) w with
      | (None, cursor, w) => Some ({| hk_cursor := cursor; hk_keyed := hk_keyed st; hk_last := hk_last st |}, wk, w)
      | (Some (label, key), cursor, w) =>
          if bool_decide (key = [])
          then hop_keys fuel routed h provider_id is_pooled judged {| hk_cursor := cursor; hk_keyed := hk_keyed st; hk_last := hk_last st |} wk w
          else
            let region := upstream_region regions provider_id in
            let '(cred, w) := breaker_cred provider_id label w in
            match breaker_allow (hop_provider h) region cred w with
            | (false, w) =>
                let a := skipped_failover_attempt (hop_provider h) (hop_model h) "breaker_open" in
                hop_keys fuel routed h provider_id is_pooled judged {| hk_cursor := cursor; hk_keyed := true; hk_last := hk_last st |}
                  (skip (if is_pooled then with_label label a else a) wk) w
            | (true, w) =>
                match send routed (hop_provider h) provider_id region (hop_model h) (hop_model h) label key is_pooled cred judged wk w with
                | None => None
                | Some (r, wk, w) =>
                    let st := {| hk_cursor := cursor; hk_keyed := true; hk_last := Some (label, r) |} in
                    if key_failed r && has_more cursor
                    then hop_keys fuel routed h provider_id is_pooled judged st wk w
                    else Some (st, wk, w)
                end
            end
      end
  end.

(** How the walk ends: served or spent, or refused by the customer's key service. *)
Inductive WalkEnd : Type := Walked (wk : Walk) | KmsRefused (k : ProviderKey) (provider_id : bytes) (wk : Walk).

(** A hop is skipped, refused, or sent with a result. *)
Inductive HopEnd : Type := HopSkipped (wk : Walk) | HopKms (k : ProviderKey) (provider_id : bytes) (wk : Walk)
  | HopSent (label : bytes) (is_pooled : bool) (r : result A DispatchError) (wk : Walk).

Definition try_hop (routed : bool) (h : Hop) (wk : Walk) (w : W) : option (HopEnd * W) :=
  match hop_check h w with
  | Err reason => Some (HopSkipped (skip (skipped_failover_attempt (hop_provider h) (hop_model h) reason) wk), w)
  | Ok provider_id =>
      let judged := w in
      let '(rng, w) := thread_rng w in
      let pool := pool_labels route_limits CHAT_ROUTING (cr_routing cr) provider_id rng in
      match hop_keys (S (length (labels pool))) routed h provider_id (pooled pool) judged
              {| hk_cursor := new_cursor (labels pool); hk_keyed := false; hk_last := None |} wk w with
      | None => None
      | Some (st, wk, w) =>
          if negb (hk_keyed st) then
            match into_failure (hk_cursor st) with
            | (KmsUnavailable | KmsDenied) as k => Some (HopKms k provider_id wk, w)
            | _ => Some (HopSkipped (skip (skipped_failover_attempt (hop_provider h) (hop_model h) "no_byok_key") wk), w)
            end
          else
            match hk_last st with
            | None => Some (HopSkipped wk, w)
            | Some (label, r) => Some (HopSent label (pooled pool) r wk, w)
            end
      end
  end.

(** The hop that served is the request's from then on. *)
Definition served_by (h : Hop) (primary_family label : bytes) (is_pooled : bool) (r : result A DispatchError) (wk : Walk) : Walk :=
  {| wk_result := r; wk_ledger := wk_ledger wk; wk_budget := wk_budget wk; wk_model := hop_model h;
     wk_failover_from := Some primary_family;
     wk_target_index := match hop_target h with Some i => Some i | None => wk_target_index wk end;
     wk_key_label := if is_pooled then Some label else None; wk_stats := wk_stats wk; wk_sent := wk_sent wk |}.

Fixpoint walk_hops (routed : bool) (primary_family : bytes) (l : list Hop) (wk : Walk) (w : W) : option (WalkEnd * W) :=
  match l with
  | [] => Some (Walked wk, w)
  | h :: l =>
      if wk_budget wk =? 0 then Some (Walked wk, w) else
      match try_hop routed h wk w with
      | None => None
      | Some (HopSkipped wk, w) => walk_hops routed primary_family l wk w
      | Some (HopKms k provider_id wk, w) => Some (KmsRefused k provider_id wk, w)
      | Some (HopSent label is_pooled r wk, w) =>
          match r with
          | Ok _ => Some (Walked (served_by h primary_family label is_pooled r wk), w)
          | Err _ => walk_hops routed primary_family l (set_result r wk) w
          end
      end
  end.
(** ** The first candidate of a routed request *)

Record RoutedKey := { rk_label : bytes; rk_key : bytes; rk_cursor : KeyCursor; rk_pooled : bool }.
Record CandidateSkip := { cs_attempts : list DispatchAttempt; cs_lookup_failed : bool }.

(** The first key whose breaker would admit the call; else the skips and the spent cursor. *)
Fixpoint admitted_key (fuel : nat) (fam provider_id model : bytes) (is_pooled : bool) (cursor : KeyCursor) (skips : list DispatchAttempt)
    (w : W) : option (result RoutedKey (list DispatchAttempt * KeyCursor) * W) :=
  match fuel with
  | O => None
  | S fuel =>
      match next_key key_looks provider_id (env_of provider_id) cursor w with
      | (None, cursor, w) => Some (Err (skips, cursor), w)
      | (Some (label, key), cursor, w) =>
          let '(cred, w) := breaker_cred provider_id label w in
          match breaker_would_allow fam (upstream_region regions provider_id) cred w with
          | (true, w) => Some (Ok {| rk_label := label; rk_key := key; rk_cursor := cursor; rk_pooled := is_pooled |}, w)
          | (false, w) =>
              let a := skipped_failover_attempt fam model "breaker_open" in
              admitted_key fuel fam provider_id model is_pooled cursor (skips ++ [if is_pooled then with_label label a else a]) w
          end
      end
  end.

(** Why a candidate may not be tried at all. *)
Definition candidate_refusal (c : Candidate) (w : W) : option string :=
  if provider_killed (kill_switch w) (family (c_model c)) then Some "killed"%string
  else if cr_zdr_required cr && negb (eligible (zdr_table w) (c_provider c)) then Some "zdr_ineligible"%string
  else if negb (allowed (c_model c) (c_provider c)) then Some "policy_denied"%string
  else if unpriced_under_budget (c_model c) then Some "unpriced_under_budget"%string
  else if negb (cr_supported cr (c_provider c) (wire_of (c_model c))) then Some "unsupported_request"%string
  else None.

Definition select_candidate (c : Candidate) (w : W) : option (result RoutedKey CandidateSkip * W) :=
  let fam := family (c_model c) in
  match candidate_refusal c w with
  | Some reason => Some (Err {| cs_attempts := [skipped_failover_attempt fam (c_model c) reason]; cs_lookup_failed := false |}, w)
  | None =>
      let '(rng, w) := thread_rng w in
      let pool := pool_labels route_limits CHAT_ROUTING (cr_routing cr) (c_provider c) rng in
      match admitted_key (S (length (labels pool))) fam (c_provider c) (c_model c) (pooled pool) (new_cursor (labels pool)) [] w with
      | None => None
      | Some (Ok k, w) => Some (Ok k, w)
      | Some (Err ([], cursor), w) =>
          Some (Err {| cs_attempts := [skipped_failover_attempt fam (c_model c) "no_byok_key"];
                       cs_lookup_failed := bool_decide (into_failure cursor = LookupFailed) |}, w)
      | Some (Err (skips, _), w) => Some (Err {| cs_attempts := skips; cs_lookup_failed := false |}, w)
      end
  end.

(** The chosen candidate with its key, the ones after it, and the skips before it. *)
Record Selection := { sl_candidate : Candidate; sl_rest : list Candidate; sl_key : RoutedKey; sl_skips : list DispatchAttempt }.

Fixpoint select_route (l : list Candidate) (skips : list DispatchAttempt) (lookup_failed : bool) (w : W)
    : option (result Selection (list DispatchAttempt * bool) * W) :=
  match l with
  | [] => Some (Err (skips, lookup_failed), w)
  | c :: l =>
      match select_candidate c w with
      | None => None
      | Some (Ok k, w) => Some (Ok {| sl_candidate := c; sl_rest := l; sl_key := k; sl_skips := skips |}, w)
      | Some (Err s, w) => select_route l (skips ++ cs_attempts s) (lookup_failed || cs_lookup_failed s) w
      end
  end.

(** [routed_refusal]: the status and the code. *)
Definition routed_refusal (skips : list DispatchAttempt) (lookup_failed : bool) : Z * string :=
  let has r := existsb (λ a, bool_decide (da_reason a = Some (lit r))) skips in
  if has "policy_denied"%string then (403, "policy_model_denied"%string)
  else if has "unpriced_under_budget"%string then (402, "unpriced_under_budget"%string)
  else if has "zdr_ineligible"%string && negb (has "unsupported_request"%string) && negb (has "no_byok_key"%string)
          && negb (has "breaker_open"%string) && negb (has "killed"%string) then (400, "zdr_unsatisfiable"%string)
  else if has "zdr_ineligible"%string || has "unsupported_request"%string then (400, "unsupported_request"%string)
  else if has "no_byok_key"%string && lookup_failed then (503, "provider_key_unavailable"%string)
  else if has "no_byok_key"%string && negb (has "breaker_open"%string) && negb (has "killed"%string) then (400, "provider_not_configured"%string)
  else (503, "upstream_circuit_open"%string).

(** ** The zero-retention prune *)

(** A candidate of the failover chain the constraint leaves standing. *)
Definition zdr_candidate (caps : ZdrCapabilities) (pm : bytes * bytes) : option (bytes * bytes * bytes) :=
  if negb (eligible caps pm.1) then None
  else if unpriced_under_budget pm.2 then None
  else match pid_of pm.2 with
       | None => None
       | Some provider_id => if allowed pm.2 provider_id then Some (pm.1, pm.2, provider_id) else None
       end.

Record Target_ := { tt_model : bytes; tt_provider_id : bytes; tt_skip : option DispatchAttempt; tt_from : option bytes }.

Definition zdr_prune (model provider_id : bytes) (plan_rest : list Candidate) (w : W) : result Target_ string :=
  let stays := {| tt_model := model; tt_provider_id := provider_id; tt_skip := None; tt_from := None |} in
  if negb (cr_zdr_required cr) then Ok stays else
  let caps := zdr_table w in
  let primary_eligible := eligible caps provider_id in
  let standing := if cr_cross_provider cr
                  then omap (zdr_candidate caps) (candidates_for pid_of (family model) (cr_workspace_models cr) operator) else [] in
  let eligible_ := (if primary_eligible then [provider_id] else [])
                   ++ filter (λ p, eligible caps p = true) (c_provider <$> plan_rest) ++ ((λ s, s.1.1) <$> standing) in
  if bool_decide (eligible_ = []) then Err "zdr_unsatisfiable"%string
  else if primary_eligible then Ok stays
  else match head standing with
       | None => Ok stays
       | Some (_, fo_model, fo_pid) =>
           Ok {| tt_model := fo_model; tt_provider_id := fo_pid;
                 tt_skip := Some (skipped_failover_attempt provider_id model "zdr_ineligible"); tt_from := Some (family model) |}
       end.

(** ** The key the request is first sent with *)

(** A request routing did not touch: the first key, in a pool the first whose breaker
    would admit the call, else the first that was found. *)
Fixpoint pick_key (fuel : nat) (fam provider_id : bytes) (is_pooled : bool) (cursor : KeyCursor) (first_found : option (bytes * bytes)) (w : W)
    : option (result RoutedKey ProviderKey * W) :=
  match fuel with
  | O => None
  | S fuel =>
      match next_key key_looks provider_id (env_of provider_id) cursor w with
      | (None, cursor, w) =>
          Some (match first_found with
                | Some (label, key) => Ok {| rk_label := label; rk_key := key; rk_cursor := cursor; rk_pooled := is_pooled |}
                | None => Err (into_failure cursor)
                end, w)
      | (Some (label, key), cursor, w) =>
          let '(cred, w) := breaker_cred provider_id label w in
          let '(open_, w) := if is_pooled then breaker_would_allow fam (upstream_region regions provider_id) cred w else (true, w) in
          if open_ then Some (Ok {| rk_label := label; rk_key := key; rk_cursor := cursor; rk_pooled := is_pooled |}, w)
          else pick_key fuel fam provider_id is_pooled cursor (match first_found with None => Some (label, key) | f => f end) w
      end
  end.

Definition first_key (chosen : option RoutedKey) (model provider_id : bytes) (w : W) : option (result RoutedKey ProviderKey * W) :=
  match chosen with
  | Some k => Some (Ok k, w)
  | None =>
      let '(rng, w) := thread_rng w in
      let pool := pool_labels route_limits CHAT_ROUTING (cr_routing cr) provider_id rng in
      pick_key (S (length (labels pool))) (family model) provider_id (pooled pool) (new_cursor (labels pool)) None w
  end.

(** The status and the code of a request without a key. *)
Definition key_refusal (k : ProviderKey) : Z * string :=
  match k with
  | NotConfigured => (400, "provider_not_configured"%string)
  | LookupFailed => (503, "provider_key_unavailable"%string)
  | KmsUnavailable => (503, "kms_unavailable"%string)
  | KmsDenied => (403, "kms_access_denied"%string)
  | Unusable | Found _ => (502, "provider_key_unusable"%string)
  end.

(** ** The whole dispatch *)

Inductive ChatEnd : Type := Refused (status : Z) (code : string) (skips : list DispatchAttempt) | Ended (e : WalkEnd).

Definition set_budget (n : Z) (wk : Walk) : Walk :=
  {| wk_result := wk_result wk; wk_ledger := wk_ledger wk; wk_budget := n; wk_model := wk_model wk;
     wk_failover_from := wk_failover_from wk; wk_target_index := wk_target_index wk; wk_key_label := wk_key_label wk;
     wk_stats := wk_stats wk; wk_sent := wk_sent wk |}.

Definition is_denied (r : result A DispatchError) : bool :=
  match r with Err e => bool_decide (is_Some (de_denied e)) | Ok _ => false end.

(** After the primary was admitted: its dispatch, the keys of its pool, the hops. *)
Definition walk_from (routed : bool) (t : Target_) (target_index : option nat) (k : RoutedKey) (plan_rest : list Candidate)
    (skips : list DispatchAttempt) (cred : Cred) (judged w : W) : option (WalkEnd * W) :=
  let upstream := family (tt_model t) in
  let region := upstream_region regions (tt_provider_id t) in
  let ledger := extend_dispatch_attempts (extend_dispatch_attempts [] skips) (option_list (tt_skip t)) in
  let wk := {| wk_result := Err unroutable_error; wk_ledger := ledger; wk_budget := if routed then max_attempts else u64_max; wk_model := tt_model t;
               wk_failover_from := tt_from t; wk_target_index := target_index;
               wk_key_label := if rk_pooled k then Some (rk_label k) else None; wk_stats := []; wk_sent := [] |} in
  match send routed upstream (tt_provider_id t) region (tt_model t) (wire_of (tt_model t)) (rk_label k) (rk_key k) (rk_pooled k) cred judged wk w with
  | None => None
  | Some (r, wk, w) =>
      let wk := set_budget (if routed then sat_sub max_attempts 1 else u64_max) (set_result r wk) in
      match rotate_keys (S (length (kc_labels (rk_cursor k)))) routed (tt_provider_id t) region (tt_model t) (rk_cursor k) wk w with
      | None => None
      | Some (wk, w) =>
          match wk_result wk with
          | Err e =>
              if negb (is_denied (wk_result wk)) && (cr_cross_provider cr || negb (bool_decide (plan_rest = [])))
              then walk_hops routed upstream (hops (tt_model t) plan_rest) wk w
              else Some (Walked wk, w)
          | Ok _ => Some (Walked wk, w)
          end
      end
  end.

(** The kill switch and the breaker of the primary, then its walk. *)
Definition admit_primary (routed : bool) (t : Target_) (target_index : option nat) (k : RoutedKey) (plan_rest : list Candidate)
    (skips : list DispatchAttempt) (w : W) : option (ChatEnd * W) :=
  let upstream := family (tt_model t) in
  let '(cred, w) := breaker_cred (tt_provider_id t) (rk_label k) w in
  if provider_killed (kill_switch w) upstream then Some (Refused 503 "upstream_killed"%string skips, w) else
  let judged := w in
  match breaker_allow upstream (upstream_region regions (tt_provider_id t)) cred w with
  | (false, w) => Some (Refused 503 "upstream_circuit_open"%string skips, w)
  | (true, w) =>
      match walk_from routed t target_index k plan_rest skips cred judged w with
      | None => None
      | Some (e, w) => Some (Ended e, w)
      end
  end.

(** A chosen or requested model: its provider, the prune, its support, its key. *)
Definition dispatch_model (dispatching : bool) (model : bytes) (target_index : option nat) (chosen : option RoutedKey)
    (plan_rest : list Candidate) (skips : list DispatchAttempt) (w : W) : option (ChatEnd * W) :=
  match pid_of model with
  | None => Some (Refused 400 "unroutable_model"%string skips, w)
  | Some provider_id =>
      match zdr_prune model provider_id plan_rest w with
      | Err code => Some (Refused 400 code skips, w)
      | Ok t =>
          match cr_unsupported cr (tt_provider_id t) (wire_of (tt_model t)) with
          | Some code => Some (Refused 400 code skips, w)
          | None =>
              match first_key chosen (tt_model t) (tt_provider_id t) w with
              | None => None
              | Some (Err k, w) => Some (Refused (key_refusal k).1 (key_refusal k).2 skips, w)
              | Some (Ok k, w) => admit_primary (dispatching || rk_pooled k) t target_index k plan_rest skips w
              end
          end
      end
  end.

Definition skipped_attempts (p : RoutePlan) : list DispatchAttempt :=
  (λ s, skipped_failover_attempt (sk_provider s) (sk_model s) (match sk_reason s with unpriced => "unpriced" | unroutable => "unroutable" end)%string)
    <$> skipped p.

Definition chat_dispatch (model : bytes) (route_plan : option RoutePlan) (w : W) : option (ChatEnd * W) :=
  let skips := from_option skipped_attempts [] route_plan in
  match route_plan with
  | Some p =>
      if dispatches p then
        match select_route (candidates p) skips false w with
        | None => None
        | Some (Err (skips, lookup_failed), w) =>
            Some (Refused (routed_refusal skips lookup_failed).1 (routed_refusal skips lookup_failed).2 skips, w)
        | Some (Ok s, w) =>
            dispatch_model true (c_model (sl_candidate s)) (Some (c_target_index (sl_candidate s))) (Some (sl_key s)) (sl_rest s) (sl_skips s) w
        end
      else dispatch_model false model None None [] skips w
  | None => dispatch_model false model None None [] skips w
  end.
End chat.
