(* ===== verification/FailoverProofs.v ===== *)
(** * The dispatch of a chat request: theorems

    The dispatch always ends, and a routed request makes no more upstream attempts than
    its limit.  What is sent is sent to the primary, or to a hop that passed every check
    of the walk; another key of a pool is tried only after a key failure; nothing is sent
    after an answer, and a request that the live checks denied at its first target does not
    fail over. *)

From Stdlib Require Import ZArith Lia.
From stdpp Require Import base list option strings gmap.
From S2P Require Import Prelude Float64 Encoding Hash Network Catalog Pricing CircuitBreaker Glob KeyPolicy Controls Routing.
From S2P Require Import ResponseCache CacheServing Dispatch DispatchProofs Failover.
Local Open Scope Z_scope.

(** ** The ledger *)

Definition numbered (l : list DispatchAttempt) : Prop :=
  da_attempt <$> l = seqZ 0 (lenZ l) ∧ (length l ≤ MAX_DISPATCH_ATTEMPTS)%nat.

Lemma numbered_nil : numbered [].
Proof. split; [done|apply Nat.le_0_l]. Qed.

Lemma numbered_extend l new : numbered l → numbered (extend_dispatch_attempts l new).
Proof.
  revert l. induction new as [|a new IH]; intros l Hl; [done|]. cbn [extend_dispatch_attempts].
  destruct (Nat.leb_spec MAX_DISPATCH_ATTEMPTS (length l)) as [|Hlt]; [done|]. apply IH. destruct Hl as [Hn Hlen].
  pose proof (lenZ_nonneg l). unfold MAX_DISPATCH_ATTEMPTS in *. assert (lenZ l < 64) by (unfold lenZ; lia).
  split; [|rewrite length_app; unfold MAX_DISPATCH_ATTEMPTS; simpl; lia].
  rewrite fmap_app, Hn, lenZ_snoc, seqZ_snoc by lia. simpl. by rewrite Z.mod_small by lia.
Qed.

(** ** Cursors *)

Lemma next_key_shorter {W} (look : bytes → bytes → W → KeyLooks * W) p env failure cold ls w label key c w' :
  next_key_from look p env failure cold ls w = (Some (label, key), c, w') → (length (kc_labels c) < length ls)%nat ∧ label ∈ ls.
Proof.
  revert failure cold w. induction ls as [|l ls IH]; intros failure cold w; [done|]. simpl.
  destruct (look p l w) as [looks w1]. destruct (resolve_provider_key_labeled looks l env) as [k c1].
  destruct k; try (intros (? & ?)%IH; split; [lia|set_solver]). intros [= -> -> <- <-]. simpl. split; [lia|set_solver].
Qed.

(** A key that is handed out was resolved for the provider and the label, in some state of
    the key store. *)
Definition resolved {W} (look : bytes → bytes → W → KeyLooks * W) (provider_id env label key : bytes) : Prop :=
  ∃ w, (resolve_provider_key_labeled (look provider_id label w).1 label env).1 = Found key.

Lemma next_key_resolved {W} (look : bytes → bytes → W → KeyLooks * W) p env failure cold ls w label key c w' :
  next_key_from look p env failure cold ls w = (Some (label, key), c, w') → resolved look p env label key.
Proof.
  revert failure cold w. induction ls as [|l ls IH]; intros failure cold w; [done|]. simpl.
  destruct (look p l w) as [looks w1] eqn:El. destruct (resolve_provider_key_labeled looks l env) as [k c1] eqn:Ek.
  destruct k; try apply IH. intros [= -> -> <- <-]. exists w. rewrite El. cbn [fst]. by rewrite Ek.
Qed.

Section chat.
Context `{Registry} `{Blake3Fn} {W A : Type} `{ChatWorld W A}.
Variable catalog : Catalog.
Variable alias : bytes → option ModelAlias.
Variable regions : Regions.
Variable breaker_config : BreakerConfig.
Variable priced_model : bytes → bool.
Variable env_keys : bool.
Variable operator : option FailoverConfig.
Variable route_limits : RouteLimits.
Variable max_attempts : Z.
Variable cr : ChatCall.

(** The random source draws a [u64], and a hint of the upstream is a duration. *)
Definition upstream_ok : Prop :=
  (∀ w, is_u64 (random_u64 w).1) ∧
  ∀ p m l k w err asked, (adapter_chat p m l k w).1 = Err err → de_http err ≫= he_retry_after = Some asked → 0 ≤ asked.

Hypothesis upstream : upstream_ok.
Hypothesis policy : 0 ≤ retries (failover_retry_policy operator) ∧ 0 ≤ backoff_ms (failover_retry_policy operator).
Variable routed : bool.

Local Notation Sent := (Sent (W:=W) (A:=A)).
Local Notation Walk := (Walk (W:=W) (A:=A)).

Definition one_attempt (s : Sent) : Prop := lenZ (rr_ledger (se_run s)) = 1.

Lemma dispatch_with_retry_ok provider model wire_model label key w :
  ∃ run w', dispatch_with_retry catalog alias provider model wire_model label key (retry_policy operator routed) w = Some (run, w') ∧
    (routed = true → lenZ (rr_ledger run) = 1).
Proof.
  destruct upstream as [Hr Hh]. unfold dispatch_with_retry.
  destruct (retry_run_ok (retry_policy operator routed) (FAILOVER_BUDGET_MS * 1000000) provider model
    (timed_attempt catalog alias model wire_model label key)) with (w := w) as (run & w' & Hrun & Hlen & _).
  - unfold retry_policy. destruct policy. by destruct routed.
  - by unfold FAILOVER_BUDGET_MS, u64_max.
  - done.
  - intros w0 err asked. unfold timed_attempt, dispatch_to_provider. destruct (instant w0) as [? w1].
    destruct (pid_of catalog alias model) as [p|]; [|destruct (instant w1); simpl; by intros [= <-]].
    destruct (has_adapter catalog p); [|destruct (instant w1); simpl; by intros [= <-]].
    destruct (adapter_chat p wire_model label key w1) as [r w2] eqn:Ea. destruct (instant w2). simpl. intros ->. apply (Hh p wire_model label key w1). by rewrite Ea.
  - exists run, w'. split; [done|]. intros Hrt. unfold retry_policy in Hlen. rewrite Hrt in Hlen. simpl in Hlen. lia.
Qed.

(** ** Growth of a walk *)

(** The dispatches made between two states; the budget pays for them. *)
Definition grows (Q : Sent → Prop) (wk wk' : Walk) (hs : list Sent) : Prop :=
  wk_sent wk' = wk_sent wk ++ hs ∧ Forall Q hs ∧ (routed = true → Forall one_attempt hs) ∧
  0 ≤ wk_budget wk' ∧ lenZ hs + wk_budget wk' ≤ wk_budget wk ∧ (numbered (wk_ledger wk) → numbered (wk_ledger wk')).

Lemma grows_refl Q wk : 0 ≤ wk_budget wk → grows Q wk wk [].
Proof. intros Hb. unfold grows. rewrite app_nil_r. by split_and!. Qed.

Lemma grows_trans Q wk1 wk2 wk3 h1 h2 : grows Q wk1 wk2 h1 → grows Q wk2 wk3 h2 → grows Q wk1 wk3 (h1 ++ h2).
Proof.
  intros (S1 & Q1 & O1 & B1 & L1 & N1) (S2 & Q2 & O2 & B2 & L2 & N2). unfold grows. rewrite S2, S1, app_assoc, lenZ_app.
  split_and!; [done|by apply Forall_app|intros Hr; apply Forall_app; auto|done|lia|auto].
Qed.

(** A state whose dispatches, ledger and budget are another's. *)
Lemma grows_same Q wk wk1 wk2 hs :
  grows Q wk wk1 hs → wk_sent wk2 = wk_sent wk1 → wk_budget wk2 = wk_budget wk1 → wk_ledger wk2 = wk_ledger wk1 → grows Q wk wk2 hs.
Proof. intros (? & ? & ? & ? & ? & ?) Es Eb El. unfold grows. rewrite Es, Eb, El. done. Qed.

Lemma grows_skip Q wk a : 0 ≤ wk_budget wk → grows Q wk (skip a wk) [].
Proof.
  intros. destruct (grows_refl Q wk) as (? & ? & ? & ? & ? & _); [done|]. unfold grows, skip, note in *. cbn [wk_sent wk_budget wk_ledger].
  split_and!; try done. apply numbered_extend.
Qed.

Lemma grows_Forall Q Q' wk wk' hs : (∀ s, Q s → Q' s) → grows Q wk wk' hs → grows Q' wk wk' hs.
Proof. intros HQ (? & ? & ? & ? & ? & ?). unfold grows. split_and!; try done. by eapply Forall_impl. Qed.

(** One dispatch. *)
Lemma send_ok provider provider_id region model wire_model label key stamped cred judged wk w :
  0 < wk_budget wk →
  ∃ s wk' w', send catalog alias breaker_config operator cr routed provider provider_id region model wire_model label key stamped cred judged wk w
                = Some (rr_result (se_run s), wk', w') ∧
    grows (λ s', s' = s) wk wk' [s] ∧ wk_result wk' = wk_result wk ∧ wk_model wk' = wk_model wk ∧
    se_provider s = provider ∧ se_provider_id s = provider_id ∧ se_model s = model ∧ se_judged s = judged ∧
    se_label s = label ∧ se_key s = key.
Proof.
  intros Hb. unfold send. destruct (dispatch_with_retry_ok provider model wire_model label key w) as (run & w1 & -> & Hone).
  set (s := {| se_provider := provider; se_provider_id := provider_id; se_model := model; se_wire_model := wire_model; se_label := label; se_key := key;
               se_judged := judged; se_run := run |}).
  exists s. do 2 eexists. split; [reflexivity|]. cbn [wk_result wk_model]. split; [|done].
  unfold grows. cbn [wk_sent wk_budget wk_ledger]. unfold sat_sub. split_and!; try done.
  - by apply Forall_singleton.
  - intros Hr. apply Forall_singleton. by apply Hone.
  - lia.
  - unfold lenZ. simpl. lia.
  - apply numbered_extend.
Qed.

(** ** The order of the dispatches *)

Definition result_of (s : Sent) : result A DispatchError := rr_result (se_run s).
Definition last_result (r : result A DispatchError) (hs : list Sent) : result A DispatchError := foldl (λ _ s, result_of s) r hs.

(** Each dispatch came after a result of kind [K]. *)
Fixpoint each_after (K : result A DispatchError → Prop) (r : result A DispatchError) (hs : list Sent) : Prop :=
  match hs with [] => True | s :: hs => K r ∧ each_after K (result_of s) hs end.

Definition is_failed (r : result A DispatchError) : Prop := ∃ e, r = Err e.

Lemma last_result_app r h1 h2 : last_result r (h1 ++ h2) = last_result (last_result r h1) h2.
Proof. apply foldl_app. Qed.

Lemma each_after_app K r h1 h2 : each_after K r h1 → each_after K (last_result r h1) h2 → each_after K r (h1 ++ h2).
Proof. revert r. induction h1 as [|s h1 IH]; intros r; [done|]. simpl. intros [? ?] ?. auto. Qed.

Lemma each_after_impl (K K' : _ → Prop) r hs : (∀ r, K r → K' r) → each_after K r hs → each_after K' r hs.
Proof. intros HK. revert r. induction hs as [|s hs IH]; intros r; [done|]. simpl. intros [? ?]. auto. Qed.

Lemma key_failed_failed r : key_failed r = true → is_failed r.
Proof. destruct r; [done|]. by eexists. Qed.

(** Nothing is sent after an answer. *)
Lemma each_after_init r hs : each_after is_failed r hs → hs = [] ∨ ∃ init s, hs = init ++ [s] ∧ Forall (λ s, is_failed (result_of s)) init ∧ last_result r hs = result_of s.
Proof.
  revert r. induction hs as [|s hs IH]; intros r; [by left|]. simpl. intros [Hr He]. right. destruct (IH _ He) as [->|(init & t & -> & Hf & Hl)].
  - by exists [], s.
  - exists (s :: init), t. split_and!; [done| |done]. constructor; [|done].
    destruct init as [|u init]; simpl in He; [by destruct He|by destruct He].
Qed.

(** ** The keys of the primary's pool *)

Definition to_primary (model provider_id : bytes) (s : Sent) : Prop :=
  se_model s = model ∧ se_provider_id s = provider_id ∧ se_provider s = family catalog alias model.

(** The call carries a key that was resolved for the provider. *)
Definition key_for (provider_id : bytes) (s : Sent) : Prop :=
  resolved key_looks provider_id (env_of catalog provider_id) (se_label s) (se_key s).

Lemma rotate_keys_ok fuel provider_id region model cursor wk w :
  0 ≤ wk_budget wk → (length (kc_labels cursor) < fuel)%nat →
  ∃ wk' w' hs, rotate_keys catalog alias breaker_config env_keys operator cr fuel routed provider_id region model cursor wk w = Some (wk', w') ∧
    grows (λ s, to_primary model provider_id s ∧ key_for provider_id s) wk wk' hs ∧ each_after (λ r, key_failed r = true) (wk_result wk) hs ∧
    wk_result wk' = last_result (wk_result wk) hs ∧ wk_model wk' = wk_model wk.
Proof.
  revert cursor wk w. induction fuel as [|fuel IH]; intros cursor wk w Hb Hf; [lia|]. cbn [rotate_keys].
  destruct (key_failed (wk_result wk)) eqn:Hk; [|exists wk, w, []; split_and!; try done; by apply grows_refl].
  destruct (Z.eqb_spec (wk_budget wk) 0) as [|Hb0]; [exists wk, w, []; split_and!; try done; by apply grows_refl|]. cbn [negb orb].
  destruct (next_key key_looks provider_id (env_of catalog provider_id) cursor w) as [[[[label key]|] c1] w1] eqn:Hn;
    [|exists wk, w1, []; split_and!; try done; by apply grows_refl].
  pose proof (next_key_resolved _ _ _ _ _ _ _ _ _ _ _ Hn) as Hkey. apply next_key_shorter in Hn as [Hlt _].
  destruct (breaker_cred catalog env_keys cr provider_id label w1) as [cred w2].
  destruct (breaker_allow breaker_config _ region cred w2) as [[] w3].
  - destruct (send_ok (family catalog alias model) provider_id region model (wire_of alias model) label key true cred w wk w3) as (s & wk1 & w4 & -> & Hg & Hres & Hm & Hs); [lia|].
    set (wk2 := set_result (rr_result (se_run s)) _).
    assert (grows (λ s, to_primary model provider_id s ∧ key_for provider_id s) wk wk2 [s]) as Hg2.
    { eapply grows_same; [eapply grows_Forall; [|exact Hg]|unfold wk2; by destruct (rr_result (se_run s))..].
      intros ? ->. unfold to_primary, key_for. by destruct Hs as (-> & -> & -> & _ & -> & ->). }
    destruct (IH c1 wk2 w4) as (wk' & w' & hs & -> & Hg' & He & Hl & Hm'); [apply Hg2|lia|].
    exists wk', w', (s :: hs). split_and!; [done|exact (grows_trans _ _ _ _ _ _ Hg2 Hg')| | |].
    + simpl. split; [done|]. exact He.
    + done.
    + rewrite Hm'. unfold wk2. destruct (rr_result (se_run s)); done.
  - destruct (IH c1 (skip (with_label label (skipped_failover_attempt (family catalog alias model) model "breaker_open")) wk) w3)
      as (wk' & w' & hs & -> & Hg' & He & Hl & Hm'); [done|lia|].
    exists wk', w', hs. split_and!; try done. exact (grows_trans _ _ _ _ _ _ (grows_skip _ _ _ Hb) Hg').
Qed.

(** ** A hop *)

Definition to_hop (h : Hop) (s : Sent) : Prop :=
  hop_check catalog alias priced_model cr h (se_judged s) = Ok (se_provider_id s) ∧ se_provider s = hop_provider h ∧ se_model s = hop_model h ∧
  key_for (se_provider_id s) s.

(** The result a hop has come to. *)
Definition current (st : HopKeys (A:=A)) (wk : Walk) : result A DispatchError :=
  match hk_last st with Some (_, r) => r | None => wk_result wk end.

Lemma hop_keys_ok fuel h provider_id is_pooled judged st wk w :
  0 ≤ wk_budget wk → (length (kc_labels (hk_cursor st)) < fuel)%nat → is_failed (current st wk) →
  (is_Some (hk_last st) → hk_keyed st = true) → hop_check catalog alias priced_model cr h judged = Ok provider_id →
  ∃ st' wk' w' hs, hop_keys catalog alias regions breaker_config env_keys operator cr fuel routed h provider_id is_pooled judged st wk w
                     = Some (st', wk', w') ∧
    grows (to_hop h) wk wk' hs ∧ each_after is_failed (current st wk) hs ∧ current st' wk' = last_result (current st wk) hs ∧
    wk_result wk' = wk_result wk ∧ wk_model wk' = wk_model wk ∧ (is_Some (hk_last st') → hk_keyed st' = true) ∧
    (hs = [] ∧ hk_last st' = hk_last st ∨ is_Some (hk_last st')).
Proof.
  intros Hb Hf Hc Hkd Hchk. revert st wk w Hb Hf Hc Hkd.
  induction fuel as [|fuel IH]; intros st wk w Hb Hf Hc Hkd; [lia|]. cbn [hop_keys].
  destruct (Z.eqb_spec (wk_budget wk) 0) as [|Hb0]; [exists st, wk, w, []; split_and!; try done; [by apply grows_refl|by left]|].
  destruct (next_key key_looks provider_id (env_of catalog provider_id) (hk_cursor st) w) as [[[[label key]|] c1] w1] eqn:Hn;
    [|eexists _, wk, w1, []; split_and!; try done; [by apply grows_refl|by left]].
  pose proof (next_key_resolved _ _ _ _ _ _ _ _ _ _ _ Hn) as Hkey. apply next_key_shorter in Hn as [Hlt _].
  case_bool_decide as Hempty.
  { destruct (IH {| hk_cursor := c1; hk_keyed := hk_keyed st; hk_last := hk_last st |} wk w1) as (st' & wk' & w' & hs & -> & Hrest); try done; [simpl; lia|].
    by exists st', wk', w', hs. }
  destruct (breaker_cred catalog env_keys cr provider_id label w1) as [cred w2].
  destruct (breaker_allow breaker_config _ _ cred w2) as [[] w3].
  - destruct (send_ok (hop_provider h) provider_id (upstream_region regions provider_id) (hop_model h) (hop_model h) label key is_pooled cred judged wk w3)
      as (s & wk1 & w4 & -> & Hg & Hres & Hm & Hp & Hpid & Hmod & Hj & Hlab & Hk); [lia|].
    assert (grows (to_hop h) wk wk1 [s]) as Hg1.
    { eapply grows_Forall; [|exact Hg]. intros ? ->. unfold to_hop, key_for. by rewrite Hj, Hpid, Hlab, Hk. }
    destruct (key_failed (rr_result (se_run s)) && has_more c1) eqn:Hmore.
    + apply andb_prop in Hmore as [Hkf _].
      destruct (IH {| hk_cursor := c1; hk_keyed := true; hk_last := Some (label, rr_result (se_run s)) |} wk1 w4)
        as (st' & wk' & w' & hs & -> & Hg' & He & Hl & Hr & Hm' & Hkd' & Hlast); [apply Hg1|simpl; lia|by apply key_failed_failed|done|].
      exists st', wk', w', (s :: hs). split_and!; try done; [exact (grows_trans _ _ _ _ _ _ Hg1 Hg')|by rewrite Hr|by rewrite Hm'|].
      right. destruct Hlast as [[_ ->]|]; [by eexists|done].
    + eexists _, wk1, w4, [s]. split_and!; try done. right. by eexists.
  - set (wk1 := skip _ wk). destruct (IH {| hk_cursor := c1; hk_keyed := true; hk_last := hk_last st |} wk1 w3)
      as (st' & wk' & w' & hs & -> & Hg' & Hrest); [done|simpl; lia|done|done|].
    exists st', wk', w', hs. split_and!; [done|exact (grows_trans _ _ _ _ _ _ (grows_skip _ _ _ Hb) Hg')|apply Hrest..].
Qed.

Definition hop_end_walk (e : HopEnd) : Walk :=
  match e with HopSkipped wk | HopKms _ _ wk | HopSent _ _ _ wk => wk end.

Lemma try_hop_ok h wk w :
  0 ≤ wk_budget wk → is_failed (wk_result wk) →
  ∃ e w' hs, try_hop catalog alias regions breaker_config priced_model env_keys operator route_limits cr routed h wk w = Some (e, w') ∧
    grows (to_hop h) wk (hop_end_walk e) hs ∧ each_after is_failed (wk_result wk) hs ∧
    wk_result (hop_end_walk e) = wk_result wk ∧ wk_model (hop_end_walk e) = wk_model wk ∧
    match e with HopSent _ _ r _ => r = last_result (wk_result wk) hs ∧ (hs = [] → is_failed r) | _ => hs = [] end.
Proof.
  intros Hb Hf. unfold try_hop. destruct (hop_check catalog alias priced_model cr h w) as [provider_id|reason] eqn:Hc;
    [|eexists _, w, []; split_and!; try done; by apply grows_skip].
  destruct (thread_rng w) as [rng w1]. set (pool := pool_labels route_limits CHAT_ROUTING (cr_routing cr) provider_id rng).
  set (st0 := {| hk_cursor := new_cursor (labels pool); hk_keyed := false; hk_last := None |}).
  destruct (hop_keys_ok (S (length (labels pool))) h provider_id (pooled pool) w st0 wk w1)
    as (st & wk1 & w2 & hs & -> & Hg & He & Hl & Hr & Hm & Hkd & Hlast); [done|simpl; lia|done|by intros []|done|].
  change (current st0 wk) with (wk_result wk) in He, Hl. unfold current in Hl.
  destruct (hk_keyed st) eqn:Hkey; cbn [negb].
  - destruct (hk_last st) as [[label r]|] eqn:Hls.
    + exists (HopSent label (pooled pool) r wk1), w2, hs. split_and!; try done. intros ->. simpl in Hl. by subst r.
    + destruct Hlast as [[-> _]|[]]; [|done]. by exists (HopSkipped wk1), w2, [].
  - destruct Hlast as [[-> Hls]|Hls]; [|apply Hkd in Hls; done].
    assert (0 ≤ wk_budget wk1) as Hb1 by apply Hg.
    assert (∀ a, grows (to_hop h) wk (skip a wk1) []) as Hskip by (intros a; exact (grows_trans _ _ _ _ _ _ Hg (grows_skip _ _ a Hb1))).
    destruct (into_failure (hk_cursor st)); eexists _, w2, []; split_and!; try done; (apply Hskip || exact Hg).
Qed.

(** ** The hops in turn *)

Definition walk_end_walk (e : WalkEnd) : Walk := match e with Walked wk | KmsRefused _ _ wk => wk end.

(** An answer belongs to the model it is attributed to. *)
Definition attributed (wk : Walk) (hs : list Sent) : Prop :=
  match wk_result wk with Ok _ => ∃ init s, hs = init ++ [s] ∧ se_model s = wk_model wk | Err _ => True end.

Lemma walk_hops_ok primary_family l wk w :
  0 ≤ wk_budget wk → is_failed (wk_result wk) →
  ∃ e w' hs, walk_hops catalog alias regions breaker_config priced_model env_keys operator route_limits cr routed primary_family l wk w
               = Some (e, w') ∧
    grows (λ s, ∃ h, h ∈ l ∧ to_hop h s) wk (walk_end_walk e) hs ∧ each_after is_failed (wk_result wk) hs ∧
    wk_result (walk_end_walk e) = last_result (wk_result wk) hs ∧ attributed (walk_end_walk e) hs.
Proof.
  revert wk w. induction l as [|h l IH]; intros wk w Hb Hf; cbn [walk_hops].
  { exists (Walked wk), w, []. split_and!; try done; [by apply grows_refl|]. destruct Hf as [er Hf]. unfold attributed. simpl. by rewrite Hf. }
  destruct (Z.eqb_spec (wk_budget wk) 0).
  { exists (Walked wk), w, []. split_and!; try done; [by apply grows_refl|]. destruct Hf as [er Hf]. unfold attributed. simpl. by rewrite Hf. }
  destruct (try_hop_ok h wk w Hb Hf) as (e & w1 & hs & -> & Hg & He & Hr & Hm & Hend).
  assert (grows (λ s, ∃ h', h' ∈ h :: l ∧ to_hop h' s) wk (hop_end_walk e) hs) as Hg1
    by (eapply grows_Forall; [|exact Hg]; intros s Hs; exists h; split; [left|done]).
  assert (∀ wk1 wk2 hs', grows (λ s, ∃ h, h ∈ l ∧ to_hop h s) wk1 wk2 hs' → grows (λ s, ∃ h', h' ∈ h :: l ∧ to_hop h' s) wk1 wk2 hs') as Hcons.
  { intros wk1 wk2 hs'. apply grows_Forall. intros s (h' & Hin & Hs). exists h'. split; [by right|done]. }
  destruct e as [wk1|k p wk1|label is_pooled r wk1]; simpl in *.
  - subst hs. destruct (IH wk1 w1) as (e2 & w' & hs2 & -> & Hg' & He' & Hl & Hat); [apply Hg|by rewrite Hr|]. rewrite Hr in He', Hl.
    exists e2, w', hs2. split_and!; try done. exact (grows_trans _ _ _ _ _ _ Hg1 (Hcons _ _ _ Hg')).
  - subst hs. exists (KmsRefused k p wk1), w1, []. split_and!; try done. destruct Hf as [er Hf]. unfold attributed. simpl. by rewrite Hr, Hf.
  - destruct Hend as [Hlr Hnil]. destruct r as [a|er].
    + exists (Walked (served_by h primary_family label is_pooled (Ok a) wk1)), w1, hs. split_and!; try done.
      unfold attributed. simpl. destruct (each_after_init _ _ He) as [->|(init & s & -> & _ & _)]; [by destruct (Hnil eq_refl)|].
      exists init, s. split; [done|]. destruct Hg as (_ & HQ & _). rewrite Forall_app, Forall_singleton in HQ. apply HQ.
    + destruct (IH (set_result (Err er) wk1) w1) as (e' & w' & hs' & -> & Hg' & He' & Hl & Hat); [apply Hg|by eexists|]. simpl in He', Hl.
      exists e', w', (hs ++ hs'). split_and!; try done.
      * refine (grows_trans _ _ _ _ _ _ _ (Hcons _ _ _ Hg')). by eapply grows_same.
      * apply each_after_app; [done|]. by rewrite <- Hlr.
      * by rewrite last_result_app, <- Hlr.
      * revert Hat. unfold attributed. destruct (wk_result (walk_end_walk e')); [|done]. intros (init & s & -> & Hs).
        exists (hs ++ init), s. by rewrite app_assoc.
Qed.

(** ** From the primary to the last hop *)

(** What holds of the dispatches of a request whose first target is a model of a
    provider, judged in [judged], and whose first key is [k]: [prim] went to that target,
    [hs] to hops. *)
Definition walk_ok (model provider_id : bytes) (k : RoutedKey) (judged : W) (plan_rest : list Candidate) (wk : Walk) (prim hs : list Sent)
    : Prop :=
  wk_sent wk = prim ++ hs ∧
  Forall (to_primary model provider_id) prim ∧
  Forall (λ s, ∃ h, h ∈ hops catalog alias operator cr model plan_rest ∧ to_hop h s) hs ∧
  (∃ s0 ps, prim = s0 :: ps ∧
     (se_label s0 = rk_label k ∧ se_key s0 = rk_key k ∧ se_judged s0 = judged ∧ Forall (key_for provider_id) ps) ∧
     each_after (λ r, key_failed r = true) (result_of s0) ps ∧
     (hs ≠ [] → is_denied (last_result (result_of s0) ps) = false) ∧
     each_after is_failed (last_result (result_of s0) ps) hs ∧
     wk_result wk = last_result (last_result (result_of s0) ps) hs) ∧
  attributed wk (prim ++ hs) ∧
  (routed = true → Forall one_attempt (prim ++ hs) ∧ lenZ (prim ++ hs) ≤ max_attempts) ∧
  numbered (wk_ledger wk).

Lemma attributed_primary model provider_id wk prim :
  wk_model wk = model → Forall (to_primary model provider_id) prim → prim ≠ [] → attributed wk prim.
Proof.
  intros Hm Hf Hne. unfold attributed. destruct (wk_result wk); [|done]. destruct prim as [|s prim] using rev_ind; [done|].
  rewrite Forall_app, Forall_singleton in Hf. exists prim, s. rewrite Hm. split; [done|]. apply Hf.
Qed.

Lemma walk_from_ok t target_index k plan_rest skips cred judged w :
  1 ≤ max_attempts →
  ∃ e w' prim hs, walk_from catalog alias regions breaker_config priced_model env_keys operator route_limits max_attempts cr routed t target_index k
                    plan_rest skips cred judged w = Some (e, w') ∧
    walk_ok (tt_model t) (tt_provider_id t) k judged plan_rest (walk_end_walk e) prim hs.
Proof.
  intros Hmax. unfold walk_from. set (wk0 := {| wk_result := Err unroutable_error |}).
  assert (0 < wk_budget wk0) as Hb0 by (unfold wk0, u64_max; simpl; destruct routed; lia).
  destruct (send_ok (family catalog alias (tt_model t)) (tt_provider_id t) (upstream_region regions (tt_provider_id t)) (tt_model t)
    (wire_of alias (tt_model t)) (rk_label k) (rk_key k) (rk_pooled k) cred judged wk0 w Hb0) as (s0 & wk1 & w1 & -> & Hg0 & Hr0 & Hm0 & Hp & Hpid & Hmod & Hj0 & Hlab0 & Hkey0).
  set (wk2 := set_budget _ (set_result (rr_result (se_run s0)) wk1)).
  assert (0 ≤ wk_budget wk2) as Hb2 by (unfold wk2, sat_sub, u64_max; simpl; destruct routed; lia).
  destruct (rotate_keys_ok (S (length (kc_labels (rk_cursor k)))) (tt_provider_id t) (upstream_region regions (tt_provider_id t)) (tt_model t)
    (rk_cursor k) wk2 w1 Hb2) as (wk3 & w3 & ps & -> & Hg & He & Hl & Hm); [lia|].
  destruct Hg0 as (Hs0 & _ & Ho0 & _ & _ & Hn0). destruct Hg as (Hs & Hfk & Ho & Hb3 & Hlen & Hn).
  apply Forall_and in Hfk as [Hf Hkeys].
  change (wk_result wk2) with (result_of s0) in He, Hl. change (wk_sent wk2) with (wk_sent wk1) in Hs. rewrite Hs0 in Hs. simpl in Hs.
  assert (Forall (to_primary (tt_model t) (tt_provider_id t)) (s0 :: ps)) as Hprim by (constructor; [by unfold to_primary|done]).
  assert (numbered (wk_ledger wk3)) as Hnum by (apply Hn, Hn0, numbered_extend, numbered_extend, numbered_nil).
  assert (routed = true → Forall one_attempt (s0 :: ps) ∧ lenZ (s0 :: ps) + wk_budget wk3 ≤ max_attempts) as Hone.
  { intros Hr. split; [apply (Forall_app _ [s0] ps); auto|].
    unfold wk2, sat_sub in Hlen. cbn [wk_budget set_budget] in Hlen. rewrite Hr in Hlen. unfold lenZ in *. simpl length. lia. }
  assert (walk_ok (tt_model t) (tt_provider_id t) k judged plan_rest wk3 (s0 :: ps) []) as Hend.
  { unfold walk_ok. rewrite app_nil_r. split_and!; try done; [by exists s0, ps| |].
    - eapply attributed_primary; [|done..]. by rewrite Hm.
    - intros Hr. destruct (Hone Hr). split; [done|lia]. }
  destruct (wk_result wk3) as [a|er] eqn:Hwr; [by exists (Walked wk3), w3, (s0 :: ps), []|].
  destruct (negb (is_denied (Err er)) && _) eqn:Hgo; [|by exists (Walked wk3), w3, (s0 :: ps), []].
  apply andb_prop in Hgo as [Hnd _]. apply negb_true_iff in Hnd.
  destruct (walk_hops_ok (family catalog alias (tt_model t)) (hops catalog alias operator cr (tt_model t) plan_rest) wk3 w3 Hb3)
    as (e & w' & hs & -> & Hg & He' & Hl' & Hat); [by eexists|].
  destruct Hg as (Hs' & Hf' & Ho' & Hb' & Hlen' & Hn'). rewrite Hwr in He', Hl'. rewrite Hl in *.
  exists e, w', (s0 :: ps), hs. split; [done|]. unfold walk_ok. split_and!; try done.
  - by rewrite Hs', Hs.
  - exists s0, ps. split_and!; try done; by rewrite <- ?Hl.
  - revert Hat. unfold attributed. destruct (wk_result (walk_end_walk e)); [|done]. intros (init & s & -> & ?).
    exists ((s0 :: ps) ++ init), s. by rewrite app_assoc.
  - intros Hr. destruct (Hone Hr). rewrite lenZ_app. split; [apply Forall_app; auto|lia].
  - auto.
Qed.
End chat.

(** ** The whole dispatch *)

Section whole.
Context `{Registry} `{Blake3Fn} {W A : Type} `{ChatWorld W A}.
Variable catalog : Catalog.
Variable alias : bytes → option ModelAlias.
Variable regions : Regions.
Variable breaker_config : BreakerConfig.
Variable priced_model : bytes → bool.
Variable env_keys : bool.
Variable operator : option FailoverConfig.
Variable route_limits : RouteLimits.
Variable max_attempts : Z.
Variable cr : ChatCall.

Local Notation Sent := (Sent (W:=W) (A:=A)).
Local Notation Walk := (Walk (W:=W) (A:=A)).
Local Notation chat_dispatch := (chat_dispatch catalog alias regions breaker_config priced_model env_keys operator route_limits max_attempts cr).
Local Notation dispatch_model := (dispatch_model catalog alias regions breaker_config priced_model env_keys operator route_limits max_attempts cr).

Lemma admitted_key_ends fuel fam provider_id model is_pooled cursor skips w :
  (length (kc_labels cursor) < fuel)%nat →
  is_Some (admitted_key catalog regions breaker_config env_keys cr fuel fam provider_id model is_pooled cursor skips w).
Proof.
  revert cursor skips w. induction fuel as [|fuel IH]; intros cursor skips w Hf; [lia|]. cbn [admitted_key].
  destruct (next_key key_looks provider_id (env_of catalog provider_id) cursor w) as [[[[label key]|] c1] w1] eqn:Hn; [|by eexists].
  apply next_key_shorter in Hn as [Hlt _]. destruct (breaker_cred catalog env_keys cr provider_id label w1) as [cred w2].
  destruct (breaker_would_allow breaker_config fam _ cred w2) as [[] w3]; [by eexists|]. apply IH. lia.
Qed.

Lemma pick_key_ends fuel fam provider_id is_pooled cursor first w :
  (length (kc_labels cursor) < fuel)%nat →
  is_Some (pick_key catalog regions breaker_config env_keys cr fuel fam provider_id is_pooled cursor first w).
Proof.
  revert cursor first w. induction fuel as [|fuel IH]; intros cursor first w Hf; [lia|]. cbn [pick_key].
  destruct (next_key key_looks provider_id (env_of catalog provider_id) cursor w) as [[[[label key]|] c1] w1] eqn:Hn; [|by eexists].
  apply next_key_shorter in Hn as [Hlt _]. destruct (breaker_cred catalog env_keys cr provider_id label w1) as [cred w2].
  destruct (if is_pooled then _ else (true, w2)) as [[] w3]; [by eexists|]. apply IH. lia.
Qed.

Lemma first_key_ends chosen model provider_id w :
  is_Some (first_key catalog alias regions breaker_config env_keys route_limits cr chosen model provider_id w).
Proof.
  destruct chosen; [by eexists|]. unfold first_key. destruct (thread_rng w). apply pick_key_ends. simpl. lia.
Qed.

Lemma select_route_ends l skips failed w :
  is_Some (select_route catalog alias regions breaker_config priced_model env_keys route_limits cr l skips failed w).
Proof.
  revert skips failed w. induction l as [|c l IH]; intros skips failed w; [by eexists|]. cbn [select_route].
  assert (is_Some (select_candidate catalog alias regions breaker_config priced_model env_keys route_limits cr c w)) as [[r w1] ->];
    [|destruct r; [by eexists|apply IH]].
  unfold select_candidate. destruct (candidate_refusal catalog alias priced_model cr c w); [by eexists|]. destruct (thread_rng w) as [rng w1].
  set (pool := pool_labels route_limits CHAT_ROUTING (cr_routing cr) (c_provider c) rng).
  destruct (admitted_key_ends (S (length (labels pool))) (family catalog alias (c_model c)) (c_provider c) (c_model c) (pooled pool)
    (new_cursor (labels pool)) [] w1) as [[r w2] ->]; [simpl; lia|].
  destruct r as [k|[[|a skips'] c']]; by eexists.
Qed.

Lemma zdr_prune_routes model provider_id plan_rest w t :
  pid_of catalog alias model = Some provider_id → zdr_prune catalog alias priced_model operator cr model provider_id plan_rest w = Ok t →
  pid_of catalog alias (tt_model t) = Some (tt_provider_id t).
Proof.
  intros Hp. unfold zdr_prune. destruct (cr_zdr_required cr); simpl; [|by intros [= <-]].
  case_bool_decide; [done|]. destruct (eligible (zdr_table w) provider_id); [by intros [= <-]|].
  destruct (head _) as [[[fp fm] fpid]|] eqn:Eh; [|by intros [= <-]]. intros [= <-]. simpl.
  apply head_Some_elem_of in Eh. destruct (cr_cross_provider cr); [|by apply not_elem_of_nil in Eh].
  apply list_elem_of_omap in Eh as ([p m] & _ & Hc). revert Hc. unfold zdr_candidate. simpl.
  destruct (negb _); [done|]. destruct (unpriced_under_budget _ _ _); [done|].
  destruct (pid_of catalog alias m) as [q|] eqn:Eq; [|done]. destruct (allowed _ _ _); [|done]. by intros [= <- <- <-].
Qed.

(** What a request for [asked] is first sent to: [asked] itself, or, where the request
    requires zero retention and may fail over, a candidate of its failover chain. *)
Definition starts_at (asked m : bytes) : Prop :=
  m = asked ∨ cr_zdr_required cr = true ∧ cr_cross_provider cr = true ∧
    ∃ fam, (fam, m) ∈ candidates_for (pid_of catalog alias) (family catalog alias asked) (cr_workspace_models cr) operator.

Lemma zdr_prune_starts model provider_id plan_rest w t :
  pid_of catalog alias model = Some provider_id →
  zdr_prune catalog alias priced_model operator cr model provider_id plan_rest w = Ok t → starts_at model (tt_model t).
Proof.
  intros Hp. unfold zdr_prune, starts_at. destruct (cr_zdr_required cr); simpl; [|intros [= <-]; by left].
  case_bool_decide; [done|]. destruct (eligible (zdr_table w) provider_id); [intros [= <-]; by left|].
  destruct (head _) as [[[fp fm] fpid]|] eqn:Eh; [|intros [= <-]; by left]. intros [= <-]. simpl. right.
  apply head_Some_elem_of in Eh. destruct (cr_cross_provider cr); [|by apply not_elem_of_nil in Eh]. split_and!; [done..|].
  apply list_elem_of_omap in Eh as ([q m] & Hin & Hc). exists q. revert Hc. unfold zdr_candidate. simpl.
  destruct (negb _); [done|]. destruct (unpriced_under_budget _ _ _); [done|].
  destruct (pid_of catalog alias m); [|done]. destruct (allowed _ _ _); [|done]. by intros [= -> <- _].
Qed.

Definition key_of_provider (provider_id : bytes) (k : RoutedKey) : Prop :=
  resolved key_looks provider_id (env_of catalog provider_id) (rk_label k) (rk_key k).

(** A request for [model] that was dispatched, with the key that was chosen for it, if one
    was: to a target whose provider is its model's, that is not killed and can carry it. *)
Definition dispatched_ok (model : bytes) (chosen : option RoutedKey) (routed : bool) (plan_rest : list Candidate) (wk : Walk) : Prop :=
  ∃ m p k judged prim hs, starts_at model m ∧ pid_of catalog alias m = Some p ∧
    provider_killed (kill_switch judged) (family catalog alias m) = false ∧ cr_supported cr p (wire_of alias m) = true ∧
    (chosen = Some k ∨ chosen = None ∧ key_of_provider p k) ∧
    walk_ok catalog alias priced_model operator max_attempts cr routed m p k judged plan_rest wk prim hs.

Definition end_ok (model : bytes) (chosen : option RoutedKey) (dispatching : bool) (plan_rest : list Candidate) (e : ChatEnd) : Prop :=
  match e with
  | Refused _ _ _ => True
  | Ended e => ∃ routed, (dispatching = true → routed = true) ∧ dispatched_ok model chosen routed plan_rest (walk_end_walk e)
  end.

Lemma pick_key_resolved fuel fam provider_id is_pooled cursor first w k w' :
  (∀ label key, first = Some (label, key) → resolved key_looks provider_id (env_of catalog provider_id) label key) →
  pick_key catalog regions breaker_config env_keys cr fuel fam provider_id is_pooled cursor first w = Some (Ok k, w') →
  key_of_provider provider_id k.
Proof.
  revert cursor first w. induction fuel as [|fuel IH]; intros cursor first w Hf; [done|]. cbn [pick_key].
  destruct (next_key key_looks provider_id (env_of catalog provider_id) cursor w) as [[[[label key]|] c1] w1] eqn:Hn.
  - pose proof (next_key_resolved _ _ _ _ _ _ _ _ _ _ _ Hn) as Hkey.
    destruct (breaker_cred catalog env_keys cr provider_id label w1) as [cred w2].
    destruct (if is_pooled then _ else (true, w2)) as [[] w3]; [by intros [= <- <-]|]. apply IH.
    intros l' k'. destruct first as [[l0 k0]|]; [by intros [= <- <-]; apply Hf|by intros [= <- <-]].
  - destruct first as [[l0 k0]|]; [|done]. intros [= <- <-]. by apply Hf.
Qed.

Lemma first_key_resolved chosen model provider_id w k w' :
  first_key catalog alias regions breaker_config env_keys route_limits cr chosen model provider_id w = Some (Ok k, w') →
  chosen = Some k ∨ chosen = None ∧ key_of_provider provider_id k.
Proof.
  unfold first_key. destruct chosen; [intros [= <- <-]; by left|]. destruct (thread_rng w). intros Hk. right. split; [done|].
  eapply pick_key_resolved; [|exact Hk]. done.
Qed.

Lemma dispatch_model_ok dispatching model target_index chosen plan_rest skips w :
  upstream_ok (W:=W) (A:=A) → 0 ≤ retries (failover_retry_policy operator) ∧ 0 ≤ backoff_ms (failover_retry_policy operator) → 1 ≤ max_attempts →
  ∃ e w', dispatch_model dispatching model target_index chosen plan_rest skips w = Some (e, w') ∧ end_ok model chosen dispatching plan_rest e.
Proof.
  intros Hup Hpol Hmax. unfold Failover.dispatch_model. destruct (pid_of catalog alias model) as [provider_id|] eqn:Hp; [|by do 2 eexists].
  destruct (zdr_prune catalog alias priced_model operator cr model provider_id plan_rest w) as [t|] eqn:Hz; [|by do 2 eexists].
  destruct (cr_unsupported cr _ _) eqn:Hsup; [by do 2 eexists|].
  destruct (first_key_ends chosen (tt_model t) (tt_provider_id t) w) as [[[k|k] w1] Hfk]; rewrite Hfk; [|by do 2 eexists].
  unfold admit_primary. destruct (breaker_cred catalog env_keys cr (tt_provider_id t) (rk_label k) w1) as [cred w2].
  destruct (provider_killed _ _) eqn:Hkill; [by do 2 eexists|].
  destruct (breaker_allow breaker_config _ _ cred w2) as [[] w3]; [|by do 2 eexists].
  destruct (walk_from_ok catalog alias regions breaker_config priced_model env_keys operator route_limits max_attempts cr Hup Hpol
    (dispatching || rk_pooled k) t target_index k plan_rest skips cred w2 w3 Hmax) as (e & w' & prim & hs & -> & Hok).
  exists (Ended e), w'. split; [done|]. exists (dispatching || rk_pooled k). split; [by intros ->|].
  exists (tt_model t), (tt_provider_id t), k, w2, prim, hs. split_and!; try done.
  - by eapply zdr_prune_starts.
  - by eapply zdr_prune_routes.
  - unfold cr_supported. by rewrite Hsup.
  - by eapply first_key_resolved.
Qed.

Lemma admitted_key_resolved fuel fam provider_id model is_pooled cursor skips w k w' :
  admitted_key catalog regions breaker_config env_keys cr fuel fam provider_id model is_pooled cursor skips w = Some (Ok k, w') →
  key_of_provider provider_id k.
Proof.
  revert cursor skips w. induction fuel as [|fuel IH]; intros cursor skips w; [done|]. cbn [admitted_key].
  destruct (next_key key_looks provider_id (env_of catalog provider_id) cursor w) as [[[[label key]|] c1] w1] eqn:Hn; [|done].
  pose proof (next_key_resolved _ _ _ _ _ _ _ _ _ _ _ Hn) as Hkey.
  destruct (breaker_cred catalog env_keys cr provider_id label w1) as [cred w2].
  destruct (breaker_would_allow breaker_config fam _ cred w2) as [[] w3]; [by intros [= <- <-]|apply IH].
Qed.

(** The selected candidate is one of the plan's, the rest are those after it, and its key
    was resolved for its provider. *)
Lemma select_route_ok l skips failed w s w' :
  select_route catalog alias regions breaker_config priced_model env_keys route_limits cr l skips failed w = Some (Ok s, w') →
  (∃ before, l = before ++ sl_candidate s :: sl_rest s) ∧ key_of_provider (c_provider (sl_candidate s)) (sl_key s) ∧
  ∃ w0, candidate_refusal catalog alias priced_model cr (sl_candidate s) w0 = None.
Proof.
  revert skips failed w. induction l as [|c l IH]; intros skips failed w; [done|]. cbn [select_route].
  unfold select_candidate. destruct (candidate_refusal catalog alias priced_model cr c w) eqn:Hr.
  { intros (([before ->] & ?) & ?)%IH%and_assoc. split; [by exists (c :: before)|done]. }
  destruct (thread_rng w) as [rng w1]. set (pool := pool_labels route_limits CHAT_ROUTING (cr_routing cr) (c_provider c) rng).
  destruct (admitted_key _ _ _ _ _ _ _ _ _ _ _ _ _) as [[[k|[[|a sk] cu]] w2]|] eqn:Ek; [|intros (([before ->] & ?) & ?)%IH%and_assoc; (split; [by exists (c :: before)|done])..|done].
  intros [= <- <-]. cbn [sl_candidate sl_rest sl_key]. split; [by exists []|]. split; [by eapply admitted_key_resolved|by exists w].
Qed.

Definition plan_dispatches (p : option RoutePlan) : bool := from_option dispatches false p.

(** The model a request starts from, the targets after it and the key chosen with it: those
    of a candidate of its plan that nothing refused, or the model it names. *)
Definition starts_from (model : bytes) (plan : option RoutePlan) (asked : bytes) (rest : list Candidate) (chosen : option RoutedKey) : Prop :=
  if plan_dispatches plan then
    ∃ pl before c k w, plan = Some pl ∧ candidates pl = before ++ c :: rest ∧ asked = c_model c ∧ chosen = Some k ∧
      key_of_provider (c_provider c) k ∧ candidate_refusal catalog alias priced_model cr c w = None
  else asked = model ∧ rest = [] ∧ chosen = None.

Lemma chat_dispatch_ok model plan w :
  upstream_ok (W:=W) (A:=A) → 0 ≤ retries (failover_retry_policy operator) ∧ 0 ≤ backoff_ms (failover_retry_policy operator) → 1 ≤ max_attempts →
  ∃ e w', chat_dispatch model plan w = Some (e, w') ∧
    match e with
    | Refused _ _ _ => True
    | Ended _ => ∃ asked rest chosen, starts_from model plan asked rest chosen ∧ end_ok asked chosen (plan_dispatches plan) rest e
    end.
Proof.
  intros Hup Hpol Hmax. unfold Failover.chat_dispatch, starts_from.
  assert (∀ skips, ∃ e w', dispatch_model false model None None [] skips w = Some (e, w') ∧
    match e with Refused _ _ _ => True | Ended _ => ∃ asked rest chosen, (asked = model ∧ rest = [] ∧ chosen = None) ∧ end_ok asked chosen false rest e end) as Hplain.
  { intros skips. destruct (dispatch_model_ok false model None None [] skips w) as (e & w' & -> & Hok); [done..|]. exists e, w'. split; [done|].
    destruct e; [done|]. by exists model, [], None. }
  destruct plan as [p|]; simpl; [|apply Hplain]. destruct (dispatches p); [|apply Hplain].
  destruct (select_route_ends (candidates p) (skipped_attempts p) false w) as [[[s|[skips failed]] w1] Hs]; rewrite Hs; [|by do 2 eexists].
  apply select_route_ok in Hs as ([before Hb] & Hk & w0 & Hr).
  destruct (dispatch_model_ok true (c_model (sl_candidate s)) (Some (c_target_index (sl_candidate s))) (Some (sl_key s)) (sl_rest s) (sl_skips s) w1)
    as (e & w' & -> & Hok); [done..|]. exists e, w'. split; [done|]. destruct e; [done|].
  exists (c_model (sl_candidate s)), (sl_rest s), (Some (sl_key s)). split; [|done].
  exists p, before, (sl_candidate s), (sl_key s), w0. done.
Qed.

(** ** Readings *)

Lemma hop_check_ok h w p : hop_check catalog alias priced_model cr h w = Ok p →
  (cr_budgeted cr = true → priced_model (hop_model h) = true) ∧
  (cr_zdr_required cr = true → eligible (zdr_table w) (hop_provider h) = true) ∧
  provider_killed (kill_switch w) (hop_provider h) = false ∧ pid_of catalog alias (hop_model h) = Some p ∧
  policy_allows (cr_governance cr) (cr_controls cr) (hop_model h) p = true ∧ cr_supported cr p (hop_model h) = true.
Proof.
  unfold hop_check, unpriced_under_budget, allowed. destruct (cr_budgeted cr && negb (priced_model (hop_model h))) eqn:E1; [done|].
  destruct (cr_zdr_required cr && negb (eligible (zdr_table w) (hop_provider h))) eqn:E2; [done|].
  destruct (provider_killed _ _); [done|]. destruct (pid_of catalog alias (hop_model h)) as [q|]; [|done].
  destruct (policy_allows _ _ _ _) eqn:E3; [|done]. destruct (cr_supported cr q (hop_model h)) eqn:E4; [|done]. intros [= <-].
  apply andb_false_iff in E1, E2. split_and!; try done.
  - intros Hb. destruct E1 as [E1|E1]; [congruence|by apply negb_false_iff in E1].
  - intros Hb. destruct E2 as [E2|E2]; [congruence|by apply negb_false_iff in E2].
Qed.

Lemma each_after_lookup K (s0 : Sent) ps i s t : each_after K (result_of s0) ps →
  (s0 :: ps) !! i = Some s → (s0 :: ps) !! S i = Some t → K (result_of s).
Proof.
  revert s0 i. induction ps as [|s1 ps IH]; intros s0 i; simpl; [by destruct i|]. intros [HK He].
  destruct i as [|i]; simpl; [by intros [= <-]|]. by apply IH.
Qed.

Lemma last_result_last (s0 : Sent) ps : ∃ s, last (s0 :: ps) = Some s ∧ last_result (result_of s0) ps = result_of s.
Proof. revert s0. induction ps as [|s1 ps IH]; intros s0; [by exists s0|]. apply (IH s1). Qed.

Lemma total_ones (l : list Sent) : Forall one_attempt l → total ((λ s, lenZ (rr_ledger (se_run s))) <$> l) = lenZ l.
Proof.
  unfold total, lenZ, one_attempt. induction 1 as [|s l Hs _ IH]; [done|]. cbn [fmap list_fmap foldr length].
  rewrite IH. unfold lenZ in Hs. lia.
Qed.
End whole.
