(* ===== verification/FailoverTheorems.v ===== *)
(** * The dispatch of a chat request: what is promised

    The theorems of [FailoverProofs] read as promises to a caller, with a small world they
    are evaluated in, and two places where the walk and the rest of the gateway disagree. *)

From Stdlib Require Import ZArith Lia.
From stdpp Require Import base list option strings gmap.
From S2P Require Import Prelude Float64 Encoding Hash Network Catalog CatalogProofs Pricing CircuitBreaker Glob KeyPolicy Controls Routing.
From S2P Require Import ResponseCache ResponseCacheProofs CacheServing Dispatch DispatchProofs Failover FailoverProofs RoutedAdmission.
Local Open Scope Z_scope.

Section promises.
Context `{Registry} `{Blake3Fn} {W A : Type} `{ChatWorld W A}.
Variable catalog : Catalog.
Variable alias : bytes → option ModelAlias.
Variable regions : Regions.
Variable breaker_config : BreakerConfig.
Variable priced_model : bytes → bool.
Variable env_keys : bool.
Variable operator : option FailoverConfig.
Variable route_limits : RouteLimits.
Variable max_attempts : Z.
Variable cr : ChatCall.

Local Notation chat_dispatch := (chat_dispatch catalog alias regions breaker_config priced_model env_keys operator route_limits max_attempts cr).
Local Notation booted := (accepted (pid_of catalog alias) (is_known_provider_id catalog) (length (Catalog.providers catalog)) operator).

(** The walk a dispatch ended with, if it sent anything. *)
Definition ended (e : ChatEnd) (P : Walk (W:=W) (A:=A) → Prop) : Prop :=
  match e with Refused _ _ _ => True | Ended e => P (walk_end_walk e) end.

Lemma booted_policy : booted → 0 ≤ retries (failover_retry_policy operator) ∧ 0 ≤ backoff_ms (failover_retry_policy operator).
Proof. intros Ho%accepted_fits. simpl in Ho. lia. Qed.

Local Notation starts_from := (starts_from catalog alias priced_model cr).
Local Notation starts_at := (starts_at catalog alias operator cr).
Local Notation to_primary := (to_primary catalog alias (W:=W) (A:=A)).
Local Notation key_for := (key_for catalog (W:=W) (A:=A)).
Local Notation hops := (hops catalog alias operator cr).

(** What [chat_dispatch_ok] says of a walk, as the theorems below use it. *)
Lemma dispatch_ended model plan w (P : Walk (W:=W) (A:=A) → Prop) :
  upstream_ok (W:=W) (A:=A) → booted → 1 ≤ max_attempts →
  (∀ routed asked rest chosen m p k judged wk prim hs, (plan_dispatches plan = true → routed = true) →
     starts_from model plan asked rest chosen → starts_at asked m → pid_of catalog alias m = Some p →
     provider_killed (kill_switch judged) (family catalog alias m) = false → cr_supported cr p (wire_of alias m) = true →
     chosen = Some k ∨ chosen = None ∧ key_of_provider catalog (W:=W) p k →
     walk_ok catalog alias priced_model operator max_attempts cr routed m p k judged rest wk prim hs → P wk) →
  ∃ e w', chat_dispatch model plan w = Some (e, w') ∧ ended e P.
Proof.
  intros Hup Hb Hmax HP.
  destruct (chat_dispatch_ok catalog alias regions breaker_config priced_model env_keys operator route_limits max_attempts cr model plan w Hup (booted_policy Hb) Hmax)
    as (e & w' & Hd & Hok). exists e, w'. split; [exact Hd|]. destruct e as [|e]; [done|]. simpl in *.
  destruct Hok as (asked & rest & chosen & Hfrom & routed & Hr & m & p & k & judged & prim & hs & Hat & Hp & Hk & Hs & Hc & Hok).
  by eapply (HP routed asked rest chosen m p k judged _ prim hs).
Qed.

(** The first target of a request, a model of a provider, with the targets after it: the
    model it names, or a candidate of its plan that nothing refused; or, where zero
    retention moved it, a model of the failover chain. *)
Definition first_target (model : bytes) (plan : option RoutePlan) (m p : bytes) (rest : list Candidate) : Prop :=
  pid_of catalog alias m = Some p ∧ ∃ asked chosen, starts_from model plan asked rest chosen ∧ starts_at asked m.

(** The candidates of a plan carry the providers their models route to. *)
Definition plan_routes (plan : option RoutePlan) : Prop :=
  ∀ pl c, plan = Some pl → c ∈ candidates pl → pid_of catalog alias (c_model c) = Some (c_provider c).

(** A call of a routed request that zero retention moved off the candidate it had chosen,
    and that carries the key of that candidate's provider. *)
Definition moved_with_key (plan : option RoutePlan) (s : Sent (W:=W) (A:=A)) : Prop :=
  cr_zdr_required cr = true ∧ cr_cross_provider cr = true ∧
  ∃ pl c, plan = Some pl ∧ dispatches pl = true ∧ c ∈ candidates pl ∧ key_for (c_provider c) s.

Lemma first_key_for model plan asked rest chosen m p k (s : Sent (W:=W) (A:=A)) :
  plan_routes plan → starts_from model plan asked rest chosen → starts_at asked m → pid_of catalog alias m = Some p →
  chosen = Some k ∨ chosen = None ∧ key_of_provider catalog (W:=W) p k → se_label s = rk_label k → se_key s = rk_key k →
  key_for p s ∨ moved_with_key plan s.
Proof.
  intros Hpl Hfrom Hat Hp Hc El Ek. unfold FailoverProofs.key_for. rewrite El, Ek. unfold FailoverProofs.starts_from in Hfrom.
  destruct (plan_dispatches plan) eqn:Hd.
  - destruct Hfrom as (pl & before & c & k' & w & -> & Hcs & -> & -> & Hk & _). destruct Hc as [[= <-]|[? _]]; [|done].
    assert (c ∈ candidates pl) as Hin by (rewrite Hcs; set_solver).
    destruct Hat as [->|(Hz & Hx & _)].
    + left. specialize (Hpl pl c eq_refl Hin). rewrite Hp in Hpl. by injection Hpl as ->.
    + right. split_and!; [done..|]. exists pl, c. unfold FailoverProofs.key_for. by rewrite El, Ek.
  - destruct Hfrom as (_ & _ & ->). destruct Hc as [?|[_ Hk]]; [done|]. by left.
Qed.

(** C18. Every chat dispatch ends, whatever the providers, the key store and the breaker
    answer.  One that sent anything keeps a ledger numbered from zero of at most 64
    entries, and a routed request has made no more attempts at providers, over all keys,
    targets and hops together, than the routing limit. *)
Theorem chat_dispatch_is_bounded (model : bytes) (plan : option RoutePlan) (w : W) :
  upstream_ok (W:=W) (A:=A) → booted → 1 ≤ max_attempts →
  ∃ e w', chat_dispatch model plan w = Some (e, w') ∧ ended e (λ wk,
    wk_sent wk ≠ [] ∧ da_attempt <$> wk_ledger wk = seqZ 0 (lenZ (wk_ledger wk)) ∧ (length (wk_ledger wk) ≤ MAX_DISPATCH_ATTEMPTS)%nat ∧
    (plan_dispatches plan = true → total ((λ s, lenZ (rr_ledger (se_run s))) <$> wk_sent wk) ≤ max_attempts)).
Proof.
  intros Hup Hb Hmax. apply dispatch_ended; [done..|].
  intros routed asked rest chosen m p k judged wk prim hs Hr _ _ _ _ _ _ (Hs & _ & _ & (s0 & ps & -> & _) & _ & Ho & Hn & Hl). rewrite Hs.
  split_and!; [done..|]. intros Hd. destruct (Ho (Hr Hd)) as [Hone Hlen]. by rewrite total_ones.
Qed.

(** C17. Everything that is sent goes to the provider its model routes to, and what goes
    there is permitted.  It goes first to one target, the request's own: the model it names,
    or a candidate of its plan that nothing refused (where zero retention is required and
    failing over allowed, a model of the failover chain in its place), whose provider was
    not killed when the request was admitted to it and can carry it.  Then it goes only to
    the targets after that one and to the failover chain, and to each only if at that moment
    it was priced or the caller has no budget, eligible or zero retention was not required,
    not killed, allowed by the policies of the key and of the workspace, and able to carry
    the request.  Every call carries a key that was resolved for its own provider - but
    for one case: a routed request that zero retention moves after its candidate was chosen
    is sent with the key of the candidate's provider ([moved_request_keeps_key]). *)
Theorem hops_are_permitted (model : bytes) (plan : option RoutePlan) (w : W) :
  upstream_ok (W:=W) (A:=A) → booted → 1 ≤ max_attempts → plan_routes plan →
  ∃ e w', chat_dispatch model plan w = Some (e, w') ∧ ended e (λ wk, ∃ m p rest s0 ps hs,
    first_target model plan m p rest ∧ wk_sent wk = (s0 :: ps) ++ hs ∧
    Forall (to_primary m p) (s0 :: ps) ∧
    (provider_killed (kill_switch (se_judged s0)) (se_provider s0) = false ∧ cr_supported cr p (wire_of alias m) = true) ∧
    (key_for p s0 ∨ moved_with_key plan s0) ∧ Forall (key_for p) ps ∧
    Forall (λ s, (∃ h, h ∈ hops m rest ∧ se_provider s = hop_provider h ∧ se_model s = hop_model h) ∧
      pid_of catalog alias (se_model s) = Some (se_provider_id s) ∧ key_for (se_provider_id s) s ∧
      (cr_budgeted cr = true → priced_model (se_model s) = true) ∧
      (cr_zdr_required cr = true → eligible (zdr_table (se_judged s)) (se_provider s) = true) ∧
      provider_killed (kill_switch (se_judged s)) (se_provider s) = false ∧
      policy_allows (cr_governance cr) (cr_controls cr) (se_model s) (se_provider_id s) = true ∧
      cr_supported cr (se_provider_id s) (se_model s) = true) hs).
Proof.
  intros Hup Hb Hmax Hpl. apply dispatch_ended; [done..|].
  intros routed asked rest chosen m p k judged wk prim hs _ Hfrom Hat Hp Hkill Hsup Hc
    (Hs & Hprim & Hhops & (s0 & ps & -> & (El & Ek & Ej & Hkeys) & _) & _). exists m, p, rest, s0, ps, hs.
  assert (Forall (λ s, ∃ h, h ∈ hops m rest ∧ to_hop catalog alias priced_model cr h s) hs) as Hhops' by exact Hhops.
  split; [split; [done|]; by exists asked, chosen|]. split; [done|]. split; [done|]. split.
  { apply Forall_cons in Hprim as [(_ & _ & Hfam) _]. by rewrite Ej, Hfam. }
  split; [by eapply first_key_for|]. split; [done|].
  eapply Forall_impl; [exact Hhops'|]. intros s (h & Hin & Hck & Hpr & Hm & Hkey). pose proof Hck as Hck'.
  apply hop_check_ok in Hck' as (? & ? & ? & ? & ? & ?). rewrite Hm, Hpr. split; [by exists h|]. by split_and!.
Qed.

(** C19. Nothing is sent after an answer: every dispatch but the last failed, the result
    is the last one's, and an answer is attributed to the model that gave it.  Another key
    of the first target's pool is used only after the key before it was refused (a 401,
    403 or 429), and the request moves on, to the targets after it and the failover chain,
    only when the last result of the first target was an error that the live checks did
    not raise: denied at its first target, it goes nowhere else.  (Denied at a later one, it
    does: [denied_hop_is_passed_over].) *)
Theorem answers_end_the_walk (model : bytes) (plan : option RoutePlan) (w : W) :
  upstream_ok (W:=W) (A:=A) → booted → 1 ≤ max_attempts →
  ∃ e w', chat_dispatch model plan w = Some (e, w') ∧ ended e (λ wk, ∃ m p rest prim hs,
    first_target model plan m p rest ∧ wk_sent wk = prim ++ hs ∧ Forall (to_primary m p) prim ∧
    Forall (λ s, ∃ h, h ∈ hops m rest ∧ se_provider s = hop_provider h ∧ se_model s = hop_model h) hs ∧
    (∀ i s t, prim !! i = Some s → prim !! S i = Some t → key_failed (rr_result (se_run s)) = true) ∧
    (hs ≠ [] → ∃ s e, last prim = Some s ∧ rr_result (se_run s) = Err e ∧ de_denied e = None) ∧
    ∃ init s, wk_sent wk = init ++ [s] ∧ Forall (λ s, ∃ e, rr_result (se_run s) = Err e) init ∧ wk_result wk = rr_result (se_run s) ∧
      (∀ a, wk_result wk = Ok a → se_model s = wk_model wk)).
Proof.
  intros Hup Hb Hmax. apply dispatch_ended; [done..|].
  intros routed asked rest chosen m p k judged wk prim hs _ Hfrom Hst Hp _ _ _
    (Hs & Hprim & Hhops & (s0 & ps & -> & _ & Hk & Hd & He & Hr) & Hat & _ & _).
  exists m, p, rest, (s0 :: ps), hs. split; [split; [done|]; by exists asked, chosen|]. split; [done|]. split; [done|].
  split; [eapply Forall_impl; [exact Hhops|]; intros s (h & ? & _ & ? & ? & _); by exists h|].
  split; [intros i s t Hi Ht; exact (each_after_lookup _ s0 ps i s t Hk Hi Ht)|]. destruct (last_result_last s0 ps) as (sl & Hlast & Hsl).
  split.
  { intros Hne. specialize (Hd Hne). rewrite Hsl in Hd, He. destruct hs as [|h hs]; [done|]. destruct He as [[er Her] _].
    exists sl, er. split_and!; [done..|]. rewrite Her in Hd. unfold is_denied in Hd. apply bool_decide_eq_false in Hd. by apply eq_None_not_Some. }
  assert (each_after is_failed (Err unroutable_error) ((s0 :: ps) ++ hs)) as Hall.
  { apply each_after_app; [|done]. simpl. split; [by eexists|]. eapply each_after_impl; [|exact Hk]. apply key_failed_failed. }
  destruct (each_after_init _ _ Hall) as [|(init & s & Heq & Hf & Hl)]; [done|]. exists init, s. split_and!; [by rewrite Hs|done| |].
  - rewrite Hr. change (last_result (result_of s0) ps) with (last_result (Err unroutable_error) (s0 :: ps)). by rewrite <- last_result_app, Hl.
  - intros a Ha. unfold attributed in Hat. rewrite Ha in Hat. destruct Hat as (init' & s' & Heq' & <-).
    rewrite Heq' in Heq. by apply app_inj_tail in Heq as [_ ->].
Qed.
End promises.

(** ** A small world *)

Definition down (status : Z) : DispatchError :=
  {| de_text := lit "upstream"; de_denied := None; de_credential_derived := false;
     de_http := Some (from_response (lit "provider") status None None); de_timeout := None; de_reqwest := [] |}.

(** Groq is down, Anthropic refuses the key, the others answer. *)
Definition small_adapter (provider_id : bytes) (w : nat) : result bytes DispatchError * nat :=
  (if bool_decide (provider_id = lit "groq") then Err (down 503)
   else if bool_decide (provider_id = lit "anthropic") then Err (down 401) else Ok (lit "hello"), S w).

#[local] Instance small_random : World nat := {| random_u64 := λ w, (2 ^ 63, w); sleep := λ _ w, w |}.

(** The key labelled [sealed] is under a key service that refuses; Ollama has no row. *)
Definition small_looks (provider_id label : bytes) : KeyLooks :=
  {| kl_cached := if bool_decide (label = lit "sealed" ∨ provider_id = lit "ollama") then CachedMiss else CachedFresh (lit "sk");
     kl_pool := true; kl_master := true; kl_vault := true; kl_flight := true; kl_cached_again := CachedMiss; kl_fill := true;
     kl_fetch := if bool_decide (provider_id = lit "ollama") then NoRow else FetchKms Denied_; kl_published := true; kl_env := None |}.

#[local] Instance small_world : ChatWorld nat bytes := {|
  kill_switch := λ _, ∅;
  zdr_table := λ _, zdr_from_rows [(lit "vertex", lit "default"); (lit "groq", lit "default")];
  key_looks := λ p label w, (small_looks p label, w);
  instant := λ w, (Z.of_nat w, S w);
  cb_of := λ _, new_breaker;
  with_cb := λ _ w, w;
  fresh_cell := λ w, (w, S w);
  thread_rng := λ w, (λ _, 0, w);
  adapter_chat := λ p _ _ _ w, small_adapter p w;
|}.

#[local] Instance promise_registry : Registry := gateway_registry small_catalog no_alias PricingProofs.small_table small_draw (λ _, true) (λ _, true).
#[local] Existing Instance demo_blake3.

Definition small_regions : Regions := {| bedrock_region := lit "us-east-1"; vertex_location := lit "us-central1"; azure_endpoint := lit "azure" |}.

Definition small_request (zdr : bool) (routing : RoutingState) : ChatCall :=
  {| cr_tenant := lit "t"; cr_governance := None; cr_controls := None; cr_budgeted := false; cr_zdr_required := zdr; cr_cross_provider := true;
     cr_workspace_models := []; cr_entitled := true; cr_routing := routing; cr_unsupported := λ _ _, None |}.

Definition small_dispatch (zdr : bool) (routing : RoutingState) (plan : option RoutePlan) : option (ChatEnd (W:=nat) (A:=bytes) * nat) :=
  chat_dispatch small_catalog no_alias small_regions CircuitBreaker.FALLBACK (λ _, true) true None small_limits 3 (small_request zdr routing)
    (lit "groq/llama3") plan 0%nat.

(** What came of it: the models sent to, the ledger, and the model that answered. *)
Definition outcome_of (o : option (ChatEnd (W:=nat) (A:=bytes) * nat)) : option (list bytes * list bytes * bytes) :=
  match o with
  | Some (Ended e, _) => let wk := walk_end_walk e in Some (se_model <$> wk_sent wk, default (lit "ok") ∘ da_reason <$> wk_ledger wk, wk_model wk)
  | _ => None
  end.

(** The built-in chain: a retry, a hop whose key is refused, one that does not route, one
    that answers. *)
Example failover_example : outcome_of (small_dispatch false NoRouting None)
  = Some ([lit "groq/llama3"; lit "claude-3-5-sonnet-latest"; lit "gemini-1.5-pro"],
          [lit "provider_unavailable"; lit "provider_unavailable"; lit "provider_key_rejected"; lit "unroutable"; lit "ok"],
          lit "gemini-1.5-pro").
Proof. vm_compute. reflexivity. Qed.

Lemma small_upstream : upstream_ok (W:=nat) (A:=bytes).
Proof.
  split; [done|]. intros p m l k w err asked. simpl. unfold small_adapter. simpl. do 2 (case_bool_decide; [intros [= <-]; done|]). done.
Qed.

Lemma chat_dispatch_is_bounded_witness :
  ∃ e w', small_dispatch false NoRouting None = Some (e, w') ∧ ended e (λ wk, wk_sent wk ≠ []).
Proof.
  destruct (chat_dispatch_is_bounded small_catalog no_alias small_regions CircuitBreaker.FALLBACK (λ _, true) true None small_limits 3
    (small_request false NoRouting) (lit "groq/llama3") None 0%nat) as (e & w' & He & Hend); [exact small_upstream|done|lia|].
  exists e, w'. split; [exact He|]. destruct e; [done|]. apply Hend.
Defined.

Lemma hops_are_permitted_witness :
  ∃ e w', small_dispatch false NoRouting None = Some (e, w') ∧ ended e (λ wk, ∃ s0 hs, wk_sent wk = s0 :: hs ∧
    key_for small_catalog (lit "groq") s0).
Proof.
  destruct (hops_are_permitted small_catalog no_alias small_regions CircuitBreaker.FALLBACK (λ _, true) true None small_limits 3
    (small_request false NoRouting) (lit "groq/llama3") None 0%nat) as (e & w' & He & Hend); [exact small_upstream|done|lia|done|].
  exists e, w'. split; [exact He|]. destruct e; [done|].
  destruct Hend as (m & p & rest & s0 & ps & hs & (Hp & asked & chosen & (-> & -> & ->) & Hat) & Hs & _ & _ & Hk & _).
  destruct Hat as [->|[[=] _]]. vm_compute in Hp. injection Hp as <-. exists s0, (ps ++ hs). split; [exact Hs|].
  destruct Hk as [Hk|[[=] _]]. exact Hk.
Defined.

Lemma answers_end_the_walk_witness :
  ∃ e w', small_dispatch false NoRouting None = Some (e, w') ∧ ended e (λ wk, ∃ init s, wk_sent wk = init ++ [s] ∧ wk_result wk = rr_result (se_run s)).
Proof.
  destruct (answers_end_the_walk small_catalog no_alias small_regions CircuitBreaker.FALLBACK (λ _, true) true None small_limits 3
    (small_request false NoRouting) (lit "groq/llama3") None 0%nat) as (e & w' & He & Hend); [exact small_upstream|done|lia|].
  exists e, w'. split; [exact He|]. destruct e; [done|].
  destruct Hend as (m & p & rest & prim & hs & _ & _ & _ & _ & _ & _ & init & s & Hs & _ & Hr & _). exists init, s. exact (conj Hs Hr).
Defined.

(** ** Disagreements *)

(** A later target of a virtual model is judged for zero retention by the name its
    spans carry, not by the provider id the table is keyed by: a Vertex or Bedrock target
    the table vouches for is skipped as ineligible when the walk reaches it, though as the
    first target it passes. *)
Theorem later_target_is_judged_by_name {W A} `{ChatWorld W A} (catalog : Catalog) (alias : bytes → option ModelAlias)
    (priced_model : bytes → bool) (cr : ChatCall) (c : Candidate) (i : option nat) (w : W) :
  cr_zdr_required cr = true → cr_budgeted cr = false →
  eligible (zdr_table w) (c_provider c) = true → eligible (zdr_table w) (family catalog alias (c_model c)) = false →
  hop_check catalog alias priced_model cr {| hop_provider := family catalog alias (c_model c); hop_model := c_model c; hop_target := i |} w
    = Err "zdr_ineligible"%string ∧
  candidate_refusal catalog alias priced_model cr c w ≠ Some "zdr_ineligible"%string.
Proof.
  intros Hz Hb He Hn. unfold hop_check, candidate_refusal, unpriced_under_budget. rewrite Hz, Hb, He. simpl. rewrite Hn. split; [done|].
  by repeat case_match.
Qed.

Definition small_candidate (model provider : string) : Candidate :=
  {| c_model := lit model; c_provider := lit provider; c_target_index := 0; weight_pct := None; ewma_ttfb_ms := None |}.

Lemma later_target_is_judged_by_name_witness :
  hop_check small_catalog no_alias (λ _, true) (small_request true NoRouting)
    {| hop_provider := lit "gcp_vertex_ai"; hop_model := lit "vertex/gemini-2.5-pro"; hop_target := Some 1%nat |} 0%nat = Err "zdr_ineligible"%string.
Proof.
  destruct (later_target_is_judged_by_name small_catalog no_alias (λ _, true) (small_request true NoRouting)
    (small_candidate "vertex/gemini-2.5-pro" "vertex") (Some 1%nat) 0%nat) as [Hh _]; [done|done|vm_compute; reflexivity|vm_compute; reflexivity|].
  rewrite <- Hh. vm_compute. reflexivity.
Defined.

Definition small_plan (l : list Candidate) : RoutePlan :=
  {| rp_requested := lit "fast"; virtual_model := Some (lit "fast"); rp_strategy := Some Priority; candidates := l; skipped := [];
     policy_targets := []; policy_aliases := []; assignment := None |}.

(** A pool of one key, which the customer's key service holds. *)
Definition sealed_pool : RoutingState := ValidRouting
  {| rules := []; virtual_models := []; timeouts := []; breaker := None;
     key_pools := [{| kp_provider := lit "groq"; kp_strategy := Priority; kp_keys := [{| pk_label := lit "sealed"; pk_weight := None |}] |}] |}.

Definition refusal_of (o : option (ChatEnd (W:=nat) (A:=bytes) * nat)) : option (Z * string) :=
  match o with Some (Refused status code _, _) => Some (status, code) | _ => None end.

(** A refusal of the key service is a 403 for a plain request, and reads as a missing key
    for a routed one. *)
Example kms_refusal_reads_as_no_key :
  refusal_of (small_dispatch false sealed_pool None) = Some (403, "kms_access_denied"%string) ∧
  refusal_of (small_dispatch false sealed_pool (Some (small_plan [small_candidate "groq/llama3" "groq"])))
    = Some (400, "provider_not_configured"%string).
Proof. vm_compute. done. Qed.

(** A target that takes no key is served as the first target and skipped for want of a
    key as a later one. *)
Example keyless_target_is_skipped_later :
  outcome_of (small_dispatch false NoRouting (Some (small_plan [small_candidate "ollama/llama3" "ollama"])))
    = Some ([lit "ollama/llama3"], [lit "ok"], lit "ollama/llama3") ∧
  option_map (take 2 ∘ snd ∘ fst) (outcome_of (small_dispatch false NoRouting
    (Some (small_plan [small_candidate "groq/llama3" "groq"; small_candidate "ollama/llama3" "ollama"]))))
    = Some [lit "provider_unavailable"; lit "no_byok_key"].
Proof. vm_compute. done. Qed.

(** An operator's alias is replaced by its upstream model when it is the first target, and
    sent as it is when it is a later one. *)
Definition one_alias (model : bytes) : option ModelAlias :=
  if bool_decide (model = lit "big") then Some {| provider_id := lit "perplexity"; upstream_model := lit "sonar-large" |} else None.

Definition wire_models (l : list Candidate) : option (list bytes) :=
  match chat_dispatch small_catalog one_alias small_regions CircuitBreaker.FALLBACK (λ _, true) true None small_limits 3
          (small_request false NoRouting) (lit "fast") (Some (small_plan l)) 0%nat with
  | Some (Ended e, _) => Some (se_wire_model <$> wk_sent (walk_end_walk e))
  | _ => None
  end.

Example later_alias_is_not_replaced :
  wire_models [small_candidate "big" "perplexity"] = Some [lit "sonar-large"] ∧
  wire_models [small_candidate "groq/llama3" "groq"; small_candidate "big" "perplexity"] = Some [lit "groq/llama3"; lit "big"].
Proof. vm_compute. done. Qed.

(** ** Two more worlds *)

(** Keys that say whose they are. *)
Definition named_looks (provider_id label : bytes) : KeyLooks :=
  {| kl_cached := CachedFresh (lit "sk-" ++ provider_id); kl_pool := true; kl_master := true; kl_vault := true; kl_flight := true;
     kl_cached_again := CachedMiss; kl_fill := true; kl_fetch := NoRow; kl_published := true; kl_env := None |}.

(** A refresh of the zero-retention table lands while the first candidate's key is looked
    up: Groq is vouched for before it, Anthropic after it. *)
Definition refreshed_world : ChatWorld nat bytes := {|
  cw_random := small_random;
  kill_switch := λ _, ∅;
  zdr_table := λ w, zdr_from_rows [(if (w =? 0)%nat then lit "groq" else lit "anthropic", lit "default")];
  key_looks := λ p label w, (named_looks p label, w);
  instant := λ w, (Z.of_nat w, S w);
  cb_of := λ _, new_breaker;
  with_cb := λ _ w, w;
  fresh_cell := λ w, (w, S w);
  thread_rng := λ w, (λ _, 0, w);
  adapter_chat := λ _ _ _ _ w, (Ok (lit "hello"), S w);
|}.

(** The provider and the key of every call. *)
Definition keys_sent (o : option (ChatEnd (W:=nat) (A:=bytes) * nat)) : option (list (bytes * bytes)) :=
  match o with Some (Ended e, _) => Some ((λ s, (se_provider_id s, se_key s)) <$> wk_sent (walk_end_walk e)) | _ => None end.

(** The request was routed to Groq with Groq's key; the prune reads the table again, moves
    it to Anthropic, and the key stays. *)
Example moved_request_keeps_key :
  keys_sent (@chat_dispatch promise_registry demo_blake3 nat bytes refreshed_world small_catalog no_alias small_regions CircuitBreaker.FALLBACK
    (λ _, true) true None small_limits 3 (small_request true NoRouting) (lit "fast")
    (Some (small_plan [small_candidate "groq/llama3" "groq"])) 0%nat)
  = Some [(lit "anthropic", lit "sk-groq")].
Proof. vm_compute. reflexivity. Qed.

(** The live checks deny Anthropic. *)
Definition denied_error : DispatchError :=
  {| de_text := lit "denied"; de_denied := Some (lit "key_revoked"); de_credential_derived := false; de_http := None; de_timeout := None;
     de_reqwest := [] |}.

Definition denying_world : ChatWorld nat bytes := {|
  cw_random := small_random;
  kill_switch := λ _, ∅;
  zdr_table := λ _, zdr_from_rows [];
  key_looks := λ p label w, (named_looks p label, w);
  instant := λ w, (Z.of_nat w, S w);
  cb_of := λ _, new_breaker;
  with_cb := λ _ w, w;
  fresh_cell := λ w, (w, S w);
  thread_rng := λ w, (λ _, 0, w);
  adapter_chat := λ p _ _ _ w, (if bool_decide (p = lit "groq") then Err (down 400) else if bool_decide (p = lit "anthropic")
                                then Err denied_error else Ok (lit "hello"), S w);
|}.

(** A request that its first target answered with a 400 moves on, is denied at the next
    one, and still goes to the one after. *)
Example denied_hop_is_passed_over :
  outcome_of (@chat_dispatch promise_registry demo_blake3 nat bytes denying_world small_catalog no_alias small_regions CircuitBreaker.FALLBACK
    (λ _, true) true None small_limits 3 (small_request false NoRouting) (lit "groq/llama3") None 0%nat) ≫= (λ o, Some o.1.1)
  = Some [lit "groq/llama3"; lit "claude-3-5-sonnet-latest"; lit "gemini-1.5-pro"].
Proof. vm_compute. reflexivity. Qed.
