(* ===== verification/ProviderKeys.v ===== *)
(** * The cache of decrypted provider keys

    [crates/gateway/src/db/provider_keys.rs]: one entry per tenant, provider and label.
    An entry past its time to live is served while one refresh reads the row again; an
    entry that inherits the expiry of a customer's data key is never served past it.  A
    cold fill carries a ticket taken before it reads the row, and a write of the key takes
    the ticket away before it evicts the entry.

    A secret is an [Arc], so it has an address; a ticket is an address too.  The requests,
    the refreshes and the writers of keys interleave: a schedule is a list of events.  The
    theorems: what is served was the key's row at some moment since the key was last
    invalidated, a deleted key is never served again, and the map stays within its
    bound. *)

From Stdlib Require Import ZArith Lia.
From stdpp Require Import base list option strings gmap.
From S2P Require Import Prelude Encoding CircuitBreaker Dispatch.
Local Open Scope Z_scope.

(** The tenant, the provider and the label. *)
Abbreviation CacheKey := (bytes * bytes * bytes)%type.

Definition KEY_CACHE_TTL : Z := secs 900.
Definition MAX_CACHED_KEYS : Z := 50000.
Definition DEFAULT_KEY_STALE_MAX_SECS : Z := 21600.
Definition MAX_KEY_STALE_MAX_SECS : Z := 86400.

Definition parse_key_stale_max (raw : option bytes) : Z :=
  secs (match raw ≫= (λ v, parse_u64 (trim v)) with
        | Some s => if s <=? MAX_KEY_STALE_MAX_SECS then s else DEFAULT_KEY_STALE_MAX_SECS
        | None => DEFAULT_KEY_STALE_MAX_SECS
        end).

Record CachedKey := {
  ck_arc : nat;
  ck_secret : bytes;
  ck_fetched_at : Z;
  ck_expires_at : option Z;
  ck_refreshing : bool;
}.

(** [CachedKey::new], with an expiry. *)
Definition new_cached (arc : nat) (secret : bytes) (expires_at : option Z) (now : Z) : CachedKey :=
  {| ck_arc := arc; ck_secret := secret; ck_fetched_at := now; ck_expires_at := expires_at; ck_refreshing := false |}.

Definition set_refreshing (b : bool) (e : CachedKey) : CachedKey :=
  {| ck_arc := ck_arc e; ck_secret := ck_secret e; ck_fetched_at := ck_fetched_at e; ck_expires_at := ck_expires_at e; ck_refreshing := b |}.

Definition is_fresh (now : Z) (e : CachedKey) : bool :=
  match ck_expires_at e with
  | Some until => now <? until
  | None => since now (ck_fetched_at e) <? KEY_CACHE_TTL
  end.

Inductive Freshness : Type := Fresh | Stale | Expired.

Definition classify (age stale_max : Z) : Freshness :=
  if age <? KEY_CACHE_TTL then Fresh else if age <? KEY_CACHE_TTL + stale_max then Stale else Expired.

(** The map, the tickets of the fills under way, and the next address. *)
Record KeyStore := { key_cache : gmap CacheKey CachedKey; fills : gmap CacheKey nat; next_arc : nat }.

Definition empty_keys : KeyStore := {| key_cache := ∅; fills := ∅; next_arc := 0 |}.

Definition with_cache (m : gmap CacheKey CachedKey) (s : KeyStore) : KeyStore :=
  {| key_cache := m; fills := fills s; next_arc := next_arc s |}.

Definition with_fills (f : gmap CacheKey nat) (s : KeyStore) : KeyStore :=
  {| key_cache := key_cache s; fills := f; next_arc := next_arc s |}.

(** A new [Arc]. *)
Definition alloc (s : KeyStore) : nat * KeyStore :=
  (next_arc s, {| key_cache := key_cache s; fills := fills s; next_arc := S (next_arc s) |}).

Definition lookup_swr_labeled (k : CacheKey) (now stale_max : Z) (s : KeyStore) : CachedLookup * KeyStore :=
  match key_cache s !! k with
  | None => (CachedMiss, s)
  | Some e =>
      match ck_expires_at e with
      | Some until => (if now <? until then CachedFresh (ck_secret e) else CachedMiss, s)
      | None =>
          match classify (since now (ck_fetched_at e)) stale_max with
          | Fresh => (CachedFresh (ck_secret e), s)
          | Stale => (CachedStale (ck_secret e) (negb (ck_refreshing e)), with_cache (<[k := set_refreshing true e]> (key_cache s)) s)
          | Expired => (CachedMiss, s)
          end
      end
  end.

Definition begin_cold_fill (k : CacheKey) (s : KeyStore) : option nat * KeyStore :=
  let '(ticket, s) := alloc s in
  if (MAX_CACHED_KEYS <=? Z.of_nat (size (fills s))) && bool_decide (fills s !! k = None) then (None, s)
  else (Some ticket, with_fills (<[k := ticket]> (fills s)) s).

(** [Drop] of a fill: its ticket, if it is still the one in force. *)
Definition drop_fill (k : CacheKey) (ticket : nat) (s : KeyStore) : KeyStore :=
  if bool_decide (fills s !! k = Some ticket) then with_fills (delete k (fills s)) s else s.

(** A full map keeps its fresh entries. *)
Definition pruned (now : Z) (m : gmap CacheKey CachedKey) : gmap CacheKey CachedKey :=
  if MAX_CACHED_KEYS <=? Z.of_nat (size m) then filter (λ ke, is_fresh now ke.2 = true) m else m.

Definition cache_decrypted_locked (k : CacheKey) (arc : nat) (secret : bytes) (expires_at : option Z) (now : Z) (s : KeyStore) : KeyStore :=
  let m := pruned now (key_cache s) in
  if MAX_CACHED_KEYS <=? Z.of_nat (size m) then with_cache m s
  else with_cache (<[k := new_cached arc secret expires_at now]> m) s.

(** [ColdFill::publish]; the map itself is never swapped for another. *)
Definition publish (k : CacheKey) (ticket arc : nat) (secret : bytes) (expires_at : option Z) (now : Z) (s : KeyStore) : bool * KeyStore :=
  if bool_decide (fills s !! k = Some ticket) then (true, cache_decrypted_locked k arc secret expires_at now s) else (false, s).

(** The refresh applies to the entry it was claimed for. *)
Definition complete_refresh_labeled (k : CacheKey) (served arc : nat) (outcome : RefreshOutcome) (now : Z) (s : KeyStore) : KeyStore :=
  match key_cache s !! k with
  | Some e =>
      if bool_decide (ck_arc e = served) then
        match outcome with
        | Renewed secret => with_cache (<[k := new_cached arc secret None now]> (key_cache s)) s
        | RenewedUntil secret until => with_cache (<[k := new_cached arc secret until now]> (key_cache s)) s
        | Gone => with_cache (delete k (key_cache s)) s
        | RefreshFailed => with_cache (<[k := set_refreshing false e]> (key_cache s)) s
        end
      else s
  | None => s
  end.

Definition invalidate (k : CacheKey) (s : KeyStore) : KeyStore :=
  with_cache (delete k (key_cache s)) (with_fills (delete k (fills s)) s).

Definition invalidate_tenant (tenant : bytes) (s : KeyStore) : KeyStore :=
  with_cache (filter (λ ke, ke.1.1.1 ≠ tenant) (key_cache s)) (with_fills (filter (λ kt, kt.1.1.1 ≠ tenant) (fills s)) s).

(** ** Schedules *)

(** A request's own fill, or a refresh off the request path; both read the row once. *)
Inductive Task : Type :=
  | Filling (k : CacheKey) (ticket : nat) (row : option (option bytes))
  | Refreshing (k : CacheKey) (served : nat) (row : option (option bytes)).

(** The decrypted rows, the tasks under way, and, for each key, what its row was from its
    last invalidation on. *)
Record KeyWorld := {
  kw_store : KeyStore;
  kw_rows : gmap CacheKey bytes;
  kw_tasks : gmap nat Task;
  kw_since : CacheKey → list (option bytes);
}.

Definition kw_start (rows : gmap CacheKey bytes) : KeyWorld :=
  {| kw_store := empty_keys; kw_rows := rows; kw_tasks := ∅; kw_since := λ k, [rows !! k] |}.

Inductive Event : Type :=
  | EWrite (k : CacheKey) (v : option bytes)
  | EInvalidate (k : CacheKey)
  | EInvalidateTenant (tenant : bytes)
  | EBegin (id : nat) (k : CacheKey)
  | ERead (id : nat)
  | EPublish (id : nat) (expires_at : option Z) (now : Z)
  | EDrop (id : nat)
  | ELookup (id : nat) (k : CacheKey) (now stale_max : Z)
  | EComplete (id : nat) (until : option (option Z)) (now : Z)
  | EFail (id : nat) (outcome : RefreshOutcome) (now : Z).

Definition set_store (s : KeyStore) (w : KeyWorld) : KeyWorld :=
  {| kw_store := s; kw_rows := kw_rows w; kw_tasks := kw_tasks w; kw_since := kw_since w |}.

Definition set_task (id : nat) (t : option Task) (w : KeyWorld) : KeyWorld :=
  {| kw_store := kw_store w; kw_rows := kw_rows w; kw_tasks := partial_alter (λ _, t) id (kw_tasks w); kw_since := kw_since w |}.

Definition set_since (f : CacheKey → list (option bytes)) (w : KeyWorld) : KeyWorld :=
  {| kw_store := kw_store w; kw_rows := kw_rows w; kw_tasks := kw_tasks w; kw_since := f |}.

(** The outcome a refresh reports of a row that was read. *)
Definition outcome_of_row (row : option bytes) (until : option (option Z)) : RefreshOutcome :=
  match row with
  | None => Gone
  | Some s => match until with None => Renewed s | Some u => RenewedUntil s u end
  end.

(** An outcome without a key: the row did not decrypt, or the read failed. *)
Definition keyless (outcome : RefreshOutcome) : bool :=
  match outcome with Gone | RefreshFailed => true | _ => false end.

Definition key_step (w : KeyWorld) (e : Event) : KeyWorld :=
  let s := kw_store w in
  match e with
  | EWrite k v =>
      {| kw_store := s; kw_rows := partial_alter (λ _, v) k (kw_rows w); kw_tasks := kw_tasks w;
         kw_since := λ k', if decide (k' = k) then v :: kw_since w k' else kw_since w k' |}
  | EInvalidate k => set_since (λ k', if decide (k' = k) then [kw_rows w !! k'] else kw_since w k') (set_store (invalidate k s) w)
  | EInvalidateTenant t =>
      set_since (λ k', if decide (k'.1.1 = t) then [kw_rows w !! k'] else kw_since w k') (set_store (invalidate_tenant t s) w)
  | EBegin id k =>
      match kw_tasks w !! id with
      | Some _ => w
      | None => match begin_cold_fill k s with
                | (Some ticket, s) => set_task id (Some (Filling k ticket None)) (set_store s w)
                | (None, s) => set_store s w
                end
      end
  | ERead id =>
      match kw_tasks w !! id with
      | Some (Filling k ticket None) => set_task id (Some (Filling k ticket (Some (kw_rows w !! k)))) w
      | Some (Refreshing k served None) => set_task id (Some (Refreshing k served (Some (kw_rows w !! k)))) w
      | _ => w
      end
  | EPublish id expires_at now =>
      match kw_tasks w !! id with
      | Some (Filling k ticket (Some (Some secret))) =>
          let '(arc, s) := alloc s in
          set_task id None (set_store (drop_fill k ticket (publish k ticket arc secret expires_at now s).2) w)
      | _ => w
      end
  | EDrop id =>
      match kw_tasks w !! id with
      | Some (Filling k ticket _) => set_task id None (set_store (drop_fill k ticket s) w)
      | _ => w
      end
  | ELookup id k now stale_max =>
      match kw_tasks w !! id with
      | Some _ => w
      | None =>
          match lookup_swr_labeled k now stale_max s, key_cache s !! k with
          | (CachedStale _ true, s), Some e => set_task id (Some (Refreshing k (ck_arc e) None)) (set_store s w)
          | (_, s), _ => set_store s w
          end
      end
  | EComplete id until now =>
      match kw_tasks w !! id with
      | Some (Refreshing k served (Some row)) =>
          let '(arc, s) := alloc s in
          set_task id None (set_store (complete_refresh_labeled k served arc (outcome_of_row row until) now s) w)
      | _ => w
      end
  | EFail id outcome now =>
      match kw_tasks w !! id, keyless outcome with
      | Some (Refreshing k served _), true => set_task id None (set_store (complete_refresh_labeled k served 0 outcome now s) w)
      | _, _ => w
      end
  end.

Definition key_run (w : KeyWorld) (es : list Event) : KeyWorld := foldl key_step w es.

(** ** The invariant *)

Definition task_ok (w : KeyWorld) (t : Task) : Prop :=
  match t with
  | Filling k ticket row =>
      (ticket < next_arc (kw_store w))%nat ∧
      ∀ v, row = Some v → fills (kw_store w) !! k = Some ticket → v ∈ kw_since w k
  | Refreshing k served row =>
      (served < next_arc (kw_store w))%nat ∧
      ∀ v e, row = Some v → key_cache (kw_store w) !! k = Some e → ck_arc e = served → v ∈ kw_since w k
  end.

Record key_inv (w : KeyWorld) : Prop := {
  ki_arcs : ∀ k e, key_cache (kw_store w) !! k = Some e → (ck_arc e < next_arc (kw_store w))%nat ∧ Some (ck_secret e) ∈ kw_since w k;
  ki_tickets : ∀ k t, fills (kw_store w) !! k = Some t → (t < next_arc (kw_store w))%nat;
  ki_tasks : ∀ id t, kw_tasks w !! id = Some t → task_ok w t;
  ki_row : ∀ k, kw_rows w !! k ∈ kw_since w k;
  ki_size : Z.of_nat (size (key_cache (kw_store w))) ≤ MAX_CACHED_KEYS;
}.

(** A store with no entry and no ticket another did not have. *)
Definition within (s' s : KeyStore) : Prop :=
  (∀ k e', key_cache s' !! k = Some e' → ∃ e, key_cache s !! k = Some e ∧ ck_arc e' = ck_arc e ∧ ck_secret e' = ck_secret e) ∧
  (∀ k t, fills s' !! k = Some t → fills s !! k = Some t) ∧ (next_arc s ≤ next_arc s')%nat ∧
  (size (key_cache s') ≤ size (key_cache s))%nat.

Lemma within_refl s : within s s.
Proof. split_and!; eauto. Qed.

Lemma within_trans s1 s2 s3 : within s1 s2 → within s2 s3 → within s1 s3.
Proof.
  intros (C1 & F1 & N1 & S1) (C2 & F2 & N2 & S2). split_and!; [|eauto|lia|lia].
  intros k e (e1 & H1 & A1 & B1)%C1. destruct (C2 _ _ H1) as (e2 & H2 & A2 & B2). exists e2. split_and!; [done|congruence..].
Qed.

Lemma within_filter (P : CacheKey * CachedKey → Prop) `{∀ x, Decision (P x)} s : within (with_cache (filter P (key_cache s)) s) s.
Proof.
  split_and!; simpl; [|eauto|lia|].
  - intros k e [He _]%map_lookup_filter_Some. eauto.
  - apply map_subseteq_size, map_filter_subseteq.
Qed.

Lemma within_delete k s : within (with_cache (delete k (key_cache s)) s) s.
Proof.
  split_and!; simpl; [|eauto|lia|].
  - intros k' e [_ He]%lookup_delete_Some. eauto.
  - apply map_subseteq_size, delete_subseteq.
Qed.

Lemma within_mark k b e s : key_cache s !! k = Some e → within (with_cache (<[k := set_refreshing b e]> (key_cache s)) s) s.
Proof.
  intros He. split_and!; simpl; [|eauto|lia|by rewrite map_size_insert_Some].
  intros k' e'. destruct (decide (k' = k)) as [->|Hne]; [rewrite lookup_insert_eq|rewrite lookup_insert_ne by done]; [|eauto].
  intros [= <-]. by exists e.
Qed.

Lemma within_fills (f : gmap CacheKey nat) s : (∀ k t, f !! k = Some t → fills s !! k = Some t) → within (with_fills f s) s.
Proof. intros Hf. split_and!; simpl; eauto. Qed.

Lemma within_lookup k now stale_max s : within (lookup_swr_labeled k now stale_max s).2 s.
Proof.
  unfold lookup_swr_labeled. destruct (key_cache s !! k) as [e|] eqn:He; [|apply within_refl].
  destruct (ck_expires_at e); [apply within_refl|]. destruct (classify _ _); [apply within_refl| |apply within_refl]. by apply within_mark.
Qed.

Lemma within_drop k ticket s : within (drop_fill k ticket s) s.
Proof.
  unfold drop_fill. case_bool_decide; [|apply within_refl]. apply within_fills. by intros k' t [_ Ht]%lookup_delete_Some.
Qed.

Lemma within_keyless k served arc outcome now s : keyless outcome = true → within (complete_refresh_labeled k served arc outcome now s) s.
Proof.
  intros Ho. unfold complete_refresh_labeled. destruct (key_cache s !! k) as [e|] eqn:He; [|apply within_refl].
  case_bool_decide; [|apply within_refl]. destruct outcome; try done; [apply within_delete|by apply within_mark].
Qed.

Lemma within_alloc s : within (alloc s).2 s.
Proof. split_and!; simpl; eauto. Qed.

Lemma inv_within w s' : key_inv w → within s' (kw_store w) → key_inv (set_store s' w).
Proof.
  intros [Ha Ht Hk Hr Hs] (C & F & N & S). split; simpl.
  - intros k e (e0 & He & -> & ->)%C. apply Ha in He as [? ?]. split; [lia|done].
  - intros k t Hf. apply F, Ht in Hf. lia.
  - intros id t Hid. apply Hk in Hid. destruct t as [k ticket row|k served row]; simpl in *; destruct Hid as [Hlt Hv]; (split; [lia|]).
    + intros v Hrow Hf. apply F in Hf. by apply Hv.
    + intros v e Hrow (e0 & He & -> & _)%C Hs'. by eapply Hv.
  - done.
  - lia.
Qed.

Lemma inv_task w id t : key_inv w → (∀ t', t = Some t' → task_ok w t') → key_inv (set_task id t w).
Proof.
  intros [Ha Ht Hk Hr Hs] Ho. split; try done. simpl. intros id' t' Hid.
  assert (task_ok w t') as Hok; [|by destruct t'].
  destruct (decide (id' = id)) as [->|Hne]; [rewrite lookup_partial_alter_eq in Hid|rewrite lookup_partial_alter_ne in Hid by done]; eauto.
Qed.

(** A new entry, whose secret the key's row held, under an address of its own. *)
Lemma key_inv_insert w k secret expires_at now :
  key_inv w → Some secret ∈ kw_since w k →
  Z.of_nat (size (<[k := new_cached (next_arc (kw_store w)) secret expires_at now]> (key_cache (kw_store w)))) ≤ MAX_CACHED_KEYS →
  let s := (alloc (kw_store w)).2 in
  key_inv (set_store (with_cache (<[k := new_cached (next_arc (kw_store w)) secret expires_at now]> (key_cache s)) s) w).
Proof.
  intros [Ha Ht Hk Hr Hs] Hsec Hsize. split; simpl; try done.
  - intros k' e. destruct (decide (k' = k)) as [->|Hne]; [rewrite lookup_insert_eq|rewrite lookup_insert_ne by done].
    + intros [= <-]. simpl. split; [lia|done].
    + intros [? ?]%Ha. split; [lia|done].
  - intros k' t Hf. apply Ht in Hf. lia.
  - intros id t Hid. apply Hk in Hid. destruct t as [k' ticket row|k' served row]; simpl in *; destruct Hid as [Hlt Hv]; (split; [lia|]); [done|].
    intros v e Hrow. destruct (decide (k' = k)) as [->|Hne]; [rewrite lookup_insert_eq|rewrite lookup_insert_ne by done; by apply Hv].
    intros [= <-]. simpl. intros <-. lia.
Qed.

(** The keys of [P] were invalidated: what their rows were is forgotten. *)
Lemma inv_reset w (P : CacheKey → Prop) `{∀ k, Decision (P k)} :
  key_inv w → (∀ k, P k → key_cache (kw_store w) !! k = None ∧ fills (kw_store w) !! k = None) →
  key_inv (set_since (λ k, if decide (P k) then [kw_rows w !! k] else kw_since w k) w).
Proof.
  intros [Ha Ht Hk Hr Hs] HP. split; simpl; try done.
  - intros k e He. case_decide as Hp; [destruct (HP _ Hp); congruence|by apply Ha].
  - intros id t Hid. apply Hk in Hid. destruct t as [k ticket row|k served row]; simpl in *; destruct Hid as [Hlt Hv]; (split; [done|]).
    + intros v Hrow Hf. case_decide as Hp; [destruct (HP _ Hp); congruence|by apply Hv].
    + intros v e Hrow He. case_decide as Hp; [destruct (HP _ Hp); congruence|by apply Hv].
  - intros k. case_decide; [apply list_elem_of_singleton; done|apply Hr].
Qed.

Lemma cache_locked_cases k arc secret expires_at now s : Z.of_nat (size (key_cache s)) ≤ MAX_CACHED_KEYS →
  within (cache_decrypted_locked k arc secret expires_at now s) s ∨
  ∃ m, within (with_cache m s) s ∧ cache_decrypted_locked k arc secret expires_at now s = with_cache (<[k := new_cached arc secret expires_at now]> m) s ∧
       Z.of_nat (size (<[k := new_cached arc secret expires_at now]> m)) ≤ MAX_CACHED_KEYS.
Proof.
  intros Hs. unfold cache_decrypted_locked. set (m := pruned now (key_cache s)).
  assert (within (with_cache m s) s) as Hm by (unfold m, pruned; destruct (MAX_CACHED_KEYS <=? _); [apply within_filter|by destruct s; apply within_refl]).
  destruct (Z.leb_spec MAX_CACHED_KEYS (Z.of_nat (size m))); [by left|]. right. exists m. split_and!; try done.
  destruct (m !! k) eqn:Ek; [rewrite map_size_insert_Some by (by eexists); lia|rewrite map_size_insert_None by done; lia].
Qed.

(** ** Every step keeps it *)

Lemma inv_start rows : key_inv (kw_start rows).
Proof. split; simpl; try done. intros k. by apply list_elem_of_singleton. Qed.

Lemma inv_publish w id k ticket secret expires_at now :
  key_inv w → kw_tasks w !! id = Some (Filling k ticket (Some (Some secret))) →
  let '(arc, s) := alloc (kw_store w) in key_inv (set_store (drop_fill k ticket (publish k ticket arc secret expires_at now s).2) w).
Proof.
  intros Hi Hid. simpl. set (s := {| next_arc := S _ |}). unfold publish. case_bool_decide as Hf; simpl.
  - destruct (ki_tasks w Hi id _ Hid) as [_ Hv]. specialize (Hv _ eq_refl Hf).
    assert (∀ s', key_inv (set_store s' w) → key_inv (set_store (drop_fill k ticket s') w)) as Hdrop.
    { intros s' Hs'. apply (inv_within (set_store s' w)); [done|]. apply within_drop. }
    destruct (cache_locked_cases k (next_arc (kw_store w)) secret expires_at now s) as [Hw|(m & Hm & -> & Hsize)]; [apply (ki_size _ Hi)| |].
    + apply Hdrop, inv_within; [done|]. eapply within_trans; [exact Hw|apply within_alloc].
    + apply Hdrop. assert (key_inv (set_store (with_cache m (kw_store w)) w)) as Hi'.
      { apply inv_within; [done|]. destruct Hm as (C & F & _ & Sz). by split_and!. }
      exact (key_inv_insert _ k secret expires_at now Hi' Hv Hsize).
  - apply inv_within; [done|]. eapply within_trans; [apply within_drop|apply within_alloc].
Qed.

Lemma inv_complete w id k served row until now :
  key_inv w → kw_tasks w !! id = Some (Refreshing k served (Some row)) →
  let '(arc, s) := alloc (kw_store w) in key_inv (set_store (complete_refresh_labeled k served arc (outcome_of_row row until) now s) w).
Proof.
  intros Hi Hid. simpl. set (s := {| next_arc := S _ |}). unfold complete_refresh_labeled. simpl.
  assert (key_inv (set_store s w)) as Hskip by (apply inv_within; [done|apply within_alloc]).
  destruct (key_cache (kw_store w) !! k) as [e|] eqn:He; [|done]. case_bool_decide as Harc; [|done].
  destruct (ki_tasks w Hi id _ Hid) as [_ Hv]. specialize (Hv _ _ eq_refl He Harc).
  assert (∀ x, Z.of_nat (size (<[k := x]> (key_cache (kw_store w)))) ≤ MAX_CACHED_KEYS) as Hsize
    by (intros x; rewrite map_size_insert_Some by (by eexists); apply (ki_size _ Hi)).
  destruct row as [secret|]; [destruct until as [u|]; by apply key_inv_insert|].
  apply inv_within; [done|]. apply (within_trans _ s); [apply (within_delete k s)|apply within_alloc].
Qed.

Lemma key_step_inv w e : key_inv w → key_inv (key_step w e).
Proof.
  intros Hi. destruct e as [k v|k|t|id k|id|id expires now|id|id k now stale|id until now|id outcome now]; simpl.
  - destruct Hi as [Ha Ht Hk Hr Hs].
    assert (∀ k' x, x ∈ kw_since w k' → x ∈ (if decide (k' = k) then v :: kw_since w k' else kw_since w k')) as Hmono
      by (intros k' x Hx; case_decide; [by right|done]).
    split; simpl; try done.
    + intros k' e [? ?]%Ha. auto.
    + intros id t Hid. apply Hk in Hid. destruct t; simpl in *; destruct Hid as [? Hv]; split; [done| |done|]; intros; apply Hmono; eauto.
    + intros k'. case_decide as Hd; [subst; rewrite lookup_partial_alter_eq; left|]. rewrite lookup_partial_alter_ne by done. apply Hr.
  - apply (inv_reset (set_store (invalidate k (kw_store w)) w) (λ k', k' = k)).
    + apply inv_within; [done|]. eapply within_trans; [apply (within_delete k (with_fills _ _))|].
      apply within_fills. by intros k' t [_ ?]%lookup_delete_Some.
    + intros k' ->. simpl. by rewrite !lookup_delete_eq.
  - apply (inv_reset (set_store (invalidate_tenant t (kw_store w)) w) (λ k', k'.1.1 = t)).
    + apply inv_within; [done|]. eapply within_trans; [apply (within_filter _ (with_fills _ _))|].
      apply within_fills. by intros k' n [? _]%map_lookup_filter_Some.
    + intros k' Hk. simpl. split; apply map_lookup_filter_None; right; intros x _; simpl; by intros Hn; apply Hn.
  - destruct (kw_tasks w !! id); [done|]. unfold begin_cold_fill. simpl.
    destruct (_ && _); [apply inv_within; [done|apply within_alloc]|].
    destruct Hi as [Ha Ht Hk Hr Hs]. split; simpl; try done.
    + intros k' e [? ?]%Ha. split; [lia|done].
    + intros k' n. destruct (decide (k' = k)) as [->|Hne]; [rewrite lookup_insert_eq; intros [= <-]; lia|].
      rewrite lookup_insert_ne by done. intros Hf%Ht. lia.
    + intros id' t. destruct (decide (id' = id)) as [->|Hne].
      * rewrite lookup_partial_alter_eq. intros [= <-]. split; [simpl; lia|done].
      * rewrite lookup_partial_alter_ne by done. intros Hid%Hk. destruct t as [k' n row|k' n row]; simpl in *; destruct Hid as [Hlt Hv]; (split; [lia|]); [|done].
        intros v Hrow. destruct (decide (k' = k)) as [->|Hne']; [rewrite lookup_insert_eq; intros [= <-]; lia|].
        rewrite lookup_insert_ne by done. by apply Hv.
  - destruct (kw_tasks w !! id) as [[k n [row|]|k n [row|]]|] eqn:Hid; try done; apply inv_task; try done; intros ? [= <-];
      destruct (ki_tasks w Hi id _ Hid) as [Hlt _]; (split; [done|]); intros; simplify_eq; apply (ki_row _ Hi).
  - destruct (kw_tasks w !! id) as [[k n [[secret|]|]|k n row]|] eqn:Hid; try done. apply inv_task; [|done]. by apply (inv_publish w id).
  - destruct (kw_tasks w !! id) as [[k n row|k n row]|] eqn:Hid; try done. apply inv_task; [|done]. apply inv_within; [done|apply within_drop].
  - destruct (kw_tasks w !! id) eqn:Hid; [done|]. pose proof (within_lookup k now stale (kw_store w)) as Hw.
    destruct (lookup_swr_labeled k now stale (kw_store w)) as [r s] eqn:Hl. simpl in Hw. pose proof (inv_within w s Hi Hw) as Hs.
    destruct r as [x|x []|]; try done. destruct (key_cache (kw_store w) !! k) as [e|] eqn:He; [|done].
    apply inv_task; [done|]. intros ? [= <-]. destruct (ki_arcs w Hi k e He) as [Hlt _]. destruct Hw as (_ & _ & Hn & _). split; [simpl; lia|done].
  - destruct (kw_tasks w !! id) as [[k n row|k n [row|]]|] eqn:Hid; try done. apply inv_task; [|done]. by apply (inv_complete w id).
  - destruct (kw_tasks w !! id) as [[k n row|k n row]|] eqn:Hid; try done. destruct (keyless outcome) eqn:Ho; [|done].
    apply inv_task; [|done]. apply inv_within; [done|]. by apply within_keyless.
Qed.

Lemma key_run_inv w es : key_inv w → key_inv (key_run w es).
Proof. revert w. induction es as [|e es IH]; intros w Hi; [done|]. simpl. by apply IH, key_step_inv. Qed.

(** ** What is served *)

(** What a lookup hands out. *)
Definition handed (l : CachedLookup) : option bytes :=
  match l with CachedFresh s | CachedStale s _ => Some s | CachedMiss => None end.

Lemma lookup_inv k now stale_max s secret : handed (lookup_swr_labeled k now stale_max s).1 = Some secret →
  ∃ e, key_cache s !! k = Some e ∧ ck_secret e = secret ∧
    match ck_expires_at e with Some until => now < until | None => since now (ck_fetched_at e) < KEY_CACHE_TTL + Z.max 0 stale_max end.
Proof.
  unfold lookup_swr_labeled. destruct (key_cache s !! k) as [e|]; [|done]. destruct (ck_expires_at e) as [until|] eqn:Eu.
  - simpl. destruct (Z.ltb_spec now until); [|done]. intros [= <-]. exists e. by rewrite Eu.
  - unfold classify. destruct (Z.ltb_spec (since now (ck_fetched_at e)) KEY_CACHE_TTL);
      [|destruct (Z.ltb_spec (since now (ck_fetched_at e)) (KEY_CACHE_TTL + stale_max)); [|done]];
      intros [= <-]; exists e; rewrite Eu; split_and!; try done; lia.
Qed.

Lemma stale_max_bound raw : 0 ≤ parse_key_stale_max raw ≤ secs MAX_KEY_STALE_MAX_SECS.
Proof.
  unfold parse_key_stale_max, secs, MAX_KEY_STALE_MAX_SECS, DEFAULT_KEY_STALE_MAX_SECS. destruct raw as [raw|]; simpl; [|lia].
  destruct (parse_u64 (trim raw)) as [v|] eqn:Ev; [|lia]. apply parse_u64_bound in Ev. unfold is_u64 in Ev.
  destruct (Z.leb_spec v 86400); lia.
Qed.

(** Over any interleaving of requests, refreshes and writers: a key the cache hands out,
    and a key a cold fill may publish and use, was the key's row at some moment since the
    key was last invalidated; it is never past the expiry it inherited, and without one at
    most a day and a quarter of an hour old; and the map keeps to its bound. *)
Theorem served_key_is_current (rows : gmap CacheKey bytes) (es : list Event) (k : CacheKey) (now : Z) (raw : option bytes) (secret : bytes) :
  let w := key_run (kw_start rows) es in
  (handed (lookup_swr_labeled k now (parse_key_stale_max raw) (kw_store w)).1 = Some secret →
   Some secret ∈ kw_since w k ∧
   ∃ e, key_cache (kw_store w) !! k = Some e ∧
     match ck_expires_at e with Some until => now < until | None => since now (ck_fetched_at e) < secs (900 + 86400) end) ∧
  (∀ id ticket arc expires_at, kw_tasks w !! id = Some (Filling k ticket (Some (Some secret))) →
     (publish k ticket arc secret expires_at now (kw_store w)).1 = true → Some secret ∈ kw_since w k) ∧
  Z.of_nat (size (key_cache (kw_store w))) ≤ MAX_CACHED_KEYS.
Proof.
  intros w. pose proof (key_run_inv _ es (inv_start rows) : key_inv w) as Hi. split_and!.
  - intros (e & He & <- & Hage)%lookup_inv. split; [by apply (ki_arcs w Hi)|]. exists e. split; [done|].
    pose proof (stale_max_bound raw). unfold KEY_CACHE_TTL, MAX_KEY_STALE_MAX_SECS, secs in *. destruct (ck_expires_at e); [done|]. lia.
  - intros id ticket arc expires_at Hid. unfold publish. case_bool_decide as Hf; [|done]. intros _.
    destruct (ki_tasks w Hi id _ Hid) as [_ Hv]. by apply Hv.
  - apply Hi.
Qed.

(** ** A deleted key *)

(** The row is gone, and has been since the last invalidation. *)
Definition gone (k : CacheKey) (w : KeyWorld) : Prop := kw_rows w !! k = None ∧ ∀ v, v ∈ kw_since w k → v = None.

Lemma rows_step k w e : (∀ v, e ≠ EWrite k v) → kw_rows (key_step w e) !! k = kw_rows w !! k.
Proof.
  intros He. destruct e as [k' v| | | | | | | | |]; simpl; try (by repeat case_match).
  rewrite lookup_partial_alter_ne; [done|]. intros ->. by apply (He v).
Qed.

Lemma since_step k w e v : (∀ v, e ≠ EWrite k v) → v ∈ kw_since (key_step w e) k → v ∈ kw_since w k ∨ v = kw_rows w !! k.
Proof.
  intros He. destruct e as [k' v'|k'|t| | | | | | |]; simpl; try (by repeat case_match; left).
  - case_decide as Hk; [subst; by destruct (He v')|by left].
  - case_decide; [|by left]. intros ->%list_elem_of_singleton. by right.
  - case_decide; [|by left]. intros ->%list_elem_of_singleton. by right.
Qed.

Lemma gone_run k es w : (∀ v, EWrite k v ∉ es) → gone k w → gone k (key_run w es).
Proof.
  revert w. induction es as [|e es IH]; intros w Hes Hg; [done|]. simpl.
  assert (∀ v, e ≠ EWrite k v) as He by (intros v ->; apply (Hes v); left).
  apply IH; [intros v Hin; apply (Hes v); by right|]. destruct Hg as [Hr Hs]. split; [by rewrite rows_step|].
  intros v [Hv| ->]%since_step; [by apply Hs|done|done].
Qed.

Lemma rows_run k es w : (∀ v, EWrite k v ∉ es) → kw_rows w !! k = None → kw_rows (key_run w es) !! k = None.
Proof.
  revert w. induction es as [|e es IH]; intros w Hes Hr; [done|]. simpl.
  apply IH; [intros v Hin; apply (Hes v); by right|]. rewrite rows_step; [done|]. intros v ->. apply (Hes v). left.
Qed.

(** C33. Revocation of a provider key.  Once a key was deleted and its cache entry
    invalidated, and as long as it is not stored again, no schedule of requests, fills
    that had read the old row, refreshes and writers makes the cache hand it out, and no
    fill that read it may use it. *)
Theorem deleted_key_is_never_served (rows : gmap CacheKey bytes) (before mid after : list Event) (k : CacheKey) (now stale_max : Z) :
  (∀ v, EWrite k v ∉ mid ++ after) →
  let w := key_run (kw_start rows) (before ++ EWrite k None :: mid ++ EInvalidate k :: after) in
  handed (lookup_swr_labeled k now stale_max (kw_store w)).1 = None ∧
  ∀ id ticket arc secret expires_at, kw_tasks w !! id = Some (Filling k ticket (Some (Some secret))) →
    (publish k ticket arc secret expires_at now (kw_store w)).1 = false.
Proof.
  intros Hno w. pose proof (key_run_inv _ (before ++ EWrite k None :: mid ++ EInvalidate k :: after) (inv_start rows) : key_inv w) as Hi.
  assert (gone k w) as [_ Hg].
  { unfold w, key_run. rewrite foldl_app. cbn [foldl]. rewrite foldl_app. cbn [foldl]. apply gone_run.
    - intros v Hv. apply (Hno v). apply elem_of_app. by right.
    - set (w1 := foldl key_step (key_step _ (EWrite k None)) mid).
      assert (kw_rows w1 !! k = None) as Hr.
      { apply rows_run; [intros v Hv; apply (Hno v), elem_of_app; by left|]. simpl. by rewrite lookup_partial_alter_eq. }
      split; [done|]. simpl. rewrite decide_True by done. intros v ->%list_elem_of_singleton. done. }
  split.
  - destruct (handed _) as [secret|] eqn:Hh; [|done]. apply lookup_inv in Hh as (e & He & _ & _).
    destruct (ki_arcs w Hi k e He) as [_ Hs]. by apply Hg in Hs.
  - intros id ticket arc secret expires_at Hid. unfold publish. case_bool_decide as Hf; [|done].
    destruct (ki_tasks w Hi id _ Hid) as [_ Hv]. specialize (Hv _ eq_refl Hf). by apply Hg in Hv.
Qed.

(** ** An example: a fill that read the row loses to the deletion *)

Definition example_key : CacheKey := (lit "t", lit "openai", lit "default").
Definition example_rows : gmap CacheKey bytes := {[example_key := lit "sk-1"]}.

Lemma deleted_key_is_never_served_witness :
  let w := key_run (kw_start example_rows)
             ([EBegin 1 example_key; ERead 1] ++ EWrite example_key None :: [EBegin 2 example_key] ++ EInvalidate example_key :: [EPublish 1 None 5]) in
  handed (lookup_swr_labeled example_key 6 0 (kw_store w)).1 = None.
Proof.
  apply (deleted_key_is_never_served example_rows [EBegin 1 example_key; ERead 1] [EBegin 2 example_key] [EPublish 1 None 5] example_key 6 0).
  intros v Hv. apply list_elem_of_In in Hv. simpl in Hv. naive_solver.
Defined.

(** Left alone, the same fill is served. *)
Example fill_is_served :
  handed (lookup_swr_labeled example_key 6 0
    (kw_store (key_run (kw_start example_rows) [EBegin 1 example_key; ERead 1; EPublish 1 None 5]))).1 = Some (lit "sk-1").
Proof. vm_compute. reflexivity. Qed.
